(* ===== verification/_CoqProject ===== *)
-Q . S2P
Prelude.v
Errors.v
Objects.v
Budget.v
Lru.v
Cursor.v
Odb.v
Rendezvous.v
Provider.v
RangeFetch.v
Layered.v
Decode.v
Snapshot.v
Graph.v
Ancestry.v
Refs.v
ProviderRefs.v
Pathspec.v
Tree.v
File.v
LocalOdb.v
Hydrate.v
LogWalk.v
Log.v
Btree.v
GitConfig.v
Submodules.v
Scan.v
BlobWalk.v
Search.v
Hunks.v
TreeDiff.v
Projection.v
Diff.v
PathHistory.v
Blame.v
RepoAdmin.v
Runtime.v
