(* ===== verification/Prelude.v ===== *)
(** * Gitility core: a verification development

    Gitility is a read-mostly Git library: a Rust core
    ([src/crates/gitility-core/src]) that answers queries against object
    stores under explicit budgets, called from Elixir through a NIF. This
    development models the core's data, stores and queries as executable
    functions and proves what makes them correct.

    ** The program

    Every query takes an [ObjectDb] (a store of Git objects), a [Budget]
    (counters with ceilings, a deadline and a cancellation flag) and its own
    options. Stores charge the budget as they read; the [LayeredOdb] composes
    stores with a verified-payload cache built on the [LruCache]. A [Snapshot]
    pins a commit and its root tree; tree listings, file reads and reference
    listings work on top of it and page their results through opaque cursors.
    Errors are one record type with a stable code.

    ** Files

    - [Prelude]: results and the state-and-error monad, machine integers,
      byte strings and their order, triples over the monad ([hoare]), the hint
      database [gitility] and the generic list lemmas.
    - [Errors] ([error.rs]), [Objects] ([object.rs], [verify.rs]): codes and
      error values; object IDs, hexadecimal, the hashed preimage, verification.
    - [Budget] ([budget.rs]): counters as fields of a record at u64 width with
      wrap-around additions, one definition per charge; the drop guards of the
      graph-read scopes restore the counters on both exits.
    - [Lru] ([lru.rs]): the slab of optional nodes, the free list, the two ends
      and the index map, with the pointer updates of every operation.
    - [Cursor] ([cursor.rs]): the byte layout, CRC-32 and FNV-1a.
    - [Odb] ([odb.rs], [static_odb.rs]): the trait as a record of operations
      with its default methods, the contract [LawfulDb] between stores and
      queries, and the in-memory store.
    - [Rendezvous]: the request rendezvous that the callback stores share (the
      pending tables, the reply channels and [send_and_wait]), as atomic actions
      of any number of threads; [Provider] ([provider_odb.rs]) and
      [ProviderRefs] ([provider_refs.rs]): the callback stores over it.
    - [RangeFetch] ([packfetch.rs], first half): pack manifests, the callback
      range transport over the same rendezvous, and the windowed download of an
      artifact in byte ranges.
    - [Layered] ([layered_odb.rs]): the cache layer and the layered store.
    - [Decode] ([decode.rs]): identities, commits, tags and trees.
    - [Snapshot] ([snapshot.rs]): opening and peeling.
    - [Graph]: the priority queue of the standard library and the measure of a
      search over parent links.
    - [Ancestry] ([ancestry.rs], [commit_graph.rs]): the reachability search,
      the caching adapter and the hiding of shallow parents.
    - [Refs] ([refs.rs]): symbolic resolution, reference cursors and the local
      reference store.
    - [Pathspec] ([pathspec.rs]), [Tree] ([tree.rs]), [File] ([file.rs]):
      pathspec matching and pruning, path resolution, the walk and the paged
      listing, the bounded file read.
    - [LocalOdb] ([local_odb.rs]): locating and opening a repository, its
      configuration and shallow file, the deep checksum scan, the reads.
    - [Hydrate] ([packfetch.rs], second half): the plan, the fetch, the
      verification and the publication of packs in a destination directory,
      with every system call a step that may fail.
    - [LogWalk], [Log] ([log.rs]): the chronological and the ordered commit
      walk, and the paged commit log over them.
    - [Btree]: ordered maps and the stable sort of the standard library.
    - [GitConfig] ([git_config.rs]), [Submodules] ([submodules.rs]): the
      configuration reader as a parser over the remaining bytes; declarations,
      gitlinks and their correlation.
    - [Scan], [BlobWalk], [Search] ([search.rs]): matching and scanning one
      blob, the traversal of the blobs below a tree, and the paged search.
    - [Hunks], [TreeDiff], [Projection], [Diff] ([diff.rs],
      [vendor/gix-diff]): the lines and hunks of a text patch, the engine's
      breadth-first comparison of two trees over the union of two stores, the
      trees projected to the pathspecs of a query, and the query over them.
    - [PathHistory] ([path_history.rs]): the walk of the log compared with its
      first parents at one path, on top of the diff and its rename tracker.
    - [Blame] ([blame.rs]): the checks of a blame, the adapter through which the
      engine reads objects, and the hunks made of its answer.
    - [RepoAdmin] ([repo_admin.rs]): the installation of a bare repository by
      way of a staging directory, and the reference transaction.
    - [Runtime] ([runtime/mod.rs]): the worker pool as a concurrent machine,
      one definition per atomic action, every interleaving of which is a run;
      the condition variable of the queue is a count of sleeping and of woken
      workers, with its notifications and spurious wake-ups as actions.

    ** How the code is modelled

    A function that may fail returns [result Error]. A function that also
    touches the budget or a store is a [ST (Budget * T) Error] computation:
    the world is the budget and the store's own state [T], and what was spent
    before an error stays spent. Integers are [N] or [Z] with the wrap-around,
    saturation or conversion of the source written out; lengths of byte
    strings are [nat]. A panic of the source is an error value that no run of
    the theorems produces. The locks of the layered store and of the queries are
    not modelled: their operations run one at a time, in the order of the
    sequence a theorem quantifies over. A callback store runs among peers: before
    each of its atomic actions the other threads perform any finite sequence of
    theirs, and before each of its cache sections they may have changed the
    caches. The job runtime is a step relation: a thread is the list of
    its pending atomic actions, and the locks are what makes an action atomic.

    Code outside the repository is a parameter: the digests ([Digests]), the
    clock and the cancellation flag ([Env]), the engine's object parser
    ([GixObject]), glob matcher ([GixGlob]), reference-name validator
    ([GixRef]) and reference store ([GixRefStore]), the byte searcher
    ([ByteFind]) and the regular expressions ([RegexEngine]), the transport and
    the peers of a callback store ([Peers], [CachePeers]), the object engine and
    its configuration reader ([GixOdb], [GixConfig]), the file system as a
    reader sees it ([LocalFs]) and the failures of its calls ([DiskFaults]),
    the line-diff algorithm ([BlobDiff]), the rename tracker of a diff, the
    blame engine ([GixBlame]), a tree of the reads it makes, the reference
    transactions and the new repositories of the engine ([GixRefs], [GixInit])
    and the failures of the calls that install one ([InitFaults]).
    What a theorem needs of them is a class of its own: a truthful provider, an
    honest range backend ([HonestRanges]), an engine that finds its objects
    ([StableEngine]), an algorithm whose edits are in order with equal lines
    between them ([LawfulBlobDiff]), a parser of trees that reads the format the
    query writes ([TreeFormat]), a transaction that checks before it changes
    ([EditsTransaction]). Each class has a concrete instance, on which the witnesses
    run. A crash during hydration is a crash of the process: what was written is
    kept, and nothing after it is done. Locks are poisoned only by a panic, so
    the errors of a poisoned lock do not appear.

    ** What is shown

    - The LRU cache refines an abstract list ordered by recency, for every
      sequence of operations; its weight stays within the capacity and an
      insertion evicts no more than it must. Capacities below the largest u64
      are assumed, since the saturating test cannot see an overflow there.
    - A charge is granted only within its ceiling, for every sequence of
      charges that does not wrap a counter; a stopped job spends nothing more;
      the graph-read scopes count a visit once.
    - Cursors decode exactly what was encoded for the same query; any single
      corrupted byte is refused.
    - A static store holds exactly verified objects; two objects that verify
      under one ID are equal unless the digest collides.
    - A layered store answers every read like the first layer that has the
      object, whatever its cache holds, satisfies [LawfulDb] when its layers
      do, and keeps its cache within its options.
    - A callback request is answered at most once under every interleaving,
      the death of the provider wakes every waiter, and a wait always ends with
      its request withdrawn. The provider store serves only payloads that verify
      whatever the provider replies, and satisfies [LawfulDb] when the provider
      is truthful about absence; a reference provider's pages and targets are
      served only when well formed.
    - A window of range requests leaves no request behind, however it ends; a
      downloaded artifact is the published one byte by byte when the backend is
      honest. At every moment of a hydration, and after a crash at any system
      call, the pack files at their final names are as they were or verify
      under their name; a hydration that succeeds leaves every pack of the
      manifest present. A local store serves only objects that verify, after
      the deep scan when it is asked for, and satisfies [LawfulDb].
    - Snapshots, peeling, path resolution, ancestry, file reads and symbolic
      references return what a relational specification of the repository
      says, and fail only when the store fails or the answer does not exist.
    - The iterative tree walk is the recursive pre-order; the pages of a
      listing of files concatenate to the entries of the full listing that the
      types and pathspecs select, although the walk prunes directories, for
      globs without an escape before their first wildcard; the pages of a
      reference listing concatenate to the whole.
    - A commit walk yields every reachable commit once: newest first among the
      discovered ones, or children before parents; the pages of the log
      concatenate to the walk within the time bounds, whatever the budgets of
      the calls, and a listed commit has the time and the parents of the walk.
    - A file read is what a reference on the list of lines gives: the lines
      that fit, the cut first line, the truncation flag and the line counts; its
      kind and its pointer are those of a grammar of texts.
    - Literal search in overlapped windows finds the leftmost occurrences; the
      spans recorded for a blob select its matching lines, their previews and
      contexts; the pages of a search concatenate to the matching lines of all
      selected blobs, its own cursors are accepted, and a page stays within its
      limits for any store.
    - A diff without rename tracking lists exactly the changes between two
      snapshots that its pathspecs select, sorted by path, up to its limit and
      up to two projected trees with one id; the hunks of a patch rebuild
      the new file from the old one and back, and every patch of a diff is such
      a patch between two blobs of the store, whatever renames and pathspecs do.
    - The pages of a path's history without renames concatenate to the commits
      of the walk whose tree differs from their first parent's at the path, and
      to the roots that have it, up to two projected trees with one id.
    - The hunks of a blame are the engine's entries one for one, with their
      commits, paths and lines and with what the store says of each commit.
    - In every state of the file system on the way to a bare repository the
      destination is as it was or the complete repository, unless the installed
      one does not open; other names are never touched. Writing references does
      what was asked without changing an existing one but [HEAD], or changes
      nothing, unless the file system breaks off the transaction of the engine.
    - Reading [.gitmodules] returns on any bytes, and reads back what is
      written; the submodule rows are, path by path, what the sections of the
      file, in name order, and the gitlinks say.
    - Under every interleaving of workers and clients a job has one terminal
      transition, at most one callback and at most one taker; admission keeps
      the queue and each owner within their limits; and the pool drains: a
      measure bounds the steps of the threads, no wake-up is lost, and when no
      thread can move every job is finished and the counters balance.
    - Runs that exhibit where the code departs from what it means to do:
      [Hydrate.probe_deletes_verified_pack],
      [Search.fitting_match_jams_search], [Tree.paging_loses_a_directory],
      [PathHistory.followed_source_is_a_pathspec],
      [Pathspec.escaped_pattern_is_pruned] and
      [Refs.sixteen_symbolic_edges_refused].

    ** Fuel

    Loops that are not structural take a fuel argument. Theorems about them
    give a bound that is enough: the number of resident entries for evictions,
    the length of the payload for tree entries and trimming, the number of
    entries and trees below the root for the walk, the number of commits and
    parent edges for ancestry and the commit walks, the number of listed items
    for pages, the length of the line or payload for windows and chunks, the
    request timeout over the wait slice for a rendezvous, twice the number of
    entries below both roots for the comparison of two trees, the size of an
    artifact over its chunk and of a file over its buffer. The
    bounded loops of the source (tag and symbolic hops) recurse on their bound.

    ** Not modelled

    The engine calls of [merge_base]; the rename tracker of the vendored diff
    engine and the platform it is given ([rewrite.rs]); network fetch
    ([fetch.rs]), which drives the engine; of the runtime, the process-wide thread budget
    and the bounded join of a shutdown; the term conversions of the NIF. *)

From Stdlib Require Import NArith ZArith Lia Strings.Byte Strings.String.
From stdpp Require Import prelude gmap strings list pretty sorting.

Open Scope N_scope.

(* ------------------------------------------------------------------ *)
(** ** Results and the state-and-error monad *)

(** Rust's [Result<A, E>]. *)
Inductive result (E A : Type) : Type :=
| Ok (a : A)
| Err (e : E).
Arguments Ok {E A} a.
Arguments Err {E A} e.

Definition rbind {E A B} (m : result E A) (k : A -> result E B) : result E B :=
  match m with
  | Ok a => k a
  | Err e => Err e
  end.

(** [Option::ok_or]. *)
Definition ok_or {E A} (e : E) (o : option A) : result E A :=
  match o with
  | Some a => Ok a
  | None => Err e
  end.

(** [Result::map_err]. *)
Definition map_err {E F A} (f : E -> F) (m : result E A) : result F A :=
  match m with
  | Ok a => Ok a
  | Err e => Err (f e)
  end.

(** [Result::ok]. *)
Definition res_ok {E A} (m : result E A) : option A :=
  match m with
  | Ok a => Some a
  | Err _ => None
  end.

(** Effectful code threads a world [W] (the budget, a store's own state) and
    may stop with an error; the world reached so far survives the error, as
    the counters of the source do. *)
Definition ST (W E A : Type) : Type := W -> result E A * W.

Definition sret {W E A} (a : A) : ST W E A := fun w => (Ok a, w).
Definition sthrow {W E A} (e : E) : ST W E A := fun w => (Err e, w).
Definition slift {W E A} (r : result E A) : ST W E A := fun w => (r, w).
Definition sbind {W E A B} (m : ST W E A) (k : A -> ST W E B) : ST W E B :=
  fun w => match m w with
           | (Ok a, w') => k a w'
           | (Err e, w') => (Err e, w')
           end.
Definition sget {W E A} (f : W -> A) : ST W E A := fun w => (Ok (f w), w).
Definition smap_err {W E A} (f : E -> E) (m : ST W E A) : ST W E A :=
  fun w => let '(r, w') := m w in (map_err f r, w').

Declare Scope gitility_scope.
Delimit Scope gitility_scope with git.
Notation "'let?' x := m 'in' k" := (rbind m (fun x => k))
  (at level 10, x pattern, m at level 100, k at level 200,
   format "'let?'  x  :=  m  'in' '//' k") : gitility_scope.
Notation "'let!' x := m 'in' k" := (sbind m (fun x => k))
  (at level 10, x pattern, m at level 100, k at level 200,
   format "'let!'  x  :=  m  'in' '//' k") : gitility_scope.
Open Scope gitility_scope.

(* ------------------------------------------------------------------ *)
(** ** Machine integers: [u8], [u16], [u32], [u64] as [N] with their width *)

Definition u16_max : N := 65535.
Definition u32_max : N := 4294967295.
Definition u64_max : N := 18446744073709551615.
Definition u64_mod : N := 18446744073709551616.

(** [u64::wrapping_add], which is also what [AtomicU64::fetch_add] stores. *)
Definition wadd64 (a b : N) : N := (a + b) mod u64_mod.
(** [AtomicU64::fetch_sub] wraps too. *)
Definition wsub64 (a b : N) : N := (a + (u64_mod - b)) mod u64_mod.
(** [u64::wrapping_mul]. *)
Definition wmul64 (a b : N) : N := (a * b) mod u64_mod.
(** [u64::saturating_add]. *)
Definition sadd64 (a b : N) : N := N.min (a + b) u64_max.
(** [u64::saturating_sub] is truncated subtraction on [N]. *)
Definition ssub64 (a b : N) : N := a - b.

(** [u64::checked_add] and [u64::checked_sub]. *)
Definition cadd64 (a b : N) : option N := if a + b <=? u64_max then Some (a + b) else None.
Definition csub64 (a b : N) : option N := if b <=? a then Some (a - b) else None.

(** [slice.len() as u64]. *)
Definition lenN {A} (l : list A) : N := N.of_nat (length l).

(** The value of a byte, and [n as u8]. *)
Definition byteN (b : byte) : N := Byte.to_N b.
Definition Nbyte (n : N) : byte := default x00 (Byte.of_N (n mod 256)).

(** [to_le_bytes] of an [n]-byte integer and [from_le_bytes]. *)
Fixpoint le_bytes (n : nat) (v : N) : list byte :=
  match n with
  | O => []
  | S n => Nbyte v :: le_bytes n (v / 256)
  end.

Fixpoint le_num (bs : list byte) : N :=
  match bs with
  | [] => 0
  | b :: bs => byteN b + 256 * le_num bs
  end.

(* ------------------------------------------------------------------ *)
(** ** Byte slices *)

Abbreviation bytes := (list byte).

#[export] Instance byte_eq_decision : EqDecision byte := Byte.byte_eq_dec.

#[export] Program Instance byte_countable : Countable byte :=
  inj_countable Byte.to_N Byte.of_N _.
Next Obligation. intros b. apply Byte.of_to_N. Qed.

(** A byte-string literal [b"..."]. *)
Definition bs (s : string) : bytes := list_byte_of_string s.

Definition beq (b c : byte) : bool := Byte.eqb b c.
Definition bytes_eqb (a b : bytes) : bool := bool_decide (a = b).

(** [slice.starts_with(prefix)] and [slice.strip_prefix(prefix)]. *)
Fixpoint strip_prefix (p l : bytes) : option bytes :=
  match p, l with
  | [], _ => Some l
  | x :: p, y :: l => if beq x y then strip_prefix p l else None
  | _ :: _, [] => None
  end.
Definition starts_with (l p : bytes) : bool :=
  match strip_prefix p l with Some _ => true | None => false end.
(** [slice.ends_with(suffix)]. *)
Definition ends_with (l p : bytes) : bool := starts_with (reverse l) (reverse p).

(** [iter().position(p)] and [iter().rposition(p)]. *)
Fixpoint position {A} (p : A -> bool) (l : list A) : option nat :=
  match l with
  | [] => None
  | x :: l => if p x then Some O else S <$> position p l
  end.
Definition rposition {A} (p : A -> bool) (l : list A) : option nat :=
  match position p (reverse l) with
  | Some i => Some (length l - 1 - i)%nat
  | None => None
  end.

(** [slice.split(p)]: the segments between separators, never an empty list. *)
Fixpoint split_on {A} (p : A -> bool) (l : list A) : list (list A) :=
  match l with
  | [] => [[]]
  | x :: l =>
      if p x then [] :: split_on p l
      else match split_on p l with
           | [] => [[x]]
           | s :: ss => (x :: s) :: ss
           end
  end.

(** [slice.split_inclusive(p)]: each separator stays at the end of its piece. *)
Fixpoint split_inclusive {A} (p : A -> bool) (l : list A) : list (list A) :=
  match l with
  | [] => []
  | x :: l =>
      if p x then [x] :: split_inclusive p l
      else match split_inclusive p l with
           | [] => [[x]]
           | s :: ss => (x :: s) :: ss
           end
  end.

(** [slice.chunks(n)], with the length of the list as fuel. *)
Fixpoint chunks {A} (fuel n : nat) (l : list A) : list (list A) :=
  match fuel, l with
  | S fuel, _ :: _ => take n l :: chunks fuel n (drop n l)
  | _, _ => []
  end.

(** [str::to_ascii_lowercase]. *)
Definition to_ascii_lowercase (l : bytes) : bytes :=
  (fun b => if (65 <=? byteN b) && (byteN b <=? 90) then Nbyte (byteN b + 32) else b) <$> l.

(** The lexicographic order of [&[u8]]. *)
Fixpoint bytes_cmp (a b : bytes) : comparison :=
  match a, b with
  | [], [] => Eq
  | [], _ :: _ => Lt
  | _ :: _, [] => Gt
  | x :: a, y :: b =>
      match N.compare (byteN x) (byteN y) with
      | Eq => bytes_cmp a b
      | c => c
      end
  end.
Definition bytes_ltb (a b : bytes) : bool :=
  match bytes_cmp a b with Lt => true | _ => false end.
Definition bytes_leb (a b : bytes) : bool :=
  match bytes_cmp a b with Gt => false | _ => true end.
Definition bytes_lt (a b : bytes) : Prop := bytes_cmp a b = Lt.

(* ------------------------------------------------------------------ *)
(** ** Automation *)

Create HintDb gitility discriminated.

(** Case analysis on the [match] and [if] of a hypothesis or the goal, with
    the equation kept. *)
Ltac case_step :=
  match goal with
  | H : context [match ?x with _ => _ end] |- _ => destruct x eqn:?; simplify_eq/=
  | |- context [match ?x with _ => _ end] => destruct x eqn:?; simplify_eq/=
  end.

(** Steps through the result monad in a hypothesis. *)
Ltac inv_res H :=
  unfold rbind, sbind, ok_or, map_err, slift, sret, sthrow, sget in H; repeat (case_match; simplify_eq/=).

(** Linear arithmetic over [nat] and [N] lengths. *)
Ltac len := rewrite ?length_app, ?length_cons, ?length_nil, ?length_take, ?length_drop,
              ?length_replicate, ?length_reverse, ?length_fmap in *; simpl in *; try lia.

(* ------------------------------------------------------------------ *)
(** ** Lemmas on the monads *)

Lemma rbind_Ok {E A B} (m : result E A) (k : A -> result E B) b :
  rbind m k = Ok b <-> exists a, m = Ok a /\ k a = Ok b.
Proof. destruct m; simpl; naive_solver. Qed.

Lemma ok_or_Ok {E A} (e : E) (o : option A) a : ok_or e o = Ok a <-> o = Some a.
Proof. destruct o; simpl; naive_solver. Qed.

Lemma negb_if {A} (b : bool) (x y : A) : (if negb b then x else y) = if b then y else x.
Proof. by destruct b. Qed.

Lemma if_Ok {E A} (b : bool) (e : E) (m : result E A) a :
  (if b then m else Err e) = Ok a <-> b = true /\ m = Ok a.
Proof. destruct b; naive_solver. Qed.

Lemma sbind_Ok {W E A B} (m : ST W E A) (k : A -> ST W E B) w b w' :
  sbind m k w = (Ok b, w') <-> exists a w1, m w = (Ok a, w1) /\ k a w1 = (Ok b, w').
Proof. unfold sbind. destruct (m w) as [[a|e] w1]; naive_solver. Qed.

Lemma sbind_assoc {W E A B C} (m : ST W E A) (f : A -> ST W E B) (g : B -> ST W E C) w :
  sbind (sbind m f) g w = sbind m (fun a => sbind (f a) g) w.
Proof. unfold sbind. by destruct (m w) as [[a|e] w1]. Qed.

(** Specifications of effectful code: from a world where [I] holds, [m]
    leaves a world where [I] holds, and ends with a value that satisfies [P]
    or an error that satisfies [F]. Every computation of the model is a total
    function, so this is total correctness up to the errors of [F]. *)
Definition outcome {E A} (F : E -> Prop) (P : A -> Prop) (r : result E A) : Prop :=
  match r with
  | Ok a => P a
  | Err e => F e
  end.

Definition hoare {W E A} (I : W -> Prop) (F : E -> Prop) (m : ST W E A) (P : A -> Prop) : Prop :=
  forall w, I w -> outcome F P (m w).1 /\ I (m w).2.

Section Hoare.
Context {W E : Type} (I : W -> Prop) (F : E -> Prop).

Lemma hoare_ret {A} (a : A) (P : A -> Prop) : P a -> hoare I F (sret a) P.
Proof. intros HP w Hw. by split. Qed.

Lemma hoare_throw {A} (e : E) (P : A -> Prop) : F e -> hoare I F (sthrow e) P.
Proof. intros HF w Hw. by split. Qed.

Lemma hoare_lift {A} (r : result E A) (P : A -> Prop) : outcome F P r -> hoare I F (slift r) P.
Proof. intros HP w Hw. by split. Qed.

Lemma hoare_bind {A B} (m : ST W E A) (k : A -> ST W E B) (P : A -> Prop) (Q : B -> Prop) :
  hoare I F m P -> (forall a, P a -> hoare I F (k a) Q) -> hoare I F (sbind m k) Q.
Proof.
  intros Hm Hk w Hw. destruct (Hm w Hw) as [Hr Hw1]. unfold sbind.
  destruct (m w) as [[a|e] w1]; simpl in *; [by apply (Hk a)|done].
Qed.

Lemma hoare_conseq {A} (m : ST W E A) (F' : E -> Prop) (P P' : A -> Prop) :
  hoare I F' m P' -> (forall e, F' e -> F e) -> (forall a, P' a -> P a) -> hoare I F m P.
Proof.
  intros Hm HF HP w Hw. destruct (Hm w Hw) as [Hr Hw1].
  split; [|done]. destruct (m w).1; simpl in *; auto.
Qed.

Lemma hoare_post {A} (m : ST W E A) (P P' : A -> Prop) :
  hoare I F m P' -> (forall a, P' a -> P a) -> hoare I F m P.
Proof. intros Hm HP. by eapply hoare_conseq. Qed.

Lemma hoare_map_err {A} (m : ST W E A) (f : E -> E) (F' : E -> Prop) (P : A -> Prop) :
  hoare I F' m P -> (forall e, F' e -> F (f e)) -> hoare I F (smap_err f m) P.
Proof.
  intros Hm HF w Hw. destruct (Hm w Hw) as [Hr Hw1]. unfold smap_err.
  destruct (m w) as [[a|e] w1]; simpl in *; auto.
Qed.

(** Reading a specification back at a run. *)
Lemma hoare_run {A} (m : ST W E A) (P : A -> Prop) w r w' :
  hoare I F m P -> I w -> m w = (r, w') -> outcome F P r /\ I w'.
Proof. intros Hm Hw Hr. specialize (Hm w Hw). by rewrite Hr in Hm. Qed.

End Hoare.

(** Specifications that relate the world before and after: [m], run from [w],
    ends with a result and a world that satisfy [Q]. *)
Definition wp {W E A} (m : ST W E A) (Q : result E A -> W -> Prop) (w : W) : Prop := Q (m w).1 (m w).2.

Section Wp.
Context {W E : Type}.

Lemma wp_ret {A} (a : A) (Q : result E A -> W -> Prop) w : Q (Ok a) w -> wp (sret a) Q w.
Proof. done. Qed.
Lemma wp_throw {A} (e : E) (Q : result E A -> W -> Prop) w : Q (Err e) w -> wp (sthrow e) Q w.
Proof. done. Qed.
Lemma wp_lift {A} (r : result E A) (Q : result E A -> W -> Prop) w : Q r w -> wp (slift r) Q w.
Proof. done. Qed.
Lemma wp_get {A} (f : W -> A) (Q : result E A -> W -> Prop) w : Q (Ok (f w)) w -> wp (sget f) Q w.
Proof. done. Qed.
Lemma wp_bind {A B} (m : ST W E A) (k : A -> ST W E B) (Q : result E B -> W -> Prop) w :
  wp m (fun r w' => match r with Ok a => wp (k a) Q w' | Err e => Q (Err e) w' end) w -> wp (sbind m k) Q w.
Proof. unfold wp, sbind. by destruct (m w) as [[a|e] w1]. Qed.
Lemma wp_mono {A} (m : ST W E A) (Q Q' : result E A -> W -> Prop) w :
  wp m Q w -> (forall r w', Q r w' -> Q' r w') -> wp m Q' w.
Proof. unfold wp. auto. Qed.
Lemma wp_run {A} (m : ST W E A) (Q : result E A -> W -> Prop) w r w' : wp m Q w -> m w = (r, w') -> Q r w'.
Proof. unfold wp. intros HQ Hm. by rewrite Hm in HQ. Qed.

End Wp.

(* ------------------------------------------------------------------ *)
(** ** Lemmas on bytes and little-endian integers *)

Lemma byteN_lt b : byteN b < 256.
Proof. unfold byteN. pose proof (Byte.to_N_bounded b). lia. Qed.

Lemma Nbyte_byteN b : Nbyte (byteN b) = b.
Proof.
  unfold Nbyte. rewrite N.mod_small by apply byteN_lt.
  unfold byteN. by rewrite Byte.of_to_N.
Qed.

Lemma byteN_Nbyte n : byteN (Nbyte n) = n mod 256.
Proof.
  unfold Nbyte, byteN. assert (n mod 256 < 256) as Hlt by (apply N.mod_lt; lia).
  destruct (Byte.of_N (n mod 256)) as [b|] eqn:E; simpl.
  - by apply Byte.to_of_N.
  - apply Byte.of_N_None_iff in E. lia.
Qed.

Lemma byteN_Nbyte_small n : n < 256 -> byteN (Nbyte n) = n.
Proof. intros. rewrite byteN_Nbyte. by apply N.mod_small. Qed.

Lemma byteN_inj b c : byteN b = byteN c -> b = c.
Proof. intros H. rewrite <- (Nbyte_byteN b), <- (Nbyte_byteN c). by f_equal. Qed.

Lemma Nbyte_mod n : Nbyte (n mod 256) = Nbyte n.
Proof. unfold Nbyte. by rewrite N.Div0.mod_mod. Qed.

Lemma beq_true b c : beq b c = true <-> b = c.
Proof.
  unfold beq. split; [apply Byte.byte_dec_bl|].
  intros ->. by apply Byte.byte_dec_lb.
Qed.

Lemma beq_refl b : beq b b = true.
Proof. by apply beq_true. Qed.

Lemma beq_false b c : beq b c = false <-> b <> c.
Proof. rewrite <- not_true_iff_false. by rewrite beq_true. Qed.

Lemma bytes_eqb_true a b : bytes_eqb a b = true <-> a = b.
Proof. unfold bytes_eqb. apply bool_decide_eq_true. Qed.

Lemma length_le_bytes n v : length (le_bytes n v) = n.
Proof. revert v. induction n; simpl; intros; f_equal; auto. Qed.

Lemma le_num_le_bytes n v : le_num (le_bytes n v) = v mod 256 ^ N.of_nat n.
Proof.
  revert v. induction n as [|n IH]; intros v.
  - simpl. by rewrite N.mod_1_r.
  - cbn [le_bytes le_num]. rewrite IH, byteN_Nbyte.
    rewrite Nat2N.inj_succ, N.pow_succ_r' .
    rewrite N.Div0.mod_mul_r. lia.
Qed.

Lemma le_num_le_bytes_small n v : v < 256 ^ N.of_nat n -> le_num (le_bytes n v) = v.
Proof. intros. rewrite le_num_le_bytes. by apply N.mod_small. Qed.

Lemma le_num_bound l : le_num l < 256 ^ lenN l.
Proof.
  unfold lenN. induction l as [|b l IH]; [simpl; lia|].
  cbn [le_num length]. rewrite Nat2N.inj_succ, N.pow_succ_r'.
  pose proof (byteN_lt b). nia.
Qed.

Lemma le_bytes_le_num l : le_bytes (length l) (le_num l) = l.
Proof.
  induction l as [|b l IH]; [done|].
  cbn [length le_bytes le_num]. f_equal.
  - rewrite <- (Nbyte_mod _), N.mul_comm, N.Div0.mod_add.
    rewrite N.mod_small by apply byteN_lt. apply Nbyte_byteN.
  - rewrite (N.mul_comm 256), N.div_add by lia.
    rewrite N.div_small by apply byteN_lt. apply IH.
Qed.

(* ------------------------------------------------------------------ *)
(** ** Lemmas on slices *)

Lemma strip_prefix_Some p l r : strip_prefix p l = Some r <-> l = p ++ r.
Proof.
  revert l. induction p as [|x p IH]; intros l; simpl; [naive_solver|].
  destruct l as [|y l]; [naive_solver|].
  destruct (beq x y) eqn:E.
  - apply beq_true in E as ->. rewrite IH. naive_solver.
  - apply beq_false in E. naive_solver.
Qed.

Lemma strip_prefix_None p l : strip_prefix p l = None <-> forall r, l <> p ++ r.
Proof.
  destruct (strip_prefix p l) as [r|] eqn:E.
  - apply strip_prefix_Some in E. naive_solver.
  - split; [|done]. intros _ r Hr. apply strip_prefix_Some in Hr. congruence.
Qed.

Lemma starts_with_true l p : starts_with l p = true <-> exists r, l = p ++ r.
Proof.
  unfold starts_with. destruct (strip_prefix p l) eqn:E.
  - apply strip_prefix_Some in E. naive_solver.
  - rewrite strip_prefix_None in E. naive_solver.
Qed.

Lemma ends_with_true l p : ends_with l p = true <-> exists r, l = r ++ p.
Proof.
  unfold ends_with. rewrite starts_with_true. split.
  - intros [r Hr]. exists (reverse r).
    rewrite <- (reverse_involutive l), Hr, reverse_app, reverse_involutive. done.
  - intros [r ->]. exists (reverse r). by rewrite reverse_app.
Qed.

Lemma position_Some {A} (p : A -> bool) l i :
  position p l = Some i ->
  exists pre x post, l = pre ++ x :: post /\ length pre = i /\ p x = true /\
                     Forall (fun y => p y = false) pre.
Proof.
  revert i. induction l as [|y l IH]; intros i; simpl; [done|].
  destruct (p y) eqn:E.
  - intros [= <-]. by exists [], y, l.
  - destruct (position p l) as [j|]; [|done]. intros [= <-].
    destruct (IH j eq_refl) as (pre & x & post & -> & <- & Hx & Hpre).
    exists (y :: pre), x, post. split_and!; auto.
Qed.

Lemma position_None {A} (p : A -> bool) l :
  position p l = None <-> Forall (fun y => p y = false) l.
Proof.
  induction l as [|y l IH]; simpl; [naive_solver|].
  rewrite Forall_cons, <- IH. destruct (p y); [naive_solver|].
  destruct (position p l); naive_solver.
Qed.

Lemma position_app_l {A} (p : A -> bool) pre x post :
  Forall (fun y => p y = false) pre -> p x = true ->
  position p (pre ++ x :: post) = Some (length pre).
Proof.
  induction 1 as [|y l Hy Hl IH]; intros Hx; simpl.
  - by rewrite Hx.
  - rewrite Hy, IH by done. done.
Qed.

Lemma rposition_Some {A} (p : A -> bool) l i :
  rposition p l = Some i ->
  exists pre x post, l = pre ++ x :: post /\ length pre = i /\ p x = true /\
                     Forall (fun y => p y = false) post.
Proof.
  unfold rposition. destruct (position p (reverse l)) as [j|] eqn:E; [|done].
  intros [= <-]. apply position_Some in E as (pre & x & post & Hl & <- & Hx & Hpre).
  exists (reverse post), x, (reverse pre).
  assert (l = reverse post ++ x :: reverse pre) as ->.
  { rewrite <- (reverse_involutive l), Hl, reverse_app, reverse_cons, <- app_assoc. done. }
  split_and!; [done| |done|].
  - rewrite length_app, length_cons, !length_reverse. lia.
  - by apply Forall_reverse.
Qed.

Lemma rposition_app_r {A} (p : A -> bool) pre x post :
  Forall (fun y => p y = false) post -> p x = true ->
  rposition p (pre ++ x :: post) = Some (length pre).
Proof.
  intros Hp Hx. unfold rposition. rewrite reverse_app, reverse_cons, <- app_assoc. simpl.
  rewrite position_app_l; [|by apply Forall_reverse|done].
  f_equal. rewrite length_app, length_reverse. simpl. lia.
Qed.

Lemma rposition_None {A} (p : A -> bool) l :
  rposition p l = None <-> Forall (fun y => p y = false) l.
Proof.
  unfold rposition. destruct (position p (reverse l)) as [j|] eqn:E.
  - apply position_Some in E as (pre & x & post & Hl & _ & Hx & _).
    split; [done|]. intros HF. rewrite <- (reverse_involutive l), Hl in HF.
    apply Forall_reverse in HF. rewrite reverse_involutive in HF.
    apply Forall_app in HF as [_ HF]. apply Forall_cons in HF as [HF _]. congruence.
  - split; [|done]. intros _. apply position_None in E.
    apply Forall_reverse in E. by rewrite reverse_involutive in E.
Qed.

(** The chunks of a list, in order, make the list, and none is longer than
    asked. *)
Lemma concat_chunks {A} fuel n (l : list A) :
  (0 < n)%nat -> (length l <= fuel)%nat -> concat (chunks fuel n l) = l.
Proof.
  intros Hn. revert l. induction fuel as [|fuel IH]; intros [|x l] Hl; simpl in *; [done|lia|done|].
  destruct n as [|n]; [lia|]. simpl. rewrite IH; [by rewrite take_drop|]. rewrite length_drop. lia.
Qed.
Lemma chunks_bound {A} fuel n (l : list A) : Forall (fun c => (length c <= n)%nat) (chunks fuel n l).
Proof.
  revert l. induction fuel as [|fuel IH]; intros [|x l]; simpl; constructor; [|done].
  rewrite length_take. lia.
Qed.


(** Cutting a slice around a position. *)
Lemma drop_mid {A} (a : list A) x b : drop (length a + 1) (a ++ x :: b) = b.
Proof. by rewrite drop_app_add. Qed.

Lemma take_mid {A} (a : list A) x b : take (length a) (a ++ x :: b) = a.
Proof. by rewrite take_app_length. Qed.

(** A separator that does not occur before it delimits uniquely. *)
Lemma app_sep_inj {A} (c : A) a a' r r' :
  Forall (fun y => y <> c) a -> Forall (fun y => y <> c) a' ->
  a ++ c :: r = a' ++ c :: r' -> a = a' /\ r = r'.
Proof.
  intros Ha. revert a'. induction Ha as [|x a Hx Ha IH]; intros a' Ha' E.
  - destruct a' as [|y a']; simplify_eq/=; [done|].
    apply Forall_cons in Ha' as [Hy _]. done.
  - destruct a' as [|y a']; simplify_eq/=.
    apply Forall_cons in Ha' as [_ Ha'].
    destruct (IH a' Ha') as [-> ->]; done.
Qed.

(* ------------------------------------------------------------------ *)
(** ** The byte order is a strict total order *)

Lemma bytes_cmp_refl a : bytes_cmp a a = Eq.
Proof. induction a as [|x a IH]; simpl; [done|]. by rewrite N.compare_refl. Qed.

Lemma bytes_cmp_eq a b : bytes_cmp a b = Eq <-> a = b.
Proof.
  split; [|intros ->; apply bytes_cmp_refl].
  revert b. induction a as [|x a IH]; intros [|y b]; simpl; try done.
  destruct (N.compare_spec (byteN x) (byteN y)) as [E| |]; try done.
  apply byteN_inj in E as ->. intros E. by rewrite (IH b).
Qed.

Lemma bytes_cmp_antisym a b : bytes_cmp b a = CompOpp (bytes_cmp a b).
Proof.
  revert b. induction a as [|x a IH]; intros [|y b]; simpl; try done.
  rewrite N.compare_antisym, IH. by destruct (N.compare (byteN x) (byteN y)).
Qed.

Lemma bytes_lt_trans a b c : bytes_lt a b -> bytes_lt b c -> bytes_lt a c.
Proof.
  unfold bytes_lt. revert b c.
  induction a as [|x a IH]; intros [|y b] [|z c]; simpl; try done.
  destruct (N.compare_spec (byteN x) (byteN y)) as [E1|E1|E1]; try done;
  destruct (N.compare_spec (byteN y) (byteN z)) as [E2|E2|E2]; try done; intros H1 H2.
  - replace (N.compare (byteN x) (byteN z)) with Eq by (symmetry; apply N.compare_eq_iff; lia).
    by apply (IH b).
  - by replace (N.compare (byteN x) (byteN z)) with Lt by (symmetry; apply N.compare_lt_iff; lia).
  - by replace (N.compare (byteN x) (byteN z)) with Lt by (symmetry; apply N.compare_lt_iff; lia).
  - by replace (N.compare (byteN x) (byteN z)) with Lt by (symmetry; apply N.compare_lt_iff; lia).
Qed.

Lemma bytes_lt_irrefl a : ~ bytes_lt a a.
Proof. unfold bytes_lt. by rewrite bytes_cmp_refl. Qed.

Lemma bytes_ltb_lt a b : bytes_ltb a b = true <-> bytes_lt a b.
Proof. unfold bytes_ltb, bytes_lt. by destruct (bytes_cmp a b). Qed.

Lemma bytes_leb_ltb a b : bytes_leb a b = negb (bytes_ltb b a).
Proof. unfold bytes_leb, bytes_ltb. rewrite (bytes_cmp_antisym a b). by destruct (bytes_cmp a b). Qed.

Lemma bytes_lt_total a b : bytes_lt a b \/ a = b \/ bytes_lt b a.
Proof.
  unfold bytes_lt. rewrite (bytes_cmp_antisym a b).
  destruct (bytes_cmp a b) eqn:E; [right; left; by apply bytes_cmp_eq|by left|by right; right].
Qed.

Lemma bytes_cmp_app p a b : bytes_cmp (p ++ a) (p ++ b) = bytes_cmp a b.
Proof. induction p as [|x p IH]; simpl; [done|]. by rewrite N.compare_refl. Qed.

Lemma bytes_lt_prefix a x r : bytes_lt a (a ++ x :: r).
Proof. unfold bytes_lt. rewrite <- (app_nil_r a) at 1. by rewrite bytes_cmp_app. Qed.

(** Either one string continues the other or they part at some byte. *)
Lemma bytes_lt_inv a b :
  bytes_lt a b ->
  (exists x r, b = a ++ x :: r) \/
  (exists p x y ra rb, a = p ++ x :: ra /\ b = p ++ y :: rb /\ byteN x < byteN y).
Proof.
  unfold bytes_lt. revert b. induction a as [|x a IH]; intros [|y b]; simpl; try done.
  - intros _. left. by exists y, b.
  - destruct (N.compare_spec (byteN x) (byteN y)) as [E|E|E]; [|intros _|done].
    + apply byteN_inj in E as ->. intros [(z & r & ->)|(p & u & v & ra & rb & -> & -> & Hlt)]%IH.
      * left. by exists z, r.
      * right. by exists (y :: p), u, v, ra, rb.
    + right. by exists [], x, y, a, b.
Qed.

Lemma bytes_lt_part p x y ra rb : byteN x < byteN y -> bytes_lt (p ++ x :: ra) (p ++ y :: rb).
Proof. intros Hlt. unfold bytes_lt. rewrite bytes_cmp_app. simpl. by rewrite (proj2 (N.compare_lt_iff _ _)). Qed.

Lemma bytes_lt_app p a b : bytes_lt (p ++ a) (p ++ b) <-> bytes_lt a b.
Proof. unfold bytes_lt. by rewrite bytes_cmp_app. Qed.

#[export] Instance bytes_lt_strict : StrictOrder bytes_lt.
Proof. split; [intros a; apply bytes_lt_irrefl|intros a b c; apply bytes_lt_trans]. Qed.

(* ------------------------------------------------------------------ *)
(** ** Filters that keep nothing or everything *)

Lemma filter_none {A} (P : A -> Prop) `{forall x, Decision (P x)} (l : list A) :
  (forall x, x ∈ l -> ~ P x) -> filter P l = [].
Proof.
  induction l as [|x l IH]; intros Hl; [done|].
  rewrite filter_cons, decide_False by (apply Hl; left). apply IH. intros y Hy. apply Hl. by right.
Qed.

Lemma filter_all {A} (P : A -> Prop) `{forall x, Decision (P x)} (l : list A) :
  (forall x, x ∈ l -> P x) -> filter P l = l.
Proof.
  induction l as [|x l IH]; intros Hl; [done|].
  rewrite filter_cons, decide_True by (apply Hl; left). f_equal. apply IH. intros y Hy. apply Hl. by right.
Qed.

(* ------------------------------------------------------------------ *)
(** ** Sorted listings resumed after a name *)

Lemma StronglySorted_filter {A} (R : relation A) (P : A -> Prop) `{forall x, Decision (P x)} l :
  StronglySorted R l -> StronglySorted R (filter P l).
Proof.
  induction 1 as [|x l Hl IH Hx]; [constructor|]. rewrite filter_cons. case_decide; [|done].
  constructor; [done|]. rewrite Forall_forall in *. intros y [_ Hy]%list_elem_of_filter. by apply Hx.
Qed.

Lemma bytes_leb_false a b : bytes_leb a b = false <-> bytes_lt b a.
Proof. rewrite bytes_leb_ltb, negb_false_iff. apply bytes_ltb_lt. Qed.

Lemma bytes_leb_true a b : bytes_leb a b = true <-> ~ bytes_lt b a.
Proof. rewrite bytes_leb_ltb, negb_true_iff, <- bytes_ltb_lt. by destruct (bytes_ltb b a). Qed.

(** In a strictly sorted list, what lies after the last element of a prefix is
    the rest. *)
Lemma sorted_after (found rest : list bytes) (x : bytes) :
  StronglySorted bytes_lt (found ++ rest) -> last found = Some x ->
  filter (fun n => bytes_leb n x = false) (found ++ rest) = rest.
Proof.
  intros Hs Hx. apply last_Some in Hx as [pre ->]. rewrite filter_app.
  rewrite filter_none, filter_all; [done|..].
  - intros y Hy. apply bytes_leb_false. eapply StronglySorted_app_1_elem_of; [exact Hs| |done]. set_solver.
  - intros y Hy. rewrite not_false_iff_true, bytes_leb_true. intros Hlt.
    apply elem_of_app in Hy as [Hy|Hy%list_elem_of_singleton].
    + apply (bytes_lt_irrefl x). etransitivity; [exact Hlt|]. rewrite <- app_assoc in Hs.
      eapply StronglySorted_app_1_elem_of; [exact Hs|done|set_solver].
    + subst. by apply (bytes_lt_irrefl x).
Qed.

(** *** Lines *)

Lemma split_inclusive_line {A} (p : A -> bool) s x rest :
  Forall (fun y => p y = false) s -> p x = true ->
  split_inclusive p (s ++ x :: rest) = (s ++ [x]) :: split_inclusive p rest.
Proof.
  induction 1 as [|y s Hy Hs IH]; intros Hx; simpl; [by rewrite Hx|].
  by rewrite Hy, IH by done.
Qed.

Lemma concat_split_inclusive {A} (p : A -> bool) l : concat (split_inclusive p l) = l.
Proof.
  induction l as [|x l IH]; simpl; [done|]. destruct (p x); simpl; [by rewrite IH|].
  destruct (split_inclusive p l) as [|s ss]; simpl in *; by rewrite <- IH.
Qed.

Lemma split_on_ne {A} (f : A -> bool) l : split_on f l <> [].
Proof. destruct l as [|x l]; simpl; [done|]. destruct (f x); [done|]. by destruct (split_on f l). Qed.
