(* ===== verification/Errors.v ===== *)
(** * The normalized error contract ([error.rs]) and the identity types it names

    [ErrorCode], [Error] and the builder methods of [error.rs]. [HashKind] and
    [Oid] of [object.rs] are declared here because an [Error] may carry an
    [Oid] while the constructors of [Oid] (file [Objects]) return an [Error]. *)

From Stdlib Require Import NArith Lia Strings.Byte Strings.String.
From stdpp Require Import prelude gmap strings list.
From S2P Require Import Prelude.

Open Scope N_scope.

(** [object.rs: HashKind]. *)
Inductive HashKind : Type :=
| Sha1
| Sha256.

(** [object.rs: Oid]: the algorithm and an inline, zero-padded digest array. *)
Record Oid : Type := mkOid {
  oid_kind : HashKind;
  oid_raw : bytes
}.

#[export] Instance HashKind_eq_decision : EqDecision HashKind.
Proof. solve_decision. Defined.
#[export] Instance Oid_eq_decision : EqDecision Oid.
Proof. solve_decision. Defined.

#[export] Program Instance HashKind_countable : Countable HashKind :=
  inj_countable' (fun k => match k with Sha1 => true | Sha256 => false end)
                 (fun b : bool => if b then Sha1 else Sha256) _.
Next Obligation. by intros []. Qed.
#[export] Program Instance Oid_countable : Countable Oid :=
  inj_countable' (fun o => (oid_kind o, oid_raw o)) (fun p => mkOid p.1 p.2) _.
Next Obligation. by intros []. Qed.

(** [ErrorCode]: the stable error codes. *)
Inductive ErrorCode : Type :=
| InvalidArgument
| InvalidOid
| InvalidPath
| InvalidCursor
| UnsupportedHash
| UnsupportedOperation
| UnsupportedRegex
| NotACommit
| NotATree
| NotABlob
| RefNotFound
| AmbiguousPrefix
| NotFound
| MissingObject
| ShallowBoundary
| MalformedObject
| MalformedBundle
| MalformedRef
| HashMismatch
| PackChecksumMismatch
| IndexChecksumMismatch
| ObjectTooLarge
| BudgetExceeded
| ResultTooLarge
| Timeout
| AwaitTimeout
| Cancelled
| Busy
| Conflict
| AuthenticationFailed
| NetworkError
| CleanupFailed
| CredentialsUnavailable
| ProviderDown
| ProviderTimeout
| ProviderProtocolError
| BackendError
| RuntimeMismatch
| InternalError.

#[export] Instance ErrorCode_eq_decision : EqDecision ErrorCode.
Proof. solve_decision. Defined.

(** [ErrorCode::all]. *)
Definition ErrorCode_all : list ErrorCode :=
  [ InvalidArgument;
    InvalidOid;
    InvalidPath;
    InvalidCursor;
    UnsupportedHash;
    UnsupportedOperation;
    UnsupportedRegex;
    NotACommit;
    NotATree;
    NotABlob;
    RefNotFound;
    AmbiguousPrefix;
    NotFound;
    MissingObject;
    ShallowBoundary;
    MalformedObject;
    MalformedBundle;
    MalformedRef;
    HashMismatch;
    PackChecksumMismatch;
    IndexChecksumMismatch;
    ObjectTooLarge;
    BudgetExceeded;
    ResultTooLarge;
    Timeout;
    AwaitTimeout;
    Cancelled;
    Busy;
    Conflict;
    AuthenticationFailed;
    NetworkError;
    CleanupFailed;
    CredentialsUnavailable;
    ProviderDown;
    ProviderTimeout;
    ProviderProtocolError;
    BackendError;
    RuntimeMismatch;
    InternalError ].

(** [ErrorCode::as_str]. *)
Definition ErrorCode_as_str (c : ErrorCode) : string :=
  match c with
  | InvalidArgument => "invalid_argument"
  | InvalidOid => "invalid_oid"
  | InvalidPath => "invalid_path"
  | InvalidCursor => "invalid_cursor"
  | UnsupportedHash => "unsupported_hash"
  | UnsupportedOperation => "unsupported_operation"
  | UnsupportedRegex => "unsupported_regex"
  | NotACommit => "not_a_commit"
  | NotATree => "not_a_tree"
  | NotABlob => "not_a_blob"
  | RefNotFound => "ref_not_found"
  | AmbiguousPrefix => "ambiguous_prefix"
  | NotFound => "not_found"
  | MissingObject => "missing_object"
  | ShallowBoundary => "shallow_boundary"
  | MalformedObject => "malformed_object"
  | MalformedBundle => "malformed_bundle"
  | MalformedRef => "malformed_ref"
  | HashMismatch => "hash_mismatch"
  | PackChecksumMismatch => "pack_checksum_mismatch"
  | IndexChecksumMismatch => "index_checksum_mismatch"
  | ObjectTooLarge => "object_too_large"
  | BudgetExceeded => "budget_exceeded"
  | ResultTooLarge => "result_too_large"
  | Timeout => "timeout"
  | AwaitTimeout => "await_timeout"
  | Cancelled => "cancelled"
  | Busy => "busy"
  | Conflict => "conflict"
  | AuthenticationFailed => "authentication_failed"
  | NetworkError => "network_error"
  | CleanupFailed => "cleanup_failed"
  | CredentialsUnavailable => "credentials_unavailable"
  | ProviderDown => "provider_down"
  | ProviderTimeout => "provider_timeout"
  | ProviderProtocolError => "provider_protocol_error"
  | BackendError => "backend_error"
  | RuntimeMismatch => "runtime_mismatch"
  | InternalError => "internal_error"
  end.

(** [ErrorOrder], [ErrorFile] and the private [ErrorLine]. *)
Inductive ErrorOrder : Type :=
| Topological
| Date.

Definition ErrorOrder_as_str (o : ErrorOrder) : string :=
  match o with
  | Topological => "topological"
  | Date => "date"
  end.

Inductive ErrorFile : Type :=
| Shallow
| Gitmodules.

Definition ErrorFile_as_str (f : ErrorFile) : string :=
  match f with
  | Shallow => "shallow"
  | Gitmodules => ".gitmodules"
  end.

Inductive ErrorLine : Type :=
| Count (n : N)
| Source (n : N).

(** [Error]. *)
Record Error : Type := mkError {
  code : ErrorCode;
  message : string;
  retryable : bool;
  limit : option string;
  layer : option N;
  object_oid : option Oid;
  order : option ErrorOrder;
  err_file : option ErrorFile;
  reason : option string;
  err_line : option ErrorLine
}.

(** [Error::new] and [Error::retryable]. *)
Definition Error_new (c : ErrorCode) (m : string) : Error :=
  mkError c m false None None None None None None None.
Definition Error_retryable (c : ErrorCode) (m : string) : Error :=
  mkError c m true None None None None None None None.

(** The builder methods. *)
Definition with_limit (l : string) (e : Error) : Error :=
  mkError (code e) (message e) (retryable e) (Some l) (layer e) (object_oid e)
          (order e) (err_file e) (reason e) (err_line e).
Definition with_layer (i : nat) (e : Error) : Error :=
  mkError (code e) (message e) (retryable e) (limit e) (Some (N.of_nat i)) (object_oid e)
          (order e) (err_file e) (reason e) (err_line e).
Definition with_oid (o : Oid) (e : Error) : Error :=
  mkError (code e) (message e) (retryable e) (limit e) (layer e) (Some o)
          (order e) (err_file e) (reason e) (err_line e).
Definition with_oid_if_none (o : Oid) (e : Error) : Error :=
  match object_oid e with
  | Some _ => e
  | None => with_oid o e
  end.
Definition with_order (o : ErrorOrder) (e : Error) : Error :=
  mkError (code e) (message e) (retryable e) (limit e) (layer e) (object_oid e)
          (Some o) (err_file e) (reason e) (err_line e).
Definition with_file (f : ErrorFile) (e : Error) : Error :=
  mkError (code e) (message e) (retryable e) (limit e) (layer e) (object_oid e)
          (order e) (Some f) (reason e) (err_line e).
Definition with_reason (r : string) (e : Error) : Error :=
  mkError (code e) (message e) (retryable e) (limit e) (layer e) (object_oid e)
          (order e) (err_file e) (Some r) (err_line e).
Definition with_line_count (n : N) (e : Error) : Error :=
  mkError (code e) (message e) (retryable e) (limit e) (layer e) (object_oid e)
          (order e) (err_file e) (reason e) (Some (Count n)).
Definition line_count (e : Error) : option N :=
  match err_line e with
  | Some (Count n) => Some n
  | Some (Source _) | None => None
  end.
Definition with_line (n : N) (e : Error) : Error :=
  mkError (code e) (message e) (retryable e) (limit e) (layer e) (object_oid e)
          (order e) (err_file e) (reason e) (Some (Source n)).
Definition line (e : Error) : option N :=
  match err_line e with
  | Some (Source n) => Some n
  | Some (Count _) | None => None
  end.

(** [Display for Error]. *)
Definition Error_display (e : Error) : string :=
  (message e ++ " (" ++ ErrorCode_as_str (code e) ++ ")")%string.

(** The result type every operation of the crate returns. *)
Abbreviation Res := (result Error).

(** The wire contract of the codes: [all] enumerates every code exactly once
    and no two codes share a name, so a name determines its code. *)
Theorem error_codes_are_a_bijection :
  (forall c, c ∈ ErrorCode_all) /\ NoDup ErrorCode_all /\
  (forall c d, ErrorCode_as_str c = ErrorCode_as_str d -> c = d).
Proof.
  split; [|split].
  - intros c. apply (bool_decide_unpack _). by destruct c.
  - apply (bool_decide_unpack _). by vm_compute.
  - intros c d. destruct c, d; intros E; first [done | discriminate E].
Qed.

(** A more precise object ID recorded by a lower layer survives. *)
Lemma with_oid_if_none_keeps o e :
  object_oid (with_oid_if_none o e) = Some (default o (object_oid e)).
Proof. unfold with_oid_if_none. by destruct (object_oid e) eqn:E; simpl. Qed.

Lemma with_oid_if_none_code o e : code (with_oid_if_none o e) = code e.
Proof. unfold with_oid_if_none. by destruct (object_oid e). Qed.

(** Lines are stored in one slot, so a parse line is never read as a count. *)
Lemma line_slots_are_exclusive n e :
  line (with_line n e) = Some n /\ line_count (with_line n e) = None /\
  line_count (with_line_count n e) = Some n /\ line (with_line_count n e) = None.
Proof. done. Qed.
