(* ===== verification/Objects.v ===== *)
(** * Object identity ([object.rs]) and content verification ([verify.rs])

    Object IDs, their hexadecimal form, object kinds and headers, and the
    hash-agnostic check that an ID addresses a payload. The digest functions
    ([sha1_checked], [sha2]) are third-party code and enter as the class
    [Digests]. *)

From Stdlib Require Import NArith Lia Strings.Byte Strings.String.
From stdpp Require Import prelude gmap strings list pretty.
From S2P Require Import Prelude Errors.

Open Scope N_scope.

(** [HashKind::digest_len]. *)
Definition digest_len (k : HashKind) : nat :=
  match k with
  | Sha1 => 20%nat
  | Sha256 => 32%nat
  end.

Definition MAX_DIGEST_LEN : nat := 32%nat.

(** [{:?}] of a [HashKind]. *)
Definition HashKind_debug (k : HashKind) : string :=
  match k with
  | Sha1 => "Sha1"
  | Sha256 => "Sha256"
  end.

(** [Oid::new]: the digest is copied into a zeroed 32-byte array. *)
Definition Oid_new (kind : HashKind) (digest : bytes) : Res Oid :=
  if negb (length digest =? digest_len kind)%nat then
    Err (Error_new InvalidOid
           (HashKind_debug kind ++ " digest must be " ++ pretty (digest_len kind)
            ++ " bytes, got " ++ pretty (length digest)))
  else
    Ok (mkOid kind (digest ++ replicate (MAX_DIGEST_LEN - length digest) x00)).

(** [hex_val]. *)
Definition hex_val (c : byte) : Res N :=
  let n := byteN c in
  if (48 <=? n) && (n <=? 57) then Ok (n - 48)
  else if (97 <=? n) && (n <=? 102) then Ok (n - 97 + 10)
  else if (65 <=? n) && (n <=? 70) then Ok (n - 65 + 10)
  else Err (Error_new InvalidOid "object ID contains a non-hex character").

(** The loop of [parse_hex] over [chunks_exact(2)]. *)
Fixpoint hex_pairs (hex : bytes) : Res bytes :=
  match hex with
  | c0 :: c1 :: rest =>
      let? hi := hex_val c0 in
      let? lo := hex_val c1 in
      let? tl := hex_pairs rest in
      Ok (Nbyte (N.lor (N.shiftl hi 4) lo) :: tl)
  | _ => Ok []
  end.

(** [Oid::parse_hex]; the [&str] is its byte sequence. *)
Definition parse_hex (hex : bytes) : Res Oid :=
  let? kind := (match length hex with
                | 40%nat => Ok Sha1
                | 64%nat => Ok Sha256
                | _ => Err (Error_new InvalidOid
                              "expected a full 40- or 64-character hex object ID")
                end) in
  let? written := hex_pairs hex in
  let digest := written ++ replicate (MAX_DIGEST_LEN - length written) x00 in
  Oid_new kind (take (digest_len kind) digest).

(** [Oid::as_bytes]. *)
Definition as_bytes (o : Oid) : bytes := take (digest_len (oid_kind o)) (oid_raw o).

(** [char::from_digit(d, 16)] for a nibble. *)
Definition from_digit (d : N) : byte :=
  if d <? 10 then Nbyte (48 + d) else Nbyte (97 + (d - 10)).

(** [Oid::to_hex]. *)
Definition hex_byte (b : byte) : bytes :=
  [from_digit (N.shiftr (byteN b) 4); from_digit (N.land (byteN b) 15)].
Definition to_hex (o : Oid) : bytes := as_bytes o ≫= hex_byte.

(** [Display for Oid], as it appears in messages. *)
Definition oid_str (o : Oid) : string := string_of_list_byte (to_hex o).

(** [ObjectKind], its header name, and [ObjectHeader]. *)
Inductive ObjectKind : Type :=
| Commit
| Tree
| Blob
| Tag.

#[export] Instance ObjectKind_eq_decision : EqDecision ObjectKind.
Proof. solve_decision. Defined.

Definition ObjectKind_as_str (k : ObjectKind) : string :=
  match k with
  | Commit => "commit"
  | Tree => "tree"
  | Blob => "blob"
  | Tag => "tag"
  end.

Record ObjectHeader : Type := mkHeader {
  hdr_kind : ObjectKind;
  hdr_size : N
}.

(** The digest functions of [sha1_checked] and [sha2]. [sha1] is [None] when
    the collision detector fires. *)
Class Digests : Type := {
  sha1 : bytes -> option bytes;
  sha256 : bytes -> bytes;
  sha1_len : forall m d, sha1 m = Some d -> length d = 20%nat;
  sha256_len : forall m, length (sha256 m) = 32%nat
}.

Section Verify.
Context `{Digests}.

(** [ContentHasher]: both crates hash the concatenation of the updates. *)
Inductive ContentHasher : Type :=
| HasherSha1 (seen : bytes)
| HasherSha256 (seen : bytes).

Definition ContentHasher_new (k : HashKind) : ContentHasher :=
  match k with
  | Sha1 => HasherSha1 []
  | Sha256 => HasherSha256 []
  end.

Definition hasher_update (h : ContentHasher) (b : bytes) : ContentHasher :=
  match h with
  | HasherSha1 s => HasherSha1 (s ++ b)
  | HasherSha256 s => HasherSha256 (s ++ b)
  end.

Definition hasher_finalize (h : ContentHasher) : Res Oid :=
  match h with
  | HasherSha1 s =>
      match sha1 s with
      | Some digest => Oid_new Sha1 digest
      | None => Err (Error_new HashMismatch
                       "SHA-1 collision attack detected while hashing object data")
      end
  | HasherSha256 s => Oid_new Sha256 (sha256 s)
  end.

(** [verify.rs: object_id]. *)
Definition object_id (hash_kind : HashKind) (kind : ObjectKind) (payload : bytes) : Res Oid :=
  let hasher := ContentHasher_new hash_kind in
  let hasher := hasher_update hasher (bs (ObjectKind_as_str kind)) in
  let hasher := hasher_update hasher (bs " ") in
  let hasher := hasher_update hasher (bs (pretty (lenN payload))) in
  let hasher := hasher_update hasher [x00] in
  let hasher := hasher_update hasher payload in
  hasher_finalize hasher.

(** [verify.rs: verify]. *)
Definition verify (oid : Oid) (kind : ObjectKind) (payload : bytes) : Res unit :=
  let? actual := object_id (oid_kind oid) kind payload in
  if negb (bool_decide (actual = oid)) then
    Err (Error_new HashMismatch
           ("object hash mismatch: expected " ++ oid_str oid ++ ", computed " ++ oid_str actual))
  else Ok tt.

End Verify.

(** A well-formed ID: what every constructor of the private fields yields. *)
Definition Oid_wf (o : Oid) : Prop :=
  oid_raw o = as_bytes o ++ replicate (MAX_DIGEST_LEN - digest_len (oid_kind o)) x00 /\
  length (as_bytes o) = digest_len (oid_kind o).

(** [u8::to_ascii_lowercase] on the hexadecimal letters. *)
Definition lower_hex (c : byte) : byte :=
  if (65 <=? byteN c) && (byteN c <=? 70) then Nbyte (byteN c + 32) else c.
Definition is_hex (c : byte) : bool :=
  match hex_val c with Ok _ => true | Err _ => false end.

(** What [object_id] feeds to the digest: [<type> <size>\0<payload>]. *)
Definition object_preimage (kind : ObjectKind) (payload : bytes) : bytes :=
  bs (ObjectKind_as_str kind) ++ bs " " ++ bs (pretty (lenN payload)) ++ [x00] ++ payload.

(* ------------------------------------------------------------------ *)
(** ** Object IDs *)

Lemma digest_len_le k : (digest_len k <= MAX_DIGEST_LEN)%nat.
Proof. destruct k; unfold MAX_DIGEST_LEN; simpl; lia. Qed.

Lemma Oid_new_Ok k d o :
  Oid_new k d = Ok o <->
  length d = digest_len k /\ o = mkOid k (d ++ replicate (MAX_DIGEST_LEN - digest_len k) x00).
Proof.
  unfold Oid_new. destruct (length d =? digest_len k)%nat eqn:E; simpl.
  - apply Nat.eqb_eq in E. rewrite E. naive_solver.
  - apply Nat.eqb_neq in E. naive_solver.
Qed.

Lemma as_bytes_new k d o : Oid_new k d = Ok o -> as_bytes o = d /\ oid_kind o = k.
Proof.
  intros [Hd ->]%Oid_new_Ok. unfold as_bytes. cbn [oid_kind oid_raw].
  by rewrite <- Hd, take_app_length.
Qed.

Lemma Oid_new_wf k d o : Oid_new k d = Ok o -> Oid_wf o.
Proof.
  intros Ho. destruct (as_bytes_new _ _ _ Ho) as [Hb Hk].
  apply Oid_new_Ok in Ho as [Hd ->]. unfold Oid_wf. by rewrite Hb.
Qed.

Lemma Oid_new_as_bytes o : Oid_wf o -> Oid_new (oid_kind o) (as_bytes o) = Ok o.
Proof.
  intros [Hr Hl]. apply Oid_new_Ok. split; [done|]. rewrite <- Hr. by destruct o.
Qed.

Lemma length_to_hex o : length (to_hex o) = (2 * length (as_bytes o))%nat.
Proof.
  unfold to_hex. induction (as_bytes o) as [|b l IH]; [done|].
  cbn. rewrite IH. lia.
Qed.

(** Facts checked on each of the 256 bytes. *)
Definition all_bytes : list byte := (fun n => Nbyte (N.of_nat n)) <$> seq 0 256.

Lemma all_bytes_complete b : b ∈ all_bytes.
Proof.
  apply list_elem_of_fmap. exists (N.to_nat (byteN b)).
  rewrite N2Nat.id, Nbyte_byteN. split; [done|].
  apply elem_of_seq. pose proof (byteN_lt b). lia.
Qed.

Lemma forall_byte (P : byte -> Prop) `{forall b, Decision (P b)} :
  bool_decide (Forall P all_bytes) = true -> forall b, P b.
Proof.
  intros HF%bool_decide_eq_true b. rewrite Forall_forall in HF.
  apply HF, all_bytes_complete.
Qed.

Definition hex_byte_check (b : byte) : bool :=
  match hex_byte b with
  | [c0; c1] => match hex_val c0, hex_val c1 with
                | Ok hi, Ok lo => beq (Nbyte (N.lor (N.shiftl hi 4) lo)) b
                | _, _ => false
                end
  | _ => false
  end.

Lemma hex_pairs_app_byte b rest :
  hex_pairs (hex_byte b ++ rest) = rbind (hex_pairs rest) (fun tl => Ok (b :: tl)).
Proof.
  assert (hex_byte_check b = true) as Hb.
  { revert b. refine (forall_byte _ _). by vm_compute. }
  unfold hex_byte_check, hex_byte in *. cbn [app hex_pairs].
  destruct (hex_val _) as [hi|] eqn:E0 in Hb; [|done]. rewrite E0.
  destruct (hex_val _) as [lo|] eqn:E1 in Hb; [|done]. rewrite E1.
  apply beq_true in Hb. cbn [rbind]. by rewrite Hb.
Qed.

Lemma hex_pairs_flat l : hex_pairs (l ≫= hex_byte) = Ok l.
Proof.
  induction l as [|b l IH]; [done|].
  rewrite bind_cons, hex_pairs_app_byte, IH. done.
Qed.

Definition hex_val_check (c : byte) : bool :=
  match hex_val c with
  | Ok n => (n <? 16) && beq (from_digit n) (lower_hex c)
  | Err _ => true
  end.

Lemma hex_val_lower c n : hex_val c = Ok n -> n < 16 /\ from_digit n = lower_hex c.
Proof.
  assert (hex_val_check c = true) as Hc.
  { revert c. refine (forall_byte _ _). by vm_compute. }
  unfold hex_val_check in Hc. intros E. rewrite E in Hc.
  apply andb_true_iff in Hc as [Hn Hb]. apply N.ltb_lt in Hn. by apply beq_true in Hb.
Qed.

Lemma nibbles hi lo :
  hi < 16 -> lo < 16 ->
  hex_byte (Nbyte (N.lor (N.shiftl hi 4) lo)) = [from_digit hi; from_digit lo].
Proof.
  intros Hhi Hlo. unfold hex_byte.
  assert (N.lor (N.shiftl hi 4) lo = hi * 16 + lo) as ->.
  { rewrite <- N.lxor_lor, <- N.add_nocarry_lxor, N.shiftl_mul_pow2; [done|..];
    apply N.bits_inj_0; intros i; rewrite N.land_spec;
    destruct (N.ltb_spec i 4); [by rewrite N.shiftl_spec_low| |by rewrite N.shiftl_spec_low|];
    rewrite (N.bits_above_log2 lo), andb_false_r; [done| |done|];
    (destruct (N.eq_dec lo 0) as [->|]; [simpl; lia|]; apply N.log2_lt_pow2; [lia|];
     apply N.lt_le_trans with (2 ^ 4); [lia|]; apply N.pow_le_mono_r; lia). }
  rewrite byteN_Nbyte_small by lia.
  rewrite N.shiftr_div_pow2, (N.land_ones _ 4). change (2 ^ 4) with 16.
  f_equal; [f_equal|f_equal; f_equal].
  - rewrite N.div_add_l by lia. rewrite N.div_small by lia. lia.
  - rewrite N.add_comm, N.Div0.mod_add. by apply N.mod_small.
Qed.

Lemma hex_pairs_lower n hex l :
  length hex = (2 * n)%nat -> hex_pairs hex = Ok l ->
  length l = n /\ l ≫= hex_byte = lower_hex <$> hex.
Proof.
  revert hex l. induction n as [|n IH]; intros hex l Hn.
  - destruct hex; [|simpl in Hn; lia]. by intros [= <-].
  - destruct hex as [|c0 [|c1 rest]]; [simpl in Hn; lia..|].
    cbn [hex_pairs]. intros (hi & E0 & E)%rbind_Ok.
    apply rbind_Ok in E as (lo & E1 & E). apply rbind_Ok in E as (tl & Etl & [= <-]).
    destruct (IH rest tl) as [Hl Hb]; [simpl in Hn; lia|done|].
    apply hex_val_lower in E0 as [Hhi E0]. apply hex_val_lower in E1 as [Hlo E1].
    split; [simpl; lia|].
    rewrite bind_cons, nibbles, Hb, E0, E1 by done. done.
Qed.

Lemma hex_pairs_total hex :
  Forall (fun c => is_hex c = true) hex -> exists l, hex_pairs hex = Ok l.
Proof.
  induction hex as [[|c0 [|c1 rest]] IH] using (induction_ltof1 _ (@length byte));
    intros HF; [by eexists..|].
  apply Forall_cons in HF as [H0 HF]. apply Forall_cons in HF as [H1 HF].
  destruct (IH rest) as [l Hl]; [unfold ltof; simpl; lia|done|].
  cbn [hex_pairs]. unfold is_hex in *.
  destruct (hex_val c0); [|done]. destruct (hex_val c1); [|done].
  rewrite Hl. by eexists.
Qed.

Lemma hex_pairs_is_hex n hex l :
  length hex = (2 * n)%nat -> hex_pairs hex = Ok l -> Forall (fun c => is_hex c = true) hex.
Proof.
  revert hex l. induction n as [|n IH]; intros hex l Hn.
  - destruct hex; [by constructor|simpl in Hn; lia].
  - destruct hex as [|c0 [|c1 rest]]; [simpl in Hn; lia..|].
    cbn [hex_pairs]. intros (hi & E0 & E)%rbind_Ok.
    apply rbind_Ok in E as (lo & E1 & E). apply rbind_Ok in E as (tl & Etl & _).
    constructor; [by unfold is_hex; rewrite E0|]. constructor; [by unfold is_hex; rewrite E1|].
    eapply IH; [|done]. simpl in Hn. lia.
Qed.

(** The kind a hexadecimal length selects. *)
Lemma parse_hex_unfold kind hex :
  length hex = (2 * digest_len kind)%nat ->
  parse_hex hex =
  rbind (hex_pairs hex) (fun written => Oid_new kind (take (digest_len kind)
    (written ++ replicate (MAX_DIGEST_LEN - length written) x00))).
Proof.
  intros Hl. unfold parse_hex. rewrite Hl. by destruct kind.
Qed.

Lemma parse_hex_length hex o :
  parse_hex hex = Ok o -> length hex = (2 * digest_len (oid_kind o))%nat.
Proof.
  unfold parse_hex. intros (k & Ek & E)%rbind_Ok.
  apply rbind_Ok in E as (w & _ & E). apply as_bytes_new in E as [_ ->].
  destruct (decide (length hex = 40%nat)) as [E40|]; [rewrite E40 in *; by simplify_eq/=|].
  destruct (decide (length hex = 64%nat)) as [E64|]; [rewrite E64 in *; by simplify_eq/=|].
  exfalso. destruct (length hex) as [|m]; [done|].
  do 64 (destruct m as [|m]; [congruence|]). done.
Qed.

(** Every ID a constructor yields prints and parses back to itself. *)
Lemma parse_hex_to_hex o : Oid_wf o -> parse_hex (to_hex o) = Ok o.
Proof.
  intros Hwf. pose proof Hwf as [_ Hl].
  rewrite (parse_hex_unfold (oid_kind o)) by (rewrite length_to_hex; lia).
  unfold to_hex. rewrite hex_pairs_flat. cbn [rbind].
  rewrite take_app_le, take_ge by lia. by apply Oid_new_as_bytes.
Qed.

(** [parse_hex] succeeds exactly on 40 or 64 hexadecimal digits, and printing
    the result gives the input in lower case. *)
Lemma parse_hex_Ok hex o :
  parse_hex hex = Ok o ->
  to_hex o = lower_hex <$> hex /\ Oid_wf o /\ Forall (fun c => is_hex c = true) hex.
Proof.
  intros E. pose proof (parse_hex_length _ _ E) as Hl.
  rewrite (parse_hex_unfold (oid_kind o)) in E by done.
  apply rbind_Ok in E as (w & Ew & Eo).
  destruct (hex_pairs_lower _ _ _ Hl Ew) as [Hw Hb].
  rewrite take_app_le, take_ge in Eo by lia.
  pose proof (as_bytes_new _ _ _ Eo) as [Ha _].
  split_and!.
  - unfold to_hex. by rewrite Ha.
  - by eapply Oid_new_wf.
  - by eapply hex_pairs_is_hex.
Qed.

Lemma parse_hex_total kind hex :
  length hex = (2 * digest_len kind)%nat -> Forall (fun c => is_hex c = true) hex ->
  exists o, parse_hex hex = Ok o.
Proof.
  intros Hl HF. rewrite (parse_hex_unfold kind) by done.
  destruct (hex_pairs_total _ HF) as [w Ew]. rewrite Ew. cbn [rbind].
  destruct (hex_pairs_lower _ _ _ Hl Ew) as [Hw _].
  eexists. apply Oid_new_Ok. split; [|done].
  rewrite length_take, length_app, length_replicate. pose proof (digest_len_le kind). lia.
Qed.

(** The hexadecimal codec of object IDs is exact: every well-formed ID prints
    to a string that parses back to it; conversely a string parses if and only
    if it has 40 or 64 characters, all hexadecimal, and it then denotes a
    well-formed ID whose printed form is the same string in lower case. *)
Theorem oid_hex_roundtrip :
  (forall o, Oid_wf o -> parse_hex (to_hex o) = Ok o) /\
  (forall hex o, parse_hex hex = Ok o -> to_hex o = lower_hex <$> hex /\ Oid_wf o) /\
  (forall hex, (exists o, parse_hex hex = Ok o) <->
     (length hex = 40%nat \/ length hex = 64%nat) /\ Forall (fun c => is_hex c = true) hex).
Proof.
  split; [exact parse_hex_to_hex|]. split.
  - intros hex o E. by destruct (parse_hex_Ok _ _ E) as (? & ? & ?).
  - intros hex. split.
    + intros [o E]. destruct (parse_hex_Ok _ _ E) as (_ & _ & HF). split; [|done].
      apply parse_hex_length in E. destruct (oid_kind o); simpl in E; lia.
    + intros [[Hl|Hl] HF]; [by apply (parse_hex_total Sha1)|by apply (parse_hex_total Sha256)].
Qed.

(* ------------------------------------------------------------------ *)
(** ** Content verification *)

Lemma bs_inj s t : bs s = bs t -> s = t.
Proof.
  unfold bs. intros E. apply (f_equal string_of_list_byte) in E.
  by rewrite !string_of_list_byte_of_string in E.
Qed.

Lemma pretty_N_no_nul (n : N) : Forall (fun b => b <> x00) (bs (pretty n)).
Proof.
  assert (forall x s, Forall (fun b => b <> x00) (bs s) ->
                      Forall (fun b => b <> x00) (bs (pretty_N_go x s))) as Hgo.
  { intros x. induction (N.lt_wf_0 x) as [x _ IH]. intros s Hs.
    destruct (decide (x = 0)) as [->|]; [done|].
    rewrite pretty_N_go_step by lia. apply IH; [apply N.div_lt; lia|].
    unfold bs in *. cbn. constructor; [|done].
    unfold pretty_N_char. by repeat case_match. }
  unfold pretty, pretty_N. case_decide; [by repeat constructor|]. apply Hgo. constructor.
Qed.

Lemma object_kind_no_space k : Forall (fun b => b <> x20) (bs (ObjectKind_as_str k)).
Proof. destruct k; repeat constructor; done. Qed.

Lemma ObjectKind_as_str_inj k k' : ObjectKind_as_str k = ObjectKind_as_str k' -> k = k'.
Proof. by destruct k, k'. Qed.

(** The bytes Git addresses determine the object: kind and payload. *)
Lemma object_preimage_inj k p k' p' :
  object_preimage k p = object_preimage k' p' -> k = k' /\ p = p'.
Proof.
  unfold object_preimage. change (bs " ") with [x20]. simpl.
  intros [Ek E]%app_sep_inj; [|apply object_kind_no_space..].
  apply app_sep_inj in E as [_ E]; [|apply pretty_N_no_nul..].
  split; [|done]. by apply ObjectKind_as_str_inj, bs_inj.
Qed.

Section VerifyFacts.
Context `{Digests}.

(** The digest as one function of the concatenated updates. *)
Definition digest_of (hk : HashKind) (m : bytes) : option bytes :=
  match hk with
  | Sha1 => sha1 m
  | Sha256 => Some (sha256 m)
  end.

Lemma digest_of_len hk m d : digest_of hk m = Some d -> length d = digest_len hk.
Proof. destruct hk; simpl; [apply sha1_len|]. intros [= <-]. apply sha256_len. Qed.

Lemma object_id_Ok hk k p o :
  object_id hk k p = Ok o <->
  digest_of hk (object_preimage k p) = Some (as_bytes o) /\ oid_kind o = hk /\ Oid_wf o.
Proof.
  assert (object_id hk k p =
          match digest_of hk (object_preimage k p) with
          | Some d => Oid_new hk d
          | None => Err (Error_new HashMismatch
                           "SHA-1 collision attack detected while hashing object data")
          end) as ->.
  { unfold object_id, object_preimage. destruct hk; cbn [ContentHasher_new hasher_update
      hasher_finalize digest_of]; by rewrite app_nil_l, <- !app_assoc. }
  destruct (digest_of hk _) as [d|] eqn:E.
  - split.
    + intros Ho. destruct (as_bytes_new _ _ _ Ho) as [-> <-]. split_and!; try done.
      by eapply Oid_new_wf.
    + intros ([= ->] & <- & Hwf). by apply Oid_new_as_bytes.
  - split; [done|]. by intros ([=] & _).
Qed.

Lemma verify_Ok o k p u : verify o k p = Ok u <-> object_id (oid_kind o) k p = Ok o.
Proof.
  unfold verify. destruct (object_id (oid_kind o) k p) as [a|e]; simpl; [|done].
  destruct u. case_bool_decide; simpl; naive_solver.
Qed.

(** How a verification fails. *)
Lemma verify_Err_code o k p e : verify o k p = Err e -> code e = HashMismatch \/ code e = InvalidOid.
Proof.
  unfold verify, object_id, hasher_finalize, Oid_new. intros Hv. repeat (case_match; simplify_eq/=; auto).
Qed.

(** An ID verifies two different objects only at a collision of the digest:
    the two byte strings [<type> <size>\0<payload>] differ and hash alike. In
    particular the object kind is part of what the ID addresses. *)
Theorem verify_determines_object o k p k' p' u u' :
  verify o k p = Ok u -> verify o k' p' = Ok u' ->
  (k = k' /\ p = p') \/
  (object_preimage k p <> object_preimage k' p' /\
   digest_of (oid_kind o) (object_preimage k p) = digest_of (oid_kind o) (object_preimage k' p') /\
   digest_of (oid_kind o) (object_preimage k p) = Some (as_bytes o)).
Proof.
  intros (E & _ & _)%verify_Ok%object_id_Ok (E' & _ & _)%verify_Ok%object_id_Ok.
  destruct (decide (object_preimage k p = object_preimage k' p')) as [Eq|Ne].
  - left. by apply object_preimage_inj.
  - right. by rewrite E, E'.
Qed.

End VerifyFacts.

(** A concrete pair of digest functions, for the witnesses: a fixed-length
    prefix of the message, zero-padded. *)
Definition toy_digest (n : nat) (m : bytes) : bytes :=
  take n (reverse m ++ replicate n x00).
Lemma toy_digest_len n m : length (toy_digest n m) = n.
Proof. unfold toy_digest. rewrite length_take, length_app, length_replicate. lia. Qed.

Definition toy_digests : Digests := {|
  sha1 m := Some (toy_digest 20 m);
  sha256 m := toy_digest 32 m;
  sha1_len m d E := eq_ind _ (fun d => length d = 20%nat) (toy_digest_len 20 m) d
                      (f_equal (default []) E);
  sha256_len m := toy_digest_len 32 m
|}.

Definition toy_oid : Oid :=
  match @object_id toy_digests Sha1 Blob (bs "hello") with Ok o => o | Err _ => mkOid Sha1 [] end.

Lemma verify_determines_object_witness :
  @verify toy_digests toy_oid Blob (bs "hello") = Ok tt /\
  ((Blob = Blob /\ bs "hello" = bs "hello") \/
   (object_preimage Blob (bs "hello") <> object_preimage Blob (bs "hello") /\
    @digest_of toy_digests (oid_kind toy_oid) (object_preimage Blob (bs "hello")) =
    @digest_of toy_digests (oid_kind toy_oid) (object_preimage Blob (bs "hello")) /\
    @digest_of toy_digests (oid_kind toy_oid) (object_preimage Blob (bs "hello")) =
    Some (as_bytes toy_oid))).
Proof.
  split; [vm_compute; reflexivity|].
  apply (@verify_determines_object toy_digests toy_oid Blob (bs "hello") Blob (bs "hello") tt tt);
    vm_compute; reflexivity.
Defined.
