(* ===== verification/Budget.v ===== *)
(** * Per-operation resource budgets ([budget.rs])

    A [Budget] is threaded through every algorithm and store call. Its atomic
    counters are the fields of a record and keep their 64-bit wrap-around. The
    two things a budget reads from outside, the cancellation flag and the
    clock, are given by an [Env]: the [i]-th call of [check] observes
    [env_cancelled i] and [env_now i], so a theorem that quantifies over the
    environment covers every timing of cancellation and expiry. *)

From Stdlib Require Import NArith Lia Strings.Byte Strings.String.
From stdpp Require Import prelude gmap strings list pretty.
From S2P Require Import Prelude Errors Objects.

Open Scope N_scope.

(** [BudgetLimits] and its default. *)
Record BudgetLimits : Type := mkLimits {
  max_objects : N;
  max_object_bytes : N;
  max_total_object_bytes : N;
  max_provider_requests : N;
  max_provider_bytes : N;
  max_tree_entries : N;
  max_delta_depth : N
}.

Definition BudgetLimits_default : BudgetLimits :=
  mkLimits 100000 (N.shiftl 4 20) (N.shiftl 256 20) 500 (N.shiftl 256 20) 20000 128.

(** [Budget]. [observations] counts the calls of [check] made so far; it
    indexes the environment and is no field of the source. *)
Record Budget : Type := mkBudget {
  limits : BudgetLimits;
  deadline : option N;
  objects : N;
  object_charge_suspensions : N;
  duplicate_graph_read_suspensions : N;
  graph_reads : gset Oid;
  objects_read : N;
  object_bytes : N;
  provider_requests : N;
  provider_bytes : N;
  tree_entries : N;
  cache_hits : N;
  cache_misses : N;
  observations : nat
}.

(** [Budget::new] and [Budget::unlimited]. *)
Definition Budget_new (l : BudgetLimits) (d : option N) : Budget :=
  mkBudget l d 0 0 0 ∅ 0 0 0 0 0 0 0 0%nat.
Definition Budget_unlimited : Budget :=
  Budget_new (mkLimits u64_max u64_max u64_max u64_max u64_max u64_max u32_max) None.

(** One field replaced. *)
Definition set_objects (v : N) (b : Budget) : Budget :=
  mkBudget (limits b) (deadline b) v (object_charge_suspensions b)
    (duplicate_graph_read_suspensions b) (graph_reads b) (objects_read b) (object_bytes b)
    (provider_requests b) (provider_bytes b) (tree_entries b) (cache_hits b) (cache_misses b)
    (observations b).
Definition set_suspensions (o d : N) (b : Budget) : Budget :=
  mkBudget (limits b) (deadline b) (objects b) o d (graph_reads b) (objects_read b)
    (object_bytes b) (provider_requests b) (provider_bytes b) (tree_entries b) (cache_hits b)
    (cache_misses b) (observations b).
Definition set_graph_reads (s : gset Oid) (b : Budget) : Budget :=
  mkBudget (limits b) (deadline b) (objects b) (object_charge_suspensions b)
    (duplicate_graph_read_suspensions b) s (objects_read b) (object_bytes b)
    (provider_requests b) (provider_bytes b) (tree_entries b) (cache_hits b) (cache_misses b)
    (observations b).
Definition set_objects_read (v : N) (b : Budget) : Budget :=
  mkBudget (limits b) (deadline b) (objects b) (object_charge_suspensions b)
    (duplicate_graph_read_suspensions b) (graph_reads b) v (object_bytes b)
    (provider_requests b) (provider_bytes b) (tree_entries b) (cache_hits b) (cache_misses b)
    (observations b).
Definition set_object_bytes (v : N) (b : Budget) : Budget :=
  mkBudget (limits b) (deadline b) (objects b) (object_charge_suspensions b)
    (duplicate_graph_read_suspensions b) (graph_reads b) (objects_read b) v
    (provider_requests b) (provider_bytes b) (tree_entries b) (cache_hits b) (cache_misses b)
    (observations b).
Definition set_provider_requests (v : N) (b : Budget) : Budget :=
  mkBudget (limits b) (deadline b) (objects b) (object_charge_suspensions b)
    (duplicate_graph_read_suspensions b) (graph_reads b) (objects_read b) (object_bytes b)
    v (provider_bytes b) (tree_entries b) (cache_hits b) (cache_misses b) (observations b).
Definition set_provider_bytes (v : N) (b : Budget) : Budget :=
  mkBudget (limits b) (deadline b) (objects b) (object_charge_suspensions b)
    (duplicate_graph_read_suspensions b) (graph_reads b) (objects_read b) (object_bytes b)
    (provider_requests b) v (tree_entries b) (cache_hits b) (cache_misses b) (observations b).
Definition set_tree_entries (v : N) (b : Budget) : Budget :=
  mkBudget (limits b) (deadline b) (objects b) (object_charge_suspensions b)
    (duplicate_graph_read_suspensions b) (graph_reads b) (objects_read b) (object_bytes b)
    (provider_requests b) (provider_bytes b) v (cache_hits b) (cache_misses b) (observations b).
Definition set_cache (h m : N) (b : Budget) : Budget :=
  mkBudget (limits b) (deadline b) (objects b) (object_charge_suspensions b)
    (duplicate_graph_read_suspensions b) (graph_reads b) (objects_read b) (object_bytes b)
    (provider_requests b) (provider_bytes b) (tree_entries b) h m (observations b).
Definition tick (b : Budget) : Budget :=
  mkBudget (limits b) (deadline b) (objects b) (object_charge_suspensions b)
    (duplicate_graph_read_suspensions b) (graph_reads b) (objects_read b) (object_bytes b)
    (provider_requests b) (provider_bytes b) (tree_entries b) (cache_hits b) (cache_misses b)
    (S (observations b)).

(** What the budget observes of the outside: the shared cancellation flag and
    the monotonic clock. *)
Class Env : Type := {
  env_cancelled : nat -> bool;
  env_now : nat -> N
}.

(** Effectful code over a budget. *)
Abbreviation BM := (ST Budget Error).

(** The atomic counters [charge] works on. *)
Inductive Counter : Type :=
| CObjects
| CObjectBytes
| CProviderRequests
| CProviderBytes
| CTreeEntries.

Definition counter_get (c : Counter) (b : Budget) : N :=
  match c with
  | CObjects => objects b
  | CObjectBytes => object_bytes b
  | CProviderRequests => provider_requests b
  | CProviderBytes => provider_bytes b
  | CTreeEntries => tree_entries b
  end.

Definition counter_set (c : Counter) : N -> Budget -> Budget :=
  match c with
  | CObjects => set_objects
  | CObjectBytes => set_object_bytes
  | CProviderRequests => set_provider_requests
  | CProviderBytes => set_provider_bytes
  | CTreeEntries => set_tree_entries
  end.

(** The free function [charge]: [fetch_add] first, then compare. *)
Definition charge (counter : Counter) (amount ceiling : N) (limit_name : string) : BM unit :=
  fun b =>
    let previous := counter_get counter b in
    let b := counter_set counter (wadd64 previous amount) b in
    if ceiling <? sadd64 previous amount then
      (Err (with_limit limit_name (Error_new BudgetExceeded (limit_name ++ " exceeded"))), b)
    else (Ok tt, b).

Definition cancelled_error : Error := Error_new Cancelled "operation cancelled".
Definition timeout_error : Error := Error_new Timeout "operation budget expired".

Section Operations.
Context `{Env}.

(** [Budget::check]. *)
Definition check : BM unit :=
  fun b =>
    let i := observations b in
    let b := tick b in
    if env_cancelled i then (Err cancelled_error, b)
    else match deadline b with
         | Some d => if d <=? env_now i then (Err timeout_error, b) else (Ok tt, b)
         | None => (Ok tt, b)
         end.

(** [Budget::deadline_expired] at the instant [now]. *)
Definition deadline_expired (now : N) (b : Budget) : bool :=
  match deadline b with
  | Some d => d <=? now
  | None => false
  end.

(** [Budget::charge_object]. *)
Definition charge_object (n : N) : BM unit :=
  let! _ := check in
  fun b =>
  if max_object_bytes (limits b) <? n then
    (Err (with_limit "max_object_bytes"
       (Error_new ObjectTooLarge
          ("object of " ++ pretty n ++ " bytes exceeds max_object_bytes "
           ++ pretty (max_object_bytes (limits b))))), b)
  else
    (let! _ := (fun b => if object_charge_suspensions b =? 0
                         then charge CObjects 1 (max_objects (limits b)) "max_objects" b
                         else (Ok tt, b)) in
     fun b =>
       if duplicate_graph_read_suspensions b =? 0 then
         let b := set_objects_read (wadd64 (objects_read b) 1) b in
         charge CObjectBytes n (max_total_object_bytes (limits b)) "max_total_object_bytes" b
       else (Ok tt, b)) b.

(** [Budget::charge_object_visit] and [Budget::charge_header]. *)
Definition charge_object_visit : BM unit :=
  let! _ := check in
  fun b => if object_charge_suspensions b =? 0
           then charge CObjects 1 (max_objects (limits b)) "max_objects" b
           else (Ok tt, b).
Definition charge_header : BM unit :=
  let! _ := check in
  fun b => if object_charge_suspensions b =? 0
           then charge CObjects 1 (max_objects (limits b)) "max_objects" b
           else (Ok tt, b).

(** [Budget::charge_tree_entry], [charge_integrity_bytes],
    [charge_provider_request] and [charge_provider_bytes]. *)
Definition charge_tree_entry : BM unit :=
  let! _ := check in
  fun b => charge CTreeEntries 1 (max_tree_entries (limits b)) "max_tree_entries" b.
Definition charge_integrity_bytes (n : N) : BM unit :=
  let! _ := check in
  fun b => charge CObjectBytes n (max_total_object_bytes (limits b)) "max_total_object_bytes" b.
Definition charge_provider_request : BM unit :=
  let! _ := check in
  fun b => charge CProviderRequests 1 (max_provider_requests (limits b)) "max_provider_requests" b.
Definition charge_provider_bytes (n : N) : BM unit :=
  let! _ := check in
  fun b => charge CProviderBytes n (max_provider_bytes (limits b)) "max_provider_bytes" b.

(** [Budget::without_object_charge]: a graph read. The closure runs over a
    world that contains the budget; the [Restore] guard undoes the
    suspensions on every exit, errors included. *)
Definition without_object_charge {T A} (oid : Oid) (read : ST (Budget * T) Error A)
  : ST (Budget * T) Error A :=
  fun '(b, t) =>
    let duplicate := bool_decide (oid ∈ graph_reads b) in
    let b := set_graph_reads ({[oid]} ∪ graph_reads b) b in
    let b := set_suspensions (wadd64 (object_charge_suspensions b) 1)
               (if duplicate then wadd64 (duplicate_graph_read_suspensions b) 1
                else duplicate_graph_read_suspensions b) b in
    let '(result, (b, t)) := read (b, t) in
    let b := set_suspensions (wsub64 (object_charge_suspensions b) 1)
               (if duplicate then wsub64 (duplicate_graph_read_suspensions b) 1
                else duplicate_graph_read_suspensions b) b in
    (result, (b, t)).

(** [Budget::without_object_recharge]: replay of a cursor prefix. *)
Definition without_object_recharge {T A} (replay : ST (Budget * T) Error A)
  : ST (Budget * T) Error A :=
  fun '(b, t) =>
    let b := set_suspensions (wadd64 (object_charge_suspensions b) 1)
               (wadd64 (duplicate_graph_read_suspensions b) 1) b in
    let '(result, (b, t)) := replay (b, t) in
    let b := set_suspensions (wsub64 (object_charge_suspensions b) 1)
               (wsub64 (duplicate_graph_read_suspensions b) 1) b in
    (result, (b, t)).

(** [record_cache_hit] and [record_cache_miss]. *)
Definition record_cache_hit (b : Budget) : Budget :=
  set_cache (wadd64 (cache_hits b) 1) (cache_misses b) b.
Definition record_cache_miss (b : Budget) : Budget :=
  set_cache (cache_hits b) (wadd64 (cache_misses b) 1) b.

(** [Budget::check_delta_depth]. *)
Definition check_delta_depth (depth : N) (b : Budget) : Res unit :=
  if max_delta_depth (limits b) <? depth then
    Err (with_limit "max_delta_depth"
      (Error_new BudgetExceeded
         ("delta chain depth " ++ pretty depth ++ " exceeds max_delta_depth "
          ++ pretty (max_delta_depth (limits b)))))
  else Ok tt.

(** [Budget::spent], [tree_entries_spent] and [cache_spent]. *)
Definition spent (b : Budget) : N * N * N * N :=
  (objects_read b, object_bytes b, provider_requests b, provider_bytes b).
Definition tree_entries_spent (b : Budget) : N := tree_entries b.
Definition cache_spent (b : Budget) : N * N := (cache_hits b, cache_misses b).

End Operations.

(** A budget operation running in a world that contains the budget. *)
Definition on_budget {T A} (m : BM A) : ST (Budget * T) Error A :=
  fun '(b, t) => let '(r, b) := m b in (r, (b, t)).

(* ------------------------------------------------------------------ *)
(** ** Sequences of operations

    A budget is shared by a job's threads. Each atomic counter has one
    modification order, and an operation's outcome is fixed by the value its
    own [fetch_add] returned, so the interleavings of a run are the sequences
    of these operations. *)

Inductive BudgetOp : Type :=
| OpObject (n : N)
| OpVisit
| OpHeader
| OpTreeEntry
| OpIntegrity (n : N)
| OpProviderRequest
| OpProviderBytes (n : N)
| OpGraphObject (oid : Oid) (n : N)
| OpCacheHit
| OpCacheMiss.

Section Runs.
Context `{Env}.

Definition op_run (op : BudgetOp) (b : Budget) : Res unit * Budget :=
  match op with
  | OpObject n => charge_object n b
  | OpVisit => charge_object_visit b
  | OpHeader => charge_header b
  | OpTreeEntry => charge_tree_entry b
  | OpIntegrity n => charge_integrity_bytes n b
  | OpProviderRequest => charge_provider_request b
  | OpProviderBytes n => charge_provider_bytes n b
  | OpGraphObject oid n =>
      let '(r, (b, _)) := without_object_charge oid (on_budget (charge_object n)) (b, tt) in (r, b)
  | OpCacheHit => (Ok tt, record_cache_hit b)
  | OpCacheMiss => (Ok tt, record_cache_miss b)
  end.

(** The operations of a run with their outcomes, and the final budget. *)
Fixpoint run_ops (ops : list BudgetOp) (b : Budget) : list (BudgetOp * Res unit) * Budget :=
  match ops with
  | [] => ([], b)
  | op :: ops =>
      let '(r, b) := op_run op b in
      let '(rs, b) := run_ops ops b in
      ((op, r) :: rs, b)
  end.

End Runs.

(** The ceiling of a counter, what a successful operation consumed of it, and
    the most an operation may add to it. *)
Definition ceiling (c : Counter) (l : BudgetLimits) : N :=
  match c with
  | CObjects => max_objects l
  | CObjectBytes => max_total_object_bytes l
  | CProviderRequests => max_provider_requests l
  | CProviderBytes => max_provider_bytes l
  | CTreeEntries => max_tree_entries l
  end.

(** The objects whose graph read was attempted; only the first attempt of an
    object is charged for its bytes. *)
Definition op_seen (op : BudgetOp) (seen : gset Oid) : gset Oid :=
  match op with
  | OpGraphObject oid _ => {[oid]} ∪ seen
  | _ => seen
  end.

Definition op_demand (c : Counter) (seen : gset Oid) (op : BudgetOp) : N :=
  match c, op with
  | CObjects, (OpObject _ | OpVisit | OpHeader) => 1
  | CObjectBytes, (OpObject n | OpIntegrity n) => n
  | CObjectBytes, OpGraphObject oid n => if bool_decide (oid ∈ seen) then 0 else n
  | CProviderRequests, OpProviderRequest => 1
  | CProviderBytes, OpProviderBytes n => n
  | CTreeEntries, OpTreeEntry => 1
  | _, _ => 0
  end.

(** An upper bound of the demand, whatever was read before. *)
Definition op_cost (c : Counter) (op : BudgetOp) : N :=
  match c, op with
  | CObjectBytes, OpGraphObject _ n => n
  | _, _ => op_demand c ∅ op
  end.

Fixpoint granted (c : Counter) (seen : gset Oid) (rs : list (BudgetOp * Res unit)) : N :=
  match rs with
  | [] => 0
  | (op, r) :: rs =>
      (match r with Ok _ => op_demand c seen op | Err _ => 0 end) + granted c (op_seen op seen) rs
  end.
Definition total_cost (c : Counter) (ops : list BudgetOp) : N :=
  foldr (fun op acc => op_cost c op + acc) 0 ops.

(* ------------------------------------------------------------------ *)
(** ** Lemmas *)

(** The frame of an operation: what no operation may change. *)
Definition idle (b : Budget) : Prop :=
  object_charge_suspensions b = 0 /\ duplicate_graph_read_suspensions b = 0.

Lemma counter_get_set c v b : counter_get c (counter_set c v b) = v.
Proof. by destruct c. Qed.

Lemma counter_get_set_ne c c' v b : c <> c' -> counter_get c' (counter_set c v b) = counter_get c' b.
Proof. by destruct c, c'. Qed.

(** Reduces an operation to its branches. *)
Ltac budget_cases :=
  unfold op_run, charge_object, charge_object_visit, charge_header, charge_tree_entry,
    charge_integrity_bytes, charge_provider_request, charge_provider_bytes,
    without_object_charge, on_budget, record_cache_hit, record_cache_miss, check, charge, sbind in *;
  simpl in *;
  repeat (case_match; simplify_eq/=).

Section Facts.
Context `{Env}.

Lemma wadd64_small a b : a + b < u64_mod -> wadd64 a b = a + b.
Proof. intros. unfold wadd64. by apply N.mod_small. Qed.

Lemma sadd64_le a b c : sadd64 a b <= c -> a + b < u64_mod -> a + b <= c.
Proof. unfold sadd64, u64_max, u64_mod. lia. Qed.

(** Closes one branch of [op_run_spec], given the amount added. *)
Ltac budget_branch :=
  split; [lia|]; split; [lia || (rewrite wadd64_small; lia)|];
  intros u Hu;
  first [ discriminate Hu
        | split; [lia|];
          first [ left; lia
                | right; match goal with
                  | E : (_ <? sadd64 _ _) = false |- _ =>
                      apply N.ltb_ge in E; apply (sadd64_le _ _ _ E); lia
                  end ] ].

(** One operation: it adds at most its cost to each counter, and it succeeds
    only when what it consumed still fits under the ceiling. *)
Lemma op_run_spec op b r b' c :
  op_run op b = (r, b') -> idle b -> counter_get c b + op_cost c op < u64_mod ->
  limits b' = limits b /\ idle b' /\ graph_reads b' = op_seen op (graph_reads b) /\
  exists a, a <= op_cost c op /\ counter_get c b' = counter_get c b + a /\
    (forall u, r = Ok u ->
       op_demand c (graph_reads b) op <= a /\
       (op_demand c (graph_reads b) op = 0 \/ counter_get c b + op_demand c (graph_reads b) op <= ceiling c (limits b))).
Proof.
  intros E [Ho Hd] Hlt. destruct op; budget_cases; rewrite ?Ho, ?Hd in *; simplify_eq/=.
  all: split; [done|]; split; [by split|]; split; [done|]; destruct c; simpl in *.
  all: repeat match goal with E : bool_decide (_ ∈ _) = _ |- _ => rewrite E end.
  all: match goal with |- exists a, a <= ?k /\ _ =>
         first [exists 0; solve [budget_branch] | exists k; solve [budget_branch]] end.
Qed.

Lemma run_ops_spec ops b rs b' c :
  run_ops ops b = (rs, b') -> idle b -> counter_get c b + total_cost c ops < u64_mod ->
  granted c (graph_reads b) rs = 0 \/ counter_get c b + granted c (graph_reads b) rs <= ceiling c (limits b).
Proof.
  revert b rs b'. induction ops as [|op ops IH]; intros b rs b' E Hi Hlt; simpl in E.
  - simplify_eq. by left.
  - destruct (op_run op b) as [r b1] eqn:E1. destruct (run_ops ops b1) as [rs1 b2] eqn:E2.
    simplify_eq. cbn [total_cost foldr] in Hlt. fold (total_cost c ops) in Hlt.
    destruct (op_run_spec _ _ _ _ c E1 Hi) as (Hl & Hi1 & Hg & a & Ha & Hc & Hr); [lia|].
    destruct (IH _ _ _ E2 Hi1) as [IH0|IH1]; [lia|..]; rewrite ?Hl, ?Hc, ?Hg in *;
      destruct r as [[]|]; cbn [granted]; rewrite ?N.add_0_l; auto with lia.
    + destruct (Hr tt eq_refl) as [? [?|?]]; lia.
    + destruct (Hr tt eq_refl) as [? [?|?]]; lia.
Qed.

(** C34. A budget never grants more than its ceiling. Start from a fresh
    budget and run any sequence of charges, under any timing of cancellation
    and of the deadline: for each counter, the total consumed by the
    operations that succeeded is within the configured limit, as long as the
    attempted total does not wrap the 64-bit counter. A commit-graph read
    consumes the bytes of its object when the object is asked for the first
    time, and nothing when it is asked for again. *)
Theorem budget_grants_within_limits l d ops c rs b' :
  total_cost c ops < u64_mod ->
  run_ops ops (Budget_new l d) = (rs, b') ->
  granted c ∅ rs <= ceiling c l.
Proof.
  intros Hlt E. change ∅ with (graph_reads (Budget_new l d)).
  destruct (run_ops_spec _ _ _ _ c E) as [->|Hg]; [done|by destruct c|lia|].
  change (limits (Budget_new l d)) with l in Hg. lia.
Qed.

(** A cancelled or expired operation spends nothing: when [check] fails,
    every charge returns that error and leaves all ceiling counters as they
    were. *)
Theorem stopped_operations_spend_nothing op b e b1 :
  check b = (Err e, b1) -> op <> OpCacheHit -> op <> OpCacheMiss ->
  (forall oid n, op <> OpGraphObject oid n) ->
  fst (op_run op b) = Err e /\ forall c, counter_get c (snd (op_run op b)) = counter_get c b.
Proof.
  intros E Hh Hm Hg.
  assert (forall c, counter_get c b1 = counter_get c b) as Hc.
  { revert E. unfold check. intros E c. repeat (case_match; simplify_eq/=); by destruct c. }
  destruct op; try done; unfold op_run, charge_object, charge_object_visit, charge_header,
    charge_tree_entry, charge_integrity_bytes, charge_provider_request, charge_provider_bytes,
    sbind; cbv beta; rewrite ?E; try done.
  by destruct (Hg oid n).
Qed.

(** Reading through [try_find_graph] the same object again costs nothing: the
    suspensions of a repeated graph read cover the object count, the read
    count and the byte count. *)
Lemma graph_reread_free oid n b r b' :
  op_run (OpGraphObject oid n) b = (r, b') -> idle b -> oid ∈ graph_reads b ->
  (forall c, counter_get c b' = counter_get c b) /\ objects_read b' = objects_read b /\ idle b'.
Proof.
  intros E [Ho Hd] Hin. budget_cases; rewrite ?Ho, ?Hd in *; simplify_eq/=;
    try (by rewrite bool_decide_eq_true_2 in * by done);
    (split; [by intros []|split; [done|by split]]).
Qed.

(** Graph accounting: a commit-graph read never spends [max_objects], its
    bytes are charged the first time an object is read and never again, and
    the suspension counters are restored whether the read succeeds or fails. *)
Theorem graph_read_accounting oid n b r b' :
  op_run (OpGraphObject oid n) b = (r, b') -> idle b ->
  objects b' = objects b /\ idle b' /\
  graph_reads b' = {[oid]} ∪ graph_reads b /\
  (oid ∈ graph_reads b -> object_bytes b' = object_bytes b /\ objects_read b' = objects_read b) /\
  (forall u, r = Ok u -> oid ∉ graph_reads b -> object_bytes b' = wadd64 (object_bytes b) n /\
                         objects_read b' = wadd64 (objects_read b) 1).
Proof.
  intros E Hi. split_and!.
  - destruct Hi as [Ho Hd]. budget_cases; rewrite ?Ho, ?Hd in *; by simplify_eq/=.
  - destruct Hi as [Ho Hd]. budget_cases; rewrite ?Ho, ?Hd in *; simplify_eq/=; by split.
  - budget_cases; done.
  - intros Hin. destruct (graph_reread_free _ _ _ _ _ E Hi Hin) as (Hc & Hr & _).
    split; [apply (Hc CObjectBytes)|done].
  - intros u -> Hnin. destruct Hi as [Ho Hd].
    budget_cases; rewrite ?Ho, ?Hd in *; simplify_eq/=;
      by rewrite bool_decide_eq_false_2 in * by done.
Qed.

End Facts.

(* ------------------------------------------------------------------ *)
(** ** Specifications for the clients of a budget *)

(** The errors a budget stops an operation with. *)
Definition budget_stop (e : Error) : Prop :=
  code e = Cancelled \/ code e = Timeout \/ code e = BudgetExceeded \/ code e = ObjectTooLarge.

(** An invariant of the store state, whatever the budget. *)
Definition on_store {T} (I : T -> Prop) (w : Budget * T) : Prop := I w.2.

Section Clients.
Context `{Env} {T : Type} (I : T -> Prop) (F : Error -> Prop).
Hypothesis F_stop : forall e, budget_stop e -> F e.

(** A budget operation may stop the job and never touches the store. *)
Lemma hoare_budget {A} (m : BM A) :
  (forall b, outcome budget_stop (fun _ => True) (m b).1) ->
  hoare (on_store I) F (on_budget m) (fun _ => True).
Proof.
  intros Hm [b t] Hw. specialize (Hm b). unfold on_budget.
  destruct (m b) as [[a|e] b']; simpl in *; auto.
Qed.

Lemma hoare_check : hoare (on_store I) F (on_budget check) (fun _ => True).
Proof. apply hoare_budget. intros b. unfold budget_stop. budget_cases; auto. Qed.
Lemma hoare_charge_object n : hoare (on_store I) F (on_budget (charge_object n)) (fun _ => True).
Proof. apply hoare_budget. intros b. unfold budget_stop. budget_cases; auto. Qed.
Lemma hoare_charge_object_visit :
  hoare (on_store I) F (on_budget charge_object_visit) (fun _ => True).
Proof. apply hoare_budget. intros b. unfold budget_stop. budget_cases; auto. Qed.
Lemma hoare_charge_header : hoare (on_store I) F (on_budget charge_header) (fun _ => True).
Proof. apply hoare_budget. intros b. unfold budget_stop. budget_cases; auto. Qed.
Lemma hoare_charge_tree_entry : hoare (on_store I) F (on_budget charge_tree_entry) (fun _ => True).
Proof. apply hoare_budget. intros b. unfold budget_stop. budget_cases; auto. Qed.

Lemma hoare_without_object_charge {A} oid (m : ST (Budget * T) Error A) P :
  hoare (on_store I) F m P -> hoare (on_store I) F (without_object_charge oid m) P.
Proof.
  intros Hm [b t] Hw. unfold without_object_charge. cbv zeta.
  match goal with |- context [m (?x, t)] => specialize (Hm (x, t) Hw); destruct (m (x, t)) as [r [b1 t1]] end.
  done.
Qed.

Lemma hoare_without_object_recharge {A} (m : ST (Budget * T) Error A) P :
  hoare (on_store I) F m P -> hoare (on_store I) F (without_object_recharge m) P.
Proof.
  intros Hm [b t] Hw. unfold without_object_recharge. cbv zeta.
  match goal with |- context [m (?x, t)] => specialize (Hm (x, t) Hw); destruct (m (x, t)) as [r [b1 t1]] end.
  done.
Qed.

End Clients.

#[export] Hint Resolve hoare_check hoare_charge_object hoare_charge_object_visit hoare_charge_header
  hoare_charge_tree_entry hoare_without_object_charge hoare_without_object_recharge : gitility.

(* ------------------------------------------------------------------ *)
(** ** Witnesses *)

(** An environment that never cancels and whose clock stands still. *)
Definition quiet : Env := {| env_cancelled _ := false; env_now _ := 0 |}.
(** One in which the job is already cancelled. *)
Definition stopped : Env := {| env_cancelled _ := true; env_now _ := 0 |}.

Definition small_limits : BudgetLimits := mkLimits 2 10 12 1 5 1 3.
Definition sample_oid : Oid := mkOid Sha1 (replicate 32 x00).
Definition sample_ops : list BudgetOp :=
  [OpGraphObject sample_oid 3; OpObject 8; OpTreeEntry; OpObject 8; OpGraphObject sample_oid 3; OpTreeEntry; OpIntegrity 4].

Lemma budget_grants_within_limits_witness :
  total_cost CObjectBytes sample_ops < u64_mod /\
  granted CObjectBytes ∅ (fst (@run_ops quiet sample_ops (Budget_new small_limits None))) <=
  ceiling CObjectBytes small_limits.
Proof.
  split; [vm_compute; reflexivity|].
  apply (@budget_grants_within_limits quiet small_limits None sample_ops CObjectBytes
           (fst (@run_ops quiet sample_ops (Budget_new small_limits None)))
           (snd (@run_ops quiet sample_ops (Budget_new small_limits None))));
    vm_compute; reflexivity.
Defined.

Lemma stopped_operations_spend_nothing_witness :
  fst (@op_run stopped OpTreeEntry (Budget_new small_limits None)) = Err cancelled_error /\
  forall c, counter_get c (snd (@op_run stopped OpTreeEntry (Budget_new small_limits None))) =
            counter_get c (Budget_new small_limits None).
Proof.
  apply (@stopped_operations_spend_nothing stopped OpTreeEntry (Budget_new small_limits None)
           cancelled_error (tick (Budget_new small_limits None))); try done.
Defined.

Lemma graph_read_accounting_witness :
  exists r b', @op_run quiet (OpGraphObject sample_oid 7) (Budget_new small_limits None) = (r, b') /\
  objects b' = 0 /\ idle b' /\ graph_reads b' = {[sample_oid]} ∪ ∅ /\
  (sample_oid ∈ (∅ : gset Oid) -> object_bytes b' = 0 /\ objects_read b' = 0) /\
  (forall u, r = Ok u -> sample_oid ∉ (∅ : gset Oid) ->
     object_bytes b' = wadd64 0 7 /\ objects_read b' = wadd64 0 1).
Proof.
  eexists _, _. split; [reflexivity|].
  apply (@graph_read_accounting quiet sample_oid 7 (Budget_new small_limits None)); [reflexivity|].
  by split.
Defined.
