(* ===== verification/Lru.v ===== *)
(** * The weighted least-recently-used cache ([lru.rs])

    The slab of nodes with its intrusive doubly-linked recency list, the key
    index and the free list, operation by operation. An operation returns
    [None] where the source would panic ([expect], an index out of range) or
    where the eviction loop would not stop; the refinement theorems show that
    this never happens and that the cache implements the abstract one below:
    a list of entries in recency order, least recent first. *)

From Stdlib Require Import NArith Lia.
From stdpp Require Import prelude gmap list.
From S2P Require Import Prelude.

Open Scope N_scope.

Module Cache.
Section Lru.
Context {K V : Type} `{Countable K}.

(** [Node<K, V>]. *)
Record Node : Type := mkNode {
  key : K;
  value : V;
  weight : N;
  previous : option nat;
  next : option nat
}.

(** [LruCache<K, V>]. The vector [free] is kept with its last element first:
    [push] conses and [pop] takes the head. *)
Record LruCache : Type := mkLru {
  indices : gmap K nat;
  nodes : list (option Node);
  free : list nat;
  least_recent : option nat;
  most_recent : option nat;
  used : N;
  capacity : N
}.

(** [LruCache::new]. *)
Definition LruCache_new (cap : N) : LruCache := mkLru ∅ [] [] None None 0 cap.

Definition set_nodes (ns : list (option Node)) (c : LruCache) : LruCache :=
  mkLru (indices c) ns (free c) (least_recent c) (most_recent c) (used c) (capacity c).
Definition set_least (o : option nat) (c : LruCache) : LruCache :=
  mkLru (indices c) (nodes c) (free c) o (most_recent c) (used c) (capacity c).
Definition set_most (o : option nat) (c : LruCache) : LruCache :=
  mkLru (indices c) (nodes c) (free c) (least_recent c) o (used c) (capacity c).

(** [node]: panics unless [index] names an occupied slot. *)
Definition node (i : nat) (c : LruCache) : option Node :=
  match nodes c !! i with
  | Some (Some n) => Some n
  | _ => None
  end.

(** [node_mut(index).next = v] and [node_mut(index).previous = v]. *)
Definition set_next (i : nat) (v : option nat) (c : LruCache) : option LruCache :=
  n ← node i c;
  Some (set_nodes (<[i := Some (mkNode (key n) (value n) (weight n) (previous n) v)]> (nodes c)) c).
Definition set_previous (i : nat) (v : option nat) (c : LruCache) : option LruCache :=
  n ← node i c;
  Some (set_nodes (<[i := Some (mkNode (key n) (value n) (weight n) v (next n))]> (nodes c)) c).

(** [touch]. *)
Definition touch (index : nat) (c : LruCache) : option LruCache :=
  if bool_decide (most_recent c = Some index) then Some c
  else
    n ← node index c;
    let prev := previous n in
    let nxt := next n in
    c ← match prev with
        | Some p => set_next p nxt c
        | None => Some (set_least nxt c)
        end;
    c ← match nxt with
        | Some q => set_previous q prev c
        | None => Some c
        end;
    let old_most_recent := most_recent c in
    c ← set_previous index old_most_recent c;
    c ← set_next index None c;
    c ← match old_most_recent with
        | Some m => set_next m (Some index) c
        | None => Some (set_least (Some index) c)
        end;
    Some (set_most (Some index) c).

(** [remove_index]: [Ok]-shaped result [Some node], or [None] in the first
    component when the slot is vacant or out of range. *)
Definition remove_index (index : nat) (c : LruCache) : option (option Node * LruCache) :=
  match nodes c !! index with
  | Some (Some n) =>
      let c := set_nodes (<[index := None]> (nodes c)) c in
      c ← match previous n with
          | Some p => set_next p (next n) c
          | None => Some (set_least (next n) c)
          end;
      c ← match next n with
          | Some q => set_previous q (previous n) c
          | None => Some (set_most (previous n) c)
          end;
      Some (Some n,
            mkLru (delete (key n) (indices c)) (nodes c) (index :: free c) (least_recent c)
                  (most_recent c) (ssub64 (used c) (weight n)) (capacity c))
  | _ => Some (None, c)
  end.

(** [get] and [get_cloned]. *)
Definition get (k : K) (c : LruCache) : option (option V * LruCache) :=
  match indices c !! k with
  | None => Some (None, c)
  | Some index =>
      c ← touch index c;
      match nodes c !! index with
      | Some o => Some (option_map value o, c)
      | None => None
      end
  end.
Definition get_cloned (k : K) (c : LruCache) : option (option V * LruCache) := get k c.

(** The eviction loop of [insert_counting_evictions]. *)
Fixpoint evict_loop (fuel : nat) (w : N) (evictions : N) (c : LruCache) : option (N * LruCache) :=
  match fuel with
  | O => None
  | S fuel =>
      if capacity c <? sadd64 (used c) w then
        match least_recent c with
        | None => Some (evictions, c)
        | Some index =>
            '(_, c) ← remove_index index c;
            evict_loop fuel w (sadd64 evictions 1) c
        end
      else Some (evictions, c)
  end.

(** The rest of [insert_counting_evictions] once the entry fits: take a slot,
    fill it and link it at the most-recent end. *)
Definition insert_tail (k : K) (v : V) (w : N) (evictions : N) (c : LruCache)
  : option (N * LruCache) :=
  let '(index, c) :=
    match free c with
    | i :: rest => (i, mkLru (indices c) (nodes c) rest (least_recent c) (most_recent c)
                             (used c) (capacity c))
    | [] => (length (nodes c), set_nodes (nodes c ++ [None]) c)
    end in
  let prev := most_recent c in
  if (index <? length (nodes c))%nat then
    let c := set_nodes (<[index := Some (mkNode k v w prev None)]> (nodes c)) c in
    c ← match prev with
        | Some p => set_next p (Some index) c
        | None => Some (set_least (Some index) c)
        end;
    let c := set_most (Some index) c in
    Some (evictions, mkLru (<[k := index]> (indices c)) (nodes c) (free c) (least_recent c)
                           (most_recent c) (sadd64 (used c) w) (capacity c))
  else None.

(** [insert_counting_evictions] and [insert]. *)
Definition insert_counting_evictions (k : K) (v : V) (w : N) (c : LruCache)
  : option (N * LruCache) :=
  c ← match indices c !! k with
      | Some index => snd <$> remove_index index c
      | None => Some c
      end;
  if (capacity c =? 0) || (capacity c <? w) then Some (0, c)
  else
    '(evictions, c) ← evict_loop (S (length (nodes c))) w 0 c;
    insert_tail k v w evictions c.
Definition insert (k : K) (v : V) (w : N) (c : LruCache) : option LruCache :=
  snd <$> insert_counting_evictions k v w c.

(** [pop_lru], [remove] and [clear]. *)
Definition pop_lru (c : LruCache) : option (option (K * V) * LruCache) :=
  match least_recent c with
  | None => Some (None, c)
  | Some index =>
      '(o, c) ← remove_index index c;
      Some (option_map (fun n => (key n, value n)) o, c)
  end.
Definition remove (k : K) (c : LruCache) : option (option V * LruCache) :=
  match indices c !! k with
  | None => Some (None, c)
  | Some index =>
      '(o, c) ← remove_index index c;
      Some (option_map value o, c)
  end.
Definition clear (c : LruCache) : LruCache :=
  mkLru ∅ (replicate (length (nodes c)) None) (reverse (seq 0 (length (nodes c)))) None None 0
        (capacity c).

(** [len], [is_empty] and the accessor [used]. *)
Definition len (c : LruCache) : nat := size (indices c).
Definition is_empty (c : LruCache) : bool := bool_decide (indices c = ∅).

(* ------------------------------------------------------------------ *)
(** ** The abstract cache *)

Record Entry : Type := mkEntry { e_key : K; e_value : V; e_weight : N }.

Definition total (es : list Entry) : N := foldr (fun e acc => e_weight e + acc) 0 es.

Definition spec_find (k : K) (es : list Entry) : option Entry :=
  head (filter (fun e => e_key e = k) es).
Definition spec_without (k : K) (es : list Entry) : list Entry :=
  filter (fun e => e_key e <> k) es.

(** A hit moves to the most-recent end. *)
Definition spec_get (k : K) (es : list Entry) : option V * list Entry :=
  match spec_find k es with
  | Some e => (Some (e_value e), spec_without k es ++ [e])
  | None => (None, es)
  end.

(** Evict from the least-recent end until [w] more fits. *)
Fixpoint spec_evict (cap w : N) (es : list Entry) : N * list Entry :=
  match es with
  | [] => (0, [])
  | e :: rest =>
      if cap <? total es + w then
        let '(n, kept) := spec_evict cap w rest in (n + 1, kept)
      else (0, es)
  end.

Definition spec_insert (cap : N) (k : K) (v : V) (w : N) (es : list Entry) : N * list Entry :=
  let es := spec_without k es in
  if (cap =? 0) || (cap <? w) then (0, es)
  else let '(n, kept) := spec_evict cap w es in (n, kept ++ [mkEntry k v w]).

Definition spec_pop (es : list Entry) : option (K * V) * list Entry :=
  match es with
  | [] => (None, [])
  | e :: rest => (Some (e_key e, e_value e), rest)
  end.

Definition spec_remove (k : K) (es : list Entry) : option V * list Entry :=
  (e_value <$> spec_find k es, spec_without k es).

(* ------------------------------------------------------------------ *)
(** ** The representation relation *)

Abbreviation slots := (list (option Node)).
Abbreviation cells := (list (nat * Entry)).

Definition hd_or (q : option nat) (xs : cells) : option nat :=
  match xs with
  | [] => q
  | (i, _) :: _ => Some i
  end.
Definition last_or (p : option nat) (xs : cells) : option nat :=
  match last xs with
  | None => p
  | Some (i, _) => Some i
  end.

Definition cell_node (e : Entry) (p q : option nat) : Node :=
  mkNode (e_key e) (e_value e) (e_weight e) p q.

(** A segment of the recency list: [p] precedes it and [q] follows it. *)
Fixpoint dseg (ns : slots) (p : option nat) (xs : cells) (q : option nat) : Prop :=
  match xs with
  | [] => True
  | (i, e) :: xs => ns !! i = Some (Some (cell_node e p (hd_or q xs))) /\ dseg ns (Some i) xs q
  end.

Record rep (c : LruCache) (xs : cells) : Prop := {
  rep_list : dseg (nodes c) None xs None;
  rep_nodup : NoDup (xs.*1);
  rep_keys : NoDup (e_key <$> xs.*2);
  rep_least : least_recent c = hd_or None xs;
  rep_most : most_recent c = last_or None xs;
  rep_indices : forall k i, indices c !! k = Some i <-> exists e, (i, e) ∈ xs /\ e_key e = k;
  rep_free : NoDup (free c) /\ forall i, i ∈ free c <-> nodes c !! i = Some None;
  rep_full : forall i n, nodes c !! i = Some (Some n) -> i ∈ xs.*1;
  rep_used : used c = total (xs.*2);
  rep_cap : total (xs.*2) <= capacity c < u64_max
}.

(** The cache [c] holds the entries [es], least recent first. *)
Definition represents (c : LruCache) (es : list Entry) : Prop :=
  exists xs, xs.*2 = es /\ rep c xs.

(* ------------------------------------------------------------------ *)
(** ** Segments of the recency list *)

(** Writing the [next] (resp. [previous]) link of an optional slot. *)
Definition fix_next (ns : slots) (o v : option nat) : slots :=
  match o with
  | None => ns
  | Some p => match ns !! p with
              | Some (Some n) =>
                  <[p := Some (mkNode (key n) (value n) (weight n) (previous n) v)]> ns
              | _ => ns
              end
  end.
Definition fix_prev (ns : slots) (o v : option nat) : slots :=
  match o with
  | None => ns
  | Some p => match ns !! p with
              | Some (Some n) => <[p := Some (mkNode (key n) (value n) (weight n) v (next n))]> ns
              | _ => ns
              end
  end.

Lemma hd_or_app q xs ys : hd_or q (xs ++ ys) = hd_or (hd_or q ys) xs.
Proof. by destruct xs. Qed.

Lemma last_or_cons p i e xs : last_or p ((i, e) :: xs) = last_or (Some i) xs.
Proof. unfold last_or. rewrite last_cons. by destruct (last xs) as [[]|]. Qed.

Lemma last_or_app p xs ys : last_or p (xs ++ ys) = last_or (last_or p xs) ys.
Proof.
  revert p. induction xs as [|[i e] xs IH]; intros p; [done|].
  cbn [app]. by rewrite !last_or_cons.
Qed.

Lemma last_or_snoc p xs i e : last_or p (xs ++ [(i, e)]) = Some i.
Proof. rewrite last_or_app. done. Qed.

Lemma last_or_elem p xs j : last_or p xs = Some j -> p = Some j \/ j ∈ xs.*1.
Proof.
  revert p. induction xs as [|[i e] xs IH]; intros p; [by left|].
  rewrite last_or_cons. intros [[= ->]|Hj]%IH; right; set_solver.
Qed.

Lemma hd_or_elem q xs j : hd_or q xs = Some j -> q = Some j \/ j ∈ xs.*1.
Proof. destruct xs as [|[i e] xs]; simpl; [by left|]. intros [= ->]. right. set_solver. Qed.

Lemma last_or_None_elem xs j : last_or None xs = Some j -> j ∈ xs.*1.
Proof. by intros [|]%last_or_elem. Qed.
Lemma hd_or_None_elem xs j : hd_or None xs = Some j -> j ∈ xs.*1.
Proof. by intros [|]%hd_or_elem. Qed.

Lemma dseg_app ns p xs ys q :
  dseg ns p (xs ++ ys) q <-> dseg ns p xs (hd_or q ys) /\ dseg ns (last_or p xs) ys q.
Proof.
  revert p. induction xs as [|[i e] xs IH]; intros p; [naive_solver|].
  cbn [app dseg]. rewrite hd_or_app, IH, last_or_cons. tauto.
Qed.

Lemma dseg_frame ns ns' p xs q :
  (forall i, i ∈ xs.*1 -> ns' !! i = ns !! i) -> dseg ns p xs q -> dseg ns' p xs q.
Proof.
  revert p. induction xs as [|[i e] xs IH]; intros p Hf; [done|].
  intros [Hi Hs]. split.
  - rewrite Hf; [done|]. set_solver.
  - apply IH; [|done]. intros j Hj. apply Hf. set_solver.
Qed.

Lemma dseg_occupied ns p xs q i : dseg ns p xs q -> i ∈ xs.*1 -> exists n, ns !! i = Some (Some n).
Proof.
  revert p. induction xs as [|[j e] xs IH]; intros p; [set_solver|].
  cbn [dseg fmap list_fmap fst]. intros [Hj Hs] [->|Hi]%elem_of_cons; eauto.
Qed.

Lemma fix_next_ne ns o v j : o <> Some j -> fix_next ns o v !! j = ns !! j.
Proof.
  intros Ho. unfold fix_next. destruct o as [p|]; [|done].
  assert (p <> j) by congruence. destruct (ns !! p) as [[n|]|]; try done.
  by rewrite list_lookup_insert_ne.
Qed.
Lemma fix_prev_ne ns o v j : o <> Some j -> fix_prev ns o v !! j = ns !! j.
Proof.
  intros Ho. unfold fix_prev. destruct o as [p|]; [|done].
  assert (p <> j) by congruence. destruct (ns !! p) as [[n|]|]; try done.
  by rewrite list_lookup_insert_ne.
Qed.

(** Link writes keep vacant slots vacant and occupied slots occupied. *)
Lemma fix_next_shape ns o v j :
  (fix_next ns o v !! j = Some None <-> ns !! j = Some None) /\
  ((exists n, fix_next ns o v !! j = Some (Some n)) <-> exists n, ns !! j = Some (Some n)).
Proof.
  destruct (decide (o = Some j)) as [->|Hne]; [|by rewrite fix_next_ne].
  unfold fix_next. destruct (ns !! j) as [[n|]|] eqn:E; rewrite ?E; try naive_solver.
  rewrite list_lookup_insert_eq by (by eapply lookup_lt_Some). naive_solver.
Qed.
Lemma fix_prev_shape ns o v j :
  (fix_prev ns o v !! j = Some None <-> ns !! j = Some None) /\
  ((exists n, fix_prev ns o v !! j = Some (Some n)) <-> exists n, ns !! j = Some (Some n)).
Proof.
  destruct (decide (o = Some j)) as [->|Hne]; [|by rewrite fix_prev_ne].
  unfold fix_prev. destruct (ns !! j) as [[n|]|] eqn:E; rewrite ?E; try naive_solver.
  rewrite list_lookup_insert_eq by (by eapply lookup_lt_Some). naive_solver.
Qed.

Lemma fix_next_length ns o v : length (fix_next ns o v) = length ns.
Proof. unfold fix_next. repeat case_match; by rewrite ?length_insert. Qed.
Lemma fix_prev_length ns o v : length (fix_prev ns o v) = length ns.
Proof. unfold fix_prev. repeat case_match; by rewrite ?length_insert. Qed.

Lemma dseg_fix_next ns p xs q v :
  NoDup (xs.*1) -> dseg ns p xs q -> dseg (fix_next ns (last_or None xs) v) p xs v.
Proof.
  destruct xs as [|[i e] xs _] using rev_ind; [done|].
  rewrite last_or_snoc, fmap_app, NoDup_app. intros (_ & Hd & _).
  rewrite !dseg_app. cbn [hd_or dseg]. intros [Hs [Hi _]].
  assert (forall j, j ∈ xs.*1 -> Some i <> Some j) as Hne.
  { intros j Hj [= ->]. apply (Hd j Hj). simpl. set_solver. }
  split_and!; [|unfold fix_next; rewrite Hi; by apply list_lookup_insert_eq, (lookup_lt_Some _ _ _ Hi)|done].
  eapply dseg_frame; [|exact Hs]. intros j Hj. by apply fix_next_ne, Hne.
Qed.

Lemma dseg_fix_prev ns p xs q v :
  NoDup (xs.*1) -> dseg ns p xs q -> dseg (fix_prev ns (hd_or None xs) v) v xs q.
Proof.
  destruct xs as [|[i e] xs]; [done|]. cbn [fmap list_fmap fst hd_or dseg].
  rewrite NoDup_cons. intros [Hni _] [Hi Hs]. split.
  - unfold fix_prev. rewrite Hi. by apply list_lookup_insert_eq, (lookup_lt_Some _ _ _ Hi).
  - eapply dseg_frame; [|exact Hs]. intros j Hj. apply fix_prev_ne. intros [= ->]. done.
Qed.

(* ------------------------------------------------------------------ *)
(** ** Link updates as the code performs them *)

Lemma set_next_fix p v c n :
  nodes c !! p = Some (Some n) -> set_next p v c = Some (set_nodes (fix_next (nodes c) (Some p) v) c).
Proof. intros E. unfold set_next, node, fix_next. by rewrite E. Qed.
Lemma set_previous_fix p v c n :
  nodes c !! p = Some (Some n) ->
  set_previous p v c = Some (set_nodes (fix_prev (nodes c) (Some p) v) c).
Proof. intros E. unfold set_previous, node, fix_prev. by rewrite E. Qed.

(** Pointing the end of a segment forward to [v], or the list head when the
    segment is empty. *)
Lemma link_next_code c p0 xs q v :
  dseg (nodes c) p0 xs q ->
  match last_or None xs with
  | Some p => set_next p v c
  | None => Some (set_least v c)
  end =
  Some (mkLru (indices c) (fix_next (nodes c) (last_or None xs) v) (free c)
          (match last_or None xs with Some _ => least_recent c | None => v end)
          (most_recent c) (used c) (capacity c)).
Proof.
  intros Hs. destruct (last_or None xs) as [p|] eqn:E; [|by destruct c].
  apply last_or_None_elem in E. destruct (dseg_occupied _ _ _ _ _ Hs E) as [n Hn].
  by rewrite (set_next_fix _ _ _ n).
Qed.

Lemma link_prev_code c p0 xs q v :
  dseg (nodes c) p0 xs q ->
  match hd_or None xs with
  | Some p => set_previous p v c
  | None => Some (set_most v c)
  end =
  Some (mkLru (indices c) (fix_prev (nodes c) (hd_or None xs) v) (free c) (least_recent c)
          (match hd_or None xs with Some _ => most_recent c | None => v end)
          (used c) (capacity c)).
Proof.
  intros Hs. destruct (hd_or None xs) as [p|] eqn:E; [|by destruct c].
  apply hd_or_None_elem in E. destruct (dseg_occupied _ _ _ _ _ Hs E) as [n Hn].
  by rewrite (set_previous_fix _ _ _ n).
Qed.

(* ------------------------------------------------------------------ *)
(** ** Entries *)

Lemma total_app es es' : total (es ++ es') = total es + total es'.
Proof. induction es as [|e es IH]; simpl; [done|]. rewrite IH. lia. Qed.

Lemma total_perm es es' : es ≡ₚ es' -> total es = total es'.
Proof. induction 1; simpl; lia. Qed.

Lemma keys_split es1 e es2 :
  NoDup (e_key <$> es1 ++ e :: es2) ->
  spec_find (e_key e) (es1 ++ e :: es2) = Some e /\
  spec_without (e_key e) (es1 ++ e :: es2) = es1 ++ es2.
Proof.
  rewrite fmap_app, fmap_cons, NoDup_app, NoDup_cons. intros (_ & Hd & Hn & _).
  assert (forall e', e' ∈ es1 -> e_key e' <> e_key e) as H1.
  { intros e' He' E. apply (Hd (e_key e')); [by apply list_elem_of_fmap_2|].
    rewrite E. by left. }
  assert (forall e', e' ∈ es2 -> e_key e' <> e_key e) as H2.
  { intros e' He' E. apply Hn. rewrite <- E. by apply list_elem_of_fmap_2. }
  unfold spec_find, spec_without. rewrite !filter_app, !filter_cons.
  rewrite decide_True, decide_False by auto.
  rewrite (filter_none (fun e' => e_key e' = e_key e) es1) by done.
  by rewrite (filter_all _ es1 H1), (filter_all _ es2 H2).
Qed.

Lemma keys_absent k es :
  k ∉ e_key <$> es -> spec_find k es = None /\ spec_without k es = es.
Proof.
  intros Hk. assert (forall e, e ∈ es -> e_key e <> k) as He.
  { intros e He E. apply Hk. rewrite <- E. by apply list_elem_of_fmap_2. }
  unfold spec_find, spec_without. split; [by rewrite filter_none|by apply filter_all].
Qed.

(** Facts about the position of one cell in the list. *)
Lemma nodup_middle (xs1 xs2 : cells) i e :
  NoDup ((xs1 ++ (i, e) :: xs2).*1) ->
  NoDup (xs1.*1) /\ NoDup (xs2.*1) /\ i ∉ xs1.*1 /\ i ∉ xs2.*1 /\
  (forall j, j ∈ xs1.*1 -> j ∉ xs2.*1).
Proof.
  rewrite fmap_app, fmap_cons, NoDup_app, NoDup_cons. simpl. intros (H1 & Hd & Hi & H2).
  split_and!; try done.
  - intros Hin. apply (Hd i Hin). by left.
  - intros j Hj Hj2. apply (Hd j Hj). by right.
Qed.

Lemma last_ne (xs : cells) j : j ∉ xs.*1 -> last_or None xs <> Some j.
Proof. intros Hj E. by apply Hj, last_or_None_elem. Qed.
Lemma hd_ne (xs : cells) j : j ∉ xs.*1 -> hd_or None xs <> Some j.
Proof. intros Hj E. by apply Hj, hd_or_None_elem. Qed.

(** Splicing one cell out of the links. *)
Lemma splice ns xs1 i e xs2 ns0 :
  NoDup ((xs1 ++ (i, e) :: xs2).*1) -> dseg ns None (xs1 ++ (i, e) :: xs2) None ->
  (forall j, j <> i -> ns0 !! j = ns !! j) ->
  dseg (fix_prev (fix_next ns0 (last_or None xs1) (hd_or None xs2)) (hd_or None xs2)
          (last_or None xs1)) None xs1 (hd_or None xs2) /\
  dseg (fix_prev (fix_next ns0 (last_or None xs1) (hd_or None xs2)) (hd_or None xs2)
          (last_or None xs1)) (last_or None xs1) xs2 None.
Proof.
  intros Hnd Hs Hne. destruct (nodup_middle _ _ _ _ Hnd) as (N1 & N2 & Hi1 & Hi2 & Hd).
  apply dseg_app in Hs as [Hs1 [_ Hs2]].
  assert (forall xs : cells, i ∉ xs.*1 -> forall j, j ∈ xs.*1 -> ns0 !! j = ns !! j) as Hf.
  { intros xs Hi j Hj. apply Hne. intros ->. done. }
  apply (dseg_frame _ ns0) in Hs1; [|by apply Hf]. apply (dseg_frame _ ns0) in Hs2; [|by apply Hf].
  split.
  - eapply dseg_frame; [|by eapply dseg_fix_next].
    intros j Hj. apply fix_prev_ne, hd_ne. by apply Hd.
  - eapply dseg_fix_prev; [done|]. eapply dseg_frame; [|exact Hs2].
    intros j Hj. apply fix_next_ne, last_ne. intros Hj1. by apply (Hd j).
Qed.

Lemma rep_head_cell c xs1 i e xs2 :
  rep c (xs1 ++ (i, e) :: xs2) ->
  nodes c !! i = Some (Some (cell_node e (last_or None xs1) (hd_or None xs2))).
Proof. intros R. pose proof (rep_list _ _ R) as Hs. by apply dseg_app in Hs as [_ [Hi _]]. Qed.

Lemma least_after c xs1 i e xs2 :
  rep c (xs1 ++ (i, e) :: xs2) ->
  match last_or None xs1 with Some _ => least_recent c | None => hd_or None xs2 end =
  hd_or None (xs1 ++ xs2).
Proof.
  intros R. rewrite (rep_least _ _ R), !hd_or_app.
  destruct xs1 as [|[j ej] xs1]; [done|]. rewrite last_or_cons. cbn [hd_or].
  destruct (last_or (Some j) xs1) eqn:E; [done|].
  exfalso. revert E. clear. revert j. induction xs1 as [|[k ek] xs1 IH]; intros j; [done|].
  rewrite last_or_cons. apply IH.
Qed.

Lemma most_after c xs1 i e xs2 :
  rep c (xs1 ++ (i, e) :: xs2) ->
  match hd_or None xs2 with Some _ => most_recent c | None => last_or None xs1 end =
  last_or None (xs1 ++ xs2).
Proof.
  intros R. rewrite (rep_most _ _ R), !last_or_app, last_or_cons.
  destruct xs2 as [|[j ej] xs2]; [done|]. cbn [hd_or]. by rewrite !last_or_cons.
Qed.

(** The fields of [rep] that do not depend on the order of the list. *)
Lemma rep_bag c xs i e ys :
  rep c xs -> xs ≡ₚ (i, e) :: ys ->
  NoDup (ys.*1) /\ NoDup (e_key <$> ys.*2) /\ i ∉ ys.*1 /\ e_key e ∉ (e_key <$> ys.*2) /\
  total (xs.*2) = e_weight e + total (ys.*2).
Proof.
  intros R Hp. pose proof (rep_nodup _ _ R) as H1. pose proof (rep_keys _ _ R) as H2.
  rewrite Hp in H1, H2. rewrite fmap_cons, NoDup_cons in H1.
  rewrite !fmap_cons, NoDup_cons in H2. simpl in *.
  split_and!; try tauto.
  rewrite (total_perm (xs.*2) (e :: ys.*2)); [done|]. by rewrite Hp.
Qed.

Lemma remove_index_rep c xs1 i e xs2 :
  rep c (xs1 ++ (i, e) :: xs2) ->
  exists c', remove_index i c =
             Some (Some (cell_node e (last_or None xs1) (hd_or None xs2)), c') /\
    rep c' (xs1 ++ xs2) /\ capacity c' = capacity c /\ length (nodes c') = length (nodes c).
Proof.
  intros R. pose proof (rep_head_cell _ _ _ _ _ R) as Hi.
  assert (xs1 ++ (i, e) :: xs2 ≡ₚ (i, e) :: (xs1 ++ xs2)) as Hp by (by rewrite Permutation_middle).
  destruct (rep_bag _ _ _ _ _ R Hp) as (N1 & N2 & Hni & Hnk & Ht).
  destruct (splice (nodes c) xs1 i e xs2 (<[i := None]> (nodes c)) (rep_nodup _ _ R)
              (rep_list _ _ R)) as [S1 S2].
  { intros j Hj. by rewrite list_lookup_insert_ne. }
  destruct (nodup_middle _ _ _ _ (rep_nodup _ _ R)) as (M1 & M2 & Hi1 & Hi2 & Hd).
  unfold remove_index. rewrite Hi. cbn [previous next cell_node].
  set (c0 := set_nodes (<[i := None]> (nodes c)) c).
  pose proof (rep_list _ _ R) as Hs. apply dseg_app in Hs as [Hs1 [_ Hs2]].
  rewrite (link_next_code c0 None xs1 (Some i)).
  2:{ eapply dseg_frame; [|exact Hs1]. intros j Hj. simpl.
      rewrite list_lookup_insert_ne; [done|]. intros ->. done. }
  simpl. match goal with |- context [mkLru _ (fix_next ?a ?b ?d) _ _ _ _ _] =>
    rewrite (link_prev_code (mkLru (indices c) (fix_next a b d) (free c) _ (most_recent c)
               (used c) (capacity c)) (Some i) xs2 None) end.
  2:{ eapply dseg_frame; [|exact Hs2]. intros j Hj. simpl.
      rewrite fix_next_ne by (apply last_ne; intros Hj1; by apply (Hd j)).
      rewrite list_lookup_insert_ne; [done|]. intros ->. done. }
  simpl. eexists. split; [reflexivity|]. split; [|split; [done|]].
  - constructor; simpl.
    + apply dseg_app. by split.
    + done.
    + done.
    + by apply least_after with i e.
    + by apply most_after with i e.
    + intros k j. rewrite lookup_delete_Some, (rep_indices _ _ R). split.
      * intros [Hk (e' & He' & <-)]. exists e'. split; [|done].
        rewrite Hp in He'. apply elem_of_cons in He' as [[= -> ->]|He']; done.
      * intros (e' & He' & <-). split; [|exists e'; split; [rewrite Hp; by right|done]].
        intros E. apply Hnk. rewrite E. apply list_elem_of_fmap_2.
        apply list_elem_of_fmap. by exists (j, e').
    + destruct (rep_free _ _ R) as [Hf Hfi]. split.
      * apply NoDup_cons. split; [|done]. rewrite Hfi, Hi. done.
      * intros j. rewrite elem_of_cons, Hfi, (proj1 (fix_prev_shape _ _ _ _)),
          (proj1 (fix_next_shape _ _ _ _)).
        destruct (decide (j = i)) as [->|Hne].
        -- rewrite list_lookup_insert_eq by (by eapply lookup_lt_Some). naive_solver.
        -- rewrite list_lookup_insert_ne by done. naive_solver.
    + intros j n Hj. assert (exists n, <[i:=None]> (nodes c) !! j = Some (Some n)) as [n' Hn'].
      { apply (fix_next_shape _ (last_or None xs1) (hd_or None xs2)).
        apply (fix_prev_shape _ (hd_or None xs2) (last_or None xs1)). by eexists. }
      destruct (decide (j = i)) as [->|Hne].
      { rewrite list_lookup_insert_eq in Hn' by (by eapply lookup_lt_Some). done. }
      rewrite list_lookup_insert_ne in Hn' by done.
      apply (rep_full _ _ R) in Hn'. rewrite Hp in Hn'. simpl in Hn'. set_solver.
    + rewrite (rep_used _ _ R), Ht. unfold ssub64. lia.
    + pose proof (rep_cap _ _ R). lia.
  - cbn [nodes]. by rewrite fix_prev_length, fix_next_length, length_insert.
Qed.

(** Reordering the list under the same cells. *)
Lemma rep_reorder c ns xs ys :
  rep c xs -> xs ≡ₚ ys -> dseg ns None ys None ->
  (forall j, (ns !! j = Some None <-> nodes c !! j = Some None) /\
             ((exists n, ns !! j = Some (Some n)) <-> exists n, nodes c !! j = Some (Some n))) ->
  rep (mkLru (indices c) ns (free c) (hd_or None ys) (last_or None ys) (used c) (capacity c)) ys.
Proof.
  intros R Hp Hs Hshape. constructor; simpl; try done.
  - rewrite <- Hp. apply (rep_nodup _ _ R).
  - rewrite <- Hp. apply (rep_keys _ _ R).
  - intros k j. rewrite (rep_indices _ _ R). by setoid_rewrite Hp.
  - destruct (rep_free _ _ R) as [Hf Hfi]. split; [done|]. intros j. by rewrite Hfi, (proj1 (Hshape j)).
  - intros j n Hn. assert (exists n, nodes c !! j = Some (Some n)) as [n' Hn'].
    { apply Hshape. by eexists. }
    apply (rep_full _ _ R) in Hn'. by rewrite Hp in Hn'.
  - rewrite (rep_used _ _ R). apply total_perm. by rewrite Hp.
  - rewrite <- (total_perm (xs.*2)) by (by rewrite Hp). apply (rep_cap _ _ R).
Qed.

(** Moving an unlinked cell [i] to the most-recent end. *)
Lemma relink_last ns xs1 i e q eq xs2 :
  let xs2' := (q, eq) :: xs2 in
  NoDup ((xs1 ++ (i, e) :: xs2').*1) ->
  dseg ns None xs1 (hd_or None xs2') -> dseg ns (last_or None xs1) xs2' None ->
  (exists p v, ns !! i = Some (Some (cell_node e p v))) ->
  let ns4 := fix_next (fix_prev ns (Some i) (last_or None xs2')) (Some i) None in
  dseg (fix_next ns4 (last_or None xs2') (Some i)) None (xs1 ++ xs2' ++ [(i, e)]) None.
Proof.
  intros xs2' Hnd S1 S2 (p & v & Hi) ns4.
  destruct (nodup_middle _ _ _ _ Hnd) as (N1 & N2 & Hi1 & Hi2 & Hd).
  assert (forall j, j <> i -> ns4 !! j = ns !! j) as Hne.
  { intros j Hj. unfold ns4. rewrite fix_next_ne, fix_prev_ne by congruence. done. }
  assert (ns4 !! i = Some (Some (cell_node e (last_or None xs2') None))) as Hi4.
  { unfold ns4, fix_next, fix_prev. rewrite Hi.
    pose proof (lookup_lt_Some _ _ _ Hi) as Hlt.
    rewrite list_lookup_insert_eq by done.
    by rewrite list_lookup_insert_eq by (by rewrite length_insert). }
  assert (forall xs : cells, i ∉ xs.*1 -> forall j, j ∈ xs.*1 -> ns4 !! j = ns !! j) as Hf.
  { intros xs Hx j Hj. apply Hne. intros ->. done. }
  apply dseg_app. split; [|apply dseg_app; split].
  - eapply dseg_frame; [|exact S1]. intros j Hj.
    rewrite fix_next_ne by (apply last_ne; by apply Hd). by apply (Hf xs1).
  - eapply dseg_fix_next; [done|]. eapply dseg_frame; [|exact S2]. by apply Hf.
  - cbn [dseg hd_or]. split; [|done]. rewrite fix_next_ne by (by apply last_ne).
    rewrite Hi4. do 2 f_equal. rewrite <- last_or_app, last_or_app.
    unfold xs2'. by rewrite !last_or_cons.
Qed.

(** The cache [touch] leaves when the entry is not already the most recent. *)
Lemma touch_code c xs1 i e q eq xs2 :
  let xs2' := (q, eq) :: xs2 in
  rep c (xs1 ++ (i, e) :: xs2') ->
  let ns2 := fix_prev (fix_next (nodes c) (last_or None xs1) (hd_or None xs2')) (hd_or None xs2')
               (last_or None xs1) in
  let ns4 := fix_next (fix_prev ns2 (Some i) (last_or None xs2')) (Some i) None in
  ns2 !! i = nodes c !! i /\
  touch i c = Some (mkLru (indices c) (fix_next ns4 (last_or None xs2') (Some i)) (free c)
                     (hd_or None (xs1 ++ xs2')) (Some i) (used c) (capacity c)).
Proof.
  intros xs2' R ns2 ns4. pose proof (rep_head_cell _ _ _ _ _ R) as Hi.
  destruct (nodup_middle _ _ _ _ (rep_nodup _ _ R)) as (N1 & N2 & Hi1 & Hi2 & Hd).
  pose proof (rep_list _ _ R) as Hs. apply dseg_app in Hs as [Hs1 [_ Hs2]].
  assert (most_recent c = last_or None xs2') as Hm.
  { rewrite (rep_most _ _ R), last_or_app, last_or_cons. unfold xs2'. by rewrite !last_or_cons. }
  assert (exists m, last_or None xs2' = Some m /\ m ∈ xs2'.*1) as (m & Em & Hmin).
  { destruct (last_or None xs2') as [m|] eqn:E; [exists m; split; [done|by apply last_or_None_elem]|].
    unfold xs2', last_or in E. rewrite last_cons in E. by destruct (last xs2) as [[]|]. }
  assert (ns2 !! i = nodes c !! i) as E2.
  { unfold ns2. rewrite fix_prev_ne, fix_next_ne; [done|by apply last_ne|by apply hd_ne]. }
  split; [exact E2|].
  unfold touch. rewrite bool_decide_eq_false_2 by (rewrite Hm; by apply last_ne).
  unfold node. rewrite Hi. cbn [mbind option_bind previous next cell_node].
  rewrite (link_next_code c None xs1 (Some i)) by done. rewrite (least_after _ _ _ _ _ R).
  assert (exists n, fix_next (nodes c) (last_or None xs1) (hd_or None xs2') !! q = Some (Some n))
    as [nq Hq].
  { apply fix_next_shape. apply (dseg_occupied _ _ _ _ _ Hs2). simpl. by left. }
  cbn [mbind option_bind hd_or xs2'].
  rewrite (set_previous_fix _ _ _ nq) by exact Hq. cbn [mbind option_bind most_recent set_nodes].
  rewrite Hm, (set_previous_fix i _ _ (cell_node e (last_or None xs1) (hd_or None xs2')))
    by exact (eq_trans E2 Hi).
  cbn [mbind option_bind set_nodes].
  destruct (proj2 (proj2 (fix_prev_shape ns2 (Some i) (last_or None xs2') i))) as [ni Hni].
  { eexists. exact (eq_trans E2 Hi). }
  rewrite (set_next_fix i _ _ ni) by exact Hni. cbn [mbind option_bind set_nodes].
  assert (exists n, ns4 !! m = Some (Some n)) as [nm Hnm].
  { apply fix_next_shape, fix_prev_shape, fix_prev_shape, fix_next_shape.
    by apply (dseg_occupied _ _ _ _ _ Hs2). }
  unfold ns4 in *. rewrite Em in *. by rewrite (set_next_fix m _ _ nm) by exact Hnm.
Qed.

Lemma touch_rep c xs1 i e xs2 :
  rep c (xs1 ++ (i, e) :: xs2) ->
  exists c', touch i c = Some c' /\ rep c' (xs1 ++ xs2 ++ [(i, e)]) /\ capacity c' = capacity c.
Proof.
  intros R. destruct xs2 as [|[q eq] xs2].
  { unfold touch. rewrite bool_decide_eq_true_2 by (by rewrite (rep_most _ _ R), last_or_snoc).
    by exists c. }
  destruct (touch_code _ _ _ _ _ _ _ R) as [Ei ->].
  destruct (splice (nodes c) xs1 i e ((q, eq) :: xs2) (nodes c) (rep_nodup _ _ R) (rep_list _ _ R))
    as [S1 S2]; [done|].
  eexists. split; [reflexivity|]. split; [|done].
  assert (hd_or None (xs1 ++ (q, eq) :: xs2) = hd_or None (xs1 ++ ((q, eq) :: xs2) ++ [(i, e)])) as ->.
  { by destruct xs1 as [|[]]. }
  pose proof (last_or_snoc None (xs1 ++ (q, eq) :: xs2) i e) as El. rewrite <- app_assoc in El.
  match goal with |- rep (mkLru _ ?ns _ _ _ _ _) ?ys => pose proof (rep_reorder c ns _ ys R) as HR end.
  rewrite El in HR. apply HR; clear HR.
  - rewrite <- Permutation_middle. rewrite app_assoc, (Permutation_app_comm (xs1 ++ _) [(i, e)]). done.
  - apply relink_last; [apply (rep_nodup _ _ R)|done|done|].
    eexists _, _. rewrite Ei. apply (rep_head_cell _ _ _ _ _ R).
  - intros j.
    by rewrite !(proj1 (fix_next_shape _ _ _ _)), !(proj1 (fix_prev_shape _ _ _ _)),
      !(proj1 (fix_next_shape _ _ _ _)), !(proj2 (fix_next_shape _ _ _ _)),
      !(proj2 (fix_prev_shape _ _ _ _)), !(proj2 (fix_next_shape _ _ _ _)).
Qed.

(* ------------------------------------------------------------------ *)
(** ** Lookup of a key in the index *)

Lemma rep_present c xs k i :
  rep c xs -> indices c !! k = Some i ->
  exists xs1 e xs2, xs = xs1 ++ (i, e) :: xs2 /\ e_key e = k.
Proof.
  intros R (e & He & Hk)%(rep_indices _ _ R).
  apply list_elem_of_split in He as (xs1 & xs2 & ->). by exists xs1, e, xs2.
Qed.

Lemma rep_absent c xs k : rep c xs -> indices c !! k = None -> k ∉ e_key <$> xs.*2.
Proof.
  intros R Hk Hin. apply list_elem_of_fmap in Hin as (e & -> & He).
  apply list_elem_of_fmap in He as ([i e'] & -> & Hx). simpl in Hk.
  assert (indices c !! e_key e' = Some i) by (apply (rep_indices _ _ R); by exists e').
  congruence.
Qed.

Lemma rep_length c xs : rep c xs -> (length xs <= length (nodes c))%nat.
Proof.
  intros R. rewrite <- (length_fmap fst), <- (length_seq (length (nodes c)) 0).
  apply submseteq_length, NoDup_submseteq; [apply (rep_nodup _ _ R)|].
  intros i Hi. apply elem_of_seq.
  destruct (dseg_occupied _ _ _ _ _ (rep_list _ _ R) Hi) as [n Hn].
  apply lookup_lt_Some in Hn. lia.
Qed.

Lemma rep_size c xs : rep c xs -> len c = length xs.
Proof.
  intros R. unfold len.
  assert (indices c = list_to_map ((fun x => (e_key x.2, x.1)) <$> xs)) as ->.
  { apply map_eq. intros k. apply option_eq. intros i. rewrite (rep_indices _ _ R).
    rewrite <- elem_of_list_to_map.
    - rewrite list_elem_of_fmap. split.
      + intros (e & He & <-). by exists (i, e).
      + intros ([j e] & [= -> ->] & He). by exists e.
    - rewrite <- list_fmap_compose. change (fst ∘ _) with (e_key ∘ snd : nat * Entry -> K).
      rewrite list_fmap_compose. apply (rep_keys _ _ R). }
  rewrite map_size_list_to_map; [by rewrite length_fmap|].
  rewrite <- list_fmap_compose. change (fst ∘ _) with (e_key ∘ snd : nat * Entry -> K).
  rewrite list_fmap_compose. apply (rep_keys _ _ R).
Qed.

(* ------------------------------------------------------------------ *)
(** ** Eviction and insertion *)

Lemma evict_rep fuel c xs w ev :
  rep c xs -> (length xs < fuel)%nat -> w <= capacity c -> ev <= u64_max ->
  exists n xs' c', evict_loop fuel w ev c = Some (N.min (ev + n) u64_max, c') /\
    spec_evict (capacity c) w (xs.*2) = (n, xs'.*2) /\ rep c' xs' /\
    capacity c' = capacity c /\ total (xs'.*2) + w <= capacity c /\ xs' ⊆ xs.
Proof.
  revert c xs ev. induction fuel as [|fuel IH]; intros c xs ev R Hf Hw Hev; [lia|].
  cbn [evict_loop]. pose proof (rep_cap _ _ R) as Hcap. rewrite (rep_used _ _ R), (rep_least _ _ R).
  destruct (capacity c <? sadd64 (total (xs.*2)) w) eqn:E;
    [apply N.ltb_lt in E | apply N.ltb_ge in E]; unfold sadd64 in E.
  - destruct xs as [|[i e] xs]; [simpl in E; lia|]. cbn [hd_or].
    destruct (remove_index_rep c [] i e xs R) as (c1 & -> & R1 & Hc1 & _).
    cbn [mbind option_bind app] in *.
    assert (sadd64 ev 1 <= u64_max) as Hev1 by (unfold sadd64; lia).
    destruct (IH c1 xs (sadd64 ev 1) R1) as (n & xs' & c' & -> & Hs & R' & Hc' & Ht & Hsub);
      [simpl in Hf; lia|lia|lia|].
    exists (n + 1), xs', c'. rewrite Hc1 in *. split_and!; try done.
    + do 2 f_equal. unfold sadd64. lia.
    + cbn [fmap list_fmap snd spec_evict]. change (total (e :: xs.*2)) with (e_weight e + total (xs.*2)).
      cbn [fmap list_fmap snd] in E. change (total (e :: xs.*2)) with (e_weight e + total (xs.*2)) in E.
      rewrite (proj2 (N.ltb_lt _ _)) by lia. change (list_fmap _ _ snd xs) with (xs.*2) in *. by rewrite Hs.
    + set_solver.
  - exists 0, xs, c. split_and!; try done; [do 2 f_equal; lia| |lia].
    destruct xs as [|[i e] xs]; [done|]. cbn [fmap list_fmap snd spec_evict].
    cbn [fmap list_fmap snd] in E. by rewrite (proj2 (N.ltb_ge _ _)) by lia.
Qed.

(** Filling the reserved slot [i] and linking it at the most-recent end. *)
Lemma push_rep c xs ns fr i k v w :
  rep c xs ->
  (forall j, j <> i -> ns !! j = nodes c !! j) -> ns !! i = Some None -> i ∉ xs.*1 ->
  NoDup fr -> (forall j, j ∈ fr <-> ns !! j = Some None /\ j <> i) ->
  k ∉ e_key <$> xs.*2 -> total (xs.*2) + w <= capacity c ->
  let c1 := mkLru (indices c) (<[i := Some (mkNode k v w (most_recent c) None)]> ns) fr
              (least_recent c) (most_recent c) (used c) (capacity c) in
  exists c2,
    match most_recent c with
    | Some p => set_next p (Some i) c1
    | None => Some (set_least (Some i) c1)
    end = Some c2 /\ capacity c2 = capacity c /\
    rep (mkLru (<[k := i]> (indices c2)) (nodes c2) (free c2) (least_recent c2) (Some i)
           (sadd64 (used c2) w) (capacity c2)) (xs ++ [(i, mkEntry k v w)]).
Proof.
  intros R Hne Hi Hix Hfr Hfri Hk Hw c1.
  pose proof (lookup_lt_Some _ _ _ Hi) as Hlt. pose proof (rep_cap _ _ R) as Hcap.
  set (ns1 := <[i := Some (mkNode k v w (most_recent c) None)]> ns).
  assert (dseg ns1 None xs None) as Hs.
  { eapply dseg_frame; [|apply (rep_list _ _ R)]. intros j Hj. unfold ns1.
    assert (j <> i) by (intros ->; done). by rewrite list_lookup_insert_ne, Hne. }
  rewrite (rep_most _ _ R). rewrite (link_next_code c1 None xs None (Some i)) by exact Hs.
  eexists. split; [reflexivity|]. split; [done|]. cbn [nodes indices free least_recent used capacity c1].
  change (<[i := Some (mkNode k v w (most_recent c) None)]> ns) with ns1.
  constructor; simpl; rewrite ?fmap_app; simpl.
  - apply dseg_app. split; [by eapply dseg_fix_next; [apply (rep_nodup _ _ R)|]|].
    split; [|done]. rewrite fix_next_ne by (by apply last_ne). unfold ns1.
    rewrite list_lookup_insert_eq by done. by rewrite (rep_most _ _ R).
  - apply NoDup_app. split; [apply (rep_nodup _ _ R)|]. split; [set_solver|apply NoDup_singleton].
  - apply NoDup_app. split; [apply (rep_keys _ _ R)|].
    split; [set_solver|apply NoDup_singleton].
  - rewrite (rep_least _ _ R), hd_or_app. cbn [hd_or]. destruct xs as [|[j ej] xs]; [done|].
    rewrite last_or_cons. cbn [hd_or]. destruct (last_or (Some j) xs) eqn:E; [done|].
    exfalso. revert E. unfold last_or. by destruct (last xs) as [[]|].
  - by rewrite last_or_snoc.
  - intros k' j. destruct (decide (k' = k)) as [->|Hkk].
    + rewrite lookup_insert_eq. split.
      * intros [= <-]. exists (mkEntry k v w). split; [set_solver|done].
      * intros (e & He & Hek). apply elem_of_app in He as [He|He].
        { destruct Hk. rewrite <- Hek. apply list_elem_of_fmap_2, list_elem_of_fmap. by exists (j, e). }
        apply list_elem_of_singleton in He. congruence.
    + rewrite lookup_insert_ne by done. rewrite (rep_indices _ _ R). split.
      * intros (e & He & Hek). exists e. set_solver.
      * intros (e & He & Hek). apply elem_of_app in He as [He|He]; [by exists e|].
        apply list_elem_of_singleton in He as [= -> ->]. done.
  - split; [done|]. intros j. rewrite Hfri, (proj1 (fix_next_shape _ _ _ _)). unfold ns1.
    destruct (decide (j = i)) as [->|Hj].
    + rewrite list_lookup_insert_eq by done. naive_solver.
    + rewrite list_lookup_insert_ne by done. naive_solver.
  - intros j n Hn. destruct (decide (j = i)) as [->|Hj]; [set_solver|].
    assert (exists n, ns1 !! j = Some (Some n)) as [n' Hn'].
    { apply (fix_next_shape _ (last_or None xs) (Some i)). by eexists. }
    unfold ns1 in Hn'. rewrite list_lookup_insert_ne, Hne in Hn' by done.
    apply (rep_full _ _ R) in Hn'. set_solver.
  - rewrite (rep_used _ _ R), total_app. simpl. unfold sadd64. lia.
  - rewrite total_app. simpl. lia.
Qed.

(** After making room, an insertion finds a slot: the top of the free list, or
    a new one at the end of the slab. *)
Lemma insert_tail_rep c xs k v w ev :
  rep c xs -> k ∉ e_key <$> xs.*2 -> total (xs.*2) + w <= capacity c ->
  exists c' i, insert_tail k v w ev c = Some (ev, c') /\
    rep c' (xs ++ [(i, mkEntry k v w)]) /\ capacity c' = capacity c.
Proof.
  intros R Hk Hw. destruct (rep_free _ _ R) as [Hnd Hfi]. unfold insert_tail.
  destruct (free c) as [|i rest] eqn:Ef; cbn [nodes set_nodes].
  - rewrite length_app. simpl. rewrite (proj2 (Nat.ltb_lt _ _)) by lia.
    destruct (push_rep c xs (nodes c ++ [None]) [] (length (nodes c)) k v w R)
      as (c2 & E & Hc2 & R2); try done.
    + intros j Hj. destruct (decide (j < length (nodes c))%nat) as [|Hge].
      * by rewrite lookup_app_l.
      * rewrite !lookup_ge_None_2; [done|lia|rewrite length_app; simpl; lia].
    + by rewrite lookup_app_r, Nat.sub_diag by lia.
    + intros Hin. destruct (dseg_occupied _ _ _ _ _ (rep_list _ _ R) Hin) as [n Hn].
      apply lookup_lt_Some in Hn. lia.
    + intros j. split; [set_solver|]. intros [Hj Hjn].
      assert (j < length (nodes c))%nat as Hlt.
      { apply lookup_lt_Some in Hj. rewrite length_app in Hj. simpl in Hj. lia. }
      rewrite lookup_app_l in Hj by done. apply Hfi in Hj. set_solver.
    + unfold set_nodes in *. simpl in *. rewrite Ef, E. simpl. eexists _, _. split; [reflexivity|].
      split; [exact R2|exact Hc2].
  - assert (nodes c !! i = Some None) as Hi by (apply Hfi; by left).
    rewrite (proj2 (Nat.ltb_lt _ _)) by (by apply (lookup_lt_Some _ _ _ Hi)).
    apply NoDup_cons in Hnd as [Hni Hnd].
    destruct (push_rep c xs (nodes c) rest i k v w R) as (c2 & E & Hc2 & R2); try done.
    + intros Hin. destruct (dseg_occupied _ _ _ _ _ (rep_list _ _ R) Hin) as [n Hn]. congruence.
    + intros j. rewrite <- Hfi, elem_of_cons. split; [|naive_solver].
      intros Hj. split; [by right|]. intros ->. done.
    + unfold set_nodes in *. simpl in *. rewrite E. simpl. eexists _, _. split; [reflexivity|].
      split; [exact R2|exact Hc2].
Qed.

(* ------------------------------------------------------------------ *)
(** ** Each operation refines the abstract one *)

Lemma new_refines cap : cap < u64_max -> represents (LruCache_new cap) [].
Proof.
  intros Hc. exists []. split; [done|]. constructor; simpl; try done; try (by constructor); try lia.
  - intros k i. rewrite lookup_empty. split; [done|]. intros (e & He & _). set_solver.
  - split; [by constructor|]. intros i. rewrite lookup_nil. set_solver.
Qed.

Lemma get_refines k c es :
  represents c es ->
  exists c', get k c = Some (fst (spec_get k es), c') /\ represents c' (snd (spec_get k es)) /\
             capacity c' = capacity c.
Proof.
  intros (xs & <- & R). unfold get, spec_get. destruct (indices c !! k) as [i|] eqn:E.
  - destruct (rep_present _ _ _ _ R E) as (xs1 & e & xs2 & -> & <-).
    destruct (touch_rep _ _ _ _ _ R) as (c' & -> & R' & Hc'). cbn [mbind option_bind].
    pose proof (rep_keys _ _ R) as Hk. rewrite fmap_app, fmap_cons in *. cbn [snd] in *.
    destruct (keys_split _ _ _ Hk) as [-> ->]. cbn [fst snd].
    rewrite app_assoc in R'. rewrite (rep_head_cell _ _ _ _ _ R').
    eexists. split; [done|]. split; [|done]. exists ((xs1 ++ xs2) ++ [(i, e)]).
    split; [by rewrite !fmap_app|done].
  - pose proof (rep_absent _ _ _ R E) as Hk. destruct (keys_absent _ _ Hk) as [-> _].
    exists c. split; [done|]. split; [by exists xs|done].
Qed.

Lemma remove_refines k c es :
  represents c es ->
  exists c', remove k c = Some (fst (spec_remove k es), c') /\
             represents c' (snd (spec_remove k es)) /\ capacity c' = capacity c.
Proof.
  intros (xs & <- & R). unfold remove, spec_remove. destruct (indices c !! k) as [i|] eqn:E.
  - destruct (rep_present _ _ _ _ R E) as (xs1 & e & xs2 & -> & <-).
    destruct (remove_index_rep _ _ _ _ _ R) as (c' & -> & R' & Hc' & _). cbn [mbind option_bind].
    pose proof (rep_keys _ _ R) as Hk. rewrite fmap_app, fmap_cons in *. cbn [snd] in *.
    destruct (keys_split _ _ _ Hk) as [-> ->].
    exists c'. split; [done|]. split; [|done]. exists (xs1 ++ xs2). by rewrite fmap_app.
  - pose proof (rep_absent _ _ _ R E) as Hk. destruct (keys_absent _ _ Hk) as [-> ->].
    exists c. split; [done|]. split; [by exists xs|done].
Qed.

Lemma pop_refines c es :
  represents c es ->
  exists c', pop_lru c = Some (fst (spec_pop es), c') /\ represents c' (snd (spec_pop es)) /\
             capacity c' = capacity c.
Proof.
  intros (xs & <- & R). unfold pop_lru. rewrite (rep_least _ _ R).
  destruct xs as [|[i e] xs]; cbn [hd_or].
  - exists c. split; [done|]. split; [by exists []|done].
  - destruct (remove_index_rep c [] i e xs R) as (c' & -> & R' & Hc' & _).
    exists c'. split; [done|]. split; [by exists xs|done].
Qed.

Lemma without_refines k c es :
  represents c es ->
  exists c', match indices c !! k with
             | Some index => snd <$> remove_index index c
             | None => Some c
             end = Some c' /\ represents c' (spec_without k es) /\ capacity c' = capacity c /\
             k ∉ e_key <$> spec_without k es.
Proof.
  intros Hr. destruct (remove_refines k c es Hr) as (c' & E & Hr' & Hc'). exists c'.
  split; [|split; [done|split; [done|]]].
  - unfold remove in E. destruct (indices c !! k) as [i|]; [|by simplify_eq].
    destruct (remove_index i c) as [[o c1]|]; by simplify_eq/=.
  - unfold spec_without. intros (e & -> & He)%list_elem_of_fmap.
    apply list_elem_of_filter in He as [He _]. done.
Qed.

Lemma insert_refines k v w c es :
  represents c es ->
  exists c', insert_counting_evictions k v w c =
             Some (N.min (fst (spec_insert (capacity c) k v w es)) u64_max, c') /\
             represents c' (snd (spec_insert (capacity c) k v w es)) /\ capacity c' = capacity c.
Proof.
  intros Hr. unfold insert_counting_evictions, spec_insert.
  destruct (without_refines k c es Hr) as (c1 & -> & Hr1 & Hc1 & Hk). cbn [mbind option_bind].
  rewrite Hc1. destruct ((capacity c =? 0) || (capacity c <? w)) eqn:E.
  { exists c1. split; [by vm_compute|]. done. }
  apply orb_false_iff in E as [_ E%N.ltb_ge].
  destruct Hr1 as (xs & Hxs & R1).
  destruct (evict_rep (S (length (nodes c1))) c1 xs w 0 R1)
    as (n & xs' & c2 & -> & Hev & R2 & Hc2 & Ht & Hsub).
  { pose proof (rep_length _ _ R1). lia. } { lia. } { by vm_compute. }
  cbn [mbind option_bind]. rewrite Hc1, Hxs in Hev. rewrite Hev.
  destruct (insert_tail_rep c2 xs' k v w (N.min (0 + n) u64_max) R2) as (c3 & i & -> & R3 & Hc3).
  { intros (e & -> & He)%list_elem_of_fmap. apply Hk. rewrite <- Hxs.
    apply list_elem_of_fmap_2. revert He. rewrite !list_elem_of_fmap. set_solver. }
  { lia. }
  exists c3. split; [done|]. split; [|lia]. exists (xs' ++ [(i, mkEntry k v w)]).
  split; [by rewrite fmap_app|done].
Qed.

Lemma clear_refines c es : represents c es -> represents (clear c) [].
Proof.
  intros (xs & <- & R). exists []. split; [done|]. pose proof (rep_cap _ _ R).
  constructor; simpl; try done; try (by constructor); try lia.
  - intros k i. rewrite lookup_empty. split; [done|]. intros (e & He & _). set_solver.
  - split; [rewrite reverse_Permutation; apply NoDup_seq|]. intros i.
    rewrite elem_of_reverse, elem_of_seq, lookup_replicate. naive_solver lia.
  - intros i n Hn. apply lookup_replicate in Hn as [? _]. done.
Qed.

Lemma represents_len c es : represents c es -> len c = length es.
Proof. intros (xs & <- & R). rewrite (rep_size _ _ R). by rewrite length_fmap. Qed.

Lemma represents_bounded c es :
  represents c es -> used c = total es /\ total es <= capacity c /\ NoDup (e_key <$> es).
Proof.
  intros (xs & <- & R). pose proof (rep_cap _ _ R).
  split; [apply (rep_used _ _ R)|split; [lia|apply (rep_keys _ _ R)]].
Qed.

Lemma spec_without_subset (k : K) (es : list Entry) e :
  e ∈ spec_without k es -> e ∈ es.
Proof. unfold spec_without. by intros [_ ?]%list_elem_of_filter. Qed.

Lemma spec_without_length (k : K) (es : list Entry) :
  (length (spec_without k es) + length (option_list (spec_find k es)) <= length es)%nat.
Proof.
  unfold spec_without, spec_find. induction es as [|e es IH]; [done|].
  rewrite !filter_cons. destruct (decide (e_key e = k)), (decide (e_key e <> k)); try done; simpl.
  - destruct (head (filter (fun e => e_key e = k) es)); simpl in IH; lia.
  - lia.
Qed.

Lemma spec_evict_subset cap w (es : list Entry) :
  (forall e, e ∈ snd (spec_evict cap w es) -> e ∈ es) /\
  (length (snd (spec_evict cap w es)) <= length es)%nat.
Proof.
  induction es as [|x es IH]; [done|]. cbn [spec_evict].
  case_match; [|done]. destruct (spec_evict cap w es) as [n kept]. simpl in *.
  destruct IH as [IH1 IH2]. split; [|lia]. intros e He. right. by apply IH1.
Qed.

Lemma spec_get_elem (k : K) (es : list Entry) :
  (forall e, e ∈ snd (spec_get k es) -> e ∈ es) /\
  (forall v, fst (spec_get k es) = Some v -> exists e, e ∈ es /\ e_key e = k /\ e_value e = v).
Proof.
  unfold spec_get. destruct (spec_find k es) as [e|] eqn:Eh; cbn [fst snd]; [|done].
  apply head_Some_elem_of, list_elem_of_filter in Eh as [Ek Ee]. split; [|naive_solver].
  intros e' [He'%spec_without_subset|He']%elem_of_app; [done|].
  by apply list_elem_of_singleton in He' as ->.
Qed.

Lemma spec_insert_elem cap (k : K) (v : V) w (es : list Entry) e :
  e ∈ snd (spec_insert cap k v w es) -> e ∈ es \/ e = mkEntry k v w.
Proof.
  unfold spec_insert. destruct (_ || _); cbn [snd]; [intros ?%spec_without_subset; by left|].
  destruct (spec_evict_subset cap w (spec_without k es)) as [Hsub _].
  destruct (spec_evict cap w (spec_without k es)) as [n kept]. cbn [snd] in *.
  intros [He|He]%elem_of_app.
  - left. by apply (spec_without_subset k), Hsub.
  - right. by apply list_elem_of_singleton in He.
Qed.

(** Every entry satisfies [Q]; the operations keep that. *)
Definition lru_all (Q : K -> V -> Prop) (c : LruCache) : Prop :=
  exists es, represents c es /\ forall e, e ∈ es -> Q (e_key e) (e_value e).

Lemma lru_all_new Q cap : cap < u64_max -> lru_all Q (LruCache_new cap).
Proof. intros Hc. exists []. split; [by apply new_refines|]. set_solver. Qed.
Lemma lru_all_get Q k c :
  lru_all Q c -> exists v c', get k c = Some (v, c') /\ lru_all Q c' /\ forall x, v = Some x -> Q k x.
Proof.
  intros (es & Hr & HQ). destruct (get_refines k c es Hr) as (c' & -> & Hr' & _).
  destruct (spec_get_elem k es) as [Hsub Hv]. eexists _, _. split; [done|]. split; [by eexists; eauto|].
  intros x Hx. destruct (Hv x Hx) as (e & He & <- & <-). by apply HQ.
Qed.
Lemma lru_all_insert Q k v w c :
  lru_all Q c -> Q k v -> exists c', insert k v w c = Some c' /\ lru_all Q c'.
Proof.
  intros (es & Hr & HQ) Hv. unfold insert. destruct (insert_refines k v w c es Hr) as (c' & -> & Hr' & _).
  eexists. split; [done|]. eexists. split; [exact Hr'|].
  intros e [He| ->]%spec_insert_elem; [by apply HQ|done].
Qed.
Lemma lru_all_remove Q k c : lru_all Q c -> exists v c', remove k c = Some (v, c') /\ lru_all Q c'.
Proof.
  intros (es & Hr & HQ). destruct (remove_refines k c es Hr) as (c' & -> & Hr' & _).
  eexists _, _. split; [done|]. eexists. split; [exact Hr'|]. intros e He%spec_without_subset. by apply HQ.
Qed.
Lemma lru_all_clear Q c : lru_all Q c -> lru_all Q (clear c).
Proof. intros (es & Hr & _). exists []. split; [by eapply clear_refines|]. set_solver. Qed.

(* ------------------------------------------------------------------ *)
(** ** Runs of the cache *)

Inductive LruOp : Type :=
| DoGet (k : K)
| DoInsert (k : K) (v : V) (w : N)
| DoRemove (k : K)
| DoPop
| DoClear.

Inductive LruOut : Type :=
| OutValue (o : option V)
| OutEvictions (n : N)
| OutPair (o : option (K * V))
| OutUnit.

Definition do_op (op : LruOp) (c : LruCache) : option (LruOut * LruCache) :=
  match op with
  | DoGet k => '(o, c) ← get k c; Some (OutValue o, c)
  | DoInsert k v w => '(n, c) ← insert_counting_evictions k v w c; Some (OutEvictions n, c)
  | DoRemove k => '(o, c) ← remove k c; Some (OutValue o, c)
  | DoPop => '(o, c) ← pop_lru c; Some (OutPair o, c)
  | DoClear => Some (OutUnit, clear c)
  end.

Fixpoint do_ops (ops : list LruOp) (c : LruCache) : option (list LruOut * LruCache) :=
  match ops with
  | [] => Some ([], c)
  | op :: ops =>
      '(o, c) ← do_op op c;
      '(os, c) ← do_ops ops c;
      Some (o :: os, c)
  end.

Definition spec_op (cap : N) (op : LruOp) (es : list Entry) : LruOut * list Entry :=
  match op with
  | DoGet k => let '(o, es) := spec_get k es in (OutValue o, es)
  | DoInsert k v w => let '(n, es) := spec_insert cap k v w es in
                      (OutEvictions (N.min n u64_max), es)
  | DoRemove k => let '(o, es) := spec_remove k es in (OutValue o, es)
  | DoPop => let '(o, es) := spec_pop es in (OutPair o, es)
  | DoClear => (OutUnit, [])
  end.

Fixpoint spec_ops (cap : N) (ops : list LruOp) (es : list Entry) : list LruOut * list Entry :=
  match ops with
  | [] => ([], es)
  | op :: ops =>
      let '(o, es) := spec_op cap op es in
      let '(os, es) := spec_ops cap ops es in
      (o :: os, es)
  end.

Lemma do_op_refines op c es :
  represents c es ->
  exists c', do_op op c = Some (fst (spec_op (capacity c) op es), c') /\
             represents c' (snd (spec_op (capacity c) op es)) /\ capacity c' = capacity c.
Proof.
  intros Hr. destruct op as [k|k v w|k| |]; cbn [do_op spec_op].
  - destruct (get_refines k c es Hr) as (c' & -> & ? & ?). destruct (spec_get k es). by exists c'.
  - destruct (insert_refines k v w c es Hr) as (c' & -> & ? & ?).
    destruct (spec_insert (capacity c) k v w es). by exists c'.
  - destruct (remove_refines k c es Hr) as (c' & -> & ? & ?). destruct (spec_remove k es). by exists c'.
  - destruct (pop_refines c es Hr) as (c' & -> & ? & ?). destruct (spec_pop es). by exists c'.
  - exists (clear c). split; [done|]. split; [by eapply clear_refines|done].
Qed.

Lemma do_ops_refines ops c es :
  represents c es ->
  exists c', do_ops ops c = Some (fst (spec_ops (capacity c) ops es), c') /\
             represents c' (snd (spec_ops (capacity c) ops es)) /\ capacity c' = capacity c.
Proof.
  revert c es. induction ops as [|op ops IH]; intros c es Hr; [by exists c|].
  cbn [do_ops spec_ops]. destruct (do_op_refines op c es Hr) as (c1 & -> & Hr1 & Hc1).
  destruct (spec_op (capacity c) op es) as [o es1]. cbn [mbind option_bind fst snd] in *.
  destruct (IH c1 es1 Hr1) as (c2 & -> & Hr2 & Hc2). rewrite Hc1 in *.
  destruct (spec_ops (capacity c) ops es1) as [os es2]. cbn [mbind option_bind fst snd] in *.
  exists c2. split; [done|]. split; [done|lia].
Qed.

(** C1. The slab-and-links cache implements the abstract LRU list. Whatever
    sequence of operations runs on a new cache, no operation panics or loops,
    every result is the one the abstract cache gives, and the final state
    represents the final abstract list. (A capacity of [u64::MAX] is excluded:
    there the saturating sum of the eviction test hides an overflow.) *)
Theorem lru_refines_abstract_cache cap ops :
  cap < u64_max ->
  exists c', do_ops ops (LruCache_new cap) = Some (fst (spec_ops cap ops []), c') /\
             represents c' (snd (spec_ops cap ops [])).
Proof.
  intros Hcap. destruct (do_ops_refines ops _ _ (new_refines cap Hcap)) as (c' & E & Hr & _).
  by exists c'.
Qed.

(** At every reachable state the resident weight equals the sum of the
    entries' weights and is within the capacity, the keys are distinct and
    [len] counts them. *)
Theorem lru_weight_bounded cap ops outs c' :
  cap < u64_max -> do_ops ops (LruCache_new cap) = Some (outs, c') ->
  exists es, represents c' es /\ used c' = total es /\ used c' <= cap /\
             NoDup (e_key <$> es) /\ len c' = length es.
Proof.
  intros Hcap E. destruct (do_ops_refines ops _ _ (new_refines cap Hcap)) as (c1 & E1 & Hr & Hc).
  rewrite E in E1. simplify_eq. eexists. split; [exact Hr|].
  destruct (represents_bounded _ _ Hr) as (Hu & Ht & Hk). rewrite Hc in Ht.
  cbn [capacity LruCache_new] in Hu, Ht.
  split_and!; [done|lia|done|by apply represents_len].
Qed.

Lemma spec_evict_drop cap w es n kept :
  spec_evict cap w es = (n, kept) ->
  kept = drop (N.to_nat n) es /\ (kept = [] \/ total kept + w <= cap) /\
  forall m, m < n -> cap < total (drop (N.to_nat m) es) + w.
Proof.
  revert n kept. induction es as [|e es IH]; intros n kept; cbn [spec_evict].
  - intros [= <- <-]. split_and!; [done|by left|lia].
  - destruct (cap <? total (e :: es) + w) eqn:E; [apply N.ltb_lt in E|apply N.ltb_ge in E].
    + destruct (spec_evict cap w es) as [n1 kept1] eqn:E1. intros [= <- <-].
      destruct (IH _ _ eq_refl) as (-> & Ht & Hm).
      replace (N.to_nat (n1 + 1)) with (S (N.to_nat n1)) by lia.
      split_and!; [done|done|]. intros m Hlt.
      destruct (decide (m = 0)) as [->|]; [done|].
      replace (N.to_nat m) with (S (N.to_nat (m - 1))) by lia. apply Hm. lia.
    + intros [= <- <-]. split_and!; [done|by right|lia].
Qed.

(** An insertion that fits keeps every other entry it can: the resident
    entries (without the replaced key) lose only a prefix of least-recent
    entries, the shortest one that makes room, and the new entry becomes the
    most recent; a heavier entry than the whole cache is not retained. *)
Theorem lru_insert_evicts_minimally k v w c es c' n :
  represents c es -> insert_counting_evictions k v w c = Some (n, c') ->
  if (capacity c =? 0) || (capacity c <? w) then n = 0 /\ represents c' (spec_without k es)
  else exists m, n = N.min m u64_max /\
       represents c' (drop (N.to_nat m) (spec_without k es) ++ [mkEntry k v w]) /\
       total (drop (N.to_nat m) (spec_without k es)) + w <= capacity c /\
       forall m', m' < m -> capacity c < total (drop (N.to_nat m') (spec_without k es)) + w.
Proof.
  intros Hr E. destruct (insert_refines k v w c es Hr) as (c1 & E1 & Hr1 & _).
  rewrite E in E1. simplify_eq. revert Hr1. unfold spec_insert.
  destruct ((capacity c =? 0) || (capacity c <? w)) eqn:Ec; [done|].
  apply orb_false_iff in Ec as [_ Ec%N.ltb_ge].
  destruct (spec_evict (capacity c) w (spec_without k es)) as [m kept] eqn:Ee. cbn [fst snd].
  intros Hr1. destruct (spec_evict_drop _ _ _ _ _ Ee) as (-> & Ht & Hm).
  exists m. split_and!; try done. destruct Ht as [-> | Ht]; [simpl; lia|done].
Qed.

End Lru.
End Cache.

(* ------------------------------------------------------------------ *)
(** ** Witnesses *)

Definition sample_lru_ops : list (@Cache.LruOp nat nat) :=
  [Cache.DoInsert 1%nat 10%nat 1; Cache.DoInsert 2%nat 20%nat 1; Cache.DoInsert 3%nat 30%nat 1;
   Cache.DoGet 1%nat; Cache.DoInsert 4%nat 40%nat 2; Cache.DoGet 2%nat; Cache.DoPop;
   Cache.DoRemove 4%nat; Cache.DoInsert 5%nat 50%nat 9].

Definition sample_lru : @Cache.LruCache nat nat _ _ :=
  match Cache.do_ops (take 5 sample_lru_ops) (Cache.LruCache_new 3) with
  | Some (_, c) => c
  | None => Cache.LruCache_new 0
  end.

Lemma lru_refines_abstract_cache_witness :
  exists c', Cache.do_ops sample_lru_ops (Cache.LruCache_new 3) =
             Some ([Cache.OutEvictions 0; Cache.OutEvictions 0; Cache.OutEvictions 0;
                    Cache.OutValue (Some 10%nat); Cache.OutEvictions 2; Cache.OutValue None;
                    Cache.OutPair (Some (1%nat, 10%nat)); Cache.OutValue (Some 40%nat);
                    Cache.OutEvictions 0], c') /\ Cache.represents c' [].
Proof.
  assert (3 < u64_max) as Hcap by (vm_compute; reflexivity).
  destruct (Cache.lru_refines_abstract_cache 3 sample_lru_ops Hcap) as (c' & E & R).
  exists c'. split.
  - rewrite E. vm_compute. reflexivity.
  - replace [] with (snd (Cache.spec_ops 3 sample_lru_ops [])); [exact R|vm_compute; reflexivity].
Defined.

Lemma lru_weight_bounded_witness :
  exists es, Cache.represents sample_lru es /\ Cache.used sample_lru = Cache.total es /\
    Cache.used sample_lru <= 3 /\ NoDup (Cache.e_key <$> es) /\
    Cache.len sample_lru = length es.
Proof.
  apply (Cache.lru_weight_bounded 3 (take 5 sample_lru_ops)
           (fst (Cache.spec_ops 3 (take 5 sample_lru_ops) [])) sample_lru); vm_compute; reflexivity.
Defined.

Lemma lru_insert_evicts_minimally_witness :
  exists c', Cache.insert_counting_evictions 7%nat 70%nat 3 (Cache.LruCache_new 3) = Some (0, c') /\
  exists m, 0 = N.min m u64_max /\
    Cache.represents c' (drop (N.to_nat m) (Cache.spec_without 7%nat []) ++
                         [Cache.mkEntry 7%nat 70%nat 3]) /\
    Cache.total (drop (N.to_nat m) (Cache.spec_without (V := nat) 7%nat [])) + 3 <= 3 /\
    forall m', m' < m -> 3 < Cache.total (drop (N.to_nat m') (Cache.spec_without (V := nat) 7%nat [])) + 3.
Proof.
  eexists. split; [vm_compute; reflexivity|].
  apply (Cache.lru_insert_evicts_minimally 7%nat 70%nat 3 (Cache.LruCache_new 3) []).
  - apply Cache.new_refines. vm_compute. reflexivity.
  - vm_compute. reflexivity.
Defined.
