(* ===== verification/Cursor.v ===== *)
(** * Versioned, checksummed continuation cursors ([cursor.rs])

    The frozen v1 wire format: [encode], [decode] with its validation order,
    CRC-32 and the FNV-1a option fingerprint, on raw bytes. *)

From Stdlib Require Import NArith Lia Strings.Byte Strings.String.
From stdpp Require Import prelude list strings.
From S2P Require Import Prelude Errors Objects.

Open Scope N_scope.

Definition VERSION : byte := x01.
Definition MAX_CURSOR_BYTES : nat := 4096%nat.
Definition CRC_BYTES : nat := 4%nat.

Definition OPERATION_LIST_TREE : byte := x01.
Definition OPERATION_SEARCH : byte := x02.
Definition OPERATION_LOG : byte := x03.
Definition OPERATION_HISTORY : byte := x04.
Definition OPERATION_REFS : byte := x05.

(** [CursorExpected] and [Cursor]. *)
Record CursorExpected : Type := mkExpected {
  exp_hash_kind : HashKind;
  exp_snapshot_digest : bytes;
  exp_operation_tag : byte;
  exp_option_fingerprint : N
}.

Record Cursor : Type := mkCursor {
  cur_hash_kind : HashKind;
  cur_snapshot_digest : bytes;
  cur_operation_tag : byte;
  cur_option_fingerprint : N;
  cur_generation : bytes;
  cur_position : bytes
}.

(** [hash_tag]. *)
Definition hash_tag (k : HashKind) : byte :=
  match k with
  | Sha1 => x01
  | Sha256 => x02
  end.

(** [crc32]: one shift step, one byte, the whole slice. *)
Definition crc_poly : N := 3988292384. (* 0xedb88320 *)
Definition crc_bit (crc : N) : N :=
  let mask := (2 ^ 32 - N.land crc 1) mod 2 ^ 32 in
  N.lxor (N.shiftr crc 1) (N.land crc_poly mask).
Definition crc_byte (crc : N) (b : byte) : N :=
  Nat.iter 8 crc_bit (N.lxor crc (byteN b)).
Definition crc32 (l : bytes) : N := N.lxor (foldl crc_byte u32_max l) u32_max.

(** [fnv1a_64]. *)
Definition fnv1a_64 (l : bytes) : N :=
  foldl (fun hash b => wmul64 (N.lxor hash (byteN b)) 1099511628211) 14695981039346656037 l.

(** [u16::try_from(len).unwrap_or(u16::MAX)]. *)
Definition len_u16 (l : bytes) : N := if lenN l <=? u16_max then lenN l else u16_max.

(** [encode]. *)
Definition encode_body (c : Cursor) : bytes :=
  [VERSION; hash_tag (cur_hash_kind c)]
  ++ cur_snapshot_digest c
  ++ [cur_operation_tag c]
  ++ le_bytes 8 (cur_option_fingerprint c)
  ++ le_bytes 2 (len_u16 (cur_generation c))
  ++ cur_generation c
  ++ le_bytes 2 (len_u16 (cur_position c))
  ++ cur_position c.
Definition encode (c : Cursor) : bytes :=
  let out := encode_body c in
  out ++ le_bytes 4 (crc32 out).

Definition invalid (m : string) : Error := Error_new InvalidCursor m.

(** [take]: a slice of [n] bytes at [offset] and the advanced offset. *)
Definition take_at (l : bytes) (offset n : nat) : option (bytes * nat) :=
  let stop := (offset + n)%nat in
  if (stop <=? length l)%nat then Some (take n (drop offset l), stop) else None.

(** [read_u16_le], [read_u32_le] and [read_u64_le]: the slice must have
    exactly the width. *)
Definition read_le (width : nat) (l : bytes) : option N :=
  if (length l =? width)%nat then Some (le_num l) else None.

(** The part of [decode] after the checksum: the fields of the body, in the
    order of the source's checks. *)
Definition decode_fields (body : bytes) (e : CursorExpected) : Res Cursor :=
  if negb (bool_decide (body !! 0%nat = Some VERSION)) then
    Err (invalid "version check failed: unsupported cursor version")
  else
  if negb (bool_decide (body !! 1%nat = Some (hash_tag (exp_hash_kind e)))) then
    Err (invalid "hash kind check failed")
  else
  let dlen := digest_len (exp_hash_kind e) in
  if negb (length (exp_snapshot_digest e) =? dlen)%nat then
    Err (invalid "snapshot digest check failed: expected digest is invalid")
  else
  let? (digest, offset) :=
    ok_or (invalid "snapshot digest check failed: cursor is truncated") (take_at body 2 dlen) in
  if negb (bytes_eqb digest (exp_snapshot_digest e)) then
    Err (invalid "snapshot digest check failed")
  else
  let? (operation_tag, offset) :=
    ok_or (invalid "operation tag check failed: cursor is truncated")
      (match take_at body offset 1 with
       | Some (value :: _, offset) => Some (value, offset)
       | _ => None
       end) in
  if negb (beq operation_tag (exp_operation_tag e)) then
    Err (invalid "operation tag check failed")
  else
  let? (fingerprint, offset) :=
    ok_or (invalid "option fingerprint check failed: cursor is truncated")
      (match take_at body offset 8 with
       | Some (v, offset) => match read_le 8 v with Some n => Some (n, offset) | None => None end
       | None => None
       end) in
  if negb (fingerprint =? exp_option_fingerprint e) then
    Err (invalid "option fingerprint check failed")
  else
  let? (generation_len, offset) :=
    ok_or (invalid "generation length check failed")
      (match take_at body offset 2 with
       | Some (v, offset) => match read_le 2 v with Some n => Some (N.to_nat n, offset) | None => None end
       | None => None
       end) in
  let? (generation, offset) :=
    ok_or (invalid "generation length check failed") (take_at body offset generation_len) in
  let? (position_len, offset) :=
    ok_or (invalid "position length check failed")
      (match take_at body offset 2 with
       | Some (v, offset) => match read_le 2 v with Some n => Some (N.to_nat n, offset) | None => None end
       | None => None
       end) in
  let? (position, offset) :=
    ok_or (invalid "position length check failed") (take_at body offset position_len) in
  if negb (offset =? length body)%nat then
    Err (invalid "trailing data check failed")
  else
    Ok (mkCursor (exp_hash_kind e) digest operation_tag fingerprint generation position).

(** [decode]: length, then checksum, then the fields. *)
Definition decode (l : bytes) (e : CursorExpected) : Res Cursor :=
  if (MAX_CURSOR_BYTES <? length l)%nat then
    Err (invalid "length check failed: cursor exceeds 4096 bytes")
  else
  let? body_len := ok_or (invalid "CRC check failed: cursor is too short")
                     (if (CRC_BYTES <=? length l)%nat
                      then Some (length l - CRC_BYTES)%nat else None) in
  let body := take body_len l in
  let? encoded_crc := ok_or (invalid "CRC check failed: cursor checksum is truncated")
                        (read_le 4 (drop body_len l)) in
  if negb (crc32 body =? encoded_crc) then
    Err (invalid "CRC check failed: cursor checksum does not match")
  else decode_fields body e.

(** What a caller that re-issues the same query expects. *)
Definition expected_of (c : Cursor) : CursorExpected :=
  mkExpected (cur_hash_kind c) (cur_snapshot_digest c) (cur_operation_tag c)
    (cur_option_fingerprint c).

(** A cursor the code can represent: the digest has its length, the integers
    their width, and the encoding fits the envelope. *)
Definition cursor_fits (c : Cursor) : Prop :=
  length (cur_snapshot_digest c) = digest_len (cur_hash_kind c) /\
  cur_option_fingerprint c < u64_mod /\
  lenN (cur_generation c) <= u16_max /\ lenN (cur_position c) <= u16_max /\
  (length (encode c) <= MAX_CURSOR_BYTES)%nat.

(* ------------------------------------------------------------------ *)
(** ** CRC-32 separates single-byte changes *)

Lemma land_1_odd n : N.land n 1 = if N.odd n then 1 else 0.
Proof. change 1 with (N.ones 1). rewrite N.land_ones. change (2 ^ 1) with 2. rewrite <- N.bit0_mod, N.bit0_odd. by destruct (N.odd n). Qed.

Lemma crc_bit_odd n :
  crc_bit n = N.lxor (N.shiftr n 1) (if N.odd n then crc_poly else 0).
Proof. unfold crc_bit. rewrite land_1_odd. by destruct (N.odd n). Qed.

Lemma bits_above32 n : n < 2 ^ 32 -> forall i, 32 <= i -> N.testbit n i = false.
Proof.
  intros Hn i Hi. destruct (N.eq_dec n 0) as [->|H0]; [apply N.bits_0|].
  apply N.bits_above_log2. apply N.log2_lt_pow2 in Hn; lia.
Qed.

Lemma lt32_bits n : (forall i, 32 <= i -> N.testbit n i = false) -> n < 2 ^ 32.
Proof.
  intros Hb. destruct (N.eq_dec n 0) as [->|H0]; [lia|].
  apply N.log2_lt_pow2; [lia|]. destruct (N.lt_ge_cases (N.log2 n) 32) as [|Hge]; [done|].
  specialize (Hb _ Hge). by rewrite N.bit_log2 in Hb.
Qed.

Lemma lxor_lt32 a b : a < 2 ^ 32 -> b < 2 ^ 32 -> N.lxor a b < 2 ^ 32.
Proof.
  intros Ha Hb. apply lt32_bits. intros i Hi.
  by rewrite N.lxor_spec, (bits_above32 a), (bits_above32 b).
Qed.

Lemma shiftr1_lt n : n < 2 ^ 32 -> N.shiftr n 1 < 2 ^ 31.
Proof. intros Hn. rewrite N.shiftr_div_pow2. apply N.Div0.div_lt_upper_bound. lia. Qed.

Lemma crc_bit_lt n : n < 2 ^ 32 -> crc_bit n < 2 ^ 32.
Proof.
  intros Hn. rewrite crc_bit_odd. pose proof (shiftr1_lt n Hn).
  apply lxor_lt32; [lia|]. by destruct (N.odd n).
Qed.

(** The top bit of the result is the bit shifted out, so a step can be undone. *)
Lemma crc_bit_top n : n < 2 ^ 32 -> N.testbit (crc_bit n) 31 = N.odd n.
Proof.
  intros Hn. rewrite crc_bit_odd, N.lxor_spec, N.shiftr_spec by lia.
  rewrite (bits_above32 n) by (done || lia). by destruct (N.odd n).
Qed.

Lemma crc_bit_inj a b : a < 2 ^ 32 -> b < 2 ^ 32 -> crc_bit a = crc_bit b -> a = b.
Proof.
  intros Ha Hb E. assert (N.odd a = N.odd b) as Ho by (by rewrite <- !crc_bit_top, E).
  rewrite !crc_bit_odd, Ho in E. apply (f_equal (fun x => N.lxor x (if N.odd b then crc_poly else 0))) in E.
  rewrite !N.lxor_assoc, !N.lxor_nilpotent, !N.lxor_0_r in E.
  rewrite (N.div2_odd a), (N.div2_odd b), Ho. by rewrite !N.div2_spec, E.
Qed.

Lemma crc_iter_lt m n : n < 2 ^ 32 -> Nat.iter m crc_bit n < 2 ^ 32.
Proof. intros Hn. induction m as [|m IH]; [done|]. by apply crc_bit_lt. Qed.

Lemma crc_byte_lt n b : n < 2 ^ 32 -> crc_byte n b < 2 ^ 32.
Proof.
  intros Hn. unfold crc_byte. pose proof (byteN_lt b).
  apply crc_iter_lt, lxor_lt32; [done|lia].
Qed.

Lemma crc_iter_inj m a b :
  a < 2 ^ 32 -> b < 2 ^ 32 -> Nat.iter m crc_bit a = Nat.iter m crc_bit b -> a = b.
Proof.
  intros Ha Hb. induction m as [|m IH]; [done|]. intros E. apply IH.
  apply crc_bit_inj; auto using crc_iter_lt.
Qed.

Lemma crc_byte_inj n m b c :
  n < 2 ^ 32 -> m < 2 ^ 32 -> crc_byte n b = crc_byte m c ->
  N.lxor n (byteN b) = N.lxor m (byteN c).
Proof.
  intros Hn Hm E. pose proof (byteN_lt b). pose proof (byteN_lt c).
  eapply crc_iter_inj; [..|exact E]; apply lxor_lt32; lia.
Qed.

Lemma crc_fold_lt n l : n < 2 ^ 32 -> foldl crc_byte n l < 2 ^ 32.
Proof. revert n. induction l as [|b l IH]; intros n Hn; [done|]. by apply IH, crc_byte_lt. Qed.

Lemma crc_fold_inj n m l :
  n < 2 ^ 32 -> m < 2 ^ 32 -> foldl crc_byte n l = foldl crc_byte m l -> n = m.
Proof.
  revert n m. induction l as [|b l IH]; intros n m Hn Hm; [done|]. simpl. intros E.
  apply IH in E; [|by apply crc_byte_lt..]. apply crc_byte_inj in E; [|done..].
  apply (f_equal (fun x => N.lxor x (byteN b))) in E.
  by rewrite !N.lxor_assoc, !N.lxor_nilpotent, !N.lxor_0_r in E.
Qed.

Lemma crc32_lt l : crc32 l < 2 ^ 32.
Proof. unfold crc32. apply lxor_lt32; [by apply crc_fold_lt|done]. Qed.

Lemma crc32_single_byte pre a b post :
  crc32 (pre ++ a :: post) = crc32 (pre ++ b :: post) -> a = b.
Proof.
  unfold crc32. intros E. apply (f_equal (fun x => N.lxor x u32_max)) in E.
  rewrite !N.lxor_assoc, !N.lxor_nilpotent, !N.lxor_0_r, !foldl_app in E. simpl in E.
  assert (foldl crc_byte u32_max pre < 2 ^ 32) as Hlt by (by apply crc_fold_lt).
  apply crc_fold_inj in E; [|by apply crc_byte_lt..]. apply crc_byte_inj in E; [|done..].
  apply byteN_inj. apply (f_equal (N.lxor (foldl crc_byte u32_max pre))) in E.
  by rewrite <- !N.lxor_assoc, !N.lxor_nilpotent, !N.lxor_0_l in E.
Qed.

(* ------------------------------------------------------------------ *)
(** ** Slices of the body *)

Lemma take_at_Some l o n s o' :
  take_at l o n = Some (s, o') <->
  o' = (o + n)%nat /\ drop o l = s ++ drop o' l /\ length s = n /\ (o' <= length l)%nat.
Proof.
  unfold take_at. destruct (o + n <=? length l)%nat eqn:E.
  - apply Nat.leb_le in E. split.
    + intros [= <- <-]. split_and!; [done| | |done].
      * rewrite <- (take_drop n (drop o l)) at 1. by rewrite skipn_skipn, Nat.add_comm.
      * rewrite length_take, length_drop. lia.
    + intros (-> & Hd & Hn & _). do 2 f_equal.
      rewrite Hd, <- Hn. by rewrite take_app_length.
  - apply Nat.leb_gt in E. split; [done|]. intros (-> & _ & _ & ?). lia.
Qed.

Lemma read_le_Some w l n : read_le w l = Some n <-> length l = w /\ n = le_num l.
Proof.
  unfold read_le. destruct (length l =? w)%nat eqn:E.
  - apply Nat.eqb_eq in E. naive_solver.
  - apply Nat.eqb_neq in E. naive_solver.
Qed.

Lemma len_u16_small l : lenN l <= u16_max -> len_u16 l = lenN l.
Proof. intros Hl. unfold len_u16. by rewrite (proj2 (N.leb_le _ _)). Qed.

(** Reading an integer field: its bytes are the little-endian encoding. *)
Lemma read_field_Some {A} body o w (f : N -> A) a o' :
  (match take_at body o w with
   | Some (v, offset) => match read_le w v with Some n => Some (f n, offset) | None => None end
   | None => None
   end) = Some (a, o') <->
  exists n, a = f n /\ n < 256 ^ N.of_nat w /\ o' = (o + w)%nat /\
            drop o body = le_bytes w n ++ drop o' body /\ (o' <= length body)%nat.
Proof.
  destruct (take_at body o w) as [[v off]|] eqn:E.
  - apply take_at_Some in E as (-> & Hd & Hl & Hle). unfold read_le. rewrite Hl, Nat.eqb_refl. split.
    + intros [= <- <-]. exists (le_num v). split_and!; try done.
      * rewrite <- Hl. apply le_num_bound.
      * subst w. by rewrite le_bytes_le_num.
    + intros (n & -> & Hn & -> & Hd' & _). rewrite Hd in Hd'.
      apply app_inj_2 in Hd' as [-> _]; [|done]. by rewrite le_num_le_bytes_small.
  - split; [done|]. intros (n & -> & Hn & -> & Hd & Hle).
    assert (take_at body o w = Some (le_bytes w n, o + w)%nat) as E'.
    { apply take_at_Some. by rewrite length_le_bytes. }
    congruence.
Qed.

(** Walking forward over a body known to continue with [s]. *)
Lemma take_at_step l o s r n :
  drop o l = s ++ r -> (o <= length l)%nat -> length s = n ->
  take_at l o n = Some (s, o + n)%nat /\ drop (o + n) l = r /\ (o + n <= length l)%nat.
Proof.
  intros Hd Ho <-. assert (length (drop o l) = length (s ++ r)) as Hlen by (by rewrite Hd). len.
  assert (drop (o + length s) l = r) as Hr.
  { rewrite Nat.add_comm, <- skipn_skipn, Hd. by rewrite drop_app_length. }
  split_and!; [|done|lia]. apply take_at_Some. rewrite Hr. split_and!; [done..|lia].
Qed.

Lemma read_field_step l o w n r :
  drop o l = le_bytes w n ++ r -> (o <= length l)%nat -> n < 256 ^ N.of_nat w ->
  (match take_at l o w with
   | Some (v, offset) => match read_le w v with Some n => Some (n, offset) | None => None end
   | None => None
   end) = Some (n, o + w)%nat /\ drop (o + w) l = r /\ (o + w <= length l)%nat.
Proof.
  intros Hd Ho Hn. destruct (take_at_step l o _ r w Hd Ho) as (-> & ? & ?); [apply length_le_bytes|].
  unfold read_le. by rewrite length_le_bytes, Nat.eqb_refl, le_num_le_bytes_small.
Qed.

Lemma read_len_step l o n r :
  drop o l = le_bytes 2 n ++ r -> (o <= length l)%nat -> n <= u16_max ->
  (match take_at l o 2 with
   | Some (v, offset) => match read_le 2 v with Some n => Some (N.to_nat n, offset) | None => None end
   | None => None
   end) = Some (N.to_nat n, o + 2)%nat /\ drop (o + 2) l = r /\ (o + 2 <= length l)%nat.
Proof.
  intros Hd Ho Hn. destruct (take_at_step l o _ r 2 Hd Ho) as (-> & ? & ?); [apply length_le_bytes|].
  unfold read_le. rewrite length_le_bytes, Nat.eqb_refl, le_num_le_bytes_small; [done|].
  change (256 ^ N.of_nat 2) with 65536. unfold u16_max in Hn. lia.
Qed.

Lemma read_byte_Some body o b o' :
  (match take_at body o 1 with
   | Some (value :: _, offset) => Some (value, offset)
   | _ => None
   end) = Some (b, o') <->
  o' = (o + 1)%nat /\ drop o body = b :: drop o' body /\ (o' <= length body)%nat.
Proof.
  split.
  - destruct (take_at body o 1) as [[[|v [|? ?]] off]|] eqn:E; try done;
      apply take_at_Some in E as (-> & Hd & Hl & Hle); try done. intros [= <- <-]. done.
  - intros (-> & Hd & Hle).
    assert (take_at body o 1 = Some ([b], o + 1)%nat) as -> by (by apply take_at_Some). done.
Qed.

Lemma head_tag_Some (body : bytes) a b :
  body !! 0%nat = Some a -> body !! 1%nat = Some b -> body = a :: b :: drop 2 body.
Proof. destruct body as [|x [|y body]]; simpl; intros; by simplify_eq/=. Qed.

(** Accepted fields are the encoding of the cursor they name. *)
Lemma decode_fields_sound body e c :
  decode_fields body e = Ok c ->
  body = encode_body c /\ expected_of c = e /\
  length (cur_snapshot_digest c) = digest_len (cur_hash_kind c) /\
  cur_option_fingerprint c < u64_mod /\
  lenN (cur_generation c) <= u16_max /\ lenN (cur_position c) <= u16_max.
Proof.
  unfold decode_fields. rewrite !negb_if, !if_Ok.
  intros (Hv & Hh & Hdl & H). apply bool_decide_eq_true in Hv, Hh. apply Nat.eqb_eq in Hdl.
  apply rbind_Ok in H as ([dg o1] & Hdg & H). apply ok_or_Ok, take_at_Some in Hdg as (-> & D1 & L1 & _).
  rewrite negb_if, if_Ok in H. destruct H as [Heq H]. apply bytes_eqb_true in Heq as ->.
  apply rbind_Ok in H as ([op o2] & Hop & H). apply ok_or_Ok, read_byte_Some in Hop as (-> & D2 & _).
  rewrite negb_if, if_Ok in H. destruct H as [Heq H]. apply beq_true in Heq as ->.
  apply rbind_Ok in H as ([fp o3] & Hfp & H).
  apply ok_or_Ok, (read_field_Some body _ 8 (fun n => n)) in Hfp as (? & <- & Bfp & -> & D3 & _).
  rewrite negb_if, if_Ok in H. destruct H as [Heq H]. apply N.eqb_eq in Heq as ->.
  apply rbind_Ok in H as ([gl o4] & Hgl & H).
  apply ok_or_Ok, (read_field_Some body _ 2 N.to_nat) in Hgl as (gn & -> & Bgl & -> & D4 & _).
  apply rbind_Ok in H as ([g o5] & Hg & H). apply ok_or_Ok, take_at_Some in Hg as (-> & D5 & L5 & _).
  apply rbind_Ok in H as ([pl o6] & Hpl & H).
  apply ok_or_Ok, (read_field_Some body _ 2 N.to_nat) in Hpl as (pn & -> & Bpl & -> & D6 & _).
  apply rbind_Ok in H as ([ps o7] & Hp & H). apply ok_or_Ok, take_at_Some in Hp as (-> & D7 & L7 & _).
  rewrite negb_if, if_Ok in H. destruct H as [Heq [= <-]]. apply Nat.eqb_eq in Heq.
  rewrite Heq, drop_all, app_nil_r in D7.
  change (256 ^ N.of_nat 2) with 65536 in *. change (256 ^ N.of_nat 8) with u64_mod in *.
  assert (lenN g = gn) as Eg by (unfold lenN; lia). assert (lenN ps = pn) as Ep by (unfold lenN; lia).
  unfold encode_body; simpl.
  rewrite !len_u16_small by (unfold u16_max; lia).
  split_and!; try done; try (unfold u16_max; lia).
- rewrite (head_tag_Some body _ _ Hv Hh) at 1. rewrite D1, D2, D3, D4, D5, D6, D7, Eg, Ep. done.
- by destruct e.
Qed.

Lemma decode_fields_complete c :
  length (cur_snapshot_digest c) = digest_len (cur_hash_kind c) ->
  cur_option_fingerprint c < u64_mod ->
  lenN (cur_generation c) <= u16_max -> lenN (cur_position c) <= u16_max ->
  decode_fields (encode_body c) (expected_of c) = Ok c.
Proof.
  destruct c as [k dg op fp g ps]; simpl. intros Hd Hfp Hg Hp.
  set (body := encode_body _). unfold decode_fields, expected_of.
  cbn [exp_hash_kind exp_snapshot_digest exp_operation_tag exp_option_fingerprint
       cur_hash_kind cur_snapshot_digest cur_operation_tag cur_option_fingerprint].
  assert (drop 2 body = dg ++ [op] ++ le_bytes 8 fp ++ le_bytes 2 (lenN g) ++ g
                        ++ le_bytes 2 (lenN ps) ++ ps) as D0.
  { subst body. unfold encode_body. cbn [cur_generation cur_position]. by rewrite !len_u16_small. }
  assert (2 <= length body)%nat as L0 by (subst body; simpl; lia).
  rewrite (bool_decide_eq_true_2 (body !! 0%nat = _)) by done.
  rewrite (bool_decide_eq_true_2 (body !! 1%nat = _)) by done. cbn [negb].
  rewrite Hd, Nat.eqb_refl; cbn [negb].
  destruct (take_at_step _ _ _ _ _ D0 L0 Hd) as (-> & D1 & L1); cbn [ok_or rbind].
  rewrite (proj2 (bytes_eqb_true dg dg)) by done; cbn [negb].
  destruct (take_at_step _ _ _ _ 1 D1 L1 eq_refl) as (-> & D2 & L2); cbn [ok_or rbind].
  rewrite beq_refl; cbn [negb].
  destruct (read_field_step _ _ _ _ _ D2 L2 Hfp) as (-> & D3 & L3); cbn [ok_or rbind].
  rewrite N.eqb_refl; cbn [negb].
  destruct (read_len_step _ _ _ _ D3 L3 Hg) as (-> & D4 & L4); cbn [ok_or rbind].
  destruct (take_at_step _ _ _ _ (N.to_nat (lenN g)) D4 L4) as (-> & D5 & L5);
    [unfold lenN; lia|]; cbn [ok_or rbind].
  destruct (read_len_step _ _ _ _ D5 L5 Hp) as (-> & D6 & L6); cbn [ok_or rbind].
  rewrite <- (app_nil_r ps) in D6.
  destruct (take_at_step _ _ ps [] (N.to_nat (lenN ps)) D6 L6) as (-> & D7 & L7);
    [unfold lenN; lia|]; cbn [ok_or rbind].
  apply (f_equal length) in D7. rewrite length_drop in D7. cbn [length] in D7.
  match goal with |- context [(?o =? length body)%nat] => replace (o =? length body)%nat with true end;
    [done|]. symmetry. apply Nat.eqb_eq. lia.
Qed.

(* ------------------------------------------------------------------ *)
(** ** The envelope *)

Lemma length_encode c : length (encode c) = (length (encode_body c) + 4)%nat.
Proof. unfold encode. by rewrite length_app, length_le_bytes. Qed.

Lemma crc32_fits l : crc32 l < 256 ^ N.of_nat 4.
Proof. change (256 ^ N.of_nat 4) with (2 ^ 32). apply crc32_lt. Qed.

(** What reaches the field checks: a body followed by its own checksum. *)
Lemma decode_envelope l e :
  (exists body, l = body ++ le_bytes 4 (crc32 body) /\ (length l <= MAX_CURSOR_BYTES)%nat /\
                decode l e = decode_fields body e) \/
  (exists m, decode l e = Err (invalid m)).
Proof.
  unfold decode. destruct (MAX_CURSOR_BYTES <? length l)%nat eqn:El; [by right; eexists|].
  apply Nat.ltb_ge in El. unfold CRC_BYTES.
  destruct (4 <=? length l)%nat eqn:E4; [|by right; eexists]. apply Nat.leb_le in E4.
  cbn [ok_or rbind]. set (b := take (length l - 4) l). set (t := drop (length l - 4) l).
  assert (length t = 4%nat) as Lt by (subst t; rewrite length_drop; lia).
  unfold read_le. rewrite Lt. cbn [Nat.eqb ok_or rbind].
  destruct (crc32 b =? le_num t) eqn:Ec; [|by right; eexists]. apply N.eqb_eq in Ec.
  left. exists b. split_and!; [|done|done].
  rewrite Ec. transitivity (b ++ t); [by subst b t; rewrite take_drop|].
  f_equal. clear - Lt. clearbody t. by rewrite <- Lt, le_bytes_le_num.
Qed.

Lemma decode_body_crc body e :
  (length body + 4 <= MAX_CURSOR_BYTES)%nat ->
  decode (body ++ le_bytes 4 (crc32 body)) e = decode_fields body e.
Proof.
  intros Hl. unfold decode. rewrite length_app, length_le_bytes.
  rewrite (proj2 (Nat.ltb_ge _ _)) by lia. unfold CRC_BYTES.
  rewrite (proj2 (Nat.leb_le _ _)) by lia. cbn [ok_or rbind].
  replace (length body + 4 - 4)%nat with (length body) by lia.
  rewrite take_app_length, drop_app_length. unfold read_le.
  rewrite length_le_bytes. cbn [Nat.eqb ok_or rbind].
  rewrite le_num_le_bytes_small by apply crc32_fits. by rewrite N.eqb_refl.
Qed.

Lemma encode_inj_body b b' :
  b ++ le_bytes 4 (crc32 b) = b' ++ le_bytes 4 (crc32 b') -> b = b'.
Proof. intros E. apply app_inj_1 in E as [-> _]; [done|]. apply (f_equal length) in E. rewrite !length_app, !length_le_bytes in E. lia. Qed.

Lemma decode_fields_Err body e err : decode_fields body e = Err err -> code err = InvalidCursor.
Proof.
  unfold decode_fields. intros H. unfold rbind, ok_or in H.
  repeat (case_match; simplify_eq/=; try done).
Qed.

Lemma decode_encode c : cursor_fits c -> decode (encode c) (expected_of c) = Ok c.
Proof.
  intros (Hd & Hf & Hg & Hp & Hl). rewrite length_encode in Hl.
  unfold encode. rewrite decode_body_crc by done. by apply decode_fields_complete.
Qed.

Lemma fnv1a_64_lt l : fnv1a_64 l < u64_mod.
Proof.
  unfold fnv1a_64. assert (forall h, h < u64_mod ->
    foldl (fun hash b => wmul64 (N.lxor hash (byteN b)) 1099511628211) h l < u64_mod) as Hl.
  { induction l as [|b l IH]; intros h Hh; [done|]. apply IH. unfold wmul64. apply N.mod_lt. done. }
  by apply Hl.
Qed.

Lemma length_encode_fields c :
  (length (cur_generation c) <= length (encode c))%nat /\ (length (cur_position c) <= length (encode c))%nat.
Proof. rewrite length_encode. unfold encode_body. rewrite !length_app. lia. Qed.

(** C31. Cursors round-trip exactly: decoding accepts a byte string for a
    query if and only if it is the canonical encoding of a representable
    cursor that was made for the same hash kind, snapshot, operation and
    options, and it then returns that cursor. *)
Theorem cursor_decode_iff_encode l e c :
  decode l e = Ok c <-> l = encode c /\ cursor_fits c /\ expected_of c = e.
Proof.
  split.
  - intros H. destruct (decode_envelope l e) as [(body & Hl & Hle & E)|(m & E)]; [|congruence].
    rewrite E in H. apply decode_fields_sound in H as (-> & Hex & Hd & Hf & Hg & Hp).
    change (l = encode c) in Hl. subst l. done.
  - intros (-> & Hfits & <-). by apply decode_encode.
Qed.

(** A one-byte change never yields another self-checksummed string. *)
Lemma crc_envelope_corrupt body i b body' :
  let l := body ++ le_bytes 4 (crc32 body) in
  <[i := b]> l = body' ++ le_bytes 4 (crc32 body') -> l !! i = Some b \/ (length l <= i)%nat.
Proof.
  intros l H. destruct (le_lt_dec (length l) i) as [|Hi]; [by right|left].
  assert (length body = length body') as Hlen.
  { apply (f_equal length) in H. rewrite length_insert in H. subst l.
    rewrite !length_app, !length_le_bytes in H. lia. }
  subst l. destruct (le_lt_dec (length body) i) as [Hge|Hlt].
  - rewrite insert_app_r_alt in H by done. apply app_inj_1 in H as [<- H]; [|done].
    rewrite <- H, lookup_app_r by done. rewrite list_lookup_insert_eq; [done|].
    rewrite length_app, length_le_bytes in *. lia.
  - rewrite insert_app_l in H by done. apply app_inj_1 in H as [Hb Hc]; [|by rewrite length_insert].
    rewrite lookup_app_l by done. destruct (lookup_lt_is_Some_2 _ _ Hlt) as [x Hx].
    assert (crc32 body = crc32 (<[i:=b]> body)) as Ec.
    { rewrite Hb. apply (f_equal le_num) in Hc. by rewrite !le_num_le_bytes_small in Hc by apply crc32_fits. }
    rewrite (insert_take_drop body i b) in Ec by done.
    rewrite <- (take_drop_middle body i x) in Ec at 1 by done.
    apply crc32_single_byte in Ec. congruence.
Qed.

(** The checksum rejects every single-byte corruption: replacing any one
    byte of an encoded cursor by a different one makes [decode] fail with
    [invalid_cursor], whatever the caller expects. *)
Theorem cursor_single_byte_corruption c i b e :
  (i < length (encode c))%nat -> encode c !! i <> Some b ->
  exists err, decode (<[i := b]> (encode c)) e = Err err /\ code err = InvalidCursor.
Proof.
  intros Hi Hb. destruct (decode_envelope (<[i := b]> (encode c)) e) as [(body & Hl & _ & E)|(m & E)].
  - unfold encode in Hl. apply crc_envelope_corrupt in Hl as [Hl|Hl]; [done|]. unfold encode in Hi. lia.
  - rewrite E. by eexists.
Qed.

Lemma hash_tag_inj k k' : hash_tag k = hash_tag k' -> k = k'.
Proof. by destruct k, k'. Qed.

(** A body names one query. *)
Lemma encode_body_expected c c' :
  length (cur_snapshot_digest c) = digest_len (cur_hash_kind c) ->
  length (cur_snapshot_digest c') = digest_len (cur_hash_kind c') ->
  cur_option_fingerprint c < u64_mod -> cur_option_fingerprint c' < u64_mod ->
  encode_body c = encode_body c' -> expected_of c = expected_of c'.
Proof.
  destruct c as [k d o f g p], c' as [k' d' o' f' g' p']; unfold encode_body, expected_of.
  cbn [cur_hash_kind cur_snapshot_digest cur_operation_tag cur_option_fingerprint
       cur_generation cur_position].
  intros Hd Hd' Hf Hf' E. apply app_inj_1 in E as [[=Ek] E]; [|done].
  apply hash_tag_inj in Ek as ->. apply app_inj_1 in E as [-> E]; [|congruence].
  apply app_inj_1 in E as [[= ->] E]; [|done].
  apply app_inj_1 in E as [E _]; [|by rewrite !length_le_bytes].
  apply (f_equal le_num) in E. by rewrite !le_num_le_bytes_small in E by done; subst.
Qed.

(** Every decoding failure is the [invalid_cursor] error, and a cursor
    is bound to its query: one that decodes for a query is rejected when it
    is presented for any other (another hash kind, snapshot, operation or
    option set). *)
Theorem cursor_binds_query l e e' c :
  decode l e = Ok c -> e <> e' ->
  exists err, decode l e' = Err err /\ code err = InvalidCursor.
Proof.
  intros H Hne. destruct (decode l e') as [c'|err] eqn:H'.
  - exfalso. apply Hne.
    destruct (decode_envelope l e) as [(b1 & L1 & _ & E1)|(m & E1)]; [|congruence].
    destruct (decode_envelope l e') as [(b2 & L2 & _ & E2)|(m & E2)]; [|congruence].
    rewrite E1 in H. rewrite E2 in H'. rewrite L1 in L2. apply encode_inj_body in L2 as ->.
    apply decode_fields_sound in H as (-> & <- & ? & ? & _).
    apply decode_fields_sound in H' as (E & <- & ? & ? & _). by apply encode_body_expected.
  - exists err. split; [done|]. destruct (decode_envelope l e') as [(body & _ & _ & E)|(m & E)].
    + rewrite E in H'. by eapply decode_fields_Err.
    + rewrite E in H'. by simplify_eq.
Qed.

(* ------------------------------------------------------------------ *)
(** ** Evaluation on the source's own vectors *)

Definition sample_cursor : Cursor :=
  mkCursor Sha1 (replicate 20 x11) OPERATION_LIST_TREE (fnv1a_64 (bs "options")) [] (bs "src/a.rs").

Example fnv1a_64_hello : fnv1a_64 (bs "hello") = 11831194018420276491.
Proof. vm_compute. reflexivity. Qed.

Example crc32_check_vector : crc32 (bs "123456789") = 3421780262.
Proof. vm_compute. reflexivity. Qed.

Lemma cursor_single_byte_corruption_witness :
  exists err, decode (<[30%nat := xff]> (encode sample_cursor)) (expected_of sample_cursor) = Err err
              /\ code err = InvalidCursor.
Proof.
  apply (cursor_single_byte_corruption sample_cursor 30 xff (expected_of sample_cursor)).
  - vm_compute. lia.
  - vm_compute. discriminate.
Defined.

Lemma cursor_binds_query_witness :
  exists err, decode (encode sample_cursor)
                (mkExpected Sha1 (replicate 20 x11) OPERATION_LOG (fnv1a_64 (bs "options"))) = Err err
              /\ code err = InvalidCursor.
Proof.
  apply (cursor_binds_query (encode sample_cursor) (expected_of sample_cursor) _ sample_cursor).
  - vm_compute. reflexivity.
  - vm_compute. discriminate.
Defined.
