(* ===== verification/Odb.v ===== *)
(** * The object-database contract ([odb.rs]) and the static store
    ([static_odb.rs])

    The trait [ObjectDb] is a record of operations over a world that holds the
    job's budget and the stores' own state [T]; its provided methods are the
    [default_*] definitions. What a store promises its clients is the class
    [LawfulDb]; the static store and the trait's default batch read discharge
    it here, the layered store in [Layered.v], and every algorithm is proved
    against it. *)

From Stdlib Require Import NArith Lia Strings.Byte Strings.String.
From stdpp Require Import prelude gmap strings list.
From S2P Require Import Prelude Errors Objects Budget.

Open Scope N_scope.

(** A payload read: [try_find] returns the kind and fills [out]. *)
Abbreviation Payload := (ObjectKind * bytes)%type.
(** [ObjectReadResult]. *)
Abbreviation ObjectReadResult := (option Payload).

(** [HeaderProvenance], [HeaderRead], [ReadManyBudget] and [CacheStats]. *)
Inductive HeaderProvenance : Type :=
| Verified
| UnverifiedProvider.

Record HeaderRead : Type := mkHeaderRead {
  hr_header : ObjectHeader;
  hr_provenance : HeaderProvenance
}.

Record ReadManyBudget : Type := mkReadManyBudget { max_total_bytes : option N }.
Definition ReadManyBudget_default : ReadManyBudget := mkReadManyBudget None.

Record CacheStats : Type := mkCacheStats {
  cs_bytes : N;
  cs_entries : N;
  cs_evictions : N
}.
Definition CacheStats_default : CacheStats := mkCacheStats 0 0 0.

(** Effectful code over a budget and a store state. *)
Abbreviation DM T := (ST (Budget * T) Error).

(** The trait [ObjectDb]. *)
Record ObjectDb (T : Type) : Type := mkDb {
  hash_kind : HashKind;
  shallow_roots : option (gset Oid);
  try_header : Oid -> DM T (option ObjectHeader);
  try_header_with_provenance : Oid -> DM T (option HeaderRead);
  try_find : Oid -> DM T ObjectReadResult;
  try_find_graph : Oid -> DM T ObjectReadResult;
  try_find_many : list Oid -> DM T (list ObjectReadResult);
  try_find_many_bounded : list Oid -> ReadManyBudget -> DM T (list ObjectReadResult);
  prefetch : list Oid -> DM T unit;
  supports_prefetch : bool;
  cache_stats : T -> CacheStats;
  refresh : DM T unit
}.
Arguments mkDb {T}.
Arguments hash_kind {T} _.
Arguments shallow_roots {T} _.
Arguments try_header {T} _ _.
Arguments try_header_with_provenance {T} _ _.
Arguments try_find {T} _ _.
Arguments try_find_graph {T} _ _.
Arguments try_find_many {T} _ _.
Arguments try_find_many_bounded {T} _ _ _.
Arguments prefetch {T} _ _.
Arguments supports_prefetch {T} _.
Arguments cache_stats {T} _ _.
Arguments refresh {T} _.

(** [enforce_read_many_budget]. *)
Definition enforce_read_many_budget (total : N) (rb : ReadManyBudget) : Res unit :=
  match max_total_bytes rb with
  | Some maximum =>
      if maximum <? total then
        Err (with_limit "max_total_bytes"
               (Error_new ResultTooLarge "object batch exceeds max_total_bytes"))
      else Ok tt
  | None => Ok tt
  end.

Section Defaults.
Context `{Env} {T : Type}.

(** The provided methods of the trait. *)
Definition default_try_header_with_provenance (header : Oid -> DM T (option ObjectHeader))
  (oid : Oid) : DM T (option HeaderRead) :=
  let! h := header oid in sret ((fun h => mkHeaderRead h Verified) <$> h).

Definition default_try_find_graph (find : Oid -> DM T ObjectReadResult) (oid : Oid)
  : DM T ObjectReadResult :=
  without_object_charge oid (find oid).

(** The loop of [try_find_many_bounded] from the running total [total]. *)
Fixpoint find_many_loop (find : Oid -> DM T ObjectReadResult) (oids : list Oid)
  (rb : ReadManyBudget) (total : N) : DM T (list ObjectReadResult) :=
  match oids with
  | [] => sret []
  | oid :: oids =>
      let! value := find oid in
      match value with
      | Some (kind, data) =>
          let total := sadd64 total (lenN data) in
          let! _ := slift (enforce_read_many_budget total rb) in
          let! results := find_many_loop find oids rb total in
          sret (Some (kind, data) :: results)
      | None =>
          let! results := find_many_loop find oids rb total in
          sret (None :: results)
      end
  end.
Definition default_try_find_many_bounded (find : Oid -> DM T ObjectReadResult) (oids : list Oid)
  (rb : ReadManyBudget) : DM T (list ObjectReadResult) :=
  find_many_loop find oids rb 0.

Definition default_try_find_many
  (bounded : list Oid -> ReadManyBudget -> DM T (list ObjectReadResult)) (oids : list Oid)
  : DM T (list ObjectReadResult) :=
  bounded oids ReadManyBudget_default.

Definition default_prefetch (oids : list Oid) : DM T unit := sret tt.

Definition default_refresh : DM T unit :=
  let! _ := on_budget check in
  sthrow (Error_new UnsupportedOperation "object store does not support refresh").

End Defaults.

(* ------------------------------------------------------------------ *)
(** ** The static store *)

(** [StaticOdb]. *)
Record StaticOdb : Type := mkStatic {
  st_hash : HashKind;
  st_objects : gmap Oid Payload
}.

(** [ensure_hash]. *)
Definition ensure_hash (expected : HashKind) (oid : Oid) : Res unit :=
  if negb (bool_decide (oid_kind oid = expected)) then
    Err (Error_new InvalidOid
           ("object ID uses " ++ HashKind_debug (oid_kind oid) ++ ", but the object store uses "
            ++ HashKind_debug expected))
  else Ok tt.

Section Static.
Context `{Env, Digests}.

(** [StaticOdb::from_addressed_objects]: the loading loop. *)
Fixpoint load_objects (hash : HashKind) (objects : list (Oid * Payload))
  (loaded : gmap Oid Payload) : Res (gmap Oid Payload) :=
  match objects with
  | [] => Ok loaded
  | (oid, (kind, payload)) :: objects =>
      let? _ := ensure_hash hash oid in
      let? _ := verify oid kind payload in
      load_objects hash objects (<[oid := (kind, payload)]> loaded)
  end.
Definition from_addressed_objects (hash : HashKind) (objects : list (Oid * Payload))
  : Res StaticOdb :=
  let? loaded := load_objects hash objects ∅ in
  Ok (mkStatic hash loaded).

(** [StaticOdb::from_objects]: compute every ID, then load. *)
Fixpoint address_objects (hash : HashKind) (objects : list Payload) : Res (list (Oid * Payload)) :=
  match objects with
  | [] => Ok []
  | (kind, payload) :: objects =>
      let? oid := object_id hash kind payload in
      let? rest := address_objects hash objects in
      Ok ((oid, (kind, payload)) :: rest)
  end.
Definition from_objects (hash : HashKind) (objects : list Payload) : Res StaticOdb :=
  let? addressed := address_objects hash objects in
  from_addressed_objects hash addressed.

(** [StaticOdb::len] and [is_empty]. *)
Definition static_len (s : StaticOdb) : nat := size (st_objects s).
Definition static_is_empty (s : StaticOdb) : bool := (static_len s =? 0)%nat.

(** The trait methods of the static store. *)
Definition static_try_header {T} (s : StaticOdb) (oid : Oid) : DM T (option ObjectHeader) :=
  let! _ := on_budget charge_header in
  let! _ := slift (ensure_hash (st_hash s) oid) in
  sret ((fun '(kind, payload) => mkHeader kind (lenN payload)) <$> (st_objects s !! oid)).

Definition static_try_find {T} (s : StaticOdb) (oid : Oid) : DM T ObjectReadResult :=
  let! _ := slift (ensure_hash (st_hash s) oid) in
  match st_objects s !! oid with
  | None =>
      let! _ := on_budget check in
      sret None
  | Some (kind, payload) =>
      let! _ := on_budget (charge_object (lenN payload)) in
      sret (Some (kind, payload))
  end.

Definition static_db {T} (s : StaticOdb) : ObjectDb T :=
  let find := static_try_find s in
  let bounded := default_try_find_many_bounded find in
  {| hash_kind := st_hash s;
     shallow_roots := None;
     try_header := static_try_header s;
     try_header_with_provenance := default_try_header_with_provenance (static_try_header s);
     try_find := find;
     try_find_graph := default_try_find_graph find;
     try_find_many := default_try_find_many bounded;
     try_find_many_bounded := bounded;
     prefetch := default_prefetch;
     supports_prefetch := false;
     cache_stats := fun _ => CacheStats_default;
     refresh := default_refresh |}.

End Static.

(* ------------------------------------------------------------------ *)
(** ** What a store promises *)

(** The header of a stored object. *)
Definition header_of (p : Payload) : ObjectHeader := mkHeader p.1 (lenN p.2).

(** The bytes a batch materialises. *)
Definition total_bytes (rs : list ObjectReadResult) : N :=
  foldr (fun r acc => match r with Some (_, d) => lenN d + acc | None => acc end) 0 rs.

(** A batch respects its ceiling; sums saturate at [u64::MAX]. *)
Definition within_ceiling (rb : ReadManyBudget) (n : N) : Prop :=
  match max_total_bytes rb with
  | Some m => N.min n u64_max <= m
  | None => True
  end.

(** A header answer agrees with the contents: an absence is real, and a
    verified header is the stored object's. Unverified provider metadata
    carries no promise. *)
Definition header_agrees (c : Oid -> ObjectReadResult) (oid : Oid) (h : option HeaderRead) : Prop :=
  match h with
  | None => c oid = None
  | Some hr => hr_provenance hr = Verified -> Some (hr_header hr) = header_of <$> c oid
  end.

(** Between refreshes a store has fixed contents [c]. While its state
    satisfies [I], a read gives what [c] says or fails with a code of [F],
    and keeps [I]. *)
Class LawfulDb {T} (db : ObjectDb T) (c : Oid -> ObjectReadResult) (I : T -> Prop)
  (F : ErrorCode -> Prop) : Prop := {
  law_find oid : hoare (on_store I) (fun e => F (code e)) (try_find db oid) (fun v => v = c oid);
  law_graph oid :
    hoare (on_store I) (fun e => F (code e)) (try_find_graph db oid) (fun v => v = c oid);
  law_header oid :
    hoare (on_store I) (fun e => F (code e)) (try_header_with_provenance db oid)
      (header_agrees c oid);
  law_many oids rb :
    hoare (on_store I) (fun e => F (code e)) (try_find_many_bounded db oids rb)
      (fun vs => vs = c <$> oids /\ (NoDup oids -> within_ceiling rb (total_bytes vs)));
  law_prefetch oids : hoare (on_store I) (fun e => F (code e)) (prefetch db oids) (fun _ => True)
}.

(** A store whose plain headers are those of its objects: true of a store that
    reads its own objects, not of one that relays a provider's metadata. *)
Class VerifiedHeaders {T} (db : ObjectDb T) (c : Oid -> ObjectReadResult) (I : T -> Prop)
  (F : ErrorCode -> Prop) : Prop := {
  law_plain_header oid :
    hoare (on_store I) (fun e => F (code e)) (try_header db oid) (fun h => h = header_of <$> c oid)
}.

(** The failures of a plain store: the budget stops the job, the ID has the
    wrong hash kind, or the batch ceiling is reached. *)
Definition plain_failure (c : ErrorCode) : Prop :=
  c = Cancelled \/ c = Timeout \/ c = BudgetExceeded \/ c = ObjectTooLarge \/
  c = InvalidOid \/ c = ResultTooLarge.

Lemma plain_stop e : budget_stop e -> plain_failure (code e).
Proof. unfold budget_stop, plain_failure. naive_solver. Qed.
#[export] Hint Resolve plain_stop : gitility.

(** Counting bytes: in any order, and over the entries of a map. *)
Lemma total_bytes_app rs rs' : total_bytes (rs ++ rs') = total_bytes rs + total_bytes rs'.
Proof. induction rs as [|[[k d]|] rs IH]; simpl; [done|lia|done]. Qed.

#[export] Instance total_bytes_perm : Proper (Permutation ==> eq) total_bytes.
Proof. induction 1 as [|[[k d]|]| [[k d]|] [[k' d']|] |]; simpl; lia. Qed.

Lemma total_bytes_submseteq rs rs' : rs ⊆+ rs' -> total_bytes rs <= total_bytes rs'.
Proof. induction 1 as [|[[k d]|]|[[k d]|] [[k' d']|]|[[k d]|]|]; simpl in *; lia. Qed.

Definition map_bytes (m : gmap Oid ObjectReadResult) : N := total_bytes (map_to_list m).*2.

Lemma map_bytes_insert m oid r : m !! oid = None -> map_bytes (<[oid := r]> m) = total_bytes [r] + map_bytes m.
Proof. intros Hm. unfold map_bytes. rewrite map_to_list_insert by done. by destruct r as [[k d]|]; simpl; rewrite ?N.add_0_r. Qed.
Lemma map_bytes_split m m1 m2 :
  (forall oid r, m !! oid = Some r -> m1 !! oid = Some r \/ m2 !! oid = Some r) ->
  map_bytes m <= map_bytes m1 + map_bytes m2.
Proof.
  intros Hm. unfold map_bytes. rewrite <- total_bytes_app, <- fmap_app. apply total_bytes_submseteq.
  apply fmap_submseteq, NoDup_submseteq; [apply NoDup_map_to_list|].
  intros [oid r] Hr%elem_of_map_to_list. rewrite elem_of_app, !elem_of_map_to_list. auto.
Qed.
Lemma total_bytes_lookups m oids rs :
  NoDup oids -> Forall2 (fun oid r => m !! oid = Some r) oids rs -> total_bytes rs <= map_bytes m.
Proof.
  intros Hn Hf. assert (rs = (zip oids rs).*2) as ->.
  { rewrite snd_zip; [done|]. apply Forall2_length in Hf. lia. }
  unfold map_bytes. apply total_bytes_submseteq, fmap_submseteq, NoDup_submseteq.
  - apply (NoDup_fmap_1 fst). rewrite fst_zip; [done|]. apply Forall2_length in Hf. lia.
  - intros [oid r] Hin. apply elem_of_map_to_list. apply list_elem_of_lookup in Hin as [i Hi].
    apply lookup_zip_with_Some in Hi as (o & r' & [= <- <-] & Ho & Hr).
    exact (Forall2_lookup_lr _ _ _ _ _ _ Hf Ho Hr).
Qed.

(* ------------------------------------------------------------------ *)
(** ** The default batch read *)

Lemma enforce_Ok total rb u :
  enforce_read_many_budget total rb = Ok u -> total <= u64_max -> within_ceiling rb total.
Proof.
  unfold enforce_read_many_budget, within_ceiling. destruct (max_total_bytes rb) as [m|]; [|done].
  destruct (m <? total) eqn:E; [done|]. apply N.ltb_ge in E. lia.
Qed.

Lemma enforce_Err total rb e :
  enforce_read_many_budget total rb = Err e -> code e = ResultTooLarge.
Proof.
  unfold enforce_read_many_budget. destruct (max_total_bytes rb); [|done].
  case_match; [|done]. by intros [= <-].
Qed.

Lemma sadd64_min a b : sadd64 (N.min a u64_max) b = N.min (a + b) u64_max.
Proof. unfold sadd64. lia. Qed.

Section DefaultBatch.
Context {T : Type} (I : T -> Prop) (F : ErrorCode -> Prop) (c : Oid -> ObjectReadResult).
Context (find : Oid -> DM T ObjectReadResult).
Hypothesis find_spec :
  forall oid, hoare (on_store I) (fun e => F (code e)) (find oid) (fun v => v = c oid).
Hypothesis F_large : F ResultTooLarge.

Lemma find_many_loop_spec oids rb n :
  within_ceiling rb n ->
  hoare (on_store I) (fun e => F (code e)) (find_many_loop find oids rb (N.min n u64_max))
    (fun vs => vs = c <$> oids /\ within_ceiling rb (n + total_bytes vs)).
Proof.
  revert n. induction oids as [|oid oids IH]; intros n Hn; cbn [find_many_loop].
  - apply hoare_ret. split; [done|]. simpl. by rewrite N.add_0_r.
  - eapply hoare_bind; [apply find_spec|]. intros v Hv.
    destruct v as [[kind data]|]; cbn [fmap list_fmap].
    + eapply (hoare_bind _ _ _ _ (fun _ => within_ceiling rb (n + lenN data))).
      * apply hoare_lift. destruct (enforce_read_many_budget _ rb) as [u|e] eqn:E; simpl.
        -- rewrite sadd64_min in E. apply enforce_Ok in E; [|lia].
           unfold within_ceiling in *. destruct (max_total_bytes rb); [lia|done].
        -- by rewrite (enforce_Err _ _ _ E).
      * intros _ Hw. rewrite sadd64_min. eapply hoare_bind; [by apply IH|].
        intros vs [-> Ht]. apply hoare_ret. cbn [total_bytes foldr fmap list_fmap].
        rewrite <- Hv. split; [done|].
        cbn [total_bytes foldr]. fold (total_bytes (c <$> oids)). by rewrite N.add_assoc.
    + eapply hoare_bind; [by apply IH|]. intros vs [-> Ht]. apply hoare_ret.
      rewrite <- Hv. done.
Qed.

Lemma default_many_spec oids rb :
  hoare (on_store I) (fun e => F (code e)) (default_try_find_many_bounded find oids rb)
    (fun vs => vs = c <$> oids /\ (NoDup oids -> within_ceiling rb (total_bytes vs))).
Proof.
  eapply hoare_post; [apply (find_many_loop_spec oids rb 0)|].
  - unfold within_ceiling. destruct (max_total_bytes rb); [lia|done].
  - intros vs [-> Ht]. done.
Qed.

End DefaultBatch.

(* ------------------------------------------------------------------ *)
(** ** The static store keeps the contract *)

(** The contents of a static store. *)
Definition static_contents (s : StaticOdb) (oid : Oid) : ObjectReadResult := st_objects s !! oid.

Section StaticLaws.
Context `{Env, Digests} {T : Type} (I : T -> Prop).

Lemma ensure_hash_spec hk oid :
  hoare (on_store I) (fun e => plain_failure (code e)) (slift (ensure_hash hk oid)) (fun _ => True).
Proof.
  apply hoare_lift. unfold ensure_hash. case_bool_decide; simpl; [done|].
  unfold plain_failure. simpl. tauto.
Qed.

Lemma static_find_spec s oid :
  hoare (on_store I) (fun e => plain_failure (code e)) (static_try_find s oid)
    (fun v => v = static_contents s oid).
Proof.
  unfold static_try_find, static_contents. eapply hoare_bind; [apply ensure_hash_spec|]. intros _ _.
  destruct (st_objects s !! oid) as [[kind payload]|].
  - eapply hoare_bind; [apply hoare_charge_object, plain_stop|]. intros _ _. by apply hoare_ret.
  - eapply hoare_bind; [apply hoare_check, plain_stop|]. intros _ _. by apply hoare_ret.
Qed.

Lemma static_header_spec s oid :
  hoare (on_store I) (fun e => plain_failure (code e)) (static_try_header s oid)
    (fun h => h = header_of <$> static_contents s oid).
Proof.
  unfold static_try_header. eapply hoare_bind; [apply hoare_charge_header, plain_stop|]. intros _ _.
  eapply hoare_bind; [apply ensure_hash_spec|]. intros _ _. apply hoare_ret.
  unfold static_contents. by destruct (st_objects s !! oid) as [[]|].
Qed.

#[export] Instance static_headers s : VerifiedHeaders (static_db s) (static_contents s) I plain_failure.
Proof. constructor. apply static_header_spec. Qed.

#[export] Instance static_lawful s : LawfulDb (static_db s) (static_contents s) I plain_failure.
Proof.
  constructor; simpl; intros.
  - apply static_find_spec.
  - apply hoare_without_object_charge, static_find_spec.
  - unfold default_try_header_with_provenance. eapply hoare_bind; [apply static_header_spec|].
    + intros h ->. apply hoare_ret. unfold header_agrees. by destruct (static_contents s oid) as [[]|].
  - apply default_many_spec; [apply static_find_spec|]. unfold plain_failure. tauto.
  - by apply hoare_ret.
Qed.

End StaticLaws.

(* ------------------------------------------------------------------ *)
(** ** Stores that honour the size limit

    What a query may rely on when it skips objects that are too large: a store
    never changes the limits of a job, its headers are those of its objects,
    and it refuses an object as too large only when it is. *)

(** A computation that leaves the limits of the budget alone. *)
Definition keeps {T A} (m : DM T A) : Prop := forall w, limits (m w).2.1 = limits w.1.

(** An invariant of the store state under fixed limits. *)
Definition on_limits {T} (I : T -> Prop) (l : BudgetLimits) (w : Budget * T) : Prop :=
  I w.2 /\ limits w.1 = l.

Class SizedDb {T} (db : ObjectDb T) (c : Oid -> ObjectReadResult) (I : T -> Prop) : Prop := {
  keeps_header oid : keeps (try_header_with_provenance db oid);
  keeps_find oid : keeps (try_find db oid);
  keeps_graph oid : keeps (try_find_graph db oid);
  keeps_prefetch oids : keeps (prefetch db oids);
  sized_header oid w h w' :
    I w.2 -> try_header_with_provenance db oid w = (Ok (Some h), w') -> hr_provenance h = Verified;
  sized_graph oid w e w' :
    I w.2 -> try_find_graph db oid w = (Err e, w') -> code e = ObjectTooLarge ->
    exists k p, c oid = Some (k, p) /\ max_object_bytes (limits w.1) < lenN p
}.

Section Keeps.
Context {T : Type}.

Lemma keeps_ret {A} (a : A) : keeps (T := T) (sret a).
Proof. done. Qed.
Lemma keeps_throw {A} e : keeps (T := T) (A := A) (sthrow e).
Proof. done. Qed.
Lemma keeps_lift {A} (r : Res A) : keeps (T := T) (slift r).
Proof. done. Qed.
Lemma keeps_bind {A B} (m : DM T A) (k : A -> DM T B) :
  keeps m -> (forall a, keeps (k a)) -> keeps (sbind m k).
Proof.
  intros Hm Hk w. unfold sbind. specialize (Hm w). destruct (m w) as [[a|e] w1]; simpl in *; [|done].
  by rewrite Hk.
Qed.

(** Budget operations keep the limits. *)
Lemma keeps_budget {A} (m : BM A) : (forall b, limits (m b).2 = limits b) -> keeps (on_budget (T := T) m).
Proof. intros Hm [b t]. unfold on_budget. specialize (Hm b). by destruct (m b). Qed.
Lemma keeps_check `{Env} : keeps (on_budget (T := T) check).
Proof. apply keeps_budget. intros b. budget_cases; done. Qed.
Lemma keeps_charge_object `{Env} n : keeps (on_budget (T := T) (charge_object n)).
Proof. apply keeps_budget. intros b. budget_cases; done. Qed.
Lemma keeps_charge_header `{Env} : keeps (on_budget (T := T) charge_header).
Proof. apply keeps_budget. intros b. budget_cases; done. Qed.
Lemma keeps_charge_object_visit `{Env} : keeps (on_budget (T := T) charge_object_visit).
Proof. apply keeps_budget. intros b. budget_cases; done. Qed.

Lemma keeps_without_object_charge {A} oid (m : DM T A) : keeps m -> keeps (without_object_charge oid m).
Proof.
  intros Hm [b t]. unfold without_object_charge. cbv zeta.
  match goal with |- context [m (?x, t)] => specialize (Hm (x, t)); destruct (m (x, t)) as [r [b1 t1]] end.
  exact Hm.
Qed.

(** A triple under fixed limits. *)
Lemma hoare_on_limits {A} (I : T -> Prop) F (m : DM T A) P l :
  hoare (on_store I) F m P -> keeps m -> hoare (on_limits I l) F m P.
Proof.
  intros Hm Hk w [Hw Hl]. destruct (Hm w Hw) as [Hr Hi]. split; [done|]. split; [done|]. by rewrite Hk.
Qed.

End Keeps.

#[export] Hint Resolve keeps_ret keeps_throw keeps_lift keeps_bind keeps_check keeps_charge_object
  keeps_charge_header keeps_charge_object_visit keeps_without_object_charge
  keeps_header keeps_find keeps_graph keeps_prefetch : gitility.

Section StaticSized.
Context `{Env, Digests} {T : Type} (I : T -> Prop).

Lemma static_find_keeps s oid : keeps (T := T) (static_try_find s oid).
Proof.
  unfold static_try_find. apply keeps_bind; [apply keeps_lift|]. intros _.
  destruct (st_objects s !! oid) as [[kind payload]|]; auto with gitility.
Qed.

Lemma charge_object_too_large n b e b' :
  charge_object n b = (Err e, b') -> code e = ObjectTooLarge -> max_object_bytes (limits b) < n.
Proof. intros E. budget_cases; intros Hc; try done; by apply N.ltb_lt. Qed.

#[export] Instance static_sized s : SizedDb (static_db s) (static_contents s) I.
Proof.
  constructor; simpl; intros.
  - unfold default_try_header_with_provenance, static_try_header. auto 6 with gitility.
  - apply static_find_keeps.
  - apply keeps_without_object_charge, static_find_keeps.
  - apply keeps_ret.
  - unfold default_try_header_with_provenance in *.
    match goal with E : sbind _ _ _ = _ |- _ => apply sbind_Ok in E as (o & w1 & _ & E) end.
    unfold sret in *. by destruct o; simplify_eq/=.
  - match goal with E : default_try_find_graph _ _ _ = _ |- _ => rename E into Eg end.
    unfold default_try_find_graph, without_object_charge, static_try_find, ensure_hash in Eg.
    destruct w as [b t]. cbv zeta in Eg. case_bool_decide; cbn [negb] in Eg; unfold sbind, slift in Eg.
    2: { by simplify_eq/=. }
    destruct (st_objects s !! oid) as [[k p]|] eqn:Es; unfold static_contents; rewrite Es.
    + exists k, p. split; [done|]. unfold on_budget in Eg.
      destruct (charge_object (lenN p) _) as [[u|e1] b1] eqn:Ec; unfold sret in Eg; simplify_eq/=.
      by apply (charge_object_too_large _ _ _ _ Ec).
    + exfalso. unfold on_budget, check in Eg. simpl in Eg. repeat (case_match; simplify_eq/=).
Qed.

End StaticSized.

(* ------------------------------------------------------------------ *)
(** ** Loading *)

Section Loading.
Context `{Env, Digests}.

(** An object that may be loaded into a store of kind [hash]. *)
Definition loadable (hash : HashKind) (x : Oid * Payload) : Prop :=
  oid_kind x.1 = hash /\ verify x.1 x.2.1 x.2.2 = Ok tt.

(** The last object given for an ID. *)
Fixpoint last_given (objects : list (Oid * Payload)) (oid : Oid) : ObjectReadResult :=
  match objects with
  | [] => None
  | (o, p) :: objects =>
      match last_given objects oid with
      | Some q => Some q
      | None => if bool_decide (o = oid) then Some p else None
      end
  end.

Lemma load_objects_Ok hash objects loaded m :
  load_objects hash objects loaded = Ok m <->
  Forall (loadable hash) objects /\
  forall oid, m !! oid = match last_given objects oid with Some p => Some p | None => loaded !! oid end.
Proof.
  revert loaded. induction objects as [|[o [k p]] objects IH]; intros loaded; cbn [load_objects last_given].
  - split; [by intros [= ->]|]. intros [_ Hm]. f_equal. symmetry. by apply map_eq.
  - rewrite Forall_cons. unfold loadable at 1, ensure_hash. cbn [fst snd].
    case_bool_decide; cbn [negb rbind]; [|naive_solver].
    destruct (verify o k p) as [[]|e]; cbn [rbind]; [|naive_solver].
    rewrite IH. split; (intros [HF Hm]; split; [naive_solver|]; intros oid; rewrite Hm).
    + destruct (last_given objects oid); [done|]. rewrite lookup_insert. repeat case_decide; naive_solver.
    + destruct (last_given objects oid); [done|]. rewrite lookup_insert. repeat case_decide; naive_solver.
Qed.

Lemma last_given_elem objects oid p : last_given objects oid = Some p -> (oid, p) ∈ objects.
Proof.
  induction objects as [|[o q] objects IH]; cbn [last_given]; [done|].
  destruct (last_given objects oid) eqn:E.
  - intros [= ->]. right. by apply IH.
  - case_bool_decide; [|done]. intros [= ->]. subst. left.
Qed.

(** Loading a static store is all or nothing: it succeeds exactly when
    every supplied object has the store's hash kind and verifies against its
    ID, the loaded store then maps each ID to the last object given for it,
    and everything the store ever serves verifies. *)
Theorem static_store_loads_verified hash objects s :
  from_addressed_objects hash objects = Ok s <->
  Forall (loadable hash) objects /\ st_hash s = hash /\
  (forall oid, static_contents s oid = last_given objects oid) /\
  (forall oid k p, static_contents s oid = Some (k, p) -> verify oid k p = Ok tt).
Proof.
  unfold from_addressed_objects. rewrite rbind_Ok. unfold static_contents. split.
  - intros (m & Hm & [= <-]). apply load_objects_Ok in Hm as [HF Hm]. simpl.
    assert (forall oid, m !! oid = last_given objects oid) as Hm'.
    { intros oid. rewrite Hm, lookup_empty. by destruct (last_given objects oid). }
    split_and!; [done..|]. intros oid k p. rewrite Hm'. intros Hin%last_given_elem.
    rewrite Forall_forall in HF. by destruct (HF _ Hin).
  - intros (HF & <- & Hm & _). exists (st_objects s). destruct s as [hash m]. simpl in *.
    split; [|done]. apply load_objects_Ok. split; [done|]. intros oid.
    rewrite Hm, lookup_empty. by destruct (last_given objects oid).
Qed.

End Loading.
