(* ===== verification/Rendezvous.v ===== *)
(** * Request rendezvous: [PendingTable], [ReplySlot] and [send_and_wait]

    The three callback stores ([provider_odb.rs], [provider_refs.rs],
    [packfetch.rs]) wait for their provider through the same protocol: a
    take-once table of one-message channels indexed by request ID, a liveness
    flag, and a wait in slices. This file has the protocol once, over the
    payload type [P] and the request type [R]; the stores instantiate it.

    An [Act] is one atomic action of a thread: a [fetch_add], a critical
    section of the table's lock, a load or store of the flag, a channel
    operation. The waiting code is a function of the [DM] monad; before each of
    its own atomic actions the other threads (other waiters, the boundary that
    delivers replies, the thread that reports the provider's death) perform any
    finite sequence of actions, given by a class [Peers], and time passes. A
    theorem that quantifies over [Peers] therefore covers every interleaving.

    [rv_phases], [rv_taken], [rv_received], [rv_drained] and [rv_fetches] record
    the history and are read by no operation of the source. *)

From Stdlib Require Import NArith Lia Strings.String.
From stdpp Require Import prelude gmap strings list.
From S2P Require Import Prelude Errors Objects Budget Odb.

Open Scope N_scope.

(** Instants and durations are nanoseconds. [Instant] is an [i64] of seconds
    and nanoseconds below one second. *)
Definition WAIT_SLICE : N := 50000000.
Definition instant_max : N := 9223372036854775808 * 1000000000 - 1.
Definition checked_instant_add (now d : N) : option N :=
  if now + d <=? instant_max then Some (now + d) else None.

(** What a store says of a dead provider and of a late one, and its request
    timeout. *)
Record RvConfig : Type := mkRvConfig {
  cf_down : Error;
  cf_timeout : Error;
  cf_request_timeout : N
}.

(** The wait loop ran out of fuel; no run of the model ends this way. *)
Definition spin_error : Error := Error_new InternalError "wait loop did not end".

Section Protocol.
Context {P R : Type}.

(** What travels over a channel. *)
Abbreviation Msg := (result Error P).

(** A [sync_channel(1)]: its buffer, and whether each half is still held. *)
Record Slot : Type := mkSlot {
  sl_buffer : option Msg;
  sl_sender : bool;
  sl_receiver : bool
}.

(** Where a request is in [send_and_wait]. *)
Inductive Phase : Type :=
| Fetched
| Inserted (slot : nat)
| Waiting (slot : nat)
| Returned.

(** The shared state of one store. [rv_pending] is the table of senders (each
    named by its slot), [rv_flight] the senders that were taken out of the
    table and have not sent yet, [rv_sent] the requests given to the
    transport. *)
Record Rv : Type := mkRv {
  rv_alive : bool;
  rv_pending : gmap N nat;
  rv_slots : list Slot;
  rv_flight : list (nat * Msg);
  rv_next_id : N;
  rv_clock : N;
  rv_steps : nat;
  rv_sent : list R;
  rv_phases : gmap N Phase;
  rv_taken : list (N * Msg);
  rv_received : list (N * Msg);
  rv_drained : bool;
  rv_fetches : N
}.

(** [new_with_pending] of the three stores, on an empty table. *)
Definition Rv_new : Rv := mkRv true ∅ [] [] 1 0 0%nat [] ∅ [] [] false 0.

Definition with_pending (m : gmap N nat) (s : Rv) : Rv :=
  mkRv (rv_alive s) m (rv_slots s) (rv_flight s) (rv_next_id s) (rv_clock s) (rv_steps s)
    (rv_sent s) (rv_phases s) (rv_taken s) (rv_received s) (rv_drained s) (rv_fetches s).
Definition with_slots (l : list Slot) (s : Rv) : Rv :=
  mkRv (rv_alive s) (rv_pending s) l (rv_flight s) (rv_next_id s) (rv_clock s) (rv_steps s)
    (rv_sent s) (rv_phases s) (rv_taken s) (rv_received s) (rv_drained s) (rv_fetches s).
Definition with_flight (l : list (nat * Msg)) (s : Rv) : Rv :=
  mkRv (rv_alive s) (rv_pending s) (rv_slots s) l (rv_next_id s) (rv_clock s) (rv_steps s)
    (rv_sent s) (rv_phases s) (rv_taken s) (rv_received s) (rv_drained s) (rv_fetches s).
Definition with_phase (id : N) (ph : Phase) (s : Rv) : Rv :=
  mkRv (rv_alive s) (rv_pending s) (rv_slots s) (rv_flight s) (rv_next_id s) (rv_clock s) (rv_steps s)
    (rv_sent s) (<[id := ph]> (rv_phases s)) (rv_taken s) (rv_received s) (rv_drained s)
    (rv_fetches s).
Definition with_fetch (next fetches : N) (s : Rv) : Rv :=
  mkRv (rv_alive s) (rv_pending s) (rv_slots s) (rv_flight s) next (rv_clock s) (rv_steps s)
    (rv_sent s) (rv_phases s) (rv_taken s) (rv_received s) (rv_drained s) fetches.
Definition with_clock (now : N) (steps : nat) (s : Rv) : Rv :=
  mkRv (rv_alive s) (rv_pending s) (rv_slots s) (rv_flight s) (rv_next_id s) now steps
    (rv_sent s) (rv_phases s) (rv_taken s) (rv_received s) (rv_drained s) (rv_fetches s).
Definition with_sent (l : list R) (s : Rv) : Rv :=
  mkRv (rv_alive s) (rv_pending s) (rv_slots s) (rv_flight s) (rv_next_id s) (rv_clock s) (rv_steps s)
    l (rv_phases s) (rv_taken s) (rv_received s) (rv_drained s) (rv_fetches s).
Definition with_taken (l : list (N * Msg)) (s : Rv) : Rv :=
  mkRv (rv_alive s) (rv_pending s) (rv_slots s) (rv_flight s) (rv_next_id s) (rv_clock s) (rv_steps s)
    (rv_sent s) (rv_phases s) l (rv_received s) (rv_drained s) (rv_fetches s).
Definition with_received (l : list (N * Msg)) (s : Rv) : Rv :=
  mkRv (rv_alive s) (rv_pending s) (rv_slots s) (rv_flight s) (rv_next_id s) (rv_clock s) (rv_steps s)
    (rv_sent s) (rv_phases s) (rv_taken s) l (rv_drained s) (rv_fetches s).
Definition with_death (alive drained : bool) (s : Rv) : Rv :=
  mkRv alive (rv_pending s) (rv_slots s) (rv_flight s) (rv_next_id s) (rv_clock s) (rv_steps s)
    (rv_sent s) (rv_phases s) (rv_taken s) (rv_received s) drained (rv_fetches s).

(** ** Channels *)

(** A half of a channel is dropped. *)
Definition drop_sender (k : nat) (s : Rv) : Rv :=
  match rv_slots s !! k with
  | Some sl => with_slots (<[k := mkSlot (sl_buffer sl) false (sl_receiver sl)]> (rv_slots s)) s
  | None => s
  end.
Definition drop_receiver (k : nat) (s : Rv) : Rv :=
  match rv_slots s !! k with
  | Some sl => with_slots (<[k := mkSlot (sl_buffer sl) (sl_sender sl) false]> (rv_slots s)) s
  | None => s
  end.

(** [SyncSender::send] by the [i]-th sender in flight, which is then dropped;
    it fails when the receiver is gone. *)
Definition rv_send (i : nat) (s : Rv) : bool * Rv :=
  match rv_flight s !! i with
  | None => (false, s)
  | Some (k, m) =>
      let s := with_flight (take i (rv_flight s) ++ drop (S i) (rv_flight s)) s in
      match rv_slots s !! k with
      | None => (false, s)
      | Some sl =>
          let delivered := sl_receiver sl in
          let buffer := if delivered then Some m else sl_buffer sl in
          (delivered, with_slots (<[k := mkSlot buffer false delivered]> (rv_slots s)) s)
      end
  end.

(** [ReplySlot::recv_timeout] at the end of its wait. *)
Inductive Received : Type :=
| Got (m : Msg)
| TimedOut
| Disconnected.
Definition rv_recv (id : N) (k : nat) (s : Rv) : Received * Rv :=
  match rv_slots s !! k with
  | None => (Disconnected, s)
  | Some sl =>
      match sl_buffer sl with
      | Some m =>
          let s := with_slots (<[k := mkSlot None (sl_sender sl) (sl_receiver sl)]> (rv_slots s)) s in
          (Got m, with_received (rv_received s ++ [(id, m)]) s)
      | None => (if sl_sender sl then TimedOut else Disconnected, s)
      end
  end.

(** ** [PendingTable] *)

(** [insert]: the sender that the ID had before is dropped. *)
Definition table_insert (id : N) (k : nat) (s : Rv) : Rv :=
  let old := rv_pending s !! id in
  let s := with_pending (<[id := k]> (rv_pending s)) s in
  match old with
  | Some k' => drop_sender k' s
  | None => s
  end.

(** The critical section of [reply] and [reply_error]. *)
Definition table_take (id : N) (m : Msg) (s : Rv) : Rv :=
  match rv_pending s !! id with
  | None => s
  | Some k =>
      let s := with_pending (delete id (rv_pending s)) s in
      let s := with_flight (rv_flight s ++ [(k, m)]) s in
      with_taken (rv_taken s ++ [(id, m)]) s
  end.

(** [reply] and [reply_error]: take the sender, then send. *)
Definition table_answer (id : N) (m : Msg) (s : Rv) : bool * Rv :=
  match rv_pending s !! id with
  | None => (false, s)
  | Some _ => let s := table_take id m s in rv_send (length (rv_flight s) - 1) s
  end.
Definition table_reply (id : N) (payload : P) (s : Rv) : bool * Rv := table_answer id (Ok payload) s.
Definition table_reply_error (id : N) (e : Error) (s : Rv) : bool * Rv := table_answer id (Err e) s.

(** [cancel]. *)
Definition table_cancel (id : N) (s : Rv) : bool * Rv :=
  match rv_pending s !! id with
  | None => (false, s)
  | Some k => (true, drop_sender k (with_pending (delete id (rv_pending s)) s))
  end.

(** The critical section of [PendingTable::fail_all]. Each taken sender sends
    afterwards; the order of the sends is not observable, since no two of them
    share a channel. *)
Definition table_drain (e : Error) (s : Rv) : Rv :=
  foldl (fun s id => table_take id (Err e) s) s (map_to_list (rv_pending s)).*1.

(** ** The actions of a waiting thread *)

(** [next_id.fetch_add]. *)
Definition rv_fetch (s : Rv) : N * Rv :=
  let id := rv_next_id s in
  (id, with_phase id Fetched (with_fetch (wadd64 id 1) (rv_fetches s + 1) s)).

(** [ReplySlot::pair] and [insert]. *)
Definition rv_insert (id : N) (s : Rv) : nat * Rv :=
  let k := length (rv_slots s) in
  let s := with_slots (rv_slots s ++ [mkSlot None true true]) s in
  (k, with_phase id (Inserted k) (table_insert id k s)).

(** [ensure_alive]. *)
Definition rv_live (id : N) (k : nat) (s : Rv) : bool * Rv :=
  (rv_alive s, if rv_alive s then with_phase id (Waiting k) s else s).

(** [cancel], then the return that drops the receiver. *)
Definition rv_withdraw (id : N) (k : nat) (s : Rv) : Rv :=
  with_phase id Returned (drop_receiver k (table_cancel id s).2).

(** A receive; a message ends the wait. *)
Definition rv_receive (id : N) (k : nat) (s : Rv) : Received * Rv :=
  let '(r, s) := rv_recv id k s in
  (r, match r with
      | Got _ => with_phase id Returned (drop_receiver k s)
      | _ => s
      end).

(** ** The actions of any thread *)
Inductive Act : Type :=
(* a waiter *)
| AFetch
| AInsert (id : N)
| ALive (id : N)
| AReceive (id : N)
| AWithdraw (id : N)
(* the boundary *)
| ATake (id : N) (m : Msg)
| ASend (i : nat)
(* [ProviderOdb::fail_all]: [alive.store(false)], then [PendingTable::fail_all] *)
| ADown
| ADrain (e : Error).

(** The request whose thread performs an action. *)
Definition actor (a : Act) : option N :=
  match a with
  | AInsert id | ALive id | AReceive id | AWithdraw id => Some id
  | _ => None
  end.

(** An action; a waiter's action is enabled where its code has it. *)
Definition do_act (a : Act) (s : Rv) : Rv :=
  match a with
  | AFetch => (rv_fetch s).2
  | AInsert id => match rv_phases s !! id with
                  | Some Fetched => (rv_insert id s).2
                  | _ => s
                  end
  | ALive id => match rv_phases s !! id with
                | Some (Inserted k) => (rv_live id k s).2
                | _ => s
                end
  | AReceive id => match rv_phases s !! id with
                   | Some (Waiting k) => (rv_receive id k s).2
                   | _ => s
                   end
  | AWithdraw id => match rv_phases s !! id with
                  | Some (Inserted k | Waiting k) => rv_withdraw id k s
                  | _ => s
                  end
  | ATake id m => table_take id m s
  | ASend i => (rv_send i s).2
  | ADown => with_death false (rv_drained s) s
  | ADrain e => let s := table_drain e s in with_death (rv_alive s) (rv_drained s || negb (rv_alive s)) s
  end.
Definition do_acts (l : list Act) (s : Rv) : Rv := foldl (fun s a => do_act a s) s l.

End Protocol.

Arguments Rv : clear implicits.
Arguments Act : clear implicits.
Arguments Slot : clear implicits.

(** The other threads, the passing of time, and the transport: before the
    [n]-th step of a waiting thread the peers perform [peer_acts n] and
    [peer_delay n] passes; the transport answers [transport n request]. *)
Class Peers (P R : Type) : Type := {
  peer_acts : nat -> list (Act P);
  peer_delay : nat -> N;
  transport : nat -> R -> Res unit
}.

Section Waiting.
Context {P R C : Type} `{Env, !Peers P R}.
Abbreviation W := (Rv P R * C)%type.

(** An action of another thread than the one that serves the requests [own]. *)
Definition is_foreign (own : list N) (a : Act P) : Prop :=
  match actor a with
  | Some id => id ∉ own
  | None => True
  end.
#[export] Instance is_foreign_dec own a : Decision (is_foreign own a).
Proof. unfold is_foreign. destruct (actor a); apply _. Defined.

(** The peers act and time passes. *)
Definition interfere (own : list N) (s : Rv P R) : Rv P R :=
  let n := rv_steps s in
  with_clock (rv_clock s + peer_delay n) (S n) (do_acts (filter (is_foreign own) (peer_acts n)) s).

(** One atomic action of the thread that serves the requests [own]. *)
Definition atomically {A} (own : list N) (f : Rv P R -> A * Rv P R) : DM W A :=
  fun '(b, (s, c)) => let '(a, s) := f (interfere own s) in (Ok a, (b, (s, c))).

(** [Instant::now]. *)
Definition now_of (own : list N) : DM W N := atomically own (fun s => (rv_clock s, s)).

(** [self.pending.cancel(id)] on the way out. *)
Definition withdraw (others : list N) (id : N) (k : nat) : DM W unit :=
  atomically (id :: others) (fun s => (tt, rv_withdraw id k s)).

(** [transport.request(request)]. *)
Definition send_request (others : list N) (id : N) (request : R) : DM W (Res unit) :=
  atomically (id :: others) (fun s => (transport (rv_steps s) request, with_sent (rv_sent s ++ [request]) s)).

(** A request that is waited for: its ID, its channel and its deadline
    ([PendingRange]). *)
Record Ticket : Type := mkTicket { tk_id : N; tk_slot : nat; tk_deadline : N }.

(** The opening of [send_and_wait], and [begin] of [packfetch.rs]: [request]
    makes the request from its ID, its deadline and the budget. The thread may
    already have the requests [others] open. *)
Definition begin (others : list N) (cf : RvConfig) (request : N -> N -> Budget -> R) : DM W Ticket :=
  let! now := now_of others in
  let request_deadline := default now (checked_instant_add now (cf_request_timeout cf)) in
  let! deadline := sget (fun '(b, _) => match deadline b with
                                        | Some d => N.min request_deadline d
                                        | None => request_deadline
                                        end) in
  let! id := atomically others rv_fetch in
  let! k := atomically (id :: others) (rv_insert id) in
  let! alive := atomically (id :: others) (rv_live id k) in
  if negb alive then
    let! _ := withdraw others id k in
    sthrow (cf_down cf)
  else
    let! r := sget (fun '(b, _) => request id deadline b) in
    let! sent := send_request others id r in
    match sent with
    | Err e =>
        let! _ := withdraw others id k in
        sthrow e
    | Ok _ => sret (mkTicket id k deadline)
    end.

(** [reply.recv_timeout(slice)]: a timeout means that the slice has passed. *)
Definition recv_timeout (others : list N) (id : N) (k : nat) (slice : N) : DM W Received :=
  atomically (id :: others) (fun s =>
    let '(r, s) := rv_receive id k s in
    (r, match r with
        | TimedOut => with_clock (rv_clock s + slice) (rv_steps s) s
        | _ => s
        end)).

(** The result of a call, errors included. *)
Definition catch {A} (m : DM W A) : DM W (Res A) := fun w => let '(r, w) := m w in (Ok r, w).

(** The wait loop of [send_and_wait], and [wait] of [packfetch.rs], which does
    not consult the budget again when the job's own deadline has passed. *)
Fixpoint wait_loop (others : list N) (cf : RvConfig) (recheck : bool) (fuel : nat) (t : Ticket) : DM W P :=
  match fuel with
  | O => sthrow spin_error
  | S fuel =>
      let! checked := catch (on_budget check) in
      match checked with
      | Err e =>
          let! _ := withdraw others (tk_id t) (tk_slot t) in
          sthrow e
      | Ok _ =>
          let! now := now_of (tk_id t :: others) in
          if tk_deadline t <=? now then
            let! _ := withdraw others (tk_id t) (tk_slot t) in
            let! job_expired := sget (fun '(b, _) => deadline_expired now b) in
            if job_expired then
              if recheck then
                let! _ := on_budget check in
                sthrow timeout_error
              else sthrow timeout_error
            else sthrow (cf_timeout cf)
          else
            let slice := N.min WAIT_SLICE (tk_deadline t - now) in
            let! r := recv_timeout others (tk_id t) (tk_slot t) slice in
            match r with
            | Got m => slift m
            | TimedOut => wait_loop others cf recheck fuel t
            | Disconnected =>
                let! _ := withdraw others (tk_id t) (tk_slot t) in
                sthrow (cf_down cf)
            end
      end
  end.

(** Enough iterations for a request timeout. *)
Definition wait_fuel (cf : RvConfig) : nat := N.to_nat (cf_request_timeout cf / WAIT_SLICE + 2).

(** [send_and_wait]. *)
Definition send_and_wait (cf : RvConfig) (request : N -> N -> Budget -> R) : DM W P :=
  let! _ := on_budget charge_provider_request in
  let! t := begin [] cf request in
  wait_loop [] cf true (wait_fuel cf) t.

(** [ensure_alive] outside a request. *)
Definition ensure_alive (cf : RvConfig) : DM W unit :=
  let! alive := atomically [] (fun s => (rv_alive s, s)) in
  if alive then sret tt else sthrow (cf_down cf).

End Waiting.

(* ------------------------------------------------------------------ *)
(** ** Every interleaving

    While fewer than 2^64 requests were made, IDs are unique, and the protocol
    keeps the following invariant whatever the threads do. *)

(** The cases of an action other than a drain. *)
Ltac split_act :=
  repeat first
    [ progress unfold do_act, rv_fetch, rv_insert, rv_live, rv_receive, rv_recv, rv_withdraw, rv_send,
        table_insert, table_take, table_cancel, drop_sender, drop_receiver
    | case_match | progress simplify_eq/= ].

Section Invariant.
Context {P R : Type}.
Implicit Types (s : Rv P R) (id : N) (k : nat) (m : result Error P).

(** The request [id] waits, or is about to, on the channel [k]. *)
Definition holds s id k : Prop :=
  rv_phases s !! id = Some (Inserted k) \/ rv_phases s !! id = Some (Waiting k).

(** Where the answer of a waiting request is: the sender is in the table, or
    was taken and is about to send, or has sent. *)
Definition answer_state s id k (sl : Slot P) : Prop :=
  (rv_pending s !! id = Some k /\ k ∉ (rv_flight s).*1 /\ sl_buffer sl = None /\ sl_sender sl = true) \/
  (rv_pending s !! id = None /\ sl_buffer sl = None /\ sl_sender sl = true /\
   exists m, (k, m) ∈ rv_flight s /\ (id, m) ∈ rv_taken s) \/
  (rv_pending s !! id = None /\ k ∉ (rv_flight s).*1 /\
   exists m, sl_buffer sl = Some m /\ (id, m) ∈ rv_taken s).

Record rv_inv s : Prop := {
  inv_next : rv_next_id s = rv_fetches s + 1;
  inv_ids id ph : rv_phases s !! id = Some ph -> id <= rv_fetches s;
  inv_held id k : holds s id k ->
    exists sl, rv_slots s !! k = Some sl /\ sl_receiver sl = true /\ answer_state s id k sl;
  inv_inj id id' k : holds s id k -> holds s id' k -> id = id';
  inv_pending id k : rv_pending s !! id = Some k -> holds s id k;
  inv_flight : NoDup (rv_flight s).*1;
  inv_slot k m : (k, m) ∈ rv_flight s -> (k < length (rv_slots s))%nat;
  inv_taken : NoDup (rv_taken s).*1;
  inv_gone id : id ∈ (rv_taken s).*1 ->
    rv_pending s !! id = None /\ exists ph, rv_phases s !! id = Some ph /\ ph <> Fetched;
  inv_received : NoDup (rv_received s).*1;
  inv_came id m : (id, m) ∈ rv_received s -> (id, m) ∈ rv_taken s /\ rv_phases s !! id = Some Returned;
  inv_drained : rv_drained s = true -> rv_alive s = false /\
    forall id k, rv_phases s !! id = Some (Waiting k) -> rv_pending s !! id = None
}.

Lemma rv_inv_new : rv_inv (@Rv_new P R).
Proof.
  split; unfold holds; simpl; try constructor; try done; set_solver.
Qed.

Lemma holds_known s id k : rv_inv s -> holds s id k -> (k < length (rv_slots s))%nat.
Proof. intros Hs Hk. destruct (inv_held _ Hs _ _ Hk) as (sl & Hl & _). by apply lookup_lt_Some in Hl. Qed.

Lemma holds_insert s id ph id' k :
  holds (with_phase id ph s) id' k <->
  (id' = id /\ (ph = Inserted k \/ ph = Waiting k)) \/ (id' <> id /\ holds s id' k).
Proof. unfold holds. simpl. rewrite lookup_insert. case_decide; naive_solver. Qed.

Lemma fetch_inv s : rv_inv s -> rv_fetches s + 1 < u64_max -> rv_inv (rv_fetch s).2.
Proof.
  intros Hs Hf. assert (rv_phases s !! rv_next_id s = None) as Hn.
  { destruct (rv_phases s !! rv_next_id s) eqn:E; [|done]. apply (inv_ids _ Hs) in E.
    rewrite (inv_next _ Hs) in E. lia. }
  assert (forall id k, holds (rv_fetch s).2 id k -> holds s id k) as Hh.
  { intros id k. unfold rv_fetch. simpl. rewrite holds_insert. naive_solver. }
  destruct Hs. split; try done.
  - simpl. rewrite inv_next0. unfold wadd64. rewrite N.mod_small; [done|]. unfold u64_max, u64_mod in *. lia.
  - intros id ph. simpl. rewrite lookup_insert. case_decide; [intros _; lia|].
    intros E%inv_ids0. lia.
  - intros id k Hk. apply Hh in Hk. apply inv_held0 in Hk as (sl & Hl & Hr & Ha). eauto.
  - eauto.
  - intros id k Hk. unfold rv_fetch. simpl. apply holds_insert. right. simpl in Hk.
    apply inv_pending0 in Hk. split; [|done]. intros ->. unfold holds in Hk. naive_solver.
  - intros id Hid. simpl in *. destruct (inv_gone0 id Hid) as (? & ph & Hph & ?). split; [done|].
    exists ph. rewrite lookup_insert_ne; [done|]. naive_solver.
  - intros id m Hid. simpl in *. destruct (inv_came0 id m Hid) as [? Hph]. split; [done|].
    rewrite lookup_insert_ne; [done|]. naive_solver.
  - simpl. intros Hd. destruct (inv_drained0 Hd) as [? Hw]. split; [done|]. intros id k.
    rewrite lookup_insert. case_decide; [done|]. apply Hw.
Qed.

(** The channels of the others are untouched. *)
Lemma answer_frame s s' id k sl :
  rv_pending s' !! id = rv_pending s !! id -> rv_flight s' = rv_flight s -> rv_taken s' = rv_taken s ->
  answer_state s id k sl -> answer_state s' id k sl.
Proof. unfold answer_state. by intros -> -> ->. Qed.

Lemma insert_inv s id : rv_inv s -> rv_phases s !! id = Some Fetched -> rv_inv (rv_insert id s).2.
Proof.
  intros Hs Hph. assert (rv_pending s !! id = None) as Hn.
  { destruct (rv_pending s !! id) as [k|] eqn:E; [|done]. apply (inv_pending _ Hs) in E.
    unfold holds in E. naive_solver. }
  pose proof (holds_known s) as Hlt. specialize (fun id k => Hlt id k Hs).
  unfold rv_insert, table_insert. simpl. rewrite Hn. set (n := length (rv_slots s)) in *.
  destruct Hs. split; simpl; try done.
  - intros i ph. rewrite lookup_insert. case_decide; [subst; eauto|eauto].
  - intros i k. rewrite holds_insert. intros [[-> Hk]|[Hne Hk]].
    + assert (k = n) as -> by naive_solver. exists (mkSlot None true true).
      split_and!; [|done|].
      * rewrite lookup_app_r; [|done]. unfold n. by rewrite Nat.sub_diag.
      * left. simpl. rewrite lookup_insert_eq. split_and!; [done| |done|done].
        intros ([k' m] & Hx & Hm)%list_elem_of_fmap. apply inv_slot0 in Hm. fold n in Hm. simpl in Hx. lia.
    + destruct (inv_held0 i k Hk) as (sl & Hl & Hr & Ha). exists sl. split_and!; [|done|].
      * rewrite lookup_app_l; [done|]. by apply lookup_lt_Some in Hl.
      * revert Ha. apply answer_frame; [|done..]. simpl. by rewrite lookup_insert_ne.
  - intros i i' k. rewrite !holds_insert. intros Hk Hk'.
    assert (forall j, holds s j n -> False) as Hfresh by (intros j Hj; by apply Hlt, Nat.lt_irrefl in Hj).
    naive_solver.
  - intros i k. rewrite lookup_insert, holds_insert. case_decide; naive_solver.
  - intros k m Hm. apply inv_slot0 in Hm. rewrite length_app. lia.
  - intros i Hi. destruct (inv_gone0 i Hi) as (Hp & ph & Hph' & Hf).
    assert (i <> id) as Hne by naive_solver. rewrite !lookup_insert_ne by done. eauto.
  - intros i m Hi. destruct (inv_came0 i m Hi) as [Ht Hph']. split; [done|].
    rewrite lookup_insert_ne; [done|]. naive_solver.
  - intros Hd. destruct (inv_drained0 Hd) as [Ha Hw]. split; [done|]. intros i k. rewrite !lookup_insert.
    case_decide; [done|]. apply Hw.
Qed.

Lemma live_inv s id k : rv_inv s -> rv_phases s !! id = Some (Inserted k) -> rv_inv (rv_live id k s).2.
Proof.
  intros Hs Hph. unfold rv_live. destruct (rv_alive s) eqn:Ha; simpl; [|done].
  assert (forall i k', holds (with_phase id (Waiting k) s) i k' <-> holds s i k') as Hh.
  { intros i k'. rewrite holds_insert. unfold holds. destruct (decide (i = id)); naive_solver. }
  destruct Hs. split; simpl; try done.
  - intros i ph. rewrite lookup_insert. case_decide; [subst; eauto|eauto].
  - intros i k'. rewrite Hh. apply inv_held0.
  - intros i i' k'. rewrite !Hh. apply inv_inj0.
  - intros i k'. rewrite Hh. apply inv_pending0.
  - intros i Hi. destruct (inv_gone0 i Hi) as (Hp & ph & Hph' & Hf). split; [done|].
    rewrite lookup_insert. case_decide; [by eexists|eauto].
  - intros i m Hi. destruct (inv_came0 i m Hi) as [Ht Hph']. split; [done|].
    rewrite lookup_insert_ne; [done|]. naive_solver.
  - intros Hd. destruct (inv_drained0 Hd). congruence.
Qed.

Lemma take_inv s id m : rv_inv s -> rv_inv (table_take id m s).
Proof.
  intros Hs. unfold table_take. destruct (rv_pending s !! id) as [k|] eqn:Hp; [|done].
  pose proof (inv_pending _ Hs _ _ Hp) as Hk. pose proof (inv_held _ Hs _ _ Hk) as (sl & Hl & Hr & Hst).
  assert (k ∉ (rv_flight s).*1) as Hfl by (unfold answer_state in Hst; naive_solver).
  assert (id ∉ (rv_taken s).*1) as Hnt by (intros Ht; apply (inv_gone _ Hs) in Ht; naive_solver).
  destruct Hs. split; simpl; try done.
  - intros i k' Hk'. destruct (inv_held0 i k' Hk') as (sl' & Hl' & Hr' & Ha). exists sl'. split_and!; [done..|].
    unfold answer_state in *. simpl. destruct (decide (i = id)) as [->|Hne].
    + rewrite lookup_delete_eq. right. left. destruct Ha as [(Hp' & _ & Hb & Hsd)|Ha]; [|naive_solver].
      assert (k' = k) as -> by congruence. split_and!; [done..|]. exists m. set_solver.
    + rewrite lookup_delete_ne by done.
      assert (k' <> k) as Hkk by (intros ->; apply Hne; eauto).
      rewrite fmap_app, not_elem_of_app. simpl.
      destruct Ha as [Ha|[(? & ? & ? & mm & ? & ?)|(? & ? & mm & ? & ?)]].
      * left. set_solver.
      * right. left. split_and!; [done..|]. exists mm. set_solver.
      * right. right. split_and!; [done|set_solver..|]. exists mm. set_solver.
  - intros i k' Hd. apply lookup_delete_Some in Hd as [_ Hd]. by apply inv_pending0.
  - rewrite fmap_app. apply NoDup_app. split_and!; [done|set_solver|by apply NoDup_singleton].
  - intros k' m' Hm'. apply elem_of_app in Hm' as [Hm'|Hm']; [eauto|].
    assert (k' = k) as -> by set_solver. by apply lookup_lt_Some in Hl.
  - rewrite fmap_app. apply NoDup_app. split_and!; [done|set_solver|by apply NoDup_singleton].
  - intros i. rewrite fmap_app, elem_of_app. intros [Hi|Hi].
    + destruct (inv_gone0 i Hi) as (Hpi & ph). split; [|done]. rewrite lookup_delete_ne by naive_solver. done.
    + assert (i = id) as -> by set_solver. split; [by apply lookup_delete_eq|].
      unfold holds in Hk. destruct Hk; by eexists.
  - intros i m' Hi. destruct (inv_came0 i m' Hi). split; [set_solver|done].
  - intros Hd. destruct (inv_drained0 Hd) as [Ha Hw]. split; [done|]. intros i k' Hi.
    apply lookup_delete_None. right. eauto.
Qed.


(** A request returns: its channel is no longer held, and changes to that
    channel and to its own table entry disturb nobody. *)
Lemma return_inv s t id k p sls rcv :
  rv_inv s -> holds s id k ->
  (forall i, i <> id -> p !! i = rv_pending s !! i) -> p !! id = None ->
  (forall k', k' <> k -> sls !! k' = rv_slots s !! k') -> length sls = length (rv_slots s) ->
  (rcv = rv_received s \/ exists m, rcv = rv_received s ++ [(id, m)] /\ (id, m) ∈ rv_taken s) ->
  t = with_phase id Returned (with_received rcv (with_slots sls (with_pending p s))) -> rv_inv t.
Proof.
  intros Hs Hk Hp Hn Hsl Hlen Hrcv ->. destruct Hs. split; simpl; try done.
  - intros i ph. rewrite lookup_insert. case_decide; [|eauto]. subst. unfold holds in Hk. naive_solver.
  - intros i k'. rewrite holds_insert. intros [[_ [?|?]]|[Hne Hk']]; [done..|].
    destruct (inv_held0 i k' Hk') as (sl & Hl & Hr & Ha). exists sl. split_and!; [|done|].
    + rewrite Hsl; [done|]. intros ->. apply Hne. eauto.
    + revert Ha. apply answer_frame; [|done..]. simpl. by rewrite Hp.
  - intros i i' k'. rewrite !holds_insert. naive_solver.
  - intros i k'. rewrite holds_insert. destruct (decide (i = id)) as [->|Hne]; [by rewrite Hn|].
    rewrite Hp by done. naive_solver.
  - intros k' m Hm. simpl in *. rewrite Hlen. eauto.
  - intros i Hi. destruct (inv_gone0 i Hi) as (Hpi & ph & Hph & Hf). rewrite lookup_insert.
    destruct (decide (i = id)) as [->|Hne]; [split; [done|]|rewrite Hp by done; split; [done|]];
      case_decide; try done; eauto.
  - destruct Hrcv as [->|(m & -> & _)]; [done|]. rewrite fmap_app. apply NoDup_app.
    split_and!; [done| |by apply NoDup_singleton]. intros i ([i' m'] & -> & Hi)%list_elem_of_fmap Hid.
    assert (i' = id) as -> by set_solver. apply inv_came0 in Hi as [_ Hi]. unfold holds in Hk. naive_solver.
  - intros i m Hi. assert ((i, m) ∈ rv_taken s /\ (i = id \/ rv_phases s !! i = Some Returned)) as [Ht Hi'].
    { destruct Hrcv as [->|(m' & -> & Hm')]; [naive_solver|].
      apply elem_of_app in Hi as [Hi|Hi]; [naive_solver|]. set_solver. }
    split; [done|]. rewrite lookup_insert. case_decide; naive_solver.
  - intros Hd. destruct (inv_drained0 Hd) as [Ha Hw]. split; [done|]. intros i k'. rewrite lookup_insert.
    case_decide; [done|]. rewrite Hp by done. apply Hw.
Qed.

Lemma withdraw_inv s id k : rv_inv s -> holds s id k -> rv_inv (rv_withdraw id k s).
Proof.
  intros Hs Hk. destruct (inv_held _ Hs _ _ Hk) as (sl & Hl & Hr & Ha).
  assert (rv_pending s !! id = Some k \/ rv_pending s !! id = None) as Hp
    by (unfold answer_state in Ha; naive_solver).
  pose proof (lookup_lt_Some _ _ _ Hl) as Hlt.
  unfold rv_withdraw, table_cancel. destruct Hp as [Hp|Hp]; rewrite Hp; cbn [snd].
  - unfold drop_sender, drop_receiver. cbn [rv_slots with_pending]. rewrite Hl. cbn [rv_slots with_slots].
    rewrite list_lookup_insert_eq by done. cbn [sl_buffer sl_sender sl_receiver].
    rewrite list_insert_insert_eq.
    apply (return_inv s _ id k (delete id (rv_pending s)) (<[k := mkSlot (sl_buffer sl) false false]> (rv_slots s))
      (rv_received s)); [done..| | | | | |by destruct s].
    + intros i Hi. cbn. by rewrite lookup_delete_ne.
    + by apply lookup_delete_eq.
    + intros k' Hk'. cbn. by rewrite list_lookup_insert_ne.
    + by rewrite length_insert.
    + by left.
  - unfold drop_receiver. rewrite Hl.
    apply (return_inv s _ id k (rv_pending s) (<[k := mkSlot (sl_buffer sl) (sl_sender sl) false]> (rv_slots s))
      (rv_received s)); [done..| | | |by destruct s].
    + intros k' Hk'. cbn. by rewrite list_lookup_insert_ne.
    + by rewrite length_insert.
    + by left.
Qed.

Lemma receive_inv s id k : rv_inv s -> rv_phases s !! id = Some (Waiting k) -> rv_inv (rv_receive id k s).2.
Proof.
  intros Hs Hph. assert (holds s id k) as Hk by (by right).
  destruct (inv_held _ Hs _ _ Hk) as (sl & Hl & Hr & Ha). unfold rv_receive, rv_recv. rewrite Hl.
  destruct (sl_buffer sl) as [m|] eqn:Hb; [|by destruct (sl_sender sl)].
  assert (rv_pending s !! id = None /\ (id, m) ∈ rv_taken s) as [Hp Ht].
  { unfold answer_state in Ha. rewrite Hb in Ha. naive_solver. }
  pose proof (lookup_lt_Some _ _ _ Hl) as Hlt. cbn [snd]. unfold drop_receiver. cbn [rv_slots with_received with_slots].
  rewrite list_lookup_insert_eq by done. cbn [sl_buffer sl_sender sl_receiver].
  rewrite list_insert_insert_eq.
  apply (return_inv s _ id k (rv_pending s) (<[k := mkSlot None (sl_sender sl) false]> (rv_slots s))
    (rv_received s ++ [(id, m)])); [done..| | | |by destruct s].
  - intros k' Hk'. cbn. by rewrite list_lookup_insert_ne.
  - by rewrite length_insert.
  - right. by eexists.
Qed.

(** Splitting the messages in flight. *)
Lemma flight_split s i k m :
  rv_flight s !! i = Some (k, m) ->
  exists l1 l2, rv_flight s = l1 ++ (k, m) :: l2 /\ take i (rv_flight s) ++ drop (S i) (rv_flight s) = l1 ++ l2.
Proof.
  intros Hi. exists (take i (rv_flight s)), (drop (S i) (rv_flight s)). split; [|done].
  by rewrite <- (drop_S _ _ _ Hi), take_drop.
Qed.

Lemma send_inv s i : rv_inv s -> rv_inv (rv_send i s).2.
Proof.
  intros Hs. unfold rv_send. destruct (rv_flight s !! i) as [[k m]|] eqn:Hi; [|done].
  destruct (flight_split s i k m Hi) as (l1 & l2 & Hf & ->). cbn [rv_slots with_flight].
  assert ((k, m) ∈ rv_flight s) as Hin by (rewrite Hf; set_solver).
  assert (k ∈ (rv_flight s).*1) as Hkf by (apply list_elem_of_fmap; by exists (k, m)).
  destruct (rv_slots s !! k) as [sl|] eqn:Hl.
  2: { apply (inv_slot _ Hs) in Hin. apply lookup_ge_None in Hl. lia. }
  pose proof (inv_flight _ Hs) as Hnd. rewrite Hf, fmap_app, fmap_cons in Hnd. simpl in Hnd.
  assert (k ∉ (l1 ++ l2).*1) as Hk.
  { rewrite fmap_app. apply NoDup_app in Hnd as (_ & Hnd & Hnd2). apply NoDup_cons in Hnd2 as [Hk2 _]. set_solver. }
  destruct Hs. split; simpl; try done.
  - intros j k' Hk'. destruct (inv_held0 j k' Hk') as (sl' & Hl' & Hr & Ha).
    destruct (decide (k' = k)) as [->|Hne].
    + assert (sl' = sl) as -> by congruence. rewrite list_lookup_insert_eq by (by apply lookup_lt_Some in Hl).
      eexists. split; [done|]. split; [done|]. rewrite Hr. unfold answer_state in *. simpl.
      right. right.
      destruct Ha as [(_ & Ha & _)|[(? & ? & ? & m' & Hm' & Ht)|(_ & Ha & _)]];
        [by destruct Ha| |by destruct Ha].
      assert (m' = m) as ->.
      { rewrite Hf in Hm'. apply elem_of_app in Hm' as [Hm'|Hm'%elem_of_cons].
        - exfalso. apply Hk. rewrite fmap_app, elem_of_app. left. apply list_elem_of_fmap. by exists (k, m').
        - destruct Hm' as [?|Hm']; [congruence|]. exfalso. apply Hk. rewrite fmap_app, elem_of_app. right.
          apply list_elem_of_fmap. by exists (k, m'). }
      split_and!; [done|done|]. by exists m.
    + exists sl'. rewrite list_lookup_insert_ne by congruence. split_and!; [done..|].
      unfold answer_state in *. simpl.
      assert (k' ∈ (rv_flight s).*1 <-> k' ∈ (l1 ++ l2).*1) as Hkk by (rewrite Hf, !fmap_app, fmap_cons; set_solver).
      rewrite <- Hkk. destruct Ha as [Ha|[(? & ? & ? & m' & Hm' & Ht)|Ha]]; [by left| |by right; right].
      right. left. split_and!; [done..|]. exists m'. split; [|done]. rewrite Hf in Hm'. set_solver.
  - rewrite fmap_app in *. apply NoDup_app in Hnd as (H1 & H2 & H3). apply NoDup_cons in H3 as [_ H3].
    apply NoDup_app. set_solver.
  - intros k' m' Hm'. rewrite length_insert. apply (inv_slot0 k' m'). rewrite Hf. set_solver.
Qed.

Lemma takes_inv s e ids : rv_inv s -> rv_inv (foldl (fun s id => table_take id (Err e) s) s ids).
Proof. revert s. induction ids as [|id ids IH]; intros s Hs; simpl; [done|]. by apply IH, take_inv. Qed.

Lemma take_pending s id m id' :
  rv_pending (table_take id m s) !! id' = if decide (id' = id) then None else rv_pending s !! id'.
Proof.
  unfold table_take. destruct (rv_pending s !! id) eqn:E; simpl.
  - rewrite lookup_delete. repeat case_decide; congruence.
  - case_decide; congruence.
Qed.

Lemma takes_pending s e ids id' :
  rv_pending (foldl (fun s id => table_take id (Err e) s) s ids) !! id' =
  if decide (id' ∈ ids) then None else rv_pending s !! id'.
Proof.
  revert s. induction ids as [|id ids IH]; intros s; simpl; [done|]. rewrite IH, take_pending.
  repeat case_decide; set_solver.
Qed.

Lemma drain_pending (s : Rv P R) e : rv_pending (table_drain e s) = ∅.
Proof.
  apply map_empty. intros id. unfold table_drain. rewrite takes_pending. case_decide as Hid; [done|].
  destruct (rv_pending s !! id) as [k|] eqn:E; [|done]. exfalso. apply Hid.
  apply list_elem_of_fmap. exists (id, k). split; [done|]. by apply elem_of_map_to_list.
Qed.

(** The fetch counter only grows; only [AFetch] moves it. *)
Lemma take_fetches s id m : rv_fetches (table_take id m s) = rv_fetches s.
Proof. unfold table_take. by case_match. Qed.
Lemma takes_fetches (s : Rv P R) e ids :
  rv_fetches (foldl (fun s id => table_take id (Err e) s) s ids) = rv_fetches s.
Proof. revert s. induction ids as [|id ids IH]; intros s; simpl; [done|]. by rewrite IH, take_fetches. Qed.

Lemma do_act_inv a s : rv_inv s -> rv_fetches (do_act a s) < u64_max -> rv_inv (do_act a s).
Proof.
  intros Hs Hf. destruct a; simpl in *.
  - by apply fetch_inv.
  - case_match; [case_match|]; try done. by apply insert_inv.
  - case_match; [case_match|]; try done. by apply live_inv.
  - case_match; [case_match|]; try done. by apply receive_inv.
  - case_match; [case_match|]; try done; apply withdraw_inv; unfold holds; auto.
  - by apply take_inv.
  - by apply send_inv.
  - destruct Hs. split; simpl; try done. intros Hd. split; [done|]. by apply inv_drained0.
  - pose proof (drain_pending s e) as Hp. apply (takes_inv s e) with (ids := (map_to_list (rv_pending s)).*1) in Hs.
    fold (table_drain e s) in Hs. destruct Hs. split; simpl; try done.
    intros Hd. apply orb_true_iff in Hd. split.
    + destruct Hd as [Hd|Hd]; [by destruct (inv_drained0 Hd)|by apply negb_true_iff].
    + intros id k _. by rewrite Hp.
Qed.

Lemma do_act_fetches a s : rv_fetches s <= rv_fetches (do_act a s).
Proof.
  destruct a; try (split_act; lia).
  simpl. unfold table_drain. rewrite takes_fetches. lia.
Qed.
Lemma do_acts_fetches l s : rv_fetches s <= rv_fetches (do_acts l s).
Proof.
  revert s. induction l as [|a l IH]; intros s; [done|].
  change (do_acts (a :: l) s) with (do_acts l (do_act a s)). etrans; [apply do_act_fetches|apply IH].
Qed.

Lemma do_acts_inv l s : rv_inv s -> rv_fetches (do_acts l s) < u64_max -> rv_inv (do_acts l s).
Proof.
  revert s. induction l as [|a l IH]; intros s Hs Hf; [done|].
  change (do_acts (a :: l) s) with (do_acts l (do_act a s)) in *. apply IH; [|done].
  apply do_act_inv; [done|]. eapply N.le_lt_trans; [apply do_acts_fetches|done].
Qed.

Lemma takes_frame (s : Rv P R) e ids :
  let s' := foldl (fun s id => table_take id (Err e) s) s ids in
  rv_alive s' = rv_alive s /\ rv_drained s' = rv_drained s /\ rv_phases s' = rv_phases s /\
  rv_received s' = rv_received s /\ rv_clock s' = rv_clock s /\ rv_steps s' = rv_steps s /\ rv_sent s' = rv_sent s.
Proof.
  revert s. induction ids as [|id ids IH]; intros s; simpl; [done|].
  destruct (IH (table_take id (Err e) s)) as (-> & -> & -> & -> & -> & -> & ->).
  unfold table_take. by case_match.
Qed.

(** Death is final. *)
Lemma do_act_death a s :
  (rv_alive s = false -> rv_alive (do_act a s) = false) /\
  (rv_drained s = true -> rv_drained (do_act a s) = true).
Proof.
  destruct a; try (by split_act).
  simpl. destruct (takes_frame s e (map_to_list (rv_pending s)).*1) as (Ha & Hd & _).
  unfold table_drain. rewrite Ha, Hd. split; [done|]. by intros ->.
Qed.
Lemma do_acts_death l s :
  (rv_alive s = false -> rv_alive (do_acts l s) = false) /\
  (rv_drained s = true -> rv_drained (do_acts l s) = true).
Proof.
  revert s. induction l as [|a l IH]; intros s; [done|].
  change (do_acts (a :: l) s) with (do_acts l (do_act a s)).
  destruct (do_act_death a s), (IH (do_act a s)). tauto.
Qed.

Lemma do_acts_app l l' s : do_acts (l ++ l') s = do_acts l' (do_acts l s).
Proof. apply foldl_app. Qed.

Lemma drain_flags s e : rv_alive s = false -> rv_drained (do_act (ADrain e) s) = true.
Proof.
  intros Ha. simpl. destruct (takes_frame s e (map_to_list (rv_pending s)).*1) as (Ha' & _).
  unfold table_drain. rewrite Ha', Ha. apply orb_true_r.
Qed.

(** C7. At most one answer per request, whatever the interleaving of waiters,
    replies, cancellations and the report of the provider's death: no request
    is answered twice, none receives twice, what a waiter receives is the one
    answer that was taken for its ID, and a sender in the table belongs to a
    request that is still waiting, so returned requests leave nothing behind. *)
Theorem rendezvous_answers_once l :
  let s := do_acts l (@Rv_new P R) in
  rv_fetches s < u64_max ->
  NoDup (rv_taken s).*1 /\ NoDup (rv_received s).*1 /\
  (forall id m, (id, m) ∈ rv_received s -> (id, m) ∈ rv_taken s /\ rv_phases s !! id = Some Returned) /\
  (forall id k, rv_pending s !! id = Some k -> holds s id k /\ id ∉ (rv_taken s).*1).
Proof.
  intros s Hf. assert (rv_inv s) as Hs by (apply do_acts_inv; [apply rv_inv_new|done]).
  split_and!; [apply Hs|apply Hs|apply Hs|]. intros id k Hk. split; [by apply Hs|].
  intros Ht. apply (inv_gone _ Hs) in Ht. naive_solver.
Qed.

(** C8. The death of a provider wakes every waiter: once [fail_all] has set
    the flag and drained the table and the drained senders have sent, every
    request past its liveness check finds a message in its channel, however
    its insertion raced with the death, and every later liveness check fails.
    This is what inserting before looking at the flag is for. *)
Theorem provider_death_wakes_every_waiter l1 l2 e l3 :
  let s := do_acts (l1 ++ ADown :: l2 ++ ADrain e :: l3) (@Rv_new P R) in
  rv_fetches s < u64_max -> rv_flight s = [] ->
  (forall id k, rv_phases s !! id = Some (Waiting k) ->
     exists m, (rv_recv id k s).1 = Got m /\ (id, m) ∈ rv_taken s) /\
  (forall id k, (rv_live id k s).1 = false).
Proof.
  intros s Hf Hfl. assert (rv_inv s) as Hs by (apply do_acts_inv; [apply rv_inv_new|done]).
  assert (rv_drained s = true) as Hd.
  { unfold s. rewrite do_acts_app. 
    rewrite (app_comm_cons l2), do_acts_app. apply (do_acts_death l3 (do_act (ADrain e) (do_acts (ADown :: l2) (do_acts l1 Rv_new)))).
    by apply drain_flags, (do_acts_death l2). }
  destruct (inv_drained _ Hs Hd) as [Ha Hw]. split; [|done].
  intros id k Hph. destruct (inv_held _ Hs id k) as (sl & Hl & _ & Hst); [by right|].
  unfold answer_state in Hst. rewrite (Hw _ _ Hph), Hfl in Hst.
  destruct Hst as [(? & _)|[(_ & _ & _ & m & Hm & _)|(_ & _ & m & Hb & Ht)]]; [done|set_solver|].
  exists m. split; [|done]. unfold rv_recv. by rewrite Hl, Hb.
Qed.

End Invariant.

(* ------------------------------------------------------------------ *)
(** ** One waiting thread among its peers *)

Section Waiter.
Context {P R C : Type} `{Env, !Peers P R}.
Implicit Types (s : Rv P R) (id : N) (k : nat).

(** The invariant, and the phases of the thread's own requests: [id], and the
    rest that it made, as long as IDs did not wrap around. Of the rest, those
    that did not return are the [others] it has open. *)
Context (rest : list (N * Phase)) (others : list N).
Hypothesis covered : forall id ph, (id, ph) ∈ rest -> id ∈ others \/ ph = Returned.

Definition own_rest s : Prop := Forall (fun x => rv_phases s !! x.1 = Some x.2) rest.
Definition own_inv id (ph : Phase) s : Prop :=
  rv_fetches s < u64_max -> rv_inv s /\ rv_phases s !! id = Some ph /\ id ∉ rest.*1 /\ own_rest s.
Definition safe_with s : Prop := rv_fetches s < u64_max -> rv_inv s /\ own_rest s.

Lemma own_safe id ph s : own_inv id ph s -> safe_with s.
Proof. intros Hs Hf. by destruct (Hs Hf) as (? & _ & _ & ?). Qed.

(** The peers do not touch the phase of a request that is not theirs, and
    nobody that of a request that returned. *)
Lemma do_act_foreign a s id ph :
  rv_inv s -> actor a <> Some id \/ ph = Returned -> rv_phases s !! id = Some ph -> rv_phases (do_act a s) !! id = Some ph.
Proof.
  intros Hs Ha Hph. pose proof (inv_ids _ Hs _ _ Hph) as Hid. pose proof (inv_next _ Hs) as Hn.
  destruct a; simpl in Ha.
  1: { unfold do_act, rv_fetch. simpl. rewrite lookup_insert_ne; [done|]. lia. }
  1-4: split_act; (done || (rewrite lookup_insert_ne; [done|naive_solver congruence])).
  - split_act; done.
  - split_act; done.
  - done.
  - simpl. destruct (takes_frame s e (map_to_list (rv_pending s)).*1) as (_ & _ & Hp & _).
    unfold table_drain. by rewrite Hp.
Qed.

(** Requests keep their phases while other threads act. *)
Lemma do_acts_phases l own (phs : list (N * Phase)) s :
  Forall (is_foreign own) l -> (forall id ph, (id, ph) ∈ phs -> id ∈ own \/ ph = Returned) ->
  rv_inv s -> Forall (fun x => rv_phases s !! x.1 = Some x.2) phs -> rv_fetches (do_acts l s) < u64_max ->
  rv_inv (do_acts l s) /\ Forall (fun x => rv_phases (do_acts l s) !! x.1 = Some x.2) phs.
Proof.
  intros Hl Hown. revert s. induction Hl as [|a l Ha Hl IH]; intros s Hs Hphs Hf; [done|].
  change (do_acts (a :: l) s) with (do_acts l (do_act a s)) in *.
  pose proof (do_acts_fetches l (do_act a s)). apply IH; [apply do_act_inv; [done|lia]| |done].
  rewrite Forall_forall in Hphs |- *. intros [id ph] Hin. apply do_act_foreign; [done| |by apply (Hphs (id, ph))].
  destruct (Hown id ph Hin) as [Hin'|]; [left|by right]. intros Hact. unfold is_foreign in Ha. by rewrite Hact in Ha.
Qed.

Lemma interfere_phases own (phs : list (N * Phase)) s :
  (forall id ph, (id, ph) ∈ phs -> id ∈ own \/ ph = Returned) ->
  (rv_fetches s < u64_max -> rv_inv s /\ Forall (fun x => rv_phases s !! x.1 = Some x.2) phs) ->
  rv_fetches (interfere own s) < u64_max ->
  rv_inv (interfere own s) /\ Forall (fun x => rv_phases (interfere own s) !! x.1 = Some x.2) phs.
Proof.
  intros Hown Hs Hf. unfold interfere in *. simpl in Hf.
  destruct (do_acts_phases (filter (is_foreign own) (peer_acts (rv_steps s))) own phs s) as [Hi Hp].
  - apply Forall_forall. by intros a [Ha _]%list_elem_of_filter.
  - done.
  - apply Hs. eapply N.le_lt_trans; [apply do_acts_fetches|done].
  - apply Hs. eapply N.le_lt_trans; [apply do_acts_fetches|done].
  - done.
  - split; [|done]. by destruct Hi.
Qed.

Lemma interfere_own id ph s : own_inv id ph s -> own_inv id ph (interfere (id :: others) s).
Proof.
  intros Hs Hf. assert (id ∉ rest.*1) as Hid.
  { apply Hs. eapply N.le_lt_trans; [|exact Hf]. unfold interfere. simpl. apply do_acts_fetches. }
  destruct (interfere_phases (id :: others) ((id, ph) :: rest) s) as [Hi Hp].
  - intros id' ph' [?|Hin]%elem_of_cons; [set_solver|]. apply covered in Hin. set_solver.
  - intros Hf'. destruct (Hs Hf') as (? & ? & _ & ?). split; [done|]. by constructor.
  - done.
  - apply Forall_cons in Hp as [? ?]. by split_and!.
Qed.

Lemma interfere_safe own s : (forall id, id ∈ others -> id ∈ own) -> safe_with s -> safe_with (interfere own s).
Proof.
  intros Hown Hs Hf. apply interfere_phases; [|done..]. intros id ph Hin. apply covered in Hin. naive_solver.
Qed.

(** A change of one's own phase leaves the others' alone. *)
Lemma rest_insert s id ph : id ∉ rest.*1 -> own_rest s -> own_rest (with_phase id ph s).
Proof.
  intros Hid. unfold own_rest. rewrite !Forall_forall. intros Hr x Hx. simpl.
  rewrite lookup_insert_ne; [by apply Hr|]. intros ->. apply Hid. apply list_elem_of_fmap. by exists x.
Qed.

Lemma interfere_clock own s : rv_clock s <= rv_clock (interfere own s).
Proof. unfold interfere. simpl. lia. Qed.

Lemma interfere_fetches own s : rv_fetches s <= rv_fetches (interfere own s).
Proof. unfold interfere. simpl. apply do_acts_fetches. Qed.
Lemma interfere_dead own s : rv_alive s = false -> rv_alive (interfere own s) = false.
Proof. intros Ha. unfold interfere. simpl. by apply do_acts_death. Qed.

(** Time passes, what was received stays, and nothing is sent meanwhile. *)
Definition advances s s' : Prop :=
  rv_clock s <= rv_clock s' /\ rv_sent s' = rv_sent s /\ rv_received s ⊆ rv_received s' /\
  rv_fetches s <= rv_fetches s'.
#[export] Instance advances_preorder : PreOrder advances.
Proof.
  split; [by intros s|]. intros s1 s2 s3 (Hc & Hs & Hr & Hf) (Hc' & Hs' & Hr' & Hf').
  split_and!; [by etrans|congruence|by etrans|by etrans].
Qed.
Lemma do_act_advances a s : advances s (do_act a s).
Proof.
  destruct a; try (by split_act; split_and!; simpl; try lia; set_solver).
  simpl. destruct (takes_frame s e (map_to_list (rv_pending s)).*1) as (_ & _ & _ & Hr & Hc & _ & Hs).
  unfold advances, table_drain. simpl. by rewrite Hr, Hc, Hs, takes_fetches.
Qed.
Lemma interfere_advances own s : advances s (interfere own s).
Proof.
  unfold interfere. generalize (filter (is_foreign own) (peer_acts (rv_steps s))). intros l.
  enough (advances s (do_acts l s)) as (? & ? & ? & ?) by (split_and!; simpl; [lia|done..]).
  revert s. induction l as [|a l IH]; intros s; [by reflexivity|].
  change (do_acts (a :: l) s) with (do_acts l (do_act a s)). etrans; [apply do_act_advances|apply IH].
Qed.
Lemma withdraw_advances id k s : advances s (rv_withdraw id k s).
Proof. split_act; split_and!; simpl; set_solver. Qed.
Lemma receive_advances id k s : advances s (rv_receive id k s).2.
Proof. split_act; split_and!; simpl; set_solver. Qed.

(** A step of the waiting thread, after its peers acted. *)
Lemma wp_atomically {A} own (f : Rv P R -> A * Rv P R) Q b s (c : C) :
  Q (Ok (f (interfere own s)).1) (b, ((f (interfere own s)).2, c)) -> wp (atomically own f) Q (b, (s, c)).
Proof. unfold wp, atomically. by destruct (f (interfere own s)). Qed.
Lemma wp_on_budget {A} (m : BM A) Q b (w : Rv P R * C) :
  (forall b', (m b).2 = b' -> Q (m b).1 (b', w)) -> wp (on_budget m) Q (b, w).
Proof. unfold wp, on_budget. destruct (m b). simpl. auto. Qed.

Lemma wp_catch_budget {A} (m : BM A) Q b (w : Rv P R * C) :
  Q (Ok (m b).1) ((m b).2, w) -> wp (catch (on_budget m)) Q (b, w).
Proof. unfold wp, catch, on_budget. by destruct (m b). Qed.

Lemma withdraw_own id k ph s :
  own_inv id ph s -> ph = Inserted k \/ ph = Waiting k -> own_inv id Returned (rv_withdraw id k s).
Proof.
  intros Hs Hk Hf. assert (rv_fetches (rv_withdraw id k s) = rv_fetches s) as Hfe by (split_act; done).
  assert (rv_phases (drop_receiver k (table_cancel id s).2) = rv_phases s) as Hph' by (split_act; done).
  rewrite Hfe in Hf. destruct (Hs Hf) as (Hi & Hph & Hid & Hr). split_and!; [| |done|].
  - apply withdraw_inv; [done|]. unfold holds. naive_solver.
  - unfold rv_withdraw. simpl. by rewrite lookup_insert_eq.
  - apply rest_insert; [done|]. unfold own_rest. by rewrite Hph'.
Qed.

(** A receive: a message is the request's answer, and while IDs are unique the
    channel is never found disconnected. *)
Lemma receive_own id k s :
  own_inv id (Waiting k) s ->
  match rv_receive id k s with
  | (Got m, s') => own_inv id Returned s' /\ rv_fetches s' = rv_fetches s /\
                   (id, m) ∈ rv_received s'
  | (TimedOut, s') => s' = s
  | (Disconnected, s') => s' = s /\ u64_max <= rv_fetches s
  end.
Proof.
  intros Hs. pose proof (receive_inv s id k) as Hri. unfold rv_receive, rv_recv in *.
  destruct (rv_slots s !! k) as [sl|] eqn:Hl; [destruct (sl_buffer sl) as [m|] eqn:Hb; [|destruct (sl_sender sl) eqn:Hse]|].
  - split_and!.
    + intros Hf. assert (rv_fetches s < u64_max) as Hf' by (revert Hf; split_act; done).
      destruct (Hs Hf') as (Hi & Hph & Hid & Hr). split_and!; [by apply Hri|simpl; by rewrite lookup_insert_eq|done|].
      apply rest_insert; [done|]. unfold own_rest, drop_receiver. by case_match.
    + split_act; done.
    + split_act; set_solver.
  - done.
  - split; [done|]. destruct (decide (rv_fetches s < u64_max)) as [Hf|]; [|lia]. exfalso.
    destruct (Hs Hf) as (Hi & Hph & _). destruct (inv_held _ Hi id k) as (sl' & Hl' & _ & Ha); [by right|].
    assert (sl' = sl) as -> by congruence. destruct Ha as [(_ & _ & _ & ?)|[(_ & _ & ? & _)|(_ & _ & m & ? & _)]]; congruence.
  - split; [done|]. destruct (decide (rv_fetches s < u64_max)) as [Hf|]; [|lia]. exfalso.
    destruct (Hs Hf) as (Hi & Hph & _). destruct (inv_held _ Hi id k) as (sl' & Hl' & _ & Ha); [by right|]. congruence.
Qed.

(** ** What the messages satisfy

    When every message the peers send satisfies [G], so does every message of
    the state, and the answer a waiter gets. *)
Context (G : result Error P -> Prop).

Definition act_good (a : Act P) : Prop :=
  match a with
  | ATake _ m => G m
  | ADrain e => G (Err e)
  | _ => True
  end.
Definition good_peers : Prop := forall n a, a ∈ peer_acts n -> act_good a.
Definition msgs s : Prop :=
  Forall (fun x => G x.2) (rv_flight s) /\ Forall (fun sl => forall m, sl_buffer sl = Some m -> G m) (rv_slots s).

Lemma slot_msgs s k sl m : msgs s -> rv_slots s !! k = Some sl -> sl_buffer sl = Some m -> G m.
Proof. intros [_ Hs] Hl. rewrite Forall_lookup in Hs. by apply (Hs k). Qed.
Lemma take_msgs id m s : G m -> msgs s -> msgs (table_take id m s).
Proof.
  intros Hm [Hf Hs]. unfold table_take. case_match; [|done]. split; simpl; [|done].
  apply Forall_app. by rewrite Forall_singleton.
Qed.
Lemma drop_sender_msgs k s : msgs s -> msgs (drop_sender k s).
Proof.
  intros Hm. unfold drop_sender. case_match eqn:E; [|done]. split; [apply Hm|]. simpl. apply Forall_insert; [apply Hm|].
  intros m. simpl. by apply (slot_msgs s k).
Qed.
Lemma drop_receiver_msgs k s : msgs s -> msgs (drop_receiver k s).
Proof.
  intros Hm. unfold drop_receiver. case_match eqn:E; [|done]. split; [apply Hm|]. simpl. apply Forall_insert; [apply Hm|].
  intros m. simpl. by apply (slot_msgs s k).
Qed.
Lemma withdraw_msgs id k s : msgs s -> msgs (rv_withdraw id k s).
Proof.
  intros Hm. unfold rv_withdraw, table_cancel. apply (drop_receiver_msgs k).
  case_match; [|done]. by apply (drop_sender_msgs _ (with_pending _ _)).
Qed.
Lemma insert_msgs id s : msgs s -> msgs (rv_insert id s).2.
Proof.
  intros [Hf Hs]. unfold rv_insert, table_insert. simpl.
  assert (forall p, msgs (with_pending p (with_slots (rv_slots s ++ [mkSlot None true true]) s))) as Hi.
  { intros p. split; [done|]. simpl. apply Forall_app. split; [done|]. by apply Forall_singleton. }
  case_match; [|apply Hi]. by apply (drop_sender_msgs _ (with_pending _ _)).
Qed.
Lemma receive_msgs id k s : msgs s -> msgs (rv_receive id k s).2 /\ forall m, (rv_receive id k s).1 = Got m -> G m.
Proof.
  intros Hm. unfold rv_receive, rv_recv. destruct (rv_slots s !! k) as [sl|] eqn:Hl; [|done].
  destruct (sl_buffer sl) as [m|] eqn:Hb; [|by destruct (sl_sender sl)]. cbn [fst snd]. split.
  - apply (drop_receiver_msgs k (with_received _ (with_slots _ s))). split; [apply Hm|]. simpl.
    apply Forall_insert; [apply Hm|done].
  - intros m' [= <-]. by apply (slot_msgs s k sl).
Qed.
Lemma send_msgs i s : msgs s -> msgs (rv_send i s).2.
Proof.
  intros Hm. unfold rv_send. destruct (rv_flight s !! i) as [[k m]|] eqn:Hi; [|done].
  assert (G m) as HG by (destruct Hm as [Hm _]; rewrite Forall_lookup in Hm; by apply (Hm i (k, m))).
  assert (Forall (fun x => G x.2) (take i (rv_flight s) ++ drop (S i) (rv_flight s))) as Hf.
  { destruct Hm as [Hm _]. apply Forall_app. split; [by apply Forall_take|by apply Forall_drop]. }
  cbn [rv_slots with_flight]. destruct (rv_slots s !! k) as [sl|] eqn:Hl; [|split; [done|apply Hm]].
  split; [done|]. simpl. apply Forall_insert; [apply Hm|]. simpl. intros m'.
  destruct (sl_receiver sl); [by intros [= <-]|]. by apply (slot_msgs s k sl).
Qed.

Lemma do_act_msgs a s : act_good a -> msgs s -> msgs (do_act a s).
Proof.
  intros Ha Hm. destruct a; simpl in *.
  - done.
  - case_match; [case_match|]; try done. by apply insert_msgs.
  - case_match; [case_match|]; try done. unfold rv_live. by destruct (rv_alive s).
  - case_match; [case_match|]; try done. by apply receive_msgs.
  - case_match; [case_match|]; try done; by apply withdraw_msgs.
  - by apply take_msgs.
  - by apply send_msgs.
  - done.
  - enough (msgs (table_drain e s)) by done. unfold table_drain. revert Hm. generalize (map_to_list (rv_pending s)).*1.
    intros ids. revert s. induction ids as [|id ids IH]; intros s Hm; simpl; [done|]. by apply IH, take_msgs.
Qed.

Hypothesis peers_are_good : good_peers.

Lemma interfere_msgs own s : msgs s -> msgs (interfere own s).
Proof.
  intros Hm. unfold interfere. enough (msgs (do_acts (filter (is_foreign own) (peer_acts (rv_steps s))) s)) by done.
  assert (Forall act_good (filter (is_foreign own) (peer_acts (rv_steps s)))) as Hl.
  { apply Forall_forall. intros a [_ Ha]%list_elem_of_filter. by eapply peers_are_good. }
  revert s Hm Hl. intros s. generalize (filter (is_foreign own) (peer_acts (rv_steps s))).
  intros l. revert s. induction l as [|a l IH]; intros s Hm Hl; [done|]. apply Forall_cons in Hl as [Ha Hl].
  apply (IH (do_act a s)); [by apply do_act_msgs|done].
Qed.

(** How a wait fails other than by its answer. *)
Definition wait_failure (cf : RvConfig) s (e : Error) : Prop :=
  budget_stop e \/ (e = cf_down cf /\ rv_alive s = false) \/ e = cf_timeout cf \/
  exists n request, transport n request = Err e.

Definition call_failure (cf : RvConfig) (e : Error) : Prop :=
  budget_stop e \/ e = cf_down cf \/ e = cf_timeout cf \/ exists n request, transport n request = Err e.

(** The end of a wait for the request [id]. *)
Definition wait_end (cf : RvConfig) id (r : result Error P) s : Prop :=
  own_inv id Returned s /\ msgs s /\ (G r \/ exists e, r = Err e /\ call_failure cf e) /\
  (rv_fetches s < u64_max -> (id, r) ∈ rv_received s \/ exists e, r = Err e /\ wait_failure cf s e).

Lemma wp_withdraw id k ph (Q : Res unit -> Budget * (Rv P R * C) -> Prop) b s c :
  own_inv id ph s -> msgs s -> ph = Inserted k \/ ph = Waiting k ->
  (forall s', own_inv id Returned s' -> msgs s' -> rv_fetches s <= rv_fetches s' ->
     (rv_alive s = false -> rv_alive s' = false) -> advances s s' -> Q (Ok tt) (b, (s', c))) ->
  wp (withdraw others id k) Q (b, (s, c)).
Proof.
  intros Hs Hm Hk HQ. unfold withdraw. apply wp_atomically. simpl.
  assert (rv_fetches (rv_withdraw id k (interfere (id :: others) s)) = rv_fetches (interfere (id :: others) s) /\
    rv_alive (rv_withdraw id k (interfere (id :: others) s)) = rv_alive (interfere (id :: others) s)) as [Hf Ha].
  { generalize (interfere (id :: others) s). intros t. split; split_act; done. }
  apply HQ.
  - by eapply withdraw_own; [apply interfere_own|].
  - by apply withdraw_msgs, interfere_msgs.
  - rewrite Hf. apply interfere_fetches.
  - rewrite Ha. apply interfere_dead.
  - etrans; [apply interfere_advances|apply withdraw_advances].
Qed.

(** Looking at the budget. *)
Lemma budget_check_stop b e : (check b).1 = Err e -> budget_stop e.
Proof. unfold budget_stop. budget_cases; naive_solver. Qed.

(** A failure ends a wait. *)
Lemma wait_end_fails cf id e s :
  own_inv id Returned s -> msgs s -> wait_failure cf s e -> wait_end cf id (Err e) s.
Proof.
  intros Hs Hm He. split; [done|]. split; [done|]. unfold wait_failure in He. split.
  - right. exists e. split; [done|]. unfold call_failure. naive_solver.
  - intros _. right. by exists e.
Qed.
Lemma timeout_stops : budget_stop timeout_error.
Proof. unfold budget_stop, timeout_error. simpl. auto. Qed.

(** The wait loop, with enough fuel for what is left of its deadline. *)
Lemma wait_loop_spec cf recheck fuel id k d b s (c : C) :
  own_inv id (Waiting k) s -> msgs s -> d - rv_clock s + WAIT_SLICE <= N.of_nat fuel * WAIT_SLICE ->
  wp (wait_loop others cf recheck fuel (mkTicket id k d))
    (fun r '(b', (s', c')) => c' = c /\ advances s s' /\ wait_end cf id r s') (b, (s, c)).
Proof.
  revert b s. induction fuel as [|fuel IH]; intros b s Hs Hm Hfuel; [unfold WAIT_SLICE in Hfuel; lia|].
  cbn [wait_loop tk_id tk_slot tk_deadline]. apply wp_bind, wp_catch_budget.
  destruct (check b) as [[u|e] b1] eqn:Ec; simpl.
  2: { apply wp_bind. eapply wp_withdraw; [done..|by right|]. intros s' Hs' Hm' _ _ Ha. split; [done|].
    split; [done|]. apply wait_end_fails; [done..|]. left. apply (budget_check_stop b). by rewrite Ec. }
  apply wp_bind. unfold now_of. apply wp_atomically. cbn [fst snd].
  pose proof (interfere_own _ _ _ Hs) as Hs1. pose proof (interfere_msgs (id :: others) _ Hm) as Hm1.
  pose proof (interfere_clock (id :: others) s) as Hclk. pose proof (interfere_advances (id :: others) s) as Ha1.
  set (s1 := interfere (id :: others) s) in *. clearbody s1.
  destruct (d <=? rv_clock s1) eqn:Ed.
  - apply wp_bind. eapply wp_withdraw; [done..|by right|]. intros s2 Hs2 Hm2 _ _ Ha2. apply wp_bind, wp_get. cbv iota beta.
    assert (advances s s2) as Ha by (by etrans).
    destruct (deadline_expired (rv_clock s1) b1); [destruct recheck|].
    + apply wp_bind, wp_on_budget. intros b2 _.
      destruct (check b1).1 as [u'|e'] eqn:Ec'; simpl; (split; [done|]); (split; [done|]); apply wait_end_fails; try done; left;
        [apply timeout_stops|by apply (budget_check_stop b1)].
    + split_and!; [done..|]. apply wait_end_fails; [done..|]. left. apply timeout_stops.
    + split_and!; [done..|]. apply wait_end_fails; [done..|]. right. right. by left.
  - apply wp_bind. unfold recv_timeout. apply wp_atomically.
    pose proof (interfere_own id _ _ Hs1) as Hs2. pose proof (interfere_msgs (id :: others) _ Hm1) as Hm2.
    pose proof (interfere_clock (id :: others) s1) as Hclk2. pose proof (interfere_advances (id :: others) s1) as Ha2.
    set (s2 := interfere (id :: others) s1) in *. clearbody s2.
    pose proof (receive_own id k s2 Hs2) as Hrec. destruct (receive_msgs id k s2 Hm2) as [Hm3 HG].
    pose proof (receive_advances id k s2) as Ha3. assert (advances s (rv_receive id k s2).2) as Ha by (do 2 (etrans; [done|]); done).
    destruct (rv_receive id k s2) as [[m| |] s3]; simpl in *.
    + destruct Hrec as (Hs3 & _ & Hin). do 4 (split; [done|]). auto.
    + subst s3. eapply wp_mono; [apply IH|].
      * intros Hf. destruct (Hs2 Hf) as [Hi Hph]. split; [by destruct Hi|done].
      * done.
      * simpl. apply N.leb_gt in Ed. unfold WAIT_SLICE in *. lia.
      * intros r' [b' [s' c']] (-> & Ha4 & He). split_and!; [done| |done..]. etrans; [exact Ha|].
        etrans; [|exact Ha4]. split_and!; simpl; [lia|done..].
    + destruct Hrec as [-> Hf]. apply wp_bind. eapply wp_withdraw; [done..|by right|]. intros s4 Hs4 Hm4 Hf4 _ Ha4.
      split; [done|]. split; [by etrans|]. split; [done|]. split; [done|]. split; [|lia]. right. eexists. split; [done|].
      unfold call_failure. auto.
Qed.

(** The fuel covers a request timeout. *)
Lemma wait_fuel_enough cf d now :
  d - now <= cf_request_timeout cf -> d - now + WAIT_SLICE <= N.of_nat (wait_fuel cf) * WAIT_SLICE.
Proof.
  intros Hd. unfold wait_fuel. rewrite N2Nat.id. unfold WAIT_SLICE in *.
  pose proof (N.div_mod (cf_request_timeout cf) 50000000). pose proof (N.mod_lt (cf_request_timeout cf) 50000000). lia.
Qed.

Lemma fetch_own s : safe_with s -> own_inv (rv_fetch s).1 Fetched (rv_fetch s).2.
Proof.
  intros Hs Hf. simpl in Hf. destruct Hs as [Hi Hr]; [lia|].
  assert ((rv_fetch s).1 ∉ rest.*1) as Hid.
  { intros ([id ph] & Hid & Hin)%list_elem_of_fmap. unfold own_rest in Hr. rewrite Forall_forall in Hr.
    apply Hr in Hin. apply (inv_ids _ Hi) in Hin. pose proof (inv_next _ Hi). simpl in *. lia. }
  split_and!; [by apply fetch_inv|simpl; by rewrite lookup_insert_eq|done|]. by apply rest_insert.
Qed.
Lemma insert_own id s : own_inv id Fetched s -> own_inv id (Inserted (rv_insert id s).1) (rv_insert id s).2.
Proof.
  intros Hs Hf. assert (rv_fetches s < u64_max) as Hf' by (revert Hf; split_act; done).
  destruct (Hs Hf') as (Hi & Hph & Hid & Hr).
  split_and!; [by apply insert_inv|simpl; by rewrite lookup_insert_eq|done|].
  apply rest_insert; [done|]. unfold own_rest. generalize (length (rv_slots s)). intros k.
  by replace (rv_phases (table_insert id k (with_slots (rv_slots s ++ [mkSlot None true true]) s)))
    with (rv_phases s) by (split_act; done).
Qed.
Lemma live_own id k s :
  own_inv id (Inserted k) s ->
  own_inv id (if rv_alive s then Waiting k else Inserted k) (rv_live id k s).2.
Proof.
  intros Hs Hf. assert (rv_fetches s < u64_max) as Hf' by (revert Hf; split_act; done).
  destruct (Hs Hf') as (Hi & Hph & Hid & Hr). split; [by apply live_inv|]. unfold rv_live.
  destruct (rv_alive s); simpl; [|done]. split_and!; [by rewrite lookup_insert_eq|done|by apply rest_insert].
Qed.

(** The thread's own steps up to the send. *)
Lemma fetch_advances s : advances s (rv_fetch s).2.
Proof. split_and!; simpl; [done..|lia]. Qed.
Lemma insert_advances id s : advances s (rv_insert id s).2.
Proof. split_act; done. Qed.
Lemma live_advances id k s : advances s (rv_live id k s).2.
Proof. split_act; done. Qed.

(** The opening of a request: a ticket that may be waited on within the
    request timeout, or a request that has already been withdrawn. *)
Definition begin_end (cf : RvConfig) (request : N -> N -> Budget -> R) b s (r : result Error Ticket) s' : Prop :=
  rv_clock s <= rv_clock s' /\ rv_fetches s <= rv_fetches s' /\
  match r with
  | Ok t => own_inv (tk_id t) (Waiting (tk_slot t)) s' /\ msgs s' /\
            tk_deadline t - rv_clock s' <= cf_request_timeout cf /\
            rv_sent s' = rv_sent s ++ [request (tk_id t) (tk_deadline t) b]
  | Err e => exists id d, wait_end cf id (Err e) s' /\
            (rv_sent s' = rv_sent s \/ rv_sent s' = rv_sent s ++ [request id d b])
  end.

(** [transport.request] of the request that was fetched, inserted and found
    the provider alive. *)
Lemma send_spec cf (request : N -> N -> Budget -> R) b s0 s (c : C) id k d :
  own_inv id (Waiting k) s -> msgs s -> advances s0 s -> d <= rv_clock s + cf_request_timeout cf ->
  wp (let! sent := send_request others id (request id d b) in
      match sent with
      | Err e => let! _ := withdraw others id k in sthrow e
      | Ok _ => sret (mkTicket id k d)
      end) (fun r '(b', (s', c')) => b' = b /\ c' = c /\ begin_end cf request b s0 r s') (b, (s, c)).
Proof.
  intros Hs Hm Ha Hd. apply wp_bind. unfold send_request. apply wp_atomically. cbn [fst snd].
  pose proof (interfere_own _ _ _ Hs) as Hs1. pose proof (interfere_msgs (id :: others) _ Hm) as Hm1.
  pose proof (interfere_advances (id :: others) s) as Ha1. set (s1 := interfere (id :: others) s) in *.
  clearbody s1. assert (forall l, own_inv id (Waiting k) (with_sent l s1)) as Hsent.
  { intros l Hf. destruct (Hs1 Hf) as [Hi Hph]. split; [by destruct Hi|done]. }
  destruct Ha as (Hc & Hse & _ & Hfe), Ha1 as (Hc1 & Hse1 & _ & Hfe1).
  destruct (transport (rv_steps s1) (request id d b)) as [u|e] eqn:Et.
  - apply wp_ret. do 2 (split; [done|]). do 2 (split; [simpl; lia|]). split_and!; [apply Hsent|done|simpl; lia|].
    simpl. by rewrite Hse1, Hse.
  - apply wp_bind. eapply wp_withdraw; [apply Hsent|done|by right|]. intros s2 Hs2 Hm2 _ _ (Hc2 & Hse2 & _ & Hfe2).
    do 2 (split; [done|]). simpl in *. do 2 (split; [lia|]). exists id, d. split.
    + apply wait_end_fails; [done..|]. right. right. right. eauto.
    + right. by rewrite Hse2, Hse1, Hse.
Qed.

Lemma begin_spec cf (request : N -> N -> Budget -> R) b s (c : C) :
  safe_with s -> msgs s ->
  wp (begin others cf request)
    (fun r '(b', (s', c')) => b' = b /\ c' = c /\ begin_end cf request b s r s') (b, (s, c)).
Proof.
  intros Hs Hm. unfold begin. apply wp_bind. unfold now_of. apply wp_atomically. cbn [fst snd].
  pose proof (interfere_safe others s (fun _ H => H) Hs) as Hs1. pose proof (interfere_msgs others s Hm) as Hm1.
  pose proof (interfere_advances others s) as Ha1. set (s1 := interfere others s) in *. clearbody s1.
  apply wp_bind, wp_get. cbv beta iota.
  set (d := match deadline b with Some _ => _ | None => _ end).
  assert (d <= rv_clock s1 + cf_request_timeout cf) as Hd.
  { unfold d, checked_instant_add. destruct (deadline b), (_ <=? instant_max); simpl; lia. }
  clearbody d. apply wp_bind, wp_atomically.
  pose proof (fetch_own _ (interfere_safe others s1 (fun _ H => H) Hs1)) as Hs2.
  assert (msgs (rv_fetch (interfere others s1)).2) as Hm2 by (by apply (interfere_msgs others)).
  assert (advances s1 (rv_fetch (interfere others s1)).2) as Ha2.
  { etrans; [apply (interfere_advances others)|apply fetch_advances]. }
  destruct (rv_fetch (interfere others s1)) as [id s2]. cbn [fst snd] in *.
  clear Hs1. apply wp_bind, wp_atomically.
  pose proof (insert_own _ _ (interfere_own _ _ _ Hs2)) as Hs3.
  assert (msgs (rv_insert id (interfere (id :: others) s2)).2) as Hm3 by (by apply insert_msgs, interfere_msgs).
  assert (advances s2 (rv_insert id (interfere (id :: others) s2)).2) as Ha3.
  { etrans; [apply (interfere_advances (id :: others))|apply insert_advances]. }
  destruct (rv_insert id (interfere (id :: others) s2)) as [k s3]. cbn [fst snd] in *.
  apply wp_bind, wp_atomically. pose proof (live_own _ _ _ (interfere_own _ _ _ Hs3)) as Hs4.
  pose proof (interfere_msgs (id :: others) _ Hm3) as Hm4. pose proof (interfere_advances (id :: others) s3) as Ha4.
  assert (advances s1 (interfere (id :: others) s3)) as Ha5 by (do 2 (etrans; [done|]); done).
  unfold rv_live in *. destruct (rv_alive (interfere (id :: others) s3)) eqn:Ha; cbn [fst snd negb] in *.
  - apply wp_bind, wp_get. cbv beta iota. eapply send_spec; [done..| |].
    + etrans; [exact Ha1|]. etrans; [exact Ha5|]. done.
    + destruct Ha5. simpl in *. lia.
  - apply wp_bind. eapply wp_withdraw; [done..|by left|]. intros s5 Hs5 Hm5 _ Hd5 Ha6. do 2 (split; [done|]).
    assert (advances s s5) as (Hc & Hse & _ & Hfe) by (do 2 (etrans; [done|]); done). do 2 (split; [done|]). exists id, 0. split; [|by left].
    apply wait_end_fails; [done..|]. right. left. auto.
Qed.

End Waiter.

(** The invariant while IDs are unique, for a thread with no request open. *)
Abbreviation safe := (safe_with []).

Section WaitEnds.
Context {P R C : Type} `{Env, !Peers P R}.

(** [send_and_wait] as a whole. *)
Lemma send_and_wait_spec (G : result Error P -> Prop) cf (request : N -> N -> Budget -> R) b (s : Rv P R) (c : C) :
  good_peers G -> safe s -> msgs G s ->
  wp (send_and_wait cf request)
    (fun r '(b', (s', c')) => c' = c /\
       ((s' = s /\ exists e, r = Err e /\ budget_stop e) \/ exists id, wait_end [] G cf id r s')) (b, (s, c)).
Proof.
  intros Hg Hs Hm. unfold send_and_wait. apply wp_bind, wp_on_budget. intros b1 _.
  destruct (charge_provider_request b).1 as [u|e] eqn:Ec; simpl.
  2: { split; [done|]. left. split; [done|]. exists e. split; [done|].
    revert Ec. unfold budget_stop. budget_cases; naive_solver. }
  assert (forall id ph, (id, ph) ∈ @nil (N * Phase) -> id ∈ @nil N \/ ph = Returned) as Hno by set_solver.
  apply wp_bind. eapply wp_mono; [by apply (begin_spec [] [] Hno G)|].
  intros [t|e] [b2 [s2 c2]]; simpl; intros (-> & -> & _ & _ & Ht); [|naive_solver].
  destruct Ht as (Ht & Hm2 & Hd & _). destruct t as [id k d]. simpl in *. eapply wp_mono.
  - apply (wait_loop_spec [] [] Hno G Hg cf true _ id k d _ _ _ Ht Hm2). by apply wait_fuel_enough.
  - intros r3 [b3 [s3 c3]] (-> & _ & He). eauto.
Qed.

(** A request that returned left nothing in the table. *)
Lemma returned_absent (s : Rv P R) id : rv_inv s -> rv_phases s !! id = Some Returned -> rv_pending s !! id = None.
Proof.
  intros Hi Hph. destruct (rv_pending s !! id) as [k|] eqn:E; [|done].
  apply (inv_pending _ Hi) in E. unfold holds in E. naive_solver.
Qed.

(** C9. [send_and_wait] always returns, and never by running its loop dry,
    whatever the peers and the clock do. When the budget admits the request, it
    ends with the request returned and nothing left in the table, and the
    result is the one answer taken for its ID, or an error that is the
    budget's, the store's timeout, the transport's, or the report of a dead
    provider, the latter only when the provider is dead. *)
Theorem send_and_wait_ends cf (request : N -> N -> Budget -> R) b (s : Rv P R) (c : C) r b' s' c' :
  safe s -> send_and_wait cf request (b, (s, c)) = (r, (b', (s', c'))) ->
  safe s' /\ c' = c /\
  ((s' = s /\ exists e, r = Err e /\ budget_stop e) \/
   exists id, rv_fetches s' < u64_max ->
     rv_phases s' !! id = Some Returned /\ rv_pending s' !! id = None /\
     ((id, r) ∈ rv_received s' \/ exists e, r = Err e /\ wait_failure cf s' e)).
Proof.
  intros Hs Hrun. eapply wp_run in Hrun.
  2: { apply (send_and_wait_spec (fun _ => True)); [|done|].
    - intros n [] _; done.
    - split; apply Forall_forall; done. }
  destruct Hrun as [-> [[-> He]|(id & Hr & _ & _ & He)]]; [by auto|].
  split; [by eapply own_safe|]. split; [done|]. right. exists id. intros Hf.
  destruct (Hr Hf) as (Hi & Hph & _). split; [done|]. split; [by apply returned_absent|by apply He].
Qed.

End WaitEnds.

(* ------------------------------------------------------------------ *)
(** ** Concrete runs *)

Module Demo.

(** A request that is answered twice, and a second one that is inserted while
    the provider dies. *)
Definition acts : list (Act nat) :=
  [AFetch; AInsert 1; ALive 1; ATake 1 (Ok 7%nat); ATake 1 (Ok 8%nat); ASend 0; AReceive 1].
Definition death : Error := Error_retryable ProviderDown "provider process is down".
Definition before_down : list (Act nat) := [AFetch; AInsert 1; ALive 1; AFetch; AInsert 2].
Definition after_drain : list (Act nat) := [ALive 2; AWithdraw 2; ASend 0; ASend 0].

(** Peers that answer the first request. *)
Definition answering : Peers nat unit := {|
  peer_acts := fun _ => [ATake 1 (Ok 7%nat); ASend 0];
  peer_delay := fun _ => 1;
  transport := fun _ _ => Ok tt
|}.
(** Peers that never answer. *)
Definition silent : Peers nat unit := {|
  peer_acts := fun _ => [];
  peer_delay := fun _ => 1;
  transport := fun _ _ => Ok tt
|}.
Definition late : Error := Error_retryable ProviderTimeout "late".
Definition config : RvConfig := mkRvConfig death late 120000000.

Example answered :
  let '(r, (_, (s, _))) := @send_and_wait nat unit unit quiet answering config (fun _ _ _ => tt)
    (Budget_unlimited, (Rv_new, tt)) in
  (r, rv_received s, size (rv_pending s)) = (Ok 7%nat, [(1, Ok 7%nat)], 0%nat).
Proof. vm_compute. reflexivity. Qed.
Example timed_out :
  let '(r, (_, (s, _))) := @send_and_wait nat unit unit quiet silent config (fun _ _ _ => tt)
    (Budget_unlimited, (Rv_new, tt)) in
  (r, size (rv_pending s)) = (Err late, 0%nat).
Proof. vm_compute. reflexivity. Qed.

End Demo.

Lemma rendezvous_answers_once_witness :
  let s := do_acts Demo.acts (@Rv_new nat unit) in
  rv_received s = [(1, Ok 7%nat)] /\ NoDup (rv_taken s).*1 /\ NoDup (rv_received s).*1 /\
  (forall id m, (id, m) ∈ rv_received s -> (id, m) ∈ rv_taken s /\ rv_phases s !! id = Some Returned) /\
  (forall id k, rv_pending s !! id = Some k -> holds s id k /\ id ∉ (rv_taken s).*1).
Proof.
  intros s. split; [vm_compute; reflexivity|]. apply (rendezvous_answers_once (R := unit) Demo.acts).
  vm_compute. reflexivity.
Defined.

Lemma provider_death_wakes_every_waiter_witness :
  let s := do_acts (Demo.before_down ++ ADown :: [] ++ ADrain Demo.death :: Demo.after_drain) (@Rv_new nat unit) in
  rv_phases s !! 1 = Some (Waiting 0) /\
  (forall id k, rv_phases s !! id = Some (Waiting k) ->
     exists m, (rv_recv id k s).1 = Got m /\ (id, m) ∈ rv_taken s) /\
  (forall id k, (rv_live id k s).1 = false).
Proof.
  intros s. split; [vm_compute; reflexivity|].
  apply (provider_death_wakes_every_waiter (R := unit) Demo.before_down [] Demo.death Demo.after_drain);
    vm_compute; reflexivity.
Defined.

Lemma send_and_wait_ends_witness :
  let '(r, (b', (s', c'))) := @send_and_wait nat unit unit quiet Demo.answering Demo.config
    (fun _ _ _ => tt) (Budget_unlimited, (Rv_new, tt)) in
  safe s' /\ c' = tt /\
  ((s' = Rv_new /\ exists e, r = Err e /\ budget_stop e) \/
   exists id, rv_fetches s' < u64_max ->
     rv_phases s' !! id = Some Returned /\ rv_pending s' !! id = None /\
     ((id, r) ∈ rv_received s' \/ exists e, r = Err e /\ @wait_failure nat unit Demo.answering Demo.config s' e)).
Proof.
  destruct (@send_and_wait nat unit unit quiet Demo.answering Demo.config (fun _ _ _ => tt)
    (Budget_unlimited, (Rv_new, tt))) as [r [b' [s' c']]] eqn:E.
  refine (send_and_wait_ends Demo.config (fun _ _ _ => tt) Budget_unlimited Rv_new tt r b' s' c' _ E).
  intros _. split; [apply rv_inv_new|constructor].
Defined.
