(* ===== verification/Provider.v ===== *)
(** * The callback object store ([provider_odb.rs])

    [ProviderOdb] over the rendezvous of [Rendezvous.v]: validation of a
    provider's replies, verification of every payload, the three bounded
    caches, and the [ObjectDb] methods. The world of an operation is the
    rendezvous state and the caches; before each critical section of the cache
    lock the other threads may have changed the caches ([peer_caches]), and
    before each atomic action on the rendezvous its peers act.

    The theorems come in two strengths. Without any assumption on the provider,
    nothing is ever served that does not verify against its ID. When the
    provider is truthful about absence, the store is a [LawfulDb]. *)

From Stdlib Require Import NArith Lia Strings.Byte Strings.String.
From stdpp Require Import prelude gmap strings list pretty.
From S2P Require Import Prelude Errors Objects Budget Lru Odb Rendezvous.

Open Scope N_scope.

(** [ProviderKind], [ProviderReplyValue], [ProviderPayload] and
    [ProviderRequest]. *)
Inductive ProviderKind : Type :=
| KHeader
| KObject
| KPrefetch.

Inductive ProviderReplyValue : Type :=
| RNotFound
| RHeader (h : ObjectHeader)
| RObject (kind : ObjectKind) (data : bytes).

Inductive ProviderPayload : Type :=
| Results (rs : list (Oid * ProviderReplyValue))
| BackendErrorReply.

Record ProviderRequest : Type := mkProviderRequest {
  rq_id : N;
  rq_kind : ProviderKind;
  rq_oids : list Oid;
  rq_deadline : N;
  rq_max_object_bytes : N;
  rq_max_reply_bytes : N;
  rq_max_result_bytes : option N
}.

Definition PROVIDER_HEADER_SIZE_CEILING : N := 2 ^ 40.
Definition DEFAULT_NEGATIVE_ENTRIES : N := 4096.

(** [ProviderCacheOptions] and [ProviderOptions]. *)
Record ProviderCacheOptions : Type := mkProviderCacheOptions {
  po_object_bytes : N;
  po_header_entries : N;
  po_negative_ttl : N
}.
Record ProviderOptions : Type := mkProviderOptions {
  po_request_timeout : N;
  po_cache : ProviderCacheOptions
}.
Definition ProviderOptions_default : ProviderOptions :=
  mkProviderOptions 15000000000 (mkProviderCacheOptions 0 0 0).

(** [ProviderCaches] and [NegativeCache]. *)
Record ProviderCaches : Type := mkProviderCaches {
  pc_objects : @Cache.LruCache Oid Payload _ _;
  pc_headers : @Cache.LruCache Oid HeaderRead _ _;
  pc_negative : @Cache.LruCache Oid N _ _;
  pc_ttl : N
}.
Definition ProviderCaches_new (o : ProviderCacheOptions) : ProviderCaches :=
  mkProviderCaches (Cache.LruCache_new (po_object_bytes o)) (Cache.LruCache_new (po_header_entries o))
    (Cache.LruCache_new DEFAULT_NEGATIVE_ENTRIES) (po_negative_ttl o).

(** [ProviderOdb], without the parts that are state. *)
Record ProviderOdb : Type := mkProviderOdb {
  pv_hash : HashKind;
  pv_options : ProviderOptions
}.

Definition provider_down : Error := Error_retryable ProviderDown "provider process is down".
Definition provider_timeout : Error := Error_retryable ProviderTimeout "provider request deadline expired".
Definition protocol_error (m : string) : Error := Error_new ProviderProtocolError m.
Definition backend_error : Error := Error_retryable BackendError "provider callback failed".
Definition cache_panic : Error := Error_new InternalError "panic".

Definition provider_config (p : ProviderOdb) : RvConfig :=
  mkRvConfig provider_down provider_timeout (po_request_timeout (pv_options p)).

(** ** Cache operations. A [None] of the LRU model is a panic. *)

Definition get_object (oid : Oid) (cs : ProviderCaches) : option (option Payload * ProviderCaches) :=
  '(v, c) ← Cache.get_cloned oid (pc_objects cs);
  Some (v, mkProviderCaches c (pc_headers cs) (pc_negative cs) (pc_ttl cs)).
Definition get_header (oid : Oid) (cs : ProviderCaches) : option (option HeaderRead * ProviderCaches) :=
  '(v, c) ← Cache.get_cloned oid (pc_headers cs);
  Some (v, mkProviderCaches (pc_objects cs) c (pc_negative cs) (pc_ttl cs)).
Definition put_object (oid : Oid) (kind : ObjectKind) (data : bytes) (cs : ProviderCaches)
  : option (unit * ProviderCaches) :=
  c ← Cache.insert oid (kind, data) (lenN data) (pc_objects cs);
  Some (tt, mkProviderCaches c (pc_headers cs) (pc_negative cs) (pc_ttl cs)).
Definition put_header (oid : Oid) (h : HeaderRead) (cs : ProviderCaches) : option (unit * ProviderCaches) :=
  c ← Cache.insert oid h 1 (pc_headers cs);
  Some (tt, mkProviderCaches (pc_objects cs) c (pc_negative cs) (pc_ttl cs)).

(** [NegativeCache::contains_fresh], [insert] and [clear] at the instant
    [now]. *)
Definition contains_fresh (now : N) (oid : Oid) (cs : ProviderCaches) : option (bool * ProviderCaches) :=
  if pc_ttl cs =? 0 then Some (false, cs)
  else
    '(inserted, c) ← Cache.get oid (pc_negative cs);
    let fresh := match inserted with
                 | Some t => now - t <? pc_ttl cs
                 | None => false
                 end in
    c ← (if negb fresh then '(_, c) ← Cache.remove oid c; Some c else Some c);
    Some (fresh, mkProviderCaches (pc_objects cs) (pc_headers cs) c (pc_ttl cs)).
Definition negative_insert (now : N) (oid : Oid) (cs : ProviderCaches) : option (unit * ProviderCaches) :=
  if pc_ttl cs =? 0 then Some (tt, cs)
  else
    c ← Cache.insert oid now 1 (pc_negative cs);
    Some (tt, mkProviderCaches (pc_objects cs) (pc_headers cs) c (pc_ttl cs)).
Definition negative_clear (cs : ProviderCaches) : ProviderCaches :=
  mkProviderCaches (pc_objects cs) (pc_headers cs) (Cache.clear (pc_negative cs)) (pc_ttl cs).

(** What other threads do to the caches before the [n]-th step. *)
Class CachePeers : Type := { peer_caches : nat -> ProviderCaches -> ProviderCaches }.

Section Operations.
Context `{Env, Digests, !Peers ProviderPayload ProviderRequest, !CachePeers}.
Abbreviation PW := (Rv ProviderPayload ProviderRequest * ProviderCaches)%type.

(** Taking the cache lock, and an operation under it. *)
Definition lock_caches : DM PW unit :=
  fun '(b, (s, cs)) => (Ok tt, (b, (s, peer_caches (rv_steps s) cs))).
Definition in_caches {A} (f : ProviderCaches -> option (A * ProviderCaches)) : DM PW A :=
  fun '(b, (s, cs)) =>
    match f cs with
    | Some (a, cs) => (Ok a, (b, (s, cs)))
    | None => (Err cache_panic, (b, (s, cs)))
    end.
Definition fresh_absence (oid : Oid) : DM PW bool :=
  let! now := now_of [] in
  in_caches (contains_fresh now oid).
Definition record_absence (oid : Oid) : DM PW unit :=
  let! now := now_of [] in
  in_caches (negative_insert now oid).

(** [ProviderOdb::ensure_oid]. *)
Definition provider_ensure_oid (p : ProviderOdb) (oid : Oid) : Res unit :=
  if bool_decide (oid_kind oid = pv_hash p) then Ok tt
  else Err (Error_new InvalidOid "object ID hash does not match the provider store").
Fixpoint provider_ensure_oids (p : ProviderOdb) (oids : list Oid) : Res unit :=
  match oids with
  | [] => Ok tt
  | oid :: oids =>
      let? _ := provider_ensure_oid p oid in
      provider_ensure_oids p oids
  end.

(** The request of [ProviderOdb::send_and_wait]. *)
Definition provider_request (kind : ProviderKind) (oids : list Oid) (rb : ReadManyBudget)
  (id deadline : N) (b : Budget) : ProviderRequest :=
  mkProviderRequest id kind oids deadline (max_object_bytes (limits b))
    (ssub64 (max_provider_bytes (limits b)) (provider_bytes b)) (max_total_bytes rb).

(** [request_results]: the loop that validates the reply. *)
Fixpoint check_results (l : BudgetLimits) (kind : ProviderKind) (expected : gset Oid) (rb : ReadManyBudget)
  (results : list (Oid * ProviderReplyValue)) (decoded : gmap Oid ProviderReplyValue) (reply_bytes : N)
  : Res (gmap Oid ProviderReplyValue * N) :=
  match results with
  | [] => Ok (decoded, reply_bytes)
  | (oid, value) :: results =>
      if negb (bool_decide (oid ∈ expected)) || bool_decide (is_Some (decoded !! oid)) then
        Err (protocol_error "provider reply contains an unexpected or duplicate object ID")
      else
        let? _ := match kind, value with
                  | KHeader, _ | KObject, RObject _ _ | KObject, RNotFound => Ok tt
                  | _, _ => Err (protocol_error "provider reply result has the wrong shape")
                  end in
        let? reply_bytes :=
          match value with
          | RObject _ data =>
              let n := lenN data in
              if max_object_bytes l <? n then
                Err (with_limit "max_object_bytes"
                       (Error_new ObjectTooLarge
                          ("provider object of " ++ pretty n ++ " bytes exceeds max_object_bytes "
                           ++ pretty (max_object_bytes l))))
              else
                let reply_bytes := sadd64 reply_bytes n in
                if max_provider_bytes l <? reply_bytes then
                  Err (with_limit "max_provider_bytes"
                         (Error_new BudgetExceeded "max_provider_bytes exceeded"))
                else
                  let? _ := enforce_read_many_budget reply_bytes rb in
                  Ok reply_bytes
          | RHeader h =>
              if PROVIDER_HEADER_SIZE_CEILING <? hdr_size h then
                Err (protocol_error "provider header size exceeds the 2^40 sanity ceiling")
              else Ok reply_bytes
          | RNotFound => Ok reply_bytes
          end in
        check_results l kind expected rb results (<[oid := value]> decoded) reply_bytes
  end.

(** The verification pass; [HashMap] leaves its order open. *)
Fixpoint verify_results (results : list (Oid * ProviderReplyValue)) : Res unit :=
  match results with
  | [] => Ok tt
  | (oid, RObject kind data) :: results =>
      let? _ := verify oid kind data in
      verify_results results
  | _ :: results => verify_results results
  end.

Definition request_results (p : ProviderOdb) (kind : ProviderKind) (expected : list Oid)
  (rb : ReadManyBudget) : DM PW (gmap Oid ProviderReplyValue) :=
  let! payload := send_and_wait (provider_config p) (provider_request kind expected rb) in
  match payload with
  | BackendErrorReply => sthrow backend_error
  | Results results =>
      let expected_set := list_to_set expected : gset Oid in
      let! l := sget (fun '(b, _) => limits b) in
      let! (decoded, reply_bytes) := slift (check_results l kind expected_set rb results ∅ 0) in
      if negb (size decoded =? size expected_set)%nat then
        sthrow (protocol_error "provider reply omitted a requested object ID")
      else
        let! _ := on_budget (charge_provider_bytes reply_bytes) in
        let! _ := slift (verify_results (map_to_list decoded)) in
        sret decoded
  end.

(** [try_header_read]. *)
Definition verified_read (kind : ObjectKind) (data : bytes) : HeaderRead :=
  mkHeaderRead (mkHeader kind (lenN data)) Verified.
Definition try_header_read (p : ProviderOdb) (oid : Oid) : DM PW (option HeaderRead) :=
  let! _ := slift (provider_ensure_oid p oid) in
  let! _ := ensure_alive (provider_config p) in
  let! _ := lock_caches in
  let! header := in_caches (get_header oid) in
  match header with
  | Some header =>
      let! _ := on_budget charge_header in
      sret (Some header)
  | None =>
      let! object := in_caches (get_object oid) in
      match object with
      | Some (kind, data) =>
          let! _ := on_budget charge_header in
          sret (Some (verified_read kind data))
      | None =>
          let! absent := fresh_absence oid in
          if absent then
            let! _ := on_budget check in
            sret None
          else
            let! results := request_results p KHeader [oid] ReadManyBudget_default in
            match results !! oid with
            | None => sthrow cache_panic
            | Some RNotFound =>
                let! _ := lock_caches in
                let! _ := record_absence oid in
                let! _ := on_budget check in
                sret None
            | Some (RHeader header) =>
                let read := mkHeaderRead header UnverifiedProvider in
                let! _ := lock_caches in
                let! _ := in_caches (put_header oid read) in
                let! _ := on_budget charge_header in
                sret (Some read)
            | Some (RObject kind data) =>
                let read := verified_read kind data in
                let! _ := lock_caches in
                let! _ := in_caches (put_object oid kind data) in
                let! _ := in_caches (put_header oid read) in
                let! _ := on_budget charge_header in
                sret (Some read)
            end
      end
  end.

(** [try_find_many_with_budget], loop by loop: the caches first. *)
Fixpoint resident_loop (rb : ReadManyBudget) (oids : list Oid) (found : gmap Oid ObjectReadResult)
  (resident_bytes : N) : DM PW (list Oid * (gmap Oid ObjectReadResult * N)) :=
  match oids with
  | [] => sret ([], (found, resident_bytes))
  | oid :: oids =>
      if bool_decide (is_Some (found !! oid)) then resident_loop rb oids found resident_bytes
      else
        let! object := in_caches (get_object oid) in
        match object with
        | Some (kind, data) =>
            let resident_bytes := sadd64 resident_bytes (lenN data) in
            let! _ := slift (enforce_read_many_budget resident_bytes rb) in
            resident_loop rb oids (<[oid := Some (kind, data)]> found) resident_bytes
        | None =>
            let! absent := fresh_absence oid in
            if absent then resident_loop rb oids (<[oid := None]> found) resident_bytes
            else
              let! (misses, acc) := resident_loop rb oids found resident_bytes in
              sret (oid :: misses, acc)
        end
  end.

(** Then the provider's answers for the misses. *)
Fixpoint absorb_loop (results : gmap Oid ProviderReplyValue) (misses : list Oid)
  (found : gmap Oid ObjectReadResult) : DM PW (gmap Oid ObjectReadResult) :=
  match misses with
  | [] => sret found
  | oid :: misses =>
      match results !! oid with
      | Some RNotFound =>
          let! _ := record_absence oid in
          absorb_loop results misses (<[oid := None]> found)
      | Some (RObject kind data) =>
          let! _ := in_caches (put_object oid kind data) in
          let! _ := in_caches (put_header oid (verified_read kind data)) in
          absorb_loop results misses (<[oid := Some (kind, data)]> found)
      | Some (RHeader _) | None => sthrow cache_panic
      end
  end.

(** Then the output, charged per input ID. *)
Fixpoint output_loop (found : gmap Oid ObjectReadResult) (oids : list Oid)
  : DM PW (list ObjectReadResult) :=
  match oids with
  | [] => sret []
  | oid :: oids =>
      match found !! oid with
      | Some (Some (kind, data)) =>
          let! _ := on_budget (charge_object (lenN data)) in
          let! output := output_loop found oids in
          sret (Some (kind, data) :: output)
      | Some None =>
          let! _ := on_budget check in
          let! output := output_loop found oids in
          sret (None :: output)
      | None => sthrow cache_panic
      end
  end.

Definition try_find_many_with_budget (p : ProviderOdb) (oids : list Oid) (rb : ReadManyBudget)
  : DM PW (list ObjectReadResult) :=
  let! _ := ensure_alive (provider_config p) in
  let! _ := slift (provider_ensure_oids p oids) in
  let! _ := lock_caches in
  let! (misses, acc) := resident_loop rb oids ∅ 0 in
  let! found := (match misses with
                 | [] => sret acc.1
                 | _ :: _ =>
                     let remaining := mkReadManyBudget ((fun m => ssub64 m acc.2) <$> max_total_bytes rb) in
                     let! results := request_results p KObject misses remaining in
                     let! _ := lock_caches in
                     absorb_loop results misses acc.1
                 end) in
  output_loop found oids.

(** The methods of [ObjectDb]. *)
Definition provider_try_header (p : ProviderOdb) (oid : Oid) : DM PW (option ObjectHeader) :=
  let! read := try_header_read p oid in
  sret (hr_header <$> read).
Definition provider_try_find (p : ProviderOdb) (oid : Oid) : DM PW ObjectReadResult :=
  let! values := try_find_many_with_budget p [oid] ReadManyBudget_default in
  match last values with
  | Some value => sret value
  | None => sthrow cache_panic
  end.

(** [prefetch]: the request is sent and its channel dropped. *)
Definition provider_prefetch (p : ProviderOdb) (oids : list Oid) : DM PW unit :=
  match oids with
  | [] => sret tt
  | _ :: _ =>
      let! _ := ensure_alive (provider_config p) in
      let! _ := slift (provider_ensure_oids p oids) in
      let! _ := on_budget charge_provider_request in
      let! now := now_of [] in
      let request_deadline := default now (checked_instant_add now (po_request_timeout (pv_options p))) in
      let! deadline := sget (fun '(b, _) => match deadline b with
                                            | Some d => N.min request_deadline d
                                            | None => request_deadline
                                            end) in
      let! id := atomically [] rv_fetch in
      let! sent := send_request [] id (mkProviderRequest id KPrefetch oids deadline 0 0 None) in
      slift sent
  end.

Definition provider_refresh : DM PW unit :=
  let! _ := on_budget check in
  let! _ := lock_caches in
  in_caches (fun cs => Some (tt, negative_clear cs)).

Definition provider_db (p : ProviderOdb) : ObjectDb PW :=
  {| hash_kind := pv_hash p;
     shallow_roots := None;
     try_header := provider_try_header p;
     try_header_with_provenance := try_header_read p;
     try_find := provider_try_find p;
     try_find_graph := default_try_find_graph (provider_try_find p);
     try_find_many := fun oids => try_find_many_with_budget p oids ReadManyBudget_default;
     try_find_many_bounded := try_find_many_with_budget p;
     prefetch := provider_prefetch p;
     supports_prefetch := true;
     cache_stats := fun _ => CacheStats_default;
     refresh := provider_refresh |}.

(** [ProviderOdb::new], with the state it starts from. *)
Definition ProviderOdb_new (hash : HashKind) (o : ProviderOptions) : ProviderOdb * PW :=
  (mkProviderOdb hash o, (Rv_new, ProviderCaches_new (po_cache o))).

End Operations.

(* ------------------------------------------------------------------ *)
(** ** What a validated reply satisfies *)

(** The object of a reply value. *)
Definition value_result (v : ProviderReplyValue) : ObjectReadResult :=
  match v with
  | RObject kind data => Some (kind, data)
  | _ => None
  end.
Definition map_results (m : gmap Oid ProviderReplyValue) : gmap Oid ObjectReadResult := value_result <$> m.

(** The codes of [check_results] and [verify_results]. *)
Definition reply_failure (c : ErrorCode) : Prop :=
  plain_failure c \/ c = ProviderProtocolError \/ c = HashMismatch.

Section Replies.
Context `{Digests}.

Lemma map_results_insert m oid v :
  m !! oid = None -> map_bytes (map_results (<[oid := v]> m)) = total_bytes [value_result v] + map_bytes (map_results m).
Proof.
  intros Hm. unfold map_results. rewrite fmap_insert. apply map_bytes_insert. by rewrite lookup_fmap, Hm.
Qed.

Lemma within_zero rb : within_ceiling rb 0.
Proof. unfold within_ceiling. destruct (max_total_bytes rb); [lia|done]. Qed.

(** A validated reply: its IDs are expected, its values come from the reply and
    have the shape of the request, and its bytes are counted. *)
Lemma check_results_Ok l kind expected rb results decoded n d' n' :
  check_results l kind expected rb results decoded n = Ok (d', n') ->
  dom decoded ⊆ expected -> n = N.min (map_bytes (map_results decoded)) u64_max ->
  within_ceiling rb (map_bytes (map_results decoded)) ->
  dom d' ⊆ expected /\ n' = N.min (map_bytes (map_results d')) u64_max /\
  within_ceiling rb (map_bytes (map_results d')) /\
  (forall oid v, d' !! oid = Some v -> decoded !! oid = Some v \/ (oid, v) ∈ results /\ (kind = KObject -> forall h, v <> RHeader h)).
Proof.
  revert decoded n. induction results as [|[oid v] results IH]; intros decoded n; cbn [check_results].
  { intros [= <- <-] ? ? ?. auto. }
  case_bool_decide as Hexp; [|done]. case_bool_decide as Hdup; [done|]. cbn [negb orb].
  assert (decoded !! oid = None) as Hnone by (by apply eq_None_not_Some). intros Hrun Hdom Hn Hc.
  apply rbind_Ok in Hrun as (u & Hshape & Hrun). apply rbind_Ok in Hrun as (n1 & Hcount & Hrun).
  assert (kind = KObject -> forall h, v <> RHeader h) as Hkind by (intros -> h ->; done).
  assert (n1 = N.min (map_bytes (map_results (<[oid := v]> decoded))) u64_max /\
    within_ceiling rb (map_bytes (map_results (<[oid := v]> decoded)))) as [Hn1 Hc1].
  { rewrite map_results_insert by done. destruct v as [|h|k d]; cbn [value_result total_bytes foldr].
    - by simplify_eq.
    - destruct (_ <? hdr_size h); by simplify_eq.
    - destruct (max_object_bytes l <? lenN d); [done|]. destruct (max_provider_bytes l <? _); [done|].
      apply rbind_Ok in Hcount as (u' & He & [= <-]). subst n.
      rewrite sadd64_min in He |- *. apply enforce_Ok in He; [|lia].
      replace (lenN d + 0 + map_bytes (map_results decoded)) with (map_bytes (map_results decoded) + lenN d) by lia.
      split; [done|]. unfold within_ceiling in *. destruct (max_total_bytes rb); [lia|done]. }
  destruct (IH _ _ Hrun) as (Hd & Hn' & Hc' & Hv); [|done..|].
  { rewrite dom_insert. set_solver. }
  split_and!; [done..|]. intros o v' Ho. destruct (Hv o v' Ho) as [Ho'|[Ho' Hk]]; [|set_solver].
  apply lookup_insert_Some in Ho' as [[<- <-]|[_ Ho']]; [right; set_solver|by left].
Qed.

Lemma check_results_Err l kind expected rb results decoded n e :
  check_results l kind expected rb results decoded n = Err e -> reply_failure (code e).
Proof.
  revert decoded n. induction results as [|[oid v] results IH]; intros decoded n; cbn [check_results]; [done|].
  unfold reply_failure, plain_failure. case_match; [intros [= <-]; simpl; tauto|].
  destruct kind, v; cbn [rbind]; try (intros [= <-]; simpl; tauto); try apply IH;
    repeat case_match; cbn [rbind]; try (intros [= <-]; simpl; tauto); try apply IH;
    destruct (enforce_read_many_budget _ rb) eqn:Ee; cbn [rbind]; try apply IH;
    intros [= <-]; apply enforce_Err in Ee; rewrite Ee; tauto.
Qed.

Lemma verify_results_Ok rs u oid k d :
  verify_results rs = Ok u -> (oid, RObject k d) ∈ rs -> verify oid k d = Ok tt.
Proof.
  induction rs as [|[o v] rs IH]; intros Hv Hin; [set_solver|]. apply elem_of_cons in Hin as [[= <- <-]|Hin].
  - cbn [verify_results] in Hv. apply rbind_Ok in Hv as ([] & Hv & _). done.
  - apply IH; [|done]. destruct v; cbn [verify_results] in Hv; try done. by apply rbind_Ok in Hv as (? & _ & ?).
Qed.
Lemma verify_Err oid k d e : verify oid k d = Err e -> reply_failure (code e).
Proof. unfold reply_failure, plain_failure. intros [->| ->]%verify_Err_code; tauto. Qed.
Lemma verify_results_Err rs e : verify_results rs = Err e -> reply_failure (code e).
Proof.
  induction rs as [|[o v] rs IH]; cbn [verify_results]; [done|]. destruct v; try apply IH.
  destruct (verify o kind data) eqn:Ev; cbn [rbind]; [apply IH|]. intros [= <-]. by eapply verify_Err.
Qed.

End Replies.

(* ------------------------------------------------------------------ *)
(** ** The operations

    [K oid p] is what is known of a payload [p] served for [oid], [Absent oid]
    what is known when the store says that [oid] does not exist, and [Boundary]
    the errors with which the boundary may fail a request. *)

Section Specs.
Context `{Env, Digests, !Peers ProviderPayload ProviderRequest, !CachePeers}.
Context (K : Oid -> Payload -> Prop) (Absent : Oid -> Prop) (Boundary : Error -> Prop).
Abbreviation PW := (Rv ProviderPayload ProviderRequest * ProviderCaches)%type.

(** What is assumed of a reply: an absence is as [Absent] says, and a payload
    that verifies is as [K] says. *)
Definition good_value (oid : Oid) (v : ProviderReplyValue) : Prop :=
  match v with
  | RNotFound => Absent oid
  | RHeader _ => True
  | RObject kind data => verify oid kind data = Ok tt -> K oid (kind, data)
  end.
Definition good_reply (m : result Error ProviderPayload) : Prop :=
  match m with
  | Ok (Results rs) => Forall (fun x => good_value x.1 x.2) rs
  | Ok BackendErrorReply => True
  | Err e => Boundary e
  end.

(** What the caches may hold. *)
Definition good_header (oid : Oid) (h : HeaderRead) : Prop :=
  hr_provenance h = Verified -> exists p, K oid p /\ hr_header h = header_of p.
Definition caches_ok (cs : ProviderCaches) : Prop :=
  Cache.lru_all K (pc_objects cs) /\ Cache.lru_all good_header (pc_headers cs) /\
  Cache.lru_all (fun oid _ => Absent oid) (pc_negative cs).

Definition provider_inv (w : PW) : Prop := safe w.1 /\ msgs good_reply w.1 /\ caches_ok w.2.

(** The ways an operation fails. *)
Definition provider_failure (c : ErrorCode) : Prop :=
  reply_failure c \/ c = ProviderDown \/ c = ProviderTimeout \/ c = BackendError \/
  (exists n q e, transport n q = Err e /\ code e = c) \/ (exists e, Boundary e /\ code e = c).

Hypothesis peers_good : good_peers good_reply.
Hypothesis peers_keep : forall n cs, caches_ok cs -> caches_ok (peer_caches n cs).

Let spec {A} (m : DM PW A) (Q : A -> Prop) : Prop :=
  hoare (on_store provider_inv) (fun e => provider_failure (code e)) m Q.

Lemma provider_stop e : budget_stop e -> provider_failure (code e).
Proof. intros Hs. left. left. by apply plain_stop. Qed.
Lemma reply_provider c : reply_failure c -> provider_failure c.
Proof. by left. Qed.

Lemma atomically_spec {A} own (f : Rv ProviderPayload ProviderRequest -> A * Rv ProviderPayload ProviderRequest) (Q : A -> Prop) :
  (forall s, safe s -> msgs good_reply s -> Q (f s).1 /\ safe (f s).2 /\ msgs good_reply (f s).2) ->
  spec (atomically own f) Q.
Proof.
  intros Hf [b [s cs]] (Hs & Hm & Hc). unfold atomically.
  destruct (Hf (interfere own s)) as (HQ & Hs' & Hm'); [by apply (interfere_safe [] []); [set_solver..|]|by apply interfere_msgs|].
  destruct (f (interfere own s)). by split.
Qed.
Lemma now_spec : spec (now_of []) (fun _ => True).
Proof. by apply atomically_spec. Qed.

Lemma ensure_alive_spec p : spec (ensure_alive (provider_config p)) (fun _ => True).
Proof.
  unfold ensure_alive. eapply (hoare_bind _ _ _ _ (fun _ => True)); [by apply atomically_spec|].
  intros [] _; [by apply hoare_ret|]. apply hoare_throw. unfold provider_failure. simpl. tauto.
Qed.

Lemma lock_spec : spec lock_caches (fun _ => True).
Proof. intros [b [s cs]] (Hs & Hm & Hc). split; [done|]. split; [done|]. split; [done|]. by apply peers_keep. Qed.

Lemma in_caches_spec {A} (f : ProviderCaches -> option (A * ProviderCaches)) (Q : A -> Prop) :
  (forall cs, caches_ok cs -> exists a cs', f cs = Some (a, cs') /\ caches_ok cs' /\ Q a) ->
  spec (in_caches f) Q.
Proof.
  intros Hf [b [s cs]] (Hs & Hm & Hc). unfold in_caches.
  destruct (Hf cs Hc) as (a & cs' & -> & Hc' & HQ). by split.
Qed.

Lemma get_object_spec oid : spec (in_caches (get_object oid)) (fun v => forall p, v = Some p -> K oid p).
Proof.
  apply in_caches_spec. intros cs (Ho & Hh & Hn). unfold get_object, Cache.get_cloned.
  destruct (Cache.lru_all_get _ oid _ Ho) as (v & c & -> & Hc & Hv). by eexists _, _.
Qed.
Lemma get_header_spec oid : spec (in_caches (get_header oid)) (fun v => forall h, v = Some h -> good_header oid h).
Proof.
  apply in_caches_spec. intros cs (Ho & Hh & Hn). unfold get_header, Cache.get_cloned.
  destruct (Cache.lru_all_get _ oid _ Hh) as (v & c & -> & Hc & Hv). by eexists _, _.
Qed.
Lemma put_object_spec oid kind data : K oid (kind, data) -> spec (in_caches (put_object oid kind data)) (fun _ => True).
Proof.
  intros HK. apply in_caches_spec. intros cs (Ho & Hh & Hn). unfold put_object.
  destruct (Cache.lru_all_insert _ oid (kind, data) (lenN data) _ Ho HK) as (c & -> & Hc). by eexists _, _.
Qed.
Lemma put_header_spec oid h : good_header oid h -> spec (in_caches (put_header oid h)) (fun _ => True).
Proof.
  intros HK. apply in_caches_spec. intros cs (Ho & Hh & Hn). unfold put_header.
  destruct (Cache.lru_all_insert _ oid h 1 _ Hh HK) as (c & -> & Hc). by eexists _, _.
Qed.
Lemma verified_good oid kind data : K oid (kind, data) -> good_header oid (verified_read kind data).
Proof. intros HK _. by exists (kind, data). Qed.

Lemma fresh_absence_spec oid : spec (fresh_absence oid) (fun v => v = true -> Absent oid).
Proof.
  unfold fresh_absence. eapply hoare_bind; [apply now_spec|]. intros now _. apply in_caches_spec.
  intros cs (Ho & Hh & Hn). unfold contains_fresh. destruct (pc_ttl cs =? 0); [by eexists _, _|].
  destruct (Cache.lru_all_get _ oid _ Hn) as (v & c & -> & Hc & Hv). cbn [mbind option_bind].
  destruct v as [t|]; [destruct (now - t <? pc_ttl cs)|]; cbn [negb].
  - eexists _, _. split; [done|]. split; [done|]. intros _. by eapply Hv.
  - destruct (Cache.lru_all_remove _ oid _ Hc) as (v' & c' & -> & Hc'). by eexists _, _.
  - destruct (Cache.lru_all_remove _ oid _ Hc) as (v' & c' & -> & Hc'). by eexists _, _.
Qed.
Lemma record_absence_spec oid : Absent oid -> spec (record_absence oid) (fun _ => True).
Proof.
  intros HN. unfold record_absence. eapply hoare_bind; [apply now_spec|]. intros now _. apply in_caches_spec.
  intros cs (Ho & Hh & Hn). unfold negative_insert. destruct (pc_ttl cs =? 0); [by eexists _, _|].
  destruct (Cache.lru_all_insert _ oid now 1 _ Hn HN) as (c & -> & Hc). by eexists _, _.
Qed.

(** A rendezvous. *)
Lemma wait_spec p request : spec (send_and_wait (provider_config p) request) (fun r => good_reply (Ok r)).
Proof.
  intros [b [s cs]] (Hs & Hm & Hc).
  pose proof (send_and_wait_spec good_reply (provider_config p) request b s cs peers_good Hs Hm) as Hw.
  unfold wp in Hw. destruct (send_and_wait (provider_config p) request (b, (s, cs))) as [r [b' [s' cs']]].
  cbn [fst snd] in *. destruct Hw as [-> [[-> (e & -> & He)]|(id & Hr & Hm' & Ho & _)]].
  - split; [by apply provider_stop|done].
  - split; [|split; [by eapply own_safe|done]]. destruct r as [x|e]; [naive_solver|]. simpl.
    destruct Ho as [Hb|(e' & [= <-] & He)].
    + right. right. right. right. right. by exists e.
    + unfold call_failure in He. destruct He as [He|[-> |[-> |(n & q & He)]]].
      * by apply provider_stop.
      * unfold provider_failure. simpl. tauto.
      * unfold provider_failure. simpl. tauto.
      * right. right. right. right. left. by exists n, q, e.
Qed.

(** What is known of a decoded value. *)
Definition known_value (oid : Oid) (v : ProviderReplyValue) : Prop :=
  match v with
  | RNotFound => Absent oid
  | RHeader _ => True
  | RObject kind data => K oid (kind, data)
  end.
Definition known_result (oid : Oid) (r : ObjectReadResult) : Prop :=
  match r with
  | Some p => K oid p
  | None => Absent oid
  end.

Lemma request_results_spec p kind expected rb :
  spec (request_results p kind expected rb) (fun d =>
    dom d = list_to_set expected /\ within_ceiling rb (map_bytes (map_results d)) /\
    forall oid v, d !! oid = Some v -> known_value oid v /\ (kind = KObject -> forall h, v <> RHeader h)).
Proof.
  unfold request_results. eapply hoare_bind; [apply wait_spec|]. intros [rs|] Hg.
  2: { apply hoare_throw. unfold provider_failure. simpl. tauto. }
  apply (hoare_bind _ _ _ _ (fun _ => True)); [by intros w Hw; split|]. intros l _.
  destruct (check_results l kind (list_to_set expected) rb rs ∅ 0) as [[d n]|e] eqn:Ec.
  2: { eapply (hoare_bind _ _ _ _ (fun _ => False)); [|done]. apply hoare_lift. simpl.
    apply reply_provider. by eapply check_results_Err. }
  apply (hoare_bind _ _ _ _ (fun x => x = (d, n))); [by apply hoare_lift|]. intros ? ->.
  apply check_results_Ok in Ec as (Hdom & _ & Hce & Hv);
    [|by rewrite dom_empty|done|apply within_zero].
  destruct (size d =? _)%nat eqn:Es; cbn [negb].
  2: { apply hoare_throw. unfold provider_failure, reply_failure. simpl. tauto. }
  eapply hoare_bind; [apply (hoare_budget _ _ provider_stop)|].
  { intros b. unfold budget_stop. budget_cases; auto. }
  intros _ _. destruct (verify_results (map_to_list d)) as [u|e] eqn:Ev.
  2: { eapply (hoare_bind _ _ _ _ (fun _ => False)); [|done]. apply hoare_lift. simpl.
    apply reply_provider. by eapply verify_results_Err. }
  apply (hoare_bind _ _ _ _ (fun _ => True)); [by apply hoare_lift|]. intros _ _. apply hoare_ret. split_and!.
  - apply set_subseteq_size_eq; [done|]. rewrite size_dom. apply Nat.eqb_eq in Es. lia.
  - done.
  - intros oid v Hl. destruct (Hv oid v Hl) as [?|[Hin Hk]]; [done|]. split; [|done].
    simpl in Hg. rewrite Forall_forall in Hg. specialize (Hg _ Hin). destruct v; try done.
    apply Hg. eapply verify_results_Ok; [exact Ev|]. by apply elem_of_map_to_list.
Qed.

(** [try_header_read]: an absence is known, a verified header is that of a known
    object. *)
Lemma try_header_read_spec p oid :
  spec (try_header_read p oid) (fun h => match h with None => Absent oid | Some h => good_header oid h end).
Proof.
  unfold try_header_read. eapply (hoare_bind _ _ _ _ (fun _ => True)).
  { apply hoare_lift. unfold provider_ensure_oid. case_bool_decide; simpl; [done|].
    unfold provider_failure, reply_failure, plain_failure. simpl. tauto. }
  intros _ _. eapply hoare_bind; [apply ensure_alive_spec|]. intros _ _.
  eapply hoare_bind; [apply lock_spec|]. intros _ _. eapply hoare_bind; [apply get_header_spec|].
  intros [h|] Hh.
  { eapply hoare_bind; [apply hoare_charge_header, provider_stop|]. intros _ _. apply hoare_ret. auto. }
  eapply hoare_bind; [apply get_object_spec|]. intros [[k d]|] Ho.
  { eapply hoare_bind; [apply hoare_charge_header, provider_stop|]. intros _ _. apply hoare_ret.
    by apply verified_good, Ho. }
  eapply hoare_bind; [apply fresh_absence_spec|]. intros [] Hf.
  { eapply hoare_bind; [apply hoare_check, provider_stop|]. intros _ _. apply hoare_ret. auto. }
  eapply hoare_bind; [apply request_results_spec|]. intros d (Hd & _ & Hv).
  destruct (d !! oid) as [v|] eqn:El.
  2: { apply not_elem_of_dom in El. rewrite Hd in El. set_solver. }
  destruct (Hv _ _ El) as [Hk _]. destruct v as [|h|k data]; (eapply hoare_bind; [apply lock_spec|]); intros _ _.
  - eapply hoare_bind; [by apply record_absence_spec|]. intros _ _.
    eapply hoare_bind; [apply hoare_check, provider_stop|]. intros _ _. by apply hoare_ret.
  - eapply hoare_bind; [by apply put_header_spec|]. intros _ _.
    eapply hoare_bind; [apply hoare_charge_header, provider_stop|]. intros _ _. by apply hoare_ret.
  - eapply hoare_bind; [by apply put_object_spec|]. intros _ _.
    eapply hoare_bind; [by apply put_header_spec, verified_good|]. intros _ _.
    eapply hoare_bind; [apply hoare_charge_header, provider_stop|]. intros _ _. apply hoare_ret. by apply verified_good.
Qed.

(** The three loops of a batch read. *)
Definition known (found : gmap Oid ObjectReadResult) : Prop := map_Forall known_result found.

Lemma known_insert found oid r : known found -> known_result oid r -> known (<[oid := r]> found).
Proof. intros Hf Hr. by apply map_Forall_insert_2. Qed.

(** What the cache pass leaves: [misses], and what it [found]. *)
Definition resident_post (rb : ReadManyBudget) (oids : list Oid) (found : gmap Oid ObjectReadResult)
  (x : list Oid * (gmap Oid ObjectReadResult * N)) : Prop :=
  known x.2.1 /\ x.2.2 = N.min (map_bytes x.2.1) u64_max /\ within_ceiling rb (map_bytes x.2.1) /\
  found ⊆ x.2.1 /\ (forall oid, oid ∈ oids -> oid ∈ x.1 \/ is_Some (x.2.1 !! oid)).

Lemma resident_post_cons rb oid oids found found' x :
  found ⊆ found' -> is_Some (found' !! oid) ->
  resident_post rb oids found' x -> resident_post rb (oid :: oids) found x.
Proof.
  intros Hsub [r Hr] (? & ? & ? & Hsub' & Hall). split_and!; try done; [by etrans|].
  intros o [-> |Ho]%elem_of_cons; [|auto]. right. exists r. by eapply lookup_weaken.
Qed.

Lemma resident_loop_spec rb oids found n :
  known found -> n = N.min (map_bytes found) u64_max -> within_ceiling rb (map_bytes found) ->
  spec (resident_loop rb oids found n) (resident_post rb oids found).
Proof.
  revert found n. induction oids as [|oid oids IH]; intros found n Hk Hn Hc; cbn [resident_loop].
  { apply hoare_ret. split_and!; try done. set_solver. }
  case_bool_decide as Hin.
  { eapply hoare_post; [by apply IH|]. intros x. by apply resident_post_cons. }
  assert (found !! oid = None) as Hnone by (by apply eq_None_not_Some).
  assert (forall r n', known_result oid r -> n' = N.min (map_bytes (<[oid := r]> found)) u64_max ->
    within_ceiling rb (map_bytes (<[oid := r]> found)) ->
    spec (resident_loop rb oids (<[oid := r]> found) n') (resident_post rb (oid :: oids) found)) as Hstep.
  { intros r n' Hr Hn' Hw. eapply hoare_post; [apply IH; [by apply known_insert|done|done]|].
    intros x. apply resident_post_cons; [by apply insert_subseteq|]. rewrite lookup_insert_eq. done. }
  eapply hoare_bind; [apply get_object_spec|]. intros [[k d]|] Ho.
  - eapply (hoare_bind _ _ _ _ (fun _ => within_ceiling rb (map_bytes (<[oid := Some (k, d)]> found)))).
    + apply hoare_lift. destruct (enforce_read_many_budget _ rb) as [u|e] eqn:Ee; simpl.
      * subst n. rewrite sadd64_min in Ee. apply enforce_Ok in Ee; [|lia]. rewrite map_bytes_insert by done.
        simpl. unfold within_ceiling in *. destruct (max_total_bytes rb); [lia|done].
      * apply reply_provider. left. rewrite (enforce_Err _ _ _ Ee). unfold plain_failure. tauto.
    + intros _ Hw. apply Hstep; [by apply Ho| |done]. subst n. rewrite sadd64_min, map_bytes_insert by done. simpl. lia.
  - eapply hoare_bind; [apply fresh_absence_spec|]. intros [] Hf.
    + assert (map_bytes (<[oid := None]> found) = map_bytes found) as Hb by (by rewrite map_bytes_insert).
      apply Hstep; [by apply Hf|by rewrite Hb|by rewrite Hb].
    + eapply hoare_bind; [by apply IH|]. intros [misses [f' n']] (? & ? & ? & Hsub & Hall). apply hoare_ret.
      split_and!; try done. simpl in *. intros o [-> |Ho']%elem_of_cons; [left; set_solver|].
      destruct (Hall o Ho'); [left; set_solver|by right].
Qed.

Lemma absorb_loop_spec results misses found :
  known found ->
  (forall oid, oid ∈ misses -> exists v, results !! oid = Some v /\ known_value oid v /\ forall h, v <> RHeader h) ->
  spec (absorb_loop results misses found) (fun found' => known found' /\
    (forall oid, oid ∈ misses -> is_Some (found' !! oid)) /\ (forall oid, is_Some (found !! oid) -> is_Some (found' !! oid)) /\
    forall oid r, found' !! oid = Some r -> found !! oid = Some r \/ map_results results !! oid = Some r).
Proof.
  revert found. induction misses as [|oid misses IH]; intros found Hk Hm; cbn [absorb_loop].
  { apply hoare_ret. split_and!; try done; [set_solver|auto]. }
  destruct (Hm oid) as (v & Hl & Hv & Hh); [left|]. rewrite Hl.
  assert (forall v', known_result oid (value_result v') -> results !! oid = Some v' ->
    spec (absorb_loop results misses (<[oid := value_result v']> found)) (fun found' => known found' /\
    (forall o, o ∈ oid :: misses -> is_Some (found' !! o)) /\ (forall o, is_Some (found !! o) -> is_Some (found' !! o)) /\
    forall o r, found' !! o = Some r -> found !! o = Some r \/ map_results results !! o = Some r)) as Hstep.
  { intros v' Hv' Hl'. eapply hoare_post; [apply IH; [by apply known_insert|intros o Ho; apply Hm; by right]|].
    intros f' (Hkf & Hmf & Hsub & Hfrom). split_and!; [done| | |].
    - intros o [-> |Ho]%elem_of_cons; [|auto]. apply Hsub. by rewrite lookup_insert_eq.
    - intros o Ho. apply Hsub. rewrite lookup_insert. by case_decide.
    - intros o r Hr. destruct (Hfrom o r Hr) as [Ho|Ho]; [|by right].
      apply lookup_insert_Some in Ho as [[<- <-]|[_ Ho]]; [|by left]. right. unfold map_results. by rewrite lookup_fmap, Hl'. }
  destruct v as [|h|k d]; [| |].
  - eapply hoare_bind; [by apply record_absence_spec|]. intros _ _. by apply (Hstep RNotFound).
  - by destruct (Hh h).
  - eapply hoare_bind; [by apply put_object_spec|]. intros _ _.
    eapply hoare_bind; [by apply put_header_spec, verified_good|]. intros _ _. by apply (Hstep (RObject k d)).
Qed.

Lemma output_loop_spec found oids :
  (forall oid, oid ∈ oids -> is_Some (found !! oid)) ->
  spec (output_loop found oids) (fun rs => Forall2 (fun oid r => found !! oid = Some r) oids rs).
Proof.
  induction oids as [|oid oids IH]; intros Hall; cbn [output_loop]; [apply hoare_ret; constructor|].
  destruct (Hall oid) as [r Hr]; [left|]. rewrite Hr.
  assert (spec (output_loop found oids) (fun rs => Forall2 (fun oid r => found !! oid = Some r) oids rs)) as Hrest.
  { apply IH. intros o Ho. apply Hall. by right. }
  destruct r as [[k d]|].
  - eapply hoare_bind; [apply hoare_charge_object, provider_stop|]. intros _ _.
    eapply hoare_bind; [exact Hrest|]. intros rs Hrs. apply hoare_ret. by constructor.
  - eapply hoare_bind; [apply hoare_check, provider_stop|]. intros _ _.
    eapply hoare_bind; [exact Hrest|]. intros rs Hrs. apply hoare_ret. by constructor.
Qed.

Lemma provider_oids_spec p oids : spec (slift (provider_ensure_oids p oids)) (fun _ => True).
Proof.
  apply hoare_lift. induction oids as [|oid oids IH]; [done|]. cbn [provider_ensure_oids]. unfold provider_ensure_oid.
  case_bool_decide; simpl; [done|]. unfold provider_failure, reply_failure, plain_failure. simpl. tauto.
Qed.

(** [try_find_many_with_budget]: one known answer per ID, in order, within the
    batch ceiling when the IDs are distinct. *)
Lemma find_many_spec p oids rb :
  spec (try_find_many_with_budget p oids rb) (fun rs =>
    Forall2 known_result oids rs /\ (NoDup oids -> within_ceiling rb (total_bytes rs))).
Proof.
  unfold try_find_many_with_budget. eapply hoare_bind; [apply ensure_alive_spec|]. intros _ _.
  eapply hoare_bind; [apply provider_oids_spec|]. intros _ _. eapply hoare_bind; [apply lock_spec|]. intros _ _.
  eapply hoare_bind; [apply (resident_loop_spec rb oids ∅ 0); [by apply map_Forall_empty|done|apply within_zero]|].
  intros [misses [found n]] (Hk & Hn & Hc & _ & Hall). simpl in *.
  apply (hoare_bind _ _ _ _ (fun f => known f /\ (forall oid, oid ∈ oids -> is_Some (f !! oid)) /\
    within_ceiling rb (map_bytes f))).
  - destruct misses as [|m misses].
    { apply hoare_ret. split_and!; try done. intros o Ho. destruct (Hall o Ho) as [?|?]; [set_solver|done]. }
    set (ms := m :: misses) in *. eapply hoare_bind; [apply request_results_spec|]. intros d (Hd & Hcd & Hv).
    eapply hoare_bind; [apply lock_spec|]. intros _ _. eapply hoare_post; [apply absorb_loop_spec; [done|]|].
    + intros o Ho. assert (o ∈ dom d) as [v Hl]%elem_of_dom by (rewrite Hd; set_solver).
      exists v. destruct (Hv o v Hl). auto.
    + intros f (Hkf & Hm & Hsub & Hfrom). split_and!; [done| |].
      * intros o Ho. destruct (Hall o Ho); auto.
      * pose proof (map_bytes_split f found (map_results d) Hfrom).
        unfold within_ceiling in *. simpl in Hcd. destruct (max_total_bytes rb) as [mx|]; simpl in *; [|done].
        unfold ssub64 in Hcd. subst n. lia.
  - intros f (Hkf & Hin & Hw). eapply hoare_post; [by apply output_loop_spec|]. intros rs Hrs. split.
    + eapply Forall2_impl; [exact Hrs|]. intros o r Hr. by apply (Hkf o r).
    + intros Hnd. pose proof (total_bytes_lookups f oids rs Hnd Hrs). unfold within_ceiling in *.
      destruct (max_total_bytes rb); [lia|done].
Qed.

(** The other methods. *)
Lemma find_spec p oid : spec (provider_try_find p oid) (known_result oid).
Proof.
  unfold provider_try_find. eapply hoare_bind; [apply find_many_spec|]. intros rs [Hf _].
  apply Forall2_cons_inv_l in Hf as (r & rs' & Hr & Hf & ->). apply Forall2_nil_inv_l in Hf as ->.
  by apply hoare_ret.
Qed.

Lemma prefetch_spec p oids : spec (provider_prefetch p oids) (fun _ => True).
Proof.
  unfold provider_prefetch. destruct oids as [|o oids]; [by apply hoare_ret|].
  eapply hoare_bind; [apply ensure_alive_spec|]. intros _ _. eapply hoare_bind; [apply provider_oids_spec|]. intros _ _.
  eapply hoare_bind; [apply (hoare_budget _ _ provider_stop)|].
  { intros b. unfold budget_stop. budget_cases; auto. }
  intros _ _. eapply hoare_bind; [apply now_spec|]. intros now _.
  apply (hoare_bind _ _ _ _ (fun _ => True)); [by intros w Hw; split|]. intros d _.
  eapply (hoare_bind _ _ _ _ (fun _ => True)).
  { apply atomically_spec. intros s Hs Hm. split; [done|]. split; [|done]. by eapply own_safe, fetch_own. }
  intros id _. unfold send_request.
  eapply (hoare_bind _ _ _ _ (fun sent => forall e, sent = Err e -> exists n q, transport n q = Err e)).
  { apply atomically_spec. intros s Hs Hm. split; [|split; [|done]]; [eauto|].
    intros Hf. destruct (Hs Hf) as [Hi Hr]. split; [by destruct Hi|done]. }
  intros [u|e] Hsent; apply hoare_lift; [done|]. simpl. destruct (Hsent e eq_refl) as (n & q & Hq).
  right. right. right. right. left. eauto.
Qed.

Lemma refresh_spec : spec provider_refresh (fun _ => True).
Proof.
  unfold provider_refresh. eapply hoare_bind; [apply hoare_check, provider_stop|]. intros _ _.
  eapply hoare_bind; [apply lock_spec|]. intros _ _. apply in_caches_spec. intros cs (Ho & Hh & Hn).
  eexists _, _. split; [done|]. split; [|done]. split; [done|]. split; [done|]. by apply Cache.lru_all_clear.
Qed.

(** A new store satisfies the invariant. *)
Lemma provider_new_inv hash o :
  po_object_bytes (po_cache o) < u64_max -> po_header_entries (po_cache o) < u64_max ->
  provider_inv (ProviderOdb_new hash o).2.
Proof.
  intros Ho Hh. split; [|split].
  - intros _. split; [apply rv_inv_new|constructor].
  - split; constructor.
  - split; [by apply Cache.lru_all_new|]. split; [by apply Cache.lru_all_new|]. by apply Cache.lru_all_new.
Qed.

End Specs.

(* ------------------------------------------------------------------ *)
(** ** A truthful provider makes a lawful store *)

Section Lawful.
Context `{Env, Digests, !Peers ProviderPayload ProviderRequest, !CachePeers}.
Context (c : Oid -> ObjectReadResult) (Boundary : Error -> Prop).

(** The contents that the store shows its clients. *)
Definition held (oid : Oid) (p : Payload) : Prop := c oid = Some p.
Definition lacking (oid : Oid) : Prop := c oid = None.

Lemma known_contents oid r : known_result held lacking oid r -> r = c oid.
Proof. unfold known_result, held, lacking. by destruct r. Qed.

(** C5. The provider store keeps the object-store contract over the contents
    [c], whatever else the provider, the clock and the other threads do, when
    an absence that the provider reports is real and a payload that it sends
    and that verifies is the one in [c]. A provider may thus send garbage,
    repeat, omit, answer late or die: it shows as an error, never as contents. *)
Theorem provider_store_is_lawful (p : ProviderOdb) :
  good_peers (good_reply held lacking Boundary) ->
  (forall n cs, caches_ok held lacking cs -> caches_ok held lacking (peer_caches n cs)) ->
  LawfulDb (provider_db p) c (provider_inv held lacking Boundary) (provider_failure Boundary).
Proof.
  intros Hg Hk. constructor; simpl; intros.
  - eapply hoare_post; [by apply find_spec|]. apply known_contents.
  - apply hoare_without_object_charge. eapply hoare_post; [by apply find_spec|]. apply known_contents.
  - eapply hoare_post; [by apply try_header_read_spec|]. intros [h|]; [|done]. intros Hh Hv.
    destruct (Hh Hv) as (q & Hq & ->). unfold held in Hq. by rewrite Hq.
  - eapply hoare_post; [by apply find_many_spec|]. intros vs [Hf Hn]. split; [|done].
    clear Hn. induction Hf as [|oid r oids rs Hr Hf IH]; [done|]. simpl. by rewrite (known_contents _ _ Hr), IH.
  - by apply prefetch_spec.
Qed.

End Lawful.

(* ------------------------------------------------------------------ *)
(** ** No provider is trusted

    Without any assumption on the replies. *)

Section Verified.
Context `{Env, Digests, !Peers ProviderPayload ProviderRequest, !CachePeers}.
Abbreviation PW := (Rv ProviderPayload ProviderRequest * ProviderCaches)%type.

(** A client's operations, each with the budget of its job, and what they
    serve. *)
Inductive StoreOp : Type :=
| DoHeader (oid : Oid)
| DoFind (oid : Oid)
| DoFindMany (oids : list Oid) (rb : ReadManyBudget)
| DoPrefetch (oids : list Oid)
| DoRefresh.
Inductive Served : Type :=
| ServedObject (oid : Oid) (p : Payload)
| ServedHeader (oid : Oid) (h : HeaderRead).

Definition served_object (oid : Oid) (r : ObjectReadResult) : list Served :=
  match r with Some p => [ServedObject oid p] | None => [] end.
Definition store_op (p : ProviderOdb) (op : StoreOp) : DM PW (list Served) :=
  match op with
  | DoHeader oid =>
      let! h := try_header_with_provenance (provider_db p) oid in
      sret (match h with Some h => [ServedHeader oid h] | None => [] end)
  | DoFind oid => let! r := try_find (provider_db p) oid in sret (served_object oid r)
  | DoFindMany oids rb =>
      let! rs := try_find_many_bounded (provider_db p) oids rb in
      sret (concat (zip_with served_object oids rs))
  | DoPrefetch oids => let! _ := prefetch (provider_db p) oids in sret []
  | DoRefresh => let! _ := refresh (provider_db p) in sret []
  end.
Fixpoint store_ops (p : ProviderOdb) (ops : list (Budget * StoreOp)) (w : PW) : list Served * PW :=
  match ops with
  | [] => ([], w)
  | (b, op) :: ops =>
      let '(r, (_, w)) := store_op p op (b, w) in
      let '(served, w) := store_ops p ops w in
      (match r with Ok l => l | Err _ => [] end ++ served, w)
  end.

(** What verification guarantees of what is served. *)
Definition verified (oid : Oid) (p : Payload) : Prop := verify oid p.1 p.2 = Ok tt.
Definition served_ok (x : Served) : Prop :=
  match x with
  | ServedObject oid p => verified oid p
  | ServedHeader oid h => hr_provenance h = Verified -> exists p, verified oid p /\ hr_header h = header_of p
  end.
Definition anything {A} (_ : A) : Prop := True.
Abbreviation trusted_caches := (caches_ok verified anything).

Lemma any_reply m : good_reply verified anything anything m.
Proof.
  destruct m as [[rs|]|e]; try exact I. simpl. apply Forall_forall. intros [oid v] _.
  destruct v; try exact I. intros Hv. exact Hv.
Qed.

Lemma store_op_served p op :
  (forall n cs, trusted_caches cs -> trusted_caches (peer_caches n cs)) ->
  hoare (on_store (provider_inv verified anything anything)) anything (store_op p op) (Forall served_ok).
Proof.
  intros Hk. assert (good_peers (good_reply verified anything anything)) as Hg.
  { intros n [] _; try exact I; apply any_reply. }
  destruct op as [oid|oid|oids rb|oids|]; simpl.
  - eapply hoare_bind; [eapply hoare_conseq; [by apply try_header_read_spec|by intros; exact I|by intros h Hh; exact Hh]|].
    intros [h|] Hh; apply hoare_ret; [|done]. by apply Forall_singleton.
  - eapply hoare_bind; [eapply hoare_conseq; [by apply find_spec|by intros; exact I|by intros h Hh; exact Hh]|].
    intros [q|] Hq; apply hoare_ret; [|done]. by apply Forall_singleton.
  - eapply hoare_bind; [eapply hoare_conseq; [by apply find_many_spec|by intros; exact I|by intros h Hh; exact Hh]|].
    intros rs [Hf _]. apply hoare_ret. induction Hf as [|oid r oids rs Hr Hf IH]; [constructor|].
    simpl. apply Forall_app. split; [|done]. destruct r; [by apply Forall_singleton|constructor].
  - eapply hoare_bind; [eapply hoare_conseq; [by apply prefetch_spec|by intros; exact I|by intros h Hh; exact Hh]|].
    intros _ _. by apply hoare_ret.
  - eapply hoare_bind; [eapply hoare_conseq; [by apply refresh_spec|by intros; exact I|by intros h Hh; exact Hh]|].
    intros _ _. by apply hoare_ret.
Qed.

(** C6. No provider is trusted: from a new store, over any sequence of reads,
    prefetches and refreshes, whatever the provider replies, whenever it
    replies, and whatever other threads do (as long as they too put only
    verified payloads into the caches), every object served hashes to the ID
    it was asked for, and every header marked as verified is the header of an
    object that does. *)
Theorem provider_serves_only_verified hash o ops :
  po_object_bytes (po_cache o) < u64_max -> po_header_entries (po_cache o) < u64_max ->
  (forall n cs, trusted_caches cs -> trusted_caches (peer_caches n cs)) ->
  Forall served_ok (store_ops (ProviderOdb_new hash o).1 ops (ProviderOdb_new hash o).2).1.
Proof.
  intros Ho Hh Hk. assert (forall w, provider_inv verified anything anything w ->
    Forall served_ok (store_ops (ProviderOdb_new hash o).1 ops w).1) as Hall; [|by apply Hall, provider_new_inv].
  induction ops as [|[b op] ops IH]; intros w Hw; cbn [store_ops]; [constructor|].
  destruct (store_op (ProviderOdb_new hash o).1 op (b, w)) as [r [b' w']] eqn:Er.
  eapply hoare_run in Er; [|by apply store_op_served|done]. destruct Er as [Hr Hw'].
  specialize (IH w' Hw'). destruct (store_ops _ ops w') as [served w2]. simpl in *. apply Forall_app.
  split; [|done]. by destruct r.
Qed.

End Verified.

(* ------------------------------------------------------------------ *)
(** ** Concrete stores *)

Module Demo.

Definition hello : Payload := (Blob, bs "hello").

(** A provider that answers the first request with [reply]. *)
Definition answering (reply : ProviderReplyValue) : Peers ProviderPayload ProviderRequest := {|
  peer_acts := fun _ => [ATake 1 (Ok (Results [(toy_oid, reply)])); ASend 0];
  peer_delay := fun _ => 1;
  transport := fun _ _ => Ok tt
|}.
Definition alone : CachePeers := {| peer_caches := fun _ cs => cs |}.
Definition truthful : Peers ProviderPayload ProviderRequest := answering (RObject Blob (bs "hello")).
Definition forging : Peers ProviderPayload ProviderRequest := answering (RObject Blob (bs "forged")).

Definition contents (oid : Oid) : ObjectReadResult := if bool_decide (oid = toy_oid) then Some hello else None.
Definition options : ProviderOptions := mkProviderOptions 15000000000 (mkProviderCacheOptions 1024 16 60000000000).
Definition store : ProviderOdb := (ProviderOdb_new Sha1 options).1.
Definition start : Rv ProviderPayload ProviderRequest * ProviderCaches := (ProviderOdb_new Sha1 options).2.
Definition reads : list (Budget * StoreOp) :=
  [(Budget_unlimited, DoFind toy_oid); (Budget_unlimited, DoHeader toy_oid)].

(** The second read is served by the caches. *)
Example reads_truthful :
  let '(served, (s, _)) := @store_ops quiet toy_digests truthful alone store reads start in
  (served, length (rv_sent s)) =
  ([ServedObject toy_oid hello; ServedHeader toy_oid (mkHeaderRead (header_of hello) Verified)], 1%nat).
Proof. vm_compute. reflexivity. Qed.

(** A forged payload is refused. *)
Example read_forged :
  code <$> (match (@provider_try_find quiet toy_digests forging alone store toy_oid (Budget_unlimited, start)).1 with
            | Ok _ => None | Err e => Some e end) = Some HashMismatch.
Proof. vm_compute. reflexivity. Qed.

End Demo.

Lemma provider_store_is_lawful_witness :
  @LawfulDb _ (@provider_db quiet toy_digests Demo.truthful Demo.alone Demo.store) Demo.contents
    (@provider_inv toy_digests (held Demo.contents) (lacking Demo.contents) (fun _ => False))
    (@provider_failure Demo.truthful (fun _ => False)).
Proof.
  apply (@provider_store_is_lawful quiet toy_digests Demo.truthful Demo.alone Demo.contents (fun _ => False) Demo.store).
  - intros n a Ha. simpl in Ha. apply elem_of_cons in Ha as [-> |Ha].
    + simpl. apply Forall_singleton. intros _. vm_compute. reflexivity.
    + apply list_elem_of_singleton in Ha as ->. exact I.
  - intros n cs Hcs. exact Hcs.
Defined.

Lemma provider_serves_only_verified_witness :
  Forall (@served_ok toy_digests)
    (@store_ops quiet toy_digests Demo.forging Demo.alone Demo.store Demo.reads Demo.start).1.
Proof.
  apply (@provider_serves_only_verified quiet toy_digests Demo.forging Demo.alone Sha1 Demo.options Demo.reads).
  - vm_compute. reflexivity.
  - vm_compute. reflexivity.
  - intros n cs Hcs. exact Hcs.
Defined.
