(* ===== verification/RangeFetch.v ===== *)
(** * Manifests and byte ranges ([packfetch.rs], first half)

    What a published pack manifest must satisfy, the range requests of
    [CallbackRangeTransport] over the rendezvous of [Rendezvous.v], and
    [fetch_artifact], which tiles an artifact into ranges and reads them in
    windows. The trait [RangeTransport] is a record of operations; what it
    promises when its backend is honest is the class [HonestRanges].

    Keys, identifiers and generations are the UTF-8 bytes of Rust strings. *)

From Stdlib Require Import NArith Lia Strings.Byte Strings.String.
From stdpp Require Import prelude gmap strings list.
From S2P Require Import Prelude Errors Objects Budget Odb Rendezvous.

Open Scope N_scope.

(** [PackDescriptor] and [PackManifest]. *)
Record PackDescriptor : Type := mkDescriptor {
  pd_id : bytes;
  pd_pack_key : bytes;
  pd_index_key : bytes;
  pd_pack_size : N;
  pd_index_size : N;
  pd_etag : option bytes
}.
Record PackManifest : Type := mkManifest {
  mf_version : N;
  mf_generation : bytes;
  mf_hash : HashKind;
  mf_packs : list PackDescriptor;
  mf_loose : list bytes
}.

(** [protocol_error], [backend_error], [provider_down] and [provider_timeout]. *)
Definition range_protocol_error (m : string) : Error := Error_new ProviderProtocolError m.
Definition range_backend_error : Error := Error_retryable BackendError "range backend callback failed".
Definition range_provider_down : Error := Error_retryable ProviderDown "range backend provider is down".
Definition range_provider_timeout : Error := Error_retryable ProviderTimeout "range backend request timed out".

(** ** [PackManifest] *)

(** The loop of [validate] over the packs; [ids] is the set of those seen. *)
Fixpoint validate_packs (hash : HashKind) (packs : list PackDescriptor) (ids : gset Oid) : Res unit :=
  match packs with
  | [] => Ok tt
  | pack :: packs =>
      if bool_decide (pd_pack_key pack = []) || bool_decide (pd_index_key pack = []) then
        Err (range_protocol_error "pack manifest keys must not be empty")
      else if (pd_pack_size pack =? 0) || (pd_index_size pack =? 0) then
        Err (range_protocol_error "pack manifest sizes must be greater than zero")
      else
        let? id := map_err (fun _ => range_protocol_error "pack manifest ID is not a full hex digest")
                     (parse_hex (pd_id pack)) in
        if negb (bool_decide (oid_kind id = hash)) then
          Err (range_protocol_error "pack manifest ID length does not match its hash kind")
        else if bool_decide (id ∈ ids) then
          Err (range_protocol_error "pack manifest contains a duplicate pack ID")
        else validate_packs hash packs ({[id]} ∪ ids)
  end.

(** [PackManifest::validate]. *)
Definition manifest_validate (m : PackManifest) (expected_hash : HashKind) : Res unit :=
  if negb (mf_version m =? 1) then Err (range_protocol_error "pack manifest version must be 1")
  else if negb (bool_decide (mf_hash m = expected_hash)) then
    Err (range_protocol_error "pack manifest hash does not match the PackFetch store")
  else if bool_decide (mf_generation m = []) then
    Err (range_protocol_error "pack manifest generation must not be empty")
  else if negb (bool_decide (mf_loose m = [])) then
    Err (range_protocol_error "PackFetch 0.2 manifests must not contain loose objects")
  else validate_packs (mf_hash m) (mf_packs m) ∅.

(** [described_bytes] and [reply_bytes]. *)
Definition byte_total (message : string) (total : N) (parts : list N) : Res N :=
  ok_or (range_protocol_error message)
    (foldl (fun acc n => acc ≫= fun v => cadd64 v n) (Some total) parts).
Fixpoint described_loop (packs : list PackDescriptor) (total : N) : Res N :=
  match packs with
  | [] => Ok total
  | pack :: packs =>
      let? total := byte_total "pack manifest byte total overflows u64" total
                      [pd_pack_size pack; pd_index_size pack] in
      described_loop packs total
  end.
Definition described_bytes (m : PackManifest) : Res N := described_loop (mf_packs m) 0.

Definition reply_overflow : string := "pack manifest reply byte total overflows u64".
Definition pack_reply_parts (pack : PackDescriptor) : list N :=
  [lenN (pd_id pack); lenN (pd_pack_key pack); lenN (pd_index_key pack);
   match pd_etag pack with Some etag => lenN etag | None => 0 end; 32].
Fixpoint reply_packs (packs : list PackDescriptor) (total : N) : Res N :=
  match packs with
  | [] => Ok total
  | pack :: packs =>
      let? total := byte_total reply_overflow total (pack_reply_parts pack) in
      reply_packs packs total
  end.
Fixpoint reply_loose (loose : list bytes) (total : N) : Res N :=
  match loose with
  | [] => Ok total
  | key :: loose =>
      let? total := byte_total reply_overflow total [lenN key] in
      reply_loose loose total
  end.
Definition reply_bytes (m : PackManifest) : Res N :=
  let? total := byte_total reply_overflow 16 [lenN (mf_generation m)] in
  let? total := reply_packs (mf_packs m) total in
  reply_loose (mf_loose m) total.

(** ** Range requests *)

(** [ByteRange], [RangeRequestKind], [RangePayload] and [RangeRequest]. *)
Record ByteRange : Type := mkRange { br_key : bytes; br_offset : N; br_length : N }.
Inductive RangeRequestKind : Type :=
| KManifest
| KReadRanges (ranges : list ByteRange).
Inductive RangePayload : Type :=
| PayManifest (manifest : PackManifest)
| PayRanges (ranges : list bytes)
| PayRangeError.
Record RangeRequest : Type := mkRangeRequest {
  rg_id : N;
  rg_kind : RangeRequestKind;
  rg_deadline : N;
  rg_max_reply_bytes : N
}.

(** The trait [RangeTransport], with the provided [read_ranges_window]. *)
Record RangeTransport (T : Type) : Type := mkTransport {
  rt_manifest : DM T PackManifest;
  rt_read_ranges : list ByteRange -> DM T (list bytes);
  rt_read_ranges_window : list (list ByteRange) -> DM T (list (list bytes));
  rt_fail_all : Error -> T -> T
}.
Arguments mkTransport {T}.
Arguments rt_manifest {T}.
Arguments rt_read_ranges {T}.
Arguments rt_read_ranges_window {T}.
Arguments rt_fail_all {T}.

Fixpoint default_read_ranges_window {T} (read_ranges : list ByteRange -> DM T (list bytes))
  (batches : list (list ByteRange)) : DM T (list (list bytes)) :=
  match batches with
  | [] => sret []
  | ranges :: batches =>
      let! reply := read_ranges ranges in
      let! replies := default_read_ranges_window read_ranges batches in
      sret (reply :: replies)
  end.

(** ** [CallbackRangeTransport] *)

Section Callback.
Context {C : Type} `{Env, !Peers RangePayload RangeRequest}.
Abbreviation RangeRv := (Rv RangePayload RangeRequest).
Abbreviation CW := (RangeRv * C)%type.

(** [RangePendingTable]: the table of [Rendezvous.v] over range payloads. *)
Definition range_table_insert : N -> nat -> RangeRv -> RangeRv := table_insert.
Definition range_table_reply : N -> RangePayload -> RangeRv -> bool * RangeRv := table_reply.
Definition range_table_reply_error : N -> Error -> RangeRv -> bool * RangeRv := table_reply_error.
Definition range_table_cancel : N -> RangeRv -> bool * RangeRv := table_cancel.
Definition range_table_fail_all : Error -> RangeRv -> RangeRv := table_drain.

Definition range_config (request_timeout : N) : RvConfig :=
  mkRvConfig range_provider_down range_provider_timeout request_timeout.

(** The reply ceiling computed by [begin]. *)
Fixpoint range_bytes (ranges : list ByteRange) (total : N) : Res N :=
  match ranges with
  | [] => Ok total
  | range :: ranges =>
      let? total := byte_total "range reply byte total overflows u64" total [br_length range] in
      range_bytes ranges total
  end.
Definition max_reply_bytes (kind : RangeRequestKind) (b : Budget) : Res N :=
  match kind with
  | KManifest => Ok (ssub64 (max_provider_bytes (limits b)) (provider_bytes b))
  | KReadRanges ranges => range_bytes ranges 0
  end.

(** [begin]: the ceiling is a pure function of the arguments, so it is taken
    before the clock is read. *)
Definition begin_range (others : list N) (timeout : N) (kind : RangeRequestKind) : DM CW Ticket :=
  let! ceiling := (fun '(b, w) => (max_reply_bytes kind b, (b, w))) in
  begin others (range_config timeout) (fun id deadline _ => mkRangeRequest id kind deadline ceiling).

(** [wait]. *)
Definition wait_range (others : list N) (timeout : N) (t : Ticket) : DM CW RangePayload :=
  wait_loop others (range_config timeout) false (wait_fuel (range_config timeout)) t.

(** [manifest] and [read_ranges]. *)
Definition callback_manifest (timeout : N) : DM CW PackManifest :=
  let! t := begin_range [] timeout KManifest in
  let! payload := wait_range [] timeout t in
  match payload with
  | PayManifest m => sret m
  | PayRangeError => sthrow range_backend_error
  | PayRanges _ => sthrow (range_protocol_error "range backend manifest reply has the wrong shape")
  end.
Definition wrong_shape : Error :=
  range_protocol_error "range backend read_ranges reply has the wrong shape".
Definition ranges_of (payload : RangePayload) : Res (list bytes) :=
  match payload with
  | PayRanges replies => Ok replies
  | PayRangeError => Err range_backend_error
  | PayManifest _ => Err wrong_shape
  end.
Definition callback_read_ranges (timeout : N) (ranges : list ByteRange) : DM CW (list bytes) :=
  let! t := begin_range [] timeout (KReadRanges ranges) in
  let! payload := wait_range [] timeout t in
  slift (ranges_of payload).

(** The cancellation of the requests of a window. *)
Fixpoint cancel_all (ts : list Ticket) : DM CW unit :=
  match ts with
  | [] => sret tt
  | t :: ts =>
      let! _ := withdraw (tk_id <$> ts) (tk_id t) (tk_slot t) in
      cancel_all ts
  end.

(** [read_ranges_window]: open every request, cancelling those open when one
    cannot be opened; then wait for each in turn, cancelling those that remain
    when one fails. *)
Fixpoint open_window (timeout : N) (batches : list (list ByteRange)) (pending : list Ticket)
  : DM CW (list Ticket) :=
  match batches with
  | [] => sret pending
  | ranges :: batches =>
      let! request := catch (begin_range (tk_id <$> pending) timeout (KReadRanges ranges)) in
      match request with
      | Ok t => open_window timeout batches (pending ++ [t])
      | Err e =>
          let! _ := cancel_all pending in
          sthrow e
      end
  end.
Fixpoint wait_window (timeout : N) (pending : list Ticket) (replies : list (list bytes))
  : DM CW (list (list bytes)) :=
  match pending with
  | [] => sret replies
  | t :: remaining =>
      let! result := catch (wait_range (tk_id <$> remaining) timeout t) in
      match (let? payload := result in ranges_of payload) with
      | Ok reply => wait_window timeout remaining (replies ++ [reply])
      | Err e =>
          let! _ := cancel_all remaining in
          sthrow e
      end
  end.
Definition callback_read_ranges_window (timeout : N) (batches : list (list ByteRange))
  : DM CW (list (list bytes)) :=
  let! pending := open_window timeout batches [] in
  wait_window timeout pending [].

(** [fail_all]: the flag, then the table. *)
Definition callback_fail_all (e : Error) : CW -> CW :=
  fun '(s, c) => (do_act (ADrain e) (do_act ADown s), c).

Definition callback_transport (timeout : N) : RangeTransport CW :=
  mkTransport (callback_manifest timeout) (callback_read_ranges timeout)
    (callback_read_ranges_window timeout) callback_fail_all.

End Callback.

(** ** [fetch_artifact] *)

(** [PackFetchOptions], its default and [validate]. [usize] is 64 bits. *)
Record PackFetchOptions : Type := mkFetchOptions {
  fo_destination : bytes;
  fo_chunk_bytes : N;
  fo_concurrency : nat;
  fo_max_hydration_bytes : N;
  fo_max_bytes : option N
}.
Definition DEFAULT_CHUNK_BYTES : N := 8 * 1024 * 1024.
Definition PackFetchOptions_default : PackFetchOptions :=
  mkFetchOptions [] DEFAULT_CHUNK_BYTES 8 (4 * 1024 * 1024 * 1024) None.
Definition options_validate (o : PackFetchOptions) : Res unit :=
  if fo_chunk_bytes o =? 0 then Err (Error_new InvalidArgument "chunk_bytes must be greater than zero")
  else if (fo_concurrency o =? 0)%nat then
    Err (Error_new InvalidArgument "concurrency must be greater than zero")
  else if bool_decide (fo_destination o = []) then
    Err (Error_new InvalidArgument "PackFetch destination must not be empty")
  else if fo_max_hydration_bytes o =? 0 then
    Err (Error_new InvalidArgument "max_hydration_bytes must be greater than zero")
  else Ok tt.

(** The loop that tiles an artifact. *)
Fixpoint tile (fuel : nat) (key : bytes) (offset size chunk : N) : list ByteRange :=
  match fuel with
  | O => []
  | S fuel =>
      if offset <? size then
        let length := N.min chunk (size - offset) in
        mkRange key offset length :: tile fuel key (offset + length) size chunk
      else []
  end.
(** Enough for any chunk of at least one byte. *)
Definition tile_fuel (size chunk : N) : nat := N.to_nat (size / chunk + 1).
Definition artifact_ranges (key : bytes) (size chunk : N) : list ByteRange :=
  tile (tile_fuel size chunk) key 0 size chunk.

Section Fetch.
Context {T : Type} `{Env} (rt : RangeTransport T) (concurrency : nat).

(** The checks on the replies of a window. *)
Fixpoint take_ranges (batch : list ByteRange) (reply : list bytes) (output : bytes) : DM T bytes :=
  match batch, reply with
  | range :: batch, data :: reply =>
      if negb (lenN data =? br_length range) then
        sthrow (range_protocol_error "range backend returned a short or over-long range")
      else
        let! _ := on_budget (charge_provider_bytes (lenN data)) in
        take_ranges batch reply (output ++ data)
  | _, _ => sret output
  end.
Fixpoint take_batches (batches : list (list ByteRange)) (replies : list (list bytes)) (output : bytes)
  : DM T bytes :=
  match batches, replies with
  | batch :: batches, reply :: replies =>
      if negb (length reply =? length batch)%nat then
        sthrow (range_protocol_error "range backend returned the wrong number of range replies")
      else
        let! output := take_ranges batch reply output in
        take_batches batches replies output
  | _, _ => sret output
  end.

(** [for _ in window { budget.charge_provider_request()?; }]. *)
Fixpoint charge_requests (window : list ByteRange) : DM T unit :=
  match window with
  | [] => sret tt
  | _ :: window =>
      let! _ := on_budget charge_provider_request in
      charge_requests window
  end.

Fixpoint fetch_windows (windows : list (list ByteRange)) (output : bytes) : DM T bytes :=
  match windows with
  | [] => sret output
  | window :: windows =>
      let! _ := charge_requests window in
      let batches := (fun range => [range]) <$> window in
      let! replies := rt_read_ranges_window rt batches in
      if negb (length replies =? length batches)%nat then
        sthrow (range_protocol_error "range backend omitted a read_ranges callback reply")
      else
        let! output := take_batches batches replies output in
        fetch_windows windows output
  end.

(** [PackFetchOdb::fetch_artifact]. *)
Definition fetch_artifact (key : bytes) (size chunk_bytes : N) : DM T bytes :=
  let ranges := artifact_ranges key size chunk_bytes in
  let! output := fetch_windows (chunks (length ranges) concurrency ranges) [] in
  if negb (lenN output =? size) then
    sthrow (range_protocol_error "range backend artifact length does not match the manifest")
  else sret output.

End Fetch.

(* ------------------------------------------------------------------ *)
(** ** A window of requests *)

Section Window.
Context {C : Type} `{Env, !Peers RangePayload RangeRequest}.
Implicit Types (s : Rv RangePayload RangeRequest) (c : C) (ts : list Ticket).

(** The phases of several requests of one thread, which are distinct, as long
    as IDs did not wrap around. *)
Definition own_all (rest : list (N * Phase)) s : Prop :=
  rv_fetches s < u64_max -> NoDup rest.*1 /\ rv_inv s /\ own_rest rest s.

#[local] Instance own_all_perm : Proper (Permutation ==> eq ==> iff) own_all.
Proof.
  intros l l' Hl s _ <-. unfold own_all, own_rest. by setoid_rewrite Hl.
Qed.

Lemma own_all_safe rest s : own_all rest s -> safe s.
Proof. intros Hs Hf. destruct (Hs Hf) as (_ & Hi & _). split; [done|constructor]. Qed.
Lemma own_all_with rest s : own_all rest s -> safe_with rest s.
Proof. intros Hs Hf. by destruct (Hs Hf) as (_ & ? & ?). Qed.
Lemma own_all_cons rest id ph s0 s :
  own_all rest s0 -> rv_fetches s0 <= rv_fetches s -> own_inv rest id ph s -> own_all ((id, ph) :: rest) s.
Proof.
  intros H0 Hle Hs Hf. destruct (H0 ltac:(lia)) as (Hnd & _). destruct (Hs Hf) as (Hi & Hph & Hid & Hr).
  split_and!; [by constructor|done|by constructor].
Qed.
Lemma own_all_uncons rest id ph s :
  own_all ((id, ph) :: rest) s -> own_inv rest id ph s /\ own_all rest s.
Proof.
  intros Hs. split; intros Hf; destruct (Hs Hf) as (Hnd & Hi & Hr); apply NoDup_cons in Hnd as [Hid Hnd];
    apply Forall_cons in Hr as [Hph Hr]; by split_and!.
Qed.
Lemma own_all_returned rest s id :
  own_all rest s -> (id, Returned) ∈ rest -> rv_fetches s < u64_max ->
  rv_phases s !! id = Some Returned /\ rv_pending s !! id = None.
Proof.
  intros Hs Hid Hf. destruct (Hs Hf) as (_ & Hi & Hr). unfold own_rest in Hr. rewrite Forall_forall in Hr.
  apply Hr in Hid. split; [done|]. by apply returned_absent.
Qed.

(** Open tickets wait; closed ones returned. *)
Definition held ts : list (N * Phase) := (fun t => (tk_id t, Waiting (tk_slot t))) <$> ts.
Definition closed ts : list (N * Phase) := (fun t => (tk_id t, Returned)) <$> ts.
Definition all_returned (done : list (N * Phase)) : Prop := Forall (fun x => x.2 = Returned) done.

Lemma held_covered ts done id ph :
  all_returned done -> (id, ph) ∈ held ts ++ done -> id ∈ tk_id <$> ts \/ ph = Returned.
Proof.
  intros Hd [(t & Ht & Hin)%list_elem_of_fmap|Hin]%elem_of_app.
  - left. simplify_eq. apply list_elem_of_fmap. eauto.
  - right. unfold all_returned in Hd. rewrite Forall_forall in Hd. by apply Hd in Hin.
Qed.
Lemma elem_closed ts t : t ∈ ts -> (tk_id t, Returned) ∈ closed ts.
Proof. intros Ht. apply list_elem_of_fmap. eauto. Qed.

(** Every message is acceptable here. *)
Abbreviation any := (fun _ : result Error RangePayload => True).
Lemma msgs_any s : msgs any s.
Proof. split; apply Forall_forall; done. Qed.
Lemma peers_any : good_peers any.
Proof. by intros n [] _. Qed.

(** Cancelling closes every ticket of the list. *)
Lemma cancel_all_spec ts done b s c :
  all_returned done -> own_all (held ts ++ done) s ->
  wp (cancel_all ts) (fun r '(b', (s', c')) => r = Ok tt /\ c' = c /\
    own_all (closed ts ++ done) s' /\ advances s s') (b, (s, c)).
Proof.
  revert done s. induction ts as [|t ts IH]; intros done s Hd Hs; simpl.
  { apply wp_ret. by split_and!. }
  apply own_all_uncons in Hs as [Hs Hr]. apply wp_bind.
  eapply (wp_withdraw (held ts ++ done) (tk_id <$> ts)); [by intros ? ? ?; eapply held_covered|apply peers_any|..].
  - exact Hs.
  - apply msgs_any.
  - by right.
  - intros s1 Hs1 _ Hf _ Ha. eapply wp_mono; [apply (IH ((tk_id t, Returned) :: done)); [by constructor|]|].
    + rewrite <- Permutation_middle. by eapply own_all_cons.
    + intros r [b' [s' c']] (-> & -> & Hs' & Ha'). split_and!; [done..| |by etrans].
      by rewrite Permutation_middle.
Qed.

(** Deadlines are within the request timeout. *)
Definition in_time (timeout : N) ts s : Prop := Forall (fun t => tk_deadline t - rv_clock s <= timeout) ts.
Lemma in_time_later timeout ts s s' : rv_clock s <= rv_clock s' -> in_time timeout ts s -> in_time timeout ts s'.
Proof. intros Hc Ht. eapply Forall_impl; [exact Ht|]. simpl. lia. Qed.

(** All the requests [ids] returned. *)
Definition settled (ids : list N) s : Prop :=
  rv_fetches s < u64_max -> forall id, id ∈ ids -> rv_phases s !! id = Some Returned /\ rv_pending s !! id = None.

(** What opening a window leaves: every request with its ticket, or every
    request returned. *)
Definition opened timeout batches ts s (r : Res (list Ticket)) s' : Prop :=
  safe s' /\ exists requests, rv_sent s' = rv_sent s ++ requests /\
    match r with
    | Ok ts' => exists new, ts' = ts ++ new /\ own_all (held ts') s' /\ in_time timeout ts' s' /\
                tk_id <$> new = rg_id <$> requests /\ rg_kind <$> requests = KReadRanges <$> batches
    | Err _ => settled ((tk_id <$> ts) ++ (rg_id <$> requests)) s'
    end.

Lemma open_fails timeout batches ts done requests b s0 s c e :
  all_returned done -> own_all (held ts ++ done) s -> rv_sent s = rv_sent s0 ++ requests ->
  (forall q, q ∈ requests -> (rg_id q, Returned) ∈ done) ->
  wp (let! _ := cancel_all ts in sthrow e)
    (fun r '(b', (s', c')) => c' = c /\ opened timeout batches ts s0 r s') (b, (s, c)).
Proof.
  intros Hd Hs Hsent Hq. apply wp_bind. eapply wp_mono; [by apply (cancel_all_spec ts done)|].
  intros r [b1 [s1 c1]] (-> & -> & Hs1 & _ & Hsent1 & _). cbv beta iota. apply wp_throw. split; [done|].
  split; [by eapply own_all_safe|]. exists requests. split; [congruence|]. intros Hf id Hid.
  eapply own_all_returned; [done| |done].
  apply elem_of_app in Hid as [Hid|Hid]; apply list_elem_of_fmap in Hid as (x & -> & Hx); apply elem_of_app;
    [left; by apply elem_closed|right; by apply Hq].
Qed.

Lemma wp_catch {A} (m : DM (Rv RangePayload RangeRequest * C) A) Q w :
  wp m (fun r w' => Q (Ok r) w') w -> wp (catch m) Q w.
Proof. unfold wp, catch. by destruct (m w). Qed.

Lemma open_window_spec timeout batches ts b s c :
  own_all (held ts) s -> in_time timeout ts s ->
  wp (open_window timeout batches ts)
    (fun r '(b', (s', c')) => c' = c /\ opened timeout batches ts s r s') (b, (s, c)).
Proof.
  revert ts s b. induction batches as [|ranges batches IH]; intros ts s b Hs Ht; simpl.
  { apply wp_ret. split; [done|]. split; [by eapply own_all_safe|]. exists []. rewrite app_nil_r. split; [done|].
    exists []. rewrite app_nil_r. by split_and!. }
  apply wp_bind, wp_catch. unfold begin_range. apply wp_bind. unfold wp at 1. cbn [fst snd].
  destruct (max_reply_bytes (KReadRanges ranges) b) as [n|e].
  2: { apply (open_fails _ _ _ [] []); [constructor|by rewrite app_nil_r|by rewrite app_nil_r|set_solver]. }
  eapply wp_mono.
  { apply (begin_spec (held ts) (tk_id <$> ts)); [|apply peers_any|by apply own_all_with|apply msgs_any].
    intros id ph Hin. eapply (held_covered _ []); [constructor|by rewrite app_nil_r]. }
  intros [t|e] [b1 [s1 c1]] (-> & -> & Hc & Hf & Hr).
  - destruct Hr as (Hs1 & _ & Hd & Hsent). eapply wp_mono; [apply IH|].
    + unfold held. rewrite fmap_app. simpl. rewrite (Permutation_app_comm _ [_]). by eapply own_all_cons.
    + apply Forall_app. split; [by eapply in_time_later|by apply Forall_singleton].
    + intros r [b2 [s2 c2]] (-> & Hsafe & requests & Hsent2 & Hr). split; [done|]. split; [done|].
      eexists (_ :: requests). split; [rewrite Hsent2, Hsent, <- app_assoc; done|]. destruct r as [ts'|e].
      * destruct Hr as (new & -> & Hs2 & Ht2 & Hids & Hk). exists (t :: new). rewrite <- app_assoc in *.
        split_and!; [done..| |]; simpl; by f_equal.
      * revert Hr. rewrite fmap_app, <- app_assoc. done.
  - destruct Hr as (id & d & [Hs1 _] & Hsent).
    assert (own_all (held ts ++ [(id, Returned)]) s1) as Hs2.
    { rewrite (Permutation_app_comm _ [_]). by eapply own_all_cons. }
    destruct Hsent as [Hsent|Hsent].
    + apply (open_fails _ _ _ [(id, Returned)] []); [by repeat constructor|done|by rewrite app_nil_r|set_solver].
    + eapply (open_fails _ _ _ [(id, Returned)]); [by repeat constructor|done..|].
      intros q ->%list_elem_of_singleton. set_solver.
Qed.

(** Waiting for a window: the answers in order, or every request withdrawn. *)
Lemma wait_window_spec timeout ts done acc b s c :
  all_returned done -> own_all (held ts ++ done) s -> in_time timeout ts s ->
  wp (wait_window timeout ts acc)
    (fun r '(b', (s', c')) => c' = c /\ advances s s' /\ own_all (closed ts ++ done) s' /\
       forall replies, r = Ok replies -> exists new, replies = acc ++ new /\
         (rv_fetches s' < u64_max ->
          Forall2 (fun t reply => (tk_id t, Ok (PayRanges reply)) ∈ rv_received s') ts new)) (b, (s, c)).
Proof.
  revert done acc s b. induction ts as [|t ts IH]; intros done acc s b Hd Hs Ht; simpl.
  { apply wp_ret. split_and!; [done..|]. intros replies [= ->]. exists []. rewrite app_nil_r. by split. }
  apply own_all_uncons in Hs as [Hs Hr]. apply Forall_cons in Ht as [Htd Ht].
  apply wp_bind, wp_catch. destruct t as [id k d]. simpl in *. eapply wp_mono.
  { apply (wait_loop_spec (held ts ++ done) (tk_id <$> ts)).
    - intros i ph Hin. by eapply held_covered.
    - apply peers_any.
    - exact Hs.
    - apply msgs_any.
    - by apply wait_fuel_enough. }
  intros r [b1 [s1 c1]] (-> & Ha & Hs1 & _ & _ & Hrec). pose proof Ha as (Hc & Hsent & Hrcv & Hf).
  assert (own_all (held ts ++ (id, Returned) :: done) s1) as Hs2.
  { rewrite <- Permutation_middle. by eapply own_all_cons. }
  assert (all_returned ((id, Returned) :: done)) as Hd2 by (by constructor).
  pose proof (in_time_later _ _ _ _ Hc Ht) as Ht1.
  destruct (let? payload := r in ranges_of payload) as [reply|e] eqn:Er.
  - destruct r as [payload|]; [|done]. simpl in Er. destruct payload as [|l|]; simplify_eq/=.
    eapply wp_mono; [by apply (IH ((id, Returned) :: done))|].
    intros r [b2 [s2 c2]] (-> & Ha2 & Hs3 & Hok). split; [done|]. split; [by etrans|].
    split; [by rewrite Permutation_middle|]. intros replies ->. destruct (Hok _ eq_refl) as (new & -> & Hnew).
    exists (reply :: new). split; [by rewrite <- app_assoc|]. intros Hf2. destruct Ha2 as (_ & _ & Hrcv2 & Hf12).
    constructor; [|by apply Hnew]. simpl. apply Hrcv2. destruct Hrec as [?|(e & ? & _)]; [lia|done|done].
  - apply wp_bind. eapply wp_mono; [by apply (cancel_all_spec ts ((id, Returned) :: done))|].
    intros r' [b2 [s2 c2]] (-> & -> & Hs3 & Ha2). apply wp_throw. split; [done|]. split; [by etrans|].
    split; [by rewrite Permutation_middle|]. intros replies. done.
Qed.

Lemma range_window_spec timeout batches b s c :
  safe s ->
  wp (callback_read_ranges_window timeout batches) (fun r '(b', (s', c')) =>
  safe s' /\ c' = c /\ exists requests, rv_sent s' = rv_sent s ++ requests /\
    (rv_fetches s' < u64_max ->
     (forall q, q ∈ requests -> rv_phases s' !! rg_id q = Some Returned /\ rv_pending s' !! rg_id q = None) /\
     forall replies, r = Ok replies ->
       NoDup (rg_id <$> requests) /\ rg_kind <$> requests = KReadRanges <$> batches /\
       Forall2 (fun q reply => (rg_id q, Ok (PayRanges reply)) ∈ rv_received s') requests replies)) (b, (s, c)).
Proof.
  intros Hs. unfold callback_read_ranges_window. apply wp_bind.
  eapply wp_mono; [apply open_window_spec; [|constructor]|].
  { intros Hf. destruct (Hs Hf) as [Hi _]. split_and!; [constructor|done|constructor]. }
  intros [ts|e] [b1 [s1 c1]] (-> & Hsafe & requests & Hsent & Hr).
  - destruct Hr as (new & -> & Hs1 & Ht & Hids & Hk). simpl in *.
    eapply wp_mono; [apply (wait_window_spec _ _ []); [constructor|by rewrite app_nil_r|done]|].
    intros r2 [b2 [s2 c2]] (-> & (_ & Hsent2 & _) & Hs2 & Hok). rewrite app_nil_r in Hs2.
    split; [by eapply own_all_safe|]. split; [done|]. exists requests. split; [congruence|]. intros Hf.
    assert (NoDup (rg_id <$> requests)) as Hnd.
    { rewrite <- Hids. destruct (Hs2 Hf) as (Hnd & _). revert Hnd. unfold closed. by rewrite <- list_fmap_compose. }
    split.
    + intros q Hq. eapply own_all_returned; [done| |done].
      assert (rg_id q ∈ tk_id <$> new) as (t & -> & Hin)%list_elem_of_fmap by (rewrite Hids; by apply list_elem_of_fmap_2).
      by apply elem_closed.
    + intros replies ->. destruct (Hok _ eq_refl) as (rs & -> & Hrs). split_and!; [done..|].
      set (R := fun id (reply : list bytes) => (id, Ok (PayRanges reply)) ∈ rv_received s2).
      assert (Forall2 R (tk_id <$> new) rs) as HR by (apply Forall2_fmap_l; by apply Hrs).
      rewrite Hids in HR. by apply Forall2_fmap_l in HR.
  - split; [done|]. split; [done|]. exists requests. split; [done|]. intros Hf. split; [|done].
    intros q Hq. apply Hr; [done|]. simpl. by apply list_elem_of_fmap_2.
Qed.

(** C16. A window of range requests settles: whatever the peers, the clock and
    the budget do, and on every path, each request that the window sent has
    returned and left nothing in the pending table. When the window succeeds,
    it sent one request per batch, in order and with distinct IDs, and its
    [i]-th reply is the answer that was received for the [i]-th request. *)
Theorem range_window_settles timeout batches b s c r b' s' c' :
  safe s -> callback_read_ranges_window timeout batches (b, (s, c)) = (r, (b', (s', c'))) ->
  safe s' /\ c' = c /\ exists requests, rv_sent s' = rv_sent s ++ requests /\
    (rv_fetches s' < u64_max ->
     (forall q, q ∈ requests -> rv_phases s' !! rg_id q = Some Returned /\ rv_pending s' !! rg_id q = None) /\
     forall replies, r = Ok replies ->
       NoDup (rg_id <$> requests) /\ rg_kind <$> requests = KReadRanges <$> batches /\
       Forall2 (fun q reply => (rg_id q, Ok (PayRanges reply)) ∈ rv_received s') requests replies).
Proof. intros Hs Hrun. exact (wp_run _ _ _ _ _ (range_window_spec timeout batches b s c Hs) Hrun). Qed.

End Window.

(* ------------------------------------------------------------------ *)
(** ** Artifacts *)

(** The bytes a range names. *)
Definition slice_of (blob : bytes -> bytes) (r : ByteRange) : bytes :=
  take (N.to_nat (br_length r)) (drop (N.to_nat (br_offset r)) (blob (br_key r))).

(** The replies to a window. *)
Definition answers (blob : bytes -> bytes) (batches : list (list ByteRange)) : list (list bytes) :=
  (fun batch : list ByteRange => slice_of blob <$> batch) <$> batches.

(** A transport whose backend returns the ranges of the artifacts [blob], or
    fails with [F]. *)
Class HonestRanges {T} (rt : RangeTransport T) (blob : bytes -> bytes) (I : T -> Prop) (F : Error -> Prop) : Prop := {
  honest_window batches :
    hoare (on_store I) F (rt_read_ranges_window rt batches)
      (fun replies => replies = answers blob batches)
}.

(** The provided window is honest when single reads are. *)
Lemma default_window_honest {T} (read : list ByteRange -> DM T (list bytes)) blob I F batches :
  (forall ranges, hoare (on_store I) F (read ranges) (fun reply => reply = slice_of blob <$> ranges)) ->
  hoare (on_store I) F (default_read_ranges_window read batches)
    (fun replies => replies = answers blob batches).
Proof.
  intros Hread. induction batches as [|batch batches IH]; simpl; [by apply hoare_ret|].
  eapply hoare_bind; [apply Hread|]. intros reply ->. eapply hoare_bind; [apply IH|]. intros replies ->.
  by apply hoare_ret.
Qed.

(** The ranges tile the artifact: laid end to end they are its first [size]
    bytes, and none reaches past them. *)
Lemma tile_covers blob fuel key offset size chunk :
  0 < chunk -> offset <= size -> size - offset <= N.of_nat fuel * chunk ->
  concat (slice_of blob <$> tile fuel key offset size chunk) =
    take (N.to_nat (size - offset)) (drop (N.to_nat offset) (blob key)).
Proof.
  intros Hc. revert offset. induction fuel as [|fuel IH]; intros offset Ho Hf; cbn [tile].
  { simpl in Hf. replace (size - offset) with 0 by lia. done. }
  destruct (offset <? size) eqn:E; [apply N.ltb_lt in E|apply N.ltb_ge in E; by replace (size - offset) with 0 by lia].
  rewrite fmap_cons. cbn [concat]. rewrite IH by lia. unfold slice_of. cbn [br_key br_offset br_length].
  set (len := N.min chunk (size - offset)). assert (len <= size - offset) by lia.
  replace (N.to_nat (offset + len)) with (N.to_nat offset + N.to_nat len)%nat by lia. rewrite <- drop_drop.
  generalize (drop (N.to_nat offset) (blob key)). intros l.
  replace (N.to_nat (size - offset)) with (N.to_nat len + N.to_nat (size - (offset + len)))%nat by lia.
  by rewrite take_take_drop.
Qed.
Lemma tile_inside fuel key offset size chunk :
  Forall (fun r => br_key r = key /\ br_offset r + br_length r <= size) (tile fuel key offset size chunk).
Proof.
  revert offset. induction fuel as [|fuel IH]; intros offset; cbn [tile]; [constructor|].
  destruct (offset <? size) eqn:E; [apply N.ltb_lt in E|constructor]. constructor; [|done]. split; [done|].
  cbn [br_offset br_length]. lia.
Qed.
Lemma tile_fuel_enough size chunk : 0 < chunk -> size <= N.of_nat (tile_fuel size chunk) * chunk.
Proof.
  intros Hc. unfold tile_fuel. rewrite N2Nat.id. pose proof (N.div_mod size chunk ltac:(lia)).
  pose proof (N.mod_lt size chunk ltac:(lia)). nia.
Qed.

Section Artifacts.
Context {T : Type} `{Env} (rt : RangeTransport T) (blob : bytes -> bytes) (I : T -> Prop) (F : Error -> Prop)
  `{!HonestRanges rt blob I F}.
Let F' (e : Error) : Prop := F e \/ budget_stop e.
Let whole (r : ByteRange) : Prop := lenN (slice_of blob r) = br_length r.

Lemma stop_F' e : budget_stop e -> F' e.
Proof. by right. Qed.

Lemma charge_requests_spec (window : list ByteRange) : hoare (on_store I) F' (charge_requests window) (fun _ => True).
Proof.
  induction window as [|r window IH]; simpl; [by apply hoare_ret|]. eapply hoare_bind; [|by intros _ _; apply IH].
  apply hoare_budget; [apply stop_F'|]. intros b. unfold budget_stop. budget_cases; auto.
Qed.

(** One range per batch, each answered with its bytes. *)
Lemma take_batches_spec (window : list ByteRange) out :
  Forall whole window ->
  hoare (on_store I) F' (take_batches ((fun r => [r]) <$> window)
    (answers blob ((fun r => [r]) <$> window)) out)
    (fun o => o = out ++ concat (slice_of blob <$> window)).
Proof.
  intros Hw. revert out. induction Hw as [|r window Hr Hw IH]; intros out; simpl; [apply hoare_ret; by rewrite app_nil_r|].
  unfold whole in Hr. rewrite Hr, N.eqb_refl. simpl. eapply (hoare_bind _ _ _ _ (fun o => o = out ++ slice_of blob r)).
  - eapply hoare_bind; [|by intros _ _; apply hoare_ret]. apply hoare_budget; [apply stop_F'|].
    intros b. unfold budget_stop. budget_cases; auto.
  - intros o ->. eapply hoare_post; [apply IH|]. intros o ->. by rewrite <- app_assoc.
Qed.

Lemma fetch_windows_spec (windows : list (list ByteRange)) out :
  Forall whole (concat windows) ->
  hoare (on_store I) F' (fetch_windows rt windows out)
    (fun o => o = out ++ concat (slice_of blob <$> concat windows)).
Proof.
  revert out. induction windows as [|window windows IH]; intros out Hw; simpl; [apply hoare_ret; by rewrite app_nil_r|].
  simpl in Hw. apply Forall_app in Hw as [Hw Hws]. eapply hoare_bind; [apply charge_requests_spec|]. intros _ _.
  eapply hoare_bind; [eapply hoare_conseq; [apply honest_window|by left|by intros ? Hx; exact Hx]|]. intros replies ->.
  unfold answers. rewrite length_fmap, Nat.eqb_refl. simpl. eapply hoare_bind; [by apply take_batches_spec|]. intros o ->.
  eapply hoare_post; [by apply IH|]. intros o ->. by rewrite fmap_app, concat_app, app_assoc.
Qed.

(** C17. [fetch_artifact] is exact: against a backend that returns the ranges
    it is asked for, it returns the first [size] bytes of the artifact, however
    they were cut into chunks and windows, or it stops with an error of the
    transport or of the budget, and with no other. *)
Theorem fetch_artifact_exact concurrency key size chunk b t r b' t' :
  (0 < concurrency)%nat -> 0 < chunk -> size <= lenN (blob key) -> I t ->
  fetch_artifact rt concurrency key size chunk (b, t) = (r, (b', t')) ->
  I t' /\
  match r with
  | Ok out => out = take (N.to_nat size) (blob key)
  | Err e => F e \/ budget_stop e
  end.
Proof.
  intros Hn Hc Hsize Ht Hrun. pose proof (tile_fuel_enough size chunk Hc) as Hfuel.
  assert (hoare (on_store I) F' (fetch_artifact rt concurrency key size chunk)
    (fun o => o = take (N.to_nat size) (blob key))) as Hspec.
  { unfold fetch_artifact, artifact_ranges. set (ranges := tile _ key 0 size chunk).
    assert (concat (chunks (length ranges) concurrency ranges) = ranges) as Hcat by (by apply concat_chunks).
    eapply hoare_bind; [apply fetch_windows_spec|].
    - rewrite Hcat. eapply Forall_impl; [apply tile_inside|]. intros q [Hk Hq]. unfold whole, slice_of.
      rewrite Hk. unfold lenN in *. rewrite length_take, length_drop. lia.
    - intros o ->. rewrite Hcat. unfold ranges. rewrite tile_covers by lia. rewrite N.sub_0_r. simpl.
      replace (lenN _ =? size) with true; [by apply hoare_ret|]. symmetry. apply N.eqb_eq. unfold lenN in *.
      rewrite drop_0, length_take. lia. }
  specialize (Hspec (b, t) Ht). rewrite Hrun in Hspec. destruct Hspec as [? ?]. split; [done|]. by destruct r.
Qed.

End Artifacts.

(** Without any trust in the backend, the size is right. *)
Lemma fetch_artifact_size {T} `{Env} (rt : RangeTransport T) concurrency key size chunk w out w' :
  fetch_artifact rt concurrency key size chunk w = (Ok out, w') -> lenN out = size.
Proof.
  unfold fetch_artifact. intros (o & w1 & _ & Ho)%sbind_Ok. destruct (lenN o =? size) eqn:E; simplify_eq/=.
  unfold sret in Ho. simplify_eq. by apply N.eqb_eq.
Qed.

(** A validated manifest: every ID is a digest of the store's hash, no two
    packs have the same one, and no size is zero. *)
Definition described (hash : HashKind) (pack : PackDescriptor) (o : Oid) : Prop :=
  parse_hex (pd_id pack) = Ok o /\ oid_kind o = hash /\ 0 < pd_pack_size pack /\ 0 < pd_index_size pack.

Lemma validate_packs_Ok hash packs ids u :
  validate_packs hash packs ids = Ok u ->
  exists oids, Forall2 (described hash) packs oids /\ NoDup oids /\ forall o, o ∈ oids -> o ∉ ids.
Proof.
  revert ids. induction packs as [|pack packs IH]; intros ids Hv; simpl in Hv.
  { exists []. split_and!; [constructor..|set_solver]. }
  destruct (_ || _); [done|]. destruct (_ || _) eqn:Hz; [done|]. apply orb_false_iff in Hz as [Hp Hi].
  apply rbind_Ok in Hv as (o & Ho & Hv). destruct (parse_hex (pd_id pack)) as [o'|] eqn:Ep; simplify_eq/=.
  case_bool_decide as Hk; simpl in Hv; [|done]. case_bool_decide as Hin; [done|].
  apply IH in Hv as (oids & Hall & Hnd & Hids). exists (o :: oids). split_and!.
  - constructor; [|done]. split_and!; [done..| |]; apply N.eqb_neq in Hp, Hi; lia.
  - constructor; [|done]. intros Hin'. apply (Hids _ Hin'). set_solver.
  - intros o' [->|Ho']%elem_of_cons; [done|]. apply Hids in Ho'. set_solver.
Qed.

Lemma manifest_validate_Ok m hash u :
  manifest_validate m hash = Ok u ->
  mf_hash m = hash /\ exists oids, Forall2 (described hash) (mf_packs m) oids /\ NoDup oids.
Proof.
  unfold manifest_validate. repeat (case_match; [done|]). intros Hv.
  assert (mf_hash m = hash) as Hh by (destruct (bool_decide_reflect (mf_hash m = hash)); [done|done]).
  rewrite Hh in Hv. apply validate_packs_Ok in Hv as (oids & ? & ? & _). eauto.
Qed.

(* ------------------------------------------------------------------ *)
(** ** Concrete runs *)

Module RangeDemo.

(** Peers that answer the first two requests, and a backend that is one
    artifact. *)
Definition answering : Peers RangePayload RangeRequest := {|
  peer_acts := fun _ => [ATake 2 (Ok (PayRanges [bs "world"])); ATake 1 (Ok (PayRanges [bs "hello "])); ASend 1; ASend 0];
  peer_delay := fun _ => 1;
  transport := fun _ _ => Ok tt
|}.
Definition batches : list (list ByteRange) := [[mkRange (bs "k") 0 6]; [mkRange (bs "k") 6 5]].
Definition run := @callback_read_ranges_window unit quiet answering 120000000 batches
  (Budget_unlimited, (Rv_new, tt)).

Definition blob (_ : bytes) : bytes := bs "hello world".
Definition read (ranges : list ByteRange) : DM unit (list bytes) := sret (slice_of blob <$> ranges).
Definition memory : RangeTransport unit :=
  mkTransport (sthrow range_backend_error) read (default_read_ranges_window read) (fun _ t => t).
#[global] Instance memory_honest : HonestRanges memory blob (fun _ => True) (fun _ => False).
Proof. split. intros bat. apply default_window_honest. intros ranges. by apply hoare_ret. Qed.

Example window_answers : run.1 = Ok [[bs "hello "]; [bs "world"]].
Proof. vm_compute. reflexivity. Qed.
Example window_empty : size (rv_pending run.2.2.1) = 0%nat.
Proof. vm_compute. reflexivity. Qed.

(** A backend that never answers: the window fails and withdraws both. *)
Definition silent : Peers RangePayload RangeRequest :=
  {| peer_acts := fun _ => []; peer_delay := fun _ => 1; transport := fun _ _ => Ok tt |}.
Example window_times_out :
  let '(r, (_, (s, _))) := @callback_read_ranges_window unit quiet silent 120000000 batches
    (Budget_unlimited, (Rv_new, tt)) in
  (r, size (rv_pending s), rv_phases s !! 2) = (Err range_provider_timeout, 0%nat, Some Returned).
Proof. vm_compute. reflexivity. Qed.

End RangeDemo.

Lemma range_window_settles_witness :
  let '(r, (b', (s', c'))) := RangeDemo.run in
  safe s' /\ c' = tt /\ exists requests, rv_sent s' = [] ++ requests /\
    (rv_fetches s' < u64_max ->
     (forall q, q ∈ requests -> rv_phases s' !! rg_id q = Some Returned /\ rv_pending s' !! rg_id q = None) /\
     forall replies, r = Ok replies ->
       NoDup (rg_id <$> requests) /\ rg_kind <$> requests = KReadRanges <$> RangeDemo.batches /\
       Forall2 (fun q reply => (rg_id q, Ok (PayRanges reply)) ∈ rv_received s') requests replies).
Proof.
  unfold RangeDemo.run. destruct (callback_read_ranges_window _ _ _) as [r [b' [s' c']]] eqn:E.
  refine (@range_window_settles unit quiet RangeDemo.answering 120000000 RangeDemo.batches Budget_unlimited
    Rv_new tt r b' s' c' _ E).
  intros _. split; [apply rv_inv_new|constructor].
Defined.

Lemma fetch_artifact_exact_witness :
  let '(r, (b', t')) := @fetch_artifact unit quiet RangeDemo.memory 2 (bs "k") 11 4 (Budget_unlimited, tt) in
  r = Ok (bs "hello world") /\
  match r with
  | Ok out => out = take (N.to_nat 11) (RangeDemo.blob (bs "k"))
  | Err e => False \/ budget_stop e
  end.
Proof.
  destruct (@fetch_artifact unit quiet RangeDemo.memory 2 (bs "k") 11 4 (Budget_unlimited, tt)) as [r [b' t']] eqn:E.
  split; [|exact (proj2 (@fetch_artifact_exact unit quiet RangeDemo.memory RangeDemo.blob (fun _ => True)
    (fun _ => False) RangeDemo.memory_honest 2 (bs "k") 11 4 Budget_unlimited tt r b' t' ltac:(lia) ltac:(lia) ltac:(vm_compute; discriminate) I E))].
  apply (f_equal fst) in E. vm_compute in E. symmetry. exact E.
Defined.
