(* ===== verification/Layered.v ===== *)
(** * Read-through composition of stores with a verified payload cache
    ([layered_odb.rs])

    [CacheLayer] over the slab LRU of [Lru.v], and [LayeredOdb], an ordered
    union of stores with at most one cache at a position of that order. The
    mutable state of a composition is its cache; the lower stores' states are
    the world [T] they share. A [None] of the LRU model, where the source
    would panic, becomes an [internal_error] here, which the contract's
    failure set excludes. *)

From Stdlib Require Import NArith Lia Strings.Byte Strings.String.
From stdpp Require Import prelude gmap strings list.
From S2P Require Import Prelude Errors Objects Budget Lru Odb.

Open Scope N_scope.

(** [CacheOptions]. *)
Record CacheOptions : Type := mkCacheOptions {
  co_max_bytes : N;
  co_max_entries : N;
  co_max_object_bytes : N
}.

(** [CacheState]; a [CachedObject] is a [Payload]. *)
Abbreviation PayloadCache := (@Cache.LruCache (HashKind * Oid) Payload _ _).
Record CacheState : Type := mkCacheState {
  objects_lru : PayloadCache;
  evictions : N
}.

Definition invalid_argument (m : string) : Error := Error_new InvalidArgument m.
Definition short_batch_error : Error :=
  Error_new BackendError "layer returned a short batch — ObjectDb contract violation".
Definition panic_error : Error := Error_new InternalError "panic".

(** [verified_header]. *)
Definition verified_header (kind : ObjectKind) (n : N) : HeaderRead :=
  mkHeaderRead (mkHeader kind n) Verified.

(** [CacheLayer::new]. *)
Definition CacheLayer_new (o : CacheOptions) : Res CacheState :=
  if co_max_bytes o =? 0 then Err (invalid_argument "cache max_bytes must be greater than zero")
  else if co_max_entries o =? 0 then
    Err (invalid_argument "cache max_entries must be greater than zero")
  else if co_max_object_bytes o =? 0 then
    Err (invalid_argument "cache max_object_bytes must be greater than zero")
  else Ok (mkCacheState (Cache.LruCache_new (co_max_bytes o)) 0).

(** [CacheLayer::stats]. *)
Definition cache_layer_stats (s : CacheState) : CacheStats :=
  mkCacheStats (Cache.used (objects_lru s)) (N.of_nat (Cache.len (objects_lru s))) (evictions s).

(** The eviction loop of [CacheLayer::insert] on the entry count. *)
Fixpoint make_room (fuel : nat) (max_entries : N) (s : CacheState) : option CacheState :=
  match fuel with
  | O => None
  | S fuel =>
      if max_entries <=? N.of_nat (Cache.len (objects_lru s)) then
        '(popped, c) ← Cache.pop_lru (objects_lru s);
        match popped with
        | None => Some (mkCacheState c (evictions s))
        | Some _ => make_room fuel max_entries (mkCacheState c (sadd64 (evictions s) 1))
        end
      else Some s
  end.

(** [CacheLayer::insert] on the locked state. *)
Definition cache_store (o : CacheOptions) (oid : Oid) (kind : ObjectKind) (data : bytes)
  (s : CacheState) : option CacheState :=
  let n := lenN data in
  if (co_max_object_bytes o <? n) || (co_max_bytes o <? n) then Some s
  else
    let key := (oid_kind oid, oid) in
    '(removed, c) ← Cache.remove key (objects_lru s);
    let s := mkCacheState c (evictions s) in
    s ← match removed with
        | Some _ => Some s
        | None => make_room (S (Cache.len c)) (co_max_entries o) s
        end;
    '(ev, c) ← Cache.insert_counting_evictions key (kind, data) n (objects_lru s);
    Some (mkCacheState c (sadd64 (evictions s) ev)).

Section LayeredOps.
Context `{Env} {T : Type}.

(** [CacheLayer::get]: the lookup, then the hit or miss counter. *)
Definition cache_get (oid : Oid) : DM (CacheState * T) ObjectReadResult :=
  fun '(b, (s, t)) =>
    match Cache.get_cloned (oid_kind oid, oid) (objects_lru s) with
    | Some (value, c) =>
        (Ok value, (match value with Some _ => record_cache_hit b | None => record_cache_miss b end,
                    (mkCacheState c (evictions s), t)))
    | None => (Err panic_error, (b, (s, t)))
    end.

Definition cache_insert (o : CacheOptions) (oid : Oid) (kind : ObjectKind) (data : bytes)
  : DM (CacheState * T) unit :=
  fun '(b, (s, t)) =>
    match cache_store o oid kind data s with
    | Some s => (Ok tt, (b, (s, t)))
    | None => (Err panic_error, (b, (s, t)))
    end.

(** A call into a lower store. *)
Definition on_lower {A} (m : DM T A) : DM (CacheState * T) A :=
  fun '(b, (s, t)) => let '(r, (b, t)) := m (b, t) in (r, (b, (s, t))).

(** [LayeredOdb]. *)
Record LayeredOdb : Type := mkLayered {
  lay_hash : HashKind;
  lay_layers : list (ObjectDb T);
  lay_cache : option (nat * CacheOptions)
}.

(** [LayeredOdb::new], with the initial cache state. *)
Definition LayeredOdb_new (layers : list (ObjectDb T)) (cache : option (nat * CacheOptions))
  : Res (LayeredOdb * CacheState) :=
  match layers with
  | [] => Err (invalid_argument "a layered object database requires at least one store")
  | first :: _ =>
      let hash := hash_kind first in
      if existsb (fun layer => negb (bool_decide (hash_kind layer = hash))) layers then
        Err (Error_new HashMismatch "layered object stores use different hash algorithms")
      else
        match cache with
        | Some (index, options) =>
            if (index <? length layers)%nat then
              let? s := CacheLayer_new options in
              Ok (mkLayered hash layers (Some (index, options)), s)
            else Err (invalid_argument "a cache layer must precede at least one object store")
        | None => Ok (mkLayered hash layers None, mkCacheState (Cache.LruCache_new 0) 0)
        end
  end.

(** [ensure_oid], [cache_at], [cache_before] and [has_cache]. *)
Definition ensure_oid (l : LayeredOdb) (oid : Oid) : Res unit :=
  if bool_decide (oid_kind oid = lay_hash l) then Ok tt
  else Err (Error_new InvalidOid "object ID hash does not match the layered store").
Definition cache_at (l : LayeredOdb) (i : nat) : option CacheOptions :=
  match lay_cache l with
  | Some (index, o) => if (index =? i)%nat then Some o else None
  | None => None
  end.
Definition cache_before (l : LayeredOdb) (i : nat) : option CacheOptions :=
  match lay_cache l with
  | Some (index, o) => if (index <=? i)%nat then Some o else None
  | None => None
  end.
Definition has_cache (l : LayeredOdb) : bool :=
  match lay_cache l with Some _ => true | None => false end.

(** [try_header_with_provenance]: the loop over the layers from [index]. *)
Fixpoint header_loop (l : LayeredOdb) (oid : Oid) (index : nat) (layers : list (ObjectDb T))
  : DM (CacheState * T) (option HeaderRead) :=
  match layers with
  | [] => sret None
  | layer :: layers =>
      let! cached := (match cache_at l index with
                      | Some _ => cache_get oid
                      | None => sret None
                      end) in
      match cached with
      | Some (kind, data) =>
          let! _ := on_budget charge_header in
          sret (Some (verified_header kind (lenN data)))
      | None =>
          let! read := smap_err (with_layer index)
                         (on_lower (try_header_with_provenance layer oid)) in
          match read with
          | Some read => sret (Some read)
          | None => header_loop l oid (S index) layers
          end
      end
  end.
Definition layered_try_header_with_provenance (l : LayeredOdb) (oid : Oid)
  : DM (CacheState * T) (option HeaderRead) :=
  let! _ := slift (ensure_oid l oid) in
  header_loop l oid 0 (lay_layers l).
Definition layered_try_header (l : LayeredOdb) (oid : Oid)
  : DM (CacheState * T) (option ObjectHeader) :=
  let! read := layered_try_header_with_provenance l oid in
  sret (hr_header <$> read).

(** [try_find_many_bounded], loop by loop. The accumulator holds the resolved
    objects and the saturating byte count. *)
Abbreviation Acc := (gmap Oid ObjectReadResult * N)%type.

Fixpoint ensure_oids (l : LayeredOdb) (oids : list Oid) : Res unit :=
  match oids with
  | [] => Ok tt
  | oid :: oids =>
      let? _ := ensure_oid l oid in
      ensure_oids l oids
  end.

(** First occurrences only: [filter(|oid| seen.insert( *oid))]. *)
Fixpoint first_occurrences (seen : gset Oid) (oids : list Oid) : list Oid :=
  match oids with
  | [] => []
  | oid :: oids =>
      if bool_decide (oid ∈ seen) then first_occurrences seen oids
      else oid :: first_occurrences ({[oid]} ∪ seen) oids
  end.

(** Serving from the cache. *)
Fixpoint cache_pass (rb : ReadManyBudget) (oids : list Oid) (acc : Acc)
  : DM (CacheState * T) (list Oid * Acc) :=
  match oids with
  | [] => sret ([], acc)
  | oid :: oids =>
      let! cached := cache_get oid in
      match cached with
      | Some (kind, data) =>
          let! _ := on_budget (charge_object (lenN data)) in
          let n := sadd64 acc.2 (lenN data) in
          let! _ := slift (enforce_read_many_budget n rb) in
          cache_pass rb oids (<[oid := Some (kind, data)]> acc.1, n)
      | None =>
          let! (still, acc) := cache_pass rb oids acc in
          sret (oid :: still, acc)
      end
  end.

(** Taking over a layer's answers. *)
Fixpoint answer_pass (cache : option CacheOptions) (rb : ReadManyBudget)
  (answers : list (Oid * ObjectReadResult)) (acc : Acc) : DM (CacheState * T) (list Oid * Acc) :=
  match answers with
  | [] => sret ([], acc)
  | (oid, Some (kind, data)) :: answers =>
      let n := sadd64 acc.2 (lenN data) in
      let! _ := slift (enforce_read_many_budget n rb) in
      let! _ := (match cache with
                 | Some o => cache_insert o oid kind data
                 | None => sret tt
                 end) in
      answer_pass cache rb answers (<[oid := Some (kind, data)]> acc.1, n)
  | (oid, None) :: answers =>
      let! (still, acc) := answer_pass cache rb answers acc in
      sret (oid :: still, acc)
  end.

Fixpoint layers_loop (l : LayeredOdb) (rb : ReadManyBudget) (index : nat)
  (layers : list (ObjectDb T)) (unresolved : list Oid) (acc : Acc)
  : DM (CacheState * T) (list Oid * Acc) :=
  match layers with
  | [] => sret (unresolved, acc)
  | layer :: layers =>
      let! (unresolved, acc) := (match cache_at l index with
                                 | Some _ => cache_pass rb unresolved acc
                                 | None => sret (unresolved, acc)
                                 end) in
      match unresolved with
      | [] => sret ([], acc)
      | _ :: _ =>
          let remaining := mkReadManyBudget ((fun m => ssub64 m acc.2) <$> max_total_bytes rb) in
          let! values := smap_err (with_layer index)
                           (on_lower (try_find_many_bounded layer unresolved remaining)) in
          if negb (length values =? length unresolved)%nat then
            sthrow (with_layer index short_batch_error)
          else
            let! (unresolved, acc) := answer_pass (cache_before l index) rb
                                        (zip unresolved values) acc in
            layers_loop l rb (S index) layers unresolved acc
      end
  end.

Definition layered_try_find_many_bounded (l : LayeredOdb) (oids : list Oid) (rb : ReadManyBudget)
  : DM (CacheState * T) (list ObjectReadResult) :=
  let! _ := slift (ensure_oids l oids) in
  let! (unresolved, acc) := layers_loop l rb 0 (lay_layers l) (first_occurrences ∅ oids) (∅, 0) in
  let resolved := foldl (fun m oid => <[oid := None]> m) acc.1 unresolved in
  sret ((fun oid => default None (resolved !! oid)) <$> oids).

Definition layered_try_find_many (l : LayeredOdb) (oids : list Oid)
  : DM (CacheState * T) (list ObjectReadResult) :=
  layered_try_find_many_bounded l oids ReadManyBudget_default.

Definition layered_try_find (l : LayeredOdb) (oid : Oid) : DM (CacheState * T) ObjectReadResult :=
  let! values := layered_try_find_many l [oid] in
  match values with
  | [value] => sret value
  | _ => sthrow short_batch_error
  end.

(** [prefetch]: every layer is told, the first error is reported. *)
Fixpoint prefetch_loop (layers : list (ObjectDb T)) (oids : list Oid) (first_error : option Error)
  : DM (CacheState * T) unit :=
  match layers with
  | [] => match first_error with Some e => sthrow e | None => sret tt end
  | layer :: layers =>
      fun w =>
        let '(r, w) := on_lower (prefetch layer oids) w in
        let first_error := match first_error, r with
                           | None, Err e => Some e
                           | _, _ => first_error
                           end in
        prefetch_loop layers oids first_error w
  end.
Definition layered_prefetch (l : LayeredOdb) (oids : list Oid) : DM (CacheState * T) unit :=
  prefetch_loop (lay_layers l) oids None.

(** [refresh]: a real failure wins over an acceptance, which wins over a
    refusal. *)
Fixpoint refresh_loop (index : nat) (layers : list (ObjectDb T)) (accepted : bool)
  (first_unsupported first_error : option Error) : DM (CacheState * T) unit :=
  match layers with
  | [] =>
      match first_error with
      | Some e => sthrow e
      | None =>
          if accepted then sret tt
          else sthrow (default (Error_new UnsupportedOperation "no layer supports refresh")
                         first_unsupported)
      end
  | layer :: layers =>
      fun w =>
        let '(r, w) := on_lower (refresh layer) w in
        match r with
        | Ok _ => refresh_loop (S index) layers true first_unsupported first_error w
        | Err e =>
            if bool_decide (code e = UnsupportedOperation) then
              refresh_loop (S index) layers accepted
                (match first_unsupported with Some _ => first_unsupported
                 | None => Some (with_layer index e) end) first_error w
            else
              refresh_loop (S index) layers accepted first_unsupported
                (match first_error with Some _ => first_error
                 | None => Some (with_layer index e) end) w
        end
  end.
Definition layered_refresh (l : LayeredOdb) : DM (CacheState * T) unit :=
  refresh_loop 0 (lay_layers l) false None None.

(** [impl ObjectDb for LayeredOdb]. *)
Definition layered_db (l : LayeredOdb) : ObjectDb (CacheState * T) :=
  {| hash_kind := lay_hash l;
     shallow_roots := None;
     try_header := layered_try_header l;
     try_header_with_provenance := layered_try_header_with_provenance l;
     try_find := layered_try_find l;
     try_find_graph := default_try_find_graph (layered_try_find l);
     try_find_many := layered_try_find_many l;
     try_find_many_bounded := layered_try_find_many_bounded l;
     prefetch := layered_prefetch l;
     supports_prefetch := existsb supports_prefetch (lay_layers l);
     cache_stats := fun '(s, _) => if has_cache l then cache_layer_stats s else CacheStats_default;
     refresh := layered_refresh l |}.

End LayeredOps.
Arguments LayeredOdb : clear implicits.

(* ------------------------------------------------------------------ *)
(** ** The cache refines a set of valid entries *)

Section CacheInv.
Context (valid : Oid -> Payload -> Prop).

(** Every resident entry is filed under its own ID and satisfies [valid],
    weighs its payload's length, and is small enough to be admitted; the slab
    is well formed and within the entry bound. *)
Definition entry_ok (o : CacheOptions) (e : Cache.Entry) : Prop :=
  exists oid, Cache.e_key e = (oid_kind oid, oid) /\ valid oid (Cache.e_value e) /\
    Cache.e_weight e = lenN (Cache.e_value e).2 /\ Cache.e_weight e <= co_max_object_bytes o.

Definition cache_inv (o : CacheOptions) (s : CacheState) : Prop :=
  exists es, Cache.represents (objects_lru s) es /\
    Cache.capacity (objects_lru s) = co_max_bytes o /\
    (forall e, e ∈ es -> entry_ok o e) /\
    0 < co_max_entries o /\ lenN es <= co_max_entries o.

Lemma cache_get_inv o s oid :
  cache_inv o s ->
  exists v c, Cache.get_cloned (oid_kind oid, oid) (objects_lru s) = Some (v, c) /\
    cache_inv o (mkCacheState c (evictions s)) /\ (forall p, v = Some p -> valid oid p).
Proof.
  intros (es & Hr & Hcap & Hv & Hm & Hl). unfold Cache.get_cloned.
  destruct (Cache.get_refines (oid_kind oid, oid) _ _ Hr) as (c & E & Hr' & Hc').
  exists (fst (Cache.spec_get (oid_kind oid, oid) es)), c. split; [done|].
  pose proof (Cache.spec_without_length (oid_kind oid, oid) es) as Hlen.
  unfold Cache.spec_get in *. destruct (Cache.spec_find (oid_kind oid, oid) es) as [e|] eqn:Eh;
    cbn [fst snd] in *.
  - apply head_Some_elem_of, list_elem_of_filter in Eh as [Ek Ee].
    destruct (Hv e Ee) as (oid' & Ek' & Hval & _). rewrite Ek' in Ek. simplify_eq. split.
    + eexists. split; [exact Hr'|]. split; [simpl; congruence|]. split; [|split; [done|]].
      * intros e' [He'%Cache.spec_without_subset|He']%elem_of_app; [by apply Hv|].
        apply list_elem_of_singleton in He' as ->. by apply Hv.
      * unfold lenN in *. len.
    + by intros p [= <-].
  - split; [|done]. exists es. split; [done|]. split; [simpl; congruence|done].
Qed.

(** Making room drops entries, never more than there are, and ends. *)
Lemma make_room_inv o fuel s :
  cache_inv o s -> (Cache.len (objects_lru s) < fuel)%nat ->
  exists s', make_room fuel (co_max_entries o) s = Some s' /\ cache_inv o s' /\
    N.of_nat (Cache.len (objects_lru s')) < co_max_entries o.
Proof.
  revert s. induction fuel as [|fuel IH]; intros s Hs Hf; [lia|]. cbn [make_room].
  destruct (co_max_entries o <=? N.of_nat (Cache.len (objects_lru s))) eqn:E.
  - destruct Hs as (es & Hr & Hcap & Hv & Hm & Hl). pose proof (Cache.represents_len _ _ Hr) as Hlen.
    apply N.leb_le in E. destruct es as [|e es]; [simpl in *; lia|].
    destruct (Cache.pop_refines _ _ Hr) as (c & -> & Hr' & Hc'). cbn [mbind option_bind Cache.spec_pop fst snd] in *.
    apply IH.
    + exists es. simpl. unfold lenN in *. simpl in *. split_and!; [done|congruence| |done|lia].
      intros e' He'. apply Hv. by right.
    + simpl. rewrite (Cache.represents_len _ _ Hr'). simpl in *. lia.
  - apply N.leb_gt in E. eauto.
Qed.

(** The entry is removed, or room is made for it; either way one more fits. *)
Lemma cache_slot_inv o oid s :
  cache_inv o s ->
  exists v c s2, Cache.remove (oid_kind oid, oid) (objects_lru s) = Some (v, c) /\
    match v with
    | Some _ => Some (mkCacheState c (evictions s))
    | None => make_room (S (Cache.len c)) (co_max_entries o) (mkCacheState c (evictions s))
    end = Some s2 /\ cache_inv o s2 /\ N.of_nat (Cache.len (objects_lru s2)) < co_max_entries o.
Proof.
  intros (es & Hr & Hcap & Hes & Hm & Hl).
  destruct (Cache.remove_refines (oid_kind oid, oid) _ _ Hr) as (c & E & Hr' & Hc').
  pose proof (Cache.spec_without_length (oid_kind oid, oid) es) as Hlen.
  unfold Cache.spec_remove in *. cbn [fst snd] in *.
  exists (Cache.e_value <$> Cache.spec_find (oid_kind oid, oid) es), c.
  assert (cache_inv o (mkCacheState c (evictions s))) as Hs1.
  { eexists. split; [exact Hr'|]. unfold lenN in *. split_and!; [simpl; congruence| |done|lia].
    intros e He%Cache.spec_without_subset. by apply Hes. }
  destruct (Cache.spec_find (oid_kind oid, oid) es) as [e|]; cbn [fmap option_fmap option_map].
  - eexists. split; [done|]. split; [done|]. split; [done|]. simpl in *.
    rewrite (Cache.represents_len _ _ Hr'). unfold lenN in Hl. lia.
  - destruct (make_room_inv o (S (Cache.len c)) _ Hs1) as (s2 & E2 & Hs2 & Hl2); [simpl; lia|].
    by exists s2.
Qed.

Lemma cache_store_inv o oid kind data s :
  cache_inv o s -> valid oid (kind, data) ->
  exists s', cache_store o oid kind data s = Some s' /\ cache_inv o s'.
Proof.
  intros Hs Hv. unfold cache_store. destruct (_ || _) eqn:Eb; [by exists s|].
  apply orb_false_iff in Eb as [Eb _]. apply N.ltb_ge in Eb.
  destruct (cache_slot_inv o oid s Hs) as (v & c & s2 & -> & E2 & Hs2 & Hlt).
  cbn [mbind option_bind]. rewrite E2. cbn [mbind option_bind].
  destruct Hs2 as (es2 & Hr2 & Hcap2 & Hes2 & Hm & _).
  rewrite (Cache.represents_len _ _ Hr2) in Hlt.
  destruct (Cache.insert_refines (oid_kind oid, oid) (kind, data) (lenN data) _ _ Hr2)
    as (c3 & -> & Hr3 & Hc3).
  cbn [mbind option_bind]. eexists. split; [done|]. eexists. split; [exact Hr3|].
  split; [simpl; congruence|]. unfold Cache.spec_insert in *.
  pose proof (Cache.spec_without_length (oid_kind oid, oid) es2) as Hlen.
  destruct (_ || _); cbn [snd].
  - unfold lenN. split_and!; [|done|lia]. intros e He%Cache.spec_without_subset. by apply Hes2.
  - destruct (Cache.spec_evict_subset (Cache.capacity (objects_lru s2)) (lenN data)
               (Cache.spec_without (oid_kind oid, oid) es2)) as [Hsub Hle].
    destruct (Cache.spec_evict _ _ (Cache.spec_without _ es2)) as [n kept]. cbn [snd] in *.
    unfold lenN at 2. rewrite length_app. simpl. split_and!; [|done|lia].
    intros e [He|He]%elem_of_app.
    + by apply Hes2, (Cache.spec_without_subset (oid_kind oid, oid)), Hsub.
    + apply list_elem_of_singleton in He as ->. exists oid. simpl. done.
Qed.

End CacheInv.

(* ------------------------------------------------------------------ *)
(** ** The composition is the first-match union of its layers *)

(** The contents of an ordered union. *)
Fixpoint first_match (cs : list (Oid -> ObjectReadResult)) (oid : Oid) : ObjectReadResult :=
  match cs with
  | [] => None
  | c :: cs => match c oid with
               | Some p => Some p
               | None => first_match cs oid
               end
  end.

Lemma first_match_app cs cs' oid :
  first_match (cs ++ cs') oid = match first_match cs oid with
                                | Some p => Some p
                                | None => first_match cs' oid
                                end.
Proof. induction cs as [|c cs IH]; simpl; [done|]. by destruct (c oid). Qed.

Lemma first_match_skip i cs oid :
  first_match (take i cs) oid = None -> first_match cs oid = first_match (drop i cs) oid.
Proof. intros Hn. rewrite <- (take_drop i cs) at 1. by rewrite first_match_app, Hn. Qed.

Lemma first_match_drop i cs oid : first_match cs oid = None -> first_match (drop i cs) oid = None.
Proof. rewrite <- (take_drop i cs) at 1. rewrite first_match_app. by destruct (first_match (take i cs) oid). Qed.

Lemma first_occurrences_elem seen oids oid :
  oid ∈ first_occurrences seen oids <-> oid ∈ oids /\ oid ∉ seen.
Proof.
  revert seen. induction oids as [|o oids IH]; intros seen; cbn [first_occurrences]; [set_solver|].
  case_bool_decide.
  - rewrite IH. set_solver.
  - rewrite elem_of_cons, IH. destruct (decide (oid = o)); set_solver.
Qed.

Lemma first_occurrences_nodup seen oids : NoDup (first_occurrences seen oids).
Proof.
  revert seen. induction oids as [|o oids IH]; intros seen; cbn [first_occurrences]; [constructor|].
  case_bool_decide; [done|]. constructor; [|done]. rewrite first_occurrences_elem. set_solver.
Qed.

Lemma first_occurrences_id seen oids :
  NoDup oids -> (forall o, o ∈ oids -> o ∉ seen) -> first_occurrences seen oids = oids.
Proof.
  intros Hn. revert seen. induction Hn as [|o oids Ho Hn IH]; intros seen Hs; cbn [first_occurrences]; [done|].
  rewrite bool_decide_eq_false_2 by (apply Hs; left). f_equal. apply IH. set_solver.
Qed.

Section Union.
Context `{Env} {T : Type} (I : T -> Prop) (F : ErrorCode -> Prop).
Context (l : LayeredOdb T) (cs : list (Oid -> ObjectReadResult)).
Hypothesis layers_lawful : Forall2 (fun db c => LawfulDb db c I F) (lay_layers l) cs.
Hypothesis F_plain : forall c, plain_failure c -> F c.

(** What the cache may hold: objects of the layers it precedes. *)
Definition cache_pos : nat := match lay_cache l with Some (i, _) => i | None => O end.
Definition cache_valid (oid : Oid) (p : Payload) : Prop := first_match (drop cache_pos cs) oid = Some p.

Definition layered_inv (st : CacheState * T) : Prop :=
  (forall i o, lay_cache l = Some (i, o) -> cache_inv cache_valid o st.1) /\ I st.2.

Let spec {A} (m : DM (CacheState * T) A) (P : A -> Prop) : Prop :=
  hoare (on_store layered_inv) (fun e => F (code e)) m P.

Lemma F_budget e : budget_stop e -> F (code e).
Proof. intros. by apply F_plain, plain_stop. Qed.

Lemma on_lower_spec {A} (m : DM T A) (P : A -> Prop) :
  hoare (on_store I) (fun e => F (code e)) m P -> spec (on_lower m) P.
Proof.
  intros Hm [b [s t]] [Hc Ht]. unfold on_lower. specialize (Hm (b, t) Ht).
  destruct (m (b, t)) as [r [b' t']]. simpl in *. split; [apply Hm|]. split; [done|apply Hm].
Qed.

Lemma with_layer_spec {A} index (m : DM (CacheState * T) A) (P : A -> Prop) :
  spec m P -> spec (smap_err (with_layer index) m) P.
Proof. intros Hm. by eapply hoare_map_err. Qed.

Lemma cache_get_spec i o oid :
  lay_cache l = Some (i, o) -> spec (cache_get oid) (fun v => forall p, v = Some p -> cache_valid oid p).
Proof.
  intros Hl [b [s t]] [Hc Ht]. unfold cache_get. cbn [fst snd] in *.
  destruct (cache_get_inv _ _ _ oid (Hc _ _ Hl)) as (v & c & -> & Hinv & Hv). simpl.
  split; [done|]. split; [|done]. intros i' o' Hl'. rewrite Hl in Hl'. by simplify_eq.
Qed.

Lemma cache_insert_spec i o oid kind data :
  lay_cache l = Some (i, o) -> cache_valid oid (kind, data) ->
  spec (cache_insert o oid kind data) (fun _ => True).
Proof.
  intros Hl Hv [b [s t]] [Hc Ht]. unfold cache_insert. cbn [fst snd] in *.
  destruct (cache_store_inv _ _ _ _ _ _ (Hc _ _ Hl) Hv) as (s' & -> & Hs'). simpl.
  split; [done|]. split; [|done]. intros i' o' Hl'. rewrite Hl in Hl'. by simplify_eq.
Qed.

Lemma ensure_oid_spec oid : spec (slift (ensure_oid l oid)) (fun _ => True).
Proof.
  apply hoare_lift. unfold ensure_oid. case_bool_decide; [done|]. apply F_plain.
  unfold plain_failure. simpl. tauto.
Qed.

Lemma enforce_spec n d rb :
  within_ceiling rb n ->
  spec (slift (enforce_read_many_budget (sadd64 (N.min n u64_max) d) rb))
    (fun _ => within_ceiling rb (n + d)).
Proof.
  intros Hn. apply hoare_lift. rewrite sadd64_min.
  destruct (enforce_read_many_budget _ rb) as [u|e] eqn:E; simpl.
  - apply enforce_Ok in E; [|lia]. unfold within_ceiling in *. destruct (max_total_bytes rb); [lia|done].
  - rewrite (enforce_Err _ _ _ E). apply F_plain. unfold plain_failure. tauto.
Qed.

(** The state of a batch: the IDs of [done] are resolved to what the union
    holds, and their bytes are counted. *)
Definition total_of (done : list Oid) : N := total_bytes (first_match cs <$> done).
Definition acc_ok (rb : ReadManyBudget) (done : list Oid) (acc : gmap Oid ObjectReadResult * N) : Prop :=
  (forall oid, oid ∈ done -> acc.1 !! oid = Some (first_match cs oid)) /\
  acc.2 = N.min (total_of done) u64_max /\ within_ceiling rb (total_of done).

Lemma acc_ok_step rb done acc oid kind data :
  acc_ok rb done acc -> first_match cs oid = Some (kind, data) ->
  within_ceiling rb (total_of done + lenN data) ->
  acc_ok rb (done ++ [oid]) (<[oid := Some (kind, data)]> acc.1, sadd64 acc.2 (lenN data)).
Proof.
  intros (Hd & Hn & Hw) Hm Hw'. unfold acc_ok, total_of in *. cbn [fst snd].
  rewrite fmap_app, total_bytes_app. simpl. rewrite Hm. split_and!.
  - intros o Ho. destruct (decide (o = oid)) as [->|Hne].
    + by rewrite lookup_insert_eq, Hm.
    + rewrite lookup_insert_ne by done. apply Hd. set_solver.
  - rewrite Hn, sadd64_min. f_equal. lia.
  - by rewrite N.add_0_r.
Qed.

(** What a pass over some unresolved IDs leaves: each is resolved or still
    unresolved, and the unresolved ones satisfy [missed]. *)
Definition pass_post (rb : ReadManyBudget) (done us : list Oid) (missed : Oid -> Prop)
  (r : list Oid * (gmap Oid ObjectReadResult * N)) : Prop :=
  exists found, acc_ok rb (done ++ found) r.2 /\ found ++ r.1 ≡ₚ us /\ Forall missed r.1.

Lemma pass_post_found rb done oid us missed r :
  pass_post rb (done ++ [oid]) us missed r -> pass_post rb done (oid :: us) missed r.
Proof.
  intros (found & Ha & Hp & Hm). exists (oid :: found). rewrite <- app_assoc in Ha.
  split; [done|]. split; [|done]. simpl. by rewrite Hp.
Qed.

Lemma pass_post_missed rb done oid us (missed : Oid -> Prop) still acc :
  missed oid -> pass_post rb done us missed (still, acc) ->
  pass_post rb done (oid :: us) missed (oid :: still, acc).
Proof.
  intros Ho (found & Ha & Hp & Hm). exists found. split; [done|]. simpl in *. split; [|by constructor].
  rewrite <- Hp. by rewrite Permutation_middle.
Qed.

Lemma cache_pass_spec i o rb us done acc :
  lay_cache l = Some (i, o) ->
  (forall oid, oid ∈ us -> first_match (take i cs) oid = None) -> acc_ok rb done acc ->
  spec (cache_pass rb us acc) (pass_post rb done us (fun _ => True)).
Proof.
  intros Hl. revert done acc. induction us as [|oid us IH]; intros done acc Hus Ha; cbn [cache_pass].
  - apply hoare_ret. exists []. by rewrite app_nil_r.
  - eapply hoare_bind; [by eapply cache_get_spec|]. intros v Hv. destruct v as [[kind data]|].
    + specialize (Hv _ eq_refl). unfold cache_valid, cache_pos in Hv. rewrite Hl in Hv.
      rewrite <- first_match_skip in Hv by (apply Hus; left).
      eapply hoare_bind; [apply hoare_charge_object, F_budget|]. intros _ _.
      eapply hoare_bind.
      { pose proof Ha as (_ & Hn & Hw). rewrite Hn. by apply enforce_spec. }
      intros u Hw; cbv beta in Hw. eapply hoare_post; [apply (IH (done ++ [oid]))|].
      * intros o' Ho'. apply Hus. by right.
      * by apply acc_ok_step.
      * intros r. apply pass_post_found.
    + eapply hoare_bind; [apply (IH done acc); [|done]; intros o' Ho'; apply Hus; by right|].
      intros [still acc'] Hp. apply hoare_ret. by apply pass_post_missed.
Qed.

Lemma answer_pass_spec i c rb us done acc :
  cs !! i = Some c ->
  (forall oid, oid ∈ us -> first_match (take i cs) oid = None) -> acc_ok rb done acc ->
  spec (answer_pass (cache_before l i) rb (zip us (c <$> us)) acc)
    (pass_post rb done us (fun oid => c oid = None)).
Proof.
  intros Hi. revert done acc. induction us as [|oid us IH]; intros done acc Hus Ha;
    cbn [answer_pass fmap list_fmap zip zip_with].
  - apply hoare_ret. exists []. by rewrite app_nil_r.
  - assert (first_match (take i cs) oid = None) as Hskip by (apply Hus; left).
    assert (forall o', o' ∈ us -> first_match (take i cs) o' = None) as Hus' by (intros; apply Hus; by right).
    destruct (c oid) as [[kind data]|] eqn:Ec.
    + assert (first_match (drop i cs) oid = Some (kind, data)) as Hd
        by (rewrite (drop_S _ _ _ Hi); simpl; by rewrite Ec).
      eapply hoare_bind.
      { pose proof Ha as (_ & Hn & Hw). rewrite Hn. by apply enforce_spec. }
      intros u Hw; cbv beta in Hw. eapply (hoare_bind _ _ _ _ (fun _ => True)).
      { unfold cache_before. destruct (lay_cache l) as [[p o]|] eqn:Hl; [|by apply hoare_ret].
        destruct (p <=? i)%nat eqn:Hp; [|by apply hoare_ret]. apply Nat.leb_le in Hp.
        eapply cache_insert_spec; [done|]. unfold cache_valid, cache_pos. rewrite Hl.
        rewrite (first_match_skip (i - p)), drop_drop.
        - by replace (p + (i - p))%nat with i by lia.
        - rewrite take_drop_commute. replace (p + (i - p))%nat with i by lia.
          by apply first_match_drop. }
      intros _ _. eapply hoare_post; [apply (IH (done ++ [oid])); [done|]|].
      * apply acc_ok_step; [done| |done]. by rewrite (first_match_skip i).
      * intros r. apply pass_post_found.
    + eapply hoare_bind; [by apply (IH done acc)|].
      intros [still acc'] Hp. apply hoare_ret. by apply pass_post_missed.
Qed.

Lemma pass_post_trans rb done us found us1 missed r :
  found ++ us1 ≡ₚ us -> pass_post rb (done ++ found) us1 missed r -> pass_post rb done us missed r.
Proof.
  intros Hp (found' & Ha & Hp' & Hm). exists (found ++ found'). rewrite app_assoc.
  split; [done|]. split; [|done]. by rewrite <- app_assoc, Hp', Hp.
Qed.

(** The cache position of the loop, when the cache sits before layer [i]. *)
Lemma cache_step_spec i rb us done acc :
  (forall oid, oid ∈ us -> first_match (take i cs) oid = None) -> acc_ok rb done acc ->
  spec (match cache_at l i with
        | Some _ => cache_pass rb us acc
        | None => sret (us, acc)
        end) (pass_post rb done us (fun _ => True)).
Proof.
  intros Hus Ha. unfold cache_at. destruct (lay_cache l) as [[p o]|] eqn:Hl.
  2: { apply hoare_ret. exists []. rewrite app_nil_r. split; [done|]. split; [done|]. by apply Forall_true. }
  destruct (p =? i)%nat eqn:Hp.
  - apply Nat.eqb_eq in Hp as ->. by eapply cache_pass_spec.
  - apply hoare_ret. exists []. rewrite app_nil_r. split; [done|]. split; [done|]. by apply Forall_true.
Qed.

Lemma layers_loop_spec i layers cs' rb us done acc :
  drop i cs = cs' -> Forall2 (fun db c => LawfulDb db c I F) layers cs' ->
  (forall oid, oid ∈ us -> first_match (take i cs) oid = None) -> acc_ok rb done acc ->
  spec (layers_loop l rb i layers us acc) (pass_post rb done us (fun oid => first_match cs oid = None)).
Proof.
  intros Hcs HF. revert i us done acc Hcs.
  induction HF as [|db c layers cs' Hdb HF IH]; intros i us done acc Hcs Hus Ha; cbn [layers_loop].
  - apply hoare_ret. exists []. rewrite app_nil_r. split; [done|]. split; [done|].
    apply Forall_forall. intros oid Ho. rewrite (first_match_skip i) by (by apply Hus). by rewrite Hcs.
  - assert (cs !! i = Some c) as Hi by (rewrite <- (Nat.add_0_r i), <- lookup_drop, Hcs; done).
    eapply hoare_bind; [by apply cache_step_spec|]. intros [us1 acc1] (found & Ha1 & Hp1 & _).
    cbn [fst snd] in *.
    assert (forall oid, oid ∈ us1 -> first_match (take i cs) oid = None) as Hus1.
    { intros oid Ho. apply Hus. rewrite <- Hp1. set_solver. }
    destruct us1 as [|u us1'] eqn:Eu.
    { apply hoare_ret. by exists found. }
    rewrite <- Eu in *. clear Eu u us1'.
    eapply hoare_bind; [apply with_layer_spec, on_lower_spec, law_many|].
    intros vs [-> _]. rewrite length_fmap, Nat.eqb_refl. cbn [negb].
    eapply hoare_bind; [by apply answer_pass_spec|].
    intros [us2 acc2] (found2 & Ha2 & Hp2 & Hm2). cbn [fst snd] in *.
    eapply hoare_post; [apply (IH (S i) us2 ((done ++ found) ++ found2) acc2)|].
    + by rewrite (drop_S _ _ _ Hi) in Hcs; simplify_eq.
    + intros oid Ho. rewrite (take_S_r _ _ _ Hi), first_match_app, Hus1.
      * simpl. rewrite Forall_forall in Hm2. by rewrite (Hm2 oid Ho).
      * rewrite <- Hp2. set_solver.
    + exact Ha2.
    + intros r Hr. eapply pass_post_trans; [exact Hp1|]. by eapply pass_post_trans.
Qed.

Lemma ensure_oids_spec oids : spec (slift (ensure_oids l oids)) (fun _ => True).
Proof.
  apply hoare_lift. induction oids as [|oid oids IH]; cbn [ensure_oids]; [done|].
  unfold ensure_oid at 1. case_bool_decide; [done|]. apply F_plain. unfold plain_failure. simpl. tauto.
Qed.

Lemma fill_missing (m : gmap Oid ObjectReadResult) us oid :
  foldl (fun m oid => <[oid := None]> m) m us !! oid =
  if bool_decide (oid ∈ us) then Some None else m !! oid.
Proof.
  revert m. induction us as [|u us IH]; intros m; [done|]. cbn [foldl]. rewrite IH.
  rewrite (bool_decide_ext (oid ∈ u :: us) (oid = u \/ oid ∈ us)) by apply elem_of_cons.
  destruct (decide (oid ∈ us)) as [Hin|Hin].
  - rewrite !bool_decide_eq_true_2 by auto. done.
  - rewrite (bool_decide_eq_false_2 (oid ∈ us)) by done. destruct (decide (oid = u)) as [->|Hne].
    + rewrite bool_decide_eq_true_2 by auto. by rewrite lookup_insert_eq.
    + rewrite bool_decide_eq_false_2 by tauto. by rewrite lookup_insert_ne.
Qed.

Lemma total_missing us : Forall (fun oid => first_match cs oid = None) us -> total_of us = 0.
Proof. unfold total_of. induction 1 as [|oid us Ho Hus IH]; simpl; [done|]. by rewrite Ho. Qed.

Lemma layered_many_spec oids rb :
  spec (layered_try_find_many_bounded l oids rb)
    (fun vs => vs = first_match cs <$> oids /\ (NoDup oids -> within_ceiling rb (total_bytes vs))).
Proof.
  unfold layered_try_find_many_bounded. eapply hoare_bind; [apply ensure_oids_spec|]. intros _ _.
  eapply hoare_bind.
  { apply (layers_loop_spec 0 (lay_layers l) cs rb _ [] (∅, 0)); [done|done|done|].
    split; [set_solver|]. split; [done|]. unfold within_ceiling.
    destruct (max_total_bytes rb); [apply N.le_0_l|done]. }
  intros [still acc] (found & (Hd & Hn & Hw) & Hp & Hm). cbn [fst snd] in *. rewrite app_nil_l in *.
  apply hoare_ret. rewrite Forall_forall in Hm.
  assert ((fun oid => default None
    (foldl (fun m oid => <[oid := None]> m) acc.1 still !! oid)) <$> oids = first_match cs <$> oids) as ->.
  { apply list_fmap_ext. intros j oid Hj. rewrite fill_missing. case_bool_decide as Hs.
    - simpl. symmetry. by apply Hm.
    - rewrite Hd; [done|]. assert (oid ∈ found ++ still) as Ho.
      { rewrite Hp. apply first_occurrences_elem. split; [|set_solver]. by eapply list_elem_of_lookup_2. }
      set_solver. }
  split; [done|]. intros Hnd. rewrite first_occurrences_id in Hp by (done || set_solver).
  rewrite <- Hp, fmap_app, total_bytes_app. fold (total_of found). fold (total_of still).
  rewrite (total_missing still) by (by apply Forall_forall). by rewrite N.add_0_r.
Qed.

Lemma layered_find_spec oid : spec (layered_try_find l oid) (fun v => v = first_match cs oid).
Proof.
  unfold layered_try_find, layered_try_find_many.
  eapply hoare_bind; [apply layered_many_spec|]. intros vs [-> _]. by apply hoare_ret.
Qed.

Lemma header_loop_spec i layers cs' oid :
  drop i cs = cs' -> Forall2 (fun db c => LawfulDb db c I F) layers cs' ->
  first_match (take i cs) oid = None ->
  spec (header_loop l oid i layers) (header_agrees (first_match cs) oid).
Proof.
  intros Hcs HF. revert i Hcs.
  induction HF as [|db c layers cs' Hdb HF IH]; intros i Hcs Hskip; cbn [header_loop].
  - apply hoare_ret. simpl. rewrite (first_match_skip i) by done. by rewrite Hcs.
  - assert (cs !! i = Some c) as Hi by (rewrite <- (Nat.add_0_r i), <- lookup_drop, Hcs; done).
    eapply (hoare_bind _ _ _ _ (fun v => forall p, v = Some p -> first_match cs oid = Some p)).
    { unfold cache_at. destruct (lay_cache l) as [[p o]|] eqn:Hl; [|by apply hoare_ret].
      destruct (p =? i)%nat eqn:Hp; [|by apply hoare_ret]. apply Nat.eqb_eq in Hp as ->.
      eapply hoare_post; [by eapply cache_get_spec|]. intros v Hv p ->. specialize (Hv p eq_refl).
      unfold cache_valid, cache_pos in Hv. rewrite Hl in Hv. by rewrite (first_match_skip i). }
    intros v Hv. destruct v as [[kind data]|].
    + eapply hoare_bind; [apply hoare_charge_header, F_budget|]. intros _ _. apply hoare_ret.
      intros _. by rewrite (Hv _ eq_refl).
    + eapply hoare_bind; [apply with_layer_spec, on_lower_spec, law_header|]. intros [hr|] Hh.
      * apply hoare_ret. intros Hver. specialize (Hh Hver). rewrite (first_match_skip i) by done.
        rewrite Hcs. simpl. by destruct (c oid).
      * apply IH; [by rewrite (drop_S _ _ _ Hi) in Hcs; simplify_eq|].
        rewrite (take_S_r _ _ _ Hi), first_match_app, Hskip. simpl in *. by rewrite Hh.
Qed.

Lemma prefetch_loop_spec layers cs' oids fe :
  Forall2 (fun db c => LawfulDb db c I F) layers cs' -> (forall e, fe = Some e -> F (code e)) ->
  spec (prefetch_loop layers oids fe) (fun _ => True).
Proof.
  intros HF. revert fe. induction HF as [|db c layers cs' Hdb HF IH]; intros fe Hfe; cbn [prefetch_loop].
  - destruct fe as [e|]; [apply hoare_throw; by apply Hfe|by apply hoare_ret].
  - intros w Hw. destruct (on_lower_spec _ _ (law_prefetch oids) w Hw) as [Hr Hw1].
    destruct (on_lower (prefetch db oids) w) as [r w1]. cbn [fst snd] in *.
    apply (IH _); [|done]. intros e He. destruct fe; [by apply Hfe|]. destruct r; by simplify_eq.
Qed.

(** The composition discharges the contract its clients rely on. *)
#[export] Instance layered_lawful : LawfulDb (layered_db l) (first_match cs) layered_inv F.
Proof.
  constructor; simpl; intros.
  - apply layered_find_spec.
  - apply hoare_without_object_charge, layered_find_spec.
  - unfold layered_try_header_with_provenance. eapply hoare_bind; [apply ensure_oid_spec|]. intros _ _.
    by eapply header_loop_spec.
  - apply layered_many_spec.
  - by eapply prefetch_loop_spec.
Qed.

End Union.

(* ------------------------------------------------------------------ *)
(** ** Runs of a composition *)

Inductive ReadOp : Type :=
| ReadFind (oid : Oid)
| ReadGraph (oid : Oid)
| ReadHeader (oid : Oid)
| ReadMany (oids : list Oid) (rb : ReadManyBudget)
| ReadPrefetch (oids : list Oid).

Inductive ReadOut : Type :=
| OutObject (v : ObjectReadResult)
| OutHeader (h : option HeaderRead)
| OutMany (vs : list ObjectReadResult)
| OutDone.

Definition read_op {T} (db : ObjectDb T) (op : ReadOp) : DM T ReadOut :=
  match op with
  | ReadFind oid => let! v := try_find db oid in sret (OutObject v)
  | ReadGraph oid => let! v := try_find_graph db oid in sret (OutObject v)
  | ReadHeader oid => let! h := try_header_with_provenance db oid in sret (OutHeader h)
  | ReadMany oids rb => let! vs := try_find_many_bounded db oids rb in sret (OutMany vs)
  | ReadPrefetch oids => let! _ := prefetch db oids in sret OutDone
  end.

(** Later reads go on after a failed one, as later jobs do. *)
Fixpoint read_ops {T} (db : ObjectDb T) (ops : list ReadOp) (w : Budget * T)
  : list (Res ReadOut) * (Budget * T) :=
  match ops with
  | [] => ([], w)
  | op :: ops =>
      let '(r, w) := read_op db op w in
      let '(rs, w) := read_ops db ops w in
      (r :: rs, w)
  end.

(** The answer the contents [c] dictate. *)
Definition read_answer (c : Oid -> ObjectReadResult) (op : ReadOp) (o : ReadOut) : Prop :=
  match op, o with
  | (ReadFind oid | ReadGraph oid), OutObject v => v = c oid
  | ReadHeader oid, OutHeader h => header_agrees c oid h
  | ReadMany oids rb, OutMany vs =>
      vs = c <$> oids /\ (NoDup oids -> within_ceiling rb (total_bytes vs))
  | ReadPrefetch _, OutDone => True
  | _, _ => False
  end.

Section Runs.
Context {T : Type} (db : ObjectDb T) (c : Oid -> ObjectReadResult) (I : T -> Prop)
        (F : ErrorCode -> Prop).
Context `{LawfulDb T db c I F}.

Lemma read_op_spec op :
  hoare (on_store I) (fun e => F (code e)) (read_op db op) (read_answer c op).
Proof.
  destruct op; cbn [read_op].
  - eapply hoare_bind; [apply law_find|]. intros v ->. by apply hoare_ret.
  - eapply hoare_bind; [apply law_graph|]. intros v ->. by apply hoare_ret.
  - eapply hoare_bind; [apply law_header|]. intros h Hh. by apply hoare_ret.
  - eapply hoare_bind; [apply law_many|]. intros vs Hvs. by apply hoare_ret.
  - eapply hoare_bind; [apply law_prefetch|]. intros [] _. by apply hoare_ret.
Qed.

Lemma read_ops_spec ops w rs w' :
  read_ops db ops w = (rs, w') -> I w.2 ->
  Forall2 (fun op r => outcome (fun e => F (code e)) (read_answer c op) r) ops rs /\ I w'.2.
Proof.
  revert w rs. induction ops as [|op ops IH]; intros w rs E Hw; simpl in E.
  - simplify_eq. split; [constructor|done].
  - destruct (read_op db op w) as [r w1] eqn:E1. destruct (read_ops db ops w1) as [rs1 w2] eqn:E2.
    simplify_eq. destruct (hoare_run _ _ _ _ _ _ _ (read_op_spec op) Hw E1) as [Hr Hw1].
    destruct (IH _ _ E2 Hw1) as [Hrs Hw2]. split; [by constructor|done].
Qed.

End Runs.

Section NewComposition.
Context `{Env} {T : Type} (I : T -> Prop) (F : ErrorCode -> Prop).
Hypothesis F_plain : forall c, plain_failure c -> F c.

Lemma LayeredOdb_new_Ok layers cache (l : LayeredOdb T) s :
  LayeredOdb_new layers cache = Ok (l, s) ->
  lay_layers l = layers /\ lay_cache l = cache /\
  (forall db, db ∈ layers -> hash_kind db = lay_hash l) /\
  (forall i o, cache = Some (i, o) -> (i < length layers)%nat /\ CacheLayer_new o = Ok s).
Proof.
  unfold LayeredOdb_new. destruct layers as [|first layers]; [done|].
  destruct (existsb _ _) eqn:Ex; [done|].
  assert (forall db, db ∈ first :: layers -> hash_kind db = hash_kind first) as Hh.
  { intros db Hin. destruct (decide (hash_kind db = hash_kind first)) as [|Hne]; [done|].
    assert (existsb (fun layer => negb (bool_decide (hash_kind layer = hash_kind first)))
              (first :: layers) = true) as Ht; [|congruence].
    apply existsb_exists. exists db. rewrite bool_decide_eq_false_2 by done.
    split; [by apply list_elem_of_In|done]. }
  destruct cache as [[i o]|].
  - destruct (i <? length (first :: layers))%nat eqn:Hi; [|done]. apply Nat.ltb_lt in Hi.
    destruct (CacheLayer_new o) as [s'|] eqn:Es; cbn [rbind]; [|done]. intros [= <- <-]. naive_solver.
  - intros [= <- <-]. naive_solver.
Qed.

Lemma CacheLayer_new_inv valid o s :
  CacheLayer_new o = Ok s -> co_max_bytes o < u64_max -> cache_inv valid o s.
Proof.
  unfold CacheLayer_new. repeat case_match; intros [= <-]; intros Hlt. exists []. simpl.
  split_and!; [by apply Cache.new_refines|done|set_solver| |].
  - apply N.eqb_neq in H1. lia.
  - unfold lenN. simpl. lia.
Qed.

Lemma layered_new_inv layers cs cache l s t :
  LayeredOdb_new layers cache = Ok (l, s) ->
  (forall i o, cache = Some (i, o) -> co_max_bytes o < u64_max) -> I t ->
  layered_inv I l cs (s, t).
Proof.
  intros E Hb Ht. apply LayeredOdb_new_Ok in E as (_ & Hc & _ & Ho).
  split; [|done]. intros i o Hl. rewrite Hl in Hc. simpl.
  destruct (Ho i o) as [_ Hs]; [congruence|]. apply CacheLayer_new_inv; [done|]. by eapply Hb.
Qed.

(** C2. A layered store is the ordered union of its stores, and its cache is
    transparent. Build a composition of stores that keep the contract, with or
    without a cache at any position, and issue any sequence of reads (single,
    graph, header, batch, prefetch), whatever the budget: every read answers
    what the first store that holds the object has, a batch of distinct objects
    stays under its byte ceiling, and a read fails only as one of the stores can
    fail. Nothing is said of the ceiling of a batch that repeats an object. In
    particular no read sees a stale or misplaced cache entry, the cache's
    linked list never breaks, and no store is accused of a short batch. *)
Theorem layered_reads_are_first_match layers cs cache l s t ops b rs w :
  LayeredOdb_new layers cache = Ok (l, s) ->
  Forall2 (fun db c => LawfulDb db c I F) layers cs ->
  (forall i o, cache = Some (i, o) -> co_max_bytes o < u64_max) -> I t ->
  read_ops (layered_db l) ops (b, (s, t)) = (rs, w) ->
  Forall2 (fun op r => outcome (fun e => F (code e)) (read_answer (first_match cs) op) r) ops rs.
Proof.
  intros E HF Hb Ht Hrun. pose proof (layered_new_inv _ cs _ _ _ _ E Hb Ht) as Hinv.
  apply LayeredOdb_new_Ok in E as (El & _). rewrite <- El in HF.
  pose proof (layered_lawful I F l cs HF F_plain) as Hlaw.
  by destruct (read_ops_spec _ (first_match cs) (layered_inv I l cs) F _ _ _ _ Hrun Hinv).
Qed.

(** The cache keeps all three of its bounds across any sequence of reads:
    resident bytes, number of entries, and the size of every cached object. *)
Theorem layered_cache_within_bounds layers cs i o l s t ops b rs b' s' t' :
  LayeredOdb_new layers (Some (i, o)) = Ok (l, s) ->
  Forall2 (fun db c => LawfulDb db c I F) layers cs ->
  co_max_bytes o < u64_max -> I t ->
  read_ops (layered_db l) ops (b, (s, t)) = (rs, (b', (s', t'))) ->
  let stats := cache_stats (layered_db l) (s', t') in
  cs_bytes stats <= co_max_bytes o /\ cs_entries stats <= co_max_entries o /\
  exists es, Cache.represents (objects_lru s') es /\
    forall e, e ∈ es -> lenN (Cache.e_value e).2 <= co_max_object_bytes o.
Proof.
  intros E HF Hb Ht Hrun. assert (forall i' o', Some (i, o) = Some (i', o') -> co_max_bytes o' < u64_max)
    as Hb' by naive_solver.
  pose proof (layered_new_inv _ cs _ _ _ _ E Hb' Ht) as Hinv.
  apply LayeredOdb_new_Ok in E as (El & Ec & _). rewrite <- El in HF.
  pose proof (layered_lawful I F l cs HF F_plain) as Hlaw.
  destruct (read_ops_spec _ (first_match cs) (layered_inv I l cs) F _ _ _ _ Hrun Hinv) as [_ [Hc _]].
  destruct (Hc i o Ec) as (es & Hr & Hcap & Hes & _ & Hlen). simpl in *.
  unfold has_cache. rewrite Ec. simpl. destruct (Cache.represents_bounded _ _ Hr) as (-> & Hle & _).
  rewrite Hcap in Hle. rewrite (Cache.represents_len _ _ Hr). split_and!; [done|done|].
  exists es. split; [done|]. intros e He. destruct (Hes e He) as (oid & _ & _ & <- & Hw). done.
Qed.

(** Refreshing the layers one after the other. *)
Fixpoint refresh_each (layers : list (ObjectDb T)) (w : Budget * T) : list (Res unit) * (Budget * T) :=
  match layers with
  | [] => ([], w)
  | layer :: layers =>
      let '(r, w) := refresh layer w in
      let '(rs, w) := refresh_each layers w in
      (r :: rs, w)
  end.

(** The first result of a kind, tagged with the layer it came from. *)
Fixpoint first_tagged (p : Error -> bool) (i : nat) (rs : list (Res unit)) : option Error :=
  match rs with
  | [] => None
  | Err e :: rs => if p e then Some (with_layer i e) else first_tagged p (S i) rs
  | Ok _ :: rs => first_tagged p (S i) rs
  end.
Definition unsupported (e : Error) : bool := bool_decide (code e = UnsupportedOperation).

Definition refresh_verdict (rs : list (Res unit)) (accepted : bool) (fu fe : option Error) (i : nat)
  : Res unit :=
  match fe, first_tagged (fun e => negb (unsupported e)) i rs with
  | Some e, _ | None, Some e => Err e
  | None, None =>
      if accepted || existsb (fun r => match r with Ok _ => true | Err _ => false end) rs then Ok tt
      else match fu, first_tagged unsupported i rs with
           | Some e, _ | None, Some e => Err e
           | None, None => Err (Error_new UnsupportedOperation "no layer supports refresh")
           end
  end.

Lemma refresh_loop_eq i layers accepted fu fe b s t :
  refresh_loop i layers accepted fu fe (b, (s, t)) =
  let '(rs, (b', t')) := refresh_each layers (b, t) in
  (refresh_verdict rs accepted fu fe i, (b', (s, t'))).
Proof.
  revert i accepted fu fe b t. induction layers as [|db layers IH]; intros i accepted fu fe b t;
    cbn [refresh_loop refresh_each].
  - unfold refresh_verdict. simpl. rewrite orb_false_r. destruct fe, accepted, fu; done.
  - unfold on_lower. destruct (refresh db (b, t)) as [[[]|e] [b1 t1]].
    + rewrite IH. destruct (refresh_each layers (b1, t1)) as [rs [b2 t2]].
      unfold refresh_verdict. simpl. by rewrite orb_true_r.
    + destruct (bool_decide (code e = UnsupportedOperation)) eqn:Eu; rewrite IH;
        destruct (refresh_each layers (b1, t1)) as [rs [b2 t2]];
        unfold refresh_verdict; simpl; unfold unsupported; rewrite Eu; simpl; by destruct fe, fu.
Qed.

(** Refreshing a composition refreshes every layer, in order, even after
    a failure; the outcome is the first real failure tagged with its layer,
    else success if any layer accepted, else the first refusal. The cache is
    left alone. *)
Theorem layered_refresh_reaches_every_layer l b s t :
  layered_refresh l (b, (s, t)) =
  let '(rs, (b', t')) := refresh_each (lay_layers l) (b, t) in
  (match first_tagged (fun e => negb (unsupported e)) 0 rs with
   | Some e => Err e
   | None =>
       if existsb (fun r => match r with Ok _ => true | Err _ => false end) rs then Ok tt
       else match first_tagged unsupported 0 rs with
            | Some e => Err e
            | None => Err (Error_new UnsupportedOperation "no layer supports refresh")
            end
   end, (b', (s, t'))).
Proof.
  unfold layered_refresh. rewrite refresh_loop_eq.
  destruct (refresh_each (lay_layers l) (b, t)) as [rs [b' t']]. done.
Qed.

End NewComposition.

(* ------------------------------------------------------------------ *)
(** ** Witnesses *)

Definition demo_a : Oid := mkOid Sha1 (replicate 20 x0a ++ replicate 12 x00).
Definition demo_b : Oid := mkOid Sha1 (replicate 20 x0b ++ replicate 12 x00).
Definition demo_upper : StaticOdb := mkStatic Sha1 {[ demo_a := (Blob, bs "upper") ]}.
Definition demo_lower : StaticOdb :=
  mkStatic Sha1 {[ demo_a := (Blob, bs "hidden"); demo_b := (Tree, bs "lower") ]}.
Definition demo_options : CacheOptions := mkCacheOptions 64 1 32.
Definition demo_ops : list ReadOp :=
  [ReadFind demo_b; ReadMany [demo_b; demo_a; demo_b] (mkReadManyBudget (Some 20)); ReadHeader demo_b].
Definition demo_layers : list (ObjectDb unit) :=
  [@static_db quiet unit demo_upper; @static_db quiet unit demo_lower].
Definition demo_layered : LayeredOdb unit := mkLayered Sha1 demo_layers (Some (1%nat, demo_options)).
Definition demo_cache : CacheState := mkCacheState (Cache.LruCache_new 64) 0.
Definition demo_world : Budget * (CacheState * unit) :=
  (Budget_new BudgetLimits_default None, (demo_cache, tt)).

Lemma demo_lawful :
  Forall2 (fun db c => LawfulDb db c (fun _ => True) plain_failure) demo_layers
    [static_contents demo_upper; static_contents demo_lower].
Proof. apply Forall2_cons; split; [apply static_lawful|]. apply Forall2_cons; split; [apply static_lawful|done]. Qed.

Lemma layered_reads_are_first_match_witness :
  fst (read_ops (@layered_db quiet unit demo_layered) demo_ops demo_world) =
    [Ok (OutObject (Some (Tree, bs "lower")));
     Ok (OutMany [Some (Tree, bs "lower"); Some (Blob, bs "upper"); Some (Tree, bs "lower")]);
     Ok (OutHeader (Some (verified_header Tree 5)))] /\
  Forall2 (fun op r => outcome (fun e => plain_failure (code e))
             (read_answer (first_match [static_contents demo_upper; static_contents demo_lower]) op) r)
    demo_ops (fst (read_ops (@layered_db quiet unit demo_layered) demo_ops demo_world)).
Proof.
  split; [vm_compute; reflexivity|].
  apply (@layered_reads_are_first_match quiet unit (fun _ => True) plain_failure (fun c H => H)
           demo_layers [static_contents demo_upper; static_contents demo_lower]
           (Some (1%nat, demo_options)) demo_layered demo_cache tt demo_ops
           (Budget_new BudgetLimits_default None) _
           (snd (read_ops (@layered_db quiet unit demo_layered) demo_ops demo_world))).
  - reflexivity.
  - apply demo_lawful.
  - intros i o [= _ <-]. vm_compute. reflexivity.
  - done.
  - unfold demo_world. apply surjective_pairing.
Defined.

Lemma layered_cache_within_bounds_witness :
  let '(_, (_, st)) := read_ops (@layered_db quiet unit demo_layered) demo_ops demo_world in
  cs_bytes (cache_stats (@layered_db quiet unit demo_layered) st) <= 64.
Proof.
  destruct (read_ops (@layered_db quiet unit demo_layered) demo_ops demo_world) as [rs [b' [s' t']]] eqn:E.
  apply (@layered_cache_within_bounds quiet unit (fun _ => True) plain_failure (fun c H => H)
           demo_layers [static_contents demo_upper; static_contents demo_lower] 1 demo_options
           demo_layered demo_cache tt demo_ops (Budget_new BudgetLimits_default None) rs b' s' t').
  - reflexivity.
  - apply demo_lawful.
  - vm_compute. reflexivity.
  - done.
  - exact E.
Defined.
