(* ===== verification/Decode.v ===== *)
(** * Decoding of commits, tags, trees and identities ([decode.rs])

    The payload parsers are [gix_object]'s and enter as the class [GixObject];
    what the crate does with their results, and the identity parser, which is
    its own, are translated. *)

From Stdlib Require Import NArith ZArith Lia Strings.Byte Strings.String.
From stdpp Require Import prelude gmap strings list pretty.
From S2P Require Import Prelude Errors Objects.

Open Scope N_scope.

(** [Identity], [Commit], [Tag] and [TreeEntry]. *)
Record Identity : Type := mkIdentity {
  id_name : bytes;
  id_email : bytes;
  id_time : Z;
  id_tz : bytes
}.

Record CommitObject : Type := mkCommit {
  tree_oid : Oid;
  parents : list Oid;
  author : Identity;
  committer : Identity;
  commit_message : bytes;
  signature_headers : list (bytes * bytes);
  extra_headers : list (bytes * bytes)
}.

Record TagObject : Type := mkTag {
  target_oid : Oid;
  target_kind : ObjectKind;
  tagger : option Identity;
  tag_name : bytes;
  tag_message : bytes
}.

Record TreeEntry : Type := mkEntry {
  te_mode : N;
  te_name : bytes;
  te_oid : Oid
}.

(** What [gix_object] hands over: [CommitRef], [TagRef] and [EntryRef], with
    raw slices. [from_gix_kind], [to_gix_hash] and [from_gix_hash] translate
    between two copies of the same enumerations and are identities here. *)
Record CommitRef : Type := mkCommitRef {
  cr_tree : bytes;
  cr_parents : list bytes;
  cr_author : bytes;
  cr_committer : bytes;
  cr_encoding : option bytes;
  cr_message : bytes;
  cr_extra_headers : list (bytes * bytes)
}.

Record TagRef : Type := mkTagRef {
  tr_target : bytes;
  tr_target_kind : ObjectKind;
  tr_name : bytes;
  tr_tagger : option bytes
}.

Record EntryRef : Type := mkEntryRef {
  er_mode : N;
  er_filename : bytes;
  er_oid_kind : HashKind;
  er_oid : bytes
}.

(** The third-party parsers. [gix_tree_next] is [TreeRefIter::next] on the
    remaining bytes: no item at the end, otherwise an entry or a failure and
    what remains, which is shorter. *)
Class GixObject : Type := {
  gix_commit : bytes -> HashKind -> option CommitRef;
  gix_tag : bytes -> HashKind -> option TagRef;
  gix_tree_next : HashKind -> bytes -> option (option EntryRef * bytes);
  gix_tree_shrinks : forall k d e d', gix_tree_next k d = Some (e, d') -> (length d' < length d)%nat
}.

(** [malformed]. *)
Definition malformed (m : string) : Error := Error_new MalformedObject m.

(** [parse_embedded_oid]. Hexadecimal digits are ASCII, so the UTF-8 check
    before [parse_hex] rejects nothing that [parse_hex] accepts. *)
Definition parse_embedded_oid (raw : bytes) (kind : HashKind) (field : string) : Res Oid :=
  if negb (length raw =? digest_len kind * 2)%nat then
    Err (malformed (field ++ " object ID is malformed"))
  else
    let? oid := map_err (fun _ => malformed (field ++ " object ID is malformed")) (parse_hex raw) in
    if negb (bool_decide (oid_kind oid = kind)) then
      Err (malformed (field ++ " object ID uses the wrong hash algorithm"))
    else Ok oid.

(** [u8::is_ascii_whitespace]. *)
Definition is_ascii_whitespace (b : byte) : bool :=
  let n := byteN b in (n =? 32) || (n =? 9) || (n =? 10) || (n =? 12) || (n =? 13).

(** [str::parse::<i64>]: an optional sign, then decimal digits, within range.
    Bytes that are not UTF-8 are not digits. *)
Fixpoint parse_digits (acc : Z) (l : bytes) : option Z :=
  match l with
  | [] => Some acc
  | b :: l =>
      let n := byteN b in
      if (48 <=? n) && (n <=? 57) then parse_digits (10 * acc + Z.of_N (n - 48))%Z l else None
  end.
Definition in_i64 (z : Z) : bool := (- 2 ^ 63 <=? z)%Z && (z <? 2 ^ 63)%Z.
Definition parse_i64 (l : bytes) : option Z :=
  let '(sign, digits) := match l with
                         | x2d :: rest => ((-1)%Z, rest)
                         | x2b :: rest => (1%Z, rest)
                         | _ => (1%Z, l)
                         end in
  match digits with
  | [] => None
  | _ :: _ =>
      z ← parse_digits 0 digits;
      if in_i64 (sign * z) then Some (sign * z)%Z else None
  end.

(** [decode_identity]. *)
Definition decode_identity (raw : bytes) : Res Identity :=
  let? left_ := ok_or (malformed "identity is missing an opening angle bracket")
                 (position (beq x3c) raw) in
  let? right_ := ok_or (malformed "identity is missing a closing angle bracket")
                  ((fun offset => left_ + 1 + offset)%nat <$> position (beq x3e) (drop (left_ + 1) raw)) in
  let name_end := match rposition (fun b => negb (is_ascii_whitespace b)) (take left_ raw) with
                  | Some position => (position + 1)%nat
                  | None => 0%nat
                  end in
  let? suffix := ok_or (malformed "identity is missing its timestamp")
                   (strip_prefix [x20] (drop (right_ + 1) raw)) in
  let? time_separator := ok_or (malformed "identity is missing its timezone")
                           (position (beq x20) suffix) in
  let time_bytes := take time_separator suffix in
  let tz := drop (time_separator + 1) suffix in
  if bool_decide (time_bytes = []) || bool_decide (tz = []) || existsb (beq x20) tz
     || existsb (beq x09) tz then
    Err (malformed "identity timestamp or timezone is malformed")
  else
    let? time := ok_or (malformed "identity timestamp is malformed") (parse_i64 time_bytes) in
    Ok (mkIdentity (take name_end raw) (take (right_ - (left_ + 1)) (drop (left_ + 1) raw)) time tz).

(** [is_signature_header]. *)
Definition is_signature_header (name : bytes) : bool :=
  bytes_eqb name (bs "gpgsig") || starts_with name (bs "gpgsig-").

(** The [collect::<Result<Vec<_>, _>>()] of a mapped iterator. *)
Fixpoint map_res {A B} (f : A -> Res B) (l : list A) : Res (list B) :=
  match l with
  | [] => Ok []
  | x :: l =>
      let? y := f x in
      let? ys := map_res f l in
      Ok (y :: ys)
  end.

(** The loop of [decode_commit] that separates signature headers. *)
Fixpoint split_headers (headers : list (bytes * bytes)) (signature extra : list (bytes * bytes))
  : list (bytes * bytes) * list (bytes * bytes) :=
  match headers with
  | [] => (signature, extra)
  | (name, value) :: headers =>
      if is_signature_header name then split_headers headers (signature ++ [(name, value)]) extra
      else split_headers headers signature (extra ++ [(name, value)])
  end.

(** [payload.windows(2).position(|window| window == b"\n\n")]. *)
Fixpoint blank_line (payload : bytes) : option nat :=
  match payload with
  | x :: ((y :: _) as rest) =>
      if beq x x0a && beq y x0a then Some O else S <$> blank_line rest
  | _ => None
  end.

Section Decoders.
Context `{GixObject}.

(** [decode_commit]. *)
Definition decode_commit (payload : bytes) (hash_kind : HashKind) : Res CommitObject :=
  let? parsed := ok_or (malformed "commit payload is malformed") (gix_commit payload hash_kind) in
  let? tree := parse_embedded_oid (cr_tree parsed) hash_kind "commit tree" in
  let? ps := map_res (fun p => parse_embedded_oid p hash_kind "commit parent") (cr_parents parsed) in
  let? au := decode_identity (cr_author parsed) in
  let? co := decode_identity (cr_committer parsed) in
  let extra := match cr_encoding parsed with
               | Some encoding => [(bs "encoding", encoding)]
               | None => []
               end in
  let '(signature, extra) := split_headers (cr_extra_headers parsed) [] extra in
  Ok (mkCommit tree ps au co (cr_message parsed) signature extra).

(** [decode_tag]. *)
Definition decode_tag (payload : bytes) (hash_kind : HashKind) : Res TagObject :=
  let? parsed := ok_or (malformed "tag payload is malformed") (gix_tag payload hash_kind) in
  let? target := parse_embedded_oid (tr_target parsed) hash_kind "tag target" in
  let? tg := (match tr_tagger parsed with
              | Some raw => let? i := decode_identity raw in Ok (Some i)
              | None => Ok None
              end) in
  let message := match blank_line payload with
                 | Some separator => drop (separator + 2) payload
                 | None => []
                 end in
  Ok (mkTag target (tr_target_kind parsed) tg (tr_name parsed) message).

(** [TreeIter]: the remaining bytes and the [failed] flag. *)
Record TreeIter : Type := mkTreeIter { ti_remaining : bytes; ti_failed : bool }.

(** The mode check [TreeIter::next] makes before it asks the engine. *)
Definition valid_mode (remaining : bytes) : bool :=
  match position (beq x20) remaining with
  | Some stop =>
      let mode := take stop remaining in
      negb (bool_decide (mode = [])) && (length mode <=? 6)%nat
      && existsb (fun b => negb (beq b x30)) mode
  | None => false
  end.

(** [TreeIter::next]. *)
Definition tree_iter_next (hk : HashKind) (it : TreeIter) : option (Res TreeEntry) * TreeIter :=
  if ti_failed it then (None, it)
  else if negb (bool_decide (ti_remaining it = [])) && negb (valid_mode (ti_remaining it)) then
    (Some (Err (malformed "tree entry mode is malformed")), mkTreeIter (ti_remaining it) true)
  else
    match gix_tree_next hk (ti_remaining it) with
    | None => (None, it)
    | Some (None, rest) => (Some (Err (malformed "tree payload is malformed")), mkTreeIter rest false)
    | Some (Some e, rest) =>
        (Some (let? oid := map_err (fun _ => malformed "tree entry object ID is malformed")
                             (Oid_new (er_oid_kind e) (er_oid e)) in
               Ok (mkEntry (er_mode e) (er_filename e) oid)), mkTreeIter rest false)
    end.

(** [decode_tree] run to its end. *)
Fixpoint tree_items (fuel : nat) (hk : HashKind) (it : TreeIter) : list (Res TreeEntry) :=
  match fuel with
  | O => []
  | S fuel =>
      match tree_iter_next hk it with
      | (None, _) => []
      | (Some item, it) => item :: tree_items fuel hk it
      end
  end.
Definition decode_tree (payload : bytes) (hk : HashKind) : list (Res TreeEntry) :=
  tree_items (S (S (length payload))) hk (mkTreeIter payload false).

End Decoders.

(* ------------------------------------------------------------------ *)
(** ** The identity grammar *)

(** [raw] spells the identity [i]: the name, blanks, the bracketed email, one
    space, the timestamp, one space and the timezone. *)
Definition identity_spelling (raw : bytes) (i : Identity) : Prop :=
  exists blanks time,
    raw = id_name i ++ blanks ++ [x3c] ++ id_email i ++ [x3e; x20] ++ time ++ [x20] ++ id_tz i /\
    Forall (fun b => beq x3c b = false) (id_name i ++ blanks) /\
    Forall (fun b => is_ascii_whitespace b = true) blanks /\
    (forall b, last (id_name i) = Some b -> is_ascii_whitespace b = false) /\
    Forall (fun b => beq x3e b = false) (id_email i) /\
    Forall (fun b => beq x20 b = false) time /\ parse_i64 time = Some (id_time i) /\
    id_tz i <> [] /\ Forall (fun b => beq x20 b = false) (id_tz i) /\
    Forall (fun b => beq x09 b = false) (id_tz i).

Lemma existsb_beq_false c l : existsb (beq c) l = false <-> Forall (fun b => beq c b = false) l.
Proof. induction l as [|b l IH]; simpl; [done|]. rewrite orb_false_iff, Forall_cons. naive_solver. Qed.

Lemma parse_i64_nonempty l z : parse_i64 l = Some z -> l <> [].
Proof. by intros E ->. Qed.

(** Where the name ends: after the last byte that is not blank. *)
Lemma name_end_split (pre : bytes) :
  let n := match rposition (fun b => negb (is_ascii_whitespace b)) pre with
           | Some position => (position + 1)%nat
           | None => 0%nat
           end in
  exists blanks, pre = take n pre ++ blanks /\ (n <= length pre)%nat /\
    Forall (fun b => is_ascii_whitespace b = true) blanks /\
    (forall b, last (take n pre) = Some b -> is_ascii_whitespace b = false).
Proof.
  cbv zeta. destruct (rposition _ pre) as [p|] eqn:E.
  - apply rposition_Some in E as (a & x & post & -> & <- & Hx & Hp). exists post.
    replace (length a + 1)%nat with (length (a ++ [x])) by (rewrite length_app; simpl; lia).
    rewrite (cons_middle x a post), app_assoc. rewrite take_app_length. split_and!; [done|rewrite !length_app; simpl; lia| |].
    + eapply Forall_impl; [exact Hp|]. intros b Hb. by apply negb_false_iff.
    + intros b. rewrite last_snoc. intros [= <-]. by apply negb_true_iff.
  - apply rposition_None in E. exists pre. split_and!; [done|lia| |done].
    eapply Forall_impl; [exact E|]. intros b Hb. by apply negb_false_iff.
Qed.

Lemma name_end_of (name blanks : bytes) :
  Forall (fun b => is_ascii_whitespace b = true) blanks ->
  (forall b, last name = Some b -> is_ascii_whitespace b = false) ->
  match rposition (fun b => negb (is_ascii_whitespace b)) (name ++ blanks) with
  | Some position => (position + 1)%nat
  | None => 0%nat
  end = length name.
Proof.
  intros Hb Hn. assert (Forall (fun b => negb (is_ascii_whitespace b) = false) blanks) as Hb'.
  { eapply Forall_impl; [exact Hb|]. by intros b ->. }
  destruct name as [|b name _] using rev_ind.
  - by rewrite app_nil_l, (proj2 (rposition_None _ _) Hb').
  - rewrite <- app_assoc. simpl. rewrite rposition_app_r; [|done|].
    + rewrite length_app. simpl. lia.
    + rewrite Hn; [done|]. by rewrite last_snoc.
Qed.

(** The parser on a raw identity already cut at its brackets. *)
Lemma decode_identity_cut pre email rest :
  Forall (fun b => beq x3c b = false) pre -> Forall (fun b => beq x3e b = false) email ->
  decode_identity (pre ++ x3c :: email ++ x3e :: rest) =
  let name_end := match rposition (fun b => negb (is_ascii_whitespace b)) pre with
                  | Some position => (position + 1)%nat
                  | None => 0%nat
                  end in
  let? suffix := ok_or (malformed "identity is missing its timestamp") (strip_prefix [x20] rest) in
  let? time_separator := ok_or (malformed "identity is missing its timezone")
                           (position (beq x20) suffix) in
  let time_bytes := take time_separator suffix in
  let tz := drop (time_separator + 1) suffix in
  if bool_decide (time_bytes = []) || bool_decide (tz = []) || existsb (beq x20) tz
     || existsb (beq x09) tz then
    Err (malformed "identity timestamp or timezone is malformed")
  else
    let? time := ok_or (malformed "identity timestamp is malformed") (parse_i64 time_bytes) in
    Ok (mkIdentity (take name_end pre) email time tz).
Proof.
  intros Hp He. unfold decode_identity. rewrite position_app_l by done. cbn [ok_or rbind].
  rewrite drop_mid, position_app_l by done. cbn [fmap option_fmap option_map ok_or rbind].
  rewrite take_mid.
  replace (length pre + 1 + length email + 1)%nat with (length (pre ++ x3c :: email) + 1)%nat
    by (rewrite length_app; simpl; lia).
  replace (pre ++ x3c :: email ++ x3e :: rest) with ((pre ++ x3c :: email) ++ x3e :: rest)
    by (by rewrite <- app_assoc).
  rewrite drop_mid. destruct (name_end_split pre) as (blanks & Hpre & Hle & _ & _). cbv zeta in *.
  replace (length pre + 1 + length email - (length pre + 1))%nat with (length email) by lia.
  replace (drop (length pre + 1) ((pre ++ x3c :: email) ++ x3e :: rest)) with (email ++ x3e :: rest)
    by (rewrite <- app_assoc; simpl; by rewrite drop_mid).
  rewrite take_mid.
  match goal with |- context [take ?n ((pre ++ x3c :: email) ++ x3e :: rest)] =>
    replace (take n ((pre ++ x3c :: email) ++ x3e :: rest)) with (take n pre) end; [done|].
  rewrite <- app_assoc. by rewrite take_app_le.
Qed.

Lemma decode_identity_sound raw i : decode_identity raw = Ok i -> identity_spelling raw i.
Proof.
  intros E.
  assert (exists pre email rest, raw = pre ++ x3c :: email ++ x3e :: rest /\
            Forall (fun b => beq x3c b = false) pre /\ Forall (fun b => beq x3e b = false) email)
    as (pre & email & rest & -> & Hpre & Hem).
  { unfold decode_identity in E. apply rbind_Ok in E as (l & Hl & E). apply ok_or_Ok in Hl.
    apply position_Some in Hl as (pre & x & post & -> & <- & Hx & Hpre). apply beq_true in Hx as <-.
    apply rbind_Ok in E as (r & Hr & _). apply ok_or_Ok in Hr. rewrite drop_mid in Hr.
    destruct (position (beq x3e) post) as [k|] eqn:Ek; [|done].
    apply position_Some in Ek as (em & y & rest & -> & _ & Hy & Hem). apply beq_true in Hy as <-.
    by exists pre, em, rest. }
  rewrite decode_identity_cut in E by done. cbv zeta in E.
  destruct (name_end_split pre) as (blanks & Hsplit & _ & Hbl & Hlast). cbv zeta in *.
  match type of Hsplit with _ = take ?n _ ++ _ => set (k := n) in * end.
  apply rbind_Ok in E as (suffix & Hs & E). apply ok_or_Ok, strip_prefix_Some in Hs as ->.
  apply rbind_Ok in E as (sep & Hs & E). apply ok_or_Ok in Hs.
  apply position_Some in Hs as (time & y & tz & -> & <- & Hy & Htime). apply beq_true in Hy as <-.
  rewrite take_mid, drop_mid in E. destruct (_ || _) eqn:Eb; [done|].
  apply orb_false_iff in Eb as [Eb Et9]. apply orb_false_iff in Eb as [Eb Et20].
  apply orb_false_iff in Eb as [_ Etz]. apply bool_decide_eq_false in Etz.
  apply rbind_Ok in E as (z & Hz & [= <-]). apply ok_or_Ok in Hz.
  exists blanks, time. cbn [id_name id_email id_time id_tz].
  rewrite existsb_beq_false in Et9, Et20. rewrite <- Hsplit. split_and!; try done.
  rewrite (app_assoc (take k pre)), <- Hsplit. done.
Qed.

Lemma decode_identity_complete raw i : identity_spelling raw i -> decode_identity raw = Ok i.
Proof.
  intros (blanks & time & -> & Hpre & Hbl & Hlast & Hem & Htime & Hz & Htz & H20 & H9).
  destruct i as [name email z tz]. cbn [id_name id_email id_time id_tz] in *.
  rewrite (app_assoc name). cbn [app]. rewrite decode_identity_cut by done. cbv zeta.
  rewrite name_end_of, take_app_length by done. cbn [strip_prefix]. rewrite beq_refl. cbn [ok_or rbind].
  rewrite position_app_l by done. cbn [ok_or rbind]. rewrite take_mid, drop_mid, Hz.
  rewrite (bool_decide_eq_false_2 (time = [])) by (by eapply parse_i64_nonempty).
  rewrite (bool_decide_eq_false_2 (tz = [])) by done.
  by rewrite (proj2 (existsb_beq_false _ _) H20), (proj2 (existsb_beq_false _ _) H9).
Qed.

Lemma decode_identity_Err raw e : decode_identity raw = Err e -> code e = MalformedObject.
Proof.
  unfold decode_identity. intros E. unfold rbind, ok_or in E.
  repeat (case_match; simplify_eq/=; try done).
Qed.

(** The identity parser accepts exactly Git's identity grammar: it returns
    an identity if and only if the raw bytes spell it, with the name's trailing
    blanks dropped, the timezone kept byte for byte and the timestamp an [i64];
    everything else is a [malformed_object] error. *)
Theorem decode_identity_grammar raw :
  (forall i, decode_identity raw = Ok i <-> identity_spelling raw i) /\
  (forall e, decode_identity raw = Err e -> code e = MalformedObject).
Proof.
  split; [|apply decode_identity_Err].
  split; [apply decode_identity_sound|apply decode_identity_complete].
Qed.

(* ------------------------------------------------------------------ *)
(** ** Commits and tags *)

Lemma parse_embedded_oid_Ok raw kind field o :
  parse_embedded_oid raw kind field = Ok o ->
  oid_kind o = kind /\ Oid_wf o /\ to_hex o = lower_hex <$> raw.
Proof.
  unfold parse_embedded_oid. rewrite negb_if, if_Ok. intros [_ E].
  apply rbind_Ok in E as (o' & Ho & E). destruct (parse_hex raw) as [o1|] eqn:Ep; simplify_eq/=.
  rewrite negb_if, if_Ok in E. destruct E as [Ek [= <-]]. apply bool_decide_eq_true in Ek.
  destruct (parse_hex_Ok _ _ Ep) as (? & ? & _). done.
Qed.

Lemma parse_embedded_oid_Err raw kind field e :
  parse_embedded_oid raw kind field = Err e -> code e = MalformedObject.
Proof.
  unfold parse_embedded_oid, map_err, rbind. intros. repeat (case_match; simplify_eq/=; try done).
Qed.

Lemma map_res_Ok {A B} (f : A -> Res B) l l' :
  map_res f l = Ok l' <-> Forall2 (fun x y => f x = Ok y) l l'.
Proof.
  revert l'. induction l as [|x l IH]; intros l'; cbn [map_res].
  - split; [by intros [= <-]|]. intros H. by inversion H.
  - rewrite rbind_Ok. split.
    + intros (y & Hy & E). apply rbind_Ok in E as (ys & Hys & [= <-]). constructor; [done|by apply IH].
    + intros HF. apply Forall2_cons_inv_l in HF as (y & ys & Hy & Hys & ->). exists y. split; [done|].
      apply IH in Hys. by rewrite Hys.
Qed.

Lemma map_res_Err {A B} (f : A -> Res B) (P : Error -> Prop) l e :
  (forall x e, f x = Err e -> P e) -> map_res f l = Err e -> P e.
Proof.
  intros HP. induction l as [|x l IH]; cbn [map_res]; [done|].
  destruct (f x) eqn:Ef; cbn [rbind]; [|intros [= <-]; by eapply HP].
  destruct (map_res f l); cbn [rbind]; [done|]. intros [= <-]. by apply IH.
Qed.

Lemma split_headers_filter headers s x :
  split_headers headers s x =
  (s ++ filter (fun h => is_signature_header h.1 = true) headers,
   x ++ filter (fun h => is_signature_header h.1 = false) headers).
Proof.
  revert s x. induction headers as [|[n v] headers IH]; intros s x; cbn [split_headers].
  - by rewrite !app_nil_r.
  - rewrite !filter_cons. simpl. destruct (is_signature_header n); rewrite IH; simpl;
      by rewrite <- app_assoc.
Qed.

Section DecodeFacts.
Context `{GixObject}.

(** What a decoded commit says of the parsed one: IDs of the requested hash
    kind that print as the encoded hexadecimal, spelled identities, and the
    headers separated without loss and in order. *)
Definition commit_agrees (hk : HashKind) (p : CommitRef) (c : CommitObject) : Prop :=
  oid_kind (tree_oid c) = hk /\ to_hex (tree_oid c) = lower_hex <$> cr_tree p /\
  Forall2 (fun raw o => oid_kind o = hk /\ to_hex o = lower_hex <$> raw) (cr_parents p) (parents c) /\
  identity_spelling (cr_author p) (author c) /\ identity_spelling (cr_committer p) (committer c) /\
  commit_message c = cr_message p /\
  signature_headers c = filter (fun h => is_signature_header h.1 = true) (cr_extra_headers p) /\
  extra_headers c = match cr_encoding p with Some e => [(bs "encoding", e)] | None => [] end
                    ++ filter (fun h => is_signature_header h.1 = false) (cr_extra_headers p).

Lemma decode_commit_Err payload hk e : decode_commit payload hk = Err e -> code e = MalformedObject.
Proof.
  unfold decode_commit. intros E. destruct (gix_commit payload hk) as [p|]; cbn [ok_or rbind] in E.
  2: by simplify_eq.
  destruct (parse_embedded_oid (cr_tree p) hk "commit tree") eqn:E1; cbn [rbind] in E.
  2: { simplify_eq. by eapply parse_embedded_oid_Err. }
  destruct (map_res _ (cr_parents p)) eqn:E2; cbn [rbind] in E.
  2: { simplify_eq. eapply (map_res_Err _ (fun e => code e = MalformedObject)); [|exact E2].
       intros x e'. apply parse_embedded_oid_Err. }
  destruct (decode_identity (cr_author p)) eqn:E3; cbn [rbind] in E.
  2: { simplify_eq. by eapply decode_identity_Err. }
  destruct (decode_identity (cr_committer p)) eqn:E4; cbn [rbind] in E.
  2: { simplify_eq. by eapply decode_identity_Err. }
  by destruct (split_headers _ _ _).
Qed.

Lemma decode_commit_parents payload hk c :
  decode_commit payload hk = Ok c -> Forall (fun o => oid_kind o = hk) (parents c).
Proof.
  unfold decode_commit. intros E. apply rbind_Ok in E as (p & _ & E).
  apply rbind_Ok in E as (t & _ & E). apply rbind_Ok in E as (ps & Hps & E).
  apply rbind_Ok in E as (au & _ & E). apply rbind_Ok in E as (co & _ & E).
  destruct (split_headers _ _ _) as [s x]. simplify_eq/=. apply map_res_Ok in Hps.
  induction Hps as [|raw o ? ? Ho _ IH]; constructor; [|done]. by apply parse_embedded_oid_Ok in Ho as (? & _).
Qed.

(** Decoding a commit loses nothing: on success the result agrees with
    the parsed payload field by field (object IDs, identities, message, and
    signature and other headers as an order-preserving partition); the only
    error it raises is [malformed_object]. *)
Theorem decode_commit_agrees payload hk :
  (forall c, decode_commit payload hk = Ok c ->
     exists p, gix_commit payload hk = Some p /\ commit_agrees hk p c) /\
  (forall e, decode_commit payload hk = Err e -> code e = MalformedObject).
Proof.
  split; [|apply decode_commit_Err].
  unfold decode_commit. intros c E. apply rbind_Ok in E as (p & Hp & E). apply ok_or_Ok in Hp.
  exists p. split; [done|]. apply rbind_Ok in E as (t & Ht & E).
  apply rbind_Ok in E as (ps & Hps & E). apply rbind_Ok in E as (au & Hau & E).
  apply rbind_Ok in E as (co & Hco & E). rewrite split_headers_filter in E. simplify_eq.
  apply parse_embedded_oid_Ok in Ht as (? & _ & ?). apply map_res_Ok in Hps.
  unfold commit_agrees. simpl. split_and!; try done.
  - eapply Forall2_impl; [exact Hps|]. intros raw o Ho. by apply parse_embedded_oid_Ok in Ho as (? & _ & ?).
  - by apply decode_identity_sound.
  - by apply decode_identity_sound.
Qed.

Lemma decode_tag_Err payload hk e : decode_tag payload hk = Err e -> code e = MalformedObject.
Proof.
  unfold decode_tag. intros E. destruct (gix_tag payload hk) as [p|]; cbn [ok_or rbind] in E.
  2: by simplify_eq.
  destruct (parse_embedded_oid (tr_target p) hk "tag target") eqn:E1; cbn [rbind] in E.
  2: { simplify_eq. by eapply parse_embedded_oid_Err. }
  destruct (tr_tagger p) as [raw|]; [|done].
  destruct (decode_identity raw) eqn:E2; cbn [rbind] in E; [done|].
  simplify_eq. by eapply decode_identity_Err.
Qed.

Lemma decode_tag_kind payload hk t : decode_tag payload hk = Ok t -> oid_kind (target_oid t) = hk.
Proof.
  unfold decode_tag. intros E. apply rbind_Ok in E as (p & _ & E).
  apply rbind_Ok in E as (o & Ho & E). apply rbind_Ok in E as (tg & _ & [= <-]). simpl.
  by apply parse_embedded_oid_Ok in Ho as (? & _).
Qed.

(** ** Trees *)

Lemma tree_iter_next_shrinks hk it item it' :
  tree_iter_next hk it = (Some item, it') ->
  (length (ti_remaining it') + (if ti_failed it' then 0 else 1) <
   length (ti_remaining it) + (if ti_failed it then 0 else 1))%nat.
Proof.
  unfold tree_iter_next. destruct (ti_failed it) eqn:Ef; [done|].
  destruct (_ && _); [intros [= <- <-]; simpl; lia|].
  destruct (gix_tree_next hk (ti_remaining it)) as [[[e|] rest]|] eqn:E; [..|done];
    apply gix_tree_shrinks in E; intros [= <- <-]; simpl; lia.
Qed.

Lemma tree_items_enough hk it n m :
  (length (ti_remaining it) + (if ti_failed it then 0 else 1) < n)%nat -> (n <= m)%nat ->
  tree_items m hk it = tree_items n hk it.
Proof.
  revert it m. induction n as [|n IH]; intros it m Hlt Hle; [lia|]. destruct m as [|m]; [lia|].
  cbn [tree_items]. destruct (tree_iter_next hk it) as [[item|] it'] eqn:E; [|done].
  f_equal. apply IH; [|lia]. pose proof (tree_iter_next_shrinks _ _ _ _ E). lia.
Qed.

(** Tree iteration ends: running the iterator of [decode_tree] for any
    number of further steps yields no further item, so the list of items is
    the whole iteration; and an entry whose mode field is empty, longer than
    six bytes or all zeros ends it with an error. *)
Theorem decode_tree_terminates payload hk :
  (forall n, (S (S (length payload)) <= n)%nat ->
     tree_items n hk (mkTreeIter payload false) = decode_tree payload hk) /\
  (payload <> [] -> valid_mode payload = false ->
     decode_tree payload hk = [Err (malformed "tree entry mode is malformed")]).
Proof.
  split.
  - intros n Hn. unfold decode_tree. apply tree_items_enough; [simpl; lia|done].
  - intros Hne Hm. unfold decode_tree, tree_items, tree_iter_next. cbn [ti_failed ti_remaining].
    rewrite Hm, (bool_decide_eq_false_2 (payload = [])) by done. simpl.
    by destruct payload.
Qed.

End DecodeFacts.

(* ------------------------------------------------------------------ *)
(** ** A concrete parser for the evaluated examples *)

Definition cut_at (c : byte) (l : bytes) : option (bytes * bytes) :=
  match position (beq c) l with
  | Some i => Some (take i l, drop (i + 1) l)
  | None => None
  end.

Definition field (name : string) (l : bytes) : option (bytes * bytes) :=
  r ← strip_prefix (bs name) l;
  cut_at x0a r.

Fixpoint parent_fields (fuel : nat) (l : bytes) : list bytes * bytes :=
  match fuel with
  | O => ([], l)
  | S fuel =>
      match field "parent " l with
      | Some (p, rest) => let '(ps, rest) := parent_fields fuel rest in (p :: ps, rest)
      | None => ([], l)
      end
  end.

Definition simple_commit (l : bytes) : option CommitRef :=
  '(tree, l) ← field "tree " l;
  let '(ps, l) := parent_fields (length l) l in
  '(au, l) ← field "author " l;
  '(co, l) ← field "committer " l;
  message ← strip_prefix [x0a] l;
  Some (mkCommitRef tree ps au co None message []).

Definition simple_kind (l : bytes) : option ObjectKind :=
  if bytes_eqb l (bs "commit") then Some Commit
  else if bytes_eqb l (bs "tree") then Some Tree
  else if bytes_eqb l (bs "blob") then Some Blob
  else if bytes_eqb l (bs "tag") then Some Tag else None.

Definition simple_tag (l : bytes) : option TagRef :=
  '(target, l) ← field "object " l;
  '(k, l) ← field "type " l;
  kind ← simple_kind k;
  '(name, l) ← field "tag " l;
  Some (mkTagRef target kind name None).

Fixpoint octal (acc : N) (l : bytes) : N :=
  match l with
  | [] => acc
  | b :: l => octal (8 * acc + (byteN b - 48)) l
  end.

Definition simple_tree_next (k : HashKind) (d : bytes) : option (option EntryRef * bytes) :=
  match d with
  | [] => None
  | _ :: _ =>
      match cut_at x20 d with
      | Some (mode, rest) =>
          match cut_at x00 rest with
          | Some (name, rest) =>
              if (digest_len k <=? length rest)%nat
              then Some (Some (mkEntryRef (octal 0 mode mod 65536) name k (take (digest_len k) rest)),
                         drop (digest_len k) rest)
              else Some (None, [])
          | None => Some (None, [])
          end
      | None => Some (None, [])
      end
  end.

Lemma cut_at_length c l a b : cut_at c l = Some (a, b) -> (length b < length l)%nat.
Proof.
  unfold cut_at. destruct (position (beq c) l) as [i|] eqn:E; [|done]. intros [= <- <-].
  apply position_Some in E as (pre & x & post & -> & <- & _). rewrite drop_mid, length_app. simpl. lia.
Qed.

Lemma simple_tree_shrinks k d e d' :
  simple_tree_next k d = Some (e, d') -> (length d' < length d)%nat.
Proof.
  intros E. destruct d as [|x d]; [done|]. unfold simple_tree_next in E.
  destruct (cut_at x20 (x :: d)) as [[mode rest]|] eqn:E1; [|simplify_eq/=; lia].
  destruct (cut_at x00 rest) as [[name rest']|] eqn:E2; [|simplify_eq/=; lia].
  apply cut_at_length in E1, E2. case_match; simplify_eq/=; rewrite ?length_drop; lia.
Qed.

Definition simple_gix : GixObject :=
  {| gix_commit l _ := simple_commit l; gix_tag l _ := simple_tag l;
     gix_tree_next := simple_tree_next; gix_tree_shrinks := simple_tree_shrinks |}.

(** Payloads for the examples. *)
Definition sample_id (b : byte) : Oid := mkOid Sha1 (replicate 20 b ++ replicate 12 x00).
Definition sample_commit (tree : Oid) (ps : list Oid) : bytes :=
  bs "tree " ++ to_hex tree ++ [x0a]
  ++ (ps ≫= fun p => bs "parent " ++ to_hex p ++ [x0a])
  ++ bs "author A <a> 1 +0000" ++ [x0a] ++ bs "committer A <a> 1 +0000" ++ [x0a; x0a] ++ bs "msg".
Definition sample_tag (target : Oid) (kind : ObjectKind) : bytes :=
  bs "object " ++ to_hex target ++ [x0a] ++ bs "type " ++ bs (ObjectKind_as_str kind) ++ [x0a]
  ++ bs "tag v1" ++ [x0a; x0a] ++ bs "notes".

Example decode_sample_commit :
  parents <$> res_ok (@decode_commit simple_gix (sample_commit (sample_id x01) [sample_id x02; sample_id x03]) Sha1)
  = Some [sample_id x02; sample_id x03].
Proof. vm_compute. reflexivity. Qed.

Example decode_sample_identity :
  decode_identity (bs "A U Thor  <a@b> -12 +0130") =
  Ok (mkIdentity (bs "A U Thor") (bs "a@b") (-12) (bs "+0130")).
Proof. vm_compute. reflexivity. Qed.

Lemma decode_tree_terminates_witness :
  @decode_tree simple_gix (bs "000000 a") Sha1 = [Err (malformed "tree entry mode is malformed")].
Proof. apply (@decode_tree_terminates simple_gix (bs "000000 a") Sha1); done. Defined.

Lemma decode_commit_agrees_witness :
  exists c p, @gix_commit simple_gix (sample_commit (sample_id x01) []) Sha1 = Some p /\
    commit_agrees Sha1 p c.
Proof.
  assert (exists c, @decode_commit simple_gix (sample_commit (sample_id x01) []) Sha1 = Ok c) as [c Hc]
    by (eexists; vm_compute; reflexivity).
  exists c. apply (@decode_commit_agrees simple_gix (sample_commit (sample_id x01) []) Sha1).
  exact Hc.
Defined.

Lemma decode_identity_grammar_witness :
  identity_spelling (bs "A U Thor  <a@b> -12 +0130")
    (mkIdentity (bs "A U Thor") (bs "a@b") (-12) (bs "+0130")).
Proof. apply (decode_identity_grammar (bs "A U Thor  <a@b> -12 +0130")). vm_compute. reflexivity. Defined.
