(* ===== verification/Snapshot.v ===== *)
(** * Immutable commit snapshots and tag peeling ([snapshot.rs]) *)

From Stdlib Require Import NArith Lia Strings.Byte Strings.String.
From stdpp Require Import prelude gmap strings list.
From S2P Require Import Prelude Errors Objects Budget Odb Decode.

Open Scope N_scope.

Definition MAX_TAG_HOPS : nat := 16%nat.

(** [PeelTarget] and [Snapshot]. *)
Inductive PeelTarget : Type :=
| PeelCommit
| PeelTree
| PeelBlob.

Record Snapshot : Type := mkSnapshot {
  commit_oid : Oid;
  snap_tree_oid : Oid
}.

(** [missing], [tag_hop_error] and [wrong_peel_target]. *)
Definition missing (oid : Oid) : Error :=
  Error_new MissingObject ("object " ++ oid_str oid ++ " is missing from the object store").
Definition tag_hop_error : Error :=
  Error_new MalformedObject "annotated tag chain exceeds 16 hops".
Definition wrong_peel_target (t : PeelTarget) : Error :=
  match t with
  | PeelCommit => Error_new NotACommit "object cannot be peeled to a commit"
  | PeelTree => Error_new NotATree "object cannot be peeled to a tree"
  | PeelBlob => Error_new NotABlob "object cannot be peeled to a blob"
  end.

Section Peeling.
Context `{Env, GixObject} {T : Type} (db : ObjectDb T).

(** [ensure_compatible]. *)
Definition ensure_compatible (oid : Oid) (operation : string) : Res unit :=
  if bool_decide (hash_kind db = Sha256) then
    Err (Error_new UnsupportedHash "SHA-256 query execution not yet supported")
  else if negb (bool_decide (oid_kind oid = hash_kind db)) then
    Err (Error_new InvalidOid (operation ++ " object ID algorithm does not match the object store"))
  else Ok tt.

(** [peel_tag_chain]: iteration [hop] of the loop [0..=MAX_TAG_HOPS] has
    [hops = MAX_TAG_HOPS - hop] iterations after it. *)
Fixpoint peel_loop (hops : nat) (current : Oid) (declared : option ObjectKind)
  : DM T (Oid * ObjectKind * bytes) :=
  let! found := try_find db current in
  let! (kind, payload) := slift (ok_or (missing current) found) in
  if match declared with
     | Some expected => negb (bool_decide (expected = kind))
     | None => false
     end then
    sthrow (Error_new MalformedObject "annotated tag target kind does not match its object")
  else if negb (bool_decide (kind = Tag)) then sret (current, kind, payload)
  else
    match hops with
    | O => sthrow tag_hop_error
    | S hops =>
        let! tag := slift (decode_tag payload (hash_kind db)) in
        peel_loop hops (target_oid tag) (Some (target_kind tag))
    end.
Definition peel_tag_chain (oid : Oid) : DM T (Oid * ObjectKind * bytes) :=
  peel_loop MAX_TAG_HOPS oid None.

(** [peel]. *)
Definition peel (oid : Oid) (target : PeelTarget) : DM T Oid :=
  let! _ := slift (ensure_compatible oid "peel") in
  let! (current, kind, payload) := peel_tag_chain oid in
  match kind, target with
  | Commit, PeelCommit => sret current
  | Commit, PeelTree =>
      let! commit := slift (decode_commit payload (hash_kind db)) in
      sret (tree_oid commit)
  | Tree, PeelTree => sret current
  | Blob, PeelBlob => sret current
  | _, _ => sthrow (wrong_peel_target target)
  end.

(** [Snapshot::open] and [Snapshot::open_direct]; the free functions [open]
    and [open_direct] call them. *)
Definition snapshot_open (oid : Oid) : DM T Snapshot :=
  let! _ := slift (ensure_compatible oid "snapshot") in
  let! (commit_id, kind, payload) := peel_tag_chain oid in
  if negb (bool_decide (kind = Commit)) then
    sthrow (Error_new NotACommit "snapshot target is not a commit")
  else
    let! commit := slift (decode_commit payload (hash_kind db)) in
    sret (mkSnapshot commit_id (tree_oid commit)).

Definition snapshot_open_direct (oid : Oid) : DM T Snapshot :=
  let! _ := slift (ensure_compatible oid "snapshot") in
  let! found := try_find db oid in
  let! (kind, payload) := slift (ok_or (missing oid) found) in
  if negb (bool_decide (kind = Commit)) then
    sthrow (Error_new NotACommit "snapshot target is not a direct commit")
  else
    let! commit := slift (decode_commit payload (hash_kind db)) in
    sret (mkSnapshot oid (tree_oid commit)).

End Peeling.

(* ------------------------------------------------------------------ *)
(** ** Specification: chains of annotated tags *)

Section Chains.
Context `{GixObject} (c : Oid -> ObjectReadResult) (hk : HashKind).

(** [tag_chain n oid declared r]: from [oid], [n] tags lead to the untagged
    object [r], each object having the kind its tag declares. *)
Inductive tag_chain : nat -> Oid -> option ObjectKind -> Oid * ObjectKind * bytes -> Prop :=
| chain_end oid declared k p :
    c oid = Some (k, p) -> k <> Tag -> (declared = None \/ declared = Some k) ->
    tag_chain 0 oid declared (oid, k, p)
| chain_tag n oid declared p t r :
    c oid = Some (Tag, p) -> (declared = None \/ declared = Some Tag) ->
    decode_tag p hk = Ok t -> tag_chain n (target_oid t) (Some (target_kind t)) r ->
    tag_chain (S n) oid declared r.

Lemma tag_chain_det n m oid declared r r' :
  tag_chain n oid declared r -> tag_chain m oid declared r' -> n = m /\ r = r'.
Proof.
  intros Hc. revert m r'. induction Hc as [? ? ? ? Hc Ht _|? ? ? ? ? ? Hc _ Hd _ IH]; intros m r' Hc';
    inversion Hc' as [? ? k' p' Ec' Ht'|n' ? ? p' t' ? Ec' _ Hd' Hc1]; subst;
    rewrite Hc in Ec'; simplify_eq; try done; try congruence.
  rewrite Hd in Hd'. simplify_eq. by destruct (IH _ _ Hc1) as [-> ->].
Qed.

(** What an object peels to. *)
Definition peels_to (target : PeelTarget) (oid out : Oid) : Prop :=
  exists n cur k p, (n <= MAX_TAG_HOPS)%nat /\ tag_chain n oid None (cur, k, p) /\
  match target, k with
  | PeelCommit, Commit | PeelTree, Tree | PeelBlob, Blob => out = cur
  | PeelTree, Commit => exists com, decode_commit p hk = Ok com /\ out = tree_oid com
  | _, _ => False
  end.

Definition opens_to (oid : Oid) (s : Snapshot) : Prop :=
  exists n p com, (n <= MAX_TAG_HOPS)%nat /\ tag_chain n oid None (commit_oid s, Commit, p) /\
    decode_commit p hk = Ok com /\ snap_tree_oid s = tree_oid com.

End Chains.

Section PeelSpec.
Context `{Env, GixObject} {T : Type} (db : ObjectDb T) (c : Oid -> ObjectReadResult)
        (I : T -> Prop) (F : ErrorCode -> Prop).
Context `{!LawfulDb db c I F}.

(** A failure of the store, or one of the listed codes with a reason [R]. *)
Definition fails (codes : list ErrorCode) (R : Prop) (e : Error) : Prop :=
  F (code e) \/ (code e ∈ codes /\ R).

Lemma peel_loop_spec hops oid declared :
  hoare (on_store I)
    (fails [MissingObject; MalformedObject]
       (forall n r, (n <= hops)%nat -> ~ tag_chain c (hash_kind db) n oid declared r))
    (peel_loop db hops oid declared)
    (fun r => exists n, (n <= hops)%nat /\ tag_chain c (hash_kind db) n oid declared r).
Proof.
  revert oid declared. induction hops as [|hops IH]; intros oid declared; cbn [peel_loop];
    (eapply hoare_bind;
      [eapply hoare_conseq; [apply law_find|by left|intros v Hv; exact Hv]|]; intros v Hv).
  all: destruct (c oid) as [[k p]|] eqn:Ec; subst v; cbn [ok_or].
  2,4: eapply (hoare_bind _ _ _ _ (fun _ => False)); [|done]; apply hoare_lift; right;
       split; [set_solver|]; intros n r _ Hch; inversion Hch; congruence.
  all: eapply (hoare_bind _ _ _ _ (fun r => r = (k, p))); [by apply hoare_lift|]; intros ? ->.
  all: destruct (match declared with Some _ => _ | None => _ end) eqn:Ed.
  1,3: apply hoare_throw; right; split; [set_solver|]; intros n r _ Hch;
       destruct declared as [d|]; [|done]; apply negb_true_iff, bool_decide_eq_false in Ed;
       inversion Hch; naive_solver.
  all: assert (declared = None \/ declared = Some k) as Hdec
         by (destruct declared as [d|]; [|by left]; right; f_equal;
             by apply negb_false_iff, bool_decide_eq_true in Ed).
  all: case_bool_decide as Ek; cbn [negb];
       [|apply hoare_ret; exists 0%nat; split; [lia|by constructor]]; subst k.
  - apply hoare_throw. right. split; [set_solver|]. intros n r Hn Hch. inversion Hch; [congruence|lia].
  - destruct (decode_tag p (hash_kind db)) as [t|e] eqn:Et.
    + eapply (hoare_bind _ _ _ _ (fun r => r = t)); [by apply hoare_lift|]. intros ? ->.
      eapply hoare_conseq; [apply IH| |].
      * intros e [He|[He Hn]]; [by left|right]. split; [done|]. intros n r Hle Hch.
        inversion Hch as [? ? ? ? Ec'|m ? ? ? t' ? Ec' _ Et' Hch']; subst; rewrite Ec in Ec';
          simplify_eq. rewrite Et in Et'. simplify_eq. apply (Hn m r); [lia|done].
      * intros r (n & Hn & Hch). exists (S n). split; [lia|]. by econstructor.
    + eapply (hoare_bind _ _ _ _ (fun _ => False)); [|done]. apply hoare_lift. right.
      split; [rewrite (decode_tag_Err _ _ _ Et); set_solver|]. intros n r _ Hch. inversion Hch; congruence.
Qed.

Lemma ensure_compatible_spec oid op codes R :
  UnsupportedHash ∈ codes -> InvalidOid ∈ codes ->
  (hash_kind db = Sha256 \/ oid_kind oid <> hash_kind db -> R) ->
  hoare (on_store I) (fails codes R) (slift (ensure_compatible db oid op)) (fun _ => hash_kind db = Sha1 /\ oid_kind oid = Sha1).
Proof.
  intros H1 H2 HR. apply hoare_lift. unfold ensure_compatible.
  case_bool_decide as E1; cbn [negb]; [right; split; [done|by apply HR; left]|].
  case_bool_decide as E2; cbn [negb]; [|right; split; [done|by apply HR; right]].
  simpl. destruct (hash_kind db); [|done]. done.
Qed.

(** When the store and the ID are SHA-1 and compatible. *)
Definition queryable (oid : Oid) : Prop := hash_kind db = Sha1 /\ oid_kind oid = hash_kind db.

(** Opening a snapshot follows annotated tags exactly. If it succeeds,
    a chain of at most 16 tags, each declaring its target's kind truthfully,
    leads from the ID to the snapshot's commit, and the pinned tree is that
    commit's. If it fails, either the store failed or no such chain exists. *)
Theorem snapshot_open_exact oid w r w' :
  I w.2 -> snapshot_open db oid w = (r, w') ->
  match r with
  | Ok s => queryable oid /\ opens_to c (hash_kind db) oid s
  | Err e => F (code e) \/
      (code e ∈ [UnsupportedHash; InvalidOid; MissingObject; MalformedObject; NotACommit] /\
       ~ (queryable oid /\ exists s, opens_to c (hash_kind db) oid s))
  end.
Proof.
  intros Hw E.
  assert (hoare (on_store I)
    (fails [UnsupportedHash; InvalidOid; MissingObject; MalformedObject; NotACommit]
       (~ (queryable oid /\ exists s, opens_to c (hash_kind db) oid s)))
    (snapshot_open db oid) (fun s => queryable oid /\ opens_to c (hash_kind db) oid s)) as Hspec.
  { unfold snapshot_open. eapply hoare_bind.
    { apply ensure_compatible_spec; [set_solver..|]. unfold queryable. intros [->|Hne]; naive_solver. }
    intros _ [Hk Ho]. assert (queryable oid) as Hq by (split; congruence).
    eapply hoare_bind.
    { eapply hoare_conseq; [apply peel_loop_spec| |intros r0 Hr; exact Hr].
      intros e [He|[He Hn]]; [by left|right]. split; [set_solver|].
      intros [_ (s & n & p & com & Hle & Hch & _)]. by eapply Hn. }
    intros [[cur k] p] (n & Hn & Hch). case_bool_decide as Ek; cbn [negb].
    2: { apply hoare_throw. right. split; [set_solver|]. intros [_ (s & n' & p' & com & _ & Hch' & _)].
         destruct (tag_chain_det _ _ _ _ _ _ _ _ Hch Hch'). congruence. }
    subst k. destruct (decode_commit p (hash_kind db)) as [com|e] eqn:Ed.
    - eapply (hoare_bind _ _ _ _ (fun r0 => r0 = com)); [by apply hoare_lift|]. intros ? ->.
      apply hoare_ret. split; [done|]. by exists n, p, com.
    - eapply (hoare_bind _ _ _ _ (fun _ => False)); [|done]. apply hoare_lift. right.
      split; [rewrite (decode_commit_Err _ _ _ Ed); set_solver|].
      intros [_ (s & n' & p' & com & _ & Hch' & Hd' & _)].
      destruct (tag_chain_det _ _ _ _ _ _ _ _ Hch Hch'). congruence. }
  destruct (hoare_run _ _ _ _ _ _ _ Hspec Hw E) as [Hr _]. by destruct r.
Qed.

End PeelSpec.

Section PeelSpec2.
Context `{Env, GixObject} {T : Type} (db : ObjectDb T) (c : Oid -> ObjectReadResult)
        (I : T -> Prop) (F : ErrorCode -> Prop).
Context `{!LawfulDb db c I F}.

Definition peel_codes : list ErrorCode :=
  [UnsupportedHash; InvalidOid; MissingObject; MalformedObject; NotACommit; NotATree; NotABlob].

Lemma peel_spec oid target :
  hoare (on_store I)
    (fails F peel_codes (~ (queryable db oid /\ exists out, peels_to c (hash_kind db) target oid out)))
    (peel db oid target) (fun out => queryable db oid /\ peels_to c (hash_kind db) target oid out).
Proof.
  unfold peel. eapply hoare_bind.
  { apply (ensure_compatible_spec db I F); [set_solver..|]. unfold queryable. intros [->|Hne]; naive_solver. }
  intros _ [Hk Ho]. assert (queryable db oid) as Hq by (split; congruence).
  eapply hoare_bind.
  { eapply hoare_conseq; [apply (peel_loop_spec db c I F)| |intros r0 Hr; exact Hr].
    intros e [He|[He Hn]]; [by left|right]. split; [set_solver|].
    intros [_ (s & n & cur & k & p & Hle & Hch & _)]. by eapply Hn. }
  intros [[cur k] p] (n & Hn & Hch).
  assert (forall out, peels_to c (hash_kind db) target oid out ->
    match target, k with
    | PeelCommit, Commit | PeelTree, Tree | PeelBlob, Blob => out = cur
    | PeelTree, Commit => exists com, decode_commit p (hash_kind db) = Ok com /\ out = tree_oid com
    | _, _ => False
    end) as Huniq.
  { intros out (n' & cur' & k' & p' & _ & Hch' & Hm).
    by destruct (tag_chain_det _ _ _ _ _ _ _ _ Hch Hch') as [_ [= -> -> ->]]. }
  destruct k, target; try (apply hoare_ret; split; [done|]; by eexists n, cur, _, p);
    try (apply hoare_throw; right; split; [set_solver|]; intros [_ [out Hout]]; by apply Huniq in Hout).
  destruct (decode_commit p (hash_kind db)) as [com|e] eqn:Ed.
  - eapply (hoare_bind _ _ _ _ (fun r0 => r0 = com)); [by apply hoare_lift|]. intros ? ->.
    apply hoare_ret. split; [done|]. exists n, cur, Commit, p. split; [done|]. split; [done|]. by exists com.
  - eapply (hoare_bind _ _ _ _ (fun _ => False)); [|done]. apply hoare_lift. right.
    split; [rewrite (decode_commit_Err _ _ _ Ed); set_solver|].
    intros [_ [out Hout]]. apply Huniq in Hout as (com & Hd & _). congruence.
Qed.

(** Peeling to a commit, tree or blob is exact: success gives the object
    that a chain of at most 16 truthful tags leads to (for a tree, the
    commit's root tree when the chain ends at a commit); failure means the
    store failed or the object peels to nothing of that kind. *)
Theorem peel_exact oid target w r w' :
  I w.2 -> peel db oid target w = (r, w') ->
  match r with
  | Ok out => queryable db oid /\ peels_to c (hash_kind db) target oid out
  | Err e => F (code e) \/
      (code e ∈ peel_codes /\
       ~ (queryable db oid /\ exists out, peels_to c (hash_kind db) target oid out))
  end.
Proof.
  intros Hw E. destruct (hoare_run _ _ _ _ _ _ _ (peel_spec oid target) Hw E) as [Hr _].
  by destruct r.
Qed.

End PeelSpec2.

(* ------------------------------------------------------------------ *)
(** ** Witnesses *)

(** A tag of a tag of a commit. *)
Definition tagged_store : StaticOdb := mkStatic Sha1
  {[ sample_id x01 := (Tag, sample_tag (sample_id x02) Tag);
     sample_id x02 := (Tag, sample_tag (sample_id x03) Commit);
     sample_id x03 := (Commit, sample_commit (sample_id x04) []) ]}.
Definition tagged_db : ObjectDb unit := @static_db quiet unit tagged_store.
Definition fresh_world : Budget * unit := (Budget_new BudgetLimits_default None, tt).

Lemma snapshot_open_exact_witness :
  fst (@snapshot_open simple_gix unit tagged_db (sample_id x01) fresh_world) =
    Ok (mkSnapshot (sample_id x03) (sample_id x04)) /\
  @opens_to simple_gix (static_contents tagged_store) Sha1 (sample_id x01)
    (mkSnapshot (sample_id x03) (sample_id x04)).
Proof.
  split; [vm_compute; reflexivity|].
  apply (@snapshot_open_exact simple_gix unit tagged_db (static_contents tagged_store)
           (fun _ => True) plain_failure _ (sample_id x01) fresh_world
           (Ok (mkSnapshot (sample_id x03) (sample_id x04)))
           (snd (@snapshot_open simple_gix unit tagged_db (sample_id x01) fresh_world))); [done|].
  vm_compute. reflexivity.
Defined.

Lemma peel_exact_witness :
  @peels_to simple_gix (static_contents tagged_store) Sha1 PeelTree (sample_id x01) (sample_id x04).
Proof.
  apply (@peel_exact simple_gix unit tagged_db (static_contents tagged_store)
           (fun _ => True) plain_failure _ (sample_id x01) PeelTree fresh_world
           (Ok (sample_id x04))
           (snd (@peel simple_gix unit tagged_db (sample_id x01) PeelTree fresh_world))); [done|].
  vm_compute. reflexivity.
Defined.
