(* ===== verification/Graph.v ===== *)
(** * Priority queues and graph-search measures

    [BinaryHeap] as the walks use it, and the potential that bounds the steps
    of a search over parent links. The heap is kept as the list of its entries:
    [push] adds one and [pop] removes a greatest one. The orders of the walks
    compare unequal for entries with different sequence numbers, so which entry
    is popped does not depend on the layout of the heap. *)

From Stdlib Require Import NArith Lia.
From stdpp Require Import prelude gmap list sorting.
From S2P Require Import Prelude.

(** ** [BinaryHeap] *)

Section Heap.
Context {A : Type} (cmp : A -> A -> comparison).

(** [BinaryHeap::push] and [BinaryHeap::pop]. *)
Definition heap_push (x : A) (h : list A) : list A := x :: h.
Fixpoint heap_pop (h : list A) : option (A * list A) :=
  match h with
  | [] => None
  | x :: h =>
      match heap_pop h with
      | None => Some (x, h)
      | Some (y, rest) =>
          match cmp x y with
          | Lt => Some (y, x :: rest)
          | _ => Some (x, h)
          end
      end
  end.

Lemma heap_pop_None h : heap_pop h = None <-> h = [].
Proof.
  split; [|by intros ->]. destruct h as [|x h]; [done|]. cbn. destruct (heap_pop h) as [[y rest]|]; [|done].
  by destruct (cmp x y).
Qed.

Lemma heap_pop_perm h x rest : heap_pop h = Some (x, rest) -> h ≡ₚ x :: rest.
Proof.
  revert x rest. induction h as [|y h IH]; intros x rest; [done|]. cbn.
  destruct (heap_pop h) as [[z r]|] eqn:E.
  - specialize (IH z r eq_refl). destruct (cmp y z); intros [= <- <-]; [done| |done].
    rewrite IH. apply Permutation_swap.
  - by intros [= <- <-].
Qed.

(** The popped entry is a greatest one, when the order is a total preorder. *)
Lemma heap_pop_max h x rest :
  (forall a b d, cmp a b <> Lt -> cmp b d <> Lt -> cmp a d <> Lt) ->
  (forall a b, cmp a b = Lt -> cmp b a <> Lt) ->
  heap_pop h = Some (x, rest) -> Forall (fun y => cmp x y <> Lt) rest.
Proof.
  intros Htrans Hasym. revert x rest. induction h as [|y h IH]; intros x rest; [done|]. cbn.
  destruct (heap_pop h) as [[z r]|] eqn:E.
  - specialize (IH z r eq_refl). pose proof (heap_pop_perm h z r E) as Hp.
    assert (cmp y z <> Lt -> Forall (fun t => cmp y t <> Lt) h) as Hy.
    { intros Hyz. rewrite Hp. constructor; [done|]. eapply Forall_impl; [exact IH|]. intros t Ht. by eapply Htrans. }
    destruct (cmp y z) eqn:Eyz; intros [= <- <-]; [by apply Hy| |by apply Hy].
    constructor; [by apply Hasym|done].
  - intros [= <- <-]. apply heap_pop_None in E as ->. constructor.
Qed.

End Heap.

(* ------------------------------------------------------------------ *)
(** ** The work left to a search *)

Section Potential.
Context `{Countable A} (deg : A -> nat).

(** Links still to be followed, over the nodes [D]. *)
Definition potential (D : list A) (seen : gset A) : nat :=
  sum_list_with deg (filter (fun x => x ∉ seen) D).

Lemma potential_step D seen x :
  NoDup D -> x ∈ D -> x ∉ seen ->
  (potential D ({[x]} ∪ seen) + deg x = potential D seen)%nat.
Proof.
  unfold potential. intros Hnd. induction Hnd as [|y D Hy Hnd IH]; intros Hx Hs; [by apply not_elem_of_nil in Hx|].
  rewrite !filter_cons. apply elem_of_cons in Hx as [->|Hx].
  - rewrite decide_False by set_solver. rewrite decide_True by done. cbn [sum_list_with].
    assert (filter (fun z => z ∉ {[y]} ∪ seen) D = filter (fun z => z ∉ seen) D) as ->; [|lia].
    clear - Hy. induction D as [|z D IHD]; [done|]. rewrite !filter_cons.
    assert (z <> y) by set_solver. rewrite IHD by set_solver.
    destruct (decide (z ∉ seen)), (decide (z ∉ {[y]} ∪ seen)); set_solver.
  - assert (x <> y) by set_solver. specialize (IH Hx Hs).
    destruct (decide (y ∉ seen)), (decide (y ∉ {[x]} ∪ seen)); cbn [sum_list_with]; try lia; set_solver.
Qed.

Lemma potential_empty D : potential D ∅ = sum_list_with deg D.
Proof. unfold potential. rewrite filter_all; [done|]. set_solver. Qed.

End Potential.

(** A list without repetition drawn from [D] is no longer than [D]. *)
Lemma NoDup_length_le {A} (l D : list A) : NoDup l -> l ⊆ D -> (length l <= length D)%nat.
Proof. intros Hl Hs. by apply submseteq_length, NoDup_submseteq. Qed.
