(* ===== verification/Ancestry.v ===== *)
(** * Ancestry queries ([ancestry.rs]) and the engine adapter
    ([commit_graph.rs])

    [is_ancestor] with its reachability search, and [GixFind], through which
    the engine's graph walks read objects: budget check, payload cache,
    shallow boundary and first recorded error. [merge_base] itself is the
    engine's walk over that adapter and is not modelled. *)

From Stdlib Require Import NArith Lia Strings.Byte Strings.String.
From stdpp Require Import prelude gmap strings list relations.
From S2P Require Import Prelude Errors Objects Budget Lru Odb Decode Snapshot Graph.

Open Scope N_scope.

(** [commit_graph.rs: missing]; [read_parents] builds the same error. *)
Definition missing_commit (oid : Oid) : Error :=
  with_oid oid (Error_retryable MissingObject
    ("commit object " ++ oid_str oid ++ " is missing from the object store")).

(** [ensure_sha1]. *)
Definition ensure_sha1 {T} (db : ObjectDb T) (oids : list Oid) : Res unit :=
  if bool_decide (hash_kind db = Sha256) then
    Err (Error_new UnsupportedHash "SHA-256 query execution not yet supported")
  else if existsb (fun oid => negb (bool_decide (oid_kind oid = hash_kind db))) oids then
    Err (Error_new InvalidOid "commit object ID algorithm does not match the object store")
  else Ok tt.

(** Whether the store hides the parents of a commit. *)
Definition is_shallow {T} (db : ObjectDb T) (oid : Oid) : bool :=
  match shallow_roots db with
  | Some roots => bool_decide (oid ∈ roots)
  | None => false
  end.

(** A search that ran out of fuel; the theorems exclude it. *)
Definition diverged : Error := Error_new InternalError "out of fuel".

Section Ancestry.
Context `{Env, GixObject} {T : Type} (db : ObjectDb T).

(** [read_parents]. *)
Definition read_parents (oid : Oid) (input : bool) : DM T (list Oid) :=
  let! found := smap_err (with_oid_if_none oid) (try_find db oid) in
  let! (kind, payload) := slift (ok_or (missing_commit oid) found) in
  if negb (bool_decide (kind = Commit)) then
    sthrow (with_oid oid (Error_new (if input then NotACommit else MalformedObject)
      ("object " ++ oid_str oid ++ " reached by ancestry traversal is not a commit")))
  else
    let! commit := slift (map_err (with_oid_if_none oid) (decode_commit payload (oid_kind oid))) in
    sret (if is_shallow db oid then [] else parents commit).

(** The loop of [is_ancestor]. The vector [pending] is kept with its last
    element first: [pop] takes the head, [extend] prepends the reversal. *)
Fixpoint ancestor_loop (fuel : nat) (ancestor : Oid) (pending : list Oid) (seen : gset Oid)
  : DM T bool :=
  match pending with
  | [] => sret false
  | id :: pending =>
      match fuel with
      | O => sthrow diverged
      | S fuel =>
          let! _ := on_budget check in
          if bool_decide (id ∈ seen) then ancestor_loop fuel ancestor pending seen
          else if bool_decide (id = ancestor) then sret true
          else
            let! ps := read_parents id false in
            ancestor_loop fuel ancestor (reverse ps ++ pending) ({[id]} ∪ seen)
      end
  end.

(** [is_ancestor]. *)
Definition is_ancestor (fuel : nat) (ancestor descendant : Oid) : DM T bool :=
  let! _ := slift (ensure_sha1 db [ancestor; descendant]) in
  let! _ := on_budget check in
  let! _ := read_parents ancestor true in
  if bool_decide (ancestor = descendant) then sret true
  else
    let! ps := read_parents descendant true in
    ancestor_loop fuel ancestor (reverse ps) {[descendant]}.

End Ancestry.

(* ------------------------------------------------------------------ *)
(** ** The engine adapter *)

Definition PAYLOAD_CACHE_BYTES : N := 4 * 1024 * 1024.

(** [State] of [GixFind], without the store and the budget it borrows. *)
Record GixState : Type := mkGixState {
  gf_objects : @Cache.LruCache Oid Payload _ _;
  first_error : option Error;
  current_oid : option Oid
}.

(** [GixFind::new], [clear_error_scope] and [take_error_or]. *)
Definition GixFind_new : GixState := mkGixState (Cache.LruCache_new PAYLOAD_CACHE_BYTES) None None.
Definition clear_error_scope (s : GixState) : GixState := mkGixState (gf_objects s) None None.
Definition take_error_or (c : ErrorCode) (m : string) (s : GixState) : Error * GixState :=
  (match first_error s with
   | Some e => e
   | None => match current_oid s with
             | Some oid => with_oid oid (Error_new c m)
             | None => Error_new c m
             end
   end, mkGixState (gf_objects s) None (current_oid s)).

(** [record_first_error]. *)
Definition record_first_error (e : Error) (s : GixState) : GixState :=
  match first_error s with
  | None => mkGixState (gf_objects s) (Some e) (current_oid s)
  | Some _ => s
  end.

(** [without_parent_headers]: the loop over [split_inclusive] lines. *)
Fixpoint strip_parents (lines : list bytes) (in_headers : bool) : bytes :=
  match lines with
  | [] => []
  | line :: lines =>
      let in_headers := if in_headers && bytes_eqb line [x0a] then false else in_headers in
      if in_headers && starts_with line (bs "parent ") then strip_parents lines in_headers
      else line ++ strip_parents lines in_headers
  end.
Definition without_parent_headers (payload : bytes) : bytes :=
  strip_parents (split_inclusive (fun b => beq b x0a) payload) true.

Section Adapter.
Context `{Env} {T : Type} (db : ObjectDb T).

Definition gix_panic : Error := Error_new InternalError "panic".

(** [GixFind::object]. *)
Definition gix_object (oid : Oid) : DM (GixState * T) Payload :=
  let! _ := on_budget check in
  fun '(b, (s, t)) =>
    let s := mkGixState (gf_objects s) (first_error s) (Some oid) in
    match Cache.get_cloned oid (gf_objects s) with
    | None => (Err gix_panic, (b, (s, t)))
    | Some (Some (kind, payload), c) =>
        (Ok (kind, payload), (b, (mkGixState c (first_error s) (current_oid s), t)))
    | Some (None, c) =>
        let s := mkGixState c (first_error s) (current_oid s) in
        let '(r, (b, t)) := try_find db oid (b, t) in
        match r with
        | Ok (Some (kind, payload)) =>
            let payload := if bool_decide (kind = Commit) && is_shallow db oid
                           then without_parent_headers payload else payload in
            match Cache.insert oid (kind, payload) (lenN payload) (gf_objects s) with
            | Some c => (Ok (kind, payload), (b, (mkGixState c (first_error s) (current_oid s), t)))
            | None => (Err gix_panic, (b, (s, t)))
            end
        | Ok None =>
            let e := missing_commit oid in (Err e, (b, (record_first_error e s, t)))
        | Err e =>
            let e := with_oid_if_none oid e in (Err e, (b, (record_first_error e s, t)))
        end
    end.

(** [impl gix_object::Find for GixFind]: the engine's entry point, which also
    records the error it passes on. *)
Definition gix_try_find (oid : Oid) : DM (GixState * T) Payload :=
  fun w =>
    let '(r, (b, (s, t))) := gix_object oid w in
    match r with
    | Ok p => (Ok p, (b, (s, t)))
    | Err e => (Err e, (b, (record_first_error e s, t)))
    end.

(** [GixFind::validate_commit]. *)
Definition validate_commit (oid : Oid) : DM (GixState * T) unit :=
  let! (kind, _) := gix_object oid in
  if negb (bool_decide (kind = Commit)) then
    sthrow (with_oid oid (Error_new NotACommit ("object " ++ oid_str oid ++ " is not a commit")))
  else sret tt.

End Adapter.

(* ------------------------------------------------------------------ *)
(** ** Reachability *)

Section Reach.
Context `{GixObject} (c : Oid -> ObjectReadResult) (shallow : Oid -> bool).

(** The parents the history has, where the object is a commit. *)
Definition commit_parents (oid : Oid) : option (list Oid) :=
  match c oid with
  | Some (Commit, p) =>
      match decode_commit p (oid_kind oid) with
      | Ok com => Some (if shallow oid then [] else parents com)
      | Err _ => None
      end
  | _ => None
  end.

Definition edge (x y : Oid) : Prop := exists ps, commit_parents x = Some ps /\ y ∈ ps.
Definition reaches : Oid -> Oid -> Prop := rtc edge.

(** Everything reachable is a commit of the store. *)
Definition complete_from (x : Oid) : Prop := forall y, reaches x y -> is_Some (commit_parents y).

Definition degree (x : Oid) : nat := length (default [] (commit_parents x)).

End Reach.

Section AncestrySpec.
Context `{Env, GixObject} {T : Type} (db : ObjectDb T) (c : Oid -> ObjectReadResult)
        (I : T -> Prop) (F : ErrorCode -> Prop).
Context `{!LawfulDb db c I F}.
Hypothesis F_stop : forall e, budget_stop e -> F (code e).

Let cparents := commit_parents c (is_shallow db).
Let reach := reaches c (is_shallow db).

Definition graph_codes : list ErrorCode := [NotACommit; MissingObject; MalformedObject].

Lemma code_with_oid_if_none oid e : code (with_oid_if_none oid e) = code e.
Proof. unfold with_oid_if_none. by destruct (object_oid e). Qed.

Lemma read_parents_spec oid input (codes : list ErrorCode) :
  graph_codes ⊆ codes ->
  hoare (on_store I) (fails F codes (cparents oid = None)) (read_parents db oid input)
    (fun ps => cparents oid = Some ps).
Proof.
  intros Hcodes. unfold graph_codes in Hcodes. unfold read_parents, cparents, commit_parents. eapply hoare_bind.
  { eapply hoare_map_err; [apply law_find|]. intros e He. left. by rewrite code_with_oid_if_none. }
  intros v ->. destruct (c oid) as [[k p]|]; cbn [ok_or].
  2: { eapply (hoare_bind _ _ _ _ (fun _ => False)); [|done]. apply hoare_lift. right. set_solver. }
  eapply (hoare_bind _ _ _ _ (fun r => r = (k, p))); [by apply hoare_lift|]. intros ? ->.
  case_bool_decide as Ek; cbn [negb].
  2: { apply hoare_throw. right. split; [destruct input; set_solver|by destruct k]. }
  subst k. destruct (decode_commit p (oid_kind oid)) as [com|e] eqn:Ed; cbn [map_err].
  - eapply (hoare_bind _ _ _ _ (fun r => r = com)); [by apply hoare_lift|]. intros ? ->.
    by apply hoare_ret.
  - eapply (hoare_bind _ _ _ _ (fun _ => False)); [|done]. apply hoare_lift. right.
    rewrite code_with_oid_if_none, (decode_commit_Err _ _ _ Ed). set_solver.
Qed.

(** The state of the search: [seen] is closed up to [pending], which is
    reachable from [d], and the target has not been seen. *)
Record search_inv (a d : Oid) (pending : list Oid) (seen : gset Oid) : Prop := {
  si_start : d ∈ seen;
  si_target : a ∉ seen;
  si_closed : forall x y, x ∈ seen -> edge c (is_shallow db) x y -> y ∈ seen \/ y ∈ pending;
  si_reach : forall x, x ∈ pending -> reach d x
}.

Lemma search_done a d seen : search_inv a d [] seen -> ~ reach d a.
Proof.
  intros [Hs Ht Hc _] Hr. apply Ht. clear Ht. induction Hr as [x|x y z Hxy _ IH]; [done|].
  apply IH. destruct (Hc x y Hs Hxy) as [|Hn]; [done|]. by apply not_elem_of_nil in Hn.
Qed.

Lemma search_skip a d id pending seen :
  search_inv a d (id :: pending) seen -> id ∈ seen -> search_inv a d pending seen.
Proof.
  intros [Hs Ht Hc Hr] Hid. split; [done|done| |].
  - intros x y Hx Hxy. destruct (Hc x y Hx Hxy) as [|[->|?]%elem_of_cons]; auto.
  - intros x Hx. apply Hr. by right.
Qed.

Lemma search_expand a d id pending seen ps :
  search_inv a d (id :: pending) seen -> id <> a -> cparents id = Some ps ->
  search_inv a d (reverse ps ++ pending) ({[id]} ∪ seen).
Proof.
  intros [Hs Ht Hc Hr] Hid Hps. split; [set_solver|set_solver| |].
  - intros x y [->%elem_of_singleton|Hx]%elem_of_union Hxy.
    + destruct Hxy as (ps' & Hps' & Hy). unfold cparents in Hps. rewrite Hps in Hps'. simplify_eq.
      right. apply elem_of_app. left. by apply elem_of_reverse.
    + destruct (Hc x y Hx Hxy) as [|[->|?]%elem_of_cons]; set_solver.
  - intros x [Hx|Hx]%elem_of_app.
    + rewrite elem_of_reverse in Hx. eapply rtc_r; [apply Hr; by left|]. exists ps. split; [exact Hps|exact Hx].
    + apply Hr. by right.
Qed.

Section Loop.
Context (a d : Oid) (D : list Oid).
Hypothesis D_nodup : NoDup D.
Hypothesis D_covers : forall x p, c x = Some p -> x ∈ D.

Lemma parents_covered x ps : cparents x = Some ps -> x ∈ D.
Proof.
  unfold cparents, commit_parents. destruct (c x) as [[k p]|] eqn:E; [|done]. intros _. by eapply D_covers.
Qed.

Lemma ancestor_loop_spec fuel pending seen :
  search_inv a d pending seen ->
  (length pending + potential (degree c (is_shallow db)) D seen <= fuel)%nat ->
  hoare (on_store I) (fails F graph_codes (~ complete_from c (is_shallow db) d))
    (ancestor_loop db fuel a pending seen) (fun r => r = true <-> reach d a).
Proof.
  revert pending seen. induction fuel as [|fuel IH]; intros pending seen Hinv Hfuel;
    (destruct pending as [|id pending];
      [apply hoare_ret; split; [done|]; intros Hr; by destruct (search_done _ _ _ Hinv)|]).
  { simpl in Hfuel. lia. }
  cbn [ancestor_loop]. eapply hoare_bind; [apply hoare_check; intros e He; left; by apply F_stop|].
  intros _ _. case_bool_decide as Hseen.
  { apply IH; [by eapply search_skip|]. simpl in Hfuel. lia. }
  case_bool_decide as Ha.
  { subst id. apply hoare_ret. split; [|done]. intros _. eapply si_reach; [done|left]. }
  eapply hoare_bind.
  { eapply hoare_conseq; [by apply (read_parents_spec id false graph_codes)| |intros ps Hps; exact Hps].
    intros e [He|[He Hn]]; [by left|right]. split; [done|]. intros Hcomp.
    destruct (Hcomp id) as [ps Hps]; [|unfold cparents in Hn; congruence].
    eapply si_reach; [done|left]. }
  intros ps Hps. apply IH; [by eapply search_expand|].
  pose proof (potential_step (degree c (is_shallow db)) D seen id D_nodup (parents_covered _ _ Hps) Hseen) as Hp.
  unfold degree at 2 in Hp. unfold cparents in Hps. rewrite Hps in Hp. simpl in Hp, Hfuel.
  rewrite length_app, length_reverse. lia.
Qed.

End Loop.

Lemma search_start a d ps :
  a <> d -> cparents d = Some ps -> search_inv a d (reverse ps) {[d]}.
Proof.
  intros Hne Hps. split; [set_solver|set_solver| |].
  - intros x y ->%elem_of_singleton (ps' & Hps' & Hy). unfold cparents in Hps. rewrite Hps in Hps'.
    simplify_eq. right. by apply elem_of_reverse.
  - intros x Hx. rewrite elem_of_reverse in Hx. apply rtc_once. exists ps. split; [exact Hps|exact Hx].
Qed.

Lemma ensure_sha1_spec oids (codes : list ErrorCode) (R : Prop) :
  UnsupportedHash ∈ codes -> InvalidOid ∈ codes ->
  (hash_kind db = Sha256 \/ ~ Forall (fun o => oid_kind o = hash_kind db) oids -> R) ->
  hoare (on_store I) (fails F codes R) (slift (ensure_sha1 db oids)) (fun _ => True).
Proof.
  intros H1 H2 HR. apply hoare_lift. unfold ensure_sha1.
  case_bool_decide as E1; [right; split; [done|by apply HR; left]|].
  destruct (existsb _ oids) eqn:Ex; [|done]. right. split; [done|]. apply HR. right. intros HF.
  apply existsb_exists in Ex as (o & Ho & Hk). rewrite Forall_forall in HF.
  apply list_elem_of_In in Ho. rewrite bool_decide_eq_true_2 in Hk by (by apply HF). done.
Qed.

(** C28. [is_ancestor] decides reachability, and always ends. Let [D] list the
    objects of the store, and allow as many steps as it has parent links: the
    search then answers whether the ancestor is reachable from the descendant
    along encoded parents (cut at shallow roots). It fails only when the store
    does, when the IDs do not fit the store, or when the history it had to
    read is incomplete; it never runs out of steps. *)
Theorem is_ancestor_decides (D : list Oid) fuel a d w r w' :
  NoDup D -> (forall x p, c x = Some p -> x ∈ D) ->
  (sum_list_with (degree c (is_shallow db)) D <= fuel)%nat ->
  I w.2 -> is_ancestor db fuel a d w = (r, w') ->
  match r with
  | Ok b => is_Some (cparents a) /\ (b = true <-> reach d a)
  | Err e => F (code e) \/
      (code e ∈ [UnsupportedHash; InvalidOid; NotACommit; MissingObject; MalformedObject] /\
       ~ (hash_kind db = Sha1 /\ Forall (fun o => oid_kind o = hash_kind db) [a; d] /\
          is_Some (cparents a) /\ complete_from c (is_shallow db) d))
  end.
Proof.
  intros HD Hcov Hfuel Hw E.
  set (R := ~ (hash_kind db = Sha1 /\ Forall (fun o => oid_kind o = hash_kind db) [a; d] /\
          is_Some (cparents a) /\ complete_from c (is_shallow db) d)).
  set (codes := [UnsupportedHash; InvalidOid; NotACommit; MissingObject; MalformedObject]).
  assert (hoare (on_store I) (fails F codes R) (is_ancestor db fuel a d)
            (fun b => is_Some (cparents a) /\ (b = true <-> reach d a))) as Hspec.
  { unfold is_ancestor. eapply hoare_bind.
    { apply ensure_sha1_spec; [set_solver..|]. subst R. intros [->|Hn]; naive_solver. }
    intros _ _. eapply hoare_bind; [apply hoare_check; intros e He; left; by apply F_stop|]. intros _ _.
    eapply hoare_bind.
    { eapply hoare_conseq; [apply (read_parents_spec a true codes)| |intros ps Hps; exact Hps].
      - subst codes. unfold graph_codes. set_solver.
      - intros e [He|[He Hn]]; [by left|right]. split; [done|]. subst R. rewrite Hn. intros (_ & _ & [? ?] & _). done. }
    intros pa Hpa. case_bool_decide as Had.
    { subst d. apply hoare_ret. split; [exists pa; exact Hpa|]. split; [intros _; apply rtc_refl|done]. }
    eapply hoare_bind.
    { eapply hoare_conseq; [apply (read_parents_spec d true codes)| |intros ps Hps; exact Hps].
      - subst codes. unfold graph_codes. set_solver.
      - intros e [He|[He Hn]]; [by left|right]. split; [done|]. subst R.
        intros (_ & _ & _ & Hcomp). destruct (Hcomp d (rtc_refl _ _)) as [ps Hps]. unfold cparents in Hn. congruence. }
    intros ps Hps. eapply hoare_conseq; [apply (ancestor_loop_spec a d D HD Hcov)| |].
    - by apply search_start.
    - pose proof (parents_covered D Hcov _ _ Hps) as Hin.
      pose proof (potential_step (degree c (is_shallow db)) D ∅ d HD Hin (not_elem_of_empty d)) as Hp.
      rewrite (right_id_L ∅ (∪)) in Hp. unfold degree at 2 in Hp. unfold cparents in Hps.
      rewrite Hps in Hp. simpl in Hp. rewrite length_reverse.
      rewrite potential_empty in Hp. lia.
    - intros e [He|[He Hn]]; [by left|right]. split; [subst codes; unfold graph_codes in He; set_solver|].
      subst R. naive_solver.
    - intros b Hb. split; [exists pa; exact Hpa|exact Hb]. }
  destruct (hoare_run _ _ _ _ _ _ _ Hspec Hw E) as [Hr _]. by destruct r.
Qed.

End AncestrySpec.

(* ------------------------------------------------------------------ *)
(** ** Hiding parents at a shallow boundary *)

Lemma strip_parents_body lines : strip_parents lines false = concat lines.
Proof. induction lines as [|l lines IH]; simpl; [done|]. by rewrite IH. Qed.

(** A header line: not blank, newline only at its end. *)
Definition header_line (l : bytes) : Prop :=
  exists s, l = s ++ [x0a] /\ s <> [] /\ Forall (fun b => beq b x0a = false) s.

(** Hiding the parents of a shallow commit removes exactly the [parent]
    header lines: every other header stays in order, and everything from the
    first blank line on, the message included, is kept byte for byte. *)
Theorem without_parent_headers_exact headers body :
  Forall header_line headers ->
  without_parent_headers (concat headers ++ x0a :: body) =
  concat (filter (fun l => starts_with l (bs "parent ") = false) headers) ++ x0a :: body.
Proof.
  unfold without_parent_headers. induction 1 as [|l headers (s & -> & Hne & Hs) HF IH].
  - simpl. by rewrite strip_parents_body, concat_split_inclusive.
  - cbn [concat]. rewrite <- !app_assoc. cbn [app].
    rewrite split_inclusive_line by done. cbn [strip_parents andb].
    assert (bytes_eqb (s ++ [x0a]) [x0a] = false) as ->.
    { apply not_true_iff_false. rewrite bytes_eqb_true. intros E. destruct s; [done|].
      injection E as _ E. by destruct s. }
    cbn [andb]. rewrite filter_cons. destruct (starts_with (s ++ [x0a]) (bs "parent ")); simpl.
    + apply IH.
    + rewrite IH. by rewrite <- !app_assoc.
Qed.

(* ------------------------------------------------------------------ *)
(** ** The adapter is transparent *)

Section AdapterSpec.
Context `{Env} {T : Type} (db : ObjectDb T) (c : Oid -> ObjectReadResult)
        (I : T -> Prop) (F : ErrorCode -> Prop).
Context `{!LawfulDb db c I F}.
Hypothesis F_stop : forall e, budget_stop e -> F (code e).

(** What the engine sees of an object. *)
Definition graph_view (oid : Oid) : option Payload :=
  match c oid with
  | Some (k, p) =>
      Some (k, if bool_decide (k = Commit) && is_shallow db oid then without_parent_headers p else p)
  | None => None
  end.

Definition gix_inv (st : GixState * T) : Prop :=
  I st.2 /\ exists es, Cache.represents (gf_objects st.1) es /\
    Cache.capacity (gf_objects st.1) = PAYLOAD_CACHE_BYTES /\
    forall e, e ∈ es -> graph_view (Cache.e_key e) = Some (Cache.e_value e).

Lemma gix_cache_get oid s t :
  gix_inv (s, t) ->
  exists v c', Cache.get_cloned oid (gf_objects s) = Some (v, c') /\
    (forall fe cur, gix_inv (mkGixState c' fe cur, t)) /\ (forall p, v = Some p -> graph_view oid = Some p).
Proof.
  intros (Ht & es & Hr & Hcap & Hv). simpl in *. unfold Cache.get_cloned.
  destruct (Cache.get_refines oid _ _ Hr) as (c' & E & Hr' & Hc').
  exists (fst (Cache.spec_get oid es)), c'. split; [done|].
  destruct (Cache.spec_get_elem oid es) as [Hsub Hfst]. split.
  - intros fe cur. split; [done|]. eexists. split; [exact Hr'|]. split; [simpl; congruence|]. auto.
  - intros p Hp. destruct (Hfst p Hp) as (e & He & <- & <-). by apply Hv.
Qed.

Lemma gix_cache_insert oid p s t :
  gix_inv (s, t) -> graph_view oid = Some p ->
  exists c', Cache.insert oid p (lenN p.2) (gf_objects s) = Some c' /\
    forall fe cur, gix_inv (mkGixState c' fe cur, t).
Proof.
  intros (Ht & es & Hr & Hcap & Hv) Hp. simpl in *. unfold Cache.insert.
  destruct (Cache.insert_refines oid p (lenN p.2) _ _ Hr) as (c' & -> & Hr' & Hc').
  exists c'. split; [done|]. intros fe cur. split; [done|]. eexists. split; [exact Hr'|].
  split; [simpl; congruence|]. intros e He.
  apply Cache.spec_insert_elem in He as [He| ->]; [by apply Hv|done].
Qed.

(** The first error of a read, as the adapter's error slot sees it. *)
Definition slot_after (slot : option Error) (r : Res Payload) : option Error :=
  match slot, r with
  | Some e, _ => Some e
  | None, Err e => Some e
  | None, Ok _ => None
  end.

Definition read_ok (oid : Oid) (r : Res Payload) : Prop :=
  match r with
  | Ok p => graph_view oid = Some p
  | Err e => F (code e) \/ (code e = MissingObject /\ c oid = None)
  end.

Lemma gix_object_spec oid b s t r b' s' t' :
  gix_object db oid (b, (s, t)) = (r, (b', (s', t'))) -> gix_inv (s, t) ->
  read_ok oid r /\ gix_inv (s', t') /\
  (first_error s' = first_error s \/ first_error s' = slot_after (first_error s) r).
Proof.
  intros E Hinv. unfold gix_object, sbind, on_budget in E.
  destruct (hoare_check I (fun e => F (code e)) F_stop (b, t)) as [Hck _]; [apply Hinv|].
  unfold on_budget in Hck. destruct (check b) as [[[]|e] b1]; cbn [fst outcome] in Hck, E.
  2: { simplify_eq. split; [by left|]. split; [done|by left]. }
  destruct (gix_cache_get oid s t Hinv) as (v & c' & Eg & Hinv' & Hv). cbn [gf_objects first_error current_oid] in E.
  rewrite Eg in E. destruct v as [[k p]|].
  { simplify_eq. split; [by apply Hv|]. split; [done|by left]. }
  pose proof (law_find oid (b1, t) (proj1 Hinv)) as [Hf Ht1].
  destruct (try_find db oid (b1, t)) as [rf [b2 t2]]. cbn [fst snd] in *.
  assert (forall fe cur, gix_inv (mkGixState c' fe cur, t2)) as Hinv2.
  { intros fe cur. destruct (Hinv' fe cur) as [_ Hes]. by split. }
  destruct rf as [[[k p]|]|e]; cbn [outcome] in Hf.
  - set (p' := if bool_decide (k = Commit) && is_shallow db oid then without_parent_headers p else p) in E.
    assert (graph_view oid = Some (k, p')) as Hview by (unfold graph_view; by rewrite <- Hf).
    destruct (gix_cache_insert oid (k, p') _ _ (Hinv2 (first_error s) (Some oid)) Hview) as (c2 & Ei & Hi2).
    cbn [gf_objects snd] in Ei. rewrite Ei in E. simplify_eq. split; [done|]. split; [done|by left].
  - simplify_eq. split; [right; done|]. unfold record_first_error. cbn [first_error].
    destruct (first_error s); split; auto.
  - simplify_eq. split; [left; by rewrite code_with_oid_if_none|].
    unfold record_first_error. cbn [first_error]. destruct (first_error s); split; auto.
Qed.

Lemma gix_try_find_spec oid b s t r b' s' t' :
  gix_try_find db oid (b, (s, t)) = (r, (b', (s', t'))) -> gix_inv (s, t) ->
  read_ok oid r /\ gix_inv (s', t') /\ first_error s' = slot_after (first_error s) r.
Proof.
  unfold gix_try_find. intros E Hinv.
  destruct (gix_object db oid (b, (s, t))) as [r1 [b1 [s1 t1]]] eqn:E1.
  destruct (gix_object_spec _ _ _ _ _ _ _ _ E1 Hinv) as (Hr & Hinv1 & Hs).
  destruct r1 as [p|e]; simplify_eq.
  - split; [done|]. split; [done|]. destruct Hs as [->| ->]; by destruct (first_error s).
  - split; [done|]. unfold record_first_error.
    destruct (first_error s1) eqn:Es1; split; try done; simpl in *;
      destruct Hs as [Hs|Hs]; destruct (first_error s); simpl in *; congruence.
Qed.

(** The reads of an engine walk, in order. *)
Fixpoint gix_reads (oids : list Oid) (w : Budget * (GixState * T))
  : list (Res Payload) * (Budget * (GixState * T)) :=
  match oids with
  | [] => ([], w)
  | oid :: oids =>
      let '(r, w) := gix_try_find db oid w in
      let '(rs, w) := gix_reads oids w in
      (r :: rs, w)
  end.

Lemma gix_reads_spec oids b s t rs b' s' t' :
  gix_reads oids (b, (s, t)) = (rs, (b', (s', t'))) -> gix_inv (s, t) ->
  Forall2 read_ok oids rs /\ first_error s' = foldl slot_after (first_error s) rs.
Proof.
  revert b s t rs. induction oids as [|oid oids IH]; intros b s t rs E Hinv; simpl in E.
  { simplify_eq. split; [constructor|done]. }
  destruct (gix_try_find db oid (b, (s, t))) as [r [b1 [s1 t1]]] eqn:E1.
  destruct (gix_reads oids (b1, (s1, t1))) as [rs1 w2] eqn:E2. simplify_eq.
  destruct (gix_try_find_spec _ _ _ _ _ _ _ _ E1 Hinv) as (Hr & Hinv1 & Hs).
  destruct (IH _ _ _ _ E2 Hinv1) as [Hrs Hs2]. split; [by constructor|]. simpl. by rewrite <- Hs.
Qed.

Lemma slot_after_Some e rs : foldl slot_after (Some e) rs = Some e.
Proof. induction rs as [|[] rs IH]; simpl; done. Qed.

(** Engine walks see the store unchanged. Whatever objects a walk reads
    through a new adapter, in whatever order and repetition, each read gives
    the stored object (without its parents at a shallow root) or fails as the
    store can or because the object is missing; the payload cache changes
    nothing; and the error reported for the walk is the first one it met. *)
Theorem gix_find_transparent oids b t rs b' s' t' code0 msg :
  I t -> gix_reads oids (b, (GixFind_new, t)) = (rs, (b', (s', t'))) ->
  Forall2 read_ok oids rs /\
  (forall pre e post, rs = pre ++ Err e :: post -> Forall (fun r => exists p, r = Ok p) pre ->
     fst (take_error_or code0 msg s') = e).
Proof.
  intros Ht E. assert (gix_inv (GixFind_new, t)) as Hinv.
  { split; [done|]. exists []. split; [by apply Cache.new_refines|]. split; [done|]. set_solver. }
  destruct (gix_reads_spec _ _ _ _ _ _ _ _ E Hinv) as [Hrs Hs]. split; [done|].
  intros pre e post -> Hpre. unfold take_error_or. simpl.
  assert (first_error s' = Some e) as ->; [|done]. rewrite Hs, foldl_app. simpl.
  assert (foldl slot_after None pre = None) as Hnone.
  { clear - Hpre. induction Hpre as [|r pre [p ->] _ IH]; simpl; done. }
  rewrite Hnone. apply slot_after_Some.
Qed.

End AdapterSpec.

(* ------------------------------------------------------------------ *)
(** ** Witnesses *)

(** A merge of two lines over one root. *)
Definition merge_store : StaticOdb := mkStatic Sha1
  {[ sample_id x01 := (Commit, sample_commit (sample_id x09) []);
     sample_id x02 := (Commit, sample_commit (sample_id x09) [sample_id x01]);
     sample_id x03 := (Commit, sample_commit (sample_id x09) [sample_id x01]);
     sample_id x04 := (Commit, sample_commit (sample_id x09) [sample_id x02; sample_id x03]) ]}.
Definition merge_db : ObjectDb unit := @static_db quiet unit merge_store.
Definition merge_ids : list Oid := [sample_id x01; sample_id x02; sample_id x03; sample_id x04].

Lemma is_ancestor_decides_witness :
  @reaches simple_gix (static_contents merge_store) (is_shallow merge_db) (sample_id x04) (sample_id x01).
Proof.
  apply (@is_ancestor_decides quiet simple_gix unit merge_db (static_contents merge_store)
           (fun _ => True) plain_failure _ plain_stop merge_ids 8 (sample_id x01) (sample_id x04)
           fresh_world (Ok true)
           (snd (@is_ancestor quiet simple_gix unit merge_db 8 (sample_id x01) (sample_id x04) fresh_world))).
  - unfold merge_ids. repeat constructor; set_solver.
  - intros x p Hx. unfold static_contents, merge_store in Hx. simpl in Hx.
    unfold merge_ids. rewrite !lookup_insert_Some, lookup_singleton_Some in Hx. set_solver.
  - vm_compute. lia.
  - done.
  - vm_compute. reflexivity.
  - reflexivity.
Defined.

Lemma without_parent_headers_exact_witness :
  without_parent_headers (bs "tree t" ++ [x0a] ++ bs "parent p" ++ [x0a; x0a] ++ bs "parent x") =
  bs "tree t" ++ [x0a; x0a] ++ bs "parent x".
Proof.
  apply (without_parent_headers_exact [bs "tree t" ++ [x0a]; bs "parent p" ++ [x0a]] (bs "parent x")).
  constructor; [|constructor; [|constructor]].
  - exists (bs "tree t"). split; [done|]. split; [done|]. by apply (bool_decide_unpack _).
  - exists (bs "parent p"). split; [done|]. split; [done|]. by apply (bool_decide_unpack _).
Defined.

Lemma gix_find_transparent_witness :
  Forall2 (read_ok merge_db (static_contents merge_store) plain_failure)
    [sample_id x04; sample_id x05; sample_id x04]
    (fst (@gix_reads quiet unit merge_db [sample_id x04; sample_id x05; sample_id x04]
            (Budget_new BudgetLimits_default None, (GixFind_new, tt)))).
Proof.
  destruct (@gix_reads quiet unit merge_db [sample_id x04; sample_id x05; sample_id x04]
            (Budget_new BudgetLimits_default None, (GixFind_new, tt))) as [rs [b' [s' t']]] eqn:E.
  apply (@gix_find_transparent quiet unit merge_db (static_contents merge_store)
           (fun _ => True) plain_failure _ plain_stop
           [sample_id x04; sample_id x05; sample_id x04] (Budget_new BudgetLimits_default None) tt rs b' s' t' MalformedObject "walk"%string); [done|exact E].
Defined.
