(* ===== verification/Refs.v ===== *)
(** * References ([refs.rs])

    Full-name validation, symbolic resolution, the compact base-215 packing of
    continuation names, reference cursors and the listing of the local store.
    [gix_ref]'s name validation and file store, and [bstr]'s debug formatting,
    are parameters. *)

From Stdlib Require Import NArith Lia Strings.Byte Strings.String.
From stdpp Require Import prelude gmap strings list pretty relations sorting.
From S2P Require Import Prelude Errors Objects Budget Odb Cursor Decode Snapshot.

Open Scope N_scope.

Definition MAX_SYMBOLIC_REF_HOPS : nat := 16%nat.
Definition MAX_REF_NAME_BYTES : nat := N.to_nat 4096.
Definition COMPACT_CURSOR_GENERATION : bytes := [x01].
Definition COMPACT_REF_BLOCK_SYMBOLS : nat := 32%nat.
Definition COMPACT_REF_BLOCK_BYTES : nat := 31%nat.
Definition REF_NAME_ALPHABET_LEN : N := 215.

(** [RefTarget], [RefQuery], [RefWarning] and [RefPage]. *)
Inductive RefTarget : Type :=
| Direct (oid : Oid) (peeled : option Oid)
| Symbolic (name : bytes).

Record RefQuery : Type := mkRefQuery {
  rq_prefix : option bytes;
  rq_limit : nat;
  rq_cursor : option bytes
}.

Record RefWarning : Type := mkRefWarning { rw_name : bytes; rw_message : string }.

Record RefPage : Type := mkRefPage {
  rp_refs : list (bytes * RefTarget);
  rp_next_cursor : option bytes;
  rp_truncated : bool;
  rp_warnings : list RefWarning
}.

(** [is_forbidden_ref_byte]. *)
Definition is_forbidden_ref_byte (b : byte) : bool :=
  match b with
  | x2a | x3a | x3f | x5b | x5c | x5e | x7e => true
  | _ => false
  end.

(** [ref_name_alphabet_rank]. *)
Definition forbidden_bytes : bytes := [x2a; x3a; x3f; x5b; x5c; x5e; x7e].
Definition ref_name_alphabet_rank (b : byte) : option N :=
  let n := byteN b in
  if 128 <=? n then Some (87 + (n - 128))
  else if negb ((33 <=? n) && (n <=? 126)) || is_forbidden_ref_byte b then None
  else
    let skipped := lenN (filter (fun f => byteN f < n) forbidden_bytes) in
    Some (n - 33 - skipped).

(** [ref_name_alphabet_byte]: the search loop over [0x21..=0x7e]. *)
Fixpoint alphabet_search (candidates : list N) (seen rank : N) : option byte :=
  match candidates with
  | [] => None
  | n :: candidates =>
      let b := Nbyte n in
      if is_forbidden_ref_byte b then alphabet_search candidates seen rank
      else if seen =? rank then Some b
      else alphabet_search candidates (seen + 1) rank
  end.
Definition ref_name_alphabet_byte (rank : N) : option byte :=
  if 87 <=? rank then if rank <=? 214 then Some (Nbyte (128 + (rank - 87))) else None
  else alphabet_search ((fun i => N.of_nat i) <$> seq 33 94) 0 rank.

(** What the engine provides: the validity of full names, and how raw bytes
    are shown in messages. A valid name uses only the bytes Git allows, which
    is documented ([git check-ref-format]) and what the packing relies on. *)
Class GixRef : Type := {
  gix_full_name : bytes -> bool;
  display_ref : bytes -> string;
  gix_full_name_bytes : forall name,
    gix_full_name name = true -> Forall (fun b => is_Some (ref_name_alphabet_rank b)) name
}.

Definition invalid_cursor (m : string) : Error := Error_new InvalidCursor m.

(* ------------------------------------------------------------------ *)
(** ** The compact packing *)

(** One symbol of [encode_compact_ref_position]: multiply the little-endian
    number by 215 and add [carry]; the carry out of the last slot is lost. *)
Fixpoint mul_add (packed : bytes) (carry : N) : bytes :=
  match packed with
  | [] => []
  | slot :: packed =>
      let value := byteN slot * REF_NAME_ALPHABET_LEN + carry in
      Nbyte value :: mul_add packed (N.shiftr value 8)
  end.

Fixpoint pack_symbols (block packed : bytes) : Res bytes :=
  match block with
  | [] => Ok packed
  | b :: block =>
      let? rank := ok_or (invalid_cursor "reference cursor position contains a forbidden byte")
                     (ref_name_alphabet_rank b) in
      pack_symbols block (mul_add packed rank)
  end.
Definition pack_block (block : bytes) : Res bytes :=
  pack_symbols block (replicate COMPACT_REF_BLOCK_BYTES x00).

(** The loop over [chunks_exact]. *)
Fixpoint pack_blocks (blocks : nat) (position : bytes) : Res bytes :=
  match blocks with
  | O => Ok []
  | S blocks =>
      let? packed := pack_block (take COMPACT_REF_BLOCK_SYMBOLS position) in
      let? rest := pack_blocks blocks (drop COMPACT_REF_BLOCK_SYMBOLS position) in
      Ok (packed ++ rest)
  end.

(** [encode_compact_ref_position]. *)
Definition encode_compact_ref_position (position : bytes) : Res bytes :=
  if u16_max <? lenN position then
    Err (Error_new ResultTooLarge "reference continuation name exceeds the compact cursor limit")
  else
    let full_blocks := (length position / COMPACT_REF_BLOCK_SYMBOLS)%nat in
    let tail_start := (full_blocks * COMPACT_REF_BLOCK_SYMBOLS)%nat in
    let? blocks := pack_blocks full_blocks (take tail_start position) in
    Ok (le_bytes 2 (lenN position) ++ blocks ++ drop tail_start position).

(** One rank of [decode_compact_ref_position]: divide the little-endian number
    by 215, most significant slot first; the quotient and the remainder. *)
Fixpoint div_rem (value : bytes) : bytes * N :=
  match value with
  | [] => ([], 0)
  | slot :: value =>
      let '(high, remainder) := div_rem value in
      let dividend := N.lor (N.shiftl remainder 8) (byteN slot) in
      (Nbyte (dividend / REF_NAME_ALPHABET_LEN) :: high, dividend mod REF_NAME_ALPHABET_LEN)
  end.

Fixpoint unpack_ranks (n : nat) (value : bytes) (ranks : list N) : list N * bytes :=
  match n with
  | O => (ranks, value)
  | S n => let '(value, remainder) := div_rem value in unpack_ranks n value (remainder :: ranks)
  end.

Definition unpack_block (block : bytes) : Res bytes :=
  let '(ranks, value) := unpack_ranks COMPACT_REF_BLOCK_SYMBOLS block [] in
  if existsb (fun b => negb (beq b x00)) value then
    Err (invalid_cursor "compact reference cursor block is outside the ref-name alphabet")
  else
    map_res (fun rank => ok_or (invalid_cursor "compact reference cursor rank is invalid")
                           (ref_name_alphabet_byte rank)) ranks.

Fixpoint unpack_blocks (blocks : nat) (encoded : bytes) : Res bytes :=
  match blocks with
  | O => Ok encoded
  | S blocks =>
      let? position := unpack_block (take COMPACT_REF_BLOCK_BYTES encoded) in
      let? rest := unpack_blocks blocks (drop COMPACT_REF_BLOCK_BYTES encoded) in
      Ok (position ++ rest)
  end.

(** [decode_compact_ref_position]. *)
Definition decode_compact_ref_position (encoded : bytes) : Res bytes :=
  let? length_ := ok_or (invalid_cursor "compact reference cursor length is missing")
                    (if (2 <=? length encoded)%nat then Some (N.to_nat (le_num (take 2 encoded)))
                     else None) in
  if (MAX_REF_NAME_BYTES <? length_)%nat then
    Err (invalid_cursor "compact reference cursor name exceeds 4096 bytes")
  else
    let full_blocks := (length_ / COMPACT_REF_BLOCK_SYMBOLS)%nat in
    let tail_len := (length_ mod COMPACT_REF_BLOCK_SYMBOLS)%nat in
    let expected_len := (2 + full_blocks * COMPACT_REF_BLOCK_BYTES + tail_len)%nat in
    if negb (length encoded =? expected_len)%nat then
      Err (invalid_cursor "compact reference cursor payload length is invalid")
    else unpack_blocks full_blocks (drop 2 encoded).

(* ------------------------------------------------------------------ *)
(** ** Names, symbolic resolution and cursors *)

Section Names.
Context `{GixRef}.

(** [display_chain] and [symbolic_cycle]. *)
Fixpoint join_arrow (names : list string) : string :=
  match names with
  | [] => EmptyString
  | [n] => n
  | n :: names => n ++ " -> " ++ join_arrow names
  end.
Definition display_chain (chain : list bytes) : string := join_arrow (display_ref <$> chain).
Definition symbolic_cycle (chain : list bytes) : Error :=
  with_reason ("symbolic cycle " ++ display_chain chain)
    (Error_new MalformedRef "symbolic reference cycle detected").

(** [validate_full_ref_name]. *)
Definition validate_full_ref_name (name : bytes) : Res unit :=
  if (MAX_REF_NAME_BYTES <? length name)%nat then
    Err (with_reason ("ref " ++ display_ref name ++ " has length " ++ pretty (length name)
                      ++ " bytes (limit 4096)")
           (Error_new MalformedRef "reference name exceeds the 4096-byte limit"))
  else
    let valid_scope := bytes_eqb name (bs "HEAD") || starts_with name (bs "refs/") in
    if negb valid_scope || negb (gix_full_name name) then
      Err (with_reason ("ref " ++ display_ref name)
             (Error_new MalformedRef "reference name is not a valid full ref name"))
    else Ok tt.

(** The loop of [resolve_with]. *)
Fixpoint resolve_loop `{Env} {T} (resolve_one : bytes -> DM T (option RefTarget)) (hops : nat)
  (current : bytes) (seen : gset bytes) (chain : list bytes) : DM T (option RefTarget) :=
  match hops with
  | O =>
      sthrow (with_reason ("symbolic chain " ++ display_chain chain)
                (Error_new MalformedRef "symbolic reference exceeds the 16-hop limit"))
  | S hops =>
      let! _ := on_budget check in
      if bool_decide (current ∈ seen) then sthrow (symbolic_cycle (chain ++ [current]))
      else
        let! found := resolve_one current in
        match found with
        | None => sret None
        | Some (Direct oid peeled) => sret (Some (Direct oid peeled))
        | Some (Symbolic next) =>
            let! _ := slift (map_err (fun _ =>
                        with_reason ("symbolic target " ++ display_ref next)
                          (Error_new MalformedRef
                             "symbolic reference points to an invalid full ref name"))
                        (validate_full_ref_name next)) in
            resolve_loop resolve_one hops next ({[current]} ∪ seen) (chain ++ [current])
        end
  end.

(** [resolve_with]; [RefDb::resolve_following] and [resolve_symbolic] run it on
    the store's [resolve]. *)
Definition resolve_with `{Env} {T} (name : bytes) (resolve_one : bytes -> DM T (option RefTarget))
  : DM T (option RefTarget) :=
  let! _ := slift (validate_full_ref_name name) in
  resolve_loop resolve_one MAX_SYMBOLIC_REF_HOPS name ∅ [].

(** [ref_query_fingerprint] and [cursor_identity]. *)
Definition ref_query_fingerprint (prefix : option bytes) : N :=
  fnv1a_64 (bs "refs-v1" ++ [x00] ++
    match prefix with
    | None => [x00]
    | Some prefix => [x01] ++ le_bytes 8 (lenN prefix) ++ prefix
    end).
Definition cursor_identity (hash : HashKind) : bytes := replicate (digest_len hash) x00.

(** [decode_ref_cursor]. *)
Definition decode_ref_cursor (encoded : bytes) (hash : HashKind) (fingerprint : N) : Res bytes :=
  let? decoded := decode encoded
                    (mkExpected hash (cursor_identity hash) OPERATION_REFS fingerprint) in
  let? position_ :=
    (if bool_decide (cur_generation decoded = []) then Ok (cur_position decoded)
     else if bool_decide (cur_generation decoded = COMPACT_CURSOR_GENERATION) then
       decode_compact_ref_position (cur_position decoded)
     else Err (invalid_cursor "reference cursor generation is not recognized")) in
  let? _ := map_err (fun _ => invalid_cursor "reference cursor position is not a full ref name")
              (validate_full_ref_name position_) in
  Ok position_.

(** [encode_ref_cursor]. *)
Definition ref_cursor (hash : HashKind) (fingerprint : N) (generation position_ : bytes) : Cursor :=
  mkCursor hash (cursor_identity hash) OPERATION_REFS fingerprint generation position_.
Definition encode_ref_cursor (hash : HashKind) (fingerprint : N) (position_ : bytes) : Res bytes :=
  let encoded := encode (ref_cursor hash fingerprint [] position_) in
  let? encoded :=
    (if (MAX_CURSOR_BYTES <? length encoded)%nat then
       let? compact := encode_compact_ref_position position_ in
       Ok (encode (ref_cursor hash fingerprint COMPACT_CURSOR_GENERATION compact))
     else Ok encoded) in
  if (MAX_CURSOR_BYTES <? length encoded)%nat then
    Err (Error_new ResultTooLarge "reference continuation name exceeds the cursor size limit")
  else Ok encoded.

End Names.

(* ------------------------------------------------------------------ *)
(** ** The packing is a base change *)

(** The alphabet has exactly 215 symbols, numbered without gaps. *)
Definition rank_check (b : byte) : bool :=
  match ref_name_alphabet_rank b with
  | Some r => (r <? 215) && bool_decide (ref_name_alphabet_byte r = Some b)
  | None => true
  end.
Definition byte_check (r : N) : bool :=
  match ref_name_alphabet_byte r with
  | Some b => bool_decide (ref_name_alphabet_rank b = Some r)
  | None => false
  end.

Lemma rank_byte b r :
  ref_name_alphabet_rank b = Some r -> r < 215 /\ ref_name_alphabet_byte r = Some b.
Proof.
  intros Hr. assert (forall b, rank_check b = true) as Hc.
  { refine (forall_byte (fun b => rank_check b = true) _). vm_compute. reflexivity. }
  specialize (Hc b). unfold rank_check in Hc. rewrite Hr in Hc.
  apply andb_true_iff in Hc as [H1 H2]. apply N.ltb_lt in H1. by apply bool_decide_eq_true in H2.
Qed.

Lemma byte_rank r : r < 215 -> exists b, ref_name_alphabet_byte r = Some b /\ ref_name_alphabet_rank b = Some r.
Proof.
  intros Hr. assert (forallb byte_check ((fun i => N.of_nat i) <$> seq 0 215) = true) as Hc
    by (vm_compute; reflexivity).
  rewrite forallb_forall in Hc. specialize (Hc r). unfold byte_check in Hc.
  destruct (ref_name_alphabet_byte r) as [b|].
  - exists b. split; [done|]. eapply bool_decide_eq_true_1, Hc. apply list_elem_of_In, list_elem_of_fmap.
    exists (N.to_nat r). split; [lia|]. apply elem_of_seq. lia.
  - exfalso. assert (false = true); [|done]. apply Hc, list_elem_of_In, list_elem_of_fmap.
    exists (N.to_nat r). split; [lia|]. apply elem_of_seq. lia.
Qed.

Definition base215 (ranks : list N) (acc : N) : N := foldl (fun a r => a * 215 + r) acc ranks.

Lemma length_mul_add l c : length (mul_add l c) = length l.
Proof. revert c. induction l; intros c; simpl; f_equal; auto. Qed.

Lemma le_num_mul_add l c :
  le_num (mul_add l c) = (le_num l * 215 + c) mod 256 ^ lenN l.
Proof.
  unfold lenN. revert c. induction l as [|s l IH]; intros c.
  - cbn [mul_add le_num length]. by rewrite N.mod_1_r.
  - cbn [mul_add le_num length]. unfold REF_NAME_ALPHABET_LEN. rewrite IH, byteN_Nbyte.
    rewrite N.shiftr_div_pow2. change (2 ^ 8) with 256.
    rewrite Nat2N.inj_succ, N.pow_succ_r'. rewrite N.Div0.mod_mul_r.
    replace ((byteN s + 256 * le_num l) * 215 + c) with ((byteN s * 215 + c) + (le_num l * 215) * 256) by lia.
    rewrite N.Div0.mod_add, N.div_add by lia. f_equal. f_equal. f_equal. lia.
Qed.

Lemma base215_app r1 r2 acc : base215 (r1 ++ r2) acc = base215 r2 (base215 r1 acc).
Proof. apply foldl_app. Qed.

Lemma base215_bound ranks acc :
  Forall (fun r => r < 215) ranks -> base215 ranks acc < (acc + 1) * 215 ^ lenN ranks.
Proof.
  unfold lenN. intros HF. revert acc. induction HF as [|r ranks Hr HF IH]; intros acc.
  - simpl. lia.
  - cbn [length base215 foldl]. fold (base215 ranks (acc * 215 + r)).
    rewrite Nat2N.inj_succ, N.pow_succ_r'. specialize (IH (acc * 215 + r)).
    assert (acc * 215 + r + 1 <= (acc + 1) * 215) by lia. nia.
Qed.

Lemma base215_mono ranks acc : acc <= base215 ranks acc.
Proof.
  revert acc. induction ranks as [|r ranks IH]; intros acc; simpl; [lia|].
  fold (base215 ranks (acc * 215 + r)). specialize (IH (acc * 215 + r)). lia.
Qed.

(** Packing is exact as long as the number fits the slots. *)
Lemma pack_symbols_Ok block ranks packed :
  Forall2 (fun b r => ref_name_alphabet_rank b = Some r) block ranks ->
  base215 ranks (le_num packed) < 256 ^ lenN packed ->
  exists packed', pack_symbols block packed = Ok packed' /\ length packed' = length packed /\
    le_num packed' = base215 ranks (le_num packed).
Proof.
  intros HF. revert packed. induction HF as [|b r block ranks Hb HF IH]; intros packed Hlt.
  - exists packed. done.
  - cbn [pack_symbols]. rewrite Hb. cbn [ok_or rbind]. cbn [base215 foldl] in Hlt.
    fold (base215 ranks (le_num packed * 215 + r)) in Hlt.
    pose proof (base215_mono ranks (le_num packed * 215 + r)) as Hmono.
    assert (le_num (mul_add packed r) = le_num packed * 215 + r) as Hn.
    { rewrite le_num_mul_add. apply N.mod_small. lia. }
    destruct (IH (mul_add packed r)) as (packed' & -> & Hl & Hv).
    { unfold lenN. rewrite length_mul_add, Hn. done. }
    exists packed'. rewrite Hl, length_mul_add, Hv, Hn. done.
Qed.

Lemma le_num_zeros n : le_num (replicate n x00) = 0.
Proof. induction n as [|n IH]; [done|]. cbn [replicate le_num]. by rewrite IH. Qed.

Lemma le_num_zero_inv l : le_num l = 0 -> existsb (fun b => negb (beq b x00)) l = false.
Proof.
  induction l as [|b l IH]; cbn [le_num existsb]; [done|]. intros E.
  assert (byteN b = 0) as Hb by lia. rewrite IH by lia.
  replace b with x00; [done|]. apply byteN_inj. by rewrite Hb.
Qed.

Lemma lor_byte r b : N.lor (N.shiftl r 8) (byteN b) = r * 256 + byteN b.
Proof.
  pose proof (byteN_lt b) as Hb. rewrite N.shiftl_mul_pow2. change (2 ^ 8) with 256.
  rewrite <- N.lxor_lor, <- N.add_nocarry_lxor; [done|..];
    (apply N.bits_inj; intros i; rewrite N.land_spec, N.bits_0;
     destruct (N.lt_ge_cases i 8) as [Hi|Hi];
     [change 256 with (2 ^ 8); by rewrite N.mul_pow2_bits_low|]);
    (destruct (N.eq_dec (byteN b) 0) as [->|Hz]; [by rewrite N.bits_0, andb_false_r|];
     rewrite (N.bits_above_log2 (byteN b)), andb_false_r; [done|];
     apply N.log2_lt_pow2; [lia|]; apply (N.lt_le_trans _ (2 ^ 8)); [exact Hb|];
     apply N.pow_le_mono_r; lia).
Qed.

(** Long division by 215, slot by slot. *)
Lemma div_rem_spec l :
  length (div_rem l).1 = length l /\
  le_num (div_rem l).1 = le_num l / 215 /\ (div_rem l).2 = le_num l mod 215.
Proof.
  induction l as [|s l (IHl & IHq & IHr)]; [done|]. cbn [div_rem].
  destruct (div_rem l) as [high rem] eqn:E. cbn [fst snd] in *. unfold REF_NAME_ALPHABET_LEN.
  rewrite lor_byte. cbn [length le_num]. rewrite byteN_Nbyte.
  pose proof (N.mod_lt (le_num l) 215 ltac:(lia)) as Hrem. rewrite <- IHr in Hrem.
  pose proof (N.div_mod (le_num l) 215 ltac:(lia)) as Hdm. rewrite <- IHq, <- IHr in Hdm.
  pose proof (byteN_lt s) as Hs.
  assert ((rem * 256 + byteN s) / 215 < 256) as Hd by (apply N.Div0.div_lt_upper_bound; lia).
  rewrite (N.mod_small ((rem * 256 + byteN s) / 215)) by done.
  assert (byteN s + 256 * le_num l = (256 * le_num high) * 215 + (rem * 256 + byteN s)) as Hsum by lia.
  rewrite Hsum. split_and!; [lia| |].
  - rewrite N.add_comm, (N.add_comm (_ * 215)), N.div_add by lia. lia.
  - rewrite (N.add_comm (_ * 215)), N.Div0.mod_add. done.
Qed.

Lemma unpack_ranks_spec ranks acc value v0 :
  Forall (fun r => r < 215) ranks -> le_num value = base215 ranks v0 ->
  exists value', unpack_ranks (length ranks) value acc = (ranks ++ acc, value') /\
    length value' = length value /\ le_num value' = v0.
Proof.
  revert acc value. induction ranks as [|r ranks IH] using rev_ind; intros acc value HF Hv.
  - exists value. done.
  - rewrite length_app. cbn [length]. rewrite Nat.add_1_r. cbn [unpack_ranks].
    apply Forall_app in HF as [HF Hr]. apply Forall_cons in Hr as [Hr _].
    rewrite base215_app in Hv. cbn [base215 foldl] in Hv. fold (base215 ranks v0) in Hv.
    destruct (div_rem_spec value) as (Hl & Hq & Hm). destruct (div_rem value) as [q m]. cbn [fst snd] in *.
    assert (q = q /\ le_num q = base215 ranks v0) as [_ Hq'].
    { split; [done|]. rewrite Hq, Hv. rewrite N.add_comm, N.div_add, N.div_small by lia. lia. }
    assert (m = r) as ->.
    { rewrite Hm, Hv. rewrite N.add_comm, N.Div0.mod_add. apply N.mod_small. done. }
    destruct (IH (r :: acc) q HF Hq') as (value' & -> & Hl' & Hv'). exists value'.
    rewrite <- app_assoc. split; [done|]. split; [lia|done].
Qed.

Lemma ranks_of (block : bytes) :
  Forall (fun b => is_Some (ref_name_alphabet_rank b)) block ->
  exists ranks, Forall2 (fun b r => ref_name_alphabet_rank b = Some r) block ranks /\
    Forall (fun r => r < 215) ranks.
Proof.
  induction 1 as [|b block [r Hr] HF (ranks & H1 & H2)]; [by exists []|].
  exists (r :: ranks). split; constructor; try done. by apply rank_byte in Hr as [? _].
Qed.

Lemma block_roundtrip block :
  length block = COMPACT_REF_BLOCK_SYMBOLS ->
  Forall (fun b => is_Some (ref_name_alphabet_rank b)) block ->
  exists packed, pack_block block = Ok packed /\ length packed = COMPACT_REF_BLOCK_BYTES /\
    unpack_block packed = Ok block.
Proof.
  intros Hl HF. destruct (ranks_of block HF) as (ranks & Hr & Hlt).
  pose proof (Forall2_length _ _ _ Hr) as Hlen.
  assert (base215 ranks 0 < 256 ^ 31) as Hbound.
  { pose proof (base215_bound ranks 0 Hlt) as Hb. unfold lenN in Hb. rewrite <- Hlen, Hl in Hb.
    eapply N.lt_le_trans; [exact Hb|]. vm_compute. discriminate. }
  destruct (pack_symbols_Ok block ranks (replicate COMPACT_REF_BLOCK_BYTES x00) Hr) as (packed & Hp & Hpl & Hpv).
  { unfold lenN. rewrite le_num_zeros, length_replicate. exact Hbound. }
  rewrite le_num_zeros in Hpv. rewrite length_replicate in Hpl.
  exists packed. split; [done|]. split; [done|]. unfold unpack_block.
  destruct (unpack_ranks_spec ranks [] packed 0 Hlt Hpv) as (value' & Hu & _ & Hz).
  rewrite <- Hlen, Hl in Hu. rewrite Hu, app_nil_r, le_num_zero_inv by done.
  apply map_res_Ok. clear - Hr. induction Hr as [|b r block ranks Hb HF IH]; constructor; [|done].
  apply rank_byte in Hb as [_ ->]. done.
Qed.

Lemma blocks_roundtrip k body tail :
  length body = (k * COMPACT_REF_BLOCK_SYMBOLS)%nat ->
  Forall (fun b => is_Some (ref_name_alphabet_rank b)) body ->
  exists packed, pack_blocks k body = Ok packed /\
    length packed = (k * COMPACT_REF_BLOCK_BYTES)%nat /\
    unpack_blocks k (packed ++ tail) = Ok (body ++ tail).
Proof.
  revert body. induction k as [|k IH]; intros body Hl HF.
  - destruct body; [|done]. by exists [].
  - cbn [pack_blocks]. rewrite <- (take_drop COMPACT_REF_BLOCK_SYMBOLS body) in HF.
    apply Forall_app in HF as [HF1 HF2].
    destruct (block_roundtrip (take COMPACT_REF_BLOCK_SYMBOLS body)) as (p & -> & Hpl & Hu); [|done|].
    { rewrite length_take. lia. }
    destruct (IH (drop COMPACT_REF_BLOCK_SYMBOLS body)) as (ps & -> & Hpsl & Hus); [|done|].
    { rewrite length_drop. lia. }
    cbn [rbind]. exists (p ++ ps). split; [done|]. split; [rewrite length_app; lia|].
    cbn [unpack_blocks]. rewrite <- app_assoc, <- Hpl, take_app_length, drop_app_length, Hu.
    cbn [rbind]. rewrite Hus. cbn [rbind]. by rewrite app_assoc, take_drop.
Qed.

(** The packed form of a name: every full block shrinks by one byte. *)
Lemma compact_roundtrip name :
  Forall (fun b => is_Some (ref_name_alphabet_rank b)) name -> (length name <= MAX_REF_NAME_BYTES)%nat ->
  exists encoded, encode_compact_ref_position name = Ok encoded /\
    length encoded = (2 + length name - length name / COMPACT_REF_BLOCK_SYMBOLS)%nat /\
    decode_compact_ref_position encoded = Ok name.
Proof.
  intros HF Hl. unfold encode_compact_ref_position.
  assert (lenN name <= 4096) as Hn by (unfold lenN, MAX_REF_NAME_BYTES in *; lia).
  rewrite (proj2 (N.ltb_ge _ _)) by (unfold u16_max; lia). cbv zeta.
  set (k := (length name / COMPACT_REF_BLOCK_SYMBOLS)%nat).
  set (m := (length name mod COMPACT_REF_BLOCK_SYMBOLS)%nat).
  assert (length name = k * COMPACT_REF_BLOCK_SYMBOLS + m)%nat as Hdm.
  { pose proof (Nat.div_mod_eq (length name) COMPACT_REF_BLOCK_SYMBOLS). subst k m. lia. }
  rewrite <- (take_drop (k * COMPACT_REF_BLOCK_SYMBOLS) name) in HF. apply Forall_app in HF as [HF1 _].
  assert (length (take (k * COMPACT_REF_BLOCK_SYMBOLS) name) = k * COMPACT_REF_BLOCK_SYMBOLS)%nat as Htl
    by (rewrite length_take; lia).
  destruct (blocks_roundtrip k _ (drop (k * COMPACT_REF_BLOCK_SYMBOLS) name) Htl HF1) as (packed & -> & Hpl & Hu).
  cbn [rbind]. eexists. split; [done|]. rewrite take_drop in Hu.
  assert (length (le_bytes 2 (lenN name) ++ packed ++ drop (k * COMPACT_REF_BLOCK_SYMBOLS) name) =
          2 + k * COMPACT_REF_BLOCK_BYTES + m)%nat as Hlen.
  { rewrite !length_app, length_le_bytes, length_drop. lia. }
  split; [rewrite Hlen; unfold COMPACT_REF_BLOCK_BYTES, COMPACT_REF_BLOCK_SYMBOLS in *; lia|].
  unfold decode_compact_ref_position. rewrite Hlen. cbn [Nat.leb plus].
  rewrite take_app_length' by (by rewrite length_le_bytes).
  rewrite le_num_le_bytes_small by (change (256 ^ N.of_nat 2) with 65536; lia).
  cbn [ok_or rbind]. assert (N.to_nat (lenN name) = length name) as -> by (unfold lenN; lia).
  rewrite (proj2 (Nat.ltb_ge _ _)) by done. fold k. fold m.
  rewrite Nat.eqb_refl. cbn [negb]. rewrite drop_app_length' by (by rewrite length_le_bytes). done.
Qed.

(* ------------------------------------------------------------------ *)
(** ** Cursors over reference names *)

Section CursorFacts.
Context `{GixRef}.

Lemma validate_Ok name u :
  validate_full_ref_name name = Ok u ->
  (length name <= MAX_REF_NAME_BYTES)%nat /\ gix_full_name name = true.
Proof.
  unfold validate_full_ref_name. destruct (MAX_REF_NAME_BYTES <? length name)%nat eqn:E1; [done|].
  apply Nat.ltb_ge in E1. destruct (gix_full_name name); [done|]. by rewrite orb_true_r.
Qed.

Lemma validate_Err name e : validate_full_ref_name name = Err e -> code e = MalformedRef.
Proof.
  unfold validate_full_ref_name. intros E. repeat (case_match; simplify_eq/=; try done).
Qed.

Lemma length_ref_cursor hash fp g p :
  length (encode (ref_cursor hash fp g p)) = (19 + digest_len hash + length g + length p)%nat.
Proof.
  rewrite length_encode. unfold encode_body, ref_cursor, cursor_identity.
  cbn [cur_hash_kind cur_snapshot_digest cur_operation_tag cur_option_fingerprint cur_generation cur_position].
  rewrite !length_app, !length_le_bytes, length_replicate. cbn [length]. lia.
Qed.

Lemma ref_cursor_fits hash fp g p :
  fp < u64_mod -> lenN g <= u16_max -> lenN p <= u16_max ->
  (19 + digest_len hash + length g + length p <= MAX_CURSOR_BYTES)%nat ->
  cursor_fits (ref_cursor hash fp g p).
Proof.
  intros. unfold cursor_fits. rewrite length_ref_cursor.
  cbn [cur_hash_kind cur_snapshot_digest cur_option_fingerprint cur_generation cur_position ref_cursor].
  unfold cursor_identity. by rewrite length_replicate.
Qed.

Lemma decode_ref_encode hash fp g p :
  cursor_fits (ref_cursor hash fp g p) ->
  decode (encode (ref_cursor hash fp g p)) (mkExpected hash (cursor_identity hash) OPERATION_REFS fp)
  = Ok (ref_cursor hash fp g p).
Proof. apply decode_encode. Qed.

Lemma ref_cursor_decodes hash fp name u :
  validate_full_ref_name name = Ok u -> fp < u64_mod ->
  exists encoded, encode_ref_cursor hash fp name = Ok encoded /\
    decode_ref_cursor encoded hash fp = Ok name.
Proof.
  intros Hv Hfp. destruct (validate_Ok _ _ Hv) as [Hlen Hname]. apply gix_full_name_bytes in Hname.
  assert (length name <= 4096)%nat as Hlen' by (unfold MAX_REF_NAME_BYTES in Hlen; lia).
  assert (digest_len hash <= 32)%nat as Hdig by (destruct hash; simpl; lia).
  unfold encode_ref_cursor. destruct (MAX_CURSOR_BYTES <? _)%nat eqn:Ebig.
  - destruct (compact_roundtrip name Hname Hlen) as (packed & -> & Hpl & Hdec). cbn [rbind].
    assert (19 + digest_len hash + 1 + length packed <= MAX_CURSOR_BYTES)%nat as Hfit.
    { rewrite Hpl. apply Nat.ltb_lt in Ebig. rewrite length_ref_cursor in Ebig. simpl length in Ebig.
      unfold COMPACT_REF_BLOCK_SYMBOLS.
      pose proof (Nat.div_mod_eq (length name) 32) as Hdm.
      pose proof (Nat.mod_upper_bound (length name) 32 ltac:(lia)) as Hmod. unfold MAX_CURSOR_BYTES in *. lia. }
    rewrite (proj2 (Nat.ltb_ge _ _)) by (by rewrite length_ref_cursor).
    eexists. split; [done|].     unfold decode_ref_cursor.
    rewrite decode_ref_encode.
    2: { apply ref_cursor_fits; [done|by vm_compute| |done]. unfold lenN, u16_max, MAX_CURSOR_BYTES in *. lia. }
    cbn [rbind cur_generation cur_position ref_cursor]. rewrite bool_decide_eq_false_2 by done.
    rewrite bool_decide_eq_true_2 by done. rewrite Hdec. cbn [rbind]. by rewrite Hv.
  - apply Nat.ltb_ge in Ebig. cbn [rbind]. rewrite (proj2 (Nat.ltb_ge _ _)) by done.
    eexists. split; [done|]. rewrite length_ref_cursor in Ebig. unfold decode_ref_cursor.
    rewrite decode_ref_encode.
    2: { apply ref_cursor_fits; [done|by vm_compute| |done]. unfold lenN, u16_max. lia. }
    cbn [rbind cur_generation cur_position ref_cursor]. rewrite bool_decide_eq_true_2 by done.
    cbn [rbind]. by rewrite Hv.
Qed.

(** Every valid reference name can be a page boundary: its cursor is
    always within the 4096-byte envelope (long names are packed in base 215),
    and decoding it for the same query gives back exactly that name. *)
Theorem ref_cursor_roundtrip hash fp name u :
  validate_full_ref_name name = Ok u -> fp < u64_mod ->
  exists encoded, encode_ref_cursor hash fp name = Ok encoded /\
    (length encoded <= MAX_CURSOR_BYTES)%nat /\
    decode_ref_cursor encoded hash fp = Ok name.
Proof.
  intros Hv Hfp. destruct (ref_cursor_decodes hash fp name u Hv Hfp) as (encoded & He & Hd).
  exists encoded. split; [done|]. split; [|done]. unfold encode_ref_cursor in He.
  apply rbind_Ok in He as (e' & _ & He). case_match eqn:Eb; [done|]. simplify_eq. by apply Nat.ltb_ge in Eb.
Qed.

End CursorFacts.

(* ------------------------------------------------------------------ *)
(** ** Symbolic resolution *)

Section Resolution.
Context `{GixRef} (m : bytes -> option RefTarget).

(** [sym_chain n name r]: [n] symbolic edges lead from [name] to the answer
    [r], a direct target or an absent name; every name met is valid. *)
Inductive sym_chain : nat -> bytes -> option RefTarget -> Prop :=
| sym_none name : m name = None -> sym_chain 0 name None
| sym_direct name oid peeled :
    m name = Some (Direct oid peeled) -> sym_chain 0 name (Some (Direct oid peeled))
| sym_step n name next r :
    m name = Some (Symbolic next) -> validate_full_ref_name next = Ok tt ->
    sym_chain n next r -> sym_chain (S n) name r.

Definition sym_edge (x y : bytes) : Prop :=
  m x = Some (Symbolic y) /\ validate_full_ref_name y = Ok tt.

Lemma sym_chain_det n k name r r' : sym_chain n name r -> sym_chain k name r' -> n = k /\ r = r'.
Proof.
  intros Hc. revert k r'. induction Hc as [name Hm|name oid peeled Hm|n name next r Hm _ _ IH]; intros k r' Hc';
    inversion Hc' as [? Hm'|? ? ? Hm'|? ? ? ? Hm' _ Hc1]; subst; rewrite Hm in Hm'; simplify_eq; try done.
  by destruct (IH _ _ Hc1) as [-> ->].
Qed.

Lemma sym_chain_edge n x y r : sym_chain n x r -> sym_edge x y -> exists k, n = S k /\ sym_chain k y r.
Proof.
  intros Hc [Hm _]. inversion Hc as [? Hm'|? ? ? Hm'|k ? ? ? Hm' _ Hc1]; subst; rewrite Hm in Hm'; simplify_eq.
  eauto.
Qed.

Lemma sym_chain_tc n x y r : sym_chain n x r -> tc sym_edge x y -> exists k, (k < n)%nat /\ sym_chain k y r.
Proof.
  intros Hc Hxy. revert n Hc. induction Hxy as [x y Hxy|x y z Hxy _ IH]; intros n Hc;
    destruct (sym_chain_edge _ _ _ _ Hc Hxy) as (k & -> & Hc').
  - exists k. split; [lia|done].
  - destruct (IH _ Hc') as (k' & ? & ?). exists k'. split; [lia|done].
Qed.

Lemma sym_cycle x : tc sym_edge x x -> forall n r, ~ sym_chain n x r.
Proof.
  intros Hx n r Hc. destruct (sym_chain_tc _ _ _ _ Hc Hx) as (k & Hlt & Hc').
  destruct (sym_chain_det _ _ _ _ _ Hc Hc'). lia.
Qed.

Section Spec.
Context `{Env} {T : Type} (I : T -> Prop) (F : ErrorCode -> Prop).
Context (resolve_one : bytes -> DM T (option RefTarget)).
Hypothesis F_stop : forall e, budget_stop e -> F (code e).
Hypothesis resolve_spec : forall name,
  hoare (on_store I) (fun e => F (code e)) (resolve_one name) (fun v => v = m name).

Lemma resolve_loop_spec (hops : nat) (current : bytes) (seen : gset bytes) (chain : list bytes) :
  (forall x, x ∈ seen -> tc sym_edge x current) ->
  hoare (on_store I)
    (fails F [MalformedRef] (forall n r, (n < hops)%nat -> ~ sym_chain n current r))
    (resolve_loop resolve_one hops current seen chain)
    (fun r => exists n, (n < hops)%nat /\ sym_chain n current r).
Proof.
  revert current seen chain. induction hops as [|hops IH]; intros current seen chain Hseen; cbn [resolve_loop].
  { apply hoare_throw. right. split; [set_solver|]. intros; lia. }
  eapply hoare_bind; [apply hoare_check; intros e He; left; by apply F_stop|]. intros _ _.
  case_bool_decide as Hin.
  { apply hoare_throw. right. split; [set_solver|]. intros n r _. by apply sym_cycle, Hseen. }
  eapply hoare_bind; [eapply hoare_conseq; [apply resolve_spec|by left|intros v Hv; exact Hv]|].
  intros v Hv. destruct v as [[oid peeled|next]|]; symmetry in Hv.
  - apply hoare_ret. exists 0%nat. split; [lia|by constructor].
  - destruct (validate_full_ref_name next) as [[]|e] eqn:Ev; cbn [map_err].
    + eapply (hoare_bind _ _ _ _ (fun _ => True)); [by apply hoare_lift|]. intros _ _.
      assert (sym_edge current next) as Hedge by done.
      eapply hoare_conseq; [apply IH| |].
      * intros x [->%elem_of_singleton|Hx]%elem_of_union; [by apply tc_once|].
        eapply tc_r; [by apply Hseen|done].
      * intros e [He|[He Hn]]; [by left|right]. split; [done|]. intros n r Hlt Hc.
        destruct (sym_chain_edge _ _ _ _ Hc Hedge) as (k & -> & Hc'). apply (Hn k r); [lia|done].
      * intros r (n & Hn & Hc). exists (S n). split; [lia|]. by econstructor.
    + eapply (hoare_bind _ _ _ _ (fun _ => False)); [|done]. apply hoare_lift. right.
      split; [set_solver|]. intros n r _ Hc.
      inversion Hc as [? Hm'|? ? ? Hm'|? ? ? ? Hm' Hv' _]; subst; rewrite Hv in Hm'; simplify_eq. congruence.
  - apply hoare_ret. exists 0%nat. split; [lia|by constructor].
Qed.

(** Symbolic resolution is exact on a fixed set of references: it answers
    with the direct target, or the absence, at the end of the symbolic chain
    from the name, when that chain looks up at most 16 names; otherwise, for an
    invalid name, a cycle or a longer chain, it fails with [malformed_ref], or
    as the store can fail. *)
Theorem resolve_with_exact name w r w' :
  I w.2 -> resolve_with name resolve_one w = (r, w') ->
  match r with
  | Ok v => validate_full_ref_name name = Ok tt /\
            exists n, (n < MAX_SYMBOLIC_REF_HOPS)%nat /\ sym_chain n name v
  | Err e => F (code e) \/
      (code e = MalformedRef /\
       ~ (validate_full_ref_name name = Ok tt /\
          exists n v, (n < MAX_SYMBOLIC_REF_HOPS)%nat /\ sym_chain n name v))
  end.
Proof.
  intros Hw E. unfold resolve_with in E. destruct (validate_full_ref_name name) as [[]|e] eqn:Ev.
  - unfold sbind, slift in E.
    assert (forall x : bytes, x ∈ (∅ : gset bytes) -> tc sym_edge x name) as Hempty
      by (intros x Hx; by apply elem_of_empty in Hx).
    destruct (hoare_run _ _ _ _ _ _ _ (resolve_loop_spec MAX_SYMBOLIC_REF_HOPS name ∅ [] Hempty) Hw E)
      as [Hr _]. destruct r as [v|e]; simpl in Hr; [done|]. destruct Hr as [Hr|[Hr Hn]]; [by left|right].
    split; [by apply list_elem_of_singleton in Hr|]. intros [_ (n & v & Hlt & Hc)]. by apply (Hn n v).
  - unfold sbind, slift in E. simplify_eq. right. split; [by eapply validate_Err|]. by intros [? _].
Qed.

End Spec.
End Resolution.

(* ------------------------------------------------------------------ *)
(** ** The local store ([LocalRefDb]) *)

(** [gix_ref::Reference]: its full name, its target and the peeled ID a
    [packed-refs] line may record. *)
Inductive GixTarget : Type :=
| TargetSymbolic (name : bytes)
| TargetObject (raw : bytes).
Record GixReference : Type := mkGixReference {
  gr_name : bytes;
  gr_target : GixTarget;
  gr_peeled : option bytes
}.

(** The engine's file store during one call: whether [packed-refs] can be
    snapshotted, a name is a [FullName] and a prefix is a relative path, the
    lookup of one name, and the overlay iteration, whose broken entries arrive
    as the warnings [iteration_warning] makes. *)
Class GixRefStore : Type := {
  gix_snapshot_ok : bool;
  gix_full_name_ok : bytes -> bool;
  gix_prefix_ok : bytes -> bool;
  gix_items : option bytes -> option (list (RefWarning + GixReference));
  gix_find : bytes -> option (option GixReference)
}.

Section Local.
Context `{GixRef, GixRefStore, Env, GixObject} {T : Type}.
Context (objects : ObjectDb T) (hash : HashKind).

(** [LocalRefDb::target]: peeling is best effort and never fails the ref. *)
Definition local_target (reference : GixReference) : DM T RefTarget :=
  match gr_target reference with
  | TargetSymbolic target => sret (Symbolic target)
  | TargetObject raw =>
      let! oid := slift (map_err (fun _ =>
                    with_reason ("ref " ++ display_ref (gr_name reference))
                      (Error_new MalformedRef "local reference contains an invalid object ID"))
                    (Oid_new hash raw)) in
      match (peeled ← gr_peeled reference; res_ok (Oid_new hash peeled)) with
      | Some peeled => sret (Direct oid (Some peeled))
      | None =>
          fun w =>
            let '(header, w) := try_header objects oid w in
            match header with
            | Ok (Some h) =>
                if bool_decide (hdr_kind h = Tag) then
                  let '(peeled, w) := peel objects oid PeelCommit w in
                  (Ok (Direct oid (res_ok peeled)), w)
                else (Ok (Direct oid None), w)
            | Ok None | Err _ => (Ok (Direct oid None), w)
            end
      end
  end.

(** [LocalRefDb::resolve]. *)
Definition undecodable (name : bytes) : Error :=
  with_reason ("ref " ++ display_ref name)
    (Error_new MalformedRef "local reference could not be decoded").
Definition local_find (name : bytes) : DM T (option RefTarget) :=
  if negb (gix_full_name_ok name) then
    sthrow (with_reason ("ref " ++ display_ref name) (Error_new MalformedRef "reference name is malformed"))
  else
  let! reference := slift (ok_or (undecodable name) (gix_find name)) in
  match reference with
  | Some reference => let! t := local_target reference in sret (Some t)
  | None => sret None
  end.
Definition local_resolve (name : bytes) : DM T (option RefTarget) :=
  let! _ := on_budget check in
  let! _ := slift (validate_full_ref_name name) in
  local_find name.

(** [LocalRefDb::resolve_following]: one packed snapshot for all hops. *)
Definition local_resolve_following (name : bytes) : DM T (option RefTarget) :=
  if negb gix_snapshot_ok then
    sthrow (with_reason ("ref " ++ display_ref name)
              (Error_new MalformedRef "local packed-refs could not be snapshotted"))
  else resolve_with name local_find.

(** A reference skipped with a warning. *)
Definition skip_warning (name : bytes) (e : Error) : RefWarning :=
  mkRefWarning name
    ("skipped malformed reference " ++ display_ref name ++ ": " ++ message e
     ++ match reason e with Some r => " (" ++ r ++ ")" | None => EmptyString end).

(** Whether a name was already covered by the pages before [resume]. *)
Definition covered (resume : option bytes) (name : bytes) : bool :=
  match resume with
  | Some last => bytes_leb name last
  | None => false
  end.

(** The loop of [LocalRefDb::list]; [true] when the page is full and more
    follows. *)
Fixpoint list_loop (items : list (RefWarning + GixReference)) (limit : nat) (resume : option bytes)
  (refs : list (bytes * RefTarget)) (warnings : list RefWarning)
  : DM T (list (bytes * RefTarget) * list RefWarning * bool) :=
  match items with
  | [] => sret (refs, warnings, false)
  | item :: items =>
      let! _ := on_budget check in
      match item with
      | inl warning =>
          let already_reported := covered resume (rw_name warning)
                                  && negb (bytes_eqb (rw_name warning) (bs "<unknown>")) in
          list_loop items limit resume refs
            (if already_reported then warnings else warnings ++ [warning])
      | inr reference =>
          let name := gr_name reference in
          if covered resume name then list_loop items limit resume refs warnings
          else
            match validate_full_ref_name name with
            | Err e => list_loop items limit resume refs (warnings ++ [skip_warning name e])
            | Ok _ =>
                if (length refs =? limit)%nat then sret (refs, warnings, true)
                else
                  fun w =>
                    let '(r, w) := local_target reference w in
                    match r with
                    | Ok target => list_loop items limit resume (refs ++ [(name, target)]) warnings w
                    | Err e => list_loop items limit resume refs (warnings ++ [skip_warning name e]) w
                    end
            end
      end
  end.

(** [LocalRefDb::list]. *)
Definition local_list (query : RefQuery) : DM T RefPage :=
  let! _ := on_budget check in
  if (rq_limit query =? 0)%nat then
    sthrow (Error_new InvalidArgument "reference page limit must be positive")
  else
    let fingerprint := ref_query_fingerprint (rq_prefix query) in
    let! resume := slift (match rq_cursor query with
                          | Some encoded =>
                              let? name := decode_ref_cursor encoded hash fingerprint in
                              Ok (Some name)
                          | None => Ok None
                          end) in
    if negb gix_snapshot_ok then
      sthrow (Error_new MalformedRef "local packed-refs could not be snapshotted")
    else
    let! _ := slift (match rq_prefix query with
                     | Some prefix =>
                         if gix_prefix_ok prefix then Ok tt
                         else Err (with_reason ("prefix " ++ display_ref prefix)
                                (Error_new MalformedRef "reference prefix is not a valid relative path"))
                     | None => Ok tt
                     end) in
    let! items := slift (ok_or (Error_new BackendError "local references could not be enumerated")
                           (gix_items (rq_prefix query))) in
    let! (refs, warnings, has_more) := list_loop items (rq_limit query) resume [] [] in
    let! next_cursor := (if has_more then
                           match last refs with
                           | Some (position_, _) =>
                               let! c := slift (encode_ref_cursor hash fingerprint position_) in
                               sret (Some c)
                           | None => sthrow (Error_new InternalError "panic")
                           end
                         else sret None) in
    sret (mkRefPage refs next_cursor has_more warnings).

(** Whether a reference has a usable target. *)
Definition target_ok (r : GixReference) : bool :=
  match gr_target r with
  | TargetSymbolic _ => true
  | TargetObject raw => match Oid_new hash raw with Ok _ => true | Err _ => false end
  end.

(** What the listing is to contain, in order. *)
Definition listable (item : RefWarning + GixReference) : option bytes :=
  match item with
  | inl _ => None
  | inr r =>
      match validate_full_ref_name (gr_name r), target_ok r with
      | Ok _, true => Some (gr_name r)
      | _, _ => None
      end
  end.
Definition names_after (resume : option bytes) (items : list (RefWarning + GixReference)) : list bytes :=
  filter (fun n => covered resume n = false) (omap listable items).

Lemma local_target_outcome r w :
  match (local_target r w).1 with
  | Ok _ => target_ok r = true
  | Err _ => target_ok r = false
  end.
Proof.
  unfold local_target, target_ok. destruct (gr_target r) as [n|raw]; [done|].
  destruct (Oid_new hash raw) as [oid|e]; cbn [map_err]; unfold sbind, slift; [|done].
  destruct (gr_peeled r ≫= _); [done|].
  destruct (try_header objects oid w) as [[[h|]|e] w1]; [|done..].
  case_bool_decide; [|done]. by destruct (peel objects oid PeelCommit w1).
Qed.

Lemma list_loop_names items limit resume refs warnings w refs' warnings' more w' :
  list_loop items limit resume refs warnings w = (Ok (refs', warnings', more), w') ->
  (length refs <= limit)%nat ->
  (length refs' <= limit)%nat /\
  exists found, refs'.*1 = refs.*1 ++ found /\
    (if more then length refs' = limit else True) /\
    exists rest, names_after resume items = found ++ rest /\ (more = false -> rest = []).
Proof.
  revert refs warnings w. induction items as [|item items IH]; intros refs warnings w E Hlen; cbn [list_loop] in E.
  { unfold sret in E. simplify_eq. split; [done|]. exists []. rewrite app_nil_r. split; [done|]. split; [done|]. by exists []. }
  unfold sbind at 1 in E. destruct (on_budget check w) as [[[]|e] w1]; [|done].
  unfold names_after in *. cbn [omap list_omap].
  destruct item as [warning|r]; [by eapply IH|].
  cbn [listable]. destruct (covered resume (gr_name r)) eqn:Ecov.
  { destruct (IH _ _ _ E Hlen) as (Hl & found & Hf1 & Hf2 & rest & Hr & Hm). split; [done|].
    exists found. split; [done|]. split; [done|]. exists rest. split; [|done]. rewrite <- Hr.
    destruct (validate_full_ref_name (gr_name r)); [|done]. destruct (target_ok r); [|done].
    rewrite filter_cons, decide_False; [done|]. by rewrite Ecov. }
  destruct (validate_full_ref_name (gr_name r)) as [u|e] eqn:Ev; [|by eapply IH].
  destruct (length refs =? limit)%nat eqn:Efull.
  { unfold sret in E. simplify_eq. apply Nat.eqb_eq in Efull. split; [done|]. exists [].
    rewrite app_nil_r. split; [done|]. split; [done|]. eexists. split; [done|]. done. }
  apply Nat.eqb_neq in Efull. pose proof (local_target_outcome r w1) as Hout.
  destruct (local_target r w1) as [[target|e] w2]; cbn [fst] in Hout; rewrite Hout.
  - destruct (IH _ _ _ E) as (Hl & found & Hf1 & Hf2 & rest & Hr & Hm); [rewrite length_app; simpl; lia|].
    split; [done|]. exists (gr_name r :: found). rewrite Hf1, fmap_app, <- app_assoc. split; [done|].
    split; [done|]. exists rest. split; [|done]. rewrite filter_cons, decide_True by done. by rewrite Hr.
  - by eapply IH.
Qed.

End Local.

(* ------------------------------------------------------------------ *)
(** ** Pages cover the listing *)

Section Pages.
Context `{GixRef, GixRefStore, Env, GixObject} {T : Type}.
Context (objects : ObjectDb T) (hash : HashKind) (prefix : option bytes).

Let fingerprint := ref_query_fingerprint prefix.

(** The name a cursor resumes after. *)
Definition resume_point (cursor : option bytes) : Res (option bytes) :=
  match cursor with
  | Some encoded => let? name := decode_ref_cursor encoded hash fingerprint in Ok (Some name)
  | None => Ok None
  end.

Lemma local_list_page limit cursor w page w' :
  local_list objects hash (mkRefQuery prefix limit cursor) w = (Ok page, w') ->
  exists items resume found rest,
    gix_items prefix = Some items /\ resume_point cursor = Ok resume /\ (0 < limit)%nat /\
    (rp_refs page).*1 = found /\ names_after hash resume items = found ++ rest /\
    (length found <= limit)%nat /\
    if rp_truncated page then
      length found = limit /\
      exists x c, last found = Some x /\ rp_next_cursor page = Some c /\ encode_ref_cursor hash fingerprint x = Ok c
    else rest = [] /\ rp_next_cursor page = None.
Proof.
  unfold local_list. cbn [rq_prefix rq_limit rq_cursor]. fold fingerprint. intros E.
  apply sbind_Ok in E as ([] & w1 & _ & E).
  destruct (limit =? 0)%nat eqn:El; [done|]. apply Nat.eqb_neq in El.
  apply sbind_Ok in E as (resume & w2 & Hres & E). unfold slift in Hres. simplify_eq.
  destruct (negb gix_snapshot_ok); [done|].
  apply sbind_Ok in E as ([] & w3 & _ & E). apply sbind_Ok in E as (items & w4 & Hi & E).
  unfold slift in Hi. injection Hi as Hi _. apply ok_or_Ok in Hi.
  apply sbind_Ok in E as ([[refs warnings] more] & w5 & Hl & E).
  destruct (list_loop_names _ _ _ _ _ _ _ _ _ _ _ _ Hl) as (Hlen & found & Hf & Hm & rest & Hr & Hrest);
    [simpl; lia|]. simpl in Hf.
  apply sbind_Ok in E as (nc & w6 & Hc & E). unfold sret in E. simplify_eq. cbn [rp_refs rp_truncated rp_next_cursor].
  exists items, resume, (refs.*1), rest. unfold resume_point. rewrite length_fmap.
  split_and!; try done; try lia. destruct more; cbv beta iota in *.
  - split; [done|]. destruct (last refs) as [[x tgt]|] eqn:Elast; [|done].
    apply sbind_Ok in Hc as (c & w7 & Hc & E). unfold slift, sret in *. simplify_eq.
    exists x, c. rewrite fmap_last, Elast. done.
  - unfold sret in Hc. simplify_eq. split; [by apply Hrest|done].
Qed.

(** A client that follows the cursors to the end, collecting names; [None]
    when it does not reach the end. *)
Fixpoint list_all (fuel limit : nat) (cursor : option bytes) (w : Budget * T)
  : option (Res (list bytes)) :=
  match fuel with
  | O => None
  | S fuel =>
      match local_list objects hash (mkRefQuery prefix limit cursor) w with
      | (Err e, _) => Some (Err e)
      | (Ok page, w) =>
          match rp_next_cursor page with
          | None => Some (Ok (rp_refs page).*1)
          | Some c =>
              match list_all fuel limit (Some c) w with
              | Some (Ok names) => Some (Ok ((rp_refs page).*1 ++ names))
              | r => r
              end
          end
      end
  end.

Lemma listable_valid (items : list (RefWarning + GixReference)) n : n ∈ omap (listable hash) items -> exists u, validate_full_ref_name n = Ok u.
Proof.
  intros ([warning|r] & _ & Hn)%list_elem_of_omap; [done|]. unfold listable in Hn.
  destruct (validate_full_ref_name (gr_name r)) as [u|] eqn:E; [|done]. destruct (target_ok hash r); [|done].
  simplify_eq. eauto.
Qed.

(** Resuming at a page's last name leaves exactly the rest. *)
Lemma names_after_last (items : list (RefWarning + GixReference)) resume found rest x :
  StronglySorted bytes_lt (omap (listable hash) items) ->
  names_after hash resume items = found ++ rest -> last found = Some x ->
  names_after hash (Some x) items = rest.
Proof.
  unfold names_after. intros Hs Hf Hx.
  transitivity (filter (fun n => bytes_leb n x = false)
                  (filter (fun n => covered resume n = false) (omap (listable hash) items))).
  - rewrite list_filter_filter. apply list_filter_iff. intros n. simpl. split; [|naive_solver].
    intros Hn. split; [done|]. destruct resume as [y|]; [|done]. simpl.
    assert (covered (Some y) x = false) as Hxy.
    { assert (x ∈ filter (fun n => covered (Some y) n = false) (omap (listable hash) items)) as Hin.
      { rewrite Hf. apply elem_of_app. left. by eapply last_Some_elem_of. }
      by apply list_elem_of_filter in Hin as [? _]. }
    simpl in Hxy. apply bytes_leb_false in Hxy, Hn. apply bytes_leb_false. by transitivity x.
  - rewrite Hf. apply sorted_after; [|done]. rewrite <- Hf. by apply StronglySorted_filter.
Qed.

Lemma list_all_spec (items : list (RefWarning + GixReference)) limit cursor resume fuel w :
  gix_items prefix = Some items -> StronglySorted bytes_lt (omap (listable hash) items) ->
  resume_point cursor = Ok resume -> (length (names_after hash resume items) < fuel)%nat ->
  exists r, list_all fuel limit cursor w = Some r /\
    forall names, r = Ok names -> names = names_after hash resume items.
Proof.
  intros Hi Hs. revert cursor resume w. induction fuel as [|fuel IH]; intros cursor resume w Hres Hfuel; [lia|].
  cbn [list_all]. destruct (local_list objects hash (mkRefQuery prefix limit cursor) w) as [[page|e] w1] eqn:E.
  2: { eexists. split; [done|]. done. }
  destruct (local_list_page _ _ _ _ _ E) as (items' & resume' & found & rest & Hi' & Hres' & Hlim & Hf & Hn & Hle & Hm).
  rewrite Hi in Hi'. rewrite Hres in Hres'. simplify_eq. destruct (rp_truncated page).
  - destruct Hm as (Hlen & x & c & Hx & Hc & Henc). rewrite Hc.
    assert (exists u, validate_full_ref_name x = Ok u) as [u Hv].
    { apply (listable_valid items'). assert (x ∈ names_after hash resume' items') as Hin.
      { rewrite Hn. apply elem_of_app. left. by eapply last_Some_elem_of. }
      unfold names_after in Hin. by apply list_elem_of_filter in Hin as [_ ?]. }
    pose proof (names_after_last _ _ _ _ _ Hs Hn Hx) as Hrest.
    destruct (IH (Some c) (Some x) w1) as (r & -> & Hr).
    + unfold resume_point. (* the cursor decodes to the name it encodes *)
      destruct (ref_cursor_decodes hash fingerprint x u Hv (fnv1a_64_lt _)) as (c' & Hc' & Hd).
      rewrite Henc in Hc'. simplify_eq. by rewrite Hd.
    + rewrite Hrest. rewrite Hn, length_app in Hfuel. lia.
    + destruct r as [names|e]; eexists; (split; [done|]); [|done]. intros names' [= <-].
      rewrite (Hr names eq_refl), Hrest. done.
  - destruct Hm as [-> ->]. eexists. split; [done|]. intros names [= <-]. by rewrite Hn, app_nil_r.
Qed.

(** C32. Paging through the local references is complete. When the engine
    yields references in strict name order and they do not change meanwhile,
    following the returned cursors with any page size reaches the end within
    one page per reference, and, unless some call fails, the pages together
    list every valid reference under the prefix exactly once, in order. *)
Theorem ref_pages_cover_listing (items : list (RefWarning + GixReference)) limit fuel w :
  gix_items prefix = Some items -> StronglySorted bytes_lt (omap (listable hash) items) ->
  (length items < fuel)%nat ->
  exists r, list_all fuel limit None w = Some r /\
    forall names, r = Ok names -> names = omap (listable hash) items.
Proof.
  intros Hi Hs Hfuel.
  assert (names_after hash None items = omap (listable hash) items) as Hall.
  { unfold names_after. by apply filter_all. }
  destruct (list_all_spec items limit None None fuel w Hi Hs eq_refl) as (r & E & Hr).
  { rewrite Hall. assert (length (omap (listable hash) items) <= length items)%nat; [|lia].
    clear. induction items as [|i items IH]; cbn [omap list_omap length]; [lia|].
    destruct (listable hash i); cbn [length]; lia. }
  exists r. split; [done|]. intros names Hn. rewrite <- Hall. by apply Hr.
Qed.

End Pages.

(* ------------------------------------------------------------------ *)
(** ** The hop limit, and witnesses *)

Section HopLimit.
Context `{GixRef, Env} {T : Type} (m : bytes -> option RefTarget).
Context (I : T -> Prop) (F : ErrorCode -> Prop) (resolve_one : bytes -> DM T (option RefTarget)).
Hypothesis F_stop : forall e, budget_stop e -> F (code e).
Hypothesis resolve_spec : forall name,
  hoare (on_store I) (fun e => F (code e)) (resolve_one name) (fun v => v = m name).

(** The limit counts names looked up, not edges followed: a chain of 16
    symbolic edges to an existing direct reference is refused, although the
    constant [MAX_SYMBOLIC_REF_HOPS] is documented as the maximum number of
    symbolic edges followed by one resolution. *)
Theorem sixteen_symbolic_edges_refused name v w r w' :
  sym_chain m 16 name v -> I w.2 -> resolve_with name resolve_one w = (r, w') ->
  exists e, r = Err e.
Proof.
  intros Hc Hw E. destruct r as [v'|e]; [exfalso|eauto]. unfold resolve_with in E.
  destruct (validate_full_ref_name name) as [[]|e] eqn:Ev; [|done]. unfold sbind, slift in E.
  assert (forall x : bytes, x ∈ (∅ : gset bytes) -> tc (sym_edge m) x name) as Hempty
    by (intros x Hx; by apply elem_of_empty in Hx).
  destruct (hoare_run _ _ _ _ _ _ _
    (resolve_loop_spec m I F resolve_one F_stop resolve_spec MAX_SYMBOLIC_REF_HOPS name ∅ [] Hempty) Hw E)
    as [(n & Hn & Hc') _].
  destruct (sym_chain_det _ _ _ _ _ _ Hc Hc') as [<- _]. unfold MAX_SYMBOLIC_REF_HOPS in Hn. lia.
Qed.

End HopLimit.

Definition ranked (b : byte) : bool :=
  match ref_name_alphabet_rank b with Some _ => true | None => false end.

Lemma ranked_names name :
  forallb ranked name = true -> Forall (fun b => is_Some (ref_name_alphabet_rank b)) name.
Proof.
  rewrite forallb_forall. intros Hf. apply Forall_forall. intros b Hb%list_elem_of_In.
  specialize (Hf b Hb). unfold ranked in Hf. destruct (ref_name_alphabet_rank b); [by eexists|done].
Qed.

(** A name check that only looks at the alphabet. *)
Definition simple_ref : GixRef :=
  {| gix_full_name := forallb ranked; display_ref := fun _ => "ref"%string;
     gix_full_name_bytes := ranked_names |}.

Definition hop_name (i : N) : bytes := bs "refs/" ++ [Nbyte (97 + i)].
Definition hop_target : RefTarget := Direct (sample_id x01) None.
(** [refs/a -> refs/b -> ... -> refs/q], the last one direct. *)
Definition hop_refs (name : bytes) : option RefTarget :=
  match strip_prefix (bs "refs/") name with
  | Some [b] =>
      let i := byteN b - 97 in
      if i <? 16 then Some (Symbolic (hop_name (i + 1))) else Some hop_target
  | _ => None
  end.
Definition hop_store (name : bytes) : DM unit (option RefTarget) := sret (hop_refs name).

Lemma hop_store_spec name :
  hoare (on_store (fun _ : unit => True)) (fun e => plain_failure (code e)) (hop_store name)
    (fun v => v = hop_refs name).
Proof. by apply hoare_ret. Qed.

Lemma hop_chain n i :
  i + N.of_nat n = 16 -> @sym_chain simple_ref hop_refs n (hop_name i) (Some hop_target).
Proof.
  revert i. induction n as [|n IH]; intros i Hi.
  - replace i with 16 by lia. apply sym_direct. reflexivity.
  - eapply (sym_step _ n (hop_name i) (hop_name (i + 1))).
    + assert (i < 16) as Hlt by lia. clear - Hlt.
      destruct i as [|[[[[|[]|]|[[]|[]|]|]|[[|[]|]|[[]|[]|]|]|]|[[[|[]|]|[[]|[]|]|]|[[[]|[]|]|[[]|[]|]|]|]|]]; try lia; reflexivity.
    + assert (i < 16) as Hlt by lia. clear - Hlt.
      destruct i as [|[[[[|[]|]|[[]|[]|]|]|[[|[]|]|[[]|[]|]|]|]|[[[|[]|]|[[]|[]|]|]|[[[]|[]|]|[[]|[]|]|]|]|]]; try lia; vm_compute; reflexivity.
    + apply IH. lia.
Qed.

Lemma sixteen_symbolic_edges_refused_witness :
  (exists e, fst (@resolve_with simple_ref quiet unit (hop_name 0) hop_store fresh_world) = Err e) /\
  fst (@resolve_with simple_ref quiet unit (hop_name 1) hop_store fresh_world) = Ok (Some hop_target).
Proof.
  split; [|vm_compute; reflexivity].
  apply (@sixteen_symbolic_edges_refused simple_ref quiet unit hop_refs (fun _ => True) plain_failure hop_store
           plain_stop hop_store_spec (hop_name 0) (Some hop_target) fresh_world _
           (snd (@resolve_with simple_ref quiet unit (hop_name 0) hop_store fresh_world))).
  - apply hop_chain. reflexivity.
  - done.
  - apply surjective_pairing.
Defined.

Lemma resolve_with_exact_witness :
  exists n, (n < MAX_SYMBOLIC_REF_HOPS)%nat /\
    @sym_chain simple_ref hop_refs n (hop_name 1) (Some hop_target).
Proof.
  apply (@resolve_with_exact simple_ref hop_refs quiet unit (fun _ => True) plain_failure hop_store
           plain_stop hop_store_spec (hop_name 1) fresh_world (Ok (Some hop_target))
           (snd (@resolve_with simple_ref quiet unit (hop_name 1) hop_store fresh_world))); [done|].
  vm_compute. reflexivity.
Defined.

(** A name so long that only the packed cursor fits. *)
Definition long_name : bytes := bs "refs/heads/" ++ replicate 4080 x78.

Lemma ref_cursor_roundtrip_witness :
  exists encoded, @encode_ref_cursor Sha1 7 long_name = Ok encoded /\
    (length encoded <= MAX_CURSOR_BYTES)%nat /\ @decode_ref_cursor simple_ref encoded Sha1 7 = Ok long_name.
Proof.
  apply (@ref_cursor_roundtrip simple_ref Sha1 7 long_name tt).
  - vm_compute. reflexivity.
  - vm_compute. reflexivity.
Defined.

Definition simple_items : list (RefWarning + GixReference) :=
  [inr (mkGixReference (bs "refs/heads/a") (TargetObject (replicate 20 x01)) None);
   inl (mkRefWarning (bs "refs/heads/b") "broken"%string);
   inr (mkGixReference (bs "refs/heads/c") (TargetSymbolic (bs "refs/heads/a")) None);
   inr (mkGixReference (bs "refs/heads/d") (TargetObject (replicate 20 x02)) None)].
Definition simple_refs : GixRefStore :=
  {| gix_snapshot_ok := true; gix_full_name_ok := fun _ => true; gix_prefix_ok := fun _ => true; gix_items := fun _ => Some simple_items;
     gix_find := fun _ => Some None |}.

Lemma ref_pages_cover_listing_witness :
  exists r, @list_all simple_ref simple_refs quiet simple_gix unit tagged_db Sha1 None 5 2 None fresh_world = Some r /\
    forall names, r = Ok names -> names = omap (@listable simple_ref Sha1) simple_items.
Proof.
  apply (@ref_pages_cover_listing simple_ref simple_refs quiet simple_gix unit tagged_db Sha1 None simple_items).
  - reflexivity.
  - repeat (constructor; [|repeat constructor; vm_compute; reflexivity]). constructor.
  - simpl. lia.
Defined.
