(* ===== verification/ProviderRefs.v ===== *)
(** * The callback reference store ([provider_refs.rs])

    [ProviderRefDb] over the rendezvous of [Rendezvous.v]: lookups and
    listings, and the validation of what the provider returns. *)

From Stdlib Require Import NArith Lia Strings.Byte Strings.String.
From stdpp Require Import prelude gmap strings list sorting.
From S2P Require Import Prelude Errors Objects Budget Odb Cursor Rendezvous Refs.

Open Scope N_scope.

(** [RefProviderKind], [RefProviderPayload] and [RefProviderRequest]. *)
Inductive RefProviderKind : Type :=
| RpResolve
| RpList.
Inductive RefProviderPayload : Type :=
| PayResolve (target : option RefTarget)
| PayList (page : RefPage)
| PayUnsupported
| PayBackendError.
Record RefProviderRequest : Type := mkRefRequest {
  rr_id : N;
  rr_kind : RefProviderKind;
  rr_name : option bytes;
  rr_query : option RefQuery;
  rr_deadline : N;
  rr_max_reply_bytes : N
}.

(** [RefProviderOptions]. *)
Record RefProviderOptions : Type := mkRefProviderOptions { ro_request_timeout : N }.
Definition RefProviderOptions_default : RefProviderOptions := mkRefProviderOptions 15000000000.

Definition ref_provider_down : Error := Error_retryable ProviderDown "ref provider process is down".
Definition ref_provider_timeout : Error :=
  Error_retryable ProviderTimeout "ref provider request deadline expired".
Definition ref_protocol_error (m : string) : Error := Error_new ProviderProtocolError m.
Definition ref_backend_error : Error := Error_retryable BackendError "ref provider callback failed".
Definition ref_config (o : RefProviderOptions) : RvConfig :=
  mkRvConfig ref_provider_down ref_provider_timeout (ro_request_timeout o).

(** [target_size] and [page_size]. *)
Definition target_size (t : RefTarget) : N :=
  match t with
  | Symbolic name => lenN name
  | Direct oid peeled =>
      lenN (as_bytes oid) + match peeled with Some p => lenN (as_bytes p) | None => 0 end
  end.
Definition page_size (page : RefPage) : N :=
  foldl (fun total '(name, t) => sadd64 (sadd64 total (lenN name)) (target_size t))
    (match rp_next_cursor page with Some c => lenN c | None => 0 end) (rp_refs page).

Section Operations.
Context `{Env, GixRef, !Peers RefProviderPayload RefProviderRequest} {C : Type}.
Abbreviation RW := (Rv RefProviderPayload RefProviderRequest * C)%type.

(** [validate_target]. *)
Definition validate_target (t : RefTarget) : Res unit :=
  match t with
  | Symbolic name =>
      map_err (fun _ => ref_protocol_error "ref provider returned an invalid symbolic target name")
        (validate_full_ref_name name)
  | Direct oid (Some peeled) =>
      if negb (bool_decide (oid_kind oid = oid_kind peeled)) then
        Err (ref_protocol_error
               "ref provider returned direct and peeled IDs with different hash algorithms")
      else Ok tt
  | Direct _ None => Ok tt
  end.

(** [validate_page]: the loop over the references, then the whole. *)
Fixpoint validate_refs (prefix : option bytes) (refs : list (bytes * RefTarget)) (previous : option bytes)
  : Res unit :=
  match refs with
  | [] => Ok tt
  | (name, t) :: refs =>
      let? _ := map_err (fun _ => ref_protocol_error "ref provider returned an invalid full ref name")
                  (validate_full_ref_name name) in
      if match prefix with Some p => negb (starts_with name p) | None => false end then
        Err (ref_protocol_error "ref provider returned a name outside the requested prefix")
      else if match previous with Some q => bytes_leb name q | None => false end then
        Err (ref_protocol_error "ref provider returned names outside strict byte order")
      else
        let? _ := validate_target t in
        validate_refs prefix refs (Some name)
  end.
Definition validate_page (page : RefPage) (query : RefQuery) : Res unit :=
  if (rq_limit query <? length (rp_refs page))%nat then
    Err (ref_protocol_error "ref provider returned more references than the requested limit")
  else if match rp_next_cursor page with Some c => (MAX_CURSOR_BYTES <? length c)%nat | None => false end then
    Err (ref_protocol_error "ref provider returned a cursor larger than 4096 bytes")
  else if negb (bool_decide (rp_truncated page = bool_decide (is_Some (rp_next_cursor page)))) then
    Err (ref_protocol_error "ref provider page truncation and cursor fields disagree")
  else if bool_decide (rp_refs page = []) && rp_truncated page then
    Err (ref_protocol_error "ref provider returned an empty truncated page")
  else validate_refs (rq_prefix query) (rp_refs page) None.

(** The request of [ProviderRefDb::send_and_wait]. *)
Definition ref_request (kind : RefProviderKind) (name : option bytes) (query : option RefQuery)
  (id deadline : N) (b : Budget) : RefProviderRequest :=
  mkRefRequest id kind name query deadline
    (ssub64 (max_provider_bytes (limits b)) (provider_bytes b)).

Definition ref_send_and_wait (o : RefProviderOptions) (kind : RefProviderKind) (name : option bytes)
  (query : option RefQuery) : DM RW RefProviderPayload :=
  send_and_wait (ref_config o) (ref_request kind name query).

(** [RefPendingTable]: the same table, over the payloads of references. *)
Abbreviation RefRv := (Rv RefProviderPayload RefProviderRequest).
Definition ref_table_insert : N -> nat -> RefRv -> RefRv := table_insert.
Definition ref_table_reply : N -> RefProviderPayload -> RefRv -> bool * RefRv := table_reply.
Definition ref_table_reply_error : N -> Error -> RefRv -> bool * RefRv := table_reply_error.
Definition ref_table_cancel : N -> RefRv -> bool * RefRv := table_cancel.
Definition ref_table_fail_all : Error -> RefRv -> RefRv := table_drain.

(** [RefDb::resolve]. *)
Definition provider_resolve (o : RefProviderOptions) (name : bytes) : DM RW (option RefTarget) :=
  let! _ := slift (map_err (fun _ => Error_new InvalidArgument "reference lookup requires a valid full ref name")
                     (validate_full_ref_name name)) in
  let! payload := ref_send_and_wait o RpResolve (Some name) None in
  match payload with
  | PayResolve (Some t) =>
      let! _ := slift (validate_target t) in
      let! _ := on_budget (charge_provider_bytes (target_size t)) in
      sret (Some t)
  | PayResolve None => sret None
  | PayBackendError => sthrow ref_backend_error
  | PayUnsupported | PayList _ =>
      sthrow (ref_protocol_error "ref provider resolve reply has the wrong shape")
  end.

(** [RefDb::list]. *)
Definition provider_list (o : RefProviderOptions) (query : RefQuery) : DM RW RefPage :=
  if (rq_limit query =? 0)%nat then
    sthrow (Error_new InvalidArgument "reference page limit must be positive")
  else if match rq_cursor query with Some c => (MAX_CURSOR_BYTES <? length c)%nat | None => false end then
    sthrow (ref_protocol_error "ref provider received a cursor larger than 4096 bytes")
  else
    let! payload := ref_send_and_wait o RpList None (Some query) in
    match payload with
    | PayUnsupported =>
        sthrow (Error_new UnsupportedOperation "ref provider does not support listing references")
    | PayBackendError => sthrow ref_backend_error
    | PayList page =>
        let! _ := slift (validate_page page query) in
        let n := page_size page in
        let! room := sget (fun '(b, _) => ssub64 (max_provider_bytes (limits b)) (provider_bytes b)) in
        if room <? n then
          sthrow (with_limit "max_provider_bytes" (Error_new BudgetExceeded "max_provider_bytes exceeded"))
        else
          let! _ := on_budget (charge_provider_bytes n) in
          sret page
    | PayResolve _ => sthrow (ref_protocol_error "ref provider list reply has the wrong shape")
    end.

(** The provided methods of [RefDb]. *)
Definition provider_resolve_following (o : RefProviderOptions) (name : bytes) : DM RW (option RefTarget) :=
  resolve_with name (provider_resolve o).
Definition provider_refs_refresh : DM RW unit := on_budget check.

(* ------------------------------------------------------------------ *)
(** ** What is accepted *)

(** A well-formed target, and a page that answers a query. *)
Definition ref_target_ok (t : RefTarget) : Prop :=
  match t with
  | Symbolic name => validate_full_ref_name name = Ok tt
  | Direct oid (Some peeled) => oid_kind oid = oid_kind peeled
  | Direct _ None => True
  end.
Definition in_prefix (prefix : option bytes) (name : bytes) : Prop :=
  match prefix with
  | Some p => exists rest, name = p ++ rest
  | None => True
  end.
Definition entry_ok (prefix : option bytes) (r : bytes * RefTarget) : Prop :=
  validate_full_ref_name r.1 = Ok tt /\ in_prefix prefix r.1 /\ ref_target_ok r.2.
Definition page_ok (query : RefQuery) (page : RefPage) : Prop :=
  (length (rp_refs page) <= rq_limit query)%nat /\
  (forall c, rp_next_cursor page = Some c -> (length c <= MAX_CURSOR_BYTES)%nat) /\
  (rp_truncated page = true <-> is_Some (rp_next_cursor page)) /\
  (rp_truncated page = true -> rp_refs page <> []) /\
  Forall (entry_ok (rq_prefix query)) (rp_refs page) /\
  StronglySorted bytes_lt (rp_refs page).*1.

Lemma map_err_Ok {A} (f : Error -> Error) (m : Res A) a : map_err f m = Ok a <-> m = Ok a.
Proof. destruct m; simpl; naive_solver. Qed.

Lemma validate_target_exact t : validate_target t = Ok tt <-> ref_target_ok t.
Proof.
  destruct t as [oid [peeled|]|name]; simpl; [case_bool_decide; simpl; naive_solver|done|apply map_err_Ok].
Qed.

Lemma in_prefix_check prefix name :
  match prefix with Some p => negb (starts_with name p) | None => false end = false <-> in_prefix prefix name.
Proof. destruct prefix as [p|]; simpl; [|done]. rewrite negb_false_iff. apply starts_with_true. Qed.

Lemma validate_refs_exact prefix refs previous :
  validate_refs prefix refs previous = Ok tt <->
  Forall (entry_ok prefix) refs /\ StronglySorted bytes_lt (option_list previous ++ refs.*1).
Proof.
  revert previous. induction refs as [|[name t] refs IH]; intros previous; cbn [validate_refs].
  { rewrite app_nil_r. split; [|done]. intros _. split; [constructor|].
    destruct previous; simpl; repeat constructor. }
  rewrite rbind_Ok, Forall_cons, fmap_cons. unfold entry_ok at 1. cbn [fst snd].
  rewrite <- in_prefix_check. set (bad := match prefix with Some p => _ | None => _ end).
  assert (forall q, StronglySorted bytes_lt (option_list previous ++ name :: q) <->
    match previous with Some x => bytes_leb name x | None => false end = false /\ StronglySorted bytes_lt (name :: q)) as Hsort.
  { intros q. destruct previous as [x|]; simpl; [|naive_solver]. rewrite bytes_leb_false. split.
    - intros Hs. inversion Hs as [|? ? Hq Hf]; subst. apply Forall_cons in Hf as [Hx _]. done.
    - intros [Hx Hs]. constructor; [done|]. constructor; [done|]. inversion Hs as [|? ? Hq Hf]; subst.
      eapply Forall_impl; [exact Hf|]. intros y Hy. by eapply bytes_lt_trans. }
  rewrite Hsort. clear Hsort. destruct bad; [naive_solver|].
  destruct (match previous with Some x => _ | None => _ end) eqn:Ep; [naive_solver|].
  split.
  - intros ([] & Hn%map_err_Ok & ([] & Ht & Hr)%rbind_Ok). apply IH in Hr as [Hf Hs].
    apply validate_target_exact in Ht. naive_solver.
  - intros [[(Hn & _ & Ht) Hf] [_ Hs]]. exists tt. split; [by apply map_err_Ok|]. apply rbind_Ok. exists tt.
    split; [by apply validate_target_exact|]. apply IH. by split.
Qed.

(** [validate_page] accepts exactly the pages that answer the query. *)
Lemma validate_page_exact page query : validate_page page query = Ok tt <-> page_ok query page.
Proof.
  unfold validate_page, page_ok. destruct (rq_limit query <? length (rp_refs page))%nat eqn:El.
  { apply Nat.ltb_lt in El. split; [done|]. intros [? _]. lia. }
  apply Nat.ltb_ge in El.
  destruct (match rp_next_cursor page with Some c => _ | None => _ end) eqn:Ec.
  { split; [done|]. intros (_ & Hc & _). destruct (rp_next_cursor page) as [c|]; [|done].
    apply Nat.ltb_lt in Ec. specialize (Hc c eq_refl). lia. }
  assert (forall c, rp_next_cursor page = Some c -> (length c <= MAX_CURSOR_BYTES)%nat) as Hc.
  { intros c Hc. rewrite Hc in Ec. by apply Nat.ltb_ge in Ec. }
  case_bool_decide as Et; cbn [negb].
  2: { split; [done|]. intros (_ & _ & Ht & _). exfalso. apply Et. case_bool_decide as Es;
    destruct (rp_truncated page); naive_solver. }
  assert (rp_truncated page = true <-> is_Some (rp_next_cursor page)) as Ht by (rewrite Et; apply bool_decide_eq_true).
  clear Et. destruct (decide (rp_refs page = [])) as [Ee|Ee];
    [rewrite (bool_decide_eq_true_2 _ Ee); destruct (rp_truncated page) eqn:Etr
    |rewrite (bool_decide_eq_false_2 _ Ee)]; cbn [andb].
  - split; [done|]. intros (_ & _ & _ & Hne & _). by destruct (Hne eq_refl).
  - rewrite validate_refs_exact. naive_solver.
  - rewrite validate_refs_exact. naive_solver.
Qed.

(** C36. No reference provider is trusted: whatever it replies, a lookup returns
    only a well-formed target, and a listing returns only a page with at most
    the requested number of valid names, all under the prefix and in strict
    byte order, with well-formed targets and with a bounded cursor exactly when
    more is to come, of which a non-empty page is then guaranteed; validation
    accepts every such page. *)
Theorem provider_refs_are_validated o name query (w w' : Budget * RW) :
  (forall r, provider_resolve o name w = (Ok r, w') ->
     validate_full_ref_name name = Ok tt /\ forall t, r = Some t -> ref_target_ok t) /\
  (forall page, provider_list o query w = (Ok page, w') -> (0 < rq_limit query)%nat /\ page_ok query page) /\
  (forall page, page_ok query page -> validate_page page query = Ok tt).
Proof.
  split_and!.
  - intros r Hr. unfold provider_resolve in Hr. apply sbind_Ok in Hr as ([] & w1 & Hn & Hr).
    apply sbind_Ok in Hr as (payload & w2 & _ & Hr). split.
    { injection Hn as Hn _. by apply map_err_Ok in Hn. }
    intros t ->. destruct payload as [[t'|]| | |]; try done. apply sbind_Ok in Hr as ([] & w3 & Ht & Hr).
    apply sbind_Ok in Hr as (u & w4 & _ & [= -> _]). injection Ht as Ht _. by apply validate_target_exact.
  - intros page Hr. unfold provider_list in Hr. destruct (rq_limit query =? 0)%nat eqn:El; [done|].
    apply Nat.eqb_neq in El. split; [lia|]. destruct (match rq_cursor query with Some c => _ | None => _ end); [done|].
    apply sbind_Ok in Hr as (payload & w2 & _ & Hr). destruct payload as [t|p| |]; try done.
    apply sbind_Ok in Hr as ([] & w3 & Hv & Hr). apply sbind_Ok in Hr as (room & w4 & _ & Hr).
    cbv zeta in Hr. destruct (room <? page_size p); [done|]. apply sbind_Ok in Hr as (u & w5 & _ & [= -> _]).
    injection Hv as Hv _. by apply validate_page_exact.
  - intros page. apply validate_page_exact.
Qed.

End Operations.

(* ------------------------------------------------------------------ *)
(** ** A concrete listing *)

Module RefDemo.

Definition sorted_page : RefPage :=
  mkRefPage [(bs "refs/heads/a", Direct toy_oid None); (bs "refs/heads/b", Symbolic (bs "refs/heads/a"))] None false [].
Definition unsorted_page : RefPage :=
  mkRefPage [(bs "refs/heads/b", Direct toy_oid None); (bs "refs/heads/a", Direct toy_oid None)] None false [].
Definition answering (page : RefPage) : Peers RefProviderPayload RefProviderRequest := {|
  peer_acts := fun _ => [ATake 1 (Ok (PayList page)); ASend 0];
  peer_delay := fun _ => 1;
  transport := fun _ _ => Ok tt
|}.

Definition listed (page : RefPage) : Res RefPage :=
  (@provider_list quiet simple_ref (answering page) unit RefProviderOptions_default
     (mkRefQuery (Some (bs "refs/heads/")) 10 None) (Budget_unlimited, (Rv_new, tt))).1.

Example sorted_page_is_listed : listed sorted_page = Ok sorted_page.
Proof. vm_compute. reflexivity. Qed.
Example unsorted_page_is_refused :
  match listed unsorted_page with Ok _ => None | Err e => Some (code e) end = Some ProviderProtocolError.
Proof. vm_compute. reflexivity. Qed.

End RefDemo.
