(* ===== verification/Pathspec.v ===== *)
(** * Pathspec filters ([pathspec.rs])

    Literal and glob pathspecs, and the pruning test of the tree walk. The
    glob engine [gix_glob::wildmatch] is a parameter. *)

From Stdlib Require Import NArith Lia Strings.Byte Strings.String.
From stdpp Require Import prelude gmap strings list.
From S2P Require Import Prelude.

Open Scope N_scope.

(** [matches!(byte, b'*' | b'?' | b'[')]. *)
Definition is_meta (b : byte) : bool :=
  match b with
  | x2a | x3f | x5b => true
  | _ => false
  end.

(** Bytes that stand for themselves in a glob: no wildcard and no escape. *)
Definition is_plain (b : byte) : bool := negb (is_meta b) && negb (beq b x5c).

(** The glob engine in its path-aware mode. Documented: characters other than
    wildcards and the escape match themselves, so a match starts with the
    pattern's plain prefix. *)
Class GixGlob : Type := {
  wildmatch : bytes -> bytes -> bool;
  wildmatch_plain : forall plain rest path,
    Forall (fun b => is_plain b = true) plain -> wildmatch (plain ++ rest) path = true ->
    starts_with path plain = true
}.

(** [PathspecMatcher]: the OR-ed patterns. *)
Record PathspecMatcher : Type := mkMatcher { patterns : list bytes }.

(** The [:(glob)] magic: the pattern proper and whether globbing is forced. *)
Definition strip_magic (pattern : bytes) : bytes * bool :=
  match strip_prefix (bs ":(glob)") pattern with
  | Some pattern => (pattern, true)
  | None => (pattern, false)
  end.

(** [path_prefixes_overlap]. *)
Definition below (path dir : bytes) : bool :=
  starts_with path dir && bool_decide (path !! length dir = Some x2f).
Definition path_prefixes_overlap (left_ right_ : bytes) : bool :=
  bytes_eqb left_ right_ || below left_ right_ || below right_ left_.

(** [pattern_may_match_descendant]. *)
Definition pattern_may_match_descendant (pattern prefix : bytes) : bool :=
  let '(pattern, force_glob) := strip_magic pattern in
  let first_meta := position is_meta pattern in
  if negb force_glob && bool_decide (first_meta = None) then path_prefixes_overlap pattern prefix
  else
    let fixed := take (default (length pattern) first_meta) pattern in
    match rposition (fun b => beq b x2f) fixed with
    | None => true
    | Some last_slash => path_prefixes_overlap (take last_slash fixed) prefix
    end.

Section Matcher.
Context `{GixGlob}.

(** [matches], the free function. *)
Definition pattern_matches (pattern path : bytes) : bool :=
  let '(pattern, force_glob) := strip_magic pattern in
  if negb force_glob && negb (existsb is_meta pattern) then
    bytes_eqb path pattern || below path pattern
  else wildmatch pattern path.

(** [PathspecMatcher::matches] and [PathspecMatcher::may_match_descendant]. *)
Definition matcher_matches (m : PathspecMatcher) (path : bytes) : bool :=
  bool_decide (patterns m = []) || existsb (fun p => pattern_matches p path) (patterns m).
Definition may_match_descendant (m : PathspecMatcher) (prefix : bytes) : bool :=
  bool_decide (patterns m = [])
  || existsb (fun p => pattern_may_match_descendant p prefix) (patterns m).

(* ------------------------------------------------------------------ *)
(** ** Pruning is conservative *)

(** [path] lies in the directory [dir]. *)
Definition inside (path dir : bytes) : Prop := exists rest, path = dir ++ x2f :: rest.

Lemma below_inside path dir : below path dir = true <-> inside path dir.
Proof.
  unfold below, inside. rewrite andb_true_iff, starts_with_true, bool_decide_eq_true. split.
  - intros [[r ->] Hl]. rewrite lookup_app_r, Nat.sub_diag in Hl by lia.
    destruct r as [|x r]; [done|]. simpl in Hl. simplify_eq. by exists r.
  - intros [r ->]. split; [by eexists|]. by rewrite lookup_app_r, Nat.sub_diag by lia.
Qed.

(** Two directories that a path lies in, or is, are comparable. *)
Lemma overlap_common left_ right_ path :
  (path = left_ \/ inside path left_) -> inside path right_ ->
  path_prefixes_overlap left_ right_ = true.
Proof.
  unfold path_prefixes_overlap. rewrite !orb_true_iff, !below_inside, bytes_eqb_true.
  intros [->|[r1 ->]] [r2 E].
  - left. right. by exists r2.
  - apply app_eq_inv in E as [(k & -> & E)|(k & -> & E)].
    + destruct k as [|x k]; simplify_eq/=.
      * left. left. by rewrite app_nil_r.
      * left. right. by exists k.
    + destruct k as [|x k]; simplify_eq/=.
      * left. left. by rewrite app_nil_r.
      * right. by exists k.
Qed.

(** A pattern that is matched as a glob has no escape in its fixed part. *)
Definition escape_free (pattern : bytes) : Prop :=
  let '(pattern, force_glob) := strip_magic pattern in
  force_glob || existsb is_meta pattern = true ->
  Forall (fun b => beq b x5c = false) (take (default (length pattern) (position is_meta pattern)) pattern).

Lemma fixed_no_meta pattern :
  Forall (fun b => is_meta b = false) (take (default (length pattern) (position is_meta pattern)) pattern).
Proof.
  destruct (position is_meta pattern) as [i|] eqn:E; simpl.
  - apply position_Some in E as (pre & x & post & -> & <- & _ & Hpre). by rewrite take_mid.
  - apply position_None in E. by rewrite take_ge by lia.
Qed.

Lemma existsb_meta_None pattern :
  existsb is_meta pattern = negb (bool_decide (position is_meta pattern = None)).
Proof.
  destruct (position is_meta pattern) as [i|] eqn:E.
  - apply position_Some in E as (pre & x & post & -> & _ & Hx & _).
    rewrite existsb_app. simpl. by rewrite Hx, orb_true_r.
  - rewrite bool_decide_eq_true_2 by done. simpl. apply position_None in E.
    induction E as [|b l Hb _ IH]; [done|]. simpl. by rewrite Hb.
Qed.

(** What a pathspec means: a glob, by its magic or by a wildcard in it, selects
    what the engine matches; any other one selects the path it spells and what
    lies in that directory. *)
Definition pathspec_selects (pathspec path : bytes) : Prop :=
  match strip_prefix (bs ":(glob)") pathspec with
  | Some pattern => wildmatch pattern path = true
  | None =>
      (Exists (fun b => b ∈ bs "*?[") pathspec /\ wildmatch pathspec path = true) \/
      (Forall (fun b => b ∉ bs "*?[") pathspec /\ (path = pathspec \/ inside path pathspec))
  end.

Lemma is_meta_elem b : is_meta b = true <-> b ∈ bs "*?[".
Proof.
  change (bs "*?[") with [x2a; x3f; x5b]. rewrite !elem_of_cons, elem_of_nil. split.
  - destruct b; simpl; intros E; try discriminate E; auto.
  - by intros [->|[->|[->|[]]]].
Qed.

Lemma existsb_meta_Exists pattern : existsb is_meta pattern = true <-> Exists (fun b => b ∈ bs "*?[") pattern.
Proof.
  rewrite existsb_exists, List.Exists_exists. split; intros (b & Hb & Hm); exists b; (split; [done|]);
    by apply is_meta_elem.
Qed.

Lemma pattern_matches_selects pattern path : pattern_matches pattern path = true <-> pathspec_selects pattern path.
Proof.
  unfold pattern_matches, strip_magic, pathspec_selects.
  destruct (strip_prefix _ pattern) as [glob|]; cbn [negb andb]; [done|].
  destruct (existsb is_meta pattern) eqn:E; cbn [negb].
  - apply existsb_meta_Exists in E. split; [by left|]. intros [[_ Hw]|[HF _]]; [done|].
    rewrite Forall_forall in HF. apply List.Exists_exists in E as (b & Hb & Hm).
    apply list_elem_of_In in Hb. by destruct (HF b Hb).
  - assert (~ Exists (fun b => b ∈ bs "*?[") pattern) as Hn by (rewrite <- existsb_meta_Exists; by rewrite E).
    rewrite orb_true_iff, bytes_eqb_true, below_inside. split; [|by intros [[? _]|[_ ?]]].
    intros Hm. right. split; [|done]. apply Forall_forall. intros b Hb Hm'. apply Hn.
    apply List.Exists_exists. exists b. split; [by apply list_elem_of_In|done].
Qed.

#[export] Instance pathspec_selects_dec pathspec path : Decision (pathspec_selects pathspec path).
Proof.
  destruct (pattern_matches pathspec path) eqn:E; [left|right]; rewrite <- pattern_matches_selects; by rewrite E.
Defined.

(** What a list of pathspecs selects: everything when it is empty. *)
Definition selected_by (pathspecs : list bytes) (path : bytes) : Prop :=
  pathspecs = [] \/ Exists (fun p => pathspec_selects p path) pathspecs.

Lemma matcher_selects m path : matcher_matches m path = true <-> selected_by (patterns m) path.
Proof.
  unfold matcher_matches, selected_by. rewrite orb_true_iff, bool_decide_eq_true, existsb_exists, List.Exists_exists.
  split; (intros [E|(p & Hp & Hs)]; [by left|right; exists p; split; [done|by apply pattern_matches_selects]]).
Qed.

Lemma pattern_conservative pattern path prefix :
  escape_free pattern -> pattern_matches pattern path = true -> inside path prefix ->
  pattern_may_match_descendant pattern prefix = true.
Proof.
  unfold escape_free, pattern_matches, pattern_may_match_descendant.
  destruct (strip_magic pattern) as [p force]. intros Hesc Hm Hin.
  rewrite existsb_meta_None in Hesc, Hm. rewrite negb_involutive in Hm.
  rewrite <- (negb_involutive force), <- negb_andb in Hesc.
  destruct (negb force && bool_decide (position is_meta p = None)).
  - eapply overlap_common; [|exact Hin]. apply orb_true_iff in Hm as [Hm|Hm].
    + apply bytes_eqb_true in Hm as ->. by left.
    + right. by apply below_inside.
  - specialize (Hesc eq_refl).
    set (fixed := take _ p) in *. destruct (rposition _ fixed) as [k|] eqn:Er; [|done].
    assert (starts_with path fixed = true) as Hp.
    { apply (wildmatch_plain fixed (drop (default (length p) (position is_meta p)) p)).
      - pose proof (fixed_no_meta p) as Hnm. fold fixed in Hnm.
        apply Forall_forall. intros b Hb. rewrite Forall_forall in Hnm, Hesc. unfold is_plain.
        by rewrite (Hnm b Hb), (Hesc b Hb).
      - subst fixed. by rewrite take_drop. }
    apply starts_with_true in Hp as [r ->].
    apply rposition_Some in Er as (pre & x & post & -> & <- & Hx & _). apply beq_true in Hx as ->.
    rewrite take_mid. eapply overlap_common; [|exact Hin]. right. exists (post ++ r). by rewrite <- app_assoc.
Qed.

(** Pruning never loses a match: if a matcher selects a path and its
    globs have no escape in their fixed part, then every
    directory above the path passes the pruning test, so the walk reaches it. *)
Theorem pruning_is_conservative m path prefix :
  Forall escape_free (patterns m) -> matcher_matches m path = true -> inside path prefix ->
  may_match_descendant m prefix = true.
Proof.
  unfold matcher_matches, may_match_descendant. intros HF Hm Hin.
  apply orb_true_iff in Hm as [->|Hm]; [done|]. apply orb_true_iff. right.
  apply existsb_exists in Hm as (p & Hp & Hpm). apply existsb_exists. exists p. split; [done|].
  rewrite Forall_forall in HF. eapply pattern_conservative; [by apply HF, list_elem_of_In|done|done].
Qed.

(** With an escape the pruning test is wrong: the escaped pattern
    [foo\-bar/*.rs] matches [foo-bar/x.rs] wherever the engine honours the
    escape, yet the directory [foo-bar] is pruned, against the comment that
    pruning never rejects a subtree the matcher could select. *)
Theorem escaped_pattern_is_pruned :
  wildmatch (bs "foo\-bar/*.rs") (bs "foo-bar/x.rs") = true ->
  matcher_matches (mkMatcher [bs "foo\-bar/*.rs"]) (bs "foo-bar/x.rs") = true /\
  inside (bs "foo-bar/x.rs") (bs "foo-bar") /\
  may_match_descendant (mkMatcher [bs "foo\-bar/*.rs"]) (bs "foo-bar") = false.
Proof.
  intros Hw. split_and!.
  - unfold matcher_matches. apply orb_true_iff. right. simpl. unfold pattern_matches.
    replace (strip_magic (bs "foo\-bar/*.rs")) with (bs "foo\-bar/*.rs", false) by reflexivity.
    by rewrite Hw.
  - exists (bs "x.rs"). reflexivity.
  - vm_compute. reflexivity.
Qed.

End Matcher.

(* ------------------------------------------------------------------ *)
(** ** Witnesses *)

(** A small glob engine: [*] stops at a slash, [?] is one other byte, a
    backslash quotes the next byte. *)
Fixpoint star_match (p : bytes -> bool) (path : bytes) : bool :=
  p path || match path with
            | [] => false
            | b :: path => negb (beq b x2f) && star_match p path
            end.
Fixpoint glob (pattern path : bytes) : bool :=
  match pattern with
  | [] => bool_decide (path = [])
  | x2a :: pattern => star_match (glob pattern) path
  | x3f :: pattern => match path with b :: path => negb (beq b x2f) && glob pattern path | [] => false end
  | x5c :: c :: pattern => match path with b :: path => beq b c && glob pattern path | [] => false end
  | c :: pattern => match path with b :: path => beq b c && glob pattern path | [] => false end
  end.

Lemma glob_plain plain rest path :
  Forall (fun b => is_plain b = true) plain -> glob (plain ++ rest) path = true ->
  starts_with path plain = true.
Proof.
  intros HF. revert path. induction HF as [|c plain Hc HF IH]; intros path Hg; [done|].
  assert (exists b path', path = b :: path' /\ beq b c = true /\ glob (plain ++ rest) path' = true)
    as (b & path' & -> & Hb & Hg').
  { destruct c; simpl in Hc, Hg; try done; (destruct path as [|b path']; [done|]);
      apply andb_true_iff in Hg as [Hb Hg]; eauto. }
  apply beq_true in Hb as ->. specialize (IH _ Hg'). apply starts_with_true in IH as [r ->].
  apply starts_with_true. by exists r.
Qed.

Definition simple_glob : GixGlob := {| wildmatch := glob; wildmatch_plain := glob_plain |}.

Lemma pruning_is_conservative_witness :
  @may_match_descendant (mkMatcher [bs "docs"; bs "src/lib/*.rs"]) (bs "src") = true.
Proof.
  apply (@pruning_is_conservative simple_glob _ (bs "src/lib/a.rs")).
  - repeat constructor; intros _; vm_compute; repeat constructor.
  - vm_compute. reflexivity.
  - exists (bs "lib/a.rs"). reflexivity.
Defined.

Lemma escaped_pattern_is_pruned_witness :
  @matcher_matches simple_glob (mkMatcher [bs "foo\-bar/*.rs"]) (bs "foo-bar/x.rs") = true /\
  may_match_descendant (mkMatcher [bs "foo\-bar/*.rs"]) (bs "foo-bar") = false.
Proof.
  destruct (@escaped_pattern_is_pruned simple_glob) as (H1 & _ & H2); [vm_compute; reflexivity|].
  split; [exact H1|exact H2].
Defined.
