(* ===== verification/Tree.v ===== *)
(** * Tree resolution, traversal and pagination ([tree.rs])

    Path validation, path resolution, the iterative tree walk with its type
    and pathspec filters, and the paged listing with its cursor. The reference
    definition of the walk is the recursive pre-order [visits]. *)

From Stdlib Require Import NArith Lia Strings.Byte Strings.String.
From stdpp Require Import prelude gmap strings list pretty sorting.
From S2P Require Import Prelude Errors Objects Budget Odb Cursor Decode Snapshot Pathspec.

Open Scope N_scope.

(** [TreeItemKind] and [TypeFilter]. *)
Inductive TreeItemKind : Type :=
| KBlob
| KTree
| KSymlink
| KGitlink.

#[export] Instance TreeItemKind_eq_decision : EqDecision TreeItemKind.
Proof. solve_decision. Defined.

Definition TypeFilter : Type := N.
Definition TypeFilter_BLOB : TypeFilter := 1.
Definition TypeFilter_TREE : TypeFilter := 2.
Definition TypeFilter_SYMLINK : TypeFilter := 4.
Definition TypeFilter_GITLINK : TypeFilter := 8.
Definition TypeFilter_ALL : TypeFilter := 15.
Definition filter_contains (f : TypeFilter) (kind : TreeItemKind) : bool :=
  let flag := match kind with
              | KBlob => TypeFilter_BLOB
              | KTree => TypeFilter_TREE
              | KSymlink => TypeFilter_SYMLINK
              | KGitlink => TypeFilter_GITLINK
              end in
  negb (N.land f flag =? 0).

(** [TreeOptions], [TreeItem], [QueryStats] and [TreePage]. *)
Record TreeOptions : Type := mkTreeOptions {
  to_path : bytes;
  to_recursive : bool;
  to_depth : option N;
  to_types : TypeFilter;
  to_pathspecs : list bytes;
  to_include_size : bool;
  to_limit : nat;
  to_cursor : option bytes
}.

Record TreeItem : Type := mkTreeItem {
  ti_path : bytes;
  ti_name : bytes;
  ti_oid : Oid;
  ti_kind : TreeItemKind;
  ti_mode : N;
  ti_size : option N
}.

Record QueryStats : Type := mkQueryStats {
  qs_objects_read : N;
  qs_bytes_read : N;
  qs_entries_emitted : N;
  qs_cache_hits : N;
  qs_cache_misses : N;
  qs_cache : CacheStats;
  qs_files_scanned : N;
  qs_blobs_deduped : N;
  qs_binary_skipped : N;
  qs_oversize_skipped : N;
  qs_payload_rereads : N;
  qs_stopped_by : option string
}.

Record TreePage : Type := mkTreePage {
  tp_entries : list TreeItem;
  tp_next_cursor : option bytes;
  tp_truncated : bool;
  tp_stats : QueryStats
}.

(** [OwnedTreeEntry], [ResolvedEntry] and [ResolvedPath]. *)
Record OwnedTreeEntry : Type := mkOwned {
  oe_mode : N;
  oe_name : bytes;
  oe_oid : Oid;
  oe_kind : TreeItemKind
}.
Record ResolvedEntry : Type := mkResolved {
  re_oid : Oid;
  re_mode : N;
  re_kind : TreeItemKind
}.
Inductive ResolvedPath : Type :=
| RootTree (oid : Oid)
| Entry (entry : ResolvedEntry).

(** [missing_object], [path_not_found] and [invalid_cursor]. *)
Definition missing_object (oid : Oid) (role : string) : Error :=
  Error_new MissingObject (role ++ " object " ++ oid_str oid ++ " is missing from the object store").
Definition path_not_found : Error := Error_new InvalidPath "path does not exist in this snapshot".
Definition cursor_invalid (m : string) : Error := Error_new InvalidCursor m.

(** The octal rendering [{mode:o}]. *)
Fixpoint octal_digits (fuel : nat) (n : N) (acc : string) : string :=
  match fuel with
  | O => acc
  | S fuel =>
      let acc := String (Ascii.ascii_of_N (48 + n mod 8)) acc in
      if n <? 8 then acc else octal_digits fuel (n / 8) acc
  end.

(** [kind_from_mode]: the masks are octal [170000], [040000], [100000],
    [120000] and [160000]. *)
Definition kind_from_mode (mode : N) : Res TreeItemKind :=
  let format := N.land mode 61440 in
  if format =? 16384 then Ok KTree
  else if format =? 32768 then Ok KBlob
  else if format =? 40960 then Ok KSymlink
  else if format =? 57344 then Ok KGitlink
  else Err (Error_new MalformedObject ("tree entry has unsupported mode " ++ octal_digits 11 mode EmptyString)).

(** [validate_path]: the loop over the segments. *)
Fixpoint validate_segments (segments : list bytes) : Res unit :=
  match segments with
  | [] => Ok tt
  | s :: segments =>
      if bytes_eqb s (bs ".") || bytes_eqb s (bs "..") then
        Err (Error_new InvalidPath "path contains a semantic dot segment")
      else if bool_decide (s = []) then
        Err (Error_new InvalidPath "path contains an empty segment")
      else validate_segments segments
  end.
Definition is_slash (b : byte) : bool := beq b x2f.
Definition validate_path (path : bytes) : Res unit :=
  if existsb (beq x00) path then Err (Error_new InvalidPath "path contains a NUL byte")
  else if bool_decide (path = []) then Ok tt
  else validate_segments (split_on is_slash path).

(** [validate_literal_path]. *)
Definition validate_literal_path (path : bytes) (operation : string) : Res unit :=
  let? _ := validate_path path in
  if starts_with path (bs ":(") || existsb is_meta path then
    Err (with_reason "pathspec_not_literal"
           (Error_new InvalidArgument (operation ++ " path must be literal, not a pathspec")))
  else Ok tt.

(** [validate_tree_name]. *)
Definition validate_tree_name (name : bytes) : Res unit :=
  if bool_decide (name = []) || existsb (beq x00) name || existsb (beq x2f) name
     || bytes_eqb name (bs ".") || bytes_eqb name (bs "..") then
    Err (Error_new MalformedObject "tree entry name is malformed")
  else Ok tt.

(** [validate_cursor_position]. *)
Definition validate_cursor_position (position_ base : bytes) : Res unit :=
  if bool_decide (position_ = []) then Ok tt
  else
    let? _ := map_err (fun _ => cursor_invalid "position path check failed") (validate_path position_) in
    if negb (bool_decide (base = []))
       && negb (starts_with position_ base && bool_decide (position_ !! length base = Some x2f)
                && (length base + 1 <? length position_)%nat) then
      Err (cursor_invalid "position path is outside the listed tree")
    else Ok tt.

(** [join_path] and [relative_to_scope]. *)
Definition join_path (prefix name : bytes) : bytes :=
  if bool_decide (prefix = []) then name else prefix ++ x2f :: name.
Definition relative_to_scope (path scope : bytes) : bytes :=
  if bool_decide (scope = []) then path else drop (length scope + 1) path.

(** [push_bytes] and [option_fingerprint]. *)
Definition u32_len {A} (l : list A) : N := if lenN l <=? u32_max then lenN l else u32_max.
Definition push_bytes (b : bytes) : bytes := le_bytes 4 (u32_len b) ++ b.
Definition bool_byte (b : bool) : byte := if b then x01 else x00.
Definition option_fingerprint (opts : TreeOptions) : N :=
  fnv1a_64
    (bs "gitility:list_tree:options:v1" ++ [x00]
     ++ push_bytes (to_path opts)
     ++ [bool_byte (to_recursive opts)]
     ++ match to_depth opts with
        | Some depth => x01 :: le_bytes 4 depth
        | None => [x00]
        end
     ++ [Nbyte (to_types opts)]
     ++ le_bytes 4 (u32_len (to_pathspecs opts))
     ++ (to_pathspecs opts ≫= push_bytes)
     ++ [bool_byte (to_include_size opts)]).

(** A walk that ran out of fuel; the theorems exclude it. *)
Definition walk_diverged : Error := Error_new InternalError "out of fuel".

Section TreeOps.
Context `{Env, GixObject, GixGlob} {T : Type} (db : ObjectDb T).

(** [ensure_query_compatible]. *)
Definition ensure_query_compatible (snapshot : Snapshot) : Res unit :=
  if bool_decide (hash_kind db = Sha256) then
    Err (Error_new UnsupportedHash "SHA-256 query execution not yet supported")
  else if negb (bool_decide (oid_kind (commit_oid snapshot) = hash_kind db))
          || negb (bool_decide (oid_kind (snap_tree_oid snapshot) = hash_kind db)) then
    Err (Error_new InvalidOid "snapshot object ID algorithm does not match the object store")
  else Ok tt.

(** [decode_owned_tree_entries]: [collect] stops at the first error. *)
Definition owned_entry (item : Res TreeEntry) : Res OwnedTreeEntry :=
  let? entry := item in
  let? _ := validate_tree_name (te_name entry) in
  let? kind := kind_from_mode (te_mode entry) in
  Ok (mkOwned (te_mode entry) (te_name entry) (te_oid entry) kind).
Definition decode_owned_tree_entries (payload : bytes) (hk : HashKind) : Res (list OwnedTreeEntry) :=
  map_res owned_entry (decode_tree payload hk).

(** [read_tree_entries] and [read_tree_entries_graph]: the same but for the
    read they use. *)
Definition entries_of_read (oid : Oid) (found : ObjectReadResult) : Res (list OwnedTreeEntry) :=
  let? (kind, payload) := ok_or (missing_object oid "tree") found in
  if negb (bool_decide (kind = Tree)) then
    Err (Error_new NotATree ("tree object " ++ oid_str oid ++ " is not a tree"))
  else decode_owned_tree_entries payload (hash_kind db).
Definition read_tree_entries (oid : Oid) : DM T (list OwnedTreeEntry) :=
  let! found := try_find db oid in
  slift (entries_of_read oid found).
Definition read_tree_entries_graph (oid : Oid) : DM T (list OwnedTreeEntry) :=
  let! found := try_find_graph db oid in
  slift (entries_of_read oid found).

(** [read_tree_entries_for_walk] and [read_tree_entries_for_graph_walk]. *)
Definition prefetch_children (entries : list OwnedTreeEntry) : DM T unit :=
  match oe_oid <$> filter (fun e => oe_kind e = KTree) entries with
  | [] => sret tt
  | child_trees => prefetch db child_trees
  end.
Definition read_tree_entries_for_walk (oid : Oid) (prefetch_kids : bool) : DM T (list OwnedTreeEntry) :=
  let! entries := read_tree_entries oid in
  let! _ := (if prefetch_kids && supports_prefetch db then prefetch_children entries else sret tt) in
  sret entries.
Definition read_tree_entries_for_graph_walk (oid : Oid) : DM T (list OwnedTreeEntry) :=
  let! entries := read_tree_entries_graph oid in
  let! _ := (if supports_prefetch db then prefetch_children entries else sret tt) in
  sret entries.

(** [resolve_path] and [resolve_path_for_graph_walk]: the loop over the
    segments, with the tree reader of each. *)
Fixpoint resolve_segments (read : Oid -> DM T (list OwnedTreeEntry)) (tree : Oid)
  (segments : list bytes) : DM T ResolvedPath :=
  match segments with
  | [] => sthrow path_not_found
  | segment :: segments =>
      let! entries := read tree in
      let! entry := slift (ok_or path_not_found (head (filter (fun e => oe_name e = segment) entries))) in
      match segments with
      | [] => sret (Entry (mkResolved (oe_oid entry) (oe_mode entry) (oe_kind entry)))
      | _ :: _ =>
          if negb (bool_decide (oe_kind entry = KTree)) then sthrow path_not_found
          else resolve_segments read (oe_oid entry) segments
      end
  end.
Definition resolve_path_by (read : Oid -> DM T (list OwnedTreeEntry)) (snapshot : Snapshot)
  (path : bytes) : DM T ResolvedPath :=
  let! _ := slift (validate_path path) in
  if bool_decide (path = []) then sret (RootTree (snap_tree_oid snapshot))
  else resolve_segments read (snap_tree_oid snapshot) (split_on is_slash path).
Definition resolve_path : Snapshot -> bytes -> DM T ResolvedPath := resolve_path_by read_tree_entries.
Definition resolve_path_for_graph_walk : Snapshot -> bytes -> DM T ResolvedPath :=
  resolve_path_by read_tree_entries_graph.

(** [Walker]: what stays fixed during a walk, and [WalkOutcome]. *)
Record Walker : Type := mkWalker {
  w_opts : TreeOptions;
  w_matcher : PathspecMatcher;
  w_resume : bytes;
  w_max_depth : N
}.
Inductive WalkOutcome : Type :=
| Complete
| Stopped (limit : string).

Record Frame : Type := mkFrame {
  fr_entries : list OwnedTreeEntry;
  fr_prefix : bytes;
  fr_depth : N
}.

(** The two tests of the loop of [walk_tree]. *)
Definition should_descend (wk : Walker) (e : OwnedTreeEntry) (path : bytes) (depth : N) : bool :=
  bool_decide (oe_kind e = KTree) && to_recursive (w_opts wk) && (depth <? w_max_depth wk)
  && may_match_descendant (w_matcher wk) (relative_to_scope path (to_path (w_opts wk))).
Definition should_emit (wk : Walker) (e : OwnedTreeEntry) (path : bytes) : bool :=
  filter_contains (to_types (w_opts wk)) (oe_kind e)
  && matcher_matches (w_matcher wk) (relative_to_scope path (to_path (w_opts wk)))
  && (bool_decide (w_resume wk = []) || bytes_ltb (w_resume wk) path).

(** The size of an emitted entry, when asked for. *)
Definition entry_size (wk : Walker) (e : OwnedTreeEntry) : DM T (option N) :=
  if to_include_size (w_opts wk)
     && (bool_decide (oe_kind e = KBlob) || bool_decide (oe_kind e = KSymlink)) then
    let! found := try_header_with_provenance db (oe_oid e) in
    let! read := slift (ok_or (missing_object (oe_oid e) "listed entry") found) in
    if negb (bool_decide (hdr_kind (hr_header read) = Blob)) then
      sthrow (match hr_provenance read with
              | UnverifiedProvider =>
                  Error_new ProviderProtocolError "provider header contradicts tree entry kind"
              | Verified =>
                  Error_new MalformedObject
                    ("listed blob " ++ oid_str (oe_oid e) ++ " addresses a non-blob object")
              end)
    else sret (Some (hdr_size (hr_header read)))
  else sret None.

Definition emit_item (wk : Walker) (e : OwnedTreeEntry) (path : bytes) : DM T TreeItem :=
  let! _ := on_budget charge_tree_entry in
  let! size := entry_size wk e in
  sret (mkTreeItem path (oe_name e) (oe_oid e) (oe_kind e) (oe_mode e) size).

(** The loop of [Walker::walk_tree]. The walker's [entries] survive an error,
    so they are returned beside the result. *)
Fixpoint walk_loop (fuel : nat) (wk : Walker) (stack : list Frame) (acc : list TreeItem)
  (w : Budget * T) : Res WalkOutcome * list TreeItem * (Budget * T) :=
  match stack with
  | [] => (Ok Complete, acc, w)
  | frame :: stack =>
      match fuel with
      | O => (Err walk_diverged, acc, w)
      | S fuel =>
          match on_budget check w with
          | (Err e, w) => (Err e, acc, w)
          | (Ok _, w) =>
              match fr_entries frame with
              | [] => walk_loop fuel wk stack acc w
              | e :: entries =>
                  let path := join_path (fr_prefix frame) (oe_name e) in
                  let stack := mkFrame entries (fr_prefix frame) (fr_depth frame) :: stack in
                  let '(emitted, w) :=
                    if should_emit wk e path then
                      if (length acc =? to_limit (w_opts wk))%nat then (Ok None, w)
                      else let '(r, w) := emit_item wk e path w in
                           (match r with Ok item => Ok (Some (acc ++ [item])) | Err err => Err err end, w)
                    else (Ok (Some acc), w) in
                  match emitted with
                  | Err err => (Err err, acc, w)
                  | Ok None => (Ok (Stopped "limit"), acc, w)
                  | Ok (Some acc) =>
                      if should_descend wk e path (fr_depth frame) then
                        match read_tree_entries_for_walk (oe_oid e) (to_recursive (w_opts wk)) w with
                        | (Err err, w) => (Err err, acc, w)
                        | (Ok children, w) =>
                            walk_loop fuel wk
                              (mkFrame children path (N.min (fr_depth frame + 1) u32_max) :: stack) acc w
                        end
                      else walk_loop fuel wk stack acc w
                  end
              end
          end
      end
  end.

(** [Walker::walk_tree]. *)
Definition walk_tree (fuel : nat) (wk : Walker) (oid : Oid) (prefix : bytes) (w : Budget * T)
  : Res WalkOutcome * list TreeItem * (Budget * T) :=
  match read_tree_entries_for_walk oid (to_recursive (w_opts wk)) w with
  | (Err e, w) => (Err e, [], w)
  | (Ok entries, w) => walk_loop fuel wk [mkFrame entries prefix 1] [] w
  end.

(** The treatment of the walk's outcome in [list_tree]: budget ceilings other
    than the provider's end the page, everything else fails the call. *)
Definition page_outcome (r : Res WalkOutcome) : Res WalkOutcome :=
  match r with
  | Ok o => Ok o
  | Err e =>
      if bool_decide (code e = BudgetExceeded) then
        if bool_decide (limit e = Some "max_provider_requests"%string)
           || bool_decide (limit e = Some "max_provider_bytes"%string) then Err e
        else Ok (Stopped (default "budget"%string (limit e)))
      else Err e
  end.

(** The query a listing cursor is bound to. *)
Definition tree_expected (snapshot : Snapshot) (fingerprint : N) : CursorExpected :=
  mkExpected (oid_kind (commit_oid snapshot)) (as_bytes (commit_oid snapshot)) OPERATION_LIST_TREE fingerprint.
Definition tree_cursor (snapshot : Snapshot) (fingerprint : N) (position_ : bytes) : Cursor :=
  mkCursor (oid_kind (commit_oid snapshot)) (as_bytes (commit_oid snapshot)) OPERATION_LIST_TREE
    fingerprint [] position_.

(** Where a listing resumes: [resume] in [list_tree]. *)
Definition resume_position (snapshot : Snapshot) (opts : TreeOptions) : Res bytes :=
  match to_cursor opts with
  | Some encoded =>
      let? decoded := decode encoded (tree_expected snapshot (option_fingerprint opts)) in
      if negb (bool_decide (cur_generation decoded = [])) then
        Err (cursor_invalid "generation check failed for this object store")
      else
        let? _ := validate_cursor_position (cur_position decoded) (to_path opts) in
        Ok (cur_position decoded)
  | None => Ok []
  end.

(** The end of [list_tree]: the page, its cursor and its statistics. *)
Definition finish_page (snapshot : Snapshot) (opts : TreeOptions) (outcome : WalkOutcome)
  (entries : list TreeItem) : DM T TreePage :=
  let '(truncated, stopped_by) := match outcome with
                                  | Complete => (false, None)
                                  | Stopped l => (true, Some l)
                                  end in
  if truncated && bool_decide (length entries = 0%nat) then
    sthrow (with_limit (default EmptyString stopped_by)
              (Error_new BudgetExceeded "budget exhausted before any pagination progress"))
  else
    let! next_cursor :=
      (if truncated then
         match last entries with
         | None => sthrow (Error_new InternalError "panic")
         | Some item =>
             let encoded := encode (tree_cursor snapshot (option_fingerprint opts) (ti_path item)) in
             if (MAX_CURSOR_BYTES <? length encoded)%nat then
               sthrow (Error_new ResultTooLarge "tree continuation path exceeds the cursor size limit")
             else sret (Some encoded)
         end
       else sret None) in
    fun '(b, t) =>
      let '(objects_read, bytes_read, _, _) := spent b in
      let '(hits, misses) := cache_spent b in
      (Ok (mkTreePage entries next_cursor truncated
             (mkQueryStats objects_read bytes_read (lenN entries) hits misses (cache_stats db t)
                0 0 0 0 0 stopped_by)),
       (b, t)).

(** [list_tree]. *)
Definition list_tree (fuel : nat) (snapshot : Snapshot) (opts : TreeOptions) : DM T TreePage :=
  let! _ := slift (ensure_query_compatible snapshot) in
  let! _ := slift (validate_path (to_path opts)) in
  if (to_limit opts =? 0)%nat then
    sthrow (Error_new InvalidArgument "tree page limit must be greater than zero")
  else
    let! resume := slift (resume_position snapshot opts) in
    let! resolved := resolve_path snapshot (to_path opts) in
    let! tree := slift (match resolved with
                        | RootTree oid => Ok oid
                        | Entry entry =>
                            if bool_decide (re_kind entry = KTree) then Ok (re_oid entry)
                            else Err (Error_new NotATree "path does not resolve to a tree")
                        end) in
    let max_depth := if to_recursive opts then default u32_max (to_depth opts) else 1 in
    let wk := mkWalker opts (mkMatcher (to_pathspecs opts)) resume max_depth in
    fun w =>
      let '(r, entries, w) := if max_depth =? 0 then (Ok Complete, [], w)
                              else walk_tree fuel wk tree (to_path opts) w in
      (let! outcome := slift (page_outcome r) in finish_page snapshot opts outcome entries) w.

End TreeOps.

(* ------------------------------------------------------------------ *)
(** ** The recursive pre-order traversal *)

(** What the paths below a directory start with. *)
Definition dir_prefix (prefix : bytes) : bytes := if bool_decide (prefix = []) then [] else prefix ++ [x2f].

Section Visits.
Context `{GixObject, GixGlob} {T : Type} (db : ObjectDb T) (c : Oid -> ObjectReadResult).

(** The entries of a tree object, on the store's contents. *)
Definition tree_of (oid : Oid) : Res (list OwnedTreeEntry) := entries_of_read db oid (c oid).

(** [visits wk es prefix depth vs]: traversing the entries [es] of the
    directory [prefix] visits [vs], in order: each entry, then, where the walk
    descends, what its tree holds. *)
Inductive visits (wk : Walker) : list OwnedTreeEntry -> bytes -> N -> list (bytes * OwnedTreeEntry) -> Prop :=
| visit_nil prefix depth : visits wk [] prefix depth []
| visit_leaf e es prefix depth vs :
    should_descend wk e (join_path prefix (oe_name e)) depth = false ->
    visits wk es prefix depth vs ->
    visits wk (e :: es) prefix depth ((join_path prefix (oe_name e), e) :: vs)
| visit_tree e es prefix depth children vs1 vs2 :
    should_descend wk e (join_path prefix (oe_name e)) depth = true ->
    tree_of (oe_oid e) = Ok children ->
    visits wk children (join_path prefix (oe_name e)) (N.min (depth + 1) u32_max) vs1 ->
    visits wk es prefix depth vs2 ->
    visits wk (e :: es) prefix depth ((join_path prefix (oe_name e), e) :: vs1 ++ vs2).

(** What remains to be visited with a stack of frames. *)
Inductive stack_visits (wk : Walker) : list Frame -> list (bytes * OwnedTreeEntry) -> Prop :=
| stack_nil : stack_visits wk [] []
| stack_cons f fs vs1 vs2 :
    visits wk (fr_entries f) (fr_prefix f) (fr_depth f) vs1 -> stack_visits wk fs vs2 ->
    stack_visits wk (f :: fs) (vs1 ++ vs2).

(** Everything below the entries [es] of the directory [prefix], in order. *)
Inductive under : list OwnedTreeEntry -> bytes -> list (bytes * OwnedTreeEntry) -> Prop :=
| under_nil prefix : under [] prefix []
| under_leaf e es prefix vs :
    oe_kind e <> KTree -> under es prefix vs ->
    under (e :: es) prefix ((join_path prefix (oe_name e), e) :: vs)
| under_tree e es prefix children vs1 vs2 :
    oe_kind e = KTree -> tree_of (oe_oid e) = Ok children ->
    under children (join_path prefix (oe_name e)) vs1 -> under es prefix vs2 ->
    under (e :: es) prefix ((join_path prefix (oe_name e), e) :: vs1 ++ vs2).

(** Everything at most [levels] directories deep below the entries [es] of the
    directory [prefix], in order: with one level the entries themselves, with
    none nothing. *)
Inductive listing : N -> list OwnedTreeEntry -> bytes -> list (bytes * OwnedTreeEntry) -> Prop :=
| listing_none es prefix : listing 0 es prefix []
| listing_nil levels prefix : listing levels [] prefix []
| listing_leaf levels e es prefix vs :
    levels <> 0 -> (oe_kind e <> KTree \/ levels = 1) -> listing levels es prefix vs ->
    listing levels (e :: es) prefix ((join_path prefix (oe_name e), e) :: vs)
| listing_tree levels e es prefix children vs1 vs2 :
    levels <> 0 -> oe_kind e = KTree -> levels <> 1 -> tree_of (oe_oid e) = Ok children ->
    listing (levels - 1) children (join_path prefix (oe_name e)) vs1 -> listing levels es prefix vs2 ->
    listing levels (e :: es) prefix ((join_path prefix (oe_name e), e) :: vs1 ++ vs2).

(** What a query asks for: the entries of the types it names whose path, from
    the listed directory on, its pathspecs select. *)
Definition type_bit (kind : TreeItemKind) : N :=
  match kind with KBlob => 0 | KTree => 1 | KSymlink => 2 | KGitlink => 3 end.
Definition wanted (opts : TreeOptions) (v : bytes * OwnedTreeEntry) : Prop :=
  N.testbit (to_types opts) (type_bit (oe_kind v.2)) = true /\
  selected_by (to_pathspecs opts) (drop (length (dir_prefix (to_path opts))) v.1).
#[export] Instance wanted_dec opts v : Decision (wanted opts v).
Proof. unfold wanted, selected_by. apply _. Defined.

Inductive stack_under : list (list OwnedTreeEntry * bytes) -> list (bytes * OwnedTreeEntry) -> Prop :=
| stack_under_nil : stack_under [] []
| stack_under_cons es prefix stack vs1 vs2 :
    under es prefix vs1 -> stack_under stack vs2 -> stack_under ((es, prefix) :: stack) (vs1 ++ vs2).

(** The visited entries a query selects, and how an item shows one. *)
Definition selected (wk : Walker) (vs : list (bytes * OwnedTreeEntry)) : list (bytes * OwnedTreeEntry) :=
  filter (fun v => should_emit wk v.2 v.1 = true) vs.
Definition shows (v : bytes * OwnedTreeEntry) (i : TreeItem) : Prop :=
  ti_path i = v.1 /\ ti_name i = oe_name v.2 /\ ti_oid i = oe_oid v.2 /\
  ti_kind i = oe_kind v.2 /\ ti_mode i = oe_mode v.2.

End Visits.

Section WalkSpec.
Context `{Env, GixObject, GixGlob} {T : Type} (db : ObjectDb T) (c : Oid -> ObjectReadResult)
        (I : T -> Prop) (F : ErrorCode -> Prop).
Context `{!LawfulDb db c I F}.
Hypothesis F_stop : forall e, budget_stop e -> F (code e).

(** The errors of a walk over trees that all exist: the store's, and those of
    the size lookup. *)
Definition walk_failure (e : Error) : Prop :=
  F (code e) \/ code e = MissingObject \/ code e = MalformedObject \/ code e = ProviderProtocolError.

Lemma read_for_walk_spec oid kids es :
  tree_of db c oid = Ok es ->
  hoare (on_store I) walk_failure (read_tree_entries_for_walk db oid kids) (fun r => r = es).
Proof.
  intros Ht. unfold read_tree_entries_for_walk, read_tree_entries. eapply hoare_bind.
  { eapply hoare_bind; [eapply hoare_conseq; [apply law_find|intros e He; by left|intros v Hv; exact Hv]|].
    intros v ->. apply (hoare_lift _ _ _ (fun r => r = es)). unfold tree_of in Ht. by rewrite Ht. }
  intros r ->. eapply (hoare_bind _ _ _ _ (fun _ => True)); [|intros _ _; by apply hoare_ret].
  destruct (kids && supports_prefetch db); [|by apply hoare_ret].
  unfold prefetch_children. destruct (oe_oid <$> _); [by apply hoare_ret|].
  eapply hoare_conseq; [apply law_prefetch|intros e He; by left|done].
Qed.

Lemma entry_size_spec wk e :
  hoare (on_store I) walk_failure (entry_size db wk e) (fun _ => True).
Proof.
  unfold entry_size. destruct (_ && _); [|by apply hoare_ret]. eapply hoare_bind.
  { eapply hoare_conseq; [apply law_header|intros x Hx; by left|intros v Hv; exact Hv]. }
  intros v _. eapply (hoare_bind _ _ _ _ (fun _ => True)).
  { apply hoare_lift. destruct v; simpl; [done|]. right. by left. }
  intros read _. case_bool_decide; cbn [negb]; [by apply hoare_ret|]. apply hoare_throw.
  unfold walk_failure. destruct (hr_provenance read); simpl; auto.
Qed.

Lemma emit_item_spec wk e path :
  hoare (on_store I) walk_failure (emit_item db wk e path) (fun i => shows (path, e) i).
Proof.
  unfold emit_item. eapply hoare_bind; [apply hoare_charge_tree_entry; intros x Hx; left; by apply F_stop|].
  intros _ _. eapply hoare_bind; [apply entry_size_spec|]. intros size _. apply hoare_ret. done.
Qed.

(** The result of a walk that had [vs] left to visit: it added a prefix of the
    selected entries, all of them when it completed, and stopped at the limit
    only with the page full and more to come. *)
Definition walk_result (wk : Walker) (vs : list (bytes * OwnedTreeEntry)) (acc : list TreeItem)
  (r : Res WalkOutcome) (acc' : list TreeItem) : Prop :=
  exists items shown rest, acc' = acc ++ items /\ selected wk vs = shown ++ rest /\
    Forall2 shows shown items /\ (length acc' <= to_limit (w_opts wk))%nat /\
    match r with
    | Ok Complete => rest = []
    | Ok (Stopped l) => l = "limit"%string /\ length acc' = to_limit (w_opts wk) /\ rest <> []
    | Err e => walk_failure e
    end.

Lemma walk_result_skip wk v vs acc r acc' :
  should_emit wk v.2 v.1 = false -> walk_result wk vs acc r acc' -> walk_result wk (v :: vs) acc r acc'.
Proof.
  intros Hv (items & shown & rest & Ha & Hs & Hrest). exists items, shown, rest.
  unfold selected in *. rewrite filter_cons, decide_False by (by rewrite Hv). done.
Qed.

Lemma walk_result_emit wk v vs acc i r acc' :
  should_emit wk v.2 v.1 = true -> shows v i -> walk_result wk vs (acc ++ [i]) r acc' ->
  walk_result wk (v :: vs) acc r acc'.
Proof.
  intros Hv Hi (items & shown & rest & Ha & Hs & HF & Hrest). exists (i :: items), (v :: shown), rest.
  unfold selected in *. rewrite filter_cons, decide_True, Hs by done.
  rewrite <- app_assoc in Ha. split; [done|]. split; [done|]. split; [by constructor|done].
Qed.

Lemma walk_result_stop wk v vs acc r :
  (length acc <= to_limit (w_opts wk))%nat ->
  match r with
  | Ok (Stopped l) => l = "limit"%string /\ length acc = to_limit (w_opts wk) /\ should_emit wk v.2 v.1 = true
  | Ok Complete => False
  | Err e => walk_failure e
  end -> walk_result wk (v :: vs) acc r acc.
Proof.
  intros Hl Hr. exists [], [], (selected wk (v :: vs)). rewrite app_nil_r.
  split; [done|]. split; [done|]. split; [constructor|]. split; [done|]. destruct r as [[|l]|e]; try done.
  destruct Hr as (-> & Hlen & Hv). split; [done|]. split; [done|].
  unfold selected. by rewrite filter_cons, decide_True.
Qed.

(** The state of the stack after one entry: its children on top, if the walk
    descends. *)
Lemma visits_split wk f e es vs1 fs vs2 :
  fr_entries f = e :: es ->
  visits db c wk (fr_entries f) (fr_prefix f) (fr_depth f) vs1 -> stack_visits db c wk fs vs2 ->
  let path := join_path (fr_prefix f) (oe_name e) in
  exists vs', vs1 ++ vs2 = (path, e) :: vs' /\
    if should_descend wk e path (fr_depth f) then
      exists children, tree_of db c (oe_oid e) = Ok children /\
        stack_visits db c wk (mkFrame children path (N.min (fr_depth f + 1) u32_max)
                              :: mkFrame es (fr_prefix f) (fr_depth f) :: fs) vs'
    else stack_visits db c wk (mkFrame es (fr_prefix f) (fr_depth f) :: fs) vs'.
Proof.
  intros He Hv Hfs. rewrite He in Hv. cbv zeta. inversion Hv as [|? ? ? ? vs Hd Hvs|? ? ? ? children va vb Hd Ht Hva Hvb]; subst.
  - exists (vs ++ vs2). split; [done|]. rewrite Hd. by constructor.
  - exists (va ++ vb ++ vs2). split; [simpl; by rewrite <- app_assoc|].
    rewrite Hd. exists children. split; [done|]. constructor; [done|]. by constructor.
Qed.

Lemma walk_loop_spec fuel wk stack acc vs w :
  stack_visits db c wk stack vs -> (2 * length vs + length stack <= fuel)%nat -> I w.2 ->
  (length acc <= to_limit (w_opts wk))%nat ->
  match walk_loop db fuel wk stack acc w with
  | (r, acc', w') => walk_result wk vs acc r acc' /\ I w'.2
  end.
Proof.
  revert stack acc vs w. induction fuel as [|fuel IH]; intros stack acc vs w Hs Hf Hw Hl;
    (destruct stack as [|f fs];
      [inversion Hs; subst; cbn [walk_loop]; split; [|done]; exists [], [], []; rewrite app_nil_r;
       repeat split; try done; constructor|]).
  { simpl in Hf. lia. }
  cbn [walk_loop]. inversion Hs as [|? ? vs1 vs2 Hv1 Hv2]; subst.
  destruct (hoare_check I walk_failure ltac:(intros e He; left; by apply F_stop) w Hw) as [Hck Hw1].
  destruct (on_budget check w) as [[[]|e] w1]; cbn [fst snd outcome] in *.
  2: { split; [|done]. destruct (vs1 ++ vs2) as [|v vs'] eqn:Ev.
       - exists [], [], []. rewrite app_nil_r. repeat split; try done; constructor.
       - by apply walk_result_stop. }
  destruct (fr_entries f) as [|e es] eqn:Ees.
  { inversion Hv1; subst. rewrite app_nil_l in *. apply IH; [done| |done|done]. simpl in Hf. lia. }
  rewrite <- Ees in Hv1. destruct (visits_split _ _ _ _ _ _ _ Ees Hv1 Hv2) as (vs' & Hvs & Hnext).
  cbv zeta in *. rewrite Hvs. assert (length (vs1 ++ vs2) = S (length vs')) as Hlen by (by rewrite Hvs).
  set (path := join_path (fr_prefix f) (oe_name e)) in *.
  (* the continuation once the entry is dealt with *)
  assert (forall acc1 w2, I w2.2 -> (length acc1 <= to_limit (w_opts wk))%nat ->
    match (if should_descend wk e path (fr_depth f) then
             match read_tree_entries_for_walk db (oe_oid e) (to_recursive (w_opts wk)) w2 with
             | (Err err, w) => (Err err, acc1, w)
             | (Ok children, w) =>
                 walk_loop db fuel wk (mkFrame children path (N.min (fr_depth f + 1) u32_max)
                   :: mkFrame es (fr_prefix f) (fr_depth f) :: fs) acc1 w
             end
           else walk_loop db fuel wk (mkFrame es (fr_prefix f) (fr_depth f) :: fs) acc1 w2) with
    | (r, acc', w') => walk_result wk vs' acc1 r acc' /\ I w'.2
    end) as Hcont.
  { intros acc1 w2 Hw2 Hl1. destruct (should_descend wk e path (fr_depth f)).
    - destruct Hnext as (children & Ht & Hst).
      destruct (read_for_walk_spec _ (to_recursive (w_opts wk)) _ Ht w2 Hw2) as [Hr Hw3].
      destruct (read_tree_entries_for_walk _ _ _ w2) as [[ch|err] w3]; cbn [fst snd outcome] in *.
      + subst ch. apply IH; [done| |done|done]. simpl in *. lia.
      + split; [|done]. exists [], [], (selected wk vs'). rewrite app_nil_r. by repeat split.
    - apply IH; [done| |done|done]. simpl in *. lia. }
  destruct (should_emit wk e path) eqn:Eemit.
  2: { specialize (Hcont acc w1 Hw1 Hl). destruct (if should_descend _ _ _ _ then _ else _) as [[r acc'] w'].
       destruct Hcont as [Hr Hw']. split; [|done]. by apply walk_result_skip. }
  destruct (length acc =? to_limit (w_opts wk))%nat eqn:Efull.
  { apply Nat.eqb_eq in Efull. split; [|done]. by apply walk_result_stop. }
  apply Nat.eqb_neq in Efull. destruct (emit_item_spec wk e path w1 Hw1) as [Hi Hw2].
  destruct (emit_item db wk e path w1) as [[i|err] w2]; cbn [fst snd outcome] in *.
  - specialize (Hcont (acc ++ [i]) w2 Hw2). rewrite length_app in Hcont. specialize (Hcont ltac:(simpl; lia)).
    destruct (if should_descend _ _ _ _ then _ else _) as [[r acc'] w'].
    destruct Hcont as [Hr Hw']. split; [|done]. by eapply walk_result_emit.
  - split; [|done]. by apply walk_result_stop.
Qed.

End WalkSpec.

(* ------------------------------------------------------------------ *)
(** ** Traversal order of files is byte order *)

(** Git sorts a tree by name, a subtree's name ending in a slash. *)
Definition git_key (e : OwnedTreeEntry) : bytes :=
  oe_name e ++ (if bool_decide (oe_kind e = KTree) then [x2f] else []).
Definition git_lt (e1 e2 : OwnedTreeEntry) : Prop := bytes_lt (git_key e1) (git_key e2).
Definition name_ok (e : OwnedTreeEntry) : Prop :=
  oe_name e <> [] /\ Forall (fun b => beq x2f b = false) (oe_name e).
Lemma join_dir_prefix prefix name : join_path prefix name = dir_prefix prefix ++ name.
Proof. unfold join_path, dir_prefix. case_bool_decide; [done|]. by rewrite <- app_assoc. Qed.

Lemma dir_prefix_join prefix e :
  name_ok e -> oe_kind e = KTree -> dir_prefix (join_path prefix (oe_name e)) = dir_prefix prefix ++ git_key e.
Proof.
  intros [Hne _] Hk. rewrite join_dir_prefix. unfold dir_prefix at 1, git_key.
  rewrite (bool_decide_eq_true_2 (oe_kind e = KTree)) by done.
  rewrite bool_decide_eq_false_2; [by rewrite <- app_assoc|]. intros [_ E]%app_eq_nil. done.
Qed.

(** Slashes of a key come last. *)
Lemma git_key_slash e p x r : name_ok e -> git_key e = p ++ x2f :: x :: r -> False.
Proof.
  intros [_ Hs] E. unfold git_key in E.
  assert (exists q, oe_name e = p ++ x2f :: q) as [q Hq].
  { case_bool_decide; [|rewrite app_nil_r in E; eauto].
    destruct (exists_last (l := x :: r)) as (r' & y & Hr); [done|]. rewrite Hr in E.
    rewrite (app_comm_cons r' [y]), app_assoc in E. apply app_inj_tail in E as [E _]. eauto. }
  rewrite Hq in Hs. apply Forall_app in Hs as [_ Hs]. by apply Forall_cons in Hs as [Hs _].
Qed.

(** What two entries of a sorted tree hold is ordered as they are. *)
Lemma git_lt_paths e1 e2 r1 r2 :
  name_ok e2 -> git_lt e1 e2 -> (oe_kind e1 <> KTree -> r1 = []) ->
  bytes_lt (git_key e1 ++ r1) (git_key e2 ++ r2).
Proof.
  intros Hn Hlt Hr1. apply bytes_lt_inv in Hlt as [(x & r & E)|(p & x & y & ra & rb & -> & -> & Hxy)].
  - destruct (decide (oe_kind e1 = KTree)) as [Hk|Hk].
    + exfalso. unfold git_key in E at 2. rewrite bool_decide_eq_true_2, <- app_assoc in E by done.
      apply (git_key_slash e2 (oe_name e1) x r); [done|exact E].
    + rewrite (Hr1 Hk), app_nil_r, E, <- app_assoc. apply bytes_lt_prefix.
  - rewrite <- !app_assoc. by apply bytes_lt_part.
Qed.

Section Order.
Context `{GixObject, GixGlob} {T : Type} (db : ObjectDb T) (c : Oid -> ObjectReadResult).

(** Every tree of the store is in Git's order. *)
Definition trees_canonical : Prop :=
  forall oid es, tree_of db c oid = Ok es -> StronglySorted git_lt es.

Lemma owned_entry_name item e : owned_entry item = Ok e -> name_ok e.
Proof.
  unfold owned_entry. intros E. apply rbind_Ok in E as (te & _ & E). apply rbind_Ok in E as (u & Hv & E).
  apply rbind_Ok in E as (k & _ & [= <-]). unfold validate_tree_name in Hv.
  destruct (_ || _) eqn:Eb; [done|]. rewrite !orb_false_iff in Eb. destruct Eb as [[[[E1 _] E2] _] _].
  apply bool_decide_eq_false in E1. apply existsb_beq_false in E2. done.
Qed.

Lemma tree_of_names oid es : tree_of db c oid = Ok es -> Forall name_ok es.
Proof.
  unfold tree_of, entries_of_read, decode_owned_tree_entries. intros E.
  apply rbind_Ok in E as ([k p] & _ & E). case_bool_decide; [|done]. cbn [negb] in E.
  apply map_res_Ok in E. induction E as [|? ? ? ? Hx _ IH]; constructor; [|done]. by eapply owned_entry_name.
Qed.

(** A visited file lies at or under one of the directory's entries. *)
Lemma visits_origin wk es prefix depth vs v :
  visits db c wk es prefix depth vs -> Forall name_ok es -> v ∈ vs -> oe_kind v.2 <> KTree ->
  exists e rest, e ∈ es /\ v.1 = dir_prefix prefix ++ git_key e ++ rest /\ (oe_kind e <> KTree -> rest = []).
Proof.
  intros Hv. revert v.
  induction Hv as [|e es prefix depth vs _ _ IH|e es prefix depth children vs1 vs2 Hd Ht _ IH1 _ IH2];
    intros v Hn Hin Hk; [by apply not_elem_of_nil in Hin|..]; apply Forall_cons in Hn as [Hne Hn];
    apply elem_of_cons in Hin as [->|Hin].
  - exists e, []. split; [left|]. simpl in *. split; [|done].
    rewrite app_nil_r, join_dir_prefix. unfold git_key. by rewrite bool_decide_eq_false_2, app_nil_r by done.
  - destruct (IH v Hn Hin Hk) as (e' & rest & He' & Hp & Hr). exists e', rest. split; [by right|done].
  - simpl in Hk. unfold should_descend in Hd. rewrite bool_decide_eq_false_2 in Hd by done. done.
  - apply elem_of_app in Hin as [Hin|Hin].
    + destruct (IH1 v (tree_of_names _ _ Ht) Hin Hk) as (e' & rest & _ & Hp & _).
      assert (oe_kind e = KTree) as Hke.
      { unfold should_descend in Hd. by destruct (bool_decide_reflect (oe_kind e = KTree)). }
      exists e, (git_key e' ++ rest). split; [left|]. split; [|done].
      by rewrite Hp, dir_prefix_join, <- app_assoc.
    + destruct (IH2 v Hn Hin Hk) as (e' & rest & He' & Hp & Hr). exists e', rest. split; [by right|done].
Qed.

Definition files (vs : list (bytes * OwnedTreeEntry)) : list (bytes * OwnedTreeEntry) :=
  filter (fun v => oe_kind v.2 <> KTree) vs.

Lemma visits_after wk e es prefix depth vs r :
  visits db c wk es prefix depth vs -> Forall name_ok es -> Forall (git_lt e) es ->
  (oe_kind e <> KTree -> r = []) ->
  Forall (fun v => bytes_lt (dir_prefix prefix ++ git_key e ++ r) v.1) (files vs).
Proof.
  intros Hv Hn Hlt Hr. apply Forall_forall. intros v [Hk Hin]%list_elem_of_filter.
  destruct (visits_origin _ _ _ _ _ _ Hv Hn Hin Hk) as (e' & rest & He' & -> & Hrest).
  rewrite Forall_forall in Hn, Hlt. apply bytes_lt_app. apply git_lt_paths; [by apply Hn|by apply Hlt|done].
Qed.

Lemma visits_sorted wk es prefix depth vs :
  trees_canonical -> visits db c wk es prefix depth vs -> Forall name_ok es -> StronglySorted git_lt es ->
  StronglySorted (fun v w => bytes_lt v.1 w.1) (files vs).
Proof.
  intros Hcan Hv.
  induction Hv as [|e es prefix depth vs _ Hvs IH|e es prefix depth children vs1 vs2 Hd Ht Hv1 IH1 Hv2 IH2];
    intros Hn Hs; [constructor|..]; apply Forall_cons in Hn as [Hne Hn];
    apply StronglySorted_inv in Hs as [Hs Hlt]; unfold files in *; rewrite filter_cons.
  - case_decide as Hk; [|by apply IH]. constructor; [by apply IH|].
    pose proof (visits_after _ _ _ _ _ _ [] Hvs Hn Hlt (fun _ => eq_refl)) as Ha.
    eapply Forall_impl; [exact Ha|]. intros v. simpl in *. rewrite app_nil_r, join_dir_prefix. unfold git_key.
    by rewrite bool_decide_eq_false_2, app_nil_r by done.
  - assert (oe_kind e = KTree) as Hke.
    { unfold should_descend in Hd. by destruct (bool_decide_reflect (oe_kind e = KTree)). }
    rewrite decide_False by (simpl; intros Hne'; by apply Hne'). rewrite filter_app.
    apply StronglySorted_app_2; [|by apply IH1; [by eapply tree_of_names|by eapply Hcan]|by apply IH2].
    intros v w Hvin [Hkw Hw]%list_elem_of_filter.
    apply list_elem_of_filter in Hvin as [Hkv Hvin].
    destruct (visits_origin _ _ _ _ _ _ Hv1 (tree_of_names _ _ Ht) Hvin Hkv) as (e' & rest & _ & -> & _).
    rewrite dir_prefix_join, <- app_assoc by done.
    pose proof (visits_after _ e _ _ _ _ (git_key e' ++ rest) Hv2 Hn Hlt ltac:(done)) as Ha.
    rewrite Forall_forall in Ha. apply Ha. apply list_elem_of_filter. done.
Qed.

(** The same of a walk that descends everywhere. *)
Lemma under_origin es prefix vs v :
  under db c es prefix vs -> Forall name_ok es -> v ∈ vs -> oe_kind v.2 <> KTree ->
  exists e rest, e ∈ es /\ v.1 = dir_prefix prefix ++ git_key e ++ rest /\ (oe_kind e <> KTree -> rest = []).
Proof.
  intros Hv. revert v.
  induction Hv as [|e es prefix vs Hk _ IH|e es prefix children vs1 vs2 Hk Ht _ IH1 _ IH2];
    intros v Hn Hin Hkv; [by apply not_elem_of_nil in Hin|..]; apply Forall_cons in Hn as [Hne Hn];
    apply elem_of_cons in Hin as [->|Hin]; [| |done|].
  - exists e, []. split; [left|]. split; [|done].
    rewrite app_nil_r, join_dir_prefix. unfold git_key. by rewrite bool_decide_eq_false_2, app_nil_r by done.
  - destruct (IH v Hn Hin Hkv) as (e' & rest & He' & Hp & Hr). exists e', rest. split; [by right|done].
  - apply elem_of_app in Hin as [Hin|Hin].
    + destruct (IH1 v (tree_of_names _ _ Ht) Hin Hkv) as (e' & rest & _ & Hp & _).
      exists e, (git_key e' ++ rest). split; [left|]. split; [|done].
      by rewrite Hp, dir_prefix_join, <- app_assoc.
    + destruct (IH2 v Hn Hin Hkv) as (e' & rest & He' & Hp & Hr). exists e', rest. split; [by right|done].
Qed.

Lemma under_sorted es prefix vs :
  trees_canonical -> under db c es prefix vs -> Forall name_ok es -> StronglySorted git_lt es ->
  StronglySorted (fun v w => bytes_lt v.1 w.1) (files vs).
Proof.
  intros Hcan Hv.
  assert (forall e es prefix vs r, under db c es prefix vs -> Forall name_ok es -> Forall (git_lt e) es ->
            (oe_kind e <> KTree -> r = []) ->
            Forall (fun v => bytes_lt (dir_prefix prefix ++ git_key e ++ r) v.1) (files vs)) as Hafter.
  { clear. intros e es prefix vs r Hv Hn Hlt Hr. apply Forall_forall. intros v [Hk Hin]%list_elem_of_filter.
    destruct (under_origin _ _ _ _ Hv Hn Hin Hk) as (e' & rest & He' & -> & Hrest).
    rewrite Forall_forall in Hn, Hlt. apply bytes_lt_app. apply git_lt_paths; [by apply Hn|by apply Hlt|done]. }
  induction Hv as [|e es prefix vs Hk Hvs IH|e es prefix children vs1 vs2 Hk Ht Hv1 IH1 Hv2 IH2];
    intros Hn Hs; [constructor|..]; apply Forall_cons in Hn as [Hne Hn];
    apply StronglySorted_inv in Hs as [Hs Hlt]; unfold files in *; rewrite filter_cons.
  - rewrite decide_True by done. constructor; [by apply IH|].
    eapply Forall_impl; [apply (Hafter e es prefix vs []); done|]. intros v. rewrite app_nil_r, join_dir_prefix.
    unfold git_key. by rewrite bool_decide_eq_false_2, app_nil_r by done.
  - rewrite decide_False by (simpl; intros Hne'; by apply Hne'). rewrite filter_app.
    apply StronglySorted_app_2; [|by apply IH1; [by eapply tree_of_names|by eapply Hcan]|by apply IH2].
    intros v w [Hkv Hvin]%list_elem_of_filter Hw.
    destruct (under_origin _ _ _ _ Hv1 (tree_of_names _ _ Ht) Hvin Hkv) as (e' & rest & _ & -> & _).
    rewrite dir_prefix_join, <- app_assoc by done.
    pose proof (Hafter e _ _ _ (git_key e' ++ rest) Hv2 Hn Hlt ltac:(done)) as Ha.
    rewrite Forall_forall in Ha. by apply Ha.
Qed.

End Order.

(* ------------------------------------------------------------------ *)
(** ** Path resolution *)

Section Resolve.
Context `{Env, GixObject, GixGlob} {T : Type} (db : ObjectDb T) (c : Oid -> ObjectReadResult)
        (I : T -> Prop) (F : ErrorCode -> Prop).
Context `{!LawfulDb db c I F}.

(** [at_path tree segments e]: following the segments from [tree], always to
    the first entry of that name and through trees only, ends at [e]. *)
Inductive at_path : Oid -> list bytes -> OwnedTreeEntry -> Prop :=
| at_here tree es e name :
    tree_of db c tree = Ok es -> head (filter (fun e => oe_name e = name) es) = Some e ->
    at_path tree [name] e
| at_below tree es e name names e' :
    tree_of db c tree = Ok es -> head (filter (fun e => oe_name e = name) es) = Some e ->
    oe_kind e = KTree -> at_path (oe_oid e) names e' -> at_path tree (name :: names) e'.

Lemma at_path_nonempty tree e : ~ at_path tree [] e.
Proof. intros Hp. inversion Hp. Qed.

Lemma at_path_det tree names e e' : at_path tree names e -> at_path tree names e' -> e = e'.
Proof.
  intros Hp. revert e'. induction Hp as [tree es e name Ht Hh|tree es e name names e1 Ht Hh Hk Hp IH]; intros e' Hp';
    inversion Hp' as [? es' e0 ? Ht' Hh'|? es' e0 ? ? ? Ht' Hh' _ Hp2]; subst;
    try (by destruct (at_path_nonempty _ _ Hp2)); try (by destruct (at_path_nonempty _ _ Hp));
    rewrite Ht in Ht'; injection Ht' as <-; rewrite Hh in Hh'; injection Hh' as <-; [done|by apply IH].
Qed.

Definition path_codes : list ErrorCode := [InvalidPath; MissingObject; NotATree; MalformedObject].

Lemma kind_from_mode_Err mode e : kind_from_mode mode = Err e -> code e = MalformedObject.
Proof.
  unfold kind_from_mode. do 4 (destruct (_ =? _); [discriminate|]). intros E.
  exact (eq_sym (f_equal (fun r => match r with Err e => code e | Ok _ => MalformedObject end) E)).
Qed.

Lemma tree_iter_next_Err hk it it' e : tree_iter_next hk it = (Some (Err e), it') -> code e = MalformedObject.
Proof.
  unfold tree_iter_next. destruct (ti_failed it); [done|].
  destruct (_ && _); [by intros [= <- _]|].
  destruct (gix_tree_next hk (ti_remaining it)) as [[[er|] rest]|]; [..|done]; [|by intros [= <- _]].
  destruct (Oid_new (er_oid_kind er) (er_oid er)); cbn [map_err rbind]; [done|]. by intros [= <- _].
Qed.

Lemma decode_tree_Err payload hk e : Err e ∈ decode_tree payload hk -> code e = MalformedObject.
Proof.
  unfold decode_tree. generalize (mkTreeIter payload false). generalize (S (S (length payload))).
  intros n. induction n as [|n IH]; intros it; cbn [tree_items]; [by intros ?%not_elem_of_nil|].
  destruct (tree_iter_next hk it) as [[item|] it'] eqn:E; [|by intros ?%not_elem_of_nil].
  intros [<-|Hin]%elem_of_cons; [by eapply tree_iter_next_Err|by eapply IH].
Qed.

Lemma decode_owned_Err payload hk e : decode_owned_tree_entries payload hk = Err e -> code e = MalformedObject.
Proof.
  unfold decode_owned_tree_entries. intros E.
  assert (forall l, (forall e, Err e ∈ l -> code e = MalformedObject) ->
            map_res owned_entry l = Err e -> code e = MalformedObject) as Hl;
    [|by apply (Hl (decode_tree payload hk)); [intros; by eapply decode_tree_Err|]].
  clear E. intros l. induction l as [|x l IH]; intros Hx; cbn [map_res]; [done|].
  destruct (owned_entry x) as [y|ex] eqn:Eo; cbn [rbind].
  - destruct (map_res owned_entry l); cbn [rbind]; [done|]. intros [= <-]. apply IH; [|done].
    intros e' He'. apply Hx. by right.
  - intros [= <-]. unfold owned_entry in Eo. destruct x as [te|e']; cbn [rbind] in Eo.
    + unfold validate_tree_name in Eo. destruct (_ || _); cbn [rbind] in Eo; [by simplify_eq|].
      destruct (kind_from_mode (te_mode te)) eqn:Ek; cbn [rbind] in Eo; [done|]. simplify_eq.
      by eapply kind_from_mode_Err.
    + simplify_eq. apply Hx. left.
Qed.

Lemma tree_of_Err tree e : tree_of db c tree = Err e -> code e ∈ path_codes.
Proof.
  unfold tree_of, entries_of_read, path_codes. intros E.
  destruct (c tree) as [[k p]|]; cbn [ok_or rbind] in E; [|simplify_eq; set_solver].
  case_bool_decide; cbn [negb] in E; [|simplify_eq; set_solver].
  rewrite (decode_owned_Err _ _ _ E). set_solver.
Qed.

Lemma resolve_segments_spec (read : Oid -> DM T (list OwnedTreeEntry)) tree names :
  (forall oid, hoare (on_store I) (fun e => F (code e) \/ tree_of db c oid = Err e) (read oid)
                 (fun es => tree_of db c oid = Ok es)) ->
  hoare (on_store I) (fails F path_codes (forall e, ~ at_path tree names e))
    (resolve_segments read tree names)
    (fun r => exists e, at_path tree names e /\ r = Entry (mkResolved (oe_oid e) (oe_mode e) (oe_kind e))).
Proof.
  intros Hread. revert tree. induction names as [|name names IH]; intros tree; cbn [resolve_segments].
  { apply hoare_throw. right. split; [unfold path_codes; set_solver|]. intros e. apply at_path_nonempty. }
  eapply hoare_bind; [eapply hoare_conseq; [apply Hread| |intros es Hes; exact Hes]|].
  { intros e [He|He]; [by left|right]. split; [by eapply tree_of_Err|].
    intros x Hp. inversion Hp; congruence. }
  intros es Hes. destruct (head (filter _ es)) as [e|] eqn:Eh; cbn [ok_or].
  2: { eapply (hoare_bind _ _ _ _ (fun _ => False)); [|done]. apply hoare_lift. right.
       split; [unfold path_codes; set_solver|]. intros x Hp.
       inversion Hp as [? ? ? ? Ht' Hh'|? ? ? ? ? ? Ht' Hh']; subst; rewrite Hes in Ht'; simplify_eq; congruence. }
  eapply (hoare_bind _ _ _ _ (fun r => r = e)); [by apply hoare_lift|]. intros ? ->.
  destruct names as [|name' names].
  { apply hoare_ret. exists e. split; [exact (at_here tree es e name Hes Eh)|done]. }
  case_bool_decide as Hk; cbn [negb].
  - eapply hoare_conseq; [apply IH| |].
    + intros x [Hx|[Hx Hn]]; [by left|right]. split; [done|]. intros e' Hp.
      inversion Hp as [|? ? e0 ? ? ? Ht' Hh' _ Hp2]; subst. rewrite Hes in Ht'. injection Ht' as <-.
      rewrite Eh in Hh'. injection Hh' as <-. by eapply Hn.
    + intros r (e' & Hp & ->). exists e'. split; [|done].
      exact (at_below tree es e name (name' :: names) e' Hes Eh Hk Hp).
  - apply hoare_throw. right. split; [unfold path_codes; set_solver|]. intros e' Hp.
    inversion Hp as [|? ? e0 ? ? ? Ht' Hh' Hk' _]; subst. rewrite Hes in Ht'. injection Ht' as <-. congruence.
Qed.

Lemma read_tree_entries_spec oid :
  hoare (on_store I) (fun e => F (code e) \/ tree_of db c oid = Err e) (read_tree_entries db oid)
    (fun es => tree_of db c oid = Ok es).
Proof.
  unfold read_tree_entries. eapply hoare_bind.
  { eapply hoare_conseq; [apply law_find|intros e He; by left|intros v Hv; exact Hv]. }
  intros v ->. apply hoare_lift. unfold tree_of. destruct (entries_of_read db oid (c oid)); simpl; auto.
Qed.

Lemma read_tree_entries_graph_spec oid :
  hoare (on_store I) (fun e => F (code e) \/ tree_of db c oid = Err e) (read_tree_entries_graph db oid)
    (fun es => tree_of db c oid = Ok es).
Proof.
  unfold read_tree_entries_graph. eapply hoare_bind.
  { eapply hoare_conseq; [apply law_graph|intros e He; by left|intros v Hv; exact Hv]. }
  intros v ->. apply hoare_lift. unfold tree_of. destruct (entries_of_read db oid (c oid)); simpl; auto.
Qed.

(** What a path denotes in a snapshot. *)
Definition denotes (s : Snapshot) (path : bytes) (r : ResolvedPath) : Prop :=
  validate_path path = Ok tt /\
  if bool_decide (path = []) then r = RootTree (snap_tree_oid s)
  else exists e, at_path (snap_tree_oid s) (split_on is_slash path) e /\
                 r = Entry (mkResolved (oe_oid e) (oe_mode e) (oe_kind e)).

Lemma validate_segments_Err ss e : validate_segments ss = Err e -> code e = InvalidPath.
Proof.
  induction ss as [|s ss IH]; cbn [validate_segments]; [done|].
  destruct (_ || _); [by intros [= <-]|]. case_bool_decide; [by intros [= <-]|done].
Qed.

Lemma validate_path_Err path e : validate_path path = Err e -> code e = InvalidPath.
Proof.
  unfold validate_path. destruct (existsb _ path); [by intros [= <-]|].
  case_bool_decide; [done|]. apply validate_segments_Err.
Qed.

Lemma resolve_path_by_spec read s path :
  (forall oid, hoare (on_store I) (fun e => F (code e) \/ tree_of db c oid = Err e) (read oid)
                 (fun es => tree_of db c oid = Ok es)) ->
  hoare (on_store I) (fails F path_codes (forall r, ~ denotes s path r))
    (resolve_path_by read s path) (denotes s path).
Proof.
  intros Hread. unfold resolve_path_by, denotes. destruct (validate_path path) as [[]|e] eqn:Ev.
  2: { eapply (hoare_bind _ _ _ _ (fun _ => False)); [|done]. apply hoare_lift. right.
       rewrite (validate_path_Err _ _ Ev). split; [unfold path_codes; set_solver|]. naive_solver. }
  eapply (hoare_bind _ _ _ _ (fun _ => True)); [by apply hoare_lift|]. intros _ _.
  case_bool_decide; [by apply hoare_ret|].
  eapply hoare_conseq; [by apply resolve_segments_spec| |].
  - intros e [He|[He Hn]]; [by left|right]. split; [done|]. intros r [_ (x & Hx & _)]. by eapply Hn.
  - intros r Hr. done.
Qed.


End Resolve.

(* ------------------------------------------------------------------ *)
(** ** Listings and their pages *)

Definition walk_depth (opts : TreeOptions) : N :=
  if to_recursive opts then default u32_max (to_depth opts) else 1.
Definition walker_of (opts : TreeOptions) (resume : bytes) : Walker :=
  mkWalker opts (mkMatcher (to_pathspecs opts)) resume (walk_depth opts).
Definition set_cursor (cursor : option bytes) (opts : TreeOptions) : TreeOptions :=
  mkTreeOptions (to_path opts) (to_recursive opts) (to_depth opts) (to_types opts) (to_pathspecs opts)
    (to_include_size opts) (to_limit opts) cursor.

(** In a strictly sorted list, resuming after the last shown entry leaves the
    rest. *)
Lemma sorted_after_shown {A} (shown rest : list (bytes * A)) x :
  StronglySorted (fun v w => bytes_lt v.1 w.1) (shown ++ rest) -> last shown = Some x ->
  filter (fun v => bytes_ltb x.1 v.1 = true) (shown ++ rest) = rest.
Proof.
  intros Hs Hx. apply last_Some in Hx as [pre ->]. rewrite filter_app.
  rewrite filter_none, filter_all; [done|..].
  - intros y Hy. apply bytes_ltb_lt.
    apply (StronglySorted_app_1_elem_of _ _ _ x y Hs); [apply elem_of_app; right; left|done].
  - intros y Hy Hlt. apply bytes_ltb_lt in Hlt. apply elem_of_app in Hy as [Hy|Hy%list_elem_of_singleton].
    + apply (bytes_lt_irrefl x.1). transitivity y.1; [exact Hlt|]. rewrite <- app_assoc in Hs.
      apply (StronglySorted_app_1_elem_of _ _ _ y x Hs); [done|left].
    + subst. by apply (bytes_lt_irrefl x.1).
Qed.

Section Listing.
Context `{Env, GixObject, GixGlob} {T : Type} (db : ObjectDb T) (c : Oid -> ObjectReadResult)
        (I : T -> Prop) (F : ErrorCode -> Prop).
Context `{!LawfulDb db c I F}.
Hypothesis F_stop : forall e, budget_stop e -> F (code e).

Lemma walk_tree_spec wk oid prefix es vs fuel w :
  tree_of db c oid = Ok es -> visits db c wk es prefix 1 vs -> (2 * length vs + 1 <= fuel)%nat ->
  I w.2 ->
  match walk_tree db fuel wk oid prefix w with
  | (r, entries, w') => walk_result F wk vs [] r entries /\ I w'.2
  end.
Proof.
  intros Ht Hv Hf Hw. unfold walk_tree.
  destruct (read_for_walk_spec db c I F _ (to_recursive (w_opts wk)) _ Ht w Hw) as [Hr Hw1].
  destruct (read_tree_entries_for_walk _ _ _ w) as [[es'|e] w1]; cbn [fst snd outcome] in *.
  - subst es'. assert (stack_visits db c wk [mkFrame es prefix 1] (vs ++ [])) as Hst
      by (constructor; [done|constructor]). rewrite app_nil_r in Hst.
    apply (walk_loop_spec db c I F F_stop); [done|simpl; lia|done|simpl; lia].
  - split; [|done]. exists [], [], (selected wk vs). split; [done|]. split; [done|]. split; [constructor|].
    split; [simpl; lia|done].
Qed.

(** The iterative walk is the recursive pre-order traversal. Over trees
    that exist, with a step per visited entry and per directory, the walk
    never diverges: it returns the selected entries in pre-order, all of them
    when it completes, a full page of them when it stops at the limit with
    more to come, and a prefix of them when the store or the budget stops it. *)
Theorem tree_walk_is_preorder wk oid prefix es vs fuel w r entries w' :
  tree_of db c oid = Ok es -> visits db c wk es prefix 1 vs -> (2 * length vs + 1 <= fuel)%nat ->
  I w.2 -> walk_tree db fuel wk oid prefix w = (r, entries, w') ->
  walk_result F wk vs [] r entries.
Proof.
  intros Ht Hv Hf Hw E. pose proof (walk_tree_spec wk oid prefix es vs fuel w Ht Hv Hf Hw) as Hl.
  rewrite E in Hl. by destruct Hl.
Qed.

(** The tree a path lists. *)
Definition listed (s : Snapshot) (path : bytes) (tree : Oid) : Prop :=
  denotes db c s path (RootTree tree) \/
  exists mode, denotes db c s path (Entry (mkResolved tree mode KTree)).

Lemma denotes_det s path r r' : denotes db c s path r -> denotes db c s path r' -> r = r'.
Proof.
  intros [_ H1'] [_ H2']. case_bool_decide; [congruence|].
  destruct H1' as (e & He & ->), H2' as (e' & He' & ->). by rewrite (at_path_det _ _ _ _ _ _ He He').
Qed.

(** The tree [list_tree] ends up walking. *)
Definition tree_choice (r : ResolvedPath) : Res Oid :=
  match r with
  | RootTree oid => Ok oid
  | Entry entry => if bool_decide (re_kind entry = KTree) then Ok (re_oid entry)
                   else Err (Error_new NotATree "path does not resolve to a tree")
  end.

Lemma listed_choice s path tree r tree' :
  listed s path tree -> denotes db c s path r -> tree_choice r = Ok tree' -> tree' = tree.
Proof.
  intros [Hl|[mode Hl]] Hr Hc; rewrite (denotes_det _ _ _ _ Hr Hl) in Hc; unfold tree_choice in Hc.
  - congruence.
  - rewrite bool_decide_eq_true_2 in Hc by done. simpl in Hc. congruence.
Qed.

(** What a successful page is. *)
Definition page_shows (s : Snapshot) (opts : TreeOptions) (sel : list (bytes * OwnedTreeEntry))
  (page : TreePage) : Prop :=
  exists shown rest, sel = shown ++ rest /\ Forall2 shows shown (tp_entries page) /\
    (length (tp_entries page) <= to_limit opts)%nat /\
    if tp_truncated page then
      exists v, last shown = Some v /\
        tp_next_cursor page = Some (encode (tree_cursor s (option_fingerprint opts) v.1)) /\
        (length (encode (tree_cursor s (option_fingerprint opts) v.1)) <= MAX_CURSOR_BYTES)%nat
    else rest = [] /\ tp_next_cursor page = None.

Lemma Forall2_last {A B} (R : A -> B -> Prop) l k b :
  Forall2 R l k -> last k = Some b -> exists a, last l = Some a /\ R a b.
Proof.
  intros HF Hb. apply last_Some in Hb as [k' ->]. apply Forall2_app_inv_r in HF as (l1 & l2 & H1' & H2' & ->).
  apply Forall2_cons_inv_r in H2' as (a & l3 & Hab & H3' & ->). inversion H3'. subst.
  exists a. by rewrite last_snoc.
Qed.

Lemma finish_page_Ok s opts o entries w page w' sel :
  finish_page db s opts o entries w = (Ok page, w') ->
  (exists shown rest, sel = shown ++ rest /\ Forall2 shows shown entries /\
     (length entries <= to_limit opts)%nat /\ (o = Complete -> rest = [])) ->
  page_shows s opts sel page /\ w' = w.
Proof.
  intros E (shown & rest & Hs & HF & Hl & Hc). unfold finish_page in E. destruct o as [|l].
  - unfold sbind, sret in E. simpl in E. destruct w as [b t]. simplify_eq. split; [|done].
    exists shown, rest. simpl. rewrite Hc by done. done.
  - cbn [andb] in E. case_bool_decide; [done|]. destruct (last entries) as [i|] eqn:El; [|done].
    destruct (MAX_CURSOR_BYTES <? _)%nat eqn:Eb; [done|]. apply Nat.ltb_ge in Eb.
    unfold sbind, sret in E. destruct w as [b t]. simpl in E. simplify_eq. split; [|done].
    exists shown, rest. cbn [tp_entries tp_truncated tp_next_cursor]. split; [done|]. split; [done|]. split; [done|].
    destruct (Forall2_last _ _ _ _ HF El) as (v & Hv & Hi & _). exists v. rewrite <- Hi. done.
Qed.

(** The entries a listing walks over: none at depth zero. *)
Definition walked (opts : TreeOptions) (resume : bytes) (es : list OwnedTreeEntry)
  (vs : list (bytes * OwnedTreeEntry)) : Prop :=
  if walk_depth opts =? 0 then vs = [] else visits db c (walker_of opts resume) es (to_path opts) 1 vs.

Lemma walked_run opts resume es vs tree fuel w :
  tree_of db c tree = Ok es -> walked opts resume es vs -> (2 * length vs + 1 <= fuel)%nat -> I w.2 ->
  match (if walk_depth opts =? 0 then (Ok Complete, [], w)
         else walk_tree db fuel (walker_of opts resume) tree (to_path opts) w) with
  | (r, entries, w') => walk_result F (walker_of opts resume) vs [] r entries /\ I w'.2
  end.
Proof.
  unfold walked. intros Ht Hv Hf Hw. destruct (walk_depth opts =? 0).
  - subst vs. split; [|done]. exists [], [], []. repeat split; [constructor|simpl; lia].
  - by eapply walk_tree_spec.
Qed.

Lemma list_tree_page fuel s opts w page w' resume tree es vs :
  list_tree db fuel s opts w = (Ok page, w') -> I w.2 ->
  resume_position s opts = Ok resume -> listed s (to_path opts) tree -> tree_of db c tree = Ok es ->
  walked opts resume es vs -> (2 * length vs + 1 <= fuel)%nat ->
  page_shows s opts (selected (walker_of opts resume) vs) page /\ I w'.2.
Proof.
  intros E Hw Hres Hl Ht Hv Hf. unfold list_tree in E.
  apply sbind_Ok in E as ([] & w1 & E1 & E). unfold slift in E1. simplify_eq.
  apply sbind_Ok in E as ([] & w2 & E2 & E). unfold slift in E2. simplify_eq.
  destruct (to_limit opts =? 0)%nat; [done|].
  apply sbind_Ok in E as (resume' & w3 & E3 & E). unfold slift in E3. injection E3 as E3 <-.
  rewrite Hres in E3. injection E3 as <-.
  apply sbind_Ok in E as (r & w4 & E4 & E).
  destruct (hoare_run _ _ _ _ _ _ _ (resolve_path_by_spec db c I F _ s (to_path opts)
             (read_tree_entries_spec db c I F)) Hw E4) as [Hden Hw4]. simpl in Hden.
  apply sbind_Ok in E as (tree' & w5 & E5 & E). unfold slift in E5. injection E5 as E5 <-.
  rewrite (listed_choice _ _ _ _ _ Hl Hden E5) in E. fold (walk_depth opts) in E. fold (walker_of opts resume) in E.
  pose proof (walked_run opts resume es vs tree fuel w4 Ht Hv Hf Hw4) as Hwalk.
  destruct (if walk_depth opts =? 0 then _ else _) as [[o entries] w6]. destruct Hwalk as [Hwr Hw6].
  apply sbind_Ok in E as (o' & w7 & E7 & E). unfold slift in E7. injection E7 as E7 <-.
  destruct (finish_page_Ok _ _ _ _ _ _ _ (selected (walker_of opts resume) vs) E) as [Hp ->]; [|done].
  destruct Hwr as (items & shown & rest & -> & Hs & HF & Hle & Ho). exists shown, rest.
  split; [done|]. split; [done|]. split; [done|]. intros ->.
  destruct o as [[|l]|e]; simpl in E7; [done|done|]. repeat case_bool_decide; simpl in E7; done.
Qed.

(** The traversal does not depend on where a page resumes. *)
Lemma walked_resume opts cursor r es vs :
  walked opts [] es vs -> walked (set_cursor cursor opts) r es vs.
Proof.
  unfold walked. change (walk_depth (set_cursor cursor opts)) with (walk_depth opts).
  destruct (_ =? 0); [done|]. cbn [to_path set_cursor].
  induction 1; [constructor|by apply visit_leaf|by eapply visit_tree].
Qed.

Lemma selected_resume opts cursor r vs :
  selected (walker_of (set_cursor cursor opts) r) vs =
  filter (fun v => bool_decide (r = []) || bytes_ltb r v.1 = true) (selected (walker_of opts []) vs).
Proof.
  unfold selected. rewrite list_filter_filter. apply list_filter_iff. intros [p e]. unfold should_emit. simpl.
  rewrite !andb_true_iff. tauto.
Qed.

Lemma visits_path_nonempty wk es prefix depth vs v :
  visits db c wk es prefix depth vs -> Forall name_ok es -> v ∈ vs -> v.1 <> [].
Proof.
  intros Hv. revert v.
  induction Hv as [|e es prefix depth vs _ _ IH|e es prefix depth children vs1 vs2 _ Ht _ IH1 _ IH2];
    intros v Hn Hin; [by apply not_elem_of_nil in Hin|..]; apply Forall_cons in Hn as [[Hne _] Hn];
    (apply elem_of_cons in Hin as [->|Hin];
      [simpl; rewrite join_dir_prefix; by intros [_ E]%app_eq_nil|]).
  - by apply IH.
  - apply elem_of_app in Hin as [Hin|Hin]; [|by apply IH2]. apply IH1; [|done]. by eapply tree_of_names.
Qed.

Section Pages.
Context (s : Snapshot) (opts : TreeOptions).
Hypothesis commit_wf : Oid_wf (commit_oid s).

Lemma tree_cursor_resumes p r :
  (length (encode (tree_cursor s (option_fingerprint opts) p)) <= MAX_CURSOR_BYTES)%nat ->
  resume_position s (set_cursor (Some (encode (tree_cursor s (option_fingerprint opts) p))) opts) = Ok r -> r = p.
Proof.
  intros Hl E. unfold resume_position in E. cbn [to_cursor set_cursor] in E.
  change (tree_expected s (option_fingerprint (set_cursor _ opts)))
    with (expected_of (tree_cursor s (option_fingerprint opts) p)) in E.
  rewrite decode_encode in E.
  - cbn [rbind] in E. cbn [cur_generation tree_cursor negb bool_decide] in E.
    rewrite bool_decide_eq_true_2 in E by done. cbn [negb] in E.
    apply rbind_Ok in E as (u & _ & [= <-]). done.
  - destruct (length_encode_fields (tree_cursor s (option_fingerprint opts) p)) as [_ Hp].
    destruct commit_wf as [_ Hd]. unfold cursor_fits. cbn [tree_cursor cur_snapshot_digest cur_hash_kind
      cur_option_fingerprint cur_generation cur_position] in *.
    split_and!; [done|apply fnv1a_64_lt|by vm_compute| |done].
    unfold lenN, u16_max, MAX_CURSOR_BYTES in *. lia.
Qed.

(** A client that follows the cursors to the end, each page with a budget of
    its own; [None] when it does not reach the end. *)
Fixpoint list_tree_all (pages fuel : nat) (budgets : nat -> Budget) (cursor : option bytes) (t : T)
  : option (Res (list TreeItem)) :=
  match pages with
  | O => None
  | S pages =>
      match list_tree db fuel s (set_cursor cursor opts) (budgets pages, t) with
      | (Err e, _) => Some (Err e)
      | (Ok page, (_, t)) =>
          match tp_next_cursor page with
          | None => Some (Ok (tp_entries page))
          | Some next =>
              match list_tree_all pages fuel budgets (Some next) t with
              | Some (Ok items) => Some (Ok (tp_entries page ++ items))
              | r => r
              end
          end
      end
  end.

Context (tree : Oid) (es : list OwnedTreeEntry) (vs : list (bytes * OwnedTreeEntry)) (fuel : nat).
Hypothesis tree_listed : listed s (to_path opts) tree.
Hypothesis tree_read : tree_of db c tree = Ok es.
Hypothesis visited : walked opts [] es vs.
Hypothesis fuel_ok : (2 * length vs + 1 <= fuel)%nat.
Hypothesis paths_sorted :
  StronglySorted (fun v w => bytes_lt v.1 w.1) (selected (walker_of opts []) vs).

(** What is still to be listed after [resume]. *)
Definition remaining (resume : bytes) : list (bytes * OwnedTreeEntry) :=
  filter (fun v => bool_decide (resume = []) || bytes_ltb resume v.1 = true) (selected (walker_of opts []) vs).

Lemma remaining_after resume shown rest x :
  remaining resume = shown ++ rest -> last shown = Some x -> remaining x.1 = rest.
Proof.
  intros Hr Hx. assert (x ∈ remaining resume) as Hin.
  { rewrite Hr. apply elem_of_app. left. by eapply last_Some_elem_of. }
  unfold remaining in Hin. apply list_elem_of_filter in Hin as [Hrx Hin].
  assert (x.1 <> []) as Hne.
  { unfold selected in Hin. apply list_elem_of_filter in Hin as [_ Hin].
    pose proof visited as Hv. unfold walked in Hv.
    destruct (walk_depth opts =? 0); [by rewrite Hv in Hin; apply not_elem_of_nil in Hin|].
    eapply visits_path_nonempty; [exact Hv|by eapply tree_of_names|done]. }
  transitivity (filter (fun v => bytes_ltb x.1 v.1 = true) (remaining resume)).
  - unfold remaining. rewrite list_filter_filter. apply list_filter_iff. intros v.
    rewrite (bool_decide_eq_false_2 (x.1 = [])) by done. simpl. split; [|naive_solver].
    intros Hv. split; [done|]. destruct (bool_decide_reflect (resume = [])) as [|Hn]; [done|].
    simpl in *. apply bytes_ltb_lt. apply bytes_ltb_lt in Hrx, Hv. by transitivity x.1.
  - rewrite Hr. apply sorted_after_shown; [|done]. rewrite <- Hr. unfold remaining. by apply StronglySorted_filter.
Qed.

Lemma list_tree_all_spec pages budgets cursor resume t :
  I t -> (length (remaining resume) < pages)%nat ->
  (forall r, resume_position s (set_cursor cursor opts) = Ok r -> r = resume) ->
  exists r, list_tree_all pages fuel budgets cursor t = Some r /\
    forall items, r = Ok items -> Forall2 shows (remaining resume) items.
Proof.
  revert cursor resume t. induction pages as [|pages IH]; intros cursor resume t Ht Hp Hres; [lia|].
  cbn [list_tree_all].
  destruct (list_tree db fuel s (set_cursor cursor opts) (budgets pages, t)) as [[page|e] [b' t']] eqn:E.
  2: { eexists. split; [done|]. done. }
  assert (resume_position s (set_cursor cursor opts) = Ok resume) as Hres'.
  { unfold list_tree in E. apply sbind_Ok in E as (? & ? & _ & E). apply sbind_Ok in E as (? & ? & _ & E).
    case_match; [done|]. apply sbind_Ok in E as (r & ? & Er & _). unfold slift in Er. injection Er as Er _.
    by rewrite Er, (Hres _ Er). }
  destruct (list_tree_page fuel s (set_cursor cursor opts) (budgets pages, t) page (b', t') resume tree es vs)
    as [(shown & rest & Hs & HF & _ & Hm) Ht']; try done; [by apply walked_resume|].
  rewrite selected_resume in Hs. fold (remaining resume) in Hs. destruct (tp_truncated page).
  - destruct Hm as (v & Hv & Hc & Hle). rewrite Hc.
    change (option_fingerprint (set_cursor cursor opts)) with (option_fingerprint opts) in *.
    pose proof (remaining_after _ _ _ _ Hs Hv) as Hrem.
    destruct (IH (Some (encode (tree_cursor s (option_fingerprint opts) v.1))) v.1 t' Ht') as (r & -> & Hr).
    + rewrite Hrem. rewrite Hs, length_app in Hp.
      assert (length shown <> 0%nat); [|lia]. by destruct shown.
    + intros r Er. by apply (tree_cursor_resumes v.1).
    + destruct r as [items|e]; eexists; (split; [done|]); [|done]. intros items' [= <-].
      rewrite Hs. apply Forall2_app; [done|]. rewrite <- Hrem. by apply Hr.
  - destruct Hm as [-> ->]. eexists. split; [done|]. intros items [= <-]. by rewrite Hs, app_nil_r.
Qed.

End Pages.

Lemma selected_files wk vs :
  filter_contains (to_types (w_opts wk)) KTree = false -> selected wk (files vs) = selected wk vs.
Proof.
  intros Hf. unfold selected, files. rewrite list_filter_filter. apply list_filter_iff. intros [p e]. simpl.
  split; [naive_solver|]. intros He. split; [done|]. intros Hk. unfold should_emit in He. by rewrite Hk, Hf in He.
Qed.

(** *** The pruned walk finds what the query asks for *)

Lemma contains_testbit f kind : filter_contains f kind = N.testbit f (type_bit kind).
Proof.
  unfold filter_contains.
  assert (forall k, negb (N.land f (2 ^ k) =? 0) = N.testbit f k) as Hbit.
  { intros k. destruct (N.eqb_spec (N.land f (2 ^ k)) 0) as [E|E]; cbn [negb].
    - apply (f_equal (fun n => N.testbit n k)) in E. rewrite N.land_spec, N.pow2_bits_true, andb_true_r in E.
      by rewrite E, N.bits_0.
    - destruct (N.testbit f k) eqn:Ek; [done|]. destruct E. apply N.bits_inj. intros j.
      rewrite N.land_spec, N.pow2_bits_eqb, N.bits_0. destruct (N.eqb_spec k j) as [->|]; [by rewrite Ek|].
      apply andb_false_r. }
  destruct kind; [apply (Hbit 0)|apply (Hbit 1)|apply (Hbit 2)|apply (Hbit 3)].
Qed.

Lemma relative_to_scope_drop path scope : relative_to_scope path scope = drop (length (dir_prefix scope)) path.
Proof.
  unfold relative_to_scope, dir_prefix. case_bool_decide; [done|]. by rewrite length_app.
Qed.

Lemma emit_wanted opts v : should_emit (walker_of opts []) v.2 v.1 = true <-> wanted opts v.
Proof.
  unfold should_emit, wanted. cbn [walker_of w_opts w_matcher w_resume].
  rewrite bool_decide_eq_true_2, orb_true_l, andb_true_r, andb_true_iff by done.
  by rewrite contains_testbit, matcher_selects, relative_to_scope_drop.
Qed.

(** What a listing holds lies below its directory. *)
Lemma listing_paths levels es prefix vs v :
  listing db c levels es prefix vs -> v ∈ vs -> exists rest, v.1 = dir_prefix prefix ++ rest.
Proof.
  intros Hl. induction Hl as [| |levels e es prefix vs _ _ _ IH|levels e es prefix ch vs1 vs2 _ _ _ _ _ IH1 _ IH2];
    intros Hv; [by apply not_elem_of_nil in Hv..| |];
    (apply elem_of_cons in Hv as [->|Hv]; [eexists; simpl; by rewrite join_dir_prefix|]).
  - by apply IH.
  - apply elem_of_app in Hv as [Hv|Hv]; [|by apply IH2]. destruct (IH1 Hv) as [rest ->].
    unfold dir_prefix at 1. rewrite join_dir_prefix. case_bool_decide as E.
    + apply app_eq_nil in E as [-> _]. by exists rest.
    + rewrite <- !app_assoc. by eexists.
Qed.

(** A directory the pruning test rejects holds nothing the query asks for. *)
Lemma pruned_unwanted opts e prefix rest0 levels children vs :
  Forall escape_free (to_pathspecs opts) -> name_ok e -> prefix = dir_prefix (to_path opts) ++ rest0 ->
  may_match_descendant (mkMatcher (to_pathspecs opts)) (relative_to_scope (prefix ++ oe_name e) (to_path opts)) = false ->
  listing db c levels children (prefix ++ oe_name e) vs ->
  filter (wanted opts) vs = [].
Proof.
  intros Hesc [Hne _] -> Hprune Hl. apply filter_none. intros v Hv [_ Hsel].
  destruct (listing_paths _ _ _ _ _ Hl Hv) as [rest Hp]. apply (matcher_selects (mkMatcher (to_pathspecs opts))) in Hsel.
  rewrite (pruning_is_conservative (mkMatcher (to_pathspecs opts)) _ _ Hesc Hsel) in Hprune; [done|].
  rewrite relative_to_scope_drop, Hp. unfold dir_prefix at 2.
  rewrite bool_decide_eq_false_2 by (intros [_ E]%app_eq_nil; done).
  rewrite <- !app_assoc, !drop_app_length. exists rest. by rewrite <- !app_assoc.
Qed.

(** The pruned walk of a listing visits a part of it that holds all the query
    asks for. [depth] is the level of the entries, the listing has the levels
    from there to the walk's limit. *)
Lemma listing_walked opts levels es prefix vs depth rest0 :
  Forall escape_free (to_pathspecs opts) -> walk_depth opts <= u32_max -> 0 < depth ->
  listing db c levels es prefix vs -> Forall name_ok es -> levels <> 0 -> depth + levels = walk_depth opts + 1 ->
  dir_prefix prefix = dir_prefix (to_path opts) ++ rest0 ->
  exists ws, visits db c (walker_of opts []) es prefix depth ws /\ (length ws <= length vs)%nat /\
    filter (wanted opts) ws = filter (wanted opts) vs.
Proof.
  intros Hesc Hmax Hdepth Hl. revert depth rest0 Hdepth.
  induction Hl as [| |levels e es prefix vs Hz Hk Hl IH|levels e es prefix ch vs1 vs2 Hz Hk Hone Ht Hl1 IH1 Hl2 IH2];
    intros depth rest0 Hdepth Hn Hlev Hsum Hpre; [done|by exists []; repeat split; [constructor|]| |];
    apply Forall_cons in Hn as [Hne Hn].
  - destruct (IH depth rest0) as (ws & Hws & Hlen & Hsel); try done.
    exists ((join_path prefix (oe_name e), e) :: ws). split_and!; [|simpl; lia|rewrite !filter_cons; by rewrite Hsel].
    apply visit_leaf; [|done]. unfold should_descend. cbn [walker_of w_opts w_max_depth].
    destruct Hk as [Hk| ->]; [by rewrite bool_decide_eq_false_2|].
    rewrite (proj2 (N.ltb_ge depth (walk_depth opts))) by lia. by rewrite andb_false_r.
  - destruct (IH2 depth rest0) as (ws2 & Hws2 & Hlen2 & Hsel2); try done.
    destruct (should_descend (walker_of opts []) e (join_path prefix (oe_name e)) depth) eqn:Ed.
    + destruct (IH1 (depth + 1) (rest0 ++ git_key e)) as (ws1 & Hws1 & Hlen1 & Hsel1);
        [lia|by eapply tree_of_names|lia|lia|by rewrite dir_prefix_join, Hpre, <- app_assoc|].
      exists ((join_path prefix (oe_name e), e) :: ws1 ++ ws2). split_and!.
      * eapply visit_tree; [done|done| |done]. by replace (N.min (depth + 1) u32_max) with (depth + 1) by lia.
      * simpl. rewrite !length_app. lia.
      * rewrite !filter_cons, !filter_app, Hsel1, Hsel2. done.
    + exists ((join_path prefix (oe_name e), e) :: ws2). split_and!; [by apply visit_leaf| |].
      * simpl. rewrite length_app. lia.
      * rewrite !filter_cons, filter_app, Hsel2. rewrite join_dir_prefix in *.
        rewrite (fun Hp => pruned_unwanted opts e _ rest0 _ _ _ Hesc Hne Hpre Hp Hl1); [done|].
        unfold should_descend in Ed. cbn [walker_of w_opts w_max_depth w_matcher] in Ed.
        rewrite bool_decide_eq_true_2, (proj2 (N.ltb_lt depth (walk_depth opts))) in Ed by (done || lia).
        assert (to_recursive opts = true) as Hrec; [|by rewrite Hrec in Ed].
        unfold walk_depth in Hsum. destruct (to_recursive opts); [done|]. lia.
Qed.

Lemma listing_run opts es vs :
  Forall escape_free (to_pathspecs opts) -> walk_depth opts <= u32_max -> Forall name_ok es ->
  listing db c (walk_depth opts) es (to_path opts) vs ->
  exists ws, walked opts [] es ws /\ (length ws <= length vs)%nat /\
    filter (wanted opts) ws = filter (wanted opts) vs.
Proof.
  intros Hesc Hmax Hn Hl. unfold walked. destruct (N.eqb_spec (walk_depth opts) 0) as [Ez|Ez].
  - exists []. assert (vs = []) as -> by (rewrite Ez in Hl; by inversion Hl). done.
  - eapply (listing_walked opts _ es (to_path opts) vs 1 []); try done; [lia|]. by rewrite app_nil_r.
Qed.

Lemma list_filter_emit opts vs : selected (walker_of opts []) vs = filter (wanted opts) vs.
Proof. apply list_filter_iff. intros v. apply emit_wanted. Qed.

(** C27. Paged listings without directories are complete. Take the full
    listing of the asked directory down to the asked depth, a [u32], nothing at
    depth zero, with all its trees readable and in Git's order. For a query that
    does not select directories and whose glob pathspecs have no escape before
    their first wildcard, a client that follows the cursors, with any page size and
    budgets, reaches the end within one page per listed entry, and unless some
    call fails it has received exactly the listed entries of the asked types
    whose path below the directory some pathspec selects, each once and in
    order, although the walk prunes directories. *)
Theorem tree_pages_cover_files s opts tree es vs fuel pages budgets t :
  Oid_wf (commit_oid s) -> trees_canonical db c -> N.testbit (to_types opts) (type_bit KTree) = false ->
  Forall escape_free (to_pathspecs opts) -> walk_depth opts <= u32_max ->
  listed s (to_path opts) tree -> tree_of db c tree = Ok es ->
  listing db c (walk_depth opts) es (to_path opts) vs -> (2 * length vs + 1 <= fuel)%nat ->
  (length vs < pages)%nat -> I t ->
  exists r, list_tree_all s opts pages fuel budgets None t = Some r /\
    forall items, r = Ok items -> Forall2 shows (filter (wanted opts) vs) items.
Proof.
  intros Hwf Hcan Hty Hesc Hmax Hl Ht Hv Hf Hp HI.
  destruct (listing_run opts es vs Hesc Hmax (tree_of_names _ _ _ _ Ht) Hv) as (ws & Hws & Hlen & Hsel).
  rewrite <- Hsel, <- list_filter_emit.
  assert (StronglySorted (fun v w => bytes_lt v.1 w.1) (selected (walker_of opts []) ws)) as Hsort.
  { rewrite <- selected_files by (by rewrite contains_testbit). apply StronglySorted_filter. unfold walked in Hws.
    destruct (walk_depth opts =? 0); [subst ws; constructor|].
    eapply visits_sorted; [done|exact Hws|by eapply tree_of_names|by eapply Hcan]. }
  assert (remaining opts ws [] = selected (walker_of opts []) ws) as Hall by (by apply filter_all).
  rewrite <- Hall. apply (list_tree_all_spec s opts Hwf tree es ws fuel Hl Ht Hws ltac:(lia) Hsort); [done| |].
  - rewrite Hall. assert (length (selected (walker_of opts []) ws) <= length ws)%nat by apply length_filter. lia.
  - unfold resume_position. simpl. congruence.
Qed.

End Listing.

(* ------------------------------------------------------------------ *)
(** ** A repository for the examples *)

(** [a.txt], [a/b] and [z], in Git's order. *)
Definition tree_line (mode name : string) (oid : Oid) : bytes :=
  bs mode ++ [x20] ++ bs name ++ [x00] ++ as_bytes oid.
Definition demo_root : bytes :=
  tree_line "100644" "a.txt" (sample_id x11) ++ tree_line "40000" "a" (sample_id x02)
  ++ tree_line "100644" "z" (sample_id x13).
Definition demo_sub : bytes := tree_line "100644" "b" (sample_id x12).
Definition demo_repo : StaticOdb := mkStatic Sha1
  {[ sample_id x01 := (Tree, demo_root); sample_id x02 := (Tree, demo_sub) ]}.
Definition demo_db : ObjectDb unit := @static_db quiet unit demo_repo.
Definition demo_snapshot : Snapshot := mkSnapshot (sample_id x09) (sample_id x01).
Definition demo_options (types : TypeFilter) (limit : nat) : TreeOptions :=
  mkTreeOptions [] true None types [] false limit None.

Definition demo_pages (types : TypeFilter) (limit : nat) : option (list bytes) :=
  match @list_tree_all quiet simple_gix simple_glob unit demo_db demo_snapshot (demo_options types limit)
          10 20 (fun _ => Budget_new BudgetLimits_default None) None tt with
  | Some (Ok items) => Some (ti_path <$> items)
  | _ => None
  end.

(** With directories selected, paging can lose one. Here the traversal visits
    [a.txt] before the directory [a], as Git orders them, but a cursor resumes
    at paths greater than its position in plain byte order, and [a] is smaller
    than [a.txt]: in one page the directory is listed, with pages of one entry
    it never is, although the design document resumes by strictly greater
    traversal order. *)
Example paging_loses_a_directory :
  demo_pages TypeFilter_ALL 10 = Some [bs "a.txt"; bs "a"; bs "a/b"; bs "z"] /\
  demo_pages TypeFilter_ALL 1 = Some [bs "a.txt"; bs "a/b"; bs "z"].
Proof. split; vm_compute; reflexivity. Qed.

Definition demo_walker : Walker := walker_of (demo_options 13 2) [].
Definition entry_atxt : OwnedTreeEntry := mkOwned 33188 (bs "a.txt") (sample_id x11) KBlob.
Definition entry_a : OwnedTreeEntry := mkOwned 16384 (bs "a") (sample_id x02) KTree.
Definition entry_b : OwnedTreeEntry := mkOwned 33188 (bs "b") (sample_id x12) KBlob.
Definition entry_z : OwnedTreeEntry := mkOwned 33188 (bs "z") (sample_id x13) KBlob.
Definition demo_visits : list (bytes * OwnedTreeEntry) :=
  [(bs "a.txt", entry_atxt); (bs "a", entry_a); (bs "a/b", entry_b); (bs "z", entry_z)].

Lemma demo_tree_root :
  @tree_of simple_gix unit demo_db (static_contents demo_repo) (sample_id x01)
  = Ok [entry_atxt; entry_a; entry_z].
Proof. vm_compute. reflexivity. Qed.

Lemma demo_tree_sub :
  @tree_of simple_gix unit demo_db (static_contents demo_repo) (sample_id x02) = Ok [entry_b].
Proof. vm_compute. reflexivity. Qed.

Lemma demo_visited :
  @visits simple_gix unit demo_db (static_contents demo_repo) demo_walker
    [entry_atxt; entry_a; entry_z] [] 1 demo_visits.
Proof.
  apply (visit_leaf _ _ demo_walker entry_atxt); [reflexivity|].
  apply (visit_tree _ _ demo_walker entry_a _ [] 1 [entry_b] [(bs "a/b", entry_b)] [(bs "z", entry_z)]);
    [reflexivity|apply demo_tree_sub| |].
  - apply (visit_leaf _ _ demo_walker entry_b); [reflexivity|constructor].
  - apply (visit_leaf _ _ demo_walker entry_z); [reflexivity|constructor].
Qed.

Lemma tree_walk_is_preorder_witness :
  @walk_result simple_glob plain_failure demo_walker demo_visits []
    (fst (fst (@walk_tree quiet simple_gix simple_glob unit demo_db 20 demo_walker (sample_id x01) [] fresh_world)))
    (snd (fst (@walk_tree quiet simple_gix simple_glob unit demo_db 20 demo_walker (sample_id x01) [] fresh_world))).
Proof.
  destruct (@walk_tree quiet simple_gix simple_glob unit demo_db 20 demo_walker (sample_id x01) [] fresh_world)
    as [[r entries] w'] eqn:E.
  apply (@tree_walk_is_preorder quiet simple_gix simple_glob unit demo_db (static_contents demo_repo) (fun _ => True)
           plain_failure _ plain_stop demo_walker (sample_id x01) [] [entry_atxt; entry_a; entry_z]
           demo_visits 20 fresh_world r entries w'); [apply demo_tree_root|apply demo_visited| |done|exact E].
  simpl. lia.
Defined.


Lemma demo_canonical : @trees_canonical simple_gix unit demo_db (static_contents demo_repo).
Proof.
  intros oid es Ht. destruct (decide (oid = sample_id x01)) as [->|H1].
  { rewrite demo_tree_root in Ht. injection Ht as <-.
    repeat (constructor; [|repeat constructor; vm_compute; reflexivity]). constructor. }
  destruct (decide (oid = sample_id x02)) as [->|H2].
  { rewrite demo_tree_sub in Ht. injection Ht as <-. repeat constructor. }
  exfalso. unfold tree_of, static_contents, demo_repo in Ht. simpl in Ht.
  rewrite lookup_insert_ne, lookup_singleton_ne in Ht by done. done.
Qed.

Lemma demo_listed :
  @listing simple_gix unit demo_db (static_contents demo_repo) u32_max [entry_atxt; entry_a; entry_z] [] demo_visits.
Proof.
  apply (listing_leaf _ _ u32_max entry_atxt); [done|by left|].
  apply (listing_tree _ _ u32_max entry_a _ [] [entry_b] [(bs "a/b", entry_b)] [(bs "z", entry_z)]);
    [done|done|done|apply demo_tree_sub| |].
  - apply (listing_leaf _ _ (u32_max - 1) entry_b); [done|by left|constructor].
  - apply (listing_leaf _ _ u32_max entry_z); [done|by left|constructor].
Qed.

(** Files below [a] only: the walk prunes nothing it needs. *)
Definition demo_query : TreeOptions := mkTreeOptions [] true None 13 [bs "a/*"] false 2 None.

Lemma tree_pages_cover_files_witness :
  exists r, @list_tree_all quiet simple_gix simple_glob unit demo_db demo_snapshot demo_query 5 20
              (fun _ => Budget_new BudgetLimits_default None) None tt = Some r /\
    forall items, r = Ok items -> Forall2 shows (filter (@wanted simple_glob demo_query) demo_visits) items.
Proof.
  apply (@tree_pages_cover_files quiet simple_gix simple_glob unit demo_db (static_contents demo_repo)
           (fun _ => True) plain_failure _ plain_stop demo_snapshot demo_query (sample_id x01)
           [entry_atxt; entry_a; entry_z] demo_visits 20 5).
  - split; vm_compute; reflexivity.
  - apply demo_canonical.
  - reflexivity.
  - constructor; [|constructor]. intros _. vm_compute. repeat constructor.
  - vm_compute. discriminate.
  - left. split; reflexivity.
  - apply demo_tree_root.
  - apply demo_listed.
  - simpl. lia.
  - simpl. lia.
  - done.
Defined.
