(* ===== verification/File.v ===== *)
(** * Bounded file reads ([file.rs])

    Reading one non-tree path: the byte cap, the line range, the binary and
    text classification and the Git LFS pointer recognition. The reference
    definition of a line is a piece of [split_inclusive]; the theorems relate
    the index arithmetic of the slicing code to it. *)

From Stdlib Require Import NArith ZArith Lia Strings.Byte Strings.String.
From stdpp Require Import prelude gmap strings list pretty sorting.
From S2P Require Import Prelude Errors Objects Budget Odb Cursor Decode Snapshot Pathspec Tree.

Open Scope N_scope.

Definition BINARY_PROBE_BYTES : nat := 8000.

(** [FileOptions], [FileKind], [LfsPointer], [FileRead] and [SlicedPayload]. *)
Record FileOptions : Type := mkFileOptions {
  fo_lines : option (N * N);
  fo_max_bytes : N
}.
Definition FileOptions_default : FileOptions := mkFileOptions None 256000.

Inductive FileKind : Type :=
| FText
| FBinary
| FSymlink
| FGitlink.

Record LfsPointer : Type := mkLfsPointer {
  lfs_oid : bytes;
  lfs_size : N
}.

Record FileRead : Type := mkFileRead {
  fr_path : bytes;
  fr_blob_oid : Oid;
  fr_mode : N;
  fr_kind : FileKind;
  fr_data : bytes;
  fr_start_line : option N;
  fr_end_line : option N;
  fr_total_lines : option N;
  fr_truncated : bool;
  fr_lfs_pointer : option LfsPointer;
  fr_stats : QueryStats
}.

Record SlicedPayload : Type := mkSliced {
  sp_data : bytes;
  sp_start_line : option N;
  sp_end_line : option N;
  sp_total_lines : option N;
  sp_truncated : bool;
  sp_stopped_by : option string
}.

Definition missing_blob (oid : Oid) : Error :=
  Error_new MissingObject ("blob object " ++ oid_str oid ++ " is missing from the object store").
Definition too_many_lines : Error :=
  Error_new ResultTooLarge "file contains more lines than the result format can represent".

(** The newline test shared by the scans. *)
Definition is_newline (b : byte) : bool := beq b x0a.

(** [u32::try_from(usize)]. *)
Definition to_u32 (n : nat) : Res N :=
  if u32_max <? N.of_nat n then Err too_many_lines else Ok (N.of_nat n).

(** [line_count]. *)
Definition payload_line_count (l : bytes) : Res N :=
  to_u32 (length (filter (fun b => is_newline b = true) l)
          + (if negb (bool_decide (l = [])) && negb (ends_with l [x0a]) then 1 else 0)).

(** [line_spans]: the loop over the enumerated bytes, then the last line. *)
Fixpoint span_loop (l : bytes) (index start : nat) : list (nat * nat) * nat :=
  match l with
  | [] => ([], start)
  | b :: l =>
      if is_newline b then
        let '(spans, start') := span_loop l (index + 1) (index + 1) in
        ((start, (index + 1)%nat) :: spans, start')
      else span_loop l (index + 1) start
  end.
Definition line_spans (l : bytes) : list (nat * nat) :=
  let '(spans, start) := span_loop l 0 0 in
  if (start <? length l)%nat then spans ++ [(start, length l)] else spans.

Definition slice_of (l : bytes) (s e : nat) : bytes := take (e - s) (drop s l).

(** The loop of [slice_payload] over the spans of a capped scan. *)
Fixpoint range_loop (scanned : bytes) (partial : bool) (count : nat) (rs re : N)
  (spans : list (nat * nat)) (index : nat) (data : bytes) (start_line end_line : option N)
  : Res (bytes * option N * option N) :=
  match spans with
  | [] => Ok (data, start_line, end_line)
  | (s, e) :: spans =>
      let? line := to_u32 (index + 1) in
      if (line <? rs) || (re <? line) then
        range_loop scanned partial count rs re spans (index + 1) data start_line end_line
      else
        let incomplete := partial && (index + 1 =? count)%nat in
        if incomplete && bool_decide (is_Some start_line) then Ok (data, start_line, end_line)
        else
          let data := data ++ slice_of scanned s e in
          let start_line := Some (default line start_line) in
          let end_line := Some line in
          if incomplete then Ok (data, start_line, end_line)
          else range_loop scanned partial count rs re spans (index + 1) data start_line end_line
  end.

(** [slice_payload], one definition per branch. *)
Definition slice_whole (payload : bytes) (scan_len : nat) (capped : bool) : Res SlicedPayload :=
  let scanned := take scan_len payload in
  let returned_len :=
    if capped && negb (bool_decide (scanned = [])) && negb (ends_with scanned [x0a]) then
      match rposition is_newline scanned with
      | Some last_newline => (last_newline + 1)%nat
      | None => length scanned
      end
    else length scanned in
  let? total_lines := (if capped then Ok None
                       else let? n := payload_line_count payload in Ok (Some n)) in
  Ok (mkSliced (take returned_len scanned) None None total_lines capped
        (if capped then Some "max_bytes"%string else None)).

Definition slice_lines (payload : bytes) (requested_start requested_end : N) : Res SlicedPayload :=
  let spans := line_spans payload in
  if bool_decide (spans = []) then Ok (mkSliced [] None None (Some 0) false None)
  else
    let? total := to_u32 (length spans) in
    if total <? requested_start then Ok (mkSliced [] None None (Some total) false None)
    else
      let start := requested_start in
      let end_ := N.min requested_end total in
      match spans !! N.to_nat (start - 1), spans !! N.to_nat (end_ - 1) with
      | Some (first, _), Some (_, last) =>
          Ok (mkSliced (slice_of payload first last) (Some start) (Some end_) (Some total) false None)
      | _, _ => Err (Error_new InternalError "panic")
      end.

Definition slice_capped_lines (payload : bytes) (scan_len : nat) (requested_start requested_end : N)
  : Res SlicedPayload :=
  let scanned := take scan_len payload in
  let spans := line_spans scanned in
  let last_is_partial := negb (bool_decide (scanned = [])) && negb (ends_with scanned [x0a]) in
  let complete_lines := (length spans - (if last_is_partial then 1 else 0))%nat in
  let range_completed := requested_end <=? N.of_nat complete_lines in
  let? found := range_loop scanned last_is_partial (length spans) requested_start requested_end
                  spans 0 [] None None in
  let '(data, start_line, end_line) := found in
  Ok (mkSliced data start_line end_line None (negb range_completed)
        (if range_completed then None else Some "max_bytes"%string)).

Definition slice_payload (payload : bytes) (opts : FileOptions) : Res SlicedPayload :=
  let scan_len := N.to_nat (N.min (lenN payload) (fo_max_bytes opts)) in
  let capped := (scan_len <? length payload)%nat in
  match fo_lines opts with
  | None => slice_whole payload scan_len capped
  | Some (requested_start, requested_end) =>
      if capped then slice_capped_lines payload scan_len requested_start requested_end
      else slice_lines payload requested_start requested_end
  end.

(** [std::str::from_utf8]: the well-formed byte sequences of UTF-8, with the
    range of the second byte of each leading byte. *)
Definition in_range (lo hi : N) (b : byte) : bool := (lo <=? byteN b) && (byteN b <=? hi).
Definition continuation : byte -> bool := in_range 128 191.
Fixpoint utf8_valid (l : bytes) : bool :=
  match l with
  | [] => true
  | b :: l =>
      if in_range 0 127 b then utf8_valid l
      else if in_range 194 223 b then
        match l with c1 :: l => continuation c1 && utf8_valid l | _ => false end
      else if in_range 224 239 b then
        match l with
        | c1 :: c2 :: l =>
            in_range (if byteN b =? 224 then 160 else 128) (if byteN b =? 237 then 159 else 191) c1
            && continuation c2 && utf8_valid l
        | _ => false
        end
      else if in_range 240 244 b then
        match l with
        | c1 :: c2 :: c3 :: l =>
            in_range (if byteN b =? 240 then 144 else 128) (if byteN b =? 244 then 143 else 191) c1
            && continuation c2 && continuation c3 && utf8_valid l
        | _ => false
        end
      else false
  end.

(* ------------------------------------------------------------------ *)
(** ** Git LFS pointers *)

Definition LFS_VERSION : bytes := bs "version https://git-lfs.github.com/spec/v1".
Definition LFS_LEGACY_VERSION : bytes := bs "version https://hawser.github.com/spec/v1".
Definition LFS_ALPHA_VERSION : bytes := bs "version http://git-media.io/v/2".
Definition LFS_OID_PREFIX : bytes := bs "sha256:".
Definition MAX_POINTER_BYTES : nat := 1024.

Definition UNICODE_SPACES : list bytes :=
  [[xc2; x85]; [xc2; xa0]; [xe1; x9a; x80]; [xe2; x80; x80]; [xe2; x80; x81]; [xe2; x80; x82];
   [xe2; x80; x83]; [xe2; x80; x84]; [xe2; x80; x85]; [xe2; x80; x86]; [xe2; x80; x87];
   [xe2; x80; x88]; [xe2; x80; x89]; [xe2; x80; x8a]; [xe2; x80; xa8]; [xe2; x80; xa9];
   [xe2; x80; xaf]; [xe2; x81; x9f]; [xe3; x80; x80]].

Definition ascii_space (b : byte) : bool := in_range 9 13 b || beq b x20.

(** [leading_lfs_space] and [trailing_lfs_space]. *)
Definition leading_lfs_space (l : bytes) : option nat :=
  match l with
  | [] => None
  | first :: _ =>
      if ascii_space first then Some 1%nat
      else length <$> List.find (starts_with l) UNICODE_SPACES
  end.
Definition trailing_lfs_space (l : bytes) : option nat :=
  match last l with
  | None => None
  | Some final =>
      if ascii_space final then Some 1%nat
      else length <$> List.find (ends_with l) UNICODE_SPACES
  end.

(** [trim_lfs_space]: the two loops; each round removes at least one byte, so
    the length of the input is enough fuel. *)
Fixpoint trim_leading (fuel : nat) (l : bytes) : bytes :=
  match fuel with
  | O => l
  | S fuel =>
      match leading_lfs_space l with
      | Some n => trim_leading fuel (drop n l)
      | None => l
      end
  end.
Fixpoint trim_trailing (fuel : nat) (l : bytes) : bytes :=
  match fuel with
  | O => l
  | S fuel =>
      match trailing_lfs_space l with
      | Some n => trim_trailing fuel (take (length l - n) l)
      | None => l
      end
  end.
Definition trim_lfs_space (l : bytes) : bytes :=
  let l := trim_leading (length l) l in
  trim_trailing (length l) l.

(** [lfs_extension_priority]. *)
Definition lfs_extension_priority (key : bytes) : option N :=
  match key !! 4%nat, key !! 5%nat, key !! 6%nat with
  | Some k4, Some k5, Some k6 =>
      if (length key <? 7)%nat || negb (starts_with key (bs "ext-"))
         || negb (in_range 48 57 k4) || negb (beq k5 x2d)
         || negb (in_range 97 122 k6 || in_range 65 90 k6 || in_range 48 57 k6 || beq k6 x5f)
      then None
      else Some (byteN k4 - 48)
  | _, _, _ => None
  end.

(** The digest test: 64 characters of [0-9a-f]. *)
Definition lfs_digest (digest : bytes) : bool :=
  (length digest =? 64)%nat && forallb (fun b => in_range 48 57 b || in_range 97 102 b) digest.

(** The variables of the loop of [parse_lfs_pointer]. *)
Record LfsScan : Type := mkScan {
  ls_previous_key : option bytes;
  ls_oid : option bytes;
  ls_size : option N;
  ls_priorities : list N
}.

(** One round of the loop. *)
Definition lfs_line (st : LfsScan) (line : bytes) : option LfsScan :=
  separator ← position (fun b => beq b x20) line;
  let key := take separator line in
  let value := drop (separator + 1) line in
  if bool_decide (key = []) || bool_decide (value = [])
     || match ls_previous_key st with Some prior => bytes_leb key prior | None => false end
  then None
  else
    let previous := Some key in
    if bytes_eqb key (bs "oid") then
      match ls_oid st with
      | Some _ => None
      | None =>
          digest ← strip_prefix LFS_OID_PREFIX value;
          if negb (lfs_digest digest) || negb (utf8_valid digest) then None
          else Some (mkScan previous (Some digest) (ls_size st) (ls_priorities st))
      end
    else if bytes_eqb key (bs "size") then
      match ls_size st with
      | Some _ => None
      | None =>
          if negb (utf8_valid value) then None
          else
            parsed ← parse_i64 value;
            if (parsed <? 0)%Z then None
            else Some (mkScan previous (ls_oid st) (Some (Z.to_N parsed)) (ls_priorities st))
      end
    else
      priority ← lfs_extension_priority key;
      digest ← strip_prefix LFS_OID_PREFIX value;
      if negb (lfs_digest digest) || bool_decide (priority ∈ ls_priorities st) then None
      else Some (mkScan previous (ls_oid st) (ls_size st) (ls_priorities st ++ [priority])).

Fixpoint lfs_lines (st : LfsScan) (lines : list bytes) : option LfsScan :=
  match lines with
  | [] => Some st
  | line :: lines => st ← lfs_line st line; lfs_lines st lines
  end.

(** [line.strip_suffix(b"\r").unwrap_or(line)]. *)
Definition strip_cr (line : bytes) : bytes :=
  match last line with
  | Some x0d => take (length line - 1) line
  | _ => line
  end.

Definition pointer_lines (body : bytes) : list bytes :=
  filter (fun l => l <> []) (strip_cr <$> split_on is_newline body).

(** [parse_lfs_pointer]. *)
Definition parse_lfs_pointer (payload : bytes) : option LfsPointer :=
  if (MAX_POINTER_BYTES <? length payload)%nat then None
  else
    match pointer_lines (trim_lfs_space payload) with
    | [] => None
    | first :: rest =>
        if negb (bytes_eqb first LFS_VERSION) && negb (bytes_eqb first LFS_LEGACY_VERSION)
           && negb (bytes_eqb first LFS_ALPHA_VERSION) then None
        else
          st ← lfs_lines (mkScan None None None []) rest;
          oid ← ls_oid st;
          size ← ls_size st;
          Some (mkLfsPointer oid size)
    end.

(* ------------------------------------------------------------------ *)
(** ** Reading a file *)

(** The classification in [read_file]. *)
Definition file_kind (entry_kind : TreeItemKind) (payload : bytes) : FileKind :=
  if bool_decide (entry_kind = KSymlink) then FSymlink
  else if existsb (beq x00) (take (length payload `min` BINARY_PROBE_BYTES) payload)
          || negb (utf8_valid payload) then FBinary
  else FText.

Section FileOps.
Context `{Env, GixObject, GixGlob} {T : Type} (db : ObjectDb T).

Definition not_a_blob : Error := Error_new NotABlob "path resolves to a tree, not a blob".

(** The [QueryStats] at the end of a read. *)
Definition read_stats (stopped_by : option string) : DM T QueryStats :=
  fun '(b, t) =>
    let '(objects_read, bytes_read, _, _) := spent b in
    let '(hits, misses) := cache_spent b in
    (Ok (mkQueryStats objects_read bytes_read 0 hits misses (cache_stats db t) 0 0 0 0 0 stopped_by), (b, t)).

(** [read_file]. *)
Definition read_file (snapshot : Snapshot) (path : bytes) (opts : FileOptions) : DM T FileRead :=
  let! _ := slift (ensure_query_compatible db snapshot) in
  let! _ := slift (match fo_lines opts with
                   | Some (start, end_) =>
                       if (start =? 0) || (end_ =? 0) || (end_ <? start) then
                         Err (Error_new InvalidArgument "line range must be 1-based and ordered")
                       else Ok tt
                   | None => Ok tt
                   end) in
  let! resolved := resolve_path db snapshot path in
  let! entry := slift (match resolved with
                       | RootTree _ => Err not_a_blob
                       | Entry entry =>
                           if bool_decide (re_kind entry = KTree) then Err not_a_blob else Ok entry
                       end) in
  if bool_decide (re_kind entry = KGitlink) then
    let! stats := read_stats None in
    sret (mkFileRead path (re_oid entry) (re_mode entry) FGitlink [] None None None false None stats)
  else
    let! found := try_find db (re_oid entry) in
    let! payload := slift (match found with
                           | None => Err (missing_blob (re_oid entry))
                           | Some (kind, payload) =>
                               if bool_decide (kind = Blob) then Ok payload
                               else Err (Error_new NotABlob
                                           ("file object " ++ oid_str (re_oid entry) ++ " is not a blob"))
                           end) in
    let! sliced := slift (slice_payload payload opts) in
    let! stats := read_stats (sp_stopped_by sliced) in
    sret (mkFileRead path (re_oid entry) (re_mode entry) (file_kind (re_kind entry) payload)
            (sp_data sliced) (sp_start_line sliced) (sp_end_line sliced) (sp_total_lines sliced)
            (sp_truncated sliced) (parse_lfs_pointer payload) stats).

End FileOps.

(* ------------------------------------------------------------------ *)
(** ** Lines and spans *)

(** The reference definition of the lines of a payload. *)
Definition lines (l : bytes) : list bytes := split_inclusive is_newline l.

(** A complete line, and the tail after the last one. *)
Definition complete_line (s : bytes) : Prop :=
  exists a, s = a ++ [x0a] /\ Forall (fun b => is_newline b = false) a.
Definition no_newline (p : bytes) : Prop := Forall (fun b => is_newline b = false) p.
Definition tail_line (p : bytes) : list bytes := match p with [] => [] | _ => [p] end.

(** A payload is a run of complete lines and a tail without newline. *)
Record layout (l : bytes) (cs : list bytes) (p : bytes) : Prop := {
  lay_complete : Forall complete_line cs;
  lay_tail : no_newline p;
  lay_bytes : l = concat cs ++ p
}.

Lemma layout_exists l : exists cs p, layout l cs p.
Proof.
  induction l as [|b l (cs & p & [Hc Hp ->])].
  { exists [], []. split; [constructor|constructor|done]. }
  destruct (is_newline b) eqn:Eb.
  { exists ([b] :: cs), p. split; [|done|done]. constructor; [|done]. exists []. apply beq_true in Eb as ->.
    by split; [|constructor]. }
  destruct Hc as [|s cs (a & -> & Ha) Hc]; simpl.
  - exists [], (b :: p). by split; [constructor|constructor|].
  - exists ((b :: a ++ [x0a]) :: cs), p. split; [|done|done]. constructor; [|done].
    exists (b :: a). by split; [|constructor].
Qed.

Lemma lines_complete cs r : Forall complete_line cs -> lines (concat cs ++ r) = cs ++ lines r.
Proof.
  induction 1 as [|s cs (a & -> & Ha) Hc IH]; [done|]. unfold lines in *. cbn [concat].
  rewrite <- !app_assoc. cbn [app]. rewrite split_inclusive_line by done. by rewrite IH.
Qed.

Lemma lines_tail p : no_newline p -> lines p = tail_line p.
Proof.
  unfold lines. induction 1 as [|b p Hb Hp IH]; [done|]. cbn [split_inclusive].
  rewrite Hb, IH. by destruct p.
Qed.

Lemma lines_layout l cs p : layout l cs p -> lines l = cs ++ tail_line p.
Proof. intros [Hc Hp ->]. by rewrite lines_complete, lines_tail. Qed.

Lemma concat_lines l : concat (lines l) = l.
Proof. apply concat_split_inclusive. Qed.

(** The spans of a list of consecutive pieces. *)
Fixpoint spans_from (off : nat) (pieces : list bytes) : list (nat * nat) :=
  match pieces with
  | [] => []
  | s :: pieces => (off, (off + length s)%nat) :: spans_from (off + length s) pieces
  end.

Lemma spans_from_app off xs ys :
  spans_from off (xs ++ ys) = spans_from off xs ++ spans_from (off + length (concat xs)) ys.
Proof.
  revert off. induction xs as [|x xs IH]; intros off; simpl; [by rewrite Nat.add_0_r|].
  rewrite IH, length_app. do 3 f_equal. lia.
Qed.

Lemma length_spans_from off xs : length (spans_from off xs) = length xs.
Proof. revert off. induction xs; intros off; simpl; [done|]. by f_equal. Qed.

Lemma span_loop_line a l i start :
  no_newline a -> span_loop (a ++ l) i start = span_loop l (i + length a) start.
Proof.
  intros Ha. revert i. induction Ha as [|b a Hb Ha IH]; intros i; simpl; [by rewrite Nat.add_0_r|].
  rewrite Hb, IH. f_equal. lia.
Qed.

Lemma span_loop_layout cs p i :
  Forall complete_line cs -> no_newline p ->
  span_loop (concat cs ++ p) i i = (spans_from i cs, (i + length (concat cs))%nat).
Proof.
  intros Hc Hp. revert i. induction Hc as [|s cs (a & -> & Ha) Hc IH]; intros i; simpl.
  - rewrite <- (app_nil_r p), span_loop_line by done. simpl. by rewrite Nat.add_0_r.
  - rewrite <- !app_assoc, span_loop_line by done. simpl.
    rewrite IH, !length_app. simpl. rewrite Nat.add_assoc. f_equal. lia.
Qed.

Lemma line_spans_lines l : line_spans l = spans_from 0 (lines l).
Proof.
  destruct (layout_exists l) as (cs & p & HL). rewrite (lines_layout _ _ _ HL). destruct HL as [Hc Hp ->].
  unfold line_spans. rewrite span_loop_layout by done. rewrite spans_from_app, length_app. simpl.
  destruct p as [|b p]; simpl; case_match eqn:E;
    try (apply Nat.ltb_lt in E; simpl in E; lia); try (apply Nat.ltb_ge in E; simpl in E; lia).
  - by rewrite app_nil_r.
  - done.
Qed.

Lemma slice_of_mid a b r : slice_of (a ++ b ++ r) (length a) (length a + length b) = b.
Proof. unfold slice_of. rewrite drop_app_length, Nat.add_comm, Nat.add_sub. by rewrite take_app_length. Qed.

(** The layout seen by the tests on the last byte. *)
Lemma partial_layout l cs p :
  layout l cs p ->
  negb (bool_decide (l = [])) && negb (ends_with l [x0a]) = negb (bool_decide (p = [])).
Proof.
  intros [Hc Hp ->]. destruct (decide (p = [])) as [->|Hne].
  - rewrite (bool_decide_eq_true_2 ([] = [])), app_nil_r by done. simpl. rewrite andb_false_iff.
    destruct (decide (cs = [])) as [->|Hcs]; [by left|right]. apply negb_false_iff, ends_with_true.
    destruct (exists_last Hcs) as (cs' & s & ->). apply Forall_app in Hc as [_ Hc].
    apply Forall_singleton in Hc as (a & -> & _). exists (concat cs' ++ a).
    rewrite concat_app. simpl. by rewrite app_nil_r, app_assoc.
  - rewrite (bool_decide_eq_false_2 (p = [])) by done. simpl. apply andb_true_iff. split.
    + apply negb_true_iff, bool_decide_eq_false_2. intros [_ ?]%app_eq_nil. done.
    + apply negb_true_iff, not_true_is_false. rewrite ends_with_true. intros [r Hr].
      destruct (exists_last Hne) as (p' & b & ->). rewrite app_assoc in Hr. apply app_inj_tail in Hr as [_ ->].
      apply Forall_app in Hp as [_ Hb]. by inversion Hb.
Qed.

Lemma count_newlines cs p :
  Forall complete_line cs -> no_newline p ->
  length (filter (fun b => is_newline b = true) (concat cs ++ p)) = length cs.
Proof.
  assert (forall a, no_newline a -> filter (fun b => is_newline b = true) a = []) as Hf.
  { intros a Ha. apply filter_none. intros b Hin. rewrite (proj1 (Forall_forall _ _) Ha b Hin). done. }
  intros Hc Hp. induction Hc as [|s cs (a & -> & Ha) Hc IH]; simpl; [by rewrite Hf|].
  rewrite <- !app_assoc, filter_app, Hf by done. simpl. by rewrite IH.
Qed.

Lemma to_u32_Ok n v : to_u32 n = Ok v <-> v = N.of_nat n /\ N.of_nat n <= u32_max.
Proof.
  unfold to_u32. destruct (u32_max <? N.of_nat n) eqn:E.
  - apply N.ltb_lt in E. split; [done|lia].
  - apply N.ltb_ge in E. naive_solver.
Qed.

Lemma to_u32_Err n e : to_u32 n = Err e -> e = too_many_lines /\ u32_max < N.of_nat n.
Proof. unfold to_u32. case_match eqn:E; [|done]. intros [= <-]. by apply N.ltb_lt in E. Qed.

Lemma length_tail_line p : length (tail_line p) = if bool_decide (p = []) then 0%nat else 1%nat.
Proof. by destruct p. Qed.

Lemma payload_line_count_lines l : payload_line_count l = to_u32 (length (lines l)).
Proof.
  destruct (layout_exists l) as (cs & p & HL). unfold payload_line_count.
  rewrite (partial_layout _ _ _ HL), (lines_layout _ _ _ HL), length_app, length_tail_line.
  destruct HL as [Hc Hp ->]. rewrite count_newlines by done. by case_bool_decide.
Qed.

(* ------------------------------------------------------------------ *)
(** ** Slices *)

(** The line ranges a query accepts. *)
Definition ordered_range (opts : FileOptions) : Prop :=
  match fo_lines opts with None => True | Some (s, e) => 1 <= s /\ s <= e end.

Lemma next_line p r :
  no_newline p -> r <> [] -> exists q tl, q <> [] /\ lines (p ++ r) = (p ++ q) :: tl.
Proof.
  unfold lines. intros Hp Hr. induction Hp as [|b p Hb Hp (q & tl & Hq & IH)]; simpl.
  - destruct r as [|b r]; [done|]. simpl. destruct (is_newline b); [by exists [b]; eexists|].
    destruct (split_inclusive is_newline r) as [|s ss]; [by exists [b]; eexists|by exists (b :: s); eexists].
  - rewrite Hb, IH. by exists q, tl.
Qed.

Lemma capped_layout payload n :
  (n < length payload)%nat ->
  exists cs p q tl, layout (take n payload) cs p /\ q <> [] /\ lines payload = cs ++ (p ++ q) :: tl /\
    (length (concat cs) + length p = n)%nat.
Proof.
  intros Hn. destruct (layout_exists (take n payload)) as (cs & p & HL). destruct (HL) as [Hc Hp HE].
  destruct (next_line p (drop n payload) Hp) as (q & tl & Hq & Hl).
  { intros E. apply (f_equal length) in E. rewrite length_drop in E. simpl in E. lia. }
  exists cs, p, q, tl. split_and!; [done|done| |].
  - rewrite <- (take_drop n payload) at 1. by rewrite HE, <- app_assoc, lines_complete, Hl.
  - rewrite <- length_app, <- HE, length_take. lia.
Qed.

Lemma rposition_layout l cs p :
  layout l cs p ->
  match rposition is_newline l with
  | Some i => (i + 1)%nat = length (concat cs)
  | None => cs = []
  end.
Proof.
  intros [Hc Hp ->]. destruct (decide (cs = [])) as [->|Hcs].
  { simpl. rewrite (proj2 (rposition_None _ _)); [done|done]. }
  destruct (exists_last Hcs) as (cs' & s & ->). apply Forall_app in Hc as [_ Hc].
  inversion Hc as [|? ? (a & -> & _)]; subst. rewrite concat_app. cbn [concat]. rewrite app_nil_r, app_assoc.
  rewrite <- app_assoc. cbn [app]. rewrite rposition_app_r; [|done|done]. rewrite !length_app. simpl. lia.
Qed.

Lemma lenN_app {A} (a b : list A) : lenN (a ++ b) = lenN a + lenN b.
Proof. unfold lenN. rewrite length_app. lia. Qed.

Lemma lenN_pos {A} (a : list A) : a <> [] -> 1 <= lenN a.
Proof. unfold lenN. destruct a; simpl; [done|lia]. Qed.

(** The whole-file branch. *)
Lemma returned_len_layout l cs p (capped : bool) :
  layout l cs p -> capped = true ->
  take (if capped && negb (bool_decide (l = [])) && negb (ends_with l [x0a]) then
          match rposition is_newline l with
          | Some last_newline => (last_newline + 1)%nat
          | None => length l
          end
        else length l) l
  = if bool_decide (cs = []) then p else concat cs.
Proof.
  intros HL ->. pose proof (partial_layout _ _ _ HL) as Hpart. pose proof (rposition_layout _ _ _ HL) as Hpos.
  cbn [andb]. rewrite Hpart. clear Hpart. destruct HL as [_ _ HE]. destruct (decide (p = [])) as [Hp|Hp].
  - rewrite (bool_decide_eq_true_2 (p = [])) by done. cbn [negb]. rewrite Hp, app_nil_r in HE.
    rewrite take_ge by lia. rewrite HE, Hp. by destruct cs.
  - rewrite (bool_decide_eq_false_2 (p = [])) by done. cbn [negb]. destruct (rposition is_newline l) as [i|].
    + rewrite Hpos, HE, take_app_length. case_bool_decide; [|done]. subst cs. simpl in Hpos. lia.
    + subst cs. simpl in HE. subst l. by rewrite take_ge by lia.
Qed.

(** The uncapped range branch. *)
Lemma spans_from_lookup off xs i :
  (i < length xs)%nat ->
  spans_from off xs !! i =
  Some ((off + length (concat (take i xs)))%nat, (off + length (concat (take (S i) xs)))%nat).
Proof.
  revert off i. induction xs as [|x xs IH]; intros off i Hi; [simpl in Hi; lia|].
  destruct i as [|i]; simpl; [by rewrite app_nil_r, Nat.add_0_r|].
  simpl in Hi. rewrite IH by lia. rewrite !length_app. do 2 f_equal; lia.
Qed.

Lemma slice_of_lines (xs : list bytes) i j :
  (i <= j)%nat ->
  slice_of (concat xs) (length (concat (take i xs))) (length (concat (take j xs)))
  = concat (drop i (take j xs)).
Proof.
  intros Hij. assert (take j xs = take i xs ++ drop i (take j xs)) as Hj.
  { rewrite <- (take_drop i (take j xs)) at 1. by rewrite take_take, Nat.min_l by lia. }
  assert (concat xs = concat (take i xs) ++ concat (drop i (take j xs)) ++ concat (drop j xs)) as ->.
  { rewrite app_assoc, <- !concat_app, <- Hj. by rewrite take_drop. }
  rewrite Hj at 2. rewrite concat_app, length_app. apply slice_of_mid.
Qed.

Lemma spans_nil xs : spans_from 0 xs = [] -> xs = [].
Proof. by destruct xs. Qed.

Lemma length_requested s e (xs : list bytes) :
  length (drop (N.to_nat s - 1) (take (N.to_nat e) xs))
  = (Nat.min (N.to_nat e) (length xs) - (N.to_nat s - 1))%nat.
Proof. by rewrite length_drop, length_take. Qed.

(** The capped range branch: the loop over the spans picks the complete lines
    of the range, and the unfinished last one only when it is the first. *)
Section RangeLoop.
Context (rs re : N) (p scanned : bytes) (count : nat).

Definition picked (i : nat) (cs : list bytes) : list bytes :=
  drop (N.to_nat rs - 1 - i) (take (N.to_nat re - i) cs).
Definition tail_shown (i : nat) (cs : list bytes) (start_line : option N) : bool :=
  negb (bool_decide (p = [])) && bool_decide (start_line = None) && bool_decide (picked i cs = []) &&
  (rs <=? N.of_nat (i + length cs + 1)) && (N.of_nat (i + length cs + 1) <=? re).

Definition range_post (i : nat) (cs : list bytes) (data : bytes) (sl el : option N)
  (r : bytes * option N * option N) : Prop :=
  let t := tail_shown i cs sl in
  r = (data ++ concat (picked i cs) ++ (if t then p else []),
       match sl with
       | Some _ => sl
       | None => if negb (bool_decide (picked i cs = [])) then Some (N.max rs (N.of_nat (i + 1)))
                 else if t then Some (N.of_nat (i + length cs + 1)) else None
       end,
       if negb (bool_decide (picked i cs = [])) then Some (N.min re (N.of_nat (i + length cs)))
       else if t then Some (N.of_nat (i + length cs + 1)) else el).

Lemma picked_before i s cs : N.of_nat (i + 1) < rs -> picked i (s :: cs) = picked (i + 1) cs.
Proof.
  intros Hi. unfold picked. destruct (N.to_nat re - i)%nat as [|m] eqn:Em.
  - replace (N.to_nat re - (i + 1))%nat with 0%nat by lia. by rewrite !take_0, !drop_nil.
  - replace (N.to_nat rs - 1 - i)%nat with (S (N.to_nat rs - 1 - (i + 1)))%nat by lia.
    replace (N.to_nat re - (i + 1))%nat with m by lia. done.
Qed.

Lemma picked_inside i s cs :
  rs <= N.of_nat (i + 1) -> N.of_nat (i + 1) <= re -> picked i (s :: cs) = s :: picked (i + 1) cs.
Proof.
  intros H1 H2. unfold picked. replace (N.to_nat rs - 1 - i)%nat with 0%nat by lia.
  replace (N.to_nat rs - 1 - (i + 1))%nat with 0%nat by lia.
  replace (N.to_nat re - i)%nat with (S (N.to_nat re - (i + 1)))%nat by lia. by rewrite !drop_0.
Qed.

Lemma picked_after i cs : re < N.of_nat (i + 1) -> picked i cs = [].
Proof. intros Hi. unfold picked. replace (N.to_nat re - i)%nat with 0%nat by lia. by rewrite take_0, drop_nil. Qed.

Lemma range_post_skip i s cs data sl el r :
  N.of_nat (i + 1) < rs \/ re < N.of_nat (i + 1) ->
  range_post (i + 1) cs data sl el r -> range_post i (s :: cs) data sl el r.
Proof.
  intros Hi. unfold range_post, tail_shown.
  assert (picked i (s :: cs) = picked (i + 1) cs) as ->.
  { destruct Hi as [Hi|Hi]; [by apply picked_before|]. rewrite !picked_after by lia. done. }
  cbn [length]. replace (i + S (length cs))%nat with (i + 1 + length cs)%nat by lia. intros ->. f_equal.
  f_equal. destruct sl; [done|]. case_bool_decide as Hp; [done|]. simpl.
  destruct Hi as [Hi|Hi]; [f_equal; lia|]. exfalso. apply Hp, picked_after. lia.
Qed.

Lemma range_post_take i s cs data sl el r :
  rs <= N.of_nat (i + 1) -> N.of_nat (i + 1) <= re ->
  range_post (i + 1) cs (data ++ s) (Some (default (N.of_nat (i + 1)) sl)) (Some (N.of_nat (i + 1))) r ->
  range_post i (s :: cs) data sl el r.
Proof.
  intros H1 H2. unfold range_post, tail_shown. rewrite picked_inside by done.
  rewrite (bool_decide_eq_false_2 (s :: _ = [])) by done.
  rewrite (bool_decide_eq_false_2 (Some _ = None)) by done. rewrite !andb_false_r. cbn [andb negb].
  intros ->. rewrite !app_nil_r. cbn [concat length]. f_equal; [f_equal|].
  - by rewrite <- app_assoc.
  - destruct sl; simpl; [done|f_equal; lia].
  - case_bool_decide as Hp; simpl; [|f_equal; lia]. f_equal.
    unfold picked in Hp. replace (N.to_nat rs - 1 - (i + 1))%nat with 0%nat in Hp by lia. rewrite drop_0 in Hp.
    destruct cs as [|s' cs]; [simpl; lia|]. destruct (N.to_nat re - (i + 1))%nat eqn:Er; [simpl; lia|done].
Qed.

Lemma range_loop_tail dn data sl el :
  scanned = concat dn ++ p -> count = (length dn + length (tail_line p))%nat ->
  outcome (fun e => e = too_many_lines /\ u32_max < N.of_nat count)
    (range_post (length dn) [] data sl el)
    (range_loop scanned (negb (bool_decide (p = []))) count rs re
       (spans_from (length (concat dn)) (tail_line p)) (length dn) data sl el).
Proof.
  intros Hs Hc. unfold range_post, tail_shown. assert (picked (length dn) [] = []) as ->.
  { unfold picked. by rewrite take_nil, drop_nil. }
  destruct p as [|b p'] eqn:Ep; [simpl; rewrite app_nil_r; by destruct sl|]. rewrite <- Ep in *.
  assert (tail_line p = [p]) as HT by (by rewrite Ep). rewrite HT in *.
  rewrite (bool_decide_eq_false_2 (p = [])) by (by rewrite Ep). cbn [spans_from range_loop length negb andb].
  destruct (to_u32 (length dn + 1)) as [line|e] eqn:Eu.
  2: { apply to_u32_Err in Eu as [-> Hu]. cbn. split; [done|]. rewrite Hc. simpl. lia. }
  apply to_u32_Ok in Eu as [-> Hu]. cbn [rbind]. rewrite Nat.add_0_r.
  rewrite (bool_decide_eq_true_2 ([] = [])) by done. rewrite andb_true_r.
  destruct (N.of_nat (length dn + 1) <? rs) eqn:E1; cbn [orb].
  { rewrite (proj2 (N.leb_gt rs _)) by (by apply N.ltb_lt). rewrite andb_false_r. cbn. rewrite app_nil_r. by destruct sl. }
  apply N.ltb_ge in E1. rewrite (proj2 (N.leb_le rs _)) by done. rewrite andb_true_r.
  destruct (re <? N.of_nat (length dn + 1)) eqn:E2.
  { rewrite (proj2 (N.leb_gt _ re)) by (by apply N.ltb_lt). rewrite andb_false_r. cbn. rewrite app_nil_r. by destruct sl. }
  apply N.ltb_ge in E2. rewrite (proj2 (N.leb_le _ re)) by done. rewrite andb_true_r.
  rewrite Hc. cbn [length]. rewrite Nat.eqb_refl. destruct sl as [l|]; cbn.
  - by rewrite app_nil_r.
  - f_equal. f_equal. f_equal. rewrite Hs. rewrite <- (app_nil_r p) at 1. apply slice_of_mid.
Qed.

Lemma range_loop_spec cs dn data sl el :
  scanned = concat dn ++ concat cs ++ p -> count = (length dn + length cs + length (tail_line p))%nat ->
  outcome (fun e => e = too_many_lines /\ u32_max < N.of_nat count)
    (range_post (length dn) cs data sl el)
    (range_loop scanned (negb (bool_decide (p = []))) count rs re
       (spans_from (length (concat dn)) (cs ++ tail_line p)) (length dn) data sl el).
Proof.
  revert dn data sl el. induction cs as [|s cs IH]; intros dn data sl el Hs Hc.
  { apply range_loop_tail; [done|]. simpl in Hc. lia. }
  cbn [app spans_from range_loop]. destruct (to_u32 (length dn + 1)) as [line|e] eqn:Eu.
  2: { apply to_u32_Err in Eu as [-> Hu]. cbn. split; [done|]. rewrite Hc. simpl. lia. }
  apply to_u32_Ok in Eu as [-> Hu]. cbn [rbind].
  assert (negb (bool_decide (p = [])) && (length dn + 1 =? count)%nat = false) as ->.
  { rewrite Hc, length_tail_line. case_bool_decide; [done|]. simpl. apply Nat.eqb_neq. lia. }
  cbn [andb].
  specialize (IH (dn ++ [s])). rewrite concat_app, !length_app in IH. cbn [concat length] in IH.
  rewrite app_nil_r in IH.
  assert (scanned = (concat dn ++ s) ++ concat cs ++ p) as Hs' by (rewrite Hs; cbn [concat]; by rewrite <- !app_assoc).
  destruct ((N.of_nat (length dn + 1) <? rs) || (re <? N.of_nat (length dn + 1))) eqn:E.
  - specialize (IH data sl el Hs'). ospecialize (IH _); [rewrite Hc; simpl; lia|].
    assert (N.of_nat (length dn + 1) < rs \/ re < N.of_nat (length dn + 1)) as Hout.
    { apply orb_true_iff in E as [E%N.ltb_lt|E%N.ltb_lt]; auto. }
    destruct (range_loop _ _ _ _ _ _ _ _ _ _) as [r|e]; [|done]. by apply range_post_skip.
  - apply orb_false_iff in E as [E1%N.ltb_ge E2%N.ltb_ge].
    assert (slice_of scanned (length (concat dn)) (length (concat dn) + length s) = s) as ->.
    { rewrite Hs', <- app_assoc. apply slice_of_mid. }
    specialize (IH (data ++ s) (Some (default (N.of_nat (length dn + 1)) sl)) (Some (N.of_nat (length dn + 1))) Hs').
    ospecialize (IH _); [rewrite Hc; simpl; lia|].
    destruct (range_loop _ _ _ _ _ _ _ _ _ _) as [r|e]; [|done]. by apply range_post_take.
Qed.

End RangeLoop.

(** The requested lines of a capped payload, by the position of the cap. *)
Lemma requested_capped rs re (cs : list bytes) (l : bytes) (tl : list bytes) :
  1 <= rs -> rs <= re ->
  exists rest,
    drop (N.to_nat rs - 1) (take (N.to_nat re) (cs ++ l :: tl)) = picked rs re 0 cs ++ rest /\
    (re <= lenN cs -> rest = []) /\
    (lenN cs < re -> rs <= lenN cs + 1 -> exists tl', rest = l :: tl') /\
    (rs <= lenN cs + 1 -> N.of_nat (length (picked rs re 0 cs)) = N.min re (lenN cs) + 1 - rs) /\
    (lenN cs + 1 <= rs -> picked rs re 0 cs = []).
Proof.
  intros H1 H2. unfold picked. rewrite !Nat.sub_0_r. unfold lenN. rewrite take_app.
  destruct (decide (N.to_nat re <= length cs)%nat) as [Hre|Hre].
  - replace (N.to_nat re - length cs)%nat with 0%nat by lia. rewrite take_0, !app_nil_r. exists [].
    rewrite app_nil_r. split_and!; [done|done|lia| |].
    + intros _. rewrite length_drop, length_take. lia.
    + intros ?. lia.
  - destruct (N.to_nat re - length cs)%nat as [|m] eqn:Em; [lia|]. rewrite (take_ge cs) by lia. cbn [take].
    rewrite drop_app. exists (drop (N.to_nat rs - 1 - length cs) (l :: take m tl)). split_and!; [done|lia| | |].
    + intros _ Hrs. replace (N.to_nat rs - 1 - length cs)%nat with 0%nat by lia. by eexists.
    + intros Hrs. rewrite length_drop. lia.
    + intros Hrs. apply drop_ge. lia.
Qed.

(** A slice fails only on a payload with more lines than a [u32] counts. *)
Definition too_long (payload : bytes) (e : Error) : Prop :=
  code e = ResultTooLarge /\ u32_max < lenN (lines payload).

Lemma slice_whole_Err payload n capped e : slice_whole payload n capped = Err e -> too_long payload e.
Proof.
  unfold slice_whole. destruct capped; [done|]. rewrite payload_line_count_lines.
  destruct (to_u32 _) as [v|e'] eqn:E; [done|]. cbn. intros [= <-]. by apply to_u32_Err in E as [-> E].
Qed.

Lemma slice_lines_Err payload rs re e :
  1 <= rs -> rs <= re -> slice_lines payload rs re = Err e -> too_long payload e.
Proof.
  intros H1 H2. unfold slice_lines. rewrite line_spans_lines, length_spans_from. case_bool_decide; [done|].
  destruct (to_u32 _) as [v|e'] eqn:E; cbn [rbind].
  - apply to_u32_Ok in E as [-> _]. destruct (_ <? rs) eqn:Er; [done|]. apply N.ltb_ge in Er.
    by rewrite !spans_from_lookup by lia.
  - intros [= <-]. by apply to_u32_Err in E as [-> E].
Qed.

Lemma slice_capped_lines_Err payload n rs re e :
  (n < length payload)%nat -> slice_capped_lines payload n rs re = Err e -> too_long payload e.
Proof.
  intros Hn. destruct (capped_layout payload n Hn) as (cs & p & q & tl & HL & Hq & HP & HN).
  unfold slice_capped_lines. rewrite line_spans_lines, length_spans_from, (partial_layout _ _ _ HL), (lines_layout _ _ _ HL).
  pose proof (range_loop_spec rs re p (take n payload) (length (cs ++ tail_line p)) cs [] [] None None
                (lay_bytes _ _ _ HL) (length_app _ _)) as Hloop. cbn [concat length] in Hloop.
  destruct (range_loop _ _ _ _ _ _ _ _ _ _) as [[[d s] l]|e']; [done|]. cbn [rbind outcome] in *.
  destruct Hloop as [-> Hu]. intros [= <-]. split; [done|]. rewrite HP. unfold lenN. revert Hu.
  rewrite !length_app, length_tail_line. simpl. case_bool_decide; lia.
Qed.

(* ------------------------------------------------------------------ *)
(** ** The slice as a function of the lines *)

(** How many lines end within the cap. *)
Fixpoint fitting (cap : N) (ls : list bytes) : nat :=
  match ls with
  | [] => 0%nat
  | l :: ls => if lenN l <=? cap then S (fitting (cap - lenN l) ls) else 0%nat
  end.

(** The reference: the lines that fit, and the beginning of the first line asked
    for when that one does not fit. *)
Definition slice_ref (payload : bytes) (opts : FileOptions) : SlicedPayload :=
  let ls := lines payload in
  let cap := fo_max_bytes opts in
  let capped := cap <? lenN payload in
  let fit := take (fitting cap ls) ls in
  let total := if capped then None else Some (lenN ls) in
  let stopped (cut : bool) := if cut then Some "max_bytes"%string else None in
  match fo_lines opts with
  | None =>
      mkSliced (if capped && bool_decide (fit = []) then take (N.to_nat cap) payload else concat fit)
        None None total capped (stopped capped)
  | Some (first, last) =>
      let cut := capped && (lenN fit <? last) in
      let shown := drop (N.to_nat first - 1) (take (N.to_nat last) fit) in
      let begun := take (N.to_nat cap - length (concat fit)) (default [] (ls !! length fit)) in
      if negb (bool_decide (shown = [])) then
        mkSliced (concat shown) (Some first) (Some (first + lenN shown - 1)) total cut (stopped cut)
      else if capped && (first =? lenN fit + 1) && negb (bool_decide (begun = [])) then
        mkSliced begun (Some first) (Some first) total cut (stopped cut)
      else mkSliced [] None None total cut (stopped cut)
  end.

Lemma fitting_cut cs l tl cap :
  lenN (concat cs) <= cap -> cap < lenN (concat cs) + lenN l -> fitting cap (cs ++ l :: tl) = length cs.
Proof.
  revert cap. induction cs as [|x cs IH]; intros cap H1 H2; cbn [app fitting concat] in *.
  - change (lenN []) with 0 in H2. by rewrite (proj2 (N.leb_gt _ _)) by lia.
  - rewrite lenN_app in *. rewrite (proj2 (N.leb_le _ _)) by lia. cbn. f_equal. apply IH; lia.
Qed.
Lemma fitting_all ls cap : lenN (concat ls) <= cap -> fitting cap ls = length ls.
Proof.
  revert cap. induction ls as [|x ls IH]; intros cap Hl; cbn [fitting concat] in *; [done|]. rewrite lenN_app in *.
  rewrite (proj2 (N.leb_le _ _)) by lia. cbn. f_equal. apply IH; lia.
Qed.

(** The lines of a payload at a cap inside it. *)
Lemma capped_fit payload n cs p q tl :
  q <> [] -> lines payload = cs ++ (p ++ q) :: tl -> (length (concat cs) + length p = n)%nat ->
  take (fitting (N.of_nat n) (lines payload)) (lines payload) = cs /\
  default [] (lines payload !! length cs) = p ++ q.
Proof.
  intros Hq -> Hn. pose proof (lenN_pos q Hq). rewrite fitting_cut by (rewrite ?lenN_app; unfold lenN in *; lia).
  rewrite take_app_length, lookup_app_r, Nat.sub_diag by lia. done.
Qed.

Lemma slice_whole_ref payload opts n s :
  fo_lines opts = None -> n = N.to_nat (N.min (lenN payload) (fo_max_bytes opts)) ->
  slice_whole payload n (n <? length payload)%nat = Ok s -> s = slice_ref payload opts.
Proof.
  intros Hl Hn. unfold slice_whole, slice_ref. rewrite Hl. destruct (n <? length payload)%nat eqn:Ec.
  - apply Nat.ltb_lt in Ec. destruct (capped_layout payload n Ec) as (cs & p & q & tl & HL & Hq & HP & HN).
    rewrite (returned_len_layout _ cs p true HL) by done. cbn [rbind]. intros [= <-].
    assert (fo_max_bytes opts = N.of_nat n) as Hm by (unfold lenN in *; lia). rewrite Hm.
    rewrite (proj2 (N.ltb_lt _ _)) by (unfold lenN; lia). destruct (capped_fit payload n cs p q tl Hq HP HN) as [-> _]. f_equal.
    cbn [andb]. case_bool_decide as E; [|done]. rewrite Nat2N.id, (lay_bytes _ _ _ HL), E. done.
  - apply Nat.ltb_ge in Ec. cbn [andb]. assert (lenN payload <= fo_max_bytes opts) as Hm by (unfold lenN in *; lia).
    assert (n = length payload) as -> by (unfold lenN in *; lia). rewrite payload_line_count_lines.
    destruct (to_u32 (length (lines payload))) as [v|e] eqn:Ev; [|done]. cbn [rbind]. intros [= <-]. apply to_u32_Ok in Ev as [-> _].
    rewrite (proj2 (N.ltb_ge _ _)) by done. cbn [andb]. rewrite !firstn_all, fitting_all, firstn_all; by rewrite concat_lines.
Qed.

Lemma slice_lines_ref payload opts s e r :
  fo_lines opts = Some (s, e) -> 1 <= s -> s <= e -> lenN payload <= fo_max_bytes opts ->
  slice_lines payload s e = Ok r -> r = slice_ref payload opts.
Proof.
  intros Hl Hs He Hm. unfold slice_ref. rewrite Hl, (proj2 (N.ltb_ge _ _) Hm). cbn [andb].
  rewrite fitting_all, firstn_all by (by rewrite concat_lines).
  unfold slice_lines. rewrite line_spans_lines, length_spans_from.
  destruct (decide (spans_from 0 (lines payload) = [])) as [Hnil|Hne].
  { rewrite bool_decide_eq_true_2 by done. intros [= <-]. apply spans_nil in Hnil.
    by rewrite Hnil, take_nil, drop_nil, bool_decide_eq_true_2. }
  rewrite bool_decide_eq_false_2 by done.
  destruct (to_u32 (length (lines payload))) as [total|] eqn:Et; [|done]. apply to_u32_Ok in Et as [-> _].
  cbn [rbind]. destruct (N.of_nat (length (lines payload)) <? s) eqn:E.
  { apply N.ltb_lt in E. intros [= <-]. rewrite drop_ge by (rewrite length_take; lia). by rewrite bool_decide_eq_true_2. }
  apply N.ltb_ge in E. rewrite !spans_from_lookup by lia. intros [= <-].
  assert (drop (N.to_nat s - 1) (take (N.to_nat e) (lines payload))
          = drop (N.to_nat s - 1) (take (S (N.to_nat (N.min e (N.of_nat (length (lines payload))) - 1))) (lines payload)))
    as Hmin.
  { f_equal. destruct (decide (N.to_nat e <= length (lines payload))%nat); [f_equal; lia|].
    rewrite !take_ge by lia. done. }
  set (k := N.to_nat (N.min e _ - 1)) in *. cbn [Nat.add].
  assert (forall a b, slice_of payload a b = slice_of (concat (lines payload)) a b) as ->.
  { intros. by rewrite concat_lines. }
  replace (N.to_nat (s - 1)) with (N.to_nat s - 1)%nat by lia. rewrite slice_of_lines by lia. rewrite <- Hmin.
  pose proof (length_requested s e (lines payload)) as Hlen.
  rewrite bool_decide_eq_false_2 by (intros E0; rewrite E0 in Hlen; cbn [length] in Hlen; lia).
  cbn [negb]. unfold lenN. rewrite Hlen. do 2 f_equal; lia.
Qed.

Lemma slice_capped_ref payload opts rs re n s :
  fo_lines opts = Some (rs, re) -> 1 <= rs -> rs <= re -> fo_max_bytes opts = N.of_nat n ->
  (n < length payload)%nat ->
  slice_capped_lines payload n rs re = Ok s -> s = slice_ref payload opts.
Proof.
  intros Hl H1 H2 Hm Hn. destruct (capped_layout payload n Hn) as (cs & p & q & tl & HL & Hq & HP & HN).
  unfold slice_capped_lines, slice_ref. rewrite Hl, Hm, (proj2 (N.ltb_lt _ _)) by (unfold lenN; lia).
  destruct (capped_fit payload n cs p q tl Hq HP HN) as [-> ->].
  rewrite line_spans_lines, length_spans_from, (partial_layout _ _ _ HL), (lines_layout _ _ _ HL).
  pose proof (range_loop_spec rs re p (take n payload) (length (cs ++ tail_line p)) cs [] [] None None
                (lay_bytes _ _ _ HL) (length_app _ _)) as Hloop. cbn [concat length] in Hloop.
  destruct (range_loop _ _ _ _ _ _ _ _ _ _) as [r|e]; [|done]. cbn [rbind outcome] in *.
  assert (length (cs ++ tail_line p) - (if negb (bool_decide (p = [])) then 1 else 0) = length cs)%nat as ->.
  { rewrite length_app, length_tail_line. case_bool_decide; simpl; lia. }
  destruct (requested_capped rs re cs (p ++ q) tl H1 H2) as (rest & _ & _ & _ & Hlen & Hbeyond).
  unfold range_post in Hloop. cbn [app] in Hloop. subst r. intros [= <-].
  replace (N.to_nat (N.of_nat n) - length (concat cs))%nat with (length p) by lia. rewrite take_app_length.
  assert (drop (N.to_nat rs - 1) (take (N.to_nat re) cs) = picked rs re 0 cs) as -> by (unfold picked; by rewrite !Nat.sub_0_r).
  assert ((lenN cs <? re) = negb (re <=? N.of_nat (length cs))) as -> by apply N.ltb_antisym. cbn [andb].
  assert (forall b : bool, (if negb b then Some "max_bytes"%string else None) = if b then None else Some "max_bytes"%string) as -> by (by intros []).
  unfold tail_shown. rewrite (bool_decide_eq_true_2 (None = None)) by done. rewrite andb_true_r.
  destruct (decide (picked rs re 0 cs = [])) as [Epk|Epk].
  - rewrite Epk, (bool_decide_eq_true_2 ([] = [])) by done. cbn [negb concat app]. rewrite andb_true_r.
    case_bool_decide as Ep; cbn [negb andb].
    { rewrite andb_false_r. done. }
    rewrite andb_true_r. destruct (N.eqb_spec rs (lenN cs + 1)) as [Ers|Ers].
    + rewrite (proj2 (N.leb_le _ _)), (proj2 (N.leb_le _ _)) by (unfold lenN in *; lia). cbn [andb]. unfold lenN in Ers.
      f_equal; f_equal; lia.
    + assert ((rs <=? N.of_nat (0 + length cs + 1)) && (N.of_nat (0 + length cs + 1) <=? re) = false) as ->; [|done].
      apply andb_false_iff. destruct (decide (rs <= lenN cs)) as [Hle|Hgt].
      * rewrite Epk in Hlen. cbn in Hlen. specialize (Hlen ltac:(lia)). unfold lenN in *. lia.
      * left. apply N.leb_gt. unfold lenN in *. lia.
  - rewrite (bool_decide_eq_false_2 (picked rs re 0 cs = [])) by done. cbn [negb]. rewrite !andb_false_r. cbn [andb].
    rewrite app_nil_r. assert (rs <= lenN cs + 1) as Hle.
    { destruct (decide (rs <= lenN cs + 1)); [done|]. destruct Epk. apply Hbeyond. lia. }
    specialize (Hlen Hle). unfold lenN in *. f_equal; f_equal; lia.
Qed.

Lemma slice_payload_outcome payload opts :
  ordered_range opts ->
  match slice_payload payload opts with
  | Ok s => s = slice_ref payload opts
  | Err e => too_long payload e
  end.
Proof.
  unfold ordered_range, slice_payload. destruct (fo_lines opts) as [[rs re]|] eqn:El.
  - intros [H1 H2]. destruct (_ <? length payload)%nat eqn:Ec.
    + apply Nat.ltb_lt in Ec. destruct (slice_capped_lines _ _ _ _) as [s|e] eqn:E.
      * eapply slice_capped_ref; [done|done|done| |exact Ec|exact E]. unfold lenN in *. lia.
      * by eapply slice_capped_lines_Err.
    + apply Nat.ltb_ge in Ec. destruct (slice_lines _ _ _) as [s|e] eqn:E.
      * eapply slice_lines_ref; [done|done|done| |exact E]. unfold lenN in *. lia.
      * by eapply slice_lines_Err.
  - intros _. destruct (slice_whole _ _ _) as [s|e] eqn:E; [by eapply slice_whole_ref|by eapply slice_whole_Err].
Qed.

(* ------------------------------------------------------------------ *)
(** ** Pointer texts *)

(** The canonical text of a pointer, and the pointers that have one. *)
Definition pointer_text (p : LfsPointer) : bytes :=
  LFS_VERSION ++ [x0a] ++ (bs "oid sha256:" ++ lfs_oid p) ++ [x0a] ++ (bs "size " ++ bs (pretty (lfs_size p))) ++ [x0a].
Definition pointer_ok (p : LfsPointer) : Prop := lfs_digest (lfs_oid p) = true /\ lfs_size p < 2 ^ 63.

Definition is_digit (b : byte) : bool := in_range 48 57 b.

Lemma in_range_spec lo hi b : in_range lo hi b = true <-> lo <= byteN b /\ byteN b <= hi.
Proof. unfold in_range. by rewrite andb_true_iff, !N.leb_le. Qed.

Lemma digit_byte d : d < 10 -> exists b, bs (String (pretty_N_char d) EmptyString) = [b] /\ byteN b = 48 + d.
Proof.
  intros Hd. assert (d = 0 \/ d = 1 \/ d = 2 \/ d = 3 \/ d = 4 \/ d = 5 \/ d = 6 \/ d = 7 \/ d = 8 \/ d = 9) as Hc by lia.
  destruct_or! Hc; subst d; eexists; split; reflexivity.
Qed.

Lemma pretty_go_spec k x s :
  x < 10 ^ N.of_nat k ->
  exists ds, bs (pretty_N_go x s) = ds ++ bs s /\ Forall (fun b => is_digit b = true) ds /\
    (0 < x -> ds <> []) /\ (length ds <= k)%nat /\
    (forall r, parse_digits 0 (ds ++ r) = parse_digits (Z.of_N x) r).
Proof.
  revert x s. induction k as [|k IH]; intros x s Hx.
  { assert (x = 0) as -> by (simpl in Hx; lia). exists []. rewrite pretty_N_go_0.
    split_and!; [done|constructor|lia|done|done]. }
  destruct (decide (x = 0)) as [->|H0].
  { exists []. rewrite pretty_N_go_0. split_and!; [done|constructor|lia|simpl; lia|done]. }
  rewrite pretty_N_go_step by lia. pose proof (N.div_mod x 10 ltac:(lia)) as Hdm.
  pose proof (N.mod_lt x 10 ltac:(lia)) as Hm.
  assert (x / 10 < 10 ^ N.of_nat k) as Hq.
  { apply N.Div0.div_lt_upper_bound. rewrite <- N.pow_succ_r', <- Nat2N.inj_succ. exact Hx. }
  revert Hdm Hm Hq. generalize (x / 10) (x mod 10). intros q m Hdm Hm Hq.
  destruct (IH q (String (pretty_N_char m) s) Hq) as (ds & Hb & Hd & _ & Hl & Hp).
  destruct (digit_byte m Hm) as (b & Hc & Hv).
  assert (bs (String (pretty_N_char m) s) = b :: bs s) as Hs.
  { change ([Ascii.byte_of_ascii (pretty_N_char m)] = [b]) in Hc. by injection Hc as <-. }
  exists (ds ++ [b]). rewrite Hb, Hs. split_and!.
  - by rewrite <- app_assoc.
  - apply Forall_app. split; [done|]. constructor; [|done]. apply in_range_spec. rewrite Hv. lia.
  - intros _ E. by destruct ds.
  - rewrite length_app. simpl. lia.
  - intros r. rewrite <- app_assoc, Hp. cbn [app parse_digits].
    rewrite (proj2 (andb_true_iff _ _)) by (rewrite !N.leb_le, Hv; lia). f_equal. rewrite Hv. lia.
Qed.

Lemma decimal_spec n :
  n < 2 ^ 63 ->
  exists d ds, bs (pretty n) = d :: ds /\ Forall (fun b => is_digit b = true) (d :: ds) /\
    (length (d :: ds) <= 19)%nat /\ parse_digits 0 (d :: ds) = Some (Z.of_N n).
Proof.
  intros Hn. unfold pretty, pretty_N. case_decide as H0.
  { subst n. exists x30, []. split_and!; [done|by repeat constructor|simpl; lia|done]. }
  destruct (pretty_go_spec 19 n EmptyString) as (ds & Hb & Hd & Hne & Hl & Hp).
  { eapply N.lt_trans; [exact Hn|]. by vm_compute. }
  destruct ds as [|d ds]; [by destruct Hne; [lia|]|]. exists d, ds. rewrite Hb. cbn [bs list_byte_of_string].
  split_and!; [apply app_nil_r|done|done|]. specialize (Hp []). by rewrite app_nil_r in Hp.
Qed.

Lemma digit_parse_i64 d ds n :
  is_digit d = true -> parse_digits 0 (d :: ds) = Some (Z.of_N n) -> n < 2 ^ 63 ->
  parse_i64 (d :: ds) = Some (Z.of_N n).
Proof.
  intros Hd Hp Hn. assert (parse_i64 (d :: ds) = (z ← parse_digits 0 (d :: ds);
    if in_i64 (1 * z) then Some (1 * z)%Z else None)) as ->.
  { by destruct d. }
  rewrite Hp. cbn [mbind option_bind]. unfold in_i64. rewrite Z.mul_1_l.
  by rewrite (proj2 (andb_true_iff _ _)) by (rewrite Z.leb_le, Z.ltb_lt; lia).
Qed.

Lemma ascii_utf8 l : Forall (fun b => byteN b <= 127) l -> utf8_valid l = true.
Proof.
  induction 1 as [|b l Hb Hl IH]; [done|]. cbn [utf8_valid]. unfold in_range at 1.
  by rewrite (proj2 (andb_true_iff _ _)) by (rewrite !N.leb_le; lia).
Qed.

Definition hex_char (b : byte) : bool := in_range 48 57 b || in_range 97 102 b.

Lemma lfs_digest_spec d :
  lfs_digest d = true -> length d = 64%nat /\ Forall (fun b => hex_char b = true) d.
Proof.
  unfold lfs_digest. rewrite andb_true_iff, Nat.eqb_eq, forallb_forall, Forall_forall. intros [Hl Hf].
  split; [done|]. intros b Hb. apply Hf. by apply list_elem_of_In.
Qed.

Lemma hex_char_range b : hex_char b = true -> 48 <= byteN b /\ byteN b <= 102.
Proof. unfold hex_char. rewrite orb_true_iff, !in_range_spec. lia. Qed.

Lemma not_newline b : 48 <= byteN b -> is_newline b = false.
Proof. intros Hb. apply beq_false. intros ->. vm_compute in Hb. by apply Hb. Qed.

(** Splitting a text of three lines. *)
Lemma split_on_line {A} (f : A -> bool) a x r :
  Forall (fun y => f y = false) a -> f x = true -> split_on f (a ++ x :: r) = a :: split_on f r.
Proof. induction 1 as [|y a Hy Ha IH]; intros Hx; simpl; [by rewrite Hx|]. by rewrite Hy, IH. Qed.

Lemma split_on_last {A} (f : A -> bool) a : Forall (fun y => f y = false) a -> split_on f a = [a].
Proof. induction 1 as [|y a Hy Ha IH]; simpl; [done|]. by rewrite Hy, IH. Qed.

Lemma strip_cr_id a b : byteN b <> 13 -> strip_cr (a ++ [b]) = a ++ [b].
Proof. intros Hb. unfold strip_cr. rewrite last_snoc. by destruct b. Qed.

Lemma trim_done_trailing fuel l : trailing_lfs_space l = None -> trim_trailing fuel l = l.
Proof. intros E. destruct fuel; simpl; [done|]. by rewrite E. Qed.

Lemma trim_newline B :
  trailing_lfs_space B = None -> trim_trailing (length (B ++ [x0a])) (B ++ [x0a]) = B.
Proof.
  intros HB. rewrite length_app, Nat.add_comm. cbn [length Nat.add trim_trailing].
  assert (trailing_lfs_space (B ++ [x0a]) = Some 1%nat) as ->.
  { unfold trailing_lfs_space. by rewrite last_snoc. }
  rewrite length_app. cbn [length]. rewrite Nat.add_sub, take_app_length. by apply trim_done_trailing.
Qed.

Lemma digit_not_space l d : is_digit d = true -> trailing_lfs_space (l ++ [d]) = None.
Proof.
  intros Hd. unfold trailing_lfs_space. rewrite last_snoc.
  assert (forall sp, ends_with (l ++ [d]) sp = starts_with (d :: reverse l) (reverse sp)) as Hends.
  { intros sp. unfold ends_with. by rewrite reverse_app. }
  unfold UNICODE_SPACES. cbn [List.find]. rewrite !Hends. clear Hends. generalize (reverse l). intros r.
  by destruct d.
Qed.

(** A text that starts with a letter and ends in a digit and a newline loses
    only the newline. *)
Lemma trim_text (l : bytes) (d : byte) :
  is_digit d = true -> trim_lfs_space (((x76 :: l) ++ [d]) ++ [x0a]) = (x76 :: l) ++ [d].
Proof.
  intros Hd. unfold trim_lfs_space.
  assert (forall fuel r, trim_leading fuel (x76 :: r) = x76 :: r) as Hlead by (by intros [|fuel] r).
  assert (forall fuel, trim_leading fuel (((x76 :: l) ++ [d]) ++ [x0a]) = ((x76 :: l) ++ [d]) ++ [x0a]) as ->.
  { intros fuel. apply Hlead. }
  apply trim_newline. by apply digit_not_space.
Qed.

(** A pointer line: not empty, no newline, no trailing carriage return. *)
Definition plain_line (l : bytes) : Prop := l <> [] /\ no_newline l /\ strip_cr l = l.

Lemma plain_line_snoc a b :
  no_newline a -> 48 <= byteN b -> plain_line (a ++ [b]).
Proof.
  intros Ha Hb. split_and!.
  - by destruct a.
  - apply Forall_app. split; [done|]. constructor; [|done]. by apply not_newline.
  - apply strip_cr_id. lia.
Qed.

Lemma pointer_lines_three a b c :
  plain_line a -> plain_line b -> plain_line c ->
  pointer_lines (a ++ x0a :: b ++ x0a :: c) = [a; b; c].
Proof.
  intros (Ha & Na & Sa) (Hb & Nb & Sb) (Hc & Nc & Sc). unfold pointer_lines.
  rewrite !split_on_line, split_on_last by done. cbn [fmap list_fmap]. rewrite Sa, Sb, Sc.
  rewrite !filter_cons_True by done. done.
Qed.

Lemma lfs_oid_line o st :
  lfs_digest o = true -> ls_oid st = None -> ls_previous_key st = None ->
  lfs_line st (bs "oid sha256:" ++ o) = Some (mkScan (Some (bs "oid")) (Some o) (ls_size st) (ls_priorities st)).
Proof.
  intros Ho Hn Hp. destruct (lfs_digest_spec o Ho) as [_ Hf]. unfold lfs_line.
  change (bs "oid sha256:" ++ o) with (bs "oid" ++ x20 :: (LFS_OID_PREFIX ++ o)).
  rewrite (position_app_l (fun b => beq b x20) (bs "oid")) by (by repeat constructor). cbn [mbind option_bind].
  rewrite take_mid, drop_mid, Hp. rewrite Hn. rewrite (bool_decide_eq_false_2 (LFS_OID_PREFIX ++ o = [])) by done.
  cbn [bool_decide orb]. rewrite (eq_refl : bytes_eqb (bs "oid") (bs "oid") = true).
  rewrite (proj2 (strip_prefix_Some LFS_OID_PREFIX (LFS_OID_PREFIX ++ o) o) eq_refl). cbn [mbind option_bind].
  rewrite Ho, ascii_utf8; [done|]. eapply Forall_impl; [exact Hf|]. intros b Hb. apply hex_char_range in Hb. lia.
Qed.

Lemma lfs_size_line o n d ds pr :
  Forall (fun b => is_digit b = true) (d :: ds) -> parse_digits 0 (d :: ds) = Some (Z.of_N n) -> n < 2 ^ 63 ->
  lfs_line (mkScan (Some (bs "oid")) (Some o) None pr) (bs "size " ++ (d :: ds))
  = Some (mkScan (Some (bs "size")) (Some o) (Some n) pr).
Proof.
  intros Hd Hp Hn. unfold lfs_line. change (bs "size " ++ (d :: ds)) with (bs "size" ++ x20 :: (d :: ds)).
  rewrite (position_app_l (fun b => beq b x20) (bs "size")) by (by repeat constructor). cbn [mbind option_bind].
  rewrite take_mid, drop_mid. cbn [ls_previous_key ls_oid ls_size ls_priorities].
  rewrite (eq_refl : bytes_leb (bs "size") (bs "oid") = false).
  rewrite (bool_decide_eq_false_2 (d :: ds = [])) by done. cbn [bool_decide orb].
  rewrite (eq_refl : bytes_eqb (bs "size") (bs "oid") = false), (eq_refl : bytes_eqb (bs "size") (bs "size") = true).
  rewrite ascii_utf8.
  2: { eapply Forall_impl; [exact Hd|]. intros b Hb. apply in_range_spec in Hb. lia. }
  inversion Hd as [|? ? Hd0 _]; subst. cbn [negb]. rewrite (digit_parse_i64 d ds n Hd0 Hp Hn). cbn [mbind option_bind].
  rewrite (proj2 (Z.ltb_ge _ _)) by lia. by rewrite N2Z.id.
Qed.

Lemma pointer_text_parses p : pointer_ok p -> parse_lfs_pointer (pointer_text p) = Some p.
Proof.
  destruct p as [o n]. intros [Ho Hn]. cbn [lfs_oid lfs_size] in *. unfold pointer_text. cbn [lfs_oid lfs_size].
  destruct (decimal_spec n Hn) as (d & ds & Hb & Hd & Hl & Hp). rewrite Hb.
  destruct (lfs_digest_spec o Ho) as [Hlo Hho].
  destruct (exists_last (l := d :: ds) ltac:(done)) as (ini & dl & Hini).
  destruct (exists_last (l := o) ltac:(by destruct o)) as (oini & ol & Hoini).
  assert (LFS_VERSION ++ [x0a] ++ (bs "oid sha256:" ++ o) ++ [x0a] ++ (bs "size " ++ d :: ds) ++ [x0a]
          = ((x76 :: (tail LFS_VERSION ++ [x0a] ++ (bs "oid sha256:" ++ o) ++ [x0a] ++ bs "size " ++ ini)) ++ [dl]) ++ [x0a]) as HE.
  { rewrite Hini. change LFS_VERSION with (x76 :: tail LFS_VERSION) at 1. generalize (tail LFS_VERSION). intros v.
    repeat (cbn [app]; rewrite <- ?app_assoc). done. }
  unfold parse_lfs_pointer. assert (length (LFS_VERSION ++ [x0a] ++ (bs "oid sha256:" ++ o) ++ [x0a] ++ (bs "size " ++ d :: ds) ++ [x0a]) <= 1024)%nat as Hlen.
  { rewrite !length_app, Hlo. cbn [length] in *. simpl. lia. }
  rewrite (proj2 (Nat.ltb_ge _ _)) by exact Hlen. rewrite HE.
  rewrite Forall_forall in Hd. assert (is_digit dl = true) as Hdl. { apply Hd. rewrite Hini. set_solver. }
  rewrite trim_text by done.
  assert ((x76 :: (tail LFS_VERSION ++ [x0a] ++ (bs "oid sha256:" ++ o) ++ [x0a] ++ bs "size " ++ ini)) ++ [dl]
          = LFS_VERSION ++ x0a :: (bs "oid sha256:" ++ o) ++ x0a :: (bs "size " ++ d :: ds)) as ->.
  { apply (app_inv_tail [x0a]). rewrite <- HE. repeat (cbn [app]; rewrite <- ?app_assoc). done. }
  rewrite pointer_lines_three.
  - rewrite (eq_refl : bytes_eqb LFS_VERSION LFS_VERSION = true). cbn [negb andb lfs_lines].
    rewrite lfs_oid_line by done. cbn [mbind option_bind ls_size ls_priorities].
    rewrite (lfs_size_line o n d ds) by (try apply Forall_forall; done). reflexivity.
  - split_and!; [done| |done]. by repeat constructor.
  - rewrite Hoini, app_assoc. apply plain_line_snoc.
    + apply Forall_app. split; [by repeat constructor|]. rewrite Hoini in Hho. apply Forall_app in Hho as [Hho _].
      eapply Forall_impl; [exact Hho|]. intros b Hb'. apply not_newline. apply hex_char_range in Hb'. lia.
    + rewrite Hoini in Hho. apply Forall_app in Hho as [_ Hol]. inversion Hol as [|? ? Hc]; subst.
      apply hex_char_range in Hc. lia.
  - rewrite Hini, app_assoc. apply plain_line_snoc; [|apply in_range_spec in Hdl; lia].
    apply Forall_app. split; [by repeat constructor|]. apply Forall_forall. intros b Hb'. apply not_newline.
    apply (in_range_spec 48 57). apply Hd. rewrite Hini. set_solver.
Qed.

(** What the loop has accepted so far. *)
Definition scan_ok (st : LfsScan) : Prop :=
  (forall o, ls_oid st = Some o -> lfs_digest o = true) /\ (forall n, ls_size st = Some n -> n < 2 ^ 63).

Lemma parse_i64_range l z : parse_i64 l = Some z -> (- 2 ^ 63 <= z < 2 ^ 63)%Z.
Proof.
  unfold parse_i64. destruct (match l with x2d :: rest => _ | _ => _ end) as [sign digits]. destruct digits; [done|].
  destruct (parse_digits 0 _) as [v|]; [|done]. cbn [mbind option_bind].
  destruct (in_i64 (sign * v)) eqn:E; [|done]. intros [= <-]. unfold in_i64 in E.
  apply andb_true_iff in E as [E1%Z.leb_le E2%Z.ltb_lt]. done.
Qed.

Lemma lfs_line_ok st line st' : scan_ok st -> lfs_line st line = Some st' -> scan_ok st'.
Proof.
  intros [Ho Hs]. unfold lfs_line. destruct (position _ line) as [sep|]; [|done]. cbn [mbind option_bind].
  destruct (_ || _); [done|]. destruct (bytes_eqb _ (bs "oid")).
  { destruct (ls_oid st); [done|]. destruct (strip_prefix _ _) as [dg|]; [|done]. cbn [mbind option_bind].
    destruct (lfs_digest dg) eqn:Ed; [|done]. destruct (negb (utf8_valid dg)); [done|]. intros [= <-].
    split; [|done]. by intros o [= <-]. }
  destruct (bytes_eqb _ (bs "size")).
  { destruct (ls_size st); [done|]. destruct (negb _); [done|].
    destruct (parse_i64 _) as [z|] eqn:Ez; [|done]. cbn [mbind option_bind]. apply parse_i64_range in Ez.
    destruct (z <? 0)%Z eqn:E0; [done|]. apply Z.ltb_ge in E0. intros [= <-]. split; [done|].
    cbn [ls_size]. intros n [= <-]. lia. }
  destruct (lfs_extension_priority _) as [pr|]; [|done]. cbn [mbind option_bind].
  destruct (strip_prefix _ _) as [dg|]; [|done]. cbn [mbind option_bind]. destruct (_ || _); [done|].
  intros [= <-]. by split.
Qed.

Lemma lfs_lines_ok ls st st' : scan_ok st -> lfs_lines st ls = Some st' -> scan_ok st'.
Proof.
  revert st. induction ls as [|l ls IH]; intros st Hs; cbn [lfs_lines]; [by intros [= <-]|].
  destruct (lfs_line st l) as [st1|] eqn:E; [|done]. cbn [mbind option_bind]. apply IH. by eapply lfs_line_ok.
Qed.

(** Recognising LFS pointers is sound, and complete on canonical texts:
    whatever is recognised is a payload of at most 1024 bytes, with a digest of
    64 lower-case hexadecimal characters and a size below [2^63]; and every
    such pointer is read back from its canonical text. *)
Theorem lfs_pointer_roundtrip :
  (forall payload p, parse_lfs_pointer payload = Some p -> (length payload <= 1024)%nat /\ pointer_ok p) /\
  (forall p, pointer_ok p <-> parse_lfs_pointer (pointer_text p) = Some p).
Proof.
  assert (forall payload p, parse_lfs_pointer payload = Some p -> (length payload <= 1024)%nat /\ pointer_ok p) as Hsound.
  { intros payload p. unfold parse_lfs_pointer. destruct (_ <? _)%nat eqn:El; [done|]. apply Nat.ltb_ge in El.
    destruct (pointer_lines _) as [|first rest]; [done|]. destruct (_ && _); [done|].
    destruct (lfs_lines _ rest) as [st|] eqn:E; [|done]. cbn [mbind option_bind].
    apply lfs_lines_ok in E as [Ho Hs]; [|done].
    destruct (ls_oid st) as [o|]; [|done]. cbn [mbind option_bind]. destruct (ls_size st) as [n|]; [|done].
    cbn [mbind option_bind]. intros [= <-]. split; [exact El|]. split; [by apply Ho|by apply Hs]. }
  split; [exact Hsound|]. intros p. split; [apply pointer_text_parses|]. intros E. by destruct (Hsound _ _ E).
Qed.

(* ------------------------------------------------------------------ *)
(** ** UTF-8 *)

(** The Unicode scalar values and their encoding. *)
Definition scalar (n : N) : Prop := n < 1114112 /\ ~ (55296 <= n <= 57343).
Definition utf8_encode (n : N) : bytes :=
  if n <? 128 then [Nbyte n]
  else if n <? 2048 then [Nbyte (192 + n / 64); Nbyte (128 + n mod 64)]
  else if n <? 65536 then [Nbyte (224 + n / 4096); Nbyte (128 + n / 64 mod 64); Nbyte (128 + n mod 64)]
  else [Nbyte (240 + n / 262144); Nbyte (128 + n / 4096 mod 64); Nbyte (128 + n / 64 mod 64); Nbyte (128 + n mod 64)].
Definition utf8_text (l : bytes) : Prop := exists points, Forall scalar points /\ l = points ≫= utf8_encode.

Lemma Nbyte_of n b : n = byteN b -> Nbyte n = b.
Proof. intros ->. apply Nbyte_byteN. Qed.
Lemma in_range_small lo hi n : n < 256 -> in_range lo hi (Nbyte n) = (lo <=? n) && (n <=? hi).
Proof. intros Hn. unfold in_range. by rewrite byteN_Nbyte_small. Qed.

Ltac div_lia := Z.to_euclidean_division_equations; lia.

Lemma utf8_valid_app n l : scalar n -> utf8_valid (utf8_encode n ++ l) = utf8_valid l.
Proof.
  intros [Hn Hs]. unfold utf8_encode. assert (Hleb : forall a b, a <= b -> (a <=? b) = true) by (intros; by apply N.leb_le).
  assert (Hleb' : forall a b, b < a -> (a <=? b) = false) by (intros; by apply N.leb_gt).
  destruct (N.ltb_spec n 128); [|destruct (N.ltb_spec n 2048); [|destruct (N.ltb_spec n 65536)]]; cbn [app utf8_valid];
    unfold continuation; rewrite !in_range_small by (zify; div_lia).
  - by rewrite !Hleb by lia.
  - rewrite (Hleb' (192 + n / 64) 127) by (zify; div_lia). rewrite andb_false_r. rewrite !Hleb by (zify; div_lia). done.
  - rewrite (Hleb' (224 + n / 4096) 127), (Hleb' (224 + n / 4096) 223) by (zify; div_lia). rewrite !andb_false_r.
    rewrite !byteN_Nbyte_small by (zify; div_lia).
    rewrite (Hleb 224 (224 + n / 4096)), (Hleb (224 + n / 4096) 239) by (zify; div_lia). cbn [andb].
    rewrite !(Hleb _ (128 + n mod 64)), !(Hleb (128 + n mod 64)) by (zify; div_lia). cbn [andb]. rewrite andb_true_r.
    rewrite (Hleb (if _ : bool then _ else _)), (Hleb (128 + n / 64 mod 64)); [done| |].
    + destruct (N.eqb_spec (224 + n / 4096) 237); zify; div_lia.
    + destruct (N.eqb_spec (224 + n / 4096) 224); zify; div_lia.
  - rewrite (Hleb' (240 + n / 262144) 127), (Hleb' (240 + n / 262144) 223), (Hleb' (240 + n / 262144) 239) by (zify; div_lia).
    rewrite !andb_false_r. rewrite !byteN_Nbyte_small by (zify; div_lia).
    rewrite (Hleb 240 (240 + n / 262144)), (Hleb (240 + n / 262144) 244) by (zify; div_lia). cbn [andb].
    rewrite !(Hleb _ (128 + n mod 64)), !(Hleb (128 + n mod 64)) by (zify; div_lia).
    rewrite !(Hleb _ (128 + n / 64 mod 64)), !(Hleb (128 + n / 64 mod 64)) by (zify; div_lia). cbn [andb]. rewrite !andb_true_r.
    rewrite (Hleb (if _ : bool then _ else _)), (Hleb (128 + n / 4096 mod 64)); [done| |].
    + destruct (N.eqb_spec (240 + n / 262144) 244); zify; div_lia.
    + destruct (N.eqb_spec (240 + n / 262144) 240); zify; div_lia.
Qed.

(** The first point of a text is the one whose encoding is its beginning. *)
Lemma utf8_text_cons n l r : scalar n -> l = utf8_encode n ++ r -> utf8_text r -> utf8_text l.
Proof. intros Hn -> (points & Hp & ->). exists (n :: points). split; [by constructor|done]. Qed.

(** The point that the bytes after a leading byte encode. *)
Lemma utf8_text_two b c1 l : 194 <= byteN b <= 223 -> 128 <= byteN c1 <= 191 -> utf8_text l -> utf8_text (b :: c1 :: l).
Proof.
  intros Hb H1 Hl. set (n := (byteN b - 192) * 64 + (byteN c1 - 128)). eapply (utf8_text_cons n); [split; lia| |exact Hl].
  unfold utf8_encode. rewrite (proj2 (N.ltb_ge n 128)), (proj2 (N.ltb_lt n 2048)) by lia. cbn [app].
  by rewrite (Nbyte_of _ b), (Nbyte_of _ c1) by (zify; div_lia).
Qed.
Lemma utf8_text_three b c1 c2 l :
  224 <= byteN b <= 239 -> (if byteN b =? 224 then 160 else 128) <= byteN c1 <= (if byteN b =? 237 then 159 else 191) ->
  128 <= byteN c2 <= 191 -> utf8_text l -> utf8_text (b :: c1 :: c2 :: l).
Proof.
  intros Hb H1 H2 Hl. set (n := (byteN b - 224) * 4096 + (byteN c1 - 128) * 64 + (byteN c2 - 128)).
  assert (128 <= byteN c1 <= 191) as H1' by (destruct (byteN b =? 224), (byteN b =? 237); lia).
  eapply (utf8_text_cons n); [split; destruct (N.eqb_spec (byteN b) 224), (N.eqb_spec (byteN b) 237); lia| |exact Hl].
  unfold utf8_encode. assert (2048 <= n) by (destruct (N.eqb_spec (byteN b) 224); lia).
  rewrite (proj2 (N.ltb_ge n 128)), (proj2 (N.ltb_ge n 2048)), (proj2 (N.ltb_lt n 65536)) by lia. cbn [app].
  by rewrite (Nbyte_of _ b), (Nbyte_of _ c1), (Nbyte_of _ c2) by (zify; div_lia).
Qed.
Lemma utf8_text_four b c1 c2 c3 l :
  240 <= byteN b <= 244 -> (if byteN b =? 240 then 144 else 128) <= byteN c1 <= (if byteN b =? 244 then 143 else 191) ->
  128 <= byteN c2 <= 191 -> 128 <= byteN c3 <= 191 -> utf8_text l -> utf8_text (b :: c1 :: c2 :: c3 :: l).
Proof.
  intros Hb H1 H2 H3 Hl. set (n := (byteN b - 240) * 262144 + (byteN c1 - 128) * 4096 + (byteN c2 - 128) * 64 + (byteN c3 - 128)).
  assert (128 <= byteN c1 <= 191) as H1' by (destruct (byteN b =? 240), (byteN b =? 244); lia).
  assert (65536 <= n) by (destruct (N.eqb_spec (byteN b) 240); lia).
  eapply (utf8_text_cons n); [split; [destruct (N.eqb_spec (byteN b) 244); lia|lia]| |exact Hl].
  unfold utf8_encode. rewrite (proj2 (N.ltb_ge n 128)), (proj2 (N.ltb_ge n 2048)), (proj2 (N.ltb_ge n 65536)) by lia. cbn [app].
  by rewrite (Nbyte_of _ b), (Nbyte_of _ c1), (Nbyte_of _ c2), (Nbyte_of _ c3) by (zify; div_lia).
Qed.

Lemma utf8_valid_sound k l : (length l <= k)%nat -> utf8_valid l = true -> utf8_text l.
Proof.
  revert l. induction k as [|k IH]; intros l Hk; (destruct l as [|b l]; [intros _; by exists []|]); [cbn in Hk; lia|].
  cbn in Hk. cbn [utf8_valid]. unfold continuation. destruct (in_range 0 127 b) eqn:E1.
  { apply in_range_spec in E1. intros Hv. eapply (utf8_text_cons (byteN b)); [split; lia| |apply IH; [|exact Hv]; lia].
    unfold utf8_encode. rewrite (proj2 (N.ltb_lt _ 128)) by lia. by rewrite Nbyte_byteN. }
  destruct (in_range 194 223 b) eqn:E2.
  { apply in_range_spec in E2. destruct l as [|c1 l]; [done|]. rewrite andb_true_iff, in_range_spec. intros [H1 Hv].
    apply utf8_text_two; [done|done|]. apply IH; [cbn in Hk; lia|done]. }
  destruct (in_range 224 239 b) eqn:E3.
  { apply in_range_spec in E3. destruct l as [|c1 [|c2 l]]; [done..|]. rewrite !andb_true_iff, !in_range_spec. intros [[H1 H2] Hv].
    apply utf8_text_three; [done|done|done|]. apply IH; [cbn in Hk; lia|done]. }
  destruct (in_range 240 244 b) eqn:E4; [|done].
  apply in_range_spec in E4. destruct l as [|c1 [|c2 [|c3 l]]]; [done..|]. rewrite !andb_true_iff, !in_range_spec. intros [[[H1 H2] H3] Hv].
  apply utf8_text_four; [done|done|done|done|]. apply IH; [cbn in Hk; lia|done].
Qed.

Lemma utf8_valid_text l : utf8_valid l = true <-> utf8_text l.
Proof.
  split; [by apply (utf8_valid_sound (length l))|]. intros (points & Hp & ->).
  induction Hp as [|n points Hn Hp IH]; [done|]. cbn [mbind list_bind]. by rewrite utf8_valid_app.
Qed.

(* ------------------------------------------------------------------ *)
(** ** What a file is *)

(** The classification: text is UTF-8 without a NUL in its first 8000 bytes. *)
Definition kind_shows (entry_kind : TreeItemKind) (payload : bytes) (kind : FileKind) : Prop :=
  match kind with
  | FSymlink => entry_kind = KSymlink
  | FText => entry_kind <> KSymlink /\ x00 ∉ take (N.to_nat 8000) payload /\ utf8_text payload
  | FBinary => entry_kind <> KSymlink /\ (x00 ∈ take (N.to_nat 8000) payload \/ ~ utf8_text payload)
  | FGitlink => False
  end.
Lemma file_kind_shows entry_kind payload : kind_shows entry_kind payload (file_kind entry_kind payload).
Proof.
  unfold file_kind. case_bool_decide as Hk; [exact Hk|].
  assert ((take (Nat.min (length payload) BINARY_PROBE_BYTES) payload : bytes) = take (N.to_nat 8000) payload) as ->.
  { change BINARY_PROBE_BYTES with (N.to_nat 8000). destruct (decide (length payload <= N.to_nat 8000)%nat).
    - rewrite Nat.min_l by lia. rewrite !take_ge by lia. done.
    - by rewrite Nat.min_r by lia. }
  assert (existsb (beq x00) (take (N.to_nat 8000) payload) = true <-> x00 ∈ take (N.to_nat 8000) payload) as Hz.
  { rewrite existsb_exists. split.
    - intros (b & Hb & E). apply beq_true in E as ->. by apply list_elem_of_In.
    - intros Hb. exists x00. split; [by apply list_elem_of_In|apply beq_refl]. }
  destruct (existsb _ _) eqn:E; cbn [orb].
  - split; [done|]. left. by apply Hz.
  - destruct (utf8_valid payload) eqn:Eu; cbn [negb].
    + split; [done|]. split; [|by apply utf8_valid_text]. intros Hb. apply Hz in Hb. done.
    + split; [done|]. right. intros Ht. apply utf8_valid_text in Ht. congruence.
Qed.

(** The pointer: a digest and a size in range, found in every text that is
    written the way Git LFS writes pointers. *)
Definition pointer_shows (payload : bytes) (pointer : option LfsPointer) : Prop :=
  (forall p, pointer = Some p -> (length payload <= N.to_nat 1024)%nat /\ pointer_ok p) /\
  (forall p, pointer_ok p -> payload = pointer_text p -> pointer = Some p).
Lemma pointer_shows_parsed payload : pointer_shows payload (parse_lfs_pointer payload).
Proof.
  destruct lfs_pointer_roundtrip as [Hs Hc]. split; [by apply Hs|]. intros p Hp ->. by apply Hc.
Qed.

(* ------------------------------------------------------------------ *)
(** ** Reading a file *)

Section ReadFile.
Context `{Env, GixObject, GixGlob} {T : Type} (db : ObjectDb T) (c : Oid -> ObjectReadResult)
        (I : T -> Prop) (F : ErrorCode -> Prop).
Context `{!LawfulDb db c I F}.

(** The entry of a readable path: not a tree, and a blob in the store unless
    it is a gitlink. *)
Definition file_entry (s : Snapshot) (path : bytes) (entry : ResolvedEntry) : Prop :=
  denotes db c s path (Entry entry) /\ re_kind entry <> KTree.
Definition file_payload (entry : ResolvedEntry) (payload : bytes) : Prop :=
  re_kind entry <> KGitlink /\ c (re_oid entry) = Some (Blob, payload).

Definition readable (s : Snapshot) (path : bytes) (opts : FileOptions) : Prop :=
  ensure_query_compatible db s = Ok tt /\ ordered_range opts /\
  exists entry, file_entry s path entry /\
    (re_kind entry = KGitlink \/ exists payload, file_payload entry payload /\ lenN (lines payload) <= u32_max).

(** What a successful read reports. *)
Definition file_shows (s : Snapshot) (path : bytes) (opts : FileOptions) (fr : FileRead) : Prop :=
  exists entry, file_entry s path entry /\
    fr_path fr = path /\ fr_blob_oid fr = re_oid entry /\ fr_mode fr = re_mode entry /\
    if bool_decide (re_kind entry = KGitlink) then
      fr_kind fr = FGitlink /\ fr_lfs_pointer fr = None /\ fr_data fr = [] /\ fr_truncated fr = false /\
      fr_start_line fr = None /\ fr_end_line fr = None /\ fr_total_lines fr = None /\ qs_stopped_by (fr_stats fr) = None
    else exists payload,
      file_payload entry payload /\ kind_shows (re_kind entry) payload (fr_kind fr) /\
      pointer_shows payload (fr_lfs_pointer fr) /\
      mkSliced (fr_data fr) (fr_start_line fr) (fr_end_line fr) (fr_total_lines fr) (fr_truncated fr)
        (qs_stopped_by (fr_stats fr)) = slice_ref payload opts.

Definition file_codes : list ErrorCode :=
  [UnsupportedHash; InvalidOid; InvalidArgument; NotABlob; ResultTooLarge] ++ path_codes.

Lemma query_compatible_Err s e :
  ensure_query_compatible db s = Err e -> code e ∈ file_codes.
Proof.
  unfold ensure_query_compatible, file_codes. case_bool_decide; [intros [= <-]; set_solver|].
  destruct (_ || _); [intros [= <-]; set_solver|done].
Qed.

Lemma hoare_read_stats stopped :
  hoare (on_store I) (fun _ => False) (read_stats db stopped) (fun st => qs_stopped_by st = stopped).
Proof. intros [b t] Ht. by split. Qed.

(** The part of the read after the entry is known. *)
Lemma read_entry_spec s path opts entry :
  ensure_query_compatible db s = Ok tt -> ordered_range opts -> file_entry s path entry ->
  hoare (on_store I) (fails F file_codes (~ readable s path opts))
    (if bool_decide (re_kind entry = KGitlink) then
       let! stats := read_stats db None in
       sret (mkFileRead path (re_oid entry) (re_mode entry) FGitlink [] None None None false None stats)
     else
       let! found := try_find db (re_oid entry) in
       let! payload := slift (match found with
                              | None => Err (missing_blob (re_oid entry))
                              | Some (kind, payload) =>
                                  if bool_decide (kind = Blob) then Ok payload
                                  else Err (Error_new NotABlob
                                              ("file object " ++ oid_str (re_oid entry) ++ " is not a blob"))
                              end) in
       let! sliced := slift (slice_payload payload opts) in
       let! stats := read_stats db (sp_stopped_by sliced) in
       sret (mkFileRead path (re_oid entry) (re_mode entry) (file_kind (re_kind entry) payload)
               (sp_data sliced) (sp_start_line sliced) (sp_end_line sliced) (sp_total_lines sliced)
               (sp_truncated sliced) (parse_lfs_pointer payload) stats))
    (file_shows s path opts).
Proof.
  intros Hq Ho He. destruct (decide (re_kind entry = KGitlink)) as [Hg|Hg].
  { rewrite bool_decide_eq_true_2 by done. eapply hoare_bind.
    - eapply hoare_conseq; [apply hoare_read_stats|done|]. intros a Ha. exact Ha.
    - intros st Hst. apply hoare_ret. exists entry. rewrite bool_decide_eq_true_2 by done. by split_and!. }
  rewrite bool_decide_eq_false_2 by done.
  assert (forall payload, readable s path opts -> c (re_oid entry) = payload ->
            exists p, payload = Some (Blob, p) /\ lenN (lines p) <= u32_max) as Huse.
  { intros payload (_ & _ & entry' & [Hd' Hk'] & Hr) <-. destruct He as [Hd Hk].
    pose proof (denotes_det db c _ _ _ _ Hd Hd') as [= <-]. destruct Hr as [Hr|(p & [_ Hp] & Hl)]; [done|]. by exists p. }
  eapply hoare_bind.
  { eapply hoare_conseq; [apply law_find|intros e He'; by left|intros v Hv; exact Hv]. }
  intros found ->. apply (hoare_bind _ _ _ _ (file_payload entry)).
  { apply hoare_lift. destruct (c (re_oid entry)) as [[kind payload]|] eqn:Ec; [case_bool_decide as Hb|].
    - subst kind. cbn. by split.
    - cbn. right. split; [unfold file_codes; set_solver|]. intros Hr. destruct (Huse _ Hr eq_refl) as (p & [= ? _] & _). done.
    - cbn. right. split; [unfold file_codes, path_codes; set_solver|]. intros Hr. by destruct (Huse _ Hr eq_refl) as (p & ? & _). }
  intros payload Hp. pose proof (slice_payload_outcome payload opts Ho) as Hs.
  apply (hoare_bind _ _ _ _ (fun sl => sl = slice_ref payload opts)).
  { apply hoare_lift. destruct (slice_payload payload opts) as [sl|e]; [done|]. cbn. right. destruct Hs as [-> Hl].
    split; [unfold file_codes; set_solver|]. intros Hr. destruct (Huse _ Hr (proj2 Hp)) as (p & [= ->] & Hl'). lia. }
  intros sl Hsl. eapply hoare_bind.
  - eapply hoare_conseq; [apply hoare_read_stats|done|]. intros a Ha. exact Ha.
  - intros st Hst. apply hoare_ret. exists entry. rewrite bool_decide_eq_false_2 by done. split_and!; try done.
    exists payload. split_and!; [done|apply file_kind_shows|apply pointer_shows_parsed|]. cbn. rewrite Hst, <- Hsl. by destruct sl.
Qed.

Lemma ordered_range_check opts :
  outcome (fun e => code e = InvalidArgument /\ ~ ordered_range opts) (fun _ => ordered_range opts)
    (match fo_lines opts with
     | Some (start, end_) =>
         if (start =? 0) || (end_ =? 0) || (end_ <? start) then
           Err (Error_new InvalidArgument "line range must be 1-based and ordered")
         else Ok tt
     | None => Ok tt
     end).
Proof.
  unfold ordered_range. destruct (fo_lines opts) as [[rs re]|]; [|done].
  destruct (_ || _) eqn:E; cbn.
  - split; [done|]. rewrite !orb_true_iff, !N.eqb_eq, N.ltb_lt in E. lia.
  - rewrite !orb_false_iff, !N.eqb_neq, N.ltb_ge in E. lia.
Qed.

Lemma read_file_spec s path opts :
  hoare (on_store I) (fails F file_codes (~ readable s path opts)) (read_file db s path opts)
    (file_shows s path opts).
Proof.
  unfold read_file. apply (hoare_bind _ _ _ _ (fun _ => ensure_query_compatible db s = Ok tt)).
  { apply hoare_lift. destruct (ensure_query_compatible db s) as [[]|e] eqn:Eq; [done|]. cbn. right.
    split; [by eapply query_compatible_Err|]. intros [? _]. congruence. }
  intros _ Hq. apply (hoare_bind _ _ _ _ (fun _ => ordered_range opts)).
  { apply hoare_lift. pose proof (ordered_range_check opts) as Hc. destruct (match fo_lines opts with None => _ | _ => _ end) as [u|e]; [done|].
    cbn in *. right. destruct Hc as [-> Hn]. split; [unfold file_codes; set_solver|]. by intros (_ & ? & _). }
  intros _ Ho. eapply hoare_bind.
  { eapply hoare_conseq; [apply (resolve_path_by_spec db c I F _ s path (read_tree_entries_spec db c I F))| |intros r Hr; exact Hr].
    intros e [He|[He Hn]]; [by left|right]. split; [unfold file_codes; set_solver|].
    intros (_ & _ & entry & [Hd _] & _). by eapply Hn. }
  intros r Hr. apply (hoare_bind _ _ _ _ (file_entry s path)).
  { apply hoare_lift. assert (forall t, (forall entry, r = Entry entry -> re_kind entry = KTree) ->
      outcome (fails F file_codes (~ readable s path opts)) (file_entry s path) (@Err Error ResolvedEntry t) \/ code t <> NotABlob) as Hbad.
    { intros t Ht. destruct (decide (code t = NotABlob)) as [E|]; [left|by right]. cbn. right. rewrite E.
      split; [unfold file_codes; set_solver|]. intros (_ & _ & entry & [Hd Hk] & _).
      apply Hk, Ht. by eapply denotes_det. }
    destruct r as [oid|entry]; [by destruct (Hbad not_a_blob)|].
    case_bool_decide as Hk; [|by split]. destruct (Hbad not_a_blob); [by intros ? [= <-]|done|done]. }
  intros entry He. by apply read_entry_spec.
Qed.

(** C35. Reading a file is exact over any lawful store: a successful read
    describes the non-tree entry the path denotes. Of a blob it returns the
    lines asked for, as far as they end within the byte cap, or the beginning of
    the first one when that does not fit, with their numbers, whether the cap
    kept the range from being completed, and the number of lines when the cap
    was not reached ([slice_ref]). It is text exactly when it is UTF-8 without a
    NUL in its first 8000 bytes; an LFS pointer has a digest and a size in range
    and is found in every canonical pointer text. A gitlink has no data. A read
    fails only when the store does, or when the path, the range or the object
    cannot be read at all. *)
Theorem read_file_exact s path opts w :
  I w.2 ->
  match (read_file db s path opts w).1 with
  | Ok fr => file_shows s path opts fr
  | Err e => F (code e) \/ (code e ∈ file_codes /\ ~ readable s path opts)
  end.
Proof.
  intros Hw. destruct (read_file_spec s path opts w Hw) as [Hr _]. by destruct (read_file db s path opts w).1.
Qed.

End ReadFile.

(** The example repository with the content of [a/b]. *)
Definition demo_text : bytes := bs "one" ++ [x0a] ++ bs "two" ++ [x0a] ++ bs "three" ++ [x0a].
Definition file_repo : StaticOdb := mkStatic Sha1 (<[sample_id x12 := (Blob, demo_text)]> (st_objects demo_repo)).
Definition file_db : ObjectDb unit := @static_db quiet unit file_repo.

Lemma read_file_exact_witness :
  exists fr, @file_shows simple_gix unit file_db (static_contents file_repo) demo_snapshot (bs "a/b")
               (mkFileOptions (Some (2, 3)) 10) fr /\ fr_data fr = bs "two" ++ [x0a].
Proof.
  pose proof (@read_file_exact simple_gix unit file_db (static_contents file_repo) (fun _ => True)
                plain_failure _ demo_snapshot (bs "a/b") (mkFileOptions (Some (2, 3)) 10) fresh_world Logic.I) as Hread.
  destruct (@read_file simple_gix unit file_db demo_snapshot (bs "a/b") (mkFileOptions (Some (2, 3)) 10) fresh_world)
    as [[fr|e] w] eqn:E.
  - exists fr. split; [exact Hread|]. revert E. vm_compute. by intros [= <- _].
  - exfalso. revert E. vm_compute. discriminate.
Defined.
