(* ===== verification/LocalOdb.v ===== *)
(** * The local object database ([local_odb.rs])

    Opening a repository (its directory, configuration and shallow file), the
    object reads, the deep checksum scan and the refresh of [LocalOdb].

    The object engine [gix_odb] and the configuration reader [gix_config] are
    the classes [GixOdb] and [GixConfig]; the file system is the class
    [LocalFs]. Their answers are indexed by a counter [ls_time] that every
    operation advances, so they may change between any two operations. A lock
    is poisoned only after a panic, which no modelled operation has, so the
    lock errors do not appear. *)

From Stdlib Require Import NArith ZArith Lia Strings.Byte Strings.String.
From stdpp Require Import prelude gmap strings list sorting.
From S2P Require Import Prelude Errors Objects Budget Odb Decode File.

Open Scope N_scope.

(** ** Outside code *)

(** [gix_odb::store::find::Error], and any other error ([FindOther]). *)
Inductive GixFindError : Type :=
| FindLoose
| FindPack
| FindEntryType
| FindDeltaBaseRecursionLimit
| FindDeltaBaseMissing
| FindDeltaBaseLookup
| FindLoadPack
| FindLoadIndex
| FindOther.

(** [gix_odb::Store]: opening it with its alternates, header and payload reads. *)
Class GixOdb : Type := {
  gix_store : Type;
  gix_store_at : nat -> bytes -> HashKind -> option gix_store;
  gix_alternates : nat -> gix_store -> option (list bytes);
  gix_header : nat -> gix_store -> Oid -> result GixFindError (option (ObjectKind * N));
  gix_payload : nat -> gix_store -> Oid -> result GixFindError (option Payload)
}.

(** [gix_config::File]. *)
Class GixConfig : Type := {
  config_file : Type;
  config_from_path : nat -> bytes -> option (option config_file);
  config_integer : config_file -> string -> string -> option (option Z);
  config_raw_value : config_file -> string -> string -> option bytes;
  config_boolean : config_file -> string -> string -> option (option bool)
}.

(** The file system: [std::fs::read], [read_dir] (the file names, with the
    entries that failed) and [File::open] (the length in its metadata, and the
    bytes that can be read). *)
Inductive IoFailure : Type :=
| IoNotFound
| IoOther.
Record OpenFile : Type := mkOpenFile { of_len : option N; of_data : bytes }.
Class LocalFs : Type := {
  fs_is_dir : nat -> bytes -> bool;
  fs_is_file : nat -> bytes -> bool;
  fs_read : nat -> bytes -> result IoFailure bytes;
  fs_read_dir : nat -> bytes -> result IoFailure (list (option bytes));
  fs_open : nat -> bytes -> option OpenFile
}.

(** ** Paths *)

(** [Path::join] and [Path::is_absolute]. *)
Definition is_absolute (p : bytes) : bool := starts_with p [x2f].
Definition path_join (a b : bytes) : bytes :=
  if is_absolute b then b
  else if bool_decide (a = []) || ends_with a [x2f] then a ++ b
  else a ++ [x2f] ++ b.

(** [Path::extension] of a file name. *)
Definition extension (name : bytes) : option bytes :=
  if bool_decide (name = bs "..") then None
  else match rposition (beq x2e) name with
       | None | Some O => None
       | Some i => Some (drop (S i) name)
       end.

(** The order of paths is that of their components. *)
Definition component_rank (c : bytes) : N * bytes :=
  if bool_decide (c = bs ".") then (1, [])
  else if bool_decide (c = bs "..") then (2, [])
  else (3, c).
Definition components (p : bytes) : list (N * bytes) :=
  let parts := split_on (beq x2f) p in
  let named := filter (fun c => c <> [] /\ c <> bs ".") parts in
  if is_absolute p then (0, []) :: (component_rank <$> named)
  else if bool_decide (head parts = Some (bs ".")) then component_rank (bs ".") :: (component_rank <$> named)
  else component_rank <$> named.
Definition component_cmp (a b : N * bytes) : comparison :=
  match a.1 ?= b.1 with Eq => bytes_cmp a.2 b.2 | o => o end.
Fixpoint components_leb (a b : list (N * bytes)) : bool :=
  match a, b with
  | [], _ => true
  | _ :: _, [] => false
  | x :: a, y :: b =>
      match component_cmp x y with
      | Lt => true
      | Gt => false
      | Eq => components_leb a b
      end
  end.
Definition path_le (a b : bytes) : Prop := components_leb (components a) (components b) = true.

(** ** The store *)

(** [RepositoryLayout] and [LocalOdbOptions]. *)
Record RepositoryLayout : Type := mkLayout { bare : bool; object_hash : HashKind }.
Record LocalOdbOptions : Type := mkLocalOptions { verify_pack_checksums : bool }.
Definition LocalOdbOptions_default : LocalOdbOptions := mkLocalOptions false.

Definition INTEGRITY_CHECK_INTERVAL_CHUNKS : nat := 16.

(** [checksum_read_failure], [checksum_mismatch] and [checksum_collision]. *)
Definition checksum_read_failure (c : ErrorCode) : Error :=
  Error_new c match c with
    | PackChecksumMismatch => "could not read local pack checksum"
    | IndexChecksumMismatch => "could not read local index checksum"
    | _ => "could not read local object database checksum"
    end.
Definition checksum_mismatch (c : ErrorCode) : Error :=
  Error_new c match c with
    | PackChecksumMismatch => "local pack checksum does not match"
    | IndexChecksumMismatch => "local index checksum does not match"
    | _ => "local object database checksum does not match"
    end.
Definition checksum_collision (c : ErrorCode) : Error :=
  Error_new c match c with
    | PackChecksumMismatch => "SHA-1 collision detected while verifying a local pack checksum"
    | IndexChecksumMismatch => "SHA-1 collision detected while verifying a local index checksum"
    | _ => "SHA-1 collision detected while verifying local object database checksums"
    end.

(** [map_find_error]. *)
Definition map_find_error (e : GixFindError) : Error :=
  match e with
  | FindLoadPack | FindLoadIndex => Error_retryable BackendError "local object store I/O failure"
  | FindLoose => Error_new MalformedObject "local loose object is malformed"
  | FindPack | FindEntryType | FindDeltaBaseRecursionLimit | FindDeltaBaseMissing | FindDeltaBaseLookup =>
      Error_new MalformedObject "local packed object is malformed"
  | FindOther => Error_new MalformedObject "local object database returned malformed data"
  end.

(** [trim_ascii]. *)
Fixpoint trim_start (l : bytes) : bytes :=
  match l with
  | b :: l' => if is_ascii_whitespace b then trim_start l' else l
  | [] => []
  end.
Definition trim_ascii (l : bytes) : bytes := reverse (trim_start (reverse (trim_start l))).

(** [<[u8]>::eq_ignore_ascii_case]. *)
Definition eq_ignore_ascii_case (a b : bytes) : bool :=
  bytes_eqb (to_ascii_lowercase a) (to_ascii_lowercase b).

(** [to_gix_oid]: the engine takes 20 and 32 bytes. *)
Definition to_gix_oid (oid : Oid) : Res Oid :=
  if ((length (as_bytes oid) =? 20) || (length (as_bytes oid) =? 32))%nat then Ok oid
  else Err (Error_new InvalidOid "object ID cannot be represented by the local object engine").

Section Store.
Context `{Env, Digests, !GixOdb, !GixConfig, !LocalFs}.

(** [LocalOdb]: what is fixed at opening, and what changes: the engine, the
    object directories and the outcome of the deep scan. *)
Record LocalOdb : Type := mkLocal {
  lo_hash : HashKind;
  lo_objects : bytes;
  lo_shallow_roots : option (gset Oid);
  lo_verify_pack_checksums : bool
}.
Record LocalState : Type := mkLocalState {
  ls_store : gix_store;
  ls_object_dirs : list bytes;
  ls_integrity : option (Res unit);
  ls_time : nat
}.
Definition with_integrity (r : option (Res unit)) (s : LocalState) : LocalState :=
  mkLocalState (ls_store s) (ls_object_dirs s) r (ls_time s).

(** ** Opening *)

(** [locate_git_dir]. *)
Definition local_invalid (m : string) : Error := Error_new InvalidArgument m.
Definition gitdir_marker (path marker : bytes) : Res bytes :=
  if (4096 <? length marker)%nat then Err (local_invalid "local repository gitdir marker is too large")
  else
    let? value := ok_or (local_invalid "local repository gitdir marker is malformed")
      (value ← trim_ascii <$> strip_prefix (bs "gitdir:") (trim_ascii marker);
       if bool_decide (value = []) then None else Some value) in
    if negb (utf8_valid value) then Err (local_invalid "local repository gitdir marker is not UTF-8")
    else Ok (if is_absolute value then value else path_join path value).
Definition locate_git_dir (n : nat) (path : bytes) : Res (bytes * option bool) :=
  if negb (fs_is_dir n path) then Err (local_invalid "local repository path is not a directory")
  else
    let dot_git := path_join path (bs ".git") in
    if fs_is_dir n dot_git then Ok (dot_git, Some false)
    else if fs_is_file n dot_git then
      let? marker := map_err (fun _ => local_invalid "could not read local repository gitdir marker")
                       (fs_read n dot_git) in
      let? git_dir := gitdir_marker path marker in
      Ok (git_dir, Some false)
    else if fs_is_file n (path_join path (bs "HEAD")) && fs_is_dir n (path_join path (bs "objects")) then
      Ok (path, None)
    else Err (local_invalid "path is not a bare or normal Git repository").

(** [load_config], [object_hash_from_config] and [bare_from_config]. *)
Definition load_config (n : nat) (git_dir : bytes) : Res config_file :=
  let? found := ok_or (local_invalid "could not read local repository configuration")
                  (config_from_path n (path_join git_dir (bs "config"))) in
  ok_or (local_invalid "local repository configuration is missing") found.
Definition object_hash_from_config (config : config_file) : Res HashKind :=
  let? format := ok_or (local_invalid "local repository format version is malformed")
                   (config_integer config "core" "repositoryFormatVersion") in
  let format := default 0%Z format in
  if (1 <? format)%Z then Err (local_invalid "local repository format version is unsupported")
  else if (format <? 1)%Z then Ok Sha1
  else match config_raw_value config "extensions" "objectFormat" with
       | None => Ok Sha1
       | Some value =>
           if eq_ignore_ascii_case value (bs "sha1") then Ok Sha1
           else if eq_ignore_ascii_case value (bs "sha256") then Ok Sha256
           else Err (Error_new UnsupportedHash "local repository uses an unsupported object hash")
       end.
Definition bare_from_config (config : config_file) : option bool := mjoin (config_boolean config "core" "bare").

(** [read_shallow_roots]. *)
Definition shallow_error (m : string) : Error := with_file Shallow (Error_new MalformedRef m).
Fixpoint shallow_lines (hash : HashKind) (lines : list bytes) (roots : gset Oid) : Res (gset Oid) :=
  match lines with
  | [] => Ok roots
  | line :: lines =>
      let parsed := if utf8_valid line then res_ok (parse_hex line) else None in
      match parsed with
      | Some oid =>
          if bool_decide (oid_kind oid = hash) then shallow_lines hash lines ({[oid]} ∪ roots)
          else Err (shallow_error "repository shallow boundary file contains a malformed object ID")
      | None => Err (shallow_error "repository shallow boundary file contains a malformed object ID")
      end
  end.
Definition strip_newline (l : bytes) : bytes :=
  match last l with Some x0a => take (length l - 1) l | _ => l end.
Definition parse_shallow (hash : HashKind) (data : bytes) : Res (gset Oid) :=
  let contents := strip_newline data in
  if bool_decide (contents = []) then Ok ∅
  else shallow_lines hash (split_on (beq x0a) contents) ∅.
Definition read_shallow_roots (n : nat) (git_dir : bytes) (hash : HashKind) : Res (option (gset Oid)) :=
  match fs_read n (path_join git_dir (bs "shallow")) with
  | Err IoNotFound => Ok None
  | Err IoOther => Err (shallow_error "could not read repository shallow boundary file")
  | Ok data =>
      let? roots := parse_shallow hash data in
      Ok (Some roots)
  end.

(** [open_dynamic_store]. *)
Definition open_dynamic_store (n : nat) (objects : bytes) (hash : HashKind) : Res (gix_store * list bytes) :=
  let? store := ok_or (Error_new BackendError "could not open local object database")
                  (gix_store_at n objects hash) in
  let? alternates := ok_or (Error_new BackendError "could not resolve local object database alternates")
                       (gix_alternates n store) in
  Ok (store, objects :: alternates).

(** [LocalOdb::open] and [LocalOdb::open_objects_dir]. *)
Definition open (n : nat) (path : bytes) (options : LocalOdbOptions)
  : Res (LocalOdb * LocalState * RepositoryLayout) :=
  let? located := locate_git_dir n path in
  let '(git_dir, bare_hint) := located in
  let? config := load_config n git_dir in
  let? hash := object_hash_from_config config in
  let bare := match bare_hint with Some b => b | None => default true (bare_from_config config) end in
  let objects := path_join git_dir (bs "objects") in
  if negb (fs_is_dir n objects) then Err (local_invalid "local repository has no object directory")
  else
    let? shallow_roots := read_shallow_roots n git_dir hash in
    let? opened := open_dynamic_store n objects hash in
    let '(store, object_dirs) := opened in
    Ok (mkLocal hash objects shallow_roots (verify_pack_checksums options),
        mkLocalState store object_dirs None (S n), mkLayout bare hash).
Definition open_objects_dir (n : nat) (objects : bytes) (hash : HashKind) (options : LocalOdbOptions)
  : Res (LocalOdb * LocalState) :=
  if negb (fs_is_dir n objects) then Err (local_invalid "local object database path is not a directory")
  else
    let? opened := open_dynamic_store n objects hash in
    let '(store, object_dirs) := opened in
    Ok (mkLocal hash objects None (verify_pack_checksums options),
        mkLocalState store object_dirs None (S n)).

(** ** The deep scan *)

(** One more observation of the outside. *)
Definition observe : DM LocalState nat :=
  fun '(b, s) =>
    (Ok (ls_time s), (b, mkLocalState (ls_store s) (ls_object_dirs s) (ls_integrity s) (S (ls_time s)))).

(** [File::read_exact]. *)
Definition read_exact (n : N) (data : bytes) : option (bytes * bytes) :=
  if n <=? lenN data then Some (take (N.to_nat n) data, drop (N.to_nat n) data) else None.

(** The reading loop of [verify_file_checksum], over the rest of the file, with
    a buffer of 64 KiB. *)
Definition BUFFER_BYTES : N := 65536.
Fixpoint checksum_loop (fuel : nat) (code : ErrorCode) (remaining : N) (chunks : nat) (hasher : ContentHasher)
  (data : bytes) : DM LocalState (ContentHasher * bytes) :=
  match fuel with
  | O => sret (hasher, data)
  | S fuel =>
      if remaining =? 0 then sret (hasher, data)
      else
        let! _ := if (chunks mod INTEGRITY_CHECK_INTERVAL_CHUNKS =? 0)%nat then on_budget check else sret tt in
        let wanted := N.min remaining BUFFER_BYTES in
        match read_exact wanted data with
        | None => sthrow (checksum_read_failure code)
        | Some (chunk, data) =>
            let! _ := on_budget (charge_integrity_bytes wanted) in
            checksum_loop fuel code (remaining - wanted) (S chunks) (hasher_update hasher chunk) data
        end
  end.
Definition checksum_fuel (len : N) : nat := N.to_nat (len / BUFFER_BYTES + 2).

(** [verify_file_checksum]. *)
Definition verify_file_checksum (path : bytes) (hash : HashKind) (code : ErrorCode) : DM LocalState unit :=
  let! n := observe in
  let! file := slift (ok_or (checksum_read_failure code) (fs_open n path)) in
  let! len := slift (ok_or (checksum_read_failure code) (of_len file)) in
  let digest := N.of_nat (digest_len hash) in
  if len <? digest then sthrow (checksum_mismatch code)
  else
    let! read := checksum_loop (checksum_fuel len) code (len - digest) 0 (ContentHasher_new hash) (of_data file) in
    let '(hasher, data) := read in
    let! _ := on_budget check in
    match read_exact digest data with
    | None => sthrow (checksum_read_failure code)
    | Some (expected, _) =>
        let! _ := on_budget (charge_integrity_bytes digest) in
        let! actual := slift (map_err (fun _ => checksum_collision code) (hasher_finalize hasher)) in
        if negb (bytes_eqb (as_bytes actual) expected) then sthrow (checksum_mismatch code) else sret tt
    end.

(** [verify_pack_files]: the files of every pack directory, sorted, then each. *)
Definition pack_dir_error : Error := Error_new BackendError "could not inspect local pack directory".
Definition file_code (name : bytes) : option ErrorCode :=
  if bool_decide (extension name = Some (bs "pack")) then Some PackChecksumMismatch
  else if bool_decide (extension name = Some (bs "idx")) || bool_decide (name = bs "multi-pack-index") then
    Some IndexChecksumMismatch
  else None.
Fixpoint list_entries (pack_dir : bytes) (entries : list (option bytes)) (files : list (bytes * ErrorCode))
  : Res (list (bytes * ErrorCode)) :=
  match entries with
  | [] => Ok files
  | None :: _ => Err pack_dir_error
  | Some name :: entries =>
      match file_code name with
      | Some code => list_entries pack_dir entries (files ++ [(path_join pack_dir name, code)])
      | None => list_entries pack_dir entries files
      end
  end.
Fixpoint list_files (object_dirs : list bytes) (files : list (bytes * ErrorCode))
  : DM LocalState (list (bytes * ErrorCode)) :=
  match object_dirs with
  | [] => sret files
  | object_dir :: object_dirs =>
      let! _ := on_budget check in
      let pack_dir := path_join object_dir (bs "pack") in
      let! n := observe in
      match fs_read_dir n pack_dir with
      | Err IoNotFound => list_files object_dirs files
      | Err IoOther => sthrow pack_dir_error
      | Ok entries =>
          let! files := slift (list_entries pack_dir entries files) in
          list_files object_dirs files
      end
  end.
Fixpoint verify_files (hash : HashKind) (files : list (bytes * ErrorCode)) : DM LocalState unit :=
  match files with
  | [] => sret tt
  | (path, code) :: files =>
      let! _ := verify_file_checksum path hash code in
      verify_files hash files
  end.
Definition file_le (a b : bytes * ErrorCode) : Prop := path_le a.1 b.1.
#[export] Instance file_le_dec a b : Decision (file_le a b).
Proof. unfold file_le, path_le. apply _. Defined.
Definition verify_pack_files (hash : HashKind) : DM LocalState unit :=
  let! object_dirs := sget (fun '(_, s) => ls_object_dirs s) in
  let! files := list_files object_dirs [] in
  verify_files hash (merge_sort file_le files).

(** [check_pack_integrity]: the outcome is kept, unless the budget stopped the
    scan. *)
Definition transient (r : Res unit) : bool :=
  match r with
  | Err e => bool_decide (code e = Cancelled \/ code e = Timeout \/ code e = BudgetExceeded)
  | Ok _ => false
  end.
Definition check_pack_integrity (l : LocalOdb) : DM LocalState unit :=
  let! _ := on_budget check in
  let! _ := on_budget check in
  let! cached := sget (fun '(_, s) => ls_integrity s) in
  match cached with
  | Some result => slift result
  | None =>
      fun w =>
        let '(result, (b, s)) := verify_pack_files (lo_hash l) w in
        (result, (b, if transient result then s else with_integrity (Some result) s))
  end.

(** [read_prologue]. *)
Definition read_prologue (l : LocalOdb) (oid : Oid) : DM LocalState unit :=
  let! _ := on_budget check in
  let! _ := slift (ensure_hash (lo_hash l) oid) in
  if lo_verify_pack_checksums l then check_pack_integrity l else sret tt.

(** ** The trait methods *)

Definition local_try_header (l : LocalOdb) (oid : Oid) : DM LocalState (option ObjectHeader) :=
  let! _ := read_prologue l oid in
  let! _ := on_budget charge_header in
  let! engine_oid := slift (to_gix_oid oid) in
  let! n := observe in
  let! store := sget (fun '(_, s) => ls_store s) in
  let! header := slift (map_err map_find_error (gix_header n store engine_oid)) in
  sret ((fun '(kind, size) => mkHeader kind size) <$> header).

(** The payload read that follows a header read. *)
Definition local_read_payload (oid : Oid) (kind : ObjectKind) (size : N) (read : result GixFindError (option Payload))
  : Res Payload :=
  let? found := map_err map_find_error read in
  let? data := ok_or (Error_new MalformedObject "object disappeared between local header and payload reads") found in
  if negb (lenN data.2 =? size) || negb (bool_decide (data.1 = kind)) then
    Err (Error_new MalformedObject "local object header does not match its inflated payload")
  else
    let? _ := verify oid data.1 data.2 in
    Ok data.
Definition local_try_find (l : LocalOdb) (oid : Oid) : DM LocalState ObjectReadResult :=
  let! _ := read_prologue l oid in
  let! engine_oid := slift (to_gix_oid oid) in
  let! n := observe in
  let! store := sget (fun '(_, s) => ls_store s) in
  let! header := slift (map_err map_find_error (gix_header n store engine_oid)) in
  match header with
  | None => sret None
  | Some (kind, size) =>
      let! _ := on_budget (charge_object size) in
      let! n := observe in
      let! data := slift (local_read_payload oid kind size (gix_payload n store engine_oid)) in
      sret (Some data)
  end.

Definition local_refresh (l : LocalOdb) : DM LocalState unit :=
  let! _ := on_budget check in
  let! n := observe in
  let! opened := slift (open_dynamic_store n (lo_objects l) (lo_hash l)) in
  fun '(b, s) => (Ok tt, (b, mkLocalState opened.1 opened.2 None (ls_time s))).

Definition local_db (l : LocalOdb) : ObjectDb LocalState :=
  let find := local_try_find l in
  let bounded := default_try_find_many_bounded find in
  {| hash_kind := lo_hash l;
     shallow_roots := lo_shallow_roots l;
     try_header := local_try_header l;
     try_header_with_provenance := default_try_header_with_provenance (local_try_header l);
     try_find := find;
     try_find_graph := default_try_find_graph find;
     try_find_many := default_try_find_many bounded;
     try_find_many_bounded := bounded;
     prefetch := default_prefetch;
     supports_prefetch := false;
     cache_stats := fun _ => CacheStats_default;
     refresh := local_refresh l |}.

End Store.

(* ------------------------------------------------------------------ *)
(** ** The deep scan is a checksum of every file *)

(** How a local store fails. *)
Definition local_failure (c : ErrorCode) : Prop :=
  plain_failure c \/ c = MalformedObject \/ c = BackendError \/ c = HashMismatch \/
  c = PackChecksumMismatch \/ c = IndexChecksumMismatch.
Definition checksum_code (c : ErrorCode) : Prop := c = PackChecksumMismatch \/ c = IndexChecksumMismatch.
Lemma checksum_failure c : checksum_code c -> local_failure c.
Proof. unfold checksum_code, local_failure. tauto. Qed.
Lemma stop_failure e : budget_stop e -> local_failure (code e).
Proof. intros He. left. by apply plain_stop. Qed.

(** What holds of the operations of a local store, whatever the budget. *)
Abbreviation scans I m P := (hoare (on_store I) (fun e => local_failure (code e)) m P).

Section Scan.
Context `{Env, Digests, !GixOdb, !GixConfig, !LocalFs}.

(** A file whose last bytes are the digest of the bytes before them. *)
Definition checksummed (hash : HashKind) (file : OpenFile) : Prop :=
  exists body trailer rest, of_data file = body ++ trailer ++ rest /\
    of_len file = Some (lenN body + lenN trailer) /\ digest_of hash body = Some trailer.

(** Every pack and index file that a directory was seen to hold. *)
Definition scanned (hash : HashKind) (object_dir : bytes) : Prop :=
  let pack_dir := path_join object_dir (bs "pack") in
  exists n, fs_read_dir n pack_dir = Err IoNotFound \/
    exists entries, fs_read_dir n pack_dir = Ok entries /\
      forall name code, Some name ∈ entries -> file_code name = Some code ->
        exists m file, fs_open m (path_join pack_dir name) = Some file /\ checksummed hash file.

(** Updates hash the concatenation. *)
Lemma hasher_update_app h a b : hasher_update (hasher_update h a) b = hasher_update h (a ++ b).
Proof. destruct h; simpl; by rewrite app_assoc. Qed.
Lemma hasher_update_nil h : hasher_update h [] = h.
Proof. destruct h; simpl; by rewrite app_nil_r. Qed.
Lemma hasher_digest hash body o :
  hasher_finalize (hasher_update (ContentHasher_new hash) body) = Ok o -> digest_of hash body = Some (as_bytes o).
Proof.
  destruct hash; simpl.
  - destruct (sha1 body); [|done]. intros Ho. by destruct (as_bytes_new _ _ _ Ho) as [-> _].
  - intros Ho. by destruct (as_bytes_new _ _ _ Ho) as [-> _].
Qed.

Lemma read_exact_Some n data a b : read_exact n data = Some (a, b) -> data = a ++ b /\ lenN a = n.
Proof.
  unfold read_exact. destruct (n <=? lenN data) eqn:E; [|done]. intros [= <- <-]. apply N.leb_le in E.
  split; [by rewrite take_drop|]. unfold lenN in *. rewrite length_take. lia.
Qed.

Lemma scan_check (I : LocalState -> Prop) : scans I (on_budget check) (fun _ => True).
Proof. apply hoare_check, stop_failure. Qed.
Lemma scan_charge (I : LocalState -> Prop) n : scans I (on_budget (charge_integrity_bytes n)) (fun _ => True).
Proof. apply hoare_budget; [apply stop_failure|]. intros b. unfold budget_stop. budget_cases; auto. Qed.
Lemma scan_lift {A} (I : LocalState -> Prop) (r : Res A) (P : A -> Prop) :
  (forall a, r = Ok a -> P a) -> (forall e, r = Err e -> local_failure (code e)) -> scans I (slift r) P.
Proof. intros Hr He. apply hoare_lift. destruct r; simpl; auto. Qed.
Lemma scan_ok_or {A} (I : LocalState -> Prop) e (o : option A) (P : A -> Prop) :
  (forall a, o = Some a -> P a) -> local_failure (code e) -> scans I (slift (ok_or e o)) P.
Proof. intros Ho He. apply hoare_lift. destruct o; simpl; auto. Qed.
Definition timeless (I : LocalState -> Prop) : Prop :=
  forall s n, I s -> I (mkLocalState (ls_store s) (ls_object_dirs s) (ls_integrity s) n).
Lemma scan_observe I : timeless I -> scans I observe (fun _ => True).
Proof. intros Ht [b s] Hs. split; [done|]. by apply (Ht s). Qed.

Context (I : LocalState -> Prop) (I_time : timeless I).

Lemma checksum_loop_spec fuel code remaining n h data :
  checksum_code code -> remaining <= N.of_nat fuel * BUFFER_BYTES ->
  scans I (checksum_loop fuel code remaining n h data) (fun '(h', rest) =>
    exists body, data = body ++ rest /\ lenN body = remaining /\ h' = hasher_update h body).
Proof.
  intros Hcode. pose proof (checksum_failure _ Hcode). revert remaining n h data. induction fuel as [|fuel IH]; intros remaining n h data Hf.
  { apply hoare_ret. exists []. rewrite hasher_update_nil. split_and!; [done|unfold lenN; simpl in *; lia|done]. }
  cbn [checksum_loop]. destruct (remaining =? 0) eqn:E.
  { apply N.eqb_eq in E as ->. apply hoare_ret. exists []. by rewrite hasher_update_nil. }
  apply N.eqb_neq in E. eapply (hoare_bind _ _ _ _ (fun _ => True)).
  { destruct (_ =? 0)%nat; [apply scan_check|by apply hoare_ret]. }
  intros _ _. destruct (read_exact _ data) as [[chunk data']|] eqn:Er; [|by apply hoare_throw].
  apply read_exact_Some in Er as [-> Hlen]. eapply hoare_bind; [apply scan_charge|]. intros _ _.
  eapply hoare_post; [apply IH|].
  - unfold BUFFER_BYTES in *. lia.
  - intros [h' rest] (body & -> & Hb & ->). exists (chunk ++ body). rewrite <- app_assoc, hasher_update_app.
    split_and!; [done| |done]. unfold lenN in *. rewrite length_app. unfold BUFFER_BYTES in *. lia.
Qed.

Lemma verify_file_checksum_spec path hash code :
  checksum_code code ->
  scans I (verify_file_checksum path hash code) (fun _ =>
    exists m file, fs_open m path = Some file /\ checksummed hash file).
Proof.
  intros Hcode. pose proof (checksum_failure _ Hcode). unfold verify_file_checksum. eapply hoare_bind; [by apply scan_observe|]. intros n _.
  eapply (hoare_bind _ _ _ _ (fun file => fs_open n path = Some file)).
  { by apply scan_ok_or. }
  intros file Hfile. eapply (hoare_bind _ _ _ _ (fun len => of_len file = Some len)).
  { by apply scan_ok_or. }
  intros len Hlen. destruct (len <? N.of_nat (digest_len hash)) eqn:El; [by apply hoare_throw|]. apply N.ltb_ge in El.
  eapply hoare_bind; [apply checksum_loop_spec; [done|]|].
  { unfold checksum_fuel. rewrite N2Nat.id. unfold BUFFER_BYTES.
    pose proof (N.div_mod len 65536). pose proof (N.mod_lt len 65536). lia. }
  intros [h rest] (body & Hdata & Hb & ->). eapply hoare_bind; [apply scan_check|]. intros _ _.
  destruct (read_exact _ rest) as [[expected tail]|] eqn:Er; [|by apply hoare_throw].
  apply read_exact_Some in Er as [-> He]. eapply hoare_bind; [apply scan_charge|]. intros _ _.
  eapply (hoare_bind _ _ _ _ (fun o => digest_of hash body = Some (as_bytes o))).
  { apply scan_lift; [intros o Ho; apply hasher_digest|intros e He']; by destruct (hasher_finalize _); simplify_eq/=. }
  intros o Ho. destruct (bytes_eqb (as_bytes o) expected) eqn:Eq; [|by apply hoare_throw].
  apply bytes_eqb_true in Eq as <-. apply hoare_ret. exists n, file. split; [done|].
  exists body, (as_bytes o), tail. split_and!; [done| |done]. rewrite Hlen. f_equal. lia.
Qed.

Lemma verify_files_spec hash files :
  Forall (fun x => checksum_code x.2) files ->
  scans I (verify_files hash files) (fun _ => forall path code, (path, code) ∈ files ->
    exists m file, fs_open m path = Some file /\ checksummed hash file).
Proof.
  induction 1 as [|[path code] files Hcode Hfiles IH]; simpl; [apply hoare_ret; set_solver|].
  eapply hoare_bind; [by apply verify_file_checksum_spec|]. intros ? Hf. simpl in Hf. eapply hoare_post; [apply IH|].
  intros ? Hfs path' code' [?|Hin]%elem_of_cons; simplify_eq; eauto.
Qed.

Lemma file_code_checksum name code : file_code name = Some code -> checksum_code code.
Proof. unfold file_code, checksum_code. repeat case_match; naive_solver. Qed.

Lemma list_entries_Err pack_dir entries files e :
  list_entries pack_dir entries files = Err e -> local_failure (code e).
Proof.
  revert files. induction entries as [|[name|] entries IH]; intros files; simpl; [done|case_match; apply IH|].
  intros [= <-]. unfold local_failure. simpl. tauto.
Qed.
Lemma list_entries_Ok pack_dir entries files out :
  list_entries pack_dir entries files = Ok out ->
  (forall x, x ∈ files -> x ∈ out) /\
  (Forall (fun x => checksum_code x.2) files -> Forall (fun x => checksum_code x.2) out) /\
  forall name code, Some name ∈ entries -> file_code name = Some code -> (path_join pack_dir name, code) ∈ out.
Proof.
  revert files. induction entries as [|[name|] entries IH]; intros files; simpl; [|..|done].
  - intros [= ->]. split_and!; [done..|]. set_solver.
  - destruct (file_code name) as [code|] eqn:E; intros Hl; apply IH in Hl as (Hfiles & Hcodes & Hnames).
    + split; [set_solver|]. split.
      { intros Hall. apply Hcodes, Forall_app. split; [done|]. apply Forall_singleton. by apply (file_code_checksum name). }
      intros name' code' [?|Hin]%elem_of_cons Hc; simplify_eq; [|eauto]. set_solver.
    + split_and!; [done..|]. intros name' code' [?|Hin]%elem_of_cons Hc; simplify_eq; eauto.
Qed.

(** What a directory was seen to hold is in the list. *)
Definition listed (files : list (bytes * ErrorCode)) (object_dir : bytes) : Prop :=
  let pack_dir := path_join object_dir (bs "pack") in
  exists n, fs_read_dir n pack_dir = Err IoNotFound \/
    exists entries, fs_read_dir n pack_dir = Ok entries /\
      forall name code, Some name ∈ entries -> file_code name = Some code -> (path_join pack_dir name, code) ∈ files.

Lemma list_files_spec dirs files :
  scans I (list_files dirs files) (fun out =>
    (forall x, x ∈ files -> x ∈ out) /\
    (Forall (fun x => checksum_code x.2) files -> Forall (fun x => checksum_code x.2) out) /\ Forall (listed out) dirs).
Proof.
  revert files. induction dirs as [|dir dirs IH]; intros files; simpl; [by apply hoare_ret|].
  eapply hoare_bind; [apply scan_check|]. intros _ _. eapply hoare_bind; [by apply scan_observe|]. intros n _.
  destruct (fs_read_dir n _) as [entries|[]] eqn:E; [|..|apply hoare_throw; unfold local_failure; simpl; tauto].
  - eapply (hoare_bind _ _ _ _ (fun out => list_entries _ entries files = Ok out)); [apply scan_lift; [done|apply list_entries_Err]|].
    intros out (Hfiles & Hcodes & Hnames)%list_entries_Ok. eapply hoare_post; [apply IH|].
    intros out' (Hout & Hcs & Hl). split_and!; [auto..|]. constructor; [|done]. exists n. right. exists entries. split; [done|]. eauto.
  - eapply hoare_post; [apply IH|]. intros out' (Hout & Hcs & Hl). split_and!; [done..|].
    constructor; [|done]. exists n. by left.
Qed.

Lemma verify_pack_files_spec hash dirs :
  (forall s, I s -> ls_object_dirs s = dirs) ->
  scans I (verify_pack_files hash) (fun _ => Forall (scanned hash) dirs).
Proof.
  intros Hdirs. unfold verify_pack_files. eapply (hoare_bind _ _ _ _ (fun d => d = dirs)).
  { intros [b s] Hs. split; [by apply Hdirs|done]. }
  intros _ ->. eapply hoare_bind; [apply list_files_spec|]. intros files (_ & Hcodes & Hl).
  eapply hoare_post; [apply verify_files_spec|].
  { rewrite merge_sort_Permutation. by apply Hcodes. } intros ? Hv. eapply Forall_impl; [exact Hl|].
  intros dir (n & [Hn|(entries & He & Hin)]); exists n; [by left|right]. exists entries. split; [done|].
  intros name code Hname Hc. eapply Hv. rewrite merge_sort_Permutation. eauto.
Qed.

End Scan.

(* ------------------------------------------------------------------ *)
(** ** Reads *)

Section Reads.
Context `{Env, Digests, !GixOdb, !GixConfig, !LocalFs}.

(** The kept outcome of the deep scan is true of the directories. *)
Definition integrity_ok (hash : HashKind) (dirs : list bytes) (r : option (Res unit)) : Prop :=
  match r with
  | Some (Ok _) => Forall (scanned hash) dirs
  | Some (Err e) => local_failure (code e)
  | None => True
  end.
Definition local_inv (l : LocalOdb) (store : gix_store) (dirs : list bytes) (s : LocalState) : Prop :=
  ls_store s = store /\ ls_object_dirs s = dirs /\ integrity_ok (lo_hash l) dirs (ls_integrity s).

Lemma local_inv_timeless l store dirs : timeless (local_inv l store dirs).
Proof. by intros s n (? & ? & ?). Qed.

(** Opening and refreshing establish it, with nothing scanned yet. *)
Lemma open_inv n path options l s layout :
  open n path options = Ok (l, s, layout) -> local_inv l (ls_store s) (ls_object_dirs s) s.
Proof.
  unfold open. intros ([git_dir hint] & _ & Ho)%rbind_Ok. apply rbind_Ok in Ho as (config & _ & Ho).
  apply rbind_Ok in Ho as (hash & _ & Ho). case_match; [done|]. apply rbind_Ok in Ho as (roots & _ & Ho).
  apply rbind_Ok in Ho as ([store dirs] & _ & Ho). by simplify_eq.
Qed.
Lemma open_objects_dir_inv n objects hash options l s :
  open_objects_dir n objects hash options = Ok (l, s) ->
  local_inv l (ls_store s) (ls_object_dirs s) s /\ lo_hash l = hash.
Proof.
  unfold open_objects_dir. case_match; [done|]. intros ([store dirs] & _ & Ho)%rbind_Ok. by simplify_eq.
Qed.
Lemma local_refresh_inv l store dirs b s r b' s' :
  local_inv l store dirs s -> local_refresh l (b, s) = (r, (b', s')) ->
  local_inv l (ls_store s') (ls_object_dirs s') s'.
Proof.
  intros Hs. unfold local_refresh, sbind, on_budget, observe. destruct (check b) as [[u|e] b1]; simpl.
  - destruct (open_dynamic_store _ _ _) as [[st ds]|e]; simpl; intros; simplify_eq; [done|].
    destruct Hs as (<- & <- & ?). by split_and!.
  - intros. simplify_eq. destruct Hs as (<- & <- & ?). by split_and!.
Qed.

Section Fixed.
Context (l : LocalOdb) (store : gix_store) (dirs : list bytes).
Abbreviation Inv := (local_inv l store dirs).
Let clean : Prop := lo_verify_pack_checksums l = true -> Forall (scanned (lo_hash l)) dirs.

Lemma check_pack_integrity_spec :
  scans Inv (check_pack_integrity l) (fun _ => Forall (scanned (lo_hash l)) dirs).
Proof.
  unfold check_pack_integrity. do 2 (eapply hoare_bind; [apply scan_check|]; intros _ _).
  eapply (hoare_bind _ _ _ _ (integrity_ok (lo_hash l) dirs)).
  { intros [b s] Hs. split; [by destruct Hs as (_ & _ & ?)|done]. }
  intros [[u|e]|] Hc; [by apply hoare_lift..|]. intros [b s] Hs.
  destruct (verify_pack_files_spec Inv (local_inv_timeless l store dirs) (lo_hash l) dirs) with (w := (b, s)) as [Ho Hi].
  { by intros ? (_ & ? & _). }
  { done. }
  destruct (verify_pack_files (lo_hash l) (b, s)) as [r [b' s']]. simpl in *. split; [done|].
  destruct (transient r); [done|]. destruct Hi as (? & ? & _). split_and!; [done..|]. by destruct r.
Qed.

Lemma ensure_local_spec oid :
  scans Inv (slift (ensure_hash (lo_hash l) oid)) (fun _ => oid_kind oid = lo_hash l).
Proof.
  apply hoare_lift. unfold ensure_hash. case_bool_decide; simpl; [done|]. left. unfold plain_failure. simpl. tauto.
Qed.
Lemma read_prologue_spec oid : scans Inv (read_prologue l oid) (fun _ => oid_kind oid = lo_hash l /\ clean).
Proof.
  unfold read_prologue, clean. eapply hoare_bind; [apply scan_check|]. intros _ _.
  eapply hoare_bind; [apply ensure_local_spec|]. intros ? Ho.
  destruct (lo_verify_pack_checksums l); [|by apply hoare_ret].
  eapply hoare_post; [apply check_pack_integrity_spec|]. done.
Qed.
Lemma gix_oid_spec oid : scans Inv (slift (to_gix_oid oid)) (fun o => o = oid).
Proof.
  apply hoare_lift. unfold to_gix_oid. case_match; simpl; [done|]. left. unfold plain_failure. simpl. tauto.
Qed.
Lemma get_store_spec : scans Inv (sget (fun '(_, s) => ls_store s)) (fun st => st = store).
Proof. intros [b s] Hs. split; [apply Hs|done]. Qed.
Lemma find_error_failure e : local_failure (code (map_find_error e)).
Proof. destruct e; unfold local_failure; simpl; tauto. Qed.
Lemma engine_spec {A} (r : result GixFindError A) :
  scans Inv (slift (map_err map_find_error r)) (fun a => r = Ok a).
Proof. apply hoare_lift. destruct r; simpl; [done|]. apply find_error_failure. Qed.

(** A payload that is returned is what the engine read, matches the header and
    verifies. *)
Lemma local_read_payload_Ok oid kind size read p :
  local_read_payload oid kind size read = Ok p ->
  read = Ok (Some p) /\ verify oid p.1 p.2 = Ok tt /\ p.1 = kind /\ lenN p.2 = size.
Proof.
  unfold local_read_payload. intros (found & Hf & Hp)%rbind_Ok. apply rbind_Ok in Hp as (data & Hd & Hp).
  apply ok_or_Ok in Hd as ->. destruct read; simplify_eq/=. destruct (_ || _) eqn:E; [done|].
  apply orb_false_iff in E as [Es Ek]. apply rbind_Ok in Hp as ([] & Hv & Hp). simplify_eq.
  apply negb_false_iff in Es, Ek. split_and!; [done..| |]; [by apply bool_decide_eq_true in Ek|by apply N.eqb_eq].
Qed.
Lemma local_read_payload_Err oid kind size read e :
  local_read_payload oid kind size read = Err e -> local_failure (code e).
Proof.
  unfold local_read_payload. destruct read as [[data|]|f]; simpl.
  - destruct (_ || _); [intros [= <-]; unfold local_failure; simpl; tauto|].
    destruct (verify oid data.1 data.2) as [|e'] eqn:Ev; simpl; [done|]. intros [= <-].
    unfold local_failure, plain_failure. destruct (verify_Err_code _ _ _ _ Ev) as [->| ->]; tauto.
  - intros [= <-]. unfold local_failure. simpl. tauto.
  - intros [= <-]. apply find_error_failure.
Qed.

(** The two reads, whatever the engine answers. *)
Lemma local_try_header_spec oid :
  scans Inv (local_try_header l oid) (fun h =>
    oid_kind oid = lo_hash l /\ clean /\
    exists n g, gix_header n store oid = Ok g /\ h = (fun '(kind, size) => mkHeader kind size) <$> g).
Proof.
  unfold local_try_header. eapply hoare_bind; [apply read_prologue_spec|]. intros ? Hp.
  eapply hoare_bind; [apply hoare_charge_header, stop_failure|]. intros _ _.
  eapply hoare_bind; [apply gix_oid_spec|]. intros o ->.
  eapply hoare_bind; [apply scan_observe, local_inv_timeless|]. intros n _.
  eapply hoare_bind; [apply get_store_spec|]. intros st ->.
  eapply hoare_bind; [apply engine_spec|]. intros g Hg. apply hoare_ret. naive_solver.
Qed.
Lemma local_try_find_spec oid :
  scans Inv (local_try_find l oid) (fun v =>
    oid_kind oid = lo_hash l /\ clean /\
    match v with
    | None => exists n, gix_header n store oid = Ok None
    | Some p => verify oid p.1 p.2 = Ok tt /\
                exists n, gix_payload n store oid = Ok (Some p)
    end).
Proof.
  unfold local_try_find. eapply hoare_bind; [apply read_prologue_spec|]. intros ? [Hk Hc].
  eapply hoare_bind; [apply gix_oid_spec|]. intros o ->.
  eapply hoare_bind; [apply scan_observe, local_inv_timeless|]. intros n _.
  eapply hoare_bind; [apply get_store_spec|]. intros st ->.
  eapply hoare_bind; [apply engine_spec|]. intros [[kind size]|] Hg; [|apply hoare_ret; eauto].
  eapply hoare_bind; [apply hoare_charge_object, stop_failure|]. intros _ _.
  eapply hoare_bind; [apply scan_observe, local_inv_timeless|]. intros m _.
  eapply (hoare_bind _ _ _ _ (fun p => local_read_payload oid kind size (gix_payload m store oid) = Ok p)).
  { apply scan_lift; [done|]. intros e. apply local_read_payload_Err. }
  intros p (Hm & Hv & _)%local_read_payload_Ok. apply hoare_ret. eauto 6.
Qed.

End Fixed.

(** C11. A local store serves only what was checked: whatever the engine and
    the file system answer, a payload that is returned is the content that its
    ID addresses; and when the store was opened with
    [verify_pack_checksums], nothing is answered, not even an absence or a
    header, unless every pack and index file of every object directory was
    read and found to end with its own digest. *)
Theorem local_reads_are_checked l oid b s v b' s' :
  local_inv l (ls_store s) (ls_object_dirs s) s ->
  (local_try_find l oid (b, s) = (Ok v, (b', s')) ->
   local_inv l (ls_store s) (ls_object_dirs s) s' /\ oid_kind oid = lo_hash l /\
   (forall k d, v = Some (k, d) -> verify oid k d = Ok tt) /\
   (lo_verify_pack_checksums l = true -> Forall (scanned (lo_hash l)) (ls_object_dirs s))) /\
  (forall h, local_try_header l oid (b, s) = (Ok h, (b', s')) ->
   local_inv l (ls_store s) (ls_object_dirs s) s' /\ oid_kind oid = lo_hash l /\
   (lo_verify_pack_checksums l = true -> Forall (scanned (lo_hash l)) (ls_object_dirs s))).
Proof.
  intros Hs. split.
  - intros Hrun. pose proof (local_try_find_spec l _ _ oid (b, s) Hs) as Hw. rewrite Hrun in Hw.
    destruct Hw as [(Hk & Hc & Hv) Hi]. split_and!; [done..| |done]. intros k d ->. apply Hv.
  - intros h Hrun. pose proof (local_try_header_spec l _ _ oid (b, s) Hs) as Hw. rewrite Hrun in Hw.
    destruct Hw as [(Hk & Hc & Hv) Hi]. by split_and!.
Qed.

(** An engine that has the contents [c]: it answers a read with them, or fails. *)
Class StableEngine (store : gix_store) (c : Oid -> ObjectReadResult) : Prop := {
  stable_header n oid g : gix_header n store oid = Ok g -> g = (fun p => (p.1, lenN p.2)) <$> c oid;
  stable_payload n oid p : gix_payload n store oid = Ok p -> p = c oid
}.

Section Lawful.
Context (l : LocalOdb) (store : gix_store) (dirs : list bytes) (c : Oid -> ObjectReadResult)
  `{!StableEngine store c}.

Lemma local_find_law oid : scans (local_inv l store dirs) (local_try_find l oid) (fun v => v = c oid).
Proof.
  eapply hoare_post; [apply local_try_find_spec|]. intros [p|] (_ & _ & Hv).
  - destruct Hv as (_ & n & Hn). by apply stable_payload in Hn.
  - destruct Hv as (n & Hn). apply stable_header in Hn. by destruct (c oid).
Qed.
Lemma local_header_law oid :
  scans (local_inv l store dirs) (local_try_header l oid) (fun h => h = header_of <$> c oid).
Proof.
  eapply hoare_post; [apply local_try_header_spec|]. intros h (_ & _ & n & g & Hg & ->).
  apply stable_header in Hg as ->. by destruct (c oid) as [[]|].
Qed.

#[export] Instance local_headers : VerifiedHeaders (local_db l) c (local_inv l store dirs) local_failure.
Proof. constructor. apply local_header_law. Qed.
#[export] Instance local_lawful : LawfulDb (local_db l) c (local_inv l store dirs) local_failure.
Proof.
  constructor; simpl; intros.
  - apply local_find_law.
  - apply hoare_without_object_charge, local_find_law.
  - unfold default_try_header_with_provenance. eapply hoare_bind; [apply local_header_law|].
    intros h ->. apply hoare_ret. unfold header_agrees. by destruct (c oid) as [[]|].
  - apply default_many_spec; [apply local_find_law|]. left. unfold plain_failure. tauto.
  - by apply hoare_ret.
Qed.

End Lawful.

End Reads.

(** C10. A local store keeps the object-store contract: over an engine that
    answers with fixed contents or fails, every read through the trait, single,
    batched, of the graph or of a header, gives what the contents say or fails
    with a listed code. The algorithms proved against [LawfulDb] and
    [VerifiedHeaders] therefore run on it. *)
Theorem local_store_is_lawful `{Env, Digests, !GixOdb, !GixConfig, !LocalFs} l store dirs c :
  StableEngine store c ->
  LawfulDb (local_db l) c (local_inv l store dirs) local_failure /\
  VerifiedHeaders (local_db l) c (local_inv l store dirs) local_failure.
Proof. intros Hc. split; apply _. Qed.

(* ------------------------------------------------------------------ *)
(** ** Concrete runs *)

Module LocalDemo.

(** A bare repository with one object, one pack file and a shallow file. *)
Definition contents (oid : Oid) : ObjectReadResult :=
  if bool_decide (oid = toy_oid) then Some (Blob, bs "hello") else None.
Definition engine : GixOdb := {|
  gix_store := unit;
  gix_store_at _ _ _ := Some tt;
  gix_alternates _ _ := Some [];
  gix_header _ _ oid := Ok ((fun p => (p.1, lenN p.2)) <$> contents oid);
  gix_payload _ _ oid := Ok (contents oid)
|}.
Definition config : GixConfig := {|
  config_file := unit;
  config_from_path _ _ := Some (Some tt);
  config_integer _ _ _ := Some (Some 0%Z);
  config_raw_value _ _ _ := None;
  config_boolean _ _ _ := Some None
|}.
Definition pack_body : bytes := bs "PACK".
Definition pack_file (good : bool) : OpenFile :=
  let trailer := if good then toy_digest 20 pack_body else replicate 20 x00 in
  mkOpenFile (Some 24) (pack_body ++ trailer).
Definition files (good : bool) : LocalFs := {|
  fs_is_dir _ p := bool_decide (p ∈ [bs "/r"; bs "/r/objects"]);
  fs_is_file _ p := bool_decide (p = bs "/r/HEAD");
  fs_read _ p := if bool_decide (p = bs "/r/shallow") then Ok (to_hex toy_oid ++ [x0a]) else Err IoNotFound;
  fs_read_dir _ p := if bool_decide (p = bs "/r/objects/pack")
                     then Ok [Some (bs "pack-1.pack"); Some (bs "notes")] else Err IoNotFound;
  fs_open _ p := if bool_decide (p = bs "/r/objects/pack/pack-1.pack") then Some (pack_file good) else None
|}.
Definition opened (good : bool) :=
  @open engine config (files good) 0 (bs "/r") (mkLocalOptions true).
Definition store (good : bool) : @LocalOdb := 
  mkLocal Sha1 (bs "/r/objects") (Some {[toy_oid]}) true.
Definition state : @LocalState engine := @mkLocalState engine tt [bs "/r/objects"] None 1.

Example opens : opened true = Ok (store true, state, mkLayout true Sha1).
Proof. vm_compute. reflexivity. Qed.
Example finds :
  (@local_try_find quiet toy_digests engine (files true) (store true) toy_oid (Budget_unlimited, state)).1 =
  Ok (Some (Blob, bs "hello")).
Proof. vm_compute. reflexivity. Qed.
(** A corrupt pack refuses every read, also after the first. *)
Example corrupt_refuses :
  let find := @local_try_find quiet toy_digests engine (files false) (store false) toy_oid in
  let '(r, w) := find (Budget_unlimited, state) in
  (r, (find w).1) = (Err (checksum_mismatch PackChecksumMismatch), Err (checksum_mismatch PackChecksumMismatch)).
Proof. vm_compute. reflexivity. Qed.
Lemma state_inv : @local_inv toy_digests engine (files true) (store true) tt [bs "/r/objects"] state.
Proof. by split_and!. Qed.

End LocalDemo.

Lemma local_reads_are_checked_witness :
  let '(r, (b', s')) := @local_try_find quiet toy_digests LocalDemo.engine (LocalDemo.files true)
    (LocalDemo.store true) toy_oid (Budget_unlimited, LocalDemo.state) in
  r = Ok (Some (Blob, bs "hello")) /\
  Forall (@scanned toy_digests (LocalDemo.files true) Sha1) [bs "/r/objects"].
Proof.
  destruct (@local_try_find quiet toy_digests LocalDemo.engine (LocalDemo.files true)
    (LocalDemo.store true) toy_oid (Budget_unlimited, LocalDemo.state)) as [r [b' s']] eqn:E.
  assert (r = Ok (Some (Blob, bs "hello"))) as ->.
  { apply (f_equal fst) in E. vm_compute in E. symmetry. exact E. }
  split; [reflexivity|].
  apply (proj1 (@local_reads_are_checked quiet toy_digests LocalDemo.engine (LocalDemo.files true) (LocalDemo.store true)
    toy_oid Budget_unlimited LocalDemo.state (Some (Blob, bs "hello")) b' s' LocalDemo.state_inv) E).
  reflexivity.
Defined.

Lemma local_store_is_lawful_witness :
  @LawfulDb (@LocalState LocalDemo.engine) (@local_db quiet toy_digests LocalDemo.engine (LocalDemo.files true) (LocalDemo.store true))
    LocalDemo.contents (@local_inv toy_digests LocalDemo.engine (LocalDemo.files true) (LocalDemo.store true) tt [bs "/r/objects"])
    local_failure.
Proof.
  refine (proj1 (@local_store_is_lawful quiet toy_digests LocalDemo.engine LocalDemo.config (LocalDemo.files true)
    (LocalDemo.store true) tt [bs "/r/objects"] LocalDemo.contents _)).
  split; intros n oid x [= <-]; reflexivity.
Defined.
