(* ===== verification/Hydrate.v ===== *)
(** * Hydration of a pack destination ([packfetch.rs], second half)

    [PackFetchOdb]: the plan, the fetch, the verification, the publication of
    files through temporary names, the open-time probe and the swap of the
    local store.

    The directory [objects/pack] of the destination is a map from file names to
    contents. Every system call takes one step of [hs_io]; the class
    [DiskFaults] says which of them fail, and how much a failing write leaves
    behind. [hs_trace] records every state the directory goes through, which no
    operation reads: a crash of the process leaves one of them. The hydration
    lock makes the destination private to one hydration at a time.

    The elapsed times of the statistics are not modelled. *)

From Stdlib Require Import NArith Lia Strings.Byte Strings.String.
From stdpp Require Import prelude gmap strings list pretty.
From S2P Require Import Prelude Errors Objects Budget Odb RangeFetch LocalOdb.

Open Scope N_scope.

(** The failures of the file system, the process ID and the text of an I/O
    error. *)
Class DiskFaults : Type := {
  io_fails : nat -> bool;
  io_written : nat -> nat;
  io_message : nat -> string;
  process_id : N
}.

(** [HydrationStats], without its times. *)
Record HydrationStats : Type := mkHydrationStats {
  hst_generation : bytes;
  hst_packs_hydrated : N;
  hst_bytes_fetched : N;
  hst_bytes_verified : N;
  hst_packs_skipped : N;
  hst_replaced_corrupt : N
}.
Definition HydrationStats_default : HydrationStats := mkHydrationStats [] 0 0 0 0 0.
Definition stats_skipped (verified : N) (s : HydrationStats) : HydrationStats :=
  mkHydrationStats (hst_generation s) (hst_packs_hydrated s) (hst_bytes_fetched s)
    (sadd64 (hst_bytes_verified s) verified) (wadd64 (hst_packs_skipped s) 1) (hst_replaced_corrupt s).
Definition stats_replaced (s : HydrationStats) : HydrationStats :=
  mkHydrationStats (hst_generation s) (hst_packs_hydrated s) (hst_bytes_fetched s) (hst_bytes_verified s)
    (hst_packs_skipped s) (wadd64 (hst_replaced_corrupt s) 1).
Definition stats_fetched (index pack : N) (s : HydrationStats) : HydrationStats :=
  mkHydrationStats (hst_generation s) (hst_packs_hydrated s) (sadd64 (sadd64 (hst_bytes_fetched s) index) pack)
    (hst_bytes_verified s) (hst_packs_skipped s) (hst_replaced_corrupt s).
Definition stats_verified (verified : N) (s : HydrationStats) : HydrationStats :=
  mkHydrationStats (hst_generation s) (hst_packs_hydrated s) (hst_bytes_fetched s)
    (sadd64 (hst_bytes_verified s) verified) (hst_packs_skipped s) (hst_replaced_corrupt s).
Definition stats_hydrated (s : HydrationStats) : HydrationStats :=
  mkHydrationStats (hst_generation s) (wadd64 (hst_packs_hydrated s) 1) (hst_bytes_fetched s)
    (hst_bytes_verified s) (hst_packs_skipped s) (hst_replaced_corrupt s).

(** [checksum_error], [hydration_budget_error] and [remap_hydration_budget]. *)
Definition checksum_error (c : ErrorCode) (detail : string) : Error :=
  let artifact := if bool_decide (c = IndexChecksumMismatch) then "index" else "pack" in
  Error_new c ("hydrated " ++ artifact ++ " " ++ detail)%string.
Definition hydration_budget_error (m : string) : Error :=
  with_limit "max_hydration_bytes" (Error_new BudgetExceeded m).
Definition remap_hydration_budget (context : string) (e : Error) : Error :=
  if bool_decide (code e = BudgetExceeded) && bool_decide (limit e = Some "max_provider_bytes"%string) then
    hydration_budget_error
      (if bool_decide (context = "pack manifest reply"%string)
       then "pack manifest reply exceeds max_hydration_bytes"
       else "pack hydration exceeds max_hydration_bytes")
  else e.
Definition max_bytes_error (m : string) : Error := with_limit "max_bytes" (Error_new BudgetExceeded m).

(** The file names of a pack. *)
Definition pair_stem (hex : bytes) : bytes := bs "pack-" ++ hex.
Definition pack_name (hex : bytes) : bytes := pair_stem hex ++ bs ".pack".
Definition index_name (hex : bytes) : bytes := pair_stem hex ++ bs ".idx".

(** ** Checksums of a pair *)

Section Bytes.
Context `{Digests}.

(** [hash_bytes]. *)
Definition hash_bytes (hash : HashKind) (data : bytes) (c : ErrorCode) : Res Oid :=
  map_err (fun _ => checksum_error c "collision detected while hashing")
    (hasher_finalize (hasher_update (ContentHasher_new hash) data)).

(** [verify_pair_bytes]. *)
Definition verify_pair_bytes (pack index : bytes) (d : PackDescriptor) (hash : HashKind) : Res unit :=
  let? id := map_err (fun _ => range_protocol_error "validated pack ID could not be parsed")
               (parse_hex (pd_id d)) in
  let n := digest_len hash in
  if (length pack <? n)%nat then Err (checksum_error PackChecksumMismatch "is shorter than its checksum")
  else
    let pack_trailer := drop (length pack - n) pack in
    let? actual_pack := hash_bytes hash (take (length pack - n) pack) PackChecksumMismatch in
    if negb (bytes_eqb (as_bytes actual_pack) pack_trailer) || negb (bytes_eqb pack_trailer (as_bytes id)) then
      Err (checksum_error PackChecksumMismatch "checksum does not match its trailer or manifest ID")
    else if (length index <? n * 2)%nat then
      Err (checksum_error IndexChecksumMismatch "is shorter than its checksums")
    else
      let pack_checksum_start := (length index - n * 2)%nat in
      let index_checksum_start := (length index - n)%nat in
      if negb (bytes_eqb (take (index_checksum_start - pack_checksum_start) (drop pack_checksum_start index))
                 (as_bytes id)) then
        Err (checksum_error PackChecksumMismatch "index refers to a different pack checksum")
      else
        let? actual_index := hash_bytes hash (take index_checksum_start index) IndexChecksumMismatch in
        if negb (bytes_eqb (as_bytes actual_index) (drop index_checksum_start index)) then
          Err (checksum_error IndexChecksumMismatch "checksum does not match")
        else Ok tt.

End Bytes.

(** The first object ID of an index: [first_index_oid] once its prefix is read. *)
Definition FANOUT_BYTES : nat := 1024.
Definition V2_HEADER_BYTES : nat := 8.
Definition V1_ENTRY_OFFSET_BYTES : nat := 4.
Definition be_num (l : bytes) : N := foldl (fun acc b => acc * 256 + byteN b) 0 l.
Definition index_prefix_len (hash : HashKind) : nat := (V2_HEADER_BYTES + FANOUT_BYTES + digest_len hash)%nat.
Definition prefix_oid (hash : HashKind) (prefix : bytes) : Res Oid :=
  let v2 := starts_with prefix [xff; x74; x4f; x63] in
  if v2 && negb (bytes_eqb (take 4 (drop 4 prefix)) [x00; x00; x00; x02]) then
    Err (Error_new MalformedObject "hydrated index version is unsupported")
  else
    let '(fanout_start, oid_start) :=
      if v2 then (V2_HEADER_BYTES, V2_HEADER_BYTES + FANOUT_BYTES)%nat
      else (0, FANOUT_BYTES + V1_ENTRY_OFFSET_BYTES)%nat in
    let count_offset := (fanout_start + FANOUT_BYTES - 4)%nat in
    if be_num (take 4 (drop count_offset prefix)) =? 0 then
      Err (Error_new MalformedObject "hydrated index contains no objects")
    else
      map_err (fun _ => Error_new MalformedObject "hydrated index contains an invalid first object ID")
        (Oid_new hash (take (digest_len hash) (drop oid_start prefix))).

Section Store.
Context {T : Type} `{Env, Digests, !GixOdb, !GixConfig, !LocalFs, !DiskFaults}.

(** What changes in a [PackFetchOdb], with its destination. *)
Record HydState : Type := mkHyd {
  hs_files : gmap bytes bytes;
  hs_io : nat;
  hs_next_temp : N;
  hs_local : option (LocalOdb * LocalState);
  hs_stats : HydrationStats;
  hs_verified : gset bytes;
  hs_trace : list (gmap bytes bytes)
}.
(** [PackFetchOdb::new]. *)
Record PackFetchOdb : Type := mkPackFetch {
  pf_hash : HashKind;
  pf_transport : RangeTransport T;
  pf_options : PackFetchOptions
}.
Definition PackFetchOdb_new (hash : HashKind) (options : PackFetchOptions) (transport : RangeTransport T)
  (files : gmap bytes bytes) : Res (PackFetchOdb * HydState) :=
  let? _ := options_validate options in
  Ok (mkPackFetch hash transport options, mkHyd files 0 1 None HydrationStats_default ∅ []).

Abbreviation HM := (DM (T * HydState)).

(** The transport, and the rest. *)
Definition on_transport {A} (m : DM T A) : HM A :=
  fun '(b, (t, h)) => let '(r, (b, t)) := m (b, t) in (r, (b, (t, h))).
Definition on_hyd {A} (f : HydState -> A * HydState) : HM A :=
  fun '(b, (t, h)) => let '(a, h) := f h in (Ok a, (b, (t, h))).
Definition attempt {A} (m : HM A) : HM (Res A) := fun w => let '(r, w) := m w in (Ok r, w).

(** ** System calls *)

Definition set_files (files : gmap bytes bytes) (h : HydState) : HydState :=
  mkHyd files (hs_io h) (hs_next_temp h) (hs_local h) (hs_stats h) (hs_verified h) (hs_trace h ++ [files]).
(** One system call; its number. *)
Definition syscall : HM nat :=
  on_hyd (fun h => (hs_io h, mkHyd (hs_files h) (S (hs_io h)) (hs_next_temp h) (hs_local h) (hs_stats h)
    (hs_verified h) (hs_trace h))).
Definition get_files : HM (gmap bytes bytes) := on_hyd (fun h => (hs_files h, h)).
Definition put_file (name data : bytes) : HM unit :=
  on_hyd (fun h => (tt, set_files (<[name := data]> (hs_files h)) h)).

(** [Path::is_file], [Path::metadata] (the length) and [File::open] (the
    contents). *)
Definition is_file (name : bytes) : HM bool :=
  let! n := syscall in
  let! files := get_files in
  sret (negb (io_fails n) && bool_decide (is_Some (files !! name))).
Definition open_file (name : bytes) : HM (option bytes) :=
  let! n := syscall in
  let! files := get_files in
  sret (if io_fails n then None else files !! name).
Definition metadata (name : bytes) : HM (option N) :=
  let! data := open_file name in
  sret (lenN <$> data).

(** [let _ = std::fs::remove_file(..)]. *)
Definition remove_file (name : bytes) : HM unit :=
  let! n := syscall in
  if io_fails n then sret tt else on_hyd (fun h => (tt, set_files (delete name (hs_files h)) h)).

(** ** Temporary files *)

(** [TempFile::write]: a fresh name, exclusive creation, the bytes, and their
    flush. *)
Definition temp_name (name : bytes) (id : N) : bytes :=
  bs "." ++ name ++ bs ".tmp-" ++ bs (pretty process_id) ++ bs "-" ++ bs (pretty id).
Definition next_temp : HM N :=
  on_hyd (fun h => (hs_next_temp h, mkHyd (hs_files h) (hs_io h) (wadd64 (hs_next_temp h) 1) (hs_local h)
    (hs_stats h) (hs_verified h) (hs_trace h))).
Definition write_failure (path : bytes) (n : nat) : HM bytes :=
  let! _ := remove_file path in
  sthrow (Error_new BackendError ("could not write PackFetch temporary file: " ++ io_message n)%string).
Definition temp_write (name data : bytes) : HM bytes :=
  let! id := next_temp in
  let path := temp_name name id in
  let! n := syscall in
  let! files := get_files in
  if io_fails n || bool_decide (is_Some (files !! path)) then
    sthrow (Error_new BackendError "could not create PackFetch temporary file")
  else
    let! _ := put_file path [] in
    let! n := syscall in
    if io_fails n then
      let! _ := put_file path (take (io_written n) data) in
      write_failure path n
    else
      let! _ := put_file path data in
      let! n := syscall in
      if io_fails n then write_failure path n else sret path.

(** [TempFile::publish]: a rename. *)
Definition temp_publish (path name : bytes) : HM unit :=
  let! n := syscall in
  let! files := get_files in
  match (if io_fails n then None else files !! path) with
  | Some data => on_hyd (fun h => (tt, set_files (<[name := data]> (delete path (hs_files h))) h))
  | None =>
      let! _ := remove_file path in
      sthrow (Error_new BackendError ("could not publish hydrated pack file: " ++ io_message n)%string)
  end.

(** [write_pair_atomically]; a temporary file that is not published is removed
    when it is dropped. *)
Definition write_pair_atomically (pack_path index_path pack index : bytes) : HM unit :=
  let! pack_temp := temp_write pack_path pack in
  let! index_temp := attempt (temp_write index_path index) in
  match index_temp with
  | Err e =>
      let! _ := remove_file pack_temp in
      sthrow e
  | Ok index_temp =>
      let! published := attempt (temp_publish pack_temp pack_path) in
      match published with
      | Err e =>
          let! _ := remove_file index_temp in
          sthrow e
      | Ok _ => temp_publish index_temp index_path
      end
  end.

(** [remove_destination_pair]. *)
Definition remove_destination_pair (id : bytes) : HM unit :=
  let! _ := remove_file (pack_name (to_ascii_lowercase id)) in
  remove_file (index_name (to_ascii_lowercase id)).

(** ** Verification of files *)

(** [read_exact_file]. *)
Definition read_exact_file (name : bytes) (expected : N) (c : ErrorCode) : HM bytes :=
  let! file := open_file name in
  match file with
  | None => sthrow (checksum_error c "could not read")
  | Some data =>
      let! n := syscall in
      if io_fails n then sthrow (checksum_error c "could not inspect")
      else if negb (lenN data =? expected) then sthrow (checksum_error c "size does not match manifest")
      else
        let! n := syscall in
        if io_fails n then sthrow (checksum_error c "could not read") else sret data
  end.

(** [verify_pair_paths] and [verify_pair_sizes]. *)
Definition verify_pair_paths (hash : HashKind) (pack_path index_path : bytes) (d : PackDescriptor) : HM N :=
  let! pack := read_exact_file pack_path (pd_pack_size d) PackChecksumMismatch in
  let! index := read_exact_file index_path (pd_index_size d) IndexChecksumMismatch in
  let! _ := on_budget check in
  let! _ := slift (verify_pair_bytes pack index d hash) in
  sret (wadd64 (lenN pack) (lenN index)).
Definition verify_size (name : bytes) (expected : N) (c : ErrorCode) : HM unit :=
  let! size := metadata name in
  match size with
  | None => sthrow (checksum_error c "could not inspect")
  | Some size =>
      if negb (size =? expected) then sthrow (checksum_error c "size does not match manifest") else sret tt
  end.
Definition verify_pair_sizes (pack_path index_path : bytes) (d : PackDescriptor) : HM unit :=
  let! _ := verify_size pack_path (pd_pack_size d) PackChecksumMismatch in
  verify_size index_path (pd_index_size d) IndexChecksumMismatch.

(** [first_index_oid]. *)
Definition first_index_oid (name : bytes) (hash : HashKind) : HM Oid :=
  let! file := open_file name in
  match file with
  | None => sthrow (Error_new MalformedObject "could not open hydrated index for its open-time probe")
  | Some data =>
      let! n := syscall in
      if io_fails n || (length data <? index_prefix_len hash)%nat then
        sthrow (Error_new MalformedObject "hydrated index is too short for its open-time probe")
      else slift (prefix_oid hash (take (index_prefix_len hash) data))
  end.

(** ** The plan *)

(** [lock(&self.verified_packs)]. *)
Definition set_verified (v : gset bytes) (h : HydState) : HydState :=
  mkHyd (hs_files h) (hs_io h) (hs_next_temp h) (hs_local h) (hs_stats h) v (hs_trace h).
Definition is_verified (id : bytes) : HM bool := on_hyd (fun h => (bool_decide (id ∈ hs_verified h), h)).
Definition mark_verified (id : bytes) : HM unit :=
  on_hyd (fun h => (tt, set_verified ({[id]} ∪ hs_verified h) h)).
Definition unmark_verified (id : bytes) : HM unit :=
  on_hyd (fun h => (tt, set_verified (hs_verified h ∖ {[id]}) h)).

(** A descriptor of the plan: fetch it, or keep what is there. *)
Record HydrationPlanItem : Type := mkItem { it_descriptor : PackDescriptor; it_fetch : bool }.

(** The removal of a pair that is not what the manifest describes. *)
Definition replace_corrupt (d : PackDescriptor) : HM unit :=
  let! _ := unmark_verified (pd_id d) in
  remove_destination_pair (pd_id d).
Definition plan_item (hash : HashKind) (d : PackDescriptor) (stats : HydrationStats)
  : HM (HydrationPlanItem * HydrationStats) :=
  let! _ := on_budget check in
  let pack_path := pack_name (to_ascii_lowercase (pd_id d)) in
  let index_path := index_name (to_ascii_lowercase (pd_id d)) in
  let! pack_exists := is_file pack_path in
  let! index_exists := is_file index_path in
  let! verified_here := is_verified (pd_id d) in
  if pack_exists && index_exists then
    let! verification :=
      attempt (if verified_here then
                 let! _ := verify_pair_sizes pack_path index_path d in sret 0
               else verify_pair_paths hash pack_path index_path d) in
    match verification with
    | Ok n =>
        let! _ := mark_verified (pd_id d) in
        sret (mkItem d false, stats_skipped n stats)
    | Err e =>
        if bool_decide (code e = PackChecksumMismatch \/ code e = IndexChecksumMismatch) then
          let! _ := replace_corrupt d in
          sret (mkItem d true, stats_replaced stats)
        else sthrow e
    end
  else if pack_exists || index_exists then
    let! _ := replace_corrupt d in
    sret (mkItem d true, stats_replaced stats)
  else sret (mkItem d true, stats).
Fixpoint plan_hydration (hash : HashKind) (packs : list PackDescriptor) (stats : HydrationStats)
  : HM (list HydrationPlanItem * HydrationStats) :=
  match packs with
  | [] => sret ([], stats)
  | d :: packs =>
      let! planned := plan_item hash d stats in
      let! rest := plan_hydration hash packs planned.2 in
      sret (planned.1 :: rest.1, rest.2)
  end.

(** The bytes the plan fetches. *)
Fixpoint bytes_to_fetch (plan : list HydrationPlanItem) (total : N) : Res N :=
  match plan with
  | [] => Ok total
  | item :: plan =>
      if it_fetch item then
        let? total := byte_total "pack hydration byte total overflows u64" total
                        [pd_pack_size (it_descriptor item); pd_index_size (it_descriptor item)] in
        bytes_to_fetch plan total
      else bytes_to_fetch plan total
  end.

(** [projected_destination_bytes]: the entries of the directory, then the
    descriptors. *)
Definition inspect_error : Error := Error_new BackendError "could not inspect PackFetch memory destination".
Fixpoint directory_bytes (entries : list (bytes * bytes)) (total : N) : HM N :=
  match entries with
  | [] => sret total
  | (name, data) :: entries =>
      let! n := syscall in
      if io_fails n then sthrow inspect_error
      else if bool_decide (extension name = Some (bs "pack") \/ extension name = Some (bs "idx")) then
        let! n := syscall in
        if io_fails n then sthrow inspect_error
        else
          let! total := slift (ok_or (max_bytes_error "max_bytes exceeded") (cadd64 total (lenN data))) in
          directory_bytes entries total
      else directory_bytes entries total
  end.
Fixpoint projected_pairs (files : list (bytes * N)) (total : N) : HM N :=
  match files with
  | [] => sret total
  | (name, expected) :: files =>
      let! existing := metadata name in
      let! total := slift (ok_or (max_bytes_error "max_bytes exceeded")
                             (csub64 total (default 0 existing) ≫= fun v => cadd64 v expected)) in
      projected_pairs files total
  end.
Fixpoint projected_descriptors (packs : list PackDescriptor) (total : N) : HM N :=
  match packs with
  | [] => sret total
  | d :: packs =>
      let! id := slift (map_err (fun _ => range_protocol_error "validated pack ID could not be parsed")
                          (parse_hex (pd_id d))) in
      let! total := projected_pairs [(pack_name (to_hex id), pd_pack_size d);
                                     (index_name (to_hex id), pd_index_size d)] total in
      projected_descriptors packs total
  end.
Definition projected_destination_bytes (m : PackManifest) : HM N :=
  let! n := syscall in
  if io_fails n then sthrow inspect_error
  else
    let! files := get_files in
    let! total := directory_bytes (map_to_list files) 0 in
    projected_descriptors (mf_packs m) total.

(** ** [hydrate] *)

Section Hydrate.
Context (p : PackFetchOdb).

(** One pair of the plan: fetch, verify, publish. *)
Definition hydrate_item (d : PackDescriptor) (stats : HydrationStats) : HM HydrationStats :=
  let! _ := on_budget check in
  let! id := slift (map_err (fun _ => range_protocol_error "validated pack ID could not be parsed")
                      (parse_hex (pd_id d))) in
  let fetch key size chunk :=
    on_transport (fetch_artifact (pf_transport p) (fo_concurrency (pf_options p)) key size chunk) in
  let! index := fetch (pd_index_key d) (pd_index_size d) (pd_index_size d) in
  let! pack := fetch (pd_pack_key d) (pd_pack_size d) (fo_chunk_bytes (pf_options p)) in
  let stats := stats_fetched (lenN index) (lenN pack) stats in
  let! _ := slift (verify_pair_bytes pack index d (pf_hash p)) in
  let! _ := on_budget check in
  let stats := stats_verified (wadd64 (lenN pack) (lenN index)) stats in
  let! _ := write_pair_atomically (pack_name (to_hex id)) (index_name (to_hex id)) pack index in
  let! _ := mark_verified (pd_id d) in
  sret (stats_hydrated stats).
Fixpoint hydrate_items (plan : list HydrationPlanItem) (stats : HydrationStats) : HM HydrationStats :=
  match plan with
  | [] => sret stats
  | item :: plan =>
      if it_fetch item then
        let! stats := hydrate_item (it_descriptor item) stats in
        hydrate_items plan stats
      else hydrate_items plan stats
  end.

(** A read of the local store that is being opened. *)
Definition local_header (l : LocalOdb) (s : LocalState) (oid : Oid) : HM (option ObjectHeader * LocalState) :=
  fun '(b, w) =>
    let '(r, (b, s)) := local_try_header l oid (b, s) in
    (match r with Ok h => Ok (h, s) | Err e => Err e end, (b, w)).

(** [probe_hydrated_packs]. *)
Fixpoint probe_hydrated_packs (l : LocalOdb) (s : LocalState) (packs : list PackDescriptor) : HM LocalState :=
  match packs with
  | [] => sret s
  | d :: packs =>
      let! _ := on_budget check in
      let! probe := attempt (let! oid := first_index_oid (index_name (to_ascii_lowercase (pd_id d))) (pf_hash p) in
                             local_header l s oid) in
      match probe with
      | Ok (Some _, s) => probe_hydrated_packs l s packs
      | _ =>
          let! _ := remove_destination_pair (pd_id d) in
          let! _ := unmark_verified (pd_id d) in
          sthrow (Error_new MalformedObject
                    ("hydrated pack " ++ string_of_list_byte (pd_id d) ++ " failed the open-time probe")%string)
      end
  end.

(** The checks on the manifest, up to its byte count. *)
Definition accept_manifest (m : PackManifest) : HM N :=
  let! _ := slift (manifest_validate m (pf_hash p)) in
  let! _ := slift (described_bytes m) in
  let! manifest_bytes := slift (reply_bytes m) in
  if fo_max_hydration_bytes (pf_options p) <? manifest_bytes then
    sthrow (hydration_budget_error "pack manifest reply exceeds max_hydration_bytes")
  else
    let! _ := smap_err (remap_hydration_budget "pack manifest reply")
                (on_budget (charge_provider_bytes manifest_bytes)) in
    sret manifest_bytes.
Definition objects_dir : bytes := path_join (fo_destination (pf_options p)) (bs "objects").
Definition check_max_bytes (m : PackManifest) : HM unit :=
  match fo_max_bytes (pf_options p) with
  | None => sret tt
  | Some maximum =>
      let! projected := projected_destination_bytes m in
      if maximum <? projected then sthrow (max_bytes_error "hydrated memory destination exceeds max_bytes")
      else sret tt
  end.
(** The last step: open, probe, swap. *)
Definition finish_hydration (m : PackManifest) (stats : HydrationStats) : HM HydrationStats :=
  let! n := syscall in
  let! opened := slift (open_objects_dir n objects_dir (pf_hash p) (mkLocalOptions false)) in
  let! state := probe_hydrated_packs opened.1 opened.2 (mf_packs m) in
  on_hyd (fun h => (stats, mkHyd (hs_files h) (hs_io h) (hs_next_temp h) (Some (opened.1, state)) stats
    (hs_verified h) (hs_trace h))).
Definition hydrate : HM HydrationStats :=
  let! _ := on_budget charge_provider_request in
  let! m := on_transport (rt_manifest (pf_transport p)) in
  let! manifest_bytes := accept_manifest m in
  let! n := syscall in
  if io_fails n then sthrow (Error_new BackendError "could not create PackFetch destination directory")
  else
    let! _ := check_max_bytes m in
    let! planned := plan_hydration (pf_hash p) (mf_packs m) (mkHydrationStats (mf_generation m) 0 0 0 0 0) in
    let! fetch := slift (bytes_to_fetch planned.1 0) in
    if ssub64 (fo_max_hydration_bytes (pf_options p)) manifest_bytes <? fetch then
      sthrow (hydration_budget_error "pack hydration plan exceeds max_hydration_bytes before fetching")
    else
      let! stats := hydrate_items planned.1 planned.2 in
      finish_hydration m stats.

(** ** The trait methods *)

(** [local]: reads go to the store of the last hydration. *)
Definition on_local {A} (m : LocalOdb -> DM LocalState A) : DM HydState A :=
  fun '(b, h) =>
    match hs_local h with
    | None => (Err (Error_new InvalidArgument "PackFetch store has not completed hydration"), (b, h))
    | Some (l, s) =>
        let '(r, (b, s)) := m l (b, s) in
        (r, (b, mkHyd (hs_files h) (hs_io h) (hs_next_temp h) (Some (l, s)) (hs_stats h) (hs_verified h) (hs_trace h)))
    end.
Definition packfetch_refresh : DM HydState unit :=
  let! _ := on_budget check in
  sthrow (Error_new UnsupportedOperation "PackFetch refresh must run as a runtime job").
Definition packfetch_db : ObjectDb HydState :=
  let header oid := on_local (fun l => try_header (local_db l) oid) in
  let find oid := on_local (fun l => try_find (local_db l) oid) in
  {| hash_kind := pf_hash p;
     shallow_roots := None;
     try_header := header;
     try_header_with_provenance := default_try_header_with_provenance header;
     try_find := find;
     try_find_graph := default_try_find_graph find;
     try_find_many := fun oids => on_local (fun l => try_find_many (local_db l) oids);
     try_find_many_bounded := fun oids rb => on_local (fun l => try_find_many_bounded (local_db l) oids rb);
     prefetch := default_prefetch;
     supports_prefetch := false;
     cache_stats := fun h => match hs_local h with
                             | Some (l, s) => cache_stats (local_db l) s
                             | None => CacheStats_default
                             end;
     refresh := packfetch_refresh |}.

(** [stats] and [provider_down]. *)
Definition packfetch_stats (h : HydState) : HydrationStats := hs_stats h.
Definition packfetch_provider_down (t : T) : T := rt_fail_all (pf_transport p) range_provider_down t.

End Hydrate.

End Store.
Arguments PackFetchOdb : clear implicits.

(* ------------------------------------------------------------------ *)
(** ** Names and contents *)

(** Temporary files are hidden. *)
Definition is_temp (name : bytes) : Prop := head name = Some x2e.

Section Names.
Context `{!DiskFaults}.

Lemma temp_name_temp name id : is_temp (temp_name name id).
Proof. done. Qed.
Lemma pack_name_final hex : ~ is_temp (pack_name hex).
Proof. done. Qed.
Lemma index_name_final hex : ~ is_temp (index_name hex).
Proof. done. Qed.
Lemma pack_index_ne x y : pack_name x <> index_name y.
Proof.
  intros E. apply (f_equal last) in E. unfold pack_name, index_name in E.
  rewrite !last_app in E. vm_compute in E. discriminate.
Qed.
Lemma pack_name_inj x y : pack_name x = pack_name y -> x = y.
Proof. unfold pack_name, pair_stem. intros E. by apply app_inv_tail, app_inv_head in E. Qed.
Lemma index_name_inj x y : index_name x = index_name y -> x = y.
Proof. unfold index_name, pair_stem. intros E. by apply app_inv_tail, app_inv_head in E. Qed.
Lemma to_hex_inj o o' : Oid_wf o -> Oid_wf o' -> to_hex o = to_hex o' -> o = o'.
Proof. intros Ho Ho' E. apply parse_hex_to_hex in Ho, Ho'. congruence. Qed.

(** The names made from a validated ID, in either way. *)
Lemma lower_hex_ascii c : is_hex c = true -> to_ascii_lowercase [c] = [lower_hex c].
Proof.
  intros Hc. enough (forall b, is_hex b = true -> to_ascii_lowercase [b] = [lower_hex b]) by auto.
  apply (forall_byte (fun b => is_hex b = true -> to_ascii_lowercase [b] = [lower_hex b])).
  vm_compute. reflexivity.
Qed.
Lemma lowercase_id id o : parse_hex id = Ok o -> to_ascii_lowercase id = to_hex o.
Proof.
  intros (-> & _ & Hhex)%parse_hex_Ok. induction Hhex as [|c l Hc Hl IH]; [done|].
  rewrite fmap_cons, <- IH. change (to_ascii_lowercase (c :: l)) with (to_ascii_lowercase [c] ++ to_ascii_lowercase l).
  by rewrite lower_hex_ascii.
Qed.

End Names.

Section Contents.
Context `{Digests} (hash : HashKind).

(** A pack whose trailer is its digest and its name, and an index of that pack
    whose trailer is its digest. *)
Definition pack_ok (o : Oid) (data : bytes) : Prop :=
  exists body, data = body ++ as_bytes o /\ digest_of hash body = Some (as_bytes o).
Definition index_ok (o : Oid) (data : bytes) : Prop :=
  exists body trailer, data = body ++ as_bytes o ++ trailer /\ digest_of hash (body ++ as_bytes o) = Some trailer.
Definition file_ok (name data : bytes) : Prop :=
  exists o, Oid_wf o /\ ((name = pack_name (to_hex o) /\ pack_ok o data) \/ (name = index_name (to_hex o) /\ index_ok o data)).

Lemma file_ok_pack o data : Oid_wf o -> file_ok (pack_name (to_hex o)) data -> pack_ok o data.
Proof.
  intros Ho (o' & Ho' & [[E Hd]|[E _]]); [|by apply pack_index_ne in E].
  apply pack_name_inj, to_hex_inj in E; [by subst|done..].
Qed.
Lemma file_ok_index o data : Oid_wf o -> file_ok (index_name (to_hex o)) data -> index_ok o data.
Proof.
  intros Ho (o' & Ho' & [[E _]|[E Hd]]); [by symmetry in E; apply pack_index_ne in E|].
  apply index_name_inj, to_hex_inj in E; [by subst|done..].
Qed.

Lemma hash_bytes_Ok data c o : hash_bytes hash data c = Ok o -> digest_of hash data = Some (as_bytes o).
Proof.
  unfold hash_bytes. destruct (hasher_finalize _) as [o'|] eqn:E; [|done]. intros [= ->]. by apply hasher_digest.
Qed.

(** What a pair that verifies is. *)
Lemma verify_pair_bytes_Ok pack index d u :
  verify_pair_bytes pack index d hash = Ok u ->
  exists o, parse_hex (pd_id d) = Ok o /\ pack_ok o pack /\ index_ok o index.
Proof.
  unfold verify_pair_bytes. intros (o & Ho & Hv)%rbind_Ok. destruct (parse_hex (pd_id d)) as [o'|]; simplify_eq/=.
  exists o. split; [done|]. destruct (_ <? _)%nat eqn:E1; [done|]. apply Nat.ltb_ge in E1.
  apply rbind_Ok in Hv as (ap & Hap%hash_bytes_Ok & Hv). destruct (_ || _) eqn:E2; [done|].
  apply orb_false_iff in E2 as [Ep%negb_false_iff%bytes_eqb_true Eid%negb_false_iff%bytes_eqb_true].
  destruct (_ <? _)%nat eqn:E3 in Hv; [done|]. apply Nat.ltb_ge in E3. destruct (negb _) eqn:E4 in Hv; [done|].
  apply negb_false_iff, bytes_eqb_true in E4. apply rbind_Ok in Hv as (ai & Hai%hash_bytes_Ok & Hv).
  destruct (negb _) eqn:E5 in Hv; [done|]. apply negb_false_iff, bytes_eqb_true in E5.
  set (n := digest_len hash) in *. split.
  - exists (take (length pack - n) pack). split; [by rewrite <- Eid, take_drop|]. congruence.
  - exists (take (length index - n * 2) index), (as_bytes ai).
    assert (take (length index - n * 2) index ++ as_bytes o = take (length index - n) index) as Hb.
    { rewrite <- E4. replace (length index - n)%nat with ((length index - n * 2) + (length index - n - (length index - n * 2)))%nat at 2 by lia.
      by rewrite take_take_drop. }
    rewrite app_assoc, Hb. split; [|done]. by rewrite E5, take_drop.
Qed.

End Contents.

(* ------------------------------------------------------------------ *)
(** ** What hydration does to the directory *)

Section Directory.
Context {T : Type} `{Env, Digests, !GixOdb, !GixConfig, !LocalFs, !DiskFaults}.
Context (hash : HashKind).
Implicit Types (h : HydState) (F : gmap bytes bytes) (os : list Oid) (o : Oid).
Abbreviation HM := (DM (T * HydState)).

(** The final names of some packs. *)
Definition name_of os (name : bytes) : Prop :=
  exists o, o ∈ os /\ (name = pack_name (to_hex o) \/ name = index_name (to_hex o)).

(** From [F0] to [F] only temporary files and files of the packs [os] changed,
    and a file of theirs that changed is gone or verifies. *)
Definition within os F0 F : Prop :=
  forall name, is_temp name \/ F !! name = F0 !! name \/
    (name_of os name /\ (F !! name = None \/ exists data, F !! name = Some data /\ file_ok hash name data)).

Lemma within_refl os F : within os F F.
Proof. intros name. auto. Qed.
Lemma within_trans os F1 F2 F3 : within os F1 F2 -> within os F2 F3 -> within os F1 F3.
Proof. intros H12 H23 name. specialize (H12 name). specialize (H23 name). destruct H23 as [?|[->|?]]; auto. Qed.
Lemma within_mono os os' F F' : os ⊆ os' -> within os F F' -> within os' F F'.
Proof.
  intros Hos Hw name. destruct (Hw name) as [?|[?|[(o & Ho & Hn) ?]]]; [by auto..|].
  right. right. split; [|done]. exists o. auto.
Qed.

(** The same of two states and of every state of the directory in between; the
    local store and the statistics stay. *)
Record step os h h' : Prop := {
  st_files : within os (hs_files h) (hs_files h');
  st_trace : exists tr, hs_trace h' = hs_trace h ++ tr /\ Forall (within os (hs_files h)) tr;
  st_local : hs_local h' = hs_local h;
  st_stats : hs_stats h' = hs_stats h
}.
#[export] Instance step_preorder os : PreOrder (step os).
Proof.
  split.
  - intros h. split; [apply within_refl| |done..]. exists []. by rewrite app_nil_r.
  - intros h1 h2 h3 [F12 (t12 & T12 & W12) L12 S12] [F23 (t23 & T23 & W23) L23 S23].
    split; [by eapply within_trans| |congruence..]. exists (t12 ++ t23). rewrite T23, T12, app_assoc. split; [done|].
    apply Forall_app. split; [done|]. eapply Forall_impl; [exact W23|]. intros F. by apply within_trans.
Qed.
Lemma step_mono os os' h h' : os ⊆ os' -> step os h h' -> step os' h h'.
Proof.
  intros Hos [HF (tr & Ht & Hw) HL HS]. split; [by eapply within_mono| |done..]. exists tr. split; [done|].
  eapply Forall_impl; [exact Hw|]. intros F. by apply within_mono.
Qed.

(** A state that was only read. *)
Definition same h h' : Prop :=
  hs_files h' = hs_files h /\ hs_verified h' = hs_verified h /\ hs_trace h' = hs_trace h /\
  hs_local h' = hs_local h /\ hs_stats h' = hs_stats h.
#[export] Instance same_equivalence : Equivalence same.
Proof. unfold same. split; red; naive_solver congruence. Qed.
Lemma same_step os h h' : same h h' -> step os h h'.
Proof.
  intros (HF & _ & Ht & HL & HS). split; [rewrite HF; apply within_refl| |done..]. exists []. by rewrite app_nil_r.
Qed.

(** ** Reading operations *)

Definition reads h0 {A} (m : HM A) (Q : A -> Prop) : Prop :=
  hoare (fun w => same h0 w.2.2) (fun _ => True) m Q.

Section Reading.
Context (h0 : HydState).
Lemma reads_budget {A} (m : BM A) : reads h0 (on_budget m) (fun _ => True).
Proof. intros [b w] Hw. unfold on_budget. by destruct (m b) as [[a|e] b']. Qed.
Lemma reads_transport {A} (m : DM T A) : reads h0 (on_transport m) (fun a => exists w w', m w = (Ok a, w')).
Proof. intros [b [t h]] Hw. unfold on_transport. destruct (m (b, t)) as [[a|e] [b' t']] eqn:E; simpl; eauto. Qed.
Lemma reads_map_err {A} f (m : HM A) Q : reads h0 m Q -> reads h0 (smap_err f m) Q.
Proof. intros Hm. by eapply hoare_map_err. Qed.
Lemma reads_artifact (rt : RangeTransport T) n key size chunk :
  reads h0 (on_transport (fetch_artifact rt n key size chunk)) (fun data => lenN data = size).
Proof.
  intros [b [t h]] Hw. unfold on_transport.
  destruct (fetch_artifact rt n key size chunk (b, t)) as [[data|e] [b' t']] eqn:E; simpl; [|done].
  split; [|done]. by eapply fetch_artifact_size.
Qed.
Lemma reads_lift {A} (r : Res A) : reads h0 (slift r) (fun a => r = Ok a).
Proof. apply hoare_lift. by destruct r. Qed.
Lemma reads_throw {A} e (Q : A -> Prop) : reads h0 (sthrow e) Q.
Proof. by apply hoare_throw. Qed.
Lemma reads_syscall : reads h0 syscall (fun _ => True).
Proof. by intros [b [t h]] Hw. Qed.
Lemma reads_next_temp : reads h0 next_temp (fun _ => True).
Proof. by intros [b [t h]] Hw. Qed.
Lemma reads_files : reads h0 get_files (fun F => F = hs_files h0).
Proof. intros [b [t h]] Hw. split; [|done]. by destruct Hw. Qed.
Lemma reads_verified id : reads h0 (is_verified id) (fun v => v = bool_decide (id ∈ hs_verified h0)).
Proof. intros [b [t h]] Hw. split; [|done]. destruct Hw as (_ & Hv & _). simpl in *. by rewrite Hv. Qed.
Lemma reads_attempt {A} (m : HM A) Q : reads h0 m Q -> reads h0 (attempt m) (fun r => forall a, r = Ok a -> Q a).
Proof.
  intros Hm w Hw. specialize (Hm w Hw). unfold attempt. destruct (m w) as [r w']. simpl in *. split; [|apply Hm].
  intros a ->. apply Hm.
Qed.
Lemma reads_is_file name : reads h0 (is_file name) (fun _ => True).
Proof.
  unfold is_file. eapply hoare_bind; [apply reads_syscall|]. intros n _. eapply hoare_bind; [apply reads_files|].
  intros F _. by apply hoare_ret.
Qed.
Lemma reads_open name : reads h0 (open_file name) (fun x => forall data, x = Some data -> hs_files h0 !! name = Some data).
Proof.
  unfold open_file. eapply hoare_bind; [apply reads_syscall|]. intros n _. eapply hoare_bind; [apply reads_files|].
  intros F ->. apply hoare_ret. intros data. by destruct (io_fails n).
Qed.
Lemma reads_metadata name :
  reads h0 (metadata name) (fun x => forall n, x = Some n -> exists data, hs_files h0 !! name = Some data /\ lenN data = n).
Proof.
  unfold metadata. eapply hoare_bind; [apply reads_open|]. intros x Hx. apply hoare_ret. intros n Hn.
  destruct x as [data|]; simplify_eq/=. eauto.
Qed.
Lemma reads_exact name expected c :
  reads h0 (read_exact_file name expected c) (fun data => hs_files h0 !! name = Some data /\ lenN data = expected).
Proof.
  unfold read_exact_file. eapply hoare_bind; [apply reads_open|]. intros [data|] Hd; [|apply reads_throw].
  eapply hoare_bind; [apply reads_syscall|]. intros n _. destruct (io_fails n); [apply reads_throw|].
  destruct (lenN data =? expected) eqn:E; [|apply reads_throw]. apply N.eqb_eq in E.
  eapply hoare_bind; [apply reads_syscall|]. intros m _. destruct (io_fails m); [apply reads_throw|].
  apply hoare_ret. auto.
Qed.

(** A pair on disk with the sizes of its descriptor. *)
Definition sized (d : PackDescriptor) (hex : bytes) F pack index : Prop :=
  F !! pack_name hex = Some pack /\ F !! index_name hex = Some index /\
  lenN pack = pd_pack_size d /\ lenN index = pd_index_size d.

Lemma reads_pair_paths d hex :
  reads h0 (verify_pair_paths hash (pack_name hex) (index_name hex) d) (fun _ =>
    exists pack index, sized d hex (hs_files h0) pack index /\
      exists o, parse_hex (pd_id d) = Ok o /\ pack_ok hash o pack /\ index_ok hash o index).
Proof.
  unfold verify_pair_paths. eapply hoare_bind; [apply reads_exact|]. intros pack [Hp Lp].
  eapply hoare_bind; [apply reads_exact|]. intros index [Hi Li].
  eapply hoare_bind; [apply reads_budget|]. intros _ _.
  eapply hoare_bind; [apply reads_lift|]. intros u Hv%verify_pair_bytes_Ok. apply hoare_ret.
  exists pack, index. by split.
Qed.
Lemma reads_size name expected c :
  reads h0 (verify_size name expected c) (fun _ => exists data, hs_files h0 !! name = Some data /\ lenN data = expected).
Proof.
  unfold verify_size. eapply hoare_bind; [apply reads_metadata|]. intros [n|] Hn; [|apply reads_throw].
  destruct (n =? expected) eqn:E; [|apply reads_throw]. apply N.eqb_eq in E as <-. apply hoare_ret. auto.
Qed.
Lemma reads_pair_sizes d hex :
  reads h0 (verify_pair_sizes (pack_name hex) (index_name hex) d) (fun _ =>
    exists pack index, sized d hex (hs_files h0) pack index).
Proof.
  unfold verify_pair_sizes. eapply hoare_bind; [apply reads_size|]. intros ? (pack & Hp & Lp).
  eapply hoare_post; [apply reads_size|]. intros ? (index & Hi & Li). exists pack, index. by split_and!.
Qed.
Lemma reads_first_oid name : reads h0 (first_index_oid name hash) (fun _ => True).
Proof.
  unfold first_index_oid. eapply hoare_bind; [apply reads_open|]. intros [data|] _; [|apply reads_throw].
  eapply hoare_bind; [apply reads_syscall|]. intros n _. destruct (_ || _); [apply reads_throw|].
  eapply hoare_post; [apply reads_lift|]. done.
Qed.
Lemma reads_local_header l s oid : reads h0 (local_header l s oid) (fun _ => True).
Proof. intros [b w] Hw. unfold local_header. by destruct (local_try_header l oid (b, s)) as [[?|?] [b' s']]. Qed.

Lemma reads_directory entries total : reads h0 (directory_bytes entries total) (fun _ => True).
Proof.
  revert total. induction entries as [|[name data] entries IH]; intros total; simpl; [by apply hoare_ret|].
  eapply hoare_bind; [apply reads_syscall|]. intros n _. destruct (io_fails n); [apply reads_throw|].
  case_bool_decide; [|apply IH]. eapply hoare_bind; [apply reads_syscall|]. intros m _.
  destruct (io_fails m); [apply reads_throw|]. eapply hoare_bind; [apply reads_lift|]. intros ? _. apply IH.
Qed.
Lemma reads_pairs files total : reads h0 (projected_pairs files total) (fun _ => True).
Proof.
  revert total. induction files as [|[name expected] files IH]; intros total; simpl; [by apply hoare_ret|].
  eapply hoare_bind; [apply reads_metadata|]. intros ? _. eapply hoare_bind; [apply reads_lift|]. intros ? _. apply IH.
Qed.
Lemma reads_projected m : reads h0 (projected_destination_bytes m) (fun _ => True).
Proof.
  unfold projected_destination_bytes. eapply hoare_bind; [apply reads_syscall|]. intros n _.
  destruct (io_fails n); [apply reads_throw|]. eapply hoare_bind; [apply reads_files|]. intros F _.
  eapply hoare_bind; [apply reads_directory|]. intros total _. revert total.
  induction (mf_packs m) as [|d packs IH]; intros total; [by apply hoare_ret|]. cbn [projected_descriptors].
  eapply hoare_bind; [apply reads_lift|]. intros ? _. eapply hoare_bind; [apply reads_pairs|]. intros ? _. apply IH.
Qed.
End Reading.

(** ** Writing operations *)

Abbreviation at_end P := (fun r '(_, (_, h')) => P r h').

Lemma wp_reads {A} h0 (m : HM A) (Q : A -> Prop) (P : Res A -> HydState -> Prop) b t h :
  same h0 h -> reads h0 m Q -> (forall r h', same h0 h' -> (forall a, r = Ok a -> Q a) -> P r h') ->
  wp m (at_end P) (b, (t, h)).
Proof.
  intros Hh Hm HP. unfold wp. destruct (Hm (b, (t, h)) Hh) as [Ho Hs].
  destruct (m (b, (t, h))) as [r [b' [t' h']]]. simpl in *. apply HP; [done|]. by intros a ->.
Qed.
(** A read in front of the rest. *)
Lemma wp_reads_bind {A B} h0 (m : HM A) (k : A -> HM B) (Q : A -> Prop) (P : Res B -> HydState -> Prop) b t h :
  same h0 h -> reads h0 m Q -> (forall e h', same h0 h' -> P (Err e) h') ->
  (forall a b' t' h', same h0 h' -> Q a -> wp (k a) (at_end P) (b', (t', h'))) ->
  wp (sbind m k) (at_end P) (b, (t, h)).
Proof.
  intros Hh Hm He Hk. unfold wp, sbind. destruct (Hm (b, (t, h)) Hh) as [Ho Hs].
  destruct (m (b, (t, h))) as [[a|e] [b' [t' h']]]; simpl in *; [by apply Hk|by apply He].
Qed.
Lemma wp_attempt {A} (m : HM A) Q w : wp m (fun r w' => Q (Ok r) w') w -> wp (attempt m) Q w.
Proof. unfold wp, attempt. by destruct (m w). Qed.

(** An update of the directory at one name. *)
Definition writes os h h' : Prop := step os h h' /\ hs_verified h' = hs_verified h.
#[export] Instance writes_preorder os : PreOrder (writes os).
Proof.
  split; [by intros h|]. intros h1 h2 h3 [? E] [? E']. split; [by etrans|congruence].
Qed.
Lemma same_writes os h h' : same h h' -> writes os h h'.
Proof. intros Hs. split; [by apply same_step|]. by destruct Hs as (_ & ? & _). Qed.
Lemma set_files_writes os h F : within os (hs_files h) F -> writes os h (set_files F h).
Proof. intros HF. split; [|done]. split; [done| |done..]. exists [F]. split; [done|]. by constructor. Qed.
Lemma writes_mono os os' h h' : os ⊆ os' -> writes os h h' -> writes os' h h'.
Proof. intros Hos [? ?]. split; [by eapply step_mono|done]. Qed.

Lemma within_insert_temp os F name data : is_temp name -> within os F (<[name := data]> F).
Proof. intros Hn x. destruct (decide (x = name)) as [->|]; [by left|]. right. left. by rewrite lookup_insert_ne. Qed.
Lemma within_delete_temp os F name : is_temp name -> within os F (delete name F).
Proof. intros Hn x. destruct (decide (x = name)) as [->|]; [by left|]. right. left. by rewrite lookup_delete_ne. Qed.
Lemma within_delete os F name : name_of os name -> within os F (delete name F).
Proof.
  intros Hn x. right. destruct (decide (x = name)) as [->|]; [|left; by rewrite lookup_delete_ne].
  right. rewrite lookup_delete_eq. auto.
Qed.
Lemma within_insert os F name data : name_of os name -> file_ok hash name data -> within os F (<[name := data]> F).
Proof.
  intros Hn Hd x. right. destruct (decide (x = name)) as [->|]; [|left; by rewrite lookup_insert_ne].
  right. rewrite lookup_insert_eq. eauto.
Qed.

(** The directory except one name. *)
Definition same_but (name : bytes) F F' : Prop := forall x, x <> name -> F' !! x = F !! x.

(** The calls that cannot fail. *)
Lemma wp_syscall {B} h0 (k : nat -> HM B) P b (t : T) h :
  same h0 h -> (forall n h', same h0 h' -> wp (k n) (at_end P) (b, (t, h'))) ->
  wp (sbind syscall k) (at_end P) (b, (t, h)).
Proof. intros Hs Hk. apply wp_bind. by apply Hk. Qed.
Lemma wp_get_files {B} h0 (k : gmap bytes bytes -> HM B) P b (t : T) h :
  same h0 h -> wp (k (hs_files h0)) (at_end P) (b, (t, h)) -> wp (sbind get_files k) (at_end P) (b, (t, h)).
Proof. intros (HF & _) Hk. apply wp_bind. unfold wp in *. simpl. by rewrite HF. Qed.

Lemma wp_remove os name b (t : T) h0 h :
  same h0 h -> is_temp name \/ name_of os name ->
  wp (remove_file name) (at_end (fun r h' => r = Ok tt /\ writes os h0 h' /\ same_but name (hs_files h0) (hs_files h')))
    (b, (t, h)).
Proof.
  intros Hs Hn. unfold remove_file. eapply wp_syscall; [exact Hs|]. intros n h1 Hs1.
  pose proof Hs1 as (HF & _). destruct (io_fails n).
  { apply wp_ret. split; [done|]. split; [by apply same_writes|]. intros x _. by rewrite HF. }
  unfold wp, on_hyd. simpl. split; [done|]. split.
  - etrans; [by apply same_writes|]. apply set_files_writes.
    destruct Hn; [by apply within_delete_temp|by apply within_delete].
  - intros x Hx. simpl. by rewrite HF, lookup_delete_ne.
Qed.

Lemma wp_put_temp {B} os name data (k : unit -> HM B) b (t : T) h0 h P :
  same h0 h -> is_temp name ->
  (forall h', writes os h0 h' -> hs_files h' = <[name := data]> (hs_files h0) ->
     wp (k tt) (at_end P) (b, (t, h'))) ->
  wp (sbind (put_file name data) k) (at_end P) (b, (t, h)).
Proof.
  intros Hs Hn HP. pose proof Hs as (HF & _). apply wp_bind. unfold wp at 1, put_file, on_hyd. cbn [fst snd].
  apply HP; [|simpl; by rewrite HF]. etrans; [by apply same_writes|]. apply set_files_writes. by apply within_insert_temp.
Qed.

Lemma wp_write_failure path n b (t : T) h0 h (P : Res bytes -> HydState -> Prop) :
  same h0 h -> is_temp path -> (forall e h', writes [] h0 h' -> P (Err e) h') ->
  wp (write_failure path n) (at_end P) (b, (t, h)).
Proof.
  intros Hs Hp HP. unfold write_failure. apply wp_bind. eapply wp_mono; [by eapply (wp_remove []); [|by left]|].
  intros r [b1 [t1 h1]] (-> & Hw & _). apply wp_throw. by apply HP.
Qed.

(** What a temporary file is: its own name, its bytes, nothing else changed. *)
Lemma wp_temp_write name data b (t : T) h :
  wp (temp_write name data) (at_end (fun r h' => writes [] h h' /\
    forall path, r = Ok path -> is_temp path /\ hs_files h !! path = None /\
      hs_files h' !! path = Some data /\ same_but path (hs_files h) (hs_files h'))) (b, (t, h)).
Proof.
  unfold temp_write. apply wp_bind. unfold next_temp, wp at 1, on_hyd. cbn [fst snd].
  set (path := temp_name name (hs_next_temp h)). assert (is_temp path) as Hp by apply temp_name_temp.
  eapply (wp_syscall h); [done|]. intros n h1 S1. eapply wp_get_files; [exact S1|].
  destruct (io_fails n || _) eqn:E; [apply wp_throw; split; [by apply same_writes|done]|].
  apply orb_false_iff in E as [_ E%bool_decide_eq_false]. apply eq_None_not_Some in E.
  eapply (wp_put_temp []); [exact S1|done|]. intros h2 W2 F2. eapply (wp_syscall h2); [by reflexivity|].
  intros n2 h3 S3. destruct (io_fails n2); (eapply (wp_put_temp []); [exact S3|done|]); intros h4 W4 F4.
  { eapply wp_write_failure; [by reflexivity|done|]. intros e h7 W7. split; [|done]. do 2 (etrans; [done|]). done. }
  eapply (wp_syscall h4); [by reflexivity|]. intros n3 h5 S5. assert (writes [] h h4) as Hw by (by etrans).
  destruct (io_fails n3).
  { eapply wp_write_failure; [exact S5|done|]. intros e h8 W8. split; [|done]. by etrans. }
  apply wp_ret. split; [etrans; [done|by apply same_writes]|]. intros p [= <-]. destruct S5 as (-> & _).
  rewrite F4, F2. split_and!; [done..|by rewrite lookup_insert_eq|]. intros x Hx. by rewrite !lookup_insert_ne.
Qed.

(** A rename over a final name of a pack. *)
Lemma wp_publish o path name data b (t : T) h :
  is_temp path -> hs_files h !! path = Some data -> name_of [o] name -> ~ is_temp name -> file_ok hash name data ->
  wp (temp_publish path name) (at_end (fun r h' => writes [o] h h' /\
    (forall u, r = Ok u -> hs_files h' = <[name := data]> (delete path (hs_files h))))) (b, (t, h)).
Proof.
  intros Hp Hd Hn Hf Hok. unfold temp_publish. eapply (wp_syscall h); [by reflexivity|]. intros n h1 S1.
  eapply wp_get_files; [exact S1|]. rewrite Hd. destruct (io_fails n).
  - apply wp_bind. eapply wp_mono; [eapply (wp_remove [o]); [exact S1|by left]|].
    intros r [b3 [t3 h3]] (-> & W & _). apply wp_throw. by split.
  - unfold wp, on_hyd. simpl. pose proof S1 as (HF & _). split; [|intros _ _; by rewrite HF].
    etrans; [by apply same_writes|]. apply set_files_writes. rewrite HF.
    eapply within_trans; [by apply (within_delete_temp _ _ path)|]. by apply within_insert.
Qed.

(** A verified pair is published whole, or an error leaves only what the
    relation allows. *)
Lemma wp_write_pair o pack index b (t : T) h :
  Oid_wf o -> pack_ok hash o pack -> index_ok hash o index ->
  wp (write_pair_atomically (pack_name (to_hex o)) (index_name (to_hex o)) pack index)
    (at_end (fun r h' => writes [o] h h' /\
      (forall u, r = Ok u -> hs_files h' !! pack_name (to_hex o) = Some pack /\
                             hs_files h' !! index_name (to_hex o) = Some index))) (b, (t, h)).
Proof.
  intros Ho Hp Hi. unfold write_pair_atomically.
  assert (forall h', writes [] h h' -> writes [o] h h') as Hmono by (intros h'; apply writes_mono; set_solver).
  apply wp_bind. eapply wp_mono; [apply wp_temp_write|]. intros [pt|e] [b1 [t1 h1]] [W1 R1]; [|split; [by apply Hmono|done]].
  destruct (R1 _ eq_refl) as (Tp & _ & Fp & _). clear R1.
  apply wp_bind, wp_attempt. eapply wp_mono; [apply wp_temp_write|]. intros [it|e] [b2 [t2 h2]] [W2 R2].
  2: { apply wp_bind. eapply wp_mono; [eapply (wp_remove []); [by reflexivity|by left]|].
    intros r [b3 [t3 h3]] (-> & W3 & _). apply wp_throw. split; [|done]. apply Hmono. do 2 (etrans; [done|]). done. }
  destruct (R2 _ eq_refl) as (Ti & Ni & Fi & Keep). clear R2. assert (pt <> it) as Hne by congruence.
  assert (hs_files h2 !! pt = Some pack) as Fp2 by (by rewrite Keep).
  assert (writes [o] h h2) as W12 by (apply Hmono; by etrans).
  apply wp_bind, wp_attempt. eapply wp_mono; [eapply (wp_publish o); [done..| | |]|].
  { exists o. set_solver. }
  { apply pack_name_final. }
  { exists o. auto. }
  intros [u|e] [b3 [t3 h3]] [W3 R3].
  2: { apply wp_bind. eapply wp_mono; [eapply (wp_remove [o]); [by reflexivity|by left]|].
    intros r [b4 [t4 h4]] (-> & W4 & _). apply wp_throw. split; [|done]. do 2 (etrans; [done|]). done. }
  specialize (R3 _ eq_refl). eapply wp_mono; [eapply (wp_publish o); [done| |..]|].
  { rewrite R3, lookup_insert_ne; [by rewrite lookup_delete_ne|]. intros E. rewrite <- E in Ti.
    by apply pack_name_final in Ti. }
  { exists o. set_solver. }
  { apply index_name_final. }
  { exists o. auto. }
  intros r [b4 [t4 h4]] [W4 R4]. split; [by do 2 (etrans; [done|])|]. intros v ->. rewrite (R4 _ eq_refl), R3.
  split; [|by rewrite lookup_insert_eq].
  rewrite lookup_insert_ne by (by apply not_eq_sym, pack_index_ne). rewrite lookup_delete_ne; [by rewrite lookup_insert_eq|].
  intros E. rewrite E in Ti. by apply pack_name_final in Ti.
Qed.

(** ** The plan and the items *)

(** An ID that was verified by this store names files that verify. *)
Definition verified_ok h : Prop :=
  forall id o, id ∈ hs_verified h -> parse_hex id = Ok o ->
    (forall data, hs_files h !! pack_name (to_hex o) = Some data -> pack_ok hash o data) /\
    (forall data, hs_files h !! index_name (to_hex o) = Some data -> index_ok hash o data).

(** The pair of a descriptor is on disk, of its size, and verifies. *)
Definition present (d : PackDescriptor) h : Prop :=
  exists o pack index, parse_hex (pd_id d) = Ok o /\ sized d (to_hex o) (hs_files h) pack index /\
    pack_ok hash o pack /\ index_ok hash o index.

Lemma within_lookup os F F' name data :
  within os F F' -> ~ is_temp name -> F' !! name = Some data -> F !! name = Some data \/ file_ok hash name data.
Proof. intros Hw Hn Hd. destruct (Hw name) as [?|[?|[_ [?|(d' & ? & ?)]]]]; [done|..]; naive_solver congruence. Qed.

Lemma verified_ok_files os h h' :
  verified_ok h -> within os (hs_files h) (hs_files h') -> hs_verified h' ⊆ hs_verified h -> verified_ok h'.
Proof.
  intros Hv Hw Hsub id o Hid Ho. destruct (Hv id o (Hsub _ Hid) Ho) as [Hp Hi].
  assert (Oid_wf o) as Hwf by (by apply parse_hex_Ok in Ho as (_ & ? & _)). split; intros data Hd.
  - destruct (within_lookup _ _ _ _ _ Hw (pack_name_final _) Hd); [auto|by apply file_ok_pack].
  - destruct (within_lookup _ _ _ _ _ Hw (index_name_final _) Hd); [auto|by apply file_ok_index].
Qed.
Lemma verified_ok_same h h' : same h h' -> verified_ok h -> verified_ok h'.
Proof. intros (HF & HV & _). unfold verified_ok. by rewrite HF, HV. Qed.
Lemma verified_ok_writes os h h' : writes os h h' -> verified_ok h -> verified_ok h'.
Proof. intros [[HF _ _ _] HV] Hv. eapply verified_ok_files; [done..|]. by rewrite HV. Qed.
Lemma present_same d h h' : same h h' -> present d h -> present d h'.
Proof. intros (HF & _). unfold present. by rewrite HF. Qed.

(** A pair outside [os] stays where it is. *)
Lemma present_frame d o os h h' :
  parse_hex (pd_id d) = Ok o -> (forall o', o' ∈ os -> Oid_wf o') -> o ∉ os ->
  step os h h' -> present d h -> present d h'.
Proof.
  intros Ho Hos Hno [HF _ _ _] (o' & pack & index & Ho' & (Hp & Hi & Hlen) & Hok).
  assert (o' = o) as -> by congruence. assert (Oid_wf o) as Hwf by (by apply parse_hex_Ok in Ho as (_ & ? & _)).
  exists o, pack, index. split_and!; [done| |apply Hok..].
  assert (forall name, ~ is_temp name -> ~ name_of os name -> hs_files h' !! name = hs_files h !! name) as Hkeep.
  { intros name Ht Hn. destruct (HF name) as [?|[?|[? _]]]; done. }
  unfold sized. rewrite !Hkeep; [done|apply index_name_final| |apply pack_name_final|].
  - intros (o1 & Hin & [E|E]); [by symmetry in E; apply pack_index_ne in E|].
    apply index_name_inj, to_hex_inj in E; [congruence|done|by apply Hos].
  - intros (o1 & Hin & [E|E]); [|by apply pack_index_ne in E].
    apply pack_name_inj, to_hex_inj in E; [congruence|done|by apply Hos].
Qed.

(** Marking a pair that is present. *)
Lemma wp_mark {B} d (k : unit -> HM B) b (t : T) h0 h P :
  same h0 h -> verified_ok h0 -> present d h0 ->
  (forall h', step [] h0 h' -> verified_ok h' -> present d h' -> wp (k tt) (at_end P) (b, (t, h'))) ->
  wp (sbind (mark_verified (pd_id d)) k) (at_end P) (b, (t, h)).
Proof.
  intros Hs Hv Hp HP. apply wp_bind. unfold wp at 1, mark_verified, on_hyd. cbn [fst snd].
  pose proof (verified_ok_same _ _ Hs Hv) as Hv'. pose proof (present_same _ _ _ Hs Hp) as Hp'. apply HP; [| |done].
  - etrans; [by apply same_step|]. split; [apply within_refl|exists []; by rewrite app_nil_r|done..].
  - intros id o Hid Ho. simpl in Hid. apply elem_of_union in Hid as [->%elem_of_singleton|Hid]; [|by apply (Hv' id o)].
    destruct Hp' as (o' & pack & index & Ho' & (Hpk & Hix & _) & Hok & Hok').
    assert (o' = o) as -> by congruence. simpl. split; intros data Hd; simplify_eq; done.
Qed.
Lemma unmark_ok id h : verified_ok h -> verified_ok (set_verified (hs_verified h ∖ {[id]}) h).
Proof. intros Hv id' o Hid. apply (Hv id' o). simpl in Hid. set_solver. Qed.
Lemma unmark_step os v h : step os h (set_verified v h).
Proof. split; [apply within_refl|exists []; by rewrite app_nil_r|done..]. Qed.

Lemma wp_remove_pair id o b (t : T) h :
  parse_hex id = Ok o ->
  wp (remove_destination_pair id) (at_end (fun r h' => r = Ok tt /\ writes [o] h h')) (b, (t, h)).
Proof.
  intros Ho. unfold remove_destination_pair. rewrite (lowercase_id _ _ Ho). apply wp_bind.
  eapply wp_mono; [eapply (wp_remove [o]); [by reflexivity|right; exists o; set_solver]|].
  intros r [b1 [t1 h1]] (-> & W1 & _). eapply wp_mono; [eapply (wp_remove [o]); [by reflexivity|right; exists o; set_solver]|].
  intros r [b2 [t2 h2]] (-> & W2 & _). split; [done|by etrans].
Qed.
Lemma wp_replace d o b (t : T) h :
  parse_hex (pd_id d) = Ok o -> verified_ok h ->
  wp (replace_corrupt d) (at_end (fun r h' => r = Ok tt /\ step [o] h h' /\ verified_ok h')) (b, (t, h)).
Proof.
  intros Ho Hv. unfold replace_corrupt. apply wp_bind. unfold wp at 1, unmark_verified, on_hyd. cbn [fst snd].
  eapply wp_mono; [by apply wp_remove_pair|]. intros r [b1 [t1 h1]] (-> & W1). split; [done|]. split.
  - etrans; [apply unmark_step|by destruct W1].
  - eapply verified_ok_writes; [done|]. by apply unmark_ok.
Qed.

(** What is true after an operation on the packs [os]. *)
Definition progress os h {A} (Q : A -> HydState -> Prop) (r : Res A) h' : Prop :=
  step os h h' /\ verified_ok h' /\ forall a, r = Ok a -> Q a h'.
Lemma progress_same os h {A} (Q : A -> HydState -> Prop) e h' :
  same h h' -> verified_ok h -> progress os h Q (Err e) h'.
Proof. intros Hs Hv. split; [by apply same_step|]. split; [by eapply verified_ok_same|done]. Qed.

Definition planned_item (d : PackDescriptor) (x : HydrationPlanItem * HydrationStats) h' : Prop :=
  it_descriptor x.1 = d /\ (it_fetch x.1 = false -> present d h').

Lemma plan_item_spec d o stats b (t : T) h :
  parse_hex (pd_id d) = Ok o -> verified_ok h ->
  wp (plan_item hash d stats) (at_end (progress [o] h (planned_item d))) (b, (t, h)).
Proof.
  intros Ho Hv. unfold plan_item. pose proof (lowercase_id _ _ Ho) as Hlow. rewrite Hlow.
  assert (forall e h', same h h' -> progress [o] h (planned_item d) (Err e) h') as Herr by (intros; by apply progress_same).
  eapply (wp_reads_bind h); [by reflexivity|apply reads_budget|done|]. intros _ b1 t1 h1 S1 _.
  eapply wp_reads_bind; [exact S1|apply reads_is_file|done|]. intros pe b2 t2 h2 S2 _.
  eapply wp_reads_bind; [exact S2|apply reads_is_file|done|]. intros ie b3 t3 h3 S3 _.
  eapply wp_reads_bind; [exact S3|apply reads_verified|done|]. intros v b4 t4 h4 S4 ->.
  assert (forall b' (t' : T) h', same h h' -> wp (let! _ := replace_corrupt d in sret (mkItem d true, stats_replaced stats))
    (at_end (progress [o] h (planned_item d))) (b', (t', h'))) as Hreplace.
  { intros b' t' h' S'. apply wp_bind. eapply wp_mono; [by apply wp_replace; [|eapply verified_ok_same]|].
    intros r [b5 [t5 h5]] (-> & St & Hv5). apply wp_ret. split; [etrans; [by apply same_step|exact St]|]. split; [done|].
    intros x [= <-]. by split. }
  destruct (pe && ie); [|destruct (pe || ie); [by apply Hreplace|]].
  2: { apply wp_ret. split; [by apply same_step|]. split; [by eapply verified_ok_same|]. intros x [= <-]. by split. }
  eapply (wp_reads_bind _ _ _ (fun r => forall n, r = Ok n -> present d h)); [exact S4| |done|].
  { apply reads_attempt. case_bool_decide as Hin.
    - eapply hoare_bind; [apply reads_pair_sizes|]. intros ? (pack & index & Hs). apply hoare_ret.
      destruct (Hv _ _ Hin Ho) as [Hp Hi]. exists o, pack, index. split_and!; [done..|apply Hp, Hs|apply Hi, Hs].
    - eapply hoare_post; [apply reads_pair_paths|]. intros ? (pack & index & Hs & o' & Ho' & Hp & Hi).
      assert (o' = o) as -> by congruence. exists o, pack, index. by split_and!. }
  intros [n|e] b5 t5 h5 S5 Hr; [|case_bool_decide; [by apply Hreplace|by apply wp_throw, Herr]].
  eapply (wp_mark d _ _ _ h); [done..|by eapply Hr|]. intros h' St Hv' Hp'. apply wp_ret.
  split; [by eapply step_mono; [|done]; set_solver|]. split; [done|]. intros x [= <-]. by split.
Qed.

(** The descriptors of a validated manifest. *)
Definition described_all (packs : list PackDescriptor) os : Prop :=
  Forall2 (described hash) packs os /\ NoDup os.
Lemma described_wf packs os : described_all packs os -> forall o, o ∈ os -> Oid_wf o.
Proof.
  intros [Hd _] o Ho. apply list_elem_of_lookup in Ho as [i Hi].
  destruct (Forall2_lookup_r _ _ _ _ _ Hd Hi) as (d & _ & (Hp & _)). by apply parse_hex_Ok in Hp as (_ & ? & _).
Qed.
Lemma described_cons d packs os :
  described_all (d :: packs) os ->
  exists o os', os = o :: os' /\ parse_hex (pd_id d) = Ok o /\ o ∉ os' /\ described_all packs os'.
Proof.
  intros [Hd Hnd]. apply Forall2_cons_inv_l in Hd as (o & os' & (Ho & _) & Hd & ->).
  apply NoDup_cons in Hnd as [? ?]. by exists o, os'.
Qed.
Lemma described_elem packs os d : described_all packs os -> d ∈ packs -> exists o, o ∈ os /\ parse_hex (pd_id d) = Ok o.
Proof.
  intros [Hd _] Hin. apply list_elem_of_lookup in Hin as [i Hi].
  destruct (Forall2_lookup_l _ _ _ _ _ Hd Hi) as (o & Hoi & (Ho & _)). exists o. split; [|done].
  by eapply list_elem_of_lookup_2.
Qed.

(** Work on one pack, then on others. *)
Lemma progress_head {A} o os h h1 (Q : A -> HydState -> Prop) r h2 :
  step [o] h h1 -> progress os h1 Q r h2 -> progress (o :: os) h Q r h2.
Proof.
  intros S1 (S2 & Hv & Hq). split; [|done]. etrans; eapply step_mono; [|exact S1| |exact S2]; set_solver.
Qed.

Definition planned packs (x : list HydrationPlanItem * HydrationStats) h' : Prop :=
  it_descriptor <$> x.1 = packs /\
  Forall (fun item => it_fetch item = false -> present (it_descriptor item) h') x.1.

Lemma plan_hydration_spec packs os stats b (t : T) h :
  described_all packs os -> verified_ok h ->
  wp (plan_hydration hash packs stats) (at_end (progress os h (planned packs))) (b, (t, h)).
Proof.
  revert os stats b t h. induction packs as [|d packs IH]; intros os stats b t h Hd Hv; simpl.
  { apply wp_ret. split; [by reflexivity|]. split; [done|]. intros x [= <-]. by split. }
  pose proof (described_wf _ _ Hd) as Hwf. apply described_cons in Hd as (o & os' & -> & Ho & Hno & Hd).
  apply wp_bind. eapply wp_mono; [by apply plan_item_spec|]. intros [x|e] [b1 [t1 h1]] (S1 & Hv1 & Q1).
  2: { split; [eapply step_mono; [|exact S1]; set_solver|]. by split. }
  destruct (Q1 _ eq_refl) as [Hx Hp]. apply wp_bind. eapply wp_mono; [by apply (IH os')|].
  intros r [b2 [t2 h2]] P2. pose proof (progress_head _ _ _ _ _ _ _ S1 P2) as (S & Hv2 & _).
  destruct P2 as (S2 & _ & Q2). destruct r as [rest|e]; [apply wp_ret|by split].
  split; [done|]. split; [done|]. intros y [= <-]. destruct (Q2 _ eq_refl) as [Hr Hall]. split; cbn [fst].
  - by rewrite fmap_cons, Hx, Hr.
  - constructor; [|done]. rewrite Hx. intros Hf. eapply (present_frame d o os'); [done|set_solver|done|done|by apply Hp].
Qed.

(** A transport does not reach the store. *)
Lemma hydrate_item_spec (p : PackFetchOdb T) d o stats b (t : T) h :
  pf_hash p = hash -> parse_hex (pd_id d) = Ok o -> verified_ok h ->
  wp (hydrate_item p d stats) (at_end (progress [o] h (fun _ h' => present d h'))) (b, (t, h)).
Proof.
  intros Hhash Ho Hv. unfold hydrate_item. rewrite Ho, Hhash.
  assert (Oid_wf o) as Hwf by (by apply parse_hex_Ok in Ho as (_ & ? & _)).
  set (Q := fun (_ : HydrationStats) h' => present d h').
  assert (forall e h', same h h' -> progress [o] h Q (Err e) h') as Herr by (intros; by apply progress_same).
  eapply (wp_reads_bind h); [by reflexivity|apply reads_budget|done|]. intros _ b1 t1 h1 S1 _.
  eapply wp_reads_bind; [exact S1|apply reads_lift|done|]. intros o' b2 t2 h2 S2 [= <-].
  eapply wp_reads_bind; [exact S2|apply reads_artifact|done|]. intros index b3 t3 h3 S3 Li.
  eapply wp_reads_bind; [exact S3|apply reads_artifact|done|]. intros pack b4 t4 h4 S4 Lp.
  eapply wp_reads_bind; [exact S4|apply reads_lift|done|].
  intros u b5 t5 h5 S5 (o' & Ho' & Hp & Hi)%verify_pair_bytes_Ok. assert (o' = o) as -> by congruence.
  eapply wp_reads_bind; [exact S5|apply reads_budget|done|]. intros _ b6 t6 h6 S6 _.
  apply wp_bind. eapply wp_mono; [by apply wp_write_pair|]. intros r [b7 [t7 h7]] [W R].
  assert (step [o] h h7) as St by (etrans; [by apply same_step|apply W]).
  assert (verified_ok h7) as Hv7 by (eapply verified_ok_writes; [done|by eapply verified_ok_same]).
  destruct r as [u7|e]; [|by split]. destruct (R _ eq_refl) as [Fp Fi].
  eapply (wp_mark d _ _ _ h7); [by reflexivity|done|by exists o, pack, index|].
  intros h8 S8 Hv8 Hp8. apply wp_ret. split; [|by split]. etrans; [exact St|]. eapply step_mono; [|exact S8]. set_solver.
Qed.

Lemma hydrate_items_spec (p : PackFetchOdb T) plan os stats b (t : T) h :
  pf_hash p = hash -> described_all (it_descriptor <$> plan) os -> verified_ok h ->
  Forall (fun item => it_fetch item = false -> present (it_descriptor item) h) plan ->
  wp (hydrate_items p plan stats)
    (at_end (progress os h (fun _ h' => Forall (fun item => present (it_descriptor item) h') plan))) (b, (t, h)).
Proof.
  intros Hhash. revert os stats b t h. induction plan as [|item plan IH]; intros os stats b t h Hd Hv Hall; simpl.
  { apply wp_ret. split; [by reflexivity|]. by split. }
  pose proof (described_wf _ _ Hd) as Hwf. rewrite fmap_cons in Hd.
  apply described_cons in Hd as (o & os' & -> & Ho & Hno & Hd). apply Forall_cons in Hall as [Hitem Hall].
  assert (forall b' (t' : T) h1 stats', step [o] h h1 -> verified_ok h1 -> present (it_descriptor item) h1 ->
    wp (hydrate_items p plan stats') (at_end (progress (o :: os') h
      (fun _ h' => Forall (fun item => present (it_descriptor item) h') (item :: plan)))) (b', (t', h1))) as Hrest.
  { intros b' t' h1 stats' S1 Hv1 Hp1. eapply wp_mono; [apply (IH os'); [done..|]|].
    - rewrite Forall_forall in Hall |- *. intros x Hx Hf. pose proof (Hall x Hx Hf) as Hpx.
      destruct (described_elem _ _ (it_descriptor x) Hd) as (ox & Hox & Hpox); [by apply list_elem_of_fmap_2|].
      eapply (present_frame _ ox [o]); [done|set_solver|set_solver|done..].
    - intros r [b2 [t2 h2]] P2. pose proof (progress_head _ _ _ _ _ _ _ S1 P2) as (S & Hv2 & _).
      destruct P2 as (S2 & _ & Q2). split; [done|]. split; [done|]. intros a Ha. constructor; [|by eapply Q2].
      eapply (present_frame _ o os'); [done|set_solver|done..]. }
  destruct (it_fetch item) eqn:Ef; [|by apply Hrest; [reflexivity|..]; auto].
  apply wp_bind. eapply wp_mono; [by apply (hydrate_item_spec p _ o)|]. intros [st|e] [b1 [t1 h1]] (S1 & Hv1 & Q1).
  - by apply Hrest; [..|eapply Q1].
  - split; [eapply step_mono; [|exact S1]; set_solver|]. by split.
Qed.

(** The probe reads, unless it removes the pair it fails on. *)
Lemma probe_spec (p : PackFetchOdb T) l s packs os b (t : T) h0 h :
  pf_hash p = hash -> described_all packs os -> verified_ok h0 -> same h0 h ->
  wp (probe_hydrated_packs p l s packs) (at_end (progress os h0 (fun _ h' => same h0 h'))) (b, (t, h)).
Proof.
  intros Hhash Hd Hv. revert os s b t h Hd. induction packs as [|d packs IH]; intros os s b t h Hd S0; simpl.
  { apply wp_ret. split; [by apply same_step|]. split; [by eapply verified_ok_same|]. by intros a _. }
  apply described_cons in Hd as (o & os' & -> & Ho & Hno & Hd).
  eapply wp_reads_bind; [exact S0|apply reads_budget|by intros; apply progress_same|]. intros _ b1 t1 h1 S1 _.
  eapply wp_reads_bind; [exact S1| |by intros; apply progress_same|].
  { apply reads_attempt. rewrite Hhash. eapply hoare_bind; [apply reads_first_oid|]. intros oid _. apply reads_local_header. }
  intros probe b2 t2 h2 S2 _. set (fail := let! _ := remove_destination_pair (pd_id d) in _).
  assert (wp fail (at_end (progress (o :: os') h0 (fun _ h' => same h0 h'))) (b2, (t2, h2))) as Hfail.
  { unfold fail. apply wp_bind. eapply wp_mono; [by apply wp_remove_pair|]. intros r [b3 [t3 h3]] (-> & W).
    apply wp_bind. unfold wp at 1, unmark_verified, on_hyd. cbn [fst snd]. apply wp_throw. split; [|split; [|done]].
    - etrans; [by apply same_step|]. etrans; [eapply step_mono; [|apply W]; set_solver|]. apply unmark_step.
    - apply unmark_ok. eapply verified_ok_writes; [done|]. by eapply verified_ok_same. }
  destruct probe as [[[hd|] s']|e]; [|exact Hfail..].
  eapply wp_mono; [by apply (IH os')|]. intros r [b3 [t3 h3]] (S3 & Hv3 & Q3). split; [|by split].
  eapply step_mono; [|exact S3]. set_solver.
Qed.

End Directory.

(* ------------------------------------------------------------------ *)
(** ** The statistics count every pack once *)

Section Counting.
Context {T : Type} `{Env, Digests, !GixOdb, !GixConfig, !LocalFs, !DiskFaults}.
Implicit Types (plan : list HydrationPlanItem) (w : Budget * (T * HydState)).

Definition fetched plan : N := lenN (filter (fun item => it_fetch item = true) plan).
Definition kept plan : N := lenN (filter (fun item => it_fetch item = false) plan).
Lemma fetched_kept plan : fetched plan + kept plan = lenN plan.
Proof.
  unfold fetched, kept. induction plan as [|item plan IH]; [done|]. rewrite !filter_cons.
  destruct (it_fetch item); simpl; unfold lenN in *; simpl; lia.
Qed.

(** A byte total that fits is the plain sum. *)
Lemma byte_total_Ok m parts total n :
  total <= u64_max -> byte_total m total parts = Ok n -> n = total + foldr N.add 0 parts /\ n <= u64_max.
Proof.
  unfold byte_total. intros Ht Hf%ok_or_Ok. revert total Ht Hf. induction parts as [|x parts IH]; intros total Ht Hf; simpl in *.
  { simplify_eq. split; [lia|done]. }
  unfold cadd64 in Hf at 2. destruct (total + x <=? u64_max) eqn:E.
  - apply N.leb_le in E. apply IH in Hf as [-> Hle]; [split; lia|done].
  - exfalso. clear -Hf. induction parts as [|y parts IH]; [done|]. simpl in Hf. auto.
Qed.
Lemma reply_packs_bound packs total n :
  total <= u64_max -> reply_packs packs total = Ok n -> total + 32 * lenN packs <= n /\ n <= u64_max.
Proof.
  revert total. induction packs as [|d packs IH]; intros total Ht; simpl.
  - intros [= ->]. unfold lenN. simpl. split; [lia|done].
  - intros (t1 & Hb & Hr)%rbind_Ok. apply byte_total_Ok in Hb as [-> Hle]; [|done]. apply IH in Hr as [Hb Hu]; [|done].
    unfold pack_reply_parts in *. cbn [foldr] in *. unfold lenN in *. cbn [length]. split; lia.
Qed.
Lemma reply_loose_bound loose total n :
  total <= u64_max -> reply_loose loose total = Ok n -> total <= n /\ n <= u64_max.
Proof.
  revert total. induction loose as [|key loose IH]; intros total Ht; simpl; [intros [= ->]; split; [lia|done]|].
  intros (t1 & Hb & Hr)%rbind_Ok. apply byte_total_Ok in Hb as [-> Hle]; [|done]. apply IH in Hr as [Hb Hu]; [|done].
  cbn [foldr] in *. split; lia.
Qed.
(** A manifest whose reply was counted has fewer than 2^59 packs. *)
Lemma reply_bytes_bound m n : reply_bytes m = Ok n -> lenN (mf_packs m) < u64_mod.
Proof.
  unfold reply_bytes. intros (t1 & Hb & Hr)%rbind_Ok. apply byte_total_Ok in Hb as [-> Hle]; [|done].
  apply rbind_Ok in Hr as (t2 & Hp & Hl). apply reply_packs_bound in Hp as [Hp Hu]; [|done].
  unfold u64_max, u64_mod in *. lia.
Qed.

(** What one descriptor adds to the statistics. *)
Lemma plan_item_stats hash d stats w x w' :
  plan_item hash d stats w = (Ok x, w') ->
  hst_generation x.2 = hst_generation stats /\ hst_packs_hydrated x.2 = hst_packs_hydrated stats /\
  hst_packs_skipped x.2 = if it_fetch x.1 then hst_packs_skipped stats else wadd64 (hst_packs_skipped stats) 1.
Proof.
  unfold plan_item. intros (? & ? & _ & Hp)%sbind_Ok. do 3 apply sbind_Ok in Hp as (? & ? & _ & Hp).
  destruct (_ && _).
  - apply sbind_Ok in Hp as (v & ? & _ & Hp). destruct v as [n|e].
    + apply sbind_Ok in Hp as (? & ? & _ & Hp). unfold sret in Hp. by simplify_eq/=.
    + case_bool_decide; [|done]. apply sbind_Ok in Hp as (? & ? & _ & Hp). unfold sret in Hp. by simplify_eq/=.
  - destruct (_ || _); [apply sbind_Ok in Hp as (? & ? & _ & Hp)|]; unfold sret in Hp; by simplify_eq/=.
Qed.
Lemma plan_stats hash packs stats w x w' :
  plan_hydration hash packs stats w = (Ok x, w') -> hst_packs_skipped stats + lenN packs < u64_mod ->
  hst_generation x.2 = hst_generation stats /\ hst_packs_hydrated x.2 = hst_packs_hydrated stats /\
  hst_packs_skipped x.2 = hst_packs_skipped stats + kept x.1 /\ lenN x.1 = lenN packs.
Proof.
  revert stats w x. induction packs as [|d packs IH]; intros stats w x; simpl.
  { unfold sret. intros [= <- _] _. simpl. unfold kept, lenN. simpl. split_and!; [done..|lia|done]. }
  intros (y & w1 & Hy%plan_item_stats & Hp)%sbind_Ok Hlt. apply sbind_Ok in Hp as (z & w2 & Hz & Hp).
  unfold sret in Hp. simplify_eq/=. destruct Hy as (Hg & Hh & Hs). unfold lenN in Hlt. simpl in Hlt.
  assert (wadd64 (hst_packs_skipped stats) 1 = hst_packs_skipped stats + 1) as Hadd by (apply wadd64_small; lia).
  apply IH in Hz as (Hg2 & Hh2 & Hs2 & Hl); [|rewrite Hs; unfold lenN; destruct (it_fetch y.1); lia].
  split_and!; [congruence..| |unfold lenN in *; simpl; lia].
  rewrite Hs2, Hs. unfold kept. rewrite filter_cons. destruct (it_fetch y.1); simpl; [done|]. unfold lenN. simpl. lia.
Qed.
Lemma hydrate_items_stats (p : PackFetchOdb T) plan stats w st w' :
  hydrate_items p plan stats w = (Ok st, w') -> hst_packs_hydrated stats + fetched plan < u64_mod ->
  hst_generation st = hst_generation stats /\ hst_packs_skipped st = hst_packs_skipped stats /\
  hst_packs_hydrated st = hst_packs_hydrated stats + fetched plan.
Proof.
  revert stats w. induction plan as [|item plan IH]; intros stats w; simpl.
  { unfold sret. intros [= <- _] _. unfold fetched, lenN. simpl. split_and!; [done..|lia]. }
  unfold fetched. rewrite filter_cons. destruct (it_fetch item); simpl; [|apply IH].
  intros (s1 & w1 & Hi & Hr)%sbind_Ok Hlt. unfold hydrate_item in Hi.
  do 8 apply sbind_Ok in Hi as (? & ? & _ & Hi). unfold sret in Hi. simplify_eq/=.
  unfold lenN in Hlt. simpl in Hlt. fold (lenN (filter (fun item => it_fetch item = true) plan)) in Hlt.
  assert (wadd64 (hst_packs_hydrated stats) 1 = hst_packs_hydrated stats + 1) as Hadd by (apply wadd64_small; lia).
  apply IH in Hr as (Hg & Hs & Hh); simpl in *; [|unfold fetched, lenN; lia]. split_and!; [done..|].
  rewrite Hh, Hadd. unfold fetched, lenN. simpl. lia.
Qed.

End Counting.

(* ------------------------------------------------------------------ *)
(** ** Hydration *)

Section Hydration.
Context {T : Type} `{Env, Digests, !GixOdb, !GixConfig, !LocalFs, !DiskFaults}.
Context (p : PackFetchOdb T).
Implicit Types (h : HydState) (os : list Oid).
Abbreviation hash := (pf_hash p).
Abbreviation at_end P := (fun r '(_, (_, h')) => P r h').

Lemma wp_with_run {W E A} (m : ST W E A) Q w : wp m Q w -> wp m (fun r w' => Q r w' /\ m w = (r, w')) w.
Proof. unfold wp. destruct (m w) as [r w']. done. Qed.

Lemma reads_accept h0 m :
  reads h0 (accept_manifest p m) (fun n => manifest_validate m hash = Ok tt /\ reply_bytes m = Ok n).
Proof.
  unfold accept_manifest. eapply hoare_bind; [apply reads_lift|]. intros [] Hv.
  eapply hoare_bind; [apply reads_lift|]. intros ? _. eapply hoare_bind; [apply reads_lift|]. intros n Hn.
  destruct (_ <? n); [apply reads_throw|]. eapply hoare_bind; [apply reads_map_err, reads_budget|]. intros _ _.
  by apply hoare_ret.
Qed.
Lemma reads_max_bytes h0 m : reads h0 (check_max_bytes p m) (fun _ => True).
Proof.
  unfold check_max_bytes. destruct (fo_max_bytes _) as [mx|]; [|by apply hoare_ret].
  eapply hoare_bind; [apply reads_projected|]. intros n _. destruct (_ <? n); [apply reads_throw|by apply hoare_ret].
Qed.

(** The packs a hydration works on: those of the manifest it was given. *)
Definition manifest_packs os : Prop :=
  os = [] \/ exists m w w', rt_manifest (pf_transport p) w = (Ok m, w') /\ described_all hash (mf_packs m) os.

(** A hydration that succeeded. *)
Definition hydrated (st : HydrationStats) h' : Prop :=
  exists m w w', rt_manifest (pf_transport p) w = (Ok m, w') /\
    (forall d, d ∈ mf_packs m -> present hash d h') /\
    hst_generation st = mf_generation m /\
    hst_packs_hydrated st + hst_packs_skipped st = lenN (mf_packs m) /\
    hs_stats h' = st /\
    exists n l s0 s, open_objects_dir n (objects_dir p) hash (mkLocalOptions false) = Ok (l, s0) /\
      hs_local h' = Some (l, s).

Definition hydration_end h (r : Res HydrationStats) h' : Prop :=
  exists os tr, manifest_packs os /\ hs_trace h' = hs_trace h ++ tr /\
    Forall (within hash os (hs_files h)) (tr ++ [hs_files h']) /\ verified_ok hash h' /\
    match r with
    | Ok st => hydrated st h'
    | Err _ => hs_local h' = hs_local h /\ hs_stats h' = hs_stats h
    end.

Lemma end_of_step os h h' e :
  manifest_packs os -> step hash os h h' -> verified_ok hash h' -> hydration_end h (Err e) h'.
Proof.
  intros Hm [HF (tr & Ht & Hw) HL HS] Hv. exists os, tr. split_and!; [done..| |done|done|done].
  apply Forall_app. split; [done|]. by apply Forall_singleton.
Qed.
Lemma end_of_same h h' e : verified_ok hash h -> same h h' -> hydration_end h (Err e) h'.
Proof.
  intros Hv Hs. eapply (end_of_step []); [by left|by apply same_step|by eapply verified_ok_same].
Qed.

(** The part of [hydrate] that follows the plan. *)
Lemma finish_spec m os st b (t : T) h h0 :
  manifest_packs os -> described_all hash (mf_packs m) os -> step hash os h h0 -> verified_ok hash h0 ->
  (exists w w', rt_manifest (pf_transport p) w = (Ok m, w')) -> (forall d, d ∈ mf_packs m -> present hash d h0) ->
  hst_generation st = mf_generation m -> hst_packs_hydrated st + hst_packs_skipped st = lenN (mf_packs m) ->
  wp (finish_hydration p m st) (at_end (hydration_end h)) (b, (t, h0)).
Proof.
  intros Hos Hd S0 Hv (w & w' & Hm) Hp Hg Hc. unfold finish_hydration. eapply (wp_syscall h0); [by reflexivity|].
  intros n h1 S1. assert (forall h', same h0 h' -> step hash os h h') as Hst by (intros h' S'; etrans; [done|by apply same_step]).
  eapply wp_reads_bind; [exact S1|apply reads_lift| |].
  { intros e h' S'. eapply end_of_step; [done|by apply Hst|by eapply verified_ok_same]. }
  intros [l s0] b2 t2 h2 S2 Ho. apply wp_bind. eapply wp_mono; [by apply (probe_spec hash p l s0 (mf_packs m) os)|].
  intros [s|e] [b3 [t3 h3]] (S3 & Hv3 & Q3).
  2: { eapply end_of_step; [done|by etrans|done]. }
  specialize (Q3 _ eq_refl). unfold wp, on_hyd. simpl. destruct (Hst _ Q3) as [HF (tr & Ht & Hw) HL HS].
  exists os, tr. split_and!; [done..| | |].
  - apply Forall_app. split; [done|]. by apply Forall_singleton.
  - done.
  - exists m, w, w'. split_and!; [done| |done..|].
    + intros d Hin. by apply (present_same hash d _ _ Q3), Hp.
    + by exists n, l, s0, s.
Qed.

Lemma hydrate_spec b (t : T) h :
  verified_ok hash h -> wp (hydrate p) (at_end (hydration_end h)) (b, (t, h)).
Proof.
  intros Hv. unfold hydrate.
  assert (forall e h', same h h' -> hydration_end h (Err e) h') as Herr by (intros; by apply end_of_same).
  eapply (wp_reads_bind h); [by reflexivity|apply reads_budget|done|]. intros _ b1 t1 h1 S1 _.
  eapply wp_reads_bind; [exact S1|apply reads_transport|done|]. intros m b2 t2 h2 S2 Hm.
  eapply wp_reads_bind; [exact S2|apply reads_accept|done|]. intros mb b3 t3 h3 S3 [Hval Hrep].
  apply manifest_validate_Ok in Hval as (_ & os & Hdesc). apply reply_bytes_bound in Hrep as Hlen.
  assert (manifest_packs os) as Hos.
  { destruct Hm as (w & w' & Hm). right. by exists m, w, w'. }
  eapply wp_syscall; [exact S3|]. intros n h4 S4. destruct (io_fails n); [by apply wp_throw, Herr|].
  eapply wp_reads_bind; [exact S4|apply reads_max_bytes|done|]. intros _ b5 t5 h5 S5 _.
  apply wp_bind. eapply wp_mono; [apply wp_with_run, (plan_hydration_spec hash _ os); [done|by eapply verified_ok_same]|].
  intros r [b6 [t6 h6]] [(S6 & Hv6 & Q6) R6]. assert (step hash os h h6) as S06 by (etrans; [by apply same_step|done]).
  destruct r as [[plan st1]|e]; [|by eapply end_of_step]. destruct (Q6 _ eq_refl) as [Hplan Hall]. cbn [fst snd] in *.
  apply plan_stats in R6 as (Hg & Hh & Hs & Hl); [|simpl; lia]. cbn [fst snd hst_generation hst_packs_hydrated hst_packs_skipped] in *.
  eapply (wp_reads_bind h6); [by reflexivity|apply reads_lift| |].
  { intros e h' S'. eapply end_of_step; [done|etrans; [done|by apply same_step]|by eapply verified_ok_same]. }
  intros fetch b7 t7 h7 S7 _. destruct (_ <? fetch).
  { apply wp_throw. eapply end_of_step; [done|etrans; [done|by apply same_step]|by eapply verified_ok_same]. }
  apply wp_bind. eapply wp_mono.
  { apply wp_with_run, (hydrate_items_spec hash p plan os); [done|by rewrite Hplan|by eapply verified_ok_same|].
    eapply Forall_impl; [exact Hall|]. intros item Hi Hf. by eapply present_same; [|apply Hi]. }
  intros r [b8 [t8 h8]] [(S8 & Hv8 & Q8) R8].
  assert (step hash os h h8) as S08 by (etrans; [done|etrans; [by apply same_step|done]]).
  destruct r as [st|e]; [|by eapply end_of_step]. specialize (Q8 _ eq_refl). pose proof (fetched_kept plan) as Hfk.
  apply hydrate_items_stats in R8 as (Hg8 & Hs8 & Hh8); [|lia].
  eapply (finish_spec m os); [done..| |congruence|lia].
  intros d Hd. rewrite <- Hplan in Hd. apply list_elem_of_fmap in Hd as (item & -> & Hin).
  rewrite Forall_forall in Q8. by apply Q8.
Qed.

(** C12. Hydration is safe against crashes and failures. Start from any
    contents of the destination in which the files of the packs that the store
    remembers as verified have their checksums where present (a new store
    remembers none), and let any system call fail: in every state
    that the directory goes through, every file that is not temporary is as it
    was, or belongs to a pack of the manifest and is gone or has the checksums
    its name says. So hydration never puts an unverified byte under a final name
    and does not touch packs outside the manifest, and what the store remembers as
    verified is again right at the end. When hydration fails, the store keeps
    the handle on the directory and the statistics it had, which does not say
    that the files of a manifest pack it served are still there. *)
Theorem hydration_crash_safe b (t : T) h r b' t' h' :
  verified_ok hash h -> hydrate p (b, (t, h)) = (r, (b', (t', h'))) ->
  verified_ok hash h' /\
  (exists os tr, manifest_packs os /\ hs_trace h' = hs_trace h ++ tr /\
     forall F, F ∈ tr ++ [hs_files h'] -> forall name, ~ is_temp name ->
       F !! name = hs_files h !! name \/
       (name_of os name /\ forall data, F !! name = Some data -> file_ok hash name data)) /\
  (forall e, r = Err e -> hs_local h' = hs_local h /\ hs_stats h' = hs_stats h).
Proof.
  intros Hv Hrun. pose proof (hydrate_spec b t h Hv) as Hw. eapply wp_run in Hw; [|exact Hrun].
  destruct Hw as (os & tr & Hos & Ht & Hall & Hv' & Hr). split; [done|]. split; [|by intros e ->].
  exists os, tr. split_and!; [done..|]. intros F HF name Hn. rewrite Forall_forall in Hall.
  destruct (Hall F HF name) as [?|[?|[? Hd]]]; [done|by left|right]. split; [done|]. intros data. naive_solver congruence.
Qed.

(** C13. A hydration that succeeds is complete. Start from any contents of the
    destination in which the files of the packs that the store remembers as
    verified have their checksums where present; a new store remembers none.
    Then for every pack of the manifest both files are on disk under their final names, of the announced
    sizes and with matching checksums; the store serves the directory that was
    just opened; and the statistics count each pack once, as hydrated or as
    skipped. *)
Theorem hydration_completes b (t : T) h st b' t' h' :
  verified_ok hash h -> hydrate p (b, (t, h)) = (Ok st, (b', (t', h'))) ->
  exists m w w', rt_manifest (pf_transport p) w = (Ok m, w') /\
    (forall d, d ∈ mf_packs m -> exists o pack index, parse_hex (pd_id d) = Ok o /\
       hs_files h' !! pack_name (to_hex o) = Some pack /\ hs_files h' !! index_name (to_hex o) = Some index /\
       lenN pack = pd_pack_size d /\ lenN index = pd_index_size d /\
       pack_ok hash o pack /\ index_ok hash o index) /\
    hst_generation st = mf_generation m /\
    hst_packs_hydrated st + hst_packs_skipped st = lenN (mf_packs m) /\
    hs_stats h' = st /\
    exists n l s0 s, open_objects_dir n (objects_dir p) hash (mkLocalOptions false) = Ok (l, s0) /\
      hs_local h' = Some (l, s).
Proof.
  intros Hv Hrun. pose proof (hydrate_spec b t h Hv) as Hw. eapply wp_run in Hw; [|exact Hrun].
  destruct Hw as (os & tr & _ & _ & _ & _ & (m & w & w' & Hm & Hp & Hrest)). exists m, w, w'. split; [done|].
  split; [|done]. intros d Hd. destruct (Hp d Hd) as (o & pack & index & Ho & (? & ? & ? & ?) & ? & ?).
  by exists o, pack, index.
Qed.

(** A new store trusts nothing on disk. *)
Lemma new_verified_ok hash' options (tr : RangeTransport T) files x h :
  PackFetchOdb_new hash' options tr files = Ok (x, h) -> verified_ok hash h.
Proof.
  unfold PackFetchOdb_new. intros (u & _ & Hn)%rbind_Ok. simplify_eq. intros id o Hid. by apply elem_of_empty in Hid.
Qed.

End Hydration.

(* ------------------------------------------------------------------ *)
(** ** A hydrated store keeps the object-store contract *)

Section Serving.
Context {T : Type} `{Env, Digests, !GixOdb, !GixConfig, !LocalFs, !DiskFaults}.
Context (p : PackFetchOdb T) (l : LocalOdb) (store : gix_store) (dirs : list bytes) (c : Oid -> ObjectReadResult)
  `{!StableEngine store c}.

(** The store of the last hydration is [l]. *)
Definition serving (h : HydState) : Prop := exists s, hs_local h = Some (l, s) /\ local_inv l store dirs s.

Lemma on_local_spec {A} (m : LocalOdb -> DM LocalState A) (P : A -> Prop) :
  scans (local_inv l store dirs) (m l) P ->
  hoare (on_store serving) (fun e => local_failure (code e)) (on_local m) P.
Proof.
  intros Hm [b h] (s & Hl & Hs). cbn [snd] in Hl. unfold on_local. rewrite Hl. destruct (Hm (b, s) Hs) as [Ho Hi].
  destruct (m l (b, s)) as [r [b' s']]. split; [done|]. by exists s'.
Qed.

#[export] Instance packfetch_headers : VerifiedHeaders (packfetch_db p) c serving local_failure.
Proof. constructor. intros oid. apply on_local_spec. apply law_plain_header. Qed.
#[export] Instance packfetch_lawful : LawfulDb (packfetch_db p) c serving local_failure.
Proof.
  constructor; intros.
  - apply on_local_spec, law_find.
  - apply hoare_without_object_charge, on_local_spec, law_find.
  - cbn [try_header_with_provenance packfetch_db]. unfold default_try_header_with_provenance.
    eapply hoare_bind; [apply on_local_spec, law_plain_header|]. intros h ->. apply hoare_ret.
    unfold header_agrees. by destruct (c oid) as [[]|].
  - apply on_local_spec, law_many.
  - by apply hoare_ret.
Qed.

End Serving.

(* ------------------------------------------------------------------ *)
(** ** Concrete runs *)

Module HydrateDemo.

Definition no_faults : DiskFaults :=
  {| io_fails _ := false; io_written _ := 0%nat; io_message _ := "io"; process_id := 7 |}.
(** Every system call from the [n]-th on fails. *)
Definition failing_after (n : nat) : DiskFaults :=
  {| io_fails i := (n <=? i)%nat; io_written _ := 2%nat; io_message _ := "io"; process_id := 7 |}.

Definition digest (m : bytes) : bytes := toy_digest 20 m.
Definition body : bytes := bs "PACK with one object".
Definition pack : bytes := body ++ digest body.
Definition id : Oid := match Oid_new Sha1 (digest body) with Ok o => o | Err _ => toy_oid end.
Definition fanout : bytes := replicate 1023 x00 ++ [x01].
Definition index_body : bytes := [xff; x74; x4f; x63; x00; x00; x00; x02] ++ fanout ++ as_bytes toy_oid ++ digest body.
Definition index : bytes := index_body ++ digest index_body.
Definition blob (key : bytes) : bytes := if bool_decide (key = bs "p") then pack else index.
Definition manifest : PackManifest :=
  mkManifest 1 (bs "g1") Sha1 [mkDescriptor (to_hex id) (bs "p") (bs "i") (lenN pack) (lenN index) None] [].
Definition read (ranges : list ByteRange) : DM unit (list bytes) := sret (slice_of blob <$> ranges).
Definition transport : RangeTransport unit :=
  mkTransport (sret manifest) read (default_read_ranges_window read) (fun _ t => t).
Definition options : PackFetchOptions := mkFetchOptions (bs "/r") 16 2 100000 None.
Definition store : PackFetchOdb unit := mkPackFetch Sha1 transport options.
Definition files : LocalFs := LocalDemo.files true.
Definition start (F : gmap bytes bytes) : @HydState LocalDemo.engine :=
  @mkHyd LocalDemo.engine F 0 1 None HydrationStats_default ∅ [].
Definition run (faults : DiskFaults) (b : Budget) (h : @HydState LocalDemo.engine) :=
  @hydrate unit quiet toy_digests LocalDemo.engine files faults store (b, (tt, h)).
Definition state_of {A} (x : A * (Budget * (unit * @HydState LocalDemo.engine))) := x.2.2.2.

Definition pack_path : bytes := pack_name (to_hex id).
Definition index_path : bytes := index_name (to_hex id).
(** A destination with a corrupt pair. *)
Definition corrupt : gmap bytes bytes := <[pack_path := bs "junk"]> (<[index_path := bs "junk"]> ∅).
Definition first := run no_faults Budget_unlimited (start corrupt).

Example hydrates_over_corruption :
  (first.1, hs_files (state_of first) !! pack_path, hs_files (state_of first) !! index_path) =
  (Ok (mkHydrationStats (bs "g1") 1 1132 1132 0 1), Some pack, Some index).
Proof. vm_compute. reflexivity. Qed.
(** A second run fetches nothing and hashes nothing. *)
Example refresh_skips :
  (run no_faults Budget_unlimited (state_of first)).1 = Ok (mkHydrationStats (bs "g1") 0 0 0 1 0).
Proof. vm_compute. reflexivity. Qed.
(** A failure in the middle of the publication leaves no final file. *)
Example failure_publishes_nothing :
  let x := run (failing_after 9) Budget_unlimited (start ∅) in
  (hs_files (state_of x) !! pack_path, hs_files (state_of x) !! index_path) = (None, None).
Proof. vm_compute. reflexivity. Qed.

(** A budget that admits no header read. *)
Definition no_headers : Budget :=
  Budget_new (mkLimits 0 u64_max u64_max u64_max u64_max u64_max u32_max) None.

Lemma start_ok F : @verified_ok toy_digests LocalDemo.engine Sha1 (start F).
Proof. intros i o Hi. by apply elem_of_empty in Hi. Qed.

End HydrateDemo.

(** A run in which the open-time probe does not tell a budget that ran out from
    a pack that cannot be read: this refresh, whose object budget is used up,
    deletes a pair that was just verified and that the store serves, and reports
    it as malformed instead of reporting the budget. *)
Example probe_deletes_verified_pack :
  let h := HydrateDemo.state_of HydrateDemo.first in
  let x := HydrateDemo.run HydrateDemo.no_faults HydrateDemo.no_headers h in
  (hs_files h !! HydrateDemo.pack_path = Some HydrateDemo.pack /\
   @verify_pair_bytes toy_digests HydrateDemo.pack HydrateDemo.index
     (mkDescriptor (to_hex HydrateDemo.id) (bs "p") (bs "i") 40 1092 None) Sha1 = Ok tt) /\
  (exists e, x.1 = Err e /\ code e = MalformedObject /\ limit e = None) /\
  hs_files (HydrateDemo.state_of x) !! HydrateDemo.pack_path = None /\
  hs_files (HydrateDemo.state_of x) !! HydrateDemo.index_path = None.
Proof.
  split_and!; try (vm_compute; reflexivity). eexists. split_and!; vm_compute; reflexivity.
Qed.

Lemma hydration_crash_safe_witness :
  let '(r, (b', (t', h'))) := HydrateDemo.run (HydrateDemo.failing_after 9) Budget_unlimited
    (HydrateDemo.start HydrateDemo.corrupt) in
  @verified_ok toy_digests LocalDemo.engine Sha1 h' /\
  (exists os tr, @manifest_packs unit HydrateDemo.store os /\ hs_trace h' = [] ++ tr /\
     forall F, F ∈ tr ++ [hs_files h'] -> forall name, ~ is_temp name ->
       F !! name = HydrateDemo.corrupt !! name \/
       (name_of os name /\ forall data, F !! name = Some data -> @file_ok toy_digests Sha1 name data)) /\
  (forall e, r = Err e -> hs_local h' = None /\ hs_stats h' = HydrationStats_default).
Proof.
  unfold HydrateDemo.run. destruct (hydrate HydrateDemo.store _) as [r [b' [t' h']]] eqn:E.
  exact (@hydration_crash_safe unit quiet toy_digests LocalDemo.engine HydrateDemo.files
    (HydrateDemo.failing_after 9) HydrateDemo.store Budget_unlimited tt (HydrateDemo.start HydrateDemo.corrupt)
    r b' t' h' (HydrateDemo.start_ok _) E).
Defined.

Lemma hydration_completes_witness :
  let '(r, (b', (t', h'))) := HydrateDemo.first in
  r = Ok (mkHydrationStats (bs "g1") 1 1132 1132 0 1) /\
  exists m w w', rt_manifest HydrateDemo.transport w = (Ok m, w') /\ hs_stats h' = mkHydrationStats (bs "g1") 1 1132 1132 0 1.
Proof.
  unfold HydrateDemo.first, HydrateDemo.run. destruct (hydrate HydrateDemo.store _) as [r [b' [t' h']]] eqn:E.
  assert (r = Ok (mkHydrationStats (bs "g1") 1 1132 1132 0 1)) as ->.
  { apply (f_equal fst) in E. vm_compute in E. symmetry. exact E. }
  split; [reflexivity|].
  destruct (@hydration_completes unit quiet toy_digests LocalDemo.engine HydrateDemo.files
    HydrateDemo.no_faults HydrateDemo.store Budget_unlimited tt (HydrateDemo.start HydrateDemo.corrupt)
    _ b' t' h' (HydrateDemo.start_ok _) E) as (m & w & w' & Hm & _ & _ & _ & Hs & _).
  exists m, w, w'. split; assumption.
Defined.
