(* ===== verification/LogWalk.v ===== *)
(** * Commit walks ([log.rs])

    The traversal under the commit log and path history: how a commit's
    parents and committer time are read ([read_meta]), the chronological walk
    (a priority queue fed as commits are emitted) and the ordered walk (a
    pre-pass over the whole history, then child counts). The theorems say what
    a walk emits: every reachable commit once, newest first among the
    discovered ones, or children before parents. The page built on a walk is in
    [Log.v]. *)

From Stdlib Require Import NArith ZArith Lia Strings.Byte Strings.String.
From stdpp Require Import prelude gmap strings list relations sorting.
From S2P Require Import Prelude Errors Objects Budget Odb Decode Snapshot Graph Ancestry.

Open Scope N_scope.

(** [LogOrder]; [OrderTopological] and [OrderDate] are its [Topological] and
    [DateOrder]. *)
Inductive LogOrder : Type :=
| Chronological
| OrderTopological
| OrderDate.

(** [LogOptions] and its default; times are 64-bit signed. *)
Record LogOptions : Type := mkLogOptions {
  lo_order : LogOrder;
  lo_first_parent : bool;
  lo_since : option Z;
  lo_until : option Z;
  lo_limit : nat;
  lo_cursor : option bytes
}.
Definition LogOptions_default : LogOptions :=
  mkLogOptions Chronological false None None 1000 None.

(** [CommitMeta], [TimedCommit], [WalkedCommit]. *)
Record CommitMeta : Type := mkMeta {
  cm_parents : list Oid;
  cm_time : Z
}.
Record TimedCommit : Type := mkTimedCommit {
  tc_id : Oid;
  tc_meta : CommitMeta;
  tc_sequence : N
}.
Record WalkedCommit : Type := mkWalked {
  wc_id : Oid;
  wc_time : Z
}.

(** [Ord for TimedCommit] and [Ord for TimedOid]: later time first, then the
    smaller sequence number. *)
Definition timed_cmp (t1 : Z) (s1 : N) (t2 : Z) (s2 : N) : comparison :=
  match Z.compare t1 t2 with
  | Eq => N.compare s2 s1
  | r => r
  end.
Definition TimedCommit_cmp (a b : TimedCommit) : comparison :=
  timed_cmp (cm_time (tc_meta a)) (tc_sequence a) (cm_time (tc_meta b)) (tc_sequence b).

(* ------------------------------------------------------------------ *)
(** ** Reading a commit's parents and time *)

(** [malformed_for]. *)
Definition malformed_for (oid : Oid) (m : string) : Error := with_oid oid (Error_new MalformedObject m).

(** [split_commit]. *)
Definition split_commit (payload : bytes) : Res (bytes * bytes) :=
  let? separator := ok_or (Error_new MalformedObject "commit payload has no message separator")
                      (blank_line payload) in
  Ok (take separator payload, drop (separator + 2) payload).

(** [split_header]. *)
Definition split_header (line : bytes) : Res (bytes * bytes) :=
  let? separator := ok_or (Error_new MalformedObject "commit header is malformed")
                      (position (beq x20) line) in
  if (separator =? 0)%nat || (length line <=? separator + 1)%nat then
    Err (Error_new MalformedObject "commit header is malformed")
  else Ok (take separator line, drop (separator + 1) line).

(** [identity_time]. *)
Definition identity_time (raw : bytes) : Res Z :=
  let? right_ := ok_or (Error_new MalformedObject "commit identity is malformed")
                   (rposition (beq x3e) raw) in
  let? suffix := ok_or (Error_new MalformedObject "commit identity is missing its timestamp")
                   (strip_prefix [x20] (drop (right_ + 1) raw)) in
  ok_or (Error_new MalformedObject "commit identity timestamp is malformed")
    (value ← head (split_on (beq x20) suffix);
     if bool_decide (value = []) then None else parse_i64 value).

(** [parse_oid]. Bytes that are not UTF-8 are not hexadecimal digits either,
    and both refusals are the same error. *)
Definition parse_oid (raw : bytes) (kind : HashKind) (field : string) (object : Oid) : Res Oid :=
  let? oid := map_err (fun _ => malformed_for object field) (parse_hex raw) in
  if bool_decide (oid_kind oid = kind) then Ok oid else Err (malformed_for object field).

(** The header loop of [read_meta]. *)
Fixpoint meta_lines (id : Oid) (lines : list bytes) (parents : list Oid) (time : option Z)
  : Res (list Oid * option Z) :=
  match lines with
  | [] => Ok (parents, time)
  | line :: lines =>
      if starts_with line [x20] then meta_lines id lines parents time
      else
        let? (name, value) := map_err (with_oid_if_none id) (split_header line) in
        if bytes_eqb name (bs "parent") then
          let? p := parse_oid value (oid_kind id) "commit parent" id in
          meta_lines id lines (parents ++ [p]) time
        else if bytes_eqb name (bs "committer") then
          let? t := map_err (with_oid_if_none id) (identity_time value) in
          meta_lines id lines parents (Some t)
        else meta_lines id lines parents time
  end.

(** The part of [read_meta] after the read: the parsed headers, then the cuts
    of [first_parent], [since] and the shallow boundary. *)
Definition parse_meta (id : Oid) (payload : bytes) : Res CommitMeta :=
  let? (headers, _) := map_err (with_oid_if_none id) (split_commit payload) in
  let? (parents, time) := meta_lines id (split_on (beq x0a) headers) [] None in
  let? time := ok_or (with_oid id (Error_new MalformedObject
                        "commit payload is missing its committer header")) time in
  Ok (mkMeta parents time).
Definition cut_meta (opts : LogOptions) (shallow : bool) (m : CommitMeta) : CommitMeta :=
  let parents := if lo_first_parent opts then take 1 (cm_parents m) else cm_parents m in
  let before := match lo_since opts with Some since => (cm_time m <? since)%Z | None => false end in
  mkMeta (if before || shallow then [] else parents) (cm_time m).

(** [within_time_bounds]. *)
Definition within_time_bounds (time : Z) (opts : LogOptions) : bool :=
  match lo_since opts with Some since => (since <=? time)%Z | None => true end
  && match lo_until opts with Some until => (time <=? until)%Z | None => true end.

Section Reads.
Context {T : Type} (db : ObjectDb T).

(** [read_payload]. *)
Definition read_payload (id : Oid) (input : bool) : DM T bytes :=
  let! found := smap_err (with_oid_if_none id) (try_find_graph db id) in
  let! (kind, payload) := slift (ok_or (missing_commit id) found) in
  if negb (bool_decide (kind = Commit)) then
    sthrow (with_oid id (Error_new (if input then NotACommit else MalformedObject)
      ("object " ++ oid_str id ++ " reached by commit traversal is not a commit")))
  else sret payload.

(** [read_meta]. *)
Definition read_meta (id : Oid) (opts : LogOptions) (input : bool) : DM T CommitMeta :=
  let! payload := read_payload id input in
  let! m := slift (parse_meta id payload) in
  sret (cut_meta opts (is_shallow db id) m).

End Reads.

(* ------------------------------------------------------------------ *)
(** ** The chronological walk *)

(** [ChronologicalWalk], without the store, options and budget it borrows. *)
Record ChronologicalWalk : Type := mkChrono {
  cw_queue : list TimedCommit;
  cw_seen : gset Oid;
  cw_next_sequence : N;
  cw_pending_error : option Error
}.

(** [seen.insert(parent)], [queue.push(..)] with the next sequence number, and
    [pending_error]. *)
Definition cw_see (id : Oid) (s : ChronologicalWalk) : ChronologicalWalk :=
  mkChrono (cw_queue s) ({[id]} ∪ cw_seen s) (cw_next_sequence s) (cw_pending_error s).
Definition cw_push (id : Oid) (m : CommitMeta) (s : ChronologicalWalk) : ChronologicalWalk :=
  mkChrono (heap_push (mkTimedCommit id m (cw_next_sequence s)) (cw_queue s)) (cw_seen s)
    (sadd64 (cw_next_sequence s) 1) (cw_pending_error s).
Definition cw_set_pending (e : option Error) (s : ChronologicalWalk) : ChronologicalWalk :=
  mkChrono (cw_queue s) (cw_seen s) (cw_next_sequence s) e.
Definition cw_set_queue (q : list TimedCommit) (s : ChronologicalWalk) : ChronologicalWalk :=
  mkChrono q (cw_seen s) (cw_next_sequence s) (cw_pending_error s).

(** The walk before its first step. *)
Definition chrono_start (start : Oid) (m : CommitMeta) : ChronologicalWalk :=
  mkChrono [mkTimedCommit start m 0] {[start]} 1 None.

Section ChronologicalWalk.
Context `{Env} {T : Type} (db : ObjectDb T) (opts : LogOptions).

(** [ChronologicalWalk::new]. *)
Definition chrono_new (start : Oid) : DM T ChronologicalWalk :=
  let! m := read_meta db start opts true in
  sret (chrono_start start m).

(** The parent loop of [ChronologicalWalk::next]. *)
Fixpoint chrono_parents (parents : list Oid) (s : ChronologicalWalk) (w : Budget * T)
  : ChronologicalWalk * (Budget * T) :=
  match parents with
  | [] => (s, w)
  | parent :: parents =>
      if bool_decide (parent ∈ cw_seen s) then chrono_parents parents s w
      else
        let s := cw_see parent s in
        match read_meta db parent opts false w with
        | (Ok m, w) => chrono_parents parents (cw_push parent m s) w
        | (Err e, w) => (cw_set_pending (Some e) s, w)
        end
  end.

(** [ChronologicalWalk::next]. *)
Definition chrono_next (charge_visit : bool) (s : ChronologicalWalk) (w : Budget * T)
  : option (Res WalkedCommit) * ChronologicalWalk * (Budget * T) :=
  match cw_pending_error s with
  | Some e => (Some (Err e), cw_set_pending None s, w)
  | None =>
      match heap_pop TimedCommit_cmp (cw_queue s) with
      | None => (None, s, w)
      | Some (current, queue) =>
          let s := cw_set_queue queue s in
          let '(r, w) := on_budget (if charge_visit then charge_object_visit else check) w in
          match r with
          | Err e => (Some (Err e), s, w)
          | Ok _ =>
              let '(s, w) := chrono_parents (cm_parents (tc_meta current)) s w in
              (Some (Ok (mkWalked (tc_id current) (cm_time (tc_meta current)))), s, w)
          end
      end
  end.

End ChronologicalWalk.

(* ------------------------------------------------------------------ *)
(** ** The ordered walk *)

(** [OrderedNode], [TimedOid] and [OrderedQueue]; the [Vec] of the topological
    queue is kept with its last element first. *)
Record OrderedNode : Type := mkNode {
  on_meta : CommitMeta;
  on_discovery : N
}.
Record TimedOid : Type := mkTimedOid {
  to_id : Oid;
  to_time : Z;
  to_sequence : N
}.
Definition TimedOid_cmp (a b : TimedOid) : comparison :=
  timed_cmp (to_time a) (to_sequence a) (to_time b) (to_sequence b).
Inductive OrderedQueue : Type :=
| QTopological (stack : list Oid)
| QDate (heap : list TimedOid).

(** [OrderedWalk]; [ow_residue] is the deque from its back. *)
Record OrderedWalk : Type := mkOrdered {
  ow_nodes : gmap Oid OrderedNode;
  ow_child_counts : gmap Oid nat;
  ow_queue : OrderedQueue;
  ow_next_sequence : N;
  ow_emitted : gset Oid;
  ow_residue : list Oid
}.

Definition ow_set_counts (counts : gmap Oid nat) (s : OrderedWalk) : OrderedWalk :=
  mkOrdered (ow_nodes s) counts (ow_queue s) (ow_next_sequence s) (ow_emitted s) (ow_residue s).
Definition ow_set_queue (q : OrderedQueue) (n : N) (s : OrderedWalk) : OrderedWalk :=
  mkOrdered (ow_nodes s) (ow_child_counts s) q n (ow_emitted s) (ow_residue s).
Definition ow_emit (id : Oid) (s : OrderedWalk) : OrderedWalk :=
  mkOrdered (ow_nodes s) (ow_child_counts s) (ow_queue s) (ow_next_sequence s)
    ({[id]} ∪ ow_emitted s) (ow_residue s).
Definition ow_set_residue (r : list Oid) (s : OrderedWalk) : OrderedWalk :=
  mkOrdered (ow_nodes s) (ow_child_counts s) (ow_queue s) (ow_next_sequence s) (ow_emitted s) r.

(** [ordered_prepass_error]. *)
Definition ordered_prepass_error (e : Error) (o : LogOrder) : Error :=
  if bool_decide (code e = BudgetExceeded /\ limit e = Some "max_objects"%string) then
    let error_order := match o with OrderDate => Date | _ => Topological end in
    with_order error_order (with_limit "max_objects" (Error_new BudgetExceeded
      (":" ++ ErrorOrder_as_str error_order
       ++ " order requires limits.max_objects at or above the reachable commit count")))
  else e.

(** The child counts: zero for every node, then one per parent link; a parent
    outside the nodes has no count. *)
Definition count_links (parents : list Oid) (counts : gmap Oid nat) : gmap Oid nat :=
  foldl (fun counts parent => alter S parent counts) counts parents.
Definition child_counts (nodes : gmap Oid OrderedNode) : gmap Oid nat :=
  foldl (fun counts node => count_links (cm_parents (on_meta node)) counts)
    ((fun _ => 0%nat) <$> nodes) (map_to_list nodes).*2.

(** The childless nodes, sorted by time and discovery. *)
Definition initial_key (nodes : gmap Oid OrderedNode) (id : Oid) : Z * N :=
  match nodes !! id with
  | Some node => (cm_time (on_meta node), on_discovery node)
  | None => (0%Z, 0)
  end.
Definition key_before (x y : Z * N) : Prop := (x.1 < y.1)%Z \/ (x.1 = y.1 /\ x.2 <= y.2).
#[export] Instance key_before_dec x y : Decision (key_before x y).
Proof. unfold key_before. solve_decision. Defined.
Definition initial_nodes (nodes : gmap Oid OrderedNode) (counts : gmap Oid nat) : list Oid :=
  merge_sort (fun a b => key_before (initial_key nodes a) (initial_key nodes b))
    (filter (fun p => p.2 = 0%nat) (map_to_list counts)).*1.

(** Filling the date queue, from the last initial node to the first. *)
Fixpoint push_initial (nodes : gmap Oid OrderedNode) (ids : list Oid) (heap : list TimedOid) (n : N)
  : list TimedOid * N :=
  match ids with
  | [] => (heap, n)
  | id :: ids =>
      push_initial nodes ids (heap_push (mkTimedOid id (initial_key nodes id).1 n) heap) (sadd64 n 1)
  end.

(** What [OrderedWalk::new] builds from the nodes of its pre-pass. *)
Definition ordered_start (o : LogOrder) (nodes : gmap Oid OrderedNode) : OrderedWalk :=
  let counts := child_counts nodes in
  let initial := initial_nodes nodes counts in
  match o with
  | OrderDate =>
      let '(heap, n) := push_initial nodes (reverse initial) [] 0 in
      mkOrdered nodes counts (QDate heap) n ∅ []
  | _ => mkOrdered nodes counts (QTopological (reverse initial)) 0 ∅ []
  end.

Section Prepass.
Context `{Env} {T : Type} (db : ObjectDb T) (opts : LogOptions).

(** The pre-pass of [OrderedWalk::new]. The vector [pending] is kept with its
    last element first, so pushing the parents in reverse prepends them. *)
Fixpoint prepass (fuel : nat) (start : Oid) (pending : list Oid) (nodes : gmap Oid OrderedNode)
  (discovery : N) : DM T (gmap Oid OrderedNode) :=
  match pending with
  | [] => sret nodes
  | id :: pending =>
      match fuel with
      | O => sthrow diverged
      | S fuel =>
          match nodes !! id with
          | Some _ => prepass fuel start pending nodes discovery
          | None =>
              let! _ := smap_err (fun e => ordered_prepass_error e (lo_order opts))
                          (on_budget charge_object_visit) in
              let! m := read_meta db id opts (bool_decide (id = start)) in
              prepass fuel start (filter (fun p => nodes !! p = None) (cm_parents m) ++ pending)
                (<[id := mkNode m discovery]> nodes) (sadd64 discovery 1)
          end
      end
  end.

(** [OrderedWalk::new]. *)
Definition ordered_new (fuel : nat) (start : Oid) : DM T OrderedWalk :=
  let! nodes := prepass fuel start [start] ∅ 0 in
  sret (ordered_start (lo_order opts) nodes).

End Prepass.

(** [pop_ready]. *)
Definition pop_ready (s : OrderedWalk) : option (Oid * OrderedWalk) :=
  match ow_queue s with
  | QTopological [] => None
  | QTopological (id :: stack) => Some (id, ow_set_queue (QTopological stack) (ow_next_sequence s) s)
  | QDate heap =>
      '(entry, heap) ← heap_pop TimedOid_cmp heap;
      Some (to_id entry, ow_set_queue (QDate heap) (ow_next_sequence s) s)
  end.

(** [push_ready]; [None] is the panic of indexing a node that is not there. *)
Definition push_ready (id : Oid) (s : OrderedWalk) : option OrderedWalk :=
  match ow_queue s with
  | QTopological stack => Some (ow_set_queue (QTopological (id :: stack)) (ow_next_sequence s) s)
  | QDate heap =>
      node ← ow_nodes s !! id;
      Some (ow_set_queue
              (QDate (heap_push (mkTimedOid id (cm_time (on_meta node)) (ow_next_sequence s)) heap))
              (sadd64 (ow_next_sequence s) 1) s)
  end.

(** The order of [Oid] as derived, and [pop_residue]. *)
Definition hash_rank (k : HashKind) : N :=
  match k with
  | Sha1 => 0
  | Sha256 => 1
  end.
Definition oid_le (a b : Oid) : Prop :=
  hash_rank (oid_kind a) < hash_rank (oid_kind b) \/
  (hash_rank (oid_kind a) = hash_rank (oid_kind b) /\ bytes_leb (oid_raw a) (oid_raw b) = true).
#[export] Instance oid_le_dec a b : Decision (oid_le a b).
Proof. unfold oid_le. apply _. Defined.
Definition residue_of (s : OrderedWalk) : list Oid :=
  reverse (merge_sort oid_le (filter (fun id => id ∉ ow_emitted s) (map_to_list (ow_nodes s)).*1)).
Definition pop_residue (s : OrderedWalk) : option (Oid * OrderedWalk) :=
  let residue :=
    if bool_decide (ow_residue s = []) && (size (ow_emitted s) <? size (ow_nodes s))%nat
    then residue_of s else ow_residue s in
  match residue with
  | [] => None
  | id :: residue => Some (id, ow_set_residue residue s)
  end.

(** The parent loop of [OrderedWalk::next]; [None] is a panic. *)
Fixpoint release_parents (parents : list Oid) (s : OrderedWalk) : option OrderedWalk :=
  match parents with
  | [] => Some s
  | parent :: parents =>
      count ← ow_child_counts s !! parent;
      let count := (count - 1)%nat in
      let s := ow_set_counts (<[parent := count]> (ow_child_counts s)) s in
      s ← (if (count =? 0)%nat then push_ready parent s else Some s);
      release_parents parents s
  end.

(** [OrderedWalk::next]: the outer [None] is a panic, the inner one the end. *)
Definition ordered_emit (id : Oid) (is_residue : bool) (s : OrderedWalk)
  : option (option WalkedCommit * OrderedWalk) :=
  node ← ow_nodes s !! id;
  let s := ow_emit id s in
  s ← (if is_residue then Some s else release_parents (cm_parents (on_meta node)) s);
  Some (Some (mkWalked id (cm_time (on_meta node))), s).
Definition ordered_next (s : OrderedWalk) : option (option WalkedCommit * OrderedWalk) :=
  match pop_ready s with
  | Some (id, s) => ordered_emit id false s
  | None =>
      match pop_residue s with
      | Some (id, s) => ordered_emit id true s
      | None => Some (None, s)
      end
  end.

(* ------------------------------------------------------------------ *)
(** ** [Walk] *)

Inductive Walk : Type :=
| WChronological (walk : ChronologicalWalk)
| WOrdered (walk : OrderedWalk).

Definition walk_panic : Error := Error_new InternalError "panic".

Section Walk.
Context `{Env} {T : Type} (db : ObjectDb T) (opts : LogOptions).

(** [Walk::new]. *)
Definition walk_new (fuel : nat) (start : Oid) : DM T Walk :=
  match lo_order opts with
  | Chronological =>
      let! s := chrono_new db opts start in
      sret (WChronological s)
  | OrderTopological | OrderDate =>
      let! s := ordered_new db opts fuel start in
      sret (WOrdered s)
  end.

(** [Walk::next]. *)
Definition walk_next (charge_visit : bool) (s : Walk) (w : Budget * T)
  : option (Res WalkedCommit) * Walk * (Budget * T) :=
  match s with
  | WChronological s =>
      let '(item, s, w) := chrono_next db opts charge_visit s w in
      (item, WChronological s, w)
  | WOrdered s =>
      match ordered_next s with
      | None => (Some (Err walk_panic), WOrdered s, w)
      | Some (item, s) => (Ok <$> item, WOrdered s, w)
      end
  end.

(** [Walk::take_pending_error]. *)
Definition take_pending_error (s : Walk) : option Error * Walk :=
  match s with
  | WChronological s => (cw_pending_error s, WChronological (cw_set_pending None s))
  | WOrdered _ => (None, s)
  end.

(** [OrderedWalk::has_matching] and [Walk::has_matching]. *)
Definition ordered_has_matching (s : OrderedWalk) : bool :=
  existsb (fun '(id, node) => negb (bool_decide (id ∈ ow_emitted s))
                              && within_time_bounds (cm_time (on_meta node)) opts)
    (map_to_list (ow_nodes s)).
Definition has_matching (s : Walk) : bool :=
  match s with
  | WChronological s =>
      match cw_pending_error s with
      | Some _ => true
      | None => existsb (fun c => within_time_bounds (cm_time (tc_meta c)) opts) (cw_queue s)
      end
  | WOrdered s => ordered_has_matching s
  end.

End Walk.

(* ------------------------------------------------------------------ *)
(** ** The order of a walk over known commits

    With every commit's parents and time given by [meta], the walks are pure:
    [walk_order] is the list of commits a walk emits. *)

Section Pure.
Context (meta : Oid -> option CommitMeta).

Fixpoint chrono_expand (parents : list Oid) (s : ChronologicalWalk) : option ChronologicalWalk :=
  match parents with
  | [] => Some s
  | parent :: parents =>
      if bool_decide (parent ∈ cw_seen s) then chrono_expand parents s
      else
        m ← meta parent;
        chrono_expand parents (cw_push parent m (cw_see parent s))
  end.
Definition chrono_step (s : ChronologicalWalk) : option (WalkedCommit * ChronologicalWalk) :=
  '(current, queue) ← heap_pop TimedCommit_cmp (cw_queue s);
  s ← chrono_expand (cm_parents (tc_meta current)) (cw_set_queue queue s);
  Some (mkWalked (tc_id current) (cm_time (tc_meta current)), s).

Fixpoint prepass_nodes (fuel : nat) (pending : list Oid) (nodes : gmap Oid OrderedNode)
  (discovery : N) : option (gmap Oid OrderedNode) :=
  match pending with
  | [] => Some nodes
  | id :: pending =>
      match fuel with
      | O => None
      | S fuel =>
          match nodes !! id with
          | Some _ => prepass_nodes fuel pending nodes discovery
          | None =>
              m ← meta id;
              prepass_nodes fuel (filter (fun p => nodes !! p = None) (cm_parents m) ++ pending)
                (<[id := mkNode m discovery]> nodes) (sadd64 discovery 1)
          end
      end
  end.

Definition walk_start (o : LogOrder) (fuel : nat) (start : Oid) : option Walk :=
  match o with
  | Chronological => m ← meta start; Some (WChronological (chrono_start start m))
  | o => nodes ← prepass_nodes fuel [start] ∅ 0; Some (WOrdered (ordered_start o nodes))
  end.

Definition walk_step (s : Walk) : option (WalkedCommit * Walk) :=
  match s with
  | WChronological s => '(x, s) ← chrono_step s; Some (x, WChronological s)
  | WOrdered s =>
      match ordered_next s with
      | Some (Some x, s) => Some (x, WOrdered s)
      | _ => None
      end
  end.

Fixpoint walk_order (fuel : nat) (s : Walk) : list WalkedCommit :=
  match fuel with
  | O => []
  | S fuel =>
      match walk_step s with
      | Some (x, s) => x :: walk_order fuel s
      | None => []
      end
  end.

(** The commits a log visits from [start], in order. *)
Definition history_order (o : LogOrder) (fuel : nat) (start : Oid) : list WalkedCommit :=
  match walk_start o fuel start with
  | Some s => walk_order fuel s
  | None => []
  end.

(** ** The history *)

Definition link (x y : Oid) : Prop := exists m, meta x = Some m /\ y ∈ cm_parents m.
Definition reachable : Oid -> Oid -> Prop := rtc link.
(** Every reachable commit is known. *)
Definition complete_history (start : Oid) : Prop := forall x, reachable start x -> is_Some (meta x).
Definition link_count (x : Oid) : nat :=
  match meta x with
  | Some m => length (cm_parents m)
  | None => 0
  end.

(** Each element of [l] stands in [P] to the IDs emitted before it. *)
Fixpoint in_turn (P : list Oid -> WalkedCommit -> Prop) (pre : list Oid) (l : list WalkedCommit) : Prop :=
  match l with
  | [] => True
  | x :: l => P pre x /\ in_turn P (pre ++ [wc_id x]) l
  end.

(** [z] is a start commit or the parent of an emitted one. *)
Definition discovered (start : Oid) (pre : list Oid) (z : Oid) : Prop :=
  z = start \/ exists x, x ∈ pre /\ link x z.
(** All children of [z] within the history have been emitted. *)
Definition ready (start : Oid) (pre : list Oid) (z : Oid) : Prop :=
  reachable start z /\ forall x, reachable start x -> link x z -> x ∈ pre.

(** [x] has the latest time among the commits of [K] not yet emitted. *)
Definition newest_of (K : list Oid -> Oid -> Prop) (pre : list Oid) (x : WalkedCommit) : Prop :=
  K pre (wc_id x) /\
  forall z mz, K pre z -> z ∉ pre -> meta z = Some mz -> (cm_time mz <= wc_time x)%Z.

(** The commits of [l] are those of the history, once each, with their times. *)
Definition enumerates (start : Oid) (l : list WalkedCommit) : Prop :=
  NoDup (wc_id <$> l) /\ (forall x, x ∈ wc_id <$> l <-> reachable start x) /\
  Forall (fun x => cm_time <$> meta (wc_id x) = Some (wc_time x)) l.

(** ** The chronological walk *)

Section Chronological.
Context (start : Oid).
Hypothesis complete : complete_history start.

(** The walk after emitting [pre], with the parents [todo] still to visit. *)
Record chrono_inv (pre todo : list Oid) (s : ChronologicalWalk) : Prop := {
  ci_pending : cw_pending_error s = None;
  ci_nodup : NoDup (pre ++ (tc_id <$> cw_queue s));
  ci_seen x : x ∈ cw_seen s <-> x ∈ pre ++ (tc_id <$> cw_queue s);
  ci_meta : Forall (fun e => meta (tc_id e) = Some (tc_meta e)) (cw_queue s);
  ci_closed x y : x ∈ pre -> link x y -> y ∈ cw_seen s \/ y ∈ todo;
  ci_known x : x ∈ cw_seen s \/ x ∈ todo -> discovered start pre x;
  ci_reach x : x ∈ pre -> reachable start x;
  ci_start : start ∈ cw_seen s
}.

Lemma discovered_reachable pre z :
  (forall x, x ∈ pre -> reachable start x) -> discovered start pre z -> reachable start z.
Proof. intros Hr [->|(x & Hx & Hl)]; [apply rtc_refl|]. eapply rtc_r; [by apply Hr|done]. Qed.

Lemma discovered_app pre pre' z : discovered start pre z -> discovered start (pre ++ pre') z.
Proof. intros [->|(x & Hx & Hl)]; [by left|]. right. exists x. set_solver. Qed.

Lemma chrono_start_inv m : meta start = Some m -> chrono_inv [] [] (chrono_start start m).
Proof.
  intros Hm. split; cbn; [done|apply NoDup_singleton|set_solver|by repeat constructor|set_solver| |set_solver|set_solver].
  intros x [->%elem_of_singleton|Hx]; [by left|by apply not_elem_of_nil in Hx].
Qed.

Lemma chrono_skip_inv pre p todo s :
  chrono_inv pre (p :: todo) s -> p ∈ cw_seen s -> chrono_inv pre todo s.
Proof.
  intros [Hp Hnd Hseen Hm Hc Hk Hr Hs] Hin. split; [done..| | |done|done].
  - intros x y Hx Hl. destruct (Hc x y Hx Hl) as [|[->|]%elem_of_cons]; auto.
  - intros x [|]; apply Hk; [by left|right; by right].
Qed.

Lemma chrono_push_inv pre p todo s m :
  chrono_inv pre (p :: todo) s -> p ∉ cw_seen s -> meta p = Some m ->
  chrono_inv pre todo (cw_push p m (cw_see p s)).
Proof.
  intros [Hp Hnd Hseen Hm Hc Hk Hr Hs] Hin Em. split; cbn; [done| | | | | |done|].
  - rewrite NoDup_app in *. destruct Hnd as (H1 & H2 & H3). rewrite Hseen in Hin. split_and!; [done| |].
    + intros x Hx. rewrite not_elem_of_cons. split; [|by apply H2]. intros ->. set_solver.
    + constructor; [set_solver|done].
  - intros x. rewrite elem_of_union, Hseen. set_solver.
  - by constructor.
  - intros x y Hx Hl. destruct (Hc x y Hx Hl) as [|[->|]%elem_of_cons]; set_solver.
  - intros x [[->%elem_of_singleton|?]%elem_of_union|?]; apply Hk; [right; by left|by left|right; by right].
  - set_solver.
Qed.

Lemma chrono_todo_reachable pre p todo s : chrono_inv pre (p :: todo) s -> reachable start p.
Proof. intros Hi. eapply discovered_reachable; [by apply Hi|]. apply (ci_known _ _ _ Hi). right. by left. Qed.

Lemma chrono_expand_inv pre todo s :
  chrono_inv pre todo s -> exists s', chrono_expand todo s = Some s' /\ chrono_inv pre [] s'.
Proof.
  revert s. induction todo as [|p todo IH]; intros s Hi; [by exists s|].
  cbn [chrono_expand]. case_bool_decide as Hin; [apply IH; by eapply chrono_skip_inv|].
  destruct (complete p) as [m Em]; [by eapply chrono_todo_reachable|]. rewrite Em. cbn [mbind option_bind].
  apply IH. by apply chrono_push_inv.
Qed.

Lemma timed_cmp_trans t1 s1 t2 s2 t3 s3 :
  timed_cmp t1 s1 t2 s2 <> Lt -> timed_cmp t2 s2 t3 s3 <> Lt -> timed_cmp t1 s1 t3 s3 <> Lt.
Proof.
  unfold timed_cmp.
  destruct (Z.compare_spec t1 t2), (Z.compare_spec t2 t3), (Z.compare_spec t1 t3); try lia; try done.
  destruct (N.compare_spec s2 s1), (N.compare_spec s3 s2), (N.compare_spec s3 s1); try lia; done.
Qed.
Lemma timed_cmp_asym t1 s1 t2 s2 : timed_cmp t1 s1 t2 s2 = Lt -> timed_cmp t2 s2 t1 s1 <> Lt.
Proof.
  unfold timed_cmp. destruct (Z.compare_spec t1 t2), (Z.compare_spec t2 t1); try lia; try done.
  destruct (N.compare_spec s2 s1), (N.compare_spec s1 s2); try lia; done.
Qed.
Lemma timed_cmp_time t1 s1 t2 s2 : timed_cmp t1 s1 t2 s2 <> Lt -> (t2 <= t1)%Z.
Proof. unfold timed_cmp. destruct (Z.compare_spec t1 t2); try lia; done. Qed.

(** Popping the queue: the entry is new, discovered, and the newest. *)
Lemma chrono_pop_inv pre s cur q :
  chrono_inv pre [] s -> heap_pop TimedCommit_cmp (cw_queue s) = Some (cur, q) ->
  meta (tc_id cur) = Some (tc_meta cur) /\ tc_id cur ∉ pre /\
  chrono_inv (pre ++ [tc_id cur]) (cm_parents (tc_meta cur)) (cw_set_queue q s) /\
  newest_of (discovered start) pre (mkWalked (tc_id cur) (cm_time (tc_meta cur))).
Proof.
  intros [Hp Hnd Hseen Hm Hc Hk Hr Hs] Epop.
  pose proof (heap_pop_perm _ _ _ _ Epop) as Hperm.
  rewrite Hperm in Hm. apply Forall_cons in Hm as [Hcur Hm].
  assert (NoDup (pre ++ tc_id cur :: (tc_id <$> q))) as Hnd'.
  { replace (tc_id cur :: (tc_id <$> q)) with (tc_id <$> (cur :: q)) by done. by rewrite <- Hperm. }
  assert (forall x, x ∈ cw_seen s <-> x ∈ pre ++ tc_id cur :: (tc_id <$> q)) as Hseen'.
  { intros x. rewrite Hseen, !elem_of_app. f_equiv.
    replace (tc_id cur :: (tc_id <$> q)) with (tc_id <$> (cur :: q)) by done. by rewrite Hperm. }
  assert (discovered start pre (tc_id cur)) as Hd by (apply Hk; left; apply Hseen'; set_solver).
  pose proof (NoDup_app pre (tc_id cur :: (tc_id <$> q))) as Hap. apply Hap in Hnd' as Hnd2. destruct Hnd2 as (H1 & H2 & H3).
  split_and!; [done|intros Hx; apply (H2 _ Hx); by left| |split; [done|]].
  - split; cbn; [done| | |done| | | |done].
    + by rewrite <- app_assoc.
    + intros x. rewrite Hseen'. by rewrite <- app_assoc.
    + intros x y [Hx| ->%list_elem_of_singleton]%elem_of_app Hl; [left; by destruct (Hc x y Hx Hl) as [|?%not_elem_of_nil]|].
      destruct Hl as (m & Em & Hy). right. rewrite Hcur in Em. by simplify_eq.
    + intros x [Hx|Hx]; [apply discovered_app, Hk; by left|]. right. exists (tc_id cur). split; [set_solver|].
      by exists (tc_meta cur).
    + intros x [Hx| ->%list_elem_of_singleton]%elem_of_app; [by apply Hr|by eapply discovered_reachable].
  - cbn. intros z mz Hz Hzp Emz.
    assert (z ∈ cw_seen s) as Hzs.
    { destruct Hz as [->|(x & Hx & Hl)]; [done|]. by destruct (Hc x z Hx Hl) as [|?%not_elem_of_nil]. }
    apply Hseen' in Hzs. apply elem_of_app in Hzs as [|[->|Hzq]%elem_of_cons]; [done|rewrite Hcur in Emz; by simplify_eq|].
    apply list_elem_of_fmap in Hzq as (e & -> & He).
    pose proof (heap_pop_max TimedCommit_cmp _ _ _ (fun a b d => timed_cmp_trans _ _ _ _ _ _)
      (fun a b => timed_cmp_asym _ _ _ _) Epop) as Hmax.
    rewrite Forall_forall in Hmax, Hm. rewrite (Hm e He) in Emz. simplify_eq.
    by apply (timed_cmp_time _ _ _ _ (Hmax e He)).
Qed.

Lemma chrono_step_inv pre s :
  chrono_inv pre [] s -> cw_queue s <> [] ->
  exists x s', chrono_step s = Some (x, s') /\ chrono_inv (pre ++ [wc_id x]) [] s' /\ wc_id x ∉ pre /\
    cm_time <$> meta (wc_id x) = Some (wc_time x) /\ newest_of (discovered start) pre x.
Proof.
  intros Hi Hq. unfold chrono_step.
  destruct (heap_pop TimedCommit_cmp (cw_queue s)) as [[cur q]|] eqn:Epop; [|by apply heap_pop_None in Epop].
  destruct (chrono_pop_inv _ _ _ _ Hi Epop) as (Hcur & Hnew & Hi' & Hmax). cbn [mbind option_bind].
  destruct (chrono_expand_inv _ _ _ Hi') as (s' & -> & Hs'). cbn [mbind option_bind].
  eexists _, s'. split; [done|]. cbn. rewrite Hcur. done.
Qed.

Lemma chrono_done pre s x : chrono_inv pre [] s -> cw_queue s = [] -> x ∈ pre <-> reachable start x.
Proof.
  intros [_ _ Hseen _ Hc _ Hr Hs] Hq. rewrite Hq in Hseen. cbn in Hseen.
  assert (forall y, y ∈ cw_seen s <-> y ∈ pre) as Hsp by (intros y; rewrite Hseen; by rewrite app_nil_r).
  split; [by apply Hr|]. intros Hx. apply Hsp in Hs. clear - Hs Hx Hc Hsp. induction Hx as [x|x y z Hl _ IH]; [done|].
  apply IH. apply Hsp. by destruct (Hc x y Hs Hl) as [|?%not_elem_of_nil].
Qed.

End Chronological.

(** ** The ordered walk *)

(** How often [p] occurs among the parents [l]. *)
Definition occurrences (p : Oid) (l : list Oid) : nat := length (filter (fun q => q = p) l).

Lemma occurrences_cons p q l :
  occurrences p (q :: l) = ((if decide (q = p) then 1 else 0) + occurrences p l)%nat.
Proof. unfold occurrences. rewrite filter_cons. by destruct (decide (q = p)). Qed.

Lemma occurrences_pos p l : p ∈ l <-> (0 < occurrences p l)%nat.
Proof.
  induction l as [|q l IH]; [split; [intros Hp; by apply not_elem_of_nil in Hp|cbn; lia]|].
  rewrite occurrences_cons, elem_of_cons. destruct (decide (q = p)); [subst; split; [lia|by left]|].
  rewrite IH. split; [|right; lia]. intros [->|]; [done|lia].
Qed.

Lemma count_links_lookup p parents counts :
  count_links parents counts !! p = (fun k => k + occurrences p parents)%nat <$> (counts !! p).
Proof.
  unfold count_links. revert counts. induction parents as [|q parents IH]; intros counts; cbn [foldl].
  { destruct (counts !! p); [|done]. unfold occurrences. cbn. by rewrite Nat.add_0_r. }
  rewrite IH, occurrences_cons. destruct (decide (q = p)) as [->|Hne].
  - rewrite lookup_alter_eq. destruct (counts !! p); [|done]. cbn. f_equal. lia.
  - rewrite lookup_alter_ne by done. destruct (counts !! p); [|done]. cbn. f_equal. 
Qed.

Section Ordered.
Context (start : Oid) (N : gmap Oid OrderedNode).
Hypothesis N_meta : forall x n, N !! x = Some n -> meta x = Some (on_meta n).
Hypothesis N_dom : forall x, is_Some (N !! x) <-> reachable start x.

Let D : list Oid := (map_to_list N).*1.

(** Links to [p] from the node [x]. *)
Definition links_from (p x : Oid) : nat :=
  match N !! x with
  | Some n => occurrences p (cm_parents (on_meta n))
  | None => 0
  end.

Lemma D_nodup : NoDup D.
Proof. apply NoDup_fst_map_to_list. Qed.
Lemma elem_of_D x : x ∈ D <-> is_Some (N !! x).
Proof.
  subst D. rewrite list_elem_of_fmap. split.
  - intros ([y n] & -> & Hn). apply elem_of_map_to_list in Hn. by exists n.
  - intros [n Hn]. exists (x, n). split; [done|]. by apply elem_of_map_to_list.
Qed.

Lemma child_counts_lookup p :
  child_counts N !! p = (fun _ => sum_list_with (links_from p) D) <$> (N !! p).
Proof.
  unfold child_counts. 
  assert (forall l counts, Forall (fun e : Oid * OrderedNode => N !! e.1 = Some e.2) l ->
    foldl (fun counts node => count_links (cm_parents (on_meta node)) counts) counts l.*2 !! p =
    (fun k => k + sum_list_with (links_from p) l.*1)%nat <$> (counts !! p)) as Hf.
  { induction l as [|[x n] l IH]; intros counts Hl; cbn [fmap list_fmap foldl sum_list_with fst snd].
    { destruct (counts !! p); [|done]. cbn. by rewrite Nat.add_0_r. }
    apply Forall_cons in Hl as [Hx Hl]. cbn in Hx. rewrite (IH _ Hl), count_links_lookup.
    unfold links_from at 2. rewrite Hx. destruct (counts !! p); [|done]. cbn. f_equal. lia. }
  rewrite Hf; [|apply Forall_forall; intros [x n] Hx; by apply elem_of_map_to_list in Hx].
  rewrite lookup_fmap. by destruct (N !! p).
Qed.

(** No links to [p] are left once everything outside [done] is accounted for. *)
Lemma links_done p (don : gset Oid) :
  potential (links_from p) D don = 0%nat <-> forall x, reachable start x -> link x p -> x ∈ don.
Proof.
  unfold potential. split.
  - intros Hz x Hx (m & Em & Hp). destruct (decide (x ∈ don)) as [|Hn]; [done|exfalso].
    apply N_dom in Hx as [n Hn']. pose proof (N_meta _ _ Hn') as Em'. rewrite Em in Em'. simplify_eq.
    assert (x ∈ filter (fun y => y ∉ don) D) as Hin.
    { apply list_elem_of_filter. split; [done|]. apply elem_of_D. by exists n. }
    assert (links_from p x = 0%nat) as Hl.
    { clear - Hz Hin. induction (filter (fun y => y ∉ don) D) as [|y l IH]; [by apply not_elem_of_nil in Hin|].
      cbn [sum_list_with] in Hz. apply elem_of_cons in Hin as [->|Hin]; [lia|]. apply IH; [lia|done]. }
    unfold links_from in Hl. rewrite Hn' in Hl. apply occurrences_pos in Hp. lia.
  - intros Hall. assert (forall x, x ∈ filter (fun y => y ∉ don) D -> links_from p x = 0%nat) as Hz.
    { intros x [Hn Hx]%list_elem_of_filter. apply elem_of_D in Hx as [n Hn']. unfold links_from. rewrite Hn'.
      destruct (decide (p ∈ cm_parents (on_meta n))) as [Hp|Hp].
      - destruct Hn. apply Hall; [apply N_dom; by exists n|]. exists (on_meta n). split; [by apply N_meta|done].
      - rewrite occurrences_pos in Hp. lia. }
    induction (filter (fun y => y ∉ don) D) as [|y l IH]; [done|]. cbn. rewrite Hz by (by left). apply IH. intros x Hx.
    apply Hz. by right.
Qed.

Definition queue_ids (s : OrderedWalk) : list Oid :=
  match ow_queue s with
  | QTopological stack => stack
  | QDate heap => to_id <$> heap
  end.
Definition date_queue (s : OrderedWalk) : bool :=
  match ow_queue s with
  | QTopological _ => false
  | QDate _ => true
  end.
Definition timed_ok (e : TimedOid) : Prop := cm_time <$> meta (to_id e) = Some (to_time e).
Definition queue_times (s : OrderedWalk) : Prop :=
  match ow_queue s with
  | QTopological _ => True
  | QDate heap => Forall timed_ok heap
  end.

(** The walk after emitting [pre] from its queue, with the parent links [todo]
    still to be released. *)
Record ready_inv (dated : bool) (pre todo : list Oid) (s : OrderedWalk) : Prop := {
  ri_nodes : ow_nodes s = N;
  ri_emitted x : x ∈ ow_emitted s <-> x ∈ pre;
  ri_residue : ow_residue s = [];
  ri_counts p : ow_child_counts s !! p =
    (fun _ => potential (links_from p) D (ow_emitted s) + occurrences p todo)%nat <$> (N !! p);
  ri_nodup : NoDup (queue_ids s);
  ri_queue x : x ∈ queue_ids s <-> ow_child_counts s !! x = Some 0%nat /\ x ∉ pre;
  ri_times : queue_times s;
  ri_kind : date_queue s = dated;
  ri_pre : NoDup pre;
  ri_spent x : x ∈ pre -> ow_child_counts s !! x = Some 0%nat
}.

(** The walk in its residue, which a cycle of parent links leaves. *)
Record residue_inv (pre : list Oid) (s : OrderedWalk) : Prop := {
  si_nodes : ow_nodes s = N;
  si_emitted x : x ∈ ow_emitted s <-> x ∈ pre;
  si_queue : queue_ids s = [];
  si_residue x : x ∈ ow_residue s <-> is_Some (N !! x) /\ x ∉ pre;
  si_nodup : NoDup (ow_residue s);
  si_pre : NoDup pre;
  si_known x : x ∈ pre -> is_Some (N !! x)
}.

Lemma pop_ready_None s : pop_ready s = None <-> queue_ids s = [].
Proof.
  unfold pop_ready, queue_ids. destruct (ow_queue s) as [[|id st]|heap]; [done..|].
  destruct (heap_pop TimedOid_cmp heap) as [[e h]|] eqn:E; cbn.
  - apply heap_pop_perm, Permutation_length in E. split; [done|]. by destruct heap.
  - apply heap_pop_None in E as ->. done.
Qed.

(** A popped commit comes from the queue; in date order it is the newest. *)
Lemma pop_ready_Some s id s' :
  pop_ready s = Some (id, s') -> queue_times s ->
  queue_ids s ≡ₚ id :: queue_ids s' /\ queue_times s' /\
  s' = ow_set_queue (ow_queue s') (ow_next_sequence s) s /\ date_queue s' = date_queue s /\
  (date_queue s = true -> forall z mz mi, z ∈ queue_ids s -> meta z = Some mz -> meta id = Some mi ->
     (cm_time mz <= cm_time mi)%Z).
Proof.
  unfold pop_ready, queue_ids, queue_times, date_queue. destruct (ow_queue s) as [[|x st]|heap]; [done|by intros [= <- <-]|].
  destruct (heap_pop TimedOid_cmp heap) as [[e h]|] eqn:E; [|done]. cbn. intros [= <- <-] Ht. cbn.
  pose proof (heap_pop_perm _ _ _ _ E) as Hp. rewrite Hp in Ht. apply Forall_cons in Ht as [He Ht].
  split_and!; [by rewrite Hp|done..|]. intros _ z mz mi Hz Emz Emi.
  rewrite Hp in Hz. apply elem_of_cons in Hz as [->|(e' & -> & He')%list_elem_of_fmap]; [by simplify_eq|].
  pose proof (heap_pop_max TimedOid_cmp _ _ _ (fun a b d => timed_cmp_trans _ _ _ _ _ _)
    (fun a b => timed_cmp_asym _ _ _ _) E) as Hmax.
  rewrite Forall_forall in Hmax, Ht. specialize (Ht e' He'). unfold timed_ok in He, Ht.
  rewrite Emi in He. rewrite Emz in Ht. simplify_eq/=.
  rewrite He, Ht. by apply (timed_cmp_time _ _ _ _ (Hmax e' He')).
Qed.

Lemma push_ready_Some s id :
  is_Some (N !! id) -> ow_nodes s = N -> queue_times s ->
  exists s', push_ready id s = Some s' /\ queue_ids s' = id :: queue_ids s /\ queue_times s' /\
    s' = ow_set_queue (ow_queue s') (ow_next_sequence s') s /\ date_queue s' = date_queue s.
Proof.
  intros [n Hn] HN. unfold push_ready, queue_ids, queue_times, date_queue. destruct (ow_queue s) as [st|heap]; [by eexists|].
  intros Ht. rewrite HN, Hn. cbn. eexists. split; [done|]. cbn. split_and!; [done| |done..]. constructor; [|done].
  unfold timed_ok. cbn. by rewrite (N_meta _ _ Hn).
Qed.

(** Releasing the parent links of an emitted commit. *)
Lemma release_parents_inv dated pre todo s :
  ready_inv dated pre todo s -> Forall (fun p => is_Some (N !! p)) todo ->
  exists s', release_parents todo s = Some s' /\ ready_inv dated pre [] s'.
Proof.
  revert s. induction todo as [|p todo IH]; intros s Hi Htodo; [by exists s|].
  apply Forall_cons in Htodo as [[n Hn] Htodo]. destruct Hi as [Hno Hem Hres Hc Hnd Hq Ht Hkd Hpre Hsp].
  cbn [release_parents]. rewrite (Hc p), Hn. cbn [fmap option_fmap option_map mbind option_bind].
  rewrite occurrences_cons, decide_True by done.
  set (k := potential (links_from p) D (ow_emitted s)).
  replace (k + (1 + occurrences p todo) - 1)%nat with (k + occurrences p todo)%nat by lia.
  assert (ow_child_counts s !! p = Some (k + S (occurrences p todo))%nat) as Hcp.
  { rewrite (Hc p), Hn, occurrences_cons, decide_True by done. done. }
  assert (p ∉ pre) as Hpp. { intros Hp. specialize (Hsp p Hp). rewrite Hcp in Hsp. simplify_eq. lia. }
  assert (p ∉ queue_ids s) as Hpq. { intros Hp. apply Hq in Hp as [Hz _]. rewrite Hcp in Hz. simplify_eq. lia. }
  set (s1 := ow_set_counts (<[p := (k + occurrences p todo)%nat]> (ow_child_counts s)) s).
  assert (forall q, ow_child_counts s1 !! q =
    (fun _ => potential (links_from q) D (ow_emitted s) + occurrences q todo)%nat <$> (N !! q)) as Hc1.
  { intros q. cbn. destruct (decide (q = p)) as [->|Hne]; [by rewrite lookup_insert_eq, Hn|].
    rewrite lookup_insert_ne, (Hc q), occurrences_cons, decide_False by done. done. }
  assert (forall x, x <> p -> ow_child_counts s1 !! x = ow_child_counts s !! x) as Hne1.
  { intros x Hx. cbn. by rewrite lookup_insert_ne. }
  assert (forall x, x ∈ pre -> ow_child_counts s1 !! x = Some 0%nat) as Hsp1.
  { intros x Hx. rewrite Hne1 by (by intros ->). by apply Hsp. }
  destruct (k + occurrences p todo =? 0)%nat eqn:Ez; [apply Nat.eqb_eq in Ez|apply Nat.eqb_neq in Ez].
  - destruct (push_ready_Some s1 p) as (s2 & -> & Hids & Ht2 & Hs2 & Hk2); [by exists n|done|done|].
    cbn [mbind option_bind]. apply IH; [|done].
    rewrite Hs2. split; try done; cbn [ow_set_queue ow_nodes ow_emitted ow_child_counts].
    + change (NoDup (queue_ids s2)). rewrite Hids. by constructor.
    + intros x. change (x ∈ queue_ids s2 <-> ow_child_counts s1 !! x = Some 0%nat /\ x ∉ pre).
      rewrite Hids, elem_of_cons. destruct (decide (x = p)) as [->|Hx].
      * rewrite Hc1, Hn. cbn. fold k. rewrite Ez. naive_solver.
      * rewrite Hne1 by done. change (queue_ids s1) with (queue_ids s). rewrite Hq. naive_solver.
    + change (date_queue s2 = dated). by rewrite Hk2.
  - apply IH; [|done]. split; try done. intros x. destruct (decide (x = p)) as [->|Hx]; [|rewrite Hne1 by done; apply Hq].
    rewrite Hc1, Hn. cbn. fold k. split; [by intros ?|]. intros [[= ?] _]. lia.
Qed.

Lemma parents_known x n : N !! x = Some n -> Forall (fun p => is_Some (N !! p)) (cm_parents (on_meta n)).
Proof.
  intros Hn. apply Forall_forall. intros p Hp. apply N_dom. eapply rtc_r; [apply N_dom; by exists n|].
  exists (on_meta n). split; [by apply N_meta|done].
Qed.

(** A count of zero means that all children are emitted. *)
Lemma ready_count dated pre s z :
  ready_inv dated pre [] s -> ow_child_counts s !! z = Some 0%nat <-> ready start pre z.
Proof.
  intros Hi. rewrite (ri_counts _ _ _ _ Hi). unfold occurrences, ready. cbn. rewrite <- N_dom. split.
  - destruct (N !! z) as [n|] eqn:En; [|done]. cbn. intros [= Hz]. split; [by exists n|].
    rewrite Nat.add_0_r, links_done in Hz. intros x Hx Hl. apply (ri_emitted _ _ _ _ Hi). by apply Hz.
  - intros [[n ->] Hl]. cbn. f_equal. rewrite Nat.add_0_r. apply links_done. intros x Hx Hxz.
    apply (ri_emitted _ _ _ _ Hi). by apply Hl.
Qed.

(** Emitting from the queue. *)
Lemma ordered_next_ready dated pre s :
  ready_inv dated pre [] s -> queue_ids s <> [] ->
  exists x s', ordered_next s = Some (Some x, s') /\ ready_inv dated (pre ++ [wc_id x]) [] s' /\
    wc_id x ∉ pre /\ cm_time <$> meta (wc_id x) = Some (wc_time x) /\ ready start pre (wc_id x) /\
    (dated = true -> newest_of (ready start) pre x).
Proof.
  intros Hi Hq. unfold ordered_next. destruct (pop_ready s) as [[id s1]|] eqn:Epop; [|by apply pop_ready_None in Epop].
  pose proof Hi as [Hno Hem Hres Hc Hnd Hqu Ht Hkd Hpre Hsp].
  destruct (pop_ready_Some _ _ _ Epop Ht) as (Hperm & Ht1 & Hs1 & Hk1 & Hmax).
  assert (id ∈ queue_ids s) as Hid by (rewrite Hperm; by left). apply Hqu in Hid as [Hz Hnew].
  pose proof (proj1 (ready_count _ _ _ _ Hi) Hz) as Hr. destruct (proj2 (N_dom id) (proj1 Hr)) as [n Hn].
  rewrite Hperm in Hnd. apply NoDup_cons in Hnd as [Hid1 Hnd1].
  unfold ordered_emit. rewrite Hs1. cbn [ow_set_queue ow_nodes]. rewrite Hno, Hn. cbn [mbind option_bind].
  set (s2 := ow_emit id _).
  destruct (release_parents_inv dated (pre ++ [id]) (cm_parents (on_meta n)) s2) as (s3 & -> & Hi3); [|by eapply parents_known|].
  { split; try done.
    - intros x. cbn. rewrite elem_of_union, elem_of_app, Hem. set_solver.
    - intros p. cbn [ow_emit ow_child_counts ow_set_queue s2 ow_emitted]. rewrite (Hc p). destruct (N !! p) as [np|] eqn:Ep; [|done].
      cbn [fmap option_fmap option_map]. f_equal. unfold occurrences at 1. cbn [filter list_filter length].
      rewrite <- (potential_step (links_from p) D (ow_emitted s) id D_nodup); [| |by rewrite Hem].
      + unfold links_from at 2. rewrite Hn. cbn. lia.
      + apply elem_of_D. by exists n.
    - intros x. change (x ∈ queue_ids s1 <-> ow_child_counts s !! x = Some 0%nat /\ x ∉ pre ++ [id]).
      specialize (Hqu x). rewrite Hperm, elem_of_cons in Hqu. rewrite not_elem_of_app, list_elem_of_singleton.
      destruct (decide (x = id)) as [->|]; [naive_solver|]. naive_solver.
    - cbn. by rewrite <- Hkd, <- Hk1.
    - apply NoDup_app. split; [done|]. split; [set_solver|apply NoDup_singleton].
    - intros x [Hx| ->%list_elem_of_singleton]%elem_of_app; [by apply Hsp|done]. }
  cbn [mbind option_bind]. eexists _, s3. split; [done|]. cbn [wc_id wc_time]. rewrite (N_meta _ _ Hn).
  split_and!; try done. intros ->. split; [done|]. intros z mz Hz' Hzp Emz. cbn.
  apply (Hmax Hkd z mz (on_meta n)); [|done|by apply N_meta]. apply Hqu. split; [|done]. by apply (ready_count _ _ _ _ Hi).
Qed.

Lemma residue_of_spec s (pre : list Oid) :
  ow_nodes s = N -> (forall x, x ∈ ow_emitted s <-> x ∈ pre) ->
  NoDup (residue_of s) /\ forall x, x ∈ residue_of s <-> is_Some (N !! x) /\ x ∉ pre.
Proof.
  intros Hno Hem. unfold residue_of. rewrite Hno. fold D. split.
  - rewrite reverse_Permutation, merge_sort_Permutation. apply NoDup_filter, D_nodup.
  - intros x. rewrite elem_of_reverse, merge_sort_Permutation, list_elem_of_filter, elem_of_D, Hem. naive_solver.
Qed.

(** When every node is emitted the walk ends; otherwise it enters or continues
    its residue. *)
Lemma pop_residue_spec s (pre : list Oid) :
  ow_nodes s = N -> (forall x, x ∈ ow_emitted s <-> x ∈ pre) -> (forall x, x ∈ pre -> is_Some (N !! x)) ->
  ow_residue s = [] \/ (NoDup (ow_residue s) /\ forall x, x ∈ ow_residue s <-> is_Some (N !! x) /\ x ∉ pre) ->
  match pop_residue s with
  | None => forall x, is_Some (N !! x) -> x ∈ pre
  | Some (id, s') => is_Some (N !! id) /\ id ∉ pre /\ s' = ow_set_residue (ow_residue s') s /\
      NoDup (ow_residue s') /\ forall x, x ∈ ow_residue s' <-> is_Some (N !! x) /\ x ∉ pre ++ [id]
  end.
Proof.
  intros Hno Hem Hpre Hres. unfold pop_residue.
  set (r := if _ && _ then _ else _).
  assert ((forall x, is_Some (N !! x) -> x ∈ pre) /\ r = [] \/
          (NoDup r /\ forall x, x ∈ r <-> is_Some (N !! x) /\ x ∉ pre)) as [[Hall ->]|[Hnd Hr]]; [|done|].
  - subst r. case_bool_decide as E0; cbn [andb]; [|by destruct Hres as [?|?]; [|right]].
    destruct (Nat.ltb_spec (size (ow_emitted s)) (size (ow_nodes s))) as [Hlt|Hge]; [right; by apply residue_of_spec|].
    left. split; [|done]. intros x Hx. apply Hem. rewrite Hno in Hge.
    assert (ow_emitted s ≡ dom N) as Heq; [|rewrite Heq; by apply elem_of_dom].
    apply set_subseteq_size_equiv; [|by rewrite size_dom].
    intros y Hy. apply elem_of_dom, Hpre. by apply Hem.
  - destruct r as [|id r]; [intros x Hx|].
    + destruct (decide (x ∈ pre)) as [|Hn]; [done|]. destruct (not_elem_of_nil x). by apply Hr.
    + destruct (proj1 (Hr id)) as [Hid Hn]; [by left|]. apply NoDup_cons in Hnd as [Hidr Hnd]. cbn.
      split_and!; [done..|]. intros x. specialize (Hr x). rewrite elem_of_cons in Hr.
      rewrite not_elem_of_app, list_elem_of_singleton. destruct (decide (x = id)) as [->|]; naive_solver.
Qed.

Definition ordered_inv (dated : bool) (pre : list Oid) (s : OrderedWalk) : Prop :=
  ready_inv dated pre [] s \/ residue_inv pre s.

Lemma ready_known dated pre s x : ready_inv dated pre [] s -> x ∈ pre -> is_Some (N !! x).
Proof.
  intros Hi Hx. apply (ri_spent _ _ _ _ Hi) in Hx. rewrite (ri_counts _ _ _ _ Hi) in Hx. by destruct (N !! x).
Qed.

Lemma ordered_inv_pre dated pre s :
  ordered_inv dated pre s ->
  ow_nodes s = N /\ NoDup pre /\ (forall x, x ∈ ow_emitted s <-> x ∈ pre) /\ forall x, x ∈ pre -> is_Some (N !! x).
Proof. intros [Hi|Hi]; [pose proof Hi as []; split_and!; try done; intros x; by eapply ready_known|by destruct Hi]. Qed.

(** One step: the end, with everything emitted, or one new commit. *)
Lemma ordered_next_inv dated pre s :
  ordered_inv dated pre s ->
  (exists s', ordered_next s = Some (None, s') /\ forall x, x ∈ pre <-> reachable start x) \/
  (exists x s', ordered_next s = Some (Some x, s') /\ ordered_inv dated (pre ++ [wc_id x]) s' /\
     wc_id x ∉ pre /\ cm_time <$> meta (wc_id x) = Some (wc_time x)).
Proof.
  intros Hi. destruct (ordered_inv_pre _ _ _ Hi) as (Hno & Hnd & Hem & Hpre).
  destruct (pop_ready s) as [[id s1]|] eqn:Epop.
  - destruct Hi as [Hi|Hi].
    + assert (queue_ids s <> []) as Hq by (intros Hq; apply pop_ready_None in Hq; congruence).
      destruct (ordered_next_ready _ _ _ Hi Hq) as (x & s' & E & Hi' & Hx & Ht & _).
      right. exists x, s'. split; [done|]. split; [by left|done].
    + apply si_queue, pop_ready_None in Hi. congruence.
  - assert (queue_ids s = []) as Hq by (by apply pop_ready_None).
    unfold ordered_next. rewrite Epop.
    assert (ow_residue s = [] \/ (NoDup (ow_residue s) /\ forall x, x ∈ ow_residue s <-> is_Some (N !! x) /\ x ∉ pre)) as Hres.
    { destruct Hi as [Hi|Hi]; [left; by eapply ri_residue|right]. by destruct Hi. }
    pose proof (pop_residue_spec s pre Hno Hem Hpre Hres) as Hpop. destruct (pop_residue s) as [[id s1]|].
    + destruct Hpop as ([n Hn] & Hid & Hs1 & Hnd1 & Hr1). right. unfold ordered_emit. rewrite Hs1. cbn [ow_set_residue ow_nodes].
      rewrite Hno, Hn. cbn. eexists _, _. split; [done|]. cbn. rewrite (N_meta _ _ Hn). split_and!; [|done|done].
      right. split; cbn; try done.
      * intros x. rewrite elem_of_union, elem_of_app, Hem. set_solver.
      * apply NoDup_app. split; [done|]. split; [set_solver|apply NoDup_singleton].
      * intros x [Hx| ->%list_elem_of_singleton]%elem_of_app; [by apply Hpre|by exists n].
    + left. eexists. split; [done|]. intros x. rewrite <- N_dom. split; [apply Hpre|apply Hpop].
Qed.

(** Without cycles every commit is emitted from the queue. *)
Lemma ready_nonempty (rank : Oid -> nat) dated pre s x :
  (forall y z, reachable start y -> link y z -> (rank z < rank y)%nat) ->
  ready_inv dated pre [] s -> reachable start x -> x ∉ pre -> queue_ids s <> [].
Proof.
  intros Hrank Hi Hx Hn Hq.
  assert (forall k y, (list_max (rank <$> D) < k + rank y)%nat -> reachable start y -> y ∉ pre -> False) as Hno.
  { induction k as [|k IH]; intros y Hk Hy Hyp.
    - assert (rank y <= list_max (rank <$> D))%nat; [|lia].
      pose proof (proj1 (list_max_le (rank <$> D) (list_max (rank <$> D))) (le_n _)) as Hmax.
      rewrite Forall_forall in Hmax. apply Hmax, list_elem_of_fmap_2, elem_of_D. by apply N_dom.
    - assert (~ ready start pre y) as Hnr.
      { intros Hr. apply (ready_count _ _ _ _ Hi) in Hr.
        assert (y ∈ queue_ids s) as Hyq by (by apply (ri_queue _ _ _ _ Hi)). rewrite Hq in Hyq. by apply not_elem_of_nil in Hyq. }
      apply Hnr. split; [done|]. intros z Hz Hl. destruct (decide (z ∈ pre)) as [|Hzp]; [done|exfalso].
      apply (IH z); [|done|done]. pose proof (Hrank z y Hz Hl). lia. }
  apply (Hno (S (list_max (rank <$> D))) x); [lia|done|done].
Qed.

(** The walk before its first step. *)
Lemma initial_nodes_spec :
  NoDup (initial_nodes N (child_counts N)) /\
  forall x, x ∈ initial_nodes N (child_counts N) <-> child_counts N !! x = Some 0%nat.
Proof.
  unfold initial_nodes. split.
  - rewrite merge_sort_Permutation. eapply sublist_NoDup; [apply (NoDup_fst_map_to_list (child_counts N))|].
    apply fmap_sublist, sublist_filter.
  - intros x. rewrite merge_sort_Permutation, list_elem_of_fmap. split.
    + intros ([y k] & -> & [Hk Hy]%list_elem_of_filter). apply elem_of_map_to_list in Hy. cbn in *. by subst k.
    + intros Hx. exists (x, 0%nat). split; [done|]. apply list_elem_of_filter. split; [done|]. by apply elem_of_map_to_list.
Qed.

Lemma push_initial_spec ids heap n :
  (forall x, x ∈ ids -> is_Some (N !! x)) -> Forall timed_ok heap ->
  Forall timed_ok (push_initial N ids heap n).1 /\
  to_id <$> (push_initial N ids heap n).1 ≡ₚ ids ++ (to_id <$> heap).
Proof.
  revert heap n. induction ids as [|id ids IH]; intros heap n Hids Hh; [done|]. cbn [push_initial].
  destruct (IH (heap_push (mkTimedOid id (initial_key N id).1 n) heap) (sadd64 n 1)) as [H1 H2].
  { intros x Hx. apply Hids. by right. }
  { constructor; [|done]. unfold timed_ok, initial_key. cbn. destruct (Hids id) as [nd Hnd]; [by left|].
    by rewrite Hnd, (N_meta _ _ Hnd). }
  split; [done|]. rewrite H2. cbn. by rewrite Permutation_middle.
Qed.

Definition is_dated (o : LogOrder) : bool :=
  match o with
  | OrderDate => true
  | _ => false
  end.

Lemma ordered_start_inv o :
  ready_inv (is_dated o) [] [] (ordered_start o N).
Proof.
  destruct initial_nodes_spec as [Hnd Hin].
  assert (forall p, child_counts N !! p =
    (fun _ => potential (links_from p) D ∅ + occurrences p [])%nat <$> (N !! p)) as Hc.
  { intros p. rewrite child_counts_lookup, potential_empty. unfold occurrences. cbn. by rewrite Nat.add_0_r. }
  assert (forall q, NoDup q -> q ≡ₚ initial_nodes N (child_counts N) ->
    forall x, x ∈ q <-> child_counts N !! x = Some 0%nat /\ x ∉ @nil Oid) as Hq.
  { intros q _ Hp x. rewrite Hp, Hin. set_solver. }
  unfold ordered_start. destruct o.
  1,2: split; cbn; try done; [set_solver|by rewrite reverse_Permutation|
    apply Hq; [by rewrite reverse_Permutation|apply reverse_Permutation]|constructor|set_solver].
  destruct (push_initial_spec (reverse (initial_nodes N (child_counts N))) [] 0) as [Ht Hp].
  { intros x Hx. rewrite elem_of_reverse, Hin, child_counts_lookup in Hx. by destruct (N !! x). }
  { constructor. }
  destruct (push_initial N _ [] 0) as [heap n]. cbn in Ht, Hp. rewrite app_nil_r, reverse_Permutation in Hp.
  split; cbn; try done; [set_solver|by rewrite Hp|apply Hq; [by rewrite Hp|done]|constructor|set_solver].
Qed.

End Ordered.

(** ** The pre-pass *)

Section History.
Context (start : Oid).

Record prepass_inv (pending : list Oid) (nodes : gmap Oid OrderedNode) : Prop := {
  pi_meta x n : nodes !! x = Some n -> meta x = Some (on_meta n);
  pi_reach x : x ∈ dom nodes \/ x ∈ pending -> reachable start x;
  pi_closed x y : x ∈ dom nodes -> link x y -> y ∈ dom nodes \/ y ∈ pending;
  pi_start : start ∈ dom nodes \/ start ∈ pending
}.

Lemma prepass_skip id pending nodes n :
  prepass_inv (id :: pending) nodes -> nodes !! id = Some n -> prepass_inv pending nodes.
Proof.
  intros [Hm Hr Hc Hs] Hn. assert (id ∈ dom nodes) as Hid by (by apply elem_of_dom; exists n). split; [done| | |].
  - intros x [|]; apply Hr; [by left|right; by right].
  - intros x y Hx Hl. destruct (Hc x y Hx Hl) as [|[->|]%elem_of_cons]; auto.
  - destruct Hs as [|[->|]%elem_of_cons]; auto.
Qed.

Lemma prepass_visit id pending nodes m d :
  prepass_inv (id :: pending) nodes -> nodes !! id = None -> meta id = Some m ->
  prepass_inv (filter (fun p => nodes !! p = None) (cm_parents m) ++ pending) (<[id := mkNode m d]> nodes).
Proof.
  intros [Hm Hr Hc Hs] Hn Em. split.
  - intros x n. rewrite lookup_insert_Some. intros [[<- <-]|[_ Hx]]; [done|by apply Hm].
  - assert (reachable start id) as Hid by (apply Hr; right; by left).
    intros x. rewrite dom_insert, elem_of_union, elem_of_singleton, elem_of_app, list_elem_of_filter.
    intros [[->|]|[[_ Hx]|]]; [done|apply Hr; by left| |apply Hr; right; by right].
    eapply rtc_r; [exact Hid|]. by exists m.
  - intros x y. rewrite dom_insert, !elem_of_union, !elem_of_singleton, elem_of_app, list_elem_of_filter.
    destruct (decide (x = id)) as [->|Hx].
    + intros _ (m' & Em' & Hy). rewrite Em in Em'. simplify_eq.
      destruct (nodes !! y) eqn:Ey; [left; right; apply elem_of_dom; by eexists|right; by left].
    + intros [|Hd] Hl; [done|]. destruct (Hc x y Hd Hl) as [|[->|]%elem_of_cons]; auto.
  - rewrite dom_insert. destruct Hs as [|[->|]%elem_of_cons]; [left|left|right]; set_solver.
Qed.

Lemma prepass_start : prepass_inv [start] ∅.
Proof.
  split; [by intros x n; rewrite lookup_empty| |set_solver|set_solver].
  intros x [Hx|Hx]; [set_solver|]. apply list_elem_of_singleton in Hx as ->. apply rtc_refl.
Qed.

Context (K : list Oid).
Hypothesis complete : complete_history start.
Hypothesis K_nodup : NoDup K.
Hypothesis K_covers : forall x m, meta x = Some m -> x ∈ K.

Lemma prepass_measure id (pending : list Oid) (nodes : gmap Oid OrderedNode) m d fuel :
  nodes !! id = None -> meta id = Some m ->
  (S (length pending + potential link_count K (dom nodes)) <= S fuel)%nat ->
  (length (filter (fun p => nodes !! p = None) (cm_parents m) ++ pending) +
   potential link_count K (dom (<[id := mkNode m d]> nodes)) <= fuel)%nat.
Proof.
  intros En Em Hf. rewrite dom_insert_L, length_app.
  pose proof (potential_step link_count K (dom nodes) id K_nodup (K_covers _ _ Em)) as Hp.
  unfold link_count at 2 in Hp. rewrite Em in Hp. specialize (Hp (proj2 (not_elem_of_dom _ _) En)).
  pose proof (length_filter (fun p => nodes !! p = None) (cm_parents m)). lia.
Qed.

Lemma prepass_nodes_spec fuel pending nodes d :
  prepass_inv pending nodes -> (length pending + potential link_count K (dom nodes) <= fuel)%nat ->
  exists N, prepass_nodes fuel pending nodes d = Some N /\ prepass_inv [] N.
Proof.
  revert pending nodes d. induction fuel as [|fuel IH]; intros [|id pending] nodes d Hi Hf; cbn [prepass_nodes];
    [by exists nodes|cbn in Hf; lia|by exists nodes|]. cbn in Hf.
  destruct (nodes !! id) as [n|] eqn:En; [apply IH; [by eapply prepass_skip|lia]|].
  destruct (complete id) as [m Em]; [apply (pi_reach _ _ Hi); right; by left|]. rewrite Em. cbn [mbind option_bind].
  apply IH; [by apply prepass_visit|]. by apply prepass_measure.
Qed.

Lemma prepass_exact fuel :
  (sum_list_with link_count K < fuel)%nat ->
  exists N, prepass_nodes fuel [start] ∅ 0 = Some N /\
    (forall x n, N !! x = Some n -> meta x = Some (on_meta n)) /\
    forall x, is_Some (N !! x) <-> reachable start x.
Proof.
  intros Hf. destruct (prepass_nodes_spec fuel [start] ∅ 0) as (N & HN & [Hm Hr Hc Hs]).
  - apply prepass_start.
  - rewrite dom_empty_L, potential_empty. cbn. lia.
  - exists N. split; [done|]. split; [done|]. intros x. rewrite <- elem_of_dom. split; [intros; apply Hr; by left|].
    destruct Hs as [Hs|Hs]; [|by apply not_elem_of_nil in Hs]. intros Hx. clear - Hs Hc Hx.
    induction Hx as [x|x y z Hl _ IH]; [done|]. apply IH. by destruct (Hc x y Hs Hl) as [|?%not_elem_of_nil].
Qed.

(** ** What a walk emits *)

(** The walk [s] has emitted [pre]. *)
Definition walk_inv (dated : bool) (pre : list Oid) (s : Walk) : Prop :=
  match s with
  | WChronological s => chrono_inv start pre [] s
  | WOrdered s => exists N, (forall x n, N !! x = Some n -> meta x = Some (on_meta n)) /\
      (forall x, is_Some (N !! x) <-> reachable start x) /\ ordered_inv N dated pre s
  end.

Lemma walk_inv_pre dated pre s :
  walk_inv dated pre s -> NoDup pre /\ forall x, x ∈ pre -> reachable start x.
Proof.
  destruct s as [s|s]; cbn.
  - intros Hi. pose proof (ci_nodup _ _ _ _ Hi) as Hnd. apply NoDup_app in Hnd as [Hnd _]. split; [done|].
    by eapply ci_reach.
  - intros (N & Hm & Hd & Hi). destruct (ordered_inv_pre _ _ _ _ Hi) as (_ & Hnd & _ & Hpre). split; [done|].
    intros x Hx. by apply Hd, Hpre.
Qed.

Lemma walk_step_inv dated pre s :
  walk_inv dated pre s ->
  (walk_step s = None /\ forall x, x ∈ pre <-> reachable start x) \/
  (exists x s', walk_step s = Some (x, s') /\ walk_inv dated (pre ++ [wc_id x]) s' /\ wc_id x ∉ pre /\
     cm_time <$> meta (wc_id x) = Some (wc_time x)).
Proof.
  destruct s as [s|s]; cbn.
  - intros Hi. destruct (decide (cw_queue s = [])) as [Hq|Hq].
    + left. split; [unfold chrono_step; by rewrite Hq|]. intros x. by eapply chrono_done.
    + destruct (chrono_step_inv start complete _ _ Hi Hq) as (x & s' & E & Hi' & Hx & Ht & _).
      right. exists x, (WChronological s'). rewrite E. done.
  - intros (N & Hm & Hd & Hi).
    destruct (ordered_next_inv start N Hm Hd _ _ _ Hi) as [(s' & E & Hall)|(x & s' & E & Hi' & Hx & Ht)]; rewrite E; [by left|].
    right. exists x, (WOrdered s'). split; [done|]. split; [by exists N|done].
Qed.

Lemma walk_pre_bound dated pre s : walk_inv dated pre s -> (length pre <= length K)%nat.
Proof.
  intros Hi. destruct (walk_inv_pre _ _ _ Hi) as [Hnd Hr]. apply NoDup_length_le; [done|].
  intros x Hx. destruct (complete x (Hr x Hx)) as [m Hm]. by eapply K_covers.
Qed.

(** A walk runs to its end, whatever it keeps about each commit in turn. *)
Lemma walk_order_spec (Inv : list Oid -> Walk -> Prop) (P : list Oid -> WalkedCommit -> Prop) dated fuel pre s :
  (forall pre s, Inv pre s -> walk_inv dated pre s) ->
  (forall pre s x s', Inv pre s -> walk_step s = Some (x, s') -> Inv (pre ++ [wc_id x]) s' /\ P pre x) ->
  Inv pre s -> (length K - length pre < fuel)%nat ->
  NoDup (pre ++ (wc_id <$> walk_order fuel s)) /\
  (forall x, x ∈ pre ++ (wc_id <$> walk_order fuel s) <-> reachable start x) /\
  Forall (fun x => cm_time <$> meta (wc_id x) = Some (wc_time x)) (walk_order fuel s) /\
  in_turn P pre (walk_order fuel s).
Proof.
  intros Hwalk Hstep. revert pre s. induction fuel as [|fuel IH]; intros pre s Hi Hf; [lia|]. cbn [walk_order].
  destruct (walk_inv_pre _ _ _ (Hwalk _ _ Hi)) as [Hnd Hr].
  destruct (walk_step_inv _ _ _ (Hwalk _ _ Hi)) as [[-> Hall]|(x & s' & E & Hi' & Hx & Ht)].
  - cbn. rewrite app_nil_r. done.
  - rewrite E. destruct (Hstep _ _ _ _ Hi E) as [Hi2 HP]. pose proof (walk_pre_bound _ _ _ (Hwalk _ _ Hi2)) as Hb.
    rewrite length_app in Hb. cbn in Hb.
    destruct (IH _ _ Hi2) as (H1 & H2 & H3 & H4); [rewrite length_app; cbn; lia|].
    cbn [fmap list_fmap in_turn]. rewrite <- app_assoc in H1, H2. split_and!; try done. by constructor.
Qed.

Lemma walk_start_inv o fuel :
  (sum_list_with link_count K < fuel)%nat ->
  exists s, walk_start o fuel start = Some s /\ walk_inv (is_dated o) [] s /\
    (o = Chronological <-> exists c, s = WChronological c).
Proof.
  intros Hf. destruct (complete start (rtc_refl _ _)) as [m Hm].
  destruct (prepass_exact fuel Hf) as (N & HN & Hmeta & Hdom). unfold walk_start. destruct o; rewrite ?Hm, ?HN; cbn.
  - eexists. split; [done|]. split; [by apply chrono_start_inv|]. split; [by eexists|done].
  - eexists. split; [done|]. split; [exists N; split_and!; [done..|left; by apply (ordered_start_inv start N Hmeta Hdom OrderTopological)]|].
    split; [done|by intros [c ?]].
  - eexists. split; [done|]. split; [exists N; split_and!; [done..|left; by apply (ordered_start_inv start N Hmeta Hdom OrderDate)]|].
    split; [done|by intros [c ?]].
Qed.

Lemma history_order_enumerates o fuel :
  (length K + sum_list_with link_count K < fuel)%nat -> enumerates start (history_order o fuel start).
Proof.
  intros Hf. unfold history_order. destruct (walk_start_inv o fuel) as (s & -> & Hi & _); [lia|].
  destruct (walk_order_spec (walk_inv (is_dated o)) (fun _ _ => True) (is_dated o) fuel [] s) as (H1 & H2 & H3 & _);
    [done| |done|cbn; lia|by split_and!].
  intros pre s1 x s2 Hi1 E. split; [|done].
  destruct (walk_step_inv _ _ _ Hi1) as [[E' _]|(x' & s' & E' & ? & _)]; congruence.
Qed.

Lemma history_order_newest fuel :
  (length K + sum_list_with link_count K < fuel)%nat ->
  in_turn (newest_of (discovered start)) [] (history_order Chronological fuel start).
Proof.
  intros Hf. unfold history_order. destruct (walk_start_inv Chronological fuel) as (s & -> & Hi & Hc); [lia|].
  destruct (proj1 Hc eq_refl) as [c ->].
  apply (walk_order_spec (fun pre s => walk_inv false pre s /\ exists c, s = WChronological c)
    (newest_of (discovered start)) false fuel [] (WChronological c)); [by intros ? ? []| |split; [done|by eexists]|cbn; lia].
  intros pre s1 x s2 [Hi1 [c1 ->]] E. cbn in Hi1, E.
  destruct (decide (cw_queue c1 = [])) as [Hq|Hq]; [unfold chrono_step in E; by rewrite Hq in E|].
  destruct (chrono_step_inv start complete _ _ Hi1 Hq) as (x' & s' & E' & Hi' & _ & _ & Hn). rewrite E' in E.
  cbn in E. simplify_eq. split; [|done]. split; [done|by eexists].
Qed.

(** An acyclic history, by a generation number. *)
Definition acyclic (rank : Oid -> nat) : Prop :=
  forall y z, reachable start y -> link y z -> (rank z < rank y)%nat.

Lemma history_order_topological rank o fuel :
  acyclic rank -> o <> Chronological -> (length K + sum_list_with link_count K < fuel)%nat ->
  in_turn (fun pre x => ready start pre (wc_id x) /\ (o = OrderDate -> newest_of (ready start) pre x)) []
    (history_order o fuel start).
Proof.
  intros Hrank Ho Hf. unfold history_order. 
  destruct (prepass_exact fuel) as (N & HN & Hmeta & Hdom); [lia|].
  assert (walk_start o fuel start = Some (WOrdered (ordered_start o N))) as ->.
  { unfold walk_start. by destruct o; [|rewrite HN..]. }
  apply (walk_order_spec (fun pre s => exists c, s = WOrdered c /\ ready_inv N (is_dated o) pre [] c)
    _ (is_dated o) fuel [] _); [| | |cbn; lia].
  - intros pre s (c & -> & Hi). exists N. split_and!; [done..|by left].
  - intros pre s x s' (c & -> & Hi) E. cbn in E. destruct (decide (queue_ids c = [])) as [Hq|Hq].
    + destruct (ordered_next_inv start N Hmeta Hdom _ _ _ (or_introl Hi)) as [(c' & E' & _)|(x' & c' & E' & Hi' & Hx & _)];
        rewrite E' in E; simplify_eq. exfalso.
      destruct (ordered_inv_pre _ _ _ _ Hi') as (_ & _ & _ & Hk).
      apply (ready_nonempty start N Hmeta Hdom rank _ _ _ (wc_id x) Hrank Hi); [|done|done].
      apply Hdom, Hk. set_solver.
    + destruct (ordered_next_ready start N Hmeta Hdom _ _ _ Hi Hq) as (x' & c' & E' & Hi' & _ & _ & Hr & Hd).
      rewrite E' in E. simplify_eq. split; [by eexists|]. split; [done|]. intros ->. by apply Hd.
  - eexists. split; [done|]. apply (ordered_start_inv start N Hmeta Hdom o).
Qed.

(** Committer clocks that never run ahead of their children. *)
Definition clocks_agree : Prop :=
  forall x y mx my, reachable start x -> link x y -> meta x = Some mx -> meta y = Some my ->
    (cm_time my <= cm_time mx)%Z.

Lemma newest_sorted pre l :
  clocks_agree -> in_turn (newest_of (discovered start)) pre l -> NoDup (pre ++ (wc_id <$> l)) ->
  Forall (fun x => reachable start (wc_id x) /\ cm_time <$> meta (wc_id x) = Some (wc_time x)) l ->
  StronglySorted (fun a b => (wc_time b <= wc_time a)%Z) l.
Proof.
  intros Hclock Hturn Hnd Hl. apply Sorted_StronglySorted; [intros a b d; lia|].
  revert pre Hturn Hnd. induction l as [|y l IH]; intros pre Hturn Hnd; [constructor|]. destruct Hturn as [Hy Hturn].
  apply Forall_cons in Hl as [[Hyr Hyt] Hl]. cbn [fmap list_fmap] in Hnd. constructor.
  - apply (IH Hl (pre ++ [wc_id y]) Hturn). by rewrite <- app_assoc.
  - destruct l as [|z l]; [constructor|]. constructor. apply Forall_cons in Hl as [[Hzr Hzt] _].
    destruct Hturn as [[Hz _] _]. apply NoDup_app in Hnd as (_ & Hnd & _).
    destruct (meta (wc_id z)) as [mz|] eqn:Emz; [|done]. destruct (meta (wc_id y)) as [my|] eqn:Emy; [|done].
    cbn in Hzt, Hyt. injection Hzt as Hzt. injection Hyt as Hyt.
    assert (discovered start pre (wc_id z) \/ link (wc_id y) (wc_id z)) as [Hd|Hd].
    { destruct Hz as [->|(x & [Hx| ->%list_elem_of_singleton]%elem_of_app & Hlk)]; [by left; left| |by right].
      left; right. by exists x. }
    + rewrite <- Hzt. apply (proj2 Hy (wc_id z) mz Hd); [|done]. intros Hp. apply (Hnd _ Hp). cbn. set_solver.
    + rewrite <- Hzt, <- Hyt. by apply (Hclock _ _ _ _ Hyr Hd).
Qed.

End History.
End Pure.

(* ------------------------------------------------------------------ *)
(** ** Walking a store *)

(** A caller that takes every commit of a walk. *)
Section Drain.
Context `{Env} {T : Type} (db : ObjectDb T) (opts : LogOptions).

Fixpoint drain (fuel : nat) (s : Walk) (w : Budget * T) : Res (list WalkedCommit) * (Budget * T) :=
  match fuel with
  | O => (Err diverged, w)
  | S fuel =>
      match walk_next db opts true s w with
      | (None, _, w) => (Ok [], w)
      | (Some (Err e), _, w) => (Err e, w)
      | (Some (Ok x), s, w) =>
          let '(r, w) := drain fuel s w in
          (let? l := r in Ok (x :: l), w)
      end
  end.
Definition walk_all (fuel : nat) (start : Oid) : DM T (list WalkedCommit) :=
  let! s := walk_new db opts fuel start in
  drain fuel s.

End Drain.

(** The parents and time a log with the options [opts] sees of a commit. *)
Definition log_meta {T} (db : ObjectDb T) (c : Oid -> ObjectReadResult) (opts : LogOptions) (id : Oid)
  : option CommitMeta :=
  match c id with
  | Some (Commit, p) => cut_meta opts (is_shallow db id) <$> res_ok (parse_meta id p)
  | _ => None
  end.

Section WalkSpec.
Context `{Env} {T : Type} (db : ObjectDb T) (c : Oid -> ObjectReadResult)
        (I : T -> Prop) (F : ErrorCode -> Prop).
Context `{!LawfulDb db c I F}.
Hypothesis F_stop : forall e, budget_stop e -> F (code e).
Context (opts : LogOptions) (start : Oid).

Let meta := log_meta db c opts.
Hypothesis complete : complete_history meta start.

Lemma read_payload_spec id input p :
  c id = Some (Commit, p) ->
  hoare (on_store I) (fun e => F (code e)) (read_payload db id input) (fun q => q = p).
Proof.
  intros Hc. unfold read_payload. eapply hoare_bind.
  { eapply hoare_map_err; [apply law_graph|]. intros e He. by rewrite code_with_oid_if_none. }
  intros v ->. rewrite Hc. cbn. eapply (hoare_bind _ _ _ _ (fun r => r = (Commit, p))); [by apply hoare_lift|].
  intros ? ->. by apply hoare_ret.
Qed.

Lemma read_meta_spec id input :
  reachable meta start id ->
  hoare (on_store I) (fun e => F (code e)) (read_meta db id opts input) (fun m => meta id = Some m).
Proof.
  intros Hr. destruct (complete id Hr) as [m Hm]. unfold meta, log_meta in Hm.
  destruct (c id) as [[[] p]|] eqn:Hc; try done. destruct (parse_meta id p) as [m'|] eqn:Hp; [|done]. cbn in Hm.
  unfold read_meta. eapply hoare_bind; [by apply read_payload_spec|]. intros ? ->. rewrite Hp.
  eapply (hoare_bind _ _ _ _ (fun r => r = m')); [by apply hoare_lift|]. intros ? ->. apply hoare_ret.
  unfold meta, log_meta. by rewrite Hc, Hp.
Qed.

(** The parent loop follows the pure one, or leaves a failure of the store as
    the pending error. *)
Lemma chrono_parents_sim pre todo s w :
  chrono_inv meta start pre todo s -> I w.2 ->
  I (chrono_parents db opts todo s w).2.2 /\
  (chrono_expand meta todo s = Some (chrono_parents db opts todo s w).1 \/
   exists e, cw_pending_error (chrono_parents db opts todo s w).1 = Some e /\ F (code e)).
Proof.
  revert s w. induction todo as [|p todo IH]; intros s w Hi Hw; cbn [chrono_parents chrono_expand]; [by split; [|left]|].
  case_bool_decide as Hin; [apply IH; [by eapply chrono_skip_inv|done]|].
  pose proof (read_meta_spec p false (chrono_todo_reachable _ _ _ _ _ _ Hi)) as Hread.
  destruct (hoare_run _ _ _ _ _ _ _ Hread Hw (surjective_pairing _)) as [Hout Hw1].
  destruct (read_meta db p opts false w) as [[m|e] w1]; cbn in Hout, Hw1.
  - rewrite Hout. cbn [mbind option_bind]. apply IH; [by apply chrono_push_inv|done].
  - split; [done|]. right. by exists e.
Qed.

Definition pending_of (s : Walk) : option Error :=
  match s with
  | WChronological s => cw_pending_error s
  | WOrdered _ => None
  end.

(** [Walk::next] is a step of the pure walk; a failure of the store comes at
    once, or is pending after the commit. *)
Lemma walk_next_sim dated charge pre s w :
  walk_inv meta start dated pre s -> I w.2 ->
  let '(item, s', w') := walk_next db opts charge s w in
  I w'.2 /\
  match item with
  | None => walk_step meta s = None
  | Some (Err e) => F (code e)
  | Some (Ok x) => exists s1, walk_step meta s = Some (x, s1) /\
      (s' = s1 \/ exists e, pending_of s' = Some e /\ F (code e))
  end.
Proof.
  intros Hi Hw. destruct s as [s|s]; cbn [walk_next walk_step].
  - cbn in Hi. unfold chrono_next, chrono_step. rewrite (ci_pending _ _ _ _ _ Hi).
    destruct (heap_pop TimedCommit_cmp (cw_queue s)) as [[cur q]|] eqn:Epop; [|by split].
    destruct (chrono_pop_inv meta start complete _ _ _ _ Hi Epop) as (_ & _ & Hi' & _). cbn [mbind option_bind].
    assert (hoare (on_store I) (fun e => F (code e))
      (on_budget (if charge then charge_object_visit else check)) (fun _ => True)) as Hb
      by (destruct charge; eauto with gitility).
    destruct (hoare_run _ _ _ _ _ _ _ Hb Hw (surjective_pairing _)) as [Hout Hw1].
    destruct (on_budget _ w) as [[u|e] w1]; cbn in Hout, Hw1; [|by split].
    destruct (chrono_parents_sim _ _ _ _ Hi' Hw1) as [Hw2 Hsim].
    destruct (chrono_expand_inv meta start complete _ _ _ Hi') as (s1 & Es1 & _). rewrite Es1 in Hsim |- *. cbn [mbind option_bind].
    destruct (chrono_parents db opts _ _ w1) as [s2 w2]. cbn in Hw2, Hsim |- *. split; [done|]. eexists. split; [done|].
    destruct Hsim as [[= ->]|Hsim]; [by left|by right].
  - destruct Hi as (N & Hm & Hd & Hi).
    destruct (ordered_next_inv meta start N Hm Hd _ _ _ Hi) as [(s' & -> & _)|(x & s' & -> & _)]; cbn; [done|].
    split; [done|]. eexists. split; [done|by left].
Qed.

Context (K : list Oid).
Hypothesis K_nodup : NoDup K.
Hypothesis K_covers : forall x m, meta x = Some m -> x ∈ K.

Lemma prepass_error_code e o : code (ordered_prepass_error e o) = code e.
Proof. unfold ordered_prepass_error. case_bool_decide as E; [|done]. by destruct E as [-> _]. Qed.

Lemma prepass_sim fuel pending nodes d :
  prepass_inv meta start pending nodes ->
  (length pending + potential (link_count meta) K (dom nodes) <= fuel)%nat ->
  hoare (on_store I) (fun e => F (code e)) (prepass db opts fuel start pending nodes d)
    (fun N => prepass_nodes meta fuel pending nodes d = Some N).
Proof.
  revert pending nodes d. induction fuel as [|fuel IH]; intros [|id pending] nodes d Hi Hf; cbn [prepass prepass_nodes];
    [by apply hoare_ret|cbn in Hf; lia|by apply hoare_ret|]. cbn in Hf.
  destruct (nodes !! id) as [n|] eqn:En; [apply IH; [by eapply prepass_skip|lia]|].
  eapply hoare_bind.
  { eapply hoare_map_err; [apply (hoare_charge_object_visit I budget_stop); auto|]. intros e He.
    rewrite prepass_error_code. by apply F_stop. }
  intros _ _. eapply hoare_bind; [apply read_meta_spec, (pi_reach _ _ _ _ Hi); right; by left|].
  intros m Hm. rewrite Hm. cbn [mbind option_bind]. apply IH; [by apply prepass_visit|].
  by apply (prepass_measure meta K K_nodup K_covers).
Qed.

Lemma walk_new_sim fuel :
  (sum_list_with (link_count meta) K < fuel)%nat ->
  hoare (on_store I) (fun e => F (code e)) (walk_new db opts fuel start)
    (fun s => walk_start meta (lo_order opts) fuel start = Some s).
Proof.
  intros Hf.
  assert (hoare (on_store I) (fun e => F (code e)) (prepass db opts fuel start [start] ∅ 0)
    (fun N => prepass_nodes meta fuel [start] ∅ 0 = Some N)) as Hp.
  { apply prepass_sim; [apply prepass_start|]. rewrite dom_empty_L, potential_empty. cbn. lia. }
  unfold walk_new, walk_start, chrono_new, ordered_new. destruct (lo_order opts) eqn:Eo; intros w Hw.
  1: rewrite sbind_assoc; revert w Hw; eapply hoare_bind; [apply read_meta_spec, rtc_refl|]; intros m ->.
  2,3: rewrite sbind_assoc; revert w Hw; eapply hoare_bind; [exact Hp|]; intros N ->.
  all: by apply hoare_ret.
Qed.

Lemma walk_next_pending charge s w e :
  pending_of s = Some e -> exists s', walk_next db opts charge s w = (Some (Err e), s', w).
Proof. destruct s as [s|s]; [|done]. cbn. intros Hp. unfold chrono_next. rewrite Hp. by eexists. Qed.

Lemma drain_spec dated fuel pre s w :
  walk_inv meta start dated pre s -> (length K - length pre < fuel)%nat -> I w.2 ->
  outcome (fun e => F (code e)) (fun l => l = walk_order meta fuel s) (drain db opts fuel s w).1.
Proof.
  revert pre s w. induction fuel as [|fuel IH]; intros pre s w Hi Hf Hw; [lia|]. cbn [drain walk_order].
  pose proof (walk_next_sim dated true pre s w Hi Hw) as Hsim.
  destruct (walk_next db opts true s w) as [[[[x|e]|] s1] w1]; destruct Hsim as [Hw1 Hsim]; [|done|by rewrite Hsim].
  destruct Hsim as (s2 & E & Hs). rewrite E.
  destruct (walk_step_inv meta start complete _ _ _ Hi) as [[E' _]|(x' & s' & E' & Hi' & _)]; [congruence|].
  rewrite E' in E. simplify_eq.
  pose proof (walk_pre_bound meta start K complete K_covers _ _ _ Hi') as Hb. rewrite length_app in Hb. cbn in Hb.
  destruct Hs as [->|(e & Hp & He)].
  - pose proof (IH _ _ w1 Hi') as Hl. rewrite length_app in Hl. cbn in Hl. specialize (Hl ltac:(lia) Hw1).
    destruct (drain db opts fuel s2 w1) as [[l|e] w2]; cbn in *; [by subst l|done].
  - destruct fuel as [|fuel]; [lia|]. cbn [drain]. by destruct (walk_next_pending true s1 w1 e Hp) as [s3 ->].
Qed.

Lemma walk_all_spec fuel w :
  (length K + sum_list_with (link_count meta) K < fuel)%nat -> I w.2 ->
  outcome (fun e => F (code e)) (fun l => l = history_order meta (lo_order opts) fuel start)
    (walk_all db opts fuel start w).1.
Proof.
  intros Hf Hw. unfold walk_all.
  assert (sum_list_with (link_count meta) K < fuel)%nat as Hf' by lia.
  destruct (walk_start_inv meta start K complete K_nodup K_covers (lo_order opts) fuel Hf') as (s & Hs & Hi & _).
  destruct (hoare_run _ _ _ _ _ _ _ (walk_new_sim fuel Hf') Hw (surjective_pairing _)) as [Hout Hw1].
  unfold sbind. destruct (walk_new db opts fuel start w) as [[s'|e] w1]; cbn in Hout, Hw1; [|done].
  unfold history_order. rewrite Hout. rewrite Hs in Hout. simplify_eq.
  apply (drain_spec (is_dated (lo_order opts)) fuel [] s' w1 Hi); [cbn; lia|done].
Qed.

(** C18. The chronological walk is exact. Over a complete history, taking every
    commit ends within one step per commit and either fails because the store
    or the budget does, or yields every commit reachable from the start (along
    the parents the options keep) exactly once, with its committer time; each
    one has the latest time among the commits discovered by then, so that the
    whole list is newest first whenever no parent is dated after its child. *)
Theorem chronological_walk_exact fuel w r w' :
  lo_order opts = Chronological ->
  (length K + sum_list_with (link_count meta) K < fuel)%nat -> I w.2 ->
  walk_all db opts fuel start w = (r, w') ->
  match r with
  | Ok l => enumerates meta start l /\ in_turn (newest_of meta (discovered meta start)) [] l /\
      (clocks_agree meta start -> StronglySorted (fun a b => (wc_time b <= wc_time a)%Z) l)
  | Err e => F (code e)
  end.
Proof.
  intros Ho Hf Hw E. pose proof (walk_all_spec fuel w Hf Hw) as Hr. rewrite E, Ho in Hr. cbn in Hr.
  destruct r as [l|e]; [|done]. cbn in Hr. subst l.
  pose proof (history_order_enumerates meta start K complete K_nodup K_covers Chronological fuel Hf) as He.
  pose proof (history_order_newest meta start K complete K_nodup K_covers fuel Hf) as Hn.
  split_and!; [done|done|]. intros Hc. destruct He as (Hnd & Hin & Ht).
  apply (newest_sorted meta start K complete K_nodup K_covers [] _ Hc Hn Hnd). rewrite Forall_forall in Ht |- *. intros x Hx.
  split; [|by apply Ht]. by apply Hin, list_elem_of_fmap_2.
Qed.

(** C19. The ordered walks are exact. The pre-pass and the walk end; unless the
    store or the budget fails, every reachable commit is yielded exactly once,
    even where parent links form a cycle. In an acyclic history no commit
    precedes a child of its own, and in date order each commit is the newest of
    those whose children have all been yielded. *)
Theorem ordered_walk_exact fuel w r w' :
  lo_order opts <> Chronological ->
  (length K + sum_list_with (link_count meta) K < fuel)%nat -> I w.2 ->
  walk_all db opts fuel start w = (r, w') ->
  match r with
  | Ok l => enumerates meta start l /\
      forall rank, acyclic meta start rank ->
        in_turn (fun pre x => ready meta start pre (wc_id x) /\
          (lo_order opts = OrderDate -> newest_of meta (ready meta start) pre x)) [] l
  | Err e => F (code e)
  end.
Proof.
  intros Ho Hf Hw E. pose proof (walk_all_spec fuel w Hf Hw) as Hr. rewrite E in Hr.
  destruct r as [l|e]; [|done]. cbn in Hr. subst l.
  split; [by apply (history_order_enumerates meta start K)|].
  intros rank Hrank. by apply (history_order_topological meta start K complete K_nodup K_covers rank).
Qed.

End WalkSpec.

(* ------------------------------------------------------------------ *)
(** ** Witnesses *)

(** A list that holds the start and the parents of its members is a complete
    history. *)
Lemma closed_complete (meta : Oid -> option CommitMeta) (K : list Oid) start :
  start ∈ K ->
  forallb (fun x => match meta x with
                    | Some m => forallb (fun p => bool_decide (p ∈ K)) (cm_parents m)
                    | None => false
                    end) K = true ->
  complete_history meta start.
Proof.
  intros Hs Hcl. rewrite forallb_forall in Hcl.
  assert (forall x, x ∈ K -> exists m, meta x = Some m /\ forall p, p ∈ cm_parents m -> p ∈ K) as HK.
  { intros x Hx%list_elem_of_In. specialize (Hcl x Hx). destruct (meta x) as [m|]; [|done]. exists m. split; [done|].
    rewrite forallb_forall in Hcl. intros p Hp%list_elem_of_In. specialize (Hcl p Hp). by apply bool_decide_eq_true in Hcl. }
  intros x Hx. assert (x ∈ K) as Hin; [|destruct (HK x Hin) as (m & Hm & _); by exists m].
  induction Hx as [x|x y z (m & Hm & Hy) _ IH]; [done|]. apply IH. destruct (HK x Hs) as (m' & Hm' & Hp).
  rewrite Hm in Hm'. simplify_eq. by apply Hp.
Qed.

(** Two lines of work merged into one commit. *)
Definition dated_commit (ps : list Oid) (time : string) : Payload :=
  (Commit, bs "tree " ++ to_hex (sample_id xff) ++ [x0a]
   ++ (ps ≫= fun p => bs "parent " ++ to_hex p ++ [x0a])
   ++ bs "author A <a> 1 +0000" ++ [x0a] ++ bs "committer C <c> " ++ bs time ++ bs " -0130" ++ [x0a; x0a]
   ++ bs "subject" ++ [x0a; x0a] ++ bs "body").
Definition dated_store : StaticOdb := mkStatic Sha1
  {[ sample_id x01 := dated_commit [] "10";
     sample_id x02 := dated_commit [sample_id x01] "30";
     sample_id x03 := dated_commit [sample_id x01] "20";
     sample_id x04 := dated_commit [sample_id x02; sample_id x03] "40" ]}.
Definition dated_db : ObjectDb unit := @static_db quiet unit dated_store.
Definition dated_ids : list Oid := (map_to_list (st_objects dated_store)).*1.
Definition dated_opts (o : LogOrder) : LogOptions := mkLogOptions o false None None 2 None.

Example dated_orders :
  (fun o => wc_time <$> default [] (res_ok (@walk_all quiet unit dated_db (dated_opts o) 20 (sample_id x04) fresh_world).1))
    <$> [Chronological; OrderTopological; OrderDate]
  = [[40; 30; 20; 10]%Z; [40; 20; 30; 10]%Z; [40; 30; 20; 10]%Z].
Proof. vm_compute. reflexivity. Qed.

Lemma dated_ids_nodup : NoDup dated_ids.
Proof. apply NoDup_fst_map_to_list. Qed.
Lemma dated_ids_cover opts x m :
  log_meta dated_db (static_contents dated_store) opts x = Some m -> x ∈ dated_ids.
Proof.
  unfold log_meta, static_contents, dated_ids. intros Hx. destruct (st_objects dated_store !! x) as [p|] eqn:E; [|done].
  apply list_elem_of_fmap. exists (x, p). split; [done|]. by apply elem_of_map_to_list.
Qed.
Lemma dated_complete o :
  complete_history (log_meta dated_db (static_contents dated_store) (dated_opts o)) (sample_id x04).
Proof.
  apply (closed_complete _ [sample_id x04; sample_id x03; sample_id x02; sample_id x01]); [set_solver|].
  destruct o; vm_compute; reflexivity.
Qed.
(** Generation numbers: the first byte of an ID. *)
Definition dated_rank (x : Oid) : nat := N.to_nat (match oid_raw x with b :: _ => byteN b | [] => 0 end).
Lemma dated_acyclic o :
  acyclic (log_meta dated_db (static_contents dated_store) (dated_opts o)) (sample_id x04) dated_rank.
Proof.
  intros y z _ (m & Hm & Hz). pose proof (dated_ids_cover _ _ _ Hm) as Hy.
  assert (forallb (fun y => match log_meta dated_db (static_contents dated_store) (dated_opts o) y with
    | Some m => forallb (fun z => (dated_rank z <? dated_rank y)%nat) (cm_parents m) | None => true end) dated_ids = true) as Hall
    by (destruct o; vm_compute; reflexivity).
  rewrite forallb_forall in Hall. apply list_elem_of_In in Hy, Hz. specialize (Hall y Hy). rewrite Hm in Hall.
  rewrite forallb_forall in Hall. by apply Nat.ltb_lt, Hall.
Qed.

Definition dated_walk (ids : list (byte * Z)) : list WalkedCommit := (fun '(b, t) => mkWalked (sample_id b) t) <$> ids.

Lemma chronological_walk_exact_witness :
  let l := dated_walk [(x04, 40%Z); (x02, 30%Z); (x03, 20%Z); (x01, 10%Z)] in
  enumerates (log_meta dated_db (static_contents dated_store) (dated_opts Chronological)) (sample_id x04) l.
Proof.
  intros l.
  apply (@chronological_walk_exact quiet unit dated_db (static_contents dated_store) (fun _ => True) plain_failure _
    plain_stop (dated_opts Chronological) (sample_id x04) (dated_complete _) dated_ids dated_ids_nodup (dated_ids_cover _)
    20 fresh_world (Ok l) (snd (@walk_all quiet unit dated_db (dated_opts Chronological) 20 (sample_id x04) fresh_world))).
  - reflexivity.
  - vm_compute. lia.
  - done.
  - vm_compute. reflexivity.
Defined.

Lemma ordered_walk_exact_witness :
  let l := dated_walk [(x04, 40%Z); (x03, 20%Z); (x02, 30%Z); (x01, 10%Z)] in
  let meta := log_meta dated_db (static_contents dated_store) (dated_opts OrderTopological) in
  in_turn (fun pre x => ready meta (sample_id x04) pre (wc_id x) /\
    (OrderTopological = OrderDate -> newest_of meta (ready meta (sample_id x04)) pre x)) [] l.
Proof.
  intros l meta.
  refine (proj2 (@ordered_walk_exact quiet unit dated_db (static_contents dated_store) (fun _ => True) plain_failure _
    plain_stop (dated_opts OrderTopological) (sample_id x04) (dated_complete _) dated_ids dated_ids_nodup (dated_ids_cover _)
    20 fresh_world (Ok l) (snd (@walk_all quiet unit dated_db (dated_opts OrderTopological) 20 (sample_id x04) fresh_world))
    _ _ _ _) dated_rank (dated_acyclic _)).
  - done.
  - vm_compute. lia.
  - done.
  - vm_compute. reflexivity.
Defined.
