(* ===== verification/Log.v ===== *)
(** * The commit log ([log.rs])

    [log]: a page of decoded commits over a walk of [LogWalk.v]. A cursor
    resumes by replaying the walk up to the recorded commit. The theorems say
    that following the cursors lists the history's commits within the time
    bounds, and that a listed commit agrees with the walk that found it. *)

From Stdlib Require Import NArith ZArith Lia Strings.Byte Strings.String.
From stdpp Require Import prelude gmap strings list relations sorting.
From S2P Require Import Prelude Errors Objects Budget Cursor Odb Decode Snapshot Graph Ancestry Tree File LogWalk.

Open Scope N_scope.

Definition SUBJECT_BYTES : nat := 1024%nat.
Definition MESSAGE_BYTES : nat := (64 * 1024)%nat.

(** [LogIdentity], [LogCommit] and [LogPage]. *)
Record LogIdentity : Type := mkLogIdentity {
  li_name : bytes;
  li_email : bytes;
  li_time : Z;
  li_tz : bytes;
  li_tz_offset_minutes : option Z
}.
Record LogCommit : Type := mkLogCommit {
  lc_id : Oid;
  lc_parents : list Oid;
  lc_tree_id : Oid;
  lc_author : LogIdentity;
  lc_committer : LogIdentity;
  lc_subject : bytes;
  lc_subject_truncated : bool;
  lc_message_raw : bytes;
  lc_message_truncated : bool;
  lc_signature_headers : list bytes;
  lc_encoding : option bytes
}.
Record LogPage : Type := mkLogPage {
  lp_commits : list LogCommit;
  lp_next_cursor : option bytes;
  lp_truncated : bool;
  lp_stats : QueryStats
}.

(* ------------------------------------------------------------------ *)
(** ** Decoding a listed commit *)

(** [timezone_offset_minutes]. *)
Definition is_ascii_digit (b : byte) : bool := (48 <=? byteN b) && (byteN b <=? 57).
Definition digit_value (b : byte) : Z := (Z.of_N (byteN b) - 48)%Z.
Definition timezone_offset_minutes (tz : bytes) : option Z :=
  match tz with
  | [sign; h1; h2; m1; m2] =>
      if negb (beq sign x2b || beq sign x2d) then None
      else if negb (forallb is_ascii_digit [h1; h2; m1; m2]) then None
      else
        let hours := (digit_value h1 * 10 + digit_value h2)%Z in
        let minutes := (digit_value m1 * 10 + digit_value m2)%Z in
        if (24 <=? hours)%Z || (60 <=? minutes)%Z then None
        else
          let offset := (hours * 60 + minutes)%Z in
          Some (if beq sign x2d then (- offset)%Z else offset)
  | _ => None
  end.

(** [log_identity]. *)
Definition log_identity (i : Identity) : LogIdentity :=
  mkLogIdentity (id_name i) (id_email i) (id_time i) (id_tz i) (timezone_offset_minutes (id_tz i)).

(** [is_signature_header] of [log.rs]. *)
Definition log_signature_header (name : bytes) : bool :=
  bytes_eqb name (bs "gpgsig") || starts_with name (bs "gpgsig-").

(** The variables of the header loop of [decode_log_commit]. *)
Record LogScan : Type := mkLogScan {
  sc_tree : option Oid;
  sc_parents : list Oid;
  sc_author : option Identity;
  sc_committer : option Identity;
  sc_signatures : list bytes;
  sc_encoding : option bytes
}.
Definition log_line (id : Oid) (name value : bytes) (s : LogScan) : Res LogScan :=
  if bytes_eqb name (bs "tree") then
    let? t := parse_oid value (oid_kind id) "commit tree" id in
    Ok (mkLogScan (Some t) (sc_parents s) (sc_author s) (sc_committer s) (sc_signatures s) (sc_encoding s))
  else if bytes_eqb name (bs "parent") then
    let? p := parse_oid value (oid_kind id) "commit parent" id in
    Ok (mkLogScan (sc_tree s) (sc_parents s ++ [p]) (sc_author s) (sc_committer s) (sc_signatures s) (sc_encoding s))
  else if bytes_eqb name (bs "author") then
    let? a := map_err (with_oid_if_none id) (decode_identity value) in
    Ok (mkLogScan (sc_tree s) (sc_parents s) (Some a) (sc_committer s) (sc_signatures s) (sc_encoding s))
  else if bytes_eqb name (bs "committer") then
    let? c := map_err (with_oid_if_none id) (decode_identity value) in
    Ok (mkLogScan (sc_tree s) (sc_parents s) (sc_author s) (Some c) (sc_signatures s) (sc_encoding s))
  else if bytes_eqb name (bs "encoding") then
    Ok (mkLogScan (sc_tree s) (sc_parents s) (sc_author s) (sc_committer s) (sc_signatures s) (Some value))
  else if log_signature_header name then
    Ok (mkLogScan (sc_tree s) (sc_parents s) (sc_author s) (sc_committer s) (sc_signatures s ++ [name]) (sc_encoding s))
  else Ok s.
Fixpoint log_lines (id : Oid) (lines : list bytes) (s : LogScan) : Res LogScan :=
  match lines with
  | [] => Ok s
  | line :: lines =>
      if starts_with line [x20] then log_lines id lines s
      else
        let? (name, value) := map_err (with_oid_if_none id) (split_header line) in
        let? s := log_line id name value s in
        log_lines id lines s
  end.

(** [decode_log_commit]. *)
Definition decode_log_commit (id : Oid) (payload : bytes) (shallow : bool) : Res LogCommit :=
  let? (headers, message) := map_err (with_oid_if_none id) (split_commit payload) in
  let message_len := Nat.min (length message) MESSAGE_BYTES in
  let subject_len := default (length message) (position (beq x0a) message) in
  let subject_end := Nat.min subject_len SUBJECT_BYTES in
  let? s := log_lines id (split_on (beq x0a) headers) (mkLogScan None [] None None [] None) in
  let parents := if shallow then [] else sc_parents s in
  let? tree := ok_or (malformed_for id "commit payload is missing its tree") (sc_tree s) in
  let? author := ok_or (malformed_for id "commit payload is missing its author") (sc_author s) in
  let? committer := ok_or (malformed_for id "commit payload is missing its committer") (sc_committer s) in
  Ok (mkLogCommit id parents tree (log_identity author) (log_identity committer)
        (take subject_end message) (SUBJECT_BYTES <? subject_len)%nat
        (take message_len message) (MESSAGE_BYTES <? length message)%nat
        (sc_signatures s) (sc_encoding s)).

(* ------------------------------------------------------------------ *)
(** ** Cursors *)

(** [push_optional_i64] and [option_fingerprint]. *)
Definition i64_le_bytes (z : Z) : bytes := le_bytes 8 (Z.to_N (z mod 2 ^ 64)).
Definition push_optional_i64 (out : bytes) (value : option Z) : bytes :=
  match value with
  | Some v => out ++ [x01] ++ i64_le_bytes v
  | None => out ++ [x00]
  end.
Definition log_fingerprint (opts : LogOptions) : N :=
  let normalized := bs "log-v1" ++ [x00]
    ++ [match lo_order opts with Chronological => x00 | OrderTopological => x01 | OrderDate => x02 end]
    ++ [if lo_first_parent opts then x01 else x00] in
  fnv1a_64 (push_optional_i64 (push_optional_i64 normalized (lo_since opts)) (lo_until opts)).

(** [invalid_cursor] and [truncatable]. *)
Definition log_invalid_cursor (m : string) : Error := Error_new InvalidCursor m.
Definition truncatable (e : Error) : bool :=
  bool_decide (code e = BudgetExceeded)
  && negb (bool_decide (limit e = Some "max_provider_requests"%string \/ limit e = Some "max_provider_bytes"%string)).

(** [decode_resume], and the identity [log] expects of a cursor. *)
Definition log_expected (snapshot : Snapshot) (opts : LogOptions) : CursorExpected :=
  mkExpected (oid_kind (commit_oid snapshot)) (as_bytes (commit_oid snapshot)) OPERATION_LOG (log_fingerprint opts).
Definition decode_resume (encoded : bytes) (expected : CursorExpected) (kind : HashKind) : Res Oid :=
  let? decoded := decode encoded expected in
  if negb (bool_decide (cur_generation decoded = [])) then
    Err (log_invalid_cursor "generation check failed for this object store")
  else
    map_err (fun _ => log_invalid_cursor "position check failed: commit digest has the wrong length")
      (Oid_new kind (cur_position decoded)).
Definition log_resume (snapshot : Snapshot) (opts : LogOptions) : Res (option Oid) :=
  match lo_cursor opts with
  | Some encoded =>
      let? id := decode_resume encoded (log_expected snapshot opts) (oid_kind (commit_oid snapshot)) in
      Ok (Some id)
  | None => Ok None
  end.
Definition log_cursor (snapshot : Snapshot) (opts : LogOptions) (id : Oid) : Cursor :=
  mkCursor (oid_kind (commit_oid snapshot)) (as_bytes (commit_oid snapshot)) OPERATION_LOG
    (log_fingerprint opts) [] (as_bytes id).

(* ------------------------------------------------------------------ *)
(** ** [log] *)

Section Log.
Context `{Env} {T : Type} (db : ObjectDb T) (opts : LogOptions).

(** An error ends the page when it is a count ceiling and the page has
    commits; otherwise it is the result. *)
Definition stop_or_fail (e : Error) (commits : list LogCommit) (found : bool) (w : Budget * T)
  : Res (list LogCommit * option string * bool) * (Budget * T) :=
  if truncatable e && negb (bool_decide (commits = [])) then
    (Ok (commits, Some (default "budget"%string (limit e)), found), w)
  else (Err e, w).

(** The loop of [log]: the commits, what stopped it, whether the resume commit
    was found. *)
Fixpoint log_loop (fuel : nat) (walk : Walk) (resume : option Oid) (found : bool)
  (commits : list LogCommit) (w : Budget * T)
  : Res (list LogCommit * option string * bool) * (Budget * T) :=
  match fuel with
  | O => (Err diverged, w)
  | S fuel =>
      let '(r, w) := on_budget check w in
      match r with
      | Err e => (Err e, w)
      | Ok _ =>
          match walk_next db opts found walk w with
          | (None, _, w) => (Ok (commits, None, found), w)
          | (Some (Err e), _, w) => stop_or_fail e commits found w
          | (Some (Ok walked), walk, w) =>
              if negb found then
                log_loop fuel walk resume (bool_decide (Some (wc_id walked) = resume)) commits w
              else if negb (within_time_bounds (wc_time walked) opts) then
                log_loop fuel walk resume found commits w
              else if (length commits =? lo_limit opts)%nat then
                (Ok (commits, Some "limit"%string, found), w)
              else
                match read_payload db (wc_id walked) false w with
                | (Err e, w) => stop_or_fail e commits found w
                | (Ok payload, w) =>
                    match decode_log_commit (wc_id walked) payload (is_shallow db (wc_id walked)) with
                    | Err e => (Err e, w)
                    | Ok decoded =>
                        let commits := commits ++ [decoded] in
                        match take_pending_error walk with
                        | (Some e, _) => stop_or_fail e commits found w
                        | (None, walk) =>
                            if (length commits =? lo_limit opts)%nat && has_matching opts walk then
                              (Ok (commits, Some "limit"%string, found), w)
                            else log_loop fuel walk resume found commits w
                        end
                    end
                end
          end
      end
  end.

(** The end of [log]: the cursor and the statistics. *)
Definition finish_log (snapshot : Snapshot) (commits : list LogCommit) (stopped_by : option string)
  : DM T LogPage :=
  let truncated := match stopped_by with Some _ => true | None => false end in
  if truncated && bool_decide (commits = []) then
    sthrow (with_limit (default EmptyString stopped_by)
              (Error_new BudgetExceeded "budget exhausted before any commit-log pagination progress"))
  else
    let! next_cursor :=
      (if truncated then
         match last commits with
         | None => sthrow walk_panic
         | Some commit =>
             let encoded := encode (log_cursor snapshot opts (lc_id commit)) in
             if (MAX_CURSOR_BYTES <? length encoded)%nat then
               sthrow (Error_new ResultTooLarge "commit log cursor exceeds the cursor size limit")
             else sret (Some encoded)
         end
       else sret None) in
    fun '(b, t) =>
      let '(objects_read, bytes_read, _, _) := spent b in
      let '(hits, misses) := cache_spent b in
      (Ok (mkLogPage commits next_cursor truncated
             (mkQueryStats objects_read bytes_read (lenN commits) hits misses (cache_stats db t)
                0 0 0 0 0 stopped_by)),
       (b, t)).

(** [log]. *)
Definition log (fuel : nat) (snapshot : Snapshot) : DM T LogPage :=
  let! _ := slift (ensure_sha1 db [commit_oid snapshot; snap_tree_oid snapshot]) in
  if (lo_limit opts =? 0)%nat then
    sthrow (Error_new InvalidArgument "commit log page limit must be greater than zero")
  else
    let! _ := on_budget check in
    let! resume := slift (log_resume snapshot opts) in
    let! walk := walk_new db opts fuel (commit_oid snapshot) in
    let! (commits, stopped_by, found) :=
      log_loop fuel walk resume (bool_decide (resume = None)) [] in
    if negb found then
      sthrow (log_invalid_cursor "position check failed: commit is not in this traversal")
    else finish_log snapshot commits stopped_by.

End Log.

(* ------------------------------------------------------------------ *)
(** ** A listed commit agrees with the walk *)

Lemma parse_oid_Ok raw kind field object o :
  parse_oid raw kind field object = Ok o -> oid_kind o = kind /\ Oid_wf o.
Proof.
  unfold parse_oid. destruct (parse_hex raw) as [o'|e] eqn:E; [|done]. cbn. case_bool_decide as Ek; [|done].
  intros [= <-]. split; [done|]. by apply parse_hex_Ok in E as (_ & ? & _).
Qed.

Lemma meta_lines_parents id lines ps t ps' t' :
  meta_lines id lines ps t = Ok (ps', t') ->
  Forall (fun p => oid_kind p = oid_kind id /\ Oid_wf p) ps ->
  Forall (fun p => oid_kind p = oid_kind id /\ Oid_wf p) ps'.
Proof.
  revert ps t. induction lines as [|line lines IH]; intros ps t E Hps; cbn [meta_lines] in E; [by simplify_eq|].
  destruct (starts_with line [x20]); [by eapply IH|].
  destruct (split_header line) as [[name value]|e]; [|done]. cbn [map_err rbind] in E.
  destruct (bytes_eqb name (bs "parent")).
  - apply rbind_Ok in E as (p & Hp & E). eapply IH; [exact E|]. apply Forall_app. split; [done|].
    constructor; [by eapply parse_oid_Ok|constructor].
  - destruct (bytes_eqb name (bs "committer")); [apply rbind_Ok in E as (z & _ & E)|]; by eapply IH.
Qed.

Lemma parse_meta_parents id payload m p :
  parse_meta id payload = Ok m -> p ∈ cm_parents m -> oid_kind p = oid_kind id /\ Oid_wf p.
Proof.
  unfold parse_meta. destruct (split_commit payload) as [[headers msg]|e]; [|done]. cbn [map_err rbind].
  destruct (meta_lines id _ [] None) as [[ps [t|]]|e] eqn:E; [|done..]. cbn. intros [= <-] Hp. cbn in Hp.
  apply meta_lines_parents in E; [|constructor]. rewrite Forall_forall in E. by apply E.
Qed.

Lemma cut_meta_parents opts shallow m p : p ∈ cm_parents (cut_meta opts shallow m) -> p ∈ cm_parents m.
Proof.
  unfold cut_meta. cbn. case_match; [set_solver|]. destruct (lo_first_parent opts); [|done].
  intros Hp. by eapply elem_of_take in Hp as (i & Hi & _); apply list_elem_of_lookup_2 in Hi.
Qed.

Lemma parse_digits_bytes l acc z :
  parse_digits acc l = Some z -> Forall (fun b => beq x3e b = false) l.
Proof.
  revert acc. induction l as [|b l IH]; intros acc E; [constructor|]. cbn [parse_digits] in E.
  destruct ((48 <=? byteN b) && (byteN b <=? 57)) eqn:Eb; [|done]. constructor; [|by eapply IH].
  apply beq_false. intros <-. done.
Qed.
Lemma parse_i64_bytes l z : parse_i64 l = Some z -> Forall (fun b => beq x3e b = false) l.
Proof.
  unfold parse_i64. intros E.
  set (sd := match l with x2d :: rest => ((-1)%Z, rest) | x2b :: rest => (1%Z, rest) | _ => (1%Z, l) end) in E.
  assert (Forall (fun b => beq x3e b = false) sd.2) as Hd.
  { destruct sd as [sign [|d digits]]; [constructor|]. cbn [snd].
    destruct (parse_digits 0 (d :: digits)) as [v|] eqn:Ed; [|done]. by eapply parse_digits_bytes. }
  destruct l as [|[] l]; try done; subst sd; cbn [snd] in Hd; try done; by constructor.
Qed.

(** Both readings of a committer line give the same time. *)
Lemma identity_time_agrees raw i t :
  decode_identity raw = Ok i -> identity_time raw = Ok t -> t = id_time i.
Proof.
  intros Hi Ht. apply decode_identity_sound in Hi as
    (blanks & time & Hraw & _ & _ & _ & _ & Htime & Hp & _ & H20 & _).
  set (A := id_name i ++ blanks ++ [x3c] ++ id_email i) in *.
  assert (raw = A ++ x3e :: x20 :: time ++ x20 :: id_tz i) as ->.
  { rewrite Hraw. subst A. by rewrite <- !app_assoc. }
  pose proof (parse_i64_bytes _ _ Hp) as Hno. unfold identity_time in Ht.
  destruct (rposition (beq x3e) (id_tz i)) as [r|] eqn:Er.
  - (* a bracket in the timezone is not followed by a blank *)
    apply rposition_Some in Er as (t1 & x & t2 & Htz & _ & Hx & Hpost). apply beq_true in Hx. subst x.
    replace (A ++ x3e :: x20 :: time ++ x20 :: id_tz i) with ((A ++ x3e :: x20 :: time ++ x20 :: t1) ++ x3e :: t2) in Ht
      by (rewrite Htz, <- !app_assoc; cbn; by rewrite <- app_assoc).
    rewrite rposition_app_r in Ht by done. cbn [ok_or rbind] in Ht. rewrite drop_mid in Ht.
    destruct (strip_prefix [x20] t2) as [suffix|] eqn:Es; [|done]. apply strip_prefix_Some in Es. rewrite Htz, Es in H20.
    apply Forall_app in H20 as [_ [_ [H20 _]%Forall_cons]%Forall_cons]. done.
  - apply rposition_None in Er.
    rewrite rposition_app_r in Ht; [| |done].
    + cbn [ok_or rbind] in Ht. rewrite drop_mid in Ht. cbn [strip_prefix] in Ht. rewrite beq_refl in Ht. cbn [ok_or rbind] in Ht.
      rewrite split_on_line in Ht by done. cbn [head mbind option_bind] in Ht.
      rewrite bool_decide_eq_false_2 in Ht by (by eapply parse_i64_nonempty). rewrite Hp in Ht. by simplify_eq/=.
    + constructor; [done|]. apply Forall_app. split; [done|]. by constructor.
Qed.

Lemma lines_agree id lines s s' ps t ps' t' :
  log_lines id lines s = Ok s' -> meta_lines id lines ps t = Ok (ps', t') ->
  sc_parents s = ps -> id_time <$> sc_committer s = t ->
  sc_parents s' = ps' /\ id_time <$> sc_committer s' = t'.
Proof.
  revert s ps t. induction lines as [|line lines IH]; intros s ps t El Em Hps Ht; cbn [log_lines meta_lines] in El, Em.
  { by simplify_eq. }
  destruct (starts_with line [x20]); [by eapply IH|].
  destruct (split_header line) as [[name value]|e]; [|done]. cbn [map_err rbind] in El, Em.
  apply rbind_Ok in El as (s1 & E1 & El). unfold log_line in E1.
  destruct (bytes_eqb name (bs "parent")) eqn:Ep.
  { apply bytes_eqb_true in Ep. subst name. change (bytes_eqb (bs "parent") (bs "tree")) with false in E1. cbv iota in E1.
    destruct (parse_oid value (oid_kind id) "commit parent" id) as [p|]; [|done]. cbn [rbind] in E1, Em. simplify_eq.
    by eapply IH. }
  destruct (bytes_eqb name (bs "committer")) eqn:Ec.
  { apply bytes_eqb_true in Ec. subst name. change (bytes_eqb (bs "committer") (bs "tree")) with false in E1.
    change (bytes_eqb (bs "committer") (bs "author")) with false in E1. cbv iota in E1.
    destruct (decode_identity value) as [c|] eqn:Ei; [|done]. destruct (identity_time value) as [z|] eqn:Ez; [|done].
    cbn [map_err rbind] in E1, Em. simplify_eq. eapply IH; [exact El|exact Em|done|]. cbn.
    by rewrite (identity_time_agrees _ _ _ Ei Ez). }
  assert (sc_parents s1 = sc_parents s /\ sc_committer s1 = sc_committer s) as [H1 H2].
  { unfold rbind in E1. repeat (case_match; simplify_eq/=; try done). }
  eapply IH; [exact El|exact Em|congruence|congruence].
Qed.

Lemma blank_line_Some payload i :
  blank_line payload = Some i -> payload = take i payload ++ [x0a; x0a] ++ drop (i + 2) payload.
Proof.
  revert i. induction payload as [|x payload IH]; intros i; [done|]. cbn [blank_line].
  destruct payload as [|y rest]; [done|]. destruct (beq x x0a && beq y x0a) eqn:E.
  - apply andb_true_iff in E as [->%beq_true ->%beq_true]. by intros [= <-].
  - destruct (blank_line (y :: rest)) as [j|] eqn:Ej; [|done]. intros [= <-]. cbn [take drop Nat.add app].
    f_equal. by apply IH.
Qed.

(** The first line of a message. *)
Lemma first_line_spec (message : bytes) :
  let n := default (length message) (position (beq x0a) message) in
  Forall (fun b => b <> x0a) (take n message) /\ (n <= length message)%nat /\
  (message = take n message \/ exists rest, message = take n message ++ x0a :: rest).
Proof.
  intros n. subst n. destruct (position (beq x0a) message) as [i|] eqn:E; cbn [default from_option id].
  - apply position_Some in E as (pre & x & post & -> & <- & Hx & Hpre). apply beq_true in Hx. subst x.
    rewrite take_mid. split_and!; [|len; lia|right; by exists post].
    eapply Forall_impl; [exact Hpre|]. intros b Hb. apply beq_false in Hb. congruence.
  - apply position_None in E. rewrite take_ge by lia. split_and!; [|lia|by left].
    eapply Forall_impl; [exact E|]. intros b Hb. apply beq_false in Hb. congruence.
Qed.

Lemma timezone_offset_bound tz m : timezone_offset_minutes tz = Some m -> (- 1440 < m < 1440)%Z.
Proof.
  unfold timezone_offset_minutes. destruct tz as [|sign [|h1 [|h2 [|m1 [|m2 []]]]]]; try done.
  destruct (negb _); [done|]. destruct (forallb is_ascii_digit _) eqn:Ed; [|done]. cbn [negb].
  cbn [forallb] in Ed. unfold is_ascii_digit in Ed. rewrite !andb_true_iff, !N.leb_le in Ed.
  destruct ((24 <=? _)%Z || _) eqn:Eb; [done|]. apply orb_false_iff in Eb as [Hh%Z.leb_gt Hm%Z.leb_gt].
  unfold digit_value in *. intros [= <-]. destruct (beq sign x2d); lia.
Qed.

(** A listed commit agrees with the walk that found it. When both readings
    of a payload succeed, the decoded commit has the walk's committer time and,
    unless it is a shallow root, the walk's parents; its message is the text
    after the first blank line, cut at 64 KiB and flagged when cut; its subject
    is the message's first line, cut at 1 KiB and flagged when cut; a timezone
    offset is within a day. *)
Theorem log_commit_agrees id payload shallow lc m :
  decode_log_commit id payload shallow = Ok lc -> parse_meta id payload = Ok m ->
  lc_id lc = id /\ li_time (lc_committer lc) = cm_time m /\
  lc_parents lc = (if shallow then [] else cm_parents m) /\
  (exists headers message, payload = headers ++ [x0a; x0a] ++ message /\
    lc_message_raw lc = take MESSAGE_BYTES message /\
    (lc_message_truncated lc = true <-> (MESSAGE_BYTES < length message)%nat) /\
    exists line, Forall (fun b => b <> x0a) line /\
      (message = line \/ exists rest, message = line ++ x0a :: rest) /\
      lc_subject lc = take SUBJECT_BYTES line /\
      (lc_subject_truncated lc = true <-> (SUBJECT_BYTES < length line)%nat)) /\
  (forall o, li_tz_offset_minutes (lc_committer lc) = Some o -> (- 1440 < o < 1440)%Z).
Proof.
  unfold decode_log_commit, parse_meta. intros El Em.
  destruct (split_commit payload) as [[headers message]|e] eqn:Es; [|done]. cbn [map_err rbind] in El, Em.
  apply rbind_Ok in El as (s & Hs & El). apply rbind_Ok in Em as ([ps t] & Hm & Em).
  destruct (lines_agree _ _ _ _ _ _ _ _ Hs Hm eq_refl eq_refl) as [Hps Ht].
  destruct (sc_tree s) as [tree|]; [|done]. destruct (sc_author s) as [au|]; [|done].
  destruct (sc_committer s) as [co|]; [|done]. cbn [ok_or rbind fmap option_fmap option_map] in El, Ht. subst t.
  cbn [ok_or rbind] in Em. injection El as <-. injection Em as <-.
  cbn [lc_id lc_committer lc_parents lc_message_raw lc_message_truncated lc_subject lc_subject_truncated
       log_identity li_time li_tz_offset_minutes cm_time cm_parents]. subst ps.
  split_and!; [done..| |intros o; apply timezone_offset_bound].
  unfold split_commit in Es. destruct (blank_line payload) as [i|] eqn:Eb; [|done]. cbn [ok_or rbind] in Es.
  injection Es as <- <-. exists (take i payload), (drop (i + 2) payload). split; [by apply blank_line_Some|].
  set (msg := drop (i + 2) payload). destruct (first_line_spec msg) as (H1 & H2 & H3).
  split; [destruct (Nat.le_ge_cases (length msg) MESSAGE_BYTES); [by rewrite Nat.min_l, !take_ge by lia|by rewrite Nat.min_r]|].
  split; [apply Nat.ltb_lt|]. eexists. split; [exact H1|]. split; [exact H3|]. split.
  - rewrite take_take. f_equal. lia.
  - rewrite length_take, Nat.min_l by done. apply Nat.ltb_lt.
Qed.

Lemma decode_log_commit_id id payload shallow lc : decode_log_commit id payload shallow = Ok lc -> lc_id lc = id.
Proof.
  unfold decode_log_commit. destruct (split_commit payload) as [[h m]|]; [|done]. cbn [map_err rbind].
  destruct (log_lines _ _ _) as [s|]; [|done]. cbn [rbind].
  destruct (sc_tree s), (sc_author s), (sc_committer s); try done. cbn [ok_or rbind]. by intros [= <-].
Qed.

(* ------------------------------------------------------------------ *)
(** ** Failures of decoding *)

Lemma parse_oid_Err raw kind field object e :
  parse_oid raw kind field object = Err e -> code e = MalformedObject.
Proof.
  unfold parse_oid. destruct (parse_hex raw); cbn; [case_bool_decide|]; by intros; simplify_eq.
Qed.
Lemma split_header_Err line e : split_header line = Err e -> code e = MalformedObject.
Proof.
  unfold split_header. destruct (position (beq x20) line); cbn; [case_match|]; by intros; simplify_eq.
Qed.
Lemma map_err_code {A} id (m : Res A) e (k : ErrorCode) :
  (forall e, m = Err e -> code e = k) -> map_err (with_oid_if_none id) m = Err e -> code e = k.
Proof. intros Hm. destruct m as [a|e']; [done|]. intros [= <-]. rewrite code_with_oid_if_none. by apply Hm. Qed.

Lemma log_line_Err id name value s e : log_line id name value s = Err e -> code e = MalformedObject.
Proof.
  pose proof (map_err_code id (decode_identity value) e MalformedObject (decode_identity_Err value)) as Hi.
  unfold log_line. destruct (bytes_eqb name (bs "tree")), (bytes_eqb name (bs "parent")), (bytes_eqb name (bs "author")),
    (bytes_eqb name (bs "committer")), (bytes_eqb name (bs "encoding")), (log_signature_header name);
    try (by intros; simplify_eq); unfold rbind; case_match; intros; simplify_eq; eauto using parse_oid_Err.
Qed.

Lemma log_lines_Err id lines s e : log_lines id lines s = Err e -> code e = MalformedObject.
Proof.
  revert s. induction lines as [|line lines IH]; intros s E; [done|]. cbn [log_lines] in E.
  destruct (starts_with line [x20]); [by eapply IH|].
  pose proof (map_err_code id (split_header line) e MalformedObject (split_header_Err line)) as Hh.
  destruct (map_err (with_oid_if_none id) (split_header line)) as [[name value]|e1]; [|cbn in E; simplify_eq; eauto]. cbn [rbind] in E.
  destruct (log_line id name value s) as [s1|e1] eqn:El; [by eapply IH|]. cbn in E. simplify_eq. by eapply log_line_Err.
Qed.

Lemma decode_log_commit_Err id payload shallow e :
  decode_log_commit id payload shallow = Err e -> code e = MalformedObject.
Proof.
  unfold decode_log_commit. intros E.
  assert (forall e, split_commit payload = Err e -> code e = MalformedObject) as Hs.
  { intros e1. unfold split_commit. destruct (blank_line payload); cbn; by intros; simplify_eq. }
  pose proof (map_err_code id (split_commit payload) e MalformedObject Hs) as Hh.
  destruct (map_err (with_oid_if_none id) (split_commit payload)) as [[headers message]|e1]; [|cbn in E; simplify_eq; eauto].
  cbn [rbind] in E. destruct (log_lines id _ _) as [s|e1] eqn:El; [|cbn in E; simplify_eq; by eapply log_lines_Err].
  cbn [rbind] in E. destruct (sc_tree s), (sc_author s), (sc_committer s); cbn [ok_or rbind] in E; by simplify_eq.
Qed.

(* ------------------------------------------------------------------ *)
(** ** Pages of a history *)

Section PageSpec.
Context `{Env} {T : Type} (db : ObjectDb T) (c : Oid -> ObjectReadResult)
        (I : T -> Prop) (F : ErrorCode -> Prop).
Context `{!LawfulDb db c I F}.
Hypothesis F_stop : forall e, budget_stop e -> F (code e).
Context (opts : LogOptions) (start : Oid).

Let meta := log_meta db c opts.
Hypothesis complete : complete_history meta start.
Context (K : list Oid).
Hypothesis K_covers : forall x m, meta x = Some m -> x ∈ K.

(** The decoded form of a walked commit. *)
Definition listed (x : WalkedCommit) (lc : LogCommit) : Prop :=
  exists p, c (wc_id x) = Some (Commit, p) /\
    decode_log_commit (wc_id x) p (is_shallow db (wc_id x)) = Ok lc.
Definition in_bounds (x : WalkedCommit) : Prop := within_time_bounds (wc_time x) opts = true.
#[global] Instance in_bounds_dec x : Decision (in_bounds x).
Proof. unfold in_bounds. apply _. Defined.

(** What a page over the remaining walk [rest] may be. *)
Definition page_of (rest : list WalkedCommit) (before : list LogCommit)
  (page : list LogCommit * option string * bool) : Prop :=
  let '(commits, stopped, found) := page in
  found = true /\ (length commits <= lo_limit opts)%nat /\
  exists new seg later, commits = before ++ new /\ rest = seg ++ later /\
    Forall2 listed (filter in_bounds seg) new /\
    match stopped with
    | None => later = []
    | Some _ => commits <> []
    end.

Definition log_failure (e : Error) : Prop := F (code e) \/ code e = MalformedObject.

Lemma page_stop rest before stopped :
  before <> [] -> (length before <= lo_limit opts)%nat -> page_of rest before (before, Some stopped, true).
Proof. intros Hb Hl. split_and!; [done..|]. exists [], [], rest. by rewrite app_nil_r. Qed.

Lemma stop_or_fail_spec e rest commits w :
  log_failure e -> (length commits <= lo_limit opts)%nat ->
  outcome log_failure (page_of rest commits) (stop_or_fail (T:=T) e commits true w).1.
Proof.
  intros He Hl. unfold stop_or_fail. destruct (truncatable e); cbn [andb]; [|done].
  case_bool_decide; cbn [negb]; [done|]. by apply page_stop.
Qed.

Lemma page_cons x rest before lc new_page :
  in_bounds x -> listed x lc -> page_of rest (before ++ [lc]) new_page -> page_of (x :: rest) before new_page.
Proof.
  destruct new_page as [[commits stopped] found]. intros Hx Hlc (Hf & Hl & new & seg & later & Hc & Hr & Hn & Hs).
  split; [done|]. split; [done|]. exists (lc :: new), (x :: seg), later. rewrite Hr, Hc, <- app_assoc.
  split_and!; [done..| |by rewrite Hc, <- app_assoc in Hs].
  rewrite filter_cons, decide_True by done. by constructor.
Qed.
Lemma page_skip x rest before page :
  ~ in_bounds x -> page_of rest before page -> page_of (x :: rest) before page.
Proof.
  destruct page as [[commits stopped] found]. intros Hx (Hf & Hl & new & seg & later & Hc & Hr & Hn & Hs).
  split; [done|]. split; [done|]. exists new, (x :: seg), later. rewrite Hr. split_and!; try done.
  by rewrite filter_cons, decide_False.
Qed.

(** A commit of the walk has a payload. *)
Lemma walked_payload x m : meta x = Some m -> exists p, c x = Some (Commit, p).
Proof. unfold meta, log_meta. destruct (c x) as [[[] p]|]; try done. by exists p. Qed.

Lemma check_run w : I w.2 ->
  outcome (fun e => F (code e)) (fun _ : unit => True) (on_budget check w).1 /\ I (on_budget check w).2.2.
Proof.
  intros Hw. assert (hoare (on_store I) (fun e => F (code e)) (on_budget check) (fun _ => True)) as Hb by eauto with gitility.
  by destruct (Hb w Hw).
Qed.

(** After a pending failure the loop only stops. *)
Lemma log_loop_pending fuel s resume commits w e rest :
  pending_of s = Some e -> F (code e) -> I w.2 -> (length commits <= lo_limit opts)%nat ->
  outcome log_failure (page_of rest commits) (log_loop db opts (S fuel) s resume true commits w).1 /\
  I (log_loop db opts (S fuel) s resume true commits w).2.2.
Proof.
  intros Hp He Hw Hl. cbn [log_loop]. destruct (check_run w Hw) as [Hc Hw1].
  destruct (on_budget check w) as [[u|e1] w1]; cbn in Hc, Hw1; [|split; [by left|done]].
  destruct (walk_next_pending db opts true s w1 e Hp) as [s' ->].
  split; [apply stop_or_fail_spec; [by left|done]|]. unfold stop_or_fail. by case_match.
Qed.

Lemma pending_seek fuel s resume w e :
  pending_of s = Some e -> F (code e) -> I w.2 ->
  outcome log_failure (fun _ => False) (log_loop db opts (S fuel) s resume false [] w).1 /\
  I (log_loop db opts (S fuel) s resume false [] w).2.2.
Proof.
  intros Hp He Hw. cbn [log_loop]. destruct (check_run w Hw) as [Hc Hw1].
  destruct (on_budget check w) as [[u|e1] w1]; cbn in Hc, Hw1; [|split; [by left|done]].
  destruct (walk_next_pending db opts false s w1 e Hp) as [s' ->]. unfold stop_or_fail.
  rewrite andb_false_r. split; [by left|done].
Qed.

Lemma walk_inv_pending dated pre s : walk_inv meta start dated pre s -> take_pending_error s = (None, s).
Proof.
  destruct s as [s|s]; [|done]. cbn. intros Hi. pose proof (ci_pending _ _ _ _ _ Hi) as Hp.
  destruct s. cbn in Hp. by subst.
Qed.
Lemma take_pending_Some s e : pending_of s = Some e -> exists s', take_pending_error s = (Some e, s').
Proof. destruct s as [s|s]; [|done]. cbn. intros ->. by eexists. Qed.

(** One commit of the walk: what the walk does next, and the commit's place. *)
Lemma log_step dated charge fuel pre s w :
  walk_inv meta start dated pre s -> (length K - length pre < S fuel)%nat -> I w.2 ->
  let '(item, s', w') := walk_next db opts charge s w in
  I w'.2 /\
  match item with
  | None => walk_order meta (S fuel) s = []
  | Some (Err e) => F (code e)
  | Some (Ok x) => exists s1, walk_order meta (S fuel) s = x :: walk_order meta fuel s1 /\
      walk_inv meta start dated (pre ++ [wc_id x]) s1 /\ (length K - length (pre ++ [wc_id x]) < fuel)%nat /\
      is_Some (meta (wc_id x)) /\ (0 < fuel)%nat /\
      (s' = s1 \/ exists e, pending_of s' = Some e /\ F (code e))
  end.
Proof.
  intros Hi Hf Hw. pose proof (walk_next_sim db c I F F_stop opts start complete dated charge pre s w Hi Hw) as Hsim.
  fold meta in Hsim. destruct (walk_next db opts charge s w) as [[[[x|e]|] s'] w']; destruct Hsim as [Hw' Hsim];
    (split; [done|]); cbn [walk_order]; [|done|by rewrite Hsim].
  destruct Hsim as (s1 & E & Hs). rewrite E. exists s1.
  destruct (walk_step_inv meta start complete _ _ _ Hi) as [[E' _]|(x' & s2 & E' & Hi' & _ & Ht)]; [congruence|].
  rewrite E' in E. simplify_eq.
  pose proof (walk_pre_bound meta start K complete K_covers _ _ _ Hi') as Hb. rewrite length_app in Hb |- *. cbn in Hb |- *.
  split_and!; try done; try lia. destruct (meta (wc_id x)); [by eexists|done].
Qed.

(** Listing one commit within the bounds, before the loop goes on with [k]. *)
Lemma log_emit_spec x walk commits w rest
  (k : Walk -> list LogCommit -> Budget * T -> Res (list LogCommit * option string * bool) * (Budget * T)) :
  in_bounds x -> is_Some (meta (wc_id x)) -> (length commits < lo_limit opts)%nat -> I w.2 ->
  (forall e walk', take_pending_error walk = (Some e, walk') -> F (code e)) ->
  (forall cs w, take_pending_error walk = (None, walk) -> I w.2 -> (length cs <= lo_limit opts)%nat ->
     outcome log_failure (page_of rest cs) (k walk cs w).1 /\ I (k walk cs w).2.2) ->
  (forall walk', take_pending_error walk = (None, walk') -> walk' = walk) ->
  let r :=
    match read_payload db (wc_id x) false w with
    | (Err e, w) => stop_or_fail e commits true w
    | (Ok payload, w) =>
        match decode_log_commit (wc_id x) payload (is_shallow db (wc_id x)) with
        | Err e => (Err e, w)
        | Ok decoded =>
            let commits := commits ++ [decoded] in
            match take_pending_error walk with
            | (Some e, _) => stop_or_fail e commits true w
            | (None, walk) =>
                if (length commits =? lo_limit opts)%nat && has_matching opts walk then
                  (Ok (commits, Some "limit"%string, true), w)
                else k walk commits w
            end
        end
    end in
  outcome log_failure (page_of (x :: rest) commits) r.1 /\ I r.2.2.
Proof.
  intros Hx [m Hm] Hl Hw Hpend Hk Hsame. destruct (walked_payload _ _ Hm) as [p Hp].
  pose proof (read_payload_spec db c I F (wc_id x) false p Hp) as Hread.
  destruct (hoare_run _ _ _ _ _ _ _ Hread Hw (surjective_pairing _)) as [Hout Hw1].
  destruct (read_payload db (wc_id x) false w) as [[q|e] w1]; cbn in Hout, Hw1; cbv zeta beta iota.
  2: { split; [apply stop_or_fail_spec; [by left|lia]|]. unfold stop_or_fail. by case_match. }
  subst q. destruct (decode_log_commit (wc_id x) p (is_shallow db (wc_id x))) as [lc|e] eqn:Ed.
  2: { split; [right; by eapply decode_log_commit_Err|done]. }
  assert (listed x lc) as Hlc by (by exists p).
  assert (length (commits ++ [lc]) <= lo_limit opts)%nat as Hl' by (rewrite length_app; cbn; lia).
  assert (forall r, outcome log_failure (page_of rest (commits ++ [lc])) r ->
    outcome log_failure (page_of (x :: rest) commits) r) as Hcons.
  { intros [page|e]; cbn; [|done]. by apply page_cons. }
  destruct (take_pending_error walk) as [[e|] walk'] eqn:Et.
  - split; [apply Hcons, stop_or_fail_spec; [left; by eapply Hpend|done]|]. unfold stop_or_fail. by case_match.
  - rewrite (Hsame walk' eq_refl) in *. case_match; [split; [apply Hcons, page_stop; [by destruct commits|done]|done]|].
    destruct (Hk (commits ++ [lc]) w1 eq_refl Hw1 Hl') as [Hr Hw2]. split; [by apply Hcons|done].
Qed.

Lemma log_loop_found dated fuel pre s resume commits w :
  walk_inv meta start dated pre s -> (length K - length pre < fuel)%nat -> I w.2 ->
  (0 < lo_limit opts)%nat -> (length commits <= lo_limit opts)%nat ->
  outcome log_failure (page_of (walk_order meta fuel s) commits) (log_loop db opts fuel s resume true commits w).1 /\
  I (log_loop db opts fuel s resume true commits w).2.2.
Proof.
  revert pre s commits w. induction fuel as [|fuel IH]; intros pre s commits w Hi Hf Hw Hpos Hl; [lia|].
  cbn [log_loop]. destruct (check_run w Hw) as [Hc Hw1].
  destruct (on_budget check w) as [[u|e1] w1]; cbn in Hc, Hw1; [|split; [by left|done]].
  pose proof (log_step dated true fuel pre s w1 Hi Hf Hw1) as Hstep.
  destruct (walk_next db opts true s w1) as [[[[x|e]|] s'] w2]; destruct Hstep as [Hw2 Hstep].
  2: { split; [apply stop_or_fail_spec; [by left|done]|]. unfold stop_or_fail. by case_match. }
  2: { rewrite Hstep. split; [|done]. cbn. split_and!; [done..|]. exists [], [], []. by rewrite app_nil_r. }
  destruct Hstep as (s1 & -> & Hi1 & Hf1 & Hm & Hf0 & Hs). cbn [negb].
  assert (forall commits w, I w.2 -> (length commits <= lo_limit opts)%nat ->
    outcome log_failure (page_of (walk_order meta fuel s1) commits) (log_loop db opts fuel s' resume true commits w).1 /\
    I (log_loop db opts fuel s' resume true commits w).2.2) as Hrec.
  { intros cs w' Hw' Hl'. destruct Hs as [->|(e & Hp & He)]; [by eapply IH|].
    destruct fuel; [lia|]. by eapply log_loop_pending. }
  destruct (within_time_bounds (wc_time x) opts) eqn:Eb; cbn [negb].
  2: { destruct (Hrec commits w2 Hw2 Hl) as [Hr Hw3]. split; [|done].
       destruct (log_loop db opts fuel s' resume true commits w2) as [[page|e] w3]; cbn in Hr |- *; [|done].
       apply page_skip; [|done]. unfold in_bounds. by rewrite Eb. }
  destruct (length commits =? lo_limit opts)%nat eqn:El.
  { split; [|done]. apply Nat.eqb_eq in El. apply page_stop; [|lia]. intros ->. cbn in El. lia. }
  apply Nat.eqb_neq in El.
  apply (log_emit_spec x s' commits w2 (walk_order meta fuel s1) (fun s' => log_loop db opts fuel s' resume true));
    [done|done|lia|done| |intros cs w' _ Hw' Hl'; by apply Hrec|].
  - intros e s2 E. destruct Hs as [->|(e' & Hp & He)]; [by rewrite (walk_inv_pending _ _ _ Hi1) in E|].
    destruct (take_pending_Some _ _ Hp) as [s3 E3]. rewrite E3 in E. by simplify_eq.
  - intros s2 E. destruct Hs as [->|(e' & Hp & He)]; [rewrite (walk_inv_pending _ _ _ Hi1) in E; by simplify_eq|].
    destruct (take_pending_Some _ _ Hp) as [s3 E3]. rewrite E3 in E. by simplify_eq.
Qed.

(** Replaying up to the commit of the cursor. *)
Lemma log_loop_seek dated fuel pre s id w :
  walk_inv meta start dated pre s -> (length K - length pre < fuel)%nat -> I w.2 -> (0 < lo_limit opts)%nat ->
  outcome log_failure (fun '(commits, stopped, found) =>
      if found : bool then
        exists skipped x rest, walk_order meta fuel s = skipped ++ x :: rest /\ wc_id x = id /\
          page_of rest [] (commits, stopped, true)
      else id ∉ wc_id <$> walk_order meta fuel s)
    (log_loop db opts fuel s (Some id) false [] w).1 /\
  I (log_loop db opts fuel s (Some id) false [] w).2.2.
Proof.
  revert pre s w. induction fuel as [|fuel IH]; intros pre s w Hi Hf Hw Hpos; [lia|].
  cbn [log_loop]. destruct (check_run w Hw) as [Hc Hw1].
  destruct (on_budget check w) as [[u|e1] w1]; cbn in Hc, Hw1; [|split; [by left|done]].
  pose proof (log_step dated false fuel pre s w1 Hi Hf Hw1) as Hstep.
  destruct (walk_next db opts false s w1) as [[[[x|e]|] s'] w2]; destruct Hstep as [Hw2 Hstep].
  2: { unfold stop_or_fail. rewrite andb_false_r. split; [by left|done]. }
  2: { rewrite Hstep. split; [|done]. cbn. set_solver. }
  destruct Hstep as (s1 & -> & Hi1 & Hf1 & Hm & Hf0 & Hs). cbn [negb].
  destruct (decide (wc_id x = id)) as [Hx|Hx].
  - rewrite bool_decide_eq_true_2 by congruence.
    assert (outcome log_failure (page_of (walk_order meta fuel s1) []) (log_loop db opts fuel s' (Some id) true [] w2).1 /\
      I (log_loop db opts fuel s' (Some id) true [] w2).2.2) as [Hr Hw3].
    { destruct Hs as [->|(e & Hp & He)]; [by eapply log_loop_found; [..|cbn; lia]|].
      destruct fuel; [lia|]. by eapply log_loop_pending; [..|cbn; lia]. }
    split; [|done]. destruct (log_loop _ _ _ _ _ _ _ w2) as [[[[cs stop] found]|e] w3]; cbn in Hr |- *; [|done].
    pose proof Hr as [-> _]. exists [], x. by eexists.
  - rewrite bool_decide_eq_false_2 by congruence. destruct Hs as [->|(e & Hp & He)].
    + destruct (IH _ _ w2 Hi1 Hf1 Hw2 Hpos) as [Hr Hw3]. split; [|done].
      destruct (log_loop _ _ _ _ _ _ _ w2) as [[[[cs stop] []]|e] w3]; cbn in Hr |- *; [|set_solver|done].
      destruct Hr as (sk & y & rest & -> & Hy & Hpage). by exists (x :: sk), y, rest.
    + destruct fuel; [lia|]. destruct (pending_seek fuel s' (Some id) w2 e Hp He Hw2) as [Hr Hw3]. split; [|done].
      destruct (log_loop _ _ _ _ _ _ _ w2) as [[page|e1] w3]; cbn in Hr |- *; done.
Qed.

End PageSpec.

(* ------------------------------------------------------------------ *)
(** ** Following the cursors *)

Lemma length_as_bytes o : (length (as_bytes o) <= 32)%nat.
Proof. unfold as_bytes. rewrite length_take. pose proof (digest_len_le (oid_kind o)) as Hd. unfold MAX_DIGEST_LEN in Hd. lia. Qed.
Lemma length_log_cursor snapshot opts id : (length (encode (log_cursor snapshot opts id)) <= MAX_CURSOR_BYTES)%nat.
Proof.
  rewrite length_encode. unfold encode_body, log_cursor. cbn [cur_snapshot_digest cur_generation cur_position].
  rewrite !length_app, !length_le_bytes, !length_cons, !length_nil.
  pose proof (length_as_bytes id). pose proof (length_as_bytes (commit_oid snapshot)). unfold MAX_CURSOR_BYTES. lia.
Qed.

(** A page's cursor resumes at the commit it names. *)
Lemma log_cursor_resumes snapshot opts id :
  Oid_wf (commit_oid snapshot) -> Oid_wf id -> oid_kind id = oid_kind (commit_oid snapshot) ->
  lo_cursor opts = Some (encode (log_cursor snapshot opts id)) -> log_resume snapshot opts = Ok (Some id).
Proof.
  intros [_ Hs] Hid Hk Hc. unfold log_resume, decode_resume. rewrite Hc.
  change (log_expected snapshot opts) with (expected_of (log_cursor snapshot opts id)).
  rewrite decode_encode; cbn [rbind log_cursor cur_generation cur_position].
  - by rewrite bool_decide_eq_true_2, <- Hk, Oid_new_as_bytes by done.
  - unfold cursor_fits. cbn [log_cursor cur_snapshot_digest cur_hash_kind cur_option_fingerprint cur_generation cur_position].
    pose proof (length_as_bytes id). split_and!; [done|apply fnv1a_64_lt|done| |apply length_log_cursor].
    unfold lenN, u16_max. lia.
Qed.

(** The commits after the one a cursor names. *)
Definition resumes_at (resume : option Oid) (skipped : list WalkedCommit) : Prop :=
  match resume with
  | None => skipped = []
  | Some id => exists sk x, skipped = sk ++ [x] /\ wc_id x = id
  end.

Lemma resume_unique l resume sk sk' rest rest' :
  NoDup (wc_id <$> l) -> l = sk ++ rest -> l = sk' ++ rest' ->
  resumes_at resume sk -> resumes_at resume sk' -> rest = rest'.
Proof.
  intros Hnd -> E. destruct resume as [id|]; cbn; [|by intros -> ->].
  intros (a & x & -> & Hx) (b & y & -> & Hy). rewrite <- !app_assoc in E. cbn in E.
  rewrite <- app_assoc in Hnd. cbn in Hnd. revert b Hnd E.
  induction a as [|z a IH]; intros [|z' b] Hnd E; cbn in *; simplify_eq; [done| | |].
  - apply NoDup_cons in Hnd as [Hn _]. destruct Hn. rewrite fmap_app, elem_of_app. right. cbn. rewrite Hy. by left.
  - apply NoDup_cons in Hnd as [Hn _]. destruct Hn. rewrite fmap_app, elem_of_app. right. cbn. rewrite <- Hy. by left.
  - apply NoDup_cons in Hnd as [_ Hnd]. by eapply IH.
Qed.

Section LogSpec.
Context `{Env} {T : Type} (db : ObjectDb T) (c : Oid -> ObjectReadResult)
        (I : T -> Prop) (F : ErrorCode -> Prop).
Context `{!LawfulDb db c I F}.
Hypothesis F_stop : forall e, budget_stop e -> F (code e).
Context (snapshot : Snapshot) (K : list Oid).

Let start := commit_oid snapshot.

Definition log_codes : list ErrorCode :=
  [UnsupportedHash; InvalidOid; InvalidArgument; MalformedObject].
Definition log_error (e : Error) : Prop := F (code e) \/ code e ∈ log_codes.

Lemma log_failure_error e : log_failure F e -> log_error e.
Proof. intros [|E]; [by left|right]. rewrite E. unfold log_codes. set_solver. Qed.

(** What a page lists: the commits within the bounds of a stretch [seg] of the
    walk, after the cursor's commit; the end of the walk or a further cursor. *)
Definition lists (opts : LogOptions) (l : list WalkedCommit) (page : LogPage) : Prop :=
  exists resume skipped seg later, log_resume snapshot opts = Ok resume /\
    l = skipped ++ seg ++ later /\ resumes_at resume skipped /\
    Forall2 (listed db c) (filter (in_bounds opts) seg) (lp_commits page) /\
    (length (lp_commits page) <= lo_limit opts)%nat /\
    match lp_next_cursor page with
    | None => later = []
    | Some cursor => exists lc, last (lp_commits page) = Some lc /\
        cursor = encode (log_cursor snapshot opts (lc_id lc))
    end.

Lemma finish_log_spec opts commits stopped :
  (stopped <> None -> commits <> []) ->
  hoare (on_store I) log_error (finish_log db opts snapshot commits stopped) (fun page =>
    lp_commits page = commits /\
    match lp_next_cursor page with
    | None => stopped = None
    | Some cursor => exists lc, last commits = Some lc /\ cursor = encode (log_cursor snapshot opts (lc_id lc))
    end).
Proof.
  intros Hne. unfold finish_log. destruct stopped as [l|]; cbn [andb].
  - rewrite bool_decide_eq_false_2 by (by apply Hne). destruct (last commits) as [lc|] eqn:El.
    + rewrite (proj2 (Nat.ltb_ge _ _) (length_log_cursor snapshot opts (lc_id lc))).
      intros [b t] Hw. cbn. destruct (spent b) as [[[o by_] p] q], (cache_spent b). split; [|done]. cbn. split; [done|]. by eexists.
    + apply last_None in El. destruct Hne; [done|done].
  - intros [b t] Hw. cbn. destruct (spent b) as [[[o by_] p] q], (cache_spent b). done.
Qed.

Section OnePage.
Context (opts : LogOptions) (fuel : nat).
Let meta := log_meta db c opts.
Hypothesis complete : complete_history meta start.
Hypothesis K_nodup : NoDup K.
Hypothesis K_covers : forall x m, meta x = Some m -> x ∈ K.
Hypothesis enough : (length K + sum_list_with (link_count meta) K < fuel)%nat.

Lemma log_run_spec dated s resume :
  walk_inv meta start dated [] s -> (0 < lo_limit opts)%nat ->
  (forall id, resume = Some id -> id ∈ wc_id <$> walk_order meta fuel s) ->
  hoare (on_store I) log_error (log_loop db opts fuel s resume (bool_decide (resume = None)) [])
    (fun '(commits, stopped, found) => found = true /\
      exists skipped rest, walk_order meta fuel s = skipped ++ rest /\ resumes_at resume skipped /\
        page_of db c opts rest [] (commits, stopped, true)).
Proof.
  intros Hi Hl Hnamed w Hw. destruct resume as [id|].
  - destruct (log_loop_seek db c I F F_stop opts start complete K K_covers _ fuel [] s id w Hi) as [Hr Hw1]; [cbn; lia|done..|].
    rewrite bool_decide_eq_false_2 by done. split; [|done].
    destruct (log_loop db opts fuel s (Some id) false [] w) as [[[[cs st] fnd]|e] w1]; cbn in Hr |- *; [|by apply log_failure_error].
    destruct fnd; [|by destruct Hr; apply Hnamed]. split; [done|].
    destruct Hr as (sk & x & rest & E & Hx & Hp). exists (sk ++ [x]), rest. split; [by rewrite <- app_assoc|].
    split; [by exists sk, x|done].
  - destruct (log_loop_found db c I F F_stop opts start complete K K_covers _ fuel [] s None [] w Hi) as [Hr Hw1]; [cbn; lia|done..|cbn; lia|].
    rewrite bool_decide_eq_true_2 by done. split; [|done].
    destruct (log_loop db opts fuel s None true [] w) as [[[[cs st] fnd]|e] w1]; cbn in Hr |- *; [|by apply log_failure_error].
    pose proof Hr as [-> _]. split; [done|]. by exists [], (walk_order meta fuel s).
Qed.

Lemma log_spec resume :
  log_resume snapshot opts = Ok resume ->
  (forall id, resume = Some id -> id ∈ wc_id <$> history_order meta (lo_order opts) fuel start) ->
  hoare (on_store I) log_error (log db opts fuel snapshot)
    (lists opts (history_order meta (lo_order opts) fuel start)).
Proof.
  intros Hres Hnamed. unfold log. eapply hoare_bind.
  { eapply hoare_conseq; [apply (ensure_sha1_spec db I F _ log_codes True); [unfold log_codes; set_solver..|done]| |intros ? Hx; exact Hx].
    intros e [He|[He _]]; [by left|by right]. }
  intros _ _. destruct (lo_limit opts =? 0)%nat eqn:El.
  { apply hoare_throw. right. unfold log_codes. cbn. set_solver. }
  apply Nat.eqb_neq in El. eapply hoare_bind; [apply hoare_check; intros e He; left; by apply F_stop|]. intros _ _.
  eapply (hoare_bind _ _ _ _ (fun r => r = resume)); [apply hoare_lift; by rewrite Hres|]. intros ? ->.
  assert (sum_list_with (link_count meta) K < fuel)%nat as Hf by lia.
  destruct (walk_start_inv meta start K complete K_nodup K_covers (lo_order opts) fuel Hf) as (s & Hs & Hi & _).
  eapply hoare_bind.
  { eapply hoare_conseq; [apply (walk_new_sim db c I F F_stop opts start complete K K_nodup K_covers fuel Hf)|by left|intros ? Hx; exact Hx]. }
  intros s' Hs'. fold meta in Hs'. rewrite Hs in Hs'. injection Hs' as <-.
  unfold history_order in Hnamed |- *. rewrite Hs in Hnamed |- *.
  eapply hoare_bind; [apply (log_run_spec _ _ _ Hi); [lia|done]|].
  intros [[commits stopped] found] [-> Hpage]. cbn [negb].
  destruct Hpage as (skipped & rest & HL & Hres' & _ & Hlen & new & seg & later & Hc & Hrest & Hnew & Hst).
  cbn in Hc. subst new. eapply hoare_post; [apply finish_log_spec; intros Hn; by destruct stopped|].
  intros page [Hcs Hcur]. exists resume, skipped, seg, later. rewrite HL, Hrest, Hcs. split_and!; try done.
  destruct (lp_next_cursor page); [done|]. by subst stopped.
Qed.

End OnePage.

(** A client that follows the cursors to the end, each call with a budget of
    its own; [None] when it does not reach the end. *)
Definition with_cursor (cursor : option bytes) (opts : LogOptions) : LogOptions :=
  mkLogOptions (lo_order opts) (lo_first_parent opts) (lo_since opts) (lo_until opts) (lo_limit opts) cursor.

Fixpoint log_all (pages fuel : nat) (opts : LogOptions) (budgets : nat -> Budget) (cursor : option bytes) (t : T)
  : option (Res (list LogCommit)) :=
  match pages with
  | O => None
  | S pages =>
      match log db (with_cursor cursor opts) fuel snapshot (budgets pages, t) with
      | (Err e, _) => Some (Err e)
      | (Ok page, (_, t)) =>
          match lp_next_cursor page with
          | None => Some (Ok (lp_commits page))
          | Some cursor =>
              match log_all pages fuel opts budgets (Some cursor) t with
              | Some (Ok commits) => Some (Ok (lp_commits page ++ commits))
              | r => r
              end
          end
      end
  end.

(** The commit a page ends with, in the walk. *)
Lemma page_last opts seg commits lc :
  Forall2 (listed db c) (filter (in_bounds opts) seg) commits -> last commits = Some lc ->
  exists seg1 x tail, seg = seg1 ++ x :: tail /\ wc_id x = lc_id lc /\ filter (in_bounds opts) tail = [].
Proof.
  revert commits. induction seg as [|x seg IH] using rev_ind; intros commits Hf Hl.
  { apply Forall2_nil_inv_l in Hf. by subst. }
  rewrite filter_app, filter_cons, filter_nil in Hf. destruct (decide (in_bounds opts x)) as [Hx|Hx].
  - apply Forall2_app_inv_l in Hf as (c1 & c2 & H1 & H2 & ->).
    apply Forall2_cons_inv_l in H2 as (lc' & c3 & (p & Hp & Hd) & Hn & ->). apply Forall2_nil_inv_l in Hn as ->.
    rewrite last_snoc in Hl. simplify_eq. exists seg, x, []. split; [done|]. split; [|done].
    symmetry. by eapply decode_log_commit_id.
  - rewrite app_nil_r in Hf.
    destruct (IH _ Hf Hl) as (seg1 & y & tail & -> & Hy & Ht). exists seg1, y, (tail ++ [x]). rewrite <- app_assoc.
    split; [done|]. split; [done|]. rewrite filter_app, Ht, filter_cons, decide_False by done. done.
Qed.

Section AllPages.
Context (opts : LogOptions) (fuel : nat).
Let meta := log_meta db c opts.
Hypothesis complete : complete_history meta start.
Hypothesis K_nodup : NoDup K.
Hypothesis K_covers : forall x m, meta x = Some m -> x ∈ K.
Hypothesis enough : (length K + sum_list_with (link_count meta) K < fuel)%nat.
Hypothesis start_wf : Oid_wf start.

Let l := history_order meta (lo_order opts) fuel start.

Lemma reachable_wf x : reachable meta start x -> Oid_wf x /\ oid_kind x = oid_kind start.
Proof.
  revert x. apply (rtc_ind_r (fun x => Oid_wf x /\ oid_kind x = oid_kind start)); [done|]. intros y z _ Hl [_ Hk].
  destruct Hl as (m & Hm & Hz). unfold meta, log_meta in Hm. destruct (c y) as [[[] p]|]; try done.
  destruct (parse_meta y p) as [m'|] eqn:Ep; [|done]. cbn in Hm. simplify_eq.
  apply cut_meta_parents in Hz. destruct (parse_meta_parents _ _ _ _ Ep Hz) as [Hzk Hzw]. split; [done|congruence].
Qed.

Lemma log_all_spec pages budgets cursor t resume skipped rest :
  log_resume snapshot (with_cursor cursor opts) = Ok resume ->
  l = skipped ++ rest -> resumes_at resume skipped ->
  (length (filter (in_bounds opts) rest) < pages)%nat -> I t ->
  exists r, log_all pages fuel opts budgets cursor t = Some r /\
    match r with
    | Ok commits => Forall2 (listed db c) (filter (in_bounds opts) rest) commits
    | Err e => log_error e
    end.
Proof.
  destruct (history_order_enumerates meta start K complete K_nodup K_covers (lo_order opts) fuel enough) as (Hnd & Hin & _).
  fold l in Hnd, Hin. revert cursor t resume skipped rest.
  induction pages as [|pages IH]; intros cursor t resume skipped rest Hres HL Hsk Hpages Ht; [lia|]. cbn [log_all].
  assert (Hnamed : forall id, resume = Some id -> id ∈ wc_id <$> l).
  { intros id ->. destruct Hsk as (sk & x & -> & <-). rewrite HL. apply list_elem_of_fmap_2. set_solver. }
  destruct (log_spec (with_cursor cursor opts) fuel complete K_nodup K_covers enough resume Hres Hnamed (budgets pages, t) Ht) as [Hout Ht1].
  destruct (log db (with_cursor cursor opts) fuel snapshot (budgets pages, t)) as [[page|e] [b t1]]; cbn in Hout, Ht1.
  2: { eexists. split; [done|]. done. }
  destruct Hout as (resume' & skipped' & seg & later & Hres' & HL' & Hsk' & Hlist & _ & Hcur).
  rewrite Hres in Hres'. injection Hres' as <-. change (l = skipped' ++ seg ++ later) in HL'.
  pose proof (resume_unique _ _ _ _ _ _ Hnd HL HL' Hsk Hsk') as ->.
  change (Forall2 (listed db c) (filter (in_bounds opts) seg) (lp_commits page)) in Hlist.
  destruct (lp_next_cursor page) as [cursor'|].
  2: { eexists. split; [done|]. subst later. by rewrite app_nil_r. }
  destruct Hcur as (lc & Hlast & ->).
  destruct (page_last opts seg _ lc Hlist Hlast) as (seg1 & x & tail & -> & Hx & Htail).
  assert (filter (in_bounds opts) (tail ++ later) = filter (in_bounds opts) later) as Hrest.
  { by rewrite filter_app, Htail. }
  assert (reachable meta start (wc_id x)) as Hxr. { apply Hin. rewrite HL', !fmap_app. set_solver. }
  destruct (reachable_wf _ Hxr) as [Hwf Hkind]. rewrite Hx in Hwf, Hkind.
  destruct (IH (Some (encode (log_cursor snapshot (with_cursor cursor opts) (lc_id lc)))) t1
    (Some (lc_id lc)) (skipped' ++ seg1 ++ [x]) (tail ++ later)) as (r & -> & Hr).
  - by apply log_cursor_resumes.
  - rewrite HL', <- !app_assoc. done.
  - exists (skipped' ++ seg1), x. by rewrite <- app_assoc.
  - rewrite Hrest. apply Forall2_length in Hlist. rewrite filter_app, length_app, Hlist in Hpages.
    destruct (lp_commits page); [done|]. cbn in Hpages. lia.
  - done.
  - destruct r as [commits|e]; eexists; (split; [done|]); [|done].
    rewrite Hrest in Hr. rewrite filter_app. by apply Forall2_app.
Qed.

(** C20. Following the cursors of the commit log is complete. Over a complete
    history, with any order, page size, time bounds and budgets per call, the
    calls end within one page per commit, and either one of them fails, with an
    error of the store, the budget or the options or on a malformed commit, and
    never because of a cursor, or the pages together list the decoded commits of
    the walk that lie within the time bounds, in the walk's order, each exactly
    once. *)
Theorem log_pages_cover_history pages budgets t :
  (length K < pages)%nat -> I t ->
  enumerates meta start l /\
  exists r, log_all pages fuel opts budgets None t = Some r /\
    match r with
    | Ok commits => Forall2 (listed db c) (filter (in_bounds opts) l) commits
    | Err e => log_error e
    end.
Proof.
  intros Hp Ht. pose proof (history_order_enumerates meta start K complete K_nodup K_covers (lo_order opts) fuel enough) as He.
  split; [exact He|]. apply (log_all_spec pages budgets None t None [] l); [done..| |done].
  eapply Nat.le_lt_trans; [apply length_filter|]. eapply Nat.le_lt_trans; [|exact Hp].
  rewrite <- (length_fmap wc_id). destruct He as (Hnd & Hin & _). apply NoDup_length_le; [exact Hnd|].
  intros x Hx. apply Hin in Hx. destruct (complete x Hx) as [m Hm]. by eapply K_covers.
Qed.

End AllPages.

End LogSpec.

(* ------------------------------------------------------------------ *)
(** ** Witnesses *)

Definition dated_snapshot : Snapshot := mkSnapshot (sample_id x04) (sample_id xff).
Definition small_budget (_ : nat) : Budget := Budget_new BudgetLimits_default None.

(** Four commits in pages of two, bounded above by the time 30. *)
Definition until_opts : LogOptions := mkLogOptions Chronological false None (Some 30%Z) 2 None.
Example pages_of_two :
  (fun r => fmap (li_time ∘ lc_committer) (default [] (res_ok r))) <$>
    @log_all quiet unit dated_db dated_snapshot 5 20 until_opts small_budget None tt
  = Some [30%Z; 20%Z; 10%Z].
Proof. vm_compute. reflexivity. Qed.
Example first_page_cursor :
  match fst (@log quiet unit dated_db until_opts 20 dated_snapshot (small_budget 0, tt)) with
  | Ok page => (length (lp_commits page), lp_truncated page, qs_stopped_by (lp_stats page))
  | Err _ => (0%nat, false, None)
  end = (2%nat, true, Some "limit"%string).
Proof. vm_compute. reflexivity. Qed.

Lemma until_complete :
  complete_history (log_meta dated_db (static_contents dated_store) until_opts) (sample_id x04).
Proof.
  apply (closed_complete _ [sample_id x04; sample_id x03; sample_id x02; sample_id x01]); [set_solver|].
  vm_compute. reflexivity.
Qed.
Lemma sample_id_wf b : Oid_wf (sample_id b).
Proof. split; [|done]. reflexivity. Qed.

Lemma log_pages_cover_history_witness :
  exists r, @log_all quiet unit dated_db dated_snapshot 5 20 until_opts small_budget None tt = Some r /\
    match r with
    | Ok commits => Forall2 (listed dated_db (static_contents dated_store))
        (filter (in_bounds until_opts)
           (history_order (log_meta dated_db (static_contents dated_store) until_opts) Chronological 20 (sample_id x04)))
        commits
    | Err e => log_error plain_failure e
    end.
Proof.
  refine (proj2 (@log_pages_cover_history quiet unit dated_db (static_contents dated_store) (fun _ => True) plain_failure _
    plain_stop dated_snapshot dated_ids until_opts 20 until_complete dated_ids_nodup (dated_ids_cover _) _ (sample_id_wf x04)
    5 small_budget tt _ _)).
  - vm_compute. lia.
  - vm_compute. lia.
  - done.
Defined.

Definition dated_merge : bytes := (dated_commit [sample_id x02; sample_id x03] "40").2.
Example dated_merge_zone :
  (fun lc => li_tz_offset_minutes (lc_committer lc)) <$> res_ok (decode_log_commit (sample_id x04) dated_merge false)
  = Some (Some (-90)%Z).
Proof. vm_compute. reflexivity. Qed.

Lemma log_commit_agrees_witness :
  match decode_log_commit (sample_id x04) dated_merge false, parse_meta (sample_id x04) dated_merge with
  | Ok lc, Ok m => lc_id lc = sample_id x04 /\ li_time (lc_committer lc) = cm_time m /\ lc_parents lc = cm_parents m
  | _, _ => False
  end.
Proof.
  destruct (decode_log_commit (sample_id x04) dated_merge false) as [lc|] eqn:El; [|by vm_compute in El].
  destruct (parse_meta (sample_id x04) dated_merge) as [m|] eqn:Em; [|by vm_compute in Em].
  by destruct (log_commit_agrees (sample_id x04) dated_merge false lc m El Em) as (H1 & H2 & H3 & _).
Defined.
