(* ===== verification/Btree.v ===== *)
(** * Ordered maps and stable sorting

    [BTreeMap] with byte-string keys, as the association list its iterator
    yields: keys strictly ascending. [slice::sort_by_key] is a stable sort. *)

From Stdlib Require Import NArith Lia Strings.Byte.
From stdpp Require Import prelude list sorting.
From S2P Require Import Prelude.

Section Btree.
Context {V : Type}.
Implicit Types (k : bytes) (v : V) (m : list (bytes * V)).

(** [get], [insert], [remove] and [entry(k).or_insert..]. *)
Fixpoint bt_get k m : option V :=
  match m with
  | [] => None
  | (k', v) :: m => if bytes_eqb k k' then Some v else bt_get k m
  end.
Fixpoint bt_insert k v m : list (bytes * V) :=
  match m with
  | [] => [(k, v)]
  | (k', v') :: m' =>
      match bytes_cmp k k' with
      | Lt => (k, v) :: m
      | Eq => (k, v) :: m'
      | Gt => (k', v') :: bt_insert k v m'
      end
  end.
Definition bt_remove k m : list (bytes * V) := filter (fun p => p.1 <> k) m.
Definition bt_entry k (f : option V -> V) m : list (bytes * V) := bt_insert k (f (bt_get k m)) m.

Definition bt_sorted m : Prop := StronglySorted bytes_lt m.*1.

Lemma bt_insert_keys k v m x : x ∈ (bt_insert k v m).*1 <-> x = k \/ x ∈ m.*1.
Proof.
  induction m as [|[k' v'] m IH]; cbn; [set_solver|].
  destruct (bytes_cmp k k') eqn:E; cbn; [apply bytes_cmp_eq in E as ->; set_solver|set_solver|]. set_solver.
Qed.

Lemma bt_insert_sorted k v m : bt_sorted m -> bt_sorted (bt_insert k v m).
Proof.
  unfold bt_sorted. induction m as [|[k' v'] m IH]; cbn; intros Hs; [by repeat constructor|].
  inversion Hs as [|? ? Hm Hk]; subst. destruct (bytes_cmp k k') eqn:E; cbn.
  - apply bytes_cmp_eq in E as ->. by constructor.
  - constructor; [done|]. constructor; [done|]. eapply Forall_impl; [apply Hk|]. intros x Hx. by eapply bytes_lt_trans.
  - constructor; [by apply IH|]. apply Forall_forall. intros x Hx. apply bt_insert_keys in Hx as [->|Hx].
    + unfold bytes_lt. rewrite bytes_cmp_antisym, E. done.
    + rewrite Forall_forall in Hk. by apply Hk.
Qed.

Lemma bt_get_insert k v m x :
  bt_sorted m -> bt_get x (bt_insert k v m) = if bytes_eqb x k then Some v else bt_get x m.
Proof.
  unfold bt_sorted. induction m as [|[k' v'] m IH]; cbn; intros Hs; [done|].
  inversion Hs as [|? ? Hm Hk]; subst. destruct (bytes_cmp k k') eqn:E; cbn.
  - apply bytes_cmp_eq in E as ->. by destruct (bytes_eqb x k').
  - done.
  - rewrite IH by done. unfold bytes_eqb. case_bool_decide as H1; [|done]. subst x. rewrite bool_decide_eq_false_2; [done|].
    intros ->. by rewrite bytes_cmp_refl in E.
Qed.

(** A key above all others goes to the end; the last one is updated there. *)
Lemma bt_insert_last k v m : Forall (fun x => bytes_lt x k) m.*1 -> bt_insert k v m = m ++ [(k, v)].
Proof.
  induction m as [|[k' v'] m IH]; cbn; intros Hm; [done|]. apply Forall_cons in Hm as [Hk Hm].
  unfold bytes_lt in Hk. rewrite bytes_cmp_antisym, Hk. cbn. by rewrite IH.
Qed.

Lemma bt_insert_again k v v0 m :
  Forall (fun x => bytes_lt x k) m.*1 -> bt_insert k v (m ++ [(k, v0)]) = m ++ [(k, v)].
Proof.
  induction m as [|[k' v'] m IH]; cbn; intros Hm; [by rewrite bytes_cmp_refl|]. apply Forall_cons in Hm as [Hk Hm].
  unfold bytes_lt in Hk. rewrite bytes_cmp_antisym, Hk. cbn. by rewrite IH.
Qed.

Lemma bt_get_last k v m : Forall (fun x => bytes_lt x k) m.*1 -> bt_get k (m ++ [(k, v)]) = Some v.
Proof.
  induction m as [|[k' v'] m IH]; cbn; intros Hm.
  - unfold bytes_eqb. by rewrite bool_decide_eq_true_2.
  - apply Forall_cons in Hm as [Hk Hm]. unfold bytes_eqb. rewrite bool_decide_eq_false_2; [by apply IH|].
    intros ->. by apply bytes_lt_irrefl in Hk.
Qed.

Lemma bt_get_above k m : Forall (fun x => bytes_lt x k) m.*1 -> bt_get k m = None.
Proof.
  induction m as [|[k' v'] m IH]; cbn; intros Hm; [done|]. apply Forall_cons in Hm as [Hk Hm].
  unfold bytes_eqb. rewrite bool_decide_eq_false_2; [by apply IH|]. intros ->. by apply bytes_lt_irrefl in Hk.
Qed.

Lemma bt_get_elem k v m : bt_sorted m -> (k, v) ∈ m <-> bt_get k m = Some v.
Proof.
  unfold bt_sorted. induction m as [|[k' v'] m IH]; cbn; intros Hs; [set_solver|].
  inversion Hs as [|? ? Hm Hk]; subst. rewrite elem_of_cons, IH by done. unfold bytes_eqb. case_bool_decide as E.
  - subst k'. split; [|intros [= ->]; by left]. intros [[= ->]|Hx]; [done|]. exfalso.
    apply IH in Hx; [|done]. rewrite Forall_forall in Hk. apply (bytes_lt_irrefl k), Hk, list_elem_of_fmap. by exists (k, v).
  - split; [intros [[= -> ->]|?]; done|by right].
Qed.

Lemma bt_remove_sorted k m : bt_sorted m -> bt_sorted (bt_remove k m).
Proof.
  unfold bt_sorted, bt_remove. induction m as [|[k' v'] m IH]; intros Hs; [constructor|]. rewrite filter_cons.
  inversion Hs as [|? ? Hm Hk]; subst. case_decide; cbn; [|by apply IH]. constructor; [by apply IH|].
  rewrite Forall_forall in Hk |- *. intros x Hx. apply list_elem_of_fmap in Hx as (p & -> & Hp).
  apply list_elem_of_filter in Hp as [_ Hp]. apply Hk. apply list_elem_of_fmap. by exists p.
Qed.

Lemma bt_get_remove k m x : bt_get x (bt_remove k m) = if bytes_eqb x k then None else bt_get x m.
Proof.
  unfold bt_remove. induction m as [|[k' v'] m IH]; [cbn; by destruct (bytes_eqb x k)|].
  rewrite filter_cons. destruct (decide ((k', v').1 <> k)) as [E|E]; cbn [bt_get fst] in *; rewrite IH; unfold bytes_eqb.
  - destruct (decide (x = k)) as [->|Hx]; [|by rewrite !(bool_decide_eq_false_2 (x = k))].
    rewrite (bool_decide_eq_false_2 (k = k')) by congruence. by rewrite bool_decide_eq_true_2.
  - assert (k' = k) as -> by (destruct (decide (k' = k)); [done|by destruct E]). by destruct (bool_decide (x = k)).
Qed.

End Btree.

(** ** [slice::sort_by] on a byte-string key *)

Section Sort.
Context {A : Type} (key : A -> bytes).

Fixpoint insert_by (x : A) (l : list A) : list A :=
  match l with
  | [] => [x]
  | y :: l' => if bytes_leb (key x) (key y) then x :: l else y :: insert_by x l'
  end.
Definition stable_sort (l : list A) : list A := foldr insert_by [] l.

Lemma bytes_leb_trans a b c : bytes_leb a b = true -> bytes_leb b c = true -> bytes_leb a c = true.
Proof.
  unfold bytes_leb. destruct (bytes_cmp a b) eqn:E1, (bytes_cmp b c) eqn:E2; try done; intros _ _.
  - apply bytes_cmp_eq in E1 as ->. by rewrite E2.
  - apply bytes_cmp_eq in E1 as ->. by rewrite E2.
  - apply bytes_cmp_eq in E2 as ->. by rewrite E1.
  - by rewrite (bytes_lt_trans a b c E1 E2).
Qed.

Definition key_le (x y : A) : Prop := bytes_leb (key x) (key y) = true.

Lemma insert_by_elem x l y : y ∈ insert_by x l <-> y = x \/ y ∈ l.
Proof. induction l as [|z l IH]; cbn; [set_solver|]. destruct (bytes_leb (key x) (key z)); set_solver. Qed.

Lemma insert_by_sorted x l : StronglySorted key_le l -> StronglySorted key_le (insert_by x l).
Proof.
  induction 1 as [|y l Hs IH Hy]; cbn; [by repeat constructor|].
  destruct (bytes_leb (key x) (key y)) eqn:E.
  - constructor; [by constructor|]. constructor; [done|]. eapply Forall_impl; [apply Hy|]. intros z Hz.
    by eapply bytes_leb_trans.
  - constructor; [done|]. apply Forall_forall. intros z Hz. apply insert_by_elem in Hz as [->|Hz].
    + unfold key_le, bytes_leb. apply bytes_leb_false in E. unfold bytes_lt in E. by rewrite E.
    + rewrite Forall_forall in Hy. by apply Hy.
Qed.

Lemma stable_sort_sorted l : StronglySorted key_le (stable_sort l).
Proof. induction l as [|x l IH]; cbn; [constructor|]. by apply insert_by_sorted. Qed.

Lemma insert_by_same x l : filter (fun y => key y = key x) (insert_by x l) = x :: filter (fun y => key y = key x) l.
Proof.
  induction l as [|y l IH]; cbn [insert_by]; [by rewrite filter_cons, decide_True|].
  destruct (bytes_leb (key x) (key y)) eqn:E; [by rewrite filter_cons, decide_True|].
  assert (key y <> key x) as Hne by (intros He; rewrite He in E; unfold bytes_leb in E; by rewrite bytes_cmp_refl in E).
  by rewrite !(filter_cons _ y), !decide_False.
Qed.

Lemma insert_by_other x l k : key x <> k -> filter (fun y => key y = k) (insert_by x l) = filter (fun y => key y = k) l.
Proof.
  intros Hx. induction l as [|y l IH]; cbn [insert_by]; [by rewrite filter_cons, decide_False|].
  destruct (bytes_leb (key x) (key y)); [by rewrite filter_cons, decide_False|]. rewrite !(filter_cons _ y). by rewrite IH.
Qed.

(** Elements with equal keys keep their order. *)
Lemma stable_sort_stable l k : filter (fun y => key y = k) (stable_sort l) = filter (fun y => key y = k) l.
Proof.
  induction l as [|x l IH]; [done|]. cbn [stable_sort foldr]. rewrite (filter_cons _ x). fold (stable_sort l). case_decide as E.
  - subst k. by rewrite insert_by_same, IH.
  - by rewrite insert_by_other, IH.
Qed.

End Sort.
