(* ===== verification/GitConfig.v ===== *)
(** * The configuration reader ([git_config.rs])

    The byte grammar of [.gitmodules]: section headers, entries, quoting,
    comments, continuation lines. The parser is a record with the bytes still
    to be read; its loops take fuel, and [parse] gives them enough for any
    input ([parse_total]). A file written by [print_config] reads back as it was
    meant ([parse_print]). *)

From Stdlib Require Import NArith ZArith Lia Strings.Byte Strings.String.
From stdpp Require Import prelude strings list.
From S2P Require Import Prelude.

Open Scope N_scope.

(** A visited key and its value; [None] is the implicit boolean. *)
Definition Visit : Type := bytes * option bytes.

(** [Parser]: [p_rest] is [input[position..]]. *)
Record Parser : Type := mkParser {
  p_rest : bytes;
  p_line : N;
  p_eof : bool;
  p_name : bytes;
  p_value : bytes;
  p_base_len : nat
}.
Definition Parser_new (input : bytes) : Parser := mkParser input 1 false [] [] 0.

Definition set_rest (r : bytes) (p : Parser) : Parser :=
  mkParser r (p_line p) (p_eof p) (p_name p) (p_value p) (p_base_len p).
Definition set_line (l : N) (p : Parser) : Parser :=
  mkParser (p_rest p) l (p_eof p) (p_name p) (p_value p) (p_base_len p).
Definition set_eof (p : Parser) : Parser :=
  mkParser (p_rest p) (p_line p) true (p_name p) (p_value p) (p_base_len p).
Definition set_name (n : bytes) (p : Parser) : Parser :=
  mkParser (p_rest p) (p_line p) (p_eof p) n (p_value p) (p_base_len p).
Definition set_value (v : bytes) (p : Parser) : Parser :=
  mkParser (p_rest p) (p_line p) (p_eof p) (p_name p) v (p_base_len p).
Definition set_base_len (n : nat) (p : Parser) : Parser :=
  mkParser (p_rest p) (p_line p) (p_eof p) (p_name p) (p_value p) n.

(** [u32::saturating_add(1)] and [saturating_sub(1)] on the line. *)
Definition line_up (p : Parser) : Parser := set_line (N.min (p_line p + 1) u32_max) p.
Definition line_down (p : Parser) : Parser := set_line (p_line p - 1) p.

(** [i16::from(byte as i8)] and [c as u8]. *)
Definition i8_of (b : byte) : Z :=
  if byteN b <? 128 then Z.of_N (byteN b) else (Z.of_N (byteN b) - 256)%Z.
Definition u8_of (c : Z) : byte := Nbyte (Z.to_N (c mod 256)).
(** [i16::from(b'x')]. *)
Definition ch (b : byte) : Z := Z.of_N (byteN b).
Definition c_is (c : Z) (b : byte) : bool := (c =? ch b)%Z.

Definition is_alpha (c : Z) : bool := ((97 <=? c) && (c <=? 122) || (65 <=? c) && (c <=? 90))%Z.
Definition is_key_char (c : Z) : bool := (is_alpha c || (48 <=? c) && (c <=? 57) || (c =? 45))%Z.
Definition is_space (c : Z) : bool := ((c =? 9) || (c =? 10) || (c =? 13) || (c =? 32))%Z.
Definition ascii_lower (b : byte) : byte :=
  if (65 <=? byteN b) && (byteN b <=? 90) then Nbyte (byteN b + 32) else b.
Definition c_string_len (l : bytes) : nat := default (length l) (position (beq x00) l).

(** [Parser::raw_char]: the byte [0xff] is the same as the end of the input. *)
Definition raw_char (rest : bytes) : Z * bytes :=
  match rest with
  | [] => ((-1)%Z, [])
  | b :: rest => (i8_of b, rest)
  end.

(** [Parser::next_char]. *)
Definition next_char (p : Parser) : Z * Parser :=
  let '(c, rest) := raw_char (p_rest p) in
  let '(c, rest) :=
    if c_is c x0d then
      let '(c', rest') := raw_char rest in
      if c_is c' x0a then (c', rest')
      else (ch x0d, if (c' =? -1)%Z then rest' else rest)
    else (c, rest) in
  let p := set_rest rest p in
  let p := if c_is c x0a then line_up p else p in
  if (c =? -1)%Z then (ch x0a, line_up (set_eof p)) else (c, p).

(** [Parser::parse_value]. The result is [false] for an error; [None] stands
    for a loop that ran out of fuel. *)
Fixpoint value_loop (fuel : nat) (quoted comment : bool) (trim_len : nat) (p : Parser)
  : option (bool * Parser) :=
  match fuel with
  | O => None
  | S fuel =>
      let '(c, p) := next_char p in
      if c_is c x0a then
        if quoted then Some (false, line_down p)
        else Some (true, if (trim_len =? 0)%nat then p else set_value (take trim_len (p_value p)) p)
      else if comment then value_loop fuel quoted comment trim_len p
      else if is_space c && negb quoted then
        let trim_len := if (trim_len =? 0)%nat then length (p_value p) else trim_len in
        let p := if bool_decide (p_value p = []) then p else set_value (p_value p ++ [u8_of c]) p in
        value_loop fuel quoted comment trim_len p
      else if negb quoted && (c_is c x3b || c_is c x23) then value_loop fuel quoted true trim_len p
      else if c_is c x5c then
        let '(c, p) := next_char p in
        if c_is c x0a then value_loop fuel quoted comment 0 p
        else
          let escaped :=
            if c_is c x74 then Some (ch x09)
            else if c_is c x62 then Some 8%Z
            else if c_is c x6e then Some (ch x0a)
            else if c_is c x5c || c_is c x22 then Some c
            else None in
          match escaped with
          | Some c => value_loop fuel quoted comment 0 (set_value (p_value p ++ [u8_of c]) p)
          | None => Some (false, p)
          end
      else if c_is c x22 then value_loop fuel (negb quoted) comment 0 p
      else value_loop fuel quoted comment 0 (set_value (p_value p ++ [u8_of c]) p)
  end.
Definition enough (p : Parser) : nat := S (S (length (p_rest p))).
Definition parse_value (p : Parser) : option (bool * Parser) :=
  value_loop (enough p) false false 0 (set_value [] p).

(** [Parser::parse_entry]: the key, the blanks, the value, the visit. *)
Fixpoint key_loop (fuel : nat) (p : Parser) : option (Z * Parser) :=
  match fuel with
  | O => None
  | S fuel =>
      let '(c, p) := next_char p in
      if p_eof p || negb (is_key_char c) then Some (c, p)
      else key_loop fuel (set_name (p_name p ++ [ascii_lower (u8_of c)]) p)
  end.
Fixpoint blank_loop (fuel : nat) (c : Z) (p : Parser) : option (Z * Parser) :=
  if c_is c x20 || c_is c x09 then
    match fuel with
    | O => None
    | S fuel => let '(c, p) := next_char p in blank_loop fuel c p
    end
  else Some (c, p).
Definition visit_of (has_value : bool) (p : Parser) : Visit :=
  (take (c_string_len (p_name p)) (p_name p),
   if has_value then Some (take (c_string_len (p_value p)) (p_value p)) else None).
Definition visited (has_value : bool) (p : Parser) : option Visit * Parser :=
  (Some (visit_of has_value p), line_up (line_down p)).
Definition parse_entry (p : Parser) : option (option Visit * Parser) :=
  '(c, p) ← key_loop (enough p) p;
  '(c, p) ← blank_loop (enough p) c p;
  if c_is c x0a then Some (visited false p)
  else if negb (c_is c x3d) then Some (None, p)
  else
    '(ok, p) ← parse_value p;
    Some (if ok : bool then visited true p else (None, p)).

(** [Parser::parse_quoted_subsection]. *)
Fixpoint space_loop (fuel : nat) (c : Z) (p : Parser) : option (option Z * Parser) :=
  match fuel with
  | O => None
  | S fuel =>
      if c_is c x0a then Some (None, line_down p)
      else
        let '(c, p) := next_char p in
        if is_space c then space_loop fuel c p else Some (Some c, p)
  end.
Fixpoint quote_loop (fuel : nat) (p : Parser) : option (bool * Parser) :=
  match fuel with
  | O => None
  | S fuel =>
      let '(c, p) := next_char p in
      if c_is c x0a then Some (false, line_down p)
      else if c_is c x22 then Some (true, p)
      else if c_is c x5c then
        let '(c, p) := next_char p in
        if c_is c x0a then Some (false, line_down p)
        else quote_loop fuel (set_name (p_name p ++ [u8_of c]) p)
      else quote_loop fuel (set_name (p_name p ++ [u8_of c]) p)
  end.
Definition parse_quoted_subsection (c : Z) (p : Parser) : option (bool * Parser) :=
  '(first, p) ← space_loop (enough p) c p;
  match first with
  | None => Some (false, p)
  | Some c =>
      if negb (c_is c x22) then Some (false, p)
      else
        let p := set_name (p_name p ++ [x2e]) p in
        '(ok, p) ← quote_loop (enough p) p;
        if ok : bool then
          let '(c, p) := next_char p in Some (c_is c x5d, p)
        else Some (false, p)
  end.

(** [Parser::parse_section_header]. *)
Fixpoint header_loop (fuel : nat) (p : Parser) : option (bool * Parser) :=
  match fuel with
  | O => None
  | S fuel =>
      let '(c, p) := next_char p in
      if p_eof p then Some (false, p)
      else if c_is c x5d then Some (true, p)
      else if is_space c then parse_quoted_subsection c p
      else if negb (is_key_char c) && negb (c_is c x2e) then Some (false, p)
      else header_loop fuel (set_name (p_name p ++ [ascii_lower (u8_of c)]) p)
  end.
Definition parse_section_header (p : Parser) : option (bool * Parser) := header_loop (enough p) p.

(** [Parser::parse]: the visits made, and the line of the error if there is
    one. *)
Fixpoint parse_loop (fuel : nat) (comment : bool) (p : Parser) (vs : list Visit)
  : option (list Visit * result N unit) :=
  match fuel with
  | O => None
  | S fuel =>
      let '(c, p) := next_char p in
      if c_is c x0a then
        if p_eof p then Some (vs, Ok tt) else parse_loop fuel false p vs
      else if comment then parse_loop fuel comment p vs
      else if is_space c then parse_loop fuel comment p vs
      else if c_is c x23 || c_is c x3b then parse_loop fuel true p vs
      else if c_is c x5b then
        '(ok, p) ← parse_section_header (set_name [] p);
        if negb ok || bool_decide (p_name p = []) then Some (vs, Err (p_line p))
        else
          let p := set_name (p_name p ++ [x2e]) p in
          parse_loop fuel comment (set_base_len (length (p_name p)) p) vs
      else if negb (is_alpha c) then Some (vs, Err (p_line p))
      else
        '(visit, p) ← parse_entry (set_name (take (p_base_len p) (p_name p) ++ [ascii_lower (u8_of c)]) p);
        match visit with
        | Some v => parse_loop fuel comment p (vs ++ [v])
        | None => Some (vs, Err (p_line p))
        end
  end.
Definition parse (input : bytes) : option (list Visit * result N unit) :=
  parse_loop (enough (Parser_new input)) false (Parser_new input) [].

(* ------------------------------------------------------------------ *)
(** ** Every loop ends *)

Ltac by_byte b := destruct b; vm_compute; first [reflexivity | congruence | intros; first [reflexivity | congruence]].

(** A character takes input, or it is the end of the input. *)
Lemma next_char_consumes p c p' :
  next_char p = (c, p') ->
  (length (p_rest p') < length (p_rest p))%nat \/
  (p_rest p = [] /\ c = ch x0a /\ p_eof p' = true /\ p_rest p' = []).
Proof.
  unfold next_char, raw_char. destruct (p_rest p) as [|b rest] eqn:E; cbn -[c_is Z.eqb].
  - replace (c_is (-1) x0d) with false by reflexivity. replace (c_is (-1) x0a) with false by reflexivity.
    cbn. intros [= <- <-]. right. done.
  - intros Hn. left. revert Hn. destruct (c_is (i8_of b) x0d).
    + destruct rest as [|b' rest']; repeat case_match; intros; simplify_eq; cbn; lia.
    + repeat case_match; intros; simplify_eq; cbn; lia.
Qed.

Lemma next_char_line p c p' :
  next_char p = (c, p') -> 1 <= p_line p -> 1 <= p_line p' /\ (c_is c x0a = true -> 2 <= p_line p').
Proof.
  unfold next_char, line_up, u32_max. intros Hn Hl. destruct (raw_char (p_rest p)) as [c0 r0].
  destruct (if c_is c0 x0d then _ else _) as [c1 r1]. destruct (c_is c1 x0a) eqn:E1, (Z.eqb_spec c1 (-1)); simplify_eq; cbn;
    (split; [lia|]); intros; try lia; congruence.
Qed.

(** What a piece of the parser leaves: no more input than before, and a line
    number of at least one. *)
Definition leaves (n : nat) (p' : Parser) : Prop := (length (p_rest p') <= n)%nat /\ 1 <= p_line p'.

Lemma next_char_leaves p c p' : next_char p = (c, p') -> 1 <= p_line p -> leaves (length (p_rest p)) p'.
Proof.
  intros Hn Hl. split; [|by eapply next_char_line]. destruct (next_char_consumes _ _ _ Hn) as [?|(H1 & _ & _ & H2)]; [lia|].
  by rewrite H1, H2.
Qed.

Lemma leaves_le n m p : leaves n p -> (n <= m)%nat -> leaves m p.
Proof. intros [? ?] ?. split; [lia|done]. Qed.

Lemma line_down_leaves n c p p' :
  next_char p = (c, p') -> 1 <= p_line p -> c_is c x0a = true -> (length (p_rest p) <= n)%nat -> leaves n (line_down p').
Proof.
  intros Hn Hl Hc Hle. destruct (next_char_leaves _ _ _ Hn Hl) as [H1 _]. apply next_char_line in Hn as [_ H2]; [|done].
  specialize (H2 Hc). split; cbn; lia.
Qed.

(** One turn of a loop: a character that is not the end of the line leaves
    less input. *)
Lemma next_char_turn p c p' :
  next_char p = (c, p') -> 1 <= p_line p -> c_is c x0a = false ->
  (length (p_rest p') < length (p_rest p))%nat /\ 1 <= p_line p'.
Proof.
  intros Hn Hl Hc. destruct (next_char_leaves _ _ _ Hn Hl) as [_ H1]. split; [|done].
  destruct (next_char_consumes _ _ _ Hn) as [?|(_ & -> & _)]; [done|]. by vm_compute in Hc.
Qed.

Definition ends {A} (n : nat) (o : option (A * Parser)) : Prop := exists a p', o = Some (a, p') /\ leaves n p'.

Lemma ends_Some {A} n (a : A) p : leaves n p -> ends n (Some (a, p)).
Proof. intros H. by exists a, p. Qed.

Lemma ends_le {A} n m (o : option (A * Parser)) : ends n o -> (n <= m)%nat -> ends m o.
Proof. intros (a & p & -> & Hl) Hle. exists a, p. split; [done|by eapply leaves_le]. Qed.

Lemma ends_bind {A B} n (o : option (A * Parser)) (f : A * Parser -> option (B * Parser)) :
  ends n o -> (forall a p, leaves n p -> ends n (f (a, p))) -> ends n (o ≫= f).
Proof. intros (a & p & -> & Hl) Hf. by apply Hf. Qed.

Lemma set_value_leaves n v p : leaves n p -> leaves n (set_value v p).
Proof. done. Qed.
Lemma set_name_leaves n v p : leaves n p -> leaves n (set_name v p).
Proof. done. Qed.
#[local] Hint Resolve set_value_leaves set_name_leaves ends_Some : core.

Lemma value_loop_ends fuel quoted comment trim p :
  (length (p_rest p) < fuel)%nat -> 1 <= p_line p -> ends (length (p_rest p)) (value_loop fuel quoted comment trim p).
Proof.
  revert quoted comment trim p. induction fuel as [|fuel IH]; intros quoted comment trim p Hf Hl; [lia|]. cbn [value_loop].
  destruct (next_char p) as [c p1] eqn:E1. pose proof (next_char_leaves _ _ _ E1 Hl) as H1.
  destruct (c_is c x0a) eqn:Ec.
  { destruct quoted; [apply ends_Some; by eapply line_down_leaves|]. apply ends_Some. by destruct (trim =? 0)%nat. }
  destruct (next_char_turn _ _ _ E1 Hl Ec) as [Hlt Hl1].
  assert (Hgo : forall q cm t v, ends (length (p_rest p)) (value_loop fuel q cm t (set_value v p1))).
  { intros q cm t v. eapply ends_le; [apply IH; cbn; [lia|done]|cbn; lia]. }
  assert (Hgo' : forall q cm t, ends (length (p_rest p)) (value_loop fuel q cm t p1)).
  { intros q cm t. eapply ends_le; [apply IH; [lia|done]|lia]. }
  destruct comment; [done|]. destruct (is_space c && negb quoted); [by case_bool_decide|].
  destruct (negb quoted && _); [done|]. destruct (c_is c x5c); [|by destruct (c_is c x22)].
  destruct (next_char p1) as [c2 p2] eqn:E2. destruct (next_char_leaves _ _ _ E2 Hl1) as [H2 Hl2].
  assert (Hgo2 : forall q cm t v, ends (length (p_rest p)) (value_loop fuel q cm t (set_value v p2))).
  { intros q cm t v. eapply ends_le; [apply IH; cbn; [lia|done]|cbn; lia]. }
  destruct (c_is c2 x0a).
  { eapply ends_le; [apply IH; [lia|done]|lia]. }
  destruct (if c_is c2 x74 then _ else _); [done|]. apply ends_Some. split; [lia|done].
Qed.

Lemma parse_value_ends p : 1 <= p_line p -> ends (length (p_rest p)) (parse_value p).
Proof. intros Hl. apply (value_loop_ends _ _ _ _ (set_value [] p)); [unfold enough; cbn; lia|done]. Qed.

Lemma key_loop_ends fuel p :
  (length (p_rest p) < fuel)%nat -> 1 <= p_line p -> ends (length (p_rest p)) (key_loop fuel p).
Proof.
  revert p. induction fuel as [|fuel IH]; intros p Hf Hl; [lia|]. cbn [key_loop].
  destruct (next_char p) as [c p1] eqn:E1. pose proof (next_char_leaves _ _ _ E1 Hl) as [H1 Hl1].
  destruct (p_eof p1 || negb (is_key_char c)) eqn:Ek; [by apply ends_Some|].
  assert (c_is c x0a = false) as Ec.
  { apply orb_false_iff in Ek as [_ Ek]. destruct (c_is c x0a) eqn:Ec; [|done]. apply Z.eqb_eq in Ec. by rewrite Ec in Ek. }
  destruct (next_char_turn _ _ _ E1 Hl Ec) as [Hlt _].
  eapply ends_le; [apply IH; cbn; [lia|done]|cbn; lia].
Qed.

Lemma blank_loop_ends fuel c p :
  (length (p_rest p) < fuel)%nat -> 1 <= p_line p -> ends (length (p_rest p)) (blank_loop fuel c p).
Proof.
  revert c p. induction fuel as [|fuel IH]; intros c p Hf Hl; [lia|]. cbn [blank_loop].
  destruct (c_is c x20 || c_is c x09); [|apply ends_Some; by split].
  destruct (next_char p) as [c1 p1] eqn:E1. pose proof (next_char_leaves _ _ _ E1 Hl) as [H1 Hl1].
  destruct (next_char_consumes _ _ _ E1) as [?|(H2 & -> & _ & H3)].
  - eapply ends_le; [apply IH; [lia|done]|lia].
  - destruct fuel; cbn; apply ends_Some; by split; rewrite ?H2, ?H3.
Qed.

Lemma space_loop_ends fuel c p :
  (S (length (p_rest p)) < fuel)%nat -> 1 <= p_line p -> (c_is c x0a = true -> 2 <= p_line p) ->
  ends (length (p_rest p)) (space_loop fuel c p).
Proof.
  revert c p. induction fuel as [|fuel IH]; intros c p Hf Hl Hc; [lia|]. cbn [space_loop].
  destruct (c_is c x0a) eqn:Ec; [apply ends_Some; split; cbn; [lia|specialize (Hc eq_refl); lia]|].
  destruct (next_char p) as [c1 p1] eqn:E1. pose proof (next_char_leaves _ _ _ E1 Hl) as [H1 Hl1].
  destruct (is_space c1); [|apply ends_Some; by split].
  destruct (next_char_line _ _ _ E1 Hl) as [_ H2].
  destruct (next_char_consumes _ _ _ E1) as [?|(H3 & -> & _ & H4)].
  - eapply ends_le; [apply IH; [lia|done|done]|lia].
  - destruct fuel; [lia|]. cbn. apply ends_Some. split; cbn; [rewrite H3, H4; done|specialize (H2 eq_refl); lia].
Qed.

Lemma quote_loop_ends fuel p :
  (length (p_rest p) < fuel)%nat -> 1 <= p_line p -> ends (length (p_rest p)) (quote_loop fuel p).
Proof.
  revert p. induction fuel as [|fuel IH]; intros p Hf Hl; [lia|]. cbn [quote_loop].
  destruct (next_char p) as [c p1] eqn:E1. pose proof (next_char_leaves _ _ _ E1 Hl) as H1.
  destruct (c_is c x0a) eqn:Ec; [apply ends_Some; by eapply line_down_leaves|].
  destruct (next_char_turn _ _ _ E1 Hl Ec) as [Hlt Hl1].
  destruct (c_is c x22); [by apply ends_Some|]. destruct (c_is c x5c).
  - destruct (next_char p1) as [c2 p2] eqn:E2. destruct (next_char_leaves _ _ _ E2 Hl1) as [H2 Hl2].
    destruct (c_is c2 x0a) eqn:Ec2; [apply ends_Some; eapply line_down_leaves; [done|done|done|lia]|].
    eapply ends_le; [apply IH; cbn; [lia|done]|cbn; lia].
  - eapply ends_le; [apply IH; cbn; [lia|done]|cbn; lia].
Qed.

Lemma parse_entry_ends p : 1 <= p_line p -> ends (length (p_rest p)) (parse_entry p).
Proof.
  intros Hl. unfold parse_entry. apply ends_bind; [apply key_loop_ends; [unfold enough; lia|done]|]. intros c1 p1 [H1 Hl1].
  apply ends_bind; [eapply ends_le; [apply blank_loop_ends; [unfold enough; lia|done]|done]|]. intros c2 p2 [H2 Hl2].
  destruct (c_is c2 x0a); [apply ends_Some; split; cbn; [lia|unfold u32_max; lia]|].
  destruct (c_is c2 x3d); cbn [negb]; [|by apply ends_Some].
  apply ends_bind; [eapply ends_le; [by apply parse_value_ends|done]|]. intros ok p3 [H3 Hl3].
  destruct ok; apply ends_Some; [|by split]. split; cbn; [lia|unfold u32_max; lia].
Qed.

Lemma parse_quoted_subsection_ends c p :
  1 <= p_line p -> (c_is c x0a = true -> 2 <= p_line p) -> ends (length (p_rest p)) (parse_quoted_subsection c p).
Proof.
  intros Hl Hc. unfold parse_quoted_subsection.
  apply ends_bind; [apply space_loop_ends; [unfold enough; lia|done|done]|]. intros [c1|] p1 [H1 Hl1]; [|by apply ends_Some].
  destruct (c_is c1 x22); cbn [negb]; [|by apply ends_Some].
  apply ends_bind; [eapply ends_le; [apply quote_loop_ends; [unfold enough; cbn; lia|done]|done]|].
  intros ok p2 [H2 Hl2]. destruct ok; [|by apply ends_Some]. destruct (next_char p2) as [c3 p3] eqn:E3.
  apply ends_Some. eapply leaves_le; [by eapply next_char_leaves|done].
Qed.

Lemma header_loop_ends fuel p :
  (length (p_rest p) < fuel)%nat -> 1 <= p_line p -> ends (length (p_rest p)) (header_loop fuel p).
Proof.
  revert p. induction fuel as [|fuel IH]; intros p Hf Hl; [lia|]. cbn [header_loop].
  destruct (next_char p) as [c p1] eqn:E1. pose proof (next_char_leaves _ _ _ E1 Hl) as H1.
  destruct (p_eof p1); [by apply ends_Some|]. destruct (c_is c x5d); [by apply ends_Some|].
  destruct (next_char_line _ _ _ E1 Hl) as [Hl1 H2]. destruct (is_space c) eqn:Es.
  { eapply ends_le; [by apply parse_quoted_subsection_ends|apply H1]. }
  destruct (negb (is_key_char c) && _); [by apply ends_Some|].
  assert (c_is c x0a = false) as Ec.
  { destruct (c_is c x0a) eqn:Ec; [|done]. apply Z.eqb_eq in Ec. by rewrite Ec in Es. }
  destruct (next_char_turn _ _ _ E1 Hl Ec) as [Hlt _]. eapply ends_le; [apply IH; cbn; [lia|done]|cbn; lia].
Qed.

Lemma parse_loop_ends fuel comment p vs :
  (length (p_rest p) < fuel)%nat -> 1 <= p_line p ->
  exists vs' r, parse_loop fuel comment p vs = Some (vs', r) /\ match r with Ok _ => True | Err l => 1 <= l end.
Proof.
  revert comment p vs. induction fuel as [|fuel IH]; intros comment p vs Hf Hl; [lia|]. cbn [parse_loop].
  destruct (next_char p) as [c p1] eqn:E1. destruct (next_char_leaves _ _ _ E1 Hl) as [H1 Hl1].
  destruct (c_is c x0a) eqn:Ec.
  { destruct (p_eof p1) eqn:Ee; [by eexists _, _|].
    destruct (next_char_consumes _ _ _ E1) as [?|(_ & _ & ? & _)]; [|congruence]. apply IH; [lia|done]. }
  destruct (next_char_turn _ _ _ E1 Hl Ec) as [Hlt _].
  destruct comment; [apply IH; [lia|done]|]. destruct (is_space c); [apply IH; [lia|done]|].
  destruct (c_is c x23 || c_is c x3b); [apply IH; [lia|done]|]. destruct (c_is c x5b).
  - destruct (header_loop_ends (enough (set_name [] p1)) (set_name [] p1)) as (ok & p2 & Eh & [H2 Hl2]); [unfold enough; cbn; lia|done|].
    unfold parse_section_header. rewrite Eh. cbn. destruct (negb ok || _); [by eexists _, _|]. cbn in H2. apply IH; cbn; [lia|done].
  - destruct (is_alpha c); cbn [negb]; [|by eexists _, _].
    destruct (parse_entry_ends (set_name (take (p_base_len p1) (p_name p1) ++ [ascii_lower (u8_of c)]) p1)) as (v & p2 & Ee & [H2 Hl2]); [done|].
    rewrite Ee. cbn. destruct v; [|by eexists _, _]. cbn in H2. apply IH; [lia|done].
Qed.

Lemma parse_loop_mono n m comment p vs r :
  parse_loop n comment p vs = Some r -> (n <= m)%nat -> parse_loop m comment p vs = Some r.
Proof.
  revert m comment p vs. induction n as [|n IH]; intros [|m] comment p vs E Hle; try done; [lia|]. cbn [parse_loop] in *.
  assert (n <= m)%nat as Hle' by lia. destruct (next_char p) as [c p1].
  destruct (c_is c x0a); [destruct (p_eof p1); [done|by apply IH]|]. destruct comment; [by apply IH|].
  destruct (is_space c); [by apply IH|]. destruct (c_is c x23 || c_is c x3b); [by apply IH|]. destruct (c_is c x5b).
  - destruct (parse_section_header _) as [[ok p2]|]; [|done]. cbn in *. destruct (negb ok || _); [done|by apply IH].
  - destruct (is_alpha c); [|done]. destruct (parse_entry _) as [[[v|] p2]|]; cbn in *; [by apply IH|done|done].
Qed.

(** The reader returns on every input; an error names a line, from one. *)
Lemma parse_total input :
  exists vs r, parse input = Some (vs, r) /\ match r with Ok _ => True | Err l => 1 <= l end.
Proof.
  apply parse_loop_ends; [unfold enough; cbn; lia|done].
Qed.

(* ------------------------------------------------------------------ *)
(** ** Reading back what was written *)

(** The canonical form: quoted subsections and values. *)
Definition escape_byte (b : byte) : bytes :=
  match b with
  | x22 => [x5c; x22]
  | x5c => [x5c; x5c]
  | x0a => [x5c; x6e]
  | b => [b]
  end.
Definition escape (v : bytes) : bytes := v ≫= escape_byte.
Definition print_entry (e : bytes * bytes) : bytes :=
  x09 :: e.1 ++ bs " = " ++ x22 :: escape e.2 ++ [x22; x0a].
Record Section_ : Type := mkSection {
  s_name : bytes;
  s_sub : bytes;
  s_entries : list (bytes * bytes)
}.
Definition print_header (s : Section_) : bytes :=
  x5b :: s_name s ++ x20 :: x22 :: escape (s_sub s) ++ [x22; x5d; x0a].
Definition print_section (s : Section_) : bytes := print_header s ++ (s_entries s ≫= print_entry).
Definition print_config (ss : list Section_) : bytes := ss ≫= print_section.

(** The keys as the reader names them. *)
Definition prefix_of (s : Section_) : bytes := s_name s ++ x2e :: s_sub s ++ [x2e].
Definition section_visits (s : Section_) : list Visit :=
  (fun e => (prefix_of s ++ e.1, Some e.2)) <$> s_entries s.

(** Names are lower-case letters, digits and dashes; keys start with a letter;
    subsections hold no newline; nothing holds NUL or [0xff]. *)
Definition name_byte (b : byte) : bool := is_key_char (ch b) && beq (ascii_lower b) b.
Definition value_byte (b : byte) : bool := negb (beq b x00) && negb (beq b xff).
Definition sub_byte (b : byte) : bool := value_byte b && negb (beq b x0a).
Definition key_ok (k : bytes) : bool :=
  match k with
  | [] => false
  | b :: k => is_alpha (ch b) && beq (ascii_lower b) b && forallb name_byte k
  end.
Definition entry_ok (e : bytes * bytes) : bool := key_ok e.1 && forallb value_byte e.2.
Definition section_ok (s : Section_) : bool :=
  negb (bool_decide (s_name s = [])) && forallb name_byte (s_name s) && forallb sub_byte (s_sub s) &&
  forallb entry_ok (s_entries s).

(** A character that is neither a newline, a carriage return nor [0xff]. *)
Lemma next_char_plain p b rest :
  p_rest p = b :: rest -> b <> x0a -> b <> x0d -> b <> xff -> next_char p = (i8_of b, set_rest rest p).
Proof.
  intros Hr H1 H2 H3. unfold next_char. rewrite Hr. cbn -[c_is Z.eqb i8_of].
  assert (c_is (i8_of b) x0d = false) as -> by (clear -H2; by_byte b).
  assert (c_is (i8_of b) x0a = false) as -> by (clear -H1; by_byte b).
  assert ((i8_of b =? -1)%Z = false) as -> by (clear -H3; by_byte b). done.
Qed.

Lemma next_char_cr p b rest :
  p_rest p = x0d :: b :: rest -> b <> x0a -> b <> xff -> next_char p = (ch x0d, set_rest (b :: rest) p).
Proof.
  intros Hr H1 H2. unfold next_char. rewrite Hr. cbn -[c_is Z.eqb i8_of].
  assert (c_is (i8_of b) x0a = false) as Hb by (clear -H1; by_byte b).
  assert ((i8_of b =? -1)%Z = false) as Hb' by (clear -H2; by_byte b).
  replace (c_is (i8_of x0d) x0d) with true by reflexivity. by rewrite Hb, Hb'.
Qed.

Lemma next_char_newline p rest :
  p_rest p = x0a :: rest -> next_char p = (ch x0a, line_up (set_rest rest p)).
Proof. intros Hr. unfold next_char. rewrite Hr. done. Qed.

Lemma u8_of_i8 b : u8_of (i8_of b) = b.
Proof. by_byte b. Qed.
Lemma c_is_i8 b k : byteN k <? 128 = true -> c_is (i8_of b) k = beq b k.
Proof.
  intros Hk. apply N.ltb_lt in Hk. apply eq_true_iff_eq. unfold c_is, ch, i8_of. rewrite Z.eqb_eq, beq_true.
  pose proof (byteN_lt b). destruct (N.ltb_spec (byteN b) 128); (split; [|intros ->; lia]); intros ?; apply byteN_inj; lia.
Qed.

(** What follows a byte in quotes: never a newline nor [0xff]. *)
Lemma escape_head v rest :
  forallb value_byte v = true -> exists b tl, escape v ++ x22 :: rest = b :: tl /\ b <> x0a /\ b <> xff.
Proof.
  destruct v as [|b v]; cbn; [by eexists _, _|]. intros Hv. apply andb_true_iff in Hv as [Hb _].
  destruct b; try discriminate Hb; by eexists _, _.
Qed.

(** One escaped byte. *)
Lemma next_char_quoted b v p rest :
  b <> x22 -> b <> x5c -> b <> x0a -> b <> xff -> forallb value_byte v = true ->
  p_rest p = b :: escape v ++ x22 :: rest -> next_char p = (i8_of b, set_rest (escape v ++ x22 :: rest) p).
Proof.
  intros H1 H2 H3 H4 Hv Hr. destruct (decide (b = x0d)) as [->|Hcr]; [|by apply next_char_plain].
  destruct (escape_head v rest Hv) as (b' & tl & E & Hb1 & Hb2). rewrite E in *. by apply next_char_cr.
Qed.

Lemma escape_plain b : b <> x22 -> b <> x5c -> b <> x0a -> escape_byte b = [b].
Proof. destruct b; done. Qed.

Lemma value_quoted v fuel p rest :
  forallb value_byte v = true -> p_rest p = escape v ++ x22 :: rest ->
  value_loop (length v + S fuel) true false 0 p
  = value_loop fuel false false 0 (set_value (p_value p ++ v) (set_rest rest p)).
Proof.
  revert p. induction v as [|b v IH]; intros p Hv Hr.
  - cbn [length Nat.add value_loop]. rewrite (next_char_plain p x22 rest) by done. by rewrite app_nil_r; destruct p.
  - cbn in Hv. apply andb_true_iff in Hv as [Hb Hv]. cbn [length Nat.add value_loop].
    assert (forall p', p_rest p' = escape v ++ x22 :: rest -> p_value p' = p_value p ++ [b] ->
              set_value (p_value p ++ b :: v) (set_rest rest p) = set_value (p_value p' ++ v) (set_rest rest p') ->
              value_loop (length v + S fuel) true false 0 p' =
              value_loop fuel false false 0 (set_value (p_value p ++ b :: v) (set_rest rest p))) as Hstep.
    { intros p' Hr' Hv' ->. by apply IH. }
    assert (Happ : (p_value p ++ [b]) ++ v = p_value p ++ b :: v) by (by rewrite <- app_assoc).
    change (escape (b :: v)) with (escape_byte b ++ escape v) in Hr. rewrite <- app_assoc in Hr.
    destruct (decide (b = x22 \/ b = x5c \/ b = x0a)) as [Hesc|Hplain].
    + destruct Hesc as [-> | [-> | ->]]; cbn [escape_byte app] in Hr;
        rewrite (next_char_plain p x5c _ Hr) by done; cbn -[value_loop next_char u8_of];
        (erewrite next_char_plain; [|reflexivity|done|done|done]); cbn -[value_loop];
        (apply Hstep; [done|done|by rewrite <- Happ]).
    + assert (b <> x22 /\ b <> x5c /\ b <> x0a) as (H1 & H2 & H3) by tauto. rewrite escape_plain in Hr by done.
      assert (b <> xff) as H4 by (intros ->; done).
      rewrite (next_char_quoted b v p rest) by done. rewrite !c_is_i8 by done.
      rewrite (proj2 (beq_false b x0a) H3), (proj2 (beq_false b x5c) H2), (proj2 (beq_false b x22) H1), andb_false_r, u8_of_i8.
      cbn -[value_loop]. apply Hstep; [done|done|by rewrite <- Happ].
Qed.

Lemma length_escape v : (length v <= length (escape v))%nat.
Proof.
  induction v as [|b v IH]; [done|]. change (escape (b :: v)) with (escape_byte b ++ escape v). rewrite length_app. cbn.
  assert (1 <= length (escape_byte b))%nat by (destruct b; cbn; lia). lia.
Qed.

Lemma parse_value_quoted v p rest :
  forallb value_byte v = true -> p_rest p = x20 :: x22 :: escape v ++ [x22; x0a] ++ rest ->
  parse_value p = Some (true, line_up (set_value v (set_rest rest p))).
Proof.
  intros Hv Hr. unfold parse_value.
  assert (exists n, enough p = S (S (length v + S (S n)))%nat) as [n ->].
  { exists (enough p - (length v + 4))%nat. unfold enough. rewrite Hr. cbn. rewrite !length_app. cbn.
    pose proof (length_escape v). lia. }
  cbn [value_loop]. rewrite (next_char_plain _ x20 (x22 :: escape v ++ [x22; x0a] ++ rest)) by done. cbn -[value_loop next_char].
  rewrite (next_char_plain _ x22 (escape v ++ [x22; x0a] ++ rest)) by done. cbn -[value_loop next_char].
  rewrite (value_quoted v _ _ (x0a :: rest)) by done. cbn [value_loop]. rewrite (next_char_newline _ rest) by done. by cbn.
Qed.

Lemma name_byte_char b : name_byte b = true -> is_key_char (i8_of b) = true /\ ascii_lower b = b /\ b <> x0a /\ b <> x0d /\ b <> xff.
Proof.
  unfold name_byte. rewrite andb_true_iff, beq_true. intros [H1 H2]. split; [|split; [done|]].
  - clear H2. revert H1. by_byte b.
  - split; [|split]; intros ->; done.
Qed.

Lemma key_loop_name k p rest :
  forallb name_byte k = true -> p_eof p = false -> p_rest p = k ++ x20 :: rest ->
  forall n, key_loop (length k + S n) p = Some (ch x20, set_name (p_name p ++ k) (set_rest rest p)).
Proof.
  revert p. induction k as [|b k IH]; intros p Hk He Hr n.
  - cbn [length Nat.add key_loop]. rewrite (next_char_plain p x20 rest) by done. cbn. rewrite He. cbn. rewrite app_nil_r.
    by destruct p.
  - cbn in Hk. apply andb_true_iff in Hk as [Hb Hk]. apply name_byte_char in Hb as (H1 & H2 & H3 & H4 & H5).
    cbn [length Nat.add key_loop]. rewrite (next_char_plain p b (k ++ x20 :: rest)) by done. cbn [p_eof set_rest].
    rewrite He, H1, u8_of_i8, H2. cbn [orb negb]. rewrite IH by done. cbn. by rewrite <- app_assoc.
Qed.

Lemma quote_loop_escaped v p rest :
  forallb sub_byte v = true -> p_rest p = escape v ++ x22 :: rest ->
  forall n, quote_loop (length v + S n) p = Some (true, set_name (p_name p ++ v) (set_rest rest p)).
Proof.
  revert p. induction v as [|b v IH]; intros p Hv Hr n.
  - cbn [length Nat.add quote_loop]. rewrite (next_char_plain p x22 rest) by done. cbn. by rewrite app_nil_r; destruct p.
  - cbn in Hv. apply andb_true_iff in Hv as [Hb Hv]. cbn [length Nat.add quote_loop].
    assert (forallb value_byte v = true) as Hv'.
    { rewrite forallb_forall in Hv |- *. intros x Hx. specialize (Hv x Hx). unfold sub_byte in Hv. by apply andb_true_iff in Hv as [? _]. }
    change (escape (b :: v)) with (escape_byte b ++ escape v) in Hr. rewrite <- app_assoc in Hr.
    destruct (decide (b = x22 \/ b = x5c)) as [[-> | ->]|Hp].
    1,2: cbn [escape_byte app] in Hr; rewrite (next_char_plain p x5c _ Hr) by done; cbn -[quote_loop next_char u8_of];
      (erewrite next_char_plain; [|reflexivity|done|done|done]); cbn -[quote_loop u8_of];
      (rewrite IH by done); cbn -[u8_of]; by rewrite <- app_assoc.
    assert (b <> x22 /\ b <> x5c /\ b <> x0a /\ b <> xff) as (H1 & H2 & H3 & H4).
    { repeat split; [tauto|tauto| |]; intros ->; done. }
    rewrite escape_plain in Hr by done. rewrite (next_char_quoted b v p rest) by done. rewrite !c_is_i8 by done.
    rewrite (proj2 (beq_false b x0a) H3), (proj2 (beq_false b x5c) H2), (proj2 (beq_false b x22) H1), u8_of_i8.
    cbn -[quote_loop]. rewrite IH by done. cbn. by rewrite <- app_assoc.
Qed.

Lemma header_quoted name sub p rest :
  forallb name_byte name = true -> forallb sub_byte sub = true -> p_eof p = false ->
  p_rest p = name ++ x20 :: x22 :: escape sub ++ x22 :: x5d :: rest ->
  forall n, (length (p_rest p) < n)%nat ->
  header_loop n p = Some (true, set_name (p_name p ++ name ++ x2e :: sub) (set_rest rest p)).
Proof.
  revert p. induction name as [|b name IH]; intros p Hn Hs He Hr n Hlt; (destruct n as [|n]; [lia|]); cbn [header_loop].
  - cbn [app] in Hr. rewrite (next_char_plain p x20 (x22 :: escape sub ++ x22 :: x5d :: rest)) by done. cbn -[parse_quoted_subsection].
    rewrite He. unfold parse_quoted_subsection, enough. cbn -[next_char quote_loop Nat.add].
    rewrite (next_char_plain _ x22 (escape sub ++ x22 :: x5d :: rest)) by done. cbn -[next_char quote_loop].
    pose proof (length_escape sub).
    replace (S (S (length (escape sub ++ x22 :: x5d :: rest)))) with (length sub + S (S (length (escape sub ++ x22 :: x5d :: rest)) - length sub))%nat
      by (rewrite length_app; cbn; lia).
    rewrite (quote_loop_escaped sub _ (x5d :: rest)) by done. cbn -[next_char].
    rewrite (next_char_plain _ x5d rest) by done. cbn. by rewrite <- app_assoc.
  - cbn in Hn. apply andb_true_iff in Hn as [Hb Hn]. apply name_byte_char in Hb as (H1 & H2 & H3 & H4 & H5).
    rewrite (next_char_plain p b (name ++ x20 :: x22 :: escape sub ++ x22 :: x5d :: rest)) by done. cbn [p_eof set_rest].
    assert (c_is (i8_of b) x5d = false /\ is_space (i8_of b) = false) as [-> ->].
    { clear -H1. split; revert H1; by_byte b. }
    rewrite He, H1, u8_of_i8, H2. cbn [orb andb negb]. rewrite IH; [|done|done|done|done|].
    + cbn. by rewrite <- !app_assoc.
    + rewrite Hr in Hlt. cbn in *. lia.
Qed.

(** ** Whole files *)

Definition parses (p : Parser) (vs : list Visit) (r : list Visit * result N unit) : Prop :=
  exists n, parse_loop n false p vs = Some r.

(** Blanks and newlines between entries. *)
Lemma parses_blank p b rest vs r :
  p_rest p = b :: rest -> b = x09 \/ b = x0a -> p_eof p = false ->
  (forall p', p_rest p' = rest -> p_eof p' = false -> p_name p' = p_name p -> p_base_len p' = p_base_len p -> parses p' vs r) ->
  parses p vs r.
Proof.
  intros Hr Hb He Hk. destruct Hb as [-> | ->].
  - destruct (Hk (set_rest rest p)) as [n E]; [done..|]. exists (S n). cbn [parse_loop].
    by rewrite (next_char_plain p x09 rest).
  - destruct (Hk (line_up (set_rest rest p))) as [n E]; [done..|]. exists (S n). cbn [parse_loop].
    rewrite (next_char_newline p rest) by done. cbn. by rewrite He.
Qed.

Lemma c_string_len_full l : forallb value_byte l = true -> take (c_string_len l) l = l.
Proof.
  intros Hl. unfold c_string_len. assert (position (beq x00) l = None) as ->; [|apply take_ge; done].
  apply position_None, Forall_forall. rewrite forallb_forall in Hl. intros b Hb. apply beq_false. intros <-.
  apply list_elem_of_In in Hb. by apply Hl in Hb.
Qed.

(** The reader is in the section whose keys start with [pre]. *)
Definition within (pre : bytes) (p : Parser) : Prop :=
  p_eof p = false /\ p_base_len p = length pre /\ take (length pre) (p_name p) = pre.

Lemma key_value_bytes k : key_ok k = true -> forallb value_byte k = true.
Proof.
  assert (forall b, is_key_char (ch b) = true -> value_byte b = true) as Hb by (intros b; by_byte b).
  destruct k as [|b k]; [done|]. cbn. rewrite !andb_true_iff. intros [[H1 _] Hk]. split.
  - apply Hb. unfold is_key_char. by rewrite H1.
  - rewrite forallb_forall in *. intros x Hx. apply Hb. specialize (Hk x Hx). unfold name_byte in Hk. by apply andb_true_iff in Hk as [? _].
Qed.

Lemma parse_entry_printed k v p rest :
  forallb name_byte k = true -> forallb value_byte v = true -> p_eof p = false ->
  p_rest p = k ++ bs " = " ++ x22 :: escape v ++ [x22; x0a] ++ rest ->
  parse_entry p = Some (visited true (line_up (set_value v (set_name (p_name p ++ k) (set_rest rest p))))).
Proof.
  intros Hk Hv He Hr. unfold parse_entry.
  replace (enough p) with (length k + S (enough p - S (length k)))%nat by (unfold enough; rewrite Hr, length_app; lia).
  rewrite (key_loop_name k p (x3d :: x20 :: x22 :: escape v ++ [x22; x0a] ++ rest)) by done. cbn -[next_char parse_value].
  rewrite (next_char_plain _ x3d (x20 :: x22 :: escape v ++ [x22; x0a] ++ rest)) by done. cbn -[next_char parse_value].
  by rewrite (parse_value_quoted v _ rest).
Qed.

Lemma parses_entry pre e p rest vs r :
  within pre p -> entry_ok e = true -> forallb value_byte pre = true -> p_rest p = print_entry e ++ rest ->
  (forall p', p_rest p' = rest -> within pre p' -> parses p' (vs ++ [(pre ++ e.1, Some e.2)]) r) ->
  parses p vs r.
Proof.
  destruct e as [k v]. intros (He & Hb & Hn) Hok Hpre Hr Hk. unfold entry_ok in Hok. cbn in Hok, Hk.
  apply andb_true_iff in Hok as [Hkey Hv]. pose proof (key_value_bytes k Hkey) as Hkb.
  unfold print_entry in Hr. cbn [fst snd app] in Hr. rewrite <- !app_assoc in Hr. cbn [app] in Hr. rewrite <- !app_assoc in Hr.
  eapply parses_blank; [exact Hr|by left|done|]. intros p1 Hr1 He1 Hn1 Hb1.
  destruct k as [|b k]; [done|]. cbn in Hkey. rewrite !andb_true_iff in Hkey. destruct Hkey as [[Ha Hl] Hk'].
  assert (i8_of b = ch b /\ b <> x0a /\ b <> x0d /\ b <> xff /\ is_space (ch b) = false /\ c_is (ch b) x0a = false /\
          c_is (ch b) x23 = false /\ c_is (ch b) x3b = false /\ c_is (ch b) x5b = false /\ u8_of (ch b) = b)
    as (E1 & E2 & E3 & E4 & E5 & E6 & E7 & E8 & E9 & E10).
  { clear -Ha. revert Ha. destruct b; vm_compute; intros; try congruence; repeat split; congruence. }
  set (q := set_name (pre ++ [b]) (set_rest (k ++ bs " = " ++ x22 :: escape v ++ [x22; x0a] ++ rest) p1)).
  destruct (Hk (line_up (line_down (line_up (set_value v (set_name (p_name q ++ k) (set_rest rest q))))))) as [n E].
  { done. }
  { split; [done|]. split; [cbn; congruence|]. cbn. rewrite <- app_assoc. by rewrite take_app_length. }
  exists (S n). cbn [parse_loop].
  rewrite (next_char_plain p1 b (k ++ bs " = " ++ x22 :: escape v ++ [x22; x0a] ++ rest)) by done.
  rewrite E1, E6, E5, E7, E8, E9, Ha, E10. cbn [orb negb p_base_len set_rest p_name]. rewrite Hb1, Hb, Hn1, Hn.
  apply beq_true in Hl. rewrite Hl. fold q. rewrite (parse_entry_printed k v q rest) by done. cbn [mbind option_bind visited].
  rewrite <- E. assert (p_name q ++ k = pre ++ b :: k) as Hname by (cbn; by rewrite <- app_assoc).
  unfold visit_of. cbn [p_name p_value line_up set_line set_value set_name]. rewrite Hname.
  rewrite !c_string_len_full; [done|done|]. by rewrite forallb_app, Hpre, Hkb.
Qed.

Lemma parses_entries pre es p rest vs r :
  within pre p -> forallb entry_ok es = true -> forallb value_byte pre = true -> p_rest p = (es ≫= print_entry) ++ rest ->
  (forall p', p_rest p' = rest -> p_eof p' = false -> parses p' (vs ++ ((fun e => (pre ++ e.1, Some e.2)) <$> es)) r) ->
  parses p vs r.
Proof.
  revert p vs. induction es as [|e es IH]; intros p vs Hw Hok Hpre Hr Hk.
  - apply Hk in Hr; [|by destruct Hw]. by rewrite app_nil_r in Hr.
  - cbn in Hok. apply andb_true_iff in Hok as [He Hes]. cbn in Hr. rewrite <- app_assoc in Hr.
    eapply parses_entry; [done|done|done|exact Hr|]. intros p' Hr' Hw'. eapply IH; [done|done|done|done|].
    intros p2 H2 He2. rewrite <- app_assoc. by apply Hk.
Qed.

Lemma name_value_bytes n : forallb name_byte n = true -> forallb value_byte n = true.
Proof.
  assert (forall b, name_byte b = true -> value_byte b = true) as Hb by (intros b; by_byte b).
  rewrite !forallb_forall. auto.
Qed.

Lemma sub_value_bytes n : forallb sub_byte n = true -> forallb value_byte n = true.
Proof. rewrite !forallb_forall. intros H b Hb. specialize (H b Hb). unfold sub_byte in H. by apply andb_true_iff in H as [? _]. Qed.

Lemma parses_section s p rest vs r :
  p_eof p = false -> section_ok s = true -> p_rest p = print_section s ++ rest ->
  (forall p', p_rest p' = rest -> p_eof p' = false -> parses p' (vs ++ section_visits s) r) -> parses p vs r.
Proof.
  destruct s as [name sub es]. intros He Hok Hr Hk. unfold section_ok in Hok. cbn [s_name s_sub s_entries] in *.
  rewrite !andb_true_iff in Hok. destruct Hok as [[[Hne Hn] Hs] Hes].
  unfold print_section, print_header in Hr. cbn [s_name s_sub s_entries] in Hr.
  repeat (rewrite <- !app_assoc in Hr; cbn [app] in Hr).
  set (rest' := x0a :: (es ≫= print_entry) ++ rest) in *.
  set (p1 := set_rest (name ++ x20 :: x22 :: escape sub ++ x22 :: x5d :: rest') p).
  set (pre := prefix_of (mkSection name sub es)).
  set (q := set_base_len (length pre) (set_name pre (set_rest rest' p1))).
  assert (parses q vs r) as [n E].
  { eapply parses_blank; [reflexivity|by right|done|]. intros p2 Hr2 He2 Hn2 Hb2.
    eapply (parses_entries pre es p2 rest); [|done| |done|by apply Hk].
    - split; [done|]. split; [done|]. rewrite Hn2. cbn. by apply take_ge.
    - unfold pre, prefix_of. cbn. rewrite forallb_app, (name_value_bytes _ Hn). cbn. by rewrite forallb_app, (sub_value_bytes _ Hs). }
  exists (S n). cbn [parse_loop]. rewrite (next_char_plain p x5b _ Hr) by done. fold p1.
  unfold parse_section_header.
  rewrite (header_quoted name sub (set_name [] p1) rest' Hn Hs); [|done|done|unfold enough; cbn; lia].
  replace (c_is (i8_of x5b) x0a) with false by reflexivity. replace (is_space (i8_of x5b)) with false by reflexivity.
  replace (c_is (i8_of x5b) x23) with false by reflexivity. replace (c_is (i8_of x5b) x3b) with false by reflexivity.
  replace (c_is (i8_of x5b) x5b) with true by reflexivity. cbn [orb mbind option_bind negb p_name set_name app].
  rewrite bool_decide_eq_false_2 by (intros H; by apply app_eq_nil in H as [-> _]).
  rewrite <- E. unfold q, pre, prefix_of. cbn. by rewrite <- app_assoc.
Qed.

Lemma parses_config ss p vs :
  p_eof p = false -> forallb section_ok ss = true -> p_rest p = print_config ss ->
  parses p vs (vs ++ (ss ≫= section_visits), Ok tt).
Proof.
  revert p vs. induction ss as [|s ss IH]; intros p vs He Hok Hr.
  - exists 1%nat. cbn [parse_loop]. unfold next_char. rewrite Hr. cbn. by rewrite app_nil_r.
  - cbn in Hok. apply andb_true_iff in Hok as [Hs Hss]. cbn in Hr.
    eapply parses_section; [done|done|exact Hr|]. intros p' Hr' He'. cbn. rewrite app_assoc. by apply IH.
Qed.

(** A printed file reads back as its entries, in order. *)
Lemma parse_print ss :
  forallb section_ok ss = true -> parse (print_config ss) = Some (ss ≫= section_visits, Ok tt).
Proof.
  intros Hok. destruct (parses_config ss (Parser_new (print_config ss)) [] eq_refl Hok eq_refl) as [n E].
  destruct (parse_total (print_config ss)) as (vs & r & Et & _). rewrite Et. unfold parse in Et.
  apply (parse_loop_mono _ (n + enough (Parser_new (print_config ss)))) in E; [|lia].
  apply (parse_loop_mono _ (n + enough (Parser_new (print_config ss)))) in Et; [|lia]. rewrite Et in E. injection E as -> ->. done.
Qed.
