(* ===== verification/Submodules.v ===== *)
(** * Submodules ([submodules.rs])

    Reading [.gitmodules], collecting the gitlinks of the snapshot and
    correlating the two. *)

From Stdlib Require Import NArith Lia Strings.Byte Strings.String.
From stdpp Require Import prelude gmap strings list sorting.
From S2P Require Import Prelude Errors Objects Budget Odb Decode Snapshot Pathspec Tree Btree GitConfig.

Open Scope N_scope.

Definition GITMODULES_PATH : bytes := bs ".gitmodules".
Definition MAX_GITMODULES_BYTES : N := 1048576.

(** [SubmoduleStatus], [Submodule], [Declaration], [PendingDeclaration]. *)
Inductive SubmoduleStatus : Type :=
| Active
| Undeclared
| Orphaned.
Record Submodule : Type := mkSubmodule {
  sm_name : option bytes;
  sm_path : bytes;
  sm_url : option bytes;
  sm_branch : option bytes;
  sm_commit_oid : option Oid;
  sm_status : SubmoduleStatus
}.
Record Declaration : Type := mkDeclaration {
  d_name : bytes;
  d_path : bytes;
  d_url : option bytes;
  d_branch : option bytes
}.
Record PendingDeclaration : Type := mkPending {
  pd_path : option bytes;
  pd_url : option bytes;
  pd_branch : option bytes
}.
Definition PendingDeclaration_default : PendingDeclaration := mkPending None None None.

(** Errors. *)
Definition name_gitmodules_error (e : Error) : Error :=
  if bool_decide (code e = MalformedObject \/ code e = ObjectTooLarge) then with_file Gitmodules e else e.
Definition malformed_gitmodules (m : string) : Error := with_file Gitmodules (Error_new MalformedObject m).
Definition missing_gitmodules (oid : Oid) : Error :=
  with_oid oid (Error_retryable MissingObject
    (".gitmodules blob " ++ oid_str oid ++ " is missing from the object store")).
Definition gitmodules_too_large : Error :=
  with_file Gitmodules (with_limit "max_gitmodules_bytes"
    (Error_new ObjectTooLarge "snapshot .gitmodules exceeds the dedicated 1 MiB config limit")).

(** [submodule_key]: the fields in the order they are tried. *)
Inductive Field : Type :=
| FPath
| FUrl
| FBranch.
#[export] Instance Field_eq_decision : EqDecision Field.
Proof. solve_decision. Defined.
Definition field_bytes (f : Field) : bytes :=
  match f with FPath => bs "path" | FUrl => bs "url" | FBranch => bs "branch" end.
Definition has_field (rest : bytes) (f : Field) : bool :=
  let suffix_len := (length (field_bytes f) + 1)%nat in
  (suffix_len <=? length rest)%nat
  && (match rest !! (length rest - suffix_len)%nat with Some b => beq b x2e | None => false end)
  && bytes_eqb (drop (length rest - length (field_bytes f)) rest) (field_bytes f).
Definition submodule_key (key : bytes) : option (bytes * Field) :=
  rest ← strip_prefix (bs "submodule.") key;
  f ← find (has_field rest) [FPath; FUrl; FBranch];
  Some (take (length rest - (length (field_bytes f) + 1)) rest, f).

(** [parse_declarations]: the callback, then the declarations with a path. *)
Definition set_field (f : Field) (v : option bytes) (d : PendingDeclaration) : PendingDeclaration :=
  match f with
  | FPath => mkPending v (pd_url d) (pd_branch d)
  | FUrl => mkPending (pd_path d) v (pd_branch d)
  | FBranch => mkPending (pd_path d) (pd_url d) v
  end.
Definition declare (m : list (bytes * PendingDeclaration)) (v : Visit) : list (bytes * PendingDeclaration) :=
  match submodule_key v.1 with
  | Some (name, f) => bt_entry name (fun d => set_field f v.2 (default PendingDeclaration_default d)) m
  | None => m
  end.
Definition declaration_of (p : bytes * PendingDeclaration) : option Declaration :=
  (fun path => mkDeclaration p.1 path (pd_url p.2) (pd_branch p.2)) <$> pd_path p.2.
Definition parse_declarations (payload : bytes) : Res (list Declaration) :=
  match parse payload with
  | Some (visits, Ok _) => Ok (omap declaration_of (foldl declare [] visits))
  | Some (_, Err line) =>
      Err (with_line line (with_reason "git_config_parse_error"
             (malformed_gitmodules "snapshot .gitmodules is malformed")))
  | None => Err (Error_new InternalError "out of fuel")
  end.

(** The rows of [submodules]. *)
Definition declared_row (d : Declaration) (commit : option Oid) : Submodule :=
  mkSubmodule (Some (d_name d)) (d_path d) (d_url d) (d_branch d) commit
    (match commit with Some _ => Active | None => Orphaned end).
Definition undeclared_row (p : bytes * Oid) : Submodule :=
  mkSubmodule None p.1 None None (Some p.2) Undeclared.
Fixpoint declared_rows (ds : list Declaration) (gitlinks : list (bytes * Oid)) : list Submodule * list (bytes * Oid) :=
  match ds with
  | [] => ([], gitlinks)
  | d :: ds =>
      let commit := bt_get (d_path d) gitlinks in
      let '(rows, gitlinks) := declared_rows ds (bt_remove (d_path d) gitlinks) in
      (declared_row d commit :: rows, gitlinks)
  end.
Definition correlate (ds : list Declaration) (gitlinks : list (bytes * Oid)) : list Submodule :=
  let '(rows, rest) := declared_rows ds gitlinks in
  stable_sort sm_path (rows ++ (undeclared_row <$> rest)).

Section Query.
Context `{Env, GixObject, GixGlob} {T : Type} (db : ObjectDb T).

(** [read_declarations]. *)
Definition read_declarations (root_entries : list OwnedTreeEntry) : DM T (list Declaration) :=
  match find (fun e => bytes_eqb (oe_name e) GITMODULES_PATH) root_entries with
  | None => sret []
  | Some entry =>
      if negb (bool_decide (oe_kind entry = KBlob)) then sret []
      else
        let! header := smap_err name_gitmodules_error (try_header db (oe_oid entry)) in
        let! header := slift (ok_or (missing_gitmodules (oe_oid entry)) header) in
        if negb (bool_decide (hdr_kind header = Blob)) then sret []
        else if MAX_GITMODULES_BYTES <? hdr_size header then sthrow gitmodules_too_large
        else
          let! found := smap_err name_gitmodules_error (try_find db (oe_oid entry)) in
          let! (kind, payload) := slift (ok_or (missing_gitmodules (oe_oid entry)) found) in
          if negb (bool_decide (kind = Blob)) then sret []
          else if MAX_GITMODULES_BYTES <? lenN payload then sthrow gitmodules_too_large
          else slift (parse_declarations payload)
  end.

(** [collect_gitlinks]: the stack of frames, top first. *)
Fixpoint gitlinks_loop (fuel : nat) (stack : list (list OwnedTreeEntry * bytes)) (links : list (bytes * Oid))
  : DM T (list (bytes * Oid)) :=
  match stack with
  | [] => sret links
  | (entries, prefix) :: stack =>
      match fuel with
      | O => sthrow walk_diverged
      | S fuel =>
          let! _ := on_budget check in
          match entries with
          | [] => gitlinks_loop fuel stack links
          | e :: entries =>
              let path := join_path prefix (oe_name e) in
              let stack := (entries, prefix) :: stack in
              match oe_kind e with
              | KTree =>
                  let! children := read_tree_entries_for_walk db (oe_oid e) true in
                  gitlinks_loop fuel ((children, path) :: stack) links
              | KGitlink =>
                  let! _ := on_budget charge_tree_entry in
                  gitlinks_loop fuel stack (bt_insert path (oe_oid e) links)
              | KBlob | KSymlink => gitlinks_loop fuel stack links
              end
          end
      end
  end.
Definition collect_gitlinks (fuel : nat) (root_entries : list OwnedTreeEntry) : DM T (list (bytes * Oid)) :=
  gitlinks_loop fuel [(root_entries, [])] [].

(** [submodules]. *)
Definition submodules (fuel : nat) (snapshot : Snapshot) : DM T (list Submodule) :=
  let! _ := slift (ensure_query_compatible db snapshot) in
  let! root_entries := read_tree_entries_for_walk db (snap_tree_oid snapshot) true in
  let! declarations := read_declarations root_entries in
  let! gitlinks := collect_gitlinks fuel root_entries in
  sret (correlate declarations gitlinks).

End Query.

(* ------------------------------------------------------------------ *)
(** ** The correlation *)

(** The rows at one path: the declarations of the path in name order, the first
    of which takes the gitlink; a gitlink nobody declares has its own row. *)
Definition rows_at (ds : list Declaration) (links : bytes -> option Oid) (path : bytes) : list Submodule :=
  let orphan d := mkSubmodule (Some (d_name d)) path (d_url d) (d_branch d) None Orphaned in
  match filter (fun d => d_path d = path) ds, links path with
  | [], Some oid => [mkSubmodule None path None None (Some oid) Undeclared]
  | d :: rest, Some oid => mkSubmodule (Some (d_name d)) path (d_url d) (d_branch d) (Some oid) Active :: (orphan <$> rest)
  | ds, None => orphan <$> ds
  end.

Lemma declared_rows_sorted ds links : bt_sorted links -> bt_sorted (declared_rows ds links).2.
Proof.
  revert links. induction ds as [|d ds IH]; intros links Hl; [done|]. cbn.
  pose proof (IH (bt_remove (d_path d) links) (bt_remove_sorted _ _ Hl)) as H. by destruct (declared_rows ds _).
Qed.

Lemma filter_undeclared links path :
  bt_sorted links ->
  filter (fun r => sm_path r = path) (undeclared_row <$> links)
  = match bt_get path links with Some oid => [undeclared_row (path, oid)] | None => [] end.
Proof.
  intros Hs. unfold bt_sorted in Hs. induction links as [|[k o] links IH]; [done|]. cbn [fmap list_fmap].
  rewrite filter_cons. inversion Hs as [|? ? Hl Hk]; subst. cbn [bt_get]. unfold bytes_eqb.
  change (sm_path (undeclared_row (k, o))) with k. case_decide as E.
  - subst k. rewrite bool_decide_eq_true_2 by done. f_equal. fold (fmap (M := list) undeclared_row links). rewrite IH by done.
    destruct (bt_get path links) as [o'|] eqn:E; [|done]. exfalso. apply bt_get_elem in E; [|done].
    rewrite Forall_forall in Hk. apply (bytes_lt_irrefl path), Hk. apply list_elem_of_fmap. by exists (path, o').
  - rewrite bool_decide_eq_false_2 by congruence. by apply IH.
Qed.

Lemma declared_rows_at ds links path :
  bt_sorted links ->
  filter (fun r => sm_path r = path) (declared_rows ds links).1 ++
  filter (fun r => sm_path r = path) (undeclared_row <$> (declared_rows ds links).2)
  = rows_at ds (fun k => bt_get k links) path.
Proof.
  revert links. induction ds as [|d ds IH]; intros links Hl.
  { cbn [declared_rows fst snd]. rewrite filter_undeclared by done. unfold rows_at. cbn. by destruct (bt_get path links). }
  specialize (IH (bt_remove (d_path d) links) (bt_remove_sorted _ _ Hl)). cbn [declared_rows].
  destruct (declared_rows ds (bt_remove (d_path d) links)) as [rows rest]. cbn [fst snd] in *.
  unfold rows_at in *. rewrite !filter_cons. change (sm_path (declared_row d _)) with (d_path d).
  rewrite bt_get_remove in IH. unfold bytes_eqb in IH. destruct (decide (d_path d = path)) as [E|E].
  - subst path. rewrite bool_decide_eq_true_2 in IH by done. cbn [app]. rewrite IH. unfold declared_row.
    by destruct (filter (fun d0 => d_path d0 = d_path d) ds), (bt_get (d_path d) links).
  - rewrite bool_decide_eq_false_2 in IH by congruence. by rewrite IH.
Qed.

Lemma correlate_rows ds links path :
  bt_sorted links -> filter (fun r => sm_path r = path) (correlate ds links) = rows_at ds (fun k => bt_get k links) path.
Proof.
  intros Hl. unfold correlate. pose proof (declared_rows_at ds links path Hl) as H.
  destruct (declared_rows ds links) as [rows rest]. rewrite stable_sort_stable, filter_app. exact H.
Qed.

Lemma correlate_sorted ds links : StronglySorted (key_le sm_path) (correlate ds links).
Proof. unfold correlate. destruct (declared_rows ds links). apply stable_sort_sorted. Qed.

(* ------------------------------------------------------------------ *)
(** ** What the settings of a [.gitmodules] declare *)

Lemma strip_prefix_app p l : strip_prefix p (p ++ l) = Some l.
Proof. by apply strip_prefix_Some. Qed.

Lemma reverse_last k (l : bytes) : (k <= length l)%nat -> reverse (drop (length l - k) l) = take k (reverse l).
Proof.
  intros Hk. rewrite <- (take_drop (length l - k) l) at 3. rewrite reverse_app, take_app_length'; [done|].
  rewrite length_reverse, length_drop. lia.
Qed.

Lemma has_field_app name f g : has_field (name ++ x2e :: field_bytes f) g = true <-> g = f.
Proof.
  unfold has_field. rewrite !andb_true_iff. split.
  - intros [[H1 _] H3]. apply Nat.leb_le in H1. unfold bytes_eqb in H3. apply bool_decide_eq_true_1 in H3.
    apply (f_equal reverse) in H3. rewrite reverse_last in H3 by lia. rewrite reverse_app, reverse_cons in H3.
    revert H3. clear H1. destruct f, g; cbn; try done; intros H3; by simplify_eq.
  - intros ->. rewrite length_app. cbn [length]. split; [split|].
    + apply Nat.leb_le. lia.
    + rewrite lookup_app_r by lia. replace (_ - _)%nat with 0%nat by lia. done.
    + replace (length name + S (length (field_bytes f)) - length (field_bytes f))%nat with (S (length name)) by lia.
      rewrite cons_middle, app_assoc. rewrite drop_app_length' by (rewrite length_app; cbn; lia).
      unfold bytes_eqb. by rewrite bool_decide_eq_true_2.
Qed.

Lemma submodule_key_printed name f :
  submodule_key (bs "submodule" ++ x2e :: name ++ [x2e] ++ field_bytes f) = Some (name, f).
Proof.
  unfold submodule_key. change (bs "submodule" ++ x2e :: name ++ [x2e] ++ field_bytes f)
    with (bs "submodule." ++ name ++ x2e :: field_bytes f).
  rewrite strip_prefix_app. cbn [mbind option_bind].
  assert (find (has_field (name ++ x2e :: field_bytes f)) [FPath; FUrl; FBranch] = Some f) as ->.
  { assert (forall g, has_field (name ++ x2e :: field_bytes f) g = bool_decide (g = f)) as Hg.
    { intros g. apply eq_true_iff_eq. by rewrite has_field_app, bool_decide_eq_true. }
    cbn [find]. rewrite !Hg. by destruct f. }
  cbn. rewrite length_app. cbn. do 2 f_equal. apply take_app_length'. lia.
Qed.

Lemma declare_sorted vs m : bt_sorted m -> bt_sorted (foldl declare m vs).
Proof.
  revert m. induction vs as [|v vs IH]; intros m Hm; [done|]. cbn. apply IH. unfold declare.
  destruct (submodule_key v.1) as [[name f]|]; [|done]. by apply bt_insert_sorted.
Qed.

Lemma declarations_sorted m : bt_sorted m -> StronglySorted bytes_lt (d_name <$> omap declaration_of m).
Proof.
  unfold bt_sorted. induction m as [|[name d] m IH]; intros Hs; [constructor|]. inversion Hs as [|? ? Hm Hk]; subst.
  change (omap declaration_of ((name, d) :: m)) with
    (match declaration_of (name, d) with Some e => e :: omap declaration_of m | None => omap declaration_of m end).
  unfold declaration_of at 1. cbn. destruct (pd_path d); cbn; [|by apply IH]. constructor; [by apply IH|].
  rewrite Forall_forall in Hk |- *. intros x Hx. apply list_elem_of_fmap in Hx as (e & -> & He).
  apply list_elem_of_omap in He as ([k d'] & Hd' & E). apply Hk. unfold declaration_of in E. cbn in E.
  destruct (pd_path d'); [|done]. injection E as <-. apply list_elem_of_fmap. by exists (k, d').
Qed.

(** The last setting of a field of a submodule, which may be without a value. *)
Definition field_key (name : bytes) (f : Field) : bytes := bs "submodule." ++ name ++ [x2e] ++ field_bytes f.
Definition field_value (visits : list Visit) (name : bytes) (f : Field) : option bytes :=
  v ← last (filter (fun v => v.1 = field_key name f) visits); v.2.

(** The declarations: in strictly ascending order of their names, exactly those
    whose last [path] has a value, each with its last [url] and [branch]. *)
Record declared (visits : list Visit) (ds : list Declaration) : Prop := {
  dc_order : StronglySorted bytes_lt (d_name <$> ds);
  dc_fields : forall d, d ∈ ds <->
    field_value visits (d_name d) FPath = Some (d_path d) /\
    field_value visits (d_name d) FUrl = d_url d /\
    field_value visits (d_name d) FBranch = d_branch d
}.

Lemma has_field_inv rest f : has_field rest f = true -> rest = take (length rest - (length (field_bytes f) + 1)) rest ++ x2e :: field_bytes f.
Proof.
  unfold has_field. set (n := length (field_bytes f)). rewrite !andb_true_iff. intros [[H1 H2] H3]. apply Nat.leb_le in H1.
  destruct (rest !! (length rest - (n + 1))%nat) as [b|] eqn:Eb; [|done]. apply beq_true in H2 as ->.
  unfold bytes_eqb in H3. apply bool_decide_eq_true_1 in H3. rewrite <- H3.
  rewrite <- (take_drop_middle rest _ _ Eb) at 1. f_equal. f_equal. f_equal. lia.
Qed.
Lemma submodule_key_iff key name f : submodule_key key = Some (name, f) <-> key = field_key name f.
Proof.
  split; [|intros ->; apply submodule_key_printed]. unfold submodule_key.
  destruct (strip_prefix _ key) as [rest|] eqn:Es; [|done]. apply strip_prefix_Some in Es as ->. cbn [mbind option_bind].
  destruct (find _ _) as [g|] eqn:Ef; [|done]. intros [= <- <-]. apply find_some in Ef as [_ Hf]. unfold field_key. f_equal.
  by apply has_field_inv.
Qed.

Lemma field_key_inj n g m f : field_key n g = field_key m f -> n = m /\ g = f.
Proof.
  intros E. pose proof (proj2 (submodule_key_iff _ n g) eq_refl) as H1. rewrite E in H1.
  rewrite (proj2 (submodule_key_iff _ m f) eq_refl) in H1. by injection H1 as -> ->.
Qed.

Definition pending_field (d : PendingDeclaration) (f : Field) : option bytes :=
  match f with FPath => pd_path d | FUrl => pd_url d | FBranch => pd_branch d end.
Lemma declare_fields vs name f :
  pending_field (default PendingDeclaration_default (bt_get name (foldl declare [] vs))) f = field_value vs name f.
Proof.
  unfold field_value. assert (bt_sorted (V := PendingDeclaration) []) as Hs by constructor.
  induction vs as [|v vs IH] using rev_ind; [by destruct f|].
  rewrite foldl_snoc, filter_app, filter_cons, filter_nil. unfold declare at 1. destruct (submodule_key v.1) as [[n g]|] eqn:Ek.
  - apply submodule_key_iff in Ek. unfold bt_entry. rewrite bt_get_insert by (by apply declare_sorted). unfold bytes_eqb.
    case_bool_decide as Hn; [subst n; destruct (decide (g = f)) as [->|Hg]|].
    + rewrite decide_True by done. rewrite last_snoc. cbn. by destruct f.
    + rewrite decide_False, app_nil_r.
      * etrans; [|exact IH]. cbn. by destruct (bt_get name _), f, g.
      * rewrite Ek. intros E. apply Hg. by apply field_key_inj in E as [_ ->].
    + rewrite decide_False, app_nil_r; [done|]. rewrite Ek. intros E. by apply field_key_inj in E as [-> _].
  - rewrite decide_False, app_nil_r; [done|]. intros E. apply submodule_key_iff in E. congruence.
Qed.

Lemma declared_by vs : declared vs (omap declaration_of (foldl declare [] vs)).
Proof.
  assert (bt_sorted (foldl declare [] vs)) as Hs by (apply declare_sorted; constructor).
  split; [by apply declarations_sorted|]. intros [name path url branch]. cbn. rewrite <- !declare_fields. rewrite list_elem_of_omap. split.
  - intros ([n d] & Hin & E). unfold declaration_of in E. cbn in E. apply bt_get_elem in Hin; [|done].
    destruct (pd_path d) eqn:Ep; [|done]. injection E as -> -> <- <-. rewrite Hin. cbn. done.
  - intros (Hp & Hu & Hb). destruct (bt_get name (foldl declare [] vs)) as [d|] eqn:Eg; [|done]. cbn in *.
    exists (name, d). split; [by apply bt_get_elem|]. unfold declaration_of. cbn. by rewrite Hp, Hu, Hb.
Qed.

(* ------------------------------------------------------------------ *)
(** ** The gitlinks of a tree *)

Section Spec.
Context `{Env, GixObject, GixGlob} {T : Type} (db : ObjectDb T) (c : Oid -> ObjectReadResult)
        (I : T -> Prop) (F : ErrorCode -> Prop).
Context `{!LawfulDb db c I F, !VerifiedHeaders db c I F}.
Hypothesis F_stop : forall e, budget_stop e -> F (code e).

Definition link (m : list (bytes * Oid)) (v : bytes * OwnedTreeEntry) : list (bytes * Oid) :=
  if bool_decide (oe_kind v.2 = KGitlink) then bt_insert v.1 (oe_oid v.2) m else m.
Definition gitlinks_of (vs : list (bytes * OwnedTreeEntry)) : list (bytes * Oid) := foldl link [] vs.

Lemma link_sorted vs m : bt_sorted m -> bt_sorted (foldl link m vs).
Proof.
  revert m. induction vs as [|v vs IH]; intros m Hm; [done|]. cbn. apply IH. unfold link. case_bool_decide; [|done].
  by apply bt_insert_sorted.
Qed.

(** The gitlink at a path. *)
Definition gitlink_at (vs : list (bytes * OwnedTreeEntry)) (path : bytes) : option Oid :=
  (fun v => oe_oid v.2) <$> last (filter (fun v => v.1 = path /\ oe_kind v.2 = KGitlink) vs).

Lemma gitlinks_of_get vs path : bt_get path (gitlinks_of vs) = gitlink_at vs path.
Proof.
  unfold gitlinks_of, gitlink_at. assert (bt_sorted (V := Oid) []) as Hs by constructor.
  induction vs as [|v vs IH] using rev_ind; [done|]. rewrite foldl_snoc, filter_app, filter_cons, filter_nil. unfold link at 1.
  case_bool_decide as Hk.
  - rewrite bt_get_insert by (by apply link_sorted). unfold bytes_eqb. destruct (decide (v.1 = path)) as [<-|Hne].
    + rewrite bool_decide_eq_true_2, decide_True by done. by rewrite last_snoc.
    + rewrite bool_decide_eq_false_2, decide_False by naive_solver. by rewrite app_nil_r.
  - rewrite decide_False by naive_solver. by rewrite app_nil_r.
Qed.

Definition query_failure (e : Error) : Prop := walk_failure F e.

Lemma gitlinks_loop_spec fuel stack links vs :
  stack_under db c stack vs -> (2 * length vs + length stack <= fuel)%nat ->
  hoare (on_store I) query_failure (gitlinks_loop db fuel stack links) (fun m => m = foldl link links vs).
Proof.
  revert stack links vs. induction fuel as [|fuel IH]; intros stack links vs Hs Hf;
    (destruct stack as [|[es prefix] stack]; [inversion Hs; subst; cbn; by apply hoare_ret|]); [cbn in Hf; lia|].
  inversion Hs as [|? ? ? vs1 vs2 Hb Hs2]; subst. cbn [gitlinks_loop].
  eapply hoare_bind; [apply hoare_check; intros e He; left; by apply F_stop|]. intros _ _.
  inversion Hb as [|e es' ? vs' Hk Hb'|e es' ? children va vb Hk Ht Hba Hbb]; subst.
  - cbn [app]. apply IH; [done|]. cbn in *. lia.
  - cbn [app foldl]. assert (stack_under db c ((es', prefix) :: stack) (vs' ++ vs2)) as Hnext by (by constructor).
    assert (2 * length (vs' ++ vs2) + length ((es', prefix) :: stack) <= fuel)%nat as Hfuel by (cbn in *; lia).
    unfold link at 2. cbn [snd fst]. destruct (oe_kind e); [by apply IH|done|by apply IH|].
    eapply hoare_bind; [apply hoare_charge_tree_entry; intros x Hx; left; by apply F_stop|]. intros _ _. by apply IH.
  - rewrite Hk. cbn [app foldl]. unfold link at 2. cbn [snd fst]. rewrite bool_decide_eq_false_2 by congruence.
    eapply hoare_bind; [by eapply read_for_walk_spec|]. intros r ->. apply IH.
    + rewrite <- app_assoc. constructor; [done|]. by constructor.
    + cbn in *. rewrite !length_app in *. lia.
Qed.

(** ** The declarations *)

(** What the root tree says of the declarations: nothing without a
    [.gitmodules] blob, else what the settings in its first 1 MiB declare, or the
    line at which they end. *)
Definition malformed_at (line : N) (e : Error) : Prop :=
  code e = MalformedObject /\ err_file e = Some Gitmodules /\ Errors.line e = Some line.
Definition declarations_in (root : list OwnedTreeEntry) (r : Res (list Declaration)) : Prop :=
  match find (fun e => bytes_eqb (oe_name e) GITMODULES_PATH) root with
  | Some (mkOwned _ _ oid KBlob) =>
      match c oid with
      | None => r = Err (missing_gitmodules oid)
      | Some (Blob, payload) =>
          if 1048576 <? lenN payload then r = Err gitmodules_too_large
          else match parse payload with
               | Some (visits, Ok _) => exists ds, r = Ok ds /\ declared visits ds
               | Some (_, Err line) => exists e, r = Err e /\ malformed_at line e
               | None => False
               end
      | Some _ => r = Ok []
      end
  | _ => r = Ok []
  end.

(** The errors of the query: those of the store and of a walk, and the one that
    the declarations have. *)
Definition submodules_failure (root : list OwnedTreeEntry) (e : Error) : Prop :=
  query_failure e \/ declarations_in root (Err e).

Lemma name_gitmodules_code e : code (name_gitmodules_error e) = code e.
Proof. unfold name_gitmodules_error. by case_bool_decide. Qed.

Lemma parse_declarations_spec payload : 
  match parse payload with
  | Some (visits, Ok _) => exists ds, parse_declarations payload = Ok ds /\ declared visits ds
  | Some (_, Err line) => exists e, parse_declarations payload = Err e /\ malformed_at line e
  | None => False
  end.
Proof.
  unfold parse_declarations. destruct (parse_total payload) as (vs & [[]|l] & -> & _).
  - eexists. split; [reflexivity|]. apply declared_by.
  - eexists. split; [reflexivity|]. done.
Qed.

Lemma read_declarations_spec root :
  hoare (on_store I) (submodules_failure root) (read_declarations db root) (fun ds => declarations_in root (Ok ds)).
Proof.
  assert (forall e, F (code e) -> submodules_failure root (name_gitmodules_error e)) as HF'.
  { intros e He. left. left. by rewrite name_gitmodules_code. }
  assert (forall e, declarations_in root (Err e) -> submodules_failure root e) as HD by (intros e He; by right).
  unfold read_declarations. unfold declarations_in in HD |- *. destruct (find _ root) as [[mode name oid kind]|]; [|by apply hoare_ret].
  cbn [oe_kind oe_oid]. destruct kind; cbn [negb bool_decide decide decide_rel]; try by apply hoare_ret.
  rewrite bool_decide_eq_true_2 by done. cbn [negb].
  eapply hoare_bind; [eapply hoare_map_err; [apply law_plain_header|exact HF']|]. intros h ->.
  destruct (c oid) as [[kind payload]|] eqn:Ec.
  2: { eapply (hoare_bind _ _ _ _ (fun _ => False)); [|done]. apply hoare_lift. by apply HD. }
  eapply (hoare_bind _ _ _ _ (fun h => h = header_of (kind, payload))); [by apply hoare_lift|]. intros h ->.
  cbn [header_of fst snd hdr_kind hdr_size]. destruct (decide (kind = Blob)) as [->|Hk].
  2: { rewrite bool_decide_eq_false_2 by done. cbn [negb]. apply hoare_ret. by destruct kind. }
  rewrite bool_decide_eq_true_2 by done. cbn [negb]. change MAX_GITMODULES_BYTES with 1048576 in *.
  destruct (1048576 <? lenN payload) eqn:El; [apply hoare_throw; by apply HD|].
  eapply hoare_bind; [eapply hoare_map_err; [apply law_find|exact HF']|]. intros v ->. rewrite Ec.
  eapply (hoare_bind _ _ _ _ (fun x => x = (Blob, payload))); [by apply hoare_lift|]. intros x ->.
  rewrite bool_decide_eq_true_2, El by done. cbn [negb]. apply hoare_lift. pose proof (parse_declarations_spec payload) as Hp.
  destruct (parse payload) as [[visits [[]|line]]|]; [| |done].
  - destruct Hp as (ds & -> & Hd). by exists ds.
  - destruct Hp as (e & -> & Hm). apply HD. by exists e.
Qed.

(** C33. [submodules] on a snapshot, over a store whose headers are those of
    its payloads: the rows come in ascending path order, and at each path they
    are the declarations of that path in name order, the first of which is
    [Active] with the commit of the gitlink there, if there is one, and all
    others [Orphaned]; a gitlink without a declaration has one [Undeclared] row.
    A submodule is declared when the last setting of its [path] in the root
    [.gitmodules] blob has a value, and has its last [url] and [branch]; the
    gitlinks are those of the whole tree. The query fails only with an error of
    the store or of a tree, or when [.gitmodules] is missing, larger than 1 MiB or
    malformed, with the line. *)
Theorem submodules_exact s root vs fuel w :
  ensure_query_compatible db s = Ok tt -> tree_of db c (snap_tree_oid s) = Ok root -> under db c root [] vs ->
  (2 * length vs + 1 <= fuel)%nat -> I w.2 ->
  I (submodules db fuel s w).2.2 /\
  match (submodules db fuel s w).1 with
  | Ok rows =>
      StronglySorted (key_le sm_path) rows /\
      exists ds, declarations_in root (Ok ds) /\
        forall path, filter (fun r => sm_path r = path) rows = rows_at ds (gitlink_at vs) path
  | Err e => submodules_failure root e
  end.
Proof.
  intros Hc Ht Hb Hf Hw.
  assert (hoare (on_store I) (submodules_failure root) (submodules db fuel s) (fun rows =>
    StronglySorted (key_le sm_path) rows /\ exists ds, declarations_in root (Ok ds) /\
      forall path, filter (fun r => sm_path r = path) rows = rows_at ds (gitlink_at vs) path)) as Hh.
  { unfold submodules. eapply (hoare_bind _ _ _ _ (fun _ => True)); [apply hoare_lift; by rewrite Hc|]. intros _ _.
    eapply hoare_bind; [eapply hoare_conseq; [by eapply read_for_walk_spec|intros e He; by left|intros r Hr; exact Hr]|].
    intros r ->. eapply hoare_bind; [apply read_declarations_spec|]. intros ds Hds.
    eapply hoare_bind.
    { eapply hoare_conseq; [|intros e He; left; exact He|intros m Hm; exact Hm].
      apply (gitlinks_loop_spec _ _ _ (vs ++ [])); [by repeat constructor|rewrite app_nil_r; cbn; lia]. }
    intros m ->. rewrite app_nil_r. apply hoare_ret. split; [apply correlate_sorted|]. exists ds. split; [done|]. intros path.
    rewrite correlate_rows by (apply link_sorted; constructor). unfold rows_at.
    change (bt_get path (foldl link [] vs)) with (bt_get path (gitlinks_of vs)). by rewrite gitlinks_of_get. }
  destruct (Hh w Hw) as [Ho Hw']. split; [exact Hw'|]. by destruct (submodules db fuel s w).1.
Qed.

End Spec.

(* ------------------------------------------------------------------ *)
(** ** Reading back a written [.gitmodules] *)

Definition opt_entry (f : Field) (v : option bytes) : list (bytes * bytes) :=
  match v with Some v => [(field_bytes f, v)] | None => [] end.
Definition section_of (d : Declaration) : Section_ :=
  mkSection (bs "submodule") (d_name d)
    ((field_bytes FPath, d_path d) :: opt_entry FUrl (d_url d) ++ opt_entry FBranch (d_branch d)).
Definition print_gitmodules (ds : list Declaration) : bytes := print_config (section_of <$> ds).

Definition declaration_ok (d : Declaration) : bool :=
  forallb sub_byte (d_name d) && forallb value_byte (d_path d)
  && forallb value_byte (default [] (d_url d)) && forallb value_byte (default [] (d_branch d)).

Definition pending_of (d : Declaration) : PendingDeclaration := mkPending (Some (d_path d)) (d_url d) (d_branch d).

Lemma declare_field m d name f v :
  Forall (fun k => bytes_lt k name) m.*1 ->
  declare (m ++ [(name, d)]) (prefix_of (mkSection (bs "submodule") name []) ++ field_bytes f, Some v)
  = m ++ [(name, set_field f (Some v) d)].
Proof.
  intros Hm. unfold declare, prefix_of. cbn [fst snd s_name s_sub].
  rewrite <- app_assoc. cbn [app]. rewrite <- app_assoc. rewrite submodule_key_printed.
  unfold bt_entry. rewrite bt_get_last by done. cbn. by rewrite bt_insert_again.
Qed.

Lemma declare_first m name f v :
  Forall (fun k => bytes_lt k name) m.*1 ->
  declare m (prefix_of (mkSection (bs "submodule") name []) ++ field_bytes f, Some v)
  = m ++ [(name, set_field f (Some v) PendingDeclaration_default)].
Proof.
  intros Hm. unfold declare, prefix_of. cbn [fst snd s_name s_sub].
  rewrite <- app_assoc. cbn [app]. rewrite <- app_assoc. rewrite submodule_key_printed.
  unfold bt_entry. rewrite bt_get_above by done. cbn. by rewrite bt_insert_last.
Qed.

Lemma declare_section m d :
  Forall (fun k => bytes_lt k (d_name d)) m.*1 ->
  foldl declare m (section_visits (section_of d)) = m ++ [(d_name d, pending_of d)].
Proof.
  intros Hm. unfold section_visits. change (prefix_of (section_of d)) with (prefix_of (mkSection (bs "submodule") (d_name d) [])).
  destruct d as [name path url branch]. cbn [section_of s_entries d_name d_path d_url d_branch] in *.
  rewrite fmap_cons, fmap_app. cbn [foldl]. rewrite foldl_app. cbn [fst snd]. rewrite declare_first by done.
  destruct url, branch; cbn [opt_entry fmap list_fmap foldl fst snd]; rewrite ?declare_field by done; done.
Qed.

Lemma declare_all ds m :
  StronglySorted bytes_lt (m.*1 ++ (d_name <$> ds)) ->
  foldl declare m ((section_of <$> ds) ≫= section_visits) = m ++ ((fun d => (d_name d, pending_of d)) <$> ds).
Proof.
  revert m. induction ds as [|d ds IH]; intros m Hs; [by rewrite app_nil_r|].
  cbn [fmap list_fmap mbind list_bind]. rewrite foldl_app, declare_section.
  - rewrite IH; [by rewrite <- app_assoc|]. rewrite fmap_app. cbn. by rewrite <- app_assoc.
  - apply Forall_forall. intros k Hk. eapply StronglySorted_app_1_elem_of; [exact Hs|done|]. cbn. left.
Qed.

Lemma section_of_ok d : declaration_ok d = true -> section_ok (section_of d) = true.
Proof.
  unfold declaration_ok, section_ok. destruct d as [name path url branch]. cbn [d_name d_path d_url d_branch section_of s_name s_sub s_entries].
  rewrite !andb_true_iff. intros [[[Hn Hp] Hu] Hb]. split; [split; [done|done]|].
  cbn [forallb]. unfold entry_ok. cbn [fst snd]. rewrite Hp. destruct url, branch; cbn in *; rewrite ?Hu, ?Hb; done.
Qed.

(** C39. A written [.gitmodules] reads back: for declarations in strictly
    ascending name order whose names hold no newline and whose bytes are
    neither NUL nor [0xff], parsing the file that lists them gives exactly these
    declarations, whatever quotes, backslashes, spaces, comment signs, line
    breaks and carriage returns their names and values contain. *)
Theorem gitmodules_roundtrip ds :
  StronglySorted bytes_lt (d_name <$> ds) -> forallb declaration_ok ds = true ->
  parse_declarations (print_gitmodules ds) = Ok ds.
Proof.
  intros Hs Hok. unfold parse_declarations, print_gitmodules. rewrite parse_print.
  - rewrite (declare_all ds []) by done. f_equal. clear. cbn. induction ds as [|[name path url branch] ds IH]; [done|].
    cbn. by rewrite IH.
  - rewrite forallb_forall in Hok |- *. intros x Hx. apply list_elem_of_In, list_elem_of_fmap in Hx as (d & -> & Hd).
    by apply section_of_ok, Hok, list_elem_of_In.
Qed.

(** Reading [.gitmodules] always returns, on any bytes: either the
    declarations, in strictly ascending order of their names, or a
    [MalformedObject] error that names the file and a line counted from one. *)
Theorem gitmodules_always_read payload :
  (exists ds, parse_declarations payload = Ok ds /\ StronglySorted bytes_lt (d_name <$> ds)) \/
  (exists e n, parse_declarations payload = Err e /\ code e = MalformedObject /\
     err_file e = Some Gitmodules /\ line e = Some n /\ 1 <= n).
Proof.
  unfold parse_declarations. destruct (parse_total payload) as (vs & [[]|l] & -> & Hl).
  - left. eexists. split; [reflexivity|]. apply declarations_sorted, declare_sorted. constructor.
  - right. eexists _, l. split; [reflexivity|]. done.
Qed.

(* ------------------------------------------------------------------ *)
(** ** A sample repository *)

Definition sample_declarations : list Declaration :=
  [mkDeclaration (bs "a b") (bs "mod") (Some (bs "../x # y")) None; mkDeclaration (bs "c") (bs "mod") None None].
Definition sample_root : bytes :=
  tree_line "100644" ".gitmodules" (sample_id x31) ++ tree_line "160000" "mod" (sample_id x32)
  ++ tree_line "160000" "other" (sample_id x33).
Definition sample_repo : StaticOdb := mkStatic Sha1
  {[ sample_id x30 := (Tree, sample_root); sample_id x31 := (Blob, print_gitmodules sample_declarations) ]}.
Definition sample_db : ObjectDb unit := @static_db quiet unit sample_repo.
Definition sample_snapshot : Snapshot := mkSnapshot (sample_id x2f) (sample_id x30).
Definition sample_entries : list OwnedTreeEntry :=
  [mkOwned 33188 (bs ".gitmodules") (sample_id x31) KBlob; mkOwned 57344 (bs "mod") (sample_id x32) KGitlink;
   mkOwned 57344 (bs "other") (sample_id x33) KGitlink].
Definition sample_visits : list (bytes * OwnedTreeEntry) := (fun e => (oe_name e, e)) <$> sample_entries.
Definition sample_rows : list Submodule :=
  match (@submodules quiet simple_gix unit sample_db 20 sample_snapshot fresh_world).1 with
  | Ok rows => rows
  | Err _ => []
  end.

Example sample_statuses :
  (fun r => (sm_path r, sm_status r)) <$> sample_rows
  = [(bs "mod", Active); (bs "mod", Orphaned); (bs "other", Undeclared)].
Proof. vm_compute. reflexivity. Qed.

Lemma submodules_exact_witness :
  exists ds, declarations_in (static_contents sample_repo) sample_entries (Ok ds) /\
    filter (fun r => sm_path r = bs "mod") sample_rows = rows_at ds (gitlink_at sample_visits) (bs "mod").
Proof.
  assert (@tree_of simple_gix unit sample_db (static_contents sample_repo) (sample_id x30) = Ok sample_entries) as Ht
    by (vm_compute; reflexivity).
  assert (@under simple_gix unit sample_db (static_contents sample_repo) sample_entries [] sample_visits) as Hb.
  { repeat (apply under_leaf; [discriminate|]). constructor. }
  pose proof (@submodules_exact quiet simple_gix unit sample_db (static_contents sample_repo) (fun _ => True) plain_failure
    _ _ plain_stop sample_snapshot sample_entries sample_visits 20 fresh_world eq_refl Ht Hb ltac:(vm_compute; lia) Logic.I) as [_ H].
  unfold sample_rows. destruct (submodules _ _ _ _).1 as [rows|e] eqn:E; [|vm_compute in E; discriminate E].
  destruct H as (_ & ds & Hds & Hrows). exists ds. by split.
Defined.

Lemma gitmodules_roundtrip_witness :
  parse_declarations (print_gitmodules sample_declarations) = Ok sample_declarations.
Proof.
  apply gitmodules_roundtrip; [|vm_compute; reflexivity].
  cbn. constructor; [by repeat constructor|]. constructor; [vm_compute; reflexivity|constructor].
Defined.
