(* ===== verification/Scan.v ===== *)
(** * Scanning one blob ([search.rs])

    The byte-level half of content search: the compiled matcher, literal
    search in overlapped windows, line spans, the scan of a payload into
    fixed-size line records, and the lines shown for a record. The reference
    definitions work on the list of lines, without offsets. The byte searcher
    ([bstr]) and the regex engine are parameters. *)

From Stdlib Require Import NArith Lia Strings.Byte Strings.String.
From stdpp Require Import prelude gmap strings list pretty sorting.
From S2P Require Import Prelude Errors Objects Budget File.

Open Scope N_scope.

(** The limits of [search.rs]. *)
Definition BINARY_PROBE_BYTES : nat := N.to_nat 8000.
Definition PREVIEW_BYTES : nat := N.to_nat 1024.
Definition SCAN_CHECK_BYTES : nat := N.to_nat (64 * 1024).
Definition MAX_SUBMATCHES : nat := N.to_nat 256.
Definition REGEX_SIZE_LIMIT : N := 1024 * 1024.
Definition REGEX_DFA_SIZE_LIMIT : N := 2 * 1024 * 1024.
Definition MAX_CONTEXT_LINES : N := 32.

(** [SearchMode] and [SearchBinaryMode]. *)
Inductive SearchMode : Type :=
| MLiteral
| MRegex.
#[export] Instance SearchMode_eq_decision : EqDecision SearchMode.
Proof. solve_decision. Defined.

Inductive SearchBinaryMode : Type :=
| Skip
| Text.
#[export] Instance SearchBinaryMode_eq_decision : EqDecision SearchBinaryMode.
Proof. solve_decision. Defined.

(** [SearchOptions] and its default. *)
Record SearchOptions : Type := mkSearchOptions {
  so_mode : SearchMode;
  so_case_sensitive : bool;
  so_path : bytes;
  so_pathspecs : list bytes;
  so_binary : SearchBinaryMode;
  so_context_lines : N;
  so_limit : nat;
  so_max_result_bytes : N;
  so_cursor : option bytes
}.
Definition SearchOptions_default : SearchOptions :=
  mkSearchOptions MLiteral true [] [] Skip 0 1000 (8 * 1024 * 1024) None.

(** [SearchSubmatch], [ByteSpan], [CachedLineMatch] and [CachedScan]. *)
Record SearchSubmatch : Type := mkSubmatch { sub_start : N; sub_length : N }.

Record ByteSpan : Type := mkSpan { sp_start : N; sp_end : N }.

Record CachedLineMatch : Type := mkLineMatch {
  lm_line : N;
  lm_column : N;
  lm_preview : ByteSpan;
  lm_line_end : N;
  lm_context_before : option ByteSpan;
  lm_context_after : option ByteSpan
}.

Inductive CachedScan : Type :=
| Matches (matches : list CachedLineMatch)
| BinarySkipped
| OversizeSkipped.

(** [CachedScan::cache_weight]. *)
Definition cache_weight (s : CachedScan) : N :=
  match s with
  | Matches matches => N.max (N.min (lenN matches) u64_max) 1
  | BinarySkipped | OversizeSkipped => 1
  end.

(** [result_too_large] and [unsupported_regex]. *)
Definition search_too_large : Error :=
  with_limit "max_result_bytes"
    (Error_new ResultTooLarge "search match position exceeds the supported result range").
Definition unsupported_regex (reason : string) : Error :=
  with_reason reason (Error_new UnsupportedRegex "regular expression is unsupported").

(** [u32::try_from(n).map_err(|_| result_too_large())]. *)
Definition span_u32 (n : nat) : Res N :=
  if N.of_nat n <=? u32_max then Ok (N.of_nat n) else Err search_too_large.
(** [u32::try_from(n).unwrap_or(u32::MAX)]. *)
Definition u32_or_max (n : nat) : N := N.min (N.of_nat n) u32_max.

(** [ByteSpan::new] and [payload[span.range()]]. *)
Definition ByteSpan_new (start end_ : nat) : Res ByteSpan :=
  let? s := span_u32 start in
  let? e := span_u32 end_ in
  Ok (mkSpan s e).
Definition span_slice (payload : bytes) (s : ByteSpan) : bytes :=
  slice_of payload (N.to_nat (sp_start s)) (N.to_nat (sp_end s)).

(** [is_binary_payload]. *)
Definition is_binary_payload (payload : bytes) : bool :=
  existsb (beq x00) (take (Nat.min (length payload) BINARY_PROBE_BYTES) payload).

(* ------------------------------------------------------------------ *)
(** ** The searchers outside the repository *)

(** [needle] occurs in [hay] at offset [i]. *)
Definition occurs_at (hay needle : bytes) (i : nat) : bool := starts_with (drop i hay) needle.

(** [bstr]'s [find]: the index of the first occurrence of the needle. *)
Class ByteFind : Type := {
  bstr_find : bytes -> bytes -> option nat;
  bstr_find_Some : forall hay needle i, bstr_find hay needle = Some i ->
    occurs_at hay needle i = true /\ forall j, (j < i)%nat -> occurs_at hay needle j = false;
  bstr_find_None : forall hay needle, bstr_find hay needle = None ->
    forall j, occurs_at hay needle j = false
}.

(** What [RegexBuilder] is told. *)
Record RegexOptions : Type := mkRegexOptions {
  rx_unicode : bool;
  rx_case_insensitive : bool;
  rx_size_limit : N;
  rx_dfa_size_limit : N
}.

(** The [regex] crate over bytes. Documented: [find] is the leftmost match and
    so the first of [find_iter], whose matches are successive and do not
    overlap. *)
Class RegexEngine : Type := {
  Regex : Type;
  regex_build : bytes -> RegexOptions -> result string Regex;
  regex_find : Regex -> bytes -> option (nat * nat);
  regex_find_iter : Regex -> bytes -> list (nat * nat);
  regex_find_first : forall r line, regex_find r line = head (regex_find_iter r line);
  regex_in_range : forall r line,
    Forall (fun m => m.1 <= m.2 /\ m.2 <= length line)%nat (regex_find_iter r line);
  regex_successive : forall r line,
    StronglySorted (fun m n => m.2 <= n.1)%nat (regex_find_iter r line)
}.

(** [std::ops::ControlFlow]. *)
Inductive ControlFlow (B : Type) : Type :=
| Continue
| Break (b : B).
Arguments Continue {B}.
Arguments Break {B} b.

(** A loop that ran out of fuel; the theorems exclude it. *)
Definition scan_diverged : Error := Error_new InternalError "out of fuel".

(** [escaped_literal]: every byte as [\xHH]. *)
Definition hex_upper (n : N) : byte := Nbyte (if n <? 10 then 48 + n else 55 + n).
Definition escaped_literal (query : bytes) : bytes :=
  query ≫= (fun b => [x5c; x78; hex_upper (byteN b / 16); hex_upper (byteN b mod 16)]).

Section Matcher.
Context `{Env, ByteFind, RegexEngine}.

(** *** [literal_occurrences]

    [visit] is the closure with the state it captures. Offsets are within a
    slice, so the saturating additions of the source are additions. *)

Section Literal.
Context {B St : Type} (visit : nat * nat -> St -> ControlFlow B * St) (line query : bytes).

(** The inner loop over one window. *)
Fixpoint window_loop (fuel core_end window_end offset next_allowed : nat) (st : St)
  : option B * nat * St :=
  match fuel with
  | O => (None, next_allowed, st)
  | S fuel =>
      if (offset <=? window_end - length query)%nat then
        match bstr_find (slice_of line offset window_end) query with
        | None => (None, next_allowed, st)
        | Some relative =>
            let start := (offset + relative)%nat in
            if (core_end <=? start)%nat && (core_end <? length line)%nat then (None, next_allowed, st)
            else
              let end_ := (start + length query)%nat in
              match visit (start, end_) st with
              | (Break value, st) => (Some value, next_allowed, st)
              | (Continue, st) => window_loop fuel core_end window_end end_ end_ st
              end
        end
      else (None, next_allowed, st)
  end.

(** The outer loop over the windows. *)
Fixpoint windows_loop (fuel core_start next_allowed : nat) (st : St) : BM (option B * St) :=
  if (core_start <? length line)%nat then
    match fuel with
    | O => sthrow scan_diverged
    | S fuel =>
        let! _ := check in
        let core_end := Nat.min (core_start + SCAN_CHECK_BYTES) (length line) in
        let window_end := Nat.min (core_end + (length query - 1)) (length line) in
        let '(found, next_allowed, st) :=
          window_loop (S (length line)) core_end window_end (Nat.max next_allowed core_start)
            next_allowed st in
        match found with
        | Some value => sret (Some value, st)
        | None => windows_loop fuel core_end next_allowed st
        end
    end
  else sret (None, st).

Definition literal_occurrences (st : St) : BM (option B * St) :=
  if bool_decide (query = []) || (length line <? length query)%nat then
    let! _ := check in sret (None, st)
  else windows_loop (length line) 0 0 st.

End Literal.

(** *** [CompiledMatcher] *)

Inductive CompiledMatcher : Type :=
| CLiteral (query : bytes)
| CRegex (regex : Regex).

Definition compile (query : bytes) (opts : SearchOptions) : Res CompiledMatcher :=
  if bool_decide (so_mode opts = MLiteral) && so_case_sensitive opts then Ok (CLiteral query)
  else
    let? pattern := match so_mode opts with
                    | MLiteral => Ok (escaped_literal query)
                    | MRegex => if utf8_valid query then Ok query
                                else Err (unsupported_regex "regex pattern is not UTF-8")
                    end in
    match regex_build pattern
            (mkRegexOptions false (negb (so_case_sensitive opts)) REGEX_SIZE_LIMIT REGEX_DFA_SIZE_LIMIT) with
    | Ok regex => Ok (CRegex regex)
    | Err reason => Err (unsupported_regex reason)
    end.

(** [CompiledMatcher::first_occurrence]. *)
Definition first_occurrence (m : CompiledMatcher) (line : bytes) : BM (option (nat * nat)) :=
  match m with
  | CLiteral [] => sret (Some (0, 0)%nat)
  | CLiteral query =>
      let! (found, _) := literal_occurrences (fun found (_ : unit) => (Break found, tt)) line query tt in
      sret found
  | CRegex regex =>
      let! _ := check in
      sret (regex_find regex line)
  end.

(** The closure [retain] of [preview_submatches] over [submatches] and
    [truncated]. *)
Definition retain (preview_len : nat) (found : nat * nat) (st : list SearchSubmatch * bool)
  : ControlFlow unit * (list SearchSubmatch * bool) :=
  let '(start, end_) := found in
  let '(submatches, truncated) := st in
  if (preview_len <=? start)%nat || (length submatches =? MAX_SUBMATCHES)%nat then
    (Break tt, (submatches, true))
  else
    (Continue,
     (submatches ++ [mkSubmatch (u32_or_max start) (u32_or_max (Nat.min end_ preview_len - start))],
      truncated)).

(** The loop over [regex.find_iter]. *)
Fixpoint retain_loop (preview_len : nat) (found : list (nat * nat)) (st : list SearchSubmatch * bool)
  : BM (list SearchSubmatch * bool) :=
  match found with
  | [] => sret st
  | m :: found =>
      let! _ := check in
      match retain preview_len m st with
      | (Break _, st) => sret st
      | (Continue, st) => retain_loop preview_len found st
      end
  end.

(** [CompiledMatcher::preview_submatches]. *)
Definition preview_submatches (m : CompiledMatcher) (line : bytes) (preview_len : nat)
  : BM (list SearchSubmatch * bool) :=
  match m with
  | CLiteral [] =>
      let retained := Nat.min preview_len MAX_SUBMATCHES in
      sret ((fun start => mkSubmatch (N.of_nat start) 0) <$> seq 0 retained,
            (retained <? length line + 1)%nat)
  | CLiteral query =>
      let! (_, st) := literal_occurrences (retain preview_len) line query ([], false) in
      sret st
  | CRegex regex =>
      let! _ := check in
      retain_loop preview_len (regex_find_iter regex line) ([], false)
  end.

(** *** Lines *)

(** [line_spans]: the bytes of one chunk, then the loop over the chunks. *)
Fixpoint chunk_spans (chunk : bytes) (index start : nat) (spans : list (nat * nat))
  : nat * list (nat * nat) :=
  match chunk with
  | [] => (start, spans)
  | b :: chunk =>
      if beq b x0a then chunk_spans chunk (S index) (S index) (spans ++ [(start, index)])
      else chunk_spans chunk (S index) start spans
  end.
Fixpoint spans_loop (fuel : nat) (payload : bytes) (chunk_start start : nat)
  (spans : list (nat * nat)) : BM (nat * list (nat * nat)) :=
  if (chunk_start <? length payload)%nat then
    match fuel with
    | O => sthrow scan_diverged
    | S fuel =>
        let! _ := check in
        let chunk_end := Nat.min (chunk_start + SCAN_CHECK_BYTES) (length payload) in
        let '(start, spans) :=
          chunk_spans (slice_of payload chunk_start chunk_end) chunk_start start spans in
        spans_loop fuel payload chunk_end start spans
    end
  else sret (start, spans).
Definition line_spans (payload : bytes) : BM (list (nat * nat)) :=
  let! (start, spans) := spans_loop (length payload) payload 0 0 [] in
  sret (if (start <? length payload)%nat then spans ++ [(start, length payload)] else spans).

(** [(cond).then(|| ByteSpan::new(..)).transpose()?] with the indexing of
    [spans], which panics out of range. *)
Definition context_span (cond : bool) (spans : list (nat * nat)) (first last : nat)
  : Res (option ByteSpan) :=
  if cond then
    match spans !! first, spans !! last with
    | Some (s, _), Some (_, e) => let? sp := ByteSpan_new s e in Ok (Some sp)
    | _, _ => Err (Error_new InternalError "panic")
    end
  else Ok None.

(** The record of one matching line of [scan_payload]. *)
Definition line_record (spans : list (nat * nat)) (context index start end_ first_start : nat)
  : Res CachedLineMatch :=
  let preview_end := Nat.min (end_ - start) PREVIEW_BYTES in
  let before_start := (index - context)%nat in
  let after_end := Nat.min (index + 1 + context) (length spans) in
  let? line := span_u32 (index + 1) in
  let? column := span_u32 first_start in
  let? preview := ByteSpan_new start (start + preview_end) in
  let? line_end := span_u32 end_ in
  let? before := context_span (before_start <? index)%nat spans before_start (index - 1) in
  let? after := context_span (index + 1 <? after_end)%nat spans (index + 1) (after_end - 1) in
  Ok (mkLineMatch line column preview line_end before after).

(** [scan_payload]: the loop over the spans still to scan. *)
Fixpoint scan_loop (payload : bytes) (m : CompiledMatcher) (context : nat)
  (spans todo : list (nat * nat)) (index : nat) (results : list CachedLineMatch)
  : BM (list CachedLineMatch) :=
  match todo with
  | [] => sret results
  | (start, end_) :: todo =>
      let! _ := check in
      let! found := first_occurrence m (slice_of payload start end_) in
      match found with
      | None => scan_loop payload m context spans todo (S index) results
      | Some (first_start, _) =>
          let! r := slift (line_record spans context index start end_ first_start) in
          scan_loop payload m context spans todo (S index) (results ++ [r])
      end
  end.
Definition scan_payload (payload : bytes) (m : CompiledMatcher) (context_lines : N)
  : BM (list CachedLineMatch) :=
  let! spans := line_spans payload in
  scan_loop payload m (N.to_nat context_lines) spans spans 0 [].

(** [materialize_lines]. *)
Definition materialize_lines (payload : bytes) (span : option ByteSpan) : list bytes :=
  match span with
  | None => []
  | Some span => (fun line => take (Nat.min (length line) PREVIEW_BYTES) line)
                   <$> split_on is_newline (span_slice payload span)
  end.

End Matcher.

(* ------------------------------------------------------------------ *)
(** ** Reference definitions *)

(** The leftmost occurrences that do not overlap, of a needle that is not
    empty; [skip] bytes of the last one are still to be passed. *)
Fixpoint occurrences_from (query : bytes) (pos skip : nat) (l : bytes) : list (nat * nat) :=
  match l with
  | [] => []
  | _ :: l' =>
      match skip with
      | S skip => occurrences_from query (S pos) skip l'
      | O => if starts_with l query
             then (pos, pos + length query)%nat :: occurrences_from query (S pos) (length query - 1) l'
             else occurrences_from query (S pos) 0 l'
      end
  end.
Definition occurrences (query line : bytes) : list (nat * nat) := occurrences_from query 0 0 line.

(** A closure run over a list of occurrences until it breaks. *)
Fixpoint visit_all {B St} (visit : nat * nat -> St -> ControlFlow B * St) (os : list (nat * nat))
  (st : St) : option B * St :=
  match os with
  | [] => (None, st)
  | o :: os =>
      match visit o st with
      | (Break v, st) => (Some v, st)
      | (Continue, st) => visit_all visit os st
      end
  end.

(** The lines of a text: separated by newlines, without the empty piece after
    a final newline. *)
Definition text_lines (payload : bytes) : list bytes :=
  let pieces := split_on is_newline payload in
  if bool_decide (last pieces = Some []) then take (length pieces - 1) pieces else pieces.

Section Reference.
Context `{RegexEngine}.

(** All occurrences on a line; the empty literal occurs everywhere. *)
Definition all_occurrences (m : CompiledMatcher) (line : bytes) : list (nat * nat) :=
  match m with
  | CLiteral [] => (fun i => (i, i)) <$> seq 0 (S (length line))
  | CLiteral query => occurrences query line
  | CRegex regex => regex_find_iter regex line
  end.

(** The occurrences kept for a preview: those that begin in it, at most
    [MAX_SUBMATCHES], clamped to it. *)
Definition kept (preview_len : nat) (os : list (nat * nat)) : list (nat * nat) :=
  take MAX_SUBMATCHES (filter (fun o => o.1 < preview_len)%nat os).
Definition clamp (preview_len : nat) (o : nat * nat) : SearchSubmatch :=
  mkSubmatch (u32_or_max o.1) (u32_or_max (Nat.min o.2 preview_len - o.1)).

(** The matching lines from index [i]: the index of each and the start of its
    first occurrence. *)
Fixpoint hits_from (m : CompiledMatcher) (i : nat) (lines : list bytes) : list (nat * nat) :=
  match lines with
  | [] => []
  | line :: lines =>
      match head (all_occurrences m line) with
      | Some (column, _) => (i, column) :: hits_from m (S i) lines
      | None => hits_from m (S i) lines
      end
  end.
Definition hits (m : CompiledMatcher) (lines : list bytes) : list (nat * nat) := hits_from m 0 lines.

End Reference.

(** The shown part of a line. *)
Definition preview_of (line : bytes) : bytes := take PREVIEW_BYTES line.

(** What a record says of the line at index [i] of a payload, whose first
    occurrence starts at [column]. *)
Record describes (payload : bytes) (context : nat) (hit : nat * nat) (r : CachedLineMatch) : Prop := {
  ds_fits : N.of_nat hit.1 + 1 <= u32_max;
  ds_number : lm_line r = N.of_nat hit.1 + 1;
  ds_column : lm_column r = N.of_nat hit.2;
  ds_line : exists line, text_lines payload !! hit.1 = Some line /\
    span_slice payload (lm_preview r) = preview_of line /\
    span_slice payload (mkSpan (sp_start (lm_preview r)) (lm_line_end r)) = line /\
    (sp_end (lm_preview r) <? lm_line_end r) = (PREVIEW_BYTES <? length line)%nat;
  ds_before : materialize_lines payload (lm_context_before r) =
    preview_of <$> take (Nat.min context hit.1) (drop (hit.1 - context) (text_lines payload));
  ds_after : materialize_lines payload (lm_context_after r) =
    preview_of <$> take context (drop (hit.1 + 1) (text_lines payload))
}.

(** Why a check may stop a scan with the deadline [d]. *)
Definition stops `{Env} (d : option N) (e : Error) : Prop :=
  (e = cancelled_error /\ exists i, env_cancelled i = true) \/
  (e = timeout_error /\ exists i at_, d = Some at_ /\ at_ <= env_now i).

(** What a scan keeps of a budget. *)
Definition framed (d : option N) (l : BudgetLimits) (b : Budget) : Prop :=
  deadline b = d /\ limits b = l.

(* ------------------------------------------------------------------ *)
(** ** Literal search in windows *)

Lemma occurs_at_spec hay needle i :
  occurs_at hay needle i = true <-> take (length needle) (drop i hay) = needle.
Proof.
  unfold occurs_at. rewrite starts_with_true. split.
  - intros [r ->]. apply take_app_length.
  - intros E. exists (drop (length needle) (drop i hay)). rewrite <- E at 1. by rewrite take_drop.
Qed.

Lemma occurs_at_bound hay needle i :
  occurs_at hay needle i = true -> needle <> [] -> (i + length needle <= length hay)%nat.
Proof.
  rewrite occurs_at_spec. intros E Hne. assert (length needle <> 0)%nat by (by destruct needle).
  apply (f_equal length) in E. rewrite length_take, length_drop in E. lia.
Qed.

(** Occurrences inside a slice are those of the line that fit. *)
Lemma occurs_at_slice line needle a b j :
  needle <> [] -> (b <= length line)%nat ->
  occurs_at (slice_of line a b) needle j = true <->
  occurs_at line needle (a + j) = true /\ (a + j + length needle <= b)%nat.
Proof.
  intros Hne Hb. assert (length needle <> 0)%nat by (by destruct needle). split.
  - intros Ho. pose proof (occurs_at_bound _ _ _ Ho Hne) as Hl. unfold slice_of in Hl.
    rewrite length_take, length_drop in Hl. split; [|lia]. rewrite occurs_at_spec in *. unfold slice_of in Ho.
    rewrite <- Ho at 2. rewrite skipn_firstn_comm, take_take, drop_drop. f_equal. lia.
  - rewrite !occurs_at_spec. intros [Ho Hl]. unfold slice_of. rewrite skipn_firstn_comm, take_take, drop_drop.
    etransitivity; [|exact Ho]. f_equal. lia.
Qed.

(** The occurrences of a line from an offset. *)
Definition occs (query line : bytes) (p : nat) : list (nat * nat) :=
  occurrences_from query p 0 (drop p line).

Lemma occurrences_from_skip query pos k l :
  occurrences_from query pos k l = occurrences_from query (pos + k) 0 (drop k l).
Proof.
  revert pos l. induction k as [|k IH]; intros pos l; [by rewrite Nat.add_0_r, drop_0|].
  destruct l as [|x l]; [done|]. cbn [occurrences_from]. rewrite IH. f_equal. lia.
Qed.

(** They succeed each other and stay within the line. *)
Lemma occurrences_from_order query pos skip line :
  query <> [] ->
  StronglySorted (fun m n => m.2 <= n.1)%nat (occurrences_from query pos skip line) /\
  Forall (fun m => pos + skip <= m.1 /\ m.1 <= m.2 /\ m.2 <= pos + length line)%nat
    (occurrences_from query pos skip line).
Proof.
  intros Hne. revert pos skip. induction line as [|x line IH]; intros pos skip; cbn [occurrences_from].
  { split; constructor. }
  destruct skip as [|skip].
  2: { destruct (IH (S pos) skip) as [Hs HF]. split; [done|]. eapply Forall_impl; [exact HF|]. simpl. lia. }
  destruct (starts_with (x :: line) query) eqn:Es.
  2: { destruct (IH (S pos) 0%nat) as [Hs HF]. split; [done|]. eapply Forall_impl; [exact HF|]. simpl. lia. }
  apply starts_with_true in Es as [r Er]. apply (f_equal length) in Er. rewrite length_app in Er. simpl in Er.
  destruct (IH (S pos) (length query - 1)%nat) as [Hs HF]. assert (length query <> 0)%nat by (by destruct query).
  split; (constructor; [simpl; try done; lia|]); (eapply Forall_impl; [exact HF|]); simpl; lia.
Qed.

Lemma occs_past query line p : (length line <= p)%nat -> occs query line p = [].
Proof. intros Hp. unfold occs. by rewrite drop_ge. Qed.

Lemma drop_cons_eq (line : bytes) p :
  (p < length line)%nat -> exists x, drop p line = x :: drop (S p) line.
Proof.
  intros Hp. destruct (lookup_lt_is_Some_2 line p Hp) as [x Hx]. exists x. by apply drop_S.
Qed.

Lemma occs_here query line p :
  query <> [] -> occurs_at line query p = true ->
  occs query line p = (p, p + length query)%nat :: occs query line (p + length query).
Proof.
  intros Hne Ho. pose proof (occurs_at_bound _ _ _ Ho Hne) as Hb.
  assert (length query <> 0)%nat by (by destruct query).
  destruct (drop_cons_eq line p) as [x Hx]; [lia|]. unfold occs, occurs_at in *. rewrite Hx in *.
  cbn [occurrences_from]. rewrite Ho. f_equal. rewrite occurrences_from_skip, drop_drop.
  f_equal; [lia|]. f_equal. lia.
Qed.

Lemma occs_skip query line p q :
  (p <= q)%nat -> (forall i, (p <= i < q)%nat -> occurs_at line query i = false) ->
  occs query line p = occs query line q.
Proof.
  intros Hpq. remember (q - p)%nat as n eqn:Hn. revert p Hpq Hn.
  induction n as [|n IH]; intros p Hpq Hn Hno; [f_equal; lia|].
  transitivity (occs query line (S p)); [|apply IH; [lia|lia|]; intros i Hi; apply Hno; lia].
  destruct (decide (p < length line)%nat) as [Hp|Hp]; [|by rewrite !occs_past by lia].
  destruct (drop_cons_eq line p Hp) as [x Hx]. pose proof (Hno p ltac:(lia)) as Hf.
  unfold occs, occurs_at in *. rewrite Hx in *. cbn [occurrences_from]. by rewrite Hf.
Qed.

Section Windows.
Context `{Env, ByteFind} {B St : Type} (visit : nat * nat -> St -> ControlFlow B * St).
Context (line query : bytes).
Hypothesis query_ne : query <> [].

Notation window_of core_end := (Nat.min (core_end + (length query - 1)) (length line)).

(** Nothing is found in the rest of the window: nothing starts before the end
    of its core. *)
Lemma window_exhausted core_end offset :
  (core_end <= length line)%nat ->
  (forall i, (offset <= i)%nat -> occurs_at line query i = true ->
     (i + length query <= window_of core_end)%nat -> (core_end <= i)%nat) ->
  occs query line offset = occs query line (Nat.max offset core_end).
Proof.
  intros Hc Hno. assert (length query <> 0)%nat by (by destruct query).
  apply occs_skip; [lia|]. intros i Hi. destruct (occurs_at line query i) eqn:Ho; [|done].
  pose proof (occurs_at_bound _ _ _ Ho query_ne). specialize (Hno i ltac:(lia) Ho ltac:(lia)). lia.
Qed.

Lemma window_loop_spec fuel core_start core_end offset next_allowed st :
  (core_start <= core_end <= length line)%nat -> offset = Nat.max next_allowed core_start ->
  (length line - offset < fuel)%nat ->
  visit_all visit (occs query line offset) st =
  match window_loop visit line query fuel core_end (window_of core_end) offset next_allowed st with
  | (Some v, _, st') => (Some v, st')
  | (None, next_allowed', st') => visit_all visit (occs query line (Nat.max next_allowed' core_end)) st'
  end.
Proof.
  assert (length query <> 0)%nat by (by destruct query).
  revert core_start offset next_allowed st.
  induction fuel as [|fuel IH]; intros cs offset na st Hc Hoff Hf; [lia|]. cbn [window_loop].
  assert (Nat.max na core_end = Nat.max offset core_end) as Hmax by lia.
  destruct (offset <=? _)%nat eqn:Ein; [apply Nat.leb_le in Ein|apply Nat.leb_gt in Ein].
  2: { rewrite Hmax, <- (window_exhausted core_end offset) by lia. done. }
  destruct (bstr_find _ query) as [rel|] eqn:Efind.
  2: { pose proof (bstr_find_None _ _ Efind) as Hno. rewrite Hmax, <- (window_exhausted core_end offset); [done|lia|].
       intros i Hi Ho Hl. specialize (Hno (i - offset)%nat). apply not_true_iff_false in Hno. exfalso. apply Hno.
       apply occurs_at_slice; [done|lia|]. replace (offset + (i - offset))%nat with i by lia. done. }
  destruct (bstr_find_Some _ _ _ Efind) as [Hat Hbefore].
  apply occurs_at_slice in Hat as [Hat Hfit]; [|done|lia].
  assert (forall i, (offset <= i < offset + rel)%nat -> occurs_at line query i = true ->
            (i + length query <= window_of core_end)%nat -> False) as Hfirst.
  { intros i Hi Ho Hl. specialize (Hbefore (i - offset)%nat ltac:(lia)). apply not_true_iff_false in Hbefore.
    apply Hbefore. apply occurs_at_slice; [done|lia|]. replace (offset + (i - offset))%nat with i by lia. done. }
  destruct (_ && _) eqn:Ecore.
  { apply andb_true_iff in Ecore as [Ecore _]. apply Nat.leb_le in Ecore.
    rewrite Hmax, <- (window_exhausted core_end offset); [done|lia|].
    intros i Hi Ho Hl. destruct (decide (i < offset + rel)%nat); [|lia]. exfalso. by apply (Hfirst i); [lia|..]. }
  rewrite (occs_skip query line offset (offset + rel)), occs_here; [|done|done|lia|].
  2: { intros i Hi. destruct (occurs_at line query i) eqn:Ho; [|done]. exfalso.
       apply (Hfirst i); [lia|done|]. lia. }
  cbn [visit_all]. destruct (visit _ st) as [[|v] st']; [|done]. apply (IH (offset + rel)%nat); [|lia|lia].
  apply andb_false_iff in Ecore as [Ecore|Ecore]; [apply Nat.leb_gt in Ecore|apply Nat.ltb_ge in Ecore]; lia.
Qed.

End Windows.

(* ------------------------------------------------------------------ *)
(** ** The matcher *)

Section MatcherSpec.
Context `{Env, ByteFind, RegexEngine} (d : option N) (l : BudgetLimits).

Lemma framed_check : hoare (framed d l) (stops d) check (fun _ => True).
Proof.
  intros b [<- <-]. unfold check, stops. destruct (env_cancelled (observations b)) eqn:Ec; simpl.
  - split; [|done]. left. split; [done|]. by exists (observations b).
  - destruct (deadline b) as [at_|] eqn:Ed; [|by split].
    destruct (at_ <=? env_now (observations b)) eqn:En; simpl; [|by split].
    split; [|done]. right. split; [done|]. exists (observations b), at_. by apply N.leb_le in En.
Qed.

Section Visits.
Context {B St : Type} (visit : nat * nat -> St -> ControlFlow B * St) (line query : bytes).
Hypothesis query_ne : query <> [].

Lemma windows_loop_spec fuel core_start next_allowed st :
  (core_start <= length line)%nat -> (length line - core_start <= fuel)%nat ->
  hoare (framed d l) (stops d) (windows_loop visit line query fuel core_start next_allowed st)
    (fun r => r = visit_all visit (occs query line (Nat.max next_allowed core_start)) st).
Proof.
  revert core_start next_allowed st.
  assert (0 < SCAN_CHECK_BYTES)%nat as Hchunk by (unfold SCAN_CHECK_BYTES; lia).
  induction fuel as [|fuel IH]; intros cs na st Hcs Hf; cbn [windows_loop];
    (destruct (cs <? length line)%nat eqn:Ecs; [apply Nat.ltb_lt in Ecs|apply Nat.ltb_ge in Ecs;
      apply hoare_ret; by rewrite occs_past by lia]).
  { lia. }
  eapply hoare_bind; [apply framed_check|]. intros _ _. cbv zeta.
  rewrite (window_loop_spec visit line query query_ne (S (length line)) cs
             (Nat.min (cs + SCAN_CHECK_BYTES) (length line)) _ na st) by lia.
  destruct (window_loop _ _ _ _ _ _ _ _ _) as [[[v|] na'] st']; [by apply hoare_ret|].
  apply IH; lia.
Qed.

Lemma literal_occurrences_spec st :
  hoare (framed d l) (stops d) (literal_occurrences visit line query st)
    (fun r => r = visit_all visit (occurrences query line) st).
Proof.
  unfold literal_occurrences. rewrite bool_decide_eq_false_2 by done. cbn [orb].
  destruct (length line <? length query)%nat eqn:El.
  - apply Nat.ltb_lt in El. eapply hoare_bind; [apply framed_check|]. intros _ _. apply hoare_ret.
    change (occurrences query line) with (occs query line 0).
    rewrite (occs_skip query line 0 (length line)), occs_past; [done|lia|lia|].
    intros i _. destruct (occurs_at line query i) eqn:Ho; [|done].
    pose proof (occurs_at_bound _ _ _ Ho query_ne). lia.
  - eapply hoare_post; [apply windows_loop_spec; lia|]. intros r ->. done.
Qed.

End Visits.

Lemma visit_all_first (os : list (nat * nat)) :
  visit_all (fun found (_ : unit) => (Break found, tt)) os tt = (head os, tt).
Proof. by destruct os. Qed.

Lemma first_occurrence_spec m line :
  hoare (framed d l) (stops d) (first_occurrence m line) (fun r => r = head (all_occurrences m line)).
Proof.
  destruct m as [[|x query]|regex]; cbn [first_occurrence all_occurrences].
  - by apply hoare_ret.
  - eapply hoare_bind; [by apply literal_occurrences_spec|]. intros [found []] E.
    rewrite visit_all_first in E. simplify_eq. by apply hoare_ret.
  - eapply hoare_bind; [apply framed_check|]. intros _ _. apply hoare_ret. apply regex_find_first.
Qed.

(** *** Submatches *)

(** Occurrences that succeed each other come in order of their start. *)
Lemma successive_order (os : list (nat * nat)) :
  StronglySorted (fun m n => m.2 <= n.1)%nat os -> Forall (fun m => m.1 <= m.2)%nat os ->
  StronglySorted (fun m n => m.1 <= n.1)%nat os.
Proof.
  induction 1 as [|x os Hs IH Hx]; intros Hr; [constructor|]. apply Forall_cons in Hr as [Hx' Hr].
  constructor; [by apply IH|]. eapply Forall_impl; [exact Hx|]. simpl. lia.
Qed.

Lemma StronglySorted_fmap_seq i n :
  StronglySorted (fun m n => m.2 <= n.1)%nat ((fun i => (i, i)) <$> seq i n).
Proof.
  revert i. induction n as [|n IH]; intros i; cbn [seq fmap list_fmap]; constructor; [apply IH|].
  apply Forall_fmap, Forall_forall. intros j Hj%list_elem_of_In%in_seq. simpl. lia.
Qed.

Lemma all_occurrences_order m line :
  StronglySorted (fun m n => m.1 <= n.1)%nat (all_occurrences m line).
Proof.
  destruct m as [[|x query]|regex]; cbn [all_occurrences].
  - apply successive_order; [apply StronglySorted_fmap_seq|]. apply Forall_fmap, Forall_forall. intros i _. simpl. lia.
  - destruct (occurrences_from_order (x :: query) 0 0 line) as [Hs Hr]; [done|].
    apply successive_order; [done|]. eapply Forall_impl; [exact Hr|]. naive_solver.
  - apply successive_order; [apply regex_successive|].
    eapply Forall_impl; [apply regex_in_range|]. naive_solver.
Qed.

Lemma visit_retain p os subs :
  StronglySorted (fun m n => m.1 <= n.1)%nat os -> (length subs <= MAX_SUBMATCHES)%nat ->
  let shown := take (MAX_SUBMATCHES - length subs) (filter (fun o => o.1 < p)%nat os) in
  (visit_all (retain p) os (subs, false)).2 = (subs ++ (clamp p <$> shown), (length shown <? length os)%nat).
Proof.
  intros Hs. revert subs. induction Hs as [|[s e] os Hs IH Hx]; intros subs Hl; cbv zeta; cbn [visit_all].
  { rewrite filter_nil, take_nil. simpl. by rewrite app_nil_r. }
  unfold retain at 1. rewrite filter_cons. simpl fst.
  destruct (p <=? s)%nat eqn:Ep; cbn [orb].
  { apply Nat.leb_le in Ep. rewrite decide_False by lia. rewrite filter_none.
    - rewrite take_nil. simpl. by rewrite app_nil_r.
    - intros o Ho. rewrite Forall_forall in Hx. specialize (Hx o Ho). simpl in Hx. lia. }
  apply Nat.leb_gt in Ep. rewrite decide_True by lia. destruct (length subs =? MAX_SUBMATCHES)%nat eqn:Em.
  { apply Nat.eqb_eq in Em. rewrite Em, Nat.sub_diag, take_0. simpl. by rewrite app_nil_r. }
  apply Nat.eqb_neq in Em. specialize (IH (subs ++ [clamp p (s, e)])). cbv zeta in IH.
  rewrite length_app in IH. cbn [length] in IH. unfold clamp in IH at 1. cbn [fst snd] in IH.
  rewrite IH by lia. replace (MAX_SUBMATCHES - length subs)%nat
    with (S (MAX_SUBMATCHES - (length subs + 1)))%nat by lia.
  rewrite firstn_cons, fmap_cons, <- app_assoc. done.
Qed.

Lemma visit_kept p os :
  StronglySorted (fun m n => m.1 <= n.1)%nat os ->
  (visit_all (retain p) os ([], false)).2 = (clamp p <$> kept p os, (length (kept p os) <? length os)%nat).
Proof.
  intros Hs. rewrite visit_retain; [|done|simpl; lia]. cbv zeta. cbn [length].
  by rewrite Nat.sub_0_r.
Qed.

Lemma retain_loop_spec p os st :
  hoare (framed d l) (stops d) (retain_loop p os st) (fun r => r = (visit_all (retain p) os st).2).
Proof.
  revert st. induction os as [|o os IH]; intros st; cbn [retain_loop visit_all]; [by apply hoare_ret|].
  eapply hoare_bind; [apply framed_check|]. intros _ _.
  destruct (retain p o st) as [[|[]] st']; [apply IH|by apply hoare_ret].
Qed.

(** The occurrences of the empty literal that a preview keeps. *)
Lemma kept_empty p n :
  (p < n)%nat ->
  kept p ((fun i => (i, i)) <$> seq 0 n) = (fun i => (i, i)) <$> seq 0 (Nat.min p MAX_SUBMATCHES).
Proof.
  intros Hp. unfold kept.
  assert (filter (fun o : nat * nat => o.1 < p)%nat ((fun i => (i, i)) <$> seq 0 n)
          = (fun i => (i, i)) <$> seq 0 p) as ->.
  { replace n with (p + (n - p))%nat by lia. rewrite seq_app, fmap_app, filter_app.
    rewrite filter_all, filter_none; [apply app_nil_r|..];
      intros o (i & -> & Hi%list_elem_of_In%in_seq)%list_elem_of_fmap; simpl; lia. }
  rewrite <- fmap_take. f_equal. destruct (decide (p <= MAX_SUBMATCHES)%nat) as [Hle|Hle].
  - rewrite take_ge by (rewrite length_seq; lia). f_equal. lia.
  - replace p with (MAX_SUBMATCHES + (p - MAX_SUBMATCHES))%nat at 1 by lia.
    rewrite seq_app, take_app_le by (rewrite length_seq; lia).
    rewrite take_ge by (rewrite length_seq; lia). f_equal. lia.
Qed.

Lemma preview_submatches_spec m line p :
  (p <= length line)%nat -> N.of_nat p <= u32_max ->
  hoare (framed d l) (stops d) (preview_submatches m line p)
    (fun r => r = (clamp p <$> kept p (all_occurrences m line),
                   (length (kept p (all_occurrences m line)) <? length (all_occurrences m line))%nat)).
Proof.
  intros Hp Hu. destruct m as [[|x query]|regex]; cbn [preview_submatches all_occurrences].
  - apply hoare_ret. rewrite kept_empty by lia. f_equal.
    + rewrite <- list_fmap_compose. apply list_fmap_ext. intros ? i (-> & Hi)%lookup_seq.
      unfold clamp, u32_or_max. simpl. f_equal; lia.
    + rewrite !length_fmap, !length_seq. f_equal. lia.
  - eapply hoare_bind; [by apply literal_occurrences_spec|]. intros [found st] E. apply hoare_ret.
    rewrite <- visit_kept by apply (all_occurrences_order (CLiteral (x :: query))). by rewrite <- E.
  - eapply hoare_bind; [apply framed_check|]. intros _ _. eapply hoare_post; [apply retain_loop_spec|].
    intros r ->. apply visit_kept. apply (all_occurrences_order (CRegex regex)).
Qed.

End MatcherSpec.

(* ------------------------------------------------------------------ *)
(** ** Lines and their spans *)

(** Lines put back together. *)
Fixpoint join_lines (ls : list bytes) : bytes :=
  match ls with
  | [] => []
  | [l] => l
  | l :: ls => l ++ x0a :: join_lines ls
  end.

(** The spans of lines of the given lengths, from [pos]. *)
Fixpoint spans_of (pos : nat) (lengths : list nat) : list (nat * nat) :=
  match lengths with
  | [] => []
  | n :: lengths => (pos, pos + n)%nat :: spans_of (pos + n + 1) lengths
  end.

Lemma join_lines_cons l ls : ls <> [] -> join_lines (l :: ls) = l ++ x0a :: join_lines ls.
Proof. by destruct ls. Qed.

Lemma join_split l : join_lines (split_on is_newline l) = l.
Proof.
  induction l as [|x l IH]; [done|]. cbn [split_on]. destruct (is_newline x) eqn:Ex.
  - rewrite join_lines_cons by apply split_on_ne. simpl. rewrite IH. f_equal. symmetry. by apply beq_true.
  - destruct (split_on is_newline l) as [|s ss]; [by rewrite <- IH|]. destruct ss; simpl in *; by rewrite <- IH.
Qed.

Lemma split_pieces {A} (f : A -> bool) l : Forall (Forall (fun y => f y = false)) (split_on f l).
Proof.
  induction l as [|x l IH]; simpl; [repeat constructor|]. destruct (f x) eqn:Ex; [by constructor|].
  destruct (split_on f l); [by repeat constructor|]. apply Forall_cons in IH as [Hs Hss]. by repeat constructor.
Qed.

Lemma split_join ls :
  ls <> [] -> Forall (Forall (fun y => is_newline y = false)) ls -> split_on is_newline (join_lines ls) = ls.
Proof.
  induction ls as [|l ls IH]; [done|]. intros _ [Hl Hls]%Forall_cons. destruct ls as [|l' ls].
  - by apply split_on_last.
  - rewrite join_lines_cons by done. rewrite split_on_line by done. f_equal. by apply IH.
Qed.

Lemma length_spans_of pos ns : length (spans_of pos ns) = length ns.
Proof. revert pos. induction ns as [|n ns IH]; intros pos; simpl; [done|]. by rewrite IH. Qed.

Lemma spans_of_take k pos ns : spans_of pos (take k ns) = take k (spans_of pos ns).
Proof.
  revert pos ns. induction k as [|k IH]; intros pos ns; [by rewrite !take_0|].
  destruct ns as [|n ns]; simpl; [done|]. by rewrite IH.
Qed.

(** Where a line ends. *)
Lemma span_end ss pos j s e :
  spans_of pos (length <$> ss) !! j = Some (s, e) ->
  (e = pos + length (join_lines (take (S j) ss)))%nat /\
  exists rest, join_lines ss = join_lines (take (S j) ss) ++ rest.
Proof.
  revert pos j. induction ss as [|l ss IH]; intros pos j; cbn [fmap list_fmap spans_of]; [done|].
  destruct j as [|j]; cbn [lookup list_lookup]; intros E.
  - simplify_eq. rewrite firstn_cons, take_0. split; [done|]. destruct ss as [|l' ss].
    + exists []. by rewrite app_nil_r.
    + rewrite join_lines_cons by done. by eexists.
  - destruct (IH _ _ E) as [-> [rest Hr]]. assert (ss <> []) by (by intros ->).
    assert (take (S j) ss <> []) by (by destruct ss). rewrite (firstn_cons (S j)).
    rewrite !join_lines_cons, Hr by done. split; [|exists rest; by rewrite <- app_assoc].
    rewrite length_app. simpl. lia.
Qed.

(** The bytes from the start of one line to the end of another are the lines
    between, joined. *)
Lemma span_range ss pre i j s e0 s0 e :
  (i <= j)%nat ->
  spans_of (length pre) (length <$> ss) !! i = Some (s, e0) ->
  spans_of (length pre) (length <$> ss) !! j = Some (s0, e) ->
  slice_of (pre ++ join_lines ss) s e = join_lines (take (S j - i) (drop i ss)) /\
  (s <= e <= length (pre ++ join_lines ss))%nat.
Proof.
  revert pre i j. induction ss as [|l ss IH]; intros pre i j Hij Hi Hj; [done|]. destruct i as [|i].
  - simpl in Hi. simplify_eq. destruct (span_end _ _ _ _ _ Hj) as [-> [rest Hr]].
    rewrite drop_0, Nat.sub_0_r, Hr. split; [|rewrite !length_app; lia].
    unfold slice_of. rewrite drop_app_length.
    replace (length pre + length (join_lines (take (S j) (l :: ss))) - length pre)%nat
      with (length (join_lines (take (S j) (l :: ss)))) by lia. by rewrite take_app_length.
  - destruct j as [|j]; [lia|]. cbn [fmap list_fmap spans_of lookup list_lookup] in Hi, Hj.
    assert (ss <> []) by (by intros ->). rewrite join_lines_cons by done.
    change (pre ++ l ++ x0a :: join_lines ss) with (pre ++ l ++ [x0a] ++ join_lines ss).
    rewrite !app_assoc. cbn [drop]. rewrite <- (app_assoc pre l [x0a]).
    replace (S (S j) - S i)%nat with (S j - i)%nat by lia. apply IH; [lia|..];
      rewrite !length_app; simpl; rewrite Nat.add_assoc; done.
Qed.

(** Chunks compose. *)
Lemma chunk_spans_app c1 c2 index start spans :
  chunk_spans (c1 ++ c2) index start spans =
  let '(start, spans) := chunk_spans c1 index start spans in
  chunk_spans c2 (index + length c1) start spans.
Proof.
  revert index start spans. induction c1 as [|b c1 IH]; intros index start spans; simpl.
  - by rewrite Nat.add_0_r.
  - destruct (beq b x0a); rewrite IH; by replace (S index + length c1)%nat with (index + S (length c1))%nat by lia.
Qed.

(** One pass over a text: the closed lines, and where the open one starts. *)
Lemma chunk_spans_split l n start spans p ps :
  split_on is_newline l = p :: ps ->
  exists start' sp, chunk_spans l (start + n) start spans = (start', spans ++ sp) /\
    sp ++ [(start', start + n + length l)%nat] = spans_of start ((n + length p)%nat :: (length <$> ps)).
Proof.
  revert n start spans p ps. induction l as [|x l IH]; intros n start spans p ps; cbn [split_on].
  { intros [= <- <-]. exists start, []. simpl. rewrite app_nil_r, Nat.add_0_r, Nat.add_0_r. done. }
  cbn [chunk_spans]. unfold is_newline at 1. destruct (beq x x0a) eqn:Ex.
  - intros [= <- <-]. destruct (split_on is_newline l) as [|q qs] eqn:El; [by destruct (split_on_ne _ _ El)|].
    destruct (IH 0%nat (S (start + n)) (spans ++ [(start, start + n)%nat]) q qs eq_refl) as (start' & sp & E & Hsp).
    exists start', ((start, start + n)%nat :: sp). rewrite Nat.add_0_r in E. rewrite E, <- app_assoc.
    split; [done|]. cbn [app fmap list_fmap length spans_of] in *.
    replace (start + n + 0 + 1)%nat with (S (start + n)) by lia.
    replace (start + (n + 0))%nat with (start + n)%nat by lia.
    rewrite Nat.add_0_r in Hsp. replace (start + n + S (length l))%nat with (S (start + n) + length l)%nat by lia.
    replace (start + n + 1)%nat with (S (start + n)) by lia. by rewrite Hsp.
  - destruct (split_on is_newline l) as [|q qs] eqn:El; [by destruct (split_on_ne _ _ El)|]. intros [= <- <-].
    destruct (IH (S n) start spans q qs eq_refl) as (start' & sp & E & Hsp).
    exists start', sp. replace (start + S n)%nat with (S (start + n)) in * by lia. rewrite E. split; [done|].
    cbn [length]. replace (start + n + S (length l))%nat with (S (start + n) + length l)%nat by lia.
    replace (n + S (length q))%nat with (S n + length q)%nat by lia. done.
Qed.

Lemma take_min {A} n (l : list A) : take (Nat.min n (length l)) l = take n l.
Proof.
  destruct (decide (n <= length l)%nat) as [Hn|Hn]; [by rewrite Nat.min_l|].
  by rewrite Nat.min_r, firstn_all, take_ge by lia.
Qed.

Lemma slice_drop (l : bytes) a b : (a <= b)%nat -> slice_of l a b ++ drop b l = drop a l.
Proof.
  intros Hab. unfold slice_of. replace b with (a + (b - a))%nat at 2 by lia.
  rewrite <- drop_drop. apply take_drop.
Qed.

Lemma length_slice_of (l : bytes) a b : (a <= b <= length l)%nat -> length (slice_of l a b) = (b - a)%nat.
Proof. intros. unfold slice_of. rewrite length_take, length_drop. lia. Qed.

(** The lines of a text are its pieces, up to an empty last one. *)
Lemma text_lines_take payload :
  exists k, text_lines payload = take k (split_on is_newline payload).
Proof.
  unfold text_lines. case_bool_decide; [by eexists|].
  exists (length (split_on is_newline payload)). by rewrite firstn_all.
Qed.

Lemma text_lines_pieces payload : Forall (Forall (fun y => is_newline y = false)) (text_lines payload).
Proof. destruct (text_lines_take payload) as [k ->]. apply Forall_take, split_pieces. Qed.

(** The spans of a text from those of its pieces. *)
Lemma spans_text payload sp start :
  sp ++ [(start, length payload)] = spans_of 0 (length <$> split_on is_newline payload) ->
  spans_of 0 (length <$> text_lines payload) =
    (if (start <? length payload)%nat then sp ++ [(start, length payload)] else sp).
Proof.
  intros E. unfold text_lines. set (ss := split_on is_newline payload) in *.
  assert (ss <> []) as Hne by apply split_on_ne. destruct (exists_last Hne) as (ss' & x & Hss).
  assert (length ss' = length sp) as Hlen.
  { apply (f_equal length) in E. rewrite length_spans_of, length_fmap, Hss, !length_app in E. simpl in E. lia. }
  assert (spans_of 0 (length <$> ss) !! length ss' = Some (start, length payload)) as Hlast.
  { rewrite <- E, Hlen, lookup_app_r, Nat.sub_diag by lia. done. }
  assert (length x = length payload - start)%nat as Hx.
  { destruct (span_range ss [] (length ss') (length ss') start (length payload) start (length payload)
                (le_n _) Hlast Hlast) as [Hsl [_ Hb]]. simpl in *. unfold ss in Hsl, Hb. rewrite join_split in Hsl, Hb.
    fold ss in Hsl. rewrite Hss in Hsl. rewrite drop_app_length in Hsl.
    replace (S (length ss') - length ss')%nat with 1%nat in Hsl by lia. simpl in Hsl.
    rewrite <- Hsl. unfold slice_of. rewrite length_take, length_drop. lia. }
  assert (last ss = Some x) as Hlx by (rewrite Hss; apply last_snoc).
  destruct (start <? length payload)%nat eqn:Es.
  - apply Nat.ltb_lt in Es. rewrite bool_decide_eq_false_2; [by rewrite E|].
    rewrite Hlx. intros [= ->]. simpl in Hx. lia.
  - apply Nat.ltb_ge in Es. rewrite bool_decide_eq_true_2.
    + rewrite fmap_take, spans_of_take, <- E. rewrite Hss, length_app. simpl.
      replace (length ss' + 1 - 1)%nat with (length sp) by lia. apply take_app_length.
    + rewrite Hlx. f_equal. destruct x; [done|]. simpl in Hx. lia.
Qed.

Section LinesSpec.
Context `{Env, ByteFind, RegexEngine} (d : option N) (l : BudgetLimits).

Lemma spans_loop_spec fuel payload chunk_start start spans :
  (chunk_start <= length payload)%nat -> (length payload - chunk_start <= fuel)%nat ->
  hoare (framed d l) (stops d) (spans_loop fuel payload chunk_start start spans)
    (fun r => r = chunk_spans (drop chunk_start payload) chunk_start start spans).
Proof.
  assert (0 < SCAN_CHECK_BYTES)%nat as Hchunk by (unfold SCAN_CHECK_BYTES; lia).
  revert chunk_start start spans.
  induction fuel as [|fuel IH]; intros cs start spans Hcs Hf; cbn [spans_loop];
    (destruct (cs <? length payload)%nat eqn:Ecs; [apply Nat.ltb_lt in Ecs|apply Nat.ltb_ge in Ecs;
      apply hoare_ret; by rewrite drop_ge by lia]).
  { lia. }
  eapply hoare_bind; [apply framed_check|]. intros _ _. cbv zeta.
  set (ce := Nat.min (cs + SCAN_CHECK_BYTES) (length payload)).
  rewrite <- (slice_drop payload cs ce) by (subst ce; lia). rewrite chunk_spans_app.
  destruct (chunk_spans (slice_of payload cs ce) cs start spans) as [start' spans'].
  rewrite length_slice_of by (subst ce; lia). replace (cs + (ce - cs))%nat with ce by (subst ce; lia).
  apply IH; subst ce; lia.
Qed.

Lemma line_spans_spec payload :
  hoare (framed d l) (stops d) (line_spans payload)
    (fun r => r = spans_of 0 (length <$> text_lines payload)).
Proof.
  unfold line_spans. eapply hoare_bind; [apply spans_loop_spec; lia|]. intros [start spans] E.
  rewrite drop_0 in E. apply hoare_ret.
  destruct (split_on is_newline payload) as [|p ps] eqn:Es; [by destruct (split_on_ne _ _ Es)|].
  destruct (chunk_spans_split payload 0 0 [] p ps Es) as (start' & sp & E' & Hsp). simpl in E'.
  rewrite E' in E. simplify_eq. symmetry. apply spans_text. rewrite Es. exact Hsp.
Qed.

End LinesSpec.

(** The bytes between the starts and ends of the lines of a text. *)
Lemma text_range payload i j s e0 s0 e :
  (i <= j)%nat ->
  spans_of 0 (length <$> text_lines payload) !! i = Some (s, e0) ->
  spans_of 0 (length <$> text_lines payload) !! j = Some (s0, e) ->
  slice_of payload s e = join_lines (take (S j - i) (drop i (text_lines payload))) /\
  (s <= e <= length payload)%nat.
Proof.
  intros Hij Hi Hj. destruct (text_lines_take payload) as [k Hk].
  assert (j < k)%nat as Hjk.
  { apply lookup_lt_Some in Hj. rewrite length_spans_of, length_fmap, Hk, length_take in Hj. lia. }
  rewrite Hk, fmap_take, spans_of_take, lookup_take_lt in Hi, Hj by lia.
  destruct (span_range (split_on is_newline payload) [] i j s e0 s0 e Hij Hi Hj) as [Hsl Hb].
  rewrite join_split in Hsl, Hb. simpl in *. split; [|done]. rewrite Hsl, Hk. f_equal.
  rewrite skipn_firstn_comm, take_take. f_equal. lia.
Qed.

Lemma text_span payload i line :
  text_lines payload !! i = Some line ->
  exists s, spans_of 0 (length <$> text_lines payload) !! i = Some (s, s + length line)%nat /\
    slice_of payload s (s + length line) = line /\ (s + length line <= length payload)%nat.
Proof.
  intros Hl. assert (is_Some (spans_of 0 (length <$> text_lines payload) !! i)) as [[s e] Hs].
  { apply lookup_lt_is_Some_2. rewrite length_spans_of, length_fmap. by eapply lookup_lt_Some. }
  destruct (text_range payload i i s e s e (le_n _) Hs Hs) as [Hsl Hb].
  rewrite (drop_S _ _ _ Hl) in Hsl. replace (S i - i)%nat with 1%nat in Hsl by lia. simpl in Hsl.
  assert (length line = e - s)%nat as Hlen by (rewrite <- Hsl; by apply length_slice_of).
  exists s. replace (s + length line)%nat with e by lia. split; [done|]. split; [done|]. lia.
Qed.

(* ------------------------------------------------------------------ *)
(** ** The scan of a payload *)

Lemma span_u32_spec n m : (n <= m)%nat ->
  match span_u32 n with
  | Ok v => v = N.of_nat n
  | Err e => e = search_too_large /\ u32_max < N.of_nat m
  end.
Proof. intros Hn. unfold span_u32. destruct (_ <=? _) eqn:E; [done|]. apply N.leb_gt in E. split; [done|lia]. Qed.

Lemma ByteSpan_new_spec a b m : (a <= m)%nat -> (b <= m)%nat ->
  match ByteSpan_new a b with
  | Ok v => v = mkSpan (N.of_nat a) (N.of_nat b)
  | Err e => e = search_too_large /\ u32_max < N.of_nat m
  end.
Proof.
  intros Ha Hb. unfold ByteSpan_new. pose proof (span_u32_spec a m Ha). pose proof (span_u32_spec b m Hb).
  destruct (span_u32 a); cbn [rbind]; [|done]. destruct (span_u32 b); cbn [rbind]; [by subst|done].
Qed.

Lemma span_slice_nat payload a b : span_slice payload (mkSpan (N.of_nat a) (N.of_nat b)) = slice_of payload a b.
Proof. unfold span_slice. simpl. by rewrite !Nat2N.id. Qed.

(** A text has at most as many lines as bytes. *)
Lemma split_on_length l :
  (length (split_on is_newline l) <= S (length l))%nat /\
  (last (split_on is_newline l) <> Some [] -> length (split_on is_newline l) <= length l)%nat.
Proof.
  induction l as [|x l [IH1 IH2]]; cbn [split_on]; [split; [simpl; lia|done]|].
  pose proof (split_on_ne is_newline l) as Hne. destruct (is_newline x).
  - cbn [length]. split; [lia|]. destruct (split_on is_newline l); [done|].
    rewrite last_cons_cons. intros Hl. specialize (IH2 Hl). lia.
  - destruct (split_on is_newline l) as [|s ss]; [done|]. cbn [length] in *. split; [lia|].
    destruct ss as [|s' ss]; [simpl; lia|]. rewrite last_cons_cons in *. intros Hl. specialize (IH2 Hl). lia.
Qed.

Lemma length_text_lines payload : (length (text_lines payload) <= length payload)%nat.
Proof.
  destruct (split_on_length payload) as [H1 H2]. unfold text_lines.
  case_bool_decide as Hl; [rewrite length_take; lia|by apply H2].
Qed.

(** The lines of a context span. *)
Lemma materialize_range payload i j s e0 s0 e :
  (i <= j)%nat ->
  spans_of 0 (length <$> text_lines payload) !! i = Some (s, e0) ->
  spans_of 0 (length <$> text_lines payload) !! j = Some (s0, e) ->
  materialize_lines payload (Some (mkSpan (N.of_nat s) (N.of_nat e))) =
    preview_of <$> take (S j - i) (drop i (text_lines payload)).
Proof.
  intros Hij Hi Hj. destruct (text_range payload i j s e0 s0 e Hij Hi Hj) as [Hsl _].
  cbn [materialize_lines]. rewrite span_slice_nat, Hsl, split_join.
  - apply list_fmap_ext. intros _ line _. unfold preview_of.
    by rewrite Nat.min_comm, take_min.
  - assert (j < length (text_lines payload))%nat as Hlt.
    { apply lookup_lt_Some in Hj. by rewrite length_spans_of, length_fmap in Hj. }
    intros E%(f_equal length). rewrite length_take, length_drop in E. simpl in E. lia.
  - apply Forall_take, Forall_drop, text_lines_pieces.
Qed.

Lemma context_span_spec payload (cond : bool) first last_ :
  let spans := spans_of 0 (length <$> text_lines payload) in
  (cond = true -> first <= last_ /\ last_ < length spans)%nat ->
  match context_span cond spans first last_ with
  | Ok sp => materialize_lines payload sp =
      if cond then preview_of <$> take (S last_ - first) (drop first (text_lines payload)) else []
  | Err e => e = search_too_large /\ u32_max < lenN payload
  end.
Proof.
  intros spans Hc. unfold context_span. destruct cond; [|done]. destruct (Hc eq_refl) as [Hfl Hlt].
  destruct (lookup_lt_is_Some_2 spans first) as [[s e0] Hf]; [lia|].
  destruct (lookup_lt_is_Some_2 spans last_) as [[s0 e] Hl]; [lia|]. rewrite Hf, Hl.
  destruct (text_range payload first last_ s e0 s0 e Hfl Hf Hl) as [_ Hb].
  pose proof (ByteSpan_new_spec s e (length payload) ltac:(lia) ltac:(lia)) as Hsp.
  destruct (ByteSpan_new s e); cbn [rbind]; [|done]. subst. by eapply materialize_range.
Qed.

Lemma slice_prefix (l : bytes) s n k : (k <= n)%nat -> slice_of l s (s + k) = take k (slice_of l s (s + n)).
Proof. intros Hk. unfold slice_of. rewrite take_take. f_equal. lia. Qed.

Lemma line_record_spec payload context i line s column :
  text_lines payload !! i = Some line ->
  spans_of 0 (length <$> text_lines payload) !! i = Some (s, s + length line)%nat ->
  slice_of payload s (s + length line) = line -> (s + length line <= length payload)%nat ->
  (column <= length line)%nat ->
  match line_record (spans_of 0 (length <$> text_lines payload)) context i s (s + length line) column with
  | Ok r => describes payload context (i, column) r
  | Err e => e = search_too_large /\ u32_max < lenN payload
  end.
Proof.
  intros Hl Hs Hsl Hb Hcol. unfold line_record, lenN. cbv zeta.
  pose proof (length_text_lines payload) as Hn. pose proof (lookup_lt_Some _ _ _ Hl) as Hi.
  replace (s + length line - s)%nat with (length line) by lia.
  set (p := Nat.min (length line) PREVIEW_BYTES).
  pose proof (span_u32_spec (i + 1) (length payload) ltac:(lia)) as H1.
  destruct (span_u32 (i + 1)) as [n|] eqn:Efit; cbn [rbind]; [|done].
  assert (N.of_nat i + 1 <= u32_max) as Hfits.
  { unfold span_u32 in Efit. destruct (N.leb_spec (N.of_nat (i + 1)) u32_max); [lia|done]. }
  pose proof (span_u32_spec column (length payload) ltac:(lia)) as H2.
  destruct (span_u32 column) as [col|]; cbn [rbind]; [|done].
  pose proof (ByteSpan_new_spec s (s + p) (length payload) ltac:(lia) ltac:(lia)) as H3.
  destruct (ByteSpan_new s (s + p)) as [pv|]; cbn [rbind]; [|done].
  pose proof (span_u32_spec (s + length line) (length payload) ltac:(lia)) as H4.
  destruct (span_u32 (s + length line)) as [le|]; cbn [rbind]; [|done].
  pose proof (context_span_spec payload (i - context <? i)%nat (i - context) (i - 1)) as H5.
  cbv zeta in H5. rewrite length_spans_of, length_fmap in *.
  destruct (context_span (i - context <? i)%nat _ _ _) as [bf|]; cbn [rbind];
    [|apply H5; intros E%Nat.ltb_lt; lia].
  set (ae := Nat.min (i + 1 + context) (length (text_lines payload))).
  pose proof (context_span_spec payload (i + 1 <? ae)%nat (i + 1) (ae - 1)) as H6.
  cbv zeta in H6. rewrite length_spans_of, length_fmap in H6.
  destruct (context_span (i + 1 <? ae)%nat _ _ _) as [af|]; cbn [rbind];
    [|apply H6; intros E%Nat.ltb_lt; subst ae; lia].
  subst n col pv le. constructor; cbn [lm_line lm_column lm_preview lm_line_end lm_context_before
    lm_context_after fst snd sp_start sp_end].
  - done.
  - lia.
  - done.
  - exists line. split; [done|]. rewrite !span_slice_nat. split; [|split; [done|]].
    + rewrite (slice_prefix payload s (length line) p), Hsl by lia. unfold preview_of, p.
      by rewrite Nat.min_comm, take_min.
    + unfold p. destruct (N.ltb_spec (N.of_nat (s + Nat.min (length line) PREVIEW_BYTES)) (N.of_nat (s + length line))),
        (Nat.ltb_spec PREVIEW_BYTES (length line)); lia.
  - rewrite H5 by (intros E%Nat.ltb_lt; lia). destruct (i - context <? i)%nat eqn:E.
    + apply Nat.ltb_lt in E. f_equal. f_equal. lia.
    + apply Nat.ltb_ge in E. replace (Nat.min context i) with 0%nat by lia. done.
  - rewrite H6 by (intros E%Nat.ltb_lt; subst ae; lia). destruct (i + 1 <? ae)%nat eqn:E.
    + apply Nat.ltb_lt in E. f_equal. subst ae. replace (S (Nat.min (i + 1 + context) (length (text_lines payload)) - 1) - (i + 1))%nat
        with (Nat.min context (length (drop (i + 1) (text_lines payload)))) by (rewrite length_drop; lia).
      by rewrite take_min.
    + apply Nat.ltb_ge in E. subst ae. destruct context as [|ctx]; [done|].
      rewrite drop_ge by lia. by rewrite take_nil.
Qed.

Lemma sublist_full {A} (l k : list A) : sublist l k -> (length k <= length l)%nat -> l = k.
Proof.
  induction 1 as [|x l k _ IH|x l k Hs _]; simpl; intros Hl; [done|f_equal; apply IH; lia|].
  apply sublist_length in Hs. lia.
Qed.

Section ScanSpec.
Context `{Env, ByteFind, RegexEngine}.

Lemma first_column m line column end_ :
  head (all_occurrences m line) = Some (column, end_) -> (column <= length line)%nat.
Proof.
  intros Hh. assert (Forall (fun m => m.1 <= length line)%nat (all_occurrences m line)) as HF.
  { destruct m as [[|x query]|regex]; cbn [all_occurrences].
    - apply Forall_fmap, Forall_forall. intros i Hi%list_elem_of_In%in_seq. simpl. lia.
    - eapply Forall_impl; [apply (occurrences_from_order (x :: query) 0 0 line); done|]. simpl. lia.
    - eapply Forall_impl; [apply regex_in_range|]. simpl. lia. }
  destruct (all_occurrences m line) as [|o os]; [done|]. simpl in Hh. simplify_eq.
  apply Forall_cons in HF as [Ho _]. done.
Qed.

(** The ordinal of a hit is at most its line. *)
Lemma hits_from_ge m i lines j hit : hits_from m i lines !! j = Some hit -> (i + j <= hit.1)%nat.
Proof.
  revert i j. induction lines as [|line lines IH]; intros i j; cbn [hits_from]; [done|].
  destruct (head (all_occurrences m line)) as [[column e]|].
  - destruct j as [|j]; cbn [lookup list_lookup]; [intros [= <-]; simpl; lia|]. intros Hj%IH. lia.
  - intros Hj%IH. lia.
Qed.

(** Why a scan may fail: the budget stopped it, or the payload is too long for
    32-bit positions. *)
Definition scan_failure (d : option N) (payload : bytes) (e : Error) : Prop :=
  stops d e \/ (e = search_too_large /\ u32_max < lenN payload).

Lemma scan_loop_spec d l payload m context todo index results lines :
  drop index (text_lines payload) = lines ->
  todo = drop index (spans_of 0 (length <$> text_lines payload)) ->
  hoare (framed d l) (scan_failure d payload)
    (scan_loop payload m context (spans_of 0 (length <$> text_lines payload)) todo index results)
    (fun rs => exists news, rs = results ++ news /\
       Forall2 (describes payload context) (hits_from m index lines) news).
Proof.
  revert todo index results. induction lines as [|line lines IH]; intros todo index results Hl ->.
  - assert (length (text_lines payload) <= index)%nat as Hle.
    { apply (f_equal length) in Hl. rewrite length_drop in Hl. simpl in Hl. lia. }
    rewrite drop_ge by (rewrite length_spans_of, length_fmap; lia). apply hoare_ret.
    exists []. rewrite app_nil_r. split; [done|constructor].
  - assert (text_lines payload !! index = Some line) as Hi.
    { rewrite <- (Nat.add_0_r index), <- lookup_drop, Hl. done. }
    destruct (text_span payload index line Hi) as (s & Hs & Hsl & Hb).
    assert (drop (S index) (text_lines payload) = lines) as Hl'.
    { rewrite (drop_S _ _ _ Hi) in Hl. by simplify_eq. }
    rewrite (drop_S _ _ _ Hs). cbn [scan_loop hits_from].
    eapply hoare_bind; [eapply hoare_conseq; [apply framed_check|intros e He; by left|done]|]. intros _ _.
    eapply hoare_bind; [eapply hoare_conseq; [apply first_occurrence_spec|intros e He; by left|intros r Hr; exact Hr]|].
    intros r ->. rewrite Hsl. destruct (head (all_occurrences m line)) as [[column end_]|] eqn:Eh; [|by apply IH].
    pose proof (line_record_spec payload context index line s column Hi Hs Hsl Hb (first_column _ _ _ _ Eh)) as Hr.
    eapply (hoare_bind _ _ _ _ (describes payload context (index, column))).
    { apply hoare_lift. destruct (line_record _ _ _ _ _ _); [done|by right]. }
    intros r Hd. eapply hoare_post; [by apply IH|]. intros rs (news & -> & HF). exists (r :: news).
    rewrite <- app_assoc. split; [done|by constructor].
Qed.

Lemma scan_payload_spec d l payload m context_lines :
  hoare (framed d l) (scan_failure d payload) (scan_payload payload m context_lines)
    (Forall2 (describes payload (N.to_nat context_lines)) (hits m (text_lines payload))).
Proof.
  unfold scan_payload. eapply hoare_bind.
  { eapply hoare_conseq; [apply line_spans_spec|intros e He; by left|intros r Hr; exact Hr]. }
  intros spans ->. eapply hoare_post; [apply (scan_loop_spec _ _ _ _ _ _ 0 [] (text_lines payload)); by rewrite drop_0|].
  intros rs (news & -> & HF). exact HF.
Qed.

(** C30. Windowed literal search finds what a plain scan finds. On any line and
    any query that is not empty, and whatever the closure does with what it is
    given, the search in 64 KiB windows with overlaps ends as if the closure
    had been run over the leftmost occurrences that do not overlap, in order,
    none lost or doubled at a window border; it is stopped only by a
    cancellation or a deadline that a check observed. *)
Theorem literal_windows_exact {B St} (visit : nat * nat -> St -> ControlFlow B * St) line query st b :
  query <> [] ->
  match (literal_occurrences visit line query st b).1 with
  | Ok r => r = visit_all visit (occurrences query line) st
  | Err e => stops (deadline b) e
  end.
Proof.
  intros Hne. destruct (literal_occurrences_spec (deadline b) (limits b) visit line query Hne st b) as [Hr _]; [done|].
  by destruct (literal_occurrences visit line query st b).1.
Qed.

(** C29. A scan of a payload records exactly its matching lines. The records
    are, in order, one per line on which the matcher has an occurrence: its
    number and the column of its first occurrence, spans that select the line
    and its preview, and context spans that select the right neighbouring
    lines, although only offsets are kept. The scan fails only when the budget
    stops it or the payload is too long for 32-bit positions. *)
Theorem scan_payload_exact payload m context_lines b :
  match (scan_payload payload m context_lines b).1 with
  | Ok rs => Forall2 (describes payload (N.to_nat context_lines)) (hits m (text_lines payload)) rs
  | Err e => scan_failure (deadline b) payload e
  end.
Proof.
  destruct (scan_payload_spec (deadline b) (limits b) payload m context_lines b) as [Hr _]; [done|].
  by destruct (scan_payload payload m context_lines b).1.
Qed.

(** The submatches of a preview are the occurrences on the line that begin
    in it, at most 256, clamped to it, and they are flagged as truncated
    exactly when an occurrence was left out, for literals, for the empty
    literal and for regular expressions. *)
Theorem submatches_exact m line preview_len b :
  (preview_len <= length line)%nat -> N.of_nat preview_len <= u32_max ->
  match (preview_submatches m line preview_len b).1 with
  | Ok (submatches, truncated) =>
      submatches = clamp preview_len <$> kept preview_len (all_occurrences m line) /\
      (truncated = true <-> kept preview_len (all_occurrences m line) <> all_occurrences m line)
  | Err e => stops (deadline b) e
  end.
Proof.
  intros Hp Hu. destruct (preview_submatches_spec (deadline b) (limits b) m line preview_len Hp Hu b) as [Hr _]; [done|].
  destruct (preview_submatches m line preview_len b).1 as [[subs tr]|e]; [|done]. simpl in Hr. simplify_eq.
  split; [done|]. set (os := all_occurrences m line). rewrite Nat.ltb_lt.
  assert (sublist (kept preview_len os) os) as Hsub.
  { unfold kept. etransitivity; [apply sublist_take|]. apply sublist_filter. }
  split; [intros Hlt E; rewrite E in Hlt; lia|]. intros Hne.
  pose proof (sublist_length _ _ Hsub). destruct (decide (length (kept preview_len os) < length os)%nat); [done|].
  destruct Hne. apply sublist_full; [done|lia].
Qed.

End ScanSpec.

(* ------------------------------------------------------------------ *)
(** ** Instances and witnesses *)

(** A byte searcher that tries every offset. *)
Fixpoint find_from (hay needle : bytes) : option nat :=
  if starts_with hay needle then Some 0%nat
  else match hay with
       | [] => None
       | _ :: hay => S <$> find_from hay needle
       end.

Lemma find_from_spec hay needle :
  match find_from hay needle with
  | Some i => occurs_at hay needle i = true /\ forall j, (j < i)%nat -> occurs_at hay needle j = false
  | None => forall j, occurs_at hay needle j = false
  end.
Proof.
  unfold occurs_at. induction hay as [|x hay IH]; cbn [find_from].
  - destruct (starts_with [] needle) eqn:E; [by split; [|lia]|]. intros j. by rewrite drop_nil.
  - destruct (starts_with (x :: hay) needle) eqn:E; [by split; [|lia]|].
    destruct (find_from hay needle) as [i|]; cbn [fmap option_fmap option_map].
    + destruct IH as [Hi Hj]. split; [done|]. intros [|j] Hlt; [done|]. apply Hj. lia.
    + intros [|j]; [done|apply IH].
Qed.

#[export] Program Instance simple_find : ByteFind := {| bstr_find := find_from |}.
Next Obligation. intros hay needle i E. pose proof (find_from_spec hay needle) as Hs. by rewrite E in Hs. Qed.
Next Obligation. intros hay needle E. pose proof (find_from_spec hay needle) as Hs. by rewrite E in Hs. Qed.

(** A regex engine for the patterns made of [\xHH] escapes and of letters and
    digits, with ASCII folding. *)
Definition hex_value (b : byte) : option N :=
  let n := byteN b in
  if (48 <=? n) && (n <=? 57) then Some (n - 48)
  else if (65 <=? n) && (n <=? 70) then Some (n - 55)
  else None.
Definition fold_byte (b : byte) : byte :=
  if (65 <=? byteN b) && (byteN b <=? 90) then Nbyte (byteN b + 32) else b.
Definition word_byte (b : byte) : bool :=
  let n := byteN (fold_byte b) in ((48 <=? n) && (n <=? 57)) || ((97 <=? n) && (n <=? 122)).
Fixpoint parse_plain (fuel : nat) (pattern : bytes) : option bytes :=
  match fuel, pattern with
  | _, [] => Some []
  | O, _ => None
  | S fuel, x5c :: x78 :: a :: b :: pattern =>
      match hex_value a, hex_value b with
      | Some h, Some l => cons (Nbyte (16 * h + l)) <$> parse_plain fuel pattern
      | _, _ => None
      end
  | S fuel, b :: pattern => if word_byte b then cons b <$> parse_plain fuel pattern else None
  end.
Definition plain_iter (r : bool * bytes) (line : bytes) : list (nat * nat) :=
  let fold_ := if r.1 then fmap fold_byte else id in
  match r.2 with
  | [] => (fun i => (i, i)) <$> seq 0 (S (length line))
  | needle => occurrences (fold_ needle) (fold_ line)
  end.

Lemma plain_iter_spec r line :
  Forall (fun m => m.1 <= m.2 /\ m.2 <= length line)%nat (plain_iter r line) /\
  StronglySorted (fun m n => m.2 <= n.1)%nat (plain_iter r line).
Proof.
  unfold plain_iter. destruct r as [ci [|x needle]]; cbn [fst snd].
  - split; [|apply StronglySorted_fmap_seq].
    apply Forall_fmap, Forall_forall. intros i Hi%list_elem_of_In%in_seq. simpl. lia.
  - set (f := if ci then fmap fold_byte else id). unfold occurrences.
    assert (f (x :: needle) <> []) by (by destruct ci).
    assert (length (f line) = length line) as Hl by (destruct ci; [apply length_fmap|done]).
    destruct (occurrences_from_order (f (x :: needle)) 0 0 (f line)) as [Hs HF]; [done|].
    split; [|done]. eapply Forall_impl; [exact HF|]. simpl. rewrite Hl. lia.
Qed.

#[export] Program Instance simple_regex : RegexEngine := {|
  Regex := bool * bytes;
  regex_build pattern opts :=
    match parse_plain (length pattern) pattern with
    | Some needle => Ok (rx_case_insensitive opts, needle)
    | None => Err "unsupported pattern"%string
    end;
  regex_find r line := head (plain_iter r line);
  regex_find_iter := plain_iter
|}.
Next Obligation. done. Qed.
Next Obligation. intros r line. apply plain_iter_spec. Qed.
Next Obligation. intros r line. apply plain_iter_spec. Qed.

Definition demo_text : bytes := bs "one" ++ [x0a] ++ bs "two one One" ++ [x0a] ++ [x0a] ++ bs "none".
Definition demo_budget : Budget := Budget_new BudgetLimits_default None.

(** The case-insensitive literal goes through the regex engine. *)
Example scan_demo :
  match compile (bs "one") (mkSearchOptions MLiteral false [] [] Skip 1 1000 1000 None) with
  | Ok m => match (@scan_payload quiet simple_find simple_regex demo_text m 1 demo_budget).1 with
            | Ok rs => Some ((fun r => (lm_line r, lm_column r)) <$> rs)
            | Err _ => None
            end
  | Err _ => None
  end = Some [(1, 0); (2, 4); (4, 1)].
Proof. vm_compute. reflexivity. Qed.

Lemma literal_windows_exact_witness :
  match (@literal_occurrences quiet simple_find _ _ (retain 4) (bs "aaaaa") (bs "aa") ([], false) demo_budget).1 with
  | Ok r => r = visit_all (retain 4) (occurrences (bs "aa") (bs "aaaaa")) ([], false)
  | Err e => @stops quiet None e
  end.
Proof.
  apply (@literal_windows_exact quiet simple_find _ _ (retain 4) (bs "aaaaa") (bs "aa") ([], false) demo_budget).
  vm_compute. discriminate.
Defined.

Lemma submatches_exact_witness :
  match (@preview_submatches quiet simple_find simple_regex (CLiteral (bs "one")) (bs "two one one") 9 demo_budget).1 with
  | Ok (submatches, truncated) =>
      submatches = clamp 9 <$> kept 9 (all_occurrences (CLiteral (bs "one")) (bs "two one one")) /\
      (truncated = true <-> kept 9 (all_occurrences (CLiteral (bs "one")) (bs "two one one"))
                            <> all_occurrences (CLiteral (bs "one")) (bs "two one one"))
  | Err e => @stops quiet None e
  end.
Proof.
  apply (@submatches_exact quiet simple_find simple_regex (CLiteral (bs "one")) (bs "two one one") 9 demo_budget);
    vm_compute; try lia; discriminate.
Defined.
