(* ===== verification/BlobWalk.v ===== *)
(** * The blobs below a tree, in order ([search.rs])

    [BlobWalk]: the lazy traversal that content search runs over. It descends
    every tree, offers the blobs a pathspec selects, replays the prefix of a
    resumed query through uncharged reads, and prefetches blobs in batches.
    The reference is [under], everything below a tree. *)

From Stdlib Require Import NArith Lia Strings.Byte Strings.String.
From stdpp Require Import prelude gmap strings list sorting.
From S2P Require Import Prelude Errors Objects Budget Odb Decode Snapshot Pathspec Tree File.

Open Scope N_scope.

Definition BLOB_PREFETCH_WINDOW : nat := 64.

(** [BlobCandidate], [WalkFrame] and [BlobWalk]. *)
Record BlobCandidate : Type := mkCandidate { bc_path : bytes; bc_oid : Oid }.

Definition WalkFrame : Type := (list OwnedTreeEntry * bytes)%type.

Record BlobWalk : Type := mkBlobWalk {
  bw_scope : bytes;
  bw_matcher : PathspecMatcher;
  bw_stack : list WalkFrame;
  bw_replaying : bool;
  bw_resume_path : option bytes;
  bw_prefetched : gset Oid
}.

Definition set_stack (stack : list WalkFrame) (w : BlobWalk) : BlobWalk :=
  mkBlobWalk (bw_scope w) (bw_matcher w) stack (bw_replaying w) (bw_resume_path w) (bw_prefetched w).
Definition set_replaying (r : bool) (w : BlobWalk) : BlobWalk :=
  mkBlobWalk (bw_scope w) (bw_matcher w) (bw_stack w) r (bw_resume_path w) (bw_prefetched w).
Definition set_prefetched (s : gset Oid) (w : BlobWalk) : BlobWalk :=
  mkBlobWalk (bw_scope w) (bw_matcher w) (bw_stack w) (bw_replaying w) (bw_resume_path w) s.

Section Walk.
Context `{Env, GixObject, GixGlob} {T : Type} (db : ObjectDb T).

(** [path.as_slice() >= resume_path]. *)
Definition reached (resume_path path : bytes) : bool := bytes_leb resume_path path.

(** Whether the pathspecs select a path. *)
Definition selects (w : BlobWalk) (path : bytes) : bool :=
  matcher_matches (bw_matcher w) (relative_to_scope path (bw_scope w)).

(** The filter chain of [read_entries]; the last one inserts as it tests. *)
Fixpoint pending_blobs (w : BlobWalk) (prefix : bytes) (entries : list OwnedTreeEntry) (seen : gset Oid)
  : list Oid * gset Oid :=
  match entries with
  | [] => ([], seen)
  | e :: entries =>
      let path := join_path prefix (oe_name e) in
      if bool_decide (oe_kind e = KBlob)
         && (selects w path && match bw_resume_path w with
                               | Some resume => reached resume path
                               | None => true
                               end) then
        if bool_decide (oe_oid e ∈ seen) then pending_blobs w prefix entries seen
        else let '(oids, seen) := pending_blobs w prefix entries ({[oe_oid e]} ∪ seen) in
             (oe_oid e :: oids, seen)
      else pending_blobs w prefix entries seen
  end.

Fixpoint prefetch_windows (windows : list (list Oid)) : DM T unit :=
  match windows with
  | [] => sret tt
  | window :: windows =>
      let! _ := prefetch db window in
      prefetch_windows windows
  end.

(** [BlobWalk::read_entries]. *)
Definition read_entries (w : BlobWalk) (oid : Oid) (prefix : bytes)
  : DM T (list OwnedTreeEntry * BlobWalk) :=
  let! entries := (if bw_replaying w then read_tree_entries_for_graph_walk db oid
                   else read_tree_entries_for_walk db oid true) in
  if supports_prefetch db then
    let '(pending, seen) := pending_blobs w prefix entries (bw_prefetched w) in
    let! _ := prefetch_windows (chunks (length pending) BLOB_PREFETCH_WINDOW pending) in
    sret (entries, set_prefetched seen w)
  else sret (entries, w).

(** [BlobWalk::new]. *)
Definition BlobWalk_new (tree_oid : Oid) (scope : bytes) (pathspecs : list bytes)
  (resume_path : option bytes) : DM T BlobWalk :=
  let w := mkBlobWalk scope (mkMatcher pathspecs) [] (bool_decide (is_Some resume_path)) resume_path ∅ in
  let! (entries, w) := read_entries w tree_oid scope in
  sret (set_stack [(entries, scope)] w).

(** [BlobWalk::next]. *)
Fixpoint blob_next (fuel : nat) (w : BlobWalk) : DM T (option BlobCandidate * BlobWalk) :=
  match fuel with
  | O => sthrow walk_diverged
  | S fuel =>
      let! _ := on_budget check in
      match bw_stack w with
      | [] => sret (None, w)
      | ([], _) :: stack => blob_next fuel (set_stack stack w)
      | (e :: entries, prefix) :: stack =>
          let w := set_stack ((entries, prefix) :: stack) w in
          let path := join_path prefix (oe_name e) in
          if bool_decide (oe_kind e = KTree) then
            let! (children, w) := read_entries w (oe_oid e) path in
            blob_next fuel (set_stack ((children, path) :: bw_stack w) w)
          else if negb (bool_decide (oe_kind e = KBlob)) || negb (selects w path) then blob_next fuel w
          else
            let w := match bw_resume_path w with
                     | Some resume => if reached resume path then set_replaying false w else w
                     | None => w
                     end in
            sret (Some (mkCandidate path (oe_oid e)), w)
      end
  end.

End Walk.

(* ------------------------------------------------------------------ *)
(** ** The walk offers the selected blobs in order *)

(** The blobs a search visits among everything below a tree. *)
Definition candidate `{GixGlob} (scope : bytes) (pathspecs : list bytes) (v : bytes * OwnedTreeEntry) : Prop :=
  oe_kind v.2 = KBlob /\ matcher_matches (mkMatcher pathspecs) (relative_to_scope v.1 scope) = true.
#[export] Instance candidate_dec `{GixGlob} scope pathspecs v : Decision (candidate scope pathspecs v).
Proof. unfold candidate. apply _. Defined.

Definition candidates `{GixGlob} (scope : bytes) (pathspecs : list bytes) (vs : list (bytes * OwnedTreeEntry))
  : list BlobCandidate :=
  (fun v => mkCandidate v.1 (oe_oid v.2)) <$> filter (candidate scope pathspecs) vs.

Section WalkSpec.
Context `{Env, GixObject, GixGlob} {T : Type} (db : ObjectDb T) (c : Oid -> ObjectReadResult)
        (I : T -> Prop) (F : ErrorCode -> Prop).
Context `{!LawfulDb db c I F, !SizedDb db c I}.
Hypothesis F_stop : forall e, budget_stop e -> F (code e).
Context (l : BudgetLimits) (scope : bytes) (pathspecs : list bytes).

Abbreviation triple := (hoare (on_limits I l) (fun e => F (code e))).

Lemma triple_check : triple (on_budget check) (fun _ => True).
Proof. apply hoare_on_limits; [by apply hoare_check|apply keeps_check]. Qed.

Lemma triple_prefetch oids : triple (prefetch db oids) (fun _ => True).
Proof. apply hoare_on_limits; [apply law_prefetch|apply keeps_prefetch]. Qed.

Lemma prefetch_children_spec es : triple (prefetch_children db es) (fun _ => True).
Proof. unfold prefetch_children. destruct (oe_oid <$> _); [by apply hoare_ret|apply triple_prefetch]. Qed.

Lemma read_for_walk oid es :
  tree_of db c oid = Ok es -> triple (read_tree_entries_for_walk db oid true) (fun r => r = es).
Proof.
  intros Ht. unfold read_tree_entries_for_walk, read_tree_entries. eapply hoare_bind.
  { eapply hoare_bind; [apply hoare_on_limits; [apply law_find|apply keeps_find]|].
    intros v ->. apply (hoare_lift _ _ _ (fun r => r = es)). unfold tree_of in Ht. by rewrite Ht. }
  intros r ->. eapply (hoare_bind _ _ _ _ (fun _ => True)); [|intros _ _; by apply hoare_ret].
  destruct (_ && _); [apply prefetch_children_spec|by apply hoare_ret].
Qed.

Lemma read_for_graph_walk oid es :
  tree_of db c oid = Ok es -> triple (read_tree_entries_for_graph_walk db oid) (fun r => r = es).
Proof.
  intros Ht. unfold read_tree_entries_for_graph_walk, read_tree_entries_graph. eapply hoare_bind.
  { eapply hoare_bind; [apply hoare_on_limits; [apply law_graph|apply keeps_graph]|].
    intros v ->. apply (hoare_lift _ _ _ (fun r => r = es)). unfold tree_of in Ht. by rewrite Ht. }
  intros r ->. eapply (hoare_bind _ _ _ _ (fun _ => True)); [|intros _ _; by apply hoare_ret].
  destruct (supports_prefetch db); [apply prefetch_children_spec|by apply hoare_ret].
Qed.

Lemma prefetch_windows_spec ws : triple (prefetch_windows db ws) (fun _ => True).
Proof.
  induction ws as [|w ws IH]; cbn [prefetch_windows]; [by apply hoare_ret|].
  eapply hoare_bind; [apply triple_prefetch|]. intros _ _. apply IH.
Qed.

(** What a walk keeps fixed: only its position moves. *)
Definition same_walk (w w' : BlobWalk) : Prop :=
  bw_scope w' = bw_scope w /\ bw_matcher w' = bw_matcher w /\ bw_resume_path w' = bw_resume_path w.

Lemma read_entries_spec w oid prefix es :
  tree_of db c oid = Ok es ->
  triple (read_entries db w oid prefix)
    (fun r => r.1 = es /\ same_walk w r.2 /\ bw_stack r.2 = bw_stack w).
Proof.
  intros Ht. unfold read_entries. eapply (hoare_bind _ _ _ _ (fun r => r = es)).
  { destruct (bw_replaying w); [by apply read_for_graph_walk|by apply read_for_walk]. }
  intros r ->. destruct (supports_prefetch db); [|by apply hoare_ret].
  destruct (pending_blobs _ _ _ _) as [pending seen].
  eapply hoare_bind; [apply prefetch_windows_spec|]. intros _ _. by apply hoare_ret.
Qed.

(** A walk whose remaining work is [vs]. *)
Definition walks (w : BlobWalk) (vs : list (bytes * OwnedTreeEntry)) : Prop :=
  bw_scope w = scope /\ bw_matcher w = mkMatcher pathspecs /\ stack_under db c (bw_stack w) vs.
Definition work (w : BlobWalk) (vs : list (bytes * OwnedTreeEntry)) : nat :=
  (2 * length vs + length (bw_stack w))%nat.

Lemma BlobWalk_new_spec tree es vs resume_path :
  tree_of db c tree = Ok es -> under db c es scope vs ->
  triple (BlobWalk_new db tree scope pathspecs resume_path)
    (fun w => walks w vs /\ work w vs = (2 * length vs + 1)%nat).
Proof.
  intros Ht Hv. unfold BlobWalk_new. eapply hoare_bind; [by apply read_entries_spec|].
  intros [es' w] (Hes & (Hs & Hm & Hr) & _). simpl in *. subst es'. apply hoare_ret. split; [|done].
  split; [done|]. split; [done|]. simpl. rewrite <- (app_nil_r vs). by repeat constructor.
Qed.

(** What [next] promises: the first candidate left, or none. *)
Definition next_result (n : nat) (vs : list (bytes * OwnedTreeEntry)) (r : option BlobCandidate * BlobWalk) : Prop :=
  match r.1 with
  | None => candidates scope pathspecs vs = []
  | Some cand => exists vs', candidates scope pathspecs vs = cand :: candidates scope pathspecs vs' /\
                   walks r.2 vs' /\ (work r.2 vs' < n)%nat
  end.

Lemma next_result_mono n n' vs vs' r :
  (n <= n')%nat -> candidates scope pathspecs vs = candidates scope pathspecs vs' ->
  next_result n vs r -> next_result n' vs' r.
Proof.
  unfold next_result. intros Hn <-. destruct r.1; [|done]. intros (v & Hv & Hw & Hk). exists v.
  split; [done|]. split; [done|lia].
Qed.

Lemma candidates_skip v vs :
  ~ candidate scope pathspecs v -> candidates scope pathspecs (v :: vs) = candidates scope pathspecs vs.
Proof. intros Hv. unfold candidates. by rewrite filter_cons, decide_False. Qed.

Lemma blob_next_spec fuel w vs :
  walks w vs -> (work w vs < fuel)%nat -> triple (blob_next db fuel w) (next_result (work w vs) vs).
Proof.
  revert w vs. induction fuel as [|fuel IH]; intros w vs (Hsc & Hm & Hst) Hf; [lia|]. cbn [blob_next].
  eapply hoare_bind; [apply triple_check|]. intros _ _. unfold work in *.
  inversion Hst as [Es|es prefix stack vs1 vs2 Hu Hs2 Es]; subst.
  { by apply hoare_ret. }
  rewrite <- Es in Hf. simpl in Hf.
  destruct Hu as [prefix|e es prefix vs Hk Hu|e es prefix children va vb Hk Ht Hua Hub].
  - eapply hoare_post; [apply (IH _ vs2); [by split|unfold work; simpl in *; lia]|].
    intros r. apply next_result_mono; [unfold work; simpl; lia|done].
  - assert (walks (set_stack ((es, prefix) :: stack) w) (vs ++ vs2)) as Hnext by (split_and!; [done|done|by constructor]).
    rewrite bool_decide_eq_false_2 by done. destruct (negb _ || negb _) eqn:Eb.
    + eapply hoare_post; [apply (IH _ _ Hnext); unfold work; simpl in *; lia|].
      intros r. apply next_result_mono; [unfold work; simpl; lia|]. simpl. rewrite candidates_skip; [done|].
      intros [Hb Hsel]. simpl in Hb, Hsel. rewrite (bool_decide_eq_true_2 (oe_kind e = KBlob)) in Eb by done.
      unfold selects in Eb. simpl in Eb. rewrite Hm, Hsc, Hsel in Eb. done.
    + apply orb_false_iff in Eb as [Eb1 Eb2]. rewrite negb_false_iff in Eb1, Eb2. apply bool_decide_eq_true in Eb1.
      unfold selects in Eb2. simpl in Eb2. rewrite Hm, Hsc in Eb2. apply hoare_ret. exists (vs ++ vs2). split.
      { unfold candidates. simpl. rewrite filter_cons, decide_True by done. done. }
      destruct (bw_resume_path _); [|by split; [|unfold work; simpl; lia]].
      destruct (reached _ _); (split; [exact Hnext|unfold work; simpl; lia]).
  - rewrite bool_decide_eq_true_2 by done. eapply hoare_bind; [by apply read_entries_spec|].
    intros [ch w'] (Hch & (Hs' & Hm' & _) & Hst'). simpl in *. subst ch. rewrite Hst'.
    eapply hoare_post; [apply (IH _ (va ++ vb ++ vs2))|].
    + split_and!; [simpl; congruence|simpl; congruence|]. simpl. constructor; [done|]. by constructor.
    + unfold work. simpl. rewrite !length_app in *. lia.
    + intros r. apply next_result_mono; [unfold work; simpl; rewrite !length_app; simpl; lia|].
      rewrite candidates_skip; [by rewrite <- app_assoc|]. intros [Hb _]. simpl in Hb. congruence.
Qed.

End WalkSpec.

(** On canonical trees the candidates come in byte order of their paths. *)
Lemma candidates_sorted `{GixObject, GixGlob} {T} (db : ObjectDb T) c scope pathspecs es vs :
  trees_canonical db c -> under db c es scope vs -> Forall name_ok es -> StronglySorted git_lt es ->
  StronglySorted (fun x y => bytes_lt (bc_path x) (bc_path y)) (candidates scope pathspecs vs).
Proof.
  intros Hcan Hu Hn Hs. pose proof (under_sorted db c es scope vs Hcan Hu Hn Hs) as Hsort.
  assert (filter (candidate scope pathspecs) vs = filter (candidate scope pathspecs) (files vs)) as Hf.
  { unfold files. rewrite list_filter_filter. apply list_filter_iff. intros v. unfold candidate.
    split; [intros [Hk Hm]; split; [done|congruence]|naive_solver]. }
  unfold candidates. rewrite Hf. apply (StronglySorted_filter _ (candidate scope pathspecs)) in Hsort.
  clear Hf. induction Hsort as [|v vs' Hvs IH Hv]; cbn [fmap list_fmap]; [constructor|].
  constructor; [apply IH|by apply Forall_fmap].
Qed.

(* ------------------------------------------------------------------ *)
(** ** Walked paths are valid and below the scope *)

Lemma split_on_app {A} (f : A -> bool) a x b :
  f x = true -> split_on f (a ++ x :: b) = split_on f a ++ split_on f b.
Proof.
  intros Hx. induction a as [|y a IH]; simpl; [by rewrite Hx|]. destruct (f y); [by rewrite IH|].
  rewrite IH. pose proof (split_on_ne f a). by destruct (split_on f a).
Qed.

Lemma validate_segments_app ss ss' :
  validate_segments (ss ++ ss') = Ok tt <-> validate_segments ss = Ok tt /\ validate_segments ss' = Ok tt.
Proof.
  induction ss as [|s ss IH]; cbn [validate_segments app]; [naive_solver|].
  destruct (_ || _); [naive_solver|]. case_bool_decide; [naive_solver|]. apply IH.
Qed.

Lemma validate_name name :
  validate_tree_name name = Ok tt ->
  name <> [] /\ existsb (beq x00) name = false /\ split_on is_slash name = [name] /\
  validate_segments [name] = Ok tt.
Proof.
  unfold validate_tree_name. destruct (_ || _) eqn:E; [done|]. intros _. rewrite !orb_false_iff in E.
  destruct E as [[[[E1 E2] E3] E4] E5]. apply bool_decide_eq_false in E1. split; [done|]. split; [done|]. split.
  - apply split_on_last. apply existsb_beq_false in E3. eapply Forall_impl; [exact E3|]. intros b Hb.
    unfold is_slash. apply beq_false in Hb. apply beq_false. congruence.
  - cbn [validate_segments]. rewrite E4, E5. cbn [orb]. by rewrite bool_decide_eq_false_2.
Qed.

Lemma validate_join prefix name :
  validate_path prefix = Ok tt -> validate_tree_name name = Ok tt -> validate_path (join_path prefix name) = Ok tt.
Proof.
  intros Hp Hn. destruct (validate_name _ Hn) as (Hne & H0 & Hs & Hv). unfold validate_path, join_path in *.
  destruct (existsb (beq x00) prefix) eqn:E0; [done|]. case_bool_decide as Ep.
  - by rewrite H0, bool_decide_eq_false_2, Hs by done.
  - rewrite existsb_app, E0. cbn [existsb orb]. rewrite H0. cbn [orb beq].
    rewrite bool_decide_eq_false_2 by (by destruct prefix). rewrite split_on_app, Hs by done.
    by apply validate_segments_app.
Qed.

Section Paths.
Context `{GixObject, GixGlob} {T : Type} (db : ObjectDb T) (c : Oid -> ObjectReadResult).

Lemma tree_of_valid oid es :
  tree_of db c oid = Ok es -> Forall (fun e => validate_tree_name (oe_name e) = Ok tt) es.
Proof.
  unfold tree_of, entries_of_read, decode_owned_tree_entries. intros E.
  apply rbind_Ok in E as ([k p] & _ & E). case_bool_decide; [|done]. cbn [negb] in E.
  apply map_res_Ok in E. induction E as [|? e ? ? Hx _ IH]; constructor; [|done].
  unfold owned_entry in Hx. apply rbind_Ok in Hx as (te & _ & Hx). apply rbind_Ok in Hx as ([] & Hv & Hx).
  apply rbind_Ok in Hx as (kd & _ & [= <-]). done.
Qed.

Lemma dir_prefix_join_path prefix name :
  name <> [] -> dir_prefix (join_path prefix name) = dir_prefix prefix ++ name ++ [x2f].
Proof.
  intros Hn. rewrite join_dir_prefix. unfold dir_prefix at 1.
  rewrite bool_decide_eq_false_2 by (by intros [_ ?]%app_eq_nil). by rewrite <- app_assoc.
Qed.

Lemma under_paths es prefix vs v :
  under db c es prefix vs -> validate_path prefix = Ok tt ->
  Forall (fun e => validate_tree_name (oe_name e) = Ok tt) es -> v ∈ vs ->
  validate_path v.1 = Ok tt /\ exists r, r <> [] /\ v.1 = dir_prefix prefix ++ r.
Proof.
  intros Hu. revert v.
  induction Hu as [|e es prefix vs Hk _ IH|e es prefix children va vb Hk Ht _ IH1 _ IH2];
    intros v Hp Hn Hv; [by apply not_elem_of_nil in Hv|..]; apply Forall_cons in Hn as [He Hn];
    (apply elem_of_cons in Hv as [->|Hv];
      [split; [by apply validate_join|]; exists (oe_name e); split; [by apply validate_name|apply join_dir_prefix]|]).
  - by apply IH.
  - apply elem_of_app in Hv as [Hv|Hv]; [|by apply IH2].
    destruct (IH1 v) as [Hv1 (r & Hr & Hvr)]; [by apply validate_join|by eapply tree_of_valid|done|].
    split; [done|]. rewrite dir_prefix_join_path in Hvr by (by apply validate_name).
    exists (oe_name e ++ [x2f] ++ r). split; [by intros [_ [? ?]%app_eq_nil]%app_eq_nil|]. by rewrite Hvr, <- !app_assoc.
Qed.

End Paths.
