(* ===== verification/Search.v ===== *)
(** * Content search ([search.rs])

    The query over the blobs of a snapshot: scanning each blob once through
    the scan cache, emitting matching lines up to the page's limits, fitting
    the continuation cursor, and resuming from one. The reference is the list
    of all matching lines of all selected blobs in path order. *)

From Stdlib Require Import NArith Lia Strings.Byte Strings.String.
From stdpp Require Import prelude gmap strings list pretty sorting.
From S2P Require Import Prelude Errors Objects Budget Lru Cursor Odb Decode Snapshot.
From S2P Require Import Pathspec Tree File Btree Scan BlobWalk.

Open Scope N_scope.

Definition SCAN_CACHE_MATCH_CAP : N := 64 * 1024.

(** [SearchMatch] and [SearchPage]. *)
Record SearchMatch : Type := mkSearchMatch {
  sm_commit_oid : Oid;
  sm_blob_oid : Oid;
  sm_path : bytes;
  sm_line : N;
  sm_column : N;
  sm_preview : bytes;
  sm_preview_truncated : bool;
  sm_submatches : list SearchSubmatch;
  sm_submatches_truncated : bool;
  sm_context_before : list bytes;
  sm_context_after : list bytes
}.

Record SearchPage : Type := mkSearchPage {
  sp_matches : list SearchMatch;
  sp_next_cursor : option bytes;
  sp_truncated : bool;
  sp_stats : QueryStats
}.

(** [SearchMatch::payload_bytes]: lengths of vectors, so the sums of the
    source are below [usize::MAX]. *)
Definition payload_bytes (m : SearchMatch) : N :=
  let byte_vectors := lenN (sm_preview m) + lenN (sm_path m)
                      + foldr (fun l acc => lenN l + acc) 0 (sm_context_before m ++ sm_context_after m) in
  let fixed := lenN (as_bytes (sm_commit_oid m)) + lenN (as_bytes (sm_blob_oid m)) + 16
               + 32 * lenN (sm_submatches m) in
  N.min (byte_vectors + fixed) u64_max.

(** [ScannedBlob] and [EmitOutcome]. *)
Record ScannedBlob : Type := mkScanned { sb_scan : CachedScan; sb_payload : option bytes }.
Inductive EmitOutcome : Type :=
| EComplete
| EStopped (limit : string).

(** [missing_blob] and [truncatable]. *)
Definition missing_blob (oid : Oid) : Error :=
  with_oid oid (Error_retryable MissingObject
                  ("blob object " ++ oid_str oid ++ " is missing from the object store")).
Definition non_blob (oid : Oid) : Error :=
  with_oid oid (Error_new MalformedObject ("tree blob " ++ oid_str oid ++ " addresses a non-blob object")).
Definition truncatable (e : Error) : bool :=
  bool_decide (code e = BudgetExceeded)
  && negb (bool_decide (limit e = Some "max_provider_requests"%string)
           || bool_decide (limit e = Some "max_provider_bytes"%string)).

(** [validate_options]. *)
Definition validate_options (opts : SearchOptions) : Res unit :=
  let? _ := validate_path (so_path opts) in
  if (so_limit opts =? 0)%nat then
    Err (Error_new InvalidArgument "search page limit must be greater than zero")
  else if so_max_result_bytes opts =? 0 then
    Err (Error_new InvalidArgument "search max_result_bytes must be greater than zero")
  else if MAX_CONTEXT_LINES <? so_context_lines opts then
    Err (Error_new InvalidArgument ("context_lines must not exceed " ++ pretty MAX_CONTEXT_LINES))
  else Ok tt.

(** [option_fingerprint]. *)
Definition search_fingerprint (query : bytes) (opts : SearchOptions) : N :=
  fnv1a_64
    (bs "gitility:search:options:v1" ++ [x00]
     ++ push_bytes query
     ++ [match so_mode opts with MLiteral => x00 | MRegex => x01 end]
     ++ [bool_byte (so_case_sensitive opts)]
     ++ push_bytes (so_path opts)
     ++ le_bytes 4 (u32_len (so_pathspecs opts))
     ++ (stable_sort id (so_pathspecs opts) ≫= push_bytes)
     ++ [match so_binary opts with Skip => x00 | Text => x01 end]
     ++ le_bytes 4 (so_context_lines opts)).

(** The query a search cursor is bound to, and the cursor after the match
    [ordinal] of [path]. *)
Definition search_expected (snapshot : Snapshot) (fingerprint : N) : CursorExpected :=
  mkExpected (oid_kind (commit_oid snapshot)) (as_bytes (commit_oid snapshot)) OPERATION_SEARCH fingerprint.
Definition search_cursor (snapshot : Snapshot) (fingerprint : N) (path : bytes) (ordinal : N) : Cursor :=
  mkCursor (oid_kind (commit_oid snapshot)) (as_bytes (commit_oid snapshot)) OPERATION_SEARCH
    fingerprint [] (le_bytes 4 ordinal ++ path).

(** [decode_resume]. *)
Definition decode_resume (snapshot : Snapshot) (opts : SearchOptions) (fingerprint : N)
  : Res (option (bytes * N)) :=
  match so_cursor opts with
  | None => Ok None
  | Some encoded =>
      let? decoded := decode encoded (search_expected snapshot fingerprint) in
      if negb (bool_decide (cur_generation decoded = [])) then
        Err (cursor_invalid "generation check failed for this object store")
      else if (length (cur_position decoded) <? 4)%nat then
        Err (cursor_invalid "position is missing its match ordinal")
      else
        let ordinal_bytes := take 4 (cur_position decoded) in
        let path := drop 4 (cur_position decoded) in
        if bool_decide (path = []) then Err (cursor_invalid "position is missing its path")
        else
          let? _ := map_err (fun _ => cursor_invalid "position path check failed") (validate_path path) in
          if negb (bool_decide (so_path opts = []))
             && negb (starts_with path (so_path opts)
                      && bool_decide (path !! length (so_path opts) = Some x2f)
                      && (length (so_path opts) + 1 <? length path)%nat) then
            Err (cursor_invalid "position path is outside the searched tree")
          else Ok (Some (path, le_num ordinal_bytes))
  end.

(** What [emit_matches] appends to: [matches], [positions] and
    [payload_bytes]. *)
Record Emitted : Type := mkEmitted {
  em_matches : list SearchMatch;
  em_positions : list (bytes * N);
  em_bytes : N
}.
Definition push_match (item : SearchMatch) (path : bytes) (ordinal : N) (em : Emitted) : Emitted :=
  mkEmitted (em_matches em ++ [item]) (em_positions em ++ [(path, ordinal)])
    (sadd64 (em_bytes em) (payload_bytes item)).

(** [fit_cursor]: every turn but the last pops an item. *)
Definition pop_match (removed : SearchMatch) (em : Emitted) : Emitted :=
  mkEmitted (take (length (em_matches em) - 1) (em_matches em))
    (take (length (em_positions em) - 1) (em_positions em))
    (ssub64 (em_bytes em) (payload_bytes removed)).
Definition search_panic : Error := Error_new InternalError "panic".

Fixpoint fit_cursor (fuel : nat) (snapshot : Snapshot) (fingerprint max_result_bytes : N) (em : Emitted)
  (stopped_by : option string) : Res (bytes * Emitted * option string) :=
  match fuel with
  | O => Err scan_diverged
  | S fuel =>
      match last (em_positions em) with
      | None =>
          Err (with_limit (default "budget"%string stopped_by)
                 (Error_new BudgetExceeded "budget exhausted before any search pagination progress"))
      | Some (path, ordinal) =>
          let encoded := encode (search_cursor snapshot fingerprint path ordinal) in
          let pop := match last (em_matches em) with
                     | None => Err search_panic
                     | Some removed =>
                         fit_cursor fuel snapshot fingerprint max_result_bytes (pop_match removed em)
                           (Some "max_result_bytes"%string)
                     end in
          if (MAX_CURSOR_BYTES <? length encoded)%nat then
            if (length (em_matches em) =? 1)%nat then
              Err (Error_new ResultTooLarge "search continuation path exceeds the cursor size limit")
            else pop
          else
            let first_item_alone_exceeds :=
              (length (em_matches em) =? 1)%nat && (max_result_bytes <? em_bytes em) in
            if first_item_alone_exceeds || (sadd64 (em_bytes em) (lenN encoded) <=? max_result_bytes) then
              Ok (encoded, em, stopped_by)
            else if (length (em_matches em) =? 1)%nat then
              Err (with_limit "max_result_bytes"
                     (Error_new BudgetExceeded "budget exhausted before any search pagination progress"))
            else pop
      end
  end.

Section SearchOps.
Context `{Env, GixObject, GixGlob, ByteFind, RegexEngine} {T : Type} (db : ObjectDb T).

(** [read_blob_payload]. *)
Definition read_blob_payload (oid : Oid) : DM T (option bytes) :=
  fun w =>
    match try_find_graph db oid w with
    | (Ok None, w) => (Err (missing_blob oid), w)
    | (Ok (Some (kind, payload)), w) =>
        if negb (bool_decide (kind = Blob)) then (Err (non_blob oid), w) else (Ok (Some payload), w)
    | (Err e, w) => if bool_decide (code e = ObjectTooLarge) then (Ok None, w) else (Err e, w)
    end.

(** [scan_blob]. *)
Definition scan_blob (oid : Oid) (m : CompiledMatcher) (opts : SearchOptions) : DM T ScannedBlob :=
  let! _ := on_budget check in
  let! found := try_header_with_provenance db oid in
  let! header := slift (ok_or (missing_blob oid) found) in
  if negb (bool_decide (hdr_kind (hr_header header) = Blob)) then
    sthrow (match hr_provenance header with
            | UnverifiedProvider =>
                with_oid oid (Error_new ProviderProtocolError "provider header contradicts tree entry kind")
            | Verified => non_blob oid
            end)
  else
    let! max := sget (fun w => max_object_bytes (limits w.1)) in
    if max <? hdr_size (hr_header header) then sret (mkScanned OversizeSkipped None)
    else
      let! read := read_blob_payload oid in
      match read with
      | None => sret (mkScanned OversizeSkipped None)
      | Some payload =>
          let! _ := on_budget check in
          if bool_decide (so_binary opts = Skip) && is_binary_payload payload then
            sret (mkScanned BinarySkipped (Some payload))
          else
            let! matches := on_budget (scan_payload payload m (so_context_lines opts)) in
            sret (mkScanned (Matches matches) (Some payload))
      end.

(** The item of one line record, in [emit_matches]. *)
Definition emit_item (snapshot : Snapshot) (cand : BlobCandidate) (payload : bytes) (m : CompiledMatcher)
  (cached : CachedLineMatch) : BM SearchMatch :=
  let preview := span_slice payload (lm_preview cached) in
  let line := span_slice payload (mkSpan (sp_start (lm_preview cached)) (lm_line_end cached)) in
  let! (submatches, submatches_truncated) := preview_submatches m line (length preview) in
  sret (mkSearchMatch (commit_oid snapshot) (bc_oid cand) (bc_path cand) (lm_line cached)
          (lm_column cached) preview (sp_end (lm_preview cached) <? lm_line_end cached)
          submatches submatches_truncated
          (materialize_lines payload (lm_context_before cached))
          (materialize_lines payload (lm_context_after cached))).

(** The loop of [emit_matches] from the record [ordinal]. *)
Fixpoint emit_loop (snapshot : Snapshot) (cand : BlobCandidate) (payload : bytes) (m : CompiledMatcher)
  (opts : SearchOptions) (cached_matches : list CachedLineMatch) (ordinal : nat) (em : Emitted)
  : BM (EmitOutcome * Emitted) :=
  match cached_matches with
  | [] => sret (EComplete, em)
  | cached :: cached_matches =>
      let! _ := check in
      if (length (em_matches em) =? so_limit opts)%nat then sret (EStopped "limit", em)
      else
        let! item := emit_item snapshot cand payload m cached in
        let! position := slift (if N.of_nat ordinal <=? u32_max then Ok (N.of_nat ordinal)
                                else Err (with_limit "max_result_bytes"
                                            (Error_new ResultTooLarge
                                               "one file has too many matching lines for a search cursor"))) in
        if so_max_result_bytes opts <? sadd64 (em_bytes em) (payload_bytes item) then
          sret (EStopped "max_result_bytes",
                if bool_decide (em_matches em = []) then push_match item (bc_path cand) position em else em)
        else
          emit_loop snapshot cand payload m opts cached_matches (S ordinal)
            (push_match item (bc_path cand) position em)
  end.

(** [emit_matches]. *)
Definition emit_matches (snapshot : Snapshot) (cand : BlobCandidate) (cached_matches : list CachedLineMatch)
  (payload : bytes) (m : CompiledMatcher) (start_ordinal : option N) (opts : SearchOptions) (em : Emitted)
  : BM (EmitOutcome * Emitted) :=
  let! start := slift (match start_ordinal with
                       | Some start =>
                           if lenN cached_matches <=? start - 1 then
                             Err (cursor_invalid "position check failed: match ordinal is outside the file")
                           else Ok (N.to_nat start)
                       | None => Ok 0%nat
                       end) in
  emit_loop snapshot cand payload m opts (drop start cached_matches) start em.

(** The variables of the loop of [search]. *)
Record SearchState : Type := mkSearchState {
  ss_cache : @Cache.LruCache Oid CachedScan _ _;
  ss_emitted : Emitted;
  ss_found_resume : bool;
  ss_files_scanned : N;
  ss_blobs_deduped : N;
  ss_binary_skipped : N;
  ss_oversize_skipped : N;
  ss_payload_rereads : N;
  ss_visited : gset Oid;
  ss_payload_reads : gset Oid
}.

Definition set_cache (v : Cache.LruCache) (s : SearchState) : SearchState :=
  mkSearchState v (ss_emitted s) (ss_found_resume s) (ss_files_scanned s) (ss_blobs_deduped s)
    (ss_binary_skipped s) (ss_oversize_skipped s) (ss_payload_rereads s) (ss_visited s) (ss_payload_reads s).
Definition set_emitted (v : Emitted) (s : SearchState) : SearchState :=
  mkSearchState (ss_cache s) v (ss_found_resume s) (ss_files_scanned s) (ss_blobs_deduped s)
    (ss_binary_skipped s) (ss_oversize_skipped s) (ss_payload_rereads s) (ss_visited s) (ss_payload_reads s).
Definition set_found (s : SearchState) : SearchState :=
  mkSearchState (ss_cache s) (ss_emitted s) true (ss_files_scanned s) (ss_blobs_deduped s)
    (ss_binary_skipped s) (ss_oversize_skipped s) (ss_payload_rereads s) (ss_visited s) (ss_payload_reads s).

(** [visited_blobs.insert] with the duplicate counter. *)
Definition visit_blob (oid : Oid) (s : SearchState) : bool * SearchState :=
  let first := bool_decide (oid ∉ ss_visited s) in
  (first,
   mkSearchState (ss_cache s) (ss_emitted s) (ss_found_resume s) (ss_files_scanned s)
     (if first then ss_blobs_deduped s else sadd64 (ss_blobs_deduped s) 1)
     (ss_binary_skipped s) (ss_oversize_skipped s) (ss_payload_rereads s)
     ({[oid]} ∪ ss_visited s) (ss_payload_reads s)).

(** [payload_reads.insert] with the reread counter. *)
Definition read_payload (oid : Oid) (s : SearchState) : SearchState :=
  mkSearchState (ss_cache s) (ss_emitted s) (ss_found_resume s) (ss_files_scanned s) (ss_blobs_deduped s)
    (ss_binary_skipped s) (ss_oversize_skipped s)
    (if bool_decide (oid ∈ ss_payload_reads s) then sadd64 (ss_payload_rereads s) 1
     else ss_payload_rereads s)
    (ss_visited s) ({[oid]} ∪ ss_payload_reads s).

(** The statistics of a scan, counted at the first visit of a blob. *)
Definition count_scan (scan : CachedScan) (first : bool) (s : SearchState) : SearchState :=
  if first then
    mkSearchState (ss_cache s) (ss_emitted s) (ss_found_resume s)
      (match scan with Matches _ => sadd64 (ss_files_scanned s) 1 | _ => ss_files_scanned s end)
      (ss_blobs_deduped s)
      (match scan with BinarySkipped => sadd64 (ss_binary_skipped s) 1 | _ => ss_binary_skipped s end)
      (match scan with OversizeSkipped => sadd64 (ss_oversize_skipped s) 1 | _ => ss_oversize_skipped s end)
      (ss_payload_rereads s) (ss_visited s) (ss_payload_reads s)
  else s.

(** The arms [Err(error) if truncatable(&error) && !matches.is_empty()]: the
    page ends with the name of the limit. *)
Definition or_stop {A} (s : SearchState) (m : DM T A) : DM T (string + A) :=
  fun w =>
    match m w with
    | (Ok a, w) => (Ok (inr a), w)
    | (Err e, w) =>
        if truncatable e && negb (bool_decide (em_matches (ss_emitted s) = [])) then
          (Ok (inl (default "budget"%string (limit e))), w)
        else (Err e, w)
    end.

(** Emission into the search state. *)
Definition emit_into (snapshot : Snapshot) (cand : BlobCandidate) (cached_matches : list CachedLineMatch)
  (payload : bytes) (m : CompiledMatcher) (start_ordinal : option N) (opts : SearchOptions) (s : SearchState)
  : DM T (option string * SearchState) :=
  let! (outcome, em) :=
    on_budget (emit_matches snapshot cand cached_matches payload m start_ordinal opts (ss_emitted s)) in
  sret (match outcome with EComplete => None | EStopped limit => Some limit end, set_emitted em s).

Definition no_emitted_matches : Error :=
  cursor_invalid "position check failed: cursor path has no emitted matches".

(** One candidate whose scan is cached. *)
Definition visit_cached (snapshot : Snapshot) (m : CompiledMatcher) (opts : SearchOptions)
  (cand : BlobCandidate) (start_ordinal : option N) (first : bool) (scan : CachedScan) (s : SearchState)
  : DM T (option string * SearchState) :=
  let! charged := or_stop s (on_budget charge_object_visit) in
  match charged with
  | inl limit => sret (Some limit, s)
  | inr _ =>
      match scan with
      | Matches line_matches =>
          let! read := read_blob_payload (bc_oid cand) in
          match read with
          | None => sret (None, count_scan OversizeSkipped first s)
          | Some payload =>
              emit_into snapshot cand line_matches payload m start_ordinal opts (read_payload (bc_oid cand) s)
          end
      | BinarySkipped | OversizeSkipped =>
          if bool_decide (is_Some start_ordinal) then sthrow no_emitted_matches else sret (None, s)
      end
  end.

(** One candidate that is scanned. *)
Definition visit_fresh (snapshot : Snapshot) (m : CompiledMatcher) (opts : SearchOptions)
  (cand : BlobCandidate) (start_ordinal : option N) (first : bool) (s : SearchState)
  : DM T (option string * SearchState) :=
  let! scanned := or_stop s (scan_blob (bc_oid cand) m opts) in
  match scanned with
  | inl limit => sret (Some limit, s)
  | inr scanned =>
      let s := if bool_decide (is_Some (sb_payload scanned)) then read_payload (bc_oid cand) s else s in
      let s := count_scan (sb_scan scanned) first s in
      let! (stopped, s) :=
        match sb_scan scanned with
        | Matches line_matches =>
            match sb_payload scanned with
            | Some payload => emit_into snapshot cand line_matches payload m start_ordinal opts s
            | None => sthrow search_panic
            end
        | BinarySkipped | OversizeSkipped =>
            if bool_decide (is_Some start_ordinal) then sthrow no_emitted_matches else sret (None, s)
        end in
      match stopped with
      | Some limit => sret (Some limit, s)
      | None =>
          match Cache.insert (bc_oid cand) (sb_scan scanned) (cache_weight (sb_scan scanned)) (ss_cache s) with
          | Some cache => sret (None, set_cache cache s)
          | None => sthrow search_panic
          end
      end
  end.

(** Where a candidate of a resumed search starts: skipped, refused, or from an
    ordinal. *)
Definition start_ordinal (resume : option (bytes * N)) (cand : BlobCandidate) (s : SearchState)
  : Res (option (option N * SearchState)) :=
  match resume with
  | Some (resume_path, resume_ordinal) =>
      if ss_found_resume s then Ok (Some (None, s))
      else match bytes_cmp (bc_path cand) resume_path with
           | Lt => Ok None
           | Gt => Err (cursor_invalid "position check failed: path is not in this traversal")
           | Eq => Ok (Some (Some (N.min (resume_ordinal + 1) u32_max), set_found s))
           end
  | None => Ok (Some (None, s))
  end.

(** The body of the loop after [walk.next()]. *)
Definition visit_candidate (snapshot : Snapshot) (m : CompiledMatcher) (opts : SearchOptions)
  (resume : option (bytes * N)) (cand : BlobCandidate) (s : SearchState)
  : DM T (option string * SearchState) :=
  let! started := slift (start_ordinal resume cand s) in
  match started with
  | None => sret (None, s)
  | Some (start, s) =>
      let '(first, s) := visit_blob (bc_oid cand) s in
      match Cache.get (bc_oid cand) (ss_cache s) with
      | None => sthrow search_panic
      | Some (Some scan, cache) => visit_cached snapshot m opts cand start first scan (set_cache cache s)
      | Some (None, cache) => visit_fresh snapshot m opts cand start first (set_cache cache s)
      end
  end.

(** The loop ['walk] of [search]. *)
Fixpoint search_loop (fuel : nat) (snapshot : Snapshot) (m : CompiledMatcher) (opts : SearchOptions)
  (resume : option (bytes * N)) (walk : BlobWalk) (s : SearchState)
  : DM T (option string * SearchState) :=
  match fuel with
  | O => sthrow walk_diverged
  | S fuel' =>
      let! _ := on_budget check in
      let! next := or_stop s (blob_next db fuel walk) in
      match next with
      | inl limit => sret (Some limit, s)
      | inr (None, _) => sret (None, s)
      | inr (Some cand, walk) =>
          let! (stopped, s) := visit_candidate snapshot m opts resume cand s in
          match stopped with
          | Some limit => sret (Some limit, s)
          | None => search_loop fuel' snapshot m opts resume walk s
          end
      end
  end.

(** The end of [search]: the cursor, the page and its statistics. *)
Definition finish_search (snapshot : Snapshot) (fingerprint : N) (opts : SearchOptions)
  (stopped_by : option string) (s : SearchState) : DM T SearchPage :=
  if negb (ss_found_resume s) then
    sthrow (cursor_invalid "position check failed: path is not in this traversal")
  else
    let! (next_cursor, em, stopped_by) :=
      slift (if bool_decide (is_Some stopped_by) then
               let? (encoded, em, stopped_by) :=
                 fit_cursor (S (length (em_positions (ss_emitted s)))) snapshot fingerprint
                   (so_max_result_bytes opts) (ss_emitted s) stopped_by in
               Ok (Some encoded, em, stopped_by)
             else Ok (None, ss_emitted s, stopped_by)) in
    fun '(b, t) =>
      let '(objects_read, bytes_read, _, _) := spent b in
      let '(hits, misses) := cache_spent b in
      (Ok (mkSearchPage (em_matches em) next_cursor (bool_decide (is_Some stopped_by))
             (mkQueryStats objects_read bytes_read (lenN (em_matches em)) hits misses (cache_stats db t)
                (ss_files_scanned s) (ss_blobs_deduped s) (ss_binary_skipped s) (ss_oversize_skipped s)
                (ss_payload_rereads s) stopped_by)),
       (b, t)).

(** [search_with_cache_capacity] and [search]. *)
Definition search_with_cache_capacity (fuel : nat) (snapshot : Snapshot) (query : bytes)
  (opts : SearchOptions) (scan_cache_capacity : N) : DM T SearchPage :=
  let! _ := slift (ensure_query_compatible db snapshot) in
  let! _ := slift (validate_options opts) in
  let! _ := on_budget check in
  let! m := slift (compile query opts) in
  let fingerprint := search_fingerprint query opts in
  let! resume := slift (decode_resume snapshot opts fingerprint) in
  let! resolved := (if bool_decide (is_Some resume)
                    then resolve_path_for_graph_walk db snapshot (so_path opts)
                    else resolve_path db snapshot (so_path opts)) in
  let! tree := slift (tree_choice resolved) in
  let! walk := BlobWalk_new db tree (so_path opts) (so_pathspecs opts) (fst <$> resume) in
  let s := mkSearchState (Cache.LruCache_new scan_cache_capacity) (mkEmitted [] [] 0)
             (negb (bool_decide (is_Some resume))) 0 0 0 0 0 ∅ ∅ in
  let! (stopped_by, s) := search_loop fuel snapshot m opts resume walk s in
  finish_search snapshot fingerprint opts stopped_by s.

Definition search (fuel : nat) (snapshot : Snapshot) (query : bytes) (opts : SearchOptions)
  : DM T SearchPage :=
  search_with_cache_capacity fuel snapshot query opts SCAN_CACHE_MATCH_CAP.

End SearchOps.

(* ------------------------------------------------------------------ *)
(** ** The reference: all matching lines in order *)

(** The match of the line [hit.1], from the lines alone. *)
Definition line_match `{RegexEngine} (snapshot : Snapshot) (cand : BlobCandidate) (m : CompiledMatcher)
  (context : nat) (lines : list bytes) (hit : nat * nat) : SearchMatch :=
  let line := default [] (lines !! hit.1) in
  let occurrences := all_occurrences m line in
  let shown := kept (length (preview_of line)) occurrences in
  mkSearchMatch (commit_oid snapshot) (bc_oid cand) (bc_path cand) (N.of_nat hit.1 + 1) (N.of_nat hit.2)
    (preview_of line) (PREVIEW_BYTES <? length line)%nat
    (clamp (length (preview_of line)) <$> shown) (length shown <? length occurrences)%nat
    (preview_of <$> take (Nat.min context hit.1) (drop (hit.1 - context) lines))
    (preview_of <$> take context (drop (hit.1 + 1) lines)).

Section Reference.
Context `{RegexEngine} (c : Oid -> ObjectReadResult) (snapshot : Snapshot) (opts : SearchOptions)
        (m : CompiledMatcher) (max_bytes : N).

(** What a blob is searched as: blobs over the size limit, and binary ones
    unless asked for, are skipped. *)
Definition searched_text (oid : Oid) : option bytes :=
  match c oid with
  | Some (Blob, payload) =>
      if max_bytes <? lenN payload then None
      else if bool_decide (so_binary opts = Skip) && is_binary_payload payload then None
      else Some payload
  | _ => None
  end.
Definition blob_matches (cand : BlobCandidate) : list SearchMatch :=
  match searched_text (bc_oid cand) with
  | Some payload => line_match snapshot cand m (N.to_nat (so_context_lines opts)) (text_lines payload)
                      <$> hits m (text_lines payload)
  | None => []
  end.

(** The matches of a blob with their cursor positions, and those of a list of
    blobs. *)
Definition blob_entries (cand : BlobCandidate) : list (SearchMatch * (bytes * N)) :=
  imap (fun i item => (item, (bc_path cand, N.of_nat i))) (blob_matches cand).
Definition entries (cands : list BlobCandidate) : list (SearchMatch * (bytes * N)) :=
  cands ≫= blob_entries.

(** A cached scan tells what the reference says. *)
Definition scan_ok (oid : Oid) (scan : CachedScan) : Prop :=
  match scan with
  | Matches rs => exists payload, c oid = Some (Blob, payload) /\ searched_text oid = Some payload /\
      lenN payload <= max_bytes /\
      Forall2 (describes payload (N.to_nat (so_context_lines opts))) (hits m (text_lines payload)) rs
  | BinarySkipped | OversizeSkipped => searched_text oid = None
  end.

(** The positions of a blob, and of the blobs after it. *)
Lemma blob_entries_lookup cand i e :
  blob_entries cand !! i = Some e -> e.2 = (bc_path cand, N.of_nat i).
Proof. unfold blob_entries. rewrite list_lookup_imap. destruct (_ !! i); simpl; [|done]. by intros [= <-]. Qed.

Lemma entries_path cands e :
  e ∈ entries cands -> exists cand, cand ∈ cands /\ e.2.1 = bc_path cand.
Proof.
  unfold entries. intros (cand & He & Hc)%list_elem_of_bind. exists cand. split; [done|].
  apply list_elem_of_lookup in He as [i He]. by rewrite (blob_entries_lookup _ _ _ He).
Qed.

End Reference.

(** What a page being built holds: the entries [es], at most a page of them. *)
Record holds (opts : SearchOptions) (em : Emitted) (es : list (SearchMatch * (bytes * N))) : Prop := {
  h_matches : em_matches em = es.*1;
  h_positions : em_positions em = es.*2;
  h_limit : (length es <= so_limit opts)%nat;
  h_fits : Forall (fun e => e.2.2 + 1 <= u32_max) es
}.

(** One more match on the page. *)
Lemma holds_push opts em es item pos :
  holds opts em es -> (length es < so_limit opts)%nat -> pos.2 + 1 <= u32_max ->
  holds opts (push_match item pos.1 pos.2 em) (es ++ [(item, pos)]).
Proof.
  intros [Hm Hp Hl Hu] Hlt Hpos. destruct pos as [p o]. constructor; simpl.
  - by rewrite Hm, fmap_app.
  - by rewrite Hp, fmap_app.
  - rewrite length_app. simpl. lia.
  - apply Forall_app. by repeat constructor.
Qed.

(* ------------------------------------------------------------------ *)
(** ** Emission *)

Section EmitSpec.
Context `{Env, ByteFind, RegexEngine} (snapshot : Snapshot) (opts : SearchOptions) (m : CompiledMatcher).
Context (d : option N) (l : BudgetLimits) (cand : BlobCandidate) (payload : bytes).
Hypothesis limit_ok : so_limit opts <> 0%nat.

Abbreviation context := (N.to_nat (so_context_lines opts)).
Abbreviation item_of := (line_match snapshot cand m context (text_lines payload)).

Lemma emit_match_spec hit r :
  describes payload context hit r ->
  hoare (framed d l) (stops d) (emit_item snapshot cand payload m r) (fun item => item = item_of hit).
Proof.
  intros [_ Hnum Hcol (line & Hline & Hprev & Hwhole & Htrunc) Hbefore Hafter]. unfold emit_item.
  rewrite Hprev, Hwhole. eapply hoare_bind.
  { apply preview_submatches_spec.
    - unfold preview_of. rewrite length_take. lia.
    - unfold preview_of. rewrite length_take.
      assert (N.of_nat PREVIEW_BYTES <= u32_max) by (vm_compute; discriminate). lia. }
  intros [subs tr] E. simplify_eq. apply hoare_ret. unfold line_match. rewrite Hline. cbn [default from_option id].
  by rewrite Hnum, Hcol, Htrunc, Hbefore, Hafter.
Qed.

(** The entries of the records from an ordinal on. *)
Definition numbered (ordinal : nat) (hs : list (nat * nat)) : list (SearchMatch * (bytes * N)) :=
  imap (fun i hit => (item_of hit, (bc_path cand, N.of_nat (ordinal + i)))) hs.

Lemma numbered_cons ordinal hit hs :
  numbered ordinal (hit :: hs) = (item_of hit, (bc_path cand, N.of_nat ordinal)) :: numbered (S ordinal) hs.
Proof.
  unfold numbered. rewrite imap_cons, Nat.add_0_r. f_equal. apply imap_ext. intros i x _. simpl.
  repeat f_equal. lia.
Qed.

(** What an emission did: it added a prefix of the entries, all of them when it
    completed, and stopped only with something on the page. *)
Definition emits (es todo : list (SearchMatch * (bytes * N))) (r : EmitOutcome * Emitted) : Prop :=
  exists taken rest, todo = taken ++ rest /\ holds opts r.2 (es ++ taken) /\
    match r.1 with
    | EComplete => rest = []
    | EStopped _ => es ++ taken <> []
    end.

Definition emit_failure (e : Error) : Prop := stops d e \/ code e = ResultTooLarge.

Lemma emit_loop_spec hs rs ordinal em es :
  Forall2 (describes payload context) hs rs ->
  (forall i hit, hs !! i = Some hit -> (ordinal + i <= hit.1)%nat) -> holds opts em es ->
  hoare (framed d l) emit_failure (emit_loop snapshot cand payload m opts rs ordinal em)
    (emits es (numbered ordinal hs)).
Proof.
  intros HF. revert ordinal em es. induction HF as [|hit r hs rs Hd HF IH]; intros ordinal em es Hord Hh; cbn [emit_loop].
  { apply hoare_ret. exists [], []. by rewrite (app_nil_r es). }
  eapply hoare_bind; [eapply hoare_conseq; [apply framed_check|intros e He; by left|done]|]. intros _ _.
  assert (N.of_nat ordinal + 1 <= u32_max) as Hu.
  { pose proof (ds_fits _ _ _ _ Hd). specialize (Hord 0%nat hit eq_refl). lia. }
  rewrite numbered_cons. set (entry := (item_of hit, (bc_path cand, N.of_nat ordinal))).
  assert (length (em_matches em) = length es) as Hlen by (rewrite (h_matches _ _ _ Hh); apply length_fmap).
  pose proof (h_limit _ _ _ Hh) as Hlim. rewrite Hlen. destruct (length es =? so_limit opts)%nat eqn:El.
  { apply Nat.eqb_eq in El. apply hoare_ret. exists [], (entry :: numbered (S ordinal) hs). rewrite (app_nil_r es).
    split; [done|]. split; [done|]. intros Ee. rewrite Ee in El. by apply limit_ok. }
  apply Nat.eqb_neq in El.
  eapply hoare_bind; [eapply hoare_conseq; [by apply emit_match_spec|intros e He; by left|intros i Hi; exact Hi]|].
  intros item ->. eapply (hoare_bind _ _ _ _ (fun p => p = N.of_nat ordinal)).
  { apply hoare_lift. destruct (_ <=? _); [done|by right]. }
  intros ? ->. destruct (so_max_result_bytes opts <? _) eqn:Eb; [apply N.ltb_lt in Eb|apply N.ltb_ge in Eb].
  - apply hoare_ret. rewrite (h_matches _ _ _ Hh). case_bool_decide as Ee.
    + apply fmap_nil_inv in Ee. exists [entry], (numbered (S ordinal) hs). subst es. split; [done|].
      split; [|done]. apply (holds_push opts em [] (item_of hit) (bc_path cand, N.of_nat ordinal)); [done|lia|done].
    + exists [], (entry :: numbered (S ordinal) hs). rewrite (app_nil_r es). split; [done|]. split; [done|].
      simpl. by intros ->.
  - eapply hoare_post.
    + apply (IH (S ordinal) _ (es ++ [entry])).
      * intros i h Hi. specialize (Hord (S i) h Hi). lia.
      * apply (holds_push opts em es (item_of hit) (bc_path cand, N.of_nat ordinal)); [done|lia|done].
    + intros [o em'] (taken & rest & -> & Hh' & Ho). exists (entry :: taken), rest. rewrite <- app_assoc in *.
      split; [done|]. split; [done|]. destruct o; [done|]. simpl in *. by destruct es.
Qed.

Lemma numbered_drop n hs : numbered n (drop n hs) = drop n (numbered 0 hs).
Proof.
  assert (forall k hs, numbered (n + k) (drop n hs) = drop n (numbered k hs)) as Hk.
  { induction n as [|n' IH]; intros k hs'; [by rewrite !drop_0|]. destruct hs' as [|h hs']; [done|].
    rewrite numbered_cons. cbn [drop]. rewrite <- IH. f_equal. lia. }
  by rewrite <- (Hk 0%nat), Nat.add_0_r.
Qed.

Lemma emit_matches_spec rs start em es :
  Forall2 (describes payload context) (hits m (text_lines payload)) rs -> holds opts em es ->
  match start with Some n => n <> 0 /\ n <= lenN rs | None => True end ->
  hoare (framed d l) emit_failure (emit_matches snapshot cand rs payload m start opts em)
    (emits es (drop (N.to_nat (default 0 start)) (numbered 0 (hits m (text_lines payload))))).
Proof.
  intros HF Hh Hs. unfold emit_matches. eapply (hoare_bind _ _ _ _ (fun n => n = N.to_nat (default 0 start))).
  { apply hoare_lift. destruct start as [n|]; [|done]. destruct (N.leb_spec (lenN rs) (n - 1)); [lia|done]. }
  intros ? ->. rewrite <- numbered_drop. apply emit_loop_spec; [by apply Forall2_drop| |done].
  intros i hit Hi. rewrite lookup_drop in Hi. apply hits_from_ge in Hi. lia.
Qed.

End EmitSpec.

(* ------------------------------------------------------------------ *)
(** ** Blobs *)

(** The errors of a search that its own cursors never cause. *)
Definition not_cursor (e : Error) : Prop := code e <> InvalidCursor.

Ltac other_code := unfold not_cursor; simpl; discriminate.

Lemma stops_not_cursor `{Env} d e : stops d e -> not_cursor e.
Proof. intros [[-> _]|[-> _]]; other_code. Qed.

Section BlobSpec.
Context `{Env, GixObject, GixGlob, ByteFind, RegexEngine} {T : Type} (db : ObjectDb T)
        (c : Oid -> ObjectReadResult) (I : T -> Prop) (F : ErrorCode -> Prop).
Context `{!LawfulDb db c I F, !SizedDb db c I}.
Hypothesis F_stop : forall e, budget_stop e -> F (code e).
Hypothesis F_cursor : ~ F InvalidCursor.
Context (snapshot : Snapshot) (opts : SearchOptions) (m : CompiledMatcher) (l : BudgetLimits).
Hypothesis limit_ok : so_limit opts <> 0%nat.

Abbreviation max_bytes := (max_object_bytes l).
Abbreviation spec := (hoare (on_limits I l) not_cursor).

Lemma F_not_cursor e : F (code e) -> not_cursor e.
Proof. unfold not_cursor. intros He E. by rewrite E in He. Qed.

Lemma spec_store {A} (mm : DM T A) P :
  hoare (on_limits I l) (fun e => F (code e)) mm P -> spec mm P.
Proof. intros Hm. eapply hoare_conseq; [exact Hm|apply F_not_cursor|done]. Qed.

Lemma spec_check : spec (on_budget check) (fun _ => True).
Proof. apply spec_store. by apply triple_check. Qed.

(** Budget code under the limits of the job. *)
Lemma spec_framed {A} (mm : BM A) (G : option N -> Error -> Prop) P :
  (forall d, hoare (framed d l) (G d) mm P) -> (forall d e, G d e -> not_cursor e) ->
  spec (on_budget mm) P.
Proof.
  intros Hm HG [b t] [Hi Hl]. simpl in *. destruct (Hm (deadline b) b) as [Hr [_ Hb]]; [by split|].
  unfold on_budget. destruct (mm b) as [[a|e] b']; simpl in *; (split; [|by split]); [done|by eapply HG].
Qed.

Lemma spec_header oid :
  spec (try_header_with_provenance db oid)
    (fun h => match h with Some hr => Some (hr_header hr) = header_of <$> c oid | None => c oid = None end).
Proof.
  intros w [Hi Hl]. destruct (law_header (db := db) oid w Hi) as [Hr Hi']. pose proof (keeps_header (db := db) oid w) as Hk.
  destruct (try_header_with_provenance db oid w) as [[[hr|]|e] w'] eqn:E; simpl in *;
    (split; [|split; [done|congruence]]).
  - apply Hr. exact (sized_header (db := db) (c := c) oid w hr w' Hi E).
  - done.
  - by apply F_not_cursor.
Qed.

Lemma spec_payload oid payload :
  c oid = Some (Blob, payload) -> lenN payload <= max_bytes ->
  spec (read_blob_payload db oid) (fun r => r = Some payload).
Proof.
  intros Hc Hle w [Hi Hl]. destruct (law_graph (db := db) oid w Hi) as [Hr Hi'].
  pose proof (keeps_graph (db := db) oid w) as Hk. unfold read_blob_payload.
  destruct (try_find_graph db oid w) as [[v|e] w'] eqn:E; simpl in *.
  - subst v. rewrite Hc. rewrite bool_decide_eq_true_2 by done. simpl. split; [done|]. split; [done|congruence].
  - case_bool_decide as Et; simpl; (split; [|split; [done|congruence]]); [|by apply F_not_cursor].
    exfalso. destruct (sized_graph (db := db) oid w e w' Hi E Et) as (k & p & Hc' & Hlt).
    rewrite Hc in Hc'. simplify_eq. lia.
Qed.

(** A scan tells what the reference says, and keeps the payload it scanned. *)
Definition scanned_ok (oid : Oid) (sb : ScannedBlob) : Prop :=
  scan_ok c opts m max_bytes oid (sb_scan sb) /\
  match sb_scan sb with
  | Matches _ => exists payload, sb_payload sb = Some payload /\ c oid = Some (Blob, payload)
  | _ => True
  end.

Lemma scan_blob_spec oid : spec (scan_blob db oid m opts) (scanned_ok oid).
Proof.
  unfold scan_blob. eapply hoare_bind; [apply spec_check|]. intros _ _.
  eapply hoare_bind; [apply spec_header|]. intros h Hh.
  eapply (hoare_bind _ _ _ _ (fun hr => Some (hr_header hr) = header_of <$> c oid)).
  { apply hoare_lift. destruct h; [done|]. other_code. }
  intros hr Hhr. destruct (c oid) as [[k payload]|] eqn:Ec; [|done]. simpl in Hhr. injection Hhr as Hhr.
  rewrite Hhr. cbn [header_of hdr_kind hdr_size]. case_bool_decide as Ek; cbn [negb fst] in *.
  2: { apply hoare_throw. destruct (hr_provenance hr); other_code. }
  subst k. cbn [snd]. eapply (hoare_bind _ _ _ _ (fun v => v = max_bytes)).
  { intros w [Hi Hl]. simpl. rewrite Hl. by split. }
  intros ? ->. destruct (max_bytes <? lenN payload) eqn:Em.
  { apply hoare_ret. split; [|done]. simpl. unfold searched_text. by rewrite Ec, Em. }
  pose proof Em as Hle. apply N.ltb_ge in Hle.
  eapply hoare_bind; [by apply spec_payload|]. intros ? ->. eapply hoare_bind; [apply spec_check|]. intros _ _.
  destruct (bool_decide (so_binary opts = Skip) && is_binary_payload payload) eqn:Eb.
  { apply hoare_ret. split; [|done]. simpl. unfold searched_text. by rewrite Ec, Em, Eb. }
  eapply hoare_bind; [apply (spec_framed _ (fun d => scan_failure d payload)); [intros d; apply scan_payload_spec|]|].
  { intros d e [He|[-> _]]; [by eapply stops_not_cursor|other_code]. }
  intros rs HF. apply hoare_ret. split; [|by exists payload]. simpl. exists payload.
  unfold searched_text. by rewrite Ec, Em, Eb.
Qed.

(** *** The state of the loop *)

(** The scan cache tells the truth. *)
Definition cache_ok (cache : @Cache.LruCache Oid CachedScan _ _) : Prop :=
  exists es, Cache.represents cache es /\
    forall e, e ∈ es -> scan_ok c opts m max_bytes (Cache.e_key e) (Cache.e_value e).

Lemma cache_get_ok oid cache :
  cache_ok cache -> exists v cache', Cache.get oid cache = Some (v, cache') /\ cache_ok cache' /\
    forall scan, v = Some scan -> scan_ok c opts m max_bytes oid scan.
Proof.
  intros (es & Hr & Hv). destruct (Cache.get_refines oid _ _ Hr) as (cache' & E & Hr' & _).
  destruct (Cache.spec_get_elem oid es) as [Hsub Hfst].
  exists (fst (Cache.spec_get oid es)), cache'. split; [done|]. split.
  - exists (snd (Cache.spec_get oid es)). split; [done|]. intros e He. by apply Hv, Hsub.
  - intros scan Hs. destruct (Hfst scan Hs) as (e & He & <- & <-). by apply Hv.
Qed.

Lemma cache_insert_ok oid scan w cache :
  cache_ok cache -> scan_ok c opts m max_bytes oid scan ->
  exists cache', Cache.insert oid scan w cache = Some cache' /\ cache_ok cache'.
Proof.
  intros (es & Hr & Hv) Hs. unfold Cache.insert.
  destruct (Cache.insert_refines oid scan w _ _ Hr) as (cache' & -> & Hr' & _).
  exists cache'. split; [done|]. exists (snd (Cache.spec_insert (Cache.capacity cache) oid scan w es)).
  split; [done|]. intros e He. apply Cache.spec_insert_elem in He as [He| ->]; [by apply Hv|done].
Qed.

(** What is on the page, and that the cache is right. *)
Definition state_ok (s : SearchState) (es : list (SearchMatch * (bytes * N))) : Prop :=
  cache_ok (ss_cache s) /\ holds opts (ss_emitted s) es.

(** What visiting did: it added a prefix of the entries [todo], all of them
    unless it stopped, and stopped only with something on the page. *)
Definition visits_ok (found : bool) (es todo : list (SearchMatch * (bytes * N)))
  (r : option string * SearchState) : Prop :=
  exists taken rest, todo = taken ++ rest /\ state_ok r.2 (es ++ taken) /\ ss_found_resume r.2 = found /\
    match r.1 with
    | None => rest = []
    | Some _ => es ++ taken <> []
    end.

Lemma visits_none s es : state_ok s es -> visits_ok (ss_found_resume s) es [] (None, s).
Proof. intros Hs. exists [], []. by rewrite (app_nil_r es). Qed.

Lemma visits_stop s es todo limit :
  state_ok s es -> em_matches (ss_emitted s) <> [] -> visits_ok (ss_found_resume s) es todo (Some limit, s).
Proof.
  intros [Hc Hh] Hne. exists [], todo. rewrite (app_nil_r es). split; [done|]. split; [by split|]. split; [done|].
  intros ->. apply Hne. apply (h_matches _ _ _ Hh).
Qed.

Lemma or_stop_spec {A} s (mm : DM T A) P :
  spec mm P ->
  spec (or_stop s mm) (fun r => match r with inl _ => em_matches (ss_emitted s) <> [] | inr a => P a end).
Proof.
  intros Hm w Hw. destruct (Hm w Hw) as [Hr Hw']. unfold or_stop.
  destruct (mm w) as [[a|e] w']; simpl in *; [done|].
  destruct (truncatable e); cbn [andb]; [|done]. by case_bool_decide.
Qed.

(** The entries of a blob are its numbered hits. *)
Lemma blob_entries_text cand payload :
  searched_text c opts max_bytes (bc_oid cand) = Some payload ->
  blob_entries c snapshot opts m max_bytes cand =
    numbered snapshot opts m cand payload 0 (hits m (text_lines payload)).
Proof.
  intros Ht. unfold blob_entries, blob_matches, numbered. rewrite Ht. by rewrite imap_fmap.
Qed.
Lemma blob_entries_skip cand :
  searched_text c opts max_bytes (bc_oid cand) = None -> blob_entries c snapshot opts m max_bytes cand = [].
Proof. intros Ht. unfold blob_entries, blob_matches. by rewrite Ht. Qed.

(** A start that a cursor of this search gives: past one of the matches. *)
Definition start_ok (cand : BlobCandidate) (start : option N) : Prop :=
  match start with
  | Some n => n <> 0 /\ n <= lenN (blob_entries c snapshot opts m max_bytes cand)
  | None => True
  end.
Definition from_start (cand : BlobCandidate) (start : option N) : list (SearchMatch * (bytes * N)) :=
  drop (N.to_nat (default 0 start)) (blob_entries c snapshot opts m max_bytes cand).

Lemma emit_into_spec cand rs payload start s es :
  searched_text c opts max_bytes (bc_oid cand) = Some payload ->
  Forall2 (describes payload (N.to_nat (so_context_lines opts))) (hits m (text_lines payload)) rs ->
  state_ok s es -> start_ok cand start ->
  spec (emit_into snapshot cand rs payload m start opts s)
    (visits_ok (ss_found_resume s) es (from_start cand start)).
Proof.
  intros Ht HF [Hc Hh] Hs. unfold emit_into, start_ok, from_start in *.
  rewrite (blob_entries_text cand payload Ht) in *. eapply hoare_bind.
  { apply (spec_framed _ emit_failure); [intros d; eapply emit_matches_spec; [done|done|exact Hh|]|].
    - destruct start as [n|]; [|done]. destruct Hs as [H1' H2']. split; [done|].
      unfold lenN, numbered in *. rewrite length_imap in H2'. by rewrite <- (Forall2_length _ _ _ HF).
    - intros d e [He|He]; [by eapply stops_not_cursor|]. unfold not_cursor. by rewrite He. }
  intros [o em] (taken & rest & Heq & Hh' & Ho). simpl in *. apply hoare_ret. exists taken, rest.
  split; [done|]. split; [by split|]. split; [done|]. by destruct o.
Qed.

Lemma visit_skipped cand start s es :
  searched_text c opts max_bytes (bc_oid cand) = None -> state_ok s es -> start_ok cand start ->
  spec (if bool_decide (is_Some start) then sthrow no_emitted_matches else sret (None, s))
    (visits_ok (ss_found_resume s) es (from_start cand start)).
Proof.
  intros Ht Hs Hst. unfold start_ok, from_start in *. rewrite (blob_entries_skip cand Ht) in *.
  destruct start as [n|]; [unfold lenN in Hst; simpl in Hst; lia|]. rewrite bool_decide_eq_false_2 by (by intros [? ?]).
  apply hoare_ret. simpl. by apply visits_none.
Qed.

(** Counters are no part of what a state means. *)
Lemma count_scan_ok scan first s es : state_ok s es -> state_ok (count_scan scan first s) es.
Proof. unfold count_scan. by destruct first. Qed.
Lemma count_scan_found scan first s : ss_found_resume (count_scan scan first s) = ss_found_resume s.
Proof. unfold count_scan. by destruct first. Qed.

Lemma visit_cached_spec cand start first scan s es :
  scan_ok c opts m max_bytes (bc_oid cand) scan -> state_ok s es -> start_ok cand start ->
  spec (visit_cached db snapshot m opts cand start first scan s)
    (visits_ok (ss_found_resume s) es (from_start cand start)).
Proof.
  intros Hscan Hs Hst. unfold visit_cached. eapply hoare_bind.
  { apply or_stop_spec, spec_store, hoare_on_limits; [apply hoare_charge_object_visit; apply F_stop|].
    apply keeps_charge_object_visit. }
  intros [limit|[]] Hstop; [apply hoare_ret; by apply visits_stop|].
  destruct scan as [rs| |]; [|by apply visit_skipped..]. destruct Hscan as (payload & Hc & Ht & Hle & HF).
  eapply hoare_bind; [by apply spec_payload|]. intros ? ->. by apply (emit_into_spec cand rs payload start (read_payload _ s)).
Qed.

Lemma visit_fresh_spec cand start first s es :
  state_ok s es -> start_ok cand start ->
  spec (visit_fresh db snapshot m opts cand start first s)
    (visits_ok (ss_found_resume s) es (from_start cand start)).
Proof.
  intros Hs Hst. unfold visit_fresh. eapply hoare_bind; [apply or_stop_spec, scan_blob_spec|].
  intros [limit|sb] Hsb; [apply hoare_ret; by apply visits_stop|]. destruct Hsb as [Hscan Hpay].
  set (s1 := if bool_decide (is_Some (sb_payload sb)) then read_payload (bc_oid cand) s else s).
  assert (state_ok (count_scan (sb_scan sb) first s1) es) as Hs1.
  { apply count_scan_ok. unfold s1. by destruct (bool_decide _). }
  assert (ss_found_resume (count_scan (sb_scan sb) first s1) = ss_found_resume s) as Hf1.
  { rewrite count_scan_found. unfold s1. by destruct (bool_decide _). }
  rewrite <- Hf1. eapply (hoare_bind _ _ _ _ (visits_ok (ss_found_resume s) es (from_start cand start))); rewrite <- Hf1.
  - destruct (sb_scan sb) as [rs| |] eqn:Esb; [|by apply visit_skipped..].
    destruct Hpay as (payload & -> & Hc). destruct Hscan as (payload' & Hc' & Ht & Hle & HF).
    rewrite Hc in Hc'. simplify_eq. by apply emit_into_spec.
  - intros [stopped s2] (taken & rest & Heq & [Hc2 Hh2] & Hf2 & Ho). simpl in *.
    destruct stopped as [limit|]; [apply hoare_ret; by exists taken, rest|].
    destruct (cache_insert_ok _ (sb_scan sb) (cache_weight (sb_scan sb)) _ Hc2 Hscan) as (cache' & -> & Hc3).
    apply hoare_ret. by exists taken, rest.
Qed.

(** *** One candidate *)

Lemma visit_from cand start s es :
  state_ok s es -> start_ok cand start ->
  spec (let '(first, s) := visit_blob (bc_oid cand) s in
        match Cache.get (bc_oid cand) (ss_cache s) with
        | None => sthrow search_panic
        | Some (Some scan, cache) => visit_cached db snapshot m opts cand start first scan (set_cache cache s)
        | Some (None, cache) => visit_fresh db snapshot m opts cand start first (set_cache cache s)
        end)
    (visits_ok (ss_found_resume s) es (from_start cand start)).
Proof.
  intros [Hc Hh] Hst. cbn [visit_blob].
  destruct (cache_get_ok (bc_oid cand) (ss_cache s) Hc) as (v & cache' & E & Hc' & Hv). simpl. rewrite E.
  match goal with |- context [set_cache cache' ?s1] => set (s2 := s1) end.
  assert (state_ok (set_cache cache' s2) es) as Hs2 by done.
  destruct v as [scan|]; [apply (visit_cached_spec cand start _ scan (set_cache cache' s2)); [by apply Hv|done|done]|].
  by apply (visit_fresh_spec cand start _ (set_cache cache' s2)).
Qed.

Lemma visit_live cand resume s es :
  state_ok s es -> ss_found_resume s = true ->
  spec (visit_candidate db snapshot m opts resume cand s)
    (visits_ok true es (blob_entries c snapshot opts m max_bytes cand)).
Proof.
  intros Hs Hf. unfold visit_candidate.
  assert (start_ordinal resume cand s = Ok (Some (None, s))) as ->.
  { unfold start_ordinal. rewrite Hf. by destruct resume as [[]|]. }
  eapply (hoare_bind _ _ _ _ (fun r => r = Some (None, s))); [by apply hoare_lift|]. intros ? ->.
  rewrite <- Hf. by apply (visit_from cand None).
Qed.

Lemma visit_resumed cand ordinal s es :
  state_ok s es -> ss_found_resume s = false -> ordinal + 1 <= u32_max ->
  ordinal < lenN (blob_entries c snapshot opts m max_bytes cand) ->
  spec (visit_candidate db snapshot m opts (Some (bc_path cand, ordinal)) cand s)
    (visits_ok true es (drop (N.to_nat ordinal + 1) (blob_entries c snapshot opts m max_bytes cand))).
Proof.
  intros Hs Hf Hu Hlt. unfold visit_candidate.
  assert (start_ordinal (Some (bc_path cand, ordinal)) cand s = Ok (Some (Some (ordinal + 1), set_found s))) as ->.
  { unfold start_ordinal. rewrite Hf, bytes_cmp_refl. by rewrite N.min_l. }
  eapply (hoare_bind _ _ _ _ (fun r => r = Some (Some (ordinal + 1), set_found s))); [by apply hoare_lift|].
  intros ? ->. replace (N.to_nat ordinal + 1)%nat with (N.to_nat (ordinal + 1)) by lia.
  apply (visit_from cand (Some (ordinal + 1)) (set_found s)); [done|]. simpl. lia.
Qed.

(** *** The loop *)

Lemma visits_more found es todo more limit s :
  visits_ok found es todo (Some limit, s) -> visits_ok found es (todo ++ more) (Some limit, s).
Proof.
  intros (taken & rest & -> & Hs & Hf & Hne). exists taken, (rest ++ more). by rewrite <- app_assoc.
Qed.

Lemma visits_then es todo more r :
  visits_ok true (es ++ todo) more r -> visits_ok true es (todo ++ more) r.
Proof.
  intros (taken & rest & -> & Hs & Hf & Ho). exists (todo ++ taken), rest. rewrite <- !app_assoc in *. done.
Qed.

Abbreviation scope := (so_path opts).
Abbreviation specs := (so_pathspecs opts).
Abbreviation stream vs := (entries c snapshot opts m max_bytes (candidates scope specs vs)).

Lemma spec_next fuel walk vs :
  walks db c scope specs walk vs -> (work walk vs < fuel)%nat ->
  spec (blob_next db fuel walk) (next_result db c scope specs (work walk vs) vs).
Proof. intros Hw Hf. apply spec_store. by apply blob_next_spec. Qed.

Lemma search_live fuel resume walk vs s es :
  walks db c scope specs walk vs -> (work walk vs < fuel)%nat -> state_ok s es -> ss_found_resume s = true ->
  spec (search_loop db fuel snapshot m opts resume walk s) (visits_ok true es (stream vs)).
Proof.
  revert walk vs s es. induction fuel as [|fuel IH]; intros walk vs s es Hw Hf Hs Hr; [lia|]. cbn [search_loop].
  eapply hoare_bind; [apply spec_check|]. intros _ _.
  eapply hoare_bind; [apply or_stop_spec; by apply spec_next|].
  intros [limit|[[cand|] walk']] Hnext; cbn [next_result fst snd] in Hnext.
  - apply hoare_ret. rewrite <- Hr. by apply visits_stop.
  - destruct Hnext as (vs' & Hc & Hw' & Hlt). rewrite Hc. cbn [entries mbind list_bind].
    eapply hoare_bind; [by apply visit_live|]. intros [[limit|] s'] Hv.
    + apply hoare_ret. by apply visits_more.
    + destruct Hv as (taken & rest & Heq & Hs' & Hf' & ->). rewrite app_nil_r in Heq. subst taken. simpl in *.
      eapply hoare_post; [apply (IH walk' vs' s' (es ++ blob_entries c snapshot opts m max_bytes cand)); [done|lia|done|done]|].
      intros r. apply visits_then.
  - apply hoare_ret. unfold next_result in Hnext. simpl in Hnext. rewrite Hnext. simpl. rewrite <- Hr. by apply visits_none.
Qed.

Lemma app_split_at {A} (l1 l2 pre rest : list A) x :
  l1 ++ l2 = pre ++ x :: rest -> x ∉ l1 -> exists pre', pre = l1 ++ pre' /\ l2 = pre' ++ x :: rest.
Proof.
  intros E Hx. apply app_eq_app in E as (k & [[-> Hr]|[-> Hr]]).
  - destruct k as [|y k]; simplify_eq/=; [exists []; by rewrite !app_nil_r|]. set_solver.
  - by exists k.
Qed.

(** The blob of a resumed position holds it. *)
Lemma resumed_split cand cands pre x rest :
  Forall (fun y => bytes_lt (bc_path cand) (bc_path y)) cands -> x.2.1 = bc_path cand ->
  blob_entries c snapshot opts m max_bytes cand ++ entries c snapshot opts m max_bytes cands = pre ++ x :: rest ->
  x.2.2 < lenN (blob_entries c snapshot opts m max_bytes cand) /\
  rest = drop (N.to_nat x.2.2 + 1) (blob_entries c snapshot opts m max_bytes cand)
         ++ entries c snapshot opts m max_bytes cands.
Proof.
  intros Hlt Hx E. assert (x ∉ entries c snapshot opts m max_bytes cands) as Hn.
  { intros (y & Hy & Hp)%entries_path. rewrite Forall_forall in Hlt. specialize (Hlt y Hy).
    rewrite <- Hp, Hx in Hlt. by apply bytes_lt_irrefl in Hlt. }
  apply app_eq_app in E as (k & [[Hb Hr]|[-> Hr]]); [|rewrite Hr in Hn; set_solver].
  destruct k as [|y k]; simpl in Hr; [rewrite <- Hr in Hn; set_solver|]. injection Hr as <- ->.
  assert (blob_entries c snapshot opts m max_bytes cand !! length pre = Some x) as Hl.
  { rewrite Hb, lookup_app_r, Nat.sub_diag by lia. done. }
  rewrite (blob_entries_lookup _ _ _ _ _ _ _ _ Hl). simpl. rewrite Nat2N.id, Hb. split.
  - unfold lenN. rewrite length_app. simpl. lia.
  - change (pre ++ x :: k) with (pre ++ [x] ++ k). rewrite app_assoc.
    replace (length pre + 1)%nat with (length (pre ++ [x])) by (rewrite length_app; simpl; lia).
    by rewrite drop_app_length.
Qed.

Lemma search_resumed fuel path ordinal item walk vs s pre rest :
  walks db c scope specs walk vs -> (work walk vs < fuel)%nat -> state_ok s [] -> ss_found_resume s = false ->
  StronglySorted (fun x y => bytes_lt (bc_path x) (bc_path y)) (candidates scope specs vs) ->
  stream vs = pre ++ (item, (path, ordinal)) :: rest -> ordinal + 1 <= u32_max ->
  spec (search_loop db fuel snapshot m opts (Some (path, ordinal)) walk s) (visits_ok true [] rest).
Proof.
  intros Hw Hf Hs Hr Hsort Hst Hu. revert walk vs s pre Hw Hf Hs Hr Hsort Hst.
  induction fuel as [|fuel IH]; intros walk vs s pre Hw Hf Hs Hr Hsort Hst; [lia|]. cbn [search_loop].
  eapply hoare_bind; [apply spec_check|]. intros _ _.
  eapply hoare_bind; [apply or_stop_spec; by apply spec_next|].
  intros [limit|[[cand|] walk']] Hnext; cbn [next_result fst snd] in Hnext.
  { destruct Hs as [_ Hh]. by rewrite (h_matches _ _ _ Hh) in Hnext. }
  2: { unfold next_result in Hnext. simpl in Hnext. rewrite Hnext in Hst. by destruct pre. }
  destruct Hnext as (vs' & Hc & Hw' & Hlt). rewrite Hc in Hst, Hsort. cbn [entries mbind list_bind] in Hst.
  apply StronglySorted_inv in Hsort as [Hsort Hafter].
  destruct (bytes_cmp (bc_path cand) path) eqn:Ecmp.
  - apply bytes_cmp_eq in Ecmp as <-.
    destruct (resumed_split cand _ pre (item, (bc_path cand, ordinal)) rest Hafter eq_refl Hst) as [Hlt' ->].
    cbn [fst snd] in *. eapply hoare_bind; [by apply visit_resumed|]. intros [[limit|] s'] Hv.
    + apply hoare_ret. by apply visits_more.
    + destruct Hv as (taken & rest' & Heq & Hs' & Hf' & ->). rewrite app_nil_r in Heq. subst taken.
      eapply hoare_post; [eapply search_live; [exact Hw'|lia|exact Hs'|done]|]. intros r. apply visits_then.
  - unfold visit_candidate. assert (start_ordinal (Some (path, ordinal)) cand s = Ok None) as ->.
    { unfold start_ordinal. by rewrite Hr, Ecmp. }
    eapply (hoare_bind _ _ _ _ (fun r => r = (None, s))).
    { eapply (hoare_bind _ _ _ _ (fun r => r = None)); [by apply hoare_lift|]. intros ? ->. by apply hoare_ret. }
    intros ? ->. destruct (app_split_at _ _ _ _ _ Hst) as (pre' & -> & Hst').
    { intros [i Hi]%list_elem_of_lookup. apply blob_entries_lookup in Hi. simpl in Hi. simplify_eq.
      by rewrite bytes_cmp_refl in Ecmp. }
    by apply (IH walk' vs' s pre'); [|lia|..].
  - exfalso. assert ((item, (path, ordinal)) ∈ entries c snapshot opts m max_bytes (cand :: candidates scope specs vs')) as Hin.
    { cbn [entries mbind list_bind]. unfold entries in Hst. rewrite Hst. set_solver. }
    apply entries_path in Hin as (y & [->|Hy]%elem_of_cons & Hp); simpl in Hp; subst path.
    + by rewrite bytes_cmp_refl in Ecmp.
    + rewrite Forall_forall in Hafter. specialize (Hafter y Hy). unfold bytes_lt in Hafter. by rewrite Hafter in Ecmp.
Qed.

End BlobSpec.

(* ------------------------------------------------------------------ *)
(** ** Fitting the cursor *)

Lemma holds_pop opts em es e : holds opts em (es ++ [e]) -> holds opts (pop_match e.1 em) es.
Proof.
  intros [Hm Hp Hl Hu]. constructor; cbn [pop_match em_matches em_positions em_bytes].
  - rewrite Hm, fmap_app, length_app, length_fmap. simpl.
    replace (length es + 1 - 1)%nat with (length es) by lia. rewrite <- (length_fmap fst es). apply take_app_length.
  - rewrite Hp, fmap_app, length_app, length_fmap. simpl.
    replace (length es + 1 - 1)%nat with (length es) by lia. rewrite <- (length_fmap snd es). apply take_app_length.
  - rewrite length_app in Hl. lia.
  - by apply Forall_app in Hu as [Hu _].
Qed.

(** A fitted page: a nonempty prefix of the entries with the cursor of its last
    one. *)
Definition fits (snapshot : Snapshot) (fingerprint : N) (opts : SearchOptions)
  (es : list (SearchMatch * (bytes * N))) (encoded : bytes) (em : Emitted) : Prop :=
  exists init item path ordinal dropped, es = (init ++ [(item, (path, ordinal))]) ++ dropped /\
    holds opts em (init ++ [(item, (path, ordinal))]) /\
    encoded = encode (search_cursor snapshot fingerprint path ordinal) /\
    (length encoded <= MAX_CURSOR_BYTES)%nat.

Lemma fits_more snapshot fingerprint opts es e encoded em :
  fits snapshot fingerprint opts es encoded em -> fits snapshot fingerprint opts (es ++ [e]) encoded em.
Proof.
  intros (init & item & path & ordinal & dropped & -> & Hf). exists init, item, path, ordinal, (dropped ++ [e]).
  by rewrite <- app_assoc.
Qed.

Lemma fit_cursor_spec snapshot fingerprint opts fuel em es stopped :
  holds opts em es -> es <> [] -> (length es < fuel)%nat ->
  match fit_cursor fuel snapshot fingerprint (so_max_result_bytes opts) em (Some stopped) with
  | Ok (encoded, em', stopped') => fits snapshot fingerprint opts es encoded em' /\ is_Some stopped'
  | Err e => not_cursor e
  end.
Proof.
  revert em es stopped. induction fuel as [|fuel IH]; intros em es stopped Hh Hne Hf; [lia|].
  destruct (exists_last Hne) as (init & [item [path ordinal]] & ->). cbn [fit_cursor].
  rewrite (h_positions _ _ _ Hh), (h_matches _ _ _ Hh), !fmap_app. cbn [fmap list_fmap fst snd]. rewrite !last_snoc.
  replace (length (init.*1 ++ [item])) with (length init + 1)%nat by (by rewrite length_app, length_fmap).
  cbv zeta. set (enc := encode (search_cursor snapshot fingerprint path ordinal)).
  rewrite length_app in Hf. simpl in Hf.
  assert (init <> [] ->
    match fit_cursor fuel snapshot fingerprint (so_max_result_bytes opts) (pop_match item em) (Some "max_result_bytes"%string) with
    | Ok (encoded, em', stopped') =>
        fits snapshot fingerprint opts (init ++ [(item, (path, ordinal))]) encoded em' /\ is_Some stopped'
    | Err e => not_cursor e
    end) as Hpop.
  { intros Hi. specialize (IH (pop_match item em) init "max_result_bytes"%string (holds_pop _ _ _ _ Hh) Hi ltac:(lia)).
    destruct (fit_cursor fuel _ _ _ _ _) as [[[enc1 em'] st']|e]; [|done]. destruct IH as [Hfit Hst].
    split; [by apply fits_more|done]. }
  assert ((length init + 1 =? 1)%nat = false -> init <> []) as Hmany by (by intros E ->).
  destruct (MAX_CURSOR_BYTES <? _)%nat eqn:Ec.
  { destruct (length init + 1 =? 1)%nat; [other_code|]. by apply Hpop, Hmany. }
  apply Nat.ltb_ge in Ec. destruct (_ || _) eqn:Eb.
  - split; [|done]. exists init, item, path, ordinal, []. rewrite app_nil_r. split; [done|]. split; [done|].
    split; [done|done].
  - destruct (length init + 1 =? 1)%nat; [other_code|]. by apply Hpop, Hmany.
Qed.

(* ------------------------------------------------------------------ *)
(** ** Cursors of a search are accepted *)

Definition set_search_cursor (cursor : option bytes) (opts : SearchOptions) : SearchOptions :=
  mkSearchOptions (so_mode opts) (so_case_sensitive opts) (so_path opts) (so_pathspecs opts) (so_binary opts)
    (so_context_lines opts) (so_limit opts) (so_max_result_bytes opts) cursor.

(** A path that lies below a directory. *)
Definition lies_in (scope path : bytes) : Prop :=
  validate_path path = Ok tt /\ exists r, r <> [] /\ path = dir_prefix scope ++ r.

Lemma search_cursor_resumes s fp opts path ordinal :
  Oid_wf (commit_oid s) -> fp < u64_mod -> lies_in (so_path opts) path -> ordinal <= u32_max ->
  (length (encode (search_cursor s fp path ordinal)) <= MAX_CURSOR_BYTES)%nat ->
  decode_resume s (set_search_cursor (Some (encode (search_cursor s fp path ordinal))) opts) fp
  = Ok (Some (path, ordinal)).
Proof.
  intros [_ Hd] Hfp [Hv (r & Hr & Hp)] Ho Hl. unfold decode_resume. cbn [so_cursor set_search_cursor so_path].
  change (search_expected s fp) with (expected_of (search_cursor s fp path ordinal)). rewrite decode_encode.
  2: { destruct (length_encode_fields (search_cursor s fp path ordinal)) as [_ Hpos].
       unfold cursor_fits. cbn [search_cursor cur_snapshot_digest cur_hash_kind cur_option_fingerprint
         cur_generation cur_position] in *. split_and!; [done|done|by vm_compute| |done].
       unfold lenN, u16_max, MAX_CURSOR_BYTES in *. lia. }
  cbn [rbind]. cbn [cur_generation search_cursor cur_position negb]. rewrite bool_decide_eq_true_2 by done. cbn [negb].
  assert (take 4 (le_bytes 4 ordinal ++ path) = le_bytes 4 ordinal) as -> by apply (take_app_length (le_bytes 4 ordinal) path).
  assert (drop 4 (le_bytes 4 ordinal ++ path) = path) as -> by apply (drop_app_length (le_bytes 4 ordinal) path).
  assert (path <> []) as Hne by (subst path; by intros [_ E]%app_eq_nil).
  rewrite (bool_decide_eq_false_2 (path = [])) by done. rewrite Hv. cbn [map_err rbind].
  rewrite le_num_le_bytes_small by (change (256 ^ N.of_nat 4) with 4294967296; unfold u32_max in Ho; lia).
  unfold dir_prefix in Hp. case_bool_decide as Es; cbn [negb andb]; [done|].
  rewrite <- app_assoc in Hp. simpl in Hp.
  assert (starts_with path (so_path opts) = true) as ->.
  { apply starts_with_true. eauto. }
  rewrite bool_decide_eq_true_2 by (rewrite Hp, lookup_app_r, Nat.sub_diag by lia; done).
  destruct (Nat.ltb_spec (length (so_path opts) + 1) (length path)) as [_|Hlt]; [done|]. exfalso.
  rewrite Hp, length_app in Hlt. destruct r; [done|]. simpl in Hlt. lia.
Qed.

(* ------------------------------------------------------------------ *)
(** ** A page of a search *)

Section PageSpec.
Context `{Env, GixObject, GixGlob, ByteFind, RegexEngine} {T : Type} (db : ObjectDb T)
        (c : Oid -> ObjectReadResult) (I : T -> Prop) (F : ErrorCode -> Prop).
Context `{!LawfulDb db c I F, !SizedDb db c I}.
Hypothesis F_stop : forall e, budget_stop e -> F (code e).
Hypothesis F_cursor : ~ F InvalidCursor.
Context (s : Snapshot) (query : bytes) (opts : SearchOptions) (m : CompiledMatcher) (l : BudgetLimits).
Hypothesis compiled : compile query opts = Ok m.

Abbreviation fingerprint := (search_fingerprint query opts).
Abbreviation spec := (hoare (on_limits I l) not_cursor).

(** What a page shows of the entries still to be listed. *)
Definition page_of (todo : list (SearchMatch * (bytes * N))) (page : SearchPage) : Prop :=
  match sp_next_cursor page with
  | None => sp_truncated page = false /\ sp_matches page = todo.*1
  | Some encoded => sp_truncated page = true /\ exists em shown rest, todo = shown ++ rest /\
      sp_matches page = em_matches em /\ fits s fingerprint opts shown encoded em
  end.

Lemma finish_search_spec found stopped_by st es todo :
  visits_ok c opts m l found [] todo (stopped_by, st) -> found = true -> es = todo ->
  spec (finish_search db s fingerprint opts stopped_by st) (page_of todo).
Proof.
  intros (taken & rest & -> & [_ Hh] & Hf & Ho) -> _. simpl in *. unfold finish_search. rewrite Hf. cbn [negb].
  eapply (hoare_bind _ _ _ _ (fun r =>
    match r with
    | (None, em, sb) => rest = [] /\ sb = None /\ em = ss_emitted st
    | (Some encoded, em, sb) => is_Some sb /\ fits s fingerprint opts taken encoded em
    end)).
  { apply hoare_lift. destruct stopped_by as [limit|].
    - rewrite bool_decide_eq_true_2 by done.
      assert (length (em_positions (ss_emitted st)) = length taken) as -> by (rewrite (h_positions _ _ _ Hh); apply length_fmap).
      pose proof (fit_cursor_spec s fingerprint opts (S (length taken)) _ taken limit Hh Ho ltac:(lia)) as Hfit.
      destruct (fit_cursor _ _ _ _ _ _) as [[[encoded em] sb]|e]; cbn [rbind]; [|done]. by destruct Hfit.
    - rewrite bool_decide_eq_false_2 by (by intros [? ?]). done. }
  intros [[[encoded|] em] sb] Hr [b t] Hw.
  - destruct Hr as [[l' ->] Hfit]. split; [|done]. unfold page_of. simpl. split; [done|]. by exists em, taken, rest.
  - destruct Hr as (-> & -> & ->). split; [|done]. unfold page_of. simpl. rewrite app_nil_r. split; [done|].
    apply (h_matches _ _ _ Hh).
Qed.

Context (tree : Oid) (es : list OwnedTreeEntry) (vs : list (bytes * OwnedTreeEntry)).
Hypothesis tree_listed : listed db c s (so_path opts) tree.
Hypothesis tree_read : tree_of db c tree = Ok es.
Hypothesis trees_walked : under db c es (so_path opts) vs.
Hypothesis canonical : trees_canonical db c.

Abbreviation stream :=
  (entries c s opts m (max_object_bytes l) (candidates (so_path opts) (so_pathspecs opts) vs)).

(** Where the cursor of the options resumes. *)
Definition resumes_at (todo : list (SearchMatch * (bytes * N))) : Prop :=
  match so_cursor opts with
  | None => todo = stream
  | Some _ => exists pre item path ordinal,
      decode_resume s opts fingerprint = Ok (Some (path, ordinal)) /\ ordinal + 1 <= u32_max /\
      stream = pre ++ (item, (path, ordinal)) :: todo
  end.

Lemma validate_options_spec : spec (slift (validate_options opts)) (fun _ => so_limit opts <> 0%nat).
Proof.
  apply hoare_lift. unfold validate_options. destruct (validate_path (so_path opts)) as [[]|e] eqn:E; cbn [rbind].
  - destruct (Nat.eqb_spec (so_limit opts) 0); [other_code|]. destruct (_ =? 0); [other_code|].
    destruct (_ <? _); [other_code|done].
  - unfold not_cursor. simpl. by rewrite (validate_path_Err _ _ E).
Qed.

Lemma resolve_spec resumed :
  spec (if (resumed : bool) then resolve_path_for_graph_walk db s (so_path opts)
        else resolve_path db s (so_path opts)) (denotes db c s (so_path opts)).
Proof.
  assert (forall read, (forall oid, keeps (read oid)) ->
    (forall oid, hoare (on_store I) (fun e => F (code e) \/ tree_of db c oid = Err e) (read oid)
                   (fun es => tree_of db c oid = Ok es)) ->
    spec (resolve_path_by read s (so_path opts)) (denotes db c s (so_path opts))) as Hby.
  { intros read Hk Hr. eapply hoare_conseq; [apply hoare_on_limits; [by apply resolve_path_by_spec|]| |done].
    - unfold resolve_path_by. apply keeps_bind; [apply keeps_lift|]. intros _. case_bool_decide; [apply keeps_ret|].
      generalize (snap_tree_oid s). induction (split_on is_slash (so_path opts)) as [|x xs IH]; intros t;
        cbn [resolve_segments]; [apply keeps_throw|]. apply keeps_bind; [apply Hk|]. intros es'.
      apply keeps_bind; [apply keeps_lift|]. intros e. destruct xs as [|x' xs]; [apply keeps_ret|].
      case_bool_decide; [apply IH|apply keeps_throw].
    - intros e [He|[He _]]; unfold not_cursor; [intros E; by rewrite E in He|]. intros E. rewrite E in He.
      unfold path_codes in He. set_solver. }
  destruct resumed; apply Hby.
  - intros oid. apply keeps_bind; [apply keeps_graph|]. intros v. apply keeps_lift.
  - apply read_tree_entries_graph_spec; apply _.
  - intros oid. apply keeps_bind; [apply keeps_find|]. intros v. apply keeps_lift.
  - apply read_tree_entries_spec; apply _.
Qed.

Lemma search_page_spec fuel cap todo :
  (2 * length vs + 1 < fuel)%nat -> cap < u64_max -> resumes_at todo ->
  spec (search_with_cache_capacity db fuel s query opts cap) (page_of todo).
Proof.
  intros Hfuel Hcap Hres. unfold search_with_cache_capacity.
  eapply (hoare_bind _ _ _ _ (fun _ => True)).
  { apply hoare_lift. unfold ensure_query_compatible. case_bool_decide; [other_code|]. destruct (_ || _); [other_code|done]. }
  intros _ _. eapply hoare_bind; [apply validate_options_spec|]. intros [] Hlim. cbv beta in Hlim.
  eapply hoare_bind; [by eapply spec_check|]. intros _ _.
  rewrite compiled. eapply (hoare_bind _ _ _ _ (fun r => r = m)); [by apply hoare_lift|]. intros ? ->. cbv zeta.
  eapply (hoare_bind _ _ _ _ (fun r => match r with
    | None => todo = stream
    | Some (path, ordinal) => ordinal + 1 <= u32_max /\ exists pre item, stream = pre ++ (item, (path, ordinal)) :: todo
    end)).
  { apply hoare_lift. unfold resumes_at, decode_resume in *. destruct (so_cursor opts) as [enc|]; [|done].
    destruct Hres as (pre & item & path & ordinal & -> & Hu & Hst). simpl. eauto. }
  intros resume Hresume. eapply hoare_bind; [apply resolve_spec|]. intros r Hr.
  eapply (hoare_bind _ _ _ _ (fun t => t = tree)).
  { apply hoare_lift. destruct (tree_choice r) as [t|e] eqn:Et.
    - simpl. by eapply listed_choice.
    - simpl. unfold tree_choice in Et. destruct r as [|entry]; [done|].
      case_bool_decide; simplify_eq. other_code. }
  intros ? ->. eapply hoare_bind.
  { eapply spec_store; [exact F_cursor|]. by eapply (BlobWalk_new_spec db c I F l (so_path opts) (so_pathspecs opts)). }
  intros walk [Hwalk Hwork].
  match goal with |- context [search_loop db fuel s m opts resume walk ?st0] => set (st := st0) end.
  assert (state_ok c opts m l st []) as Hst.
  { split; [exists []; split; [by apply Cache.new_refines|set_solver]|].
    constructor; simpl; [done|done|lia|constructor]. }
  eapply (hoare_bind _ _ _ _ (visits_ok c opts m l true [] todo)).
  - destruct resume as [[path ordinal]|].
    + destruct Hresume as [Hu (pre & item & Hstream)].
      eapply (search_resumed db c I F F_stop F_cursor s opts m l Hlim fuel path ordinal item walk vs st pre todo);
        try done; [lia|].
      eapply candidates_sorted; [done|done|by eapply tree_of_names|by eapply canonical].
    + subst todo. eapply search_live; try done. lia.
  - intros [stopped_by st'] Hv. by eapply finish_search_spec.
Qed.

End PageSpec.

(* ------------------------------------------------------------------ *)
(** ** Pages stay within their limits *)

(** The bytes of a list of matches. *)
Definition total_payload (ms : list SearchMatch) : N := foldr (fun x acc => payload_bytes x + acc) 0 ms.

Lemma total_payload_app ms ms' : total_payload (ms ++ ms') = total_payload ms + total_payload ms'.
Proof. induction ms as [|x ms IH]; simpl; [done|]. rewrite IH. lia. Qed.

Lemma payload_bytes_le item : payload_bytes item <= u64_max.
Proof. unfold payload_bytes. apply N.le_min_r. Qed.

Section Bounds.
Context `{Env, GixObject, GixGlob, ByteFind, RegexEngine} {T : Type} (db : ObjectDb T) (opts : SearchOptions).
Hypothesis max_small : so_max_result_bytes opts < u64_max.

(** A page under construction, and one that stopped: its bytes are counted
    exactly, and a stopped page may hold a single match that is too large. *)
Record page_so_far (bound : Emitted -> Prop) (em : Emitted) : Prop := {
  pf_bytes : em_bytes em = total_payload (em_matches em);
  pf_positions : length (em_positions em) = length (em_matches em);
  pf_limit : (length (em_matches em) <= so_limit opts)%nat;
  pf_bound : bound em
}.
Definition within (em : Emitted) : Prop := total_payload (em_matches em) <= so_max_result_bytes opts.
Definition within_or_single (em : Emitted) : Prop := within em \/ length (em_matches em) = 1%nat.
Abbreviation open_page := (page_so_far within).
Abbreviation closed_page := (page_so_far within_or_single).

Lemma open_closed em : open_page em -> closed_page em.
Proof. intros [H1' H2' H3' H4']. constructor; [done..|by left]. Qed.

Lemma push_open item path ordinal em :
  open_page em -> (length (em_matches em) < so_limit opts)%nat ->
  sadd64 (em_bytes em) (payload_bytes item) <= so_max_result_bytes opts -> open_page (push_match item path ordinal em).
Proof.
  intros [Hb Hp Hl Hw] Hlt Hfit. unfold sadd64 in Hfit. constructor; unfold within; cbn [push_match em_matches em_positions em_bytes];
    rewrite ?length_app, ?total_payload_app; unfold sadd64; simpl; lia.
Qed.

Lemma push_closed item path ordinal em :
  open_page em -> (length (em_matches em) < so_limit opts)%nat -> em_matches em = [] ->
  closed_page (push_match item path ordinal em).
Proof.
  intros [Hb Hp Hl Hw] Hlt E. pose proof (payload_bytes_le item). rewrite E in *. simpl in Hb, Hp, Hlt.
  assert (em_matches (push_match item path ordinal em) = [item]) as Em by (simpl; by rewrite E).
  constructor; rewrite ?Em; simpl.
  - rewrite Hb. unfold sadd64. lia.
  - rewrite length_app, Hp. done.
  - lia.
  - right. by rewrite Em.
Qed.

(** What holds of every result, whatever the store answers. *)
Abbreviation any := (hoare (fun _ => True) (fun _ : Error => True)).

Lemma any_true {W A} (mm : ST W Error A) : any mm (fun _ => True).
Proof. intros w _. split; [|done]. by destruct (mm w).1. Qed.

Definition emitted_bound (r : EmitOutcome * Emitted) : Prop :=
  match r.1 with EComplete => open_page r.2 | EStopped _ => closed_page r.2 end.

Lemma emit_loop_bound s cand payload m rs ordinal em :
  open_page em -> any (emit_loop s cand payload m opts rs ordinal em) emitted_bound.
Proof.
  revert ordinal em. induction rs as [|r rs IH]; intros ordinal em Ho; cbn [emit_loop]; [by apply hoare_ret|].
  eapply hoare_bind; [apply any_true|]. intros _ _. destruct (Nat.eqb_spec (length (em_matches em)) (so_limit opts)) as [El|El].
  { apply hoare_ret. by apply open_closed. }
  assert (length (em_matches em) < so_limit opts)%nat as Hlt by (pose proof (pf_limit _ _ Ho); lia).
  eapply hoare_bind; [apply any_true|]. intros item _. eapply hoare_bind; [apply any_true|]. intros position _.
  destruct (so_max_result_bytes opts <? _) eqn:Eb.
  - apply hoare_ret. unfold emitted_bound. simpl. case_bool_decide; [by apply push_closed|by apply open_closed].
  - apply IH. apply N.ltb_ge in Eb. by apply push_open.
Qed.

Definition visited_bound (r : option string * SearchState) : Prop :=
  match r.1 with None => open_page (ss_emitted r.2) | Some _ => closed_page (ss_emitted r.2) end.

Lemma emit_into_bound s cand rs payload m start st :
  open_page (ss_emitted st) -> any (emit_into (T := T) s cand rs payload m start opts st) visited_bound.
Proof.
  intros Ho. unfold emit_into. eapply (hoare_bind _ _ _ _ emitted_bound).
  - intros [b t] _. unfold on_budget, emit_matches.
    pose proof (hoare_bind (fun _ => True) (fun _ => True) _ _ (fun _ => True) emitted_bound
      (any_true (W := Budget) (slift (match start with
                       | Some start =>
                           if lenN rs <=? start - 1 then
                             Err (cursor_invalid "position check failed: match ordinal is outside the file")
                           else Ok (N.to_nat start)
                       | None => Ok 0%nat
                       end)))
      (fun n _ => emit_loop_bound s cand payload m (drop n rs) n (ss_emitted st) Ho) b Logic.I) as [Hr _].
    destruct (sbind _ _ b) as [r b']. by split.
  - intros [[|limit] em] Hr; by apply hoare_ret.
Qed.

Lemma visit_candidate_bound s m resume cand st :
  open_page (ss_emitted st) -> any (visit_candidate db s m opts resume cand st) visited_bound.
Proof.
  intros Ho. unfold visit_candidate. eapply (hoare_bind _ _ _ _ (fun r => match r with
    | Some (_, st') => ss_emitted st' = ss_emitted st | None => True end)).
  { apply hoare_lift. unfold start_ordinal. destruct resume as [[p o]|]; [|done]. destruct (ss_found_resume st); [done|].
    by destruct (bytes_cmp _ _). }
  intros [[start st']|] Hst; [|by apply hoare_ret]. cbn [visit_blob]. rewrite <- Hst in Ho.
  destruct (Cache.get _ _) as [[[scan|] cache]|]; [| |by apply hoare_throw].
  - unfold visit_cached. eapply hoare_bind; [apply any_true|].
    intros [limit|[]] _; [apply hoare_ret; by apply open_closed|]. destruct scan as [rs| |].
    + eapply hoare_bind; [apply any_true|]. intros [payload|] _; [by apply emit_into_bound|].
      apply hoare_ret. unfold visited_bound, count_scan. by destruct (bool_decide _).
    + destruct (bool_decide _); [by apply hoare_throw|by apply hoare_ret].
    + destruct (bool_decide _); [by apply hoare_throw|by apply hoare_ret].
  - unfold visit_fresh. eapply hoare_bind; [apply any_true|].
    intros [limit|sb] _; [apply hoare_ret; by apply open_closed|]. cbv zeta.
    match goal with |- context [count_scan _ _ ?x] => set (st1 := x) end.
    assert (open_page (ss_emitted (count_scan (sb_scan sb) (bool_decide (bc_oid cand ∉ ss_visited st')) st1))) as Ho1.
    { unfold count_scan, st1. by destruct (bool_decide _), (bool_decide _). }
    eapply (hoare_bind _ _ _ _ visited_bound).
    { destruct (sb_scan sb); [destruct (sb_payload sb); [by apply emit_into_bound|by apply hoare_throw]|..];
        (destruct (bool_decide (is_Some start)); [by apply hoare_throw|by apply hoare_ret]). }
    intros [[limit|] st2] Hv; [by apply hoare_ret|]. destruct (Cache.insert _ _ _ _); [by apply hoare_ret|by apply hoare_throw].
Qed.

Lemma search_loop_bound fuel s m resume walk st :
  open_page (ss_emitted st) -> any (search_loop db fuel s m opts resume walk st) visited_bound.
Proof.
  revert walk st. induction fuel as [|fuel IH]; intros walk st Ho; cbn [search_loop]; [by apply hoare_throw|].
  eapply hoare_bind; [apply any_true|]. intros _ _. eapply hoare_bind; [apply any_true|].
  intros [limit|[[cand|] walk']] _; [apply hoare_ret; by apply open_closed| |by apply hoare_ret].
  eapply hoare_bind; [by apply visit_candidate_bound|].
  intros [[limit|] st'] Hv; [by apply hoare_ret|]. by apply IH.
Qed.

(** The page with its cursor. *)
Definition page_bound (em : Emitted) (encoded : bytes) : Prop :=
  (length (em_matches em) <= so_limit opts)%nat /\
  (total_payload (em_matches em) + lenN encoded <= so_max_result_bytes opts \/
   (length (em_matches em) = 1%nat /\ so_max_result_bytes opts < total_payload (em_matches em))).

Lemma pop_closed removed em :
  closed_page em -> last (em_matches em) = Some removed -> closed_page (pop_match removed em).
Proof.
  intros [Hb Hp Hl Hw] El. apply last_Some in El as [ms E]. unfold pop_match. rewrite E in *.
  rewrite length_app, total_payload_app in *. simpl in *. replace (length ms + 1 - 1)%nat with (length ms) by lia.
  rewrite take_app_length. constructor; unfold within_or_single, within, ssub64 in *; simpl; rewrite E in *;
    rewrite ?length_app, ?length_take, ?total_payload_app in *; simpl in *; try lia.
  destruct Hw as [Hw|Hw]; [left; lia|]. left. destruct ms; simpl in *; lia.
Qed.

Lemma fit_cursor_bound fuel s fp em stopped encoded em' stopped' :
  closed_page em -> fit_cursor fuel s fp (so_max_result_bytes opts) em stopped = Ok (encoded, em', stopped') ->
  page_bound em' encoded /\ (is_Some stopped -> is_Some stopped').
Proof.
  revert em stopped. induction fuel as [|fuel IH]; intros em stopped Hc E; [done|]. cbn [fit_cursor] in E.
  destruct (last (em_positions em)) as [[path ordinal]|]; [|done]. cbv zeta in E.
  assert (forall e : Res (bytes * Emitted * option string), match last (em_matches em) with
      | Some removed => fit_cursor fuel s fp (so_max_result_bytes opts) (pop_match removed em) (Some "max_result_bytes"%string)
      | None => Err search_panic end = Ok (encoded, em', stopped') ->
      page_bound em' encoded /\ (is_Some stopped -> is_Some stopped')) as Hpop.
  { intros _ Ep. destruct (last (em_matches em)) as [removed|] eqn:El; [|done].
    destruct (IH _ _ (pop_closed _ _ Hc El) Ep) as [Hb Hs]. split; [done|]. intros _. by apply Hs. }
  destruct (MAX_CURSOR_BYTES <? _)%nat.
  { destruct (_ =? 1)%nat; [done|]. by apply (Hpop (Err search_panic)). }
  destruct (_ || _) eqn:Eb; [|destruct (_ =? 1)%nat; [done|]; by apply (Hpop (Err search_panic))].
  simplify_eq. destruct Hc as [Hb Hp Hl Hw]. split; [|done]. split; [done|]. rewrite Hb in Eb.
  apply orb_true_iff in Eb as [Eb|Eb].
  - right. apply andb_true_iff in Eb as [E1 E2]. apply Nat.eqb_eq in E1. by apply N.ltb_lt in E2.
  - left. apply N.leb_le in Eb. unfold sadd64 in Eb. lia.
Qed.

(** C38. Pages stay within their limits, for any store, any budget, any cursor and
    any byte limit below [u64::MAX]: a page holds at most the requested number
    of matches, and its matches, together with its continuation cursor when it
    has one, are within the byte limit, except that a page with a cursor may
    consist of one match that exceeds the limit alone. *)
Theorem search_page_within_limits fuel s query w page w' :
  search db fuel s query opts w = (Ok page, w') ->
  (length (sp_matches page) <= so_limit opts)%nat /\
  match sp_next_cursor page with
  | None => total_payload (sp_matches page) <= so_max_result_bytes opts
  | Some encoded =>
      total_payload (sp_matches page) + lenN encoded <= so_max_result_bytes opts \/
      (length (sp_matches page) = 1%nat /\ so_max_result_bytes opts < total_payload (sp_matches page))
  end.
Proof.
  intros E. unfold search, search_with_cache_capacity in E.
  do 8 (apply sbind_Ok in E as (? & ? & _ & E)). apply sbind_Ok in E as ([stopped_by st] & w2 & El & E).
  match type of El with search_loop _ _ _ ?m _ ?resume ?walk ?st0 ?w1 = _ =>
    destruct (search_loop_bound fuel s m resume walk st0 ltac:(constructor; unfold within; simpl; lia) w1 Logic.I)
      as [Hv _] end.
  rewrite El in Hv. cbn [fst snd outcome] in Hv. unfold finish_search in E.
  destruct (negb (ss_found_resume st)); [done|].
  remember (S (length (em_positions (ss_emitted st)))) as turns eqn:Eturns. clear Eturns.
  apply sbind_Ok in E as ([[next em] sb] & w3 & Ef & E). unfold slift in Ef. injection Ef as Ef <-.
  destruct w2 as [b t]. cbn [spent cache_spent] in E. injection E as <- _. cbn [sp_matches sp_next_cursor].
  destruct stopped_by as [limit|].
  - rewrite bool_decide_eq_true_2 in Ef by done. apply rbind_Ok in Ef as ([[enc em'] sb'] & Ef & [= <- <- <-]).
    assert (closed_page (ss_emitted st)) as Hc by exact Hv.
    by destruct (fit_cursor_bound _ _ _ _ _ _ _ _ Hc Ef) as [[Hl Hb] _].
  - rewrite bool_decide_eq_false_2 in Ef by (by intros [? ?]). injection Ef as <- <- <-. by destruct Hv.
Qed.

End Bounds.

(* ------------------------------------------------------------------ *)
(** ** The pages of a search *)

Section Pages.
Context `{Env, GixObject, GixGlob, ByteFind, RegexEngine} {T : Type} (db : ObjectDb T).

(** A client that follows the cursors to the end, each page with a budget of
    its own; [None] when it does not reach the end. *)
Fixpoint search_all (s : Snapshot) (query : bytes) (opts : SearchOptions) (pages fuel : nat)
  (budgets : nat -> Budget) (cursor : option bytes) (t : T) : option (Res (list SearchMatch)) :=
  match pages with
  | O => None
  | S pages =>
      match search db fuel s query (set_search_cursor cursor opts) (budgets pages, t) with
      | (Err e, _) => Some (Err e)
      | (Ok page, (_, t)) =>
          match sp_next_cursor page with
          | None => Some (Ok (sp_matches page))
          | Some next =>
              match search_all s query opts pages fuel budgets (Some next) t with
              | Some (Ok items) => Some (Ok (sp_matches page ++ items))
              | r => r
              end
          end
      end
  end.

Context (c : Oid -> ObjectReadResult) (I : T -> Prop) (F : ErrorCode -> Prop).
Context `{!LawfulDb db c I F, !SizedDb db c I}.
Hypothesis F_stop : forall e, budget_stop e -> F (code e).
Hypothesis F_cursor : ~ F InvalidCursor.
Context (s : Snapshot) (query : bytes) (opts : SearchOptions) (m : CompiledMatcher) (max_bytes : N)
        (tree : Oid) (es : list OwnedTreeEntry) (vs : list (bytes * OwnedTreeEntry)).
Hypothesis commit_wf : Oid_wf (commit_oid s).
Hypothesis compiled : compile query opts = Ok m.
Hypothesis tree_listed : listed db c s (so_path opts) tree.
Hypothesis tree_read : tree_of db c tree = Ok es.
Hypothesis trees_walked : under db c es (so_path opts) vs.
Hypothesis canonical : trees_canonical db c.

Abbreviation cands := (candidates (so_path opts) (so_pathspecs opts) vs).
Abbreviation stream := (entries c s opts m max_bytes cands).

(** Everything the search should list, in order. *)
Definition all_matches : list SearchMatch := cands ≫= blob_matches c s opts m max_bytes.

Lemma stream_matches : stream.*1 = all_matches.
Proof.
  unfold all_matches, entries. induction cands as [|cand l IH]; [done|]. cbn [mbind list_bind].
  rewrite fmap_app, IH. f_equal. apply list_eq. intros i.
  unfold blob_entries. rewrite list_lookup_fmap, list_lookup_imap. by destruct (_ !! i).
Qed.

(** Paths of the stream lie in the searched tree. *)
Lemma stream_path e : e ∈ stream -> lies_in (so_path opts) e.2.1.
Proof.
  intros (cand & Hc & ->)%entries_path. unfold candidates in Hc.
  apply list_elem_of_fmap in Hc as (v & -> & [_ Hv]%list_elem_of_filter). simpl.
  eapply under_paths; [exact trees_walked| |by eapply tree_of_valid|done].
  by destruct tree_listed as [[Hp _]|[mode [Hp _]]].
Qed.

(** The state of a client: what it still has to receive. *)
Definition pending (cursor : option bytes) (todo : list (SearchMatch * (bytes * N))) : Prop :=
  match cursor with
  | None => todo = stream
  | Some encoded => exists pre item path ordinal,
      encoded = encode (search_cursor s (search_fingerprint query opts) path ordinal) /\
      (length encoded <= MAX_CURSOR_BYTES)%nat /\ ordinal + 1 <= u32_max /\
      stream = pre ++ (item, (path, ordinal)) :: todo
  end.

Lemma pending_resumes cursor todo l :
  max_object_bytes l = max_bytes -> pending cursor todo ->
  resumes_at c s query (set_search_cursor cursor opts) m l vs todo.
Proof.
  intros Hl Hp. unfold resumes_at. cbn [so_cursor set_search_cursor]. rewrite Hl.
  destruct cursor as [encoded|]; [|done]. destruct Hp as (pre & item & path & ordinal & -> & Hlen & Hu & Hst).
  exists pre, item, path, ordinal. split; [|done].
  apply search_cursor_resumes; [done|apply fnv1a_64_lt| |lia|done].
  apply (stream_path (item, (path, ordinal))). rewrite Hst. set_solver.
Qed.

Lemma search_all_spec pages fuel budgets cursor todo t :
  (2 * length vs + 1 < fuel)%nat -> (forall n, max_object_bytes (limits (budgets n)) = max_bytes) -> I t ->
  (length todo < pages)%nat -> pending cursor todo ->
  exists r, search_all s query opts pages fuel budgets cursor t = Some r /\
    match r with Ok items => items = todo.*1 | Err e => not_cursor e end.
Proof.
  intros Hfuel Hb. revert cursor todo t. induction pages as [|pages IH]; intros cursor todo t Ht Hp Hpend; [lia|].
  cbn [search_all]. pose proof (pending_resumes cursor todo (limits (budgets pages)) (Hb pages) Hpend) as Hres.
  destruct (search_page_spec db c I F F_stop F_cursor s query (set_search_cursor cursor opts) m
              (limits (budgets pages)) compiled tree es vs tree_listed tree_read trees_walked canonical
              fuel SCAN_CACHE_MATCH_CAP todo Hfuel ltac:(by vm_compute) Hres (budgets pages, t)) as [Hpage [Ht' _]]; [by split|].
  change (search_with_cache_capacity _ _ _ _ _ SCAN_CACHE_MATCH_CAP)
    with (search db fuel s query (set_search_cursor cursor opts)) in *.
  destruct (search db fuel s query _ _) as [[page|e] [b' t']]; simpl in *; [|by eexists].
  unfold page_of in Hpage. destruct (sp_next_cursor page) as [encoded|]; [|destruct Hpage as (_ & ->); by eexists].
  destruct Hpage as [_ (em & shown & rest & -> & Hm & init & item & path & ordinal & dropped & -> & Hh & He & Hlen)].
  rewrite (h_matches _ _ _ Hh) in Hm. rewrite Hm.
  destruct (IH (Some encoded) (dropped ++ rest) t' Ht') as (r & -> & Hr).
  - rewrite !length_app in *. simpl in *. lia.
  - pose proof (h_fits _ _ _ Hh) as Hu. apply Forall_app in Hu as [_ Hu]. apply Forall_cons in Hu as [Hu _].
    assert (exists pre, stream = pre ++ ((init ++ [(item, (path, ordinal))]) ++ dropped) ++ rest) as [pre Hst].
    { destruct cursor as [enc|]; [|exists []; symmetry; exact Hpend].
      destruct Hpend as (pre & i0 & p0 & o0 & _ & _ & _ & Hst). exists (pre ++ [(i0, (p0, o0))]). by rewrite Hst, <- (app_assoc pre). }
    exists (pre ++ init), item, path, ordinal. split; [done|]. split; [done|]. split; [done|].
    by rewrite Hst, <- !app_assoc.
  - destruct r as [items|e]; eexists; (split; [done|]); [|done]. rewrite Hr, !fmap_app, <- !app_assoc. done.
Qed.

(** C21. A search finds every matching line exactly once. On a store that
    vouches for its headers, unlike a provider's, and whose trees are in Git's
    order, a client that follows the cursors, with any page size and byte limit and with budgets that agree
    on the size of the largest object and otherwise are arbitrary, reaches the
    end within one page per match, and unless some call fails it has received,
    in order, the reference result: for every blob that the pathspecs select, in
    path order, every line on which the pattern occurs, with its number, column,
    preview, submatches and context, skipping binary blobs and those above that
    size. Under that one size, a call never fails because of a cursor the search
    itself gave out. *)
Theorem search_pages_exact pages fuel budgets t :
  (2 * length vs + 1 < fuel)%nat -> (forall n, max_object_bytes (limits (budgets n)) = max_bytes) -> I t ->
  (length all_matches < pages)%nat ->
  exists r, search_all s query opts pages fuel budgets None t = Some r /\
    match r with Ok items => items = all_matches | Err e => code e <> InvalidCursor end.
Proof.
  intros Hf Hb Ht Hp. rewrite <- stream_matches in *. rewrite length_fmap in Hp.
  by apply (search_all_spec pages fuel budgets None stream t).
Qed.

End Pages.

(* ------------------------------------------------------------------ *)
(** ** A repository for the examples *)

Definition search_repo : StaticOdb := mkStatic Sha1
  {[ sample_id x01 := (Tree, demo_root); sample_id x02 := (Tree, demo_sub);
     sample_id x11 := (Blob, bs "one" ++ [x0a] ++ bs "two one" ++ [x0a]);
     sample_id x12 := (Blob, bs "no" ++ [x0a] ++ bs "none");
     sample_id x13 := (Blob, bs "one") ]}.
Definition search_db : ObjectDb unit := @static_db quiet unit search_repo.
Definition search_options (limit : nat) (max_result_bytes : N) : SearchOptions :=
  mkSearchOptions MLiteral true [] [] Skip 1 limit max_result_bytes None.
Definition run_search (limit : nat) (max_result_bytes : N) : Res SearchPage :=
  (@search quiet simple_gix simple_glob simple_find simple_regex unit search_db 20 demo_snapshot (bs "one")
     (search_options limit max_result_bytes) fresh_world).1.
Definition shown_lines (r : Res SearchPage) : result (ErrorCode * option string) (list (bytes * N)) :=
  match r with
  | Ok page => Ok ((fun x => (sm_path x, sm_line x)) <$> sp_matches page)
  | Err e => Err (code e, limit e)
  end.

(** A single match that jams a search. The first match here needs 103 bytes and
    its cursor 48: with a limit of 100 bytes it is returned alone, as the
    design wants of a match that cannot be split, but with a limit of 150
    bytes, which the match fits, the call fails as if no match existed. *)
Example fitting_match_jams_search :
  shown_lines (run_search 1 100) = Ok [(bs "a.txt", 1)] /\
  shown_lines (run_search 1 150) = Err (BudgetExceeded, Some "max_result_bytes"%string) /\
  shown_lines (run_search 1 151) = Ok [(bs "a.txt", 1)].
Proof. split_and!; vm_compute; reflexivity. Qed.

Definition search_visits : list (bytes * OwnedTreeEntry) := demo_visits.

Lemma search_tree_root :
  @tree_of simple_gix unit search_db (static_contents search_repo) (sample_id x01)
  = Ok [entry_atxt; entry_a; entry_z].
Proof. vm_compute. reflexivity. Qed.
Lemma search_tree_sub :
  @tree_of simple_gix unit search_db (static_contents search_repo) (sample_id x02) = Ok [entry_b].
Proof. vm_compute. reflexivity. Qed.

Lemma search_under :
  @under simple_gix unit search_db (static_contents search_repo) [entry_atxt; entry_a; entry_z] [] search_visits.
Proof.
  apply (under_leaf _ _ entry_atxt); [done|].
  apply (under_tree _ _ entry_a _ [] [entry_b] [(bs "a/b", entry_b)] [(bs "z", entry_z)]);
    [done|apply search_tree_sub| |].
  - apply (under_leaf _ _ entry_b); [done|constructor].
  - apply (under_leaf _ _ entry_z); [done|constructor].
Qed.

Lemma search_canonical : @trees_canonical simple_gix unit search_db (static_contents search_repo).
Proof.
  intros oid es Ht. destruct (decide (oid = sample_id x01)) as [->|H1].
  { rewrite search_tree_root in Ht. injection Ht as <-.
    repeat (constructor; [|repeat constructor; vm_compute; reflexivity]). constructor. }
  destruct (decide (oid = sample_id x02)) as [->|H2].
  { rewrite search_tree_sub in Ht. injection Ht as <-. repeat constructor. }
  exfalso. unfold tree_of, entries_of_read, static_contents, search_repo in Ht. simpl in Ht.
  rewrite lookup_insert_ne, lookup_insert_ne in Ht by done.
  rewrite !lookup_insert, lookup_singleton in Ht. by repeat case_decide.
Qed.

Lemma search_page_within_limits_witness :
  exists page, run_search 2 400 = Ok page /\ (length (sp_matches page) <= 2)%nat /\
    match sp_next_cursor page with
    | None => total_payload (sp_matches page) <= 400
    | Some encoded => total_payload (sp_matches page) + lenN encoded <= 400 \/
        (length (sp_matches page) = 1%nat /\ 400 < total_payload (sp_matches page))
    end.
Proof.
  destruct (run_search 2 400) as [page|e] eqn:E; [|vm_compute in E; discriminate]. exists page. split; [done|].
  apply (@search_page_within_limits quiet simple_gix simple_glob simple_find simple_regex unit search_db
           (search_options 2 400) ltac:(vm_compute; reflexivity) 20 demo_snapshot (bs "one") fresh_world page
           (@search quiet simple_gix simple_glob simple_find simple_regex unit search_db 20 demo_snapshot (bs "one")
              (search_options 2 400) fresh_world).2).
  rewrite <- E. unfold run_search. apply surjective_pairing.
Defined.

Lemma plain_failure_cursor : ~ plain_failure InvalidCursor.
Proof. unfold plain_failure. intuition discriminate. Qed.

Lemma search_pages_exact_witness :
  exists r, @search_all quiet simple_gix simple_glob simple_find simple_regex unit search_db demo_snapshot (bs "one")
              (search_options 1 200) 10 20 (fun _ => Budget_new BudgetLimits_default None) None tt = Some r /\
    match r with
    | Ok items => items = @all_matches simple_glob simple_regex (static_contents search_repo) demo_snapshot
                            (search_options 1 200) (CLiteral (bs "one")) (N.shiftl 4 20) search_visits
    | Err e => code e <> InvalidCursor
    end.
Proof.
  apply (@search_pages_exact quiet simple_gix simple_glob simple_find simple_regex unit search_db
           (static_contents search_repo) (fun _ => True) plain_failure _ _ plain_stop plain_failure_cursor
           demo_snapshot (bs "one") (search_options 1 200) (CLiteral (bs "one")) (N.shiftl 4 20) (sample_id x01)
           [entry_atxt; entry_a; entry_z] search_visits).
  - split; vm_compute; reflexivity.
  - reflexivity.
  - left. split; reflexivity.
  - apply search_tree_root.
  - apply search_under.
  - apply search_canonical.
  - vm_compute. lia.
  - reflexivity.
  - done.
  - vm_compute. lia.
Defined.
