(* ===== verification/Hunks.v ===== *)
(** * Text diffs: lines, edits and hunks ([diff.rs])

    The part of a diff that works on two payloads in memory: [LinesWithLf],
    the vendored hunk assembly [UnifiedDiff] ([vendor/gix-diff],
    [blob/unified_diff/impls.rs]), the [HunkCollector] that turns its hunks into
    structured ones under the limits of the query, and the two pure-side hunks
    of a type change. The diff algorithm itself ([imara-diff]) is the class
    [BlobDiff], and what it documents is the class [LawfulBlobDiff]: its edits
    are in order, inside the two files, and what lies between them is equal.

    Positions are list indices. The algorithm accepts at most [i32::MAX] lines,
    so the u32 sums of [UnifiedDiff] do not wrap. *)

From Stdlib Require Import NArith Lia Strings.Byte Strings.String.
From stdpp Require Import prelude gmap strings list.
From S2P Require Import Prelude Errors Objects Budget Odb File Scan.

Open Scope N_scope.

(** ** The data of a diff *)

(** [DiffFormat], [RenameTracking], [DiffOptions]. *)
Inductive DiffFormat : Type :=
| FSummary
| FStats
| FPatch.
#[export] Instance DiffFormat_eq_decision : EqDecision DiffFormat.
Proof. solve_decision. Defined.

Inductive RenameTracking : Type :=
| RDisabled
| RSimilarity.

Record DiffOptions : Type := mkDiffOptions {
  do_format : DiffFormat;
  do_pathspecs : list bytes;
  do_context_lines : N;
  do_renames : RenameTracking;
  do_copies : bool;
  do_max_diff_files : N;
  do_max_diff_hunks : N;
  do_max_diff_lines : N;
  do_max_object_bytes : N
}.
Definition DiffOptions_default : DiffOptions :=
  mkDiffOptions FPatch [] 3 RDisabled false 1000 10000 100000 (4 * 1024 * 1024).

(** [DiffStatus], [DiffLineOrigin], [DiffLine], [DiffHunk], [DiffFile]. *)
Inductive DiffStatus : Type :=
| Added
| Deleted
| Modified
| Renamed
| Copied
| TypeChanged.
#[export] Instance DiffStatus_eq_decision : EqDecision DiffStatus.
Proof. solve_decision. Defined.

Inductive DiffLineOrigin : Type :=
| OContext
| OAddition
| ODeletion.
#[export] Instance DiffLineOrigin_eq_decision : EqDecision DiffLineOrigin.
Proof. solve_decision. Defined.

Record DiffLine : Type := mkDiffLine {
  dl_origin : DiffLineOrigin;
  dl_content : bytes;
  dl_old_line : option N;
  dl_new_line : option N;
  dl_no_newline : bool
}.

Record DiffHunk : Type := mkDiffHunk {
  dh_old_start : N;
  dh_old_lines : N;
  dh_new_start : N;
  dh_new_lines : N;
  dh_header : option bytes;
  dh_lines : list DiffLine
}.

Record DiffFile : Type := mkDiffFile {
  df_status : DiffStatus;
  df_old_path : option bytes;
  df_new_path : option bytes;
  df_old_oid : option Oid;
  df_new_oid : option Oid;
  df_old_mode : option N;
  df_new_mode : option N;
  df_similarity : option N;
  df_additions : option N;
  df_deletions : option N;
  df_binary : bool;
  df_hunks : list DiffHunk
}.
Definition set_counts (additions deletions : N) (f : DiffFile) : DiffFile :=
  mkDiffFile (df_status f) (df_old_path f) (df_new_path f) (df_old_oid f) (df_new_oid f) (df_old_mode f)
    (df_new_mode f) (df_similarity f) (Some additions) (Some deletions) (df_binary f) (df_hunks f).
Definition set_binary (f : DiffFile) : DiffFile :=
  mkDiffFile (df_status f) (df_old_path f) (df_new_path f) (df_old_oid f) (df_new_oid f) (df_old_mode f)
    (df_new_mode f) (df_similarity f) (df_additions f) (df_deletions f) true (df_hunks f).
Definition set_hunks (hunks : list DiffHunk) (f : DiffFile) : DiffFile :=
  mkDiffFile (df_status f) (df_old_path f) (df_new_path f) (df_old_oid f) (df_new_oid f) (df_old_mode f)
    (df_new_mode f) (df_similarity f) (df_additions f) (df_deletions f) (df_binary f) hunks.

(** ** Lines *)

Definition sadd32 (a b : N) : N := N.min (a + b) u32_max.

(** [LinesWithLf]: the iterator, and the sequence it yields. *)
Definition LinesWithLf_next (data : bytes) : option (bytes * bytes) :=
  match data with
  | [] => None
  | _ =>
      let split :=
        match position is_newline data with
        | Some p => S p
        | None => length data
        end in
      Some (take split data, drop split data)
  end.
Fixpoint LinesWithLf (fuel : nat) (data : bytes) : list bytes :=
  match fuel with
  | O => []
  | S fuel =>
      match LinesWithLf_next data with
      | None => []
      | Some (line, rest) => line :: LinesWithLf fuel rest
      end
  end.
Definition lines_with_lf (data : bytes) : list bytes := LinesWithLf (length data) data.

(** [line_count], [lacks_trailing_newline], [zero_side_start] and
    [strip_suffix] of a newline. *)
Definition diff_line_count (data : bytes) : N := u32_or_max (length (lines_with_lf data)).
Definition lacks_trailing_newline (data : bytes) : bool :=
  negb (bool_decide (data = [])) && negb (ends_with data [x0a]).
Definition zero_side_start (start lines : N) : N := if lines =? 0 then start - 1 else start.
Definition strip_lf (content : bytes) : bytes :=
  if ends_with content [x0a] then take (length content - 1) content else content.

(** ** Edits *)

(** [imara_diff::Hunk]: a range of old lines and the new lines in its place. *)
Record Edit : Type := mkEdit {
  ed_before_start : nat;
  ed_before_end : nat;
  ed_after_start : nat;
  ed_after_end : nat
}.

(** [diff_with_slider_heuristics] with the histogram algorithm: [hunks],
    [count_additions] and [count_removals]. *)
Class BlobDiff : Type := {
  blob_edits : list bytes -> list bytes -> list Edit;
  blob_additions : list bytes -> list bytes -> N;
  blob_removals : list bytes -> list bytes -> N
}.

(** ** [UnifiedDiff] *)

Inductive DiffLineKind : Type :=
| LContext
| LAdd
| LRemove.

Record HunkHeader : Type := mkHunkHeader {
  before_hunk_start : N;
  before_hunk_len : N;
  after_hunk_start : N;
  after_hunk_len : N
}.

(** What [consume_hunk] returns as [io::Error], and the panic of an [expect]. *)
Inductive IoError : Type :=
| IoOther
| IoPanic.

Record UnifiedDiff : Type := mkUnified {
  ud_before_start : nat;
  ud_before_len : nat;
  ud_after_start : nat;
  ud_after_len : nat;
  ud_ctx_pos : option nat;
  ud_buffer : list (DiffLineKind * bytes);
  ud_err : option IoError
}.
Definition UnifiedDiff_new : UnifiedDiff := mkUnified 0 0 0 0 None [] None.

Section Unified.
Context {D : Type} (consume_hunk : HunkHeader -> list (DiffLineKind * bytes) -> ST D IoError unit).
Context (before after : list bytes) (ctx_size : nat).

Definition tokens (l : list bytes) (s e : nat) : list bytes := take (e - s) (drop s l).
Definition print_tokens (ts : list bytes) (kind : DiffLineKind) (u : UnifiedDiff) : UnifiedDiff :=
  mkUnified (ud_before_start u) (ud_before_len u) (ud_after_start u) (ud_after_len u) (ud_ctx_pos u)
    (ud_buffer u ++ ((fun t => (kind, t)) <$> ts)) (ud_err u).
Definition print_context_and_update_pos (s e move_to : nat) (u : UnifiedDiff) : UnifiedDiff :=
  let u := print_tokens (tokens before s e) LContext u in
  mkUnified (ud_before_start u) (ud_before_len u + (e - s)) (ud_after_start u) (ud_after_len u + (e - s))
    (Some move_to) (ud_buffer u) (ud_err u).
Definition reset_hunks (u : UnifiedDiff) : UnifiedDiff :=
  mkUnified (ud_before_start u) 0 (ud_after_start u) 0 (ud_ctx_pos u) [] (ud_err u).
Definition nothing_to_flush (u : UnifiedDiff) : bool := (ud_before_len u =? 0)%nat && (ud_after_len u =? 0)%nat.

Definition flush_accumulated_hunk : ST (UnifiedDiff * D) IoError unit :=
  fun '(u, d) =>
    if nothing_to_flush u then (Ok tt, (u, d))
    else
      match ud_ctx_pos u with
      | None => (Err IoPanic, (u, d))
      | Some ctx_pos =>
          let e := Nat.min (ctx_pos + ctx_size) (length before) in
          let u := print_context_and_update_pos ctx_pos e e u in
          let header :=
            mkHunkHeader (N.of_nat (ud_before_start u + 1)) (N.of_nat (ud_before_len u))
              (N.of_nat (ud_after_start u + 1)) (N.of_nat (ud_after_len u)) in
          match consume_hunk header (ud_buffer u) d with
          | (Err x, d) => (Err x, (u, d))
          | (Ok _, d) => (Ok tt, (reset_hunks u, d))
          end
      end.

Definition set_err (x : IoError) (u : UnifiedDiff) : UnifiedDiff :=
  mkUnified (ud_before_start u) (ud_before_len u) (ud_after_start u) (ud_after_len u) (ud_ctx_pos u)
    (ud_buffer u) (Some x).
Definition start_hunk (b a : nat) (pos : option nat) (u : UnifiedDiff) : UnifiedDiff :=
  mkUnified b (ud_before_len u) a (ud_after_len u) pos (ud_buffer u) (ud_err u).
Definition add_lens (b a : nat) (u : UnifiedDiff) : UnifiedDiff :=
  mkUnified (ud_before_start u) (ud_before_len u + b) (ud_after_start u) (ud_after_len u + a) (ud_ctx_pos u)
    (ud_buffer u) (ud_err u).

(** [process_change] after the possible flush: the context, then the edit. *)
Definition accumulate (e : Edit) (u : UnifiedDiff) : UnifiedDiff :=
  let '(ctx_pos, u) :=
    match ud_ctx_pos u with
    | None =>
        let p := (ed_before_start e - ctx_size)%nat in
        (p, start_hunk p (ed_after_start e - ctx_size) None u)
    | Some p => (p, u)
    end in
  let u := print_context_and_update_pos ctx_pos (ed_before_start e) (ed_before_end e) u in
  let u := add_lens (ed_before_end e - ed_before_start e) (ed_after_end e - ed_after_start e) u in
  let u := print_tokens (tokens before (ed_before_start e) (ed_before_end e)) LRemove u in
  print_tokens (tokens after (ed_after_start e) (ed_after_end e)) LAdd u.
Definition starts_next_hunk (e : Edit) (u : UnifiedDiff) : bool :=
  match ud_ctx_pos u with
  | Some p => (2 * ctx_size <? ed_before_start e - p)%nat
  | None => false
  end.
Definition process_change (e : Edit) (w : UnifiedDiff * D) : UnifiedDiff * D :=
  let '(u, d) := w in
  match ud_err u with
  | Some _ => (u, d)
  | None =>
      if starts_next_hunk e u then
        match flush_accumulated_hunk (u, d) with
        | (Err x, (u, d)) => (set_err x u, d)
        | (Ok _, (u, d)) =>
            let p := (ed_before_start e - ctx_size)%nat in
            (accumulate e (start_hunk p (ed_after_start e - ctx_size) (Some p) u), d)
        end
      else (accumulate e u, d)
  end.

(** [consume]: a failed flush is remembered, and the last flush still runs. *)
Definition consume_diff (edits : list Edit) (d : D) : result IoError unit * D :=
  let w := foldl (fun w e => process_change e w) (UnifiedDiff_new, d) edits in
  let '(u, d) :=
    match flush_accumulated_hunk w with
    | (Err x, (u, d)) => (set_err x u, d)
    | (Ok _, (u, d)) => (u, d)
    end in
  (match ud_err u with Some x => Err x | None => Ok tt end, d).

End Unified.

(** ** [HunkCollector] *)

Record CollectorOptions : Type := mkCollectorOptions {
  co_max_hunks : N;
  co_max_lines : N;
  co_old_final_line : N;
  co_new_final_line : N;
  co_old_lacks_newline : bool;
  co_new_lacks_newline : bool
}.
Record HunkCollector : Type := mkCollector {
  hc_hunks : list DiffHunk;
  hc_stopped_by : option string;
  hc_error : option Error;
  hc_hunks_used : N;
  hc_lines_used : N
}.
Definition collector_stop (limit : string) (s : HunkCollector) : HunkCollector :=
  mkCollector (hc_hunks s) (Some limit) (hc_error s) (hc_hunks_used s) (hc_lines_used s).
Definition collector_fail (e : Error) (s : HunkCollector) : HunkCollector :=
  mkCollector (hc_hunks s) (hc_stopped_by s) (Some e) (hc_hunks_used s) (hc_lines_used s).
Definition collector_push (h : DiffHunk) (lines : N) (s : HunkCollector) : HunkCollector :=
  mkCollector (hc_hunks s ++ [h]) (hc_stopped_by s) (hc_error s) (sadd64 (hc_hunks_used s) 1)
    (sadd64 (hc_lines_used s) lines).

(** What [PopulateOutcome::Stopped] names. *)
Inductive PopulateOutcome : Type :=
| Complete
| Oversize
| Stopped (limit : string).

Section Collector.
Context `{Env} (opts : CollectorOptions).

Abbreviation CM := (ST (Budget * HunkCollector) IoError).

Definition collector_check : CM unit :=
  fun '(b, s) =>
    match check b with
    | (Ok _, b) => (Ok tt, (b, s))
    | (Err e, b) => (Err IoOther, (b, collector_fail e s))
    end.
Definition stop_at (limit : string) : CM unit :=
  fun '(b, s) => (Err IoOther, (b, collector_stop limit s)).

(** One line of a hunk, with its numbers on the two sides. *)
Definition structured_line (kind : DiffLineKind) (content : bytes) (old_line new_line : N) : DiffLine :=
  let content := strip_lf content in
  let old_end := co_old_lacks_newline opts && (old_line =? co_old_final_line opts) in
  let new_end := co_new_lacks_newline opts && (new_line =? co_new_final_line opts) in
  match kind with
  | LContext => mkDiffLine OContext content (Some old_line) (Some new_line) (old_end || new_end)
  | LAdd => mkDiffLine OAddition content None (Some new_line) new_end
  | LRemove => mkDiffLine ODeletion content (Some old_line) None old_end
  end.
Definition next_old (kind : DiffLineKind) (old_line : N) : N :=
  match kind with
  | LContext | LRemove => sadd32 old_line 1
  | LAdd => old_line
  end.
Definition next_new (kind : DiffLineKind) (new_line : N) : N :=
  match kind with
  | LContext | LAdd => sadd32 new_line 1
  | LRemove => new_line
  end.
Fixpoint collect_lines (lines : list (DiffLineKind * bytes)) (old_line new_line : N) (output : list DiffLine)
  : CM (list DiffLine) :=
  match lines with
  | [] => sret output
  | (kind, content) :: lines =>
      let! _ := collector_check in
      collect_lines lines (next_old kind old_line) (next_new kind new_line)
        (output ++ [structured_line kind content old_line new_line])
  end.
Definition structured_hunk (header : HunkHeader) (lines : list DiffLine) : DiffHunk :=
  mkDiffHunk (zero_side_start (before_hunk_start header) (before_hunk_len header)) (before_hunk_len header)
    (zero_side_start (after_hunk_start header) (after_hunk_len header)) (after_hunk_len header) None lines.
Definition consume_hunk (header : HunkHeader) (lines : list (DiffLineKind * bytes)) : CM unit :=
  let! _ := collector_check in
  let! hunks_used := sget (fun '(_, s) => hc_hunks_used s) in
  if hunks_used =? co_max_hunks opts then stop_at "max_diff_hunks"
  else
    let! lines_used := sget (fun '(_, s) => hc_lines_used s) in
    if co_max_lines opts <? sadd64 lines_used (lenN lines) then stop_at "max_diff_lines"
    else
      let! output := collect_lines lines (before_hunk_start header) (after_hunk_start header) [] in
      fun '(b, s) => (Ok tt, (b, collector_push (structured_hunk header output) (lenN lines) s)).

End Collector.

(** ** Two payloads *)

(** The hunk and line counters of a query, [hunks_used] and [lines_used]. *)
Record Used : Type := mkUsed { us_hunks : N; us_lines : N }.
Definition used_hunk (lines : N) (u : Used) : Used := mkUsed (sadd64 (us_hunks u) 1) (sadd64 (us_lines u) lines).

Definition DIFF_CHECK_BYTES : nat := N.to_nat (64 * 1024).

Section Populate.
Context `{Env} `{BlobDiff} {T : Type}.

Abbreviation Populated := (PopulateOutcome * DiffFile * Used)%type.

(** [check_comparison_cadence]. *)
Fixpoint check_each {A} (l : list A) : DM T unit :=
  match l with
  | [] => sret tt
  | _ :: l => let! _ := on_budget check in check_each l
  end.
Definition check_comparison_cadence (old new : bytes) : DM T unit :=
  let! _ := check_each (chunks (length old) DIFF_CHECK_BYTES old) in
  let! _ := check_each (chunks (length new) DIFF_CHECK_BYTES new) in
  on_budget check.

(** [populate_type_change_hunks]: every line of one side, the hunk of a side,
    and both sides in turn. *)
Definition side_line (origin : DiffLineOrigin) (lacks : bool) (count : N) (index : nat) (content : bytes)
  : DiffLine :=
  let number := u32_or_max (index + 1) in
  mkDiffLine origin (strip_lf content)
    (if bool_decide (origin = ODeletion) then Some number else None)
    (if bool_decide (origin = OAddition) then Some number else None) (lacks && (number =? count)).
Fixpoint side_lines (origin : DiffLineOrigin) (lacks : bool) (count : N) (index : nat) (lines : list bytes)
  : DM T (list DiffLine) :=
  match lines with
  | [] => sret []
  | content :: lines =>
      let! _ := on_budget check in
      let! rest := side_lines origin lacks count (S index) lines in
      sret (side_line origin lacks count index content :: rest)
  end.
Definition side_hunk (origin : DiffLineOrigin) (count : N) (lines : list DiffLine) : DiffHunk :=
  if bool_decide (origin = ODeletion) then mkDiffHunk (zero_side_start 1 count) count 0 0 None lines
  else mkDiffHunk 0 0 (zero_side_start 1 count) count None lines.
Fixpoint populate_sides (opts : DiffOptions) (sides : list (DiffLineOrigin * bytes)) (file : DiffFile) (used : Used)
  : DM T Populated :=
  match sides with
  | [] => sret (Complete, file, used)
  | (origin, data) :: sides =>
      let! _ := on_budget check in
      let count := diff_line_count data in
      if us_hunks used =? do_max_diff_hunks opts then sret (Stopped "max_diff_hunks", file, used)
      else if do_max_diff_lines opts <? sadd64 (us_lines used) count then
        sret (Stopped "max_diff_lines", file, used)
      else
        let! lines := side_lines origin (lacks_trailing_newline data) count 0 (lines_with_lf data) in
        populate_sides opts sides (set_hunks (df_hunks file ++ [side_hunk origin count lines]) file)
          (used_hunk count used)
  end.
Definition populate_type_change_hunks (file : DiffFile) (old new : bytes) (opts : DiffOptions) (used : Used)
  : DM T Populated :=
  populate_sides opts [(ODeletion, old); (OAddition, new)] file used.

(** The collector of one file. *)
Definition collector_options (opts : DiffOptions) (old new : bytes) : CollectorOptions :=
  mkCollectorOptions (do_max_diff_hunks opts) (do_max_diff_lines opts) (diff_line_count old)
    (diff_line_count new) (lacks_trailing_newline old) (lacks_trailing_newline new).
Definition populate_patch (file : DiffFile) (old new : bytes) (edits : list Edit) (opts : DiffOptions)
  (used : Used) : DM T Populated :=
  fun '(b, t) =>
    let '(consumed, (b, s)) :=
      consume_diff (consume_hunk (collector_options opts old new)) (lines_with_lf old) (lines_with_lf new)
        (N.to_nat (do_context_lines opts)) edits
        (b, mkCollector [] None None (us_hunks used) (us_lines used)) in
    let file := set_hunks (hc_hunks s) file in
    let used := mkUsed (hc_hunks_used s) (hc_lines_used s) in
    (match consumed with
     | Ok _ => Ok (Complete, file, used)
     | Err _ =>
         match hc_error s with
         | Some e => Err e
         | None =>
             match hc_stopped_by s with
             | Some limit => Ok (Stopped limit, file, used)
             | None => Err (Error_new InternalError "structured hunk assembly failed")
             end
         end
     end, (b, t)).

(** [populate_content] once both payloads are in memory. *)
Definition populate_text (file : DiffFile) (old new : bytes) (opts : DiffOptions) (used : Used)
  : DM T Populated :=
  if is_binary_payload old || is_binary_payload new then sret (Complete, set_binary file, used)
  else
    let! _ := check_comparison_cadence old new in
    if bool_decide (df_status file = TypeChanged) && bool_decide (do_format opts = FPatch) then
      populate_type_change_hunks (set_counts (diff_line_count new) (diff_line_count old) file) old new opts used
    else
      let before := lines_with_lf old in
      let after := lines_with_lf new in
      let file := set_counts (blob_additions before after) (blob_removals before after) file in
      if bool_decide (do_format opts = FStats) then sret (Complete, file, used)
      else populate_patch file old new (blob_edits before after) opts used.

End Populate.

(* ------------------------------------------------------------------ *)
(** ** What the algorithm promises *)

(** From line [i] of the old and line [j] of the new file on: the edits are in
    order and inside the files, and the lines between them are equal. *)
Inductive aligned (old new : list bytes) : nat -> nat -> list Edit -> Prop :=
| aligned_nil i j :
    (i <= length old)%nat -> (j <= length new)%nat -> drop i old = drop j new -> aligned old new i j []
| aligned_cons i j g e es :
    ed_before_start e = (i + g)%nat -> ed_after_start e = (j + g)%nat ->
    tokens old i (i + g) = tokens new j (j + g) ->
    (ed_before_start e <= ed_before_end e <= length old)%nat ->
    (ed_after_start e <= ed_after_end e <= length new)%nat ->
    (ed_before_start e < ed_before_end e \/ ed_after_start e < ed_after_end e)%nat ->
    aligned old new (ed_before_end e) (ed_after_end e) es ->
    aligned old new i j (e :: es).

Class LawfulBlobDiff (engine : BlobDiff) : Prop := {
  blob_aligned old new : aligned old new 0 0 (blob_edits old new);
  blob_additions_sum old new :
    blob_additions old new = N.of_nat (sum_list ((fun e => ed_after_end e - ed_after_start e)%nat <$> blob_edits old new));
  blob_removals_sum old new :
    blob_removals old new = N.of_nat (sum_list ((fun e => ed_before_end e - ed_before_start e)%nat <$> blob_edits old new))
}.

(* ------------------------------------------------------------------ *)
(** ** The hunks [UnifiedDiff] hands to its delegate *)

Abbreviation RawHunk := (HunkHeader * list (DiffLineKind * bytes))%type.

Definition on_old (kind : DiffLineKind) : bool := match kind with LAdd => false | _ => true end.
Definition on_new (kind : DiffLineKind) : bool := match kind with LRemove => false | _ => true end.
Definition side (keep : DiffLineKind -> bool) (ls : list (DiffLineKind * bytes)) : list bytes :=
  (filter (fun l => keep l.1 = true) ls).*2.

(** The hunks so far cover the old file up to line [i] and the new file up to
    line [j]: between two hunks the files agree, and each hunk shows a slice of
    either file at the place its header says. *)
Inductive located (old new : list bytes) : list RawHunk -> nat -> nat -> Prop :=
| located_nil : located old new [] 0 0
| located_snoc hs i j b a h ls i' j' :
    located old new hs i j ->
    (i <= b <= i' /\ i' <= length old)%nat -> (j <= a <= j' /\ j' <= length new)%nat ->
    (b - i = a - j)%nat -> tokens old i b = tokens new j a ->
    side on_old ls = tokens old b i' -> side on_new ls = tokens new a j' ->
    h = mkHunkHeader (N.of_nat (b + 1)) (N.of_nat (i' - b)) (N.of_nat (a + 1)) (N.of_nat (j' - a)) ->
    located old new (hs ++ [(h, ls)]) i' j'.

(** The hunks cover all there is. *)
Definition covers (old new : list bytes) (hs : list RawHunk) : Prop :=
  exists i j, located old new hs i j /\ (i <= length old)%nat /\ (j <= length new)%nat /\ drop i old = drop j new.

Lemma side_app keep ls ls' : side keep (ls ++ ls') = side keep ls ++ side keep ls'.
Proof. unfold side. by rewrite filter_app, fmap_app. Qed.
Lemma side_print keep kind ts :
  side keep ((fun t => (kind, t)) <$> ts) = if keep kind then ts else [].
Proof.
  unfold side. induction ts as [|t ts IH]; [by destruct (keep kind)|]. cbn [fmap list_fmap].
  rewrite filter_cons. cbn [fst]. destruct (keep kind) eqn:Ek.
  - rewrite decide_True by done. cbn. by rewrite IH.
  - rewrite decide_False by done. done.
Qed.

Lemma side_cons keep k x ls : side keep ((k, x) :: ls) = if keep k then x :: side keep ls else side keep ls.
Proof. unfold side. rewrite filter_cons. cbn [fst]. by destruct (keep k). Qed.

Lemma tokens_app l i j k : (i <= j <= k)%nat -> tokens l i j ++ tokens l j k = tokens l i k.
Proof.
  intros Hk. unfold tokens. replace (drop j l) with (drop (j - i) (drop i l)).
  - rewrite take_take_drop. f_equal. lia.
  - rewrite drop_drop. f_equal. lia.
Qed.
Lemma tokens_nil l i : tokens l i i = [].
Proof. unfold tokens. by rewrite Nat.sub_diag. Qed.
Lemma length_tokens l i j : (j <= length l)%nat -> length (tokens l i j) = (j - i)%nat.
Proof. intros. unfold tokens. rewrite length_take, length_drop. lia. Qed.
Lemma tokens_sub (l l' : list bytes) i j n m :
  tokens l i (i + n) = tokens l' j (j + n) -> (m <= n)%nat -> tokens l i (i + m) = tokens l' j (j + m).
Proof.
  unfold tokens. rewrite !Nat.add_sub'. intros He Hm.
  rewrite <- (Nat.min_l m n) by done. rewrite <- !take_take. by rewrite He.
Qed.
Lemma tokens_sub_end (l l' : list bytes) i j n m :
  tokens l i (i + n) = tokens l' j (j + n) -> (m <= n)%nat ->
  tokens l (i + m) (i + n) = tokens l' (j + m) (j + n).
Proof.
  intros He Hm. pose proof (tokens_sub _ _ _ _ _ _ He Hm) as Hp.
  rewrite <- (tokens_app l i (i + m) (i + n)), <- (tokens_app l' j (j + m) (j + n)), Hp in He by lia.
  by apply app_inv_head in He.
Qed.
Lemma tokens_drop (l l' : list bytes) i j m : drop i l = drop j l' -> tokens l i (i + m) = tokens l' j (j + m).
Proof. unfold tokens. rewrite !Nat.add_sub'. by intros ->. Qed.

(** How many lines a hunk adds and removes, and how many an edit does. *)
Definition is_add (kind : DiffLineKind) : bool := match kind with LAdd => true | _ => false end.
Definition is_remove (kind : DiffLineKind) : bool := match kind with LRemove => true | _ => false end.
Definition tally (ls : list (DiffLineKind * bytes)) : nat * nat :=
  (length (side is_add ls), length (side is_remove ls)).
Definition raw_of (hs : list RawHunk) : list (DiffLineKind * bytes) := mjoin hs.*2.
Definition add_pair (p q : nat * nat) : nat * nat := (p.1 + q.1, p.2 + q.2)%nat.
Definition edit_size (e : Edit) : nat * nat :=
  (ed_after_end e - ed_after_start e, ed_before_end e - ed_before_start e)%nat.
Definition edits_size (es : list Edit) : nat * nat :=
  (sum_list ((fun e => ed_after_end e - ed_after_start e)%nat <$> es),
   sum_list ((fun e => ed_before_end e - ed_before_start e)%nat <$> es)).

Lemma tally_print ls kind ts :
  tally (ls ++ ((fun t => (kind, t)) <$> ts)) =
  add_pair (tally ls) (if is_add kind then length ts else 0, if is_remove kind then length ts else 0)%nat.
Proof. unfold tally, add_pair. rewrite !side_app, !side_print, !length_app. by destruct kind. Qed.
Lemma add_pair_0 p : add_pair p (0, 0)%nat = p.
Proof. destruct p. unfold add_pair. cbn. f_equal; lia. Qed.
Lemma raw_of_snoc hs h ls : raw_of (hs ++ [(h, ls)]) = raw_of hs ++ ls.
Proof. unfold raw_of. rewrite fmap_app, join_app. cbn [fmap list_fmap mjoin list_join snd]. by rewrite app_nil_r. Qed.
Lemma edits_size_foldl es : edits_size es = foldl (fun n e => add_pair n (edit_size e)) (0, 0)%nat es.
Proof.
  assert (Hg : forall n, foldl (fun n e => add_pair n (edit_size e)) n es = add_pair n (edits_size es)).
  { induction es as [|e es IH]; intros [x y]; [by rewrite add_pair_0|]. cbn [foldl]. rewrite IH.
    unfold add_pair, edits_size, edit_size. cbn. f_equal; lia. }
  rewrite Hg. unfold add_pair. by destruct (edits_size es).
Qed.

Section UnifiedSpec.
Context {D : Type} (consume : HunkHeader -> list (DiffLineKind * bytes) -> ST D IoError unit).
Context (old new : list bytes) (ctx : nat).

(** What the delegate keeps: [Acc hs d] while it has accepted [hs], and
    [Bad hs ls d] after it has refused a hunk of lines [ls] after them; a
    refusal is not undone by a second call with more lines. *)
Context (Acc : list RawHunk -> D -> Prop) (Bad : list RawHunk -> list (DiffLineKind * bytes) -> D -> Prop).
Hypothesis accept : forall hs d h ls d', Acc hs d -> consume h ls d = (Ok tt, d') -> Acc (hs ++ [(h, ls)]) d'.
Hypothesis refuse : forall hs d h ls x d', Acc hs d -> consume h ls d = (Err x, d') -> Bad hs ls d'.
Hypothesis refused : forall hs ls d h ls' r d',
  Bad hs ls d -> consume h (ls ++ ls') d = (r, d') -> Bad hs ls d'.

(** The accumulated hunk shows the files from [ud_before_start] and
    [ud_after_start] up to the lines [i] and [j]. *)
Record open_hunk (hs : list RawHunk) (i j : nat) (n : nat * nat) (u : UnifiedDiff) : Prop := mkOpen {
  oh_ctx : ud_ctx_pos u = Some i;
  oh_from : exists i0 j0, located old new hs i0 j0 /\ (i0 <= ud_before_start u)%nat /\ (j0 <= ud_after_start u)%nat /\
    (ud_before_start u - i0 = ud_after_start u - j0)%nat /\
    tokens old i0 (ud_before_start u) = tokens new j0 (ud_after_start u);
  oh_range : (ud_before_start u <= i <= length old /\ ud_after_start u <= j <= length new)%nat;
  oh_old : side on_old (ud_buffer u) = tokens old (ud_before_start u) i;
  oh_new : side on_new (ud_buffer u) = tokens new (ud_after_start u) j;
  oh_lens : ud_before_len u = (i - ud_before_start u)%nat /\ ud_after_len u = (j - ud_after_start u)%nat;
  oh_tally : tally (raw_of hs ++ ud_buffer u) = n;
  oh_err : ud_err u = None
}.

(** Printing [n] lines of context, equal in both files. *)
Lemma open_hunk_context hs i j c u n move :
  open_hunk hs i j c u -> tokens old i (i + n) = tokens new j (j + n) ->
  (i + n <= length old)%nat -> (j + n <= length new)%nat -> move = (i + n)%nat ->
  open_hunk hs (i + n) (j + n) c (print_context_and_update_pos old i (i + n) move u).
Proof.
  intros [Hc Hf [Hr1 Hr2] Ho Hn [Hl1 Hl2] Ht He] Heq Hi Hj ->. split; cbn -[tokens side tally raw_of]; try done; try lia.
  - rewrite side_app, side_print, Ho. cbn. apply tokens_app. lia.
  - rewrite side_app, side_print, Hn, Heq. cbn. apply tokens_app. lia.
  - by rewrite app_assoc, tally_print, Ht, add_pair_0.
Qed.

(** Printing an edit. *)
Lemma open_hunk_edit hs i j c u e :
  open_hunk hs i j c u -> (i <= ed_before_end e <= length old)%nat -> (j <= ed_after_end e <= length new)%nat ->
  ed_before_start e = i -> ed_after_start e = j ->
  open_hunk hs (ed_before_end e) (ed_after_end e) (add_pair c (edit_size e))
    (print_tokens (tokens new (ed_after_start e) (ed_after_end e)) LAdd
       (print_tokens (tokens old (ed_before_start e) (ed_before_end e)) LRemove
          (add_lens (ed_before_end e - ed_before_start e) (ed_after_end e - ed_after_start e)
             (start_hunk (ud_before_start u) (ud_after_start u) (Some (ed_before_end e)) u)))).
Proof.
  intros [Hc Hf [Hr1 Hr2] Ho Hn [Hl1 Hl2] Ht He] Hi Hj Hb Ha.
  unfold edit_size. rewrite Hb, Ha. split; cbn -[tokens side tally raw_of]; try done; try lia.
  - rewrite !side_app, !side_print, Ho. cbn. rewrite app_nil_r. apply tokens_app. lia.
  - rewrite !side_app, !side_print, Hn. cbn. rewrite app_nil_r. apply tokens_app. lia.
  - rewrite !app_assoc, !tally_print, Ht, !length_tokens by lia. unfold add_pair. cbn. f_equal; lia.
Qed.

Lemma accumulate_open hs i j c u e g :
  open_hunk hs i j c u -> ed_before_start e = (i + g)%nat -> ed_after_start e = (j + g)%nat ->
  tokens old i (i + g) = tokens new j (j + g) ->
  (ed_before_start e <= ed_before_end e <= length old)%nat ->
  (ed_after_start e <= ed_after_end e <= length new)%nat ->
  open_hunk hs (ed_before_end e) (ed_after_end e) (add_pair c (edit_size e)) (accumulate old new ctx e u).
Proof.
  intros Ho Hb Ha Heq Hbe Hae.
  pose proof (open_hunk_context hs i j c u g (i + g) Ho Heq ltac:(lia) ltac:(lia) eq_refl) as Hc.
  pose proof (open_hunk_edit _ _ _ _ _ e Hc ltac:(lia) ltac:(lia) Hb Ha) as Hr.
  unfold accumulate. rewrite (oh_ctx _ _ _ _ _ Ho). rewrite Hb in *. exact Hr.
Qed.

Lemma accumulate_len e u :
  (ed_before_start e < ed_before_end e \/ ed_after_start e < ed_after_end e)%nat ->
  (0 < ud_before_len (accumulate old new ctx e u) + ud_after_len (accumulate old new ctx e u))%nat.
Proof. intros He. unfold accumulate. destruct (ud_ctx_pos u); cbn; lia. Qed.

(** Flushing with [n] lines of trailing context. *)
Lemma flush_open hs i j c u d n r u' d' :
  open_hunk hs i j c u -> Acc hs d -> (0 < ud_before_len u + ud_after_len u)%nat ->
  n = (Nat.min (i + ctx) (length old) - i)%nat -> tokens old i (i + n) = tokens new j (j + n) ->
  (j + n <= length new)%nat ->
  flush_accumulated_hunk consume old ctx (u, d) = (r, (u', d')) ->
  match r with
  | Ok _ => exists hs', Acc hs' d' /\ located old new hs' (i + n) (j + n) /\ tally (raw_of hs') = c /\ ud_buffer u' = [] /\
      ud_before_len u' = 0%nat /\ ud_after_len u' = 0%nat /\ ud_err u' = None
  | Err _ => exists i0 j0, located old new hs i0 j0 /\ Bad hs (ud_buffer u') d'
  end.
Proof.
  intros Ho Ha Hlen Hn Heq Hj. pose proof (oh_range _ _ _ _ _ Ho) as Hr.
  assert (Hend : Nat.min (i + ctx) (length old) = (i + n)%nat) by lia.
  pose proof (open_hunk_context hs i j c u n (i + n) Ho Heq ltac:(lia) Hj eq_refl) as [_ Hf Hr' Hso Hsn [Hl1 Hl2] Ht He].
  unfold flush_accumulated_hunk, nothing_to_flush. rewrite (oh_ctx _ _ _ _ _ Ho), Hend.
  destruct (Nat.eqb_spec (ud_before_len u) 0), (Nat.eqb_spec (ud_after_len u) 0); cbn [andb]; try lia.
  all: set (u1 := print_context_and_update_pos old i (i + n) (i + n) u) in *.
  all: destruct Hf as (i0 & j0 & Hloc & Hi0 & Hj0 & Hd & Htk).
  all: destruct (consume _ _ _) as [[[]|x] d1] eqn:Ec; intros [= <- <- <-]; [|by eauto].
  all: eexists; split; [by eapply accept|]; split; [rewrite Hl1, Hl2|split; [by rewrite raw_of_snoc|done]].
  all: eapply located_snoc; [exact Hloc|..]; try done; lia.
Qed.

Lemma flush_bad hs ls u d r u' d' :
  Bad hs ls d -> ud_buffer u = ls -> flush_accumulated_hunk consume old ctx (u, d) = (r, (u', d')) -> Bad hs ls d'.
Proof.
  intros Hb <-. unfold flush_accumulated_hunk. destruct (nothing_to_flush u); [by intros [= <- <- <-]|].
  destruct (ud_ctx_pos u) as [p|]; [|by intros [= <- <- <-]].
  destruct (consume _ _ _) as [[?|x] d1] eqn:Ec; intros [= <- <- <-]; exact (refused _ _ _ _ _ _ _ Hb Ec).
Qed.

Lemma flush_keeps_err u d r u' d' :
  is_Some (ud_err u) -> flush_accumulated_hunk consume old ctx (u, d) = (r, (u', d')) -> is_Some (ud_err u').
Proof.
  intros Hu. unfold flush_accumulated_hunk. destruct (nothing_to_flush u); [by intros [= <- <- <-]|].
  destruct (ud_ctx_pos u) as [p|]; [|by intros [= <- <- <-]]. by destruct (consume _ _ _) as [[?|x] d1]; intros [= <- <- <-].
Qed.

(** The states of the run: nothing read yet, a hunk open up to the lines [i]
    and [j], or a refused hunk. *)
Definition running (hs : list RawHunk) (i j : nat) (n : nat * nat) (w : UnifiedDiff * D) : Prop :=
  Acc hs w.2 /\ (w.1 = UnifiedDiff_new /\ hs = [] /\ i = 0%nat /\ j = 0%nat /\ n = (0, 0)%nat \/
                 open_hunk hs i j n w.1 /\ (0 < ud_before_len w.1 + ud_after_len w.1)%nat).
Definition broken (w : UnifiedDiff * D) : Prop :=
  is_Some (ud_err w.1) /\ exists hs i j, located old new hs i j /\ Bad hs (ud_buffer w.1) w.2.

Lemma start_open hs i0 j0 b a u :
  located old new hs i0 j0 -> (i0 <= b)%nat -> (j0 <= a)%nat -> (b - i0 = a - j0)%nat ->
  tokens old i0 b = tokens new j0 a -> (b <= length old)%nat -> (a <= length new)%nat ->
  ud_buffer u = [] -> ud_before_len u = 0%nat -> ud_after_len u = 0%nat -> ud_err u = None ->
  open_hunk hs b a (tally (raw_of hs)) (start_hunk b a (Some b) u).
Proof.
  intros Hloc Hi Hj Hd Htk Hb Ha Hbuf Hlb Hla He.
  split; cbn -[tokens side tally raw_of]; [done|by exists i0, j0|lia|by rewrite Hbuf, tokens_nil..|lia| |done].
  by rewrite Hbuf, app_nil_r.
Qed.

Lemma process_change_spec hs i j n0 w e es :
  running hs i j n0 w -> aligned old new i j (e :: es) ->
  broken (process_change consume old new ctx e w) \/
  exists hs', running hs' (ed_before_end e) (ed_after_end e) (add_pair n0 (edit_size e)) (process_change consume old new ctx e w).
Proof.
  intros [Ha Hrun] Hal. inversion Hal as [|? ? g ? ? Hb Has Heq Hbe Hae Hne Hrest]; subst. destruct w as [u d].
  cbn [fst snd] in *. unfold process_change. destruct Hrun as [(-> & -> & -> & -> & ->)|[Ho Hlen]].
  { right. exists []. split; [done|]. right. cbn [fst UnifiedDiff_new ud_err starts_next_hunk ud_ctx_pos].
    set (m := (g - ctx)%nat).
    assert (Hop : open_hunk [] m m (0, 0)%nat (start_hunk m m (Some m) UnifiedDiff_new)).
    { eapply (start_open [] 0 0); try done; [constructor|lia..| |lia|lia].
      pose proof (tokens_sub _ _ _ _ _ m Heq ltac:(lia)) as Hm. exact Hm. }
    assert (Heq' : tokens old m (m + (g - m)) = tokens new m (m + (g - m))).
    { pose proof (tokens_sub_end _ _ _ _ _ m Heq ltac:(lia)) as Hm. cbn in Hm. by replace (m + (g - m))%nat with g by lia. }
    pose proof (accumulate_open _ _ _ _ _ e (g - m) Hop ltac:(lia) ltac:(lia) Heq' Hbe Hae) as Hacc.
    assert (Hsame : accumulate old new ctx e UnifiedDiff_new =
                    accumulate old new ctx e (start_hunk m m (Some m) UnifiedDiff_new)).
    { unfold accumulate. cbn [ud_ctx_pos UnifiedDiff_new start_hunk]. rewrite Hb, Has. done. }
    rewrite Hsame. split; [done|]. by apply accumulate_len. }
  rewrite (oh_err _ _ _ _ _ Ho). unfold starts_next_hunk. rewrite (oh_ctx _ _ _ _ _ Ho).
  destruct (Nat.ltb_spec (2 * ctx) (ed_before_start e - i)) as [Hlt|Hge].
  2:{ right. exists hs. split; [done|]. right. split; [by eapply accumulate_open|by apply accumulate_len]. }
  pose proof (oh_range _ _ _ _ _ Ho) as Hr.
  set (n := (Nat.min (i + ctx) (length old) - i)%nat). assert (n <= g)%nat by lia.
  destruct (flush_accumulated_hunk consume old ctx (u, d)) as [r [u1 d1]] eqn:Ef.
  pose proof (flush_open _ _ _ _ _ _ n _ _ _ Ho Ha Hlen eq_refl (tokens_sub _ _ _ _ _ n Heq ltac:(lia)) ltac:(lia) Ef)
    as Hf.
  destruct r as [[]|x]; [right|left; split; [by eexists|]; cbn; naive_solver].
  destruct Hf as (hs' & Ha' & Hloc & <- & Hbuf & Hlb & Hla & He). exists hs'. split; [done|]. right. cbn [fst].
  split; [|by apply accumulate_len]. set (p := (ed_before_start e - ctx)%nat). set (a := (ed_after_start e - ctx)%nat).
  assert (Hp : p = (i + (g - ctx))%nat) by lia. assert (Hq : a = (j + (g - ctx))%nat) by lia.
  eapply (accumulate_open hs' p a _ _ e ctx); [|lia|lia| |done|done].
  - eapply (start_open hs' (i + n) (j + n)); try done; [lia..| |lia|lia]. rewrite Hp, Hq.
    replace (i + (g - ctx))%nat with (i + n + (g - ctx - n))%nat by lia.
    replace (j + (g - ctx))%nat with (j + n + (g - ctx - n))%nat by lia.
    eapply (tokens_sub _ _ _ _ (g - n)); [|lia].
    replace (i + n + (g - n))%nat with (i + g)%nat by lia. replace (j + n + (g - n))%nat with (j + g)%nat by lia.
    by apply tokens_sub_end.
  - rewrite Hp, Hq, <- !Nat.add_assoc, !Nat.sub_add by lia. apply tokens_sub_end; [done|lia].
Qed.

Lemma process_changes_spec es : forall hs i j n w,
  running hs i j n w -> aligned old new i j es ->
  let w' := foldl (fun w e => process_change consume old new ctx e w) w es in
  broken w' \/ exists hs' i' j', running hs' i' j' (foldl (fun n e => add_pair n (edit_size e)) n es) w' /\
    aligned old new i' j' [].
Proof.
  induction es as [|e es IH]; intros hs i j n w Hrun Hal; cbn [foldl]; [right; by exists hs, i, j|].
  destruct (process_change_spec _ _ _ _ _ _ _ Hrun Hal) as [Hbr|(hs' & Hrun')].
  - left. clear IH Hrun Hal. generalize dependent (process_change consume old new ctx e w). clear w.
    induction es as [|e' es IH]; intros w Hbr; [done|]. cbn [foldl]. apply IH. destruct w as [u d].
    unfold process_change. by destruct Hbr as [[x Hx] Hbr]; cbn [fst] in Hx; rewrite Hx; split; [exists x|].
  - inversion Hal; subst. by eapply IH.
Qed.

(** The run of [consume]: either every hunk was accepted and they cover both
    files, or one was refused, after hunks that are in their places. *)
Lemma consume_diff_spec edits d r d' :
  Acc [] d -> aligned old new 0 0 edits -> consume_diff consume old new ctx edits d = (r, d') ->
  match r with
  | Ok _ => exists hs, Acc hs d' /\ covers old new hs /\ tally (raw_of hs) = edits_size edits
  | Err _ => exists hs i j ls, located old new hs i j /\ Bad hs ls d'
  end.
Proof.
  intros Ha Hal. unfold consume_diff.
  assert (Hrun : running [] 0 0 (0, 0)%nat (UnifiedDiff_new, d)) by (split; [done|by left]).
  pose proof (process_changes_spec _ _ _ _ _ _ Hrun Hal) as Hend. cbv zeta in Hend.
  destruct (foldl _ _ edits) as [u d1].
  destruct (flush_accumulated_hunk consume old ctx (u, d1)) as [rf [u2 d2]] eqn:Ef.
  destruct Hend as [[[x Hx] (hs & i & j & Hloc & Hbad)]|(hs & i & j & [Ha1 Hst] & Hal1)]; cbn [fst snd] in *.
  { pose proof (flush_bad _ _ _ _ _ _ _ Hbad eq_refl Ef) as Hb2.
    assert (Herr : is_Some (ud_err u2)) by by eapply flush_keeps_err.
    destruct rf as [[]|y]; cbn; [destruct Herr as [z Hz]; rewrite Hz|]; intros [= <- <-]; by exists hs, i, j, (ud_buffer u). }
  inversion Hal1 as [? ? Hi Hj Hdrop|]; subst. destruct Hst as [(-> & -> & -> & -> & Hn)|[Ho Hlen]].
  { unfold flush_accumulated_hunk in Ef. cbn in Ef. simplify_eq. cbn. intros [= <- <-]. exists [].
    split; [done|]. split; [|by rewrite edits_size_foldl, Hn]. exists 0%nat, 0%nat.
    split_and!; [constructor|lia|lia|done]. }
  set (n := (Nat.min (i + ctx) (length old) - i)%nat).
  pose proof (oh_range _ _ _ _ _ Ho) as Hr. assert (Hlen' : (length old - i = length new - j)%nat).
  { apply (f_equal length) in Hdrop. by rewrite !length_drop in Hdrop. }
  pose proof (flush_open _ _ _ _ _ _ n _ _ _ Ho Ha1 Hlen eq_refl (tokens_drop _ _ _ _ n Hdrop) ltac:(lia) Ef) as Hf.
  destruct rf as [[]|x]; cbn; [|destruct Hf as (i0 & j0 & Hl & Hb); intros [= <- <-]; by exists hs, i0, j0, (ud_buffer u2)].
  destruct Hf as (hs' & Ha' & Hloc & Ht & _ & _ & _ & He). rewrite He. intros [= <- <-]. exists hs'. split; [done|].
  split; [|by rewrite Ht, edits_size_foldl].
  exists (i + n)%nat, (j + n)%nat. split_and!; [done|lia|lia|]. rewrite <- !drop_drop. by rewrite Hdrop.
Qed.

End UnifiedSpec.

(* ------------------------------------------------------------------ *)
(** ** The collector *)

Section CollectorSpec.
Context `{Env} (opts : CollectorOptions).

(** The structured lines of a hunk, numbered from [old_line] and [new_line]. *)
Fixpoint structured_lines (ls : list (DiffLineKind * bytes)) (old_line new_line : N) : list DiffLine :=
  match ls with
  | [] => []
  | (kind, content) :: ls =>
      structured_line opts kind content old_line new_line ::
      structured_lines ls (next_old kind old_line) (next_new kind new_line)
  end.
Definition structure (h : RawHunk) : DiffHunk :=
  structured_hunk h.1 (structured_lines h.2 (before_hunk_start h.1) (after_hunk_start h.1)).
Definition raw_lines (hs : list RawHunk) : N := lenN (raw_of hs).

Lemma check_stops b e b' : check b = (Err e, b') -> budget_stop e.
Proof. unfold budget_stop. budget_cases; intros; simplify_eq; auto. Qed.

Lemma collector_check_spec b s r w :
  collector_check (b, s) = (r, w) ->
  match r with
  | Ok _ => w.2 = s
  | Err _ => exists e, budget_stop e /\ w.2 = collector_fail e s
  end.
Proof.
  unfold collector_check. destruct (check b) as [[?|e] b'] eqn:Ec; intros [= <- <-]; [done|exists e].
  split; [by eapply check_stops|done].
Qed.

Lemma collect_lines_spec ls : forall o n out b s r w,
  collect_lines opts ls o n out (b, s) = (r, w) ->
  match r with
  | Ok out' => w.2 = s /\ out' = out ++ structured_lines ls o n
  | Err _ => exists e, budget_stop e /\ w.2 = collector_fail e s
  end.
Proof.
  induction ls as [|[k x] ls IH]; intros o n out b s r w; cbn [collect_lines structured_lines].
  { intros [= <- <-]. by rewrite app_nil_r. }
  unfold sbind. destruct (collector_check (b, s)) as [rc [b1 s1]] eqn:Ec.
  apply collector_check_spec in Ec. destruct rc as [[]|x1]; cbn in Ec.
  - subst s1. intros Hl%IH. destruct r; [|done]. destruct Hl as [Hw ->]. by rewrite <- app_assoc.
  - by intros [= <- <-].
Qed.

Context (used : Used).

(** What the collector has taken: its hunks, and the counters they moved. *)
Definition collected (hs : list RawHunk) (s : HunkCollector) : Prop :=
  hc_hunks s = structure <$> hs /\ hc_hunks_used s = sadd64 (us_hunks used) (lenN hs) /\
  hc_lines_used s = sadd64 (us_lines used) (raw_lines hs) /\
  hc_hunks_used s <= co_max_hunks opts /\ hc_lines_used s <= co_max_lines opts.
Definition accepted (hs : list RawHunk) (w : Budget * HunkCollector) : Prop :=
  collected hs w.2 /\ hc_error w.2 = None.
Definition over_limit (ls : list (DiffLineKind * bytes)) (s : HunkCollector) : Prop :=
  hc_stopped_by s = Some "max_diff_hunks"%string /\ hc_hunks_used s = co_max_hunks opts \/
  hc_stopped_by s = Some "max_diff_lines"%string /\ co_max_lines opts < sadd64 (hc_lines_used s) (lenN ls).
Definition failed (s : HunkCollector) : Prop := exists e, hc_error s = Some e /\ budget_stop e.
Definition rejected (hs : list RawHunk) (ls : list (DiffLineKind * bytes)) (w : Budget * HunkCollector) : Prop :=
  failed w.2 \/ hc_error w.2 = None /\ collected hs w.2 /\ over_limit ls w.2.

Lemma consume_hunk_spec h ls b s r w :
  consume_hunk opts h ls (b, s) = (r, w) ->
  match r with
  | Ok _ => hc_hunks_used s <> co_max_hunks opts /\ sadd64 (hc_lines_used s) (lenN ls) <= co_max_lines opts /\
      w.2 = collector_push (structure (h, ls)) (lenN ls) s
  | Err _ => (exists e, budget_stop e /\ w.2 = collector_fail e s) \/
      (w.2 = collector_stop "max_diff_hunks" s /\ hc_hunks_used s = co_max_hunks opts) \/
      (w.2 = collector_stop "max_diff_lines" s /\ hc_hunks_used s <> co_max_hunks opts /\
       co_max_lines opts < sadd64 (hc_lines_used s) (lenN ls))
  end.
Proof.
  unfold consume_hunk. unfold sbind at 1. destruct (collector_check (b, s)) as [rc [b1 s1]] eqn:Ec.
  apply collector_check_spec in Ec. destruct rc as [[]|x]; cbn in Ec; [subst s1|intros [= <- <-]; by left].
  unfold sbind at 1, sget at 1. destruct (N.eqb_spec (hc_hunks_used s) (co_max_hunks opts)) as [Eh|Nh].
  { intros [= <- <-]. right; left. done. }
  unfold sbind at 1, sget at 1. destruct (N.ltb_spec (co_max_lines opts) (sadd64 (hc_lines_used s) (lenN ls))) as [El|Nl].
  { intros [= <- <-]. right; right. done. }
  unfold sbind at 1. destruct (collect_lines opts ls _ _ [] (b1, s)) as [rl [b2 s2]] eqn:El.
  apply collect_lines_spec in El. destruct rl as [out|x]; cbn in El; [|intros [= <- <-]; by left].
  destruct El as [-> ->]. intros [= <- <-]. done.
Qed.

Lemma sadd64_assoc a b c : sadd64 (sadd64 a b) c = sadd64 a (b + c).
Proof. unfold sadd64. lia. Qed.
Lemma raw_lines_snoc hs h ls : raw_lines (hs ++ [(h, ls)]) = raw_lines hs + lenN ls.
Proof.
  unfold raw_lines, lenN. rewrite raw_of_snoc, length_app. lia.
Qed.

Lemma collect_accept hs w h ls w' :
  accepted hs w -> consume_hunk opts h ls w = (Ok tt, w') -> accepted (hs ++ [(h, ls)]) w'.
Proof.
  destruct w as [b s]. intros [(Hh & Hu & Hl & Hmh & Hml) He] (Nh & Nl & Hw)%consume_hunk_spec. cbn [snd] in *.
  unfold accepted, collected. rewrite Hw. cbn [collector_push hc_hunks hc_hunks_used hc_lines_used hc_error].
  rewrite Hh, fmap_app, Hu, Hl, !sadd64_assoc, raw_lines_snoc, lenN_app. split_and!; try done.
  - rewrite <- (sadd64_assoc _ _ (lenN [(h, ls)])), <- Hu. unfold sadd64, lenN. cbn [length]. lia.
  - by rewrite <- (sadd64_assoc _ _ (lenN ls)), <- Hl.
Qed.

Lemma collect_refuse hs w h ls x w' :
  accepted hs w -> consume_hunk opts h ls w = (Err x, w') -> rejected hs ls w'.
Proof.
  destruct w as [b s]. intros [Hc He] Hw%consume_hunk_spec. cbn [snd] in *. unfold rejected.
  destruct Hw as [(e & He' & ->)|[[-> Eh]|(-> & _ & El)]];
    [left; by exists e|right; split; [done|split; [done|]]..]; [by left|by right].
Qed.

Lemma collect_refused hs ls w h ls' r w' :
  rejected hs ls w -> consume_hunk opts h (ls ++ ls') w = (r, w') -> rejected hs ls w'.
Proof.
  destruct w as [b s]. intros Hr Hw%consume_hunk_spec. cbn [snd] in *. unfold rejected in *. cbn [snd] in Hr.
  destruct Hr as [(e & He & Hs)|(Hn & Hc & Ho)].
  { left. destruct r as [?|?]; [destruct Hw as (_ & _ & ->); by exists e|].
    destruct Hw as [(e' & Hs' & ->)|[[-> _]|[-> _]]]; [by exists e'|by exists e..]. }
  assert (Hmono : sadd64 (hc_lines_used s) (lenN ls) <= sadd64 (hc_lines_used s) (lenN (ls ++ ls')))
    by (rewrite lenN_app; unfold sadd64; lia).
  destruct r as [?|?].
  { destruct Hw as (Nh & Nl & _). destruct Ho as [[_ ?]|[_ ?]]; [done|lia]. }
  destruct Hw as [(e' & Hs' & ->)|[[-> Eh]|(-> & Nh & El)]];
    [left; by exists e'|right; split; [done|split; [done|]]..]; [by left|].
  destruct Ho as [[_ Eh]|[_ El']]; [done|by right].
Qed.

(** A run of [UnifiedDiff] into the collector. *)
Lemma collect_diff_spec old new ctx edits b r b' s :
  us_hunks used <= co_max_hunks opts -> us_lines used <= co_max_lines opts ->
  us_hunks used <= u64_max -> us_lines used <= u64_max -> aligned old new 0 0 edits ->
  consume_diff (consume_hunk opts) old new ctx edits (b, mkCollector [] None None (us_hunks used) (us_lines used))
    = (r, (b', s)) ->
  match r with
  | Ok _ => exists hs, collected hs s /\ covers old new hs /\ tally (raw_of hs) = edits_size edits
  | Err _ => failed s \/
      hc_error s = None /\ exists hs i j ls, collected hs s /\ located old new hs i j /\ over_limit ls s
  end.
Proof.
  intros Hh Hl Hh' Hl' Hal Hc.
  pose proof (consume_diff_spec (consume_hunk opts) old new ctx accepted rejected collect_accept collect_refuse
                collect_refused edits (b, mkCollector [] None None (us_hunks used) (us_lines used)) r (b', s)) as Hspec.
  assert (Hacc : accepted [] (b, mkCollector [] None None (us_hunks used) (us_lines used))).
  { unfold accepted, collected, sadd64, raw_lines, lenN. cbn -[N.min]. split_and!; try done; lia. }
  specialize (Hspec Hacc Hal Hc). destruct r as [?|?].
  - destruct Hspec as (hs & [? _] & ?). by exists hs.
  - destruct Hspec as (hs & i & j & ls & Hloc & [He|(Hn & Hco & Ho)]); [by left|right].
    split; [done|]. by exists hs, i, j, ls.
Qed.

End CollectorSpec.

(* ------------------------------------------------------------------ *)
(** ** Lines and their ends *)

Lemma lines_with_lf_lines data : lines_with_lf data = lines data.
Proof.
  unfold lines_with_lf. destruct (layout_exists data) as (cs & p & Hlay). rewrite (lines_layout _ _ _ Hlay).
  destruct Hlay as [Hc Hp ->]. remember (length (concat cs ++ p)) as n eqn:En.
  assert (Hn : (length (concat cs ++ p) <= n)%nat) by lia. clear En. revert n Hn.
  induction Hc as [|c cs (a & -> & Ha) Hc IH]; intros n Hn; cbn [concat app] in *.
  - destruct p as [|x p]; [by destruct n|]. destruct n as [|n]; [cbn in Hn; lia|]. cbn [LinesWithLf].
    assert (Hpos : position is_newline (x :: p) = None) by (by apply position_None).
    unfold LinesWithLf_next. rewrite Hpos, take_ge, drop_ge by lia. by destruct n.
  - rewrite <- !app_assoc in *. cbn [app] in *. rewrite length_app, length_cons in Hn. destruct n as [|n]; [lia|].
    cbn [LinesWithLf]. assert (Hnext : LinesWithLf_next (a ++ x0a :: concat cs ++ p) = Some (a ++ [x0a], concat cs ++ p)).
    { unfold LinesWithLf_next. rewrite position_app_l by done. rewrite cons_middle, app_assoc.
      rewrite take_app_length', drop_app_length' by (rewrite length_app; cbn; lia). by destruct a. }
    rewrite Hnext. cbn [app]. f_equal. apply IH. lia.
Qed.

(** A line ends in a newline unless it is the last of a payload without one. *)
Lemma line_end data k x :
  lines data !! k = Some x ->
  ends_with x [x0a] = negb (lacks_trailing_newline data && (k + 1 =? length (lines data))%nat).
Proof.
  destruct (layout_exists data) as (cs & p & Hlay). rewrite (lines_layout _ _ _ Hlay). destruct Hlay as [Hc Hp ->].
  assert (Hlf : lacks_trailing_newline (concat cs ++ p) = negb (bool_decide (p = []))).
  { unfold lacks_trailing_newline. destruct p as [|y p].
    - rewrite app_nil_r, (bool_decide_true (@nil byte = [])) by done. cbn [negb]. destruct cs as [|c cs _] using rev_ind; [done|].
      apply Forall_app in Hc as [_ [(a & -> & _) _]%Forall_cons]. rewrite concat_app. cbn [concat]. rewrite app_nil_r.
      apply andb_false_iff; right. apply negb_false_iff, ends_with_true. eexists. by rewrite app_assoc.
    - rewrite (bool_decide_false (y :: p = [])), bool_decide_false by first [done|by intros [_ ?]%app_nil]. cbn [negb andb]. apply negb_true_iff, not_true_iff_false.
      intros (r & Hr)%ends_with_true. destruct (exists_last (l := y :: p) ltac:(done)) as (q & z & Hq).
      rewrite Hq, app_assoc in Hr. apply app_inj_tail in Hr as [_ ->]. unfold no_newline in Hp. rewrite Hq in Hp.
      apply Forall_app in Hp as [_ [Hz _]%Forall_cons]. done. }
  rewrite Hlf. intros Hk. rewrite length_app. destruct (decide (k < length cs)%nat) as [Hlt|Hge].
  - rewrite lookup_app_l in Hk by done. pose proof (Forall_lookup_1 _ _ _ _ Hc Hk) as (a & -> & _).
    transitivity true; [apply ends_with_true; by exists a|]. symmetry. apply negb_true_iff, andb_false_iff.
    destruct p; [by left|right]. cbn [tail_line length]. apply Nat.eqb_neq. lia.
  - rewrite lookup_app_r in Hk by lia. destruct p as [|y p]; [done|]. cbn [tail_line] in Hk.
    apply list_lookup_singleton_Some in Hk as [Hk <-]. rewrite (bool_decide_false (y :: p = [])) by done.
    cbn [tail_line length negb andb]. replace (k + 1)%nat with (length cs + 1)%nat by lia. rewrite Nat.eqb_refl. cbn.
    apply not_true_iff_false. intros (r & Hr)%ends_with_true. rewrite Hr in Hp.
    apply Forall_app in Hp as [_ [Hz _]%Forall_cons]. done.
Qed.

Definition line_text (l : DiffLine) : bytes := dl_content l ++ (if dl_no_newline l then [] else [x0a]).

Lemma strip_lf_text x (b : bool) : ends_with x [x0a] = negb b -> strip_lf x ++ (if b then [] else [x0a]) = x.
Proof.
  unfold strip_lf. intros He. rewrite He. destruct b; cbn [negb]; [apply app_nil_r|].
  apply ends_with_true in He as [r ->]. rewrite length_app. cbn [length].
  rewrite Nat.add_sub, take_app_length. done.
Qed.

(* ------------------------------------------------------------------ *)
(** ** Applying a patch *)

(** The two sides of a structured hunk, and the index its header denotes: a side
    without lines names the line before it. *)
Definition old_side (h : DiffHunk) : list bytes :=
  line_text <$> filter (fun l => dl_origin l <> OAddition) (dh_lines h).
Definition new_side (h : DiffHunk) : list bytes :=
  line_text <$> filter (fun l => dl_origin l <> ODeletion) (dh_lines h).
Definition start_index (start lines : N) : nat := N.to_nat (if lines =? 0 then start else start - 1).

(** A strict application: the hunk must be after the previous one, its old side
    must be the file's lines at its place, its new side must land at the place
    its header says, and both counts must be those of its lines. *)
Definition apply_hunk (old : list bytes) (st : option (nat * list bytes)) (h : DiffHunk)
  : option (nat * list bytes) :=
  match st with
  | None => None
  | Some (pos, out) =>
      let start := start_index (dh_old_start h) (dh_old_lines h) in
      let stop := (start + N.to_nat (dh_old_lines h))%nat in
      let out := out ++ tokens old pos start in
      if bool_decide (pos <= start /\ stop <= length old)%nat && bool_decide (old_side h = tokens old start stop)
         && bool_decide (length out = start_index (dh_new_start h) (dh_new_lines h))
         && (lenN (new_side h) =? dh_new_lines h)
      then Some (stop, out ++ new_side h) else None
  end.
Definition apply_patch (old : bytes) (hunks : list DiffHunk) : option bytes :=
  match foldl (apply_hunk (lines old)) (Some (0%nat, [])) hunks with
  | Some (pos, out) => Some (concat (out ++ drop pos (lines old)))
  | None => None
  end.

(** The patch in the other direction. *)
Definition reverse_line (l : DiffLine) : DiffLine :=
  mkDiffLine (match dl_origin l with OContext => OContext | OAddition => ODeletion | ODeletion => OAddition end)
    (dl_content l) (dl_new_line l) (dl_old_line l) (dl_no_newline l).
Definition reverse_hunk (h : DiffHunk) : DiffHunk :=
  mkDiffHunk (dh_new_start h) (dh_new_lines h) (dh_old_start h) (dh_old_lines h) (dh_header h)
    (reverse_line <$> dh_lines h).

(** A line carries the numbers of the file lines it shows. *)
Definition at_line (file : list bytes) (number : option N) (text : bytes) : Prop :=
  exists n, number = Some n /\ 1 <= n /\ file !! N.to_nat (n - 1) = Some text.
Definition line_shows (old new : list bytes) (l : DiffLine) : Prop :=
  match dl_origin l with
  | OContext => at_line old (dl_old_line l) (line_text l) /\ at_line new (dl_new_line l) (line_text l)
  | OAddition => dl_old_line l = None /\ at_line new (dl_new_line l) (line_text l)
  | ODeletion => at_line old (dl_old_line l) (line_text l) /\ dl_new_line l = None
  end.

Lemma tokens_cons_inv l b i (x : bytes) r :
  x :: r = tokens l b i -> l !! b = Some x /\ r = tokens l (S b) i /\ (b < i)%nat.
Proof.
  unfold tokens. destruct (drop b l) as [|y d] eqn:Ed; [by rewrite take_nil|].
  destruct (i - b)%nat as [|k] eqn:Ek; [done|]. cbn [take]. intros [= -> ->].
  assert (Hb : l !! b = Some y) by (rewrite <- (Nat.add_0_r b), <- lookup_drop, Ed; done).
  split; [done|]. split; [|lia]. replace (drop (S b) l) with d; [f_equal; lia|].
  replace (S b) with (b + 1)%nat by lia. by rewrite <- drop_drop, Ed.
Qed.

Lemma count_exact data : lenN (lines data) < u32_max -> diff_line_count data = lenN (lines data).
Proof. unfold diff_line_count, u32_or_max, lenN. rewrite lines_with_lf_lines. lia. Qed.

Lemma end_flag data k x :
  lenN (lines data) < u32_max -> lines data !! k = Some x ->
  ends_with x [x0a] = negb (lacks_trailing_newline data && (N.of_nat (k + 1) =? diff_line_count data)).
Proof.
  intros Hs Hk. rewrite (line_end _ _ _ Hk), count_exact by done. do 2 f_equal. unfold lenN.
  destruct (Nat.eqb_spec (k + 1) (length (lines data))), (N.eqb_spec (N.of_nat (k + 1)) (N.of_nat (length (lines data)))); lia.
Qed.

Lemma next_number data k x : lenN (lines data) < u32_max -> lines data !! k = Some x ->
  sadd32 (N.of_nat (k + 1)) 1 = N.of_nat (S k + 1).
Proof. intros Hs Hk%lookup_lt_Some. unfold sadd32, lenN in *. lia. Qed.

Lemma at_line_index file k x : file !! k = Some x -> at_line file (Some (N.of_nat (k + 1))) x.
Proof. intros Hk. eexists. split; [done|]. split; [lia|]. by replace (N.to_nat _) with k by lia. Qed.

Section Sides.
Context (old new : bytes) (dopts : DiffOptions).
Hypothesis small_old : lenN (lines old) < u32_max.
Hypothesis small_new : lenN (lines new) < u32_max.

Let copts : CollectorOptions := collector_options dopts old new.

(** The flag of a structured line, so its text, is that of the file's line. *)
Lemma structured_text kind x b a :
  (on_old kind = true -> lines old !! b = Some x) -> (on_new kind = true -> lines new !! a = Some x) ->
  line_text (structured_line copts kind x (N.of_nat (b + 1)) (N.of_nat (a + 1))) = x.
Proof.
  intros Ho Hn. unfold line_text, structured_line.
  cbn [copts collector_options co_old_lacks_newline co_new_lacks_newline co_old_final_line co_new_final_line].
  destruct kind; cbn [dl_content dl_no_newline]; apply strip_lf_text.
  - pose proof (end_flag _ _ _ small_old (Ho eq_refl)) as Eo. pose proof (end_flag _ _ _ small_new (Hn eq_refl)) as En.
    rewrite Eo in En. rewrite Eo. by destruct (lacks_trailing_newline old && _), (lacks_trailing_newline new && _).
  - apply end_flag; [done|by apply Hn].
  - apply end_flag; [done|by apply Ho].
Qed.

Lemma structured_sides ls : forall b a i j,
  side on_old ls = tokens (lines old) b i -> side on_new ls = tokens (lines new) a j ->
  let dls := structured_lines copts ls (N.of_nat (b + 1)) (N.of_nat (a + 1)) in
  line_text <$> filter (fun l => dl_origin l <> OAddition) dls = side on_old ls /\
  line_text <$> filter (fun l => dl_origin l <> ODeletion) dls = side on_new ls /\
  Forall (line_shows (lines old) (lines new)) dls.
Proof.
  induction ls as [|[k x] ls IH]; intros b a i j Ho Hn dls; [by repeat constructor|].
  rewrite side_cons in Ho, Hn. subst dls. cbn [structured_lines]. rewrite !side_cons.
  assert (Htext := structured_text k x b a).
  destruct k; cbn [on_old on_new next_old next_new] in *.
  - apply tokens_cons_inv in Ho as (Hxo & Ho & _), Hn as (Hxn & Hn & _). specialize (Htext (fun _ => Hxo) (fun _ => Hxn)).
    rewrite (next_number _ _ _ small_old Hxo), (next_number _ _ _ small_new Hxn). destruct (IH _ _ _ _ Ho Hn) as (H1 & H2 & H3).
    rewrite !filter_cons, !decide_True, !fmap_cons, H1, H2, Htext by done. split_and!; [done..|]. constructor; [|done].
    unfold line_shows. rewrite Htext. cbn [dl_origin dl_old_line dl_new_line structured_line]. by split; apply at_line_index.
  - apply tokens_cons_inv in Hn as (Hxn & Hn & _). specialize (Htext ltac:(done) (fun _ => Hxn)).
    rewrite (next_number _ _ _ small_new Hxn). destruct (IH _ _ _ _ Ho Hn) as (H1 & H2 & H3).
    rewrite !filter_cons, decide_False, decide_True, !fmap_cons, H1, H2, Htext by (cbn; naive_solver).
    split_and!; [done..|]. constructor; [|done].
    unfold line_shows. rewrite Htext. cbn [dl_origin dl_old_line dl_new_line structured_line]. split; [done|by apply at_line_index].
  - apply tokens_cons_inv in Ho as (Hxo & Ho & _). specialize (Htext (fun _ => Hxo) ltac:(done)).
    rewrite (next_number _ _ _ small_old Hxo). destruct (IH _ _ _ _ Ho Hn) as (H1 & H2 & H3).
    rewrite !filter_cons, decide_True, decide_False, !fmap_cons, H1, H2, Htext by (cbn; naive_solver).
    split_and!; [done..|]. constructor; [|done].
    unfold line_shows. rewrite Htext. cbn [dl_origin dl_old_line dl_new_line structured_line]. split; [by apply at_line_index|done].
Qed.

(** The structured hunks in their places, as [located] says of the raw ones. *)
Inductive placed (old_lines new_lines : list bytes) : list DiffHunk -> nat -> nat -> Prop :=
| placed_nil : placed old_lines new_lines [] 0 0
| placed_snoc hs i j b a h i' j' :
    placed old_lines new_lines hs i j ->
    (i <= b <= i' /\ i' <= length old_lines)%nat -> (j <= a <= j' /\ j' <= length new_lines)%nat ->
    (b - i = a - j)%nat -> tokens old_lines i b = tokens new_lines j a ->
    old_side h = tokens old_lines b i' -> new_side h = tokens new_lines a j' ->
    start_index (dh_old_start h) (dh_old_lines h) = b -> dh_old_lines h = N.of_nat (i' - b) ->
    start_index (dh_new_start h) (dh_new_lines h) = a -> dh_new_lines h = N.of_nat (j' - a) ->
    placed old_lines new_lines (hs ++ [h]) i' j'.

Lemma start_index_zero b n : start_index (zero_side_start (N.of_nat (b + 1)) n) n = b.
Proof. unfold start_index, zero_side_start. destruct (N.eqb_spec n 0); lia. Qed.

Lemma located_placed hs i j :
  located (lines old) (lines new) hs i j ->
  placed (lines old) (lines new) (structure copts <$> hs) i j /\
  Forall (fun h => Forall (line_shows (lines old) (lines new)) (dh_lines h)) (structure copts <$> hs).
Proof.
  induction 1 as [|hs i j b a h ls i' j' Hloc [IHp IHs] Hi Hj Hd Htk Hso Hsn ->]; [by split; constructor|].
  rewrite fmap_app. destruct (structured_sides _ _ _ _ _ Hso Hsn) as (Ho & Hn & Hsh). split.
  - cbn [fmap list_fmap]. eapply placed_snoc; try done; cbn; by rewrite ?start_index_zero, <- ?Hso, <- ?Hsn.
  - apply Forall_app. split; [done|]. constructor; [exact Hsh|constructor].
Qed.

End Sides.

Lemma reverse_side (P Q : DiffLine -> Prop) `{!forall l, Decision (P l), !forall l, Decision (Q l)} (ls : list DiffLine) :
  (forall l, P (reverse_line l) <-> Q l) ->
  line_text <$> filter P (reverse_line <$> ls) = line_text <$> filter Q ls.
Proof.
  intros HPQ. induction ls as [|l ls IH]; [done|]. rewrite fmap_cons, !filter_cons. specialize (HPQ l).
  destruct (decide (P (reverse_line l))), (decide (Q l)); [|tauto..|done]. by rewrite !fmap_cons, IH.
Qed.
Lemma reverse_sides h : old_side (reverse_hunk h) = new_side h /\ new_side (reverse_hunk h) = old_side h.
Proof. split; apply reverse_side; intros l; cbn; destruct (dl_origin l); naive_solver. Qed.

Lemma placed_reverse old_lines new_lines hs i j :
  placed old_lines new_lines hs i j -> placed new_lines old_lines (reverse_hunk <$> hs) j i.
Proof.
  induction 1; [constructor|]. rewrite fmap_app. cbn [fmap list_fmap].
  destruct (reverse_sides h) as [Ho Hn]. eapply placed_snoc; try done; by rewrite ?Ho, ?Hn.
Qed.

(** Applying placed hunks turns the first [i] old lines into the first [j] new
    ones. *)
Lemma apply_placed old_lines new_lines hs i j :
  placed old_lines new_lines hs i j ->
  foldl (apply_hunk old_lines) (Some (0%nat, [])) hs = Some (i, take j new_lines).
Proof.
  induction 1 as [|hs i j b a h i' j' Hp IH Hi Hj Hd Htk Ho Hn Hso Hlo Hsn Hln]; [done|].
  rewrite foldl_app, IH. cbn [foldl apply_hunk]. rewrite Hso, Hlo, Nat2N.id, Hsn, Htk.
  replace (b + (i' - b))%nat with i' by lia.
  assert (Hout : take j new_lines ++ tokens new_lines j a = take a new_lines).
  { transitivity (tokens new_lines 0 j ++ tokens new_lines j a); [unfold tokens at 2; by rewrite Nat.sub_0_r|].
    rewrite tokens_app by lia. unfold tokens. by rewrite Nat.sub_0_r. }
  rewrite Hout, !bool_decide_true; [|rewrite length_take; lia|done|lia]. cbn [andb].
  rewrite Hln, Hn. unfold lenN at 1. rewrite length_tokens, N.eqb_refl by lia. f_equal. f_equal.
  transitivity (tokens new_lines 0 a ++ tokens new_lines a j'); [unfold tokens at 2; by rewrite Nat.sub_0_r|].
  rewrite tokens_app by lia. unfold tokens. by rewrite Nat.sub_0_r.
Qed.

Lemma apply_patch_placed old new hs i j :
  placed (lines old) (lines new) hs i j -> drop i (lines old) = drop j (lines new) -> apply_patch old hs = Some new.
Proof.
  intros Hp Hd. unfold apply_patch. rewrite (apply_placed _ _ _ _ _ Hp), Hd, take_drop. by rewrite concat_lines.
Qed.

(** The counters of a query before and after the hunks of a file. *)
Definition within_limits (opts : DiffOptions) (u : Used) : Prop :=
  us_hunks u <= do_max_diff_hunks opts /\ us_lines u <= do_max_diff_lines opts /\
  us_hunks u <= u64_max /\ us_lines u <= u64_max.
Definition hunk_lines (hunks : list DiffHunk) : list DiffLine := mjoin (dh_lines <$> hunks).
Definition advanced (u : Used) (hunks : list DiffHunk) (u' : Used) : Prop :=
  us_hunks u' = sadd64 (us_hunks u) (lenN hunks) /\ us_lines u' = sadd64 (us_lines u) (lenN (hunk_lines hunks)).
Definition count_origin (o : DiffLineOrigin) (hunks : list DiffHunk) : N :=
  lenN (filter (fun l => dl_origin l = o) (hunk_lines hunks)).

(** The hunks rebuild one file from the other in both directions, and every
    line of them shows the lines of the files its numbers name. *)
Definition lines_shown (old new : bytes) (hunks : list DiffHunk) : Prop :=
  Forall (fun h => Forall (line_shows (lines old) (lines new)) (dh_lines h)) hunks.
Definition patch_shows (old new : bytes) (hunks : list DiffHunk) : Prop :=
  apply_patch old hunks = Some new /\ apply_patch new (reverse_hunk <$> hunks) = Some old /\
  lines_shown old new hunks.

Section TextSpec.
Context `{Env} (opts : CollectorOptions).

Lemma hunk_lines_cons h hunks : hunk_lines (h :: hunks) = dh_lines h ++ hunk_lines hunks.
Proof. done. Qed.
Lemma raw_of_cons h hs : raw_of (h :: hs) = h.2 ++ raw_of hs.
Proof. done. Qed.
Lemma tally_app ls ls' : tally (ls ++ ls') = add_pair (tally ls) (tally ls').
Proof. unfold tally, add_pair. by rewrite !side_app, !length_app. Qed.

Lemma length_structured ls : forall o n, length (structured_lines opts ls o n) = length ls.
Proof. induction ls as [|[k x] ls IH]; intros o n; cbn; [done|by rewrite IH]. Qed.

Lemma structured_origin ls : forall o n,
  length (filter (fun l => dl_origin l = OAddition) (structured_lines opts ls o n)) = (tally ls).1 /\
  length (filter (fun l => dl_origin l = ODeletion) (structured_lines opts ls o n)) = (tally ls).2.
Proof.
  unfold tally. induction ls as [|[k x] ls IH]; intros o n; [done|]. cbn [structured_lines].
  rewrite !filter_cons, !side_cons. destruct (IH (next_old k o) (next_new k n)) as [IH1 IH2]. cbn [fst snd] in *.
  destruct k; cbn [dl_origin structured_line is_add is_remove];
    [rewrite !decide_False by done|rewrite decide_True, decide_False by done|rewrite decide_False, decide_True by done];
    cbn [length]; by rewrite IH1, IH2.
Qed.

Lemma hunk_lines_structure hs :
  lenN (hunk_lines (structure opts <$> hs)) = raw_lines hs /\
  count_origin OAddition (structure opts <$> hs) = N.of_nat (tally (raw_of hs)).1 /\
  count_origin ODeletion (structure opts <$> hs) = N.of_nat (tally (raw_of hs)).2.
Proof.
  unfold raw_lines, count_origin, lenN. induction hs as [|[h ls] hs (IH1 & IH2 & IH3)]; [done|].
  rewrite fmap_cons, hunk_lines_cons, raw_of_cons, tally_app, !filter_app, !length_app.
  cbn [dh_lines structure structured_hunk fst snd].
  destruct (structured_origin ls (before_hunk_start h) (after_hunk_start h)) as [E1 E2].
  rewrite length_structured, E1, E2. cbn [fst snd add_pair]. lia.
Qed.

End TextSpec.

Section PatchSpec.
Context `{Env} `{!BlobDiff} `{!LawfulBlobDiff _} {T : Type}.
Context (old new : bytes) (opts : DiffOptions) (used : Used).
Hypothesis small_old : lenN (lines old) < u32_max.
Hypothesis small_new : lenN (lines new) < u32_max.
Hypothesis within : within_limits opts used.

(** What the patch of one file is. *)
Definition patch_result (r : Res (PopulateOutcome * DiffFile * Used)) : Prop :=
  match r with
  | Ok (Complete, f, u) =>
      patch_shows old new (df_hunks f) /\ df_additions f = Some (count_origin OAddition (df_hunks f)) /\
      df_deletions f = Some (count_origin ODeletion (df_hunks f)) /\
      advanced used (df_hunks f) u /\ within_limits opts u
  | Ok (Stopped limit, f, u) =>
      lines_shown old new (df_hunks f) /\
      (exists i j, foldl (apply_hunk (lines old)) (Some (0%nat, [])) (df_hunks f) = Some (i, take j (lines new))) /\
      advanced used (df_hunks f) u /\ within_limits opts u /\
      (limit = "max_diff_hunks"%string /\ us_hunks u = do_max_diff_hunks opts \/ limit = "max_diff_lines"%string)
  | Ok (Oversize, _, _) => False
  | Err e => budget_stop e
  end.

Lemma populate_patch_spec file w :
  let before := lines_with_lf old in
  let after := lines_with_lf new in
  patch_result (populate_patch (T := T) (set_counts (blob_additions before after) (blob_removals before after) file)
                  old new (blob_edits before after) opts used w).1.
Proof.
  intros before after. destruct w as [b t]. unfold populate_patch. destruct within as (Hh & Hl & Hh' & Hl').
  destruct (consume_diff _ _ _ _ _ _) as [r [b' s]] eqn:Ec.
  pose proof (collect_diff_spec (collector_options opts old new) used _ _ _ _ _ _ _ _ Hh Hl Hh' Hl' (blob_aligned before after) Ec) as Hs.
  unfold before, after in *. rewrite !lines_with_lf_lines in *. clear before after.
  assert (Hcol : forall hs, collected (collector_options opts old new) used hs s ->
    advanced used (hc_hunks s) (mkUsed (hc_hunks_used s) (hc_lines_used s)) /\
    within_limits opts (mkUsed (hc_hunks_used s) (hc_lines_used s))).
  { intros hs (Eh & Eu & El & Mh & Ml). unfold advanced, within_limits. cbn [us_hunks us_lines].
    destruct (hunk_lines_structure (collector_options opts old new) hs) as (E1 & _).
    rewrite Eh, E1. unfold lenN at 1. rewrite length_fmap. split_and!; try done.
    - rewrite Eu. unfold sadd64. lia.
    - rewrite El. unfold sadd64. lia. }
  destruct r as [[]|x]; cbn [fst].
  - destruct Hs as (hs & Hco & (i & j & Hloc & _ & _ & Hd) & Ht). specialize (Hcol hs Hco) as [Ha Hw].
    destruct Hco as (Eh & _). destruct (located_placed old new opts small_old small_new _ _ _ Hloc) as [Hp Hsh].
    destruct (hunk_lines_structure (collector_options opts old new) hs) as (_ & E2 & E3).
    unfold patch_result, patch_shows. cbn [df_hunks df_additions df_deletions set_hunks set_counts]. rewrite <- Eh in *.
    rewrite E2, E3, Ht, blob_additions_sum, blob_removals_sum. split_and!; try done.
    + by eapply apply_patch_placed.
    + eapply apply_patch_placed; [by apply placed_reverse|done].
  - destruct Hs as [(e & He & Hst)|(Hn & hs & i & j & ls & Hco & Hloc & Ho)]; [by rewrite He|]. rewrite Hn.
    specialize (Hcol hs Hco) as [Ha Hw].
    destruct Hco as (Eh & _). destruct (located_placed old new opts small_old small_new _ _ _ Hloc) as [Hp Hsh].
    rewrite <- Eh in *. apply apply_placed in Hp.
    destruct Ho as [[-> Hm]|[-> _]]; cbn [patch_result df_hunks set_hunks]; split_and!; eauto.
Qed.

End PatchSpec.

Lemma check_each_spec `{Env} {T A} (l : list A) (w : Budget * T) : outcome budget_stop (fun _ => True) (check_each l w).1.
Proof.
  revert w. induction l as [|x l IH]; intros [b t]; [done|]. cbn [check_each]. unfold sbind at 1, on_budget.
  destruct (check b) as [[?|e] b'] eqn:Ec; [apply IH|]. by eapply check_stops.
Qed.
Lemma check_comparison_cadence_spec `{Env} {T} old new (w : Budget * T) :
  outcome budget_stop (fun _ => True) (check_comparison_cadence old new w).1.
Proof.
  unfold check_comparison_cadence, sbind.
  pose proof (check_each_spec (chunks (length old) DIFF_CHECK_BYTES old) w) as H1.
  destruct (check_each _ w) as [[?|e] w1]; [|done].
  pose proof (check_each_spec (chunks (length new) DIFF_CHECK_BYTES new) w1) as H2.
  destruct (check_each _ w1) as [[?|e] [b t]]; [|done]. unfold on_budget.
  destruct (check b) as [[?|e] b'] eqn:Ec; [done|]. by eapply check_stops.
Qed.

(** C26. The hunks of a text patch rebuild the new file from the old one byte for
    byte, and the old from the new when reversed, under a strict application
    that checks every header and every shown line; the line numbers, the
    missing-newline flags and the two counts are those of the files. A patch
    stopped by a limit is a prefix in its place, the counters stay within the
    limits, and nothing but the budget makes the computation fail. *)
Theorem patch_rebuilds_file `{Env} `{!BlobDiff} `{!LawfulBlobDiff _} {T} file old new opts used (w : Budget * T) :
  do_format opts = FPatch -> df_status file <> TypeChanged ->
  is_binary_payload old = false -> is_binary_payload new = false ->
  lenN (lines old) < u32_max -> lenN (lines new) < u32_max -> within_limits opts used ->
  patch_result old new opts used (populate_text file old new opts used w).1.
Proof.
  intros Hf Hst Hbo Hbn Hso Hsn Hw. unfold populate_text. rewrite Hbo, Hbn, Hf. cbn [orb].
  rewrite (bool_decide_false (df_status file = TypeChanged)), (bool_decide_false (FPatch = FStats)) by done. cbn [andb].
  unfold sbind. pose proof (check_comparison_cadence_spec old new w) as Hc.
  destruct (check_comparison_cadence old new w) as [[?|e] w']; [|exact Hc]. by apply populate_patch_spec.
Qed.

(** ** Type changes *)

Section TypeChange.
Context `{Env} `{!BlobDiff} {T : Type} (opts : DiffOptions).

(** The lines of a side from [index] on show the payload's lines. *)
Lemma side_lines_spec origin data : lenN (lines data) < u32_max -> forall ls index (w : Budget * T),
  ls = drop index (lines data) ->
  match (side_lines origin (lacks_trailing_newline data) (diff_line_count data) index ls w).1 with
  | Ok dls => line_text <$> dls = ls /\ Forall (fun l => dl_origin l = origin) dls
  | Err e => budget_stop e
  end.
Proof.
  intros Hsmall. induction ls as [|x ls IH]; intros index [b t] Hls; [by split|]. cbn [side_lines].
  assert (Hx : lines data !! index = Some x) by (rewrite <- (Nat.add_0_r index), <- lookup_drop, <- Hls; done).
  rewrite (drop_S _ _ _ Hx) in Hls. injection Hls as Hls.
  unfold sbind at 1, on_budget. destruct (check b) as [[?|e] b'] eqn:Ec; [|by eapply check_stops].
  specialize (IH (S index) (b', t) Hls). unfold sbind. destruct (side_lines _ _ _ _ _ _) as [[dls|e] w']; [|done].
  destruct IH as [IH1 IH2]. split; [|by constructor]. rewrite fmap_cons, IH1. f_equal.
  unfold line_text, side_line. cbn [dl_content dl_no_newline]. apply strip_lf_text.
  rewrite (end_flag _ _ _ Hsmall Hx). pose proof (lookup_lt_Some _ _ _ Hx).
  unfold u32_or_max. unfold lenN in Hsmall. by rewrite N.min_l by lia.
Qed.

Lemma origin_sides o dls h :
  Forall (fun l => dl_origin l = o) dls -> dh_lines h = dls ->
  old_side h = (if bool_decide (o = OAddition) then [] else line_text <$> dls) /\
  new_side h = (if bool_decide (o = ODeletion) then [] else line_text <$> dls).
Proof.
  intros Ho Hh. unfold old_side, new_side. rewrite Hh.
  rewrite Forall_forall in Ho. split; case_bool_decide as Hc; first [rewrite filter_none; [done|]|f_equal; apply filter_all].
  all: intros l Hl%Ho; naive_solver.
Qed.

(** A type change lists the whole old file as deleted and the whole new file as
    added, one hunk each. *)
Lemma type_change_spec file old new used (w : Budget * T) :
  lenN (lines old) < u32_max -> lenN (lines new) < u32_max ->
  match (populate_type_change_hunks file old new opts used w).1 with
  | Ok (Complete, f, _) => exists h h', df_hunks f = df_hunks file ++ [h; h'] /\
      old_side h = lines old /\ new_side h = [] /\ old_side h' = [] /\ new_side h' = lines new
  | Ok (Oversize, _, _) => False
  | Ok (Stopped _, _, _) => True
  | Err e => budget_stop e
  end.
Proof.
  intros Ho Hn. unfold populate_type_change_hunks. destruct w as [b t]. cbn [populate_sides].
  unfold sbind at 1, on_budget at 1. destruct (check b) as [[?|e] b1] eqn:Ec; [|by eapply check_stops].
  destruct (us_hunks used =? _); [done|]. destruct (_ <? _); [done|]. unfold sbind at 1.
  pose proof (side_lines_spec ODeletion old Ho (lines_with_lf old) 0 (b1, t) (lines_with_lf_lines old)) as Hs.
  destruct (side_lines _ _ _ _ _ (b1, t)) as [[dls|e] [b2 t2]]; [|done]. destruct Hs as [Ht Hor].
  unfold sbind at 1, on_budget at 1. destruct (check b2) as [[?|e] b3] eqn:Ec2; [|by eapply check_stops].
  destruct (us_hunks _ =? _); [done|]. destruct (_ <? _); [done|]. unfold sbind at 1.
  pose proof (side_lines_spec OAddition new Hn (lines_with_lf new) 0 (b3, t2) (lines_with_lf_lines new)) as Hs'.
  destruct (side_lines _ _ _ _ _ (b3, t2)) as [[dls'|e] [b4 t4]]; [|done]. destruct Hs' as [Ht' Hor'].
  cbn [fst sret df_hunks set_hunks]. do 2 eexists. split; [by rewrite <- app_assoc|].
  rewrite lines_with_lf_lines in Ht, Ht'.
  destruct (origin_sides _ _ (side_hunk ODeletion (diff_line_count old) dls) Hor eq_refl) as [E1 E2].
  destruct (origin_sides _ _ (side_hunk OAddition (diff_line_count new) dls') Hor' eq_refl) as [E3 E4].
  cbn in E1, E2, E3, E4. by rewrite E1, E2, E3, E4.
Qed.

End TypeChange.

(* ------------------------------------------------------------------ *)
(** ** Two payloads in a query *)

(** The two files compare the same objects at the same paths. *)
Definition same_change (f g : DiffFile) : Prop :=
  df_status f = df_status g /\ df_old_path f = df_old_path g /\ df_new_path f = df_new_path g /\
  df_old_oid f = df_old_oid g /\ df_new_oid f = df_new_oid g /\ df_old_mode f = df_old_mode g /\
  df_new_mode f = df_new_mode g /\ df_similarity f = df_similarity g.

(** What a complete file of the patch format shows: hunks with their counts, or
    nothing of a file that is binary. *)
Definition text_shown (old new : bytes) (f : DiffFile) : Prop :=
  match df_additions f with
  | Some a =>
      patch_shows old new (df_hunks f) /\ a = count_origin OAddition (df_hunks f) /\
      df_deletions f = Some (count_origin ODeletion (df_hunks f))
  | None => df_hunks f = [] /\ (is_binary_payload old || is_binary_payload new) = true
  end.

Section TextQuery.
Context `{Env} `{!BlobDiff} `{!LawfulBlobDiff _} {T : Type} (I : T -> Prop) (opts : DiffOptions).

Lemma hoare_check_each {A} (l : list A) : hoare (on_store I) budget_stop (check_each l) (fun _ => True).
Proof.
  induction l as [|x l IH]; [by apply hoare_ret|]. eapply hoare_bind; [by apply hoare_check|]. intros ? _. apply IH.
Qed.
Lemma hoare_cadence old new : hoare (on_store I) budget_stop (check_comparison_cadence old new) (fun _ => True).
Proof.
  eapply hoare_bind; [apply hoare_check_each|]. intros ? _. eapply hoare_bind; [apply hoare_check_each|]. intros ? _.
  by apply hoare_check.
Qed.
Lemma hoare_side_lines origin lacks count ls : forall index,
  hoare (on_store I) budget_stop (side_lines origin lacks count index ls) (fun _ => True).
Proof.
  induction ls as [|x ls IH]; intros index; [by apply hoare_ret|]. eapply hoare_bind; [by apply hoare_check|]. intros ? _.
  eapply hoare_bind; [apply IH|]. intros ? _. by apply hoare_ret.
Qed.

Lemma hoare_sides sides : forall file used, within_limits opts used ->
  hoare (on_store I) budget_stop (populate_sides opts sides file used)
    (fun '(o, f, u) => within_limits opts u /\ same_change f file /\ o <> Oversize /\ df_additions f = df_additions file).
Proof.
  induction sides as [|[origin data] sides IH]; intros file used Hw; cbn [populate_sides]; [by apply hoare_ret|].
  eapply hoare_bind; [by apply hoare_check|]. intros ? _. destruct Hw as (Hh & Hl & Hh' & Hl').
  destruct (N.eqb_spec (us_hunks used) (do_max_diff_hunks opts)) as [E|E]; [by apply hoare_ret|].
  destruct (N.ltb_spec (do_max_diff_lines opts) (sadd64 (us_lines used) (diff_line_count data))) as [E'|E']; [by apply hoare_ret|].
  eapply hoare_bind; [apply hoare_side_lines|]. intros dls _. eapply hoare_post; [apply IH|].
  - unfold within_limits, used_hunk, sadd64 in *. cbn [us_hunks us_lines]. lia.
  - intros [[o f] u] (Hu & Hs & Ho & Ha). done.
Qed.

Lemma hoare_patch file old new used :
  within_limits opts used ->
  let before := lines_with_lf old in
  let after := lines_with_lf new in
  hoare (on_store I) budget_stop
    (populate_patch (set_counts (blob_additions before after) (blob_removals before after) file) old new
       (blob_edits before after) opts used)
    (fun '(o, f, u) => within_limits opts u /\ same_change f file /\ o <> Oversize /\ df_additions f <> None /\
       (lenN (lines old) < u32_max -> lenN (lines new) < u32_max -> o = Complete -> text_shown old new f)).
Proof.
  intros Hw before after [b t] Hi.
  assert (Hfull : lenN (lines old) < u32_max -> lenN (lines new) < u32_max -> patch_result old new opts used
    (populate_patch (T := T) (set_counts (blob_additions before after) (blob_removals before after) file) old new
       (blob_edits before after) opts used (b, t)).1) by (intros; by apply populate_patch_spec).
  revert Hfull. unfold populate_patch. destruct (consume_diff _ _ _ _ _ _) as [r [b' s]] eqn:Ec.
  destruct Hw as (Hh & Hl & Hh' & Hl').
  pose proof (collect_diff_spec (collector_options opts old new) used _ _ _ _ _ _ _ _ Hh Hl Hh' Hl' (blob_aligned before after) Ec) as Hs.
  assert (Hlim : forall hs, collected (collector_options opts old new) used hs s ->
    within_limits opts (mkUsed (hc_hunks_used s) (hc_lines_used s))).
  { intros hs (_ & Eu & El & Mh & Ml). unfold within_limits. cbn [us_hunks us_lines].
    split_and!; [done..|rewrite Eu|rewrite El]; unfold sadd64; lia. }
  intros Hfull. split; [|done]. destruct r as [[]|x]; cbn [fst snd outcome].
  - destruct Hs as (hs & Hco & _). split_and!; [by eapply Hlim|done..|]. intros H1 H2 _. specialize (Hfull H1 H2).
    cbn in Hfull. destruct Hfull as (Hp & Ha & Hd & _). unfold text_shown. cbn in *.
    injection Ha as Ha. by rewrite Ha.
  - destruct Hs as [(e & He & Hst)|(Hn & hs & i & j & ls & Hco & _ & Ho)]; [by rewrite He|]. rewrite Hn.
    destruct Ho as [[-> _]|[-> _]]; cbn; (split_and!; [by eapply Hlim|done..|]); by intros.
Qed.

(** [populate_text], whatever the format. *)
Lemma hoare_text file old new used :
  within_limits opts used -> df_additions file = None -> df_hunks file = [] ->
  hoare (on_store I) budget_stop (populate_text file old new opts used)
    (fun '(o, f, u) => within_limits opts u /\ same_change f file /\ o <> Oversize /\
       (df_additions f = None -> df_hunks f = []) /\
       (do_format opts = FPatch -> df_status file <> TypeChanged -> lenN (lines old) < u32_max ->
        lenN (lines new) < u32_max -> o = Complete -> text_shown old new f)).
Proof.
  intros Hw Hadd Hhunks. unfold populate_text. destruct (is_binary_payload old || is_binary_payload new) eqn:Eb.
  { apply hoare_ret. split_and!; try done. intros. unfold text_shown. cbn. by rewrite Hadd. }
  eapply hoare_bind; [apply hoare_cadence|]. intros ? _.
  case_bool_decide as Ht; case_bool_decide as Hf; cbn [andb].
  1:{ eapply hoare_post; [by apply hoare_sides|]. intros [[o f] u] (? & ? & ? & Ha).
    split_and!; try done. intros E. by rewrite E in Ha. }
  all: case_bool_decide as Hs; [apply hoare_ret; split_and!; try done; by intros; congruence|].
  all: eapply hoare_post; [by apply hoare_patch|]; intros [[o f] u] (? & ? & ? & ? & Hp); split_and!; try done.
  all: intros; by apply Hp.
Qed.

End TextQuery.

(* ------------------------------------------------------------------ *)
(** ** A small diff algorithm *)

Module HunksDemo.

(** Compares line by line; what one file has more is one edit. *)
Fixpoint positional (i j : nat) (old new : list bytes) : list Edit :=
  match old, new with
  | [], [] => []
  | [], _ => [mkEdit i i j (j + length new)]
  | _, [] => [mkEdit i (i + length old) j j]
  | x :: old, y :: new =>
      if bool_decide (x = y) then positional (S i) (S j) old new
      else mkEdit i (S i) j (S j) :: positional (S i) (S j) old new
  end.
Definition engine : BlobDiff := {|
  blob_edits := positional 0 0;
  blob_additions old new := N.of_nat (edits_size (positional 0 0 old new)).1;
  blob_removals old new := N.of_nat (edits_size (positional 0 0 old new)).2
|}.

Lemma aligned_extend old new i j es (x : bytes) :
  old !! i = Some x -> new !! j = Some x -> aligned old new (S i) (S j) es -> aligned old new i j es.
Proof.
  intros Hi Hj Hal. assert (Htk : forall g, tokens old (S i) (S i + g) = tokens new (S j) (S j + g) ->
    tokens old i (i + S g) = tokens new j (j + S g)).
  { intros g. unfold tokens. rewrite !Nat.add_sub'. rewrite (drop_S _ _ _ Hi), (drop_S _ _ _ Hj). cbn [take].
    by intros ->. }
  inversion Hal as [? ? H1 H2 Hd|? ? g e es' Hb Ha Heq Hbe Hae Hne Hrest]; subst.
  - constructor; [lia..|]. by rewrite (drop_S _ _ _ Hi), (drop_S _ _ _ Hj), Hd.
  - econstructor; try done; [rewrite Hb|rewrite Ha|by apply Htk]; lia.
Qed.

Lemma positional_aligned o : forall n old new i j,
  drop i old = o -> drop j new = n -> (i <= length old)%nat -> (j <= length new)%nat ->
  aligned old new i j (positional i j o n).
Proof.
  assert (Htail : forall old new i j, (i <= length old)%nat -> (j <= length new)%nat ->
    (i < length old \/ j < length new)%nat -> aligned old new i j [mkEdit i (length old) j (length new)]).
  { intros old new i j Hi Hj Hne. apply (aligned_cons _ _ _ _ 0); cbn; rewrite ?tokens_nil; try lia.
    - by rewrite !Nat.add_0_r, !tokens_nil.
    - constructor; [lia..|]. by rewrite !drop_ge by lia. }
  induction o as [|x o IH]; intros [|y n] old new i j Ho Hn Hi Hj; cbn [positional].
  - constructor; [done..|]. by rewrite Ho, Hn.
  - assert (Hlo : length old = i) by (apply (f_equal length) in Ho; rewrite length_drop in Ho; cbn in Ho; lia).
    assert (Hln : length new = (j + S (length n))%nat) by (apply (f_equal length) in Hn; rewrite length_drop in Hn; cbn in Hn; lia).
    cbn [length]. rewrite <- Hln.
    replace (mkEdit i i j _) with (mkEdit i (length old) j (length new)) by (by rewrite Hlo). apply Htail; lia.
  - assert (Hln : length new = j) by (apply (f_equal length) in Hn; rewrite length_drop in Hn; cbn in Hn; lia).
    assert (Hlo : length old = (i + S (length o))%nat) by (apply (f_equal length) in Ho; rewrite length_drop in Ho; cbn in Ho; lia).
    cbn [length]. rewrite <- Hlo.
    replace (mkEdit i _ j j) with (mkEdit i (length old) j (length new)) by (by rewrite Hln). apply Htail; lia.
  - assert (Hx : old !! i = Some x) by (rewrite <- (Nat.add_0_r i), <- lookup_drop, Ho; done).
    assert (Hy : new !! j = Some y) by (rewrite <- (Nat.add_0_r j), <- lookup_drop, Hn; done).
    pose proof (lookup_lt_Some _ _ _ Hx). pose proof (lookup_lt_Some _ _ _ Hy).
    rewrite (drop_S _ _ _ Hx) in Ho. rewrite (drop_S _ _ _ Hy) in Hn. injection Ho as Ho. injection Hn as Hn.
    case_bool_decide; [subst y; eapply aligned_extend; try done; apply IH; done || lia|].
    apply (aligned_cons _ _ _ _ 0); cbn; try lia; [by rewrite !Nat.add_0_r, !tokens_nil|]. apply IH; done || lia.
Qed.

#[export] Instance lawful : LawfulBlobDiff engine.
Proof. split; intros; [apply positional_aligned; done || lia|done..]. Qed.

Definition old : bytes := bs "a" ++ [x0a] ++ bs "b" ++ [x0a] ++ bs "c" ++ [x0a] ++ bs "d" ++ [x0a] ++ bs "e".
Definition new : bytes :=
  bs "a" ++ [x0a] ++ bs "B" ++ [x0a] ++ bs "c" ++ [x0a] ++ bs "d" ++ [x0a] ++ bs "e" ++ [x0a] ++ bs "f" ++ [x0a].
Definition file (status : DiffStatus) : DiffFile :=
  mkDiffFile status (Some (bs "p")) (Some (bs "p")) None None None None None None None false [].
Definition options (hunks : N) : DiffOptions := mkDiffOptions FPatch [] 0 RDisabled false 10 hunks 100 1000.
Definition run (status : DiffStatus) (hunks : N) :=
  @populate_text quiet engine unit (file status) old new (options hunks) (mkUsed 0 0) (Budget_unlimited, tt).
Definition summary (r : Res (PopulateOutcome * DiffFile * Used)) : option (PopulateOutcome * list (N * N * N * N)) :=
  match r with
  | Ok (o, f, _) =>
      Some (o, (fun h => (dh_old_start h, dh_old_lines h, dh_new_start h, dh_new_lines h)) <$> df_hunks f)
  | Err _ => None
  end.

End HunksDemo.

(** Two hunks without context, around a missing final newline; and the prefix
    that one hunk of room leaves. *)
Lemma patch_rebuilds_file_witness :
  patch_result HunksDemo.old HunksDemo.new (HunksDemo.options 5) (mkUsed 0 0) (HunksDemo.run Modified 5).1 /\
  HunksDemo.summary (HunksDemo.run Modified 5).1 = Some (Complete, [(2, 1, 2, 1); (5, 1, 5, 2)]) /\
  HunksDemo.summary (HunksDemo.run Modified 1).1 = Some (Stopped "max_diff_hunks", [(2, 1, 2, 1)]).
Proof.
  split; [|split; vm_compute; reflexivity]. unfold HunksDemo.run.
  apply (@patch_rebuilds_file quiet HunksDemo.engine HunksDemo.lawful); try reflexivity; try discriminate.
  split_and!; discriminate.
Defined.
