(* ===== verification/TreeDiff.v ===== *)
(** * Tree diffs ([diff.rs] and the vendored tree walk)

    The head-first union of two stores, the adapter that serves it to the diff
    engine, the projection of trees to a pathspec, the normalisation of the
    engine's changes, and the engine's breadth-first comparison of two trees
    ([vendor/gix-diff], [tree/function.rs], [tree/recorder.rs] and the plain
    half of [tree_with_rewrites/function.rs]).

    A tree iterator is the list of its items, an item being an entry or a
    decoding failure. The relations that group changes for rename tracking are
    not modelled, and the rename tracker itself is a parameter of the queries
    that use it. *)

From Stdlib Require Import NArith ZArith Lia Strings.Byte Strings.String.
From stdpp Require Import prelude gmap strings list sorting.
From S2P Require Import Prelude Errors Objects Budget Odb Decode Snapshot Pathspec Tree File Hunks.

Open Scope N_scope.

(** ** Modes and identifiers *)

(** [mode_type] and [is_gitlink]; the engine's [EntryMode::is_tree] is the same
    test of the format bits. The constants are octal [170000], [160000] and
    [040000]. *)
Definition mode_type (mode : N) : N := N.land mode 61440.
Definition is_gitlink (mode : N) : bool := mode_type mode =? 57344.
Definition is_tree (mode : N) : bool := mode_type mode =? 16384.

(** [gix_hash::ObjectId], and [core_oid]. *)
Definition GixId : Type := (HashKind * bytes)%type.
Definition entry_id (e : EntryRef) : GixId := (er_oid_kind e, er_oid e).
Definition core_oid (id : GixId) : Res Oid := Oid_new id.1 id.2.

(** [missing_object]. *)
Definition missing_in_union (oid : Oid) (role : string) : Error :=
  with_oid oid (Error_new MissingObject
    (role ++ " object " ++ oid_str oid ++ " is missing from the object store union")).

(** ** Changes *)

(** [gix_diff::tree_with_rewrites::ChangeRef]. A rewrite carries the percentage
    [floor(similarity * 100)] of its line comparison, when it made one. *)
Inductive ChangeRef : Type :=
| CAddition (location : bytes) (entry_mode : N) (id : GixId)
| CDeletion (location : bytes) (entry_mode : N) (id : GixId)
| CModification (location : bytes) (previous_entry_mode : N) (previous_id : GixId) (entry_mode : N) (id : GixId)
| CRewrite (source_location : bytes) (source_entry_mode : N) (source_id : GixId) (percentage : option Z)
    (entry_mode : N) (id : GixId) (location : bytes) (copy : bool).

Record RawChange : Type := mkRawChange {
  rc_status : DiffStatus;
  rc_old_path : option bytes;
  rc_new_path : option bytes;
  rc_old_oid : option Oid;
  rc_new_oid : option Oid;
  rc_old_mode : option N;
  rc_new_mode : option N;
  rc_similarity : option N
}.
(** [RawChange::sort_path] and [RawChange::into_file]. *)
Definition sort_path (c : RawChange) : bytes :=
  match rc_new_path c with
  | Some p => p
  | None => default [] (rc_old_path c)
  end.
Definition into_file (c : RawChange) : DiffFile :=
  mkDiffFile (rc_status c) (rc_old_path c) (rc_new_path c) (rc_old_oid c) (rc_new_oid c) (rc_old_mode c)
    (rc_new_mode c) (rc_similarity c) None None false [].

(** [normalize_change]. *)
Definition normalize_change (change : ChangeRef) : Res (option RawChange) :=
  match change with
  | CAddition location entry_mode id =>
      if is_tree entry_mode then Ok None
      else
        let? oid := core_oid id in
        Ok (Some (mkRawChange Added None (Some location) None (Some oid) None (Some entry_mode) None))
  | CDeletion location entry_mode id =>
      if is_tree entry_mode then Ok None
      else
        let? oid := core_oid id in
        Ok (Some (mkRawChange Deleted (Some location) None (Some oid) None (Some entry_mode) None None))
  | CModification location previous_mode previous_id entry_mode id =>
      if is_tree previous_mode && is_tree entry_mode then Ok None
      else
        let status := if mode_type previous_mode =? mode_type entry_mode then Modified else TypeChanged in
        let? old := core_oid previous_id in
        let? new := core_oid id in
        Ok (Some (mkRawChange status (Some location) (Some location) (Some old) (Some new) (Some previous_mode)
                    (Some entry_mode) None))
  | CRewrite source source_mode source_id percentage entry_mode id location copy =>
      if is_tree source_mode || is_tree entry_mode then Ok None
      else
        let similarity := match percentage with
                          | Some p => Z.to_N (Z.min (Z.max p 0) 100)
                          | None => 100
                          end in
        let? old := core_oid source_id in
        let? new := core_oid id in
        Ok (Some (mkRawChange (if copy then Copied else Renamed) (Some source) (Some location) (Some old) (Some new)
                    (Some source_mode) (Some entry_mode) (Some similarity)))
  end.

(** ** [UnionObjectDb] *)

Section Union.
Context {T : Type} (head base : ObjectDb T).

Definition union_new : Res unit :=
  if negb (bool_decide (hash_kind head = hash_kind base)) then
    Err (Error_new HashMismatch "diff object stores use different hash algorithms")
  else Ok tt.
Definition union_try_header_with_provenance (oid : Oid) : DM T (option HeaderRead) :=
  let! header := try_header_with_provenance head oid in
  match header with
  | Some header => sret (Some header)
  | None => try_header_with_provenance base oid
  end.
Definition union_try_header (oid : Oid) : DM T (option ObjectHeader) :=
  let! read := union_try_header_with_provenance oid in
  sret (hr_header <$> read).
Definition union_try_find (oid : Oid) : DM T ObjectReadResult :=
  let! found := try_find head oid in
  match found with
  | Some object => sret (Some object)
  | None => try_find base oid
  end.
Definition union_cache_stats (t : T) : CacheStats :=
  let h := cache_stats head t in
  let b := cache_stats base t in
  mkCacheStats (sadd64 (cs_bytes h) (cs_bytes b)) (sadd64 (cs_entries h) (cs_entries b))
    (sadd64 (cs_evictions h) (cs_evictions b)).

(** [read_required_tree]. *)
Definition read_required_tree (oid : Oid) : DM T bytes :=
  let! found := union_try_find oid in
  let! object := slift (ok_or (missing_in_union oid "tree") found) in
  if negb (bool_decide (object.1 = Tree)) then
    sthrow (Error_new NotATree ("tree object " ++ oid_str oid ++ " is not a tree"))
  else sret object.2.

End Union.

(** ** Projection to a pathspec *)

(** The [cache] and [projected] maps of [project_diff_trees], and [PreparedTrees]. *)
Record Projection : Type := mkProjection {
  pj_cache : gmap (Oid * bytes) bytes;
  pj_projected : gmap Oid bytes
}.
Record PreparedTrees : Type := mkPrepared {
  pt_base : bytes;
  pt_head : bytes;
  pt_projected : gmap Oid bytes
}.
Definition cache_tree (key : Oid * bytes) (payload : bytes) (s : Projection) : Projection :=
  mkProjection (<[key := payload]> (pj_cache s)) (pj_projected s).
(** [projected.entry(oid).or_insert(child)]. *)
Definition keep_projected (oid : Oid) (child : bytes) (s : Projection) : Projection :=
  mkProjection (pj_cache s)
    (match pj_projected s !! oid with Some _ => pj_projected s | None => <[oid := child]> (pj_projected s) end).

(** One entry of a written tree. *)
Definition write_entry (mode : N) (name : bytes) (oid : Oid) : bytes :=
  bs (octal_digits 11 mode EmptyString) ++ [x20] ++ name ++ [x00] ++ as_bytes oid.

Section Project.
Context `{Env, GixObject, GixGlob, Digests} {T : Type} (head base : ObjectDb T) (matcher : PathspecMatcher).

(** The loop of [project_tree] over the entries of one tree. *)
Fixpoint project_entries (project : Oid -> bytes -> Projection -> DM T (bytes * Projection)) (oid : Oid)
  (prefix : bytes) (items : list (Res TreeEntry)) (output : bytes) (s : Projection) : DM T (bytes * Projection) :=
  match items with
  | [] => sret (output, s)
  | item :: items =>
      let! _ := on_budget check in
      let! entry := slift item in
      let path := join_path prefix (te_name entry) in
      let mode := te_mode entry in
      if is_tree mode then
        if negb (may_match_descendant matcher path) then project_entries project oid prefix items output s
        else
          let! (child, s) := project (te_oid entry) path s in
          if bool_decide (child = []) then project_entries project oid prefix items output s
          else
            let! child_oid := slift (object_id (oid_kind oid) Tree child) in
            project_entries project oid prefix items (output ++ write_entry mode (te_name entry) child_oid)
              (keep_projected child_oid child s)
      else if negb (matcher_matches matcher path) then project_entries project oid prefix items output s
      else project_entries project oid prefix items (output ++ write_entry mode (te_name entry) (te_oid entry)) s
  end.
Fixpoint project_tree (fuel : nat) (oid : Oid) (prefix : bytes) (s : Projection) : DM T (bytes * Projection) :=
  match fuel with
  | O => sthrow walk_diverged
  | S fuel =>
      match pj_cache s !! (oid, prefix) with
      | Some payload => sret (payload, s)
      | None =>
          let! payload := read_required_tree head base oid in
          let! (output, s) :=
            project_entries (project_tree fuel) oid prefix (decode_tree payload (oid_kind oid)) [] s in
          sret (output, cache_tree (oid, prefix) output s)
      end
  end.
Definition project_diff_trees (fuel : nat) (base_oid head_oid : Oid) : DM T PreparedTrees :=
  let! (base_tree, s) := project_tree fuel base_oid [] (mkProjection ∅ ∅) in
  let! (head_tree, s) := project_tree fuel head_oid [] s in
  sret (mkPrepared base_tree head_tree (pj_projected s)).

End Project.

(** ** The tree walk *)

(** [gix_diff::tree::Error]. *)
Inductive TreeError : Type :=
| TFind
| TCancelled
| TEntriesDecode.

(** What the walk changes: the tracked path and the queued paths of the
    [Recorder], the queued pairs of trees of the [State], the results and the
    stop of the query's callback, the [err] of the [Delegate], and the recorded
    error and oversize list of the adapter. *)
Record WalkState : Type := mkWalkState {
  ws_path : bytes;
  ws_path_deque : list bytes;
  ws_trees : list (option GixId * option GixId);
  ws_changes : list RawChange;
  ws_stopped_by : option string;
  ws_err : option Error;
  ws_last_error : option Error;
  ws_oversize : list Oid
}.
Definition WalkState_new : WalkState := mkWalkState [] [] [] [] None None None [].
Definition set_path (p : bytes) (s : WalkState) : WalkState :=
  mkWalkState p (ws_path_deque s) (ws_trees s) (ws_changes s) (ws_stopped_by s) (ws_err s) (ws_last_error s)
    (ws_oversize s).
Definition set_deque (d : list bytes) (s : WalkState) : WalkState :=
  mkWalkState (ws_path s) d (ws_trees s) (ws_changes s) (ws_stopped_by s) (ws_err s) (ws_last_error s)
    (ws_oversize s).
Definition set_trees (q : list (option GixId * option GixId)) (s : WalkState) : WalkState :=
  mkWalkState (ws_path s) (ws_path_deque s) q (ws_changes s) (ws_stopped_by s) (ws_err s) (ws_last_error s)
    (ws_oversize s).
Definition push_change (c : RawChange) (s : WalkState) : WalkState :=
  mkWalkState (ws_path s) (ws_path_deque s) (ws_trees s) (ws_changes s ++ [c]) (ws_stopped_by s) (ws_err s)
    (ws_last_error s) (ws_oversize s).
Definition stop_walk (limit : string) (s : WalkState) : WalkState :=
  mkWalkState (ws_path s) (ws_path_deque s) (ws_trees s) (ws_changes s) (Some limit) (ws_err s)
    (ws_last_error s) (ws_oversize s).
Definition store_err (e : Error) (s : WalkState) : WalkState :=
  mkWalkState (ws_path s) (ws_path_deque s) (ws_trees s) (ws_changes s) (ws_stopped_by s) (Some e)
    (ws_last_error s) (ws_oversize s).
Definition record_error (e : Error) (s : WalkState) : WalkState :=
  mkWalkState (ws_path s) (ws_path_deque s) (ws_trees s) (ws_changes s) (ws_stopped_by s) (ws_err s) (Some e)
    (ws_oversize s).
Definition record_oversize (oid : Oid) (s : WalkState) : WalkState :=
  if bool_decide (oid ∈ ws_oversize s) then s
  else mkWalkState (ws_path s) (ws_path_deque s) (ws_trees s) (ws_changes s) (ws_stopped_by s) (ws_err s)
         (ws_last_error s) (ws_oversize s ++ [oid]).

(** [Recorder::push_element] and [Recorder::pop_element]. *)
Definition push_element (name path : bytes) : bytes :=
  if bool_decide (name = []) then path
  else if bool_decide (path = []) then name
  else path ++ x2f :: name.
Definition pop_element (path : bytes) : bytes :=
  match rposition is_slash path with
  | Some pos => take pos path
  | None => []
  end.

(** [compare]: the names up to the shorter one, then the next byte, a slash for
    the end of a tree's name. *)
Definition next_byte (e : EntryRef) (common : nat) : option byte :=
  match er_filename e !! common with
  | Some b => Some b
  | None => if is_tree (er_mode e) then Some x2f else None
  end.
Definition byte_cmp (a b : byte) : comparison := byteN a ?= byteN b.
Definition option_cmp {A} (cmp : A -> A -> comparison) (a b : option A) : comparison :=
  match a, b with
  | None, None => Eq
  | None, Some _ => Lt
  | Some _, None => Gt
  | Some a, Some b => cmp a b
  end.
Definition compare (a b : EntryRef) : comparison :=
  let common := Nat.min (length (er_filename a)) (length (er_filename b)) in
  match bytes_cmp (take common (er_filename a)) (take common (er_filename b)) with
  | Eq => option_cmp byte_cmp (next_byte a common) (next_byte b common)
  | o => o
  end.

Section Walk.
Context `{Env, GixObject} {T : Type} (head base : ObjectDb T).
Context (max_diff_files max_object_bytes : N) (projected : gmap Oid bytes).

Abbreviation WM := (ST (Budget * T * WalkState) TreeError).

Definition on_walk (f : WalkState -> WalkState) : WM unit := fun '(w, s) => (Ok tt, (w, f s)).

(** A result of the core that the adapter records when it is an error. *)
Definition recorded {A} (m : DM T A) : WM A :=
  fun '(w, s) =>
    match m w with
    | (Ok a, w) => (Ok a, (w, s))
    | (Err e, w) => (Err TFind, (w, record_error e s))
    end.

(** [Find::try_find] and [FindHeader::try_header] of [GixObjectStore]. *)
Definition adapter_try_find (id : GixId) : WM ObjectReadResult :=
  let! oid := recorded (slift (core_oid id)) in
  match projected !! oid with
  | Some tree => sret (Some (Tree, tree))
  | None =>
      let! found := recorded (union_try_find head base oid) in
      let! _ :=
        match found with
        | Some (Blob, data) => if max_object_bytes <? lenN data then on_walk (record_oversize oid) else sret tt
        | _ => sret tt
        end in
      sret found
  end.
Definition adapter_try_header (id : GixId) : WM (option ObjectHeader) :=
  let! oid := recorded (slift (core_oid id)) in
  match projected !! oid with
  | Some tree => sret (Some (mkHeader Tree (lenN tree)))
  | None =>
      let! header := recorded (union_try_header head base oid) in
      let! _ :=
        match header with
        | Some (mkHeader Blob size) =>
            if max_object_bytes <? size then on_walk (record_oversize oid) else sret tt
        | _ => sret tt
        end in
      sret header
  end.

(** [TreeRefIter]: the items of a payload. *)
Fixpoint iter_items (fuel : nat) (hk : HashKind) (payload : bytes) : list (option EntryRef) :=
  match fuel with
  | O => []
  | S fuel =>
      match gix_tree_next hk payload with
      | None => []
      | Some (item, rest) => item :: iter_items fuel hk rest
      end
  end.
Definition tree_ref_iter (hk : HashKind) (payload : bytes) : list (option EntryRef) :=
  iter_items (S (length payload)) hk payload.

(** [FindExt::find_tree_iter]: an absent object and one that is no tree are
    errors. *)
Definition find_tree_iter (id : GixId) : WM (list (option EntryRef)) :=
  let! found := adapter_try_find id in
  match found with
  | Some (Tree, data) => sret (tree_ref_iter id.1 data)
  | _ => sthrow TFind
  end.

(** The methods of the [Recorder]. *)
Definition pop_front_tracked_path_and_set_current : WM unit :=
  on_walk (fun s => match ws_path_deque s with
                    | p :: rest => set_path p (set_deque rest s)
                    | [] => s
                    end).
Definition push_path_component (name : bytes) : WM unit :=
  on_walk (fun s => set_path (push_element name (ws_path s)) s).
Definition push_back_tracked_path_component (name : bytes) : WM unit :=
  on_walk (fun s => let p := push_element name (ws_path s) in set_path p (set_deque (ws_path_deque s ++ [p]) s)).
Definition pop_path_component : WM unit := on_walk (fun s => set_path (pop_element (ws_path s)) s).
Definition queue (ids : option GixId * option GixId) : WM unit :=
  on_walk (fun s => set_trees (ws_trees s ++ [ids]) s).

(** The callback of [diff], then [Delegate::emit_change]: whether to break. *)
Definition for_each (change : ChangeRef) : ST (Budget * T * WalkState) Error bool :=
  fun '((b, t), s) =>
    match check b with
    | (Err e, b) => (Err e, ((b, t), s))
    | (Ok _, b) =>
        match normalize_change change with
        | Err e => (Err e, ((b, t), s))
        | Ok None => (Ok false, ((b, t), s))
        | Ok (Some c) =>
            if lenN (ws_changes s) =? max_diff_files then (Ok true, ((b, t), stop_walk "max_diff_files" s))
            else (Ok false, ((b, t), push_change c s))
        end
    end.
Definition emit_change (change : ChangeRef) : WM bool :=
  fun w => match for_each change w with
           | (Ok stop, w) => (Ok stop, w)
           | (Err e, (w, s)) => (Ok true, (w, store_err e s))
           end.
(** A visit, which cancels the walk when it breaks. *)
Definition visit (change : bytes -> ChangeRef) : WM unit :=
  let! path := sget (fun '(_, s) => ws_path s) in
  let! stop := emit_change (change path) in
  if stop then sthrow TCancelled else sret tt.

Definition delete_entry_schedule_recursion (e : EntryRef) : WM unit :=
  let! _ := push_path_component (er_filename e) in
  let! _ := visit (fun p => CDeletion p (er_mode e) (entry_id e)) in
  if is_tree (er_mode e) then
    let! _ := pop_path_component in
    let! _ := push_back_tracked_path_component (er_filename e) in
    queue (Some (entry_id e), None)
  else sret tt.
Definition add_entry_schedule_recursion (e : EntryRef) : WM unit :=
  let! _ := push_path_component (er_filename e) in
  let! _ := visit (fun p => CAddition p (er_mode e) (entry_id e)) in
  if is_tree (er_mode e) then
    let! _ := pop_path_component in
    let! _ := push_back_tracked_path_component (er_filename e) in
    queue (None, Some (entry_id e))
  else sret tt.

Definition handle_lhs_and_rhs_with_equal_filenames (l r : EntryRef) : WM unit :=
  let change p := CModification p (er_mode l) (entry_id l) (er_mode r) (entry_id r) in
  match is_tree (er_mode l), is_tree (er_mode r) with
  | true, true =>
      if bool_decide (entry_id l = entry_id r) then push_path_component (er_filename l)
      else
        let! _ := push_back_tracked_path_component (er_filename l) in
        let! _ := visit change in
        queue (Some (entry_id l), Some (entry_id r))
  | false, true =>
      let! _ := push_back_tracked_path_component (er_filename l) in
      let! _ := visit (fun p => CDeletion p (er_mode l) (entry_id l)) in
      let! _ := visit (fun p => CAddition p (er_mode r) (entry_id r)) in
      queue (None, Some (entry_id r))
  | true, false =>
      let! _ := push_back_tracked_path_component (er_filename l) in
      let! _ := visit (fun p => CDeletion p (er_mode l) (entry_id l)) in
      let! _ := visit (fun p => CAddition p (er_mode r) (entry_id r)) in
      queue (Some (entry_id l), None)
  | false, false =>
      let! _ := push_path_component (er_filename l) in
      if negb (bool_decide (entry_id l = entry_id r)) || negb (er_mode l =? er_mode r) then visit change
      else sret tt
  end.

Definition decoded (item : option EntryRef) : WM EntryRef := slift (ok_or TEntriesDecode item).

(** The loops of [catchup_lhs_with_rhs] and [catchup_rhs_with_lhs] after the
    first entry; they return what is left of the side that catches up. *)
Fixpoint catchup_lhs (lhs : list (option EntryRef)) (r : EntryRef) : WM (list (option EntryRef)) :=
  match lhs with
  | [] =>
      let! _ := pop_path_component in
      let! _ := add_entry_schedule_recursion r in
      sret []
  | None :: _ => sthrow TEntriesDecode
  | Some l :: rest =>
      match compare l r with
      | Eq =>
          let! _ := pop_path_component in
          let! _ := handle_lhs_and_rhs_with_equal_filenames l r in
          sret rest
      | Lt =>
          let! _ := pop_path_component in
          let! _ := delete_entry_schedule_recursion l in
          catchup_lhs rest r
      | Gt =>
          let! _ := pop_path_component in
          let! _ := add_entry_schedule_recursion r in
          sret lhs
      end
  end.
Fixpoint catchup_rhs (l : EntryRef) (rhs : list (option EntryRef)) : WM (list (option EntryRef)) :=
  match rhs with
  | [] =>
      let! _ := pop_path_component in
      let! _ := delete_entry_schedule_recursion l in
      sret []
  | None :: _ => sthrow TEntriesDecode
  | Some r :: rest =>
      match compare l r with
      | Eq =>
          let! _ := pop_path_component in
          let! _ := handle_lhs_and_rhs_with_equal_filenames l r in
          sret rest
      | Gt =>
          let! _ := pop_path_component in
          let! _ := add_entry_schedule_recursion r in
          catchup_rhs l rest
      | Lt =>
          let! _ := pop_path_component in
          let! _ := delete_entry_schedule_recursion l in
          sret rhs
      end
  end.

(** The items of the next pair of trees. *)
Definition next_trees (next : option GixId * option GixId)
  : WM (list (option EntryRef) * list (option EntryRef)) :=
  let open id :=
    match id with
    | Some id => find_tree_iter id
    | None => sret []
    end in
  let! _ := pop_front_tracked_path_and_set_current in
  let! lhs := open next.1 in
  let! rhs := open next.2 in
  sret (lhs, rhs).

(** The loop of [tree::diff]. *)
Fixpoint diff_loop (fuel : nat) (lhs rhs : list (option EntryRef)) (pop_path : bool) : WM unit :=
  match fuel with
  | O => sthrow TFind
  | S fuel =>
      let! _ := (if pop_path then pop_path_component else sret tt) in
      match lhs, rhs with
      | [], [] =>
          let! trees := sget (fun '(_, s) => ws_trees s) in
          match trees with
          | [] => sret tt
          | next :: rest =>
              let! _ := on_walk (set_trees rest) in
              let! (lhs, rhs) := next_trees next in
              diff_loop fuel lhs rhs false
          end
      | l :: lhs, r :: rhs =>
          let! l := decoded l in
          let! r := decoded r in
          match compare l r with
          | Eq =>
              let! _ := handle_lhs_and_rhs_with_equal_filenames l r in
              diff_loop fuel lhs rhs true
          | Lt =>
              let! _ := delete_entry_schedule_recursion l in
              let! lhs := catchup_lhs lhs r in
              diff_loop fuel lhs rhs true
          | Gt =>
              let! _ := add_entry_schedule_recursion r in
              let! rhs := catchup_rhs l rhs in
              diff_loop fuel lhs rhs true
          end
      | l :: lhs, [] =>
          let! l := decoded l in
          let! _ := delete_entry_schedule_recursion l in
          diff_loop fuel lhs [] true
      | [], r :: rhs =>
          let! r := decoded r in
          let! _ := add_entry_schedule_recursion r in
          diff_loop fuel [] rhs true
      end
  end.

End Walk.

(* ------------------------------------------------------------------ *)
(** ** Names, keys and paths *)

Lemma push_join name path : name <> [] -> push_element name path = join_path path name.
Proof. intros Hn. unfold push_element, join_path. by rewrite (bool_decide_false (name = [])). Qed.

Lemma pop_join prefix name :
  Forall (fun b => beq x2f b = false) name -> pop_element (join_path prefix name) = prefix.
Proof.
  intros Hn. assert (Hs : Forall (fun b => is_slash b = false) name).
  { eapply Forall_impl; [exact Hn|]. intros b Hb. apply beq_false in Hb. apply beq_false. congruence. }
  unfold join_path, pop_element. case_bool_decide as Hp.
  - subst prefix. destruct (rposition is_slash name) as [i|] eqn:E; [|done].
    apply rposition_None in Hs. by rewrite Hs in E.
  - rewrite rposition_app_r by done. by rewrite take_app_length.
Qed.

(** The engine's order of entries is the order of Git's keys. *)
Lemma bytes_cmp_decided p q x y :
  length p = length q -> bytes_cmp p q <> Eq -> bytes_cmp (p ++ x) (q ++ y) = bytes_cmp p q.
Proof.
  revert q. induction p as [|a p IH]; intros [|b q] Hl Hc; try done. cbn in *.
  destruct (byteN a ?= byteN b) eqn:E; [|done..]. apply IH; [lia|done].
Qed.

(** The entry [e] of the engine is the entry [o] of the core. *)
Record agrees (e : EntryRef) (o : OwnedTreeEntry) : Prop := {
  ag_mode : er_mode e = oe_mode o;
  ag_name : er_filename e = oe_name o;
  ag_id : core_oid (entry_id e) = Ok (oe_oid o);
  ag_tree : is_tree (er_mode e) = bool_decide (oe_kind o = KTree);
  ag_ok : name_ok o
}.

Lemma agrees_id e o e' o' :
  agrees e o -> agrees e' o' -> entry_id e = entry_id e' <-> oe_oid o = oe_oid o'.
Proof.
  intros He He'. pose proof (ag_id _ _ He) as H1. pose proof (ag_id _ _ He') as H2. split.
  - intros E. rewrite E in H1. congruence.
  - intros E. apply as_bytes_new in H1 as [B1 K1], H2 as [B2 K2]. destruct (entry_id e), (entry_id e'); cbn in *. congruence.
Qed.

Lemma lookup_drop_0 {A} (l : list A) k : l !! k = list.head (drop k l).
Proof. rewrite <- (Nat.add_0_r k) at 1. rewrite <- lookup_drop. by destruct (drop k l). Qed.
Lemma slash_cmp y r t : beq x2f y = false ->
  bytes_cmp (x2f :: t) (y :: r) = byte_cmp x2f y /\ bytes_cmp (y :: r) (x2f :: t) = byte_cmp y x2f.
Proof.
  intros Hy. unfold byte_cmp. cbn [bytes_cmp].
  assert (Hne : byteN x2f <> byteN y) by (intros E%byteN_inj; subst y; by rewrite beq_refl in Hy).
  split.
  - by destruct (N.compare_spec (byteN x2f) (byteN y)).
  - by destruct (N.compare_spec (byteN y) (byteN x2f)).
Qed.

Lemma compare_keys a b oa ob : agrees a oa -> agrees b ob -> compare a b = bytes_cmp (git_key oa) (git_key ob).
Proof.
  intros [_ Na _ Ta [_ Sa]] [_ Nb _ Tb [_ Sb]]. unfold compare, next_byte, git_key. rewrite Ta, Tb, Na, Nb.
  set (n := oe_name oa) in *. set (m := oe_name ob) in *. set (ta := bool_decide _). set (tb := bool_decide _).
  set (k := Nat.min (length n) (length m)).
  assert (En : n = take k n ++ drop k n) by (by rewrite take_drop). assert (Em : m = take k m ++ drop k m) by (by rewrite take_drop).
  assert (Hlen : length (take k n) = length (take k m)) by (rewrite !length_take; lia).
  assert (Hexp : bytes_cmp (n ++ (if ta then [x2f] else [])) (m ++ (if tb then [x2f] else [])) =
    bytes_cmp (take k n ++ drop k n ++ (if ta then [x2f] else [])) (take k m ++ drop k m ++ (if tb then [x2f] else []))).
  { rewrite En at 1. rewrite Em at 1. by rewrite <- !app_assoc. }
  rewrite Hexp. destruct (bytes_cmp (take k n) (take k m)) eqn:E; [|by rewrite bytes_cmp_decided; rewrite ?E..].
  apply bytes_cmp_eq in E. rewrite E, bytes_cmp_app.
  replace (n !! k) with (list.head (drop k n)) by (by rewrite <- lookup_drop_0).
  replace (m !! k) with (list.head (drop k m)) by (by rewrite <- lookup_drop_0).
  assert (Hdn : Forall (fun b => beq x2f b = false) (drop k n)) by (by apply Forall_drop).
  assert (Hdm : Forall (fun b => beq x2f b = false) (drop k m)) by (by apply Forall_drop).
  assert (Hemp : drop k n = [] \/ drop k m = []).
  { destruct (decide (length n <= length m)%nat); [left|right]; apply drop_ge; lia. }
  destruct (drop k n) as [|x dn], (drop k m) as [|y dm]; cbn [list.head app].
  - by destruct ta, tb.
  - apply Forall_cons in Hdm as [Hy _]. destruct ta; [|done]. symmetry. by apply slash_cmp.
  - apply Forall_cons in Hdn as [Hx _]. destruct tb; [|done]. symmetry. by apply slash_cmp.
  - by destruct Hemp.
Qed.

(** ** The items of a valid tree *)

Lemma kind_is_tree mode k : kind_from_mode mode = Ok k -> is_tree mode = bool_decide (k = KTree).
Proof.
  unfold kind_from_mode, is_tree, mode_type. destruct (N.eqb_spec (N.land mode 61440) 16384) as [E|E]; [by intros [= <-]|].
  repeat (destruct (N.eqb _ _)); intros [= <-]; done.
Qed.

Section Items.
Context `{GixObject}.

Definition item_agrees (item : option EntryRef) (o : OwnedTreeEntry) : Prop :=
  exists e, item = Some e /\ agrees e o.

Lemma owned_agrees e o :
  owned_entry (let? oid := map_err (fun _ => malformed "tree entry object ID is malformed") (Oid_new (er_oid_kind e) (er_oid e)) in
               Ok (mkEntry (er_mode e) (er_filename e) oid)) = Ok o ->
  agrees e o.
Proof.
  intros Ho. pose proof (owned_entry_name _ _ Ho) as Hn. unfold owned_entry in Ho.
  apply rbind_Ok in Ho as (te & Hte & Ho). apply rbind_Ok in Hte as (oid & Hid & [= <-]).
  apply rbind_Ok in Ho as (u & _ & Ho). apply rbind_Ok in Ho as (k & Hk & [= <-]). cbn in *.
  split; cbn; try done; [|by apply kind_is_tree].
  unfold core_oid, entry_id. cbn. by destruct (Oid_new _ _); simplify_eq/=.
Qed.

Lemma iter_items_agrees hk n : forall payload es m,
  (length payload < m)%nat -> (S (length payload) < n)%nat ->
  Forall2 (fun item o => owned_entry item = Ok o) (tree_items n hk (mkTreeIter payload false)) es ->
  Forall2 item_agrees (iter_items m hk payload) es.
Proof.
  induction n as [|n IH]; intros payload es m Hm Hn Hes; [lia|].
  cbn [tree_items] in Hes. destruct m as [|m]; [lia|]. cbn [iter_items]. unfold tree_iter_next in Hes. cbn [ti_failed ti_remaining] in Hes.
  destruct (_ && _).
  { inversion Hes; subst. done. }
  destruct (gix_tree_next hk payload) as [[[e|] rest]|] eqn:E.
  - inversion Hes as [|? ? ? es' Ho Hes']; subst. constructor; [exists e; split; [done|by apply owned_agrees]|].
    pose proof (gix_tree_shrinks _ _ _ _ E). apply IH; [lia..|done].
  - inversion Hes; subst. done.
  - inversion Hes; subst. constructor.
Qed.
Lemma tree_ref_iter_agrees payload hk es :
  decode_owned_tree_entries payload hk = Ok es -> Forall2 item_agrees (tree_ref_iter hk payload) es.
Proof. intros Hes%map_res_Ok. eapply iter_items_agrees; [| |exact Hes]; lia. Qed.

End Items.

(** ** The changes between two listings *)

Abbreviation Listing := (list (bytes * OwnedTreeEntry)).

(** The entry at a path, and the change between two entries of a path. *)
Definition at_entry (l : Listing) (p : bytes) : option OwnedTreeEntry :=
  snd <$> list.head (filter (fun v => v.1 = p) l).
Definition same_entry (e e' : OwnedTreeEntry) : bool :=
  bool_decide (oe_oid e = oe_oid e') && (oe_mode e =? oe_mode e').
Definition change_of (p : bytes) (old new : option OwnedTreeEntry) : option RawChange :=
  match old, new with
  | None, None => None
  | None, Some e => Some (mkRawChange Added None (Some p) None (Some (oe_oid e)) None (Some (oe_mode e)) None)
  | Some e, None => Some (mkRawChange Deleted (Some p) None (Some (oe_oid e)) None (Some (oe_mode e)) None None)
  | Some e, Some e' =>
      if same_entry e e' then None
      else Some (mkRawChange (if mode_type (oe_mode e) =? mode_type (oe_mode e') then Modified else TypeChanged)
                   (Some p) (Some p) (Some (oe_oid e)) (Some (oe_oid e')) (Some (oe_mode e)) (Some (oe_mode e')) None)
  end.

(** All of them: of the paths of [old], then of the paths only [new] has. *)
Definition left_change (new : Listing) (v : bytes * OwnedTreeEntry) : option RawChange :=
  change_of v.1 (Some v.2) (at_entry new v.1).
Definition right_change (old : Listing) (v : bytes * OwnedTreeEntry) : option RawChange :=
  match at_entry old v.1 with
  | Some _ => None
  | None => change_of v.1 None (Some v.2)
  end.
Definition listing_changes (old new : Listing) : list RawChange :=
  omap (left_change new) old ++ omap (right_change old) new.

Lemma at_entry_app l l' p :
  at_entry (l ++ l') p = match at_entry l p with Some e => Some e | None => at_entry l' p end.
Proof. unfold at_entry. rewrite filter_app. by destruct (filter _ l). Qed.
Lemma at_entry_None l p : p ∉ l.*1 -> at_entry l p = None.
Proof.
  intros Hp. unfold at_entry. rewrite filter_none; [done|]. intros v Hv <-. apply Hp. by apply list_elem_of_fmap_2.
Qed.
Lemma at_entry_Some l p e : at_entry l p = Some e -> (p, e) ∈ l.
Proof.
  unfold at_entry. destruct (filter _ l) as [|[q x] r] eqn:E; [done|]. cbn. intros [= <-].
  assert (Hin : (q, x) ∈ filter (fun v => v.1 = p) l) by (rewrite E; left).
  by apply list_elem_of_filter in Hin as [<- Hin].
Qed.
Lemma at_entry_NoDup l p e : NoDup l.*1 -> (p, e) ∈ l -> at_entry l p = Some e.
Proof.
  induction l as [|[q x] l IH]; [by intros _ ?%not_elem_of_nil|]. cbn [fmap list_fmap fst].
  intros [Hq Hnd]%NoDup_cons Hin. unfold at_entry. rewrite filter_cons. cbn [fst].
  apply elem_of_cons in Hin as [[= -> ->]|Hin]; [by rewrite decide_True|]. destruct (decide (q = p)) as [->|Hne].
  - destruct Hq. by apply (list_elem_of_fmap_2 fst) in Hin.
  - by apply IH.
Qed.

Lemma omap_ext_in {A B} (f g : A -> option B) (l : list A) : (forall x, x ∈ l -> f x = g x) -> omap f l = omap g l.
Proof.
  induction l as [|x l IH]; intros Hfg; [done|]. cbn. rewrite (Hfg x) by left. by rewrite IH by (intros; apply Hfg; by right).
Qed.

(** Listings of disjoint parts of a tree can be compared part by part. *)
Definition apart (l l' : Listing) : Prop := forall p, p ∈ l.*1 -> p ∉ l'.*1.

Lemma listing_changes_app a1 a2 b1 b2 :
  apart a1 b2 -> apart a2 b1 ->
  listing_changes (a1 ++ a2) (b1 ++ b2) ≡ₚ listing_changes a1 b1 ++ listing_changes a2 b2.
Proof.
  intros H1 H2. unfold listing_changes. rewrite !omap_app.
  assert (E1 : omap (left_change (b1 ++ b2)) a1 = omap (left_change b1) a1).
  { apply omap_ext_in. intros v Hv. unfold left_change. rewrite at_entry_app, (at_entry_None b2); [by destruct (at_entry b1 v.1)|].
    apply H1. by apply list_elem_of_fmap_2. }
  assert (E2 : omap (left_change (b1 ++ b2)) a2 = omap (left_change b2) a2).
  { apply omap_ext_in. intros v Hv. unfold left_change. rewrite at_entry_app, (at_entry_None b1); [done|].
    apply H2. by apply list_elem_of_fmap_2. }
  assert (E3 : omap (right_change (a1 ++ a2)) b1 = omap (right_change a1) b1).
  { apply omap_ext_in. intros v Hv. unfold right_change. rewrite at_entry_app, (at_entry_None a2); [by destruct (at_entry a1 v.1)|].
    intros Hp. by apply (H2 v.1), list_elem_of_fmap_2. }
  assert (E4 : omap (right_change (a1 ++ a2)) b2 = omap (right_change a2) b2).
  { apply omap_ext_in. intros v Hv. unfold right_change. rewrite at_entry_app, (at_entry_None a1); [done|].
    intros Hp. by apply (H1 v.1 Hp), list_elem_of_fmap_2. }
  rewrite E1, E2, E3, E4, <- !app_assoc. apply Permutation_app_head. rewrite !app_assoc.
  apply Permutation_app_tail, Permutation_app_comm.
Qed.

Lemma omap_none {A B} (f : A -> option B) (l : list A) : (forall x, x ∈ l -> f x = None) -> omap f l = [].
Proof.
  induction l as [|x l IH]; intros Hf; [done|]. cbn. rewrite (Hf x) by left. apply IH. intros; apply Hf. by right.
Qed.
Lemma same_entry_refl e : same_entry e e = true.
Proof. unfold same_entry. by rewrite bool_decide_true, N.eqb_refl. Qed.

Lemma listing_changes_same l : NoDup l.*1 -> listing_changes l l = [].
Proof.
  intros Hnd. unfold listing_changes. apply app_nil. split.
  - apply omap_none. intros [p e] Hv. unfold left_change. cbn [fst snd]. rewrite (at_entry_NoDup _ _ _ Hnd Hv). cbn.
    by rewrite same_entry_refl.
  - apply omap_none. intros [p e] Hv. unfold right_change. cbn [fst snd]. by rewrite (at_entry_NoDup _ _ _ Hnd Hv).
Qed.

(** What the list holds. *)
Lemma elem_of_listing_changes old new ch :
  NoDup old.*1 -> NoDup new.*1 ->
  ch ∈ listing_changes old new <-> exists p, change_of p (at_entry old p) (at_entry new p) = Some ch.
Proof.
  intros Ho Hn. unfold listing_changes. rewrite elem_of_app, !list_elem_of_omap. split.
  - intros [([p e] & Hin & Hc)|([p e] & Hin & Hc)]; exists p; unfold left_change, right_change in Hc; cbn [fst snd] in Hc.
    + by rewrite (at_entry_NoDup _ _ _ Ho Hin).
    + destruct (at_entry old p); [done|]. by rewrite (at_entry_NoDup _ _ _ Hn Hin).
  - intros [p Hc]. destruct (at_entry old p) as [e|] eqn:Eo.
    + left. exists (p, e). by split; [apply at_entry_Some|].
    + right. destruct (at_entry new p) as [e'|] eqn:En; [|done]. exists (p, e'). split; [by apply at_entry_Some|].
      unfold right_change. cbn [fst snd]. by rewrite Eo.
Qed.

(** ** What lies below the entries of two directories *)

Section Below.
Context `{GixObject} {T : Type} (db : ObjectDb T) (c : Oid -> ObjectReadResult).

Lemma under_det es prefix vs vs' : under db c es prefix vs -> under db c es prefix vs' -> vs = vs'.
Proof.
  intros Hu. revert vs'. induction Hu as [|e es prefix vs Hk _ IH|e es prefix ch vs1 vs2 Hk Ht _ IH1 _ IH2]; intros vs' Hu';
    inversion Hu' as [|? ? ? ws Hk' Hws|? ? ? ch' ws1 ws2 Hk' Ht' Hws1 Hws2]; subst; try done.
  - f_equal. by apply IH.
  - assert (ch' = ch) as -> by congruence. by rewrite (IH1 _ Hws1), (IH2 _ Hws2).
Qed.

Lemma under_cons e es prefix vs :
  under db c (e :: es) prefix vs -> exists v1 v2, vs = v1 ++ v2 /\ under db c [e] prefix v1 /\ under db c es prefix v2.
Proof.
  inversion 1 as [|? ? ? ws Hk Hws|? ? ? ch ws1 ws2 Hk Ht Hws1 Hws2]; subst.
  - exists [(join_path prefix (oe_name e), e)], ws. split; [done|]. split; [|done]. constructor; [done|constructor].
  - exists ((join_path prefix (oe_name e), e) :: ws1), ws2. split; [done|]. split; [|done].
    rewrite <- (app_nil_r ws1). by eapply under_tree; [..|constructor].
Qed.

Lemma under_append e es prefix v1 v2 :
  under db c [e] prefix v1 -> under db c es prefix v2 -> under db c (e :: es) prefix (v1 ++ v2).
Proof.
  inversion 1 as [|? ? ? ws Hk Hws|? ? ? ch ws1 ws2 Hk Ht Hws1 Hws2]; subst; intros H2.
  - inversion Hws; subst. by apply under_leaf.
  - inversion Hws2; subst. rewrite app_nil_r. by eapply under_tree.
Qed.

Lemma files_app vs vs' : files (vs ++ vs') = files vs ++ files vs'.
Proof. apply filter_app. Qed.

Lemma under_leaf_files e prefix vs :
  under db c [e] prefix vs -> oe_kind e <> KTree -> vs = [(join_path prefix (oe_name e), e)] /\ files vs = vs.
Proof.
  inversion 1 as [|? ? ? ws Hk Hws|]; subst; [|done]. inversion Hws; subst. intros _. split; [done|].
  unfold files. by rewrite filter_cons, decide_True.
Qed.
Lemma under_tree_files e prefix vs :
  under db c [e] prefix vs -> oe_kind e = KTree ->
  exists es vs', tree_of db c (oe_oid e) = Ok es /\ under db c es (join_path prefix (oe_name e)) vs' /\
    length vs = S (length vs') /\ files vs = files vs'.
Proof.
  inversion 1 as [| |? ? ? ch ws1 ws2 Hk Ht Hws1 Hws2]; subst; [done|]. inversion Hws2; subst. intros _.
  exists ch, ws1. rewrite app_nil_r. split_and!; try done. unfold files. rewrite filter_cons, decide_False; [done|].
  cbn. by intros ?.
Qed.

(** What an earlier entry holds is apart from what the later entries hold. *)
Lemma under_apart e es prefix v1 v2 :
  name_ok e -> Forall name_ok es -> Forall (git_lt e) es -> under db c [e] prefix v1 -> under db c es prefix v2 ->
  apart (files v1) (files v2) /\ apart (files v2) (files v1).
Proof.
  intros Hne Hn Hlt H1 H2.
  assert (Hord : forall v w, v ∈ files v1 -> w ∈ files v2 -> bytes_lt v.1 w.1).
  { intros v w [Hkv Hv]%list_elem_of_filter [Hkw Hw]%list_elem_of_filter.
    destruct (under_origin db c _ _ _ _ H1 ltac:(by constructor) Hv Hkv) as (e1 & r1 & ->%list_elem_of_singleton & -> & Hr1).
    destruct (under_origin db c _ _ _ _ H2 Hn Hw Hkw) as (e2 & r2 & He2 & -> & _).
    rewrite Forall_forall in Hn, Hlt. apply bytes_lt_app, git_lt_paths; [by apply Hn|by apply Hlt|done]. }
  split; intros p (v & -> & Hv)%list_elem_of_fmap (w & Hp & Hw)%list_elem_of_fmap.
  - pose proof (Hord v w Hv Hw) as Hlt'. rewrite Hp in Hlt'. by apply bytes_lt_irrefl in Hlt'.
  - pose proof (Hord w v Hw Hv) as Hlt'. rewrite Hp in Hlt'. by apply bytes_lt_irrefl in Hlt'.
Qed.

Lemma sorted_NoDup (l : Listing) : StronglySorted (fun v w => bytes_lt v.1 w.1) l -> NoDup l.*1.
Proof.
  induction 1 as [|v l _ IH Hv]; [constructor|]. cbn. constructor; [|done].
  intros (w & Hp & Hw)%list_elem_of_fmap. rewrite Forall_forall in Hv. specialize (Hv w Hw).
  rewrite Hp in Hv. by apply bytes_lt_irrefl in Hv.
Qed.

End Below.

(** ** The walk yields the changes between the two listings *)

Section WalkSpec.
Context `{Env, GixObject} {T : Type} (head base : ObjectDb T) (ch cb : Oid -> ObjectReadResult).
Context (I : T -> Prop) (F : ErrorCode -> Prop) `{!LawfulDb head ch I F, !LawfulDb base cb I F}.
Context (max_diff_files max_object_bytes : N) (projected : gmap Oid bytes).

(** What the union holds, and what the adapter serves. *)
Definition union_contents (oid : Oid) : ObjectReadResult :=
  match ch oid with
  | Some object => Some object
  | None => cb oid
  end.
Definition served (oid : Oid) : ObjectReadResult :=
  match projected !! oid with
  | Some tree => Some (Tree, tree)
  | None => union_contents oid
  end.

Lemma union_find_spec oid :
  hoare (on_store I) (fun e => F (code e)) (union_try_find head base oid) (fun v => v = union_contents oid).
Proof.
  unfold union_try_find, union_contents. eapply hoare_bind; [apply law_find|]. intros v ->.
  destruct (ch oid); [by apply hoare_ret|apply law_find].
Qed.

Hypothesis own_kind : forall oid object, served oid = Some object -> oid_kind oid = hash_kind head.
Hypothesis canonical : trees_canonical head served.

(** All the changes of the query. *)
Context (all : list RawChange).

(** A queued pair of trees, its path and the listings below it. *)
Record Pending : Type := mkPending {
  pq_ids : option GixId * option GixId;
  pq_path : bytes;
  pq_old : Listing;
  pq_new : Listing
}.
Definition lists (id : option GixId) (path : bytes) (l : Listing) : Prop :=
  match id with
  | Some id => exists oid es, core_oid id = Ok oid /\ tree_of head served oid = Ok es /\ under head served es path l
  | None => l = []
  end.
Definition pending_ok (q : Pending) : Prop :=
  lists (pq_ids q).1 (pq_path q) (pq_old q) /\ lists (pq_ids q).2 (pq_path q) (pq_new q).
Definition pending_changes (qs : list Pending) : list RawChange :=
  mjoin ((fun q => listing_changes (files (pq_old q)) (files (pq_new q))) <$> qs).
Definition weight (old new : Listing) : nat := (2 * (length old + length new))%nat.
Definition pending_weight (qs : list Pending) : nat :=
  sum_list ((fun q => S (weight (pq_old q) (pq_new q))) <$> qs).

(** The state of the walk: the queue [qs] and the changes [rest] still to come. *)
Definition queue_is (qs : list Pending) (s : WalkState) : Prop :=
  ws_trees s = pq_ids <$> qs /\ ws_path_deque s = pq_path <$> qs.
Definition same_place (s s' : WalkState) : Prop :=
  ws_path s' = ws_path s /\ ws_trees s' = ws_trees s /\ ws_path_deque s' = ws_path_deque s.
Record walking (qs : list Pending) (rest : list RawChange) (s : WalkState) : Prop := mkWalking {
  wk_queue : Forall pending_ok qs;
  wk_all : ws_changes s ++ pending_changes qs ++ rest ≡ₚ all;
  wk_len : lenN (ws_changes s) <= max_diff_files;
  wk_clean : ws_stopped_by s = None /\ ws_err s = None /\ ws_last_error s = None
}.
Definition halted (s : WalkState) : Prop :=
  ws_last_error s = None /\
  (ws_stopped_by s = Some "max_diff_files"%string /\ lenN (ws_changes s) = max_diff_files /\
     (exists change rest, ws_changes s ++ change :: rest ≡ₚ all) \/
   ws_stopped_by s = None /\ exists e, ws_err s = Some e /\ budget_stop e).
Definition post {A} (Q : A -> WalkState -> Prop) (r : result TreeError A) (w : Budget * T * WalkState) : Prop :=
  I w.1.2 /\
  match r with
  | Ok a => Q a w.2
  | Err TCancelled => halted w.2
  | Err TFind => exists e, ws_last_error w.2 = Some e /\ F (code e)
  | Err TEntriesDecode => False
  end.

Lemma post_bind {A B} (m : ST (Budget * T * WalkState) TreeError A) k (P : A -> WalkState -> Prop)
  (Q : B -> WalkState -> Prop) w :
  wp m (post P) w -> (forall a w', I w'.1.2 -> P a w'.2 -> wp (k a) (post Q) w') -> wp (sbind m k) (post Q) w.
Proof.
  intros Hm Hk. apply wp_bind. eapply wp_mono; [exact Hm|]. intros [a|e] w' [Hi Hp]; [by apply Hk|done].
Qed.
Lemma post_walk f (Q : unit -> WalkState -> Prop) w : I w.1.2 -> Q tt (f w.2) -> wp (on_walk f) (post Q) w.
Proof. by destruct w as [[b t] s]. Qed.
Lemma post_ret {A} (a : A) (Q : A -> WalkState -> Prop) w : I w.1.2 -> Q a w.2 -> wp (sret a) (post Q) w.
Proof. done. Qed.

(** A visit of a change that the query records as [cs], none or one. *)
Lemma visit_spec (change : bytes -> ChangeRef) o qs rest w :
  I w.1.2 -> normalize_change (change (ws_path w.2)) = Ok o -> walking qs (option_list o ++ rest) w.2 ->
  wp (visit max_diff_files change)
    (post (fun _ s' => walking qs rest s' /\ same_place w.2 s')) w.
Proof.
  destruct w as [[b t] s]. cbn [fst snd]. intros Hi Hn Hw. unfold visit, wp, sbind, sget, emit_change, for_each.
  destruct (check b) as [[?|e] b'] eqn:Ec.
  2:{ cbn. split; [done|]. split; [by destruct (wk_clean _ _ _ Hw) as (?&?&?)|]. right. cbn.
      destruct (wk_clean _ _ _ Hw) as (? & ? & ?). split; [done|]. exists e. split; [done|by eapply check_stops]. }
  rewrite Hn. destruct o as [change'|]; cbn in *; [|done].
  destruct Hw as [Hq Hall Hl (Hc1 & Hc2 & Hc3)].
  destruct (N.eqb_spec (lenN (ws_changes s)) max_diff_files) as [Em|Nm]; cbn.
  - split; [done|]. split; [done|]. left. cbn. split_and!; [done..|]. exists change', (pending_changes qs ++ rest).
    rewrite <- Hall. apply Permutation_app_head. apply Permutation_middle.
  - split; [done|]. split; [|done]. split; cbn; try done.
    + rewrite <- Hall, <- app_assoc. apply Permutation_app_head. cbn. apply Permutation_middle.
    + rewrite lenN_app. unfold lenN in *. cbn. lia.
Qed.

(** Opening a queued tree. *)
Lemma tree_payload oid es :
  tree_of head served oid = Ok es ->
  exists payload, served oid = Some (Tree, payload) /\ Forall2 item_agrees (tree_ref_iter (oid_kind oid) payload) es.
Proof.
  unfold tree_of, entries_of_read. intros Ht. apply rbind_Ok in Ht as ([k p] & Hs%ok_or_Ok & Ht).
  case_bool_decide as Hk; [|done]. cbn [negb] in Ht. subst k. exists p. split; [done|].
  rewrite (own_kind _ _ Hs). by apply tree_ref_iter_agrees.
Qed.
Lemma find_tree_spec id oid es Q w :
  I w.1.2 -> core_oid id = Ok oid -> tree_of head served oid = Ok es ->
  (forall items, Forall2 item_agrees items es -> Q items w.2) ->
  wp (find_tree_iter head base max_object_bytes projected id) (post Q) w.
Proof.
  destruct w as [[b t] s]. cbn [fst snd]. intros Hi Hid Ht HQ.
  destruct (tree_payload _ _ Ht) as (payload & Hs & Hit). pose proof (as_bytes_new _ _ _ Hid) as [_ Hk]. rewrite Hk in Hit.
  unfold find_tree_iter, adapter_try_find, wp, sbind, recorded, slift. rewrite Hid. cbn.
  unfold served in Hs. destruct (projected !! oid) as [tree|] eqn:Ep; cbn; simplify_eq/=.
  { split; [done|]. by apply HQ. }
  pose proof (union_find_spec oid (b, t) Hi) as Hf. destruct (union_try_find head base oid (b, t)) as [[v|e] [b' t']]; cbn in *.
  - destruct Hf as [-> Hi']. rewrite Hs. cbn. split; [done|]. by apply HQ.
  - destruct Hf as [He Hi']. split; [done|]. by exists e.
Qed.

(** What one entry leaves: the queue longer by [qs'], lighter than what the
    entry held, and the path one element below [prefix]. *)
Definition entered (qs : list Pending) (rest : list RawChange) (prefix : bytes) (n : nat) (s : WalkState) : Prop :=
  exists qs', queue_is (qs ++ qs') s /\ walking (qs ++ qs') rest s /\ pop_element (ws_path s) = prefix /\
    (pending_weight qs' + 1 <= n)%nat.

Lemma wp_on_walk {B} f (k : unit -> ST (Budget * T * WalkState) TreeError B) (Q : result TreeError B -> _ -> Prop) w :
  wp (k tt) Q (w.1, f w.2) -> wp (sbind (on_walk f) k) Q w.
Proof. by destruct w as [[b t] s]. Qed.

Lemma walking_same qs rest s s' :
  walking qs rest s -> ws_changes s' = ws_changes s -> ws_stopped_by s' = ws_stopped_by s -> ws_err s' = ws_err s ->
  ws_last_error s' = ws_last_error s -> walking qs rest s'.
Proof. intros [Hq Ha Hl Hc] H1 H2 H3 H4. by split; rewrite ?H1, ?H2, ?H3, ?H4. Qed.

Lemma pending_changes_snoc qs q :
  pending_changes (qs ++ [q]) = pending_changes qs ++ listing_changes (files (pq_old q)) (files (pq_new q)).
Proof. unfold pending_changes. rewrite fmap_app, join_app. cbn. by rewrite app_nil_r. Qed.

Lemma walking_queue qs q rest s :
  pending_ok q -> walking qs (listing_changes (files (pq_old q)) (files (pq_new q)) ++ rest) s ->
  walking (qs ++ [q]) rest s.
Proof.
  intros Hok [Hq Ha Hl Hc]. split; [by apply Forall_app; split; [|constructor]| |done|done].
  by rewrite pending_changes_snoc, <- app_assoc.
Qed.

Lemma entered_here qs rest prefix n s :
  queue_is qs s -> walking qs rest s -> pop_element (ws_path s) = prefix -> (1 <= n)%nat -> entered qs rest prefix n s.
Proof. intros Hq Hw Hp Hn. exists []. rewrite app_nil_r. by split_and!. Qed.

Lemma entered_queued qs q rest prefix n s :
  pending_ok q -> queue_is (qs ++ [q]) s -> pop_element (ws_path s) = prefix ->
  walking qs (listing_changes (files (pq_old q)) (files (pq_new q)) ++ rest) s ->
  (weight (pq_old q) (pq_new q) + 2 <= n)%nat -> entered qs rest prefix n s.
Proof.
  intros Hok Hq Hp Hw Hn. exists [q]. split_and!; [done|by apply walking_queue|done|].
  unfold pending_weight. cbn -[weight]. lia.
Qed.

(** An entry that only one of the trees has, with what it holds on either side
    ([old] and [new], one of them empty): a tree is queued, a leaf is recorded. *)
Definition scheduled (change : bytes -> ChangeRef) (ids : option GixId * option GixId) (e : EntryRef)
  : ST (Budget * T * WalkState) TreeError unit :=
  let! _ := push_path_component (er_filename e) in
  let! _ := visit max_diff_files change in
  if is_tree (er_mode e) then
    let! _ := pop_path_component in
    let! _ := push_back_tracked_path_component (er_filename e) in
    queue ids
  else sret tt.

Lemma schedule_tree change ids e o old new old' new' qs rest prefix w :
  agrees e o -> oe_kind o = KTree -> I w.1.2 -> ws_path w.2 = prefix -> queue_is qs w.2 ->
  walking qs (listing_changes (files old) (files new) ++ rest) w.2 ->
  (forall p, normalize_change (change p) = Ok None) ->
  pending_ok (mkPending ids (join_path prefix (oe_name o)) old' new') ->
  files old = files old' -> files new = files new' -> (weight old' new' + 2 <= weight old new)%nat ->
  wp (scheduled change ids e) (post (fun _ => entered qs rest prefix (weight old new))) w.
Proof.
  intros He Hk Hi Hp [Hq1 Hq2] Hw Hn Hok Hfo Hfn Hlt. rewrite Hfo, Hfn in Hw.
  unfold scheduled, push_path_component. apply wp_on_walk.
  destruct (ag_ok _ _ He) as [Hne Hsl]. rewrite (ag_name _ _ He), (push_join _ _ Hne), Hp, (ag_tree _ _ He).
  eapply post_bind; [eapply (visit_spec _ None); [done|by apply Hn|by eapply walking_same; [exact Hw|..]]|].
  intros [] [w1 s2] Hi2 (Hw2 & Hp2 & Ht2 & Hd2). cbn [snd fst] in *. rewrite bool_decide_true by done.
  unfold pop_path_component, push_back_tracked_path_component, queue. do 2 apply wp_on_walk.
  apply post_walk; [done|]. cbn [snd]. rewrite !(push_join _ _ Hne). cbn [set_path ws_path]. rewrite Hp2. cbn [set_path ws_path].
  rewrite pop_join by done. apply (entered_queued _ _ _ _ _ _ Hok); [|by apply pop_join|by eapply walking_same; [exact Hw2|..]|done].
  unfold queue_is. cbn. rewrite Ht2, Hd2, !fmap_app. cbn. by rewrite Hq1, Hq2.
Qed.

Lemma schedule_leaf change ids e o old new c qs rest prefix w :
  agrees e o -> oe_kind o <> KTree -> I w.1.2 -> ws_path w.2 = prefix -> queue_is qs w.2 ->
  walking qs (c :: rest) w.2 -> normalize_change (change (join_path prefix (oe_name o))) = Ok (Some c) ->
  (1 <= weight old new)%nat ->
  wp (scheduled change ids e) (post (fun _ => entered qs rest prefix (weight old new))) w.
Proof.
  intros He Hk Hi Hp Hq Hw Hn Hlt. unfold scheduled, push_path_component. apply wp_on_walk.
  destruct (ag_ok _ _ He) as [Hne Hsl]. rewrite (ag_name _ _ He), (push_join _ _ Hne), Hp, (ag_tree _ _ He).
  eapply post_bind; [eapply (visit_spec _ (Some c)); [done|by apply Hn|by eapply walking_same; [exact Hw|..]]|].
  intros [] [w1 s2] Hi2 (Hw2 & Hp2 & Ht2 & Hd2). cbn [snd fst] in *. rewrite bool_decide_false by done.
  apply post_ret; [done|]. cbn [snd]. apply entered_here; [|done| |done].
  - unfold queue_is. by rewrite Ht2, Hd2.
  - rewrite Hp2. cbn. by apply pop_join.
Qed.

Lemma delete_entry_spec e o v qs rest prefix w :
  agrees e o -> under head served [o] prefix v -> I w.1.2 -> ws_path w.2 = prefix -> queue_is qs w.2 ->
  walking qs (listing_changes (files v) [] ++ rest) w.2 ->
  wp (delete_entry_schedule_recursion max_diff_files e) (post (fun _ => entered qs rest prefix (weight v []))) w.
Proof.
  intros He Hv Hi Hp Hq Hw. destruct (decide (oe_kind o = KTree)) as [Hk|Hk].
  - destruct (under_tree_files _ _ _ _ _ Hv Hk) as (es & v' & Ht & Hu & Hlen & Hf).
    eapply (schedule_tree _ _ _ o v [] v' []); try done.
    + intros p. cbn. by rewrite (ag_tree _ _ He), bool_decide_true.
    + split; [|done]. exists (oe_oid o), es. split; [by apply He|done].
    + unfold weight. cbn. lia.
  - destruct (under_leaf_files _ _ _ _ _ Hv Hk) as [-> Hf]. rewrite Hf in Hw.
    eapply (schedule_leaf _ _ _ o _ []); [done..|exact Hw| |unfold weight; cbn; lia].
    cbn. rewrite (ag_tree _ _ He), bool_decide_false, (ag_id _ _ He), (ag_mode _ _ He) by done. reflexivity.
Qed.

Lemma add_entry_spec e o v qs rest prefix w :
  agrees e o -> under head served [o] prefix v -> I w.1.2 -> ws_path w.2 = prefix -> queue_is qs w.2 ->
  walking qs (listing_changes [] (files v) ++ rest) w.2 ->
  wp (add_entry_schedule_recursion max_diff_files e) (post (fun _ => entered qs rest prefix (weight [] v))) w.
Proof.
  intros He Hv Hi Hp Hq Hw. destruct (decide (oe_kind o = KTree)) as [Hk|Hk].
  - destruct (under_tree_files _ _ _ _ _ Hv Hk) as (es & v' & Ht & Hu & Hlen & Hf).
    eapply (schedule_tree _ _ _ o [] v [] v'); try done.
    + intros p. cbn. by rewrite (ag_tree _ _ He), bool_decide_true.
    + split; [done|]. exists (oe_oid o), es. split; [by apply He|done].
    + unfold weight. cbn. lia.
  - destruct (under_leaf_files _ _ _ _ _ Hv Hk) as [-> Hf]. rewrite Hf in Hw.
    eapply (schedule_leaf _ _ _ o []); [done..|exact Hw| |unfold weight; cbn; lia].
    cbn. rewrite (ag_tree _ _ He), bool_decide_false, (ag_id _ _ He), (ag_mode _ _ He) by done. reflexivity.
Qed.

(** Entries of one name and kind in both trees. *)
Lemma same_key a b : name_ok a -> name_ok b -> git_key a = git_key b ->
  oe_name a = oe_name b /\ (oe_kind a = KTree <-> oe_kind b = KTree).
Proof.
  unfold git_key. intros [_ Ha] [_ Hb] E.
  assert (Hno : forall l l', l ++ [x2f] = l' -> ~ Forall (fun b => beq x2f b = false) l').
  { intros l l' <- [_ Hs]%Forall_app. by apply Forall_cons in Hs as [Hs _]. }
  case_bool_decide; case_bool_decide; rewrite ?app_nil_r in E.
  - by apply app_inj_tail in E as [-> _].
  - by destruct (Hno _ _ E).
  - by destruct (Hno _ _ (eq_sym E)).
  - done.
Qed.

Lemma tree_files_NoDup oid es prefix v :
  tree_of head served oid = Ok es -> under head served es prefix v -> NoDup (files v).*1.
Proof.
  intros Ht Hu. apply sorted_NoDup. eapply under_sorted; [exact canonical|exact Hu| |by eapply canonical].
  by eapply tree_of_names.
Qed.

Lemma handle_trees_spec l a r b vl vr qs rest prefix w :
  agrees l a -> agrees r b -> oe_name a = oe_name b -> oe_kind a = KTree -> oe_kind b = KTree ->
  under head served [a] prefix vl -> under head served [b] prefix vr -> I w.1.2 -> ws_path w.2 = prefix ->
  queue_is qs w.2 -> walking qs (listing_changes (files vl) (files vr) ++ rest) w.2 ->
  wp (handle_lhs_and_rhs_with_equal_filenames max_diff_files l r)
    (post (fun _ => entered qs rest prefix (weight vl vr))) w.
Proof.
  intros Hl Hr Hname Hka Hkb Hvl Hvr Hi Hp [Hq1 Hq2] Hw. destruct (ag_ok _ _ Hl) as [Hne Hsl].
  destruct (under_tree_files _ _ _ _ _ Hvl Hka) as (es & vl' & Ht & Hu & Hlen & Hf).
  destruct (under_tree_files _ _ _ _ _ Hvr Hkb) as (es' & vr' & Ht' & Hu' & Hlen' & Hf').
  unfold handle_lhs_and_rhs_with_equal_filenames.
  rewrite (ag_tree _ _ Hl), (ag_tree _ _ Hr), !bool_decide_true, (ag_name _ _ Hl) by done.
  rewrite Hf, Hf' in Hw. case_bool_decide as Hid.
  - apply (agrees_id _ _ _ _ Hl Hr) in Hid. rewrite Hid in Ht. assert (es' = es) as -> by congruence. rewrite <- Hname in Hu'.
    rewrite (under_det _ _ _ _ _ _ Hu' Hu), (listing_changes_same _ (tree_files_NoDup _ _ _ _ Ht Hu)) in Hw. cbn [app] in Hw.
    apply post_walk; [done|]. apply entered_here; [by split|by eapply walking_same; [exact Hw|..]| |unfold weight; lia].
    cbn. rewrite (push_join _ _ Hne), Hp. by apply pop_join.
  - unfold push_back_tracked_path_component. apply wp_on_walk. cbv zeta. rewrite (push_join _ _ Hne), Hp.
    eapply post_bind; [eapply (visit_spec _ None); [done| |by eapply walking_same; [exact Hw|..]]|].
    { cbn. by rewrite (ag_tree _ _ Hl), (ag_tree _ _ Hr), !bool_decide_true. }
    intros [] [w1 s2] Hi2 (Hw2 & Hp2 & Ht2 & Hd2). cbn [snd fst] in *. apply post_walk; [done|]. cbn [snd].
    apply (entered_queued _ (mkPending (Some (entry_id l), Some (entry_id r)) (join_path prefix (oe_name a)) vl' vr')).
    + split; [exists (oe_oid a), es|exists (oe_oid b), es']; [|rewrite Hname]; (split; [by apply Hl || by apply Hr|done]).
    + unfold queue_is. cbn. rewrite Ht2, Hd2, !fmap_app. cbn. by rewrite Hq1, Hq2.
    + cbn. rewrite Hp2. cbn. by apply pop_join.
    + by eapply walking_same; [exact Hw2|..].
    + unfold weight. cbn. lia.
Qed.

Lemma handle_leaves_spec l a r b vl vr qs rest prefix w :
  agrees l a -> agrees r b -> oe_name a = oe_name b -> oe_kind a <> KTree -> oe_kind b <> KTree ->
  under head served [a] prefix vl -> under head served [b] prefix vr -> I w.1.2 -> ws_path w.2 = prefix ->
  queue_is qs w.2 -> walking qs (listing_changes (files vl) (files vr) ++ rest) w.2 ->
  wp (handle_lhs_and_rhs_with_equal_filenames max_diff_files l r)
    (post (fun _ => entered qs rest prefix (weight vl vr))) w.
Proof.
  intros Hl Hr Hname Hka Hkb Hvl Hvr Hi Hp Hq Hw. destruct (ag_ok _ _ Hl) as [Hne Hsl].
  destruct (under_leaf_files _ _ _ _ _ Hvl Hka) as [-> Hf], (under_leaf_files _ _ _ _ _ Hvr Hkb) as [-> Hf'].
  rewrite Hf, Hf' in Hw. unfold handle_lhs_and_rhs_with_equal_filenames.
  rewrite (ag_tree _ _ Hl), (ag_tree _ _ Hr), !bool_decide_false, (ag_name _ _ Hl) by done.
  unfold push_path_component. apply wp_on_walk. rewrite (push_join _ _ Hne), Hp.
  set (p := join_path prefix (oe_name a)) in *. assert (Hch : listing_changes [(p, a)] [(join_path prefix (oe_name b), b)] =
    option_list (change_of p (Some a) (Some b))).
  { rewrite <- Hname. fold p. unfold listing_changes, left_change, right_change, at_entry. cbn -[change_of].
    rewrite !decide_True by done. cbn -[change_of]. by destruct (change_of p (Some a) (Some b)). }
  rewrite Hch in Hw. cbn [change_of] in Hw. unfold same_entry in Hw.
  assert (Heq : negb (bool_decide (entry_id l = entry_id r)) || negb (er_mode l =? er_mode r) =
                negb (bool_decide (oe_oid a = oe_oid b) && (oe_mode a =? oe_mode b))).
  { rewrite negb_andb, (ag_mode _ _ Hl), (ag_mode _ _ Hr). f_equal. f_equal. apply bool_decide_ext, (agrees_id _ _ _ _ Hl Hr). }
  rewrite Heq. destruct (bool_decide (oe_oid a = oe_oid b) && (oe_mode a =? oe_mode b)); cbn [negb].
  - apply post_ret; [done|]. apply entered_here; [done|by eapply walking_same; [exact Hw|..]|cbn; by apply pop_join|unfold weight; cbn; lia].
  - eapply wp_mono; [eapply (visit_spec _ (Some _)); [done| |by eapply walking_same; [exact Hw|..]]|].
    { cbn. rewrite (ag_tree _ _ Hl), (ag_tree _ _ Hr), !bool_decide_false by done. cbn.
      by rewrite (ag_id _ _ Hl), (ag_id _ _ Hr), (ag_mode _ _ Hl), (ag_mode _ _ Hr). }
    intros [u|e] [w1 s2] [Hi2 HQ]; (split; [done|]); [|done]. destruct HQ as (Hw2 & Hp2 & Ht2 & Hd2).
    cbn [snd] in *. apply entered_here; [|done| |unfold weight; cbn; lia].
    + unfold queue_is. by rewrite Ht2, Hd2.
    + rewrite Hp2. cbn. by apply pop_join.
Qed.

Lemma handle_equal_spec l a r b vl vr qs rest prefix w :
  agrees l a -> agrees r b -> compare l r = Eq ->
  under head served [a] prefix vl -> under head served [b] prefix vr -> I w.1.2 -> ws_path w.2 = prefix ->
  queue_is qs w.2 -> walking qs (listing_changes (files vl) (files vr) ++ rest) w.2 ->
  wp (handle_lhs_and_rhs_with_equal_filenames max_diff_files l r)
    (post (fun _ => entered qs rest prefix (weight vl vr))) w.
Proof.
  intros Hl Hr Hc. rewrite (compare_keys _ _ _ _ Hl Hr) in Hc. apply bytes_cmp_eq in Hc.
  destruct (same_key _ _ (ag_ok _ _ Hl) (ag_ok _ _ Hr) Hc) as [Hname Hkind].
  destruct (decide (oe_kind a = KTree)) as [Hk|Hk].
  - apply handle_trees_spec; tauto.
  - apply handle_leaves_spec; tauto.
Qed.

(** The rest of a directory: its items, its entries and what they hold. *)
Record dir (items : list (option EntryRef)) (es : list OwnedTreeEntry) (prefix : bytes) (v : Listing) : Prop := mkDir {
  dir_items : Forall2 item_agrees items es;
  dir_sorted : StronglySorted git_lt es;
  dir_under : under head served es prefix v
}.

Lemma dir_names items es prefix v : dir items es prefix v -> Forall name_ok es.
Proof. intros [Hi _ _]. induction Hi as [|? ? ? ? (e & -> & He) _ IH]; constructor; [apply He|done]. Qed.

Lemma dir_nil prefix : dir [] [] prefix [].
Proof. split; constructor. Qed.
Lemma dir_nil_inv es prefix v : dir [] es prefix v -> es = [] /\ v = [].
Proof. intros [Hi _ Hu]. inversion Hi; subst. inversion Hu. done. Qed.

Lemma dir_cons item items es prefix v :
  dir (item :: items) es prefix v ->
  exists e o es' v1 v2, item = Some e /\ es = o :: es' /\ agrees e o /\ v = v1 ++ v2 /\ under head served [o] prefix v1 /\
    dir items es' prefix v2 /\ Forall (git_lt o) es' /\ name_ok o.
Proof.
  intros [Hi Hs Hu]. inversion Hi as [|? o ? es' (e & -> & He) Hi']; subst.
  apply StronglySorted_inv in Hs as [Hs Hlt]. destruct (under_cons _ _ _ _ _ _ Hu) as (v1 & v2 & -> & H1 & H2).
  exists e, o, es', v1, v2. split_and!; try done. apply He.
Qed.

Lemma git_lt_Forall a b es : git_lt a b -> Forall (git_lt b) es -> Forall (git_lt a) es.
Proof. intros Hab Hes. eapply Forall_impl; [exact Hes|]. intros x. by apply bytes_lt_trans. Qed.

Lemma walking_perm qs rest rest' st : rest ≡ₚ rest' -> walking qs rest st -> walking qs rest' st.
Proof. intros Hp [Hq Ha Hl Hc]. split; try done. by rewrite <- Hp. Qed.

(** Comparing the first entries of two directories splits what is to come. *)
Lemma split_first a v1 es va prefix rest :
  name_ok a -> Forall name_ok es -> Forall (git_lt a) es -> under head served [a] prefix v1 ->
  under head served es prefix rest ->
  listing_changes (files (v1 ++ va)) (files rest) ≡ₚ listing_changes (files v1) [] ++ listing_changes (files va) (files rest) /\
  listing_changes (files rest) (files (v1 ++ va)) ≡ₚ listing_changes [] (files v1) ++ listing_changes (files rest) (files va).
Proof.
  intros Ha Hn Hlt H1 H2. destruct (under_apart _ _ _ _ _ _ _ Ha Hn Hlt H1 H2) as [Hap Hap']. rewrite files_app. split.
  - rewrite <- (listing_changes_app (files v1) (files va) [] (files rest)); [done|done|]. intros p _. apply not_elem_of_nil.
  - rewrite <- (listing_changes_app [] (files rest) (files v1) (files va)); [done| |done].
    intros p Hp. by apply not_elem_of_nil in Hp.
Qed.

Lemma split_both a b v1 w1 es fs v2 w2 prefix :
  name_ok a -> name_ok b -> Forall name_ok es -> Forall name_ok fs -> git_key a = git_key b ->
  Forall (git_lt a) es -> Forall (git_lt b) fs -> under head served [a] prefix v1 -> under head served [b] prefix w1 ->
  under head served es prefix v2 -> under head served fs prefix w2 ->
  listing_changes (files (v1 ++ v2)) (files (w1 ++ w2)) ≡ₚ
  listing_changes (files v1) (files w1) ++ listing_changes (files v2) (files w2).
Proof.
  intros Ha Hb Hes Hfs Hk Hla Hlb H1 H2 H3 H4. rewrite !files_app.
  assert (Hla' : Forall (git_lt a) fs) by (eapply Forall_impl; [exact Hlb|]; unfold git_lt; by rewrite Hk).
  assert (Hlb' : Forall (git_lt b) es) by (eapply Forall_impl; [exact Hla|]; unfold git_lt; by rewrite Hk).
  apply listing_changes_app.
  - apply (under_apart _ _ _ _ _ _ _ Ha Hfs Hla' H1 H4).
  - apply (under_apart _ _ _ _ _ _ _ Hb Hes Hlb' H2 H3).
Qed.

Lemma pending_weight_app qs qs' : pending_weight (qs ++ qs') = (pending_weight qs + pending_weight qs')%nat.
Proof. unfold pending_weight. rewrite fmap_app. induction qs; cbn in *; [done|lia]. Qed.

Lemma entered_trans qs qs' rest prefix n st :
  entered (qs ++ qs') rest prefix n st -> entered qs rest prefix (pending_weight qs' + n) st.
Proof.
  intros (qs2 & Hq & Hw & Hp & Hn). exists (qs' ++ qs2). rewrite app_assoc. split_and!; try done.
  rewrite pending_weight_app. lia.
Qed.
Lemma entered_mono qs rest prefix n m st : entered qs rest prefix n st -> (n <= m)%nat -> entered qs rest prefix m st.
Proof. intros (qs' & ? & ? & ? & ?) Hle. exists qs'. split_and!; try done. lia. Qed.

Lemma weight_app a a' b b' : weight (a ++ a') (b ++ b') = (weight a b + weight a' b')%nat.
Proof. unfold weight. rewrite !length_app. lia. Qed.

(** Popping the last path element, then an operation that starts at [prefix]. *)
Lemma post_pop {B} (k : ST (Budget * T * WalkState) TreeError B) (Q : B -> WalkState -> Prop) w :
  wp k (post Q) (w.1, set_path (pop_element (ws_path w.2)) w.2) -> wp (sbind pop_path_component (fun _ => k)) (post Q) w.
Proof. intros Hk. by apply wp_on_walk. Qed.

(** After an operation that leaves [entered], a value is returned. *)
Lemma post_then {B} (m : ST (Budget * T * WalkState) TreeError unit) (k : ST (Budget * T * WalkState) TreeError B)
  qs rest prefix n (Q : B -> WalkState -> Prop) w :
  wp m (post (fun _ => entered qs rest prefix n)) w ->
  (forall w', I w'.1.2 -> entered qs rest prefix n w'.2 -> wp k (post Q) w') ->
  wp (sbind m (fun _ => k)) (post Q) w.
Proof. intros Hm Hk. eapply post_bind; [exact Hm|]. intros a w'. apply Hk. Qed.

Lemma popped_state qs rest prefix st :
  queue_is qs st -> walking qs rest st -> pop_element (ws_path st) = prefix ->
  let st' := set_path (pop_element (ws_path st)) st in
  queue_is qs st' /\ walking qs rest st' /\ ws_path st' = prefix.
Proof. intros Hq Hw Hp. split_and!; [done|by eapply walking_same; [exact Hw|..]|done]. Qed.

(** What a catching-up side leaves: the rest [v'] of what it held. *)
Definition caught (qs : list Pending) (later : Listing -> list RawChange) (prefix : bytes) (v : Listing) (n : nat)
  (items : list (option EntryRef)) (s : WalkState) : Prop :=
  exists es v', dir items es prefix v' /\ (length v' <= length v)%nat /\
    entered qs (later v') prefix (n - weight v' []) s.

Lemma catchup_lhs_spec lhs : forall ls va r b vr rhs rs vb qs rest prefix w,
  dir lhs ls prefix va -> agrees r b -> under head served [b] prefix vr -> dir rhs rs prefix vb ->
  Forall (git_lt b) rs -> I w.1.2 -> pop_element (ws_path w.2) = prefix -> queue_is qs w.2 ->
  walking qs (listing_changes (files va) (files (vr ++ vb)) ++ rest) w.2 ->
  wp (catchup_lhs max_diff_files lhs r)
    (post (caught qs (fun v => listing_changes (files v) (files vb) ++ rest) prefix va (weight va vr))) w.
Proof.
  induction lhs as [|item lhs IH]; intros ls va r b vr rhs rs vb qs rest prefix w Hd Hr Hvr Hdb Hlt Hi Hp Hq Hw.
  all: pose proof (ag_ok _ _ Hr) as Hnb; pose proof (dir_names _ _ _ _ Hdb) as Hnrs; pose proof (dir_under _ _ _ _ Hdb) as Hub.
  all: assert (Hur : under head served (b :: rs) prefix (vr ++ vb)) by by apply under_append.
  { apply dir_nil_inv in Hd as [-> ->]. cbn [catchup_lhs]. apply post_pop.
    destruct (split_first b vr [] vb prefix [] Hnb ltac:(done) ltac:(done) Hvr (under_nil _ _ _)) as [_ Hs].
    eapply walking_perm in Hw; [|apply Permutation_app_tail, Hs]. rewrite <- app_assoc in Hw.
    destruct (popped_state _ _ _ _ Hq Hw Hp) as (Hq1 & Hw1 & Hp1).
    eapply post_then; [eapply add_entry_spec; done|]. intros w' Hi' He. apply post_ret; [done|].
    exists [], []. split_and!; [apply dir_nil|done|]. eapply entered_mono; [exact He|]. unfold weight. cbn. lia. }
  destruct (dir_cons _ _ _ _ _ Hd) as (l & a & ls' & v1 & v2 & -> & -> & Hl & -> & Hv1 & Hd2 & Hlta & Hna).
  pose proof (dir_names _ _ _ _ Hd2) as Hnls. pose proof (dir_under _ _ _ _ Hd2) as Hu2.
  cbn [catchup_lhs]. destruct (compare l r) eqn:Ec; pose proof Ec as Ek; rewrite (compare_keys _ _ _ _ Hl Hr) in Ek; apply post_pop.
  - apply bytes_cmp_eq in Ek.
    pose proof (split_both a b v1 vr ls' rs v2 vb prefix Hna Hnb Hnls Hnrs Ek Hlta Hlt Hv1 Hvr Hu2 Hub) as Hs.
    eapply walking_perm in Hw; [|apply Permutation_app_tail, Hs]. rewrite <- app_assoc in Hw.
    destruct (popped_state _ _ _ _ Hq Hw Hp) as (Hq1 & Hw1 & Hp1).
    eapply post_then; [eapply handle_equal_spec; done|]. intros w' Hi' He. apply post_ret; [done|].
    exists ls', v2. split_and!; [done|rewrite length_app; lia|]. eapply entered_mono; [exact He|].
    unfold weight. rewrite length_app. cbn. lia.
  - assert (Hall : Forall (git_lt a) (b :: rs)) by (constructor; [exact Ek|by eapply git_lt_Forall]).
    destruct (split_first a v1 (b :: rs) v2 prefix (vr ++ vb) Hna ltac:(by constructor) Hall Hv1 Hur) as [Hs _].
    eapply walking_perm in Hw; [|apply Permutation_app_tail, Hs]. rewrite <- app_assoc in Hw.
    destruct (popped_state _ _ _ _ Hq Hw Hp) as (Hq1 & Hw1 & Hp1).
    eapply post_then; [eapply delete_entry_spec; done|]. intros w' Hi' (qs1 & Hq2 & Hw2 & Hp2 & Hn2).
    eapply wp_mono; [eapply (IH ls' v2 r b vr rhs rs vb (qs ++ qs1)); done|].
    intros [items|e] w2 [Hi2 HQ]; (split; [done|]); [|done]. destruct HQ as (es & v' & Hd' & Hle & He').
    exists es, v'. split_and!; [done|rewrite length_app; lia|]. eapply entered_mono; [by apply entered_trans|].
    unfold weight in *. rewrite length_app. cbn in *. lia.
  - assert (Hba : git_lt b a) by (unfold git_lt, bytes_lt; rewrite bytes_cmp_antisym, Ek; done).
    assert (Hall : Forall (git_lt b) (a :: ls')) by (constructor; [done|by eapply git_lt_Forall]).
    destruct (split_first b vr (a :: ls') vb prefix (v1 ++ v2) Hnb ltac:(by constructor) Hall Hvr (dir_under _ _ _ _ Hd)) as [_ Hs].
    eapply walking_perm in Hw; [|apply Permutation_app_tail, Hs]. rewrite <- app_assoc in Hw.
    destruct (popped_state _ _ _ _ Hq Hw Hp) as (Hq1 & Hw1 & Hp1).
    eapply post_then; [eapply add_entry_spec; done|]. intros w' Hi' He. apply post_ret; [done|].
    exists (a :: ls'), (v1 ++ v2). split_and!; [done|lia|]. eapply entered_mono; [exact He|]. unfold weight. cbn. lia.
Qed.

Lemma catchup_rhs_spec rhs : forall rs vb l a vl lhs ls va qs rest prefix w,
  dir rhs rs prefix vb -> agrees l a -> under head served [a] prefix vl -> dir lhs ls prefix va ->
  Forall (git_lt a) ls -> I w.1.2 -> pop_element (ws_path w.2) = prefix -> queue_is qs w.2 ->
  walking qs (listing_changes (files (vl ++ va)) (files vb) ++ rest) w.2 ->
  wp (catchup_rhs max_diff_files l rhs)
    (post (caught qs (fun v => listing_changes (files va) (files v) ++ rest) prefix vb (weight vl vb))) w.
Proof.
  induction rhs as [|item rhs IH]; intros rs vb l a vl lhs ls va qs rest prefix w Hd Hl Hvl Hda Hlt Hi Hp Hq Hw.
  all: pose proof (ag_ok _ _ Hl) as Hna; pose proof (dir_names _ _ _ _ Hda) as Hnls; pose proof (dir_under _ _ _ _ Hda) as Hua.
  all: assert (Hul : under head served (a :: ls) prefix (vl ++ va)) by by apply under_append.
  { apply dir_nil_inv in Hd as [-> ->]. cbn [catchup_rhs]. apply post_pop.
    destruct (split_first a vl [] va prefix [] Hna ltac:(done) ltac:(done) Hvl (under_nil _ _ _)) as [Hs _].
    eapply walking_perm in Hw; [|apply Permutation_app_tail, Hs]. rewrite <- app_assoc in Hw.
    destruct (popped_state _ _ _ _ Hq Hw Hp) as (Hq1 & Hw1 & Hp1).
    eapply post_then; [eapply delete_entry_spec; done|]. intros w' Hi' He. apply post_ret; [done|].
    exists [], []. split_and!; [apply dir_nil|done|]. eapply entered_mono; [exact He|]. unfold weight. cbn. lia. }
  destruct (dir_cons _ _ _ _ _ Hd) as (r & b & rs' & v1 & v2 & -> & -> & Hr & -> & Hv1 & Hd2 & Hltb & Hnb).
  pose proof (dir_names _ _ _ _ Hd2) as Hnrs. pose proof (dir_under _ _ _ _ Hd2) as Hu2.
  cbn [catchup_rhs]. destruct (compare l r) eqn:Ec; pose proof Ec as Ek; rewrite (compare_keys _ _ _ _ Hl Hr) in Ek; apply post_pop.
  - apply bytes_cmp_eq in Ek.
    pose proof (split_both a b vl v1 ls rs' va v2 prefix Hna Hnb Hnls Hnrs Ek Hlt Hltb Hvl Hv1 Hua Hu2) as Hs.
    eapply walking_perm in Hw; [|apply Permutation_app_tail, Hs]. rewrite <- app_assoc in Hw.
    destruct (popped_state _ _ _ _ Hq Hw Hp) as (Hq1 & Hw1 & Hp1).
    eapply post_then; [eapply handle_equal_spec; done|]. intros w' Hi' He. apply post_ret; [done|].
    exists rs', v2. split_and!; [done|rewrite length_app; lia|]. eapply entered_mono; [exact He|].
    unfold weight. rewrite length_app. cbn. lia.
  - assert (Hall : Forall (git_lt a) (b :: rs')) by (constructor; [exact Ek|by eapply git_lt_Forall]).
    destruct (split_first a vl (b :: rs') va prefix (v1 ++ v2) Hna ltac:(by constructor) Hall Hvl (dir_under _ _ _ _ Hd)) as [Hs _].
    eapply walking_perm in Hw; [|apply Permutation_app_tail, Hs]. rewrite <- app_assoc in Hw.
    destruct (popped_state _ _ _ _ Hq Hw Hp) as (Hq1 & Hw1 & Hp1).
    eapply post_then; [eapply delete_entry_spec; done|]. intros w' Hi' He. apply post_ret; [done|].
    exists (b :: rs'), (v1 ++ v2). split_and!; [done|lia|]. eapply entered_mono; [exact He|]. unfold weight. cbn. lia.
  - assert (Hba : git_lt b a) by (unfold git_lt, bytes_lt; rewrite bytes_cmp_antisym, Ek; done).
    assert (Hall : Forall (git_lt b) (a :: ls)) by (constructor; [done|by eapply git_lt_Forall]).
    destruct (split_first b v1 (a :: ls) v2 prefix (vl ++ va) Hnb ltac:(by constructor) Hall Hv1 Hul) as [_ Hs].
    eapply walking_perm in Hw; [|apply Permutation_app_tail, Hs]. rewrite <- app_assoc in Hw.
    destruct (popped_state _ _ _ _ Hq Hw Hp) as (Hq1 & Hw1 & Hp1).
    eapply post_then; [eapply add_entry_spec; done|]. intros w' Hi' (qs1 & Hq2 & Hw2 & Hp2 & Hn2).
    eapply wp_mono; [eapply (IH rs' v2 l a vl lhs ls va (qs ++ qs1)); done|].
    intros [items|e] w2 [Hi2 HQ]; (split; [done|]); [|done]. destruct HQ as (es & v' & Hd' & Hle & He').
    exists es, v'. split_and!; [done|rewrite length_app; lia|]. eapply entered_mono; [by apply entered_trans|].
    unfold weight in *. rewrite length_app. cbn in *. lia.
Qed.

(** Opening the next pair of trees. *)
Lemma next_trees_spec q qs rest w :
  I w.1.2 -> pending_ok q -> ws_path_deque w.2 = pq_path <$> q :: qs -> ws_trees w.2 = pq_ids <$> qs ->
  walking qs (listing_changes (files (pq_old q)) (files (pq_new q)) ++ rest) w.2 ->
  wp (next_trees head base max_object_bytes projected (pq_ids q))
    (post (fun x s => (exists ls, dir x.1 ls (pq_path q) (pq_old q)) /\ (exists rs, dir x.2 rs (pq_path q) (pq_new q)) /\
       queue_is qs s /\ ws_path s = pq_path q /\
       walking qs (listing_changes (files (pq_old q)) (files (pq_new q)) ++ rest) s)) w.
Proof.
  destruct q as [[l r] path old new]. cbn [pq_ids pq_path pq_old pq_new]. intros Hi [Hl Hr] Hd Ht Hw.
  unfold next_trees, pop_front_tracked_path_and_set_current. apply wp_on_walk.
  destruct w as [[b t] s]. cbn [fst snd] in *. rewrite Hd. cbn [fmap list_fmap pq_path].
  set (s1 := set_path path _). assert (Hw1 : walking qs (listing_changes (files old) (files new) ++ rest) s1)
    by (by eapply walking_same; [exact Hw|..]). assert (Hq1 : queue_is qs s1) by done. assert (Hp1 : ws_path s1 = path) by done.
  clearbody s1.
  assert (Hopen : forall id v w', lists id path v -> I w'.1.2 -> w'.2 = s1 ->
    wp (match id with Some id => find_tree_iter head base max_object_bytes projected id | None => sret [] end)
      (post (fun items s => (exists es, dir items es path v) /\ s = s1)) w').
  { intros [id|] v w' Hid Hi' Hs'.
    - destruct Hid as (oid & es & Hc & He & Hu). eapply find_tree_spec; [done..|]. intros items Hit.
      split; [|done]. exists es. split; [done|by eapply canonical|done].
    - cbn in Hid. subst v. apply post_ret; [done|]. split; [|done]. exists []. apply dir_nil. }
  eapply post_bind; [by apply (Hopen l old)|]. intros lhs w1 Hi1 [[ls Hls] Hs1].
  eapply post_bind; [by apply (Hopen r new)|]. intros rhs w2 Hi2 [[rs Hrs] Hs2].
  apply post_ret; [done|]. cbn [fst snd]. rewrite Hs2. split_and!; [by exists ls|by exists rs|done|done|done].
Qed.

(** One round of the loop, with a state at the directory [prefix] and a
    continuation that handles what [entered] leaves. *)
Lemma wp_if_pop {B} (pop : bool) (k : ST (Budget * T * WalkState) TreeError B) (Q : B -> WalkState -> Prop) w qs rest prefix :
  I w.1.2 -> (if pop then pop_element (ws_path w.2) else ws_path w.2) = prefix -> queue_is qs w.2 -> walking qs rest w.2 ->
  (forall w', I w'.1.2 -> ws_path w'.2 = prefix -> queue_is qs w'.2 -> walking qs rest w'.2 -> wp k (post Q) w') ->
  wp (sbind (if pop then pop_path_component else sret tt) (fun _ => k)) (post Q) w.
Proof.
  intros Hi Hp Hq Hw Hk. destruct pop; [|by apply Hk]. apply post_pop.
  destruct (popped_state _ _ _ _ Hq Hw Hp) as (? & ? & ?). by apply Hk.
Qed.

(** A round on two entries; [next] is the rest of the loop. *)
Lemma round_both l a r b lhs ls rhs rs v1 v2 w1 w2 qs prefix w (Q : unit -> WalkState -> Prop)
  (next : list (option EntryRef) -> list (option EntryRef) -> ST (Budget * T * WalkState) TreeError unit) :
  agrees l a -> agrees r b -> under head served [a] prefix v1 -> under head served [b] prefix w1 ->
  dir lhs ls prefix v2 -> dir rhs rs prefix w2 -> Forall (git_lt a) ls -> Forall (git_lt b) rs ->
  I w.1.2 -> ws_path w.2 = prefix -> queue_is qs w.2 ->
  walking qs (listing_changes (files (v1 ++ v2)) (files (w1 ++ w2)) ++ []) w.2 ->
  (forall lhs' rhs' ls' rs' va' vb' w' n, dir lhs' ls' prefix va' -> dir rhs' rs' prefix vb' -> I w'.1.2 ->
     entered qs (listing_changes (files va') (files vb') ++ []) prefix n w'.2 ->
     (n + weight va' vb' <= weight (v1 ++ v2) (w1 ++ w2))%nat -> wp (next lhs' rhs') (post Q) w') ->
  wp (match compare l r with
      | Eq => let! _ := handle_lhs_and_rhs_with_equal_filenames max_diff_files l r in next lhs rhs
      | Lt =>
          let! _ := delete_entry_schedule_recursion max_diff_files l in
          let! lhs := catchup_lhs max_diff_files lhs r in next lhs rhs
      | Gt =>
          let! _ := add_entry_schedule_recursion max_diff_files r in
          let! rhs := catchup_rhs max_diff_files l rhs in next lhs rhs
      end) (post Q) w.
Proof.
  intros Hl Hr Hv1 Hw1 Hd1 Hd2 Hlta Hltb Hi Hp Hq Hw Hnext.
  pose proof (ag_ok _ _ Hl) as Hna. pose proof (ag_ok _ _ Hr) as Hnb.
  pose proof (dir_names _ _ _ _ Hd1) as Hnls. pose proof (dir_names _ _ _ _ Hd2) as Hnrs.
  pose proof (dir_under _ _ _ _ Hd1) as Hu1. pose proof (dir_under _ _ _ _ Hd2) as Hu2.
  destruct (compare l r) eqn:Ec; pose proof Ec as Ek; rewrite (compare_keys _ _ _ _ Hl Hr) in Ek.
  - apply bytes_cmp_eq in Ek.
    pose proof (split_both a b v1 w1 ls rs v2 w2 prefix Hna Hnb Hnls Hnrs Ek Hlta Hltb Hv1 Hw1 Hu1 Hu2) as Hs.
    eapply walking_perm in Hw; [|apply Permutation_app_tail, Hs]. rewrite <- app_assoc in Hw.
    eapply post_then; [eapply handle_equal_spec; done|]. intros w' Hi' He.
    eapply Hnext; [exact Hd1|exact Hd2|done|exact He|]. rewrite weight_app. lia.
  - assert (Hall : Forall (git_lt a) (b :: rs)) by (constructor; [exact Ek|by eapply git_lt_Forall]).
    destruct (split_first a v1 (b :: rs) v2 prefix (w1 ++ w2) Hna ltac:(by constructor) Hall Hv1
                (under_append _ _ _ _ _ _ _ Hw1 Hu2)) as [Hs _].
    eapply walking_perm in Hw; [|apply Permutation_app_tail, Hs]. rewrite <- app_assoc in Hw.
    eapply post_then; [eapply delete_entry_spec; done|]. intros w' Hi' (qs1 & Hq1 & Hww1 & Hp1 & Hn1).
    eapply post_bind; [eapply (catchup_lhs_spec lhs ls v2 r b w1 rhs rs w2 (qs ++ qs1)); done|].
    intros lhs' w'' Hi2 (es & v' & Hd' & Hle & He).
    eapply Hnext; [exact Hd'|exact Hd2|done|exact (entered_trans _ _ _ _ _ _ He)|].
    destruct He as (? & ? & ? & ? & ?). unfold weight in *. rewrite !length_app. cbn in *. lia.
  - assert (Hba : git_lt b a) by (unfold git_lt, bytes_lt; rewrite bytes_cmp_antisym, Ek; done).
    assert (Hall : Forall (git_lt b) (a :: ls)) by (constructor; [done|by eapply git_lt_Forall]).
    destruct (split_first b w1 (a :: ls) w2 prefix (v1 ++ v2) Hnb ltac:(by constructor) Hall Hw1
                (under_append _ _ _ _ _ _ _ Hv1 Hu1)) as [_ Hs].
    eapply walking_perm in Hw; [|apply Permutation_app_tail, Hs]. rewrite <- app_assoc in Hw.
    eapply post_then; [eapply add_entry_spec; done|]. intros w' Hi' (qs1 & Hq1 & Hww1 & Hp1 & Hn1).
    eapply post_bind; [eapply (catchup_rhs_spec rhs rs w2 l a v1 lhs ls v2 (qs ++ qs1)); done|].
    intros rhs' w'' Hi2 (es & v' & Hd' & Hle & He).
    eapply Hnext; [exact Hd1|exact Hd'|done|exact (entered_trans _ _ _ _ _ _ He)|].
    destruct He as (? & ? & ? & ? & ?). unfold weight in *. rewrite !length_app. cbn in *. lia.
Qed.

Lemma diff_loop_spec fuel : forall lhs rhs ls rs va vb prefix pop qs w,
  dir lhs ls prefix va -> dir rhs rs prefix vb -> I w.1.2 ->
  (if pop : bool then pop_element (ws_path w.2) else ws_path w.2) = prefix ->
  queue_is qs w.2 -> walking qs (listing_changes (files va) (files vb)) w.2 ->
  (weight va vb + pending_weight qs < fuel)%nat ->
  wp (diff_loop head base max_diff_files max_object_bytes projected fuel lhs rhs pop) (post (fun _ s => walking [] [] s)) w.
Proof.
  induction fuel as [|fuel IH]; intros lhs rhs ls rs va vb prefix pop qs w Hda Hdb Hi Hp Hq Hw Hf; [lia|].
  cbn [diff_loop]. eapply wp_if_pop; [done..|]. clear w Hi Hp Hq Hw pop. intros w Hi Hp Hq Hw.
  rewrite <- (app_nil_r (listing_changes _ _)) in Hw.
  assert (Hnext : forall lhs' rhs' ls' rs' va' vb' w' n, dir lhs' ls' prefix va' -> dir rhs' rs' prefix vb' -> I w'.1.2 ->
    entered qs (listing_changes (files va') (files vb') ++ []) prefix n w'.2 -> (n + weight va' vb' <= weight va vb)%nat ->
    wp (diff_loop head base max_diff_files max_object_bytes projected fuel lhs' rhs' true) (post (fun _ s => walking [] [] s)) w').
  { intros lhs' rhs' ls' rs' va' vb' w' n H1 H2 Hi' (qs' & Hq' & Hw' & Hp' & Hn') Hle. rewrite app_nil_r in Hw'.
    eapply (IH _ _ ls' rs' va' vb' prefix true (qs ++ qs')); try done. rewrite pending_weight_app. lia. }
  destruct lhs as [|li lhs], rhs as [|ri rhs].
  - apply dir_nil_inv in Hda as [-> ->], Hdb as [-> ->]. apply wp_bind, wp_get. destruct w as [bt st]. cbn [fst snd] in *.
    destruct Hq as [Ht Hd]. rewrite Ht. destruct qs as [|q qs]; cbn [fmap list_fmap]; [by apply post_ret|].
    apply wp_on_walk. cbn [fst snd]. eapply post_bind; [eapply next_trees_spec|].
    + done.
    + by apply (Forall_inv (wk_queue _ _ _ Hw)).
    + exact Hd.
    + done.
    + destruct Hw as [Hqs Hall Hlen Hcl]. split; [by apply Forall_inv_tail in Hqs| |done|done].
      rewrite <- Hall. apply Permutation_app_head. cbn [pending_changes fmap list_fmap mjoin list_join].
      rewrite !app_nil_r. apply Permutation_app_comm.
    + intros [lhs rhs] w' Hi' ([ls' Hls] & [rs' Hrs] & Hq' & Hp' & Hw'). cbn [fst snd] in *. rewrite app_nil_r in Hw'.
      eapply (IH _ _ ls' rs' (pq_old q) (pq_new q) (pq_path q) false qs); try done.
      unfold pending_weight in *. cbn -[weight] in Hf. unfold weight in *. cbn in *. lia.
  - apply dir_nil_inv in Hda as [-> ->].
    destruct (dir_cons _ _ _ _ _ Hdb) as (r & b & rs' & v1 & v2 & -> & -> & Hr & -> & Hv1 & Hd2 & Hlt & Hn).
    apply wp_bind, wp_lift. cbn [ok_or].
    destruct (split_first b v1 [] v2 prefix [] Hn ltac:(done) ltac:(done) Hv1 (under_nil _ _ _)) as [_ Hs].
    eapply walking_perm in Hw; [|apply Permutation_app_tail, Hs]. rewrite <- app_assoc in Hw.
    eapply post_then; [eapply add_entry_spec; done|]. intros w' Hi' He.
    eapply (Hnext [] rhs [] rs' [] v2); [apply dir_nil|done|done|exact He|]. unfold weight. rewrite length_app. cbn. lia.
  - apply dir_nil_inv in Hdb as [-> ->].
    destruct (dir_cons _ _ _ _ _ Hda) as (l & a & ls' & v1 & v2 & -> & -> & Hl & -> & Hv1 & Hd2 & Hlt & Hn).
    apply wp_bind, wp_lift. cbn [ok_or].
    destruct (split_first a v1 [] v2 prefix [] Hn ltac:(done) ltac:(done) Hv1 (under_nil _ _ _)) as [Hs _].
    eapply walking_perm in Hw; [|apply Permutation_app_tail, Hs]. rewrite <- app_assoc in Hw.
    eapply post_then; [eapply delete_entry_spec; done|]. intros w' Hi' He.
    eapply (Hnext lhs [] ls' [] v2 []); [done|apply dir_nil|done|exact He|]. unfold weight. rewrite length_app. cbn. lia.
  - destruct (dir_cons _ _ _ _ _ Hda) as (l & a & ls' & v1 & v2 & -> & -> & Hl & -> & Hv1 & Hd1 & Hlta & Hna).
    destruct (dir_cons _ _ _ _ _ Hdb) as (r & b & rs' & w1 & w2 & -> & -> & Hr & -> & Hv2 & Hd2 & Hltb & Hnb).
    do 2 (apply wp_bind, wp_lift; cbn [ok_or]).
    apply (round_both l a r b lhs ls' rhs rs' v1 v2 w1 w2 qs prefix w _
             (fun x y => diff_loop head base max_diff_files max_object_bytes projected fuel x y true)); done.
Qed.

End WalkSpec.
