(* ===== verification/Projection.v ===== *)
(** * Projected trees ([diff.rs], [project_tree])

    What a walk over the union of two stores keeps whatever it meets, and what
    [project_tree] computes: the payload of a tree that holds exactly the
    selected files of a tree, with the projected subtrees it refers to. The
    engine reads these payloads back, so the tree format it documents is the
    class [TreeFormat]. *)

From Stdlib Require Import NArith ZArith Lia Strings.Byte Strings.String.
From stdpp Require Import prelude gmap strings list sorting.
From S2P Require Import Prelude Errors Objects Budget Odb Decode Snapshot Pathspec Tree File Hunks TreeDiff.

Open Scope N_scope.

Section Keeps.
Context `{Env, GixObject, GixGlob, Digests} {T : Type}.
Context (base_store head_store : ObjectDb T) (cb ch : Oid -> ObjectReadResult) (I : T -> Prop) (F : ErrorCode -> Prop).
Context `{!LawfulDb base_store cb I F, !LawfulDb head_store ch I F}.

(** ** The store through any walk *)

(** Whatever the trees, the pathspecs and the rename tracker do, the store
    stays usable. *)
Definition keeps {A} (m : DM T A) : Prop := hoare (on_store I) (fun _ => True) m (fun _ => True).
Definition walk_keeps {A} (m : ST (Budget * T * WalkState) TreeError A) : Prop :=
  hoare (fun w => I w.1.2) (fun _ => True) m (fun _ => True).

Lemma walk_recorded {A} (m : DM T A) : keeps m -> walk_keeps (recorded m).
Proof.
  intros Hm [w s] Hi. unfold recorded. specialize (Hm w Hi). by destruct (m w) as [[a|e] w'].
Qed.
Lemma walk_on_walk f : walk_keeps (on_walk f).
Proof. by intros [w s] Hi. Qed.
Lemma walk_visit max change : walk_keeps (visit max change).
Proof.
  intros [[b t] s] Hi. unfold visit, sbind, sget, emit_change, for_each.
  destruct (check b) as [[?|e] b']; [|done]. destruct (normalize_change _) as [[c|]|e]; [|done..]. by destruct (_ =? _).
Qed.
Lemma lift_keeps {W E A} (J : W -> Prop) (r : result E A) : hoare J (fun _ => True) (slift r) (fun _ => True).
Proof. apply hoare_lift. by destruct r. Qed.
Lemma union_keeps oid : keeps (union_try_find head_store base_store oid).
Proof. eapply hoare_conseq; [apply (union_find_spec head_store base_store ch cb I F)|done|done]. Qed.

Ltac keep_with tac :=
  repeat first
    [ tac | apply walk_on_walk | apply walk_visit | apply walk_recorded, union_keeps | apply union_keeps
    | by apply hoare_ret | by apply hoare_throw | by apply hoare_check
    | apply walk_recorded, lift_keeps | apply lift_keeps
    | apply (hoare_bind _ _ _ _ (fun _ => True)); [|intros ? _]
    | progress case_match ].
Ltac keep := keep_with fail.

Lemma adapter_keeps max projected id : walk_keeps (adapter_try_find head_store base_store max projected id).
Proof. unfold adapter_try_find. keep. Qed.
Lemma open_keeps max projected next : walk_keeps (next_trees head_store base_store max projected next).
Proof. unfold next_trees, find_tree_iter, pop_front_tracked_path_and_set_current. keep_with ltac:(apply adapter_keeps). Qed.
Lemma delete_keeps max e : walk_keeps (delete_entry_schedule_recursion max e).
Proof. unfold delete_entry_schedule_recursion, push_path_component, pop_path_component, push_back_tracked_path_component, queue. keep. Qed.
Lemma add_keeps max e : walk_keeps (add_entry_schedule_recursion max e).
Proof. unfold add_entry_schedule_recursion, push_path_component, pop_path_component, push_back_tracked_path_component, queue. keep. Qed.
Lemma equal_keeps max l r : walk_keeps (handle_lhs_and_rhs_with_equal_filenames max l r).
Proof. unfold handle_lhs_and_rhs_with_equal_filenames, push_path_component, push_back_tracked_path_component, queue. keep. Qed.
Ltac keep_entry := first [apply delete_keeps | apply add_keeps | apply equal_keeps].
Lemma catchup_lhs_keeps max lhs : forall r, walk_keeps (catchup_lhs max lhs r).
Proof.
  induction lhs as [|item lhs IH]; intros r; cbn [catchup_lhs]; unfold pop_path_component;
    keep_with ltac:(first [apply IH | keep_entry]).
Qed.
Lemma catchup_rhs_keeps max rhs : forall l, walk_keeps (catchup_rhs max l rhs).
Proof.
  induction rhs as [|item rhs IH]; intros l; cbn [catchup_rhs]; unfold pop_path_component;
    keep_with ltac:(first [apply IH | keep_entry]).
Qed.
Lemma get_keeps {A} (f : Budget * T * WalkState -> A) : walk_keeps (sget f).
Proof. by intros w Hi. Qed.
Lemma diff_loop_keeps max max_bytes projected fuel : forall lhs rhs pop,
  walk_keeps (diff_loop head_store base_store max max_bytes projected fuel lhs rhs pop).
Proof.
  induction fuel as [|fuel IH]; intros lhs rhs pop; cbn [diff_loop]; unfold pop_path_component, decoded;
    keep_with ltac:(first [apply IH | keep_entry | apply catchup_lhs_keeps | apply catchup_rhs_keeps | apply open_keeps | apply get_keeps]).
Qed.

Lemma read_tree_keeps oid : keeps (read_required_tree head_store base_store oid).
Proof. unfold read_required_tree. keep. Qed.
Lemma project_entries_keeps matcher project oid prefix items : forall output s,
  (forall o p s, keeps (project o p s)) -> keeps (project_entries matcher project oid prefix items output s).
Proof.
  induction items as [|item items IH]; intros output s Hp; cbn [project_entries];
    keep_with ltac:(first [apply IH; exact Hp | apply Hp]).
Qed.
Lemma project_tree_keeps matcher fuel : forall oid prefix s,
  keeps (project_tree head_store base_store matcher fuel oid prefix s).
Proof.
  induction fuel as [|fuel IH]; intros oid prefix s; cbn [project_tree];
    keep_with ltac:(first [apply read_tree_keeps | apply project_entries_keeps; exact IH]).
Qed.

End Keeps.

(** ** The tree format *)

(** What the engine documents of [TreeRefIter]: an entry is its octal mode, a
    blank, its name, a zero byte and its raw id; a mode is a u16 and an id of the
    hash the iterator was made for. *)
Class TreeFormat (gix : GixObject) : Prop := {
  tree_end : forall k, gix_tree_next k [] = None;
  tree_entry_type : forall k d e d', gix_tree_next k d = Some (Some e, d') -> er_mode e < 65536 /\ er_oid_kind e = k;
  tree_entry_format : forall k mode name id rest,
    0 < mode < 65536 -> name <> [] -> Forall (fun b => beq x00 b = false) name -> length id = digest_len k ->
    gix_tree_next k (bs (octal_digits 11 mode EmptyString) ++ [x20] ++ name ++ [x00] ++ id ++ rest)
    = Some (Some (mkEntryRef mode name k id), rest)
}.

(** An entry that can be written and read back. *)
Record writable (hk : HashKind) (e : OwnedTreeEntry) : Prop := mkWritable {
  wr_mode : oe_mode e < 65536;
  wr_kind : kind_from_mode (oe_mode e) = Ok (oe_kind e);
  wr_name : validate_tree_name (oe_name e) = Ok tt;
  wr_oid : Oid_wf (oe_oid e) /\ oid_kind (oe_oid e) = hk
}.
Definition payload_of (es : list OwnedTreeEntry) : bytes :=
  mjoin ((fun e => write_entry (oe_mode e) (oe_name e) (oe_oid e)) <$> es).

Arguments payload_of : simpl never.

Lemma payload_of_app es es' : payload_of (es ++ es') = payload_of es ++ payload_of es'.
Proof. unfold payload_of. by rewrite fmap_app, join_app. Qed.

Lemma payload_of_length es : (length es <= length (payload_of es))%nat.
Proof.
  induction es as [|e es IH]; [cbn; lia|].
  change (payload_of (e :: es)) with (write_entry (oe_mode e) (oe_name e) (oe_oid e) ++ payload_of es).
  unfold write_entry. rewrite !length_app. cbn [length]. lia.
Qed.

(** The octal rendering of a mode. *)
Definition mode_text (mode : N) : bytes := bs (octal_digits 11 mode EmptyString).

Lemma octal_digit_byte n acc :
  exists d, bs (String (Ascii.ascii_of_N (48 + n mod 8)) acc) = d :: bs acc /\ byteN d = 48 + n mod 8.
Proof.
  assert (Hn : n mod 8 < 8) by (apply N.mod_lt; done). revert Hn. generalize (n mod 8). intros m Hm.
  destruct (decide (m ∈ [0; 1; 2; 3; 4; 5; 6; 7])) as [Hin|Hout].
  - repeat (apply elem_of_cons in Hin as [->|Hin]; [by eexists|]). by apply not_elem_of_nil in Hin.
  - destruct Hout. destruct m as [|p]; [set_solver|]. do 3 (destruct p as [p|p|]; try set_solver; try lia).
Qed.
Lemma octal_digits_spec fuel : forall n acc k,
  n < 8 ^ N.of_nat k -> (0 < k <= fuel)%nat ->
  exists ds, bs (octal_digits fuel n acc) = ds ++ bs acc /\ (0 < length ds <= k)%nat /\
    Forall (fun b => 48 <= byteN b <= 55) ds /\ forall a, octal a ds = a * 8 ^ lenN ds + n.
Proof.
  induction fuel as [|fuel IH]; intros n acc k Hn Hk; [lia|]. cbn [octal_digits].
  destruct (octal_digit_byte n acc) as (d & Hd & Hb). pose proof (N.mod_lt n 8 ltac:(done)) as Hmod.
  pose proof (N.div_mod' n 8) as Hdm. destruct (N.ltb_spec n 8) as [Hlt|Hge].
  - exists [d]. rewrite Hd. rewrite N.mod_small in Hb by done. split_and!; [done|cbn; lia|cbn; lia| |].
    + constructor; [lia|constructor].
    + intros a. cbn. rewrite Hb. change (8 ^ lenN [d]) with 8. lia.
  - destruct k as [|[|k]]; [lia|cbn in Hn; lia|].
    destruct (IH (n / 8) (String (Ascii.ascii_of_N (48 + n mod 8)) acc) (S k)) as (ds & Hds & Hlen & Hall & Hval).
    + apply N.Div0.div_lt_upper_bound. rewrite <- N.pow_succ_r'. by rewrite <- Nat2N.inj_succ.
    + lia.
    + exists (ds ++ [d]). rewrite Hds, Hd, <- app_assoc. split_and!; [done|rewrite length_app; cbn; lia..| |].
      * apply Forall_app. split; [done|]. constructor; [rewrite Hb; revert Hmod; generalize (n mod 8); lia|constructor].
      * intros a. assert (Happ : forall l b, octal b (l ++ [d]) = 8 * octal b l + (byteN d - 48)).
        { induction l as [|x l IHl]; intros b; cbn; [done|apply IHl]. }
        rewrite Happ, Hval, Hb, lenN_app. change (lenN [d]) with 1. rewrite N.pow_add_r, N.pow_1_r.
        clear -Hdm. revert Hdm. generalize (n / 8) (n mod 8) (8 ^ lenN ds). intros q r p ->. lia.
Qed.
Lemma mode_text_spec mode :
  0 < mode < 65536 ->
  (0 < length (mode_text mode) <= 6)%nat /\ Forall (fun b => 48 <= byteN b <= 55) (mode_text mode) /\
  octal 0 (mode_text mode) = mode.
Proof.
  intros Hm. destruct (octal_digits_spec 11 mode EmptyString 6) as (ds & Hds & Hlen & Hall & Hval); [cbn; lia|lia|].
  unfold mode_text. rewrite Hds, app_nil_r. split_and!; [lia|lia|done|]. rewrite Hval. lia.
Qed.

Lemma valid_mode_written mode rest : 0 < mode < 65536 -> valid_mode (mode_text mode ++ x20 :: rest) = true.
Proof.
  intros Hm. destruct (mode_text_spec mode Hm) as ([Hpos Hlen] & Hall & Hval). unfold valid_mode.
  rewrite position_app_l; [|eapply Forall_impl; [exact Hall|]; intros b Hb; apply beq_false; intros <-; change (byteN x20) with 32 in Hb; lia|apply beq_refl].
  rewrite take_app_length, (proj2 (Nat.leb_le _ _) Hlen), bool_decide_false by (intros E; rewrite E in Hpos; cbn in Hpos; lia). cbn [negb andb].
  destruct (existsb _ _) eqn:E; [done|]. exfalso.
  assert (Hz : forall l, existsb (fun b => negb (beq b x30)) l = false -> octal 0 l = 0).
  { induction l as [|b l IH]; [done|]. cbn. intros [Hb Hl]%orb_false_iff. apply negb_false_iff, beq_true in Hb as ->. by apply IH. }
  rewrite (Hz _ E) in Hval. lia.
Qed.

Section Format.
Context `{GixObject} `{!TreeFormat _}.

Lemma writable_mode hk e : writable hk e -> 0 < oe_mode e < 65536.
Proof. intros [Hm Hk _ _]. split; [|done]. destruct (oe_mode e); [done|lia]. Qed.
Lemma writable_name hk e : writable hk e -> oe_name e <> [] /\ Forall (fun b => beq x00 b = false) (oe_name e).
Proof.
  intros [_ _ Hn _]. unfold validate_tree_name in Hn. destruct (_ || _) eqn:E; [done|].
  repeat (apply orb_false_iff in E as [E ?]). split; [by apply bool_decide_eq_false in E|].
  apply Forall_forall. intros b Hb. destruct (beq x00 b) eqn:Eb; [|done].
  assert (Hx : existsb (beq x00) (oe_name e) = true) by (apply existsb_exists; exists b; split; [by apply list_elem_of_In|done]).
  congruence.
Qed.

(** Written entries are read back. *)
Lemma written_next hk e rest :
  writable hk e -> gix_tree_next hk (write_entry (oe_mode e) (oe_name e) (oe_oid e) ++ rest) =
    Some (Some (mkEntryRef (oe_mode e) (oe_name e) hk (as_bytes (oe_oid e))), rest) /\
  valid_mode (write_entry (oe_mode e) (oe_name e) (oe_oid e) ++ rest) = true.
Proof.
  intros He. destruct (writable_name _ _ He) as [Hne H0]. destruct (wr_oid _ _ He) as [[_ Hlen] Hk]. unfold write_entry.
  rewrite <- !app_assoc. split; [apply tree_entry_format; [by eapply writable_mode|done|done|congruence]|].
  apply valid_mode_written. by eapply writable_mode.
Qed.
Lemma decode_written hk es :
  Forall (writable hk) es -> decode_owned_tree_entries (payload_of es) hk = Ok es.
Proof.
  intros Hes. apply map_res_Ok. unfold decode_tree.
  cut (forall n, (length es < n)%nat -> Forall2 (fun item o => owned_entry item = Ok o) (tree_items n hk (mkTreeIter (payload_of es) false)) es).
  { intros Hcut. apply Hcut. pose proof (payload_of_length es). lia. }
  induction Hes as [|e es He Hes IH]; intros n Hn; (destruct n as [|n]; [cbn in Hn; lia|]).
  - cbn. unfold tree_iter_next. cbn. rewrite tree_end. constructor.
  - destruct (written_next hk e (payload_of es) He) as [Hnext Hmode]. destruct He as [Hm Hkind Hname [Hwf Hk]].
    cbn [tree_items]. unfold tree_iter_next. cbn [ti_failed ti_remaining].
    change (payload_of (e :: es)) with (write_entry (oe_mode e) (oe_name e) (oe_oid e) ++ payload_of es).
    rewrite Hmode, andb_false_r, Hnext. cbn [er_mode er_filename er_oid_kind er_oid]. constructor.
    + rewrite <- Hk, (Oid_new_as_bytes _ Hwf). unfold owned_entry. cbn. rewrite Hname. cbn. rewrite Hkind. cbn. by destruct e.
    + apply IH. cbn in Hn. lia.
Qed.

(** Entries that were read can be written. *)
Lemma read_writable hk n : forall payload es,
  Forall2 (fun item o => owned_entry item = Ok o) (tree_items n hk (mkTreeIter payload false)) es -> Forall (writable hk) es.
Proof.
  induction n as [|n IH]; intros payload es Hes; cbn [tree_items] in Hes; [by inversion Hes|].
  unfold tree_iter_next in Hes. cbn [ti_failed ti_remaining] in Hes. destruct (_ && _).
  { inversion Hes as [|? ? ? ? Ho]; subst. done. }
  destruct (gix_tree_next hk payload) as [[[e|] rest]|] eqn:E; [|by inversion Hes as [|? ? ? ? Ho]|by inversion Hes].
  inversion Hes as [|? o ? es' Ho Hes']; subst. constructor; [|by eapply IH].
  destruct (tree_entry_type _ _ _ _ E) as [Hm Hk]. unfold owned_entry in Ho.
  apply rbind_Ok in Ho as (te & Hte & Ho). apply rbind_Ok in Hte as (oid & Hid & [= <-]).
  apply rbind_Ok in Ho as ([] & Hn & Ho). apply rbind_Ok in Ho as (k & Hkind & [= <-]). cbn in *.
  split; cbn; try done. destruct (Oid_new _ _) as [oid'|] eqn:Eo; [|done]. simplify_eq/=.
  split; [by eapply Oid_new_wf|by apply as_bytes_new in Eo as [_ ?]].
Qed.

End Format.

(** ** What a projection holds *)

Lemma sorted_keys es : StronglySorted git_lt es <-> StronglySorted bytes_lt (git_key <$> es).
Proof.
  induction es as [|e es IH]; [split; constructor|]. cbn. split; intros [Hs Hf]%StronglySorted_inv; constructor.
  - by apply IH.
  - rewrite Forall_fmap. exact Hf.
  - by apply IH.
  - rewrite Forall_fmap in Hf. exact Hf.
Qed.
Lemma sublist_keys es es' :
  sublist (git_key <$> es') (git_key <$> es) -> StronglySorted git_lt es -> StronglySorted git_lt es'.
Proof.
  rewrite !sorted_keys. generalize (git_key <$> es') (git_key <$> es). induction 1 as [|x l k Hl IH|x l k Hl IH].
  - done.
  - intros [Hs Hf]%StronglySorted_inv. constructor; [by apply IH|]. rewrite Forall_forall in Hf |- *.
    intros y Hy. apply Hf. by eapply elem_of_sublist.
  - intros [Hs _]%StronglySorted_inv. by apply IH.
Qed.

Section Project.
Context `{Env, GixObject, GixGlob, Digests} `{!TreeFormat _} {T : Type}.
Context (base_store head_store : ObjectDb T) (cb ch : Oid -> ObjectReadResult) (I : T -> Prop) (F : ErrorCode -> Prop).
Context `{!LawfulDb base_store cb I F, !LawfulDb head_store ch I F}.
Hypothesis F_stop : forall e, budget_stop e -> F (code e).
Context (matcher : PathspecMatcher).

Let union := union_contents ch cb.
Let hk := hash_kind head_store.
Hypothesis own_kind : forall oid object, union oid = Some object -> oid_kind oid = hk.
Hypothesis canonical : trees_canonical head_store union.
Hypothesis conservative : forall path dir,
  matcher_matches matcher path = true -> inside path dir -> may_match_descendant matcher dir = true.

(** The selected part of a listing. *)
Definition wanted (v : bytes * OwnedTreeEntry) : Prop := matcher_matches matcher v.1 = true.
#[global] Instance wanted_dec v : Decision (wanted v).
Proof. unfold wanted. apply _. Defined.

(** The projected trees as a store of their own. *)
Definition only (m : gmap Oid bytes) (oid : Oid) : ObjectReadResult := pair Tree <$> m !! oid.

(** The entries [es'] of a projection of a directory with the entries [es],
    which holds [vs]. *)
Definition projects (m : gmap Oid bytes) (es : list OwnedTreeEntry) (prefix : bytes) (vs : Listing)
  (es' : list OwnedTreeEntry) : Prop :=
  Forall (writable hk) es' /\ sublist (git_key <$> es') (git_key <$> es) /\
  exists vs', under head_store (only m) es' prefix vs' /\ files vs' = filter wanted (files vs) /\
    (length vs' <= length vs)%nat.

(** Two trees with one id. *)
Definition tree_collision : Prop :=
  exists a b oid, a <> b /\ object_id hk Tree a = Ok oid /\ object_id hk Tree b = Ok oid.

Record sound (s : Projection) : Prop := mkSound {
  so_projected : forall oid t, pj_projected s !! oid = Some t ->
    object_id hk Tree t = Ok oid /\
    exists es', t = payload_of es' /\ Forall (writable hk) es' /\ StronglySorted git_lt es';
  so_cache : forall oid prefix t es vs, pj_cache s !! (oid, prefix) = Some t ->
    tree_of head_store union oid = Ok es -> under head_store union es prefix vs ->
    exists es', t = payload_of es' /\ projects (pj_projected s) es prefix vs es'
}.

Lemma under_only m m' es prefix vs :
  m ⊆ m' -> under head_store (only m) es prefix vs -> under head_store (only m') es prefix vs.
Proof.
  intros Hm. induction 1 as [|e es prefix vs Hk _ IH|e es prefix children vs1 vs2 Hk Ht _ IH1 _ IH2]; [constructor|by constructor|].
  eapply under_tree; try done. rewrite <- Ht. unfold tree_of, only in *. destruct (m !! oe_oid e) as [t|] eqn:E; [|done].
  by rewrite (lookup_weaken _ _ _ _ E Hm).
Qed.
Lemma projects_mono m m' es prefix vs es' : m ⊆ m' -> projects m es prefix vs es' -> projects m' es prefix vs es'.
Proof. intros Hm (Hw & Hs & vs' & Hu & Hf). split_and!; [done|done|]. exists vs'. split; [by eapply under_only|done]. Qed.
Lemma sound_grow s m :
  sound s -> pj_projected s ⊆ m ->
  (forall oid t, m !! oid = Some t -> object_id hk Tree t = Ok oid /\
    exists es', t = payload_of es' /\ Forall (writable hk) es' /\ StronglySorted git_lt es') ->
  sound (mkProjection (pj_cache s) m).
Proof.
  intros [_ Hc] Hm Hp. split; [exact Hp|]. intros oid prefix t es vs Ht He Hu. cbn in *.
  destruct (Hc _ _ _ _ _ Ht He Hu) as (es' & -> & Hes'). exists es'. split; [done|]. by eapply projects_mono.
Qed.

(** The entries of the directory one by one. *)
Lemma projects_nil m prefix : projects m [] prefix [] [].
Proof. split_and!; [done|done|]. exists []. split_and!; [constructor|done|cbn; lia]. Qed.
Lemma projects_skip m e es prefix v1 v2 es' :
  filter wanted (files v1) = [] -> projects m es prefix v2 es' -> projects m (e :: es) prefix (v1 ++ v2) es'.
Proof.
  intros Hv (Hw & Hs & vs' & Hu & Hf & Hl). split_and!; [done|by apply sublist_cons|]. exists vs'.
  rewrite files_app, filter_app, Hv, length_app. split_and!; [done|done|lia].
Qed.
Lemma projects_keep m e es prefix v1 v2 e' es' w1 :
  writable hk e' -> git_key e' = git_key e -> under head_store (only m) [e'] prefix w1 ->
  files w1 = filter wanted (files v1) -> (length w1 <= length v1)%nat -> projects m es prefix v2 es' ->
  projects m (e :: es) prefix (v1 ++ v2) (e' :: es').
Proof.
  intros He Hkey Hu1 Hf1 Hl1 (Hw & Hs & vs' & Hu & Hf & Hl). split_and!; [by constructor|cbn; rewrite Hkey; by apply sublist_skip|].
  exists (w1 ++ vs'). rewrite !files_app, filter_app, Hf1, Hf, !length_app. split_and!; [by apply under_append|done|lia].
Qed.

(** The files of a directory lie inside it. *)
Lemma under_inside es dir vs v :
  under head_store union es dir vs -> Forall name_ok es -> dir <> [] -> v ∈ files vs -> inside v.1 dir.
Proof.
  intros Hu Hn Hd [Hk Hv]%list_elem_of_filter. destruct (under_origin _ _ _ _ _ _ Hu Hn Hv Hk) as (e & rest & _ & -> & _).
  unfold dir_prefix. rewrite bool_decide_false by done. exists (git_key e ++ rest). by rewrite <- app_assoc.
Qed.
Lemma pruned es dir vs :
  under head_store union es dir vs -> Forall name_ok es -> dir <> [] -> may_match_descendant matcher dir = false ->
  filter wanted (files vs) = [].
Proof.
  intros Hu Hn Hd Hm. apply filter_none. intros v Hv Hw. pose proof (under_inside _ _ _ _ Hu Hn Hd Hv) as Hi.
  by rewrite (conservative _ _ Hw Hi) in Hm.
Qed.

(** The failures of a projection: the store's and the budget's, a digest that
    refuses its input, or anything once two trees have one id. *)
Definition projection_failure (e : Error) : Prop := F (code e) \/ code e = HashMismatch \/ tree_collision.

Lemma by_collision {A} (m : DM T A) (P : A -> Prop) :
  tree_collision -> keeps I m -> hoare (on_store I) projection_failure m (fun a => tree_collision \/ P a).
Proof. intros Hc Hm. eapply hoare_conseq; [exact Hm|by intros e _; right; right|by intros a _; left]. Qed.

Lemma object_id_typed k p oid : object_id hk k p = Ok oid -> Oid_wf oid /\ oid_kind oid = hk.
Proof. intros (_ & ? & ?)%object_id_Ok. done. Qed.
Lemma object_id_Err k p e : object_id hk k p = Err e -> code e = HashMismatch.
Proof.
  unfold object_id, ContentHasher_new. destruct hk; cbn; [destruct (sha1 _) as [d|] eqn:E; [|by intros [= <-]]|]; unfold Oid_new.
  - rewrite (sha1_len _ _ E). done.
  - rewrite sha256_len. done.
Qed.

(** Recording a projected child. *)
Lemma keep_sound s oid es' :
  sound s -> object_id hk Tree (payload_of es') = Ok oid -> Forall (writable hk) es' -> StronglySorted git_lt es' ->
  tree_collision \/
  sound (keep_projected oid (payload_of es') s) /\ pj_projected s ⊆ pj_projected (keep_projected oid (payload_of es') s) /\
  pj_projected (keep_projected oid (payload_of es') s) !! oid = Some (payload_of es').
Proof.
  intros Hs Hid Hw Hsort. unfold keep_projected. destruct (pj_projected s !! oid) as [t|] eqn:E.
  - destruct (decide (t = payload_of es')) as [->|Hne]; [right; by destruct s|left].
    exists t, (payload_of es'), oid. split; [done|]. split; [by eapply so_projected|done].
  - right. cbn. split_and!; [|by apply insert_subseteq|by rewrite lookup_insert_eq].
    apply sound_grow; [done|by apply insert_subseteq|]. intros oid' t. destruct (decide (oid' = oid)) as [->|Hne].
    + rewrite lookup_insert_eq. intros [= <-]. split; [done|]. by exists es'.
    + rewrite lookup_insert_ne by done. by apply Hs.
Qed.

(** What projecting one tree or the entries of one directory yields. *)
Definition projected (s : Projection) (dn es : list OwnedTreeEntry) (prefix : bytes) (vs : Listing) (r : bytes * Projection) : Prop :=
  sound r.2 /\ pj_projected s ⊆ pj_projected r.2 /\
  exists es', r.1 = payload_of (dn ++ es') /\ projects (pj_projected r.2) es prefix vs es'.

Section Entries.
Context (fuel : nat) (oid : Oid) (prefix : bytes).
Hypothesis oid_hk : oid_kind oid = hk.
Hypothesis project_child : forall child path s es vs,
  sound s -> tree_of head_store union child = Ok es -> under head_store union es path vs -> (length vs < fuel)%nat ->
  hoare (on_store I) projection_failure (project_tree head_store base_store matcher fuel child path s)
    (fun r => tree_collision \/ projected s [] es path vs r).

Abbreviation entries items := (project_entries matcher (project_tree head_store base_store matcher fuel) oid prefix items).

Lemma entries_keeps items output s : keeps I (entries items output s).
Proof. apply project_entries_keeps. intros. by apply (project_tree_keeps base_store head_store cb ch I F). Qed.

(** The projection of a child, and its entry in the projected directory. *)
Lemma child_entry m e v1 c' :
  writable hk e -> oe_kind e = KTree -> forall es v1' child_oid, under head_store union es (join_path prefix (oe_name e)) v1' ->
  length v1 = S (length v1') -> files v1 = files v1' ->
  object_id hk Tree (payload_of c') = Ok child_oid -> m !! child_oid = Some (payload_of c') ->
  projects m es (join_path prefix (oe_name e)) v1' c' ->
  let e' := mkOwned (oe_mode e) (oe_name e) child_oid KTree in
  writable hk e' /\ git_key e' = git_key e /\
  exists w1, under head_store (only m) [e'] prefix w1 /\ files w1 = filter wanted (files v1) /\ (length w1 <= length v1)%nat.
Proof.
  intros He Hk es v1' child_oid Hu Hl Hf Hid Hm (Hw & _ & vs' & Hu' & Hf' & Hl') e'.
  destruct He as [Hmode Hkind Hname _]. rewrite Hk in Hkind. split_and!.
  - split; try done. by apply object_id_typed in Hid as [? ?].
  - unfold git_key. by rewrite Hk.
  - exists ((join_path prefix (oe_name e), e') :: vs' ++ []). rewrite app_nil_r. split_and!.
    + rewrite <- (app_nil_r vs'). apply (under_tree _ _ e' [] prefix c'); [done| |exact Hu'|constructor].
      unfold tree_of, only. cbn. rewrite Hm. cbn. by apply decode_written.
    + rewrite Hf, <- Hf'. unfold files. rewrite filter_cons, decide_False; [done|]. cbn. by intros ?.
    + rewrite Hl. cbn. lia.
Qed.

Definition entries_post (s : Projection) (dn es : list OwnedTreeEntry) (vs : Listing) (r : bytes * Projection) : Prop :=
  tree_collision \/ projected s dn es prefix vs r.

Lemma post_skip s dn e es v1 v2 r :
  filter wanted (files v1) = [] -> entries_post s dn es v2 r -> entries_post s dn (e :: es) (v1 ++ v2) r.
Proof.
  intros Hv [Hc|(Hs & Hm & es' & Hr & Hp)]; [by left|right]. split_and!; [done|done|]. exists es'. split; [done|].
  by apply projects_skip.
Qed.
Lemma post_keep s s' dn e e' es v1 v2 r :
  pj_projected s ⊆ pj_projected s' -> writable hk e' -> git_key e' = git_key e ->
  (exists w1, under head_store (only (pj_projected s')) [e'] prefix w1 /\ files w1 = filter wanted (files v1) /\
    (length w1 <= length v1)%nat) ->
  entries_post s' (dn ++ [e']) es v2 r -> entries_post s dn (e :: es) (v1 ++ v2) r.
Proof.
  intros Hm Hw Hkey (w1 & Hu & Hf & Hl) [Hc|(Hs & Hm' & es' & Hr & Hp)]; [by left|right].
  split_and!; [done|by etrans|]. exists (e' :: es'). rewrite <- app_assoc in Hr. split; [done|].
  eapply projects_keep; try done. by eapply under_only.
Qed.

(** One entry, before the rest of the directory, which holds [v2]. *)
Section Entry.
Context (items : list (Res TreeEntry)) (es : list OwnedTreeEntry) (v2 : Listing).
Hypothesis rest_spec : forall dn s, sound s ->
  hoare (on_store I) projection_failure (entries items (payload_of dn) s) (entries_post s dn es v2).
Context (e : OwnedTreeEntry) (v1 : Listing).
Hypothesis e_writable : writable hk e.
Hypothesis e_under : under head_store union [e] prefix v1.
Let path := join_path prefix (oe_name e).

Lemma payload_snoc dn x : payload_of dn ++ write_entry (oe_mode x) (oe_name x) (oe_oid x) = payload_of (dn ++ [x]).
Proof. rewrite payload_of_app. unfold payload_of at 3. cbn. by rewrite app_nil_r. Qed.

Lemma leaf_spec dn s :
  oe_kind e <> KTree -> sound s ->
  hoare (on_store I) projection_failure
    (if negb (matcher_matches matcher path) then entries items (payload_of dn) s
     else entries items (payload_of dn ++ write_entry (oe_mode e) (oe_name e) (oe_oid e)) s)
    (entries_post s dn (e :: es) (v1 ++ v2)).
Proof.
  intros Hk Hs. destruct (under_leaf_files _ _ _ _ _ e_under Hk) as [Ev Hf]. fold path in Ev.
  destruct (matcher_matches matcher path) eqn:Em; cbn [negb].
  - rewrite payload_snoc. eapply hoare_post; [by apply rest_spec|]. intros r Hr. eapply post_keep; try done.
    exists v1. split_and!; [rewrite Ev; by apply under_leaf; [|constructor]| |done].
    rewrite Hf, Ev, filter_cons, decide_True by done. done.
  - eapply hoare_post; [by apply rest_spec|]. intros r Hr. apply post_skip; [|done].
    rewrite Hf, Ev, filter_cons, decide_False; [done|]. unfold wanted. cbn. congruence.
Qed.

Lemma subtree_spec dn s :
  oe_kind e = KTree -> name_ok e -> (length v1 <= fuel)%nat -> sound s ->
  hoare (on_store I) projection_failure
    (let! (child, s) := project_tree head_store base_store matcher fuel (oe_oid e) path s in
     if bool_decide (child = []) then entries items (payload_of dn) s
     else
       let! child_oid := slift (object_id (oid_kind oid) Tree child) in
       entries items (payload_of dn ++ write_entry (oe_mode e) (oe_name e) child_oid) (keep_projected child_oid child s))
    (entries_post s dn (e :: es) (v1 ++ v2)).
Proof.
  intros Hk Hne Hf Hs. destruct (under_tree_files _ _ _ _ _ e_under Hk) as (ces & v1' & Ht & Hu1 & Hl1 & Hf1). fold path in Hu1.
  eapply hoare_bind; [by apply (project_child _ _ _ ces v1'); [done..|lia]|].
  intros [child s1] [Hc|(Hs1 & Hm1 & c' & Hchild & Hpc)]; [apply by_collision; [done|]|cbn [fst snd app] in *; subst child].
  { case_bool_decide; [apply entries_keeps|]. eapply hoare_bind; [apply lift_keeps|]. intros ? _. apply entries_keeps. }
  case_bool_decide as Hempty.
  - assert (c' = []) as ->. { destruct c'; [done|]. pose proof (payload_of_length (o :: c')) as Hlen. rewrite Hempty in Hlen. cbn in Hlen. lia. }
    eapply hoare_post; [by apply rest_spec|]. intros r [Hr|(Hsr & Hmr & es' & Hr & Hp)]; [by left|right].
    split_and!; [done|by etrans|]. exists es'. split; [done|]. apply projects_skip; [|done].
    destruct Hpc as (_ & _ & vs' & Hu' & Hf' & _). inversion Hu'; subst. by rewrite Hf1, <- Hf'.
  - rewrite oid_hk. destruct (object_id hk Tree (payload_of c')) as [child_oid|x] eqn:Eid.
    2:{ eapply (hoare_bind _ _ _ _ (fun _ => False)); [|done]. apply hoare_throw. right; left. by eapply object_id_Err. }
    eapply (hoare_bind _ _ _ _ (fun y => y = child_oid)); [by apply hoare_ret|]. intros ? ->.
    destruct (keep_sound s1 child_oid c' Hs1 Eid) as [Hc|(Hs2 & Hm2 & Hl2)]; [apply Hpc| |by apply by_collision, entries_keeps|].
    { eapply sublist_keys; [apply Hpc|by eapply canonical]. }
    destruct (child_entry _ e v1 c' e_writable Hk ces v1' child_oid Hu1 Hl1 Hf1 Eid Hl2 (projects_mono _ _ _ _ _ _ Hm2 Hpc)) as (Hw & Hkey & Hw1).
    pose proof (payload_snoc dn (mkOwned (oe_mode e) (oe_name e) child_oid KTree)) as Hpay. cbn [oe_mode oe_name oe_oid] in Hpay. rewrite Hpay.
    eapply hoare_post; [by apply rest_spec|]. intros r Hr. eapply post_keep; [|done|done|exact Hw1|done]. by etrans.
Qed.

End Entry.

Lemma entries_spec items es : Forall2 (fun item o => owned_entry item = Ok o) items es -> Forall (writable hk) es ->
  Forall name_ok es -> forall vs dn s, under head_store union es prefix vs -> (length vs <= fuel)%nat -> sound s ->
  hoare (on_store I) projection_failure (entries items (payload_of dn) s) (entries_post s dn es vs).
Proof.
  induction 1 as [|item e items es Hitem _ IH]; intros Hw Hn vs dn s Hu Hf Hs; cbn [project_entries].
  { apply hoare_ret. inversion Hu; subst. right. split_and!; [done|done|]. exists []. rewrite app_nil_r. split; [done|apply projects_nil]. }
  apply Forall_cons in Hw as [He Hw]. apply Forall_cons in Hn as [Hne Hn].
  destruct (under_cons _ _ _ _ _ _ Hu) as (v1 & v2 & -> & Hv1 & Hv2). rewrite length_app in Hf.
  assert (Hrest : forall dn s, sound s -> hoare (on_store I) projection_failure (entries items (payload_of dn) s) (entries_post s dn es v2))
    by (intros dn' s' Hs'; apply IH; [done..|lia|done]).
  eapply hoare_bind; [apply hoare_check; intros x Hx; left; by apply F_stop|]. intros _ _.
  unfold owned_entry in Hitem. apply rbind_Ok in Hitem as (te & -> & Ho). apply rbind_Ok in Ho as ([] & _ & Ho).
  apply rbind_Ok in Ho as (k & Hkind & [= <-]). cbn [oe_mode oe_name oe_oid oe_kind] in *.
  eapply (hoare_bind _ _ _ _ (fun x => x = te)); [by apply hoare_ret|]. intros ? ->. rewrite (kind_is_tree _ _ Hkind).
  set (e := mkOwned (te_mode te) (te_name te) (te_oid te) k) in *. case_bool_decide as Hk.
  - destruct (may_match_descendant matcher (join_path prefix (te_name te))) eqn:Em; cbn [negb].
    + apply (subtree_spec items es v2 Hrest e v1); try done. lia.
    + destruct (under_tree_files _ _ _ _ _ Hv1 Hk) as (ces & v1' & Ht & Hu1 & _ & Hf1).
      eapply hoare_post; [by apply Hrest|]. intros r Hr. apply post_skip; [|done]. rewrite Hf1.
      eapply pruned; [exact Hu1|by eapply tree_of_names| |done].
      rewrite join_dir_prefix. destruct Hne as [Hne _]. by destruct (dir_prefix prefix).
  - apply (leaf_spec items es v2 Hrest e v1); done.
Qed.

End Entries.

Lemma cache_sound s oid prefix es vs es' :
  sound s -> tree_of head_store union oid = Ok es -> under head_store union es prefix vs ->
  projects (pj_projected s) es prefix vs es' -> sound (cache_tree (oid, prefix) (payload_of es') s).
Proof.
  intros [Hp Hc] Ht Hu Hes'. split; [exact Hp|]. intros oid' prefix' t fs ws Hl Ht' Hu'. cbn in *.
  destruct (decide ((oid', prefix') = (oid, prefix))) as [[= -> ->]|Hne].
  - rewrite lookup_insert_eq in Hl. injection Hl as <-. assert (fs = es) as -> by congruence.
    rewrite (under_det _ _ _ _ _ _ Hu' Hu). by exists es'.
  - rewrite lookup_insert_ne in Hl by done. by eapply Hc.
Qed.

Lemma project_tree_spec fuel : forall oid prefix s es vs,
  sound s -> tree_of head_store union oid = Ok es -> under head_store union es prefix vs -> (length vs < fuel)%nat ->
  hoare (on_store I) projection_failure (project_tree head_store base_store matcher fuel oid prefix s)
    (fun r => tree_collision \/ projected s [] es prefix vs r).
Proof.
  induction fuel as [|fuel IH]; intros oid prefix s es vs Hs Ht Hu Hf; [lia|]. cbn [project_tree].
  destruct (pj_cache s !! (oid, prefix)) as [t|] eqn:Ec.
  { destruct (so_cache _ Hs _ _ _ _ _ Ec Ht Hu) as (es' & -> & Hes'). apply hoare_ret. right. split_and!; [done|done|]. by exists es'. }
  assert (exists payload, union oid = Some (Tree, payload) /\ decode_owned_tree_entries payload hk = Ok es) as (payload & Hc & Hd).
  { unfold tree_of, entries_of_read in Ht. destruct (union oid) as [[k p]|]; [|done]. cbn in Ht.
    case_bool_decide as Hk; [|done]. subst k. by exists p. }
  pose proof (own_kind _ _ Hc) as Hok. unfold read_required_tree.
  eapply (hoare_bind _ _ _ _ (fun p => p = payload)).
  { eapply hoare_bind; [eapply hoare_conseq; [apply (union_find_spec head_store base_store ch cb I F)|intros e He; by left|intros a Ha; exact Ha]|].
    intros v ->. fold union. rewrite Hc. eapply (hoare_bind _ _ _ _ (fun x => x = (Tree, payload))); [by apply hoare_ret|].
    intros x ->. by apply hoare_ret. }
  intros ? ->. rewrite Hok. apply map_res_Ok in Hd. eapply hoare_bind.
  { apply (entries_spec fuel oid prefix Hok IH (decode_tree payload hk) es Hd (read_writable _ _ _ _ Hd) ltac:(by eapply tree_of_names) vs []);
      [done|lia|done]. }
  intros [output s'] [Hcol|(Hs' & Hm & es' & Ho & Hp)]; [by apply by_collision; [|apply hoare_ret]|]. apply hoare_ret. right. cbn [fst snd app] in *. subst output.
  split_and!; [by eapply cache_sound|done|]. by exists es'.
Qed.

(** Both roots: the payloads of the two projections, and the projected trees
    they refer to. *)
Definition prepared_for (base_vs head_vs : Listing) (r : PreparedTrees) : Prop :=
  (forall oid t, pt_projected r !! oid = Some t -> object_id hk Tree t = Ok oid /\
    exists es', t = payload_of es' /\ Forall (writable hk) es' /\ StronglySorted git_lt es') /\
  exists eb eh vb vh, pt_base r = payload_of eb /\ pt_head r = payload_of eh /\
    Forall (writable hk) eb /\ Forall (writable hk) eh /\ StronglySorted git_lt eb /\ StronglySorted git_lt eh /\
    under head_store (only (pt_projected r)) eb [] vb /\ under head_store (only (pt_projected r)) eh [] vh /\
    files vb = filter wanted (files base_vs) /\ files vh = filter wanted (files head_vs) /\
    (length vb <= length base_vs)%nat /\ (length vh <= length head_vs)%nat.

Lemma project_diff_trees_spec fuel base head eb eh base_vs head_vs :
  tree_of head_store union base = Ok eb -> under head_store union eb [] base_vs ->
  tree_of head_store union head = Ok eh -> under head_store union eh [] head_vs ->
  (length base_vs < fuel)%nat -> (length head_vs < fuel)%nat ->
  hoare (on_store I) projection_failure (project_diff_trees head_store base_store matcher fuel base head)
    (fun r => tree_collision \/ prepared_for base_vs head_vs r).
Proof.
  intros Hb Hub Hh Huh Hfb Hfh. unfold project_diff_trees.
  assert (Hs0 : sound (mkProjection ∅ ∅)) by (split; cbn; intros *; by rewrite lookup_empty).
  pose proof (project_tree_keeps base_store head_store cb ch I F matcher fuel) as Hkeeps.
  eapply hoare_bind; [by apply (project_tree_spec fuel base [] _ eb base_vs)|].
  intros [bt s1] [Hc|(Hs1 & _ & eb' & Ebt & Hpb)].
  { apply by_collision; [done|]. eapply hoare_bind; [apply Hkeeps|]. intros [ht s2] _. by apply hoare_ret. }
  cbn [fst snd app] in *. subst bt. eapply hoare_bind; [by apply (project_tree_spec fuel head [] s1 eh head_vs)|].
  intros [ht s2] [Hc|(Hs2 & Hm & eh' & Eht & Hph)]; [apply by_collision; [done|by apply hoare_ret]|].
  cbn [fst snd app] in *. subst ht. apply hoare_ret. right. split; [apply Hs2|]. cbn [pt_base pt_head pt_projected].
  apply (projects_mono _ _ _ _ _ _ Hm) in Hpb. destruct Hpb as (Hwb & Hsb & vb & Hvb & Hfvb & Hlb).
  destruct Hph as (Hwh & Hsh & vh & Hvh & Hfvh & Hlh). exists eb', eh', vb, vh.
  split_and!; try done; (eapply sublist_keys; [done|by eapply canonical]).
Qed.

End Project.

(** ** The engine of the examples has the tree format *)

Lemma cut_at_first c pre post : Forall (fun b => beq c b = false) pre -> cut_at c (pre ++ c :: post) = Some (pre, post).
Proof.
  intros Hpre. unfold cut_at. rewrite position_app_l by (done || apply beq_refl). by rewrite take_app_length, drop_mid.
Qed.
#[export] Instance simple_format : TreeFormat simple_gix.
Proof.
  split.
  - done.
  - intros k d e d'. cbn. unfold simple_tree_next. destruct d as [|x d]; [done|]. destruct (cut_at x20 (x :: d)) as [[mode r]|]; [|done].
    destruct (cut_at x00 r) as [[name r']|]; [|done]. destruct (_ <=? _)%nat; [|done]. intros [= <- _]. cbn. split; [|done].
    by apply N.mod_lt.
  - intros k mode name id rest Hm Hne H0 Hlen. destruct (mode_text_spec mode Hm) as (_ & Hall & Hval). fold (mode_text mode).
    assert (Hblank : Forall (fun b => beq x20 b = false) (mode_text mode)).
    { eapply Forall_impl; [exact Hall|]. intros b Hb. apply beq_false. intros <-. change (byteN x20) with 32 in Hb. lia. }
    cbn [gix_tree_next simple_gix app]. unfold simple_tree_next. rewrite (cut_at_first _ _ _ Hblank), (cut_at_first _ _ _ H0).
    rewrite Hval, N.mod_small, take_app_length', drop_app_length' by (done || lia).
    rewrite length_app, (proj2 (Nat.leb_le _ _)) by lia. by destruct (mode_text mode).
Qed.
