(* ===== verification/Diff.v ===== *)
(** * The structured diff ([diff.rs])

    The query [diff] over the tree walk of [TreeDiff.v] and the text patches of
    [Hunks.v]: validation, the two root trees, the walk, the order of the files,
    the reads of the blobs and their limits, the warnings and the statistics.

    Rename tracking is a parameter: [track_rewrites] stands for the vendored
    tracker, which walks both trees, compares candidate blobs through the
    adapter and calls the query back; the theorems are about a query without
    it. *)

From Stdlib Require Import NArith ZArith Lia Strings.Byte Strings.String.
From stdpp Require Import prelude gmap strings list sorting.
From S2P Require Import Prelude Errors Objects Budget Odb Decode Snapshot Pathspec Tree File Scan Hunks TreeDiff Projection.

Open Scope N_scope.

(** [DiffWarningCode], [DiffWarning] and [Diff]. *)
Inductive DiffWarningCode : Type :=
| Truncated
| OversizeSkipped.
#[export] Instance DiffWarningCode_eq_decision : EqDecision DiffWarningCode.
Proof. solve_decision. Defined.
Record DiffWarning : Type := mkDiffWarning { dw_code : DiffWarningCode; dw_message : string }.
Record Diff : Type := mkDiff {
  di_files : list DiffFile;
  di_stats : QueryStats;
  di_warnings : list DiffWarning;
  di_truncated : bool
}.

(** [gix_diff::tree_with_rewrites::Error]: a failed walk, or the error of the
    callback. *)
Inductive RewriteError : Type :=
| RDiff (e : TreeError)
| RForEach (e : Error)
| RTracker.

(** [map_tree_diff_error]. *)
Definition map_tree_diff_error (e : RewriteError) : Error :=
  match e with
  | RForEach e => e
  | RDiff _ | RTracker => Error_new MalformedObject "tree or rewrite diff failed on malformed object data"
  end.

(** The order [changes.sort_by] uses. *)
Definition change_cmp (a b : RawChange) : comparison :=
  match bytes_cmp (sort_path a) (sort_path b) with
  | Eq => option_cmp bytes_cmp (rc_old_path a) (rc_old_path b)
  | o => o
  end.
Definition change_le (a b : RawChange) : Prop := change_cmp a b <> Gt.
#[export] Instance change_le_dec a b : Decision (change_le a b).
Proof. unfold change_le. apply _. Defined.

(** [needs_content], [populate_gitlink_stats] and [file_oids_overlap]. *)
Definition mode_gitlink (mode : option N) : bool :=
  match mode with
  | Some m => is_gitlink m
  | None => false
  end.
Definition needs_content (f : DiffFile) : bool := negb (mode_gitlink (df_old_mode f)) && negb (mode_gitlink (df_new_mode f)).
Definition side_count {A} (o : option A) : N := if o then 1 else 0.
Definition populate_gitlink_stats (f : DiffFile) : DiffFile :=
  set_counts (side_count (df_new_oid f)) (side_count (df_old_oid f)) f.
Definition oid_in (oids : list Oid) (oid : option Oid) : bool :=
  match oid with
  | Some o => bool_decide (o ∈ oids)
  | None => false
  end.
Definition file_oids_overlap (f : DiffFile) (oids : list Oid) : bool :=
  oid_in oids (df_old_oid f) || oid_in oids (df_new_oid f).

(** [BlobRead]. *)
Inductive BlobRead : Type :=
| BlobData (data : bytes)
| BlobOversize.

Section Diff.
Context `{Env, GixObject, GixGlob, Digests, BlobDiff} {T : Type}.

(** The rename tracker over the adapter and the callback, with the limit it is
    given. *)
Context (track_rewrites : N -> list (option EntryRef) -> list (option EntryRef) ->
           Budget * T * WalkState -> result RewriteError unit * (Budget * T * WalkState)).

Section Stores.
Context (base_store head_store : ObjectDb T).

(** [validate]. *)
Definition validate_diff (base head : Snapshot) (opts : DiffOptions) : Res unit :=
  let? _ := union_new head_store base_store in
  let? _ := ensure_query_compatible base_store base in
  let? _ := ensure_query_compatible head_store head in
  if negb (bool_decide (oid_kind (commit_oid base) = oid_kind (commit_oid head))) then
    Err (Error_new HashMismatch "diff snapshots use different hash algorithms")
  else if MAX_CONTEXT_LINES <? do_context_lines opts then
    Err (Error_new InvalidArgument "diff context_lines must be between 0 and 32")
  else if do_copies opts then
    Err (with_reason "upstream_post_image_copy_tracking_source_suppression"
           (Error_new UnsupportedOperation "copy detection is disabled in 0.x because upstream copy tracking can score the post-image blob and suppress the modified source record"))
  else if (do_max_diff_files opts =? 0) || (do_max_diff_hunks opts =? 0) || (do_max_diff_lines opts =? 0) then
    Err (Error_new InvalidArgument "diff limits must be greater than zero")
  else Ok tt.

(** [validate_blob_header] and [read_diff_blob]. *)
Definition tree_blob_error (oid : Oid) : Error :=
  with_oid oid (Error_new MalformedObject ("tree blob " ++ oid_str oid ++ " addresses a non-blob object")).
Definition validate_blob_header (oid : Oid) (h : HeaderRead) : Res unit :=
  if bool_decide (hdr_kind (hr_header h) = Blob) then Ok tt
  else Err (match hr_provenance h with
            | UnverifiedProvider =>
                with_oid oid (Error_new ProviderProtocolError "provider header contradicts tree entry kind")
            | Verified => tree_blob_error oid
            end).
Definition read_diff_blob (oid : option Oid) (max_bytes : N) : DM T BlobRead :=
  match oid with
  | None => sret (BlobData [])
  | Some oid =>
      let! found := union_try_header_with_provenance head_store base_store oid in
      let! header := slift (ok_or (missing_in_union oid "blob header") found) in
      let! _ := slift (validate_blob_header oid header) in
      if max_bytes <? hdr_size (hr_header header) then sret BlobOversize
      else
        let! found := union_try_find head_store base_store oid in
        let! object := slift (ok_or (missing_in_union oid "blob") found) in
        if negb (bool_decide (object.1 = Blob)) then sthrow (tree_blob_error oid)
        else if max_bytes <? lenN object.2 then sret BlobOversize
        else sret (BlobData object.2)
  end.

(** [populate_content]. *)
Definition populate_content (file : DiffFile) (opts : DiffOptions) (used : Used)
  : DM T (PopulateOutcome * DiffFile * Used) :=
  if bool_decide (df_old_oid file = df_new_oid file) then sret (Complete, set_counts 0 0 file, used)
  else
    let! old := read_diff_blob (df_old_oid file) (do_max_object_bytes opts) in
    let! new := read_diff_blob (df_new_oid file) (do_max_object_bytes opts) in
    match old, new with
    | BlobData old, BlobData new => populate_text file old new opts used
    | _, _ => sret (Oversize, file, used)
    end.

(** The loop over the sorted changes: the files so far, the warnings, the
    counters and the number of oversize blobs; it ends with the limit that
    stopped it. *)
Record Populated : Type := mkPopulated {
  pp_files : list DiffFile;
  pp_warnings : list DiffWarning;
  pp_used : Used;
  pp_oversize : N;
  pp_stopped : option string
}.
Definition add_file (f : DiffFile) (used : Used) (p : Populated) : Populated :=
  mkPopulated (pp_files p ++ [f]) (pp_warnings p) used (pp_oversize p) (pp_stopped p).
Definition stop_populate (limit : string) (p : Populated) : Populated :=
  mkPopulated (pp_files p) (pp_warnings p) (pp_used p) (pp_oversize p) (Some limit).
Definition note_oversize (overlap : bool) (p : Populated) : Populated :=
  let oversize := if overlap then pp_oversize p else sadd64 (pp_oversize p) 1 in
  let warnings :=
    if existsb (fun w => bool_decide (dw_code w = OversizeSkipped)) (pp_warnings p) then pp_warnings p
    else pp_warnings p ++ [mkDiffWarning OversizeSkipped "diff content suppressed by max_object_bytes"] in
  mkPopulated (pp_files p) warnings (pp_used p) oversize (pp_stopped p).
Definition populate_file (opts : DiffOptions) (rewrite_oversize : list Oid) (change : RawChange) (p : Populated)
  : DM T Populated :=
  let file := into_file change in
  if bool_decide (do_format opts = FSummary) then sret (add_file file (pp_used p) p)
  else if needs_content file then
    let! r := populate_content file opts (pp_used p) in
    let '(outcome, file, used) := r in
    sret (match outcome with
          | Complete => add_file file used p
          | Oversize => add_file file used (note_oversize (file_oids_overlap file rewrite_oversize) p)
          | Stopped limit => stop_populate limit (add_file file used p)
          end)
  else sret (add_file (populate_gitlink_stats file) (pp_used p) p).
Fixpoint populate_files (opts : DiffOptions) (rewrite_oversize : list Oid) (changes : list RawChange) (p : Populated)
  : DM T Populated :=
  match changes with
  | [] => sret p
  | change :: changes =>
      let! _ := on_budget check in
      let! p := populate_file opts rewrite_oversize change p in
      match pp_stopped p with
      | Some _ => sret p
      | None => populate_files opts rewrite_oversize changes p
      end
  end.

(** [finish]. *)
Definition finish_diff (files : list DiffFile) (warnings : list DiffWarning) (truncated : bool)
  (stopped_by : option string) (oversize : N) : DM T Diff :=
  fun '(b, t) =>
    let '(objects_read, bytes_read, _, _) := spent b in
    let '(hits, misses) := cache_spent b in
    (Ok (mkDiff files
           (mkQueryStats objects_read bytes_read (lenN files) hits misses (union_cache_stats head_store base_store t)
              (lenN files) 0 (lenN (filter (fun f => df_binary f = true) files)) oversize 0 stopped_by)
           warnings truncated), (b, t)).

(** The plain half of [tree_with_rewrites]. *)
Definition plain_diff (fuel : nat) (opts : DiffOptions) (projected : gmap Oid bytes)
  (lhs rhs : list (option EntryRef)) (w : Budget * T * WalkState)
  : result RewriteError unit * (Budget * T * WalkState) :=
  match diff_loop head_store base_store (do_max_diff_files opts) (do_max_object_bytes opts) projected fuel lhs rhs false w with
  | (Ok _, (w, s)) =>
      (match ws_err s with Some e => Err (RForEach e) | None => Ok tt end, (w, s))
  | (Err TCancelled, (w, s)) =>
      (Err (match ws_err s with Some e => RForEach e | None => RDiff TCancelled end), (w, s))
  | (Err e, ws) => (Err (RDiff e), ws)
  end.

(** The walk of the query: its changes, its oversize list and its stop. *)
Definition walk_changes (fuel : nat) (opts : DiffOptions) (prepared : PreparedTrees) (base head : Snapshot)
  : DM T (list RawChange * list Oid * option string) :=
  fun w =>
    let lhs := tree_ref_iter (oid_kind (snap_tree_oid base)) (pt_base prepared) in
    let rhs := tree_ref_iter (oid_kind (snap_tree_oid head)) (pt_head prepared) in
    let '(r, (w, s)) :=
      match do_renames opts with
      | RDisabled => plain_diff fuel opts (pt_projected prepared) lhs rhs (w, WalkState_new)
      | RSimilarity =>
          track_rewrites (N.min (do_max_diff_files opts * do_max_diff_files opts) u64_max) lhs rhs (w, WalkState_new)
      end in
    let value := (ws_changes s, ws_oversize s, ws_stopped_by s) in
    match r with
    | Ok _ => (Ok value, w)
    | Err e =>
        match ws_last_error s with
        | Some e => (Err e, w)
        | None =>
            match ws_stopped_by s with
            | Some _ => (Ok value, w)
            | None => (Err (map_tree_diff_error e), w)
            end
        end
    end.

(** The root trees: whole, or projected to the pathspecs. *)
Definition prepare (fuel : nat) (opts : DiffOptions) (base head : Snapshot) : DM T PreparedTrees :=
  if bool_decide (do_pathspecs opts = []) then
    let! base_tree := read_required_tree head_store base_store (snap_tree_oid base) in
    let! head_tree := read_required_tree head_store base_store (snap_tree_oid head) in
    sret (mkPrepared base_tree head_tree ∅)
  else
    project_diff_trees head_store base_store (mkMatcher (do_pathspecs opts)) fuel (snap_tree_oid base) (snap_tree_oid head).

(** [diff]. *)
Definition diff (fuel : nat) (base head : Snapshot) (opts : DiffOptions) : DM T Diff :=
  let! _ := slift (validate_diff base head opts) in
  let! _ := on_budget check in
  let! _ := slift (union_new head_store base_store) in
  if bool_decide (snap_tree_oid base = snap_tree_oid head) then finish_diff [] [] false None 0
  else
    let! prepared := prepare fuel opts base head in
    let! x := walk_changes fuel opts prepared base head in
    let '(changes, oversize, walk_stopped_by) := x in
    let changes := merge_sort change_le changes in
    let warnings :=
      if (length oversize =? 0)%nat then []
      else [mkDiffWarning OversizeSkipped "rename candidate content suppressed by max_object_bytes"] in
    let! p := populate_files opts oversize changes (mkPopulated [] warnings (mkUsed 0 0) (lenN oversize) None) in
    let stopped_by := match pp_stopped p with Some l => Some l | None => walk_stopped_by end in
    let warnings :=
      match stopped_by with
      | Some limit => mkDiffWarning Truncated ("diff truncated by " ++ limit) :: pp_warnings p
      | None => pp_warnings p
      end in
    finish_diff (pp_files p) warnings (if stopped_by then true else false) stopped_by (pp_oversize p).

End Stores.
End Diff.

(* ------------------------------------------------------------------ *)
(** ** The order of the files *)

Lemma bytes_cmp_trans_lt a b c : bytes_cmp a b = Lt -> bytes_cmp b c = Lt -> bytes_cmp a c = Lt.
Proof. apply bytes_lt_trans. Qed.

#[export] Instance change_le_total : Total change_le.
Proof.
  intros a b. unfold change_le, change_cmp. rewrite (bytes_cmp_antisym (sort_path a) (sort_path b)).
  destruct (bytes_cmp (sort_path a) (sort_path b)); cbn; [|by left|by right].
  destruct (rc_old_path a) as [p|], (rc_old_path b) as [q|]; cbn; try (by left); try (by right).
  rewrite (bytes_cmp_antisym p q). destruct (bytes_cmp p q); cbn; [by left|by left|by right].
Qed.
#[export] Instance change_le_trans : Transitive change_le.
Proof.
  intros a b c. unfold change_le, change_cmp.
  destruct (bytes_cmp (sort_path a) (sort_path b)) eqn:E1; [apply bytes_cmp_eq in E1; rewrite E1|..]; try done.
  - destruct (bytes_cmp (sort_path b) (sort_path c)) eqn:E2; try done.
    destruct (rc_old_path a) as [p|], (rc_old_path b) as [q|], (rc_old_path c) as [r|]; cbn; try done.
    destruct (bytes_cmp p q) eqn:F1; [apply bytes_cmp_eq in F1 as ->; done| |done].
    intros _. destruct (bytes_cmp q r) eqn:F2; [apply bytes_cmp_eq in F2 as <-; by rewrite F1| |done].
    by rewrite (bytes_cmp_trans_lt _ _ _ F1 F2).
  - intros _. destruct (bytes_cmp (sort_path b) (sort_path c)) eqn:E2; [apply bytes_cmp_eq in E2; rewrite <- E2; by rewrite E1| |done].
    by rewrite (bytes_cmp_trans_lt _ _ _ E1 E2).
Qed.

Definition path_lt (a b : RawChange) : Prop := bytes_lt (sort_path a) (sort_path b).

(** Changes of distinct paths are sorted strictly by path. *)
Lemma sorted_by_path l : NoDup (sort_path <$> l) -> StronglySorted path_lt (merge_sort change_le l).
Proof.
  intros Hnd. pose proof (StronglySorted_merge_sort change_le l) as Hs. pose proof (merge_sort_Permutation change_le l) as Hp.
  assert (Hnd' : NoDup (sort_path <$> merge_sort change_le l)) by (by rewrite Hp). clear Hnd Hp.
  induction Hs as [|x xs Hs IH Hx]; [constructor|]. cbn in Hnd'. apply NoDup_cons in Hnd' as [Hin Hnd].
  constructor; [by apply IH|]. rewrite Forall_forall in Hx |- *. intros y Hy. specialize (Hx y Hy).
  unfold change_le, change_cmp in Hx. unfold path_lt, bytes_lt.
  destruct (bytes_cmp (sort_path x) (sort_path y)) eqn:E; [|done..]. apply bytes_cmp_eq in E.
  destruct Hin. rewrite E. by apply list_elem_of_fmap_2.
Qed.

(** Every change of two listings is at its own path. *)
Lemma change_of_path p old new c : change_of p old new = Some c -> sort_path c = p.
Proof. destruct old as [e|], new as [e'|]; cbn; try case_match; intros; by simplify_eq. Qed.

Lemma listing_changes_NoDup old new : NoDup old.*1 -> NoDup new.*1 -> NoDup (sort_path <$> listing_changes old new).
Proof.
  assert (Homap : forall (f : bytes * OwnedTreeEntry -> option RawChange) (l : Listing),
    (forall v c, f v = Some c -> sort_path c = v.1) -> NoDup l.*1 ->
    NoDup (sort_path <$> omap f l) /\ forall p, p ∈ sort_path <$> omap f l -> p ∈ l.*1).
  { intros f l Hf. induction l as [|v l IH]; intros Hnd; [split; [constructor|done]|]. cbn in Hnd.
    apply NoDup_cons in Hnd as [Hv Hnd]. destruct (IH Hnd) as [IH1 IH2]. cbn. destruct (f v) as [c|] eqn:Ef; cbn.
    - split; [constructor; [|done]; rewrite (Hf _ _ Ef); intros Hin; by apply Hv, IH2|].
      intros p [->|Hp]%elem_of_cons; [rewrite (Hf _ _ Ef); left|right; by apply IH2].
    - split; [done|]. intros p Hp. right. by apply IH2. }
  intros Ho Hn. unfold listing_changes. rewrite fmap_app. apply NoDup_app. split_and!.
  - apply Homap; [|done]. intros v c. apply change_of_path.
  - intros p Hp. apply Homap in Hp; [|by intros v c; apply change_of_path|done]. intros Hp'.
    apply list_elem_of_fmap in Hp' as (c & -> & Hc). apply list_elem_of_omap in Hc as (v & Hv & Hc).
    unfold right_change in Hc. destruct (at_entry old v.1) eqn:E; [done|]. rewrite (change_of_path _ _ _ _ Hc) in Hp.
    apply list_elem_of_fmap in Hp as ([q e] & Hq & Hin). cbn in Hq. rewrite Hq, (at_entry_NoDup _ _ _ Ho Hin) in E. done.
  - apply Homap; [|done]. intros v c. unfold right_change. destruct (at_entry old v.1); [done|]. apply change_of_path.
Qed.

(** ** The files of a diff *)

(** The change a file is about. *)
Definition file_change (f : DiffFile) : RawChange :=
  mkRawChange (df_status f) (df_old_path f) (df_new_path f) (df_old_oid f) (df_new_oid f) (df_old_mode f)
    (df_new_mode f) (df_similarity f).

Lemma file_change_into c : file_change (into_file c) = c.
Proof. by destruct c. Qed.
Lemma same_change_eq f g : same_change f g -> file_change f = file_change g.
Proof. intros (?&?&?&?&?&?&?&?). unfold file_change. congruence. Qed.

(** The payload of one side of a change. *)
Definition blob_of (c : Oid -> ObjectReadResult) (oid : option Oid) : option bytes :=
  match oid with
  | None => Some []
  | Some oid =>
      match c oid with
      | Some (Blob, data) => Some data
      | _ => None
      end
  end.

(** A file of the patch format, not a type change: hunks that rebuild the new
    blob of the store from the old one, or no hunks. *)
Definition blob_patch_shown (c : Oid -> ObjectReadResult) (f : DiffFile) : Prop :=
  df_status f <> TypeChanged -> df_old_oid f <> df_new_oid f -> needs_content f = true ->
  match df_additions f with
  | None => df_hunks f = []
  | Some a =>
      exists old new, blob_of c (df_old_oid f) = Some old /\ blob_of c (df_new_oid f) = Some new /\
        (lenN (lines old) < u32_max -> lenN (lines new) < u32_max ->
         patch_shows old new (df_hunks f) /\ a = count_origin OAddition (df_hunks f) /\
         df_deletions f = Some (count_origin ODeletion (df_hunks f)))
  end.

Section DiffSpec.
Context `{Env, GixObject, GixGlob, Digests} `{!BlobDiff} `{!LawfulBlobDiff _} {T : Type}.
Context (base_store head_store : ObjectDb T) (cb ch : Oid -> ObjectReadResult) (I : T -> Prop) (F : ErrorCode -> Prop).
Context `{!LawfulDb base_store cb I F, !LawfulDb head_store ch I F}.
Hypothesis F_stop : forall e, budget_stop e -> F (code e).

Definition union_c : Oid -> ObjectReadResult := union_contents ch cb.

Lemma union_header_spec oid :
  hoare (on_store I) (fun e => F (code e)) (union_try_header_with_provenance head_store base_store oid) (fun _ => True).
Proof.
  eapply hoare_bind; [apply law_header|]. intros [h|] _; [by apply hoare_ret|].
  eapply hoare_post; [apply law_header|done].
Qed.

Lemma read_blob_spec oid max_bytes :
  hoare (on_store I) (walk_failure F) (read_diff_blob base_store head_store oid max_bytes)
    (fun r => match r with BlobData d => blob_of union_c oid = Some d | BlobOversize => True end).
Proof.
  destruct oid as [oid|]; [|by apply hoare_ret]. unfold read_diff_blob.
  eapply hoare_bind; [eapply hoare_conseq; [apply union_header_spec|intros e He; by left|intros a Ha; exact Ha]|]. intros found _.
  eapply (hoare_bind _ _ _ _ (fun _ => True)).
  { apply hoare_lift. destruct found; cbn; [done|]. right; by left. }
  intros header _. eapply (hoare_bind _ _ _ _ (fun _ => True)).
  { apply hoare_lift. unfold validate_blob_header. case_bool_decide; [done|]. cbn.
    destruct (hr_provenance header); cbn; unfold walk_failure; cbn; tauto. }
  intros _ _. destruct (_ <? _); [by apply hoare_ret|].
  eapply hoare_bind; [eapply hoare_conseq; [apply (union_find_spec head_store base_store ch cb I F)|intros e He; by left|intros a Ha; exact Ha]|]. intros v ->.
  unfold blob_of, union_c. destruct (union_contents ch cb oid) as [[k d]|]; cbn -[lenN].
  - eapply (hoare_bind _ _ _ _ (fun x => x = (k, d))); [by apply hoare_ret|]. intros x ->. cbn [fst snd].
    case_bool_decide as Hk; cbn [negb]; [subst k|apply hoare_throw; unfold walk_failure; cbn; tauto].
    destruct (_ <? _); by apply hoare_ret.
  - eapply (hoare_bind _ _ _ _ (fun _ => False)); [|done]. apply hoare_throw. unfold walk_failure; cbn; tauto.
Qed.

Lemma populate_content_spec opts file used :
  within_limits opts used -> df_additions file = None -> df_hunks file = [] ->
  hoare (on_store I) (walk_failure F) (populate_content base_store head_store file opts used)
    (fun '(o, f, u) => within_limits opts u /\ file_change f = file_change file /\
       (do_format opts = FPatch -> (forall l, o <> Stopped l) -> blob_patch_shown union_c f)).
Proof.
  intros Hw Hadd Hhunks. unfold populate_content. case_bool_decide as Hid.
  { apply hoare_ret. split_and!; try done. intros _ _ _ Hne. by destruct Hne. }
  eapply hoare_bind; [apply read_blob_spec|]. intros old Ho. eapply hoare_bind; [apply read_blob_spec|]. intros new Hn.
  assert (Hnone : do_format opts = FPatch -> (forall l, Oversize <> Stopped l) -> blob_patch_shown union_c file)
    by (intros _ _ _ _ _; by rewrite Hadd).
  destruct old as [old|], new as [new|]; [|by apply hoare_ret..].
  eapply hoare_conseq; [by apply (hoare_text I opts file old new)|intros e He; left; by apply F_stop|].
  intros [[o f] u] (Hu & Hs & Ho' & Hnil & Hsh). split_and!; [done|by apply same_change_eq|]. intros Hf Hst Hty Hne Hnc.
  assert (Hc : o = Complete) by (destruct o; [done|done|by destruct (Hst limit)]).
  destruct Hs as (Es & _ & _ & Eo & En & _). rewrite Es in Hty. rewrite Eo, En in *.
  destruct (df_additions f) as [a|] eqn:Ea.
  - exists old, new. split_and!; [done|done|]. intros Hs1 Hs2. specialize (Hsh Hf Hty Hs1 Hs2 Hc). unfold text_shown in Hsh.
    by rewrite Ea in Hsh.
  - by apply Hnil.
Qed.

(** The files whose content is settled: all, or all but the one a limit
    interrupted. *)
Definition settled (stopped : bool) (files : list DiffFile) : list DiffFile :=
  if stopped then removelast files else files.
Definition populated (opts : DiffOptions) (p : Populated) : Prop :=
  within_limits opts (pp_used p) /\ (do_format opts = FSummary -> pp_stopped p = None) /\
  (do_format opts = FPatch -> Forall (blob_patch_shown union_c) (settled (bool_decide (is_Some (pp_stopped p))) (pp_files p))).

(** A query fails as its stores and its budget do; one that reads blobs, also
    when a blob is missing or is something else; one that projects trees, also
    when a digest refuses its input or two trees have one id. *)
Definition diff_failure (opts : DiffOptions) (e : Error) : Prop :=
  F (code e) \/ do_format opts <> FSummary /\ walk_failure F e \/
  do_pathspecs opts <> [] /\ (code e = HashMismatch \/ tree_collision head_store).

Lemma populate_file_spec opts oversize change p :
  populated opts p -> pp_stopped p = None ->
  hoare (on_store I) (diff_failure opts) (populate_file base_store head_store opts oversize change p)
    (fun p' => populated opts p' /\ file_change <$> pp_files p' = (file_change <$> pp_files p) ++ [change]).
Proof.
  intros (Hw & _ & Hsh) Hst. rewrite Hst in Hsh. cbn [settled] in Hsh. rewrite bool_decide_false in Hsh by (by intros [? ?]). cbn in Hsh.
  assert (Hsnoc : forall (f : DiffFile) (fs : list DiffFile), removelast (fs ++ [f]) = fs) by (intros f fs; apply removelast_last).
  assert (Hadd : forall f u q, within_limits opts u -> file_change f = change -> pp_files q = pp_files p -> pp_stopped q = None ->
    (do_format opts = FPatch -> blob_patch_shown union_c f) ->
    populated opts (add_file f u q) /\ file_change <$> pp_files (add_file f u q) = (file_change <$> pp_files p) ++ [change]).
  { intros f u q Hu Hf Hq Hs Hb. split; [split_and!; [done|done|]|].
    - intros Hfmt. cbn [add_file pp_stopped pp_files]. rewrite Hs, bool_decide_false by (by intros [? ?]). cbn. rewrite Hq.
      apply Forall_app. split; [by apply Hsh|]. constructor; [by apply Hb|constructor].
    - cbn. rewrite Hq, fmap_app. cbn. by rewrite Hf. }
  unfold populate_file. case_bool_decide as Hfmt.
  { apply hoare_ret. apply Hadd; try done. apply file_change_into. }
  destruct (needs_content (into_file change)) eqn:En.
  2:{ apply hoare_ret. apply Hadd; [done|apply (file_change_into change)|done|done|]. intros _ _ _ Hn. cbn in Hn. unfold needs_content in *.
      cbn in *. by rewrite En in Hn. }
  eapply hoare_bind; [eapply hoare_conseq; [by apply (populate_content_spec opts)|by intros e He; right; left|intros a Ha; exact Ha]|].
  intros [[o f] u] (Hu & Hf & Hb). rewrite file_change_into in Hf.
  apply hoare_ret. destruct o as [| |limit].
  - apply Hadd; try done. intros Hp. by apply Hb.
  - apply Hadd; try done. intros Hp. by apply Hb.
  - split; [split_and!; [done|done|]|].
    + intros Hp. cbn [stop_populate add_file pp_stopped pp_files]. rewrite bool_decide_true by by eexists. cbn [settled].
      rewrite Hsnoc. by apply Hsh.
    + cbn. rewrite fmap_app. cbn. by rewrite Hf.
Qed.

Lemma populate_files_spec opts oversize changes : forall p,
  populated opts p -> pp_stopped p = None ->
  hoare (on_store I) (diff_failure opts) (populate_files base_store head_store opts oversize changes p)
    (fun p' => populated opts p' /\ exists k, file_change <$> pp_files p' = (file_change <$> pp_files p) ++ take k changes /\
       (pp_stopped p' = None -> (length changes <= k)%nat)).
Proof.
  induction changes as [|c changes IH]; intros p Hp Hst; cbn [populate_files].
  { apply hoare_ret. split; [done|]. exists 0%nat. cbn. by rewrite app_nil_r. }
  eapply hoare_bind; [apply hoare_check; intros e He; left; by apply F_stop|]. intros ? _.
  eapply hoare_bind; [by apply populate_file_spec|]. intros p1 [Hp1 Hf1]. destruct (pp_stopped p1) as [l|] eqn:Es.
  - apply hoare_ret. split; [done|]. exists 1%nat. split; [done|]. by rewrite Es.
  - eapply hoare_post; [by apply IH|]. intros p2 (Hp2 & k & Hk & Hall). split; [done|]. exists (S k). cbn [take].
    rewrite Hk, Hf1, <- app_assoc. split; [done|]. intros Hn. specialize (Hall Hn). cbn. lia.
Qed.

(** ** Any query *)

Lemma prepare_keeps fuel opts base head : keeps I (prepare base_store head_store fuel opts base head).
Proof.
  pose proof (read_tree_keeps base_store head_store cb ch I F) as Hread.
  pose proof (project_tree_keeps base_store head_store cb ch I F) as Hproject.
  unfold prepare, project_diff_trees. case_bool_decide.
  - eapply hoare_bind; [apply Hread|]. intros b _. eapply hoare_bind; [apply Hread|]. intros h _. by apply hoare_ret.
  - eapply hoare_bind; [apply Hproject|]. intros [b s] _. eapply hoare_bind; [apply Hproject|]. intros [h s'] _. by apply hoare_ret.
Qed.
Lemma finish_diff_spec G files warnings truncated stopped_by oversize (P : Diff -> Prop) :
  (forall d, di_files d = files -> di_truncated d = truncated -> P d) ->
  hoare (on_store I) G (finish_diff base_store head_store files warnings truncated stopped_by oversize) P.
Proof.
  intros HP [b t] Hi. unfold finish_diff. destruct (spent b) as [[[? ?] ?] ?], (cache_spent b). split; [by apply HP|done].
Qed.
Lemma populated_new opts warnings oversize : populated opts (mkPopulated [] warnings (mkUsed 0 0) oversize None).
Proof. split_and!; [|done|by intros _; apply Forall_nil]. split_and!; apply N.le_0_l. Qed.

Section AnyWalk.
Context (track_rewrites : N -> list (option EntryRef) -> list (option EntryRef) ->
           Budget * T * WalkState -> result RewriteError unit * (Budget * T * WalkState)).
(** The tracker reaches the store only through the adapter. *)
Definition tracker_keeps : Prop := forall limit lhs rhs w, I w.1.2 -> I (track_rewrites limit lhs rhs w).2.1.2.

Lemma walk_changes_keeps fuel opts prepared base head :
  do_renames opts = RDisabled \/ tracker_keeps ->
  keeps I (walk_changes track_rewrites base_store head_store fuel opts prepared base head).
Proof.
  intros Htr w Hi. unfold walk_changes, plain_diff.
  set (lhs := tree_ref_iter _ _). set (rhs := tree_ref_iter _ _).
  pose proof (diff_loop_keeps base_store head_store cb ch I F (do_max_diff_files opts) (do_max_object_bytes opts)
    (pt_projected prepared) fuel lhs rhs false (w, WalkState_new) Hi) as Hd.
  destruct (do_renames opts).
  - destruct (diff_loop _ _ _ _ _ _ _ _ _ _) as [[?|[]] [w' s]]; cbn in Hd |- *; repeat case_match; simplify_eq/=; tauto.
  - destruct Htr as [|Htr]; [done|].
    pose proof (Htr (N.min (do_max_diff_files opts * do_max_diff_files opts) u64_max) lhs rhs (w, WalkState_new) Hi) as Ht.
    destruct (track_rewrites _ _ _ _) as [[?|?] [w' s]]; cbn in Ht |- *; repeat case_match; simplify_eq/=; tauto.
Qed.

Lemma settled_weaken (P : DiffFile -> Prop) b files : Forall P files -> Forall P (settled b files).
Proof.
  intros Hf. destruct b; [|done]. cbn. destruct (decide (files = [])) as [->|Hne]; [done|].
  rewrite (app_removelast_last (mkDiffFile Added None None None None None None None None None false []) Hne) in Hf.
  by apply Forall_app in Hf as [Hf _].
Qed.

Hypothesis tracked : tracker_keeps.

Lemma diff_patches fuel base head opts :
  do_format opts = FPatch ->
  hoare (on_store I) (fun _ => True) (diff track_rewrites base_store head_store fuel base head opts)
    (fun d => Forall (blob_patch_shown union_c) (settled (di_truncated d) (di_files d))).
Proof.
  intros Hfmt. unfold diff. eapply hoare_bind; [apply lift_keeps|]. intros _ _.
  eapply hoare_bind; [by apply hoare_check|]. intros _ _. eapply hoare_bind; [apply lift_keeps|]. intros _ _.
  case_bool_decide.
  - apply finish_diff_spec. intros d -> _. apply settled_weaken, Forall_nil. done.
  - eapply hoare_bind; [apply prepare_keeps|]. intros prepared _. eapply hoare_bind; [apply walk_changes_keeps; by right|].
    intros [[changes oversize] st] _. eapply hoare_bind.
    { eapply hoare_conseq; [apply populate_files_spec; [apply populated_new|done]|done|intros p Hp; exact Hp]. }
    intros p ((_ & _ & Hp) & _). specialize (Hp Hfmt). apply finish_diff_spec. intros d -> ->.
    destruct (pp_stopped p); [done|]. by apply settled_weaken.
Qed.

(** C25. A diff in the patch format shows patches that are right, whatever the
    pathspecs, the rename tracker and the trees are: every file of a diff it
    returns, the last of a truncated one apart, that is no type change or
    submodule and whose two object ids differ either has no hunks and no line
    counts, or both ids are of blobs of the union store and, below [u32::MAX]
    lines, the hunks rebuild the new blob from the old one and the counts are
    those of their lines. *)
Theorem diff_patches_rebuild_blobs fuel base head opts w d w' :
  do_format opts = FPatch -> I w.2 ->
  diff track_rewrites base_store head_store fuel base head opts w = (Ok d, w') ->
  Forall (blob_patch_shown union_c) (settled (di_truncated d) (di_files d)).
Proof. intros Hf Hi Hd. by destruct (hoare_run _ _ _ _ _ _ _ (diff_patches fuel base head opts Hf) Hi Hd). Qed.

End AnyWalk.

(** ** The walk of the selected trees *)

Lemma StronglySorted_take {A} (R : A -> A -> Prop) k (l : list A) : StronglySorted R l -> StronglySorted R (take k l).
Proof. rewrite <- (take_drop k l) at 1. apply StronglySorted_app_1_l. Qed.
Lemma filter_NoDup (P : bytes * OwnedTreeEntry -> Prop) `{!forall x, Decision (P x)} (l : Listing) :
  NoDup l.*1 -> NoDup (filter P l).*1.
Proof.
  induction l as [|x l IH]; [done|]. intros [Hx Hl]%NoDup_cons. rewrite filter_cons. case_decide; [|by apply IH].
  cbn [fmap list_fmap]. constructor; [|by apply IH]. intros Hin. apply Hx. apply list_elem_of_fmap in Hin as (y & -> & Hy).
  apply list_elem_of_filter in Hy as [_ Hy]. by apply list_elem_of_fmap_2.
Qed.

(** Without projected trees the adapter serves what the union holds; and a
    projection is served whatever the union holds. *)
Lemma served_empty : served ch cb ∅ = union_c.
Proof. reflexivity. Qed.
Lemma under_served m es prefix vs :
  under head_store (only m) es prefix vs -> under head_store (served ch cb m) es prefix vs.
Proof.
  induction 1 as [|e es prefix vs Hk _ IH|e es prefix children vs1 vs2 Hk Ht _ IH1 _ IH2]; [constructor|by constructor|].
  eapply under_tree; try done. rewrite <- Ht. unfold tree_of, only, served in *. by destruct (m !! oe_oid e).
Qed.

Hypothesis own_kind : forall oid object, union_c oid = Some object -> oid_kind oid = hash_kind head_store.
Hypothesis canonical : trees_canonical head_store union_c.

Lemma tree_oid_kind oid es : tree_of head_store union_c oid = Ok es -> oid_kind oid = hash_kind head_store.
Proof. intros Ht. unfold tree_of in Ht. destruct (union_c oid) as [o|] eqn:E; [by eapply own_kind|done]. Qed.
Lemma read_tree_payload opts oid es :
  tree_of head_store union_c oid = Ok es ->
  hoare (on_store I) (diff_failure opts) (read_required_tree head_store base_store oid)
    (fun payload => Forall2 item_agrees (tree_ref_iter (oid_kind oid) payload) es).
Proof.
  rewrite <- served_empty in *. intros Ht. destruct (tree_payload head_store ch cb ∅ own_kind _ _ Ht) as (payload & Hs & Hit).
  unfold read_required_tree. eapply hoare_bind.
  { eapply hoare_conseq; [apply (union_find_spec head_store base_store ch cb I F)|intros e He; by left|intros a Ha; exact Ha]. }
  intros v ->. rewrite served_empty in Hs. fold union_c. rewrite Hs. cbn.
  eapply (hoare_bind _ _ _ _ (fun x => x = (Tree, payload))); [by apply hoare_ret|]. intros x ->. by apply hoare_ret.
Qed.

Section Query.
Context `{!TreeFormat _}.
Context (track_rewrites : N -> list (option EntryRef) -> list (option EntryRef) ->
           Budget * T * WalkState -> result RewriteError unit * (Budget * T * WalkState)).
Context (base head : Snapshot) (opts : DiffOptions) (eb eh : list OwnedTreeEntry) (vb vh : Listing) (fuel : nat).
Hypothesis plain : do_renames opts = RDisabled.
Hypothesis unescaped : Forall escape_free (do_pathspecs opts).
Hypothesis base_tree : tree_of head_store union_c (snap_tree_oid base) = Ok eb.
Hypothesis base_under : under head_store union_c eb [] vb.
Hypothesis head_tree : tree_of head_store union_c (snap_tree_oid head) = Ok eh.
Hypothesis head_under : under head_store union_c eh [] vh.
Hypothesis enough : (weight vb vh < fuel)%nat.

(** The selected files of a snapshot, and the changes between them. *)
Definition selected (v : Listing) : Listing := filter (wanted (mkMatcher (do_pathspecs opts))) (files v).
Definition all_changes : list RawChange := listing_changes (selected vb) (selected vh).

Lemma listed_NoDup oid es v : tree_of head_store union_c oid = Ok es -> under head_store union_c es [] v -> NoDup (files v).*1.
Proof. rewrite <- served_empty in *. apply (tree_files_NoDup head_store ch cb ∅ canonical). Qed.
Lemma base_NoDup : NoDup (selected vb).*1.
Proof. exact (filter_NoDup _ _ (listed_NoDup _ _ _ base_tree base_under)). Qed.
Lemma head_NoDup : NoDup (selected vh).*1.
Proof. exact (filter_NoDup _ _ (listed_NoDup _ _ _ head_tree head_under)). Qed.

(** The trees the walk compares hold the selected files. *)
Record ready (prepared : PreparedTrees) (eb' eh' : list OwnedTreeEntry) (vb' vh' : Listing) : Prop := mkReady {
  rd_own : forall oid object, served ch cb (pt_projected prepared) oid = Some object -> oid_kind oid = hash_kind head_store;
  rd_canonical : trees_canonical head_store (served ch cb (pt_projected prepared));
  rd_base : dir head_store ch cb (pt_projected prepared)
              (tree_ref_iter (oid_kind (snap_tree_oid base)) (pt_base prepared)) eb' [] vb';
  rd_head : dir head_store ch cb (pt_projected prepared)
              (tree_ref_iter (oid_kind (snap_tree_oid head)) (pt_head prepared)) eh' [] vh';
  rd_base_files : files vb' = selected vb;
  rd_head_files : files vh' = selected vh;
  rd_weight : (weight vb' vh' <= weight vb vh)%nat
}.

Lemma selected_whole v : do_pathspecs opts = [] -> selected v = files v.
Proof.
  unfold selected. intros ->. apply filter_all. intros x _. unfold wanted, matcher_matches. by rewrite bool_decide_true.
Qed.
Lemma ready_whole pb ph :
  do_pathspecs opts = [] -> Forall2 item_agrees (tree_ref_iter (oid_kind (snap_tree_oid base)) pb) eb ->
  Forall2 item_agrees (tree_ref_iter (oid_kind (snap_tree_oid head)) ph) eh -> ready (mkPrepared pb ph ∅) eb eh vb vh.
Proof.
  intros Hp Hb Hh. assert (Hc : StronglySorted git_lt eb /\ StronglySorted git_lt eh) by (split; by eapply canonical).
  split; cbn [pt_base pt_head pt_projected]; rewrite ?served_empty; rewrite ?selected_whole by done; try done; split; tauto || by rewrite served_empty.
Qed.
Lemma ready_projected prepared :
  prepared_for head_store (mkMatcher (do_pathspecs opts)) vb vh prepared -> exists eb' eh' vb' vh', ready prepared eb' eh' vb' vh'.
Proof.
  intros (Hproj & eb' & eh' & vb' & vh' & Hpb & Hph & Hwb & Hwh & Hsb & Hsh & Hub & Huh & Hfb & Hfh & Hlb & Hlh).
  assert (Hserved : forall oid object, served ch cb (pt_projected prepared) oid = Some object ->
    union_c oid = Some object \/ exists es', object = (Tree, payload_of es') /\ oid_kind oid = hash_kind head_store /\
      Forall (writable (hash_kind head_store)) es' /\ StronglySorted git_lt es').
  { intros oid object. unfold served. destruct (pt_projected prepared !! oid) as [t|] eqn:E; [|by left]. intros [= <-]. right.
    destruct (Hproj _ _ E) as (Hid & es' & -> & Hw & Hs). exists es'. by apply object_id_Ok in Hid as (_ & -> & _). }
  exists eb', eh', vb', vh'. split; try done.
  - intros oid object [Hc|(es' & _ & Hk & _)]%Hserved; [by eapply own_kind|done].
  - intros oid es Ht. destruct (served ch cb (pt_projected prepared) oid) as [object|] eqn:E; unfold tree_of in Ht; rewrite E in Ht; [|done].
    destruct (Hserved _ _ E) as [Hc|(es' & -> & _ & Hw & Hs)].
    + apply (canonical oid). unfold tree_of. by rewrite Hc.
    + cbn -[decode_owned_tree_entries] in Ht. rewrite decode_written in Ht by done. injection Ht as <-. exact Hs.
  - rewrite (tree_oid_kind _ _ base_tree), Hpb. split; [by apply tree_ref_iter_agrees, decode_written|done|by apply under_served].
  - rewrite (tree_oid_kind _ _ head_tree), Hph. split; [by apply tree_ref_iter_agrees, decode_written|done|by apply under_served].
  - unfold weight. lia.
Qed.

Definition collided : Prop := do_pathspecs opts <> [] /\ tree_collision head_store.

Lemma prepare_spec :
  hoare (on_store I) (diff_failure opts) (prepare base_store head_store fuel opts base head)
    (fun prepared => collided \/ exists eb' eh' vb' vh', ready prepared eb' eh' vb' vh').
Proof.
  unfold prepare. case_bool_decide as Hp.
  - eapply hoare_bind; [by apply read_tree_payload|]. intros pb Hb. eapply hoare_bind; [by apply read_tree_payload|].
    intros ph Hh. apply hoare_ret. right. exists eb, eh, vb, vh. by apply ready_whole.
  - assert (Hcons : forall path d, matcher_matches (mkMatcher (do_pathspecs opts)) path = true -> inside path d ->
      may_match_descendant (mkMatcher (do_pathspecs opts)) d = true) by (intros path d; by apply pruning_is_conservative).
    unfold weight in enough. eapply hoare_conseq.
    { apply (project_diff_trees_spec base_store head_store cb ch I F F_stop _ own_kind canonical Hcons fuel _ _ eb eh vb vh); done || lia. }
    + intros e [He|He]; [by left|]. right; right. by split.
    + intros prepared [Hc|Hr]; [left; by split|right]. by apply ready_projected.
Qed.

(** The walk ends with the changes, or is stopped by the file limit among
    them. *)
Definition walked (r : list RawChange * list Oid * option string) : Prop :=
  let '(changes, _, stopped) := r in
  lenN changes <= do_max_diff_files opts /\
  match stopped with
  | None => changes ≡ₚ all_changes
  | Some _ => lenN changes = do_max_diff_files opts /\ exists c rest, changes ++ c :: rest ≡ₚ all_changes
  end.

Lemma plain_diff_spec prepared eb' eh' vb' vh' w :
  ready prepared eb' eh' vb' vh' -> on_store I w ->
  wp (diff_loop head_store base_store (do_max_diff_files opts) (do_max_object_bytes opts) (pt_projected prepared) fuel
        (tree_ref_iter (oid_kind (snap_tree_oid base)) (pt_base prepared))
        (tree_ref_iter (oid_kind (snap_tree_oid head)) (pt_head prepared)) false)
    (post I F (do_max_diff_files opts) all_changes
       (fun _ => walking head_store ch cb (do_max_diff_files opts) (pt_projected prepared) all_changes [] [])) (w, WalkState_new).
Proof.
  intros [Hown Hcan Hb Hh Hfb Hfh Hwt] Hi.
  apply (diff_loop_spec head_store base_store ch cb I F _ _ _ Hown Hcan all_changes fuel _ _ eb' eh' vb' vh' [] false []); try done.
  - split; cbn; [by apply Forall_nil|by rewrite Hfb, Hfh|apply N.le_0_l|done].
  - unfold pending_weight. cbn -[weight]. lia.
Qed.

Lemma walk_changes_spec prepared eb' eh' vb' vh' :
  ready prepared eb' eh' vb' vh' ->
  hoare (on_store I) (diff_failure opts) (walk_changes track_rewrites base_store head_store fuel opts prepared base head) walked.
Proof.
  intros Hr w Hi. pose proof (plain_diff_spec _ _ _ _ _ w Hr Hi) as Hd. unfold walk_changes, plain_diff. rewrite plain.
  unfold wp in Hd. destruct (diff_loop _ _ _ _ _ _ _ _ _ _) as [r [w' s]]. cbn in Hd. destruct Hd as [Hi' Hp].
  cbn [fst snd] in *. destruct r as [u|[| |]].
  - destruct Hp as [_ Hall Hlen (Hs & He & _)]. rewrite He, Hs. cbn in *. rewrite app_nil_r in Hall. done.
  - destruct Hp as (e & He & Hf). rewrite He. split; [by left|done].
  - destruct Hp as (Hl & [(Hs & Hlen & Hrest)|(Hs & e & He & Hstop)]); rewrite Hl, Hs.
    + split; [|done]. split; [lia|done].
    + rewrite He. split; [left; by apply F_stop|done].
  - done.
Qed.

(** What a diff of the two snapshots answers. *)
Record diff_result (d : Diff) : Prop := mkDiffResult {
  dr_sorted : StronglySorted path_lt (file_change <$> di_files d);
  dr_bound : lenN (di_files d) <= do_max_diff_files opts;
  dr_changes : exists rest, (file_change <$> di_files d) ++ rest ≡ₚ all_changes /\ (di_truncated d = false -> rest = []);
  dr_summary : do_format opts = FSummary -> di_truncated d = bool_decide (do_max_diff_files opts < lenN all_changes);
  dr_count : do_format opts = FSummary -> lenN (di_files d) = N.min (do_max_diff_files opts) (lenN all_changes)
}.

(** The files of the walk's changes up to the one that a content limit
    [ps] interrupted. *)
Lemma collected_files changes oversize st ps k d :
  walked (changes, oversize, st) -> file_change <$> di_files d = take k (merge_sort change_le changes) ->
  di_truncated d = (if (match ps with Some l => Some l | None => st end) : option string then true else false) ->
  (ps = None -> (length changes <= k)%nat) -> (do_format opts = FSummary -> ps = None) -> diff_result d.
Proof.
  intros [Hlen Hst] Hf Hd Hps Hsum. pose proof (merge_sort_Permutation change_le changes) as Hperm.
  assert (Hl : lenN (di_files d) <= lenN changes).
  { unfold lenN. rewrite <- (length_fmap file_change (di_files d)), Hf, length_take, Hperm. lia. }
  assert (Hsome : exists rest, changes ++ rest ≡ₚ all_changes /\ (st = None -> rest = [])).
  { destruct st; [destruct Hst as (_ & c & rest & Hr); by exists (c :: rest)|exists []; by rewrite app_nil_r]. }
  destruct Hsome as (rest & Hall & Hrest). split.
  - rewrite Hf. apply StronglySorted_take, sorted_by_path.
    pose proof (listing_changes_NoDup _ _ base_NoDup head_NoDup) as Hnd. fold all_changes in Hnd.
    rewrite <- Hall, fmap_app in Hnd. by apply NoDup_app in Hnd as [Hnd _].
  - lia.
  - rewrite Hf. exists (drop k (merge_sort change_le changes) ++ rest). split; [by rewrite app_assoc, take_drop, Hperm|].
    rewrite Hd. destruct ps; [done|]. destruct st; [done|]. intros _. rewrite (Hrest eq_refl), app_nil_r. apply drop_ge.
    rewrite (Permutation_length Hperm). by apply Hps.
  - intros E. rewrite Hd, (Hsum E). destruct st.
    + destruct Hst as (Hm & c & r & Hr). rewrite bool_decide_true; [done|]. rewrite <- Hm. unfold lenN. rewrite <- Hr, length_app. cbn. lia.
    + rewrite bool_decide_false; [done|]. unfold lenN in *. rewrite <- Hst. lia.
  - intros E. assert (El : lenN (di_files d) = lenN changes).
    { unfold lenN. rewrite <- (length_fmap file_change (di_files d)), Hf, length_take, Hperm, Nat.min_r; [done|]. by apply Hps, Hsum. }
    rewrite El. destruct st as [x|]; unfold lenN in *; [|rewrite <- Hst; lia].
    destruct Hst as (Hm & c & r & Hr). rewrite <- Hr, length_app. lia.
Qed.

Lemma rest_keeps prepared P :
  collided ->
  hoare (on_store I) (diff_failure opts)
    (let! x := walk_changes track_rewrites base_store head_store fuel opts prepared base head in
     let '(changes, oversize, walk_stopped_by) := x in
     let changes := merge_sort change_le changes in
     let warnings :=
       if (length oversize =? 0)%nat then []
       else [mkDiffWarning OversizeSkipped "rename candidate content suppressed by max_object_bytes"] in
     let! p := populate_files base_store head_store opts oversize changes (mkPopulated [] warnings (mkUsed 0 0) (lenN oversize) None) in
     let stopped_by := match pp_stopped p with Some l => Some l | None => walk_stopped_by end in
     let warnings :=
       match stopped_by with
       | Some limit => mkDiffWarning Truncated ("diff truncated by " ++ limit) :: pp_warnings p
       | None => pp_warnings p
       end in
     finish_diff base_store head_store (pp_files p) warnings (if stopped_by then true else false) stopped_by (pp_oversize p))
    (fun d => collided \/ P d).
Proof.
  intros Hc. eapply hoare_bind.
  { eapply hoare_conseq; [apply walk_changes_keeps; by left|intros e _; right; right; split; [apply Hc|right; apply Hc]|intros a _; exact Logic.I]. }
  intros [[changes oversize] st] _. eapply hoare_bind; [apply populate_files_spec; [apply populated_new|done]|].
  intros p _. apply finish_diff_spec. by left.
Qed.

Lemma diff_spec :
  validate_diff base_store head_store base head opts = Ok tt ->
  hoare (on_store I) (diff_failure opts) (diff track_rewrites base_store head_store fuel base head opts)
    (fun d => collided \/ diff_result d).
Proof.
  intros Hv. unfold diff. rewrite Hv. eapply (hoare_bind _ _ _ _ (fun _ => True)); [by apply hoare_ret|]. intros _ _.
  eapply hoare_bind; [apply hoare_check; intros e He; left; by apply F_stop|]. intros _ _.
  eapply (hoare_bind _ _ _ _ (fun _ => True)).
  { apply hoare_lift. unfold validate_diff in Hv. apply rbind_Ok in Hv as ([] & -> & _). done. }
  intros _ _. case_bool_decide as Hsame.
  - apply finish_diff_spec. intros d Hf Hd. right. eapply (collected_files [] [] None None 0); [|by rewrite Hf|by rewrite Hd|done|done].
    assert (Hnil : all_changes = []).
    { pose proof base_tree as Hbt. rewrite Hsame, head_tree in Hbt. injection Hbt as E. pose proof base_under as Hbu.
      rewrite <- E in Hbu. unfold all_changes. rewrite (under_det _ _ _ _ _ _ Hbu head_under). apply listing_changes_same, head_NoDup. }
    split; [apply N.le_0_l|by rewrite Hnil].
  - eapply hoare_bind; [apply prepare_spec|]. intros prepared [Hc|(eb' & eh' & vb' & vh' & Hr)]; [by apply rest_keeps|].
    eapply hoare_bind; [by eapply walk_changes_spec|]. intros [[changes oversize] st] Hw.
    eapply hoare_bind; [apply populate_files_spec; [apply populated_new|done]|].
    intros p ((_ & Hsum & _) & k & Hk & Hend). apply finish_diff_spec. intros d Hf Hd. right.
    eapply (collected_files changes oversize st (pp_stopped p) k); [done|by rewrite Hf|done| |done].
    by rewrite <- (Permutation_length (merge_sort_Permutation change_le changes)).
Qed.

Lemma at_selected v p : at_entry (selected v) p =
  if matcher_matches (mkMatcher (do_pathspecs opts)) p then at_entry (files v) p else None.
Proof.
  unfold at_entry, selected. rewrite list_filter_filter. destruct (matcher_matches _ p) eqn:E.
  - f_equal. f_equal. apply list_filter_iff. intros x. unfold wanted. split; [tauto|]. intros <-. done.
  - rewrite filter_none; [done|]. intros x _ [<- Hx]. unfold wanted in Hx. congruence.
Qed.

Lemma elem_of_all_changes change : change ∈ all_changes <->
  exists p, matcher_matches (mkMatcher (do_pathspecs opts)) p = true /\
    change_of p (at_entry (files vb) p) (at_entry (files vh) p) = Some change.
Proof.
  unfold all_changes. rewrite (elem_of_listing_changes _ _ _ base_NoDup head_NoDup). f_equiv. intros p.
  rewrite !at_selected. destruct (matcher_matches _ p); [tauto|]. cbn. split; [done|]. by intros [? _].
Qed.

(** C24. A diff of two snapshots without rename tracking lists exactly the
    changes between them that its pathspecs select. Its files are sorted
    strictly by path, are at most [max_diff_files], and each is the change at a
    selected path between the two listings; when it is not truncated, the change
    at every selected path is among them; and a summary is truncated precisely
    when there are more changes than [max_diff_files]. A summary fails only as its
    stores and its budget do, the other formats also when a blob is missing or is
    something else. Globs have no escape in their fixed part, and where there
    are pathspecs two projected trees with one object id are the exception. *)
Theorem diff_lists_exact_changes w r w' :
  validate_diff base_store head_store base head opts = Ok tt -> I w.2 ->
  diff track_rewrites base_store head_store fuel base head opts w = (r, w') ->
  match r with
  | Ok d =>
      let at_path p := change_of p (at_entry (files vb) p) (at_entry (files vh) p) in
      let selects p := matcher_matches (mkMatcher (do_pathspecs opts)) p = true in
      do_pathspecs opts <> [] /\ tree_collision head_store \/
      StronglySorted path_lt (file_change <$> di_files d) /\ lenN (di_files d) <= do_max_diff_files opts /\
      (forall f, f ∈ di_files d -> exists p, selects p /\ at_path p = Some (file_change f)) /\
      (di_truncated d = false ->
       forall p c, selects p -> at_path p = Some c -> exists f, f ∈ di_files d /\ file_change f = c) /\
      (do_format opts = FSummary ->
       di_truncated d = bool_decide (do_max_diff_files opts < lenN (listing_changes (selected vb) (selected vh))))
  | Err e =>
      F (code e) \/ do_format opts <> FSummary /\ walk_failure F e \/
      do_pathspecs opts <> [] /\ (code e = HashMismatch \/ tree_collision head_store)
  end.
Proof.
  intros Hv Hi Hd. destruct (hoare_run _ _ _ _ _ _ _ (diff_spec Hv) Hi Hd) as [Hr _]. destruct r as [d|e]; [|done].
  destruct Hr as [Hc|[Hs Hb (rest & Hall & Hrest) Hsum _]]; [by left|right].
  split_and!; [done|done| |intros Ht p c Hp Hc|done].
  - intros f Hf. apply elem_of_all_changes. rewrite <- Hall. apply elem_of_app. left. by apply list_elem_of_fmap_2.
  - assert (Hc' : c ∈ all_changes) by (apply elem_of_all_changes; by exists p). rewrite <- Hall, (Hrest Ht), app_nil_r in Hc'.
    apply list_elem_of_fmap in Hc' as (f & -> & Hf). by exists f.
Qed.

End Query.

End DiffSpec.

(* ------------------------------------------------------------------ *)
(** ** Two snapshots in two stores *)

Module DiffDemo.

(** The base has [a.txt], [d/b] and [z]; the head has another [a.txt], [d/b]
    and [d/c]. *)
Definition lf (lines : list string) : bytes := mjoin ((fun l => bs l ++ [x0a]) <$> lines).
Definition base_objects : list (Oid * (ObjectKind * bytes)) :=
  [(sample_id x01, (Tree, tree_line "100644" "a.txt" (sample_id x11) ++ tree_line "40000" "d" (sample_id x02)
                            ++ tree_line "100644" "z" (sample_id x13)));
   (sample_id x02, (Tree, tree_line "100644" "b" (sample_id x12)));
   (sample_id x11, (Blob, lf ["one"; "two"; "three"]));
   (sample_id x13, (Blob, lf ["gone"]))].
Definition head_objects : list (Oid * (ObjectKind * bytes)) :=
  [(sample_id x03, (Tree, tree_line "100644" "a.txt" (sample_id x21) ++ tree_line "40000" "d" (sample_id x04)));
   (sample_id x04, (Tree, tree_line "100644" "b" (sample_id x12) ++ tree_line "100755" "c" (sample_id x14)));
   (sample_id x21, (Blob, lf ["one"; "2"; "three"; "four"]));
   (sample_id x14, (Blob, lf ["new"]))].
Definition base_repo : StaticOdb := mkStatic Sha1 (list_to_map base_objects).
Definition head_repo : StaticOdb := mkStatic Sha1 (list_to_map head_objects).
Definition base_db : ObjectDb unit := @static_db quiet unit base_repo.
Definition head_db : ObjectDb unit := @static_db quiet unit head_repo.
Definition contents : Oid -> ObjectReadResult := union_c (static_contents base_repo) (static_contents head_repo).
Definition base : Snapshot := mkSnapshot (sample_id x09) (sample_id x01).
Definition head : Snapshot := mkSnapshot (sample_id x0a) (sample_id x03).
Definition options (format : DiffFormat) (max_files max_lines : N) : DiffOptions :=
  mkDiffOptions format [] 0 RDisabled false max_files 10 max_lines 1000.
Definition within (pathspecs : list string) : DiffOptions :=
  mkDiffOptions FSummary (bs <$> pathspecs) 0 RDisabled false 10 10 10 1000.
(** A tracker that finds nothing to do. *)
Definition no_tracker (limit : N) (lhs rhs : list (option EntryRef)) (w : Budget * unit * WalkState)
  : result RewriteError unit * (Budget * unit * WalkState) := (Ok tt, w).
Definition run (opts : DiffOptions) : Res Diff * (Budget * unit) :=
  @diff quiet simple_gix simple_glob toy_digests HunksDemo.engine unit no_tracker base_db head_db 40 base head opts fresh_world.

Definition a_old : OwnedTreeEntry := mkOwned 33188 (bs "a.txt") (sample_id x11) KBlob.
Definition a_new : OwnedTreeEntry := mkOwned 33188 (bs "a.txt") (sample_id x21) KBlob.
Definition d_old : OwnedTreeEntry := mkOwned 16384 (bs "d") (sample_id x02) KTree.
Definition d_new : OwnedTreeEntry := mkOwned 16384 (bs "d") (sample_id x04) KTree.
Definition b_entry : OwnedTreeEntry := mkOwned 33188 (bs "b") (sample_id x12) KBlob.
Definition c_entry : OwnedTreeEntry := mkOwned 33261 (bs "c") (sample_id x14) KBlob.
Definition z_entry : OwnedTreeEntry := mkOwned 33188 (bs "z") (sample_id x13) KBlob.
Definition base_listing : Listing :=
  [(bs "a.txt", a_old); (bs "d", d_old); (bs "d/b", b_entry); (bs "z", z_entry)].
Definition head_listing : Listing :=
  [(bs "a.txt", a_new); (bs "d", d_new); (bs "d/b", b_entry); (bs "d/c", c_entry)].

Lemma held oid object : contents oid = Some object -> (oid, object) ∈ head_objects ++ base_objects.
Proof.
  unfold contents, union_c, union_contents, static_contents. cbn [st_objects head_repo base_repo]. intros Hc. apply elem_of_app.
  destruct (list_to_map head_objects !! oid) as [o|] eqn:E; [left; injection Hc as <-|right];
    by apply elem_of_list_to_map_2.
Qed.
Lemma own_kind oid object : contents oid = Some object -> oid_kind oid = hash_kind head_db.
Proof.
  intros Hin%held. cut (Forall (fun o => oid_kind o.1 = Sha1) (head_objects ++ base_objects)).
  { rewrite Forall_forall. intros Hall. exact (Hall _ Hin). }
  repeat constructor.
Qed.
Lemma canonical : @trees_canonical simple_gix unit head_db contents.
Proof.
  intros oid es Ht. unfold tree_of in Ht. destruct (contents oid) as [object|] eqn:E; [|done]. apply held in E.
  cut (Forall (fun o => match @entries_of_read simple_gix unit head_db o.1 (Some o.2) with
                        | Ok es => StronglySorted git_lt es
                        | Err _ => True
                        end) (head_objects ++ base_objects)).
  { rewrite Forall_forall. intros Hall. specialize (Hall _ E). cbn [fst snd] in Hall. by rewrite Ht in Hall. }
  repeat (constructor; [vm_compute; repeat constructor|]). constructor.
Qed.
Lemma base_root : @tree_of simple_gix unit head_db contents (sample_id x01) = Ok [a_old; d_old; z_entry].
Proof. vm_compute. reflexivity. Qed.
Lemma head_root : @tree_of simple_gix unit head_db contents (sample_id x03) = Ok [a_new; d_new].
Proof. vm_compute. reflexivity. Qed.
Lemma base_below : @under simple_gix unit head_db contents [a_old; d_old; z_entry] [] base_listing.
Proof.
  apply (under_leaf _ _ a_old); [done|].
  apply (under_tree _ _ d_old _ [] [b_entry] [(bs "d/b", b_entry)] [(bs "z", z_entry)]); [done|vm_compute; reflexivity| |].
  - apply (under_leaf _ _ b_entry); [done|constructor].
  - apply (under_leaf _ _ z_entry); [done|constructor].
Qed.
Lemma head_below : @under simple_gix unit head_db contents [a_new; d_new] [] head_listing.
Proof.
  apply (under_leaf _ _ a_new); [done|].
  apply (under_tree _ _ d_new _ [] [b_entry; c_entry] [(bs "d/b", b_entry); (bs "d/c", c_entry)] []);
    [done|vm_compute; reflexivity| |constructor].
  apply (under_leaf _ _ b_entry); [done|]. apply (under_leaf _ _ c_entry); [done|constructor].
Qed.

Definition shown (r : Res Diff) : option (bool * list (DiffStatus * bytes * option N * nat)) :=
  match r with
  | Ok d => Some (di_truncated d, (fun f => (df_status f, sort_path (file_change f), df_additions f, length (df_hunks f))) <$> di_files d)
  | Err _ => None
  end.

End DiffDemo.

(** The three changes of the two snapshots; with room for two files the
    summary says that it is truncated; pathspecs select among them. *)
Lemma diff_lists_exact_changes_witness :
  DiffDemo.shown (DiffDemo.run (DiffDemo.options FSummary 10 100)).1 =
    Some (false, [(Modified, bs "a.txt", None, 0%nat); (Added, bs "d/c", None, 0%nat); (Deleted, bs "z", None, 0%nat)]) /\
  DiffDemo.shown (DiffDemo.run (DiffDemo.options FSummary 2 100)).1 =
    Some (true, [(Modified, bs "a.txt", None, 0%nat); (Deleted, bs "z", None, 0%nat)]) /\
  DiffDemo.shown (DiffDemo.run (DiffDemo.within ["d"; "*.txt"])).1 =
    Some (false, [(Modified, bs "a.txt", None, 0%nat); (Added, bs "d/c", None, 0%nat)]) /\
  exists d, (DiffDemo.run (DiffDemo.options FSummary 2 100)).1 = Ok d /\ lenN (di_files d) <= 2 /\
    forall f, f ∈ di_files d ->
      exists p, change_of p (at_entry (files DiffDemo.base_listing) p) (at_entry (files DiffDemo.head_listing) p)
                = Some (file_change f).
Proof.
  do 3 (split; [vm_compute; reflexivity|]).
  pose proof (@diff_lists_exact_changes quiet simple_gix simple_glob toy_digests HunksDemo.engine HunksDemo.lawful unit
    DiffDemo.base_db DiffDemo.head_db (static_contents DiffDemo.base_repo) (static_contents DiffDemo.head_repo) (fun _ => True)
    plain_failure _ _ plain_stop DiffDemo.own_kind DiffDemo.canonical _ DiffDemo.no_tracker DiffDemo.base DiffDemo.head
    (DiffDemo.options FSummary 2 100) _ _ DiffDemo.base_listing DiffDemo.head_listing 40 eq_refl (Forall_nil_2 _)
    DiffDemo.base_root DiffDemo.base_below DiffDemo.head_root DiffDemo.head_below ltac:(cbn; lia) fresh_world
    (DiffDemo.run (DiffDemo.options FSummary 2 100)).1 (DiffDemo.run (DiffDemo.options FSummary 2 100)).2
    eq_refl Logic.I ltac:(apply surjective_pairing)) as Hd.
  destruct (DiffDemo.run (DiffDemo.options FSummary 2 100)).1 as [d|e] eqn:E; [|vm_compute in E; discriminate E].
  exists d. destruct Hd as [[Hp _]|(_ & Hl & Hf & _)]; [by destruct Hp|]. split_and!; [done|done|].
  intros f Hin. destruct (Hf f Hin) as (p & _ & Hc). by exists p.
Defined.

(** The patch of [a.txt] is two hunks; with room for three lines the diff is
    truncated after it. *)
Lemma diff_patches_rebuild_blobs_witness :
  DiffDemo.shown (DiffDemo.run (DiffDemo.options FPatch 10 100)).1 =
    Some (false, [(Modified, bs "a.txt", Some 2, 2%nat); (Added, bs "d/c", Some 1, 1%nat); (Deleted, bs "z", Some 0, 1%nat)]) /\
  DiffDemo.shown (DiffDemo.run (DiffDemo.options FPatch 10 3)).1 =
    Some (true, [(Modified, bs "a.txt", Some 2, 2%nat); (Added, bs "d/c", Some 1, 0%nat)]) /\
  exists d, (DiffDemo.run (DiffDemo.options FPatch 10 100)).1 = Ok d /\
    Forall (blob_patch_shown DiffDemo.contents) (di_files d).
Proof.
  split; [vm_compute; reflexivity|]. split; [vm_compute; reflexivity|].
  destruct (DiffDemo.run (DiffDemo.options FPatch 10 100)) as [[d|e] w'] eqn:E; [|vm_compute in E; discriminate E].
  exists d. split; [done|].
  pose proof (@diff_patches_rebuild_blobs quiet simple_gix simple_glob toy_digests HunksDemo.engine HunksDemo.lawful unit
    DiffDemo.base_db DiffDemo.head_db (static_contents DiffDemo.base_repo) (static_contents DiffDemo.head_repo) (fun _ => True)
    plain_failure _ _ plain_stop DiffDemo.no_tracker (fun _ _ _ _ _ => Logic.I) 40 DiffDemo.base DiffDemo.head
    (DiffDemo.options FPatch 10 100) fresh_world d w' eq_refl Logic.I E) as Hd.
  vm_compute in E. injection E as <- _. exact Hd.
Defined.
