(* ===== verification/PathHistory.v ===== *)
(** * The history of a path ([path_history.rs])

    The chronological walk of the log, each commit compared with its first
    parent at one path. The comparison is a summary diff with the path as its
    only pathspec; a root commit is asked for the path itself. When a commit adds
    the path and renames are followed, a second diff with the rename tracker
    gives the path to go on with. The walk's limit is [usize::MAX], a number
    that is kept folded. *)

From Stdlib Require Import NArith ZArith Lia Strings.Byte Strings.String.
From stdpp Require Import prelude gmap strings list sorting.
From S2P Require Import Prelude Errors Objects Budget Cursor Odb Decode Snapshot Graph Ancestry Pathspec Tree File LogWalk Log Scan Hunks TreeDiff Projection Diff.

Open Scope N_scope.

(** [HistoryOptions] and its default. *)
Record HistoryOptions : Type := mkHistoryOptions {
  ho_follow_renames : bool;
  ho_limit : nat;
  ho_cursor : option bytes
}.
Definition HistoryOptions_default : HistoryOptions := mkHistoryOptions true 1000 None.

(** [usize::MAX] as a natural number, never computed. *)
Lemma usize_max_nat : { n : nat | N.of_nat n = u64_max }.
Proof. exists (N.to_nat u64_max). apply N2Nat.id. Qed.

(** The options of the walk and of the two diffs. *)
Definition walk_options : LogOptions :=
  mkLogOptions Chronological (lo_first_parent LogOptions_default) (lo_since LogOptions_default)
    (lo_until LogOptions_default) (proj1_sig usize_max_nat) (lo_cursor LogOptions_default).
Definition focused_options (path : bytes) (max_object_bytes : N) : DiffOptions :=
  mkDiffOptions FSummary [path] (do_context_lines DiffOptions_default) (do_renames DiffOptions_default)
    (do_copies DiffOptions_default) 2 1 1 max_object_bytes.
Definition rewrite_options (max_object_bytes : N) : DiffOptions :=
  mkDiffOptions FSummary (do_pathspecs DiffOptions_default) (do_context_lines DiffOptions_default) RSimilarity
    (do_copies DiffOptions_default) u64_max 1 1 max_object_bytes.

(** [PathChange]. *)
Record PathChange : Type := mkPathChange {
  pc_changed : bool;
  pc_rename_source : option bytes
}.

(** [option_fingerprint], the identity of a cursor, and [decode_resume]. *)
Definition history_fingerprint (path : bytes) (follow_renames : bool) : N :=
  fnv1a_64 (bs "history-v1" ++ [x00] ++ le_bytes 8 (lenN path) ++ path ++ [if follow_renames then x01 else x00]).
Definition history_expected (snapshot : Snapshot) (path : bytes) (opts : HistoryOptions) : CursorExpected :=
  mkExpected (oid_kind (commit_oid snapshot)) (as_bytes (commit_oid snapshot)) OPERATION_HISTORY
    (history_fingerprint path (ho_follow_renames opts)).
Definition history_resume (snapshot : Snapshot) (path : bytes) (opts : HistoryOptions) : Res (option Oid) :=
  match ho_cursor opts with
  | Some encoded =>
      let? id := decode_resume encoded (history_expected snapshot path opts) (oid_kind (commit_oid snapshot)) in
      Ok (Some id)
  | None => Ok None
  end.
Definition history_cursor (snapshot : Snapshot) (path : bytes) (opts : HistoryOptions) (id : Oid) : Cursor :=
  mkCursor (oid_kind (commit_oid snapshot)) (as_bytes (commit_oid snapshot)) OPERATION_HISTORY
    (history_fingerprint path (ho_follow_renames opts)) [] (as_bytes id).

Section History.
Context `{Env, GixObject, GixGlob, Digests, BlobDiff} {T : Type}.
Context (track_rewrites : N -> list (option EntryRef) -> list (option EntryRef) ->
           Budget * T * WalkState -> result RewriteError unit * (Budget * T * WalkState)).
Context (db : ObjectDb T) (opts : HistoryOptions) (fuel : nat).

(** [budget.limits().max_object_bytes]. *)
Definition max_object_bytes_now : DM T N := fun '(b, t) => (Ok (max_object_bytes (limits b)), (b, t)).

(** The path of a root commit: whether it is there. *)
Definition root_change (commit : LogCommit) (path : bytes) : DM T PathChange :=
  fun w =>
    match resolve_path db (mkSnapshot (lc_id commit) (lc_tree_id commit)) path w with
    | (Ok (Entry _), w) => (Ok (mkPathChange true None), w)
    | (Ok (RootTree _), w) => (Ok (mkPathChange false None), w)
    | (Err e, w) =>
        if bool_decide (code e = InvalidPath) then (Ok (mkPathChange false None), w) else (Err e, w)
    end.

(** The source of a rename to [path], by a diff with the tracker. *)
Definition rename_source (base head : Snapshot) (path : bytes) : DM T (option bytes) :=
  let! max := max_object_bytes_now in
  let! rewritten := diff track_rewrites db db fuel base head (rewrite_options max) in
  if negb (qs_oversize_skipped (di_stats rewritten) =? 0) then
    sthrow (with_limit "max_object_bytes"
              (Error_new ObjectTooLarge "path-history rename candidates exceed max_object_bytes"))
  else
    sret (match list.head (filter (fun f => df_status f = Renamed /\ df_new_path f = Some path) (di_files rewritten)) with
          | Some file => df_old_path file
          | None => None
          end).

(** [path_change]. *)
Definition path_change (commit : LogCommit) (path : bytes) : DM T PathChange :=
  match lc_parents commit with
  | [] => root_change commit path
  | parent_id :: _ =>
      let! parent_payload := read_payload db parent_id false in
      let! parent := slift (decode_log_commit parent_id parent_payload (is_shallow db parent_id)) in
      let base := mkSnapshot (lc_id parent) (lc_tree_id parent) in
      let head := mkSnapshot (lc_id commit) (lc_tree_id commit) in
      let! max := max_object_bytes_now in
      let! focused := diff track_rewrites db db fuel base head (focused_options path max) in
      match di_files focused with
      | [] => sret (mkPathChange false None)
      | file :: _ =>
          let added := bool_decide (df_status file = Added) in
          if negb added || negb (ho_follow_renames opts) then sret (mkPathChange true None)
          else
            let! source := rename_source base head path in
            sret (mkPathChange true source)
      end
  end.

(** The closure [load_change]: the commit and its change. *)
Definition load_change (walked : WalkedCommit) (path : bytes) : DM T (LogCommit * PathChange) :=
  let! payload := read_payload db (wc_id walked) false in
  let! commit := slift (decode_log_commit (wc_id walked) payload (is_shallow db (wc_id walked))) in
  let! change := path_change commit path in
  sret (commit, change).

(** What the loop does without charging while it replays the prefix of a
    cursor. *)
Definition replaying {A} (found : bool) (m : DM T A) : DM T A :=
  if found then m else without_object_recharge m.
Definition next_walked (found : bool) (walk : Walk) : DM T (option (Res WalkedCommit) * Walk) :=
  replaying found (fun w => let '(item, walk, w) := walk_next db walk_options found walk w in (Ok (item, walk), w)).

(** The end of an iteration: the failure that the walk left, or the next
    iteration [k]. *)
Definition after_commit (walk : Walk) (commits : list LogCommit) (found : bool)
  (k : Walk -> Budget * T -> Res (list LogCommit * option string * bool) * (Budget * T)) (w : Budget * T)
  : Res (list LogCommit * option string * bool) * (Budget * T) :=
  match take_pending_error walk with
  | (Some e, _) => stop_or_fail e commits found w
  | (None, walk) => k walk w
  end.

(** The loop of [history]: the commits, what stopped it, whether the resume
    commit was found. *)
Fixpoint history_loop (steps : nat) (walk : Walk) (resume : option Oid) (found : bool) (tracked : bytes)
  (commits : list LogCommit) (w : Budget * T) : Res (list LogCommit * option string * bool) * (Budget * T) :=
  match steps with
  | O => (Err diverged, w)
  | S steps =>
      match on_budget check w with
      | (Err e, w) => (Err e, w)
      | (Ok _, w) =>
          match next_walked found walk w with
          | (Err e, w) => (Err e, w)
          | (Ok (None, _), w) => (Ok (commits, None, found), w)
          | (Ok (Some (Err e), _), w) => stop_or_fail e commits found w
          | (Ok (Some (Ok walked), walk), w) =>
              match replaying found (load_change walked tracked) w with
              | (Err e, w) => stop_or_fail e commits found w
              | (Ok (commit, change), w) =>
                  let tracked := default tracked (pc_rename_source change) in
                  if pc_changed change then
                    if negb found then
                      history_loop steps walk resume (bool_decide (Some (wc_id walked) = resume)) tracked commits w
                    else if (length commits =? ho_limit opts)%nat then (Ok (commits, Some "limit"%string, found), w)
                    else
                      let commits := commits ++ [commit] in
                      after_commit walk commits found
                        (fun walk => history_loop steps walk resume found tracked commits) w
                  else
                    after_commit walk commits found
                      (fun walk => history_loop steps walk resume found tracked commits) w
              end
          end
      end
  end.

(** The end of [history]: the cursor and the statistics. *)
Definition finish_history (snapshot : Snapshot) (path : bytes) (commits : list LogCommit) (stopped_by : option string)
  : DM T LogPage :=
  let truncated := match stopped_by with Some _ => true | None => false end in
  if truncated && bool_decide (commits = []) then
    sthrow (with_limit (default EmptyString stopped_by)
              (Error_new BudgetExceeded "budget exhausted before any path-history pagination progress"))
  else
    let! next_cursor :=
      (if truncated then
         match last commits with
         | None => sthrow walk_panic
         | Some commit =>
             let encoded := encode (history_cursor snapshot path opts (lc_id commit)) in
             if (MAX_CURSOR_BYTES <? length encoded)%nat then
               sthrow (Error_new ResultTooLarge "history cursor exceeds the cursor size limit")
             else sret (Some encoded)
         end
       else sret None) in
    fun '(b, t) =>
      let '(objects_read, bytes_read, _, _) := spent b in
      let '(hits, misses) := cache_spent b in
      (Ok (mkLogPage commits next_cursor truncated
             (mkQueryStats objects_read bytes_read (lenN commits) hits misses (cache_stats db t)
                0 0 0 0 0 stopped_by)),
       (b, t)).

(** The checks [history] makes before it reads anything. *)
Definition validate_history (snapshot : Snapshot) (path : bytes) : Res unit :=
  let? _ := ensure_sha1 db [commit_oid snapshot; snap_tree_oid snapshot] in
  let? _ := validate_literal_path path "history" in
  if bool_decide (path = []) then Err (Error_new InvalidPath "history path must name a repository entry")
  else if (ho_limit opts =? 0)%nat then
    Err (Error_new InvalidArgument "history page limit must be greater than zero")
  else Ok tt.

(** [history]. *)
Definition history (snapshot : Snapshot) (path : bytes) : DM T LogPage :=
  let! _ := slift (validate_history snapshot path) in
  let! _ := on_budget check in
  let! resume := slift (history_resume snapshot path opts) in
  let! walk := replaying (bool_decide (resume = None)) (walk_new db walk_options fuel (commit_oid snapshot)) in
  let! (commits, stopped_by, found) := history_loop fuel walk resume (bool_decide (resume = None)) path [] in
  if negb found then
    sthrow (log_invalid_cursor "position check failed: commit is not an emitted history commit")
  else finish_history snapshot path commits stopped_by.

End History.

(* ------------------------------------------------------------------ *)
(** ** The comparison at a path *)

(** A literal path, as a pathspec, selects itself and what lies inside it. *)
Lemma literal_path path operation :
  validate_literal_path path operation = Ok tt -> strip_magic path = (path, false) /\ existsb is_meta path = false.
Proof.
  unfold validate_literal_path. destruct (validate_path path); [|done]. cbn [rbind].
  destruct (starts_with path (bs ":(")) eqn:Es; [done|]. destruct (existsb is_meta path) eqn:Em; [done|]. intros _. split; [|done].
  unfold strip_magic. destruct (strip_prefix (bs ":(glob)") path) as [r|] eqn:E; [|done]. apply strip_prefix_Some in E as ->.
  cbn in Es. done.
Qed.
Lemma literal_selects `{GixGlob} path operation q :
  validate_literal_path path operation = Ok tt ->
  matcher_matches (mkMatcher [path]) q = true <-> q = path \/ inside q path.
Proof.
  intros [Hs Hm]%literal_path. unfold matcher_matches. rewrite bool_decide_false by done. cbn [orb existsb patterns].
  rewrite orb_false_r. unfold pattern_matches. rewrite Hs, Hm. cbn [negb andb].
  by rewrite orb_true_iff, bytes_eqb_true, below_inside.
Qed.
Lemma literal_escape_free path operation : validate_literal_path path operation = Ok tt -> escape_free path.
Proof. intros [Hs Hm]%literal_path. unfold escape_free. rewrite Hs, Hm. done. Qed.

(** The cursor of a page resumes at the commit it names. *)
Lemma length_history_cursor snapshot path opts id :
  (length (encode (history_cursor snapshot path opts id)) <= MAX_CURSOR_BYTES)%nat.
Proof.
  rewrite length_encode. unfold encode_body, history_cursor. cbn [cur_snapshot_digest cur_generation cur_position].
  rewrite !length_app, !length_le_bytes, !length_cons, !length_nil.
  pose proof (length_as_bytes id). pose proof (length_as_bytes (commit_oid snapshot)). unfold MAX_CURSOR_BYTES. lia.
Qed.
Lemma history_cursor_resumes snapshot path opts id :
  Oid_wf (commit_oid snapshot) -> Oid_wf id -> oid_kind id = oid_kind (commit_oid snapshot) ->
  ho_cursor opts = Some (encode (history_cursor snapshot path opts id)) ->
  history_resume snapshot path opts = Ok (Some id).
Proof.
  intros [_ Hs] Hid Hk Hc. unfold history_resume, decode_resume. rewrite Hc.
  change (history_expected snapshot path opts) with (expected_of (history_cursor snapshot path opts id)).
  rewrite decode_encode; cbn [rbind history_cursor cur_generation cur_position].
  - by rewrite bool_decide_eq_true_2, <- Hk, Oid_new_as_bytes by done.
  - unfold cursor_fits. cbn [history_cursor cur_snapshot_digest cur_hash_kind cur_option_fingerprint cur_generation cur_position].
    pose proof (length_as_bytes id). split_and!; [done|apply fnv1a_64_lt|done| |apply length_history_cursor].
    unfold lenN, u16_max. lia.
Qed.

(** One store in both places of a union. *)
Lemma union_same c oid : union_contents c c oid = c oid.
Proof. unfold union_contents. by destruct (c oid). Qed.
Lemma tree_of_same `{GixObject} {T} (db : ObjectDb T) c oid : tree_of db (union_contents c c) oid = tree_of db c oid.
Proof. unfold tree_of. by rewrite union_same. Qed.
Lemma under_same `{GixObject} {T} (db : ObjectDb T) c es prefix vs :
  under db c es prefix vs -> under db (union_contents c c) es prefix vs.
Proof.
  induction 1 as [|e es prefix vs Hk _ IH|e es prefix children vs1 vs2 Hk Ht _ IH1 _ IH2]; [constructor|by constructor|].
  eapply under_tree; try done. by rewrite tree_of_same.
Qed.

Section HistorySpec.
Context `{Env, GixObject, GixGlob, Digests} `{!BlobDiff} `{!LawfulBlobDiff _} `{!TreeFormat _} {T : Type}.
Context (db : ObjectDb T) (c : Oid -> ObjectReadResult) (I : T -> Prop) (F : ErrorCode -> Prop).
Context `{!LawfulDb db c I F}.
Hypothesis F_stop : forall e, budget_stop e -> F (code e).
Hypothesis F_path : ~ F InvalidPath.
Hypothesis own_kind : forall oid object, c oid = Some object -> oid_kind oid = hash_kind db.
Hypothesis canonical : trees_canonical db c.
Context (track_rewrites : N -> list (option EntryRef) -> list (option EntryRef) ->
           Budget * T * WalkState -> result RewriteError unit * (Budget * T * WalkState)).
Context (path : bytes) (fuel : nat).

(** A commit of the store, the entries below a tree, and the commits whose tree
    differs at the path from that of their first parent. *)
Definition decoded_commit (id : Oid) (lc : LogCommit) : Prop :=
  exists p, c id = Some (Commit, p) /\ decode_log_commit id p (is_shallow db id) = Ok lc.
Definition tree_listing (oid : Oid) (v : Listing) : Prop :=
  exists es, tree_of db c oid = Ok es /\ under db c es [] v.
Definition touched (lc : LogCommit) : Prop :=
  match lc_parents lc with
  | [] => exists e, at_path db c (lc_tree_id lc) (split_on is_slash path) e
  | parent :: _ =>
      exists lp vb vh q, decoded_commit parent lp /\ tree_listing (lc_tree_id lp) vb /\ tree_listing (lc_tree_id lc) vh /\
        (q = path \/ inside q path) /\ change_of q (at_entry (files vb) q) (at_entry (files vh) q) <> None
  end.

Hypothesis sha1 : hash_kind db = Sha1.
Hypothesis literal : validate_literal_path path "history" = Ok tt.
Hypothesis nonempty : path <> [].
Hypothesis listings : forall id lc, decoded_commit id lc -> exists v, tree_listing (lc_tree_id lc) v /\ (4 * length v < fuel)%nat.

Definition history_failure (e : Error) : Prop :=
  F (code e) \/ code e ∈ [MissingObject; NotATree; MalformedObject; HashMismatch] \/ tree_collision db.

Lemma decoded_commit_det id lc lc' : decoded_commit id lc -> decoded_commit id lc' -> lc = lc'.
Proof. intros (p & Hp & Hd) (p' & Hp' & Hd'). congruence. Qed.
Lemma listing_det oid v v' : tree_listing oid v -> tree_listing oid v' -> v = v'.
Proof.
  intros (es & Ht & Hu) (es' & Ht' & Hu'). rewrite Ht in Ht'. injection Ht' as <-. by eapply (under_det db c).
Qed.
Lemma decoded_commit_kind id lc : decoded_commit id lc -> lc_id lc = id /\ oid_kind id = Sha1.
Proof.
  intros (p & Hp & Hd). split; [by eapply decode_log_commit_id|]. rewrite <- sha1. by eapply own_kind.
Qed.
Lemma listing_kind oid v : tree_listing oid v -> oid_kind oid = Sha1.
Proof.
  intros (es & Ht & _). unfold tree_of in Ht. destruct (c oid) eqn:E; [|done]. rewrite <- sha1. by eapply own_kind.
Qed.

(** The two snapshots of a comparison pass the checks of a diff. *)
Lemma history_validates base head max :
  oid_kind (commit_oid base) = Sha1 -> oid_kind (commit_oid head) = Sha1 ->
  oid_kind (snap_tree_oid base) = Sha1 -> oid_kind (snap_tree_oid head) = Sha1 ->
  validate_diff db db base head (focused_options path max) = Ok tt.
Proof.
  intros E1 E2 E3 E4. unfold validate_diff, union_new, ensure_query_compatible.
  rewrite sha1, E1, E2, E3, E4. reflexivity.
Qed.

Lemma focused_spec base head vb vh max :
  tree_listing (snap_tree_oid base) vb -> tree_listing (snap_tree_oid head) vh -> (weight vb vh < fuel)%nat ->
  oid_kind (commit_oid base) = Sha1 -> oid_kind (commit_oid head) = Sha1 ->
  hoare (on_store I) history_failure (diff track_rewrites db db fuel base head (focused_options path max))
    (fun d => tree_collision db \/
       (di_files d <> [] <-> exists q, (q = path \/ inside q path) /\
          change_of q (at_entry (files vb) q) (at_entry (files vh) q) <> None)).
Proof.
  intros Hb Hh Hf Ek1 Ek2. pose proof (history_validates base head max Ek1 Ek2 (listing_kind _ _ Hb) (listing_kind _ _ Hh)) as Hv.
  destruct Hb as (eb & Htb & Hub), Hh as (eh & Hth & Huh).
  assert (Hown : forall oid object, union_c c c oid = Some object -> oid_kind oid = hash_kind db).
  { intros oid object Hc. unfold union_c in Hc. rewrite union_same in Hc. by eapply own_kind. }
  assert (Hcan : trees_canonical db (union_c c c)).
  { intros oid es Ht. unfold union_c in Ht. rewrite tree_of_same in Ht. by eapply canonical. }
  rewrite <- tree_of_same in Htb, Hth. apply under_same in Hub, Huh. fold (union_c c c) in Htb, Hth, Hub, Huh.
  assert (Hesc : Forall escape_free (do_pathspecs (focused_options path max))).
  { constructor; [by eapply literal_escape_free|constructor]. }
  eapply hoare_conseq.
  { exact (diff_spec db db c c I F F_stop Hown Hcan track_rewrites base head (focused_options path max) eb eh vb vh fuel
      eq_refl Hesc Htb Hub Hth Huh Hf Hv). }
  - intros e [He|[[Hn _]|[_ [He|He]]]]; [by left|done|right; left; rewrite He; set_solver|by right; right].
  - intros d [[_ Hc]|Hd]; [by left|right].
    pose proof (elem_of_all_changes db c c Hown Hcan base head (focused_options path max) eb eh vb vh Htb Hub Hth Huh) as Hin.
    assert (Hall : di_files d <> [] <-> all_changes (focused_options path max) vb vh <> []).
    { pose proof (dr_count _ _ _ _ Hd eq_refl) as Hn. cbn [do_max_diff_files focused_options] in Hn.
      unfold lenN in Hn. destruct (di_files d), (all_changes _ _ _); cbn [length] in Hn; split; intros; try done; lia. }
    rewrite Hall. split.
    + intros Hne. destruct (all_changes _ _ _) as [|ch rest]; [done|]. destruct (proj1 (Hin ch)) as (q & Hq & Hch); [by left|].
      exists q. split; [by eapply literal_selects|]. by rewrite Hch.
    + intros (q & Hq & Hch). destruct (change_of q _ _) as [ch|] eqn:Ec; [|done].
      assert (ch ∈ all_changes (focused_options path max) vb vh) as Hx by (apply Hin; exists q; split; [by eapply literal_selects|done]).
      intros Hn. rewrite Hn in Hx. by apply not_elem_of_nil in Hx.
Qed.

Lemma root_change_spec lc :
  lc_parents lc = [] ->
  hoare (on_store I) history_failure (root_change db lc path)
    (fun pc => pc_rename_source pc = None /\ (pc_changed pc = true <-> touched lc)).
Proof.
  intros Hp w Hw. unfold touched. rewrite Hp. unfold root_change. set (s := mkSnapshot (lc_id lc) (lc_tree_id lc)).
  assert (Hden : forall r, denotes db c s path r <-> exists e, at_path db c (lc_tree_id lc) (split_on is_slash path) e /\
    r = Entry (mkResolved (oe_oid e) (oe_mode e) (oe_kind e))).
  { intros r. unfold denotes. rewrite bool_decide_false by done. split; [by intros [_ Hr]|]. intros Hr. split; [|done].
    unfold validate_literal_path in literal. by destruct (validate_path path) as [[]|]. }
  destruct (resolve_path_by_spec db c I F _ s path (read_tree_entries_spec db c I F) w Hw) as [Hr Hw'].
  unfold resolve_path. destruct (resolve_path_by _ s path w) as [[r|e] w']; cbn in Hr, Hw'.
  - apply Hden in Hr as (e & He & ->). split; [|done]. cbn. split; [done|]. split; [by exists e|done].
  - case_bool_decide as Ei.
    + split; [|done]. cbn. split; [done|]. split; [done|]. intros [x Hx].
      destruct Hr as [He|[_ Hn]]; [by rewrite Ei in He|]. destruct (Hn (Entry (mkResolved (oe_oid x) (oe_mode x) (oe_kind x)))).
      apply Hden. by exists x.
    + split; [|done]. destruct Hr as [He|[He _]]; [by left|]. right; left.
      apply elem_of_cons in He as [He|He]; [done|]. apply (elem_of_app [MissingObject; NotATree; MalformedObject] [HashMismatch]). by left.
Qed.

Context (start : Oid) (K : list Oid).
Let meta := log_meta db c walk_options.
Hypothesis complete : complete_history meta start.
Hypothesis K_covers : forall x m, meta x = Some m -> x ∈ K.

(** The listed commits of a stretch of the walk: the touched ones. *)
Inductive lists_touched : list WalkedCommit -> list LogCommit -> Prop :=
| lists_touched_nil : lists_touched [] []
| lists_touched_keep x xs lc lcs : listed db c x lc -> touched lc -> lists_touched xs lcs -> lists_touched (x :: xs) (lc :: lcs)
| lists_touched_skip x xs lc lcs : listed db c x lc -> ~ touched lc -> lists_touched xs lcs -> lists_touched (x :: xs) lcs.

Lemma lists_touched_app xs ys lcs lcs' : lists_touched xs lcs -> lists_touched ys lcs' -> lists_touched (xs ++ ys) (lcs ++ lcs').
Proof. induction 1 as [|x xs lc lcs Hl Ht _ IH|x xs lc lcs Hl Ht _ IH]; intros Hy; cbn; [done|..]; econstructor; eauto. Qed.
Lemma lists_touched_drop xs ys lcs : lists_touched xs [] -> lists_touched (xs ++ ys) lcs -> lists_touched ys lcs.
Proof.
  intros Hx. remember (@nil LogCommit) as none eqn:E. induction Hx as [|x xs lc lcs' Hl Ht _ IH|x xs lc lcs' Hl Ht _ IH]; [intros Hs; exact Hs|done|].
  subst lcs'. intros Hs. inversion Hs as [|? ? lc' ? Hl' Ht'|]; subst; [|by apply IH].
  destruct Ht. by rewrite (decoded_commit_det _ _ _ Hl Hl').
Qed.

Section OnePage.
Context (opts : HistoryOptions).
Hypothesis no_follow : ho_follow_renames opts = false.

Lemma path_change_spec id lc :
  decoded_commit id lc -> (forall p, list.head (lc_parents lc) = Some p -> exists payload, c p = Some (Commit, payload)) ->
  hoare (on_store I) history_failure (path_change track_rewrites db opts fuel lc path)
    (fun pc => tree_collision db \/ pc_rename_source pc = None /\ (pc_changed pc = true <-> touched lc)).
Proof.
  intros Hlc Hparent. unfold path_change. destruct (lc_parents lc) as [|parent ps] eqn:Ep.
  { eapply hoare_post; [by apply root_change_spec|]. intros pc Hpc. by right. }
  destruct (Hparent parent eq_refl) as [payload Hc].
  eapply hoare_bind; [eapply hoare_conseq; [by apply (read_payload_spec db c I F parent false payload)|intros e He; by left|intros a Ha; exact Ha]|].
  intros ? ->. destruct (decode_log_commit parent payload (is_shallow db parent)) as [lp|e] eqn:Ed.
  2: { eapply (hoare_bind _ _ _ _ (fun _ => False)); [|done]. apply hoare_lift. right; left.
       rewrite (decode_log_commit_Err _ _ _ _ Ed). set_solver. }
  eapply (hoare_bind _ _ _ _ (fun x => x = lp)); [by apply hoare_lift|]. intros ? ->.
  assert (Hlp : decoded_commit parent lp) by (by exists payload).
  destruct (listings _ _ Hlp) as (vb & Hvb & Hwb), (listings _ _ Hlc) as (vh & Hvh & Hwh).
  eapply (hoare_bind _ _ _ _ (fun _ => True)); [by intros [b t]|]. intros max _.
  destruct (decoded_commit_kind _ _ Hlp) as [Elp Hkp], (decoded_commit_kind _ _ Hlc) as [Elc Hkc].
  eapply hoare_bind.
  { apply (focused_spec (mkSnapshot (lc_id lp) (lc_tree_id lp)) (mkSnapshot (lc_id lc) (lc_tree_id lc)) vb vh max Hvb Hvh);
      cbn; [unfold weight; lia|by rewrite Elp|by rewrite Elc]. }
  intros d Hd.
  assert (Ht : touched lc <-> exists q, (q = path \/ inside q path) /\
    change_of q (at_entry (files vb) q) (at_entry (files vh) q) <> None).
  { unfold touched. rewrite Ep. split.
    - intros (lp' & vb' & vh' & q & Hlp' & Hb' & Hh' & Hq & Hch). rewrite <- (decoded_commit_det _ _ _ Hlp Hlp') in Hb'.
      rewrite <- (listing_det _ _ _ Hvb Hb'), <- (listing_det _ _ _ Hvh Hh') in Hch. by exists q.
    - intros (q & Hq & Hch). by exists lp, vb, vh, q. }
  destruct (di_files d) as [|f fs] eqn:Ef; [|cbv zeta; rewrite no_follow; cbn [negb]; rewrite orb_true_r]; apply hoare_ret; (destruct Hd as [Hd|Hd]; [by left|right]; split; [done|]);
    rewrite Ht, <- Hd, Ef; (split; intros Hx; first [done|by destruct Hx]).
Qed.

(** ** Pages of the history *)

Definition history_page (rest : list WalkedCommit) (before : list LogCommit)
  (page : list LogCommit * option string * bool) : Prop :=
  let '(commits, stopped, found) := page in
  found = true /\ (length commits <= ho_limit opts)%nat /\
  exists new seg later, commits = before ++ new /\ rest = seg ++ later /\ lists_touched seg new /\
    match stopped with
    | None => later = []
    | Some _ => commits <> []
    end.

Lemma history_stop rest before stopped :
  before <> [] -> (length before <= ho_limit opts)%nat -> history_page rest before (before, Some stopped, true).
Proof. intros Hb Hl. split_and!; [done..|]. exists [], [], rest. rewrite app_nil_r. split_and!; try done. constructor. Qed.
Lemma history_stop_or_fail e rest commits w :
  history_failure e -> (length commits <= ho_limit opts)%nat ->
  outcome history_failure (history_page rest commits) (stop_or_fail (T:=T) e commits true w).1.
Proof.
  intros He Hl. unfold stop_or_fail. destruct (truncatable e); cbn [andb]; [|done].
  case_bool_decide; cbn [negb]; [done|]. by apply history_stop.
Qed.
Lemma stop_or_fail_world e commits found (w : Budget * T) : (stop_or_fail e commits found w).2 = w.
Proof. unfold stop_or_fail. by case_match. Qed.
Lemma history_keep x rest before lc page :
  listed db c x lc -> touched lc -> history_page rest (before ++ [lc]) page -> history_page (x :: rest) before page.
Proof.
  destruct page as [[commits stopped] found]. intros Hx Ht (Hf & Hl & new & seg & later & -> & -> & Hs & Hst). split; [done|]. split; [done|].
  exists (lc :: new), (x :: seg), later. rewrite <- app_assoc in Hst |- *. split_and!; try done. by constructor.
Qed.
Lemma history_skip x rest before lc page :
  listed db c x lc -> ~ touched lc -> history_page rest before page -> history_page (x :: rest) before page.
Proof.
  destruct page as [[commits stopped] found]. intros Hx Ht (Hf & Hl & new & seg & later & -> & -> & Hs & Hst). split; [done|]. split; [done|].
  exists new, (x :: seg), later. split_and!; try done. by econstructor.
Qed.

(** ** One iteration *)

Lemma next_spec dated found steps pre s w :
  walk_inv meta start dated pre s -> (length K - length pre < S steps)%nat -> I w.2 ->
  exists item s' w', next_walked db found s w = (Ok (item, s'), w') /\ I w'.2 /\
    match item with
    | None => walk_order meta (S steps) s = []
    | Some (Err e) => F (code e)
    | Some (Ok x) => exists s1, walk_order meta (S steps) s = x :: walk_order meta steps s1 /\
        walk_inv meta start dated (pre ++ [wc_id x]) s1 /\ (length K - length (pre ++ [wc_id x]) < steps)%nat /\
        (0 < steps)%nat /\ (s' = s1 \/ exists e, pending_of s' = Some e /\ F (code e))
    end.
Proof.
  intros Hi Hs Hw. destruct w as [b t]. unfold next_walked, replaying.
  assert (Hstep : forall b, let '(item, s', w') := walk_next db walk_options found s (b, t) in I w'.2 /\ _) by
    (intros b'; exact (log_step db c I F F_stop walk_options start complete K K_covers dated found steps pre s (b', t) Hi Hs Hw)).
  destruct found.
  - specialize (Hstep b). destruct (walk_next db walk_options true s (b, t)) as [[item s'] w'] eqn:E.
    exists item, s', w'. destruct Hstep as [Hw' Hitem]. split_and!; [done|done|].
    destruct item as [[x|e]|]; [|done|done]. destruct Hitem as (s1 & ?Ho & ?Hi & ?Hk & _ & ?Hp & ?Hn). by exists s1.
  - unfold without_object_recharge. match goal with |- context [walk_next _ _ _ _ (?b', t)] => specialize (Hstep b') end.
    destruct (walk_next db walk_options false s _) as [[item s'] [b1 t1]]. destruct Hstep as [Hw' Hitem].
    eexists item, s', _. split_and!; [reflexivity|done|]. destruct item as [[x|e]|]; [|done|done]. destruct Hitem as (s1 & ?Ho & ?Hi & ?Hk & _ & ?Hp & ?Hn). by exists s1.
Qed.

Lemma next_pending found s w e :
  pending_of s = Some e -> exists s' w', next_walked db found s w = (Ok (Some (Err e), s'), w') /\ w'.2 = w.2.
Proof.
  intros Hp. destruct w as [b t]. unfold next_walked, replaying. destruct found.
  - destruct (walk_next_pending db walk_options true s (b, t) e Hp) as [s' ->]. by eexists _, _.
  - unfold without_object_recharge. match goal with |- context [walk_next _ _ _ _ (?b', t)] =>
      destruct (walk_next_pending db walk_options false s (b', t) e Hp) as [s' ->] end. by eexists _, _.
Qed.

(** The first parent of a walked commit is a commit of the store. *)
Lemma parent_payload x lc p :
  reachable meta start (wc_id x) -> listed db c x lc -> list.head (lc_parents lc) = Some p ->
  exists payload, c p = Some (Commit, payload).
Proof.
  intros Hr (payload & Hc & Hd) Hp. destruct (complete _ Hr) as [m Hm]. pose proof Hm as Hm'.
  unfold meta, log_meta in Hm. rewrite Hc in Hm. destruct (parse_meta (wc_id x) payload) as [m0|] eqn:Em; [|done].
  cbn in Hm. injection Hm as <-. destruct (log_commit_agrees _ _ _ _ _ Hd Em) as (_ & _ & Hps & _).
  assert (link meta (wc_id x) p) as Hl.
  { eexists. split; [exact Hm'|]. cbn. rewrite Hps in Hp. destruct (is_shallow db (wc_id x)); [done|].
    destruct (cm_parents m0); [done|]. injection Hp as <-. by left. }
  destruct (complete p) as [mp Hmp]; [by eapply rtc_r|]. unfold meta, log_meta in Hmp.
  destruct (c p) as [[[] q]|]; try done. by exists q.
Qed.

Lemma load_spec found x :
  reachable meta start (wc_id x) ->
  hoare (on_store I) history_failure (replaying found (load_change track_rewrites db opts fuel x path))
    (fun r => listed db c x r.1 /\
       (tree_collision db \/ pc_rename_source r.2 = None /\ (pc_changed r.2 = true <-> touched r.1))).
Proof.
  intros Hr.
  assert (Hload : hoare (on_store I) history_failure (load_change track_rewrites db opts fuel x path)
    (fun r => listed db c x r.1 /\
       (tree_collision db \/ pc_rename_source r.2 = None /\ (pc_changed r.2 = true <-> touched r.1)))).
  2: { destruct found; [done|]. by apply hoare_without_object_recharge. }
  destruct (complete _ Hr) as [m Hm]. destruct (walked_payload db c walk_options _ _ Hm) as [payload Hc].
  unfold load_change. eapply hoare_bind.
  { eapply hoare_conseq; [by apply (read_payload_spec db c I F (wc_id x) false payload)|intros e He; by left|intros a Ha; exact Ha]. }
  intros ? ->. destruct (decode_log_commit (wc_id x) payload (is_shallow db (wc_id x))) as [lc|e] eqn:Ed.
  2: { eapply (hoare_bind _ _ _ _ (fun _ => False)); [|done]. apply hoare_lift. right; left.
       rewrite (decode_log_commit_Err _ _ _ _ Ed). set_solver. }
  eapply (hoare_bind _ _ _ _ (fun y => y = lc)); [by apply hoare_lift|]. intros ? ->.
  assert (Hlc : listed db c x lc) by (by exists payload).
  eapply hoare_bind; [apply (path_change_spec (wc_id x) lc Hlc); intros p; by apply (parent_payload x lc)|].
  intros pc Hpc. by apply hoare_ret.
Qed.

(** What a run returns, unless two trees collide. *)
Definition loop_result {A} (P : A -> Prop) (r : Res A * (Budget * T)) : Prop :=
  tree_collision db \/ outcome history_failure P r.1 /\ I r.2.2.

Lemma result_bind {A B} (m : DM T A) (k : A -> DM T B) (P : A -> Prop) (Q : B -> Prop) w :
  loop_result P (m w) -> (forall a w', P a -> I w'.2 -> loop_result Q (k a w')) -> loop_result Q (sbind m k w).
Proof.
  intros [Hc|[Hm Hw]] Hk; [by left|]. unfold sbind. destruct (m w) as [[a|e] w']; cbn in Hm, Hw; [by apply Hk|by right].
Qed.
Lemma result_of_hoare {A} (m : DM T A) (P : A -> Prop) w :
  hoare (on_store I) history_failure m P -> I w.2 -> loop_result P (m w).
Proof. intros Hm Hw. right. exact (Hm w Hw). Qed.

Lemma loop_stop e rest commits w :
  history_failure e -> (length commits <= ho_limit opts)%nat -> I w.2 ->
  loop_result (history_page rest commits) (stop_or_fail e commits true w).
Proof. intros He Hl Hw. right. rewrite stop_or_fail_world. split; [by apply history_stop_or_fail|done]. Qed.
Lemma loop_fail P e found w : history_failure e -> I w.2 -> loop_result P (stop_or_fail e [] found w).
Proof. intros He Hw. right. unfold stop_or_fail. by rewrite andb_false_r. Qed.

Abbreviation loop := (history_loop track_rewrites db opts fuel).

(** After a pending failure the loop only stops. *)
Lemma loop_pending steps s resume commits w e rest :
  pending_of s = Some e -> F (code e) -> I w.2 -> (length commits <= ho_limit opts)%nat ->
  loop_result (history_page rest commits) (loop (S steps) s resume true path commits w).
Proof.
  intros Hp He Hw Hl. cbn [history_loop]. destruct (check_run I F F_stop w Hw) as [Hc Hw1].
  destruct (on_budget check w) as [[u|e1] w1]; cbn in Hc, Hw1; [|right; split; [by left|done]].
  destruct (next_pending true s w1 e Hp) as (s' & w2 & -> & Hw2). apply loop_stop; [by left|done|by rewrite Hw2].
Qed.
Lemma seek_pending P steps s resume w e :
  pending_of s = Some e -> F (code e) -> I w.2 -> loop_result P (loop (S steps) s resume false path [] w).
Proof.
  intros Hp He Hw. cbn [history_loop]. destruct (check_run I F F_stop w Hw) as [Hc Hw1].
  destruct (on_budget check w) as [[u|e1] w1]; cbn in Hc, Hw1; [|right; split; [by left|done]].
  destruct (next_pending false s w1 e Hp) as (s' & w2 & -> & Hw2). apply loop_fail; [by left|by rewrite Hw2].
Qed.

(** The end of an iteration whose walk went on to [s1] or left a failure. *)
Lemma after_spec P dated pre s' s1 commits found k w :
  walk_inv meta start dated pre s1 -> (s' = s1 \/ exists e, pending_of s' = Some e /\ F (code e)) -> I w.2 ->
  (forall e, history_failure e -> loop_result P (stop_or_fail e commits found w)) ->
  loop_result P (k s1 w) -> loop_result P (after_commit s' commits found k w).
Proof.
  intros Hi Hs Hw Hstop Hk. unfold after_commit. destruct Hs as [->|(e & Hp & He)].
  - by rewrite (walk_inv_pending db c walk_options start _ _ _ Hi).
  - destruct (take_pending_Some _ _ Hp) as [s2 ->]. apply Hstop. by left.
Qed.

Lemma loop_map {A} (P Q : A -> Prop) r :
  (forall a, P a -> Q a) -> loop_result P r -> loop_result Q r.
Proof. intros HPQ [Hc|[Hr Hw]]; [by left|right]. split; [|done]. destruct r as [[a|e] w]; cbn in *; auto. Qed.

Lemma loop_found dated resume : forall steps pre s commits w,
  walk_inv meta start dated pre s -> (length K - length pre < steps)%nat -> I w.2 ->
  Forall (fun x => reachable meta start (wc_id x)) (walk_order meta steps s) ->
  (0 < ho_limit opts)%nat -> (length commits <= ho_limit opts)%nat ->
  loop_result (history_page (walk_order meta steps s) commits) (loop steps s resume true path commits w).
Proof.
  induction steps as [|steps IH]; intros pre s commits w Hi Hs Hw Hreach Hpos Hl; [lia|]. cbn [history_loop].
  destruct (check_run I F F_stop w Hw) as [Hc Hw1].
  destruct (on_budget check w) as [[u|e1] w1]; cbn in Hc, Hw1; [|right; split; [by left|done]].
  destruct (next_spec dated true steps pre s w1 Hi Hs Hw1) as (item & s' & w2 & -> & Hw2 & Hitem).
  destruct item as [[x|e]|]; [|apply loop_stop; [by left|done|done]|].
  2: { rewrite Hitem. right. split; [|done]. split_and!; [done..|]. exists [], [], []. rewrite app_nil_r. split_and!; try done. constructor. }
  destruct Hitem as (s1 & Horder & Hi1 & Hs1 & Hpos1 & Hnext). rewrite Horder in Hreach |- *.
  apply Forall_cons in Hreach as [Hx Hreach]. destruct (load_spec true x Hx w2 Hw2) as [Hload Hw3].
  destruct (replaying true (load_change _ _ _ _ _ _) w2) as [[[lc pc]|e] w3]; cbn in Hload, Hw3; [|by apply loop_stop].
  destruct Hload as [Hlc [Hcol|[Hren Hch]]]; [by left|]. rewrite Hren. cbn [default from_option].
  assert (Hrec : forall cs, (length cs <= ho_limit opts)%nat ->
    loop_result (history_page (walk_order meta steps s1) cs)
      (after_commit s' cs true (fun walk => loop steps walk resume true path cs) w3)).
  { intros cs Hcs. eapply after_spec; [exact Hi1|exact Hnext|done|intros e He; by apply loop_stop|by eapply IH]. }
  destruct (pc_changed pc).
  - cbn [negb]. destruct (length commits =? ho_limit opts)%nat eqn:El.
    { apply Nat.eqb_eq in El. right. split; [|done]. apply history_stop; [|lia]. intros ->. cbn in El. lia. }
    apply Nat.eqb_neq in El. eapply loop_map; [intros page Hp; eapply history_keep; [exact Hlc|by apply Hch|exact Hp]|].
    apply Hrec. rewrite length_app. cbn. lia.
  - eapply loop_map; [intros page Hp; eapply history_skip; [exact Hlc| |exact Hp]|by apply Hrec].
    intros Ht. by apply Hch in Ht.
Qed.

(** Replaying up to the commit of the cursor. *)
Definition sought (id : Oid) (l : list WalkedCommit) (page : list LogCommit * option string * bool) : Prop :=
  if page.2 then
    exists skipped x rest, l = skipped ++ x :: rest /\ wc_id x = id /\ history_page rest [] (page.1, true)
  else forall x lc, x ∈ l -> wc_id x = id -> listed db c x lc -> ~ touched lc.

Lemma sought_cons id x l lc page :
  (wc_id x = id -> ~ touched lc) -> listed db c x lc -> sought id l page -> sought id (x :: l) page.
Proof.
  intros Hx Hlc. unfold sought. destruct page.2.
  - intros (sk & y & rest & -> & Hy & Hp). by exists (x :: sk), y, rest.
  - intros Hn y ly [->|Hy]%elem_of_cons; [|by apply Hn]. intros E Hly. rewrite (decoded_commit_det _ _ _ Hly Hlc). by apply Hx.
Qed.

Lemma loop_seek dated id : forall steps pre s w,
  walk_inv meta start dated pre s -> (length K - length pre < steps)%nat -> I w.2 ->
  Forall (fun x => reachable meta start (wc_id x)) (walk_order meta steps s) -> (0 < ho_limit opts)%nat ->
  loop_result (sought id (walk_order meta steps s)) (loop steps s (Some id) false path [] w).
Proof.
  induction steps as [|steps IH]; intros pre s w Hi Hs Hw Hreach Hpos; [lia|]. cbn [history_loop].
  destruct (check_run I F F_stop w Hw) as [Hc Hw1].
  destruct (on_budget check w) as [[u|e1] w1]; cbn in Hc, Hw1; [|right; split; [by left|done]].
  destruct (next_spec dated false steps pre s w1 Hi Hs Hw1) as (item & s' & w2 & -> & Hw2 & Hitem).
  destruct item as [[x|e]|]; [|apply loop_fail; [by left|done]|].
  2: { rewrite Hitem. right. split; [|done]. intros x lc Hx. by apply not_elem_of_nil in Hx. }
  destruct Hitem as (s1 & Horder & Hi1 & Hs1 & Hpos1 & Hnext). rewrite Horder in Hreach |- *.
  apply Forall_cons in Hreach as [Hx Hreach]. destruct (load_spec false x Hx w2 Hw2) as [Hload Hw3].
  destruct (replaying false (load_change _ _ _ _ _ _) w2) as [[[lc pc]|e] w3]; cbn in Hload, Hw3; [|by apply loop_fail].
  destruct Hload as [Hlc [Hcol|[Hren Hch]]]; [by left|]. rewrite Hren. cbn [default from_option].
  assert (Hrec : loop_result (sought id (walk_order meta steps s1)) (loop steps s1 (Some id) false path [] w3)) by (by eapply IH).
  destruct (pc_changed pc); cbn [negb].
  - destruct (decide (wc_id x = id)) as [Hid|Hid].
    + rewrite bool_decide_true by congruence.
      assert (Hpage : loop_result (history_page (walk_order meta steps s1) []) (loop steps s' (Some id) true path [] w3)).
      { destruct Hnext as [->|(e & Hp & He)]; [by eapply loop_found; [..|cbn; lia]|].
        destruct steps; [lia|]. by eapply loop_pending; [..|cbn; lia]. }
      eapply loop_map; [|exact Hpage]. intros [[cs st] fnd] Hp. pose proof Hp as [-> _]. by exists [], x, (walk_order meta steps s1).
    + rewrite bool_decide_false by congruence. eapply loop_map; [intros page Hp; by eapply sought_cons|].
      destruct Hnext as [->|(e & Hp & He)]; [done|]. destruct steps; [lia|]. by eapply seek_pending.
  - eapply loop_map; [intros page Hp; eapply sought_cons; [intros _ Ht; by apply Hch in Ht|exact Hlc|exact Hp]|].
    eapply after_spec; [exact Hi1|exact Hnext|done|intros e He; by apply loop_fail|done].
Qed.

(** ** Following the cursors *)

Lemma finish_history_spec snapshot commits stopped :
  (stopped <> None -> commits <> []) ->
  hoare (on_store I) history_failure (finish_history db opts snapshot path commits stopped) (fun page =>
    lp_commits page = commits /\
    match lp_next_cursor page with
    | None => stopped = None
    | Some cursor => exists lc, last commits = Some lc /\ cursor = encode (history_cursor snapshot path opts (lc_id lc))
    end).
Proof.
  intros Hne. unfold finish_history. destruct stopped as [l|]; cbn [andb].
  - rewrite bool_decide_eq_false_2 by (by apply Hne). destruct (last commits) as [lc|] eqn:El.
    + rewrite (proj2 (Nat.ltb_ge _ _) (length_history_cursor snapshot path opts (lc_id lc))).
      intros [b t] Hw. cbn. destruct (spent b) as [[[o by_] p] q], (cache_spent b). split; [|done]. cbn. split; [done|]. by eexists.
    + apply last_None in El. destruct Hne; [done|done].
  - intros [b t] Hw. cbn. destruct (spent b) as [[[o by_] p] q], (cache_spent b). done.
Qed.

(** The commit a page ends with, in the walk. *)
Lemma lists_touched_last seg commits lc :
  lists_touched seg commits -> last commits = Some lc ->
  exists seg1 x tail, seg = seg1 ++ x :: tail /\ wc_id x = lc_id lc /\ listed db c x lc /\ touched lc /\ lists_touched tail [].
Proof.
  induction 1 as [|x xs lc' lcs Hl Ht Hs IH|x xs lc' lcs Hl Ht Hs IH]; intros Hlast; [done| |].
  - destruct lcs as [|lc2 lcs].
    + injection Hlast as <-. exists [], x, xs. split_and!; try done. symmetry. by apply (decoded_commit_kind (wc_id x)).
    + destruct (IH Hlast) as (seg1 & y & tail & -> & ?). by exists (x :: seg1), y, tail.
  - destruct (IH Hlast) as (seg1 & y & tail & -> & ?). by exists (x :: seg1), y, tail.
Qed.

Context (snapshot : Snapshot).
Hypothesis starts : commit_oid snapshot = start.
Hypothesis valid : validate_history db opts snapshot path = Ok tt.
Hypothesis K_nodup : NoDup K.
Hypothesis enough : (length K + sum_list_with (link_count meta) K < fuel)%nat.

Let l := history_order meta Chronological fuel start.

Lemma valid_limit : (0 < ho_limit opts)%nat.
Proof.
  unfold validate_history in valid. destruct (ensure_sha1 _ _); [|done]. destruct (validate_literal_path _ _); [|done].
  cbn [rbind] in valid. case_bool_decide; [done|]. destruct (ho_limit opts =? 0)%nat eqn:E; [done|]. apply Nat.eqb_neq in E. lia.
Qed.

(** A call whose cursor names a listed commit, or that has none: it lists a
    stretch of what follows. *)
Definition page_after (rest : list WalkedCommit) (page : LogPage) : Prop :=
  exists seg later, rest = seg ++ later /\ lists_touched seg (lp_commits page) /\
    (length (lp_commits page) <= ho_limit opts)%nat /\
    match lp_next_cursor page with
    | None => later = []
    | Some cursor => exists lc, last (lp_commits page) = Some lc /\ cursor = encode (history_cursor snapshot path opts (lc_id lc))
    end.
Definition names_listed (resume : option Oid) : Prop :=
  forall id, resume = Some id -> exists x lc, x ∈ l /\ wc_id x = id /\ listed db c x lc /\ touched lc.

Lemma history_run_spec dated s resume skipped rest w :
  walk_inv meta start dated [] s -> l = walk_order meta fuel s -> l = skipped ++ rest -> resumes_at resume skipped ->
  names_listed resume -> I w.2 ->
  loop_result (history_page rest []) (loop fuel s resume (bool_decide (resume = None)) path [] w).
Proof.
  intros Hi Hl HL Hsk Hnamed Hw. pose proof valid_limit as Hpos.
  destruct (history_order_enumerates meta start K complete K_nodup K_covers Chronological fuel enough) as (Hnd & Hin & _).
  fold l in Hnd, Hin.
  assert (Hreach : Forall (fun x => reachable meta start (wc_id x)) (walk_order meta fuel s)).
  { rewrite <- Hl. apply Forall_forall. intros x Hx. apply Hin. by apply list_elem_of_fmap_2. }
  destruct resume as [id|].
  - rewrite bool_decide_false by done. eapply loop_map; [|apply (loop_seek dated id fuel [] s w Hi); [cbn; lia|done..]].
    intros [[cs st] fnd]. unfold sought. cbn [fst snd]. rewrite <- Hl. destruct fnd.
    + intros (sk & x & rest' & E & Hx & Hp).
      rewrite (resume_unique _ (Some id) skipped (sk ++ [x]) rest rest' Hnd HL); [done| |done|by exists sk, x].
      by rewrite <- app_assoc.
    + intros Hn. destruct (Hnamed id eq_refl) as (x & lc & Hx & Hid & Hlc & Ht). by destruct (Hn x lc Hx Hid Hlc).
  - rewrite bool_decide_true by done. cbn in Hsk. subst skipped. cbn in HL. rewrite <- HL, Hl.
    apply (loop_found dated None fuel [] s [] w Hi); [cbn; lia|done..|cbn; lia].
Qed.

Lemma history_spec resume skipped rest w :
  history_resume snapshot path opts = Ok resume -> l = skipped ++ rest -> resumes_at resume skipped ->
  names_listed resume -> I w.2 -> loop_result (page_after rest) (history track_rewrites db opts fuel snapshot path w).
Proof.
  intros Hres HL Hsk Hnamed Hw. unfold history. rewrite valid, Hres.
  assert (sum_list_with (link_count meta) K < fuel)%nat as Hf by lia.
  destruct (walk_start_inv meta start K complete K_nodup K_covers Chronological fuel Hf) as (s & Hs & Hi & _).
  assert (Hl : l = walk_order meta fuel s) by (unfold l, history_order; by rewrite Hs).
  eapply (result_bind _ _ (fun _ => True)); [by right|]. intros _ w0 _ Hw0.
  eapply (result_bind _ _ (fun _ => True)).
  { apply result_of_hoare; [|done]. apply hoare_check. intros e He. left. by apply F_stop. }
  intros _ w1 _ Hw1. eapply (result_bind _ _ (fun r => r = resume)); [by right|]. intros ? w2 -> Hw2.
  eapply (result_bind _ _ (fun s' => s' = s)).
  { apply result_of_hoare; [|done].
    assert (Hnew : hoare (on_store I) history_failure (walk_new db walk_options fuel (commit_oid snapshot)) (fun s' => s' = s)).
    { rewrite starts. eapply hoare_conseq; [apply (walk_new_sim db c I F F_stop walk_options start complete K K_nodup K_covers fuel Hf)|intros e He; by left|].
      intros s' Hs'. change (walk_start meta Chronological fuel start = Some s') in Hs'. congruence. }
    unfold replaying. case_bool_decide; [done|]. by apply hoare_without_object_recharge. }
  intros ? w3 -> Hw3. eapply result_bind; [by apply (history_run_spec _ s resume skipped rest w3 Hi)|].
  intros [[commits stopped] found] w4 (-> & Hlen & new & seg & later & Hc & Hrest & Hsel & Hst) Hw4. cbn in Hc. subst new. cbn [negb].
  apply result_of_hoare; [|done]. eapply hoare_post; [apply finish_history_spec; intros Hn; by destruct stopped|].
  intros page [Hcs Hcur]. exists seg, later. rewrite Hcs. split_and!; try done. destruct (lp_next_cursor page); [done|]. by subst stopped.
Qed.

End OnePage.

(** A client that follows the cursors to the end, each call with a budget of
    its own: the commits of its pages. *)
Definition with_history_cursor (cursor : option bytes) (opts : HistoryOptions) : HistoryOptions :=
  mkHistoryOptions (ho_follow_renames opts) (ho_limit opts) cursor.

Fixpoint history_all (pages : nat) (opts : HistoryOptions) (snapshot : Snapshot) (budgets : nat -> Budget)
  (cursor : option bytes) (t : T) : option (Res (list (list LogCommit))) :=
  match pages with
  | O => None
  | S pages =>
      match history track_rewrites db (with_history_cursor cursor opts) fuel snapshot path (budgets pages, t) with
      | (Err e, _) => Some (Err e)
      | (Ok page, (_, t)) =>
          match lp_next_cursor page with
          | None => Some (Ok [lp_commits page])
          | Some cursor =>
              match history_all pages opts snapshot budgets (Some cursor) t with
              | Some (Ok rest) => Some (Ok (lp_commits page :: rest))
              | r => r
              end
          end
      end
  end.

Section AllPages.
Context (opts : HistoryOptions) (snapshot : Snapshot).
Hypothesis no_follow : ho_follow_renames opts = false.
Hypothesis starts : commit_oid snapshot = start.
Hypothesis start_wf : Oid_wf start.
Hypothesis valid : validate_history db opts snapshot path = Ok tt.
Hypothesis K_nodup : NoDup K.
Hypothesis enough : (length K + sum_list_with (link_count meta) K < fuel)%nat.

Let l := history_order meta Chronological fuel start.

(** The pages of the commits [rest] of the walk. *)
Definition pages_cover (rest : list WalkedCommit) (r : Res (list (list LogCommit))) : Prop :=
  match r with
  | Ok ps => lists_touched rest (mjoin ps) /\ Forall (fun p => (length p <= ho_limit opts)%nat) ps
  | Err e => F (code e) \/ code e ∈ [MissingObject; NotATree; MalformedObject; HashMismatch]
  end.

Lemma history_all_spec pages budgets : forall cursor t resume skipped rest,
  history_resume snapshot path (with_history_cursor cursor opts) = Ok resume ->
  l = skipped ++ rest -> resumes_at resume skipped -> names_listed resume ->
  (length rest < pages)%nat -> I t ->
  tree_collision db \/ exists r, history_all pages opts snapshot budgets cursor t = Some r /\ pages_cover rest r.
Proof.
  destruct (history_order_enumerates meta start K complete K_nodup K_covers Chronological fuel enough) as (Hnd & Hin & _).
  fold l in Hnd, Hin. induction pages as [|pages IH]; intros cursor t resume skipped rest Hres HL Hsk Hnamed Hpages Ht; [lia|].
  cbn [history_all].
  destruct (history_spec (with_history_cursor cursor opts) no_follow snapshot starts valid K_nodup enough
    resume skipped rest (budgets pages, t) Hres HL Hsk Hnamed Ht) as [Hc|[Hout Ht1]]; [by left|].
  destruct (history _ _ _ _ _ _ _) as [[page|e] [b t1]]; cbn in Hout, Ht1.
  2: { destruct Hout as [He|[He|Hc]]; [right|right|by left]; eexists; (split; [done|]); [by left|by right]. }
  destruct Hout as (seg & later & -> & Hsel & Hlen & Hcur). destruct (lp_next_cursor page) as [cursor'|].
  2: { right. eexists. split; [done|]. subst later. cbn. rewrite !app_nil_r. split; [done|]. by repeat constructor. }
  destruct Hcur as (lc & Hlast & ->). destruct (lists_touched_last _ _ _ Hsel Hlast) as (seg1 & x & tail & -> & Hx & Hlc & Htc & Htail).
  assert (x ∈ l) as Hxl by (rewrite HL, !elem_of_app, elem_of_cons; tauto).
  assert (reachable meta start (wc_id x)) as Hxr by (by apply Hin, list_elem_of_fmap_2).
  assert (Oid_wf (wc_id x) /\ oid_kind (wc_id x) = oid_kind (commit_oid snapshot)) as [Hwf Hkind].
  { apply (reachable_wf db c snapshot walk_options); by rewrite starts. }
  rewrite Hx in Hwf, Hkind.
  destruct (IH (Some (encode (history_cursor snapshot path (with_history_cursor cursor opts) (lc_id lc)))) t1
    (Some (lc_id lc)) (skipped ++ seg1 ++ [x]) (tail ++ later)) as [Hc|(r & -> & Hr)]; [..|by left|].
  - apply history_cursor_resumes; [by rewrite starts|done..].
  - rewrite HL, <- !app_assoc. done.
  - exists (skipped ++ seg1), x. by rewrite <- app_assoc.
  - intros id [= <-]. by exists x, lc.
  - rewrite !length_app, length_cons in Hpages. rewrite length_app. lia.
  - done.
  - right. destruct r as [ps|e]; eexists; (split; [done|]); [|done]. destruct Hr as [Hr Hps]. split; [|by constructor].
    change (lists_touched ((seg1 ++ x :: tail) ++ later) (lp_commits page ++ mjoin ps)). apply lists_touched_app; [done|]. by eapply lists_touched_drop.
Qed.

End AllPages.

End HistorySpec.

Section HistoryPages.
Context `{Env, GixObject, GixGlob, Digests} `{!BlobDiff} `{!LawfulBlobDiff _} `{!TreeFormat _} {T : Type}.
Context (db : ObjectDb T) (c : Oid -> ObjectReadResult) (I : T -> Prop) (F : ErrorCode -> Prop).
Context `{!LawfulDb db c I F}.
Hypothesis F_stop : forall e, budget_stop e -> F (code e).
Hypothesis F_path : ~ F InvalidPath.
Hypothesis own_kind : forall oid object, c oid = Some object -> oid_kind oid = hash_kind db.
Hypothesis canonical : trees_canonical db c.
Context (track_rewrites : N -> list (option EntryRef) -> list (option EntryRef) ->
           Budget * T * WalkState -> result RewriteError unit * (Budget * T * WalkState)).
Context (opts : HistoryOptions) (snapshot : Snapshot) (path : bytes) (fuel : nat) (K : list Oid).

Let meta := log_meta db c walk_options.
Hypothesis complete : complete_history meta (commit_oid snapshot).
Hypothesis K_nodup : NoDup K.
Hypothesis K_covers : forall x m, meta x = Some m -> x ∈ K.
Hypothesis enough : (length K + sum_list_with (link_count meta) K < fuel)%nat.
Hypothesis listings :
  forall id lc, decoded_commit db c id lc -> exists v, tree_listing db c (lc_tree_id lc) v /\ (4 * length v < fuel)%nat.

(** C22. Following the cursors of a path's history without renames is exact. Over
    a complete history, whatever the page size and the budgets of the calls,
    the calls end within one page per commit, and either one of them fails, as
    the store or the budget does or on a malformed or missing object, or the
    pages together list, each exactly once and in the chronological order of the
    walk, precisely the commits that touch the path: those whose tree differs
    from that of their first parent at the path or inside it, and the roots that
    have the path. No page is longer than the limit, and its own cursors are
    accepted. Two projected trees with one object id are the exception. *)
Theorem history_pages_exact pages budgets t :
  validate_history db opts snapshot path = Ok tt -> ho_follow_renames opts = false -> Oid_wf (commit_oid snapshot) ->
  (length K < pages)%nat -> I t ->
  let l := history_order meta Chronological fuel (commit_oid snapshot) in
  enumerates meta (commit_oid snapshot) l /\
  (tree_collision db \/
   exists r, history_all db track_rewrites path fuel pages opts snapshot budgets None t = Some r /\
     match r with
     | Ok ps => lists_touched db c path l (mjoin ps) /\ Forall (fun p => (length p <= ho_limit opts)%nat) ps
     | Err e => F (code e) \/ code e ∈ [MissingObject; NotATree; MalformedObject; HashMismatch]
     end).
Proof.
  intros Hvalid Hno Hwf Hp Ht l.
  pose proof (history_order_enumerates meta _ K complete K_nodup K_covers Chronological fuel enough) as He. fold l in He.
  split; [exact He|]. pose proof Hvalid as Hv. unfold validate_history in Hv.
  destruct (ensure_sha1 db _) as [[]|] eqn:Es; [|done]. destruct (validate_literal_path path "history") as [[]|] eqn:El; [|done].
  cbn [rbind] in Hv. destruct (bool_decide_reflect (path = [])) as [|Hne]; [done|].
  assert (Hsha : hash_kind db = Sha1) by (unfold ensure_sha1 in Es; by destruct (hash_kind db)).
  assert (Hlen : (length l < pages)%nat).
  { eapply Nat.le_lt_trans; [|exact Hp]. destruct He as (Hnd & Hin & _). rewrite <- (length_fmap wc_id).
    apply NoDup_length_le; [exact Hnd|]. intros x Hx. apply Hin in Hx. destruct (complete x Hx) as [m Hm]. by eapply K_covers. }
  exact (history_all_spec db c I F F_stop F_path own_kind canonical track_rewrites path fuel Hsha El Hne listings
    _ K complete K_covers opts snapshot Hno eq_refl Hwf Hvalid K_nodup enough pages budgets None t None [] l
    eq_refl eq_refl eq_refl ltac:(done) Hlen Ht).
Qed.

End HistoryPages.

(* ------------------------------------------------------------------ *)
(** ** Three commits *)

Module HistoryDemo.

(** The first commit has [a*] and [ab], the second changes [ab], the third
    renames [a*] to [b]. *)
Definition commit (tree : Oid) (ps : list Oid) (time : string) : ObjectKind * bytes :=
  (Commit, bs "tree " ++ to_hex tree ++ [x0a] ++ (ps ≫= fun p => bs "parent " ++ to_hex p ++ [x0a])
     ++ bs "author A <a> 1 +0000" ++ [x0a] ++ bs "committer C <c> " ++ bs time ++ bs " +0000" ++ [x0a; x0a] ++ bs "subject").
Definition objects : list (Oid * (ObjectKind * bytes)) :=
  [(sample_id x01, commit (sample_id x11) [] "10");
   (sample_id x02, commit (sample_id x12) [sample_id x01] "20");
   (sample_id x03, commit (sample_id x13) [sample_id x02] "30");
   (sample_id x11, (Tree, tree_line "100644" "a*" (sample_id x21) ++ tree_line "100644" "ab" (sample_id x22)));
   (sample_id x12, (Tree, tree_line "100644" "a*" (sample_id x21) ++ tree_line "100644" "ab" (sample_id x23)));
   (sample_id x13, (Tree, tree_line "100644" "ab" (sample_id x23) ++ tree_line "100644" "b" (sample_id x21)))].
Definition repo : StaticOdb := mkStatic Sha1 (list_to_map objects).
Definition db : ObjectDb unit := @static_db quiet unit repo.
Definition snapshot : Snapshot := mkSnapshot (sample_id x03) (sample_id x13).

(** A tracker that finds exact renames: an addition and a deletion of one
    object are a rename. *)
Definition renamed_from (changes : list RawChange) (c : RawChange) : option RawChange :=
  list.head (filter (fun d => rc_status d = Deleted /\ rc_old_oid d = rc_new_oid c) changes).
Definition exact_renames (changes : list RawChange) : list RawChange :=
  omap (fun c =>
    match rc_status c with
    | Added =>
        match renamed_from changes c with
        | Some d => Some (mkRawChange Renamed (rc_old_path d) (rc_new_path c) (rc_old_oid d) (rc_new_oid c)
                            (rc_old_mode d) (rc_new_mode c) (Some 100))
        | None => Some c
        end
    | Deleted =>
        if existsb (fun a => bool_decide (rc_status a = Added /\ rc_new_oid a = rc_old_oid c)) changes then None else Some c
    | _ => Some c
    end) changes.
Definition tracker (limit : N) (lhs rhs : list (option EntryRef)) (w : Budget * unit * WalkState)
  : result RewriteError unit * (Budget * unit * WalkState) :=
  let '(r, (w, s)) := @plain_diff quiet simple_gix unit db db 40 (rewrite_options 1000) ∅ lhs rhs w in
  (r, (w, mkWalkState (ws_path s) (ws_path_deque s) (ws_trees s) (exact_renames (ws_changes s)) (ws_stopped_by s)
         (ws_err s) (ws_last_error s) (ws_oversize s))).
Definition run (path : string) (follow : bool) : Res LogPage :=
  (@history quiet simple_gix simple_glob toy_digests HunksDemo.engine unit tracker db
     (mkHistoryOptions follow 10 None) 40 snapshot (bs path) fresh_world).1.
Definition times (r : Res LogPage) : option (list Z) := (fun page => (li_time ∘ lc_committer) <$> lp_commits page) <$> res_ok r.

Definition blob (name : string) (id : byte) : OwnedTreeEntry := mkOwned 33188 (bs name) (sample_id id) KBlob.
Definition first_files : Listing := [(bs "a*", blob "a*" x21); (bs "ab", blob "ab" x22)].
Definition second_files : Listing := [(bs "a*", blob "a*" x21); (bs "ab", blob "ab" x23)].
Definition third_files : Listing := [(bs "ab", blob "ab" x23); (bs "b", blob "b" x21)].

Lemma demo_held oid object : static_contents repo oid = Some object -> (oid, object) ∈ objects.
Proof. intros Hc. by apply elem_of_list_to_map_2. Qed.
Lemma demo_own_kind oid object : static_contents repo oid = Some object -> oid_kind oid = hash_kind db.
Proof.
  intros Hin%demo_held. cut (Forall (fun o => oid_kind o.1 = Sha1) objects); [|repeat constructor].
  rewrite Forall_forall. intros Hall. exact (Hall _ Hin).
Qed.
Lemma history_canonical : @trees_canonical simple_gix unit db (static_contents repo).
Proof.
  intros oid es Ht. unfold tree_of in Ht. destruct (static_contents repo oid) as [object|] eqn:E; [|done]. apply demo_held in E.
  cut (Forall (fun o => match @entries_of_read simple_gix unit db o.1 (Some o.2) with
                        | Ok es => StronglySorted git_lt es
                        | Err _ => True
                        end) objects).
  { rewrite Forall_forall. intros Hall. specialize (Hall _ E). cbn [fst snd] in Hall. by rewrite Ht in Hall. }
  repeat (constructor; [vm_compute; repeat constructor|]). constructor.
Qed.
Lemma flat e1 e2 : oe_kind e1 <> KTree -> oe_kind e2 <> KTree ->
  @under simple_gix unit db (static_contents repo) [e1; e2] [] [(oe_name e1, e1); (oe_name e2, e2)].
Proof. intros H1 H2. apply under_leaf; [done|]. apply under_leaf; [done|constructor]. Qed.
Lemma first_listing : @tree_listing simple_gix unit db (static_contents repo) (sample_id x11) first_files.
Proof. eexists. split; [|by apply (flat (blob "a*" x21) (blob "ab" x22))]. vm_compute. reflexivity. Qed.
Lemma second_listing : @tree_listing simple_gix unit db (static_contents repo) (sample_id x12) second_files.
Proof. eexists. split; [|by apply (flat (blob "a*" x21) (blob "ab" x23))]. vm_compute. reflexivity. Qed.
Lemma third_listing : @tree_listing simple_gix unit db (static_contents repo) (sample_id x13) third_files.
Proof. eexists. split; [|by apply (flat (blob "ab" x23) (blob "b" x21))]. vm_compute. reflexivity. Qed.
Lemma listings id lc : decoded_commit db (static_contents repo) id lc ->
  exists v, @tree_listing simple_gix unit db (static_contents repo) (lc_tree_id lc) v /\ (4 * length v < 40)%nat.
Proof.
  intros (p & Hp%demo_held & Hd). cut (Forall (fun o => match o.2 with
    | (Commit, p) => match decode_log_commit o.1 p (is_shallow db o.1) with
                     | Ok lc => bool_decide (lc_tree_id lc ∈ [sample_id x11; sample_id x12; sample_id x13]) = true
                     | Err _ => False
                     end
    | _ => True
    end) objects).
  - rewrite Forall_forall. intros Hall. specialize (Hall _ Hp). cbn [fst snd] in Hall. rewrite Hd in Hall.
    apply bool_decide_eq_true in Hall. rewrite !elem_of_cons in Hall. destruct Hall as [->|[->|[->|Hn]]];
      [exists first_files|exists second_files|exists third_files|by apply not_elem_of_nil in Hn];
      (split; [apply first_listing || apply second_listing || apply third_listing|cbn; lia]).
  - do 3 (constructor; [vm_compute; reflexivity|]). repeat constructor.
Qed.

Definition ids : list Oid := objects.*1.
Lemma ids_nodup : NoDup ids.
Proof. apply (bool_decide_eq_true (NoDup ids)). vm_compute. reflexivity. Qed.
Lemma ids_cover x m : log_meta db (static_contents repo) walk_options x = Some m -> x ∈ ids.
Proof.
  unfold log_meta. destruct (static_contents repo x) as [o|] eqn:E; [|done]. apply demo_held in E. intros _.
  apply list_elem_of_fmap. by exists (x, o).
Qed.
Lemma complete : complete_history (log_meta db (static_contents repo) walk_options) (sample_id x03).
Proof.
  apply (closed_complete _ [sample_id x03; sample_id x02; sample_id x01]); [by left|]. vm_compute. reflexivity.
Qed.
Lemma paths_resolve : ~ plain_failure InvalidPath.
Proof. unfold plain_failure. intuition discriminate. Qed.
Definition single_pages : HistoryOptions := mkHistoryOptions false 1 None.
Definition run_pages (path : string) : option (Res (list (list LogCommit))) :=
  @history_all quiet simple_gix simple_glob toy_digests HunksDemo.engine unit db tracker (bs path) 40
    7 single_pages snapshot small_budget None tt.
Definition page_times (r : option (Res (list (list LogCommit)))) : list (list Z) :=
  match r with
  | Some (Ok ps) => (fun p : list LogCommit => (li_time ∘ lc_committer) <$> p) <$> ps
  | _ => []
  end.

End HistoryDemo.

(** The history of [ab] in pages of one commit. *)
Lemma history_pages_exact_witness :
  HistoryDemo.page_times (HistoryDemo.run_pages "ab") = [[20%Z]; [10%Z]] /\
  (@tree_collision toy_digests unit HistoryDemo.db \/
   exists ps, HistoryDemo.run_pages "ab" = Some (Ok ps) /\
     @lists_touched simple_gix unit HistoryDemo.db (static_contents HistoryDemo.repo) (bs "ab")
       (history_order (log_meta HistoryDemo.db (static_contents HistoryDemo.repo) walk_options) Chronological 40 (sample_id x03))
       (mjoin ps)).
Proof.
  split; [vm_compute; reflexivity|].
  destruct (proj2 (@history_pages_exact quiet simple_gix simple_glob toy_digests HunksDemo.engine HunksDemo.lawful simple_format unit
    HistoryDemo.db (static_contents HistoryDemo.repo) (fun _ => True) plain_failure _ plain_stop HistoryDemo.paths_resolve
    HistoryDemo.demo_own_kind HistoryDemo.history_canonical HistoryDemo.tracker HistoryDemo.single_pages HistoryDemo.snapshot (bs "ab") 40
    HistoryDemo.ids HistoryDemo.complete HistoryDemo.ids_nodup HistoryDemo.ids_cover ltac:(vm_compute; lia)
    HistoryDemo.listings 7 small_budget tt eq_refl eq_refl (sample_id_wf x03) ltac:(vm_compute; lia) Logic.I)) as [Hc|(r & Hr & Hcover)];
    [by left|right].
  destruct r as [ps|e]; [|vm_compute in Hr; discriminate Hr]. destruct Hcover as [Hs _]. exists ps. split; [exact Hr|exact Hs].
Defined.

(** A run in which the path is no longer literal after a rename is followed,
    with a tracker that pairs a removed and an added file of the same blob. The
    history of [b] with renames followed goes on with its source [a*], a name that is
    refused as a path of its own because it is a pattern, and lists the second
    commit, which changes [ab] and neither [a*] nor [b]. *)
Example followed_source_is_a_pathspec :
  HistoryDemo.times (HistoryDemo.run "b" true) = Some [30%Z; 20%Z; 10%Z] /\
  validate_literal_path (bs "a*") "history" <> Ok tt /\
  @tree_listing simple_gix unit HistoryDemo.db (static_contents HistoryDemo.repo) (sample_id x11) HistoryDemo.first_files /\
  @tree_listing simple_gix unit HistoryDemo.db (static_contents HistoryDemo.repo) (sample_id x12) HistoryDemo.second_files /\
  Forall (fun p => change_of p (at_entry (files HistoryDemo.first_files) p) (at_entry (files HistoryDemo.second_files) p) = None)
    [bs "a*"; bs "b"].
Proof.
  split_and!; [vm_compute; reflexivity|by vm_compute|apply HistoryDemo.first_listing|apply HistoryDemo.second_listing|].
  repeat constructor; vm_compute; reflexivity.
Qed.
