(* ===== verification/Blame.v ===== *)
(** * Line attribution ([blame.rs])

    The query [blame] around the engine [gix_blame::file]: the checks of the
    path, the blob and the line range, the adapter through which the engine
    reads objects, and the hunks made of its answer.

    The engine is a parameter. It is an interactive program: a tree of the
    questions it asks the adapter, with what it does on each answer, an error
    included, and its outcome at the leaves. *)

From Stdlib Require Import NArith ZArith Lia Strings.Byte Strings.String.
From stdpp Require Import prelude gmap strings list pretty.
From S2P Require Import Prelude Errors Objects Budget Odb Decode Snapshot Graph Ancestry Pathspec Tree File LogWalk Log Hunks TreeDiff Diff.

Open Scope N_scope.

(** [gix_blame::BlameEntry]: line numbers count from 0. *)
Record BlameEntry : Type := mkBlameEntry {
  be_start_in_blamed_file : N;
  be_start_in_source_file : N;
  be_len : N;
  be_commit_id : GixId;
  be_source_file_name : option bytes
}.

(** An engine at work: a read of an object, a read of a header, or the end. *)
Inductive BlameEngine : Type :=
| AskFind (id : GixId) (k : Res Payload -> BlameEngine)
| AskHeader (id : GixId) (k : Res ObjectHeader -> BlameEngine)
| BlameDone (outcome : option (list BlameEntry)).

(** [gix_blame::BlameRanges] and [gix_blame::file], with the suspect, the path,
    the ranges, whether rewrites are tracked and the threshold of the blob
    platform. *)
Class GixBlame : Type := {
  BlameRanges : Type;
  WholeFile : BlameRanges;
  from_one_based_inclusive_range : N -> N -> option BlameRanges;
  blame_file : GixId -> bytes -> BlameRanges -> bool -> N -> BlameEngine
}.

(** [BlameOptions], [BlameHunk] and [Blame]. *)
Record BlameOptions : Type := mkBlameOptions {
  bo_lines : option (N * N);
  bo_follow_renames : bool
}.
Definition BlameOptions_default : BlameOptions := mkBlameOptions None true.
Record BlameHunk : Type := mkBlameHunk {
  bh_final_start : N;
  bh_final_end : N;
  bh_original_start : N;
  bh_original_end : N;
  bh_commit_id : Oid;
  bh_original_path : bytes;
  bh_author : LogIdentity;
  bh_committer : LogIdentity;
  bh_summary : bytes;
  bh_boundary : bool
}.
Record Blame : Type := mkBlame {
  bl_path : bytes;
  bl_hunks : list BlameHunk;
  bl_stats : QueryStats;
  bl_warnings : list DiffWarning
}.

(** [kind_error], [range_error], [validate_range], [line_count], [missing]. *)
Definition blame_kind_error (kind : string) : Error :=
  with_reason ("path_kind:" ++ kind)
    (Error_new InvalidArgument ("blame path resolves to " ++ kind ++ ", not a blob")).
Definition blame_range_error (count : N) : Error :=
  with_line_count count
    (Error_new InvalidArgument
       ("blame line range must be 1-based, ordered, and within the file's " ++ pretty count ++ " lines")).
Definition validate_blame_range (range : option (N * N)) (count : N) : Res unit :=
  match range with
  | None => Ok tt
  | Some (start, end_) =>
      if (start =? 0) || (end_ =? 0) || (end_ <? start) || (count <? end_) then Err (blame_range_error count)
      else Ok tt
  end.
Definition blame_line_count (payload : bytes) : Res N :=
  let count :=
    if bool_decide (payload = []) then 0
    else lenN (filter (fun b => is_newline b = true) payload)
         + (if default false (is_newline <$> last payload) then 0 else 1) in
  if count <=? u32_max then Ok count
  else Err (with_limit "max_object_bytes"
              (Error_new ObjectTooLarge "blamed file has more lines than the blame engine can represent")).
Definition blame_missing (oid : Oid) (role : string) : Error :=
  with_oid oid (Error_retryable MissingObject (role ++ " object " ++ oid_str oid ++ " is missing from the object store")).
Definition non_blob_entry (oid : Oid) : Error :=
  with_oid oid (Error_new MalformedObject "blamed tree entry addresses a non-blob object").

(** [commit_graph::to_gix_oid] and [from_gix_oid]. *)
Definition graph_to_gix_oid (oid : Oid) : Res GixId :=
  if ((length (as_bytes oid) =? 20) || (length (as_bytes oid) =? 32))%nat then Ok (oid_kind oid, as_bytes oid)
  else Err (Error_new InvalidOid "object ID cannot be represented by the commit graph engine").
Definition from_gix_oid (id : GixId) : Res Oid := Oid_new id.1 id.2.

(** [AdapterState], without the store and the budget it borrows, and
    [BlameObjectStore::new]. *)
Record AdapterState : Type := mkAdapter {
  ad_objects : gmap Oid Payload;
  ad_counted : gset Oid;
  ad_first_error : option Error
}.
Definition Adapter_new (head_blob_id : Oid) (head_blob : bytes) : AdapterState :=
  mkAdapter {[head_blob_id := (Blob, head_blob)]} {[head_blob_id]} None.

(** [record]. *)
Definition record_error (e : Error) (s : AdapterState) : AdapterState :=
  match ad_first_error s with
  | None => mkAdapter (ad_objects s) (ad_counted s) (Some e)
  | Some _ => s
  end.

Section BlameOps.
Context `{Env, GixObject, GixGlob, GixBlame} {T : Type} (db : ObjectDb T).

Abbreviation AM := (DM (AdapterState * T)).

(** An operation of the budget or of the store whose error is recorded. *)
Definition recording {A} (m : DM T A) : AM A :=
  fun '(b, (s, t)) =>
    match m (b, t) with
    | (Ok a, (b, t)) => (Ok a, (b, (s, t)))
    | (Err e, (b, t)) => (Err e, (b, (record_error e s, t)))
    end.
Definition on_adapter {A} (f : AdapterState -> A * AdapterState) : AM A :=
  fun '(b, (s, t)) => let '(a, s) := f s in (Ok a, (b, (s, t))).

(** The read of [object], with the errors of a failed and of an empty one. *)
Definition find_required (oid : Oid) : DM T Payload :=
  let! found := smap_err (with_oid_if_none oid) (without_object_charge oid (try_find db oid)) in
  slift (ok_or (blame_missing oid "required") found).

(** [BlameObjectStore::object]. *)
Definition count_once (oid : Oid) (s : AdapterState) : bool * AdapterState :=
  (bool_decide (oid ∉ ad_counted s), mkAdapter (ad_objects s) ({[oid]} ∪ ad_counted s) (ad_first_error s)).
Definition keep_object (oid : Oid) (object : Payload) (s : AdapterState) : unit * AdapterState :=
  (tt, mkAdapter (<[oid := object]> (ad_objects s)) (ad_counted s) (ad_first_error s)).
Definition blame_object (oid : Oid) : AM Payload :=
  let! _ := recording (on_budget check) in
  let! known := on_adapter (fun s => (ad_objects s !! oid, s)) in
  match known with
  | Some object => sret object
  | None =>
      let! (kind, payload) := recording (find_required oid) in
      let! _ := recording (on_budget check) in
      let! first := (if bool_decide (kind = Commit \/ kind = Blob) then on_adapter (count_once oid) else sret false) in
      let! _ := (if first : bool then recording (on_budget charge_object_visit) else sret tt) in
      let payload := if bool_decide (kind = Commit) && is_shallow db oid then without_parent_headers payload else payload in
      let! _ := on_adapter (keep_object oid (kind, payload)) in
      sret (kind, payload)
  end.

(** [commit_payload]. *)
Definition commit_payload (oid : Oid) : AM bytes :=
  let! (kind, payload) := blame_object oid in
  if negb (bool_decide (kind = Commit)) then
    sthrow (with_oid oid (Error_new MalformedObject "blame attribution references a non-commit object"))
  else sret payload.

(** [impl Find] and [impl FindHeader] for the adapter. *)
Definition blame_try_find (id : GixId) : AM Payload :=
  let! oid := slift (from_gix_oid id) in
  blame_object oid.
Definition object_header (oid : Oid) : AM ObjectHeader :=
  let! known := on_adapter (fun s => (ad_objects s !! oid, s)) in
  let! object := (match known with Some object => sret object | None => blame_object oid end) in
  sret (mkHeader object.1 (lenN object.2)).
Definition blame_try_header (id : GixId) : AM ObjectHeader :=
  let! oid := slift (from_gix_oid id) in
  object_header oid.

(** The engine over the adapter. *)
Fixpoint run_engine (e : BlameEngine) (w : Budget * (AdapterState * T))
  : option (list BlameEntry) * (Budget * (AdapterState * T)) :=
  match e with
  | AskFind id k => let '(r, w) := blame_try_find id w in run_engine (k r) w
  | AskHeader id k => let '(r, w) := blame_try_header id w in run_engine (k r) w
  | BlameDone outcome => (outcome, w)
  end.

(** The commit of an entry, read once. *)
Definition entry_commit (commit_id : Oid) (metadata : gmap Oid LogCommit) : AM (LogCommit * gmap Oid LogCommit) :=
  match metadata !! commit_id with
  | Some commit => sret (commit, metadata)
  | None =>
      let! payload := commit_payload commit_id in
      let! commit := slift (decode_log_commit commit_id payload (is_shallow db commit_id)) in
      sret (commit, <[commit_id := commit]> metadata)
  end.

(** One hunk, and the loop over the entries. *)
Definition hunk_of (path : bytes) (entry : BlameEntry) (commit_id : Oid) (commit : LogCommit) : BlameHunk :=
  let length := be_len entry in
  let final_start := sadd32 (be_start_in_blamed_file entry) 1 in
  let original_start := sadd32 (be_start_in_source_file entry) 1 in
  mkBlameHunk final_start (sadd32 final_start length - 1) original_start (sadd32 original_start length - 1) commit_id
    (default path (be_source_file_name entry)) (lc_author commit) (lc_committer commit) (lc_subject commit)
    (bool_decide (lc_parents commit = [])).
Fixpoint blame_hunks (path : bytes) (entries : list BlameEntry) (metadata : gmap Oid LogCommit) (hunks : list BlameHunk)
  : AM (list BlameHunk) :=
  match entries with
  | [] => sret hunks
  | entry :: entries =>
      let! _ := on_budget check in
      let! commit_id := slift (from_gix_oid (be_commit_id entry)) in
      let! (commit, metadata) := entry_commit commit_id metadata in
      blame_hunks path entries metadata (hunks ++ [hunk_of path entry commit_id commit])
  end.

(** The part of [blame] that works with the adapter. *)
Definition attribute (snapshot : Snapshot) (path : bytes) (opts : BlameOptions) (ranges : BlameRanges)
  (max_bytes : N) (suspect : GixId) : AM (list BlameHunk) :=
  let! outcome := (fun w =>
    let '(outcome, w) := run_engine (blame_file suspect path ranges (bo_follow_renames opts) max_bytes) w in (Ok outcome, w)) in
  let! _ := on_budget check in
  match outcome with
  | Some entries => blame_hunks path entries ∅ []
  | None =>
      let! first_error := on_adapter (fun s => (ad_first_error s, mkAdapter (ad_objects s) (ad_counted s) None)) in
      sthrow (default (Error_new MalformedObject "blame traversal failed on malformed repository data") first_error)
  end.
Definition with_adapter {A} (s : AdapterState) (m : AM A) : DM T A :=
  fun '(b, t) => let '(r, (b, (_, t))) := m (b, (s, t)) in (r, (b, t)).

(** The entry a path names, which must be a blob. *)
Definition blame_entry_of (resolved : ResolvedPath) : Res ResolvedEntry :=
  match resolved with
  | RootTree _ => Err (blame_kind_error "tree")
  | Entry entry =>
      match re_kind entry with
      | KBlob => Ok entry
      | KTree => Err (blame_kind_error "tree")
      | KSymlink => Err (blame_kind_error "symlink")
      | KGitlink => Err (blame_kind_error "gitlink")
      end
  end.

(** The blamed image: its header, then its payload without a second charge. *)
Definition limits_now : DM T BudgetLimits := fun '(b, t) => (Ok (limits b), (b, t)).
Definition read_blamed_blob (oid : Oid) : DM T bytes :=
  let! found := try_header db oid in
  let! header := slift (ok_or (blame_missing oid "blamed blob header") found) in
  if negb (bool_decide (hdr_kind header = Blob)) then sthrow (non_blob_entry oid)
  else
    let! max := limits_now in
    if max_object_bytes max <? hdr_size header then
      sthrow (with_oid oid (with_limit "max_object_bytes"
        (Error_new ObjectTooLarge ("blamed file is " ++ pretty (hdr_size header) ++ " bytes and exceeds max_object_bytes "
           ++ pretty (max_object_bytes max)))))
    else
      let! found := without_object_charge oid (try_find db oid) in
      let! object := slift (ok_or (blame_missing oid "blamed blob") found) in
      if negb (bool_decide (object.1 = Blob)) then sthrow (non_blob_entry oid)
      else sret object.2.

(** The end of [blame]. *)
Definition finish_blame (path : bytes) (hunks : list BlameHunk) : DM T Blame :=
  fun '(b, t) =>
    let '(objects_read, bytes_read, _, _) := spent b in
    let '(hits, misses) := cache_spent b in
    (Ok (mkBlame path hunks
           (mkQueryStats objects_read bytes_read (lenN hunks) hits misses (cache_stats db t) 1 0 0 0 0 None) []), (b, t)).

(** [blame]. *)
Definition blame (snapshot : Snapshot) (path : bytes) (opts : BlameOptions) : DM T Blame :=
  let! _ := slift (ensure_query_compatible db snapshot) in
  let! _ := slift (validate_literal_path path "blame") in
  let! _ := on_budget check in
  let! resolved := resolve_path db snapshot path in
  let! entry := slift (blame_entry_of resolved) in
  let! head_blob := read_blamed_blob (re_oid entry) in
  let! _ := on_budget check in
  let! count := slift (blame_line_count head_blob) in
  let! _ := slift (validate_blame_range (bo_lines opts) count) in
  let! ranges := slift (match bo_lines opts with
                        | Some (start, end_) => ok_or (blame_range_error count) (from_one_based_inclusive_range start end_)
                        | None => Ok WholeFile
                        end) in
  let! max := limits_now in
  let! suspect := slift (graph_to_gix_oid (commit_oid snapshot)) in
  let! hunks := with_adapter (Adapter_new (re_oid entry) head_blob)
                  (attribute snapshot path opts ranges (max_object_bytes max) suspect) in
  let! _ := on_budget check in
  finish_blame path hunks.

End BlameOps.

(* ------------------------------------------------------------------ *)
(** ** The lines of the blamed file *)

Lemma newlines_complete cs : Forall complete_line cs -> length (filter (fun b => is_newline b = true) (concat cs)) = length cs.
Proof.
  induction 1 as [|s cs (a & -> & Ha) Hc IH]; [done|]. cbn [concat]. rewrite !filter_app, !length_app, IH.
  rewrite (filter_none _ a); [done|]. intros b Hb. rewrite Forall_forall in Ha. rewrite (Ha b Hb). done.
Qed.

(** The count of newlines and of a last line without one is the number of
    lines. *)
Lemma line_count_exact payload n : blame_line_count payload = Ok n -> n = lenN (lines payload).
Proof.
  destruct (layout_exists payload) as (cs & p & [Hc Hp ->]). rewrite lines_complete, lines_tail by done.
  unfold blame_line_count. case_bool_decide as He.
  { apply app_eq_nil in He as [Hcs ->]. destruct Hc as [|s cs (a & -> & _)]; [by intros [= <-]|]. by destruct a. }
  assert (Hno : filter (fun b => is_newline b = true) p = []).
  { apply filter_none. intros b Hb. unfold no_newline in Hp. rewrite Forall_forall in Hp. by rewrite (Hp b Hb). }
  unfold lenN. rewrite filter_app, length_app, (newlines_complete _ Hc), Hno, length_app. cbn [length].
  destruct p as [|b p _] using rev_ind.
  - destruct cs as [|s cs _] using rev_ind; [done|]. apply Forall_app in Hc as [_ Hs]. apply Forall_cons in Hs as [(a & -> & _) _].
    rewrite app_nil_r, concat_app. cbn [concat]. rewrite app_nil_r, app_assoc, last_snoc. cbn. case_match; [|done]. intros [= <-]. lia.
  - unfold no_newline in Hp. apply Forall_app in Hp as [_ Hp]. apply Forall_cons in Hp as [Hb _].
    rewrite app_assoc, last_snoc. cbn [fmap option_fmap option_map default from_option id]. rewrite Hb.
    assert (length (tail_line (p ++ [b])) = 1%nat) as -> by (by destruct p).
    case_match; [|done]. intros [= <-]. lia.
Qed.

(** The lines a query asks for: the first and the last one. *)
Definition requested (opts : BlameOptions) (count : N) : N * N := default (1, count) (bo_lines opts).

(** Entries and hunks that follow each other without a gap, from one line to
    another. *)
Fixpoint entries_cover (first : N) (entries : list BlameEntry) (last : N) : Prop :=
  match entries with
  | [] => first = last
  | e :: entries =>
      be_start_in_blamed_file e = first /\ 0 < be_len e /\ be_start_in_source_file e + be_len e < u32_max /\
      entries_cover (first + be_len e) entries last
  end.
Fixpoint hunks_cover (first : N) (hunks : list BlameHunk) (last : N) : Prop :=
  match hunks with
  | [] => first = last + 1
  | h :: hunks => bh_final_start h = first /\ first <= bh_final_end h /\ hunks_cover (bh_final_end h + 1) hunks last
  end.

Lemma entries_cover_le entries : forall first last, entries_cover first entries last -> first <= last.
Proof.
  induction entries as [|e entries IH]; intros first last; cbn; [lia|]. intros (_ & Hl & _ & Hr). specialize (IH _ _ Hr). lia.
Qed.

Section BlameSpec.
Context `{Env, GixObject, GixGlob, GixBlame} {T : Type}.
Context (db : ObjectDb T) (c : Oid -> ObjectReadResult) (I : T -> Prop) (F : ErrorCode -> Prop).
Context `{!LawfulDb db c I F}.
Hypothesis F_stop : forall e, budget_stop e -> F (code e).
Hypothesis headers : forall oid, hoare (on_store I) (fun e => F (code e)) (try_header db oid) (fun _ => True).

Abbreviation view := (graph_view db c).

(** A run of the engine in which what it is given is what the store holds, with
    the parents of shallow commits hidden; reads may also fail. *)
Inductive engine_answers : BlameEngine -> option (list BlameEntry) -> Prop :=
| answers_done outcome : engine_answers (BlameDone outcome) outcome
| answers_find id k a outcome :
    (forall p, a = Ok p -> exists oid, from_gix_oid id = Ok oid /\ view oid = Some p) ->
    engine_answers (k a) outcome -> engine_answers (AskFind id k) outcome
| answers_header id k a outcome :
    (forall h, a = Ok h -> exists oid p, from_gix_oid id = Ok oid /\ view oid = Some p /\ h = mkHeader p.1 (lenN p.2)) ->
    engine_answers (k a) outcome -> engine_answers (AskHeader id k) outcome.

Definition adapter_failure (e : Error) : Prop := F (code e) \/ code e = MissingObject.
Definition adapter_inv (st : AdapterState * T) : Prop :=
  I st.2 /\ (forall oid p, ad_objects st.1 !! oid = Some p -> view oid = Some p) /\
  (forall e, ad_first_error st.1 = Some e -> adapter_failure e).

Lemma recording_spec {A} (m : DM T A) (P : A -> Prop) :
  hoare (on_store I) adapter_failure m P -> hoare (on_store adapter_inv) adapter_failure (recording m) P.
Proof.
  intros Hm [b [s t]] (Ht & Ho & He). destruct (Hm (b, t) Ht) as [Hr Ht']. unfold recording.
  destruct (m (b, t)) as [[a|e] [b' t']]; cbn in Hr, Ht' |- *; (split; [done|]); [done|].
  unfold record_error. destruct (ad_first_error s) eqn:Ef; [done|]. split_and!; [done|done|]. by intros e' [= <-].
Qed.
Lemma adapter_spec {A} (f : AdapterState -> A * AdapterState) (P : A -> Prop) G :
  (forall s t, adapter_inv (s, t) -> P (f s).1 /\ adapter_inv ((f s).2, t)) -> hoare (on_store adapter_inv) G (on_adapter f) P.
Proof. intros Hf [b [s t]] Hi. unfold on_adapter. destruct (Hf s t Hi) as [Hp Hi']. by destruct (f s). Qed.
Lemma check_failure (m : BM unit) : hoare (on_store I) (fun e => F (code e)) (on_budget m) (fun _ => True) ->
  hoare (on_store I) adapter_failure (on_budget m) (fun _ => True).
Proof. intros Hm. eapply hoare_conseq; [exact Hm|intros e He; by left|done]. Qed.

Lemma find_required_spec oid : hoare (on_store I) adapter_failure (find_required db oid) (fun p => c oid = Some p).
Proof.
  unfold find_required. eapply (hoare_bind _ _ _ _ (fun v => v = c oid)).
  - eapply hoare_map_err; [apply hoare_without_object_charge, law_find|]. intros e He. left. by rewrite code_with_oid_if_none.
  - intros v ->. apply hoare_lift. destruct (c oid); cbn; [done|by right].
Qed.

Lemma blame_object_spec oid :
  hoare (on_store adapter_inv) adapter_failure (blame_object db oid) (fun p => view oid = Some p).
Proof.
  assert (Hcheck : hoare (on_store adapter_inv) adapter_failure (recording (on_budget check)) (fun _ => True)).
  { apply recording_spec, check_failure, hoare_check, F_stop. }
  unfold blame_object. eapply hoare_bind; [exact Hcheck|]. intros _ _.
  eapply (hoare_bind _ _ _ _ (fun known => forall p, known = Some p -> view oid = Some p)).
  { apply adapter_spec. intros s t Hi. split; [|done]. intros p Hp. by apply Hi. }
  intros [object|] Hknown; [apply hoare_ret; by apply Hknown|].
  eapply hoare_bind; [apply recording_spec, find_required_spec|]. intros [kind payload] Hc.
  eapply hoare_bind; [exact Hcheck|]. intros _ _.
  eapply (hoare_bind _ _ _ _ (fun _ => True)).
  { case_bool_decide; [|by apply hoare_ret]. apply adapter_spec. intros s t Hi. by split. }
  intros first _. eapply (hoare_bind _ _ _ _ (fun _ => True)).
  { destruct first; [|by apply hoare_ret]. apply recording_spec, check_failure, hoare_charge_object_visit, F_stop. }
  intros _ _. set (payload' := if bool_decide (kind = Commit) && is_shallow db oid then without_parent_headers payload else payload).
  assert (Hv : view oid = Some (kind, payload')) by (unfold graph_view; by rewrite Hc).
  eapply (hoare_bind _ _ _ _ (fun _ => True)); [|intros _ _; by apply hoare_ret].
  apply adapter_spec. intros s t (Ht & Ho & He). split; [done|]. split_and!; [done| |done].
  intros oid' p. cbn. destruct (decide (oid = oid')) as [<-|Hne]; [rewrite lookup_insert_eq; by intros [= <-]|].
  rewrite lookup_insert_ne by done. apply Ho.
Qed.

Lemma object_header_spec oid :
  hoare (on_store adapter_inv) adapter_failure (object_header db oid)
    (fun h => exists p, view oid = Some p /\ h = mkHeader p.1 (lenN p.2)).
Proof.
  unfold object_header. eapply (hoare_bind _ _ _ _ (fun known => forall p, known = Some p -> view oid = Some p)).
  { apply adapter_spec. intros s t Hi. split; [|done]. intros p Hp. by apply Hi. }
  intros known Hknown. eapply (hoare_bind _ _ _ _ (fun p => view oid = Some p)).
  { destruct known; [apply hoare_ret; by apply Hknown|apply blame_object_spec]. }
  intros p Hp. apply hoare_ret. by exists p.
Qed.

(** A run of the engine over the adapter. *)
Lemma run_find id w : adapter_inv w.2 ->
  (forall p, (blame_try_find db id w).1 = Ok p -> exists oid, from_gix_oid id = Ok oid /\ view oid = Some p) /\
  adapter_inv (blame_try_find db id w).2.2.
Proof.
  intros Hw. unfold blame_try_find, sbind, slift. destruct (from_gix_oid id) as [oid|e]; [|done].
  destruct (blame_object_spec oid w Hw) as [Hr Hi]. split; [|done]. intros p Hp. rewrite Hp in Hr. by exists oid.
Qed.
Lemma run_header id w : adapter_inv w.2 ->
  (forall h, (blame_try_header db id w).1 = Ok h ->
     exists oid p, from_gix_oid id = Ok oid /\ view oid = Some p /\ h = mkHeader p.1 (lenN p.2)) /\
  adapter_inv (blame_try_header db id w).2.2.
Proof.
  intros Hw. unfold blame_try_header, sbind at 1, slift. destruct (from_gix_oid id) as [oid|e]; [|done].
  destruct (object_header_spec oid w Hw) as [Hr Hi]. split; [|done]. intros h Hh. rewrite Hh in Hr.
  destruct Hr as (p & Hp & Hv). by exists oid, p.
Qed.
Lemma run_engine_spec e : forall w, adapter_inv w.2 ->
  engine_answers e (run_engine db e w).1 /\ adapter_inv (run_engine db e w).2.2.
Proof.
  induction e as [id k IH|id k IH|o]; intros w Hw; cbn [run_engine]; [| |split; [constructor|done]].
  - destruct (run_find id w Hw) as [Ha Hi]. destruct (blame_try_find db id w) as [r w'].
    destruct (IH r w' Hi) as [Hr Hi']. split; [|done]. by eapply answers_find.
  - destruct (run_header id w Hw) as [Ha Hi]. destruct (blame_try_header db id w) as [r w'].
    destruct (IH r w' Hi) as [Hr Hi']. split; [|done]. by eapply answers_header.
Qed.

(** What a hunk says of its commit, as the engine sees it. *)
Definition commit_shown (id : Oid) (lc : LogCommit) : Prop :=
  exists q, view id = Some (Commit, q) /\ decode_log_commit id q (is_shallow db id) = Ok lc.
Definition blame_failure (e : Error) : Prop := adapter_failure e \/ code e = MalformedObject \/ code e = InvalidOid.

Lemma entry_commit_spec id metadata :
  (forall id lc, metadata !! id = Some lc -> commit_shown id lc) ->
  hoare (on_store adapter_inv) blame_failure (entry_commit db id metadata)
    (fun r => commit_shown id r.1 /\ forall id lc, r.2 !! id = Some lc -> commit_shown id lc).
Proof.
  intros Hmeta. unfold entry_commit. destruct (metadata !! id) as [lc|] eqn:E; [apply hoare_ret; split; [by apply Hmeta|done]|].
  eapply (hoare_bind _ _ _ _ (fun q => view id = Some (Commit, q))).
  { unfold commit_payload. eapply hoare_bind.
    { eapply hoare_conseq; [apply blame_object_spec|intros e He; by left|intros a Ha; exact Ha]. }
    intros [kind q] Hv. case_bool_decide as Hk; cbn [negb]; [subst kind; by apply hoare_ret|]. apply hoare_throw. by right; left. }
  intros q Hv. destruct (decode_log_commit id q (is_shallow db id)) as [lc|e] eqn:Ed.
  2: { eapply (hoare_bind _ _ _ _ (fun _ => False)); [|done]. apply hoare_lift. right; left. by eapply decode_log_commit_Err. }
  eapply (hoare_bind _ _ _ _ (fun x => x = lc)); [by apply hoare_lift|]. intros ? ->.
  assert (Hlc : commit_shown id lc) by (by exists q). apply hoare_ret. split; [done|]. cbn. intros id' lc'.
  destruct (decide (id = id')) as [<-|Hne]; [rewrite lookup_insert_eq; by intros [= <-]|]. rewrite lookup_insert_ne by done. apply Hmeta.
Qed.

(** A hunk shows an entry of the engine's answer: its commit, the path it names
    or else the blamed one, its lines counted from 1 in both files, and what the
    commit says. *)
Definition hunk_shows (path : bytes) (e : BlameEntry) (h : BlameHunk) : Prop :=
  from_gix_oid (be_commit_id e) = Ok (bh_commit_id h) /\
  bh_original_path h = match be_source_file_name e with Some source => source | None => path end /\
  (be_start_in_blamed_file e + be_len e < u32_max ->
   bh_final_start h = be_start_in_blamed_file e + 1 /\ bh_final_end h = be_start_in_blamed_file e + be_len e) /\
  (be_start_in_source_file e + be_len e < u32_max ->
   bh_original_start h = be_start_in_source_file e + 1 /\ bh_original_end h = be_start_in_source_file e + be_len e) /\
  exists lc, commit_shown (bh_commit_id h) lc /\ bh_author h = lc_author lc /\ bh_committer h = lc_committer lc /\
    bh_summary h = lc_subject lc /\ (bh_boundary h = true <-> lc_parents lc = []).

Lemma hunk_of_shows path e id lc :
  from_gix_oid (be_commit_id e) = Ok id -> commit_shown id lc -> hunk_shows path e (hunk_of path e id lc).
Proof.
  intros Hid Hlc. unfold hunk_shows. cbn [hunk_of bh_commit_id bh_original_path bh_final_start bh_final_end
    bh_original_start bh_original_end bh_author bh_committer bh_summary bh_boundary].
  split_and!; [done|by destruct (be_source_file_name e)|unfold sadd32; lia|unfold sadd32; lia|].
  exists lc. by rewrite bool_decide_eq_true.
Qed.

Lemma blame_hunks_spec path entries : forall metadata hunks,
  (forall id lc, metadata !! id = Some lc -> commit_shown id lc) ->
  hoare (on_store adapter_inv) blame_failure (blame_hunks db path entries metadata hunks)
    (fun r => exists new, r = hunks ++ new /\ Forall2 (hunk_shows path) entries new).
Proof.
  induction entries as [|e entries IH]; intros metadata hunks Hmeta; cbn [blame_hunks].
  { apply hoare_ret. exists []. by rewrite app_nil_r. }
  eapply hoare_bind; [apply hoare_check; intros x Hx; left; left; by apply F_stop|]. intros _ _.
  eapply (hoare_bind _ _ _ _ (fun id => from_gix_oid (be_commit_id e) = Ok id)).
  { apply hoare_lift. unfold from_gix_oid, Oid_new. case_match; cbn; first [done|by right; right]. }
  intros id Hid. eapply hoare_bind; [by apply entry_commit_spec|]. intros [lc metadata'] [Hlc Hmeta'].
  eapply hoare_post; [by apply IH|]. intros r (new & -> & Hnew). exists (hunk_of path e id lc :: new).
  split; [by rewrite <- app_assoc|]. constructor; [by apply hunk_of_shows|done].
Qed.

(** Where the entries follow each other, so do the hunks. *)
Lemma hunks_cover_entries path entries hunks last : Forall2 (hunk_shows path) entries hunks ->
  forall first, entries_cover first entries last -> last < u32_max -> hunks_cover (first + 1) hunks last.
Proof.
  induction 1 as [|e h entries hunks (_ & _ & Hf & _) _ IH]; intros first; cbn [entries_cover hunks_cover]; [by intros ->|].
  intros (<- & Hl & _ & Hr) Hmax. pose proof (entries_cover_le _ _ _ Hr) as Hle. destruct Hf as [-> ->]; [lia|].
  split_and!; [done|lia|by apply IH].
Qed.

Section Query.
Context (snapshot : Snapshot) (path : bytes) (opts : BlameOptions).

(** The blob that is blamed. *)
Definition blamed (entry : ResolvedEntry) (p : bytes) : Prop :=
  denotes db c snapshot path (Entry entry) /\ re_kind entry = KBlob /\ c (re_oid entry) = Some (Blob, p).
Definition asked_ranges : option BlameRanges :=
  match bo_lines opts with
  | Some (start, end_) => from_one_based_inclusive_range start end_
  | None => Some WholeFile
  end.
Definition blame_codes : list ErrorCode :=
  [UnsupportedHash; InvalidOid; InvalidPath; InvalidArgument; MissingObject; NotATree; MalformedObject; ObjectTooLarge].
Ltac blame_code := unfold blame_codes; cbn; rewrite !elem_of_cons; tauto.
Definition blame_error (e : Error) : Prop := F (code e) \/ code e ∈ blame_codes.

Lemma coded {A} (r : Res A) (P : A -> Prop) :
  (forall e, r = Err e -> code e ∈ blame_codes) -> (forall a, r = Ok a -> P a) -> hoare (on_store I) blame_error (slift r) P.
Proof. intros He Ha. apply hoare_lift. destruct r; cbn; [by apply Ha|right; by apply He]. Qed.
Lemma failed_coded e : blame_failure e -> blame_error e.
Proof. unfold blame_failure, blame_error, adapter_failure, blame_codes. rewrite !elem_of_cons. tauto. Qed.

Lemma attribute_spec s ranges max suspect :
  (forall t, I t -> adapter_inv (s, t)) ->
  hoare (on_store I) blame_error (with_adapter s (attribute db snapshot path opts ranges max suspect))
    (fun hunks => exists entries,
       engine_answers (blame_file suspect path ranges (bo_follow_renames opts) max) (Some entries) /\
       Forall2 (hunk_shows path) entries hunks).
Proof.
  intros Hnew.
  assert (Hspec : hoare (on_store adapter_inv) blame_failure (attribute db snapshot path opts ranges max suspect)
    (fun hunks => exists entries,
       engine_answers (blame_file suspect path ranges (bo_follow_renames opts) max) (Some entries) /\
       Forall2 (hunk_shows path) entries hunks)).
  2: { intros [b t] Ht. destruct (Hspec (b, (s, t)) (Hnew t Ht)) as [Hr Hi]. unfold with_adapter.
       destruct (attribute _ _ _ _ _ _ _ _) as [r [b' [s' t']]]. cbn in Hr, Hi |- *. split; [|by apply Hi].
       destruct r; cbn in *; [done|by apply failed_coded]. }
  unfold attribute.
  eapply (hoare_bind _ _ _ _ (engine_answers (blame_file suspect path ranges (bo_follow_renames opts) max))).
  { intros w Hw. destruct (run_engine_spec (blame_file suspect path ranges (bo_follow_renames opts) max) w Hw) as [Ha Hi].
    by destruct (run_engine db _ w). }
  intros outcome Ha. eapply hoare_bind; [apply hoare_check; intros e He; left; left; by apply F_stop|]. intros _ _.
  destruct outcome as [entries|].
  - eapply hoare_post; [apply blame_hunks_spec; by intros id lc Hn|]. intros r (new & -> & Hnew'). by exists entries.
  - eapply (hoare_bind _ _ _ _ (fun first => forall e, first = Some e -> adapter_failure e)).
    { apply adapter_spec. intros st t (Ht & Ho & He). split; [exact He|]. by split_and!. }
    intros [e|] He; apply hoare_throw; [left; by apply He|by right; left].
Qed.

Lemma read_blamed_spec oid : hoare (on_store I) blame_error (read_blamed_blob db oid) (fun p => c oid = Some (Blob, p)).
Proof.
  unfold read_blamed_blob. eapply hoare_bind.
  { eapply hoare_conseq; [apply headers|intros e He; by left|intros a _; exact Logic.I]. }
  intros found _. eapply hoare_bind.
  { apply (coded _ (fun _ => True)); [|done]. destruct found; [done|]. intros e [= <-]. blame_code. }
  intros header _. case_bool_decide; cbn [negb]; [|apply hoare_throw; right; blame_code].
  eapply (hoare_bind _ _ _ _ (fun _ => True)); [by intros [b t]|]. intros max _.
  destruct (_ <? _); [apply hoare_throw; right; blame_code|].
  eapply (hoare_bind _ _ _ _ (fun v => v = c oid)).
  { eapply hoare_conseq; [apply hoare_without_object_charge, law_find|intros e He; by left|done]. }
  intros v ->. eapply (hoare_bind _ _ _ _ (fun o => c oid = Some o)).
  { apply coded; destruct (c oid) as [o|]; try done; [|by intros a [= <-]]. intros e [= <-]. blame_code. }
  intros [kind p] Ho. cbn [fst snd]. case_bool_decide as Hk; cbn [negb]; [subst kind; by apply hoare_ret|].
  apply hoare_throw. right. blame_code.
Qed.

(** The range of a query that passed its check. *)
Lemma range_checked count : validate_blame_range (bo_lines opts) count = Ok tt ->
  let '(first, last) := requested opts count in 1 <= first /\ first <= last + 1 /\ last <= count.
Proof.
  unfold validate_blame_range, requested. destruct (bo_lines opts) as [[first last]|]; [|intros _; cbn -[N.add N.le]; lia]. cbn -[N.add N.le N.eqb N.ltb orb].
  destruct (_ || _) eqn:E; [done|]. rewrite !orb_false_iff, !N.eqb_neq, !N.ltb_ge in E. lia.
Qed.

(** What a blame is: for the blob the path denotes and a range within its
    lines, the engine's answer for the snapshot's commit, the path, the range
    and the rename setting, entry by entry. *)
Definition blame_shows (b : Blame) : Prop :=
  exists entry p suspect ranges max entries, blamed entry p /\ bl_path b = path /\
    graph_to_gix_oid (commit_oid snapshot) = Ok suspect /\ asked_ranges = Some ranges /\
    engine_answers (blame_file suspect path ranges (bo_follow_renames opts) max) (Some entries) /\
    Forall2 (hunk_shows path) entries (bl_hunks b) /\
    let '(first, last) := requested opts (lenN (lines p)) in
    1 <= first /\ first <= last + 1 /\ last <= lenN (lines p) /\
    (entries_cover (first - 1) entries last -> last < u32_max -> hunks_cover first (bl_hunks b) last).

Lemma blame_spec : hoare (on_store I) blame_error (blame db snapshot path opts) blame_shows.
Proof.
  assert (Hcheck : hoare (on_store I) blame_error (on_budget check) (fun _ => True)).
  { apply hoare_check. intros e He. left. by apply F_stop. }
  unfold blame. eapply (hoare_bind _ _ _ _ (fun _ => True)).
  { apply coded; [|done]. unfold ensure_query_compatible. intros e. repeat case_match; intros; simplify_eq; blame_code. }
  intros _ _. eapply (hoare_bind _ _ _ _ (fun _ => True)).
  { apply coded; [|done]. unfold validate_literal_path. intros e. destruct (validate_path path) eqn:Ev; cbn [rbind].
    - case_match; intros; simplify_eq; blame_code.
    - intros [= <-]. rewrite (validate_path_Err _ _ Ev). blame_code. }
  intros _ _. eapply hoare_bind; [exact Hcheck|]. intros _ _. eapply (hoare_bind _ _ _ _ (denotes db c snapshot path)).
  { eapply hoare_conseq; [apply (resolve_path_by_spec db c I F _ snapshot path (read_tree_entries_spec db c I F))| |done].
    intros e [He|[He _]]; [by left|right]. unfold path_codes in He. revert He. unfold blame_codes. rewrite !elem_of_cons. tauto. }
  intros resolved Hden. eapply (hoare_bind _ _ _ _ (fun entry => resolved = Entry entry /\ re_kind entry = KBlob)).
  { apply coded; unfold blame_entry_of; destruct resolved as [|entry]; try (intros; simplify_eq; blame_code);
      intros x; destruct (re_kind entry) eqn:Ek; intros; simplify_eq; try blame_code; done. }
  intros entry [-> Hk]. eapply hoare_bind; [apply read_blamed_spec|]. intros p Hp. assert (Hb : blamed entry p) by done.
  eapply hoare_bind; [exact Hcheck|]. intros _ _. eapply (hoare_bind _ _ _ _ (fun n => n = lenN (lines p))).
  { apply coded; [|apply line_count_exact]. unfold blame_line_count. intros e. case_match; intros; simplify_eq; blame_code. }
  intros ? ->. eapply (hoare_bind _ _ _ _ (fun _ => validate_blame_range (bo_lines opts) (lenN (lines p)) = Ok tt)).
  { apply coded; [|by intros []]. unfold validate_blame_range. intros e. repeat case_match; intros; simplify_eq; blame_code. }
  intros _ Hrange. eapply (hoare_bind _ _ _ _ (fun ranges => asked_ranges = Some ranges)).
  { unfold asked_ranges. apply coded; destruct (bo_lines opts) as [[s e]|]; intros x;
      try (destruct (from_one_based_inclusive_range s e)); cbn [ok_or]; intros; simplify_eq; try blame_code; done. }
  intros ranges Hranges. eapply (hoare_bind _ _ _ _ (fun _ => True)); [by intros [b t]|]. intros max _.
  eapply (hoare_bind _ _ _ _ (fun suspect => graph_to_gix_oid (commit_oid snapshot) = Ok suspect)).
  { apply coded; [|done]. unfold graph_to_gix_oid. intros e. case_match; intros; simplify_eq; blame_code. }
  intros suspect Hs. eapply hoare_bind; [apply attribute_spec|].
  { intros t Ht. split_and!; [done| |done]. intros oid q. cbn. intros Hq. apply lookup_singleton_Some in Hq as [<- <-].
    unfold graph_view. rewrite Hp. by rewrite bool_decide_false. }
  intros hunks (entries & Ha & Hh). eapply hoare_bind; [exact Hcheck|]. intros _ _.
  pose proof (range_checked _ Hrange) as Hreq.
  intros [b t] Ht. unfold finish_blame. destruct (spent b) as [[[? ?] ?] ?], (cache_spent b). split; [|done].
  eexists entry, p, suspect, ranges, _, entries. split_and!; [done..|exact Ha|done|]. cbn [bl_hunks].
  destruct (requested opts (lenN (lines p))) as [first last] eqn:Er.
  split_and!; try lia. intros Hcover Hmax. replace first with (first - 1 + 1) by lia.
  by apply (hunks_cover_entries path entries).
Qed.

(** C23. Blame reports the engine's attribution faithfully. Over any lawful
    store, a blame that succeeds is about the blob that the path denotes and a
    range within its lines. Its hunks are, one for one and in order, the entries
    that the engine answers when asked about the snapshot's commit, that path,
    the asked range and rename setting, and when every object it is given is what
    the store holds, with the parents of shallow commits hidden: the entry's
    commit, the source path it names or else the blamed path, its lines counted
    from 1 in both files below [u32::MAX], and the author, the committer, the
    subject and the boundary of that commit. So where the entries follow each
    other over the requested lines, the hunks cover these without gap or
    overlap. A blame fails only as the store does, or with a code of the query:
    a bad path, kind or range, or a missing, malformed or too large object. *)
Theorem blame_attributes_lines w r w' :
  I w.2 -> blame db snapshot path opts w = (r, w') ->
  match r with
  | Ok b => blame_shows b
  | Err e => blame_error e
  end.
Proof. intros Hw E. destruct (hoare_run _ _ _ _ _ _ _ blame_spec Hw E) as [Hr _]. by destruct r. Qed.

End Query.

End BlameSpec.

(* ------------------------------------------------------------------ *)
(** ** Two commits *)

Module BlameDemo.

(** The second commit inserts a line into the file of the first. *)
Definition commit (tree : Oid) (ps : list Oid) (subject : string) : ObjectKind * bytes :=
  (Commit, bs "tree " ++ to_hex tree ++ [x0a] ++ (ps ≫= fun p => bs "parent " ++ to_hex p ++ [x0a])
     ++ bs "author A <a> 1 +0000" ++ [x0a] ++ bs "committer C <c> 2 +0000" ++ [x0a; x0a] ++ bs subject).
Definition objects : list (Oid * (ObjectKind * bytes)) :=
  [(sample_id x01, commit (sample_id x11) [] "first");
   (sample_id x02, commit (sample_id x12) [sample_id x01] "second");
   (sample_id x11, (Tree, tree_line "100644" "f" (sample_id x21)));
   (sample_id x12, (Tree, tree_line "100644" "f" (sample_id x22)));
   (sample_id x21, (Blob, bs "a" ++ [x0a] ++ bs "b" ++ [x0a]));
   (sample_id x22, (Blob, bs "a" ++ [x0a] ++ bs "x" ++ [x0a] ++ bs "b" ++ [x0a]))].
Definition repo : StaticOdb := mkStatic Sha1 (list_to_map objects).
Definition db : ObjectDb unit := @static_db quiet unit repo.
Definition snapshot : Snapshot := mkSnapshot (sample_id x02) (sample_id x12).

(** An engine for this file: it reads the suspect and both blobs and answers. *)
Definition id_of (oid : Oid) : GixId := (Sha1, as_bytes oid).
Definition entries : list BlameEntry :=
  [mkBlameEntry 0 0 1 (id_of (sample_id x01)) None;
   mkBlameEntry 1 1 1 (id_of (sample_id x02)) None;
   mkBlameEntry 2 1 1 (id_of (sample_id x01)) (Some (bs "f"))].
Definition or_fail {A} (r : Res A) (e : BlameEngine) : BlameEngine :=
  match r with
  | Ok _ => e
  | Err _ => BlameDone None
  end.
Definition engine_program (suspect : GixId) : BlameEngine :=
  AskFind suspect (fun r => or_fail r
    (AskHeader (id_of (sample_id x22)) (fun r => or_fail r
       (AskFind (id_of (sample_id x21)) (fun r => or_fail r (BlameDone (Some entries))))))).
Definition engine : GixBlame := {|
  BlameRanges := unit;
  WholeFile := tt;
  from_one_based_inclusive_range := fun _ _ => None;
  blame_file := fun suspect _ _ _ _ => engine_program suspect
|}.
Definition run (path : string) : Res Blame * (Budget * unit) :=
  @blame quiet simple_gix engine unit db snapshot (bs path) BlameOptions_default fresh_world.
Definition shown (r : Res Blame) : option (list (N * N * N * N * Oid * bytes * bool)) :=
  match r with
  | Ok b => Some ((fun h => (bh_final_start h, bh_final_end h, bh_original_start h, bh_original_end h, bh_commit_id h,
                             bh_summary h, bh_boundary h)) <$> bl_hunks b)
  | Err _ => None
  end.

Lemma headers oid :
  hoare (on_store (fun _ : unit => True)) (fun e => plain_failure (code e)) (try_header db oid) (fun _ => True).
Proof. eapply hoare_post; [apply (@static_header_spec quiet unit (fun _ => True) repo oid)|done]. Qed.
End BlameDemo.

(** The three lines of the file. *)
Lemma blame_attributes_lines_witness :
  BlameDemo.shown (BlameDemo.run "f").1 =
    Some [(1, 1, 1, 1, sample_id x01, bs "first", true); (2, 2, 2, 2, sample_id x02, bs "second", false);
          (3, 3, 2, 2, sample_id x01, bs "first", true)] /\
  match (BlameDemo.run "f").1 with
  | Ok b => @blame_shows simple_gix BlameDemo.engine unit BlameDemo.db (static_contents BlameDemo.repo) BlameDemo.snapshot (bs "f") BlameOptions_default b
  | Err e => blame_error plain_failure e
  end.
Proof.
  split; [vm_compute; reflexivity|].
  exact (@blame_attributes_lines quiet simple_gix BlameDemo.engine unit BlameDemo.db (static_contents BlameDemo.repo)
    (fun _ => True) plain_failure _ plain_stop BlameDemo.headers BlameDemo.snapshot (bs "f") BlameOptions_default
    fresh_world _ _ Logic.I (surjective_pairing (BlameDemo.run "f"))).
Defined.
