(* ===== verification/RepoAdmin.v ===== *)
(** * Administration of bare repositories ([repo_admin.rs])

    The reference transaction [write_refs] and the installation of a bare
    repository, [init_bare].

    The engine is a parameter: the validation of reference names, the handle of
    a repository and its reference transactions ([GixRefs]), what a transaction
    promises being a class of its own ([EditsTransaction]); the files that it creates
    in a new repository and the configuration it rewrites ([GixInit]).

    The installation works in the parent directory of its destination, a map
    from names to nodes. Every system call takes one step, the class [InitFaults]
    says which of them fail and how, and [fs_trace] records every state of the
    directory, which no operation reads: a crash leaves one of them. Other
    processes leave the directory alone. *)

From Stdlib Require Import NArith Lia Strings.Byte Strings.String.
From stdpp Require Import prelude gmap strings list.
From S2P Require Import Prelude Errors Objects Pathspec Tree Btree.

Open Scope N_scope.

(* ------------------------------------------------------------------ *)
(** ** Reference transactions *)

Definition BUNDLE_TOC_CAP_BYTES : N := 67108864.
Definition MIN_BUNDLE_REF_ROW_BYTES : N := 27.
Definition MAX_BUNDLE_REF_ROWS : N := BUNDLE_TOC_CAP_BYTES / MIN_BUNDLE_REF_ROW_BYTES.
Definition MAX_ADMIN_REF_NAME_BYTES : nat := 4096.
Definition MAX_REF_COMPONENT_BYTES : nat := 255.

(** [gix_ref::Target], [PreviousValue] and [RefEdit]: an update of the
    reference and its log without a message, not through symbolic references. *)
Inductive Target : Type :=
| TObject (oid : Oid)
| TSymbolic (name : bytes).
#[export] Instance Target_eq_decision : EqDecision Target.
Proof. solve_decision. Defined.
Inductive PreviousValue : Type :=
| MustNotExist
| AnyValue.
Record RefEdit : Type := mkRefEdit {
  ed_name : bytes;
  ed_new : Target;
  ed_expected : PreviousValue
}.

(** [gix::reference::edit::Error], with the preparation errors that the code
    tells apart. *)
Inductive EditError : Type :=
| DeleteReferenceMustExist
| MustNotExistError
| MustExistError
| ReferenceOutOfDate
| ReferenceDecode
| OtherEditError.
#[export] Instance EditError_eq_decision : EqDecision EditError.
Proof. solve_decision. Defined.

(** The engine: reference names, and a repository with its transactions. *)
Class GixRefs (R : Type) : Type := {
  validate_name : bytes -> bool;
  full_name : bytes -> bool;
  repo_opens : R -> bool;
  repo_is_bare : R -> bool;
  repo_hash : R -> HashKind;
  edit_references : list RefEdit -> R -> result EditError (list RefEdit) * R
}.

(** [has_directory_file_conflict] and [map_edit_error]. *)
Definition prefix_taken (targets : list (bytes * Oid)) (name : bytes) : bool :=
  existsb (fun index => bool_decide (name !! index = Some x2f) &&
                        bool_decide (is_Some (bt_get (take index name) targets))) (seq 0 (length name)).
Definition has_directory_file_conflict (targets : list (bytes * Oid)) : bool :=
  existsb (fun t => starts_with t.1 (bs "HEAD/")) targets || existsb (fun t => prefix_taken targets t.1) targets.
Definition map_edit_error (e : EditError) (has_directory_file_conflict : bool) : Error :=
  let content_conflict :=
    match e with
    | DeleteReferenceMustExist | MustNotExistError | MustExistError | ReferenceOutOfDate | ReferenceDecode => true
    | OtherEditError => false
    end in
  if has_directory_file_conflict || content_conflict then
    Error_new MalformedRef "reference transaction could not be applied"
  else Error_new BackendError "reference transaction failed during filesystem IO".

(** [update_edit] and [oid_for_repo]. *)
Definition update_edit (name : bytes) (new : Target) (expected : PreviousValue) : RefEdit := mkRefEdit name new expected.
Definition oid_for_repo (hash : HashKind) (raw : bytes) : Res Oid :=
  if negb (length raw =? digest_len hash)%nat then
    Err (Error_new InvalidOid "object ID length does not match the repository hash")
  else map_err (fun _ => Error_new InvalidOid "object ID length does not match the repository hash") (Oid_new hash raw).

Section WriteRefs.
Context `{GixRefs R}.

(** [validated_ref_name] and [validated_head_symref]. *)
Definition validated_ref_name (name : bytes) : Res bytes :=
  if (MAX_ADMIN_REF_NAME_BYTES <? length name)%nat then
    Err (with_reason "name_too_long" (Error_new MalformedRef "reference name is too long"))
  else if existsb (fun component => (MAX_REF_COMPONENT_BYTES <? length component)%nat) (split_on is_slash name) then
    Err (with_reason "component_too_long" (Error_new MalformedRef "reference name component is too long"))
  else if negb (validate_name name) then Err (Error_new MalformedRef "reference name is malformed")
  else if negb (full_name name) then Err (Error_new MalformedRef "reference name is malformed")
  else Ok name.
Definition validated_head_symref (name : bytes) : Res bytes :=
  let? name := validated_ref_name name in
  if negb (starts_with name (bs "refs/heads/")) then
    Err (Error_new MalformedRef "HEAD symbolic reference must name a branch")
  else Ok name.

(** The loop over the supplied references. *)
Fixpoint collect_targets (hash : HashKind) (refs : list (bytes * bytes)) (targets : list (bytes * Oid))
  : Res (list (bytes * Oid)) :=
  match refs with
  | [] => Ok targets
  | (name, raw_oid) :: refs =>
      let? _ := validated_ref_name name in
      if bytes_eqb name (bs "HEAD") then
        Err (Error_new InvalidArgument "HEAD must be supplied through the dedicated head argument")
      else
        let? oid := oid_for_repo hash raw_oid in
        match bt_get name targets with
        | Some _ => Err (Error_new InvalidArgument "duplicate reference name")
        | None => collect_targets hash refs (bt_insert name oid targets)
        end
  end.

(** The target of [HEAD]. *)
Definition head_target (hash : HashKind) (targets : list (bytes * Oid)) (head : option (option bytes * option bytes))
  : Res Target :=
  match head with
  | None => Err (Error_new InvalidArgument "HEAD target must be supplied")
  | Some (Some raw_oid, Some raw_symref) =>
      let? oid := oid_for_repo hash raw_oid in
      let? symref := validated_head_symref raw_symref in
      match bt_get raw_symref targets with
      | Some target =>
          if bool_decide (target = oid) then Ok (TSymbolic symref)
          else Err (Error_new InvalidArgument "HEAD symref target disagrees with HEAD row")
      | None => Err (Error_new InvalidArgument "HEAD symref target disagrees with HEAD row")
      end
  | Some (None, Some raw_symref) =>
      let? symref := validated_head_symref raw_symref in
      match bt_get raw_symref targets with
      | Some _ => Err (Error_new InvalidArgument "unborn HEAD must name an absent branch reference")
      | None => Ok (TSymbolic symref)
      end
  | Some (Some raw_oid, None) =>
      let? oid := oid_for_repo hash raw_oid in
      Ok (TObject oid)
  | Some (None, None) => Err (Error_new InvalidArgument "HEAD target must contain an object ID or symbolic reference")
  end.

(** The edits of the transaction. *)
Fixpoint target_edits (targets : list (bytes * Oid)) : Res (list RefEdit) :=
  match targets with
  | [] => Ok []
  | (name, oid) :: targets =>
      let? name := validated_ref_name name in
      let? edits := target_edits targets in
      Ok (update_edit name (TObject oid) MustNotExist :: edits)
  end.

(** [write_refs]. *)
Definition write_refs (refs : list (bytes * bytes)) (head : option (option bytes * option bytes)) (r : R) : Res N * R :=
  if MAX_BUNDLE_REF_ROWS <? lenN refs then
    (Err (Error_new InvalidArgument "reference count exceeds the bundle TOC cap"), r)
  else if negb (repo_opens r) then (Err (Error_new InvalidArgument "reference destination is not a Git repository"), r)
  else if negb (repo_is_bare r) then (Err (Error_new InvalidArgument "reference destination must be a bare repository"), r)
  else
    let edits :=
      let? targets := collect_targets (repo_hash r) refs [] in
      let? head := head_target (repo_hash r) targets head in
      let? edits := target_edits targets in
      Ok (edits ++ [update_edit (bs "HEAD") head AnyValue], has_directory_file_conflict targets) in
    match edits with
    | Err e => (Err e, r)
    | Ok (edits, conflict) =>
        match edit_references edits r with
        | (Err e, r) => (Err (map_edit_error e conflict), r)
        | (Ok committed, r) =>
            (if lenN committed <=? u64_max then Ok (lenN committed)
             else Err (Error_new UnsupportedOperation "reference transaction edit count exceeds u64"), r)
        end
    end.

End WriteRefs.

(* ------------------------------------------------------------------ *)
(** ** What a transaction leaves *)

Definition apply_edits (edits : list RefEdit) (refs : gmap bytes Target) : gmap bytes Target :=
  foldl (fun refs e => <[ed_name e := ed_new e]> refs) refs edits.

(** When an edit's expectation is met: an edit that must create its reference
    also passes where that reference already is what the edit would make it. *)
Definition expectation_met (refs : gmap bytes Target) (e : RefEdit) : Prop :=
  match ed_expected e with
  | MustNotExist => refs !! ed_name e = None \/ refs !! ed_name e = Some (ed_new e)
  | AnyValue => True
  end.

(** What the engine promises of a transaction over the references of a
    repository. All references are locked and their expectations checked before
    the first one changes, so an expectation that is not met changes nothing; a
    failure of the file system may come between two changes. *)
Class EditsTransaction {R} `{GixRefs R} (refs_of : R -> gmap bytes Target) : Prop := {
  edits_refused : forall edits r e r', edit_references edits r = (Err e, r') -> e <> OtherEditError -> refs_of r' = refs_of r;
  edits_interrupted : forall edits r r' name, edit_references edits r = (Err OtherEditError, r') ->
    refs_of r' !! name = refs_of r !! name \/ exists e, e ∈ edits /\ ed_name e = name /\ refs_of r' !! name = Some (ed_new e);
  edits_applied : forall edits r done r', edit_references edits r = (Ok done, r') ->
    length done = length edits /\ refs_of r' = apply_edits edits (refs_of r) /\
    Forall (expectation_met (refs_of r)) edits
}.

Lemma oid_for_repo_Ok hash raw oid : oid_for_repo hash raw = Ok oid -> Oid_new hash raw = Ok oid.
Proof. unfold oid_for_repo. destruct (length raw =? digest_len hash)%nat; [|done]. cbn. by destruct (Oid_new hash raw). Qed.

Section WriteRefsSpec.
Context {R} `{GixRefs R}.

Lemma validated_same name name' : validated_ref_name name = Ok name' -> name' = name.
Proof. unfold validated_ref_name. repeat case_match; by intros [= <-]. Qed.
Lemma head_symref_same name name' :
  validated_head_symref name = Ok name' -> name' = name /\ starts_with name (bs "refs/heads/") = true.
Proof.
  unfold validated_head_symref. destruct (validated_ref_name name) as [n|] eqn:E; [|done]. cbn [rbind].
  apply validated_same in E as ->. by destruct (starts_with name (bs "refs/heads/")); intros [= <-].
Qed.

(** The collected targets: the supplied references, in the order of their
    names. *)
Record collected (hash : HashKind) (refs : list (bytes * bytes)) (before after : list (bytes * Oid)) : Prop := {
  co_sorted : bt_sorted after;
  co_names : NoDup refs.*1;
  co_fresh : forall name, name ∈ refs.*1 -> bt_get name before = None;
  co_valid : forall name, name ∈ refs.*1 -> validated_ref_name name = Ok name /\ name <> bs "HEAD";
  co_oids : forall name raw, (name, raw) ∈ refs -> exists oid, Oid_new hash raw = Ok oid /\ bt_get name after = Some oid;
  co_rest : forall name, name ∉ refs.*1 -> bt_get name after = bt_get name before;
  co_length : length after = (length before + length refs)%nat
}.

Lemma bt_insert_length {V} k (v : V) m : bt_get k m = None -> length (bt_insert k v m) = S (length m).
Proof.
  induction m as [|[k' v'] m IH]; [done|]. cbn. unfold bytes_eqb. case_bool_decide as E; [done|]. intros Hn.
  destruct (bytes_cmp k k') eqn:Ec; [by apply bytes_cmp_eq in Ec|done|]. cbn. by rewrite IH.
Qed.

Lemma bt_get_absent {V} k (m : list (bytes * V)) : k ∉ m.*1 -> bt_get k m = None.
Proof.
  induction m as [|[k' v'] m IH]; [done|]. cbn. intros [Hk Hm]%not_elem_of_cons. unfold bytes_eqb. rewrite bool_decide_false by done.
  by apply IH.
Qed.

Lemma collect_spec hash refs : forall before after,
  bt_sorted before -> collect_targets hash refs before = Ok after -> collected hash refs before after.
Proof.
  induction refs as [|[name raw] refs IH]; intros before after Hs; cbn [collect_targets].
  { intros [= <-]. split; cbn; try done; try lia; try (intros ? Hn; by apply not_elem_of_nil in Hn).
    - constructor.
    - intros n raw Hn. by apply not_elem_of_nil in Hn. }
  destruct (validated_ref_name name) as [n|] eqn:Ev; [|done]. pose proof (validated_same _ _ Ev) as ->. cbn [rbind].
  destruct (bytes_eqb name (bs "HEAD")) eqn:Eh; [done|]. destruct (oid_for_repo hash raw) as [oid|] eqn:Eo; [|done]. cbn [rbind].
  destruct (bt_get name before) eqn:Eg; [done|]. intros Hc.
  destruct (IH _ _ (bt_insert_sorted _ _ _ Hs) Hc) as [Hs' Hnd Hfresh Hvalid Hoids Hrest Hlen].
  assert (Hname : name ∉ refs.*1).
  { intros Hin. specialize (Hfresh _ Hin). rewrite bt_get_insert in Hfresh by done. unfold bytes_eqb in Hfresh. by rewrite bool_decide_true in Hfresh. }
  assert (Hother : forall x, x <> name -> bt_get x (bt_insert name oid before) = bt_get x before).
  { intros x Hx. rewrite bt_get_insert by done. unfold bytes_eqb. by rewrite bool_decide_false. }
  split; [done| | | | | |].
  - cbn. by constructor.
  - cbn. intros x [->|Hx]%elem_of_cons; [done|]. rewrite <- (Hother x); [by apply Hfresh|]. by intros ->.
  - cbn. intros x [->|Hx]%elem_of_cons; [|by apply Hvalid]. split; [done|]. intros E. rewrite E in Eh. by vm_compute in Eh.
  - intros x raw' [[= -> ->]|Hx]%elem_of_cons; [|by apply Hoids]. exists oid. split; [by apply oid_for_repo_Ok|].
    rewrite Hrest by done. rewrite bt_get_insert by done. unfold bytes_eqb. by rewrite bool_decide_true.
  - cbn. intros x [Hx Hn]%not_elem_of_cons. rewrite Hrest by done. by apply Hother.
  - rewrite Hlen, bt_insert_length by done. cbn. lia.
Qed.

Lemma target_edits_spec targets edits :
  target_edits targets = Ok edits -> edits = (fun t => update_edit t.1 (TObject t.2) MustNotExist) <$> targets.
Proof.
  revert edits. induction targets as [|[name oid] targets IH]; intros edits; cbn; [by intros [= <-]|].
  destruct (validated_ref_name name) as [n|] eqn:Ev; [|done]. pose proof (validated_same _ _ Ev) as ->. cbn.
  destruct (target_edits targets) as [es|]; [|done]. cbn. intros [= <-]. f_equal. by apply IH.
Qed.

Lemma apply_targets (targets : list (bytes * Oid)) (refs : gmap bytes Target) x :
  bt_sorted targets ->
  apply_edits ((fun t => update_edit t.1 (TObject t.2) MustNotExist) <$> targets) refs !! x =
  match bt_get x targets with Some oid => Some (TObject oid) | None => refs !! x end.
Proof.
  unfold bt_sorted. revert refs. induction targets as [|[name oid] targets IH]; intros refs Hs; cbn; [done|].
  inversion Hs as [|? ? Hs' Hall]; subst. unfold apply_edits in *. cbn. rewrite IH by done. unfold bytes_eqb. case_bool_decide as E.
  - subst x. rewrite (bt_get_absent name targets).
    + by rewrite lookup_insert_eq.
    + intros Hin. rewrite Forall_forall in Hall. specialize (Hall _ Hin). unfold bytes_lt in Hall. by rewrite bytes_cmp_refl in Hall.
  - destruct (bt_get x targets); [done|]. by rewrite lookup_insert_ne.
Qed.

(** What [HEAD] was asked to be. *)
Definition head_asked (hash : HashKind) (refs : list (bytes * bytes)) (head : option (option bytes * option bytes)) (target : Target)
  : Prop :=
  match head with
  | Some (Some raw, Some symref) =>
      target = TSymbolic symref /\ starts_with symref (bs "refs/heads/") = true /\
      exists oid raw', Oid_new hash raw = Ok oid /\ (symref, raw') ∈ refs /\ Oid_new hash raw' = Ok oid
  | Some (None, Some symref) => target = TSymbolic symref /\ starts_with symref (bs "refs/heads/") = true /\ symref ∉ refs.*1
  | Some (Some raw, None) => exists oid, Oid_new hash raw = Ok oid /\ target = TObject oid
  | _ => False
  end.

Lemma head_target_spec hash refs targets head target :
  collected hash refs [] targets -> head_target hash targets head = Ok target -> head_asked hash refs head target.
Proof.
  intros [_ _ _ _ Hoids Hrest _] Hh. unfold head_target, head_asked in *. destruct head as [[[raw|] [symref|]]|]; try done.
  - destruct (oid_for_repo hash raw) as [oid|] eqn:Eo; [|done]. cbn [rbind] in Hh.
    destruct (validated_head_symref symref) as [s|] eqn:Es; [|done]. cbn [rbind] in Hh. apply head_symref_same in Es as [-> Hs].
    destruct (bt_get symref targets) as [t|] eqn:Eg; [|done]. case_bool_decide as Et; [subst t|done]. injection Hh as <-.
    split_and!; [done|done|]. destruct (decide (symref ∈ refs.*1)) as [Hin|Hn]; [|rewrite (Hrest _ Hn) in Eg; done].
    apply list_elem_of_fmap in Hin as ([n raw'] & -> & Hin). destruct (Hoids _ _ Hin) as (oid' & Ho & Hg). cbn in *.
    exists oid, raw'. split_and!; [by apply oid_for_repo_Ok|done|]. congruence.
  - destruct (oid_for_repo hash raw) as [oid|] eqn:Eo; [|done]. injection Hh as <-. exists oid. split; [by apply oid_for_repo_Ok|done].
  - destruct (validated_head_symref symref) as [s|] eqn:Es; [|done]. cbn [rbind] in Hh. apply head_symref_same in Es as [-> Hs].
    destruct (bt_get symref targets) as [t|] eqn:Eg; [done|]. injection Hh as <-. split_and!; [done|done|].
    intros Hin. apply list_elem_of_fmap in Hin as ([n raw'] & -> & Hin). destruct (Hoids _ _ Hin) as (oid' & _ & Hg). cbn in *. congruence.
Qed.

Context (refs_of : R -> gmap bytes Target) `{!EditsTransaction refs_of}.

(** What a reference was asked to be. *)
Definition ref_asked (hash : HashKind) (refs : list (bytes * bytes)) (head : option (option bytes * option bytes)) (name : bytes) (target : Target)
  : Prop :=
  (exists raw oid, (name, raw) ∈ refs /\ Oid_new hash raw = Ok oid /\ target = TObject oid) \/
  (name = bs "HEAD" /\ head_asked hash refs head target).

(** The edits of a transaction that is started. *)
Definition transaction (targets : list (bytes * Oid)) (target : Target) : list RefEdit :=
  ((fun t => update_edit t.1 (TObject t.2) MustNotExist) <$> targets) ++ [update_edit (bs "HEAD") target AnyValue].

Lemma transaction_asked hash refs head targets target e :
  collected hash refs [] targets -> head_asked hash refs head target -> e ∈ transaction targets target ->
  ref_asked hash refs head (ed_name e) (ed_new e).
Proof.
  intros [Hs _ _ _ Hoids Hrest _] Hh. unfold transaction. rewrite elem_of_app, list_elem_of_singleton, list_elem_of_fmap.
  intros [([name oid] & -> & Hin)| ->]; [left|by right]. cbn. apply (bt_get_elem _ _ _ Hs) in Hin.
  destruct (decide (name ∈ refs.*1)) as [Hn|Hn]; [|by rewrite Hrest in Hin].
  apply list_elem_of_fmap in Hn as ([n raw] & -> & Hn). destruct (Hoids _ _ Hn) as (oid' & Ho & Hg). cbn in *.
  exists raw, oid. split_and!; [done| |done]. congruence.
Qed.
Lemma transaction_at (refs : gmap bytes Target) targets target x : bt_sorted targets ->
  apply_edits (transaction targets target) refs !! x =
  if decide (x = bs "HEAD") then Some target
  else match bt_get x targets with Some oid => Some (TObject oid) | None => refs !! x end.
Proof.
  intros Hs. unfold transaction, apply_edits. rewrite foldl_app. cbn. destruct (decide _) as [->|Hx]; [by rewrite lookup_insert_eq|].
  rewrite lookup_insert_ne by done. by apply apply_targets.
Qed.

(** Either the request is refused before the transaction, or the transaction
    decides. *)
Lemma write_refs_cases refs head r res r' : write_refs refs head r = (res, r') ->
  (exists e, res = Err e /\ r' = r) \/
  exists targets target conflict done,
    lenN refs <= MAX_BUNDLE_REF_ROWS /\ collected (repo_hash r) refs [] targets /\ head_asked (repo_hash r) refs head target /\
    edit_references (transaction targets target) r = (done, r') /\
    res = (let? committed := map_err (fun e => map_edit_error e conflict) done in
           if lenN committed <=? u64_max then Ok (lenN committed)
           else Err (Error_new UnsupportedOperation "reference transaction edit count exceeds u64")).
Proof.
  unfold write_refs. assert (Hstop : forall e, (Err e, r) = (res, r') -> exists e, res = Err e /\ r' = r) by (intros e [= <- <-]; by exists e).
  destruct (_ <? _) eqn:Ecap; [intros Hw; left; exact (Hstop _ Hw)|]. destruct (repo_opens r); [|intros Hw; left; exact (Hstop _ Hw)].
  destruct (repo_is_bare r); [|intros Hw; left; exact (Hstop _ Hw)]. cbn [negb].
  destruct (collect_targets (repo_hash r) refs []) as [targets|] eqn:Ec; [|intros Hw; left; exact (Hstop _ Hw)]. cbn [rbind].
  assert (Hc : collected (repo_hash r) refs [] targets) by (apply collect_spec; [constructor|done]).
  destruct (head_target (repo_hash r) targets head) as [target|] eqn:Eh; [|intros Hw; left; exact (Hstop _ Hw)]. cbn [rbind].
  pose proof (head_target_spec _ _ _ _ _ Hc Eh) as Hhead.
  destruct (target_edits targets) as [edits|] eqn:Ee; [|intros Hw; left; exact (Hstop _ Hw)]. cbn [rbind]. apply target_edits_spec in Ee as ->.
  intros Hw. right. exists targets, target, (has_directory_file_conflict targets), (edit_references (transaction targets target) r).1.
  split_and!; [by apply N.ltb_ge|done|done| |]; revert Hw; fold (transaction targets target);
    by destruct (edit_references (transaction targets target) r) as [[committed|e] r1]; intros [= <- <-].
Qed.

(** C15. Writing references either does what was asked or leaves the references
    alone. When it succeeds, the supplied names are valid, distinct and other
    than [HEAD]; afterwards each of them holds its object ID, [HEAD] is what was
    asked for, every other reference is as it was, and the count is that of the
    names and [HEAD]. No reference but [HEAD] that existed before has changed: a
    supplied name was new or already held its object ID. A symbolic [HEAD] names a branch,
    which was supplied with the same object ID or, for an unborn branch, not
    supplied. When it fails, no reference has changed, unless the transaction
    itself broke off on the file system: then every reference is as it was or
    what was asked. *)
Theorem write_refs_as_asked refs head r res r' :
  write_refs refs head r = (res, r') ->
  match res with
  | Err e =>
      refs_of r' = refs_of r \/
      ((exists conflict, e = map_edit_error OtherEditError conflict) /\
       forall name, refs_of r' !! name = refs_of r !! name \/
                    exists target, refs_of r' !! name = Some target /\ ref_asked (repo_hash r) refs head name target)
  | Ok n =>
      n = lenN refs + 1 /\ NoDup refs.*1 /\
      (forall name, name ∈ refs.*1 -> validated_ref_name name = Ok name /\ name <> bs "HEAD") /\
      (forall name raw, (name, raw) ∈ refs -> exists oid, Oid_new (repo_hash r) raw = Ok oid /\ refs_of r' !! name = Some (TObject oid)) /\
      (exists target, refs_of r' !! bs "HEAD" = Some target /\ head_asked (repo_hash r) refs head target) /\
      (forall name, name ∉ refs.*1 -> name <> bs "HEAD" -> refs_of r' !! name = refs_of r !! name) /\
      (forall name old, refs_of r !! name = Some old -> name <> bs "HEAD" -> refs_of r' !! name = Some old)
  end.
Proof.
  intros Hw. destruct (write_refs_cases _ _ _ _ _ Hw) as [(e & -> & ->)|(targets & target & conflict & out & Hcap & Hc & Hh & Er & ->)]; [by left|].
  destruct out as [done|e]; cbn [map_err rbind].
  2: { destruct (decide (e = OtherEditError)) as [->|He]; [right|left; by eapply edits_refused]. split; [by exists conflict|]. intros name.
       destruct (edits_interrupted _ _ _ name Er) as [Hk|(ed & Hin & <- & Hn)]; [by left|right]. exists (ed_new ed). split; [done|].
       by eapply transaction_asked. }
  destruct (edits_applied _ _ _ _ Er) as (Hlen & Hrefs & Hexp). pose proof Hc as [Hs Hnd _ Hvalid Hoids Hrest Htl].
  assert (Hn : lenN done = lenN refs + 1). { unfold lenN, transaction in *. rewrite Hlen, length_app, length_fmap, Htl. cbn. lia. }
  rewrite Hn, (proj2 (N.leb_le _ _)) by (etrans; [apply N.add_le_mono_r, Hcap|by vm_compute]).
  assert (Hset : forall name raw, (name, raw) ∈ refs -> exists oid, Oid_new (repo_hash r) raw = Ok oid /\
            (name, oid) ∈ targets /\ refs_of r' !! name = Some (TObject oid)).
  { intros name raw Hin. destruct (Hoids _ _ Hin) as (oid & Ho & Hg). exists oid. split_and!; [done|by apply bt_get_elem|].
    rewrite Hrefs, transaction_at, decide_False, Hg; [done| |done]. apply (Hvalid name). by apply (list_elem_of_fmap_2 fst _ _ Hin). }
  assert (Hkept : forall name, name ∉ refs.*1 -> name <> bs "HEAD" -> refs_of r' !! name = refs_of r !! name).
  { intros name Hin Hne. rewrite Hrefs, transaction_at, decide_False by done. by rewrite Hrest. }
  split_and!; [done|done| | | |done|].
  - intros name Hin. by apply Hvalid.
  - intros name raw Hin. destruct (Hset _ _ Hin) as (oid & Ho & _ & Hg). by exists oid.
  - exists target. split; [|done]. by rewrite Hrefs, transaction_at, decide_True.
  - intros name old Hold Hne. destruct (decide (name ∈ refs.*1)) as [Hin|Hin]; [|by rewrite Hkept].
    apply list_elem_of_fmap in Hin as ([n raw] & -> & Hin). cbn in Hold, Hne |- *. destruct (Hset _ _ Hin) as (oid & _ & Ht & ->).
    assert (Hm : expectation_met (refs_of r) (update_edit n (TObject oid) MustNotExist)).
    { rewrite Forall_forall in Hexp. apply Hexp, elem_of_app. left. apply list_elem_of_fmap. by exists (n, oid). }
    destruct Hm as [Hm|Hm]; cbn in Hm; congruence.
Qed.

End WriteRefsSpec.

(* ------------------------------------------------------------------ *)
(** ** Installing a bare repository *)

Definition STAGING_RANDOM_BYTES : nat := 16.
Definition STAGING_ATTEMPTS : nat := 16.

(** [std::path::Path] by its components, with its [file_name] and [parent]. *)
Inductive Component : Type :=
| RootDir
| CurDir
| ParentDir
| Normal (name : bytes).
Abbreviation Path := (list Component).
Definition path_file_name (path : Path) : option bytes :=
  match last path with
  | Some (Normal name) => Some name
  | _ => None
  end.
Definition path_parent (path : Path) : option Path :=
  match last path with
  | Some RootDir | None => None
  | Some _ => Some (removelast path)
  end.

(** The kinds of [std::io::Error] that the code tells apart. *)
Inductive IoKind : Type :=
| IoNotFound
| IoAlreadyExists
| IoDirectoryNotEmpty
| IoNotADirectory
| IoIsADirectory
| IoOther.
#[export] Instance IoKind_eq_decision : EqDecision IoKind.
Proof. solve_decision. Defined.

(** A directory with its identity and its files by relative name, or anything
    else. *)
Inductive FsNode : Type :=
| NDir (ino : N) (files : gmap bytes bytes)
| NOther.

(** The failures of system calls, by the number of the call: whether it fails,
    how, and how much a failing write or removal has done; the random bytes. *)
Class InitFaults : Type := {
  call_fails : nat -> bool;
  call_error : nat -> IoKind;
  call_done : nat -> nat;
  random_bytes : nat -> option bytes;
  random_filled : forall n raw, random_bytes n = Some raw -> length raw = STAGING_RANDOM_BYTES
}.

(** The engine: the files of a new bare repository in the order it writes them,
    [gix_config::File] with its reader, [set_raw_value] and [write_to], and
    whether it opens a directory. *)
Class GixInit : Type := {
  init_files : list (bytes * bytes);
  ConfigFile : Type;
  config_parse : bytes -> option ConfigFile;
  set_raw_value : bytes -> bytes -> ConfigFile -> option ConfigFile;
  config_write : ConfigFile -> bytes;
  opens_repo : nat -> gmap bytes bytes -> bool
}.

(** The parent directory, the next identity, and what the model records. *)
Record InitFs : Type := mkInitFs {
  fs_entries : gmap bytes FsNode;
  fs_next_ino : N;
  fs_io : nat;
  fs_trace : list (gmap bytes FsNode)
}.

Abbreviation FM := (ST InitFs Error).

(** [is_init_staging_name]. *)
Definition is_lower_hex (b : byte) : bool :=
  (48 <=? byteN b) && (byteN b <=? 57) || (97 <=? byteN b) && (byteN b <=? 102).
Definition is_init_staging_name (candidate basename : bytes) : bool :=
  match strip_prefix basename candidate with
  | None => false
  | Some suffix =>
      match strip_prefix (bs ".init-") suffix with
      | None => false
      | Some hex => (length hex =? STAGING_RANDOM_BYTES * 2)%nat && forallb is_lower_hex hex
      end
  end.

(** [invalid_destination], [destination_name], [destination_parent],
    [config_error], [map_install_error]. *)
Definition invalid_destination : Error :=
  Error_new InvalidArgument "bare repository path must not exist or must be an empty directory".
Definition destination_name (path : Path) : Res bytes := ok_or invalid_destination (path_file_name path).
Definition destination_parent (path : Path) : Res Path :=
  let? p := ok_or invalid_destination (path_parent path) in
  Ok (match p with [] => [CurDir] | _ => p end).
Definition init_backend (m : string) : Error := Error_new BackendError m.
Definition config_error : Error := init_backend "gc-safe bare repository configuration could not be written".
Definition reopen_error : Error := init_backend "initialized bare repository could not be reopened".
Definition map_install_error (k : IoKind) : Error :=
  match k with
  | IoAlreadyExists | IoDirectoryNotEmpty | IoNotADirectory | IoIsADirectory =>
      Error_new InvalidArgument "bare repository destination changed during initialization"
  | _ => init_backend "bare repository staging directory could not be installed"
  end.

Section Init.
Context `{InitFaults, GixInit}.

(** ** System calls *)

Definition next_call : FM nat :=
  fun f => (Ok (fs_io f), mkInitFs (fs_entries f) (fs_next_ino f) (S (fs_io f)) (fs_trace f)).
Definition entries_now : FM (gmap bytes FsNode) := fun f => (Ok (fs_entries f), f).
Definition set_entries (e : gmap bytes FsNode) : FM unit :=
  fun f => (Ok tt, mkInitFs e (fs_next_ino f) (fs_io f) (fs_trace f ++ [fs_entries f])).
(** A call without an effect of its own. *)
Definition plain_call : FM (result IoKind unit) :=
  let! n := next_call in
  sret (if call_fails n then Err (call_error n) else Ok tt).
Definition or_error {A} (e : Error) (m : FM (result IoKind A)) : FM A :=
  let! r := m in
  slift (map_err (fun _ => e) r).

Definition symlink_metadata (name : bytes) : FM (result IoKind FsNode) :=
  let! r := plain_call in
  let! entries := entries_now in
  sret (let? _ := r in ok_or IoNotFound (entries !! name)).

(** [std::fs::create_dir]. *)
Definition create_dir (name : bytes) : FM (result IoKind unit) :=
  let! r := plain_call in
  let! entries := entries_now in
  match r, entries !! name with
  | Err k, _ => sret (Err k)
  | Ok _, Some _ => sret (Err IoAlreadyExists)
  | Ok _, None =>
      fun f => (Ok (Ok tt), mkInitFs (<[name := NDir (fs_next_ino f) ∅]> entries) (fs_next_ino f + 1) (fs_io f)
                             (fs_trace f ++ [fs_entries f]))
  end.

(** [std::fs::remove_dir_all]: the files one by one, then the directory. *)
Definition set_dir_files (name : bytes) (files : gmap bytes bytes) : FM unit :=
  let! entries := entries_now in
  match entries !! name with
  | Some (NDir ino _) => set_entries (<[name := NDir ino files]> entries)
  | _ => sret tt
  end.
Fixpoint remove_files (name : bytes) (keys : list bytes) (files : gmap bytes bytes) : FM unit :=
  match keys with
  | [] => sret tt
  | key :: keys =>
      let! _ := set_dir_files name (delete key files) in
      remove_files name keys (delete key files)
  end.
Definition remove_dir_all (name : bytes) : FM (result IoKind unit) :=
  let! n := next_call in
  let! entries := entries_now in
  match entries !! name with
  | None => sret (Err IoNotFound)
  | Some NOther => sret (Err IoNotADirectory)
  | Some (NDir ino files) =>
      let keys := (map_to_list files).*1 in
      let! _ := remove_files name (if call_fails n then take (call_done n) keys else keys) files in
      if call_fails n then sret (Err (call_error n))
      else
        let! entries := entries_now in
        let! _ := set_entries (delete name entries) in
        sret (Ok tt)
  end.

(** A file written in a directory; a failing write may leave a part of it. *)
Definition write_file (dir name data : bytes) : FM (result IoKind unit) :=
  let! n := next_call in
  let! entries := entries_now in
  match entries !! dir with
  | Some (NDir _ files) =>
      let data := if call_fails n then take (call_done n) data else data in
      let! _ := set_dir_files dir (<[name := data]> files) in
      sret (if call_fails n then Err (call_error n) else Ok tt)
  | _ => sret (Err IoNotFound)
  end.
(** A new file, which must not be there. *)
Definition create_new (dir name : bytes) : FM (result IoKind unit) :=
  let! r := plain_call in
  let! entries := entries_now in
  match r, entries !! dir with
  | Err k, _ => sret (Err k)
  | Ok _, Some (NDir _ files) =>
      match files !! name with
      | Some _ => sret (Err IoAlreadyExists)
      | None => let! _ := set_dir_files dir (<[name := []]> files) in sret (Ok tt)
      end
  | Ok _, _ => sret (Err IoNotFound)
  end.
Definition read_file_in (dir name : bytes) : FM (result IoKind bytes) :=
  let! r := plain_call in
  let! entries := entries_now in
  sret (let? _ := r in
        match entries !! dir with
        | Some (NDir _ files) => ok_or IoNotFound (files !! name)
        | _ => Err IoNotFound
        end).
Definition rename_file (dir from to : bytes) : FM (result IoKind unit) :=
  let! r := plain_call in
  let! entries := entries_now in
  match r, entries !! dir with
  | Ok _, Some (NDir _ files) =>
      match files !! from with
      | Some data =>
          let! _ := set_dir_files dir (<[to := data]> (delete from files)) in
          sret (Ok tt)
      | None => sret (Err IoNotFound)
      end
  | Err k, _ => sret (Err k)
  | Ok _, _ => sret (Err IoNotFound)
  end.
(** [std::fs::rename] of a directory: it replaces an empty directory. *)
Definition rename_dir (from to : bytes) : FM (result IoKind unit) :=
  let! r := plain_call in
  let! entries := entries_now in
  match r, entries !! from with
  | Err k, _ => sret (Err k)
  | Ok _, None => sret (Err IoNotFound)
  | Ok _, Some node =>
      match entries !! to with
      | Some NOther => sret (Err IoNotADirectory)
      | Some (NDir _ files) =>
          if bool_decide (files = ∅) then
            let! _ := set_entries (<[to := node]> (delete from entries)) in sret (Ok tt)
          else sret (Err IoDirectoryNotEmpty)
      | None => let! _ := set_entries (<[to := node]> (delete from entries)) in sret (Ok tt)
      end
  end.

(** ** The operations *)

(** [validate_destination]: whether an empty directory is there. *)
Definition validate_destination (name : bytes) : FM bool :=
  let! r := symlink_metadata name in
  match r with
  | Ok (NDir _ files) =>
      let! _ := or_error invalid_destination plain_call in
      if bool_decide (files = ∅) then sret true else sthrow invalid_destination
  | Ok NOther => sthrow invalid_destination
  | Err IoNotFound => sret false
  | Err _ => sthrow invalid_destination
  end.

(** [sweep_init_staging] over the names of the directory. *)
Fixpoint sweep_entries (basename : bytes) (names : list bytes) : FM unit :=
  match names with
  | [] => sret tt
  | name :: names =>
      let! _ := or_error (init_backend "bare repository staging entry could not be read") plain_call in
      let! _ :=
        (if negb (is_init_staging_name name basename) then sret tt
         else
           let! node := or_error (init_backend "bare repository staging entry could not be inspected") (symlink_metadata name) in
           match node with
           | NDir _ _ => or_error (init_backend "bare repository staging directory could not be swept") (remove_dir_all name)
           | NOther => sret tt
           end) in
      sweep_entries basename names
  end.
Definition sweep_init_staging (basename : bytes) : FM unit :=
  let! _ := or_error (init_backend "bare repository staging parent could not be read") plain_call in
  let! entries := entries_now in
  sweep_entries basename (map_to_list entries).*1.

(** [random_hex] and [create_staging_directory]. *)
Definition random_hex : FM bytes :=
  let! n := next_call in
  match random_bytes n with
  | Some raw => sret (raw ≫= hex_byte)
  | None => sthrow (init_backend "bare repository staging randomness is unavailable")
  end.
Fixpoint create_staging (attempts : nat) (basename : bytes) : FM bytes :=
  match attempts with
  | O => sthrow (init_backend "bare repository staging name could not be allocated")
  | S attempts =>
      let! random := random_hex in
      let name := basename ++ bs ".init-" ++ random in
      let! r := create_dir name in
      match r with
      | Ok _ => sret name
      | Err IoAlreadyExists => create_staging attempts basename
      | Err _ => sthrow (init_backend "bare repository staging directory could not be created")
      end
  end.
Definition create_staging_directory (basename : bytes) : FM bytes := create_staging STAGING_ATTEMPTS basename.

(** [ThreadSafeRepository::init_opts]: the engine's files, in order. *)
Fixpoint write_init_files (dir : bytes) (files : list (bytes * bytes)) : FM unit :=
  match files with
  | [] => sret tt
  | (name, data) :: files =>
      let! _ := or_error (init_backend "bare repository staging directory could not be initialized") (write_file dir name data) in
      write_init_files dir files
  end.

(** [write_gc_safe_config]: the three keys, then the file by way of a temporary
    one. *)
Fixpoint set_raw_values (values : list (bytes * bytes)) (config : ConfigFile) : option ConfigFile :=
  match values with
  | [] => Some config
  | (key, value) :: values => config ← set_raw_value key value config; set_raw_values values config
  end.
Definition GC_SAFE_VALUES : list (bytes * bytes) :=
  [(bs "gc.auto", bs "0"); (bs "maintenance.auto", bs "false"); (bs "receive.autogc", bs "false")].
Definition set_gc_safe (config : bytes) : option bytes :=
  config ← config_parse config; config_write <$> set_raw_values GC_SAFE_VALUES config.
Definition write_gc_safe_config (dir : bytes) : FM unit :=
  let! config := or_error config_error (read_file_in dir (bs "config")) in
  let! config := slift (ok_or config_error (set_gc_safe config)) in
  let! _ := or_error config_error (create_new dir (bs "config.tmp")) in
  let! _ := or_error config_error (write_file dir (bs "config.tmp") config) in
  let! _ := or_error config_error plain_call in
  or_error config_error (rename_file dir (bs "config.tmp") (bs "config")).

(** [directory_identity]. *)
Definition directory_identity (name : bytes) : FM (result IoKind N) :=
  let! r := symlink_metadata name in
  sret (let? node := r in Ok (match node with NDir ino _ => ino | NOther => 0 end)).

(** [cleanup_failed_install]. *)
Definition cleanup_failed_install (name : bytes) (identity : N) (preexisted : bool) : FM unit :=
  let! now := directory_identity name in
  if negb (bool_decide (res_ok now = Some identity)) then sret tt
  else
    let! removed := remove_dir_all name in
    match removed with
    | Ok _ => if preexisted then let! _ := create_dir name in sret tt else sret tt
    | Err _ => sret tt
    end.

(** The staged part of [init_bare_repo]; it says whether the guard was
    committed. *)
Definition install (basename staging : bytes) (preexisted : bool) : FM unit :=
  let! _ := write_init_files staging init_files in
  let! _ := write_gc_safe_config staging in
  let! identity := or_error (init_backend "bare repository staging directory could not be inspected") (directory_identity staging) in
  let! r := rename_dir staging basename in
  let! _ := slift (map_err map_install_error r) in
  let! n := next_call in
  let! entries := entries_now in
  let opened := match entries !! basename with Some (NDir _ files) => opens_repo n files | _ => false end in
  if opened then sret tt
  else
    let! _ := cleanup_failed_install basename identity preexisted in
    sthrow reopen_error.

(** The guard of the staging directory, dropped on every exit that did not
    commit it. *)
Definition with_guard (staging : bytes) (m : FM unit) : FM unit :=
  fun f =>
    match m f with
    | (Ok _, f) => (Ok tt, f)
    | (Err e, f) => let '(_, f) := remove_dir_all staging f in (Err e, f)
    end.

(** [init_bare_repo] and [init_bare]. *)
Definition init_bare_repo (path : Path) : FM unit :=
  let! basename := slift (destination_name path) in
  let! preexisted := validate_destination basename in
  let! _ := slift (destination_parent path) in
  let! _ := or_error (init_backend "bare repository parent directory could not be created") plain_call in
  let! _ := sweep_init_staging basename in
  let! staging := create_staging_directory basename in
  with_guard staging (install basename staging preexisted).
Definition init_bare (path : Path) (hash : HashKind) : FM unit :=
  if negb (bool_decide (hash = Sha1)) then
    sthrow (Error_new UnsupportedHash "bare repository initialization supports SHA-1 only")
  else init_bare_repo path.

End Init.

(* ------------------------------------------------------------------ *)
(** ** No partial repository is ever seen *)

Lemma from_digit_lower d : d < 16 -> is_lower_hex (from_digit d) = true.
Proof.
  intros Hd. assert (Hall : forallb (fun d => is_lower_hex (from_digit (N.of_nat d))) (seq 0 16) = true) by (vm_compute; reflexivity).
  rewrite forallb_forall in Hall. specialize (Hall (N.to_nat d)). rewrite N2Nat.id in Hall. apply Hall, in_seq. lia.
Qed.
Lemma hex_byte_lower b : forallb is_lower_hex (hex_byte b) = true /\ length (hex_byte b) = 2%nat.
Proof.
  assert (Hall : forall b, forallb is_lower_hex (hex_byte b) = true) by (intros []; vm_compute; reflexivity). by split.
Qed.
Lemma hex_lower raw : forallb is_lower_hex (raw ≫= hex_byte) = true /\ length (raw ≫= hex_byte) = (length raw * 2)%nat.
Proof.
  induction raw as [|b raw [IH1 IH2]]; [done|]. destruct (hex_byte_lower b) as [H1 H2].
  change ((b :: raw) ≫= hex_byte) with (hex_byte b ++ (raw ≫= hex_byte)).
  rewrite forallb_app, length_app, H1, IH1, H2, IH2. split; [done|]. cbn [length]. lia.
Qed.
Lemma staging_name basename raw :
  length raw = STAGING_RANDOM_BYTES -> is_init_staging_name (basename ++ bs ".init-" ++ (raw ≫= hex_byte)) basename = true.
Proof.
  intros Hl. unfold is_init_staging_name. rewrite (proj2 (strip_prefix_Some basename _ _) eq_refl), (proj2 (strip_prefix_Some (bs ".init-") _ _) eq_refl). destruct (hex_lower raw) as [H1 H2]. by rewrite H1, H2, Hl.
Qed.
Lemma not_own_staging basename : is_init_staging_name basename basename = false.
Proof.
  unfold is_init_staging_name. by rewrite (proj2 (strip_prefix_Some basename basename []) (eq_sym (app_nil_r basename))).
Qed.

Section InitSpec.
Context `{InitFaults, GixInit}.
Context (basename : bytes) (e0 : gmap bytes FsNode).

(** Triples over the states of the directory. *)
Definition triple {A} (P : InitFs -> Prop) (m : FM A) (Q : A -> InitFs -> Prop) (E : Error -> InitFs -> Prop) : Prop :=
  forall f, P f -> match m f with (Ok a, f') => Q a f' | (Err e, f') => E e f' end.

Lemma triple_bind {A B} P (m : FM A) (k : A -> FM B) Q R E :
  triple P m Q E -> (forall a, triple (Q a) (k a) R E) -> triple P (sbind m k) R E.
Proof. intros Hm Hk f Hf. specialize (Hm f Hf). unfold sbind. destruct (m f) as [[a|e] f']; [by apply Hk|done]. Qed.
Lemma triple_conseq {A} P P' (m : FM A) (Q Q' : A -> InitFs -> Prop) (E E' : Error -> InitFs -> Prop) :
  triple P m Q E -> (forall f, P' f -> P f) -> (forall a f, Q a f -> Q' a f) -> (forall e f, E e f -> E' e f) -> triple P' m Q' E'.
Proof. intros Hm HP HQ HE f Hf. specialize (Hm f (HP f Hf)). destruct (m f) as [[a|e] f']; auto. Qed.
Lemma triple_pure {A} (R : Prop) P (m : FM A) Q E : (R -> triple P m Q E) -> triple (fun f => P f /\ R) m Q E.
Proof. intros Hm f [Hf HR]. by apply Hm. Qed.
Lemma triple_exists {A X} (P : X -> InitFs -> Prop) (m : FM A) Q E : (forall x, triple (P x) m Q E) -> triple (fun f => exists x, P x f) m Q E.
Proof. intros Hm f [x Hf]. by apply (Hm x). Qed.
Lemma triple_assoc {A B C} P (m : FM A) (k : A -> FM B) (l : B -> FM C) Q E :
  triple P (sbind (sbind m k) l) Q E -> triple P (sbind m (fun a => sbind (k a) l)) Q E.
Proof. intros Hm f Hf. specialize (Hm f Hf). unfold sbind in *. by destruct (m f) as [[a|e] f']. Qed.
Lemma triple_ret {A} (a : A) (P : InitFs -> Prop) Q E : (forall f, P f -> Q a f) -> triple P (sret a) Q E.
Proof. intros HQ f Hf. by apply HQ. Qed.
Lemma triple_throw {A} (e : Error) (P : InitFs -> Prop) (Q : A -> InitFs -> Prop) E : (forall f, P f -> E e f) -> triple P (sthrow e) Q E.
Proof. intros HE f Hf. by apply HE. Qed.
Lemma triple_lift {A} (r : Res A) (P : InitFs -> Prop) (Q : A -> InitFs -> Prop) (E : Error -> InitFs -> Prop) :
  (forall a f, r = Ok a -> P f -> Q a f) -> (forall e f, r = Err e -> P f -> E e f) -> triple P (slift r) Q E.
Proof. intros HQ HE f Hf. cbn. destruct r; auto. Qed.

(** The destination and the other names are as before; or the destination is the
    complete repository. *)
Definition others_kept (e : gmap bytes FsNode) : Prop :=
  forall x, x <> basename -> is_init_staging_name x basename = false -> e !! x = e0 !! x.
Definition untouched (e : gmap bytes FsNode) : Prop := e !! basename = e0 !! basename /\ others_kept e.

(** All states so far, the last one included. *)
Definition states (f : InitFs) : list (gmap bytes FsNode) := fs_trace f ++ [fs_entries f].
Definition before (f : InitFs) : Prop := Forall untouched (states f).
(** No staging directory is there; none but [name]. *)
Definition swept (e : gmap bytes FsNode) : Prop :=
  forall x ino files, is_init_staging_name x basename = true -> e !! x <> Some (NDir ino files).
Definition swept_but (name : bytes) (e : gmap bytes FsNode) : Prop :=
  forall x ino files, is_init_staging_name x basename = true -> e !! x = Some (NDir ino files) -> x = name.
(** The staging directory with its files. *)
Definition staged (staging : bytes) (files : gmap bytes bytes) (f : InitFs) : Prop :=
  before f /\ is_init_staging_name staging basename = true /\ (exists ino, fs_entries f !! staging = Some (NDir ino files)) /\
  swept_but staging (fs_entries f).

Lemma staging_other staging : is_init_staging_name staging basename = true -> staging <> basename.
Proof. intros Hs ->. by rewrite not_own_staging in Hs. Qed.
(** A condition on the directory that changes at [name] keep. *)
Record closed_at (Φ : gmap bytes FsNode -> Prop) (name : bytes) : Prop := {
  ca_insert : forall node e, Φ e -> Φ (<[name := node]> e);
  ca_delete : forall e, Φ e -> Φ (delete name e)
}.
Lemma untouched_closed staging : is_init_staging_name staging basename = true -> closed_at untouched staging.
Proof.
  intros Hs. pose proof (staging_other _ Hs) as Hne. split; [intros node e [Hb Ho]|intros e [Hb Ho]]; (split; [by simplify_map_eq|]);
    intros x Hx Hn; rewrite ?lookup_insert_ne, ?lookup_delete_ne by (intros E; subst; congruence); by apply Ho.
Qed.
Lemma kept_closed name : name = basename \/ is_init_staging_name name basename = true -> closed_at others_kept name.
Proof.
  intros Hs. split; [intros node e Ho|intros e Ho]; intros x Hx Hn;
    rewrite ?lookup_insert_ne, ?lookup_delete_ne by (intros E; subst; destruct Hs; congruence); by apply Ho.
Qed.
Lemma states_step (Φ : gmap bytes FsNode -> Prop) f e ino io :
  Forall Φ (states f) -> Φ e -> Forall Φ (states (mkInitFs e ino io (fs_trace f ++ [fs_entries f]))).
Proof. intros Hb He. unfold states at 1. cbn. apply Forall_app. split; [exact Hb|by constructor]. Qed.
Lemma states_last (Φ : gmap bytes FsNode -> Prop) f : Forall Φ (states f) -> Φ (fs_entries f).
Proof. unfold states. rewrite Forall_app, Forall_singleton. by intros [_ Hu]. Qed.

(** System calls that change nothing, under any condition on the directory. *)
Definition quiet_cond (P : InitFs -> Prop) : Prop :=
  forall f io, P f -> P (mkInitFs (fs_entries f) (fs_next_ino f) io (fs_trace f)).
Lemma quiet_before : quiet_cond before.
Proof. by intros f io. Qed.
Lemma quiet_staged staging files : quiet_cond (staged staging files).
Proof. by intros f io. Qed.
Lemma next_call_quiet P E : quiet_cond P -> triple P next_call (fun _ => P) E.
Proof. intros HP f Hf. by apply HP. Qed.
Lemma plain_quiet P E : quiet_cond P -> triple P plain_call (fun _ => P) E.
Proof. intros HP f Hf. by apply HP. Qed.
Lemma or_error_quiet {A} P Q (m : FM (result IoKind A)) e (E : Error -> InitFs -> Prop) :
  triple P m (fun r f => match r with Ok a => Q a f | Err _ => E e f end) E -> triple P (or_error e m) Q E.
Proof. intros Hm f Hf. specialize (Hm f Hf). unfold or_error, sbind, slift. by destruct (m f) as [[[a|k]|e'] f']. Qed.
Lemma metadata_quiet P name E : quiet_cond P ->
  triple P (symlink_metadata name) (fun r f => P f /\ forall node, r = Ok node -> fs_entries f !! name = Some node) E.
Proof.
  intros HP f Hf. unfold symlink_metadata, plain_call, next_call, sbind, sret, entries_now. cbn.
  split; [by apply HP|]. destruct (call_fails _); [done|]. cbn. destruct (fs_entries f !! name); cbn; [by intros node [= <-]|done].
Qed.

(** ** Changes at one name *)

(** A condition that steps at [name] keep. *)
Record step_closed (P : InitFs -> Prop) (name : bytes) : Prop := {
  sc_quiet : quiet_cond P;
  sc_insert : forall f node ino, P f -> P (mkInitFs (<[name := node]> (fs_entries f)) ino (fs_io f) (fs_trace f ++ [fs_entries f]));
  sc_delete : forall f, P f -> P (mkInitFs (delete name (fs_entries f)) (fs_next_ino f) (fs_io f) (fs_trace f ++ [fs_entries f]))
}.
Lemma all_states_closed Φ name : closed_at Φ name -> step_closed (fun f => Forall Φ (states f)) name.
Proof.
  intros [Hi Hd]. split; [by intros f io|intros f node ino Hf|intros f Hf]; (apply states_step; [exact Hf|]); [apply Hi|apply Hd]; by apply states_last.
Qed.
Lemma last_state_closed Φ name : closed_at Φ name -> step_closed (fun f => Φ (fs_entries f)) name.
Proof. intros [Hi Hd]. split; [by intros f io|intros f node ino Hf|intros f Hf]; cbn; auto. Qed.
Lemma step_closed_and P Q name : step_closed P name -> step_closed Q name -> step_closed (fun f => P f /\ Q f) name.
Proof. intros [Hq Hi Hd] [Hq' Hi' Hd']. split; [intros f io []|intros f node ino []|intros f []]; auto. Qed.
Lemma step_closed_const (R : Prop) name : step_closed (fun _ => R) name.
Proof. split; [by intros f io|by intros f node ino|by intros f]. Qed.
Lemma step_closed_or P Q name : step_closed P name -> step_closed Q name -> step_closed (fun f => P f \/ Q f) name.
Proof. intros [Hq Hi Hd] [Hq' Hi' Hd']. split; [intros f io []|intros f node ino []|intros f []]; auto. Qed.

Section AtName.
Context (P : InitFs -> Prop) (name : bytes).
Hypothesis closed : step_closed P name.

Lemma set_dir_files_good files E : triple P (set_dir_files name files) (fun _ => P) E.
Proof.
  intros f Hf. unfold set_dir_files, entries_now, sbind. destruct (fs_entries f !! name) as [[ino old|]|]; [|done..].
  cbn. by apply (sc_insert _ _ closed).
Qed.
Lemma remove_files_good E keys : forall files, triple P (remove_files name keys files) (fun _ => P) E.
Proof.
  induction keys as [|key keys IH]; intros files; cbn [remove_files]; [by apply triple_ret|].
  eapply triple_bind; [apply set_dir_files_good|]. intros ?. apply IH.
Qed.
Lemma remove_dir_all_good E : triple P (remove_dir_all name) (fun _ => P) E.
Proof.
  unfold remove_dir_all. eapply triple_bind; [apply next_call_quiet, closed|]. intros n.
  eapply (triple_bind _ _ _ (fun _ => P)); [by intros f Hf|]. intros entries.
  destruct (entries !! name) as [[ino files|]|]; [|by apply triple_ret..].
  eapply triple_bind; [apply remove_files_good|]. intros ?. destruct (call_fails n); [by apply triple_ret|].
  intros f Hf. unfold entries_now, set_entries, sbind, sret. cbn. by apply (sc_delete _ _ closed).
Qed.
Lemma create_dir_good E : triple P (create_dir name) (fun _ => P) E.
Proof.
  unfold create_dir. eapply triple_bind; [apply plain_quiet, closed|]. intros r.
  intros f Hf. unfold entries_now, sbind. destruct r as [[]|k]; [|done]. destruct (fs_entries f !! name); [done|]. cbn.
  by apply (sc_insert _ _ closed).
Qed.

End AtName.

(** ** The staging directory *)

Lemma swept_kept name : closed_at (swept_but name) name.
Proof.
  split; intros; intros x ino files Hx He; (destruct (decide (x = name)) as [->|Hne]; [done|]).
  - rewrite lookup_insert_ne in He by done. by eapply H1.
  - rewrite lookup_delete_ne in He by done. by eapply H1.
Qed.
Lemma swept_weaken name e : swept e -> swept_but name e.
Proof. intros Hs x ino files Hx He. by destruct (Hs x ino files Hx). Qed.

Lemma create_dir_new name f f' : create_dir name f = (Ok (Ok tt), f') -> exists ino, fs_entries f' !! name = Some (NDir ino ∅).
Proof.
  unfold create_dir, plain_call, next_call, entries_now, sbind, sret. cbn. destruct (call_fails _); [done|].
  destruct (fs_entries f !! name); [done|]. intros [= <-]. cbn. rewrite lookup_insert_eq. by eexists.
Qed.
Lemma create_dir_same name f k f' : create_dir name f = (Ok (Err k), f') -> fs_entries f' = fs_entries f.
Proof.
  unfold create_dir, plain_call, next_call, entries_now, sbind, sret. cbn. destruct (call_fails _); [by intros [= _ <-]|].
  destruct (fs_entries f !! name); [by intros [= _ <-]|done].
Qed.

Lemma create_staging_spec attempts :
  triple (fun f => before f /\ swept (fs_entries f)) (create_staging attempts basename) (fun staging => staged staging ∅) (fun _ => before).
Proof.
  induction attempts as [|attempts IH]; cbn [create_staging]; [by apply triple_throw; intros f []|].
  eapply (triple_bind _ _ _ (fun random f => (before f /\ swept (fs_entries f)) /\ exists raw, random = (raw ≫= hex_byte) /\ length raw = STAGING_RANDOM_BYTES)).
  { unfold random_hex. eapply triple_bind; [apply next_call_quiet; by intros f io|]. intros n.
    destruct (random_bytes n) as [raw|] eqn:Er; [|by apply triple_throw; intros f []]. apply triple_ret. intros f Hf. split; [done|].
    exists raw. split; [done|]. by eapply random_filled. }
  intros random. apply triple_pure. intros (raw & -> & Hlen) f [Hf Hswept]. set (name := basename ++ bs ".init-" ++ (raw ≫= hex_byte)).
  assert (Hname : is_init_staging_name name basename = true) by (by apply staging_name).
  pose proof (create_dir_good _ name (step_closed_and _ _ _ (all_states_closed _ _ (untouched_closed _ Hname)) (last_state_closed _ _ (swept_kept name)))
    (fun _ => before) f (conj Hf (swept_weaken _ _ Hswept))) as Hgood.
  unfold sbind. destruct (create_dir name f) as [[[[]|k]|e] f'] eqn:Ec; [| |done].
  - destruct Hgood as [Hb Hs]. split_and!; [done|done| |done]. by eapply create_dir_new.
  - destruct k; try by destruct Hgood. apply IH. split; [by destruct Hgood|]. by rewrite (create_dir_same _ _ _ _ Ec).
Qed.

Section Staged.
Context (staging : bytes).
Hypothesis named : is_init_staging_name staging basename = true.

Lemma staged_before files f : staged staging files f -> before f.
Proof. by intros [Hb _]. Qed.
Lemma set_dir_files_staged files files' E : triple (staged staging files) (set_dir_files staging files') (fun _ => staged staging files') E.
Proof.
  intros f (Hb & Hn & (ino & Hs) & Hsw).
  pose proof (set_dir_files_good _ staging (step_closed_and _ _ _ (all_states_closed _ _ (untouched_closed _ named)) (last_state_closed _ _ (swept_kept staging)))
    files' E f (conj Hb Hsw)) as Hgood.
  unfold set_dir_files, entries_now, sbind in *. rewrite Hs in *. cbn in *. destruct Hgood as [Hb' Hs']. split_and!; [done|done| |done]. exists ino. cbn. by rewrite lookup_insert_eq.
Qed.
Lemma entries_staged (files : gmap bytes bytes) {A} (k : gmap bytes FsNode -> FM A) Q E :
  (forall (entries : gmap bytes FsNode) ino, entries !! staging = Some (NDir ino files) -> triple (staged staging files) (k entries) Q E) ->
  triple (staged staging files) (sbind entries_now k) Q E.
Proof. intros Hk f Hf. unfold sbind, entries_now. destruct Hf as (Hb & Hn & (ino & Hs) & Hsw). apply (Hk _ ino Hs). split_and!; [done|done|by exists ino|done]. Qed.

Lemma write_file_spec files name data e :
  triple (staged staging files) (or_error e (write_file staging name data)) (fun _ => staged staging (<[name := data]> files)) (fun _ => before).
Proof.
  apply or_error_quiet. unfold write_file. eapply triple_bind; [apply next_call_quiet, quiet_staged|]. intros n.
  apply entries_staged. intros entries ino ->. eapply triple_bind; [apply set_dir_files_staged|]. intros ?.
  apply triple_ret. intros f Hf. destruct (call_fails n); [by eapply staged_before|done].
Qed.

(** The files of the engine, written one after the other. *)
Definition written (l : list (bytes * bytes)) (files : gmap bytes bytes) : gmap bytes bytes :=
  foldl (fun files p => <[p.1 := p.2]> files) files l.
Lemma write_init_files_spec l : forall files,
  triple (staged staging files) (write_init_files staging l) (fun _ => staged staging (written l files)) (fun _ => before).
Proof.
  induction l as [|[name data] l IH]; intros files; cbn [write_init_files]; [by apply triple_ret|].
  eapply triple_bind; [apply write_file_spec|]. intros ?. apply IH.
Qed.

Lemma read_in_spec files name e :
  triple (staged staging files) (or_error e (read_file_in staging name))
    (fun data f => staged staging files f /\ files !! name = Some data) (fun _ => before).
Proof.
  apply or_error_quiet. unfold read_file_in. eapply triple_bind; [apply plain_quiet, quiet_staged|]. intros r.
  apply entries_staged. intros entries ino ->. apply triple_ret. intros f Hf.
  destruct r as [[]|k]; cbn; [|by eapply staged_before]. destruct (files !! name) eqn:E; cbn; [done|by eapply staged_before].
Qed.
Lemma create_new_spec files name e :
  triple (staged staging files) (or_error e (create_new staging name))
    (fun _ f => staged staging (<[name := []]> files) f /\ files !! name = None) (fun _ => before).
Proof.
  apply or_error_quiet. unfold create_new. eapply triple_bind; [apply plain_quiet, quiet_staged|]. intros r.
  apply entries_staged. intros entries ino Hs. destruct r as [[]|k]; [|apply triple_ret; intros f Hf; by eapply staged_before].
  rewrite Hs. destruct (files !! name) eqn:E; [apply triple_ret; intros f Hf; by eapply staged_before|].
  eapply triple_bind; [apply set_dir_files_staged|]. intros ?. by apply triple_ret.
Qed.
Lemma rename_file_spec files from to data e : files !! from = Some data ->
  triple (staged staging files) (or_error e (rename_file staging from to))
    (fun _ => staged staging (<[to := data]> (delete from files))) (fun _ => before).
Proof.
  intros Hd. apply or_error_quiet. unfold rename_file. eapply triple_bind; [apply plain_quiet, quiet_staged|]. intros r.
  apply entries_staged. intros entries ino Hs. destruct r as [[]|k]; [|apply triple_ret; intros f Hf; by eapply staged_before].
  rewrite Hs, Hd. eapply triple_bind; [apply set_dir_files_staged|]. intros ?. by apply triple_ret.
Qed.

(** A complete repository: the engine's files with the rewritten
    configuration. *)
Definition complete_repo (files : gmap bytes bytes) : Prop :=
  exists config gc_safe, written init_files ∅ !! bs "config" = Some config /\ set_gc_safe config = Some gc_safe /\
    files = <[bs "config" := gc_safe]> (written init_files ∅).

Lemma write_config_spec :
  triple (staged staging (written init_files ∅)) (write_gc_safe_config staging)
    (fun _ f => exists files, staged staging files f /\ complete_repo files) (fun _ => before).
Proof.
  set (files := written init_files ∅). unfold write_gc_safe_config.
  eapply triple_bind; [apply read_in_spec|]. intros config.
  eapply (triple_bind _ _ _ (fun gc f => staged staging files f /\ files !! bs "config" = Some config /\ set_gc_safe config = Some gc)).
  { apply triple_lift.
    - intros gc f E [Hf Hc]. destruct (set_gc_safe config); [|done]. injection E as <-. done.
    - intros e f _ [Hf _]. by eapply staged_before. }
  intros gc. apply triple_pure. intros [Hc Hgc].
  eapply triple_bind; [apply create_new_spec|]. intros ?. apply triple_pure. intros Hnone.
  set (files1 := <[bs "config.tmp" := []]> files).
  eapply triple_bind; [apply write_file_spec|]. intros ?. set (files2 := <[bs "config.tmp" := gc]> files1).
  eapply (triple_bind _ _ _ (fun _ => staged staging files2)).
  { apply or_error_quiet. eapply triple_conseq; [apply (plain_quiet _ (fun _ => before)), quiet_staged|done| |done].
    intros [[]|k] f Hf; [exact Hf|by eapply staged_before]. }
  intros ?. eapply triple_conseq; [apply (rename_file_spec files2 _ _ gc); unfold files2; by rewrite lookup_insert_eq|done| |done].
  intros ? f Hf. eexists. split; [exact Hf|]. exists config, gc. split_and!; [done|done|]. unfold files2, files1.
  rewrite !insert_insert_eq, delete_insert_id by done. done.
Qed.

End Staged.

(** ** The sweep *)

Lemma remove_dir_all_gone name f f' : remove_dir_all name f = (Ok (Ok tt), f') -> fs_entries f' !! name = None.
Proof.
  unfold remove_dir_all, next_call, entries_now, sbind at 1 2. destruct (_ !! name) as [[ino files|]|]; [|done..].
  unfold sbind at 1. destruct (remove_files _ _ _ _) as [[[]|e] f1]; [|done]. destruct (call_fails _); [done|].
  intros [= <-]. cbn. by rewrite lookup_delete_eq.
Qed.
Lemma remove_dir_all_fails name ino files f k f' :
  fs_entries f !! name = Some (NDir ino files) -> remove_dir_all name f = (Ok (Err k), f') -> exists n, call_fails n = true.
Proof.
  intros Hd. unfold remove_dir_all, next_call, entries_now, sbind at 1 2. cbn [fs_entries]. rewrite Hd. unfold sbind at 1.
  destruct (remove_files _ _ _ _) as [[[]|e] f1]; [|done]. destruct (call_fails (fs_io f)) eqn:E; [by exists (fs_io f)|done].
Qed.

(** The staging directories that are left are among the names to come. *)
Definition left_in (names : list bytes) (e : gmap bytes FsNode) : Prop :=
  forall x ino files, is_init_staging_name x basename = true -> e !! x = Some (NDir ino files) -> x ∈ names.
Lemma left_closed name names : closed_at (left_in (name :: names)) name.
Proof.
  split; intros; intros x ino files Hx He; (destruct (decide (x = name)) as [->|Hne]; [by left|]).
  - rewrite lookup_insert_ne in He by done. by eapply H1.
  - rewrite lookup_delete_ne in He by done. by eapply H1.
Qed.

Lemma sweep_one name names :
  triple (fun f => before f /\ left_in (name :: names) (fs_entries f))
    (if negb (is_init_staging_name name basename) then sret tt
     else
       let! node := or_error (init_backend "bare repository staging entry could not be inspected") (symlink_metadata name) in
       match node with
       | NDir _ _ => or_error (init_backend "bare repository staging directory could not be swept") (remove_dir_all name)
       | NOther => sret tt
       end)
    (fun _ f => before f /\ left_in names (fs_entries f)) (fun _ => before).
Proof.
  destruct (is_init_staging_name name basename) eqn:Hname; cbn [negb].
  2: { apply triple_ret. intros f [Hb Hl]. split; [done|]. intros x ino files Hx He. specialize (Hl _ _ _ Hx He).
       apply elem_of_cons in Hl as [->|Hl]; [congruence|done]. }
  eapply triple_bind.
  { apply or_error_quiet. eapply triple_conseq; [apply (metadata_quiet _ name (fun _ => before))|exact (fun f Hf => Hf)| |done].
    - by intros f io.
    - intros [node|k] f [[Hb Hl] Hn]; [exact (conj (conj Hb Hl) (Hn node eq_refl))|exact Hb]. }
  intros [ino files|] f; cbn beta; intros [[Hb Hl] Hn].
  - pose proof (remove_dir_all_good _ name (step_closed_and _ _ _ (all_states_closed _ _ (untouched_closed _ Hname)) (last_state_closed _ _ (left_closed name names)))
      (fun _ => before) f (conj Hb Hl)) as Hgood.
    unfold or_error, sbind, slift. destruct (remove_dir_all name f) as [[[[]|k]|e] f'] eqn:Er; cbn; [|by destruct Hgood|done].
    destruct Hgood as [Hb' Hl']. split; [done|]. intros x i fs Hx He. specialize (Hl' _ _ _ Hx He).
    apply elem_of_cons in Hl' as [->|Hl']; [|done]. by rewrite (remove_dir_all_gone _ _ _ Er) in He.
  - cbn. split; [done|]. intros x i fs Hx He. specialize (Hl _ _ _ Hx He). apply elem_of_cons in Hl as [->|Hl]; [congruence|done].
Qed.
Lemma quiet_plain_call P e (E : Error -> InitFs -> Prop) : quiet_cond P -> (forall f, P f -> E e f) -> triple P (or_error e plain_call) (fun _ => P) E.
Proof.
  intros HP HE. apply or_error_quiet. eapply triple_conseq; [apply (plain_quiet P E HP)|done| |done].
  intros [[]|k] f Hf; [exact Hf|by apply HE].
Qed.
Lemma sweep_entries_spec names :
  triple (fun f => before f /\ left_in names (fs_entries f)) (sweep_entries basename names) (fun _ f => before f /\ swept (fs_entries f)) (fun _ => before).
Proof.
  induction names as [|name names IH]; cbn [sweep_entries].
  { apply triple_ret. intros f [Hb Hl]. split; [done|]. intros x ino files Hx He. specialize (Hl _ _ _ Hx He). by apply not_elem_of_nil in Hl. }
  eapply triple_bind; [apply quiet_plain_call; [by intros f io|by intros f []]|]. intros ?.
  eapply triple_bind; [apply sweep_one|]. intros ?. apply IH.
Qed.
Lemma sweep_spec : triple before (sweep_init_staging basename) (fun _ f => before f /\ swept (fs_entries f)) (fun _ => before).
Proof.
  unfold sweep_init_staging. eapply triple_bind; [apply quiet_plain_call; [apply quiet_before|done]|]. intros ? f Hb.
  apply (sweep_entries_spec _ f). split; [done|]. intros x ino files Hx He. apply list_elem_of_fmap. exists (x, NDir ino files).
  split; [done|]. by apply elem_of_map_to_list.
Qed.

(** ** The installation *)

Definition vacant : Prop := e0 !! basename = None \/ exists ino, e0 !! basename = Some (NDir ino ∅).
Definition some_call_failed : Prop := exists n, call_fails n = true.
(** The complete repository is at the destination. *)
Definition installed (e : gmap bytes FsNode) : Prop :=
  others_kept e /\ exists ino files, e !! basename = Some (NDir ino files) /\ complete_repo files.
(** The destination is again as vacant as it was. *)
Definition given_back (e : gmap bytes FsNode) : Prop :=
  match e0 !! basename with
  | None => e !! basename = None
  | Some _ => exists ino, e !! basename = Some (NDir ino ∅)
  end.
Definition knows_vacancy (preexisted : bool) : Prop := preexisted = bool_decide (is_Some (e0 !! basename)) \/ some_call_failed.

Lemma validate_destination_spec :
  triple before (validate_destination basename) (fun preexisted f => before f /\ knows_vacancy preexisted) (fun _ => before).
Proof.
  intros f Hb. pose proof (states_last _ _ Hb) as [Hd _].
  unfold validate_destination, symlink_metadata, or_error, plain_call, next_call, entries_now, sbind, sret, slift, sthrow. cbn.
  destruct (call_fails (fs_io f)) eqn:E1; cbn.
  { destruct (call_error (fs_io f)); try done. split; [done|]. right. by exists (fs_io f). }
  rewrite Hd. destruct (e0 !! basename) as [[ino files|]|] eqn:Ed; cbn; [|done|].
  - destruct (call_fails (S (fs_io f))); cbn; [done|]. case_bool_decide; [|done]. split; [done|]. left. by rewrite Ed.
  - split; [done|]. left. by rewrite Ed.
Qed.

(** After the rename: the node at the destination is the staged one. *)
Record renamed (ino : N) (f : InitFs) : Prop := {
  rn_vacant : vacant;
  rn_states : Forall (fun e => untouched e \/ installed e) (states f);
  rn_swept : swept (fs_entries f);
  rn_files : exists files, complete_repo files /\ fs_entries f !! basename = Some (NDir ino files)
}.

Section Renaming.
Context (staging : bytes).
Hypothesis named : is_init_staging_name staging basename = true.

Lemma directory_identity_spec files e :
  triple (staged staging files) (or_error e (directory_identity staging))
    (fun ino f => staged staging files f /\ fs_entries f !! staging = Some (NDir ino files)) (fun _ => before).
Proof.
  apply or_error_quiet. unfold directory_identity.
  eapply triple_bind; [apply metadata_quiet, quiet_staged|]. intros r. apply triple_ret. intros f [Hs Hn].
  destruct r as [node|k]; [|by eapply staged_before]. specialize (Hn node eq_refl). destruct Hs as (Hb & Hname & (ino & Hd) & Hsw).
  rewrite Hd in Hn. injection Hn as <-. cbn. split; [|done]. split_and!; [done|done|by exists ino|done].
Qed.

Lemma installed_rename f ino files :
  staged staging files f -> complete_repo files -> vacant -> fs_entries f !! staging = Some (NDir ino files) ->
  renamed ino (mkInitFs (<[basename := NDir ino files]> (delete staging (fs_entries f))) (fs_next_ino f) (S (fs_io f))
                (fs_trace f ++ [fs_entries f])).
Proof.
  intros (Hb & _ & _ & Hsw) Hc Hv Hd. pose proof (staging_other _ named) as Hne. pose proof (states_last _ _ Hb) as [_ Ho].
  split; [done| | |exists files; split; [done|]; cbn; by rewrite lookup_insert_eq].
  - apply states_step.
    + eapply Forall_impl; [exact Hb|]. by left.
    + right. split; [|exists ino, files; split; [by rewrite lookup_insert_eq|done]].
      apply (ca_insert _ _ (kept_closed basename (or_introl eq_refl))), (ca_delete _ _ (kept_closed staging (or_intror named))), Ho.
  - intros x i fs Hx. cbn. rewrite lookup_insert_ne by (intros E; subst; by rewrite not_own_staging in Hx).
    destruct (decide (x = staging)) as [->|Hxs]; [by rewrite lookup_delete_eq|]. rewrite lookup_delete_ne by done. intros He.
    by apply Hxs, (Hsw x i fs).
Qed.
Lemma rename_dir_spec files ino : complete_repo files ->
  triple (fun f => staged staging files f /\ fs_entries f !! staging = Some (NDir ino files))
    (let! r := rename_dir staging basename in slift (map_err map_install_error r)) (fun _ => renamed ino) (fun _ => before).
Proof.
  intros Hc f [Hs Hd]. pose proof (staged_before _ _ _ Hs) as Hb. pose proof (states_last _ _ Hb) as [Hdest _].
  unfold rename_dir, plain_call, next_call, entries_now, set_entries, sbind, sret, slift. cbn. destruct (call_fails (fs_io f)); [exact Hb|].
  rewrite Hd. destruct (fs_entries f !! basename) as [[i fs|]|] eqn:Eb; cbn; [case_bool_decide as Efs| |]; cbn.
  - apply installed_rename; [done|done| |done]. right. exists i. by rewrite <- Hdest, Efs.
  - exact Hb.
  - exact Hb.
  - apply installed_rename; [done|done| |done]. by left.
Qed.

End Renaming.

(** A failed installation: nothing was touched, or the repository could not be
    opened and was taken away again. *)
Definition backed_out (e : Error) (f : InitFs) : Prop :=
  before f \/
  (e = reopen_error /\ vacant /\ Forall others_kept (states f) /\ (given_back (fs_entries f) \/ some_call_failed)).

Lemma identity_quiet name f :
  let '(r, f') := directory_identity name f in
  fs_entries f' = fs_entries f /\ fs_trace f' = fs_trace f /\
  (r = Ok (let? node := ok_or IoNotFound (fs_entries f !! name) in Ok (match node with NDir ino _ => ino | NOther => 0 end)) \/ some_call_failed).
Proof.
  unfold directory_identity, symlink_metadata, plain_call, next_call, entries_now, sbind, sret. cbn.
  destruct (call_fails (fs_io f)) eqn:E; cbn; (split_and!; [done|done|]); [right; by exists (fs_io f)|by left].
Qed.
Lemma create_dir_fails name f k f' : fs_entries f !! name = None -> create_dir name f = (Ok (Err k), f') -> some_call_failed.
Proof.
  intros Hn. unfold create_dir, plain_call, next_call, entries_now, sbind, sret. cbn. destruct (call_fails (fs_io f)) eqn:E; [by exists (fs_io f)|].
  by rewrite Hn.
Qed.

(** The clean-up keeps the other names, and gives the destination back. *)
Lemma cleanup_kept identity preexisted E :
  triple (fun f => Forall others_kept (states f)) (cleanup_failed_install basename identity preexisted) (fun _ f => Forall others_kept (states f)) E.
Proof.
  assert (Hcl : step_closed (fun f => Forall others_kept (states f)) basename) by (apply all_states_closed, kept_closed; by left).
  unfold cleanup_failed_install. eapply triple_bind.
  { intros f Hf. pose proof (identity_quiet basename f) as Hi. unfold directory_identity in *. revert Hi.
    instantiate (1 := fun _ f => Forall others_kept (states f)). unfold symlink_metadata, plain_call, next_call, entries_now, sbind, sret. by cbn. }
  intros now. destruct (negb _); [by apply triple_ret|]. eapply triple_bind; [apply (remove_dir_all_good _ _ Hcl)|].
  intros [[]|k]; [|by apply triple_ret]. destruct preexisted; [|by apply triple_ret].
  eapply triple_bind; [apply (create_dir_good _ _ Hcl)|]. intros ?. by apply triple_ret.
Qed.
Lemma cleanup_gives_back ino files preexisted f :
  knows_vacancy preexisted -> fs_entries f !! basename = Some (NDir ino files) ->
  let '(_, f') := cleanup_failed_install basename ino preexisted f in given_back (fs_entries f') \/ some_call_failed.
Proof.
  intros [->|Hk] Hd; [|destruct (cleanup_failed_install _ _ _ _); by right].
  unfold cleanup_failed_install. unfold sbind at 1. pose proof (identity_quiet basename f) as Hi.
  destruct (directory_identity basename f) as [r f1] eqn:Ei. destruct Hi as (He & _ & [->|Hc]); [|destruct r as [now|]; [|by right]; destruct (_ : FM unit); by right].
  rewrite Hd. cbn [ok_or rbind res_ok]. rewrite bool_decide_true by done. cbn [negb]. unfold sbind at 1.
  destruct (remove_dir_all basename f1) as [[[[]|k]|e] f2] eqn:Er.
  - pose proof (remove_dir_all_gone _ _ _ Er) as Hg. case_bool_decide as Hs.
    + unfold sbind. destruct (create_dir basename f2) as [[[[]|k]|e] f3] eqn:Ec; cbn.
      * left. unfold given_back. destruct (create_dir_new _ _ _ Ec) as [i Hi]. destruct Hs as [node ->]. by exists i.
      * right. by eapply create_dir_fails.
      * pose proof (create_dir_good _ _ (step_closed_const True basename) (fun _ _ => False) f2 I) as Hf. by rewrite Ec in Hf.
    + cbn. left. unfold given_back. destruct (e0 !! basename); [|done]. by destruct Hs.
  - right. eapply remove_dir_all_fails; [|exact Er]. by rewrite He.
  - pose proof (remove_dir_all_good _ _ (step_closed_const True basename) (fun _ _ => False) f1 I) as Hf. by rewrite Er in Hf.
Qed.

(** The staged part, from the empty staging directory. *)
Definition succeeded (f : InitFs) : Prop := exists ino, renamed ino f.

Lemma reopen_spec ino preexisted : knows_vacancy preexisted ->
  triple (renamed ino)
    (let! n := next_call in
     let! entries := entries_now in
     let opened := match entries !! basename with Some (NDir _ files) => opens_repo n files | _ => false end in
     if opened then sret tt
     else
       let! _ := cleanup_failed_install basename ino preexisted in
       sthrow reopen_error)
    (fun _ => succeeded) backed_out.
Proof.
  intros Hk f Hr. unfold next_call, entries_now, sbind at 1 2. cbn [fs_entries]. destruct (rn_files _ _ Hr) as (files & Hc & Hd).
  rewrite Hd. cbn zeta. destruct (opens_repo _ files); [exists ino; by destruct Hr|].
  set (f1 := mkInitFs _ _ _ _). assert (Hkept : Forall others_kept (states f1)).
  { eapply Forall_impl; [exact (rn_states _ _ Hr)|]. by intros e [[_ He]|[He _]]. }
  pose proof (cleanup_kept ino preexisted (fun _ f => Forall others_kept (states f)) f1 Hkept) as Hkept'.
  pose proof (cleanup_gives_back ino files preexisted f1 Hk Hd) as Hback. unfold sbind.
  destruct (cleanup_failed_install _ _ _ f1) as [[[]|e] f2] eqn:Ecl; cbn.
  - right. split_and!; [done|apply Hr|done|done].
  - pose proof (cleanup_kept ino preexisted (fun _ _ => False) f1 Hkept) as Hf. by rewrite Ecl in Hf.
Qed.

Lemma early_failure {A} P (m : FM A) Q : triple P m Q (fun _ => before) -> triple P m Q backed_out.
Proof. intros Hm. eapply triple_conseq; [exact Hm|done|done|]. by left. Qed.
Lemma install_spec staging preexisted : is_init_staging_name staging basename = true -> knows_vacancy preexisted ->
  triple (staged staging ∅) (install basename staging preexisted) (fun _ => succeeded) backed_out.
Proof.
  intros Hn Hk. unfold install.
  eapply triple_bind; [apply early_failure, (write_init_files_spec _ Hn)|].
  intros ?. eapply triple_bind; [apply early_failure, (write_config_spec _ Hn)|].
  intros ?. apply triple_exists. intros files. apply triple_pure. intros Hc.
  eapply triple_bind; [apply early_failure, (directory_identity_spec staging files)|].
  intros ino. apply triple_assoc. eapply triple_bind; [|intros ?; by apply (reopen_spec ino)].
  by apply early_failure, (rename_dir_spec _ Hn files).
Qed.

Lemma backed_out_closed e staging : is_init_staging_name staging basename = true -> step_closed (backed_out e) staging.
Proof.
  intros Hn. apply step_closed_or; [by apply all_states_closed, untouched_closed|]. apply step_closed_and; [apply step_closed_const|].
  apply step_closed_and; [apply step_closed_const|]. apply step_closed_and; [apply all_states_closed, kept_closed; by right|].
  apply step_closed_or; [|apply step_closed_const]. apply last_state_closed. pose proof (staging_other _ Hn) as Hne.
  split; [intros node e'|intros e']; unfold given_back; by rewrite ?lookup_insert_ne, ?lookup_delete_ne.
Qed.
Lemma guard_spec P staging m : is_init_staging_name staging basename = true ->
  triple P m (fun _ => succeeded) backed_out -> triple P (with_guard staging m) (fun _ => succeeded) backed_out.
Proof.
  intros Hn Hm f Hf. specialize (Hm f Hf). unfold with_guard. destruct (m f) as [[[]|e] f1]; [done|].
  pose proof (remove_dir_all_good _ _ (backed_out_closed e staging Hn) (fun _ => backed_out e) f1 Hm) as Hg.
  by destruct (remove_dir_all staging f1) as [[]].
Qed.

Lemma init_bare_spec path hash : path_file_name path = Some basename ->
  triple before (init_bare path hash) (fun _ => succeeded) backed_out.
Proof.
  intros Hp. unfold init_bare.
  destruct (negb _); [apply triple_throw; by left|]. unfold init_bare_repo, destination_name. rewrite Hp.
  eapply (triple_bind _ _ _ (fun n f => before f /\ n = basename)); [by apply triple_lift; [intros n f [= <-]|]|]. intros n. apply triple_pure. intros ->.
  eapply triple_bind; [apply early_failure, validate_destination_spec|].
  intros preexisted. apply triple_pure. intros Hk.
  eapply (triple_bind _ _ _ (fun _ => before)); [apply triple_lift; [done|by left]|]. intros ?.
  eapply triple_bind; [apply quiet_plain_call; [apply quiet_before|by left]|]. intros ?.
  eapply triple_bind; [apply early_failure, sweep_spec|]. intros ?.
  eapply triple_bind; [apply early_failure, create_staging_spec|].
  intros staging f Hs. pose proof Hs as (_ & Hn & _). revert f Hs. apply guard_spec; [done|]. by apply install_spec.
Qed.

(** C14. Initialising a bare repository never shows a partial one. In every
    state of the parent directory on the way, whatever system calls fail and
    wherever a crash stops it, the names other than the destination and its
    staging directories are as they were. When it succeeds, the destination was
    absent or an empty directory, it was so until it became the complete
    repository, the engine's files with the three configuration keys set, and no
    staging directory is left. When it fails, the destination was never touched;
    only when the installed repository does not open is it taken away again, and
    the destination is then as vacant as before or another call has failed. *)
Theorem init_never_partial path hash ino io :
  path_file_name path = Some basename ->
  let '(res, f) := init_bare path hash (mkInitFs e0 ino io []) in
  Forall others_kept (states f) /\
  match res with
  | Ok _ =>
      vacant /\ Forall (fun e => untouched e \/ installed e) (states f) /\ installed (fs_entries f) /\ swept (fs_entries f)
  | Err e =>
      Forall untouched (states f) \/ (e = reopen_error /\ vacant /\ (given_back (fs_entries f) \/ some_call_failed))
  end.
Proof.
  intros Hp. pose proof (init_bare_spec path hash Hp (mkInitFs e0 ino io [])) as Hspec.
  destruct (init_bare path hash _) as [[[]|e] f].
  - destruct Hspec as [i [Hv Hs Hsw (files & Hc & Hd)]]; [by repeat constructor|]. split.
    + eapply Forall_impl; [exact Hs|]. by intros e [[_ He]|[He _]].
    + split_and!; [done|done| |done]. split; [|by exists i, files]. destruct (states_last _ _ Hs) as [[_ Ho]|[Ho _]]; exact Ho.
  - destruct Hspec as [Hb|(-> & Hv & Hk & Hg)]; [by repeat constructor| |].
    + split; [|by left]. eapply Forall_impl; [exact Hb|]. by intros e' [_ He].
    + split; [done|]. by right.
Qed.

End InitSpec.

(* ------------------------------------------------------------------ *)
(** ** A small engine *)

Module AdminDemo.

(** References in a map; a transaction checks all expectations first. *)
Definition met (r : gmap bytes Target) (e : RefEdit) : bool :=
  match ed_expected e with
  | MustNotExist => bool_decide (r !! ed_name e = None \/ r !! ed_name e = Some (ed_new e))
  | AnyValue => true
  end.
#[export] Instance map_refs : GixRefs (gmap bytes Target) := {
  validate_name name := starts_with name (bs "refs/");
  full_name _ := true;
  repo_opens _ := true;
  repo_is_bare _ := true;
  repo_hash _ := Sha1;
  edit_references edits r := if forallb (met r) edits then (Ok edits, apply_edits edits r) else (Err MustNotExistError, r)
}.
#[export] Instance map_transaction : EditsTransaction (fun r : gmap bytes Target => r).
Proof.
  split; cbn.
  - intros edits r e r'. destruct (forallb _ _); [done|]. by intros [= <- <-].
  - intros edits r r' name. by destruct (forallb _ _).
  - intros edits r done r'. destruct (forallb (met r) edits) eqn:Ef; [|done]. intros [= <- <-]. split_and!; [done|done|].
    apply Forall_forall. intros e Hin. rewrite forallb_forall in Ef. specialize (Ef e (proj1 (list_elem_of_In _ _) Hin)).
    unfold met in Ef. unfold expectation_met. destruct (ed_expected e); [by apply bool_decide_eq_true in Ef|done].
Defined.

Definition oid1 : bytes := repeat x01 20.
Definition main : bytes := bs "refs/heads/main".
Definition asked : list (bytes * bytes) := [(main, oid1)].
Definition asked_head : option (option bytes * option bytes) := Some (Some oid1, Some main).
Definition had : gmap bytes Target := {[bs "refs/tags/old" := TSymbolic main]}.

Lemma write_refs_as_asked_witness : exists r', write_refs asked asked_head had = (Ok 2, r') /\
  r' !! bs "HEAD" = Some (TSymbolic main) /\ r' !! bs "refs/tags/old" = had !! bs "refs/tags/old".
Proof.
  destruct (write_refs asked asked_head had) as [res r'] eqn:Ew. pose proof (write_refs_as_asked (fun r => r) _ _ _ _ _ Ew) as Hw.
  assert (Hres : res = Ok 2) by (injection Ew as <- _; vm_compute; reflexivity). subst res.
  destruct Hw as (_ & _ & _ & _ & (target & Ht & Hh) & Hold & _). exists r'. split_and!; [done| |].
  - rewrite Ht. by destruct Hh as [-> _].
  - apply Hold; [|done]. cbn. intros Hin. apply list_elem_of_singleton in Hin. by vm_compute in Hin.
Defined.

(** No call fails; a configuration is its text. *)
Lemma zeros_filled (n : nat) raw : Some (repeat x00 STAGING_RANDOM_BYTES) = Some raw -> length raw = STAGING_RANDOM_BYTES.
Proof. by intros [= <-]. Qed.
#[export] Instance no_faults : InitFaults := {
  call_fails _ := false;
  call_error _ := IoOther;
  call_done _ := 0%nat;
  random_bytes _ := Some (repeat x00 STAGING_RANDOM_BYTES);
  random_filled := zeros_filled
}.
#[export] Instance text_engine : GixInit := {
  init_files := [(bs "HEAD", bs "ref: refs/heads/main"); (bs "config", bs "[core]")];
  ConfigFile := bytes;
  config_parse := Some;
  set_raw_value key value config := Some (config ++ bs " " ++ key ++ bs "=" ++ value);
  config_write config := config;
  opens_repo _ files := bool_decide (is_Some (files !! bs "HEAD"))
}.
Definition repo_name : bytes := bs "r.git".
Definition stale : bytes := repo_name ++ bs ".init-" ++ repeat "a"%byte 32.
Definition parent_dir : gmap bytes FsNode := <[stale := NDir 1 {[bs "HEAD" := bs "part"]}]> {[bs "other" := NDir 2 ∅]}.

Lemma init_never_partial_witness :
  exists f, init_bare [RootDir; Normal repo_name] Sha1 (mkInitFs parent_dir 3 0 []) = (Ok tt, f) /\
    installed repo_name parent_dir (fs_entries f) /\ fs_entries f !! stale = None /\ fs_entries f !! bs "other" = Some (NDir 2 ∅).
Proof.
  pose proof (init_never_partial repo_name parent_dir [RootDir; Normal repo_name] Sha1 3 0 eq_refl) as Hi.
  set (run := init_bare [RootDir; Normal repo_name] Sha1 (mkInitFs parent_dir 3 0 [])) in *.
  assert (Hok : run.1 = Ok tt) by (vm_compute; reflexivity). assert (Hstale : fs_entries run.2 !! stale = None) by (vm_compute; reflexivity).
  clearbody run. destruct run as [res f]. cbn in Hok, Hstale. subst res. destruct Hi as (_ & _ & _ & Hinst & _).
  exists f. split_and!; [done|done|done|]. destruct Hinst as [Ho _]. rewrite Ho; [vm_compute; reflexivity|discriminate|vm_compute; reflexivity].
Defined.

End AdminDemo.
