(* ===== verification/Runtime.v ===== *)
(** * The job runtime ([runtime/mod.rs])

    The bounded worker pool as a concurrent machine. A thread is the list of
    its remaining atomic actions; a step of the machine runs the first action
    of one thread, so every interleaving of the workers and of any number of
    client threads is a run. An action is what the source does between two
    points where another thread can interfere: one critical section of the
    queue lock, one atomic load, store or compare-exchange, one half of the
    critical section of a job's output lock. The two counter updates of one
    terminal transition are one action, and the clock does not move inside an
    action. The history of a run is recorded in [rt_trace].

    The queue's condition variable counts the threads that wait in it and the
    notifications that no thread has taken yet. A worker that finds nothing to
    do enters it in the same critical section, and is stuck there until it takes
    a notification; [notify_one] and [notify_all] are actions of their own, after
    the critical section that gave the reason. A waiting worker has no other
    state, so it does not matter which one of them takes a notification. The
    standard library allows a worker to wake up without one: that is a step of
    the machine too. *)

From Stdlib Require Import NArith Lia Strings.String.
From stdpp Require Import prelude gmap gmultiset strings list sorting.
From S2P Require Import Prelude Errors Budget.

Open Scope N_scope.

(** [RuntimeConfig], without the join timeout. *)
Record RuntimeConfig : Type := mkRuntimeConfig {
  rc_workers : nat;
  rc_max_queue : nat;
  rc_max_jobs_per_owner : nat;
  rc_retry_after_ms : N
}.

(** [JobState]. *)
Inductive JobState : Type :=
| JQueued
| JRunning
| JCompleted
| JFailed
| JCancelled.

#[export] Instance JobState_eq_decision : EqDecision JobState.
Proof. solve_decision. Defined.

Definition is_queued (s : JobState) : bool := match s with JQueued => true | _ => false end.
Definition is_running (s : JobState) : bool := match s with JRunning => true | _ => false end.
Definition is_terminal (s : JobState) : bool :=
  match s with
  | JCompleted | JFailed | JCancelled => true
  | JQueued | JRunning => false
  end.

(** [BusyReason] and [SubmitError]. *)
Inductive BusyReason : Type :=
| QueueFull
| OwnerCeiling.
Inductive SubmitError : Type :=
| Busy (reason : BusyReason) (retry_after_ms : N)
| ShuttingDown.

(** [ShutdownPhase], up to the join. *)
Inductive ShutdownPhase : Type :=
| NotStarted
| InProgress.

Definition panic_error : Error :=
  Error_new BackendError "internal engine panic — this is a Gitility bug".
Definition unavailable_error : Error := Error_new BackendError "job task was unavailable".

Section Runtime.
Context {Out : Type}.
Abbreviation JobResult := (result Error Out).

(** [Job]: its owner, its atomic state, the deadline and the interrupt flag of
    its budget, whether its task is still there, its output slot, and whether
    the lock of the slot is held. *)
Record Job : Type := mkJob {
  job_owner : N;
  job_state : JobState;
  job_deadline : option N;
  job_cancelled : bool;
  job_task : bool;
  job_output : option JobResult;
  job_locked : bool
}.

Definition set_state (st : JobState) (j : Job) : Job :=
  mkJob (job_owner j) st (job_deadline j) (job_cancelled j) (job_task j) (job_output j) (job_locked j).
Definition set_cancelled (j : Job) : Job :=
  mkJob (job_owner j) (job_state j) (job_deadline j) true (job_task j) (job_output j) (job_locked j).
Definition clear_task (j : Job) : Job :=
  mkJob (job_owner j) (job_state j) (job_deadline j) (job_cancelled j) false (job_output j) (job_locked j).
Definition set_output (o : option JobResult) (j : Job) : Job :=
  mkJob (job_owner j) (job_state j) (job_deadline j) (job_cancelled j) (job_task j) o (job_locked j).
Definition set_locked (b : bool) (j : Job) : Job :=
  mkJob (job_owner j) (job_state j) (job_deadline j) (job_cancelled j) (job_task j) (job_output j) b.

(** [Counters]. *)
Record Counters : Type := mkCounters {
  ctr_submitted : N;
  ctr_completed : N;
  ctr_failed : N;
  ctr_cancelled : N;
  ctr_rejected : N;
  ctr_running : N
}.
Definition Counters_new : Counters := mkCounters 0 0 0 0 0 0.
Definition add_submitted (c : Counters) : Counters :=
  mkCounters (wadd64 (ctr_submitted c) 1) (ctr_completed c) (ctr_failed c) (ctr_cancelled c)
    (ctr_rejected c) (ctr_running c).
Definition add_rejected (c : Counters) : Counters :=
  mkCounters (ctr_submitted c) (ctr_completed c) (ctr_failed c) (ctr_cancelled c)
    (wadd64 (ctr_rejected c) 1) (ctr_running c).
Definition add_running (c : Counters) : Counters :=
  mkCounters (ctr_submitted c) (ctr_completed c) (ctr_failed c) (ctr_cancelled c)
    (ctr_rejected c) (wadd64 (ctr_running c) 1).

(** The counters of [record_terminal]. *)
Definition count_terminal (from terminal : JobState) (c : Counters) : Counters :=
  let running := if bool_decide (from = JRunning) then wsub64 (ctr_running c) 1 else ctr_running c in
  match terminal with
  | JCompleted => mkCounters (ctr_submitted c) (wadd64 (ctr_completed c) 1) (ctr_failed c)
                    (ctr_cancelled c) (ctr_rejected c) running
  | JFailed => mkCounters (ctr_submitted c) (ctr_completed c) (wadd64 (ctr_failed c) 1)
                 (ctr_cancelled c) (ctr_rejected c) running
  | JCancelled => mkCounters (ctr_submitted c) (ctr_completed c) (ctr_failed c)
                    (wadd64 (ctr_cancelled c) 1) (ctr_rejected c) running
  | JQueued | JRunning => mkCounters (ctr_submitted c) (ctr_completed c) (ctr_failed c)
                            (ctr_cancelled c) (ctr_rejected c) running
  end.

(** What happened, in the order it happened. *)
Inductive Event : Type :=
| ESubmitted (id : N)
| ERejected (e : SubmitError)
| EStarted (id : N)
| ERan (id : N)
| EPublished (id : N) (from terminal : JobState)
| ECallback (id : N)
| ETaken (id : N) (r : JobResult).

(** [std::sync::Condvar]: the waiting threads that were not notified, and the
    notifications that were not taken. *)
Record Condvar : Type := mkCondvar {
  cv_waiting : nat;
  cv_notified : nat
}.
Definition cv_wait (c : Condvar) : Condvar := mkCondvar (S (cv_waiting c)) (cv_notified c).
Definition cv_notify_one (c : Condvar) : Condvar :=
  match cv_waiting c with
  | O => c
  | S n => mkCondvar n (S (cv_notified c))
  end.
Definition cv_notify_all (c : Condvar) : Condvar := mkCondvar 0 (cv_waiting c + cv_notified c).
Definition cv_wake (c : Condvar) : option Condvar :=
  match cv_notified c with
  | O => None
  | S n => Some (mkCondvar (cv_waiting c) n)
  end.
Definition cv_spurious (c : Condvar) : option Condvar :=
  match cv_waiting c with
  | O => None
  | S n => Some (mkCondvar n (cv_notified c))
  end.

(** [Shared] and [QueueState]: the jobs by ID, the FIFO queue, the active map
    as its [(id, owner)] pairs in key order, the owner counts, the counters, the
    condition variable. *)
Record Shared : Type := mkShared {
  rt_jobs : gmap N Job;
  rt_queue : list N;
  rt_active : list (N * N);
  rt_owners : gmap N nat;
  rt_shutting_down : bool;
  rt_phase : ShutdownPhase;
  rt_request_complete : bool;
  rt_counters : Counters;
  rt_next_job_id : N;
  rt_now : N;
  rt_wake : Condvar;
  rt_trace : list Event
}.
Definition Shared_new : Shared :=
  mkShared ∅ [] [] ∅ false NotStarted false Counters_new 1 0 (mkCondvar 0 0) [].

Definition with_jobs (m : gmap N Job) (s : Shared) : Shared :=
  mkShared m (rt_queue s) (rt_active s) (rt_owners s) (rt_shutting_down s) (rt_phase s)
    (rt_request_complete s) (rt_counters s) (rt_next_job_id s) (rt_now s) (rt_wake s) (rt_trace s).
Definition with_job (id : N) (j : Job) (s : Shared) : Shared := with_jobs (<[id := j]> (rt_jobs s)) s.
Definition with_queue (q : list N) (s : Shared) : Shared :=
  mkShared (rt_jobs s) q (rt_active s) (rt_owners s) (rt_shutting_down s) (rt_phase s)
    (rt_request_complete s) (rt_counters s) (rt_next_job_id s) (rt_now s) (rt_wake s) (rt_trace s).
Definition with_active (a : list (N * N)) (o : gmap N nat) (s : Shared) : Shared :=
  mkShared (rt_jobs s) (rt_queue s) a o (rt_shutting_down s) (rt_phase s)
    (rt_request_complete s) (rt_counters s) (rt_next_job_id s) (rt_now s) (rt_wake s) (rt_trace s).
Definition with_counters (c : Counters) (s : Shared) : Shared :=
  mkShared (rt_jobs s) (rt_queue s) (rt_active s) (rt_owners s) (rt_shutting_down s) (rt_phase s)
    (rt_request_complete s) c (rt_next_job_id s) (rt_now s) (rt_wake s) (rt_trace s).
Definition with_shutdown (b : bool) (p : ShutdownPhase) (r : bool) (s : Shared) : Shared :=
  mkShared (rt_jobs s) (rt_queue s) (rt_active s) (rt_owners s) b p r (rt_counters s)
    (rt_next_job_id s) (rt_now s) (rt_wake s) (rt_trace s).
Definition with_next_id (n : N) (s : Shared) : Shared :=
  mkShared (rt_jobs s) (rt_queue s) (rt_active s) (rt_owners s) (rt_shutting_down s) (rt_phase s)
    (rt_request_complete s) (rt_counters s) n (rt_now s) (rt_wake s) (rt_trace s).
Definition with_now (n : N) (s : Shared) : Shared :=
  mkShared (rt_jobs s) (rt_queue s) (rt_active s) (rt_owners s) (rt_shutting_down s) (rt_phase s)
    (rt_request_complete s) (rt_counters s) (rt_next_job_id s) n (rt_wake s) (rt_trace s).
Definition with_wake (c : Condvar) (s : Shared) : Shared :=
  mkShared (rt_jobs s) (rt_queue s) (rt_active s) (rt_owners s) (rt_shutting_down s) (rt_phase s)
    (rt_request_complete s) (rt_counters s) (rt_next_job_id s) (rt_now s) c (rt_trace s).
Definition record (e : Event) (s : Shared) : Shared :=
  mkShared (rt_jobs s) (rt_queue s) (rt_active s) (rt_owners s) (rt_shutting_down s) (rt_phase s)
    (rt_request_complete s) (rt_counters s) (rt_next_job_id s) (rt_now s) (rt_wake s) (rt_trace s ++ [e]).

(** The atomic actions. Each carries the local variables its thread still
    needs; an action is followed by the actions that [exec] returns. *)
Inductive Action : Type :=
(* [worker_loop], [Job::try_start] and [Job::run] *)
| WorkerLoop
| WorkerWait
| TryStart (id : N)
| CountRunning (id : N)
| CheckBefore (id : N)
| TakeTask (id : N)
| RunTask (id : N)
| CheckAfter (id : N) (out : Out)
(* [Job::publish_terminal], in and after its critical section *)
| PublishLoad (id : N) (from terminal : JobState) (r : JobResult) (discard : bool)
| PublishCas (id : N) (from terminal : JobState) (r : JobResult) (discard : bool)
| CountTerminal (id : N) (from terminal : JobState)
| Untrack (id : N)
| Callback (id : N)
| DiscardTask (id : N)
(* [Job::cancel] and [Job::take_output] *)
| CancelFlag (id : N)
| CancelLook (id : N)
| CancelUnqueue (id : N)
| TakeLoad (id : N)
| TakeSlot (id : N)
(* [Runtime::submit] and [Runtime::request_shutdown] *)
| SubmitNow (owner : N) (timeout_ms : option N)
| SubmitLock (owner : N) (submitted_at : N) (timeout_ms : option N)
| NotifyOne
| RequestShutdown
| BeginShutdown
| NotifyAll
| PublishShutdown.

(** [Job::deadline_expired] and [Budget::check] of the job's budget. *)
Definition job_deadline_expired (now : N) (j : Job) : bool :=
  match job_deadline j with
  | Some d => d <=? now
  | None => false
  end.
Definition job_check (now : N) (j : Job) : Res unit :=
  if job_cancelled j then Err cancelled_error
  else if job_deadline_expired now j then Err timeout_error
  else Ok tt.

(** [Job::expire] and [Job::finish_running] start a publication. *)
Definition expire (id : N) : Action := PublishLoad id JQueued JFailed (Err timeout_error) true.
Definition terminal_of (r : JobResult) : JobState :=
  match r with
  | Ok _ => JCompleted
  | Err e => if bool_decide (code e = Cancelled) then JCancelled else JFailed
  end.
Definition finish_running (id : N) (r : JobResult) : Action :=
  PublishLoad id JRunning (terminal_of r) r false.
Definition cancel_publish (id : N) : Action :=
  PublishLoad id JQueued JCancelled (Err cancelled_error) true.

(** [take_expired_queue_head]. *)
Fixpoint take_expired_queue_head (now : N) (jobs : gmap N Job) (queue : list N) : list N * list N :=
  match queue with
  | [] => ([], [])
  | id :: rest =>
      match jobs !! id with
      | Some j =>
          if job_deadline_expired now j then
            let '(expired, queue) := take_expired_queue_head now jobs rest in
            (id :: expired, queue)
          else ([], queue)
      | None => ([], queue)
      end
  end.

(** [VecDeque::position] and [remove]. *)
Fixpoint remove_first (id : N) (queue : list N) : list N :=
  match queue with
  | [] => []
  | x :: queue => if bool_decide (x = id) then queue else x :: remove_first id queue
  end.

(** The owner count of [record_terminal]. *)
Definition release_owner (owner : N) (owners : gmap N nat) : gmap N nat :=
  match owners !! owner with
  | Some n => if bool_decide (n - 1 = 0)%nat then delete owner owners else <[owner := (n - 1)%nat]> owners
  | None => owners
  end.
Definition owner_jobs (owner : N) (owners : gmap N nat) : nat := default 0%nat (owners !! owner).

(** [Instant::checked_add]: an offset that is not representable is [None]. *)
Context (cfg : RuntimeConfig) (checked_add : N -> N -> option N).

(** The admission of [Runtime::submit], with the queue lock held and no
    expired job at the head of the queue. Only an admitted job is announced. *)
Definition admission (owner submitted_at : N) (timeout_ms : option N) (s : Shared) : list Action * Shared :=
  let reject e := ([], record (ERejected e) (with_counters (add_rejected (rt_counters s)) s)) in
  if rt_shutting_down s then reject ShuttingDown
  else if (rc_max_jobs_per_owner cfg <=? owner_jobs owner (rt_owners s))%nat then
    reject (Busy OwnerCeiling (rc_retry_after_ms cfg))
  else if (rc_max_queue cfg <=? length (rt_queue s))%nat then
    reject (Busy QueueFull (rc_retry_after_ms cfg))
  else
    let deadline := ms ← timeout_ms; checked_add submitted_at ms in
    let id := rt_next_job_id s in
    let s := with_next_id (wadd64 id 1) s in
    let s := with_job id (mkJob owner JQueued deadline false true None false) s in
    let s := with_active (rt_active s ++ [(id, owner)])
               (<[owner := (owner_jobs owner (rt_owners s) + 1)%nat]> (rt_owners s)) s in
    let s := with_queue (rt_queue s ++ [id]) s in
    ([NotifyOne], record (ESubmitted id) (with_counters (add_submitted (rt_counters s)) s)).

(** ** The operations

    Each definition is one atomic action: the actions that follow it and the
    new state, or [None] while it has to wait. *)
Abbreviation Next := (option (list Action * Shared)).

(** [worker_loop]: the critical section of the queue lock, which a worker
    without work leaves for the condition variable, and its return. *)
Definition worker_loop (s : Shared) : Next :=
  match take_expired_queue_head (rt_now s) (rt_jobs s) (rt_queue s) with
  | ([], []) => Some (if rt_shutting_down s then ([], s) else ([WorkerWait], with_wake (cv_wait (rt_wake s)) s))
  | ([], id :: queue) => Some ([TryStart id; WorkerLoop], with_queue queue s)
  | (expired, queue) => Some ((expire <$> expired) ++ [WorkerLoop], with_queue queue s)
  end.

Definition worker_wait (s : Shared) : Next :=
  c ← cv_wake (rt_wake s);
  Some ([WorkerLoop], with_wake c s).

(** [Job::try_start], and what [worker_loop] does with its answer. *)
Definition try_start (id : N) (s : Shared) : Next :=
  j ← rt_jobs s !! id;
  Some (if bool_decide (job_state j = JQueued) then
          ([CountRunning id], record (EStarted id) (with_job id (set_state JRunning j) s))
        else ([DiscardTask id], s)).
Definition count_running (id : N) (s : Shared) : Next :=
  Some ([CheckBefore id], with_counters (add_running (rt_counters s)) s).

(** [Job::run]: the first check, taking the task, running it, the last check. *)
Definition run_check (id : N) (s : Shared) : Next :=
  j ← rt_jobs s !! id;
  Some (match job_check (rt_now s) j with
        | Err e => ([DiscardTask id; finish_running id (Err e)], s)
        | Ok _ => ([TakeTask id], s)
        end).
Definition run_take (id : N) (s : Shared) : Next :=
  j ← rt_jobs s !! id;
  Some (if job_task j then ([RunTask id], record (ERan id) (with_job id (clear_task j) s))
        else ([finish_running id (Err unavailable_error)], s)).
Definition run_task (outcome : option JobResult) (id : N) (s : Shared) : Next :=
  Some (match outcome with
        | Some (Ok out) => ([CheckAfter id out], s)
        | Some (Err e) => ([finish_running id (Err e)], s)
        | None => ([finish_running id (Err panic_error)], s)
        end).
Definition run_recheck (id : N) (out : Out) (s : Shared) : Next :=
  j ← rt_jobs s !! id;
  Some (match job_check (rt_now s) j with
        | Err e => ([finish_running id (Err e)], s)
        | Ok _ => ([finish_running id (Ok out)], s)
        end).

(** [Job::publish_terminal]: up to the first load, with the output lock taken,
    and from the compare-exchange on. A publication that loses puts the former
    output back. *)
Definition publish_load (id : N) (from terminal : JobState) (r : JobResult) (discard : bool) (s : Shared) : Next :=
  j ← rt_jobs s !! id;
  if job_locked j then None
  else Some (if bool_decide (job_state j = from) then
               ([PublishCas id from terminal r discard], with_job id (set_locked true j) s)
             else ([], s)).
Definition publish_cas (id : N) (from terminal : JobState) (r : JobResult) (discard : bool) (s : Shared) : Next :=
  j ← rt_jobs s !! id;
  Some (if bool_decide (job_state j = from) then
          ([CountTerminal id from terminal; Untrack id; Callback id]
           ++ (if discard then [DiscardTask id] else []),
           record (EPublished id from terminal)
             (with_job id (set_locked false (set_output (Some r) (set_state terminal j))) s))
        else ([], with_job id (set_locked false j) s)).

(** [Shared::record_terminal]: the counters, then the queue lock. *)
Definition record_counters (from terminal : JobState) (s : Shared) : Next :=
  Some ([], with_counters (count_terminal from terminal (rt_counters s)) s).
Definition untrack (id : N) (s : Shared) : Next :=
  j ← rt_jobs s !! id;
  Some ([], if existsb (fun p => p.1 =? id) (rt_active s) then
              with_active (filter (fun p => p.1 <> id) (rt_active s))
                (release_owner (job_owner j) (rt_owners s)) s
            else s).
Definition callback (id : N) (s : Shared) : Next := Some ([], record (ECallback id) s).
Definition discard_task (id : N) (s : Shared) : Next :=
  j ← rt_jobs s !! id;
  Some ([], with_job id (clear_task j) s).

(** [Job::cancel]: the flag, the first load, the critical section. *)
Definition cancel_flag (id : N) (s : Shared) : Next :=
  j ← rt_jobs s !! id;
  Some ([CancelLook id], with_job id (set_cancelled j) s).
Definition cancel_look (id : N) (s : Shared) : Next :=
  j ← rt_jobs s !! id;
  Some (if bool_decide (job_state j = JQueued) then ([CancelUnqueue id], s) else ([cancel_publish id], s)).
Definition cancel_unqueue (id : N) (s : Shared) : Next :=
  j ← rt_jobs s !! id;
  Some ([cancel_publish id],
        if bool_decide (job_state j = JQueued) then with_queue (remove_first id (rt_queue s)) s else s).

(** [Job::take_output]. *)
Definition take_load (id : N) (s : Shared) : Next :=
  j ← rt_jobs s !! id;
  Some (if is_terminal (job_state j) then [TakeSlot id] else [], s).
Definition take_slot (id : N) (s : Shared) : Next :=
  j ← rt_jobs s !! id;
  if job_locked j then None
  else Some ([], match job_output j with
                 | Some r => record (ETaken id r) (with_job id (set_output None j) s)
                 | None => s
                 end).

(** [Runtime::submit]: the clock, then the loop over the queue lock. *)
Definition submit_now (owner : N) (timeout_ms : option N) (s : Shared) : Next :=
  Some ([SubmitLock owner (rt_now s) timeout_ms], s).
Definition submit_lock (owner submitted_at : N) (timeout_ms : option N) (s : Shared) : Next :=
  match take_expired_queue_head (rt_now s) (rt_jobs s) (rt_queue s) with
  | ([], _) => Some (admission owner submitted_at timeout_ms s)
  | (expired, queue) =>
      Some ((expire <$> expired) ++ [SubmitLock owner submitted_at timeout_ms], with_queue queue s)
  end.

Definition notify_one (s : Shared) : Next := Some ([], with_wake (cv_notify_one (rt_wake s)) s).

(** [Runtime::request_shutdown] and [Shared::begin_shutdown]. *)
Definition request_shutdown (s : Shared) : Next :=
  Some (match rt_phase s with
        | NotStarted => ([BeginShutdown], with_shutdown (rt_shutting_down s) InProgress (rt_request_complete s) s)
        | InProgress => ([], s)
        end).
Definition begin_shutdown (s : Shared) : Next :=
  Some (NotifyAll :: (CancelFlag <$> (rt_active s).*1) ++ [PublishShutdown],
        with_queue [] (with_shutdown true (rt_phase s) (rt_request_complete s) s)).
Definition notify_all (s : Shared) : Next := Some ([], with_wake (cv_notify_all (rt_wake s)) s).
Definition publish_shutdown_request (s : Shared) : Next :=
  Some ([], with_shutdown (rt_shutting_down s) (rt_phase s) true s).

(** One action of a thread. [outcome] is what a task returns when it is run,
    [None] for a panic. *)
Definition exec (outcome : option JobResult) (a : Action) (s : Shared) : Next :=
  match a with
  | WorkerLoop => worker_loop s
  | WorkerWait => worker_wait s
  | TryStart id => try_start id s
  | CountRunning id => count_running id s
  | CheckBefore id => run_check id s
  | TakeTask id => run_take id s
  | RunTask id => run_task outcome id s
  | CheckAfter id out => run_recheck id out s
  | PublishLoad id from terminal r discard => publish_load id from terminal r discard s
  | PublishCas id from terminal r discard => publish_cas id from terminal r discard s
  | CountTerminal id from terminal => record_counters from terminal s
  | Untrack id => untrack id s
  | Callback id => callback id s
  | DiscardTask id => discard_task id s
  | CancelFlag id => cancel_flag id s
  | CancelLook id => cancel_look id s
  | CancelUnqueue id => cancel_unqueue id s
  | TakeLoad id => take_load id s
  | TakeSlot id => take_slot id s
  | SubmitNow owner timeout_ms => submit_now owner timeout_ms s
  | SubmitLock owner submitted_at timeout_ms => submit_lock owner submitted_at timeout_ms s
  | NotifyOne => notify_one s
  | RequestShutdown => request_shutdown s
  | BeginShutdown => begin_shutdown s
  | NotifyAll => notify_all s
  | PublishShutdown => publish_shutdown_request s
  end.

Ltac unfold_exec H :=
  cbn [exec] in H;
  cbv beta delta [worker_loop worker_wait notify_one notify_all try_start count_running run_check run_take run_task run_recheck publish_load publish_cas
       record_counters untrack callback discard_task cancel_flag cancel_look cancel_unqueue take_load take_slot
       submit_now submit_lock request_shutdown begin_shutdown publish_shutdown_request] in H.

Ltac wake_case E :=
  match type of E with context [cv_wake ?c] => destruct (cv_wake c) eqn:?; cbn [mbind option_bind] in E; [|discriminate E] end.

(** ** The machine *)

Abbreviation Thread := (list Action).
Abbreviation Conf := (Shared * list Thread)%type.

(** The public calls a client can make; cancelling and taking need a job. *)
Inductive call (s : Shared) : Action -> Prop :=
| call_submit owner timeout_ms : call s (SubmitNow owner timeout_ms)
| call_cancel id : is_Some (rt_jobs s !! id) -> call s (CancelFlag id)
| call_take id : is_Some (rt_jobs s !! id) -> call s (TakeLoad id)
| call_shutdown : call s RequestShutdown.

Inductive rt_step : Conf -> Conf -> Prop :=
| step_action outcome l1 a rest l2 s new s' :
    exec outcome a s = Some (new, s') ->
    rt_step (s, l1 ++ (a :: rest) :: l2) (s', l1 ++ (new ++ rest) :: l2)
| step_call s a ths : call s a -> rt_step (s, ths) (s, ths ++ [[a]])
| step_spurious l1 l2 s c :
    cv_spurious (rt_wake s) = Some c -> rt_step (s, l1 ++ [WorkerWait] :: l2) (with_wake c s, l1 ++ [WorkerLoop] :: l2)
| step_tick s now ths : rt_now s <= now -> rt_step (s, ths) (with_now now s, ths).

(** [Runtime::start]: at least one worker. *)
Definition rt_start : Conf := (Shared_new, replicate (Nat.max (rc_workers cfg) 1) [WorkerLoop]).

Definition reachable (c : Conf) : Prop := rtc rt_step rt_start c.

(* ------------------------------------------------------------------ *)
(** ** Counting pending actions and past events *)

(** The job an action is about. *)
Definition action_id (a : Action) : option N :=
  match a with
  | TryStart id | CountRunning id | CheckBefore id | TakeTask id | RunTask id | CheckAfter id _
  | PublishLoad id _ _ _ _ | PublishCas id _ _ _ _ | CountTerminal id _ _ | Untrack id | Callback id
  | DiscardTask id | CancelFlag id | CancelLook id | CancelUnqueue id | TakeLoad id | TakeSlot id => Some id
  | WorkerLoop | WorkerWait | SubmitNow _ _ | SubmitLock _ _ _ | NotifyOne | RequestShutdown | BeginShutdown | NotifyAll
  | PublishShutdown => None
  end.
Definition event_id (e : Event) : option N :=
  match e with
  | ESubmitted id | EStarted id | ERan id | EPublished id _ _ | ECallback id | ETaken id _ => Some id
  | ERejected _ => None
  end.

(** An action that will try to start the job. *)
Definition tries (a : Action) : bool := match a with TryStart _ => true | _ => false end.
(** An action of the worker that runs the job, before and after it took the task. *)
Definition early (a : Action) : bool :=
  match a with CountRunning _ | CheckBefore _ | TakeTask _ => true | _ => false end.
Definition runs (a : Action) : bool :=
  match a with
  | CountRunning _ | CheckBefore _ | TakeTask _ | RunTask _ | CheckAfter _ _
  | PublishLoad _ JRunning _ _ _ | PublishCas _ JRunning _ _ _ => true
  | _ => false
  end.
(** A publication of a job that should still be queued. *)
Definition drops (a : Action) : bool :=
  match a with PublishLoad _ JQueued _ _ _ | PublishCas _ JQueued _ _ _ => true | _ => false end.
(** An action that leads a queued job out of its state. *)
Definition minds (a : Action) : bool :=
  match a with
  | TryStart _ | CancelFlag _ | CancelLook _ | CancelUnqueue _ => true
  | _ => drops a
  end.
Definition holds (a : Action) : bool := match a with PublishCas _ _ _ _ _ => true | _ => false end.
Definition untracks (a : Action) : bool := match a with Untrack _ => true | _ => false end.
Definition calls_back (a : Action) : bool := match a with Callback _ => true | _ => false end.
Definition discards (a : Action) : bool := match a with DiscardTask _ => true | _ => false end.

Definition about (f : Action -> bool) (id : N) (a : Action) : bool := f a && bool_decide (action_id a = Some id).
Definition tells (f : Event -> bool) (id : N) (e : Event) : bool := f e && bool_decide (event_id e = Some id).

Definition is_submitted (e : Event) : bool := match e with ESubmitted _ => true | _ => false end.
Definition is_started (e : Event) : bool := match e with EStarted _ => true | _ => false end.
Definition is_run (e : Event) : bool := match e with ERan _ => true | _ => false end.
Definition is_published (e : Event) : bool := match e with EPublished _ _ _ => true | _ => false end.
Definition is_callback (e : Event) : bool := match e with ECallback _ => true | _ => false end.
Definition is_taken (e : Event) : bool := match e with ETaken _ _ => true | _ => false end.

Fixpoint cnt {A} (f : A -> bool) (l : list A) : nat :=
  match l with
  | [] => 0%nat
  | x :: l => (Nat.b2n (f x) + cnt f l)%nat
  end.

Lemma cnt_app {A} (f : A -> bool) l k : cnt f (l ++ k) = (cnt f l + cnt f k)%nat.
Proof. induction l as [|x l IH]; simpl; [done|]. rewrite IH. lia. Qed.

Lemma cnt_perm {A} (f : A -> bool) l k : Permutation l k -> cnt f l = cnt f k.
Proof. induction 1; simpl; lia. Qed.

Lemma cnt_pos {A} (f : A -> bool) l : (0 < cnt f l)%nat <-> exists x, x ∈ l /\ f x = true.
Proof.
  induction l as [|y l IH]; simpl.
  - split; [lia|]. intros (x & Hx & _). by apply not_elem_of_nil in Hx.
  - destruct (f y) eqn:E; simpl.
    + split; [|lia]. intros _. exists y. split; [left|done].
    + rewrite IH. split.
      * intros (x & Hx & Hf). exists x. split; [by right|done].
      * intros (x & Hx & Hf). apply elem_of_cons in Hx as [Hx|Hx]; [by rewrite Hx, E in Hf|]. by exists x.
Qed.

Lemma cnt_zero {A} (f : A -> bool) l : cnt f l = 0%nat <-> forall x, x ∈ l -> f x = false.
Proof.
  split.
  - intros Hz x Hx. destruct (f x) eqn:E; [|done]. assert (0 < cnt f l)%nat; [|lia]. apply cnt_pos. by exists x.
  - intros Hf. destruct (cnt f l) eqn:E; [done|]. assert (0 < cnt f l)%nat as Hp by lia.
    apply cnt_pos in Hp as (x & Hx & Hfx). rewrite Hf in Hfx; done.
Qed.

Lemma cnt_le {A} (f g : A -> bool) l : (forall x, f x = true -> g x = true) -> (cnt f l <= cnt g l)%nat.
Proof.
  intros Hfg. induction l as [|x l IH]; simpl; [done|]. specialize (Hfg x).
  destruct (f x), (g x); simpl; lia.
Qed.

(* ------------------------------------------------------------------ *)
(** ** The invariant of one job *)

(** What the pending actions, the queue, the active map and the history say
    about one job. *)
Record View : Type := mkView {
  v_is_queued : nat; v_is_running : nat; v_is_terminal : nat; v_task : nat; v_out : nat; v_locked : nat;
  v_queue : nat; v_active : nat;
  v_tries : nat; v_minds : nat; v_drops : nat; v_runs : nat; v_early : nat; v_holds : nat;
  v_untracks : nat; v_calls : nat; v_discards : nat;
  v_submitted : nat; v_started : nat; v_ran : nat; v_published : nat; v_called : nat; v_taken : nat
}.

Definition view (s : Shared) (P : list Action) (id : N) (j : Job) : View :=
  let on f := cnt (about f id) P in
  let past f := cnt (tells f id) (rt_trace s) in
  mkView (Nat.b2n (is_queued (job_state j))) (Nat.b2n (is_running (job_state j)))
    (Nat.b2n (is_terminal (job_state j))) (Nat.b2n (job_task j))
    (match job_output j with Some _ => 1 | None => 0 end)%nat (Nat.b2n (job_locked j))
    (cnt (N.eqb id) (rt_queue s)) (cnt (fun p => id =? p.1) (rt_active s))
    (on tries) (on minds) (on drops) (on runs) (on early) (on holds)
    (on untracks) (on calls_back) (on discards)
    (past is_submitted) (past is_started) (past is_run) (past is_published) (past is_callback) (past is_taken).

Record view_ok (v : View) : Prop := {
  vo_lock : v_holds v = v_locked v;
  vo_queue : (v_queue v + v_tries v <= 1)%nat;
  vo_queued : (0 < v_queue v -> v_is_queued v = 1 /\ v_drops v = 0)%nat;
  vo_tries : (0 < v_tries v -> v_is_running v = 0)%nat;
  vo_minded : (v_is_queued v = 1 -> 0 < v_queue v + v_minds v)%nat;
  vo_runs : v_runs v = v_is_running v;
  vo_live : (v_is_terminal v = 0 ->
             v_active v = 1 /\ v_untracks v = 0 /\ v_calls v = 0 /\ v_published v = 0 /\
             v_called v = 0 /\ v_out v = 0 /\ v_taken v = 0)%nat;
  vo_dead : (v_is_terminal v = 1 ->
             v_active v = v_untracks v /\ v_untracks v <= 1 /\ v_calls v + v_called v = 1 /\
             v_published v = 1 /\ v_taken v + v_out v = 1)%nat;
  vo_fresh : (v_is_queued v = 1 -> v_task v = 1 /\ v_discards v = 0 /\ v_started v = 0)%nat;
  vo_early : (0 < v_early v -> v_task v = 1 /\ v_discards v = 0)%nat;
  vo_early_runs : (v_early v <= v_runs v)%nat;
  vo_ran : (v_ran v + v_task v <= 1)%nat;
  vo_started : (v_started v <= 1 /\ v_ran v <= v_started v /\ (v_is_running v = 1 -> v_started v = 1))%nat;
  vo_submitted : v_submitted v = 1%nat
}.

(** What is known of a pending publication. *)
Definition publication_ok (a : Action) : Prop :=
  match a with
  | PublishLoad _ from t r _ | PublishCas _ from t r _ =>
      t = terminal_of r /\ (from = JQueued \/ from = JRunning)
  | CountTerminal _ _ t => is_terminal t = true
  | _ => True
  end.

Lemma terminal_of_terminal r : is_terminal (terminal_of r) = true.
Proof. destruct r; simpl; [done|]. by case_bool_decide. Qed.

(** An action about another job changes nothing in a view. *)
Lemma about_other f id a : action_id a <> Some id -> about f id a = false.
Proof. intros Ha. unfold about. rewrite bool_decide_eq_false_2 by done. apply andb_false_r. Qed.

Lemma about_same f id a : action_id a = Some id -> about f id a = f a.
Proof. intros Ha. unfold about. rewrite bool_decide_eq_true_2 by done. apply andb_true_r. Qed.

Lemma tells_other f id e : event_id e <> Some id -> tells f id e = false.
Proof. intros Ha. unfold tells. rewrite bool_decide_eq_false_2 by done. apply andb_false_r. Qed.

Lemma tells_same f id e : event_id e = Some id -> tells f id e = f e.
Proof. intros Ha. unfold tells. rewrite bool_decide_eq_true_2 by done. apply andb_true_r. Qed.

(** The two list updates, as counts. *)
Lemma cnt_remove_first id q : cnt (N.eqb id) (remove_first id q) = (cnt (N.eqb id) q - 1)%nat.
Proof.
  induction q as [|x q IH]; simpl; [done|]. case_bool_decide as Hx.
  - subst x. rewrite N.eqb_refl. simpl. lia.
  - simpl. rewrite (proj2 (N.eqb_neq id x)) by congruence. simpl. by rewrite IH.
Qed.

Lemma cnt_remove_other id id' q : id' <> id -> cnt (N.eqb id') (remove_first id q) = cnt (N.eqb id') q.
Proof.
  intros Hne. induction q as [|x q IH]; simpl; [done|]. case_bool_decide as Hx; simpl; [|by rewrite IH].
  subst x. by rewrite (proj2 (N.eqb_neq id' id)).
Qed.

Lemma cnt_untrack id (l : list (N * N)) :
  cnt (fun p => id =? p.1) (filter (fun p => p.1 <> id) l) = 0%nat.
Proof.
  apply cnt_zero. intros [x o] Hx. apply list_elem_of_filter in Hx as [Hx _]. simpl in *.
  apply N.eqb_neq. congruence.
Qed.

Lemma cnt_untrack_other id id' (l : list (N * N)) :
  id' <> id -> cnt (fun p => id' =? p.1) (filter (fun p => p.1 <> id) l) = cnt (fun p => id' =? p.1) l.
Proof.
  intros Hne. induction l as [|[x o] l IH]; [done|]. rewrite filter_cons. case_decide as Hx; simpl in *; [by rewrite IH|].
  rewrite IH. assert (x = id) as -> by (destruct (decide (x = id)); [done|by destruct Hx]).
  by rewrite (proj2 (N.eqb_neq id' id)).
Qed.

Lemma active_absent id (l : list (N * N)) :
  existsb (fun p => p.1 =? id) l = false -> cnt (fun p => id =? p.1) l = 0%nat.
Proof.
  induction l as [|[x o] l IH]; [done|]. simpl. rewrite orb_false_iff. intros [Hx Hl]. rewrite IH by done.
  by rewrite N.eqb_sym, Hx.
Qed.

(** One step of the job an action is about. *)
Ltac view_norm :=
  unfold view, about, tells in *; cbn -[bool_decide N.eqb] in *; rewrite ?cnt_app in *; cbn -[bool_decide N.eqb] in *;
  repeat match goal with
         | |- context [bool_decide (Some ?x = Some ?x)] => rewrite (bool_decide_eq_true_2 (Some x = Some x)) by done
         | H : context [bool_decide (Some ?x = Some ?x)] |- _ => rewrite (bool_decide_eq_true_2 (Some x = Some x)) in H by done
         end; cbn -[bool_decide N.eqb] in *.
Ltac view_crush :=
  view_norm;
  repeat match goal with H : context [cnt _ _] |- _ => revert H end;
  repeat match goal with |- context [cnt ?f ?l] => generalize (cnt f l); intro end; intros;
  match goal with H : view_ok _ |- _ => destruct H; cbn in * end;
  constructor; cbn in *; lia.

Lemma early_le_runs id P : (cnt (about early id) P <= cnt (about runs id) P)%nat.
Proof.
  apply cnt_le. intros a. unfold about. rewrite !andb_true_iff. intros [Ha ?]. split; [|done]. by destruct a.
Qed.

Ltac own_step Hj :=
  eexists; split; [first [exact Hj | apply lookup_insert_eq]|]; split; [reflexivity|].

Lemma own_view o a s new s' R id j :
  action_id a = Some id -> rt_jobs s !! id = Some j -> exec o a s = Some (new, s') -> publication_ok a ->
  view_ok (view s (a :: R) id j) ->
  exists j', rt_jobs s' !! id = Some j' /\ job_owner j' = job_owner j /\ view_ok (view s' (new ++ R) id j').
Proof.
  intros Ha Hj E Hp Hv. destruct j as [ow st dl ca ta out lk] eqn:Ej.
  destruct a; try discriminate Ha; injection Ha as ->; unfold_exec E; rewrite ?Hj in E;
    cbn [mbind option_bind job_state job_locked job_task job_output job_owner] in E.
  - (* TryStart *) case_bool_decide as Hst; injection E as <- <-; own_step Hj; subst; [|destruct st; try done]; view_crush.
  - (* CountRunning *) injection E as <- <-; own_step Hj; destruct st; view_crush.
  - (* CheckBefore *) destruct (job_check _ _); injection E as <- <-; own_step Hj; destruct st; view_crush.
  - (* TakeTask *) destruct ta; injection E as <- <-; own_step Hj; destruct st; view_crush.
  - (* RunTask *) destruct o as [[out'|e]|]; injection E as <- <-; own_step Hj; destruct st; view_crush.
  - (* CheckAfter *) destruct (job_check _ _); injection E as <- <-; own_step Hj; destruct st; view_crush.
  - (* PublishLoad *) destruct Hp as [_ Hp]. destruct lk; [done|]. case_bool_decide as Hst; injection E as <- <-; own_step Hj;
      destruct Hp; subst from; destruct st; try done; view_crush.
  - (* PublishCas *) destruct Hp as [Ht Hp]. pose proof (terminal_of_terminal r) as Hterm. rewrite <- Ht in Hterm.
    pose proof (early_le_runs id R) as Hearly.
    case_bool_decide as Hst; injection E as <- <-; own_step Hj; destruct Hp; subst from; destruct st; try done;
      destruct discard, terminal; try done; destruct lk; view_crush.
  - (* CountTerminal *) injection E as <- <-; own_step Hj; destruct st; view_crush.
  - (* Untrack *) injection E as <- <-. exists (mkJob ow st dl ca ta out lk).
    destruct (existsb _ _) eqn:Ex; split; [exact Hj| |exact Hj|]; (split; [done|]).
    + pose proof (cnt_untrack id (rt_active s)). destruct st; view_crush.
    + pose proof (active_absent id _ Ex). destruct st; view_crush.
  - (* Callback *) injection E as <- <-; own_step Hj; destruct st; view_crush.
  - (* DiscardTask *) injection E as <- <-; own_step Hj; destruct st, ta; view_crush.
  - (* CancelFlag *) injection E as <- <-; own_step Hj; destruct st; view_crush.
  - (* CancelLook *) case_bool_decide as Hst; injection E as <- <-; own_step Hj; subst; [|destruct st; try done]; view_crush.
  - (* CancelUnqueue *) pose proof (cnt_remove_first id (rt_queue s)).
    case_bool_decide as Hst; injection E as <- <-; own_step Hj; subst; [|destruct st; try done]; view_crush.
  - (* TakeLoad *) destruct (is_terminal st) eqn:Et; injection E as <- <-; own_step Hj; destruct st; try done; view_crush.
  - (* TakeSlot *) destruct lk; [done|]. destruct out as [r|]; injection E as <- <-; own_step Hj; destruct st; view_crush.
Qed.

(* ------------------------------------------------------------------ *)
(** ** The other jobs *)

Lemma view_frame s s' P P' id j :
  (forall f, cnt (about f id) P' = cnt (about f id) P) ->
  (forall f, cnt (tells f id) (rt_trace s') = cnt (tells f id) (rt_trace s)) ->
  cnt (N.eqb id) (rt_queue s') = cnt (N.eqb id) (rt_queue s) ->
  cnt (fun p => id =? p.1) (rt_active s') = cnt (fun p => id =? p.1) (rt_active s) ->
  view s' P' id j = view s P id j.
Proof. intros HP Ht Hq Ha. unfold view. by rewrite !HP, !Ht, Hq, Ha. Qed.

Lemma cnt_about_none f id P : Forall (fun a => action_id a <> Some id) P -> cnt (about f id) P = 0%nat.
Proof. rewrite Forall_forall. intros HP. apply cnt_zero. intros a Ha. by apply about_other, HP. Qed.

Lemma cnt_tells_none f id T : Forall (fun e => event_id e <> Some id) T -> cnt (tells f id) T = 0%nat.
Proof. rewrite Forall_forall. intros HT. apply cnt_zero. intros e He. by apply tells_other, HT. Qed.

(** The footprint of an action about a job. *)
Record local_step (id : N) (s s' : Shared) (new : list Action) : Prop := {
  lo_new : Forall (fun a => action_id a = Some id) new;
  lo_trace : exists es, rt_trace s' = rt_trace s ++ es /\
               Forall (fun e => event_id e = Some id /\ is_submitted e = false) es;
  lo_jobs : forall id', id' <> id -> rt_jobs s' !! id' = rt_jobs s !! id';
  lo_queue : forall id', id' <> id -> cnt (N.eqb id') (rt_queue s') = cnt (N.eqb id') (rt_queue s);
  lo_sub : forall x, x ∈ rt_queue s' -> x ∈ rt_queue s;
  lo_length : (length (rt_queue s') <= length (rt_queue s))%nat;
  lo_active : forall id', id' <> id -> cnt (fun p => id' =? p.1) (rt_active s') = cnt (fun p => id' =? p.1) (rt_active s);
  lo_next : rt_next_job_id s' = rt_next_job_id s
}.

Lemma elem_of_remove_first id x q : x ∈ remove_first id q -> x ∈ q.
Proof.
  induction q as [|y q IH]; simpl; [done|]. case_bool_decide; [set_solver|].
  rewrite !elem_of_cons. intros [->|Hx]; [by left|right; by apply IH].
Qed.

Lemma length_remove_first id q : (length (remove_first id q) <= length q)%nat.
Proof. induction q as [|y q IH]; simpl; [done|]. case_bool_decide; simpl; lia. Qed.

Lemma local_stay id s new : Forall (fun a => action_id a = Some id) new -> local_step id s s new.
Proof. intros Hn. split; try done. exists []. by rewrite app_nil_r. Qed.

Lemma local_job id s j new : Forall (fun a => action_id a = Some id) new -> local_step id s (with_job id j s) new.
Proof.
  intros Hn. split; try done.
  - exists []. cbn. by rewrite app_nil_r.
  - intros id' Hne. cbn. by rewrite lookup_insert_ne.
Qed.

Lemma local_record id s s' e new :
  event_id e = Some id -> is_submitted e = false -> local_step id s s' new -> local_step id s (record e s') new.
Proof.
  intros He Hs [Hn (es & Ht & Hes) Hj Hq Hsub Hl Ha Hx]. split; try done. exists (es ++ [e]). cbn. rewrite Ht, app_assoc.
  split; [done|]. apply Forall_app. by split; [|constructor].
Qed.

Lemma exec_local o a s new s' id : action_id a = Some id -> exec o a s = Some (new, s') -> local_step id s s' new.
Proof.
  intros Ha E. destruct a; try discriminate Ha; injection Ha as ->; unfold_exec E;
    try (destruct (rt_jobs s !! id) as [j|]; [|discriminate E]; cbn [mbind option_bind] in E).
  all: try (injection E as <- <-).
  - case_bool_decide; injection E as <- <-; [apply local_record; [done|done|apply local_job; by repeat constructor]|apply local_stay; by repeat constructor].
  - split; try done; [by repeat constructor|]. exists []. cbn. by rewrite app_nil_r.
  - destruct (job_check _ _); injection E as <- <-; apply local_stay; by repeat constructor.
  - destruct (job_task j); injection E as <- <-; [apply local_record; [done|done|apply local_job; by repeat constructor]|apply local_stay; by repeat constructor].
  - destruct o as [[out|e]|]; injection E as <- <-; apply local_stay; by repeat constructor.
  - destruct (job_check _ _); injection E as <- <-; apply local_stay; by repeat constructor.
  - destruct (job_locked j); [done|]. case_bool_decide; injection E as <- <-; [apply local_job|apply local_stay]; by repeat constructor.
  - case_bool_decide; injection E as <- <-; [apply local_record; [done|done|]|]; apply local_job; destruct discard; by repeat constructor.
  - split; try done. exists []. cbn. by rewrite app_nil_r.
  - destruct (existsb _ _); [|by apply local_stay]. split; try done; [exists []; cbn; by rewrite app_nil_r|].
    intros id' Hne. cbn. by apply cnt_untrack_other.
  - apply local_record; [done|done|by apply local_stay].
  - by apply local_job.
  - apply local_job. by repeat constructor.
  - case_bool_decide; injection E as <- <-; apply local_stay; by repeat constructor.
  - case_bool_decide; [|apply local_stay; by repeat constructor]. split; try done; [by repeat constructor|exists []; cbn; by rewrite app_nil_r| | |].
    + intros id' Hne. cbn. by apply cnt_remove_other.
    + intros x. cbn. apply elem_of_remove_first.
    + cbn. apply length_remove_first.
  - destruct (is_terminal _); apply local_stay; by repeat constructor.
  - destruct (job_locked j); [done|]. destruct (job_output j); injection E as <- <-; [apply local_record; [done|done|by apply local_job]|by apply local_stay].
Qed.

(* ------------------------------------------------------------------ *)
(** ** The invariant of the machine *)

(** Equality of counters modulo their width. *)
Definition meq (a b : N) : Prop := a mod u64_mod = b mod u64_mod.

#[local] Instance meq_equivalence : Equivalence meq.
Proof. unfold meq. split; [intros a|intros a b|intros a b c]; congruence. Qed.

#[local] Instance meq_add : Proper (meq ==> meq ==> meq) N.add.
Proof. intros a a' Ha b b' Hb. unfold meq in *. rewrite (N.Div0.add_mod a b), (N.Div0.add_mod a' b'). by rewrite Ha, Hb. Qed.

Lemma wadd64_meq a b : meq (wadd64 a b) (a + b).
Proof. unfold meq, wadd64. apply N.Div0.mod_mod. Qed.

Lemma wsub64_meq a : meq (wsub64 a 1 + 1) a.
Proof.
  unfold meq, wsub64. rewrite N.Div0.add_mod_idemp_l. replace (a + (u64_mod - 1) + 1) with (a + 1 * u64_mod) by (unfold u64_mod; lia).
  apply N.Div0.mod_add.
Qed.

Lemma meq_cancel a b c : meq (a + c) (b + c) -> meq a b.
Proof.
  intros H. assert (meq (a + c + (u64_mod - c mod u64_mod)) (b + c + (u64_mod - c mod u64_mod))) as H2.
  { by rewrite H. }
  assert (forall x, meq (x + c + (u64_mod - c mod u64_mod)) x) as Hx.
  { intros x. pose proof (N.mod_lt c u64_mod ltac:(done)) as Hlt. pose proof (N.div_mod c u64_mod ltac:(done)) as Hc.
    unfold meq. replace (x + c + (u64_mod - c mod u64_mod)) with (x + (c / u64_mod + 1) * u64_mod).
    { apply N.Div0.mod_add. }
    revert Hlt Hc. generalize (c mod u64_mod) (c / u64_mod). intros m d Hlt Hc. nia. }
  by rewrite !Hx in H2.
Qed.

Definition state_eqb (a b : JobState) : bool :=
  match a, b with
  | JQueued, JQueued | JRunning, JRunning | JCompleted, JCompleted | JFailed, JFailed
  | JCancelled, JCancelled => true
  | _, _ => false
  end.
Definition pending_terminal (t : JobState) (a : Action) : bool :=
  match a with CountTerminal _ _ t' => state_eqb t' t | _ => false end.
Definition pending_stop (a : Action) : bool :=
  match a with CountTerminal _ JRunning _ => true | _ => false end.
Definition pending_running (a : Action) : bool := match a with CountRunning _ => true | _ => false end.
Definition published_as (t : JobState) (e : Event) : bool :=
  match e with EPublished _ _ t' => state_eqb t' t | _ => false end.
Definition published_run (e : Event) : bool := match e with EPublished _ JRunning _ => true | _ => false end.

Definition cntN {A} (f : A -> bool) (l : list A) : N := N.of_nat (cnt f l).

(** The counters agree with the history, up to the updates still pending. *)
Record counters_ok (s : Shared) (P : list Action) : Prop := {
  co_submitted : meq (ctr_submitted (rt_counters s)) (cntN is_submitted (rt_trace s));
  co_completed : meq (ctr_completed (rt_counters s) + cntN (pending_terminal JCompleted) P)
                   (cntN (published_as JCompleted) (rt_trace s));
  co_failed : meq (ctr_failed (rt_counters s) + cntN (pending_terminal JFailed) P)
                (cntN (published_as JFailed) (rt_trace s));
  co_cancelled : meq (ctr_cancelled (rt_counters s) + cntN (pending_terminal JCancelled) P)
                   (cntN (published_as JCancelled) (rt_trace s));
  co_running : meq (ctr_running (rt_counters s) + cntN pending_running P + cntN published_run (rt_trace s))
                 (cntN is_started (rt_trace s) + cntN pending_stop P);
  co_runs : (cnt runs P + cnt published_run (rt_trace s) = cnt is_started (rt_trace s))%nat
}.

Record rt_inv (s : Shared) (P : list Action) : Prop := {
  ri_job : forall id j, rt_jobs s !! id = Some j -> view_ok (view s P id j);
  ri_output : forall id j r, rt_jobs s !! id = Some j -> job_output j = Some r -> job_state j = terminal_of r;
  ri_actions : Forall (fun a => forall id, action_id a = Some id -> is_Some (rt_jobs s !! id)) P;
  ri_pub : Forall publication_ok P;
  ri_queue : forall id, id ∈ rt_queue s -> is_Some (rt_jobs s !! id);
  ri_active : Forall (fun p => exists j, rt_jobs s !! p.1 = Some j /\ job_owner j = p.2) (rt_active s);
  ri_trace : Forall (fun e => forall id, event_id e = Some id -> is_Some (rt_jobs s !! id)) (rt_trace s);
  ri_fresh : forall id, is_Some (rt_jobs s !! id) -> id < rt_next_job_id s;
  ri_next : rt_next_job_id s = 1 + cntN is_submitted (rt_trace s);
  ri_length : (length (rt_queue s) <= rc_max_queue cfg)%nat;
  ri_owners : forall o, owner_jobs o (rt_owners s) = cnt (fun p => p.2 =? o) (rt_active s);
  ri_ceiling : forall o, (owner_jobs o (rt_owners s) <= rc_max_jobs_per_owner cfg)%nat;
  ri_counters : counters_ok s P
}.

(** Only the multiset of pending actions matters. *)
#[local] Instance rt_inv_perm s : Proper (Permutation ==> impl) (rt_inv s).
Proof.
  intros P Q HPQ Hi. destruct Hi as [Hj Hout Ha Hp Hq Hac Ht Hf Hn Hl Ho Hce Hc].
  split; try done; [|by rewrite <- HPQ|by rewrite <- HPQ|].
  - intros id j Hid. rewrite (view_frame s s P Q id j); [by apply Hj| |done|done|done].
    intros f. symmetry. by apply cnt_perm.
  - destruct Hc. unfold cntN in *. split; unfold cntN; try done; by rewrite <- ?(cnt_perm _ _ _ HPQ).
Qed.

(** ** Preservation: an action about a job *)

Lemma own_output o a s new s' R id j j' :
  action_id a = Some id -> rt_jobs s !! id = Some j -> exec o a s = Some (new, s') -> publication_ok a ->
  view_ok (view s (a :: R) id j) -> rt_jobs s' !! id = Some j' ->
  (forall r, job_output j = Some r -> job_state j = terminal_of r) ->
  forall r, job_output j' = Some r -> job_state j' = terminal_of r.
Proof.
  intros Ha Hj E Hp Hv Hj' Ho r Hr.
  destruct a; try discriminate Ha; injection Ha as ->; unfold_exec E; rewrite ?Hj in E; cbn [mbind option_bind] in E.
  all: try (injection E as <- <-).
  all: try (destruct (job_check _ _); injection E as <- <-).
  all: try (destruct o as [[out|e]|]; injection E as <- <-).
  all: try (destruct (job_locked j); [done|]).
  all: try (match goal with H : context [job_task ?x] |- _ => destruct (job_task x); injection H as <- <- end).
  all: try (match goal with H : context [match job_output _ with _ => _ end] |- _ => injection H as <- <- end).
  all: try (case_bool_decide as Hst; injection E as <- <-).
  all: cbn in Hj'; rewrite ?lookup_insert_eq, ?Hj in Hj'; try (injection Hj' as <-); cbn in Hr; try (by apply Ho).
  - (* TryStart *) pose proof (vo_live _ Hv) as Hl. cbn in Hl. rewrite Hst, Hr in Hl. cbn in Hl. lia.
  - (* PublishCas *) injection Hr as <-. cbn. apply Hp.
  - (* Untrack *) destruct (existsb _ _); cbn in Hj'; rewrite Hj in Hj'; injection Hj' as <-; by apply Ho.
  - (* CancelUnqueue *) case_bool_decide; cbn in Hj'; rewrite Hj in Hj'; injection Hj' as <-; by apply Ho.
  - (* TakeSlot *) destruct (job_output j) as [r0|] eqn:E0; cbn in Hj'; rewrite ?lookup_insert_eq, ?Hj in Hj';
      injection Hj' as <-; cbn in Hr; congruence.
Qed.

(** The active map and the owner counts change only when a job is untracked. *)
Lemma local_active o a s new s' id j :
  action_id a = Some id -> rt_jobs s !! id = Some j -> exec o a s = Some (new, s') ->
  (rt_active s' = rt_active s /\ rt_owners s' = rt_owners s) \/
  (a = Untrack id /\ rt_active s' = filter (fun p => p.1 <> id) (rt_active s) /\
   rt_owners s' = release_owner (job_owner j) (rt_owners s)).
Proof.
  intros Ha Hj E. destruct a; try discriminate Ha; injection Ha as ->; unfold_exec E;
    rewrite ?Hj in E; cbn [mbind option_bind] in E; try (destruct (job_locked j); [done|]);
    try (injection E as <- <-; by left).
  1-7: repeat case_match; simplify_eq; by left.
  - injection E as <- <-. destruct (existsb _ _); [by right|by left].
  - case_bool_decide; simplify_eq; by left.
  - injection E as <- <-. case_bool_decide; by left.
  - destruct (job_output j); simplify_eq; by left.
Qed.

Lemma untrack_owner id ow o (l : list (N * N)) :
  Forall (fun p => p.1 = id -> p.2 = ow) l ->
  cnt (fun p => p.2 =? o) (filter (fun p => p.1 <> id) l)
  = (cnt (fun p => (p.2 =? o)%N) l - (if (ow =? o)%N then cnt (fun p => (id =? p.1)%N) l else 0))%nat /\
  ((if (ow =? o)%N then cnt (fun p => (id =? p.1)%N) l else 0) <= cnt (fun p => (p.2 =? o)%N) l)%nat.
Proof.
  induction 1 as [|[x y] l Hx Hl [IH1 IH2]]; [by destruct (ow =? o)|]. rewrite filter_cons. cbn in *.
  case_decide as Hd; cbn.
  - rewrite IH1, (proj2 (N.eqb_neq id x)) by (intros ->; by apply Hd). destruct (ow =? o), (y =? o); cbn; lia.
  - assert (x = id) as -> by (destruct (decide (x = id)); [done|by destruct Hd]). rewrite Hx, IH1, N.eqb_refl by done.
    destruct (ow =? o); cbn; lia.
Qed.

Lemma owner_jobs_release ow o owners :
  owner_jobs o (release_owner ow owners) = (owner_jobs o owners - (if (ow =? o)%N then 1 else 0))%nat.
Proof.
  unfold release_owner, owner_jobs. destruct (owners !! ow) as [n|] eqn:E.
  - destruct (N.eqb_spec ow o) as [<-|Hne].
    + rewrite E. case_bool_decide; [rewrite lookup_delete_eq|rewrite lookup_insert_eq]; cbn; lia.
    + case_bool_decide; [rewrite lookup_delete_ne by done|rewrite lookup_insert_ne by done]; lia.
  - destruct (N.eqb_spec ow o) as [<-|Hne]; [|lia]. rewrite E. cbn. lia.
Qed.

Lemma exec_publication o a s new s' :
  exec o a s = Some (new, s') -> publication_ok a -> Forall publication_ok new.
Proof.
  assert (forall ids, Forall publication_ok (expire <$> ids)) as Hex.
  { intros ids. apply Forall_fmap, Forall_true. intros id. split; [done|by left]. }
  assert (forall id r, publication_ok (finish_running id r)) as Hf.
  { intros id r. split; [done|by right]. }
  assert (forall id, publication_ok (cancel_publish id)) as Hc.
  { intros id. split; [done|by left]. }
  intros E Hp. destruct a; unfold_exec E.
  all: try (destruct (rt_jobs s !! id) as [j|]; [|discriminate E]; cbn [mbind option_bind] in E).
  all: try (destruct (cv_wake (rt_wake s)) as [c|]; [|discriminate E]; cbn [mbind option_bind] in E).
  all: unfold admission in E.
  all: repeat case_match; simplify_eq; rewrite ?Forall_app, ?Forall_cons; repeat split; auto; try done.
  1-2: apply Hp.
  1-2: destruct Hp as [-> _]; apply terminal_of_terminal.
  apply Forall_app. split; [by apply Forall_fmap, Forall_true|by repeat constructor].
Qed.

(** The counters. *)
Lemma cnt_map_zero {A} (f : Action -> bool) (g : A -> Action) ids :
  (forall x, f (g x) = false) -> cnt f (g <$> ids) = 0%nat.
Proof. intros Hf. apply cnt_zero. intros a. rewrite list_elem_of_fmap. intros (x & -> & _). apply Hf. Qed.

Lemma meq_conv a b a' b' : meq a b -> a' = a -> b' = b -> meq a' b'.
Proof. by intros ? -> ->. Qed.

Lemma meq_succ a b a' b' : meq a b -> a' = a + 1 -> b' = b + 1 -> meq a' b'.
Proof. intros H -> ->. by rewrite H. Qed.

Ltac by_meq :=
  match goal with
  | H : meq _ _ |- meq _ _ => eapply (meq_conv _ _ _ _ H); [lia|lia]
  | H : meq _ _ |- meq _ _ => eapply (meq_succ _ _ _ _ H); [lia|lia]
  end.

Ltac counters_crush :=
  match goal with Hc : counters_ok _ _ |- _ => destruct Hc as [Hsub Hcom Hfai Hcan Hrun Hruns] end;
  unfold cntN in *; cbn in *; rewrite ?cnt_app in *; cbn in *;
  split; unfold cntN; cbn; rewrite ?cnt_app; cbn;
  try by_meq; try lia.

(** An update that neither touches a counter nor records a counted event. *)
Lemma counters_frame s s' a new R :
  counters_ok s (a :: R) -> rt_counters s' = rt_counters s ->
  (forall t, cnt (pending_terminal t) new = 0%nat /\ pending_terminal t a = false) ->
  cnt pending_running new = 0%nat /\ pending_running a = false ->
  cnt pending_stop new = 0%nat /\ pending_stop a = false ->
  cnt runs new = Nat.b2n (runs a) ->
  (exists es, rt_trace s' = rt_trace s ++ es /\
     Forall (fun e => is_submitted e = false /\ is_started e = false /\ is_published e = false) es) ->
  counters_ok s' (new ++ R).
Proof.
  intros Hc Hs Ht [Hr1 Hr2] [Hp1 Hp2] Hn (es & Hes & Hf).
  assert (forall f : Event -> bool, (forall e, f e = true -> is_submitted e || is_started e || is_published e = true) -> cnt f es = 0%nat) as Hz.
  { intros f Hfe. apply cnt_zero. intros e He. rewrite Forall_forall in Hf. destruct (Hf e He) as (H1 & H2 & H3).
    destruct (f e) eqn:E; [|done]. apply Hfe in E. by rewrite H1, H2, H3 in E. }
  assert (forall t, cnt (published_as t) es = 0%nat) as Hz1 by (intros t; apply Hz; intros []; cbn; intros; done).
  assert (cnt published_run es = 0%nat) as Hz2 by (apply Hz; intros []; cbn; intros; try done; by destruct from).
  assert (cnt is_started es = 0%nat) as Hz3 by (apply Hz; by intros []).
  assert (cnt is_submitted es = 0%nat) as Hz4 by (apply Hz; by intros []).
  destruct Hc as [Hsub Hcom Hfai Hcan Hrun Hruns]. unfold cntN in *. cbn in *.
  split; unfold cntN; rewrite Hes, ?Hs, ?cnt_app, ?Hz1, ?Hz2, ?Hz3, ?Hz4, ?Hr1, ?Hp1, ?Hn, ?(proj1 (Ht _));
    rewrite ?Hr2, ?Hp2, ?(proj2 (Ht _)) in *; cbn in *; first [by_meq|lia].
Qed.

Ltac frame_counters :=
  eapply counters_frame; [eassumption|done|intros t; by split|done|done|done|];
  first [by exists []; rewrite app_nil_r | eexists; split; [reflexivity|by repeat constructor]].

Lemma meq_wadd a b x y : meq (a + b + x) y -> meq (wadd64 a b + x) y.
Proof. by rewrite wadd64_meq. Qed.

Lemma count_running_ok s id R :
  counters_ok s (CountRunning id :: R) ->
  counters_ok (with_counters (add_running (rt_counters s)) s) (CheckBefore id :: R).
Proof.
  intros Hc. counters_crush. rewrite <- N.add_assoc. apply meq_wadd. by_meq.
Qed.

Lemma meq_wsub a x y z : meq (a + x + y) (z + 1) -> meq (wsub64 a 1 + x + y) z.
Proof.
  intros H. apply (meq_cancel _ _ 1). rewrite <- H. transitivity (wsub64 a 1 + 1 + x + y); [apply (f_equal (fun n => n mod u64_mod)); lia|].
  by rewrite wsub64_meq.
Qed.

Lemma count_terminal_ok s id from t R :
  is_terminal t = true -> counters_ok s (CountTerminal id from t :: R) ->
  counters_ok (with_counters (count_terminal from t (rt_counters s)) s) R.
Proof.
  intros Ht Hc. unfold count_terminal. destruct (decide (from = JRunning)) as [->|Hf].
  - rewrite bool_decide_eq_true_2 by done. destruct t; try discriminate Ht; counters_crush;
      first [apply meq_wadd; by_meq | apply meq_wsub; by_meq].
  - rewrite bool_decide_eq_false_2 by done. destruct from; try done; (destruct t; try discriminate Ht; counters_crush;
      apply meq_wadd; by_meq).
Qed.

Lemma publish_counters s s' id from t r d R :
  counters_ok s (PublishCas id from t r d :: R) -> is_terminal t = true -> from = JQueued \/ from = JRunning ->
  rt_counters s' = rt_counters s -> rt_trace s' = rt_trace s ++ [EPublished id from t] ->
  counters_ok s' (([CountTerminal id from t; Untrack id; Callback id] ++ (if d then [DiscardTask id] else [])) ++ R).
Proof.
  intros Hc Ht Hf Hs Htr. destruct Hc as [Hsub Hcom Hfai Hcan Hrun Hruns]. unfold cntN in *.
  split; unfold cntN; rewrite ?Hs, Htr; destruct Hf, d, t; subst; try discriminate Ht; cbn in *; rewrite ?cnt_app; cbn;
    first [by_meq|lia].
Qed.

Lemma start_counters s s' id R :
  counters_ok s (TryStart id :: R) -> rt_counters s' = rt_counters s ->
  rt_trace s' = rt_trace s ++ [EStarted id] -> counters_ok s' (CountRunning id :: R).
Proof.
  intros Hc Hs Htr. destruct Hc as [Hsub Hcom Hfai Hcan Hrun Hruns]. unfold cntN in *.
  split; unfold cntN; rewrite ?Hs, Htr; cbn in *; rewrite ?cnt_app; cbn; first [by_meq|lia].
Qed.

Lemma lost_publication_counters s s' id from t r d R :
  counters_ok s (PublishCas id from t r d :: R) -> from = JQueued \/ from = JRunning ->
  rt_counters s' = rt_counters s -> rt_trace s' = rt_trace s ->
  runs (PublishCas id from t r d) = false -> counters_ok s' R.
Proof.
  intros Hc Hf Hs Htr Hr. destruct Hc as [Hsub Hcom Hfai Hcan Hrun Hruns]. unfold cntN in *.
  split; unfold cntN; rewrite ?Hs, Htr; destruct Hf; subst; cbn in *; first [done|by_meq|lia].
Qed.

(** A worker's publication finds the job running. *)
Lemma runner_sees_running s a R id j :
  action_id a = Some id -> rt_jobs s !! id = Some j -> view_ok (view s (a :: R) id j) ->
  runs a = true -> job_state j = JRunning.
Proof.
  intros Ha Hj Hv Hr. pose proof (vo_runs _ Hv) as Hs. cbn in Hs. rewrite (about_same _ _ _ Ha), Hr in Hs.
  destruct (job_state j); done.
Qed.

Lemma local_counters o a s new s' R id j :
  action_id a = Some id -> rt_jobs s !! id = Some j -> exec o a s = Some (new, s') -> publication_ok a ->
  view_ok (view s (a :: R) id j) -> counters_ok s (a :: R) -> counters_ok s' (new ++ R).
Proof.
  intros Ha Hj E Hp Hv Hc. pose proof (runner_sees_running s a R id j Ha Hj Hv) as Hrun.
  destruct a; try discriminate Ha; injection Ha as ->; unfold_exec E; rewrite ?Hj in E; cbn [mbind option_bind] in E;
    try (destruct (job_locked j); [done|]); try (injection E as <- <-).
  - case_bool_decide; injection E as <- <-; [by apply (start_counters s)|frame_counters].
  - by apply count_running_ok.
  - destruct (job_check _ _); injection E as <- <-; frame_counters.
  - destruct (job_task j); injection E as <- <-; frame_counters.
  - destruct o as [[out|e]|]; injection E as <- <-; frame_counters.
  - destruct (job_check _ _); injection E as <- <-; frame_counters.
  - destruct Hp as [_ Hp]. case_bool_decide as Hst; injection E as <- <-; destruct Hp; subst from; try frame_counters.
    by destruct (Hst (Hrun eq_refl)).
  - destruct Hp as [-> Hp]. pose proof (terminal_of_terminal r). case_bool_decide as Hst; injection E as <- <-.
    + by apply (publish_counters s _ _ _ _ r).
    + eapply lost_publication_counters; [done|done|done|done|]. destruct Hp; subst from; [done|]. by destruct (Hst (Hrun eq_refl)).
  - by eapply count_terminal_ok.
  - destruct (existsb _ _); frame_counters.
  - frame_counters.
  - frame_counters.
  - frame_counters.
  - case_bool_decide; injection E as <- <-; frame_counters.
  - case_bool_decide; frame_counters.
  - destruct (is_terminal _); frame_counters.
  - destruct (job_output j); frame_counters.
Qed.

(** What the step shows of another job. *)
Lemma local_view a s new s' R id x j :
  action_id a = Some id -> local_step id s s' new -> x <> id -> view s' (new ++ R) x j = view s (a :: R) x j.
Proof.
  intros Ha Hl Hne. destruct (lo_trace _ _ _ _ Hl) as (es & Htr & Hes). apply view_frame.
  - intros f. rewrite cnt_app. cbn. rewrite (about_other f x a) by congruence. rewrite cnt_about_none; [done|].
    eapply Forall_impl; [apply (lo_new _ _ _ _ Hl)|]. intros b Hb. cbn in Hb. congruence.
  - intros f. rewrite Htr, cnt_app, (cnt_tells_none _ _ es); [lia|].
    eapply Forall_impl; [apply Hes|]. intros e [He _]. congruence.
  - by apply (lo_queue _ _ _ _ Hl).
  - by apply (lo_active _ _ _ _ Hl).
Qed.

(** The active map and the owner counts stay in step. *)
Lemma local_owners o a s new s' R id j :
  action_id a = Some id -> rt_jobs s !! id = Some j -> exec o a s = Some (new, s') ->
  view_ok (view s (a :: R) id j) ->
  Forall (fun p => exists j, rt_jobs s !! p.1 = Some j /\ job_owner j = p.2) (rt_active s) ->
  (forall o, owner_jobs o (rt_owners s) = cnt (fun p => p.2 =? o) (rt_active s)) ->
  (forall p, p ∈ rt_active s' -> p ∈ rt_active s) /\
  (forall o, owner_jobs o (rt_owners s') = cnt (fun p => p.2 =? o) (rt_active s')) /\
  (forall o, (owner_jobs o (rt_owners s') <= owner_jobs o (rt_owners s))%nat).
Proof.
  intros Ha Hj E Hv Hact Ho. destruct (local_active _ _ _ _ _ _ _ Ha Hj E) as [[-> ->]|(-> & -> & ->)]; [done|].
  split; [|split].
  - intros p. rewrite list_elem_of_filter. by intros [_ Hp].
  - intros x. rewrite owner_jobs_release, Ho. destruct (untrack_owner id (job_owner j) x (rt_active s)) as [-> _].
    { eapply Forall_impl; [apply Hact|]. intros p (jp & Hjp & <-) <-. congruence. }
    pose proof (vo_live _ Hv) as Hlive. pose proof (vo_dead _ Hv) as Hdead. view_norm.
    destruct (job_owner j =? x); [|lia]. destruct (job_state j); cbn in *; lia.
  - intros x. rewrite owner_jobs_release. lia.
Qed.

(** The invariant survives an action about a job. *)
Lemma local_inv o a s new s' R id :
  action_id a = Some id -> exec o a s = Some (new, s') -> rt_inv s (a :: R) -> rt_inv s' (new ++ R).
Proof.
  intros Ha E Hi. pose proof (exec_local _ _ _ _ _ _ Ha E) as Hl.
  destruct Hi as [Hjob Hout Hacts Hpubs Hq Hact Ht Hf Hn Hlen Ho Hce Hc].
  apply Forall_cons in Hacts as [Hj HR], Hpubs as [Hp HpR].
  destruct (Hj id Ha) as [j Hj']. pose proof (Hjob id j Hj') as Hv.
  destruct (own_view _ _ _ _ _ _ _ _ Ha Hj' E Hp Hv) as (j' & Hs' & Hown & Hv').
  destruct (local_owners _ _ _ _ _ _ _ _ Ha Hj' E Hv Hact Ho) as (Hin & Ho' & Hle).
  destruct (lo_trace _ _ _ _ Hl) as (es & Htr & Hes). rewrite Forall_forall in Hes.
  assert (Hother : forall x, x <> id -> rt_jobs s' !! x = rt_jobs s !! x) by apply (lo_jobs _ _ _ _ Hl).
  assert (Hmono : forall x, is_Some (rt_jobs s !! x) <-> is_Some (rt_jobs s' !! x)).
  { intros x. destruct (decide (x = id)) as [->|Hne]; [|by rewrite Hother]. rewrite Hj', Hs'. by split; eexists. }
  split.
  - intros x jx Hx. destruct (decide (x = id)) as [->|Hne]; [by simplify_eq|].
    rewrite Hother in Hx by done. rewrite (local_view a s new s' R id) by done. by apply Hjob.
  - intros x jx r Hx. destruct (decide (x = id)) as [->|Hne].
    + eapply (own_output _ a s _ _ R id j); eauto.
    + rewrite Hother in Hx by done. by eapply Hout.
  - apply Forall_app. split.
    + eapply Forall_impl; [apply (lo_new _ _ _ _ Hl)|]. intros b Hb x Hx. cbn in Hb. simplify_eq. by eexists.
    + eapply Forall_impl; [apply HR|]. intros b Hb x Hx. by apply Hmono, Hb.
  - apply Forall_app. split; [by eapply exec_publication|done].
  - intros x Hx. by apply Hmono, Hq, (lo_sub _ _ _ _ Hl).
  - rewrite Forall_forall in Hact |- *. intros [x ow] Hx. destruct (Hact _ (Hin _ Hx)) as (jx & Hx' & Hox). cbn in *.
    destruct (decide (x = id)) as [->|Hne]; [exists j'; split; [done|congruence]|]. exists jx. by rewrite Hother.
  - rewrite Htr. apply Forall_app. split.
    + eapply Forall_impl; [apply Ht|]. intros e He x Hx. by apply Hmono, He.
    + apply Forall_forall. intros e He x Hx. destruct (Hes e He) as [He' _]. simplify_eq. by eexists.
  - intros x Hx. rewrite (lo_next _ _ _ _ Hl). by apply Hf, Hmono.
  - rewrite (lo_next _ _ _ _ Hl), Hn, Htr. unfold cntN. rewrite cnt_app.
    rewrite (proj2 (cnt_zero is_submitted es)); [lia|]. intros e He. by apply Hes.
  - pose proof (lo_length _ _ _ _ Hl). lia.
  - done.
  - intros x. specialize (Hce x). specialize (Hle x). lia.
  - by apply (local_counters o a s _ _ R id j).
Qed.

(** ** Preservation: the queue, the shutdown and the calls *)

(** A step about no job in particular: it may take jobs out of the queue and
    put actions about them in the pending ones. *)
Record quiet_step (s s' : Shared) (old new : list Action) : Prop := {
  qs_jobs : rt_jobs s' = rt_jobs s;
  qs_active : rt_active s' = rt_active s;
  qs_owners : rt_owners s' = rt_owners s;
  qs_next : rt_next_job_id s' = rt_next_job_id s;
  qs_queue : forall x, x ∈ rt_queue s' -> x ∈ rt_queue s;
  qs_length : (length (rt_queue s') <= length (rt_queue s))%nat;
  qs_trace : exists es, rt_trace s' = rt_trace s ++ es /\ Forall (fun e => event_id e = None) es;
  qs_submitted : ctr_submitted (rt_counters s') = ctr_submitted (rt_counters s);
  qs_completed : ctr_completed (rt_counters s') = ctr_completed (rt_counters s);
  qs_failed : ctr_failed (rt_counters s') = ctr_failed (rt_counters s);
  qs_cancelled : ctr_cancelled (rt_counters s') = ctr_cancelled (rt_counters s);
  qs_running : ctr_running (rt_counters s') = ctr_running (rt_counters s);
  qs_old : Forall (fun a => action_id a = None) old;
  qs_new : Forall (fun b => publication_ok b /\ runs b = false /\ pending_running b = false /\
                     pending_stop b = false /\ (forall t, pending_terminal t b = false) /\
                     forall id, action_id b = Some id -> is_Some (rt_jobs s !! id)) new;
  qs_view : forall id j R, rt_jobs s !! id = Some j -> view_ok (view s (old ++ R) id j) ->
              view_ok (view s' (new ++ R) id j)
}.

Lemma cnt_old (f : Action -> bool) old :
  Forall (fun a => action_id a = None) old -> (forall a, f a = true -> action_id a <> None) -> cnt f old = 0%nat.
Proof.
  rewrite Forall_forall. intros Ho Hf. apply cnt_zero. intros a Ha. destruct (f a) eqn:E; [|done].
  by destruct (Hf a E), (Ho a Ha).
Qed.

Lemma quiet_counters s s' old new R :
  quiet_step s s' old new -> counters_ok s (old ++ R) -> counters_ok s' (new ++ R).
Proof.
  intros [_ _ _ _ _ _ (es & Htr & Hes) H1 H2 H3 H4 H5 Ho Hn _] Hc.
  assert (forall f : Event -> bool, (forall e, f e = true -> event_id e <> None) -> cnt f es = 0%nat) as Hz.
  { intros f Hf. apply cnt_zero. intros e He. rewrite Forall_forall in Hes. destruct (f e) eqn:E; [|done].
    by destruct (Hf e E), (Hes e He). }
  rewrite Forall_forall in Hn.
  assert (forall f : Action -> bool, (forall b, b ∈ new -> f b = false) -> cnt f new = 0%nat) as Hnew
    by (intros f Hf; by apply cnt_zero).
  destruct Hc as [Hsub Hcom Hfai Hcan Hrun Hruns]. unfold cntN in *. rewrite !cnt_app in *.
  assert (forall t, cnt (pending_terminal t) old = 0%nat) as Hp by (intros t; apply cnt_old; [done|by intros []]).
  assert (cnt pending_running old = 0%nat) as Hp1 by (apply cnt_old; [done|by intros []]).
  assert (cnt pending_stop old = 0%nat) as Hp2 by (apply cnt_old; [done|by intros []]).
  assert (cnt runs old = 0%nat) as Hp3 by (apply cnt_old; [done|by intros []]).
  split; unfold cntN; rewrite Htr, ?H1, ?H2, ?H3, ?H4, ?H5, ?cnt_app;
    rewrite ?Hp, ?Hp1, ?Hp2, ?Hp3 in *; rewrite ?(Hnew (pending_terminal _)), ?(Hnew pending_running),
      ?(Hnew pending_stop), ?(Hnew runs) by (intros b Hb; by apply Hn);
    rewrite ?(Hz (published_as _)), ?(Hz is_started), ?(Hz is_submitted), ?(Hz published_run) by (by intros []);
    cbn; first [by_meq|lia].
Qed.

Lemma quiet_inv s s' old new R : quiet_step s s' old new -> rt_inv s (old ++ R) -> rt_inv s' (new ++ R).
Proof.
  intros Hs Hi. destruct Hi as [Hjob Hout Hacts Hpubs Hq Hact Ht Hf Hn Hlen Ho Hce Hc].
  pose proof (quiet_counters _ _ _ _ _ Hs Hc) as Hc'.
  destruct Hs as [Hsj Hsa Hso Hsn Hsq Hsl (es & Htr & Hes) _ _ _ _ _ _ Hnew Hv].
  apply Forall_app in Hacts as [_ HR], Hpubs as [_ HpR].
  split; rewrite ?Hsj, ?Hsa, ?Hso, ?Hsn; try done.
  - intros id j Hj. by apply Hv, Hjob.
  - apply Forall_app. split; [|done]. eapply Forall_impl; [apply Hnew|]. intros b Hb. apply Hb.
  - apply Forall_app. split; [|done]. eapply Forall_impl; [apply Hnew|]. intros b Hb. apply Hb.
  - intros x Hx. by apply Hq, Hsq.
  - rewrite Htr. apply Forall_app. split; [done|]. eapply Forall_impl; [apply Hes|]. intros e He x Hx. cbn in He. congruence.
  - rewrite Hn, Htr. unfold cntN. rewrite cnt_app, (proj2 (cnt_zero is_submitted es)); [lia|].
    rewrite Forall_forall in Hes. intros e He. specialize (Hes e He). by destruct e.
  - lia.
Qed.

Lemma cnt_about_map (f : Action -> bool) id (g : N -> Action) b ids :
  (forall x, action_id (g x) = Some x) -> (forall x, f (g x) = b) ->
  cnt (about f id) (g <$> ids) = if b then cnt (N.eqb id) ids else 0%nat.
Proof.
  intros Hg Hf. induction ids as [|x ids IH]; [by destruct b|]. cbn. unfold about at 1. rewrite IH, Hg, Hf.
  destruct b; [|done]. cbn. f_equal. destruct (N.eqb_spec id x) as [->|Hne]; [by rewrite bool_decide_eq_true_2|].
  rewrite bool_decide_eq_false_2; [done|congruence].
Qed.

Lemma cnt_about_idle f id l : Forall (fun a => action_id a = None) l -> cnt (about f id) l = 0%nat.
Proof. intros Hl. apply cnt_about_none. eapply Forall_impl; [apply Hl|]. intros a Ha. cbn in Ha. congruence. Qed.

(** Nothing but bookkeeping. *)
Lemma quiet_idle s s' old new :
  rt_jobs s' = rt_jobs s -> rt_active s' = rt_active s -> rt_owners s' = rt_owners s ->
  rt_next_job_id s' = rt_next_job_id s -> rt_queue s' = rt_queue s ->
  (exists es, rt_trace s' = rt_trace s ++ es /\ Forall (fun e => event_id e = None) es) ->
  rt_counters s' = rt_counters s \/ rt_counters s' = add_rejected (rt_counters s) ->
  Forall (fun a => action_id a = None) old -> Forall (fun a => action_id a = None) new -> quiet_step s s' old new.
Proof.
  intros Hj Ha Ho Hn Hq (es & Htr & Hes) Hc Hold Hnew.
  assert (forall f id, cnt (tells f id) es = 0%nat) as Hz.
  { intros f id. apply cnt_tells_none. eapply Forall_impl; [apply Hes|]. intros e He. cbn in He. congruence. }
  split; try done; try (by destruct Hc as [-> | ->]); try (by rewrite Hq).
  - by exists es.
  - eapply Forall_impl; [apply Hnew|]. intros b Hb. cbn in Hb. destruct b; try discriminate Hb; repeat split; done.
  - intros id j R Hid Hv. rewrite (view_frame s s' (old ++ R) (new ++ R)); [done| | | |].
    + intros f. rewrite !cnt_app. by rewrite (cnt_about_idle _ _ old), (cnt_about_idle _ _ new).
    + intros f. rewrite Htr, cnt_app, Hz. lia.
    + by rewrite Hq.
    + by rewrite Ha.
Qed.

(** A client's call: nothing yet, or an action about an existing job. *)
Lemma quiet_call s a : call s a -> quiet_step s s [] [a].
Proof.
  intros Hc. destruct Hc as [owner t|id Hid|id Hid|].
  1,4: apply quiet_idle; try done; [exists []; by rewrite app_nil_r|by left|by repeat constructor].
  all: split; try done; try (by exists []; rewrite app_nil_r).
  all: try (apply Forall_singleton; repeat split; intros x Hx; cbn in Hx; by simplify_eq).
  all: intros x j R Hx Hv; destruct (decide (x = id)) as [->|Hne]; [view_crush|];
    rewrite (view_frame s s R); [done|intros f; cbn; rewrite about_other; cbn; congruence|done|done|done].
Qed.

(** Jobs leave the queue together with the actions that mind them. *)
Lemma quiet_move s s' old tail (g : N -> Action) ids :
  rt_jobs s' = rt_jobs s -> rt_active s' = rt_active s -> rt_owners s' = rt_owners s ->
  rt_next_job_id s' = rt_next_job_id s -> rt_trace s' = rt_trace s -> rt_counters s' = rt_counters s ->
  Forall (fun a => action_id a = None) old -> Forall (fun a => action_id a = None) tail ->
  (forall x, action_id (g x) = Some x) ->
  (forall x, publication_ok (g x) /\ runs (g x) = false /\ pending_running (g x) = false /\
             pending_stop (g x) = false /\ forall t, pending_terminal t (g x) = false) ->
  (forall x, x ∈ ids -> is_Some (rt_jobs s !! x)) ->
  (forall x, x ∈ rt_queue s' -> x ∈ rt_queue s) -> (length (rt_queue s') <= length (rt_queue s))%nat ->
  (forall id j R, rt_jobs s !! id = Some j -> view_ok (view s (old ++ R) id j) ->
     view_ok (view s' (((g <$> ids) ++ tail) ++ R) id j)) ->
  quiet_step s s' old ((g <$> ids) ++ tail).
Proof.
  intros Hj Ha Ho Hn Ht Hc Hold Htail Hg Hg' Hids Hq Hl Hv. split; try done; try (by rewrite Hc).
  - exists []. by rewrite Ht, app_nil_r.
  - apply Forall_app. split.
    + apply Forall_fmap, Forall_forall. intros x Hx. cbn. destruct (Hg' x) as (? & ? & ? & ? & ?). repeat split; try done.
      rewrite Hg. intros y Hy. simplify_eq. by apply Hids.
    + eapply Forall_impl; [apply Htail|]. intros b Hb. cbn in Hb. destruct b; try discriminate Hb; repeat split; done.
Qed.

(** The counts of a moved list, for each question a view asks. *)
Ltac moved_view g t d Hold Htail :=
  unfold view in *; cbn [rt_queue with_queue with_shutdown rt_active rt_trace] in *; rewrite !cnt_app in *;
  rewrite ?(cnt_about_idle _ _ _ Hold) in *; rewrite ?(cnt_about_idle _ _ _ Htail);
  rewrite ?(cnt_about_map tries _ g t), ?(cnt_about_map drops _ g d), ?(cnt_about_map runs _ g false),
    ?(cnt_about_map early _ g false), ?(cnt_about_map holds _ g false), ?(cnt_about_map untracks _ g false),
    ?(cnt_about_map calls_back _ g false), ?(cnt_about_map discards _ g false), ?(cnt_about_map minds _ g true) by done.

Lemma quiet_expire s old tail ids q :
  rt_queue s = ids ++ q -> Forall (fun a => action_id a = None) old -> Forall (fun a => action_id a = None) tail ->
  (forall x, x ∈ rt_queue s -> is_Some (rt_jobs s !! x)) ->
  quiet_step s (with_queue q s) old ((expire <$> ids) ++ tail).
Proof.
  intros Hq Hold Htail Hex. apply quiet_move; try done.
  - intros x. repeat split; try done. by left.
  - intros x Hx. apply Hex. rewrite Hq. set_solver.
  - intros x Hx. cbn in Hx. rewrite Hq. set_solver.
  - cbn. rewrite Hq, length_app. lia.
  - intros id j R Hj Hv. moved_view expire false true Hold Htail. rewrite Hq, cnt_app in Hv. view_crush.
Qed.

Lemma quiet_pop s old tail id q :
  rt_queue s = id :: q -> Forall (fun a => action_id a = None) old -> Forall (fun a => action_id a = None) tail ->
  (forall x, x ∈ rt_queue s -> is_Some (rt_jobs s !! x)) ->
  quiet_step s (with_queue q s) old (TryStart id :: tail).
Proof.
  intros Hq Hold Htail Hex. change (TryStart id :: tail) with ((TryStart <$> [id]) ++ tail). apply quiet_move; try done.
  - intros x Hx. apply Hex. rewrite Hq. set_solver.
  - intros x Hx. cbn in Hx. rewrite Hq. set_solver.
  - cbn. rewrite Hq. cbn. lia.
  - intros x j R Hj Hv. moved_view TryStart true false Hold Htail. rewrite Hq in Hv. destruct (job_state j); view_crush.
Qed.

Lemma cnt_fst id (l : list (N * N)) : cnt (N.eqb id) l.*1 = cnt (fun p => id =? p.1) l.
Proof. induction l as [|p l IH]; [done|]. cbn. by rewrite IH. Qed.

Lemma quiet_shutdown s old tail b p r :
  Forall (fun a => action_id a = None) old -> Forall (fun a => action_id a = None) tail ->
  Forall (fun q => exists j, rt_jobs s !! q.1 = Some j /\ job_owner j = q.2) (rt_active s) ->
  quiet_step s (with_queue [] (with_shutdown b p r s)) old ((CancelFlag <$> (rt_active s).*1) ++ tail).
Proof.
  intros Hold Htail Hact. rewrite Forall_forall in Hact. apply quiet_move; try done.
  - intros x Hx. apply list_elem_of_fmap in Hx as (q & -> & Hq). destruct (Hact q Hq) as (j & Hj & _). by eexists.
  - intros x Hx. cbn in Hx. set_solver.
  - cbn. lia.
  - intros x j R Hj Hv. moved_view CancelFlag false false Hold Htail. rewrite cnt_fst. destruct (job_state j); view_crush.
Qed.

Lemma expired_split now jobs q :
  q = (take_expired_queue_head now jobs q).1 ++ (take_expired_queue_head now jobs q).2.
Proof.
  induction q as [|id q IH]; [done|]. cbn. destruct (jobs !! id) as [j|]; [|done].
  destruct (job_deadline_expired now j); [|done]. destruct (take_expired_queue_head now jobs q) as [e r]. cbn in *. by rewrite IH at 1.
Qed.

(** ** Preservation: the admission of a job *)

(** Nothing mentions an ID that was not given out. *)
Lemma fresh_unmentioned s P id :
  rt_inv s P -> rt_jobs s !! id = None ->
  (forall f, cnt (about f id) P = 0%nat) /\ (forall f, cnt (tells f id) (rt_trace s) = 0%nat) /\
  cnt (N.eqb id) (rt_queue s) = 0%nat /\ cnt (fun p => id =? p.1) (rt_active s) = 0%nat.
Proof.
  intros Hi Hid. assert (Hno : forall x, is_Some (rt_jobs s !! x) -> x <> id) by (intros x [j Hx] ->; congruence).
  split; [|split; [|split]].
  - intros f. apply cnt_about_none. eapply Forall_impl; [apply (ri_actions _ _ Hi)|]. intros a Ha Hx. by destruct (Hno id (Ha _ Hx)).
  - intros f. apply cnt_tells_none. eapply Forall_impl; [apply (ri_trace _ _ Hi)|]. intros e He Hx. by destruct (Hno id (He _ Hx)).
  - apply cnt_zero. intros x Hx. apply N.eqb_neq. intros <-. by destruct (Hno id (ri_queue _ _ Hi id Hx)).
  - apply cnt_zero. intros p Hp. pose proof (ri_active _ _ Hi) as Ha. rewrite Forall_forall in Ha.
    destruct (Ha p Hp) as (j & Hj & _). apply N.eqb_neq. intros ->. by destruct (Hno p.1 ltac:(by eexists)).
Qed.

(** The state after an admission. *)
Definition admitted (owner : N) (deadline : option N) (s : Shared) : Shared :=
  mkShared (<[rt_next_job_id s := mkJob owner JQueued deadline false true None false]> (rt_jobs s))
    (rt_queue s ++ [rt_next_job_id s]) (rt_active s ++ [(rt_next_job_id s, owner)])
    (<[owner := (owner_jobs owner (rt_owners s) + 1)%nat]> (rt_owners s)) (rt_shutting_down s) (rt_phase s)
    (rt_request_complete s) (add_submitted (rt_counters s)) (wadd64 (rt_next_job_id s) 1) (rt_now s)
    (rt_wake s) (rt_trace s ++ [ESubmitted (rt_next_job_id s)]).

Lemma admitted_counters owner deadline s P : counters_ok s P -> counters_ok (admitted owner deadline s) P.
Proof.
  intros [Hsub Hcom Hfai Hcan Hrun Hruns]. unfold cntN in *.
  split; unfold cntN; cbn; rewrite ?cnt_app; cbn; try (first [by_meq|lia]).
  rewrite wadd64_meq. by_meq.
Qed.

Lemma admitted_view owner deadline s P x j :
  rt_inv s P -> rt_jobs s !! rt_next_job_id s = None -> rt_jobs (admitted owner deadline s) !! x = Some j ->
  view_ok (view (admitted owner deadline s) P x j).
Proof.
  intros Hi Hfresh Hx. cbn in Hx. destruct (decide (x = rt_next_job_id s)) as [->|Hne].
  - rewrite lookup_insert_eq in Hx. injection Hx as <-. destruct (fresh_unmentioned s P _ Hi Hfresh) as (H1 & H2 & H3 & H4).
    unfold view. cbn. rewrite !cnt_app, !H1, !H2, H3, H4. cbn. unfold tells. cbn. rewrite N.eqb_refl, !bool_decide_eq_true_2 by done.
    cbn. constructor; cbn; lia.
  - rewrite lookup_insert_ne in Hx by done. rewrite (view_frame s _ P P); [by apply Hi|done| | |].
    + intros f. cbn. rewrite cnt_app. cbn. rewrite tells_other; [cbn; lia|cbn; congruence].
    + cbn. rewrite cnt_app. cbn. rewrite (proj2 (N.eqb_neq x _)) by done. cbn. lia.
    + cbn. rewrite cnt_app. cbn. rewrite (proj2 (N.eqb_neq x _)) by done. cbn. lia.
Qed.

Lemma admitted_inv owner deadline s P :
  rt_inv s P -> (owner_jobs owner (rt_owners s) < rc_max_jobs_per_owner cfg)%nat ->
  (length (rt_queue s) < rc_max_queue cfg)%nat -> 1 + cntN is_submitted (rt_trace s) + 1 < u64_mod ->
  rt_inv (admitted owner deadline s) P.
Proof.
  intros Hi Hown Hq Hb.
  assert (rt_jobs s !! rt_next_job_id s = None) as Hfresh.
  { destruct (rt_jobs s !! rt_next_job_id s) eqn:E; [|done]. pose proof (ri_fresh _ _ Hi _ (mk_is_Some _ _ E)). lia. }
  assert (Hmono : forall x, is_Some (rt_jobs s !! x) -> is_Some (rt_jobs (admitted owner deadline s) !! x)).
  { intros x Hx. cbn. apply lookup_insert_is_Some'. by right. }
  assert (wadd64 (rt_next_job_id s) 1 = rt_next_job_id s + 1) as Hnext.
  { unfold wadd64. rewrite (ri_next _ _ Hi). by apply N.mod_small. }
  pose proof (fun x j => admitted_view owner deadline s P x j Hi Hfresh) as Hview.
  destruct Hi as [Hjob Hout Hacts Hpubs Hqs Hact Ht Hf Hn Hlen Ho Hce Hc].
  split; try done.
  - intros x j r Hx. cbn in Hx. apply lookup_insert_Some in Hx as [[_ <-]|[_ Hx]]; [done|by eapply Hout].
  - eapply Forall_impl; [apply Hacts|]. intros a Ha x Hx. by apply Hmono, Ha.
  - intros x Hx. cbn in Hx. apply elem_of_app in Hx as [Hx|Hx]; [by apply Hmono, Hqs|].
    apply list_elem_of_singleton in Hx as ->. cbn. rewrite lookup_insert_eq. by eexists.
  - cbn. apply Forall_app. split.
    + eapply Forall_impl; [apply Hact|]. intros p (j & Hj & Hj'). exists j. split; [|done]. rewrite lookup_insert_ne; congruence.
    + apply Forall_singleton. cbn. eexists. by rewrite lookup_insert_eq.
  - cbn [rt_trace admitted]. apply Forall_app. split.
    + eapply Forall_impl; [apply Ht|]. intros e He x Hx. by apply Hmono, He.
    + apply Forall_singleton. intros x Hx. cbn in *. simplify_eq. rewrite lookup_insert_eq. by eexists.
  - intros x Hx. cbn. rewrite Hnext. cbn in Hx. apply lookup_insert_is_Some' in Hx as [<-|Hx]; [lia|]. specialize (Hf x Hx). lia.
  - cbn. rewrite Hnext, Hn at 1. unfold cntN. rewrite cnt_app. cbn. lia.
  - cbn. rewrite length_app. cbn. lia.
  - intros o. cbn. rewrite cnt_app, <- Ho. cbn. unfold owner_jobs. destruct (N.eqb_spec owner o) as [->|Hne]; cbn.
    + rewrite lookup_insert_eq. cbn. lia.
    + rewrite lookup_insert_ne by done. lia.
  - intros o. cbn. unfold owner_jobs in *. destruct (decide (owner = o)) as [->|Hne].
    + rewrite lookup_insert_eq. cbn. lia.
    + rewrite lookup_insert_ne by done. apply Hce.
  - by apply admitted_counters.
Qed.

Lemma admit_cases owner at_ timeout_ms s :
  (exists e, admission owner at_ timeout_ms s = ([], record (ERejected e) (with_counters (add_rejected (rt_counters s)) s))) \/
  (rt_shutting_down s = false /\ (owner_jobs owner (rt_owners s) < rc_max_jobs_per_owner cfg)%nat /\
   (length (rt_queue s) < rc_max_queue cfg)%nat /\
   admission owner at_ timeout_ms s = ([NotifyOne], admitted owner (ms ← timeout_ms; checked_add at_ ms) s)).
Proof.
  unfold admission. destruct (rt_shutting_down s); [left; by eexists|].
  destruct (Nat.leb_spec (rc_max_jobs_per_owner cfg) (owner_jobs owner (rt_owners s))); [left; by eexists|].
  destruct (Nat.leb_spec (rc_max_queue cfg) (length (rt_queue s))); [left; by eexists|]. by right.
Qed.

(** ** The invariant of every reachable configuration *)

Definition pending (ths : list Thread) : list Action := concat ths.

Lemma exec_trace o a s new s' : exec o a s = Some (new, s') -> exists es, rt_trace s' = rt_trace s ++ es.
Proof.
  intros E. destruct (action_id a) as [id|] eqn:Ha.
  { destruct (lo_trace _ _ _ _ (exec_local _ _ _ _ _ _ Ha E)) as (es & Hes & _). by exists es. }
  assert (exists es, rt_trace s = rt_trace s ++ es) as Hnil by (exists []; by rewrite app_nil_r).
  destruct a; try discriminate Ha; unfold_exec E.
  - repeat case_match; simplify_eq; done.
  - wake_case E. by simplify_eq.
  - by simplify_eq.
  - destruct (take_expired_queue_head _ _ _) as [[|x e] q]; simplify_eq; [|done].
    destruct (admit_cases owner submitted_at timeout_ms s) as [[e He]|(_ & _ & _ & He)]; rewrite He in E; simplify_eq; by eexists.
  - by simplify_eq.
  - repeat case_match; by simplify_eq.
  - by simplify_eq.
  - by simplify_eq.
  - by simplify_eq.
Qed.

Lemma exec_inv o a s new s' R :
  exec o a s = Some (new, s') -> rt_inv s (a :: R) -> 1 + cntN is_submitted (rt_trace s') < u64_mod ->
  rt_inv s' (new ++ R).
Proof.
  intros E Hi Hb. destruct (action_id a) as [id|] eqn:Ha; [by eapply local_inv|].
  assert (exists es, rt_trace s = rt_trace s ++ es /\ Forall (fun e => event_id e = None) es) as Hnil
    by (exists []; by rewrite app_nil_r).
  assert (Forall (fun b => action_id b = None) [a]) as Hold by (by apply Forall_singleton).
  change (a :: R) with ([a] ++ R) in Hi. pose proof (ri_queue _ _ Hi) as Hq.
  pose proof (expired_split (rt_now s) (rt_jobs s) (rt_queue s)) as Hsplit.
  destruct a; try discriminate Ha; unfold_exec E.
  - destruct (take_expired_queue_head _ _ _) as [[|x e] [|y q]]; cbn in Hsplit; [destruct (rt_shutting_down s)| | |];
      simplify_eq; (eapply quiet_inv; [|exact Hi]).
    + apply quiet_idle; try done; by left.
    + apply quiet_idle; try done; [by left|by apply Forall_singleton].
    + apply quiet_pop; try done; by apply Forall_singleton.
    + apply (quiet_expire s [WorkerLoop] [WorkerLoop] (x :: e)); try done; by apply Forall_singleton.
    + apply (quiet_expire s [WorkerLoop] [WorkerLoop] (x :: e)); try done; by apply Forall_singleton.
  - wake_case E. simplify_eq. eapply quiet_inv; [|exact Hi]. apply quiet_idle; try done; [by left|by apply Forall_singleton].
  - simplify_eq. eapply quiet_inv; [|exact Hi]. apply quiet_idle; try done; [by left|by apply Forall_singleton].
  - destruct (take_expired_queue_head _ _ _) as [[|x e] q]; cbn in Hsplit; simplify_eq.
    + destruct (admit_cases owner submitted_at timeout_ms s) as [[e He]|(_ & Ho & Hl & He)]; rewrite He in *; simplify_eq.
      * eapply quiet_inv; [|exact Hi]. apply quiet_idle; try done; [|by right]. eexists. split; [done|by apply Forall_singleton].
      * apply admitted_inv; [|done|done|].
        { eapply quiet_inv; [|exact Hi]. apply quiet_idle; try done; [by left|by apply Forall_singleton]. }
        cbn in Hb. unfold cntN in *. rewrite cnt_app in Hb. cbn in Hb. lia.
    + eapply quiet_inv; [|exact Hi]. apply (quiet_expire s _ _ (x :: e)); try done; by apply Forall_singleton.
  - simplify_eq. eapply quiet_inv; [|exact Hi]. apply quiet_idle; try done; by left.
  - destruct (rt_phase s); simplify_eq; (eapply quiet_inv; [|exact Hi]); apply quiet_idle; try done; try (by left); by apply Forall_singleton.
  - simplify_eq. eapply (rt_inv_perm _ (((CancelFlag <$> (rt_active s).*1) ++ [PublishShutdown; NotifyAll]) ++ R)).
    { apply Permutation_app_tail. change (NotifyAll :: ?l ++ [PublishShutdown]) with ([NotifyAll] ++ (l ++ [PublishShutdown])).
      rewrite (Permutation_app_comm [NotifyAll]), <- app_assoc. done. }
    eapply quiet_inv; [|exact Hi]. apply quiet_shutdown; [done|by repeat constructor|apply (ri_active _ _ Hi)].
  - simplify_eq. eapply quiet_inv; [|exact Hi]. apply quiet_idle; try done; by left.
  - simplify_eq. eapply quiet_inv; [|exact Hi]. apply quiet_idle; try done; by left.
Qed.

Lemma start_inv : rt_inv Shared_new (pending (rt_start.2)).
Proof.
  assert (Forall (eq WorkerLoop) (pending rt_start.2)) as Hw.
  { cbn. unfold pending. induction (Nat.max (rc_workers cfg) 1) as [|n IH]; [done|]. cbn. by constructor. }
  assert (forall f : Action -> bool, f WorkerLoop = false -> cnt f (pending rt_start.2) = 0%nat) as Hz.
  { intros f Hf. apply cnt_zero. intros a Ha. rewrite Forall_forall in Hw. by rewrite <- (Hw a Ha). }
  split; try done; try (by intros id [j Hj]).
  - eapply Forall_impl; [apply Hw|]. by intros a <-.
  - eapply Forall_impl; [apply Hw|]. by intros a <-.
  - intros id Hid. by apply not_elem_of_nil in Hid.
  - cbn. lia.
  - intros o. unfold owner_jobs. change (rt_owners Shared_new) with (∅ : gmap N nat). rewrite lookup_empty. cbn. lia.
  - split; unfold cntN; rewrite ?Hz by done; done.
Qed.

Lemma step_inv c c' :
  rt_step c c' -> rt_inv c.1 (pending c.2) -> 1 + cntN is_submitted (rt_trace c'.1) < u64_mod ->
  rt_inv c'.1 (pending c'.2).
Proof.
  intros Hs Hi Hb. destruct Hs as [o l1 a rest l2 s new s' E|s a ths Hc|l1 l2 s c Hc|s now ths Hn]; cbn in *; unfold pending in *.
  - assert (Permutation (concat (l1 ++ (a :: rest) :: l2)) (a :: (rest ++ concat l1 ++ concat l2))) as Hp.
    { rewrite concat_app. apply (Permutation_app_swap_app (concat l1) (a :: rest)). }
    assert (Permutation (new ++ (rest ++ concat l1 ++ concat l2)) (concat (l1 ++ (new ++ rest) :: l2))) as Hp'.
    { rewrite concat_app, app_assoc. cbn. apply (Permutation_app_swap_app (new ++ rest) (concat l1)). }
    eapply rt_inv_perm; [exact Hp'|]. eapply exec_inv; [exact E| |done]. by eapply rt_inv_perm.
  - rewrite concat_app. cbn. eapply rt_inv_perm; [apply (Permutation_app_comm [a])|].
    change (concat ths) with ([] ++ concat ths) in Hi. eapply quiet_inv; [by apply quiet_call|exact Hi].
  - rewrite concat_app in *. eapply rt_inv_perm; [apply (Permutation_app_swap_app [WorkerLoop] (concat l1))|].
    eapply quiet_inv; [|eapply rt_inv_perm; [apply (Permutation_app_swap_app (concat l1) [WorkerWait])|exact Hi]].
    apply quiet_idle; try done; [exists []; by rewrite app_nil_r|by left|by apply Forall_singleton|by apply Forall_singleton].
  - change (concat ths) with ([] ++ concat ths). change (concat ths) with ([] ++ concat ths) in Hi.
    eapply quiet_inv; [|exact Hi]. apply quiet_idle; try done; [exists []; by rewrite app_nil_r|by left].
Qed.

Lemma step_trace c c' : rt_step c c' -> exists es, rt_trace c'.1 = rt_trace c.1 ++ es.
Proof.
  intros Hs. destruct Hs as [o l1 a rest l2 s new s' E|s a ths Hc|l1 l2 s c Hc|s now ths Hn]; cbn; [by eapply exec_trace| | |];
    exists []; by rewrite app_nil_r.
Qed.

Lemma reachable_inv c :
  reachable c -> 1 + cntN is_submitted (rt_trace c.1) < u64_mod -> rt_inv c.1 (pending c.2).
Proof.
  unfold reachable. revert c. refine (rtc_ind_r (fun c => _) rt_start _ _); [intros _; apply start_inv|].
  intros c c' Hr Hs IH Hb.
  eapply step_inv; [done| |done]. apply IH. destruct (step_trace _ _ Hs) as [es Hes]. rewrite Hes in Hb.
  unfold cntN in *. rewrite cnt_app in Hb. lia.
Qed.

(** ** The history *)

(** What an event says of its job from then on. *)
Definition event_ok (jobs : gmap N Job) (e : Event) : Prop :=
  match e with
  | EPublished id from t =>
      is_terminal t = true /\ (from = JQueued \/ from = JRunning) /\
      exists j, jobs !! id = Some j /\ job_state j = t
  | ETaken id r => exists j, jobs !! id = Some j /\ job_state j = terminal_of r
  | _ => True
  end.

(** A terminal state is final. *)
Definition settled_jobs (s s' : Shared) : Prop :=
  forall id j, rt_jobs s !! id = Some j -> is_terminal (job_state j) = true ->
  exists j', rt_jobs s' !! id = Some j' /\ job_state j' = job_state j.

Lemma event_ok_settled s s' T :
  settled_jobs s s' -> Forall (event_ok (rt_jobs s)) T -> Forall (event_ok (rt_jobs s')) T.
Proof.
  intros Hs HT. eapply Forall_impl; [apply HT|]. intros e He. destruct e; try done; cbn in *.
  - destruct He as (Ht & Hf & j & Hj & <-). destruct (Hs id j Hj Ht) as (j' & Hj' & Hst). eauto.
  - destruct He as (j & Hj & Hr). destruct (Hs id j Hj) as (j' & Hj' & Hst); [rewrite Hr; apply terminal_of_terminal|].
    exists j'. split; [done|congruence].
Qed.

Lemma local_history o a s new s' R id :
  action_id a = Some id -> exec o a s = Some (new, s') -> rt_inv s (a :: R) ->
  settled_jobs s s' /\ exists es, rt_trace s' = rt_trace s ++ es /\ Forall (event_ok (rt_jobs s')) es.
Proof.
  intros Ha E Hi. pose proof (exec_local _ _ _ _ _ _ Ha E) as Hl.
  pose proof (ri_actions _ _ Hi) as Hj. apply Forall_cons in Hj as [Hj _]. destruct (Hj id Ha) as [j Hj'].
  pose proof (ri_pub _ _ Hi) as Hp. apply Forall_cons in Hp as [Hp _].
  pose proof (fun r => ri_output _ _ Hi id j r Hj') as Hout.
  assert (forall j', rt_jobs s' !! id = Some j' -> (is_terminal (job_state j) = true -> job_state j' = job_state j) ->
          settled_jobs s s') as Hset.
  { intros j' Hs' Hst x jx Hx Ht. destruct (decide (x = id)) as [->|Hne]; [simplify_eq; eauto|].
    exists jx. by rewrite (lo_jobs _ _ _ _ Hl). }
  assert (exists es, rt_trace s = rt_trace s ++ es /\ Forall (event_ok (rt_jobs s')) es) as Hnil
    by (exists []; by rewrite app_nil_r).
  destruct a; try discriminate Ha; injection Ha as ->; unfold_exec E; rewrite ?Hj' in E; cbn [mbind option_bind] in E;
    try (destruct (job_locked j); [done|]); repeat case_match; simplify_eq; cbn in Hnil |- *;
    (split; [eapply Hset; [cbn; first [exact Hj' | apply lookup_insert_eq]|cbn]|]); try done;
    try (eexists; split; [reflexivity|by repeat constructor]).
  1-2,4: intros Ht; match goal with H : bool_decide _ = true |- _ => apply bool_decide_eq_true_1 in H; rewrite H in Ht end;
    first [done | by destruct Hp as [_ [-> | ->]]].
  all: eexists; split; [reflexivity|apply Forall_singleton; cbn]; rewrite ?lookup_insert_eq.
  1-2: destruct Hp as [-> Hp]; split; [apply terminal_of_terminal|split; [done|by eexists]].
  eexists. split; [done|]. by apply Hout.
Qed.

Lemma quiet_history s s' : rt_jobs s' = rt_jobs s -> settled_jobs s s'.
Proof. intros Hj id j Hid _. exists j. by rewrite Hj. Qed.

Lemma exec_history o a s new s' R :
  exec o a s = Some (new, s') -> rt_inv s (a :: R) -> Forall (event_ok (rt_jobs s)) (rt_trace s) ->
  Forall (event_ok (rt_jobs s')) (rt_trace s').
Proof.
  intros E Hi HT. assert (settled_jobs s s' /\ exists es, rt_trace s' = rt_trace s ++ es /\ Forall (event_ok (rt_jobs s')) es) as [Hs (es & -> & Hes)].
  { destruct (action_id a) as [id|] eqn:Ha; [by eapply local_history|].
    assert (exists es, rt_trace s = rt_trace s ++ es /\ Forall (event_ok (rt_jobs s)) es) as Hnil
      by (exists []; by rewrite app_nil_r).
    destruct a; try discriminate Ha; unfold_exec E.
    - repeat case_match; simplify_eq; (split; [by apply quiet_history|done]).
    - wake_case E. simplify_eq. split; [by apply quiet_history|done].
    - simplify_eq. split; [by apply quiet_history|done].
    - destruct (take_expired_queue_head _ _ _) as [[|x e] q]; simplify_eq; [|split; [by apply quiet_history|done]].
      destruct (admit_cases owner submitted_at timeout_ms s) as [[e He]|(_ & _ & _ & He)]; rewrite He in E; simplify_eq.
      + split; [by apply quiet_history|]. eexists. split; [done|by apply Forall_singleton].
      + split; [|eexists; split; [done|by apply Forall_singleton]]. intros id j Hid _. exists j. split; [|done]. cbn.
        rewrite lookup_insert_ne; [done|]. intros <-. pose proof (ri_fresh _ _ Hi _ (mk_is_Some _ _ Hid)). lia.
    - simplify_eq. split; [by apply quiet_history|done].
    - destruct (rt_phase s); simplify_eq; (split; [by apply quiet_history|done]).
    - simplify_eq. split; [by apply quiet_history|done].
    - simplify_eq. split; [by apply quiet_history|done].
    - simplify_eq. split; [by apply quiet_history|done]. }
  apply Forall_app. split; [by eapply event_ok_settled|done].
Qed.

(** ** Threads, workers and counters *)

Definition is_loop (a : Action) : bool := match a with WorkerLoop => true | _ => false end.
Definition is_wait (a : Action) : bool := match a with WorkerWait => true | _ => false end.
Definition is_worker (a : Action) : bool := match a with WorkerLoop | WorkerWait => true | _ => false end.
Definition is_one (a : Action) : bool := match a with NotifyOne => true | _ => false end.
Definition is_all (a : Action) : bool := match a with NotifyAll => true | _ => false end.
Definition is_begin (a : Action) : bool := match a with BeginShutdown => true | _ => false end.

Definition in_range (c : Counters) : Prop :=
  ctr_submitted c < u64_mod /\ ctr_completed c < u64_mod /\ ctr_failed c < u64_mod /\
  ctr_cancelled c < u64_mod /\ ctr_rejected c < u64_mod /\ ctr_running c < u64_mod.

(** The holder of an output lock runs next; the worker loop comes last. *)
Fixpoint loop_last (th : Thread) : Prop :=
  match th with
  | [] => True
  | a :: rest => (is_worker a = true -> rest = []) /\ loop_last rest
  end.
Definition thread_ok (th : Thread) : Prop := Forall (fun a => holds a = false) (tail th) /\ loop_last th.

(** A worker is left, or there is nothing left to do. *)
Definition workers_ok (s : Shared) (P : list Action) : Prop :=
  (0 < cnt is_worker P)%nat \/ (rt_shutting_down s = true /\ rt_queue s = []).
Definition unstarted (s : Shared) : nat := match rt_phase s with NotStarted => 1 | InProgress => 0 end%nat.
Definition shutdowns (s : Shared) (P : list Action) : nat := (cnt is_begin P + unstarted s)%nat.

Ltac exec_cases E :=
  repeat match type of E with context [rt_jobs ?s !! ?id] =>
           destruct (rt_jobs s !! id) eqn:?; cbn [mbind option_bind] in E; [|discriminate E] end;
  try wake_case E; repeat case_match; simplify_eq.

Lemma wadd64_range a b : wadd64 a b < u64_mod.
Proof. apply N.mod_lt. done. Qed.

Lemma wsub64_range a b : wsub64 a b < u64_mod.
Proof. apply N.mod_lt. done. Qed.

#[local] Hint Resolve wadd64_range wsub64_range : core.

Lemma exec_range o a s new s' : exec o a s = Some (new, s') -> in_range (rt_counters s) -> in_range (rt_counters s').
Proof.
  intros E Hr. destruct a; unfold_exec E.
  all: try (exec_cases E; done).
  - (* CountRunning *) simplify_eq. destruct Hr as (? & ? & ? & ? & ? & ?). repeat split; cbn; auto.
  - (* CountTerminal *) simplify_eq. destruct Hr as (? & ? & ? & ? & ? & ?). cbn. unfold count_terminal.
    destruct terminal; case_bool_decide; repeat split; cbn; auto.
  - (* SubmitLock *) destruct (take_expired_queue_head _ _ _) as [[|x e] q]; simplify_eq; [|done].
    destruct Hr as (? & ? & ? & ? & ? & ?).
    destruct (admit_cases owner submitted_at timeout_ms s) as [[e He]|(_ & _ & _ & He)]; rewrite He in E; simplify_eq;
      repeat split; cbn; auto.
Qed.

Lemma loop_last_app l th : cnt is_worker l = 0%nat -> loop_last th -> loop_last (l ++ th).
Proof.
  induction l as [|a l IH]; [done|]. cbn. intros Hl Hth. split; [|apply IH; [lia|done]].
  intros Ha. rewrite Ha in Hl. cbn in Hl. lia.
Qed.

Lemma exec_new o a s new s' :
  exec o a s = Some (new, s') ->
  Forall (fun b => holds b = false) (tail new) /\
  (if is_worker a then loop_last new else cnt is_worker new = 0%nat).
Proof.
  assert (forall ids, Forall (fun b => holds b = false) (expire <$> ids)) as Hh by (intros; by apply Forall_fmap, Forall_true).
  assert (forall ids, cnt is_worker (expire <$> ids) = 0%nat) as Hl by (intros; by apply cnt_map_zero).
  intros E. destruct a; unfold_exec E; cbn [is_worker].
  all: try (exec_cases E; (split; [cbn; repeat constructor|done]); done).
  - exec_cases E; (split; [try (cbn; repeat constructor; done)|try (by repeat split)]); cbn.
    + apply Forall_app. split; [done|by repeat constructor].
    + split; [done|]. apply loop_last_app; [done|]. by split.
  - destruct (take_expired_queue_head _ _ _) as [[|x e] q]; simplify_eq.
    { destruct (admit_cases owner submitted_at timeout_ms s) as [[e He]|(_ & _ & _ & He)]; rewrite He in E; simplify_eq; by split. }
    cbn. split.
    + apply Forall_app. split; [done|by repeat constructor].
    + rewrite cnt_app, Hl. done.
  - simplify_eq. split.
    + cbn. apply Forall_app. split; [|by repeat constructor]. by apply Forall_fmap, Forall_true.
    + cbn. rewrite cnt_app, cnt_map_zero; done.
Qed.

Lemma exec_thread o a s new s' rest :
  exec o a s = Some (new, s') -> thread_ok (a :: rest) -> thread_ok (new ++ rest).
Proof.
  intros E [Hh Hl]. apply exec_new in E as [Hh' Hl']. cbn in Hh, Hl. destruct Hl as [Ha Hl]. split.
  - destruct new as [|b new]; cbn in *; [by destruct rest; [|apply Forall_cons in Hh as [_ Hh]]|]. by apply Forall_app.
  - destruct (is_worker a); [|by apply loop_last_app]. rewrite Ha by done. by rewrite app_nil_r.
Qed.

Lemma exec_workers o a s new s' R :
  exec o a s = Some (new, s') -> workers_ok s (a :: R) -> workers_ok s' (new ++ R).
Proof.
  intros E Hw. unfold workers_ok in *. rewrite cnt_app. destruct (is_worker a) eqn:Ha.
  - destruct a; try discriminate Ha; unfold_exec E; [|exec_cases E; cbn; left; lia].
    pose proof (expired_split (rt_now s) (rt_jobs s) (rt_queue s)) as Hsplit.
    exec_cases E; cbn in *; rewrite ?cnt_app; cbn; try (left; lia). right. by split.
  - cbn in Hw. rewrite Ha in Hw. cbn in Hw. destruct Hw as [Hw|[Hs Hq]]; [left; lia|]. right.
    destruct a; try discriminate Ha; unfold_exec E.
    all: try (rewrite Hq in E; cbn in E; unfold admission in E; rewrite Hs in E).
    all: exec_cases E; cbn; try done. by rewrite Hq.
Qed.

Lemma exec_shutdowns o a s new s' R :
  exec o a s = Some (new, s') -> (shutdowns s' (new ++ R) <= shutdowns s (a :: R))%nat.
Proof.
  assert (forall ids, cnt is_begin (expire <$> ids) = 0%nat) as Hl by (intros; by apply cnt_map_zero).
  intros E. unfold shutdowns. rewrite cnt_app. destruct a; unfold_exec E.
  all: try (exec_cases E; cbn; try rewrite cnt_app, Hl; cbn; unfold unstarted; cbn; simplify_option_eq; lia).
  - destruct (take_expired_queue_head _ _ _) as [[|x e] q]; simplify_eq; [|cbn; rewrite cnt_app, Hl; cbn; unfold unstarted; cbn; lia].
    destruct (admit_cases owner submitted_at timeout_ms s) as [[e He]|(_ & _ & _ & He)]; rewrite He in E; by simplify_eq.
  - destruct (rt_phase s) eqn:Hp; simplify_eq; unfold unstarted; cbn; rewrite ?Hp; lia.
  - simplify_eq. cbn. rewrite cnt_app, cnt_map_zero by done. unfold unstarted. cbn. lia.
Qed.

(** ** The condition variable *)

(** The waiting threads are those that were not notified and those whose
    notification is still there. Nobody sleeps through a shutdown or a queued
    job: there is a notification under way, or a worker that will look at the
    queue before it waits. *)
Record wake_ok (s : Shared) (P : list Action) : Prop := {
  wk_count : (cv_waiting (rt_wake s) + cv_notified (rt_wake s) = cnt is_wait P)%nat;
  wk_shutdown : rt_shutting_down s = true -> (cv_waiting (rt_wake s) = 0 \/ 0 < cnt is_all P)%nat;
  wk_queue : rt_queue s <> [] ->
    (cv_waiting (rt_wake s) = 0 \/ 0 < cv_notified (rt_wake s) + cnt is_loop P + cnt is_one P)%nat
}.

Lemma cnt_local (f : Action -> bool) id new :
  Forall (fun a => action_id a = Some id) new -> (forall a, f a = true -> action_id a = None) -> cnt f new = 0%nat.
Proof.
  rewrite Forall_forall. intros Hn Hf. apply cnt_zero. intros a Ha. destruct (f a) eqn:E; [|done]. apply Hf in E.
  rewrite (Hn a Ha) in E. done.
Qed.

(** An action about a job, and any step that only takes jobs out of the queue. *)
Lemma wake_frame s s' P P' :
  wake_ok s P -> rt_wake s' = rt_wake s -> (rt_shutting_down s' = true -> rt_shutting_down s = true) ->
  (rt_queue s' <> [] -> rt_queue s <> []) -> cnt is_wait P' = cnt is_wait P -> cnt is_all P' = cnt is_all P ->
  (cnt is_loop P + cnt is_one P <= cnt is_loop P' + cnt is_one P')%nat -> wake_ok s' P'.
Proof.
  intros [Hc Hs Hq] Hw Hs' Hq' H1 H2 H3. split; rewrite Hw, ?H1, ?H2; auto. intros Hne. destruct (Hq (Hq' Hne)); [by left|right; lia].
Qed.
Lemma local_wake o a s new s' id :
  action_id a = Some id -> exec o a s = Some (new, s') -> rt_wake s' = rt_wake s /\ rt_shutting_down s' = rt_shutting_down s.
Proof. intros Ha E. destruct a; try discriminate Ha; unfold_exec E; exec_cases E; done. Qed.

Lemma exec_wake o a s new s' R : exec o a s = Some (new, s') -> wake_ok s (a :: R) -> wake_ok s' (new ++ R).
Proof.
  intros E Hw. destruct (action_id a) as [id|] eqn:Ha.
  { destruct (local_wake _ _ _ _ _ _ Ha E) as [Hw' Hs']. pose proof (exec_local _ _ _ _ _ _ Ha E) as Hl.
    pose proof (lo_new _ _ _ _ Hl) as Hn. pose proof (fun f => cnt_local f id new Hn) as Hz.
    apply (wake_frame s s' (a :: R)); [done|done|by rewrite Hs'| | | |].
    - intros Hne Hq. destruct (rt_queue s') as [|x q] eqn:Eq; [done|]. pose proof (lo_sub _ _ _ _ Hl x) as Hx. rewrite Eq, Hq in Hx.
      apply (not_elem_of_nil x), Hx. left.
    - rewrite cnt_app, (Hz is_wait) by (by intros []). cbn. by destruct a.
    - rewrite cnt_app, (Hz is_all) by (by intros []). cbn. by destruct a.
    - cbn. destruct a; try discriminate Ha; rewrite !cnt_app; cbn; lia. }
  pose proof (expired_split (rt_now s) (rt_jobs s) (rt_queue s)) as Hsplit.
  assert (Hx : forall f ids, (forall x, f (expire x) = false) -> cnt f (expire <$> ids) = 0%nat) by (intros; by apply cnt_map_zero).
  destruct a; try discriminate Ha; unfold_exec E.
  - destruct (take_expired_queue_head _ _ _) as [[|x e] [|y q]]; cbn in Hsplit; [destruct (rt_shutting_down s) eqn:Es| | |]; simplify_eq.
    + destruct Hw as [Hc Hs Hq]. split; cbn in *; [lia|auto|]. intros Hne. by rewrite Hsplit in Hne.
    + destruct Hw as [Hc Hs Hq]. split; cbn in *; [lia|congruence|]. intros Hne. by rewrite Hsplit in Hne.
    + apply (wake_frame s _ (WorkerLoop :: R)); try done. by rewrite Hsplit.
    + apply (wake_frame s _ (WorkerLoop :: R)); try done; rewrite ?cnt_app, ?Hx; cbn; rewrite ?cnt_app, ?Hx by done; cbn; try done; lia.
    + apply (wake_frame s _ (WorkerLoop :: R)); try done; rewrite ?cnt_app, ?Hx; cbn; rewrite ?cnt_app, ?Hx by done; cbn; try done; try lia.
      by rewrite Hsplit.
  - unfold cv_wake in E. destruct (cv_notified (rt_wake s)) as [|n] eqn:En; [done|]. cbn [mbind option_bind] in E. simplify_eq.
    destruct Hw as [Hc Hs Hq]. rewrite En in *. split; cbn in *; [lia|done|]. intros _. right. lia.
  - injection E as <- <-. by apply (wake_frame s _ (SubmitNow owner timeout_ms :: R)).
  - destruct (take_expired_queue_head _ _ _) as [[|x e] q]; cbn in Hsplit; simplify_eq.
    + destruct (admit_cases owner submitted_at timeout_ms s) as [[e He]|(Hsd & Ho & Hl & He)]; rewrite He in E; simplify_eq.
      * by apply (wake_frame s _ (SubmitLock owner submitted_at timeout_ms :: R)).
      * destruct Hw as [Hc Hs Hq]. split; cbn in *; [done|congruence|]. intros _. right. lia.
    + apply (wake_frame s _ (SubmitLock owner submitted_at timeout_ms :: R)); try done; rewrite ?cnt_app, ?Hx; cbn; rewrite ?cnt_app, ?Hx by done; cbn; try done; try lia.
      by rewrite Hsplit.
  - simplify_eq. destruct Hw as [Hc Hs Hq]. unfold cv_notify_one. destruct (cv_waiting (rt_wake s)) as [|n] eqn:En; split; cbn in *; rewrite ?En; cbn; try lia; auto.
    intros Hsd. destruct (Hs Hsd) as [|]; [lia|by right].
  - destruct (rt_phase s); injection E as <- <-; by apply (wake_frame s _ (RequestShutdown :: R)).
  - simplify_eq. destruct Hw as [Hc Hs Hq]. split; cbn in *; rewrite ?cnt_app, ?cnt_map_zero by done; cbn; [lia|intros _; right; lia|done].
  - simplify_eq. destruct Hw as [Hc Hs Hq]. split; cbn in *; [lia|by left|by left].
  - simplify_eq. by apply (wake_frame s _ (PublishShutdown :: R)).
Qed.

(** ** Termination *)

(** How much work an action can still cause, without the jobs still queued,
    the cancellations of a shutdown and the notifications not yet taken. *)
Definition cost (a : Action) : nat :=
  match a with
  | WorkerLoop => 1 | WorkerWait => 0
  | TryStart _ => 12 | CountRunning _ => 11 | CheckBefore _ => 10 | TakeTask _ => 9 | RunTask _ => 8
  | CheckAfter _ _ => 7 | PublishLoad _ _ _ _ _ => 6 | PublishCas _ _ _ _ _ => 5
  | CountTerminal _ _ _ | Untrack _ | Callback _ | DiscardTask _ => 1
  | CancelFlag _ => 9 | CancelLook _ => 8 | CancelUnqueue _ => 7
  | TakeLoad _ => 2 | TakeSlot _ => 1
  | SubmitNow _ _ => 28 | SubmitLock _ _ _ => 27 | NotifyOne => 3
  | RequestShutdown => 4 | BeginShutdown => 3 | NotifyAll => 1 | PublishShutdown => 1
  end%nat.
Definition costs (P : list Action) : nat := sum_list (cost <$> P).
(** The workers that a shutdown can still wake. *)
Definition alarms (s : Shared) (P : list Action) : nat := (cnt is_worker P * (shutdowns s P + cnt is_all P))%nat.
Definition rank (s : Shared) (P : list Action) : nat :=
  (costs P + 13 * length (rt_queue s) + 9 * length (rt_active s) * shutdowns s P + 2 * cv_notified (rt_wake s) +
   2 * alarms s P)%nat.

Lemma costs_app P Q : costs (P ++ Q) = (costs P + costs Q)%nat.
Proof. unfold costs. by rewrite fmap_app, sum_list_with_app. Qed.

Lemma costs_map (g : N -> Action) n ids : (forall x, cost (g x) = n) -> costs (g <$> ids) = (n * length ids)%nat.
Proof. intros Hg. induction ids as [|x ids IH]; [cbn; lia|]. unfold costs in *. cbn in *. rewrite Hg, IH. lia. Qed.

Lemma loop_last_one th : loop_last th -> (cnt is_worker th <= 1)%nat.
Proof.
  induction th as [|a th IH]; cbn; [lia|]. intros [Ha Hth]. specialize (IH Hth). destruct (is_worker a); cbn; [|done].
  rewrite Ha by done. cbn. lia.
Qed.
Lemma exec_no_all o a s new s' : exec o a s = Some (new, s') -> is_begin a = false -> cnt is_all new = 0%nat.
Proof.
  assert (Hx : forall ids, cnt is_all (expire <$> ids) = 0%nat) by (intros; by apply cnt_map_zero).
  intros E Hb. destruct a; try discriminate Hb; unfold_exec E.
  all: try (exec_cases E; cbn; rewrite ?cnt_app, ?Hx; done).
  destruct (take_expired_queue_head _ _ _) as [[|x e] q]; simplify_eq; [|cbn; by rewrite cnt_app, Hx].
  destruct (admit_cases owner submitted_at timeout_ms s) as [[e He]|(_ & _ & _ & He)]; rewrite He in E; by simplify_eq.
Qed.
Lemma exec_all o a s new s' R :
  exec o a s = Some (new, s') -> (shutdowns s' (new ++ R) + cnt is_all (new ++ R) <= shutdowns s (a :: R) + cnt is_all (a :: R))%nat.
Proof.
  intros E. destruct (is_begin a) eqn:Hb.
  - destruct a; try discriminate Hb. unfold_exec E. simplify_eq. unfold shutdowns, unstarted. cbn. rewrite !cnt_app, !cnt_map_zero by done.
    cbn. lia.
  - pose proof (exec_shutdowns _ _ _ _ _ R E) as Hs. rewrite (cnt_app is_all), (exec_no_all _ _ _ _ _ E Hb). cbn [cnt]. lia.
Qed.
Lemma exec_alarms o a s new s' R : exec o a s = Some (new, s') -> (alarms s' (new ++ R) <= alarms s (a :: R))%nat.
Proof.
  intros E. unfold alarms. apply Nat.mul_le_mono; [|by eapply exec_all]. apply exec_new in E as [_ Hn]. rewrite cnt_app. cbn.
  destruct (is_worker a); cbn; [apply loop_last_one in Hn|]; lia.
Qed.

Lemma exec_cost o a s new s' R :
  exec o a s = Some (new, s') -> (shutdowns s (a :: R) <= 1)%nat -> a <> NotifyAll ->
  (costs new + 13 * length (rt_queue s') + 9 * length (rt_active s') * shutdowns s' (new ++ R) + 2 * cv_notified (rt_wake s') <
   cost a + 13 * length (rt_queue s) + 9 * length (rt_active s) * shutdowns s (a :: R) + 2 * cv_notified (rt_wake s))%nat.
Proof.
  intros E Hs Hall. pose proof (exec_shutdowns _ _ _ _ _ R E) as Hs'.
  destruct a; try done; unfold_exec E.
  all: try (exec_cases E; cbn in *; nia).
  - pose proof (f_equal length (expired_split (rt_now s) (rt_jobs s) (rt_queue s))) as Hl. rewrite length_app in Hl.
    destruct (take_expired_queue_head _ _ _) as [[|x e] q]; [exec_cases E; cbn in *; nia|]. simplify_eq.
    rewrite costs_app, (costs_map _ 6) by done. cbn in *. nia.
  - unfold cv_wake in E. destruct (cv_notified (rt_wake s)) eqn:En; [done|]. cbn [mbind option_bind] in E. simplify_eq. cbn in *. nia.
  - exec_cases E; cbn in *; [|nia]. pose proof (length_filter (fun p => p.1 <> id) (rt_active s)). nia.
  - exec_cases E; cbn in *; [|nia]. pose proof (length_remove_first id (rt_queue s)). nia.
  - pose proof (f_equal length (expired_split (rt_now s) (rt_jobs s) (rt_queue s))) as Hl. rewrite length_app in Hl.
    destruct (take_expired_queue_head _ _ _) as [[|x e] q]; simplify_eq.
    + destruct (admit_cases owner submitted_at timeout_ms s) as [[e He]|(_ & _ & _ & He)]; rewrite He in *; simplify_eq; cbn in *; [nia|].
      rewrite !length_app. cbn. nia.
    + rewrite costs_app, (costs_map _ 6) by done. cbn in *. nia.
  - simplify_eq. unfold cv_notify_one in *. destruct (cv_waiting (rt_wake s)); cbn in *; nia.
  - simplify_eq. change (costs (NotifyAll :: ?l)) with (1 + costs l)%nat. rewrite costs_app, (costs_map _ 9), length_fmap by done.
    assert (shutdowns (with_queue [] (with_shutdown true (rt_phase s) (rt_request_complete s) s))
              ((NotifyAll :: (CancelFlag <$> (rt_active s).*1) ++ [PublishShutdown]) ++ R) + 1 = shutdowns s (BeginShutdown :: R))%nat as Hd.
    { unfold shutdowns, unstarted. cbn. rewrite !cnt_app, cnt_map_zero by done. cbn. lia. }
    change (costs [PublishShutdown]) with 1%nat. cbn [cost rt_active rt_queue rt_wake with_queue with_shutdown length]. nia.
Qed.

Lemma exec_rank o a s new s' R :
  exec o a s = Some (new, s') -> (shutdowns s (a :: R) <= 1)%nat -> wake_ok s (a :: R) -> (rank s' (new ++ R) < rank s (a :: R))%nat.
Proof.
  intros E Hs Hw. unfold rank. rewrite costs_app. change (costs (a :: R)) with (cost a + costs R)%nat.
  destruct (is_all a) eqn:Ea.
  - destruct a; try discriminate Ea. unfold_exec E. simplify_eq. pose proof (wk_count _ _ Hw) as Hc.
    pose proof (cnt_le is_wait is_worker R ltac:(by intros [])) as Hle. unfold alarms, shutdowns, unstarted in *. cbn in *. nia.
  - pose proof (exec_cost _ _ _ _ _ R E Hs ltac:(by intros ->)). pose proof (exec_alarms _ _ _ _ _ R E). lia.
Qed.

(** ** Runs *)

(** The invariants that hold for any number of submissions. *)
Record shape_inv (c : Conf) : Prop := {
  si_range : in_range (rt_counters c.1);
  si_threads : Forall thread_ok c.2;
  si_workers : workers_ok c.1 (pending c.2);
  si_shutdowns : (shutdowns c.1 (pending c.2) <= 1)%nat;
  si_wake : wake_ok c.1 (pending c.2)
}.

Lemma costs_perm P Q : Permutation P Q -> costs P = costs Q.
Proof. unfold costs. induction 1; cbn in *; lia. Qed.

#[local] Instance shutdowns_perm s : Proper (Permutation ==> eq) (shutdowns s).
Proof. intros P Q H. unfold shutdowns. by rewrite (cnt_perm _ _ _ H). Qed.
#[local] Instance workers_perm s : Proper (Permutation ==> iff) (workers_ok s).
Proof. intros P Q H. unfold workers_ok. by rewrite (cnt_perm _ _ _ H). Qed.
#[local] Instance rank_perm s : Proper (Permutation ==> eq) (rank s).
Proof. intros P Q H. unfold rank, alarms. by rewrite (costs_perm _ _ H), (shutdowns_perm s _ _ H), !(cnt_perm _ _ _ H). Qed.
#[local] Instance wake_perm s : Proper (Permutation ==> iff) (wake_ok s).
Proof.
  assert (forall P Q, Permutation P Q -> wake_ok s P -> wake_ok s Q) as Hw.
  { intros P Q H [Hc Hs Hq]. split; by rewrite <- !(cnt_perm _ _ _ H). }
  intros P Q H. split; by apply Hw.
Qed.

Lemma pending_mid l1 (th : Thread) l2 : Permutation (pending (l1 ++ th :: l2)) (th ++ pending l1 ++ pending l2).
Proof. unfold pending. rewrite concat_app. apply (Permutation_app_swap_app (concat l1) th). Qed.

Lemma pending_step l1 new (rest : Thread) l2 :
  Permutation (pending (l1 ++ (new ++ rest) :: l2)) (new ++ (rest ++ pending l1 ++ pending l2)).
Proof. by rewrite pending_mid, <- app_assoc. Qed.

(** The steps of the threads that are already there. *)
Inductive act_step : Conf -> Conf -> Prop :=
| act_step_intro outcome l1 a rest l2 s new s' :
    exec outcome a s = Some (new, s') -> act_step (s, l1 ++ (a :: rest) :: l2) (s', l1 ++ (new ++ rest) :: l2).

Lemma act_step_rt c c' : act_step c c' -> rt_step c c'.
Proof. intros []. by econstructor. Qed.

Lemma act_shape c c' : act_step c c' -> shape_inv c -> shape_inv c'.
Proof.
  intros [o l1 a rest l2 s new s' E] [Hr Ht Hw Hs Hwk]. cbn [fst snd] in *.
  rewrite pending_mid in Hw, Hs, Hwk. cbn [app] in Hw, Hs, Hwk. split; cbn [fst snd].
  - by eapply exec_range.
  - apply Forall_app in Ht as [H1 H2]. apply Forall_cons in H2 as [Ha H2]. apply Forall_app. split; [done|].
    apply Forall_cons. split; [by eapply exec_thread|done].
  - rewrite pending_step. by eapply exec_workers.
  - rewrite pending_step. pose proof (exec_shutdowns _ _ _ _ _ (rest ++ pending l1 ++ pending l2) E). lia.
  - rewrite pending_step. by eapply exec_wake.
Qed.

Lemma act_rank c c' : act_step c c' -> shape_inv c -> (rank c'.1 (pending c'.2) < rank c.1 (pending c.2))%nat.
Proof.
  intros [o l1 a rest l2 s new s' E] [_ _ _ Hs Hw]. cbn [fst snd] in *. rewrite pending_step, pending_mid.
  rewrite pending_mid in Hs, Hw. by eapply exec_rank.
Qed.

Lemma act_bounded k c c' : nsteps act_step k c c' -> shape_inv c -> (k <= rank c.1 (pending c.2))%nat /\ shape_inv c'.
Proof.
  induction 1 as [c|k c d c' Hs Hn IH]; intros Hc; [by split; [lia|]|].
  pose proof (act_rank _ _ Hs Hc). destruct (IH (act_shape _ _ Hs Hc)) as [Hk Hc']. split; [lia|done].
Qed.

Lemma step_shape c c' : rt_step c c' -> shape_inv c -> shape_inv c'.
Proof.
  intros Hs Hc. inversion Hs as [o l1 a rest l2 s new s' E|s a ths Ha|l1 l2 s w Hsp|s now ths Hn]; subst.
  - eapply act_shape; [|exact Hc]. by econstructor.
  - destruct Hc as [Hr Ht Hw Hsh Hwk]. cbn [fst snd] in *.
    assert (Permutation (pending (ths ++ [[a]])) (a :: pending ths)) as Hp by (by rewrite (pending_mid ths [a] []), app_nil_r).
    split; cbn [fst snd]; [done| |rewrite Hp|rewrite Hp|rewrite Hp].
    + apply Forall_app. split; [done|]. apply Forall_singleton. split; [constructor|]. by destruct Ha.
    + unfold workers_ok in *. cbn. destruct Hw as [Hw|Hw]; [left; lia|by right].
    + unfold shutdowns in *. by destruct Ha.
    + apply (wake_frame s s (pending ths)); try done; destruct Ha; done.
  - destruct Hc as [Hr Ht Hw Hsh Hwk]. cbn [fst snd] in *. rewrite pending_mid in Hw, Hsh, Hwk.
    split; cbn [fst snd]; [done| |rewrite pending_mid; cbn; done|rewrite pending_mid; cbn; done|rewrite pending_mid].
    + apply Forall_app in Ht as [H1 H2]. apply Forall_cons in H2 as [_ H2]. apply Forall_app. split; [done|].
      apply Forall_cons. split; [|done]. split; [constructor|by split].
    + unfold cv_spurious in Hsp. destruct (cv_waiting (rt_wake s)) as [|n] eqn:En; [done|]. injection Hsp as <-.
      destruct Hwk as [Hc Hsd Hq]. rewrite En in *. split; cbn in *; [lia| |].
      * intros Hs'. destruct (Hsd Hs') as [|]; [lia|by right].
      * intros _. right. lia.
  - destruct Hc as [Hr Ht Hw Hsh Hwk]. by split; [| | | |apply (wake_frame s _ (pending ths))].
Qed.

Lemma start_shape : shape_inv rt_start.
Proof.
  assert (exists n, Nat.max (rc_workers cfg) 1 = S n) as [n Hn] by (exists (Nat.max (rc_workers cfg) 1 - 1)%nat; lia).
  split; unfold rt_start; rewrite Hn; cbn [fst snd].
  - repeat split; done.
  - apply Forall_replicate. split; [constructor|by split].
  - left. cbn. lia.
  - unfold shutdowns, pending. rewrite (proj2 (cnt_zero is_begin _)); [done|].
    intros a Ha. apply list_elem_of_In, in_concat in Ha as (th & Hth & Ha). apply list_elem_of_In, elem_of_replicate in Hth as [-> _].
    by destruct Ha as [<-|[]].
  - assert (forall f : Action -> bool, f WorkerLoop = false -> cnt f (pending (replicate (S n) [WorkerLoop])) = 0%nat) as Hz.
    { intros f Hf. apply cnt_zero. intros a Ha. unfold pending in Ha. apply list_elem_of_In, in_concat in Ha as (th & Hth & Ha).
      apply list_elem_of_In, elem_of_replicate in Hth as [-> _]. by destruct Ha as [<-|[]]. }
    split; rewrite ?Hz by done; cbn; [done|done|by left].
Qed.

Lemma reachable_shape c : reachable c -> shape_inv c.
Proof.
  unfold reachable. revert c. refine (rtc_ind_r (fun c => _) rt_start _ _); [apply start_shape|].
  intros c c' _ Hs IH. by eapply step_shape.
Qed.

(** The history of every reachable configuration. *)
Lemma reachable_history c :
  reachable c -> 1 + cntN is_submitted (rt_trace c.1) < u64_mod -> Forall (event_ok (rt_jobs c.1)) (rt_trace c.1).
Proof.
  intros Hr. assert (reachable c /\ (1 + cntN is_submitted (rt_trace c.1) < u64_mod -> Forall (event_ok (rt_jobs c.1)) (rt_trace c.1))) as [_ H];
    [|done].
  revert c Hr. unfold reachable. refine (rtc_ind_r (fun c => _) rt_start _ _); [by split|].
  intros c c' Hrc Hs [_ IH]. split; [by eapply rtc_r|]. intros Hb.
  assert (1 + cntN is_submitted (rt_trace c.1) < u64_mod) as Hb'.
  { destruct (step_trace _ _ Hs) as [es Hes]. rewrite Hes in Hb. unfold cntN in *. rewrite cnt_app in Hb. lia. }
  pose proof (reachable_inv c Hrc Hb') as Hi. specialize (IH Hb').
  destruct Hs as [o l1 a rest l2 s new s' E|s a ths Ha|l1 l2 s w Hsp|s now ths Hn]; cbn in *; [|done..].
  eapply exec_history; [exact E| |done]. eapply rt_inv_perm; [apply (pending_mid l1 (a :: rest) l2)|done].
Qed.

(** ** What the runtime guarantees *)

(** Only a worker without a notification and a job whose output lock is held
    can wait. *)
Lemma exec_enabled o a s :
  (forall id, action_id a = Some id -> is_Some (rt_jobs s !! id)) -> exec o a s = None ->
  (a = WorkerWait /\ cv_notified (rt_wake s) = 0%nat) \/
  (exists id j, action_id a = Some id /\ holds a = false /\ rt_jobs s !! id = Some j /\ job_locked j = true).
Proof.
  intros Hex E.
  destruct a; unfold_exec E; try (destruct (Hex id eq_refl) as [j Hj]; rewrite Hj in E; cbn [mbind option_bind] in E).
  2: { left. split; [done|]. unfold cv_wake in E. by destruct (cv_notified (rt_wake s)). }
  all: repeat case_match; simplify_eq; cbn in *; right; eexists _, _; done.
Qed.

Definition idle (c : Conf) : Prop := forall c', ~ act_step c c'.

Lemma idle_blocked c : idle c -> forall th a rest, th ∈ c.2 -> th = a :: rest -> forall o, exec o a c.1 = None.
Proof.
  destruct c as [s ths]. intros Hidle th a rest Hth -> o. cbn in *. destruct (exec o a s) as [[new s']|] eqn:E; [|done].
  apply list_elem_of_split in Hth as (l1 & l2 & ->). destruct (Hidle (s', l1 ++ (new ++ rest) :: l2)). by econstructor.
Qed.

Lemma pending_elem a ths : a ∈ pending ths <-> exists th, th ∈ ths /\ a ∈ th.
Proof.
  unfold pending. rewrite list_elem_of_In, in_concat. split; intros (th & H1 & H2); exists th; by rewrite ?list_elem_of_In in *.
Qed.

(** When no thread can move, only idle workers are left. *)
Lemma idle_pending c :
  idle c -> shape_inv c -> rt_inv c.1 (pending c.2) ->
  rt_queue c.1 = [] /\ Forall (fun a => a = WorkerWait) (pending c.2) /\ (rt_shutting_down c.1 = true -> pending c.2 = []).
Proof.
  intros Hidle Hsh Hi. pose proof (idle_blocked c Hidle) as Hb. pose proof (ri_actions _ _ Hi) as Hex.
  rewrite Forall_forall in Hex. destruct Hsh as [_ Hth Hw _ Hwk]. rewrite Forall_forall in Hth.
  assert (Hhold : forall a, a ∈ pending c.2 -> holds a = false).
  { intros a Ha. destruct (holds a) eqn:Hh; [|done]. pose proof (Hex a Ha) as Hea.
    apply pending_elem in Ha as (th & Hin & Ha). destruct (Hth th Hin) as [Htl _].
    destruct th as [|b rest]; [by apply not_elem_of_nil in Ha|]. apply elem_of_cons in Ha as [->|Ha].
    - specialize (Hb _ _ _ Hin eq_refl None). apply exec_enabled in Hb as [[-> _]|(id & j & _ & Hf & _)]; [done|congruence|done].
    - cbn in Htl. rewrite Forall_forall in Htl. by rewrite (Htl a Ha) in Hh. }
  assert (Hlock : forall id j, rt_jobs c.1 !! id = Some j -> job_locked j = false).
  { intros id j Hj. pose proof (vo_lock _ (ri_job _ _ Hi id j Hj)) as Hl. cbn in Hl.
    rewrite (proj2 (cnt_zero _ _)) in Hl; [by destruct (job_locked j)|]. intros a Ha. unfold about. by rewrite Hhold. }
  assert (Hwait : forall a, a ∈ pending c.2 -> a = WorkerWait /\ cv_notified (rt_wake c.1) = 0%nat).
  { intros a Ha. pose proof (Hex a Ha) as Hea. apply pending_elem in Ha as (th & Hin & Ha).
    destruct th as [|b rest]; [by apply not_elem_of_nil in Ha|]. pose proof (Hb _ _ _ Hin eq_refl None) as Hbl.
    destruct (Hth _ Hin) as [_ [Hl _]]. apply exec_enabled in Hbl as [[-> Hn]|(id & j & _ & _ & Hj & Hlk)].
    - rewrite Hl in Ha by done. by apply list_elem_of_singleton in Ha as ->.
    - by rewrite (Hlock id j Hj) in Hlk.
    - apply Hex. apply pending_elem. exists (b :: rest). split; [done|left]. }
  assert (Hz : forall f : Action -> bool, f WorkerWait = false -> cnt f (pending c.2) = 0%nat).
  { intros f Hf. apply cnt_zero. intros a Ha. by destruct (Hwait a Ha) as [-> _]. }
  assert (Hsome : pending c.2 <> [] -> (0 < cv_waiting (rt_wake c.1))%nat /\ cv_notified (rt_wake c.1) = 0%nat).
  { pose proof (wk_count _ _ Hwk) as Hc. intros Hne. destruct (pending c.2) as [|a P]; [done|].
    destruct (Hwait a ltac:(left)) as [-> Hn]. cbn in Hc. lia. }
  split; [|split].
  - destruct (decide (pending c.2 = [])) as [He|Hne]; [destruct Hw as [Hw|[_ Hq]]; [rewrite He in Hw; cbn in Hw; lia|done]|].
    destruct (Hsome Hne) as [Hp Hn]. destruct (decide (rt_queue c.1 = [])) as [|Hq]; [done|].
    destruct (wk_queue _ _ Hwk Hq) as [|Hx]; [lia|]. rewrite !Hz in Hx by done. lia.
  - apply Forall_forall. intros a Ha. by apply Hwait.
  - intros Hs. destruct (decide (pending c.2 = [])) as [|Hne]; [done|]. destruct (Hsome Hne) as [Hp _].
    destruct (wk_shutdown _ _ Hwk Hs) as [|Hx]; [lia|]. rewrite Hz in Hx by done. lia.
Qed.

(** Two kinds of events that happen equally often to every job happen equally
    often. *)
Definition event_ids (f : Event -> bool) (T : list Event) : gmultiset N :=
  list_to_set_disj (omap (fun e => if f e then event_id e else None) T).

Lemma event_ids_cons f e T :
  event_ids f (e :: T) = match (if f e then event_id e else None) with
                         | Some x => {[+ x +]} ⊎ event_ids f T
                         | None => event_ids f T
                         end.
Proof. unfold event_ids. simpl. by destruct (if f e then event_id e else None). Qed.

Lemma multiplicity_event_ids f id T : multiplicity id (event_ids f T) = cnt (tells f id) T.
Proof.
  induction T as [|e T IH]; [apply multiplicity_empty|]. rewrite event_ids_cons. cbn [cnt]. unfold tells at 1.
  destruct (f e) eqn:Ef; cbn [andb]; [|by rewrite IH]. destruct (event_id e) as [x|] eqn:Ex; [|by rewrite IH].
  rewrite multiplicity_disj_union, multiplicity_singleton, IH. case_decide as Hx.
  - subst x. by rewrite bool_decide_eq_true_2.
  - rewrite bool_decide_eq_false_2; [done|congruence].
Qed.

Lemma size_event_ids f T : (forall e, f e = true -> event_id e <> None) -> size (event_ids f T) = cnt f T.
Proof.
  intros Hf. induction T as [|e T IH]; [done|]. rewrite event_ids_cons. cbn [cnt]. specialize (Hf e).
  destruct (f e); [|by rewrite IH]. destruct (event_id e) as [x|]; [|by destruct Hf].
  by rewrite gmultiset_size_disj_union, gmultiset_size_singleton, IH.
Qed.

Lemma events_balance f g T :
  (forall e, f e = true -> event_id e <> None) -> (forall e, g e = true -> event_id e <> None) ->
  (forall id, cnt (tells f id) T = cnt (tells g id) T) -> cnt f T = cnt g T.
Proof.
  intros Hf Hg Hid. rewrite <- (size_event_ids f T Hf), <- (size_event_ids g T Hg). f_equal.
  apply gmultiset_eq. intros id. by rewrite !multiplicity_event_ids.
Qed.

Lemma published_kinds T :
  Forall (fun e => match e with EPublished _ _ t => is_terminal t = true | _ => True end) T ->
  cnt is_published T = (cnt (published_as JCompleted) T + cnt (published_as JFailed) T + cnt (published_as JCancelled) T)%nat.
Proof. induction 1 as [|e T He HT IH]; [done|]. cbn. rewrite IH. destruct e; cbn; try lia. destruct terminal; cbn in *; try done; lia. Qed.

Lemma meq_small a b : meq a b -> a < u64_mod -> b < u64_mod -> a = b.
Proof. unfold meq. intros H Ha Hb. by rewrite !N.mod_small in H. Qed.

(** How often something happened to a job. *)
Definition past (f : Event -> bool) (id : N) (s : Shared) : nat := cnt (tells f id) (rt_trace s).

(** Nothing is left to do: every job is finished, its callback was called, its
    slot is free again and the counters add up. *)
Record drained (c : Conf) : Prop := {
  dr_queue : rt_queue c.1 = [];
  dr_pending : Forall (fun a => a = WorkerWait) (pending c.2);
  dr_shutdown : rt_shutting_down c.1 = true -> pending c.2 = [];
  dr_jobs : forall id j, rt_jobs c.1 !! id = Some j ->
              is_terminal (job_state j) = true /\ past is_published id c.1 = 1%nat /\ past is_callback id c.1 = 1%nat;
  dr_active : rt_active c.1 = [];
  dr_owners : forall o, owner_jobs o (rt_owners c.1) = 0%nat;
  dr_counters : ctr_submitted (rt_counters c.1)
                = ctr_completed (rt_counters c.1) + ctr_failed (rt_counters c.1) + ctr_cancelled (rt_counters c.1);
  dr_running : ctr_running (rt_counters c.1) = 0
}.

Lemma idle_job c id j :
  rt_inv c.1 (pending c.2) -> rt_queue c.1 = [] -> Forall (fun a => a = WorkerWait) (pending c.2) ->
  rt_jobs c.1 !! id = Some j ->
  is_terminal (job_state j) = true /\ past is_published id c.1 = 1%nat /\ past is_callback id c.1 = 1%nat /\
  cnt (fun p => id =? p.1) (rt_active c.1) = 0%nat.
Proof.
  intros Hi Hq Hp Hj. pose proof (ri_job _ _ Hi id j Hj) as Hv.
  assert (forall f, f WorkerWait = false -> cnt (about f id) (pending c.2) = 0%nat) as Hz.
  { intros f Hf. apply cnt_zero. intros a Ha. rewrite Forall_forall in Hp. unfold about. by rewrite (Hp a Ha), Hf. }
  destruct Hv as [_ _ _ _ Hm Hr Hl Hd _ _ _ _ _ _]. unfold view in *. cbn -[cnt pending] in *. rewrite Hq, !Hz in * by done.
  unfold past. destruct (job_state j); cbn in *; try lia; (split; [done|]); lia.
Qed.

Lemma idle_drained c :
  idle c -> shape_inv c -> rt_inv c.1 (pending c.2) -> Forall (event_ok (rt_jobs c.1)) (rt_trace c.1) ->
  1 + cntN is_submitted (rt_trace c.1) < u64_mod -> drained c.
Proof.
  intros Hidle Hsh Hi Hh Hb. destruct (idle_pending c Hidle Hsh Hi) as (Hq & Hp & Hsd).
  pose proof (fun id j => idle_job c id j Hi Hq Hp) as Hjobs.
  assert (rt_active c.1 = []) as Hact.
  { destruct (rt_active c.1) as [|[id o] l] eqn:El; [done|]. pose proof (ri_active _ _ Hi) as Ha. rewrite El in Ha.
    apply Forall_cons in Ha as [(j & Hj & _) _]. destruct (Hjobs id j Hj) as (_ & _ & _ & Hc). cbn in Hc. rewrite N.eqb_refl in Hc. done. }
  assert (forall f, f WorkerWait = false -> cnt f (pending c.2) = 0%nat) as Hz.
  { intros f Hf. apply cnt_zero. intros a Ha. rewrite Forall_forall in Hp. by rewrite (Hp a Ha). }
  assert (cnt is_submitted (rt_trace c.1) = cnt is_published (rt_trace c.1)) as Hbal.
  { apply events_balance; [by intros []|by intros []|]. intros id. destruct (rt_jobs c.1 !! id) as [j|] eqn:Hj.
    - destruct (Hjobs id j Hj) as (_ & Hpub & _). unfold past in Hpub. rewrite Hpub. apply (vo_submitted _ (ri_job _ _ Hi id j Hj)).
    - destruct (fresh_unmentioned _ _ id Hi Hj) as (_ & Ht & _). by rewrite !Ht. }
  rewrite published_kinds in Hbal by (eapply Forall_impl; [apply Hh|]; intros e He; destruct e; by cbn in *; try apply He).
  destruct (si_range _ Hsh) as (R1 & R2 & R3 & R4 & _ & R6). destruct (ri_counters _ _ Hi) as [C1 C2 C3 C4 C5 C6].
  unfold cntN in *. rewrite !Hz in * by done. rewrite ?N.add_0_r in *.
  split; try done.
  - intros id j Hj. destruct (Hjobs id j Hj) as (? & ? & ? & _). done.
  - intros o. by rewrite (ri_owners _ _ Hi), Hact.
  - apply meq_small in C1, C2, C3, C4; try (done || lia).
  - apply meq_small; [|done|done].
    apply (meq_cancel _ _ (N.of_nat (cnt published_run (rt_trace c.1)))). rewrite C5. by rewrite <- C6.
Qed.

(** ** Schedules: runs that can be computed *)

Inductive Move : Type :=
| Run (thread : nat) (outcome : option JobResult)
| Call (a : Action)
| Spurious (thread : nat)
| Tick (now : N).

Definition can_call (s : Shared) (a : Action) : bool :=
  match a with
  | SubmitNow _ _ | RequestShutdown => true
  | CancelFlag id | TakeLoad id => bool_decide (is_Some (rt_jobs s !! id))
  | _ => false
  end.

Definition move (m : Move) (c : Conf) : option Conf :=
  let '(s, ths) := c in
  match m with
  | Run i outcome =>
      match ths !! i with
      | Some (a :: rest) =>
          '(new, s') ← exec outcome a s;
          Some (s', take i ths ++ (new ++ rest) :: drop (S i) ths)
      | _ => None
      end
  | Call a => if can_call s a then Some (s, ths ++ [[a]]) else None
  | Spurious i =>
      match ths !! i with
      | Some [WorkerWait] =>
          c ← cv_spurious (rt_wake s);
          Some (with_wake c s, take i ths ++ [WorkerLoop] :: drop (S i) ths)
      | _ => None
      end
  | Tick now => if rt_now s <=? now then Some (with_now now s, ths) else None
  end.

Fixpoint play (ms : list Move) (c : Conf) : option Conf :=
  match ms with
  | [] => Some c
  | m :: ms => c' ← move m c; play ms c'
  end.

Lemma move_step m c c' : move m c = Some c' -> rt_step c c'.
Proof.
  destruct c as [s ths]. destruct m as [i o|a|i|now]; cbn; intros E.
  - destruct (ths !! i) as [[|a rest]|] eqn:Hi; [done| |done]. destruct (exec o a s) as [[new s']|] eqn:Ex; [|done].
    injection E as <-. rewrite <- (take_drop_middle ths i (a :: rest) Hi) at 1. by econstructor.
  - destruct (can_call s a) eqn:Hc; [|done]. injection E as <-. constructor.
    destruct a; try discriminate Hc; constructor; by apply bool_decide_eq_true_1 in Hc.
  - destruct (ths !! i) as [[|[] [|]]|] eqn:Hi; try done. destruct (cv_spurious (rt_wake s)) as [w|] eqn:Ex; [|done].
    injection E as <-. rewrite <- (take_drop_middle ths i [WorkerWait] Hi) at 1. by apply step_spurious.
  - destruct (N.leb_spec (rt_now s) now); [|done]. injection E as <-. by constructor.
Qed.

Lemma play_reachable ms c c' : reachable c -> play ms c = Some c' -> reachable c'.
Proof.
  revert c. induction ms as [|m ms IH]; cbn; intros c Hr E; [by injection E as <-|].
  destruct (move m c) as [d|] eqn:Em; [|done]. eapply IH; [|exact E]. eapply rtc_r; [exact Hr|by eapply move_step].
Qed.

Lemma workers_idle s ths :
  Forall (fun th => th = [] \/ th = [WorkerWait]) ths -> exec None WorkerWait s = None -> idle (s, ths).
Proof.
  intros Hth Hex c' Hs. inversion Hs as [o l1 a rest l2 s0 new s' E Hc]; subst. apply Forall_app in Hth as [_ Hth].
  apply Forall_cons in Hth as [[Ha|Ha] _]; [done|]. injection Ha as -> ->. change (exec None WorkerWait s = Some (new, s')) in E. by rewrite Hex in E.
Qed.

(** Fewer submissions than the 64-bit job IDs can name. *)
Definition ids_left (c : Conf) : Prop := 1 + cntN is_submitted (rt_trace c.1) < u64_mod.

(** C3. The life of a job, in every interleaving of the workers with any
    clients: it is submitted once; it is started, and its task is run, at most
    once; it has one terminal transition exactly when its state is terminal,
    and the state is then the one that was published; its completion callback
    is called and its result is taken at most once, and never before the
    transition; a result that was taken, or still waits in the slot, is the
    result of that state ([Ok] for [Completed], a cancellation for [Cancelled],
    any other error for [Failed]). *)
Theorem job_published_once c id j :
  reachable c -> ids_left c -> rt_jobs c.1 !! id = Some j ->
  past is_submitted id c.1 = 1%nat /\
  (past is_run id c.1 <= past is_started id c.1 <= 1)%nat /\
  past is_published id c.1 = Nat.b2n (is_terminal (job_state j)) /\
  (past is_callback id c.1 <= past is_published id c.1)%nat /\
  (past is_taken id c.1 <= past is_published id c.1)%nat /\
  (forall from t, EPublished id from t ∈ rt_trace c.1 -> job_state j = t) /\
  (forall r, ETaken id r ∈ rt_trace c.1 \/ job_output j = Some r -> job_state j = terminal_of r).
Proof.
  intros Hr Hb Hj. pose proof (reachable_inv c Hr Hb) as Hi. pose proof (reachable_history c Hr Hb) as Hh.
  rewrite Forall_forall in Hh. destruct (ri_job _ _ Hi id j Hj) as [_ _ _ _ _ _ Hl Hd _ _ _ _ (Hs & Hn & _) Hsub].
  unfold view in *. cbn -[cnt pending] in *. unfold past.
  assert (cnt (tells is_published id) (rt_trace c.1) = Nat.b2n (is_terminal (job_state j)) /\
          cnt (tells is_callback id) (rt_trace c.1) <= cnt (tells is_published id) (rt_trace c.1) /\
          cnt (tells is_taken id) (rt_trace c.1) <= cnt (tells is_published id) (rt_trace c.1))%nat as (H1 & H2 & H3)
    by (destruct (is_terminal (job_state j)); cbn in *; lia).
  split; [done|]. split; [lia|]. split; [done|]. split; [done|]. split; [done|]. split.
  - intros from t He. destruct (Hh _ He) as (_ & _ & j' & Hj' & <-). congruence.
  - intros r [He|He]; [|by apply (ri_output _ _ Hi id j)]. destruct (Hh _ He) as (j' & Hj' & Hst). congruence.
Qed.

(** C37. Admission control. Whatever the interleaving of submissions, workers,
    cancellations and shutdown, and as long as the job counter has not run out
    of IDs, the queue never holds more than [max_queue] jobs, and no owner has
    more than [max_jobs_per_owner] jobs that are not finished. *)
Theorem admission_bounds c :
  reachable c -> ids_left c ->
  (length (rt_queue c.1) <= rc_max_queue cfg)%nat /\
  forall owner ids, NoDup ids ->
    (forall id, id ∈ ids -> exists j, rt_jobs c.1 !! id = Some j /\ job_owner j = owner /\ is_terminal (job_state j) = false) ->
    (length ids <= rc_max_jobs_per_owner cfg)%nat.
Proof.
  intros Hr Hb. pose proof (reachable_inv c Hr Hb) as Hi. split; [apply (ri_length _ _ Hi)|]. intros owner ids Hnd Hids.
  etrans; [|apply (ri_ceiling _ _ Hi owner)]. rewrite (ri_owners _ _ Hi).
  assert (cnt (fun p => p.2 =? owner) (rt_active c.1) = length (filter (fun p => p.2 = owner) (rt_active c.1)).*1) as ->.
  { rewrite length_fmap. induction (rt_active c.1) as [|p l IH]; [done|]. rewrite filter_cons. cbn.
    destruct (N.eqb_spec p.2 owner); case_decide; try done; cbn; by rewrite IH. }
  apply submseteq_length, NoDup_submseteq; [done|]. intros id Hid. destruct (Hids id Hid) as (j & Hj & Ho & Ht).
  destruct (ri_job _ _ Hi id j Hj) as [_ _ _ _ _ _ Hl _ _ _ _ _ _ _]. unfold view in Hl. cbn -[cnt pending] in Hl. rewrite Ht in Hl.
  assert (0 < cnt (fun p => (id =? p.1)%N) (rt_active c.1))%nat as Hpos by (cbn in Hl; lia).
  apply cnt_pos in Hpos as (p & Hp & Heq). apply N.eqb_eq in Heq as ->. apply list_elem_of_fmap. exists p. split; [done|].
  apply list_elem_of_filter. split; [|done]. pose proof (ri_active _ _ Hi) as Ha. rewrite Forall_forall in Ha.
  destruct (Ha p Hp) as (j' & Hj' & Ho'). congruence.
Qed.

(** C4. Liveness: from any reachable configuration the threads, left to
    themselves, can make only a bounded number of steps before no thread can move, whatever the order in
    which they are scheduled, whichever waiting worker a notification wakes, and
    whatever the tasks return; and when none can
    move there is no deadlock: the queue is empty, only workers that wait in the
    condition variable are left and none after a shutdown was requested, every job that was ever submitted is in a terminal state, was published
    once and had its callback called once, no job is active, every owner's
    count is back to zero, and the counters balance
    ([submitted = completed + failed + cancelled], [running = 0]). *)
Theorem runtime_drains c :
  reachable c ->
  exists bound, forall k c', nsteps act_step k c c' ->
    (k <= bound)%nat /\ (idle c' -> ids_left c' -> drained c').
Proof.
  intros Hr. exists (rank c.1 (pending c.2)). intros k c' Hs.
  destruct (act_bounded k c c' Hs (reachable_shape c Hr)) as [Hk Hsh]. split; [done|]. intros Hidle Hb.
  assert (reachable c') as Hr'.
  { unfold reachable in *. etrans; [exact Hr|]. apply rtc_nsteps. exists k. clear -Hs.
    induction Hs as [|k x y z Hxy _ IH]; [constructor|]. econstructor; [by apply act_step_rt|done]. }
  apply idle_drained; auto using reachable_inv, reachable_history.
Qed.

End Runtime.

(** ** Runs that the theorems apply to *)

Module Demo.
Definition cfg : RuntimeConfig := mkRuntimeConfig 2 1 2 250.
Definition checked_add (now ms : N) : option N := Some (now + ms).
Definition runs (i n : nat) : list (@Move N) := replicate n (Run i (Some (Ok 7))).

(** Both workers wait. Clients 2 and 3 submit jobs for owner 5, the second of
    which expires in the queue; worker 0 runs the first while client 4 cancels
    it; client 5 takes the result of the first; worker 1 wakes up for nothing. *)
Definition schedule : list (@Move N) :=
  runs 0 1 ++ runs 1 1 ++ [Call (SubmitNow 5 None)] ++ runs 2 3 ++ runs 0 2 ++
  [Call (SubmitNow 5 (Some 10))] ++ runs 3 2 ++ runs 0 5 ++ runs 3 1 ++
  [Call (CancelFlag 1)] ++ runs 4 2 ++ [Tick 10] ++ runs 1 9 ++ runs 0 7 ++
  runs 4 1 ++ [Call (TakeLoad 1)] ++ runs 5 2 ++ [Spurious 1] ++ runs 1 1.
Definition at_move (n : nat) : @Shared N * list (list (@Action N)) :=
  default (rt_start cfg) (play cfg checked_add (take n schedule) (rt_start cfg)).
Definition submitted : @Shared N * list (list (@Action N)) := at_move 11.
Definition final : @Shared N * list (list (@Action N)) := at_move (length schedule).

Lemma reachable_at n c :
  play cfg checked_add (take n schedule) (rt_start cfg) = Some c -> reachable cfg checked_add c.
Proof. apply play_reachable. apply rtc_refl. Qed.

Lemma reachable_submitted : reachable cfg checked_add submitted.
Proof. apply (reachable_at 11). vm_compute. reflexivity. Qed.

Lemma reachable_final : reachable cfg checked_add final.
Proof. apply (reachable_at (length schedule)). vm_compute. reflexivity. Qed.

Lemma idle_final : idle cfg checked_add final.
Proof.
  rewrite (surjective_pairing final). apply workers_idle; [|vm_compute; reflexivity].
  assert (final.2 = [[WorkerWait]; [WorkerWait]; []; []; []; []]) as -> by (vm_compute; reflexivity).
  repeat (apply Forall_cons; split; [auto|]). apply Forall_nil. exact I.
Qed.
End Demo.

(** The cancelled job of the demonstration run. *)
Lemma job_published_once_witness :
  past is_published 1 Demo.final.1 = 1%nat /\ past is_run 1 Demo.final.1 = 1%nat /\
  exists j, rt_jobs Demo.final.1 !! 1 = Some j /\ job_state j = JCancelled /\
    past is_published 1 Demo.final.1 = Nat.b2n (is_terminal (job_state j)).
Proof.
  split; [vm_compute; reflexivity|]. split; [vm_compute; reflexivity|].
  destruct (rt_jobs Demo.final.1 !! 1) as [j|] eqn:Hj; [|vm_compute in Hj; discriminate Hj].
  exists j. split; [reflexivity|]. split; [vm_compute in Hj; injection Hj as <-; reflexivity|].
  exact (proj1 (proj2 (proj2 (job_published_once Demo.cfg Demo.checked_add Demo.final 1 j
    Demo.reachable_final eq_refl Hj)))).
Defined.

(** Both jobs of the owner are unfinished after the submissions. *)
Lemma admission_bounds_witness :
  (length [1; 2] <= rc_max_jobs_per_owner Demo.cfg)%nat /\ rt_queue Demo.submitted.1 = [2].
Proof.
  split; [|vm_compute; reflexivity].
  apply (proj2 (admission_bounds Demo.cfg Demo.checked_add Demo.submitted Demo.reachable_submitted eq_refl) 5 [1; 2]).
  - apply NoDup_cons; split; [set_solver|apply NoDup_singleton].
  - intros id Hid. assert (id = 1 \/ id = 2) as [-> | ->] by set_solver.
    + destruct (rt_jobs Demo.submitted.1 !! 1) as [j|] eqn:Hj; [|vm_compute in Hj; discriminate Hj].
      exists j. vm_compute in Hj. injection Hj as <-. repeat split.
    + destruct (rt_jobs Demo.submitted.1 !! 2) as [j|] eqn:Hj; [|vm_compute in Hj; discriminate Hj].
      exists j. vm_compute in Hj. injection Hj as <-. repeat split.
Defined.

(** The demonstration run is drained. *)
Lemma runtime_drains_witness : drained Demo.final.
Proof.
  destruct (runtime_drains Demo.cfg Demo.checked_add Demo.final Demo.reachable_final) as [bound Hb].
  destruct (Hb 0%nat Demo.final (nsteps_O _ _)) as [_ Hd]. apply Hd; [apply Demo.idle_final|]. reflexivity.
Defined.
